(* ===== verification/_CoqProject ===== *)
-Q . S2P
Prelude.v
Text.v
Utf8.v
Wire.v
Slices.v
LruCache.v
EventBus.v
Accum.v
Usage.v
UsageFacts.v
GatewayCred.v
Refs.v
Subjects.v
Fabric.v
Parking.v
Envelope.v
BoardGate.v
BoardProjection.v
BoardStack.v
BoardRefs.v
DeliveryHold.v
DeliveryRoute.v
DeliveryLoop.v
ControlLane.v
ControlDrain.v
Router.v
HubBindings.v
HubFrames.v
HubLocks.v
Presence.v
ConfigPaths.v
ConfigMerge.v
RunnerPublish.v
ForgeOwner.v
ForgeDetect.v
ForgeRoute.v
ForgeMarker.v
ForgeIntents.v
ForgeWrites.v
Threads.v
RunnerHost.v
RunnerHostFacts.v
RunnerHostTop.v
RunnerDispatch.v
ChannelTree.v
Blocks.v
Messages.v
MessageFacts.v
MirrorRender.v
MirrorMarks.v
ForgeMirrors.v
ForgeMirrorFacts.v
MirrorLeases.v
MirrorDrive.v
MirrorDriveFacts.v
DeliveryTables.v
DeliveryTablesFacts.v
DeliveryCursors.v
DeliveryCursorFacts.v
ChannelOps.v
ChannelSystem.v
ChannelFacts.v
ChannelHistory.v
LinearEvents.v
LinearEventsFacts.v
Programs.v
LinearAgent.v
LinearAgentFacts.v
BoardArm.v
BoardArmFacts.v
Transcripts.v
TranscriptFacts.v
TranscriptResume.v
TranscriptFlusher.v
