(* ===== verification/Prelude.v ===== *)
(** * Compass: a verification development

    Compass runs coding agents.  The Go program (src/go) has a Server with a PostgreSQL
    store, Runners that host the agents' containers, and clients.  This library translates
    the parts of it that decide something into executable definitions, and proves what they
    guarantee.

    ** The program and its parts

    - A client posts a message through the Server to the store, which keeps topics, blocks
      and asks (Blocks, Messages) in channels whose members follow the agent tree
      (ChannelTree); channels, members, policies and the agent tree are themselves written by
      the store (ChannelOps, ChannelSystem).  Changes go out on the event bus (EventBus) and on the NATS fabric
      (Subjects, Fabric, Parking).
    - Message delivery (DeliveryHold, DeliveryRoute, DeliveryLoop) holds a message until its
      author's turn has settled, and then steers, delivers or wakes the agents it concerns.
      What an agent has not acknowledged stays owed to it by its cursors (DeliveryTables,
      DeliveryCursors), and a sweep delivers it again.
    - What an agent's session writes is kept in two tiers, rows and archive segments, and put
      together again when the session resumes (Transcripts).
    - A command for an agent goes through the session-command router (Router) down the
      Runner's stream.  The Runner hub binds sessions and Runners (HubBindings), fences and
      orders the frames that come up (HubFrames, HubLocks) and feeds presence (Presence) and
      the board (BoardGate, BoardProjection, BoardStack, BoardRefs, with Refs).
    - On the Runner the dispatcher (RunnerDispatch) runs each command once against the
      session host (RunnerHost), which drives containers and agent processes; the control
      lane (ControlLane, ControlDrain) carries control operations to the agent, and the
      gateway publishes upstream (RunnerPublish).
    - An agent's config is merged from bundles (ConfigPaths, ConfigMerge); user secrets are
      sealed (Envelope); model credentials are pooled (GatewayCred); usage is accounted for
      (Usage).
    - Agents write to code forges.  Bodies are attributed (ForgeOwner); a create is recorded
      as an intent and recovered (ForgeMarker, ForgeIntents, ForgeWrites); forge events become
      notifications (ForgeDetect, ForgeRoute); asks and histories are mirrored as comments
      (MirrorRender, ForgeMirrors, MirrorDrive).  Forge events also refresh the board
      (BoardArm).  Sessions of the Linear agent come in over a webhook (LinearEvents) and are
      answered by the agent that owns the issue (LinearAgent).

    ** Files and sources (under src/go/internal/ unless said otherwise)

    Shared: Prelude (results, machine integers, finite maps), Text and Utf8 (Go strings),
    Slices (the slices package), Wire (generated types), Accum (keyed sums), LruCache (the
    interface of a third-party cache with an instance), Threads (goroutines with mutexes
    and a rely-guarantee logic), Programs (routines as programs over calls, with traces).

    - EventBus: go/events/events.go.  [Bus] is the implementation, [BusSystem] the bus with
      its readers, [BusSpec] the contract: one contiguous run of the log per subscriber.
    - Usage, UsageFacts: usage/usage.go, usage/memory.go.  Validation, buckets, idempotent
      appends, series against raw events, rebuild of rollups, pruning.
    - GatewayCred: gatewaycred/gatewaycred.go, memory.go.  Compare-and-set updates, pools.
    - Refs: refs/refs.go.  Parsing, printing and scanning of work references.
    - Subjects, Fabric, Parking: fabric/*.go.  Subject grammar, publication, the outcome of a
      delivery, dead-letter parking as a transition system.
    - Envelope: envelope/envelope.go.  Encryption with bound associated data.
    - BoardGate, BoardProjection, BoardStack, BoardRefs: board/pr_gate.go, projection.go (over
      the interface [EventLog], discharged by EventBus), stack.go, refs_derive.go.
    - DeliveryHold, DeliveryRoute, DeliveryLoop: delivery/settle.go, dispatch.go, scan.go,
      consumer.go.  The settle gate as operations on its state; routing as programs of calls
      whose traces are judged; the loop with its signal channel as a transition system.
    - ControlLane, ControlDrain: runner/gateway/control.go.
    - Router: runnerhub/router.go.  HubBindings: runnerhub/relay_comms.go, hub.go.
      HubFrames, HubLocks: runnerhub/hub.go.  Presence: presence/*.go.
    - ConfigPaths, ConfigMerge: store/agent_config*.go.
    - RunnerPublish: runner/gateway/publisher.go, publish.go, session_state.go.
    - RunnerHost, RunnerHostFacts, RunnerHostTop: runner/host.go, agent_exec.go.
      RunnerDispatch: runner/dispatch.go.
    - ForgeOwner: forge/owner.go.  ForgeDetect, ForgeRoute: ingest/notify_*.go.
    - ForgeMarker, ForgeIntents, ForgeWrites: forge/write_marker.go,
      store/forge_write_intents.go, go/server/forge_write_sweep.go, go/server/forge.go.
    - ChannelTree: store/authz.go and the recursive queries of store/queries.  Blocks:
      store/blocks.go.  Messages, MessageFacts: store/messages.go, topics.go.
    - DeliveryTables: store/delivery_reads.go, the tables and the participation queries.
      DeliveryCursors: store/delivery_cursors.go.  ChannelOps: store/channels.go, authz.go.
      ChannelSystem: store/dm.go, coordination.go, linear_routing.go, accounts.go, with
      comms/dm.go and comms/coordination.go.  The files with Facts hold their lemmas and
      theorems, ChannelHistory the step relation over all of these operations.
    - MirrorRender, MirrorMarks: mirror/render.go.  ForgeMirrors, ForgeMirrorFacts,
      MirrorLeases: store/forge_mirrors.go and its queries.  MirrorDrive, MirrorDriveFacts:
      mirror/drive.go.
    - LinearEvents: linearagent/webhook.go, data_event.go, go/server/linear_webhook.go.
      LinearAgent: linearagent/dispatcher.go, routing.go, go/server/linear_responder.go,
      store/linear_sessions.go.  BoardArm: ingest/board_webhook.go.
    - Transcripts: store/agent_transcripts.go, transcript_flusher.go, their queries,
      runnerhub/reconstruct.go, go/server/session_end_archive.go.  TranscriptFacts holds the
      invariant of the tables and the archive under concurrent flushes, TranscriptResume the
      theorems about resumes and lifetimes.  TranscriptFlusher: the worker of
      transcript_flusher.go that runs the flushes.

    A definition has the name of the Go function, type or query it translates; a Go method
    that is split at its critical sections has one definition for each section.

    ** What the theorems show

    - Messages: the tables are well-formed in every reachable state; an ask is answered once;
      what an append does; pages cover a channel; blocks read back as stored; the three
      formulations of participation agree.
    - Channels: an acknowledgment takes one message; no message beyond a cursor is lost or
      repeated over any history; everything that is delivered to has a cursor, outside the
      channels that a history spoils; the agent tree stays a tree; the queries from the agent and from the channel find the same targets.
    - Transcripts: a session resumes from its log since the latest checkpoint, whatever
      flushes have moved, raced over or left half done; a lifetime is bound above all rows; no
      flush that is asked for is forgotten.
    - Events and delivery: no subscriber has a gap; a post waits for its turn to settle and
      for no longer; no wakeup is lost; what a fan-out and the recovery scan do; what becomes
      of a fabric delivery; a message is parked once.
    - Runner: the host's container invariants and the end of every agent process; one host
      call per request; shutdown ends; the control lane delivers; upstream numbers are exact.
    - Hub: calls settle once; a binding does not survive the Runner that lost it; lifecycle
      frames keep their order; presence is published once.
    - Forge: one object per request key; one row per mirror key; leases exclude; a delivery
      keeps to its protocol; a recheck leaves one comment; a comment names only its own row;
      bodies keep to limits.  ForgeOwner and ForgeDetect have exact characterisations.
      No pull-request change is lost by the board's webhook arm, and what it holds back has a
      timer.
    - Linear agent: nothing unverified passes the webhook; a session event is posted once,
      replayed, ignored or reported; identifiers, freshness and replies are exact.
    - Usage: a rebuild repairs the rollups.  Configuration, credentials, references, secrets
      and the board have exact characterisations as theorems of their files.

    ** Conventions and bounds

    A Go string is a list of bytes ([bytes], Text) where its bytes matter and a [string]
    where it is an identifier or opaque.  An error is [Err] of the errors the code tells
    apart, a run-time panic is [Panic].  Machine integers wrap where the code can reach the
    bound ([i64], [u64], [add64]) and are written plainly where a check or a length keeps
    them away from it.  A Go map is a finite map, read with its zero value where the code
    does; iteration in Go's unspecified order is a parameter or any permutation.

    A loop that is not structural has fuel, and a lemma says it is enough: [Scan] the length
    of the text; [FormatUint] the bits of the number; [walk] of a stack the number of pull
    requests; [ReplaceAll], [ReplaceString] and [CountAll] one more than the length, as a
    match consumes a byte; the UTF-8 walks the length; [drain_loop] the length of its queue;
    [binarySearch] the length; the recovery scan one batch more than the rows fill; the
    sequence-gap walk one more than [maxMissingSeqs]; the walk of the agent tree one more
    than the number of agents, in both directions; the guard of a parent edge two more; the
    search for a coordination name one more than the channels; [OwningManager] one more than
    the accounts; the advance of a cursor one
    more than the acknowledged and skippable numbers; a page walk the number of messages; a mirror claim five
    transactions; [Threads.exec] the steps of a schedule, over which theorems quantify.
    [DriveOne] of a mirror has fuel without such a bound, for other writers can make its
    loop go on; its theorems are about one round.

    Concurrency: a critical section of a mutex or a store transaction is one step, and
    theorems hold over every interleaving of steps.  A hook of the delivery loop takes two,
    its section under the mutex and its later send on the channel.  A transaction that fails leaves the
    tables as they were.  Racing transactions are taken in the order in which the row locks
    and unique indexes put them.  A flush of a transcript is a thread ([Threads]) each step
    of which may fail, or take effect and lose its answer, and which may stop anywhere.  Of
    the agent it is relied on that it numbers its entries in order and sends them one after
    the other, each a single line but for checkpoints (the guard of [env]).

    Conditions that some theorems need, each with a run that shows it is needed or a finding:
    the posts held and edges queued of a session outlive it in the settle gate only while a
    recovery pass finds it live ([numbered], [numbered_drained] of DeliveryHold); a session
    id is started in one container only ([placed] of RunnerHostTop); the frames of a run
    name at most [maxLifecycleSeqs] sessions (HubFrames); a session is not archived at an end
    before its first checkpoint (TranscriptResume); of the channels, those that three
    transactions spoil are left out ([Spoiled] of ChannelFacts).  A promotion of HubBindings
    is of the account that owns the session id, as the store keeps an id to one account; in
    RunnerDispatch the goroutine that closes the stream when the context ends is no step of
    its own: a receive may fail at any time.

    ** Parameters

    Code that is not under src/ is an argument, with what is relied on as named hypotheses,
    each instantiated by a concrete function in the witnesses: JSON and protobuf encoding
    (reading back what was written), SHA-256, AES-GCM, JetStream and core NATS, the
    third-party LRU cache, tar, gzip and YAML, the id generators ([newID]: injective on the
    counter), the database's [lower], the order of rows a query leaves open ([pick]), the handle of an account ([handle_of]), and the answers
    of engines, forges, links and stores where they are inputs of a component.  What a forge
    is relied on for in ForgeWrites stands in the guards of its steps; in MirrorDriveFacts
    it is [valid].

    ** Not modelled

    - Server assembly (go/server), flags and process start (go/cmd): wiring and translation
      of wire types into calls of the components.
    - The HTTP clients of the forges, OIDC, and the engines (podman, microVM, guest): the
      behaviour that matters is that of the remote or of the kernel.
    - Stores whose logic is a join (channel lists, visibility, board views): SQL without a
      decision in Go, except where a component above depends on the query, which is then
      translated with it.
    - Files, sockets and signals of the host: config materialisation, snapshots, local and
      embedded stacks.
    - Generated code (sqlc, protobuf, connect), logging, spans and metrics.
    The next parts in line are the timers of mirror rechecks (go/server/forge_mirror.go)
    and the merge-queue ingest. *)
From stdpp Require Import base gmap sorting strings list fin_maps.
From Stdlib Require Import ZArith Lia.

(** * Fallible code *)

(** A Go call either returns a value, returns an error, or panics. *)
Inductive result (E A : Type) : Type :=
| Ok (a : A)
| Err (e : E)
| Panic.
Arguments Ok {E A} a.
Arguments Err {E A} e.
Arguments Panic {E A}.

Declare Scope go_scope.
Delimit Scope go_scope with go.

Definition rbind {E A B} (c : result E A) (k : A → result E B) : result E B :=
  match c with
  | Ok a => k a
  | Err e => Err e
  | Panic => Panic
  end.

Notation "x <-? c ; k" := (rbind c (λ x, k))
  (at level 100, c at next level, k at level 200, right associativity) : go_scope.
Open Scope go_scope.

Lemma rbind_Ok {E A B} (c : result E A) (k : A → result E B) b :
  rbind c k = Ok b ↔ ∃ a, c = Ok a ∧ k a = Ok b.
Proof. destruct c; simpl; naive_solver. Qed.

(** * Machine integers *)

Open Scope Z_scope.

Definition u64 (z : Z) : Z := z mod 2 ^ 64.
Definition i64 (z : Z) : Z := (z + 2 ^ 63) mod 2 ^ 64 - 2 ^ 63.
Definition MinInt64 : Z := - 2 ^ 63.
Definition MaxInt64 : Z := 2 ^ 63 - 1.
Definition MaxUint32 : Z := 2 ^ 32 - 1.

Definition in_i64 (z : Z) : Prop := MinInt64 ≤ z ≤ MaxInt64.

Lemma u64_small z : 0 ≤ z < 2 ^ 64 → u64 z = z.
Proof. apply Z.mod_small. Qed.

Lemma i64_small z : in_i64 z → i64 z = z.
Proof.
  unfold in_i64, i64, MinInt64, MaxInt64. intros H.
  rewrite Z.mod_small; lia.
Qed.

Lemma i64_range z : in_i64 (i64 z).
Proof.
  unfold in_i64, i64, MinInt64, MaxInt64.
  pose proof (Z.mod_pos_bound (z + 2 ^ 63) (2 ^ 64)). lia.
Qed.

Lemma i64_add_l a b : i64 (i64 a + b) = i64 (a + b).
Proof.
  unfold i64. f_equal.
  replace ((a + 2 ^ 63) mod 2 ^ 64 - 2 ^ 63 + b + 2 ^ 63)
    with ((a + 2 ^ 63) mod 2 ^ 64 + b) by lia.
  rewrite Zplus_mod_idemp_l. f_equal. lia.
Qed.

Lemma i64_add_r a b : i64 (a + i64 b) = i64 (a + b).
Proof. rewrite Z.add_comm, i64_add_l. f_equal. lia. Qed.

Lemma i64_idemp a : i64 (i64 a) = i64 a.
Proof. apply i64_small, i64_range. Qed.

(** Wrapping addition, [a + b] on [int64]. *)
Definition add64 (a b : Z) : Z := i64 (a + b).

Lemma add64_comm a b : add64 a b = add64 b a.
Proof. unfold add64. f_equal. lia. Qed.

Lemma add64_assoc a b c : add64 a (add64 b c) = add64 (add64 a b) c.
Proof. unfold add64. rewrite i64_add_r, i64_add_l. f_equal. lia. Qed.

Create HintDb go.
#[export] Hint Resolve i64_range : go.
#[export] Hint Rewrite i64_add_l i64_add_r i64_idemp : go.

(** * Sorting

    [sort.Slice] and [slices.SortFunc] are modelled by stdpp's merge sort on the
    order that the comparator decides. *)

Lemma sorted_perm_unique {A} (R : relation A) `{!Transitive R, !AntiSymm (=) R} l1 l2 :
  Sorted R l1 → Sorted R l2 → l1 ≡ₚ l2 → l1 = l2.
Proof. apply Sorted_unique; apply _. Qed.

Lemma sorted_filter {A} (R : relation A) (P : A → Prop) `{∀ x, Decision (P x)} l : StronglySorted R l → StronglySorted R (filter P l).
Proof.
  induction 1 as [|x l _ IH Hx]; [constructor|]. rewrite filter_cons. case_decide; [|done]. constructor; [done|].
  apply Forall_forall. intros y [_ Hy]%list_elem_of_filter. rewrite Forall_forall in Hx. by apply Hx.
Qed.

(** A list in strict order of a number is what sorting by the number makes of any
    permutation of it. *)
Lemma merge_sort_by {A} (f : A → Z) (R : relation A) `{∀ a b, Decision (R a b)} l k :
  (∀ a b, R a b ↔ f a ≤ f b) → StronglySorted (λ a b, f a < f b) l → k ≡ₚ l → merge_sort R k = l.
Proof.
  intros HR Hl Hkl. assert (Transitive R) by (intros a b c; rewrite !HR; lia). assert (Total R) by (intros a b; rewrite !HR; lia).
  pose proof (StronglySorted_merge_sort R k) as Hm. assert (merge_sort R k ≡ₚ l) as Hp by (by rewrite merge_sort_Permutation).
  revert Hm Hp. generalize (merge_sort R k). clear Hkl k. induction Hl as [|e l Hs IH Hf]; intros k Hk Hp; [by apply Permutation_nil_r in Hp|].
  destruct k as [|g k]; [by apply Permutation_nil_l in Hp|]. apply StronglySorted_inv in Hk as [Hk Hg]. rewrite Forall_forall in Hf, Hg.
  assert (g = e) as ->.
  { assert (g ∈ e :: l) as [?|Hge]%elem_of_cons by (rewrite <- Hp; left); [done|]. assert (e ∈ g :: k) as [?|He]%elem_of_cons by (rewrite Hp; left); [done|].
    apply Hf in Hge. apply Hg in He. rewrite HR in He. lia. }
  f_equal. apply IH; [done|]. by apply Permutation_cons_inv in Hp.
Qed.

(** * Lists *)

Lemma lookup_snoc_lt {A} (l : list A) x i : (i < length l)%nat → (l ++ [x]) !! i = l !! i.
Proof. intros. by apply lookup_app_l. Qed.

Lemma filter_all {A} (P : A → Prop) `{∀ x, Decision (P x)} l :
  Forall P l → filter P l = l.
Proof.
  induction 1 as [|x l Hx _ IH]; [done|]. by rewrite filter_cons_True, IH.
Qed.

Lemma filter_none {A} (P : A → Prop) `{∀ x, Decision (P x)} l :
  Forall (λ x, ¬ P x) l → filter P l = [].
Proof.
  induction 1 as [|x l Hx _ IH]; [done|]. by rewrite filter_cons_False, IH.
Qed.

(** Two prefixes of one list are comparable, a suffix of a snoc is a snoc. *)
Lemma drop_snoc {A} (l : list A) x n :
  (n ≤ length l)%nat → drop n (l ++ [x]) = drop n l ++ [x].
Proof. intros. rewrite drop_app_le by done. done. Qed.

Lemma decide_elem_cons {A B} `{EqDecision A} (x y : A) l (a b : B) :
  (if decide (x ∈ y :: l) then a else b) =
  if decide (x ∈ l) then a else if decide (y = x) then a else b.
Proof. repeat case_decide; set_solver. Qed.

(** * Maps read with a default

    A Go map read [m[k]] of an absent key gives the zero value. *)
Definition mget {K A} `{Countable K} (z : A) (m : gmap K A) (k : K) : A :=
  default z (m !! k).

Lemma mget_insert_eq {K A} `{Countable K} (z : A) (m : gmap K A) k v :
  mget z (<[k:=v]> m) k = v.
Proof. unfold mget. by rewrite lookup_insert_eq. Qed.

Lemma mget_insert_ne {K A} `{Countable K} (z : A) (m : gmap K A) k k' v :
  k ≠ k' → mget z (<[k:=v]> m) k' = mget z m k'.
Proof. intros. unfold mget. by rewrite lookup_insert_ne. Qed.

#[export] Hint Rewrite @mget_insert_eq : go.

(** * Counting the entries of a map *)

Definition mcount {K A} `{Countable K} (P : A → Prop) `{∀ x, Decision (P x)} (m : gmap K A) : Z :=
  Z.of_nat (size (filter (λ p, P p.2) m)).

Section mcount.
Context {K A : Type} `{Countable K} (P : A → Prop) `{∀ x, Decision (P x)}.
Implicit Types m : gmap K A.

Lemma mcount_insert_new m k x :
  m !! k = None → mcount P (<[k := x]> m) = mcount P m + (if decide (P x) then 1 else 0).
Proof.
  intros Hn. unfold mcount. rewrite map_filter_insert. simpl. case_decide.
  - rewrite map_size_insert_None; [lia|]. apply map_lookup_filter_None. auto.
  - rewrite delete_id by done. lia.
Qed.

Lemma mcount_delete m k x :
  m !! k = Some x → mcount P (delete k m) = mcount P m - (if decide (P x) then 1 else 0).
Proof.
  intros Hu. rewrite <- (insert_delete_id m k x) at 2 by done.
  rewrite mcount_insert_new by apply lookup_delete_eq. lia.
Qed.

Lemma mcount_insert_same m k x y :
  m !! k = Some x → (P y ↔ P x) → mcount P (<[k := y]> m) = mcount P m.
Proof.
  intros Hu El. rewrite <- (insert_delete_id m k x) at 2 by done.
  rewrite <- (insert_delete_eq m k y). rewrite !mcount_insert_new by apply lookup_delete_eq.
  repeat case_decide; tauto.
Qed.

Lemma mcount_zero m : (∀ k x, m !! k = Some x → ¬ P x) → mcount P m = 0.
Proof.
  intros Hn. unfold mcount. replace (filter (λ p : K * A, P p.2) m) with (∅ : gmap K A); [done|].
  symmetry. apply map_empty. intros k. apply map_lookup_filter_None. right. intros x Hx. simpl. eauto.
Qed.

Lemma mcount_pos m k x : m !! k = Some x → P x → 0 < mcount P m.
Proof.
  intros Hu El. pose proof (mcount_delete m k x Hu) as Hd. rewrite decide_True in Hd by done.
  unfold mcount in *. lia.
Qed.

Lemma mcount_nonneg m : 0 ≤ mcount P m.
Proof. unfold mcount. lia. Qed.
End mcount.

(** * Tactics *)

(** Split conjunctions and solve the leaves by arithmetic or assumption. *)
Ltac easy_split := split_and!; try done; try lia; eauto with go.

(** Case analysis on the head of the first [match] or [if] of the goal or of a
    hypothesis, keeping the equation. *)
Ltac go_case :=
  match goal with
  | |- context [if decide ?P then _ else _] => destruct (decide P)
  | |- context [match ?x with _ => _ end] => destruct x eqn:?
  end.

Ltac go_case_in H :=
  match type of H with
  | context [if decide ?P then _ else _] => destruct (decide P)
  | context [match ?x with _ => _ end] => destruct x eqn:?
  end.
