(* ===== verification/Text.v ===== *)
(** Byte strings as Go has them: slices, runs of a byte class, decimal numbers
    ([strconv.FormatUint], [FormatInt], [ParseUint]), [strings.Split] on one
    byte, [strings.ToLower] on ASCII, [strings.Contains]. Used by the reference
    grammar, the subject grammar and the associated-data encoding. *)
From stdpp Require Import base list strings.
From Stdlib Require Import ZArith Lia Ascii.
From Stdlib Require String.
From S2P Require Import Prelude.

Open Scope nat_scope.

(** A Go string is a sequence of bytes. *)
Notation bytes := (list ascii).

Definition lit (s : string) : bytes := String.list_ascii_of_string s.

Definition code (c : ascii) : nat := nat_of_ascii c.

(** [s[i:j]] for [i <= j <= len s]. *)
Definition slice (s : bytes) (i j : nat) : bytes := take (j - i) (drop i s).

(** [i < len(s) && s[i] == c]. *)
Definition is_byte (s : bytes) (i : nat) (c : ascii) : bool := bool_decide (s !! i = Some c).

Fixpoint prefix_len (p : ascii → bool) (s : bytes) : nat :=
  match s with
  | c :: s' => if p c then S (prefix_len p s') else 0
  | [] => 0
  end.

(** The index at which the maximal run of [p] bytes from [i] ends. *)
Definition run (s : bytes) (i : nat) (p : ascii → bool) : nat :=
  i + prefix_len p (drop i s).

Fixpoint has_prefix (pre s : bytes) : bool :=
  match pre, s with
  | [], _ => true
  | a :: pre', b :: s' => bool_decide (a = b) && has_prefix pre' s'
  | _ :: _, [] => false
  end.

Definition cut_prefix (p s : bytes) : option bytes :=
  if has_prefix p s then Some (drop (length p) s) else None.

(** Go's [<=] on strings: byte order. *)
Fixpoint bytes_leb (p q : bytes) : bool :=
  match p, q with
  | [], _ => true
  | _ :: _, [] => false
  | a :: p, b :: q => (code a <? code b) || (code a =? code b) && bytes_leb p q
  end.

(** [strings.Contains]. *)
Fixpoint contains (s sub : bytes) : bool :=
  has_prefix sub s || match s with [] => false | _ :: s' => contains s' sub end.

(** [strings.IndexByte(s, c) >= 0]. *)
Definition has_byte (c : ascii) (s : bytes) : bool := existsb (λ d, bool_decide (d = c)) s.

(** [strings.Split(s, sep)] for a one-byte separator: never empty. *)
Fixpoint split (sep : ascii) (s : bytes) : list bytes :=
  match s with
  | [] => [[]]
  | c :: s' =>
      if bool_decide (c = sep) then [] :: split sep s'
      else match split sep s' with
           | w :: ws => (c :: w) :: ws
           | [] => [[c]]
           end
  end.

(** [strings.Join]. *)
Fixpoint join (sep : ascii) (ws : list bytes) : bytes :=
  match ws with
  | [] => []
  | [w] => w
  | w :: ws' => w ++ sep :: join sep ws'
  end.

Definition lower_byte (c : ascii) : ascii :=
  if (65 <=? code c) && (code c <=? 90) then ascii_of_nat (code c + 32) else c.

(** [strings.ToLower] on a string of ASCII bytes. *)
Definition ToLower (s : bytes) : bytes := lower_byte <$> s.

(** [strings.TrimSpace]: the UTF-8 encodings of the white-space runes are dropped
    from both ends; a rune is white space whatever stands around it, so the end is
    trimmed on the reversed bytes. *)
Definition byte_seq (ns : list nat) : bytes := ascii_of_nat <$> ns.

Definition ws_runes : list bytes :=
  byte_seq <$>
    ([[9]; [10]; [11]; [12]; [13]; [32]; [194; 133]; [194; 160]; [225; 154; 128];
      [226; 128; 168]; [226; 128; 169]; [226; 128; 175]; [226; 129; 159]; [227; 128; 128]]
     ++ ((λ n, [226; 128; n]) <$> seq 128 11)).

Fixpoint drop_runes (fuel : nat) (ws : list bytes) (s : bytes) : bytes :=
  match fuel with
  | O => s
  | S fuel' =>
      match filter (λ r, has_prefix r s = true) ws with
      | r :: _ => drop_runes fuel' ws (drop (length r) s)
      | [] => s
      end
  end.

Definition TrimSpace (s : bytes) : bytes :=
  let l := drop_runes (length s) ws_runes s in
  reverse (drop_runes (length l) (reverse <$> ws_runes) (reverse l)).

(** ** Decimal numbers *)

Definition digit (n : N) : ascii := ascii_of_N (48 + n).

Definition digit_val (c : ascii) : N := (N_of_ascii c - 48)%N.

Definition is_digit (c : ascii) : bool := (48 <=? code c) && (code c <=? 57).

Fixpoint digits (fuel : nat) (n : N) (acc : bytes) : bytes :=
  match fuel with
  | O => acc
  | S fuel' =>
      let acc' := digit (n mod 10) :: acc in
      if (n <? 10)%N then acc' else digits fuel' (n / 10) acc'
  end.

(** [strconv.FormatUint(n, 10)]; [N.size_nat n] digits are always enough, as a
    decimal digit holds more than one bit. *)
Definition FormatUint (n : N) : bytes := digits (S (N.size_nat n)) n [].

(** [strconv.FormatInt(z, 10)]. *)
Definition FormatInt (z : Z) : bytes :=
  if (z <? 0)%Z then "-"%char :: FormatUint (Z.to_N (- z)) else FormatUint (Z.to_N z).

Definition decimal (s : bytes) : N := foldl (λ n c, 10 * n + digit_val c)%N 0%N s.

(** [strconv.ParseUint(s, 10, 64)]: no digits, a byte that is no digit and a
    value above 64 bits are errors. *)
Definition ParseUint (s : bytes) : option N :=
  match s with
  | [] => None
  | _ =>
      if forallb is_digit s then
        if (decimal s <? 2 ^ 64)%N then Some (decimal s) else None
      else None
  end.

(** ** Runs *)

Lemma prefix_len_le p s : prefix_len p s ≤ length s.
Proof. induction s as [|c s IH]; simpl; [done|]. destruct (p c); lia. Qed.

Lemma prefix_len_in p s j c : j < prefix_len p s → s !! j = Some c → p c = true.
Proof.
  revert j; induction s as [|d s IH]; intros j Hj Hc; simpl in *; [lia|].
  destruct (p d) eqn:Hd; [|lia]. destruct j as [|j]; simpl in Hc; [congruence|].
  apply (IH j); [lia|done].
Qed.

Lemma prefix_len_stop p s c : s !! prefix_len p s = Some c → p c = false.
Proof.
  induction s as [|d s IH]; simpl; [done|].
  destruct (p d) eqn:Hd; simpl; [apply IH|]. congruence.
Qed.

Section Run.
Context (s : bytes) (p : ascii → bool).

Lemma run_ge i : i ≤ run s i p.
Proof. unfold run. lia. Qed.

Lemma run_le i : i ≤ length s → run s i p ≤ length s.
Proof. intros. unfold run. pose proof (prefix_len_le p (drop i s)). rewrite length_drop in *. lia. Qed.

Lemma run_in i j c : i ≤ j → j < run s i p → s !! j = Some c → p c = true.
Proof.
  unfold run. intros Hij Hj Hc. apply (prefix_len_in p (drop i s) (j - i)); [lia|].
  rewrite lookup_drop, <- Hc. f_equal. lia.
Qed.

Lemma run_stop i c : s !! run s i p = Some c → p c = false.
Proof. unfold run. rewrite <- lookup_drop. apply prefix_len_stop. Qed.

(** The end of a run is determined by its three facts. *)
Lemma run_unique i e :
  i ≤ e → e ≤ length s →
  (∀ j c, i ≤ j → j < e → s !! j = Some c → p c = true) →
  (∀ c, s !! e = Some c → p c = false) →
  run s i p = e.
Proof.
  intros Hie He Hin Hstop.
  assert (Hi : i ≤ length s) by lia.
  pose proof (run_ge i) as Hge. pose proof (run_le i Hi) as Hle.
  destruct (lt_eq_lt_dec (run s i p) e) as [[Hlt|Heq]|Hgt]; [|done|].
  - destruct (lookup_lt_is_Some_2 s (run s i p)) as [c Hc]; [lia|].
    pose proof (run_stop i c Hc). pose proof (Hin _ c Hge Hlt Hc). congruence.
  - destruct (lookup_lt_is_Some_2 s e) as [c Hc]; [lia|].
    pose proof (run_in i e c Hie Hgt Hc). pose proof (Hstop c Hc). congruence.
Qed.
End Run.

(** ** Slices *)

Lemma length_slice s i j : i ≤ j → j ≤ length s → length (slice s i j) = j - i.
Proof. intros. unfold slice. rewrite length_take, length_drop. lia. Qed.

Lemma lookup_slice s i j k : k < j - i → slice s i j !! k = s !! (i + k).
Proof. intros. unfold slice. by rewrite lookup_take_lt, lookup_drop by lia. Qed.

Lemma lookup_slice_ge s i j k : i ≤ j → j ≤ length s → j - i ≤ k → slice s i j !! k = None.
Proof. intros. apply lookup_ge_None_2. rewrite length_slice; lia. Qed.

Lemma slice_slice s i j a b :
  b ≤ j - i → slice (slice s i j) a b = slice s (i + a) (i + b).
Proof.
  intros. unfold slice. rewrite skipn_firstn_comm, take_take, drop_drop.
  f_equal. lia.
Qed.

Lemma slice_all s : slice s 0 (length s) = s.
Proof. unfold slice. rewrite drop_0, Nat.sub_0_r. apply firstn_all. Qed.

Lemma slice_app s1 s2 : slice (s1 ++ s2) 0 (length s1) = s1.
Proof. unfold slice. rewrite drop_0, Nat.sub_0_r. apply take_app_length. Qed.

Lemma slice_mid s1 s2 s3 :
  slice (s1 ++ s2 ++ s3) (length s1) (length s1 + length s2) = s2.
Proof.
  unfold slice. rewrite drop_app_length.
  replace (length s1 + length s2 - length s1) with (length s2) by lia.
  apply take_app_length.
Qed.

Lemma is_byte_spec s i c : is_byte s i c = true ↔ s !! i = Some c.
Proof. unfold is_byte. by rewrite bool_decide_eq_true. Qed.

Lemma is_byte_false s i c : is_byte s i c = false ↔ s !! i ≠ Some c.
Proof. unfold is_byte. by rewrite bool_decide_eq_false. Qed.

Lemma forallb_lookup (p : ascii → bool) s i c :
  forallb p s = true → s !! i = Some c → p c = true.
Proof.
  rewrite forallb_forall. intros H Hi. apply H.
  apply list_elem_of_In. by eapply list_elem_of_lookup_2.
Qed.

Lemma forallb_slice_run s i p : i ≤ length s → forallb p (slice s i (run s i p)) = true.
Proof.
  intros Hi. apply forallb_forall. intros c Hc. apply list_elem_of_In, list_elem_of_lookup in Hc as [k Hk].
  pose proof (run_ge s p i). pose proof (run_le s p i Hi).
  pose proof (lookup_lt_Some _ _ _ Hk) as Hlt. rewrite length_slice in Hlt by done.
  rewrite lookup_slice in Hk by done. apply (run_in s p i (i + k)); [lia|lia|done].
Qed.

(** The run over a prefix of class bytes followed by a byte outside the class. *)
Lemma run_app p s1 s2 s3 :
  forallb p s2 = true → (∀ c, s3 !! 0 = Some c → p c = false) →
  run (s1 ++ s2 ++ s3) (length s1) p = length s1 + length s2.
Proof.
  intros Hin Hstop. apply run_unique.
  - lia.
  - rewrite !length_app. lia.
  - intros j c Hj Hlt Hc. rewrite lookup_app_r in Hc by lia.
    rewrite lookup_app_l in Hc by lia. by eapply forallb_lookup.
  - intros c Hc. rewrite lookup_app_r in Hc by lia.
    rewrite lookup_app_r in Hc by lia. apply Hstop. rewrite <- Hc. f_equal. lia.
Qed.

(** ** Decimal round trip *)

Lemma digit_is_digit n : (n < 10)%N → is_digit (digit n) = true.
Proof.
  intros H. unfold is_digit, digit, code, nat_of_ascii.
  rewrite N_ascii_embedding by lia.
  apply andb_true_intro; split; apply Nat.leb_le; lia.
Qed.

Lemma digit_val_digit n : (n < 10)%N → digit_val (digit n) = n.
Proof. intros H. unfold digit_val, digit. rewrite N_ascii_embedding by lia. lia. Qed.

Lemma decimal_snoc s c : decimal (s ++ [c]) = (10 * decimal s + digit_val c)%N.
Proof. unfold decimal. by rewrite foldl_app. Qed.

Lemma digits_spec fuel n acc :
  (n < 2 ^ N.of_nat fuel)%N → fuel ≠ 0 →
  ∃ ds, digits fuel n acc = ds ++ acc ∧ ds ≠ [] ∧ forallb is_digit ds = true ∧ decimal ds = n.
Proof.
  revert n acc; induction fuel as [|fuel IH]; intros n acc Hn Hf; [done|].
  cbn [digits]. pose proof (N.mod_lt n 10 ltac:(done)) as Hm.
  destruct (N.ltb_spec n 10) as [Hlt|Hge].
  - exists [digit (n mod 10)]. split_and!; [done|done|..].
    + cbn. by rewrite digit_is_digit.
    + unfold decimal; cbn [foldl]. rewrite digit_val_digit by done.
      rewrite N.mod_small by done. lia.
  - rewrite Nat2N.inj_succ, N.pow_succ_r' in Hn.
    pose proof (N.div_mod n 10 ltac:(done)) as Hdm.
    destruct (IH (n / 10)%N (digit (n mod 10) :: acc)) as (ds & -> & Hne & Hd & Hv).
    + apply N.Div0.div_lt_upper_bound. lia.
    + intros ->. cbn in Hn. lia.
    + exists (ds ++ [digit (n mod 10)]). split_and!.
      * by rewrite <- app_assoc.
      * by destruct ds.
      * rewrite forallb_app, Hd. cbn. by rewrite digit_is_digit.
      * rewrite decimal_snoc, Hv, digit_val_digit by done. lia.
Qed.

Lemma size_nat_bound n : (n < 2 ^ N.of_nat (S (N.size_nat n)))%N.
Proof.
  apply N.lt_le_trans with (2 ^ N.size n)%N; [apply N.size_gt|].
  apply N.pow_le_mono_r; [done|]. rewrite Nat2N.inj_succ.
  assert (N.of_nat (N.size_nat n) = N.size n) as -> by (destruct n; [done|]; simpl;
    induction p; simpl; try rewrite <- IHp; lia). lia.
Qed.

Lemma FormatUint_spec n :
  FormatUint n ≠ [] ∧ forallb is_digit (FormatUint n) = true ∧ decimal (FormatUint n) = n.
Proof.
  unfold FormatUint.
  destruct (digits_spec (S (N.size_nat n)) n []) as (ds & -> & H); [apply size_nat_bound|done|].
  by rewrite app_nil_r.
Qed.

Lemma FormatUint_inj n m : FormatUint n = FormatUint m → n = m.
Proof.
  intros H. destruct (FormatUint_spec n) as (_ & _ & <-). destruct (FormatUint_spec m) as (_ & _ & <-).
  by rewrite H.
Qed.

Lemma ParseUint_FormatUint n : (n < 2 ^ 64)%N → ParseUint (FormatUint n) = Some n.
Proof.
  intros Hn. destruct (FormatUint_spec n) as (Hne & Hd & Hv). unfold ParseUint.
  destruct (FormatUint n) as [|c s] eqn:E; [done|].
  rewrite Hd, Hv. by rewrite (proj2 (N.ltb_lt _ _) Hn).
Qed.

Lemma FormatInt_inj a b : FormatInt a = FormatInt b → a = b.
Proof.
  assert (Hm : ∀ n l, FormatUint n ≠ "-"%char :: l).
  { intros n l H. destruct (FormatUint_spec n) as (_ & Hd & _). by rewrite H in Hd. }
  unfold FormatInt. destruct (Z.ltb_spec a 0), (Z.ltb_spec b 0); intros H'.
  - injection H' as H'. apply FormatUint_inj in H'. lia.
  - by symmetry in H'; apply Hm in H'.
  - by apply Hm in H'.
  - apply FormatUint_inj in H'. lia.
Qed.

(** ** Separators *)

Lemma has_prefix_spec pre s : has_prefix pre s = true ↔ ∃ r, s = pre ++ r.
Proof.
  revert s. induction pre as [|a pre IH]; intros s; simpl; [naive_solver|].
  destruct s as [|b s]; [naive_solver|]. rewrite andb_true_iff, bool_decide_eq_true, IH. naive_solver.
Qed.

(** [strings.CutPrefix]. *)
Lemma cut_prefix_app p r : cut_prefix p (p ++ r) = Some r.
Proof. unfold cut_prefix. rewrite (proj2 (has_prefix_spec p (p ++ r))); [by rewrite drop_app_length|eauto]. Qed.

Lemma cut_prefix_Some p s r : cut_prefix p s = Some r ↔ s = p ++ r.
Proof.
  split; [|intros ->; apply cut_prefix_app]. unfold cut_prefix.
  destruct (has_prefix p s) eqn:E; [|done]. apply has_prefix_spec in E as [r' ->].
  rewrite drop_app_length. by intros [= ->].
Qed.

Lemma code_inj a b : code a = code b → a = b.
Proof. unfold code. intros E. by rewrite <- (ascii_nat_embedding a), E, ascii_nat_embedding. Qed.

Lemma bytes_leb_spec a b p q :
  bytes_leb (a :: p) (b :: q) = true ↔ code a < code b ∨ a = b ∧ bytes_leb p q = true.
Proof.
  simpl. rewrite orb_true_iff, andb_true_iff, Nat.ltb_lt, Nat.eqb_eq. split; intros [?|[E ?]]; auto.
  - right. split; [by apply code_inj|done].
  - right. by rewrite E.
Qed.

Lemma bytes_leb_refl p : bytes_leb p p = true.
Proof. induction p as [|a p IH]; [done|]. apply bytes_leb_spec. auto. Qed.

Lemma bytes_leb_total p q : bytes_leb p q = true ∨ bytes_leb q p = true.
Proof.
  revert q. induction p as [|a p IH]; intros [|b q]; auto. rewrite !bytes_leb_spec.
  destruct (lt_eq_lt_dec (code a) (code b)) as [[?|E]|?]; auto. apply code_inj in E as ->.
  destruct (IH q); auto.
Qed.

Lemma bytes_leb_trans p q r : bytes_leb p q = true → bytes_leb q r = true → bytes_leb p r = true.
Proof.
  revert q r. induction p as [|a p IH]; intros [|b q] [|c r]; try done. rewrite !bytes_leb_spec.
  intros [?|[-> ?]] [?|[-> ?]]; auto; [left; lia|right; eauto].
Qed.

Lemma bytes_leb_antisym p q : bytes_leb p q = true → bytes_leb q p = true → p = q.
Proof.
  revert q. induction p as [|a p IH]; intros [|b q]; try done. rewrite !bytes_leb_spec.
  intros [?|[-> ?]] [?|[E ?]]; try lia; [subst; lia|]. f_equal. auto.
Qed.

Lemma has_byte_false c s : has_byte c s = false ↔ c ∉ s.
Proof.
  unfold has_byte. split.
  - intros H Hin. apply not_true_iff_false in H. apply H, existsb_exists.
    exists c. split; [by apply list_elem_of_In|by apply bool_decide_eq_true].
  - intros Hn. apply not_true_iff_false. intros (d & Hd%list_elem_of_In & ->%bool_decide_eq_true)%existsb_exists.
    done.
Qed.

(** Up to its first separator a string determines both parts. *)
Lemma sep_inj c (a b x y : bytes) :
  c ∉ a → c ∉ b → a ++ c :: x = b ++ c :: y → a = b ∧ x = y.
Proof.
  revert b; induction a as [|d a IH]; intros [|e b] Ha Hb H; simpl in *.
  - by injection H.
  - injection H as -> _. destruct Hb. left.
  - injection H as -> _. destruct Ha. left.
  - injection H as -> H. destruct (IH b) as [-> ->]; [by intros ?; destruct Ha; right| |done|done].
    by intros ?; destruct Hb; right.
Qed.

Lemma last_sep_inj c (a b x y : bytes) :
  c ∉ x → c ∉ y → a ++ c :: x = b ++ c :: y → a = b ∧ x = y.
Proof.
  intros Hx Hy H%(f_equal reverse). rewrite !reverse_app, !reverse_cons, <- !app_assoc in H.
  apply sep_inj in H as [Hr Hl]; [|by rewrite elem_of_reverse..].
  by split; apply (inj reverse).
Qed.

Lemma app_length_inj (a b x y : bytes) : length a = length b → a ++ x = b ++ y → a = b ∧ x = y.
Proof. intros. by apply app_inj_1. Qed.

Lemma split_no_sep sep s : sep ∉ s → split sep s = [s].
Proof.
  induction s as [|c s IH]; intros H; [done|]. simpl.
  rewrite bool_decide_eq_false_2 by (intros ->; destruct H; left).
  rewrite IH; [done|]. intros ?; destruct H; by right.
Qed.

Lemma split_cons sep w s : sep ∉ w → split sep (w ++ sep :: s) = w :: split sep s.
Proof.
  induction w as [|c w IH]; intros H; simpl.
  - by rewrite bool_decide_eq_true_2.
  - rewrite bool_decide_eq_false_2 by (intros ->; destruct H; left).
    rewrite IH; [done|]. intros ?; destruct H; by right.
Qed.

Lemma split_not_nil sep s : split sep s ≠ [].
Proof.
  destruct s as [|c s]; simpl; [done|]. destruct (bool_decide _); [done|]. by destruct (split sep s).
Qed.

Lemma join_cons sep w ws : ws ≠ [] → join sep (w :: ws) = w ++ sep :: join sep ws.
Proof. by destruct ws. Qed.

Lemma split_join sep ws : ws ≠ [] → Forall (λ w, sep ∉ w) ws → split sep (join sep ws) = ws.
Proof.
  induction ws as [|w ws IH]; [done|]. intros _ [Hw HF]%Forall_cons. destruct ws as [|w' ws].
  - simpl. by apply split_no_sep.
  - rewrite join_cons by done. rewrite split_cons by done. by rewrite IH.
Qed.

Lemma join_split sep s : join sep (split sep s) = s.
Proof.
  induction s as [|c s IH]; [done|]. cbn [split]. case_bool_decide as Hc.
  - rewrite join_cons by apply split_not_nil. by rewrite IH, Hc.
  - destruct (split sep s) as [|w ws] eqn:E; [by apply split_not_nil in E|].
    destruct ws as [|w' ws].
    + simpl in *. by rewrite IH.
    + rewrite join_cons in IH by done. rewrite join_cons by done. by rewrite <- IH.
Qed.

Lemma split_tokens sep s : Forall (λ w, sep ∉ w) (split sep s).
Proof.
  induction s as [|c s IH]; simpl.
  - repeat constructor. by intros ?%not_elem_of_nil.
  - case_bool_decide as Hc; [constructor; [by intros ?%not_elem_of_nil|done]|].
    destruct (split sep s) as [|w ws]; [by repeat constructor; intros ?%list_elem_of_singleton|].
    apply Forall_cons in IH as [Hw Hws]. constructor; [|done].
    intros [Hin|Hin]%elem_of_cons; [by subst|done].
Qed.

(** The index of the first byte that satisfies [p]. *)
Fixpoint index_func (p : ascii → bool) (s : bytes) : option nat :=
  match s with
  | [] => None
  | c :: s' => if p c then Some 0 else S <$> index_func p s'
  end.

Lemma index_func_None p s : index_func p s = None ↔ ∀ c, c ∈ s → p c = false.
Proof.
  induction s as [|c s IH]; simpl.
  - split; [|done]. by intros _ c ?%not_elem_of_nil.
  - destruct (p c) eqn:Hc.
    + split; [done|]. intros H. specialize (H c (list_elem_of_here _ _)). congruence.
    + destruct (index_func p s); simpl.
      * split; [done|]. intros H. exfalso. assert (Some n = None) as [=]; apply IH. intros d Hd. apply H. by right.
      * split; [|done]. intros _ d [->|Hd]%elem_of_cons; [done|]. by apply IH.
Qed.

Lemma index_func_Some p s i :
  index_func p s = Some i → ∃ c, s !! i = Some c ∧ p c = true.
Proof.
  revert i; induction s as [|c s IH]; simpl; [done|]. intros i.
  destruct (p c) eqn:Hc; [intros [= <-]; eauto|].
  destruct (index_func p s) as [j|]; [|done]. intros [= <-]. by apply IH.
Qed.
