(* ===== verification/Utf8.v ===== *)
(** Go's view of UTF-8: decoding a rune from a byte string ([utf8.DecodeRuneInString] with
    the tables of [unicode/utf8]), valid strings, rune boundaries, [strings.ToValidUTF8]. *)
From stdpp Require Import base list strings.
From Stdlib Require Import Ascii Lia.
From S2P Require Import Prelude Text.

Module Utf8.

Open Scope nat_scope.
Open Scope bool_scope.

Definition in_range (lo hi : nat) (c : ascii) : bool := (lo <=? code c) && (code c <=? hi).

(** The size of the rune that a first byte begins, with the range of its second byte. *)
Definition first_byte (c : ascii) : option (nat * nat * nat) :=
  let n := code c in
  if n <? 128 then Some (1, 0, 0)
  else if n <? 194 then None
  else if n <? 224 then Some (2, 128, 191)
  else if n =? 224 then Some (3, 160, 191)
  else if n =? 237 then Some (3, 128, 159)
  else if n <? 240 then Some (3, 128, 191)
  else if n =? 240 then Some (4, 144, 191)
  else if n <? 244 then Some (4, 128, 191)
  else if n =? 244 then Some (4, 128, 143)
  else None.

(** The width of the rune at the head; [None] for what decodes as [RuneError] of width 1. *)
Definition rune_len (s : bytes) : option nat :=
  match s with
  | [] => None
  | c :: s' =>
      match first_byte c with
      | None => None
      | Some (1, _, _) => Some 1
      | Some (n, lo, hi) =>
          match s' with
          | c1 :: s'' =>
              if in_range lo hi c1 && (n - 2 <=? length s'') && forallb (in_range 128 191) (take (n - 2) s'') then Some n else None
          | [] => None
          end
      end
  end.

(** [utf8.RuneStart]. *)
Definition RuneStart (c : ascii) : bool := negb (in_range 128 191 c).

Inductive valid : bytes → Prop :=
| valid_nil : valid []
| valid_rune r s : rune_len r = Some (length r) → valid s → valid (r ++ s).

(** [utf8.ValidString]; each rune is at least one byte, so the length is enough fuel. *)
Fixpoint ValidString_go (fuel : nat) (s : bytes) : bool :=
  match s, fuel with
  | [], _ => true
  | _, O => false
  | _, S f => match rune_len s with Some n => ValidString_go f (drop n s) | None => false end
  end.

Definition ValidString (s : bytes) : bool := ValidString_go (length s) s.

(** [strings.ToValidUTF8]: each run of invalid bytes becomes one replacement. *)
Fixpoint ToValidUTF8_go (fuel : nat) (repl s : bytes) (bad : bool) : bytes :=
  match s, fuel with
  | [], _ | _, O => []
  | _, S f =>
      match rune_len s with
      | Some n => take n s ++ ToValidUTF8_go f repl (drop n s) false
      | None => (if bad then [] else repl) ++ ToValidUTF8_go f repl (drop 1 s) true
      end
  end.

Definition ToValidUTF8 (s repl : bytes) : bytes := ToValidUTF8_go (length s) repl s false.

(** The loop that steps back to a rune boundary: [for end > 0 && !utf8.RuneStart(s[end]) { end-- }].
    An index past the end panics ([None]). *)
Fixpoint back_to_start (s : bytes) (i : nat) : option nat :=
  match i with
  | O => Some O
  | S j => match s !! i with Some c => if RuneStart c then Some i else back_to_start s j | None => None end
  end.

(** * Facts *)

Lemma first_byte_size c n lo hi : first_byte c = Some (n, lo, hi) → 1 ≤ n ≤ 4 ∧ (n ≠ 1 → 128 ≤ lo ∧ hi ≤ 191).
Proof. unfold first_byte. repeat case_match; intros [= <- <- <-]; lia. Qed.

Lemma first_byte_start c x : first_byte c = Some x → RuneStart c = true.
Proof.
  unfold first_byte, RuneStart, in_range. intros H. apply negb_true_iff, andb_false_iff.
  destruct (code c <? 128) eqn:E1; [apply Nat.ltb_lt in E1; left; apply Nat.leb_gt; lia|].
  destruct (code c <? 194) eqn:E2; [done|]. apply Nat.ltb_ge in E2. right. apply Nat.leb_gt. lia.
Qed.

Lemma rune_len_bounds s n : rune_len s = Some n → 1 ≤ n ≤ 4 ∧ n ≤ length s.
Proof.
  destruct s as [|c s]; [done|]. simpl. destruct (first_byte c) as [[[k lo] hi]|] eqn:E; [|done].
  destruct (first_byte_size _ _ _ _ E) as [Hk _].
  destruct k as [|[|k]]; [lia|intros [= <-]; lia|]. destruct s as [|c1 s]; [done|].
  case_match eqn:Ec; [|done]. intros [= <-]. apply andb_true_iff in Ec as [[_ Ec]%andb_true_iff _]. apply Nat.leb_le in Ec. simpl. lia.
Qed.

(** Decoding looks at the rune's bytes only. *)
Lemma rune_len_take s n : rune_len s = Some n → rune_len (take n s) = Some n.
Proof.
  intros H. pose proof (rune_len_bounds s n H) as [Hn Hl]. destruct s as [|c s]; [done|]. revert H. simpl.
  destruct n as [|n]; [lia|]. simpl.
  destruct (first_byte c) as [[[k lo] hi]|] eqn:E; [|done]. destruct k as [|[|k]]; [|done|].
  { by apply first_byte_size in E as [? _]; lia. }
  destruct s as [|c1 s]; [done|]. case_match eqn:Ec; [|done]. intros [= <-]. simpl.
  apply andb_true_iff in Ec as [[E1 E2]%andb_true_iff E3]. apply Nat.leb_le in E2.
  simpl in E3. rewrite Nat.sub_0_r in E3. rewrite E1, !Nat.sub_0_r, length_take_le, Nat.leb_refl by lia.
  rewrite take_take, Nat.min_id. by rewrite E3.
Qed.

Lemma rune_len_app r s : rune_len r = Some (length r) → rune_len (r ++ s) = Some (length r).
Proof.
  destruct r as [|c r]; [done|]. simpl. destruct (first_byte c) as [[[k lo] hi]|]; [|done].
  destruct k as [|[|k]]; [|done|].
  - destruct r as [|c1 r]; [done|]. simpl. case_match; [|done]. intros [=].
  - destruct r as [|c1 r]; [done|]. simpl. case_match eqn:Ec; [|done]. intros [= ->].
    apply andb_true_iff in Ec as [[E1 E2]%andb_true_iff E3]. rewrite E1, length_app. rewrite Nat.sub_0_r in *.
    rewrite take_app_le by done. rewrite E3. by rewrite (proj2 (Nat.leb_le _ _)) by lia.
Qed.

(** Only the first byte of a rune starts one. *)
Lemma rune_inner r i c : rune_len r = Some (length r) → r !! i = Some c → RuneStart c = true ↔ i = 0.
Proof.
  destruct r as [|c0 r]; [done|]. intros H Hi. destruct i as [|i].
  { split; [done|]. intros _. simpl in Hi, H. injection Hi as ->. destruct (first_byte c) as [x|] eqn:E; [|done]. by eapply first_byte_start. }
  split; [|done]. intros Hs. exfalso. simpl in Hi, H. destruct (first_byte c0) as [[[k lo] hi]|] eqn:E; [|done].
  destruct (first_byte_size _ _ _ _ E) as [_ Hr].
  assert (in_range 128 191 c = true) as Hc; [|by unfold RuneStart in Hs; rewrite Hc in Hs].
  destruct k as [|[|k]]; [destruct r; [done|]; by case_match|injection H as H; destruct r; done|].
  destruct r as [|c1 r]; [done|]. case_match eqn:Ec; [|done]. injection H as ->.
  apply andb_true_iff in Ec as [[E1 _]%andb_true_iff E3]. destruct i as [|i]; simpl in Hi.
  - injection Hi as ->. unfold in_range in *. apply andb_true_iff in E1 as [?%Nat.leb_le ?%Nat.leb_le].
    apply andb_true_iff. rewrite !Nat.leb_le. destruct Hr; lia.
  - rewrite forallb_forall in E3. apply E3, list_elem_of_In. simpl. rewrite Nat.sub_0_r, firstn_all. by eapply list_elem_of_lookup_2.
Qed.

Lemma rune_not_nil r : rune_len r = Some (length r) → 1 ≤ length r.
Proof. intros H. by apply rune_len_bounds in H as [? _]; lia. Qed.

Lemma valid_app s t : valid s → valid t → valid (s ++ t).
Proof. induction 1 as [|r s Hr _ IH]; intros Ht; [done|]. rewrite <- app_assoc. constructor; auto. Qed.

(** A valid string splits at rune starts. *)
Lemma valid_cut s i : valid s → (∀ c, s !! i = Some c → RuneStart c = true) → valid (take i s) ∧ valid (drop i s).
Proof.
  intros HV. revert i. induction HV as [|r s Hr HV IH]; intros i Hi; [rewrite take_nil, drop_nil; split; constructor|].
  pose proof (rune_not_nil r Hr) as H0. destruct (decide (i < length r)) as [Hlt|Hge].
  - assert (i = 0) as ->; [|split; [constructor|by constructor]].
    destruct (lookup_lt_is_Some_2 r i Hlt) as [c Hc]. apply (rune_inner r i c Hr Hc), Hi. by apply lookup_app_l_Some.
  - destruct (IH (i - length r)) as [H1 H2]; [intros c Hc; apply Hi; by rewrite lookup_app_r by lia|].
    rewrite take_app_ge, drop_app_ge by lia. split; [by constructor|done].
Qed.

Lemma ValidString_go_spec fuel s : length s ≤ fuel → ValidString_go fuel s = true ↔ valid s.
Proof.
  revert s. induction fuel as [|f IH]; intros s Hf.
  { destruct s; [split; [constructor|done]|simpl in Hf; lia]. }
  destruct s as [|c s]; [split; [constructor|done]|]. cbn [ValidString_go]. destruct (rune_len (c :: s)) as [n|] eqn:E.
  - destruct (rune_len_bounds _ _ E) as [Hn Hl]. rewrite IH by (rewrite length_drop; lia). split; intros H.
    + rewrite <- (take_drop n (c :: s)). constructor; [|done]. rewrite length_take_le by lia. by apply rune_len_take.
    + inversion H as [|r t Hr Ht Eq]. rewrite <- Eq in E. rewrite (rune_len_app r t Hr) in E. injection E as <-. by rewrite drop_app_length.
  - split; [done|]. intros H. inversion H as [|r t Hr Ht Eq]. rewrite <- Eq in E. by rewrite (rune_len_app r t Hr) in E.
Qed.

Lemma ValidString_spec s : ValidString s = true ↔ valid s.
Proof. by apply ValidString_go_spec. Qed.

Lemma ToValidUTF8_go_valid fuel repl s b : valid repl → valid (ToValidUTF8_go fuel repl s b).
Proof.
  intros Hr. revert s b. induction fuel as [|f IH]; intros s b; [destruct s; constructor|].
  destruct s as [|c s]; [constructor|]. cbn [ToValidUTF8_go]. destruct (rune_len (c :: s)) as [n|] eqn:E.
  - constructor; [|apply IH]. destruct (rune_len_bounds _ _ E). rewrite length_take_le by lia. by apply rune_len_take.
  - apply valid_app; [destruct b; [constructor|done]|apply IH].
Qed.

Lemma ToValidUTF8_valid s repl : valid repl → valid (ToValidUTF8 s repl).
Proof. apply ToValidUTF8_go_valid. Qed.

Lemma ToValidUTF8_id s repl : valid s → ToValidUTF8 s repl = s.
Proof.
  unfold ToValidUTF8. intros HV.
  assert (∀ fuel b, length s ≤ fuel → ToValidUTF8_go fuel repl s b = s) as H; [|by apply H].
  induction HV as [|r s Hr _ IH]; intros fuel b Hf; [by destruct fuel|].
  pose proof (rune_not_nil r Hr). rewrite length_app in Hf. destruct fuel as [|f]; [lia|].
  destruct (r ++ s) as [|c t] eqn:E; [destruct r; simpl in *; [lia|done]|]. cbn [ToValidUTF8_go].
  rewrite <- E, (rune_len_app r s Hr), take_app_length, drop_app_length. f_equal. apply IH. lia.
Qed.

Lemma valid_ascii s : forallb (λ c, code c <? 128) s = true → valid s.
Proof.
  induction s as [|c s IH]; [constructor|]. simpl. intros [H1 H2]%andb_true_iff. apply (valid_rune [c]); [|auto].
  simpl. unfold first_byte. by rewrite H1.
Qed.

Lemma valid_bool s : ValidString s = true → valid s.
Proof. apply ValidString_spec. Qed.

(** The start of the rune that holds a position. *)
Lemma rune_at s i :
  valid s → i < length s →
  ∃ j c, j ≤ i < j + 4 ∧ s !! j = Some c ∧ RuneStart c = true ∧ ∀ k d, j < k ≤ i → s !! k = Some d → RuneStart d = false.
Proof.
  intros HV. revert i. induction HV as [|r s Hr HV IH]; intros i Hi; [simpl in Hi; lia|].
  pose proof (rune_not_nil r Hr) as H0. pose proof (rune_len_bounds _ _ Hr) as [H4 _].
  destruct (decide (i < length r)) as [Hlt|Hge].
  - destruct (lookup_lt_is_Some_2 r 0) as [c Hc]; [lia|]. exists 0, c. split; [lia|]. split; [by apply lookup_app_l_Some|].
    split; [by apply (rune_inner r 0 c)|]. intros k d Hk Hd. rewrite lookup_app_l in Hd by lia.
    destruct (RuneStart d) eqn:E; [|done]. apply (rune_inner r k d Hr Hd) in E. lia.
  - rewrite length_app in Hi. destruct (IH (i - length r)) as (j & c & Hj & Hc & Hs & Hk); [lia|].
    exists (length r + j), c. split; [lia|]. split; [by rewrite lookup_app_r, Nat.add_comm, Nat.add_sub by lia|].
    split; [done|]. intros k d Hkk Hd. rewrite lookup_app_r in Hd by lia. apply (Hk (k - length r) d); [lia|done].
Qed.

(** Stepping back in a valid string ends at a boundary at most three bytes before. *)
Lemma back_to_start_spec s i :
  valid s → i < length s → ∃ j, back_to_start s i = Some j ∧ j ≤ i < j + 4 ∧ valid (take j s) ∧ valid (drop j s).
Proof.
  intros HV Hi. destruct (rune_at s i HV Hi) as (j & c & Hj & Hc & Hs & Hk). exists j.
  assert (∀ n, j + n ≤ i → back_to_start s (j + n) = Some j) as Hn.
  { intros n. induction n as [|n IH]; intros Hle.
    - rewrite Nat.add_0_r. destruct j as [|j]; [done|]. cbn [back_to_start]. by rewrite Hc, Hs.
    - rewrite Nat.add_succ_r in *. cbn [back_to_start]. destruct (lookup_lt_is_Some_2 s (S (j + n))) as [d Hd]; [lia|].
      rewrite Hd, (Hk (S (j + n)) d) by (done || lia). apply IH. lia. }
  split; [by replace i with (j + (i - j)) by lia; apply Hn; lia|]. split; [done|]. apply valid_cut; [done|]. congruence.
Qed.

End Utf8.
