(* ===== verification/Wire.v ===== *)
(** Generated wire types that several components share
    ([src/go/gen/compass/v1/compass.pb.go], [comms.pb.go]). *)
From stdpp Require Import base strings list.
From Stdlib Require Import ZArith.
From S2P Require Import Prelude Text.

Inductive AgentSessionState :=
  UNSPECIFIED | STARTING | READY | WORKING | STOPPED | ERRORED | DISCONNECTED.

#[export] Instance AgentSessionState_eq_dec : EqDecision AgentSessionState.
Proof. solve_decision. Defined.

Inductive AgentPresence :=
  PRESENCE_UNSPECIFIED | PRESENCE_IDLE | PRESENCE_WORKING | PRESENCE_WAITING | PRESENCE_OFFLINE.

#[export] Instance AgentPresence_eq_dec : EqDecision AgentPresence.
Proof. solve_decision. Defined.

(** The [block] oneof of a message block. *)
Inductive MessageBlock :=
| BlockText (text : bytes)
| BlockAsk
| BlockAskAnswer (askerAccountID : string)
| BlockNone.

Definition GetText (b : MessageBlock) : bytes :=
  match b with BlockText t => t | _ => [] end.

Record Message := MkMessage {
  Id : string;
  TopicId : string;
  AuthorAccountId : string;
  AuthorHandle : string;
  AtUnixMs : Z;
  TurnSequence : Z;
  Blocks : list MessageBlock;
}.
