(* ===== verification/Slices.v ===== *)
(** Go's [slices] package as the components use it: binary search, insertion, and
    sorted integer slices. *)
From stdpp Require Import base sets list sorting.
From Stdlib Require Import ZArith Lia.
From S2P Require Import Prelude.

Open Scope Z_scope.

(** [slices.BinarySearchFunc]: the search keeps [i, j) and halves it. *)
Fixpoint binarySearch {A} (fuel : nat) (less : A → bool) (x : list A) (i j : nat) : nat :=
  match fuel with
  | O => i
  | S fuel =>
      if bool_decide (i < j)%nat then
        let h := ((i + j) / 2)%nat in
        match x !! h with
        | Some e => if less e then binarySearch fuel less x (S h) j
                    else binarySearch fuel less x i h
        | None => i
        end
      else i
  end.

(** The position of a search over a whole slice; [less] says that an element compares
    below the target. *)
Definition BinarySearch {A} (less : A → bool) (x : list A) : nat :=
  binarySearch (length x) less x 0 (length x).

(** [slices.Insert] at an index in range. *)
Definition sliceInsert {A} (i : nat) (x : A) (l : list A) : list A :=
  take i l ++ x :: drop i l.

(** The search finds the boundary of a list whose [less] entries come first. *)
Lemma binarySearch_boundary {A} (less : A → bool) (l1 l2 : list A) fuel i j :
  Forall (λ e, less e = true) l1 → Forall (λ e, less e = false) l2 →
  (j - i ≤ fuel → i ≤ length l1 ≤ j → j ≤ length (l1 ++ l2) →
   binarySearch fuel less (l1 ++ l2) i j = length l1)%nat.
Proof.
  intros H1 H2. revert i j. induction fuel as [|fuel IH]; intros i j Hf Hi Hj; cbn [binarySearch]; [lia|].
  case_bool_decide; [|lia].
  pose proof (Nat.div_mod_eq (i + j) 2) as Hd. pose proof (Nat.mod_upper_bound (i + j) 2).
  set (h := ((i + j) / 2)%nat) in *.
  destruct (lookup_lt_is_Some_2 (l1 ++ l2) h ltac:(lia)) as [e He]. rewrite He.
  apply lookup_app_Some in He as [He|[Hge He]].
  - rewrite Forall_lookup in H1. rewrite (H1 _ _ He).
    apply lookup_lt_Some in He. apply IH; lia.
  - rewrite Forall_lookup in H2. rewrite (H2 _ _ He). apply IH; lia.
Qed.

Lemma BinarySearch_boundary {A} (less : A → bool) (l1 l2 : list A) :
  Forall (λ e, less e = true) l1 → Forall (λ e, less e = false) l2 →
  BinarySearch less (l1 ++ l2) = length l1.
Proof.
  intros H1 H2. unfold BinarySearch.
  apply binarySearch_boundary; rewrite ?length_app; try done; lia.
Qed.

Lemma sliceInsert_split {A} (l1 l2 : list A) x :
  sliceInsert (length l1) x (l1 ++ l2) = l1 ++ x :: l2.
Proof. unfold sliceInsert. by rewrite take_app_length, drop_app_length. Qed.

Lemma elem_sliceInsert {A} (i : nat) (x y : A) l :
  y ∈ sliceInsert i x l ↔ y = x ∨ y ∈ l.
Proof.
  unfold sliceInsert. rewrite <- (take_drop i l) at 3.
  rewrite !elem_of_app, elem_of_cons. tauto.
Qed.

(** A sorted slice splits where [less] turns false. *)
Lemma sorted_boundary {A} (R : relation A) (less : A → bool) (l : list A) :
  (∀ x y, R x y → less y = true → less x = true) → StronglySorted R l →
  ∃ l1 l2, l = l1 ++ l2 ∧ Forall (λ e, less e = true) l1 ∧ Forall (λ e, less e = false) l2.
Proof.
  intros HR. induction 1 as [|x l HS (l1 & l2 & -> & H1 & H2) Hall]; [by exists [], []|].
  destruct (less x) eqn:E.
  - exists (x :: l1), l2. auto.
  - exists [], (x :: l1 ++ l2). split_and!; [done|done|]. constructor; [done|].
    eapply Forall_impl; [exact Hall|]. intros y Hy. destruct (less y) eqn:Ey; [|done].
    by rewrite (HR _ _ Hy Ey) in E.
Qed.

(** The search of a sorted slice separates the elements below the target. *)
Lemma BinarySearch_spec {A} (R : relation A) (less : A → bool) (l : list A) i x :
  (∀ x y, R x y → less y = true → less x = true) → StronglySorted R l →
  l !! i = Some x → (BinarySearch less l ≤ i)%nat ↔ less x = false.
Proof.
  intros HR HS Hi. destruct (sorted_boundary R less l HR HS) as (l1 & l2 & -> & H1 & H2).
  rewrite BinarySearch_boundary by done. rewrite Forall_lookup in H1, H2.
  apply lookup_app_Some in Hi as [Hi|[Hle Hi]].
  - rewrite (H1 _ _ Hi). apply lookup_lt_Some in Hi. split; [lia|done].
  - rewrite (H2 _ _ Hi). split; [done|lia].
Qed.

(** Dropping up to the boundary loses only elements below the target. *)
Lemma drop_BinarySearch {A} (R : relation A) (less : A → bool) (P : A → Prop)
    `{∀ x, Decision (P x)} (l : list A) :
  (∀ x y, R x y → less y = true → less x = true) → StronglySorted R l →
  (∀ x, P x → less x = false) → filter P (drop (BinarySearch less l) l) = filter P l.
Proof.
  intros HR HS HP. destruct (sorted_boundary R less l HR HS) as (l1 & l2 & -> & H1 & H2).
  rewrite BinarySearch_boundary, drop_app_length, filter_app by done.
  rewrite (filter_none P l1); [done|]. eapply Forall_impl; [exact H1|].
  intros x Hx HPx. apply HP in HPx. congruence.
Qed.

Lemma BinarySearch_le {A} (less : A → bool) (l : list A) R :
  (∀ x y, R x y → less y = true → less x = true) → StronglySorted R l →
  (BinarySearch less l ≤ length l)%nat.
Proof.
  intros HR HS. destruct (sorted_boundary R less l HR HS) as (l1 & l2 & -> & H1 & H2).
  rewrite BinarySearch_boundary, length_app by done. lia.
Qed.

Lemma sorted_lookup_lt {A} (R : relation A) (l : list A) i j x y :
  StronglySorted R l → l !! i = Some x → l !! j = Some y → (i < j)%nat → R x y.
Proof.
  intros HS Hi Hj Hlt. rewrite <- (take_drop (S i) l) in HS.
  apply (StronglySorted_app_1_elem_of _ _ _ _ _ HS).
  - apply list_elem_of_lookup. exists i. rewrite lookup_take_lt by lia. done.
  - apply list_elem_of_lookup. exists (j - S i)%nat. rewrite lookup_drop. by replace (S i + (j - S i))%nat with j by lia.
Qed.

Lemma filter_ext_elem {A} (P Q : A → Prop) `{∀ x, Decision (P x), ∀ x, Decision (Q x)} (l : list A) :
  (∀ x, x ∈ l → P x ↔ Q x) → filter P l = filter Q l.
Proof.
  induction l as [|x l IH]; intros HE; [done|]. rewrite !filter_cons, IH by set_solver.
  destruct (HE x) as [H1 H2]; [set_solver|]. repeat case_decide; tauto.
Qed.
