(* ===== verification/LruCache.v ===== *)
(** The interface of the size-bounded caches the Runner hub keeps
    ([github.com/hashicorp/golang-lru], a third-party package): the documented behaviour
    the hub relies on, as laws, and a list cache that has it. *)
From stdpp Require Import base gmap fin_sets strings list.
From Stdlib Require Import Lia.
From S2P Require Import Prelude.

Open Scope nat_scope.

(** A cache of at most [cap] keys: an added key is present, a removed key is absent, an
    addition never invents a key, and it evicts nothing while the keys it then holds fit.
    A lookup that refreshes a key ([lru_touch]) changes no value. *)
Class Lru (cap : nat) (V L : Type) := {
  lru_empty : L;
  lru_add : string → V → L → L;
  lru_peek : string → L → option V;
  lru_remove : string → L → L;
  lru_touch : string → L → L;
  lru_peek_empty k : lru_peek k lru_empty = None;
  lru_peek_add k v l : lru_peek k (lru_add k v l) = Some v;
  lru_peek_add_ne k k' v v' l :
    k ≠ k' → lru_peek k' (lru_add k v l) = Some v' → lru_peek k' l = Some v';
  lru_add_room (X : gset string) k k' v l :
    (∀ x, is_Some (lru_peek x l) → x ∈ X) → k ∈ X → size X ≤ cap → k ≠ k' →
    lru_peek k' (lru_add k v l) = lru_peek k' l;
  lru_peek_remove k l : lru_peek k (lru_remove k l) = None;
  lru_peek_remove_ne k k' l : k ≠ k' → lru_peek k' (lru_remove k l) = lru_peek k' l;
  lru_peek_touch k k' l : lru_peek k' (lru_touch k l) = lru_peek k' l;
}.
Arguments lru_empty {cap V L _}.
Arguments lru_add {cap V L _}.
Arguments lru_peek {cap V L _}.
Arguments lru_remove {cap V L _}.
Arguments lru_touch {cap V L _}.

(** * A list cache, newest first *)

Notation listCache V := (list (string * V)).

Fixpoint cache_peek {V} (k : string) (l : listCache V) : option V :=
  match l with
  | [] => None
  | (k', v) :: l => if bool_decide (k' = k) then Some v else cache_peek k l
  end.

(** The first entry of each key outside [seen]. *)
Fixpoint dedup {V} (seen : gset string) (l : listCache V) : listCache V :=
  match l with
  | [] => []
  | (k, v) :: l =>
      if bool_decide (k ∈ seen) then dedup seen l else (k, v) :: dedup ({[k]} ∪ seen) l
  end.

Definition cache_remove {V} (k : string) (l : listCache V) : listCache V := dedup {[k]} l.

Definition cache_add {V} (cap : nat) (k : string) (v : V) (l : listCache V) : listCache V :=
  (k, v) :: take (cap - 1) (cache_remove k l).

Definition cache_touch {V} (k : string) (l : listCache V) : listCache V :=
  match cache_peek k l with
  | Some v => (k, v) :: cache_remove k l
  | None => l
  end.

Lemma cache_peek_dedup {V} k seen (l : listCache V) :
  cache_peek k (dedup seen l) = if bool_decide (k ∈ seen) then None else cache_peek k l.
Proof.
  revert seen. induction l as [|[a v] l IH]; intros seen; simpl; [by case_bool_decide|].
  case_bool_decide as Ha; simpl; rewrite IH.
  - repeat case_bool_decide; subst; done.
  - repeat case_bool_decide; subst; set_solver.
Qed.

Lemma cache_peek_take {V} n k v (l : listCache V) :
  cache_peek k (take n l) = Some v → cache_peek k l = Some v.
Proof.
  revert n. induction l as [|[a w] l IH]; intros [|n]; simpl; try done.
  case_bool_decide; eauto.
Qed.

(** The deduplicated entries of a cache whose keys lie in [X]. *)
Lemma length_dedup {V} (X seen : gset string) (l : listCache V) :
  (∀ x, is_Some (cache_peek x l) → x ∈ X) → length (dedup seen l) ≤ size (X ∖ seen).
Proof.
  revert X seen. induction l as [|[a v] l IH]; intros X seen HX; simpl; [lia|].
  assert (∀ x, x ≠ a → is_Some (cache_peek x l) → x ∈ X) as HX'.
  { intros x Hne Hs. apply HX. simpl. by rewrite bool_decide_false. }
  assert (a ∈ X) as Ha by (apply HX; simpl; rewrite bool_decide_true by done; eauto).
  case_bool_decide as Hs.
  - apply IH. intros x Hx. destruct (decide (x = a)) as [->|]; auto.
  - simpl. trans (S (size (X ∖ ({[a]} ∪ seen)))).
    + apply le_n_S, IH. intros x Hx. destruct (decide (x = a)) as [->|]; auto.
    + assert (X ∖ seen = {[a]} ∪ X ∖ ({[a]} ∪ seen)) as ->.
      { apply set_eq. intros x. destruct (decide (x = a)); set_solver. }
      rewrite (size_union {[a]} (X ∖ ({[a]} ∪ seen))) by set_solver. rewrite size_singleton. lia.
Qed.

#[export] Program Instance listCache_lru (cap : nat) {V} : Lru cap V (listCache V) := {|
  lru_empty := [];
  lru_add := cache_add cap;
  lru_peek := cache_peek;
  lru_remove := cache_remove;
  lru_touch := cache_touch |}.
Next Obligation. done. Qed.
Next Obligation. intros cap V k v l. unfold cache_add. cbn [cache_peek]. by rewrite bool_decide_true. Qed.
Next Obligation.
  intros cap V k k' v v' l Hne. unfold cache_add. cbn [cache_peek]. rewrite bool_decide_false by done.
  intros H%cache_peek_take. unfold cache_remove in H. rewrite cache_peek_dedup in H.
  rewrite bool_decide_false in H by set_solver. done.
Qed.
Next Obligation.
  intros cap V X k k' v l HX Hk Hs Hne. unfold cache_add. cbn [cache_peek].
  rewrite bool_decide_false by done. unfold cache_remove. rewrite take_ge.
  - rewrite cache_peek_dedup, bool_decide_false by set_solver. done.
  - etrans; [by apply (length_dedup X)|]. rewrite (size_difference X {[k]}) by set_solver.
    rewrite size_singleton. lia.
Qed.
Next Obligation. intros cap V k l. unfold cache_remove. by rewrite cache_peek_dedup, bool_decide_true by set_solver. Qed.
Next Obligation.
  intros cap V k k' l Hne. unfold cache_remove. by rewrite cache_peek_dedup, bool_decide_false by set_solver.
Qed.
Next Obligation.
  intros cap V k k' l. unfold cache_touch. destruct (cache_peek k l) eqn:E; [|done].
  simpl. case_bool_decide; [congruence|].
  unfold cache_remove. by rewrite cache_peek_dedup, bool_decide_false by set_solver.
Qed.
