(* ===== verification/EventBus.v ===== *)
(** The server event bus, src/go/events/events.go: a ring of the last
    [RingCapacity] events with one buffered live channel per subscriber.

    The bus holds pointers to subscribers, and a subscription holds the same
    channel and the same overrun latch, so both live in a store [chans] keyed by
    the subscriber id, which the bus never reuses.  A send on a closed channel
    panics, as it does in Go.  [Bus] is the implementation; [BusSystem] runs it
    with its readers as a step relation; [BusSpec] is the contract: a log of every
    event, from which a subscriber reads a contiguous run. *)
From stdpp Require Import base gmap list strings.
From Stdlib Require Import ZArith Lia.
From S2P Require Import Prelude.

Definition RingCapacity : nat := 1024.
Definition liveBufferCapacity : nat := RingCapacity.

(** * The bus *)
Module Bus.
Section bus.
Context {P : Type}.

Record Stamped := MkStamped {
  Seq : Z;
  AtUnixMS : Z;
  InstanceEpoch : Z;
  Payload : P;
  Traceparent : string
}.

(** The shared part of a subscriber: its channel's buffer, whether the channel is
    closed (only [subscriber.close] closes it, behind a [sync.Once]), and the
    overrun latch. *)
Record chan := MkChan {
  buf : list Stamped;
  ch_closed : bool;
  ch_lagged : bool
}.

Record t := MkBus {
  instanceEpoch : Z;
  nextSeq : Z;
  nextSubID : Z;
  ring : list Stamped;
  subscribers : list Z;
  closed : bool;
  chans : gmap Z chan
}.

(** [Live] is the id of the subscriber whose channel the reader drains, [None] for
    the already closed channel of a terminal subscription, which has no [cancel]. *)
Record Subscription := MkSubscription {
  Replay : list Stamped;
  Live : option Z;
  Epoch : Z;
  HeadSeq : Z
}.

Inductive error := ErrBufferUnderflow.

Definition set_chans (b : t) (m : gmap Z chan) : t :=
  MkBus (instanceEpoch b) (nextSeq b) (nextSubID b) (ring b) (subscribers b) (closed b) m.

Definition NewBus (epoch : Z) : t := MkBus epoch 1 0 [] [] false ∅.

(** [lagFlag.set] and [lagFlag.get]. *)
Definition lag_set (c : chan) : chan := MkChan (buf c) (ch_closed c) true.
Definition lag_get (c : chan) : bool := ch_lagged c.

(** [subscriber.close]: the [sync.Once] makes a second close a no-op. *)
Definition subscriber_close (c : chan) : chan := MkChan (buf c) true (ch_lagged c).

(** The body of the fan-out loop for one subscriber: whether it is dropped, and the
    channels after it. *)
Definition fan_out_one (event : Stamped) (id : Z) (m : gmap Z chan)
  : result error (bool * gmap Z chan) :=
  match m !! id with
  | None => Panic
  | Some c =>
      if lag_get c then Ok (true, m)
      else if ch_closed c then Panic
      else if decide (length (buf c) < liveBufferCapacity)%nat then
        Ok (false, <[id := MkChan (buf c ++ [event]) (ch_closed c) (ch_lagged c)]> m)
      else Ok (true, <[id := subscriber_close (lag_set c)]> m)
  end.

(** The fan-out loop; it returns the subscribers kept, in order. *)
Fixpoint fan_out (event : Stamped) (subs : list Z) (m : gmap Z chan)
  : result error (list Z * gmap Z chan) :=
  match subs with
  | [] => Ok ([], m)
  | id :: rest =>
      r <-? fan_out_one event id m ;
      r' <-? fan_out event rest (snd r) ;
      Ok (if fst r : bool then fst r' else id :: fst r', snd r')
  end.

Definition ring_push (r : list Stamped) (event : Stamped) : list Stamped :=
  if decide (length r = RingCapacity) then drop 1 r ++ [event] else r ++ [event].

Definition publish (now : Z) (traceparent : string) (payload : P) (b : t)
  : result error (t * Z) :=
  let seq := nextSeq b in
  let event := MkStamped seq now (instanceEpoch b) payload traceparent in
  r <-? fan_out event (subscribers b) (chans b) ;
  Ok (MkBus (instanceEpoch b) (u64 (seq + 1)) (nextSubID b)
        (ring_push (ring b) event) (fst r) (closed b) (snd r), seq).

Definition Subscribe (sinceSeq reqEpoch : Z) (b : t)
  : result error (t * Subscription) :=
  if closed b then
    Ok (b, MkSubscription [] None (instanceEpoch b) (u64 (nextSeq b - 1)))
  else if decide (0 < sinceSeq ∧ reqEpoch ≠ instanceEpoch b) then Err ErrBufferUnderflow
  else if decide (nextSeq b ≤ sinceSeq) then Err ErrBufferUnderflow
  else if bool_decide (0 < sinceSeq) &&
          match ring b with [] => false | e :: _ => bool_decide (u64 (sinceSeq + 1) < Seq e) end
  then Err ErrBufferUnderflow
  else
    let id := u64 (nextSubID b + 1) in
    let b' := MkBus (instanceEpoch b) (nextSeq b) id (ring b) (subscribers b ++ [id])
                (closed b) (<[id := MkChan [] false false]> (chans b)) in
    Ok (b', MkSubscription (filter (λ e, sinceSeq < Seq e) (ring b)) (Some id)
              (instanceEpoch b) (u64 (nextSeq b - 1))).

(** [Close] closes every open subscriber's channel without the latch. *)
Definition close_all (subs : list Z) (m : gmap Z chan) : gmap Z chan :=
  foldl (λ m id, alter subscriber_close id m) m subs.

Definition Close (b : t) : t :=
  MkBus (instanceEpoch b) (nextSeq b) (nextSubID b) (ring b) [] true
    (close_all (subscribers b) (chans b)).

(** Remove the first subscriber with this id. *)
Fixpoint remove_first (id : Z) (subs : list Z) : list Z :=
  match subs with
  | [] => []
  | s :: rest => if decide (s = id) then rest else s :: remove_first id rest
  end.

Definition unsubscribe (id : Z) (b : t) : t :=
  MkBus (instanceEpoch b) (nextSeq b) (nextSubID b) (ring b)
    (remove_first id (subscribers b)) (closed b) (alter subscriber_close id (chans b)).

Definition Cancel (s : Subscription) (b : t) : t :=
  match Live s with None => b | Some id => unsubscribe id b end.

Definition Lagged (s : Subscription) (b : t) : bool :=
  match Live s with
  | None => false
  | Some id => match chans b !! id with Some c => lag_get c | None => false end
  end.

(** A receive on [Live]: the oldest buffered event, even from a closed channel;
    [None] when a closed channel is drained or an open one would block. *)
Definition recv (id : Z) (b : t) : t * option Stamped :=
  match chans b !! id with
  | Some c =>
      match buf c with
      | [] => (b, None)
      | e :: rest =>
          (set_chans b (<[id := MkChan rest (ch_closed c) (ch_lagged c)]> (chans b)), Some e)
      end
  | None => (b, None)
  end.

End bus.
Arguments Stamped : clear implicits.
Arguments chan : clear implicits.
Arguments t : clear implicits.
Arguments Subscription : clear implicits.
End Bus.

(** * The bus with its readers

    A history of calls is a list of [op]; [run] executes it from a fresh bus and
    records what no field of the bus keeps: every event published ([log]) and, for
    each subscription handed out, what its reader has got so far. *)
Module BusSystem.
Import Bus.
Section system.
Context {P : Type}.

Inductive op :=
| OpPublish (now : Z) (traceparent : string) (payload : P)
| OpSubscribe (sinceSeq reqEpoch : Z)
| OpRecv (id : Z)
| OpCancel (id : Z)
| OpClose.

(** What the holder of one subscription has: the position its replay started
    after, the replay, the events read from [Live], and whether it cancelled. *)
Record reader := MkReader {
  base : nat;
  replay : list (Stamped P);
  received : list (Stamped P);
  cancelled : bool
}.

Record world := MkWorld {
  bus : Bus.t P;
  log : list (Stamped P);
  readers : gmap Z reader
}.

Definition init (epoch : Z) : world := MkWorld (NewBus epoch) [] ∅.

(** The position a replay starts after: the cursor, or for a snapshot
    (cursor 0) the position before the oldest event still on the ring. *)
Definition start_after (sinceSeq : Z) (s : Subscription P) : nat :=
  if decide (sinceSeq = 0) then Z.to_nat (HeadSeq s) - length (Replay s)
  else Z.to_nat sinceSeq.

Definition set_readers (w : world) (m : gmap Z reader) : world :=
  MkWorld (bus w) (log w) m.

Definition step (o : op) (w : world) : result error world :=
  match o with
  | OpPublish now tp p =>
      r <-? publish now tp p (bus w) ;
      Ok (MkWorld (fst r)
            (log w ++ [MkStamped (snd r) now (instanceEpoch (bus w)) p tp]) (readers w))
  | OpSubscribe since epoch =>
      match Subscribe since epoch (bus w) with
      | Ok (b, s) =>
          Ok (MkWorld b (log w)
                match Live s with
                | Some id =>
                    <[id := MkReader (start_after since s) (Replay s) [] false]> (readers w)
                | None => readers w
                end)
      | Err _ => Ok w
      | Panic => Panic
      end
  | OpRecv id =>
      let '(b, e) := recv id (bus w) in
      Ok (MkWorld b (log w)
            match e with
            | Some e =>
                alter (λ r, MkReader (base r) (replay r) (received r ++ [e]) (cancelled r))
                  id (readers w)
            | None => readers w
            end)
  | OpCancel id =>
      match readers w !! id with
      | Some _ =>
          Ok (MkWorld (Cancel (MkSubscription [] (Some id) 0 0) (bus w)) (log w)
                (alter (λ r, MkReader (base r) (replay r) (received r) true) id (readers w)))
      | None => Ok w
      end
  | OpClose => Ok (MkWorld (Close (bus w)) (log w) (readers w))
  end.

Fixpoint run (os : list op) (w : world) : result error world :=
  match os with
  | [] => Ok w
  | o :: os => w' <-? step o w ; run os w'
  end.

(** ** The invariant *)

(** A subscriber the bus still fans out to. *)
Definition live_chan (c : chan P) : Prop := ch_closed c = false ∧ ch_lagged c = false.

(** What one reader and its channel hold is a run of the log that starts at [base];
    while the channel is open the run reaches the end of the log. *)
Definition reader_ok (b : Bus.t P) (l : list (Stamped P)) (id : Z) (r : reader) (c : chan P)
  : Prop :=
  ∃ m, (base r ≤ m ≤ length l)%nat ∧
    replay r ++ received r ++ buf c = drop (base r) (take m l) ∧
    (ch_closed c = false → m = length l ∧ id ∈ subscribers b ∧ cancelled r = false) ∧
    (ch_closed c = true → ch_lagged c = false → closed b = true ∨ cancelled r = true) ∧
    (ch_lagged c = true → ch_closed c = true) ∧
    (length (buf c) ≤ liveBufferCapacity)%nat.

Record inv (w : world) : Prop := {
  inv_next : nextSeq (bus w) = Z.of_nat (length (log w)) + 1;
  inv_log : ∀ i e, log w !! i = Some e →
    Seq e = Z.of_nat i + 1 ∧ InstanceEpoch e = instanceEpoch (bus w);
  inv_ring : ring (bus w) = drop (length (log w) - RingCapacity) (log w);
  inv_nodup : NoDup (subscribers (bus w));
  inv_subs : ∀ id, id ∈ subscribers (bus w) →
    ∃ c, chans (bus w) !! id = Some c ∧ live_chan c;
  inv_ids : ∀ id, is_Some (chans (bus w) !! id) → 1 ≤ id ≤ nextSubID (bus w);
  inv_subid : 0 ≤ nextSubID (bus w);
  inv_closed : closed (bus w) = true → subscribers (bus w) = [];
  inv_dom : ∀ id, is_Some (chans (bus w) !! id) ↔ is_Some (readers w !! id);
  inv_readers : ∀ id r c, readers w !! id = Some r → chans (bus w) !! id = Some c →
    reader_ok (bus w) (log w) id r c
}.

(** Room left before a 64-bit counter wraps. *)
Definition room (n : Z) (w : world) : Prop :=
  Z.of_nat (length (log w)) + n < 2 ^ 64 - 1 ∧ nextSubID (bus w) + n < 2 ^ 64 - 1.

Lemma inv_init epoch : inv (init epoch).
Proof.
  split; simpl; try done; try (by constructor); try (by intros ? ?%elem_of_nil).
  all: intros id; rewrite !lookup_empty; by split || by intros [? ?].
Qed.

(** ** Publish *)

(** One event pushed to every live subscriber: it never panics; a subscriber with
    room keeps its place and gets the event, a full one is latched and closed. *)
Lemma fan_out_spec (e : Stamped P) subs m :
  NoDup subs →
  (∀ id, id ∈ subs → ∃ c, m !! id = Some c ∧ live_chan c) →
  ∃ keep m', fan_out e subs m = Ok (keep, m') ∧
    NoDup keep ∧ keep ⊆ subs ∧
    (∀ id, id ∉ subs → m' !! id = m !! id) ∧
    (∀ id c, id ∈ subs → m !! id = Some c →
       if decide (length (buf c) < liveBufferCapacity)%nat
       then id ∈ keep ∧ m' !! id = Some (MkChan (buf c ++ [e]) false false)
       else id ∉ keep ∧ m' !! id = Some (MkChan (buf c) true true)).
Proof.
  revert m. induction subs as [|s subs IH]; intros m Hnd Hlive; simpl.
  { exists [], m. split_and!; try done; set_solver. }
  apply NoDup_cons in Hnd as [Hs Hnd].
  destruct (Hlive s) as (c & Hc & Hop & Hlag); [set_solver|].
  unfold fan_out_one, lag_get, subscriber_close, lag_set. rewrite Hc, Hlag, Hop.
  set (c' := if decide (length (buf c) < liveBufferCapacity)%nat
             then MkChan (buf c ++ [e]) false false else MkChan (buf c) true true).
  destruct (IH (<[s:=c']> m)) as (keep & m' & Hrun & Hnd' & Hsub & Hout & Hin); [done| |].
  { intros id Hid. rewrite lookup_insert_ne by set_solver. apply Hlive. set_solver. }
  assert (Hs' : m' !! s = Some c') by (by rewrite Hout, lookup_insert_eq).
  assert (Hrest : ∀ id, id ∉ s :: subs → m' !! id = m !! id).
  { intros id Hid. rewrite Hout, lookup_insert_ne by set_solver. done. }
  subst c'. destruct (decide (length (buf c) < liveBufferCapacity)%nat) as [Hlt|Hge];
    simpl; rewrite Hrun; simpl.
  - exists (s :: keep), m'. split_and!; [done| |set_solver|done|].
    { apply NoDup_cons. set_solver. }
    intros id c0 Hid Hc0. apply elem_of_cons in Hid as [->|Hid].
    + simplify_eq. rewrite decide_True by done. set_solver.
    + assert (id ≠ s) by set_solver.
      specialize (Hin id c0 Hid). rewrite lookup_insert_ne in Hin by done.
      specialize (Hin Hc0). case_decide; set_solver.
  - exists keep, m'. split_and!; [done|done|set_solver|done|].
    intros id c0 Hid Hc0. apply elem_of_cons in Hid as [->|Hid].
    + simplify_eq. rewrite decide_False by done. set_solver.
    + assert (id ≠ s) by set_solver.
      specialize (Hin id c0 Hid). rewrite lookup_insert_ne in Hin by done.
      specialize (Hin Hc0). case_decide; set_solver.
Qed.

Lemma ring_push_log (l : list (Stamped P)) e :
  ring_push (drop (length l - RingCapacity) l) e =
  drop (length (l ++ [e]) - RingCapacity) (l ++ [e]).
Proof.
  unfold ring_push. rewrite length_drop, length_app. simpl.
  destruct (decide (length l < RingCapacity)%nat) as [Hlt|Hge].
  - rewrite decide_False by lia.
    replace (length l - RingCapacity)%nat with 0%nat by lia.
    replace (length l + 1 - RingCapacity)%nat with 0%nat by lia. done.
  - rewrite decide_True by lia. rewrite drop_drop.
    replace (length l + 1 - RingCapacity)%nat with (length l - RingCapacity + 1)%nat by lia.
    rewrite drop_app_le by (unfold RingCapacity in *; lia). done.
Qed.

(** The run a reader holds, extended by a published event. *)
Lemma drop_take_snoc (l : list (Stamped P)) e n m :
  (n ≤ m ≤ length l)%nat →
  drop n (take m (l ++ [e])) = drop n (take m l).
Proof. intros. by rewrite take_app_le by lia. Qed.

Lemma drop_take_snoc_all (l : list (Stamped P)) e n :
  (n ≤ length l)%nat →
  drop n (take (length (l ++ [e])) (l ++ [e])) = drop n (take (length l) l) ++ [e].
Proof. intros. rewrite !take_ge by lia. rewrite drop_app_le by lia. done. Qed.

(** The three ways a published event meets a reader: its channel is no longer
    fanned out to, it has room, or it is full. *)
Lemma reader_ok_other b b' l e id r c :
  reader_ok b l id r c → id ∉ subscribers b → closed b' = closed b →
  reader_ok b' (l ++ [e]) id r c.
Proof.
  intros (m & Hm & Hrun & Hopen & Hclosed & Hlag & Hlen) Hid Hb.
  exists m. rewrite drop_take_snoc, length_app, Hb by lia. split_and!; try done; try lia.
  intros Ho. by destruct (Hopen Ho) as (? & ? & ?).
Qed.

Lemma reader_ok_push b b' l e id r c :
  reader_ok b l id r c → live_chan c → (length (buf c) < liveBufferCapacity)%nat →
  id ∈ subscribers b' →
  reader_ok b' (l ++ [e]) id r (MkChan (buf c ++ [e]) false false).
Proof.
  intros (m & Hm & Hrun & Hopen & Hclosed & Hlag & Hlen) [Ho _] Hlt Hid.
  destruct (Hopen Ho) as (-> & _ & Hcan). exists (length (l ++ [e])).
  rewrite drop_take_snoc_all, <- Hrun by lia. simpl. rewrite !length_app. simpl.
  split_and!; try done; try lia. by rewrite <- !(assoc_L (++)).
Qed.

Lemma reader_ok_drop b b' l e id r c :
  reader_ok b l id r c → live_chan c →
  reader_ok b' (l ++ [e]) id r (MkChan (buf c) true true).
Proof.
  intros (m & Hm & Hrun & Hopen & Hclosed & Hlag & Hlen) [Ho _].
  exists m. rewrite drop_take_snoc, length_app by lia. simpl. split_and!; try done; try lia.
Qed.

(** What the fan-out did to one channel. *)
Lemma fan_out_inv (e : Stamped P) subs m :
  NoDup subs →
  (∀ id, id ∈ subs → ∃ c, m !! id = Some c ∧ live_chan c) →
  ∃ keep m', fan_out e subs m = Ok (keep, m') ∧ NoDup keep ∧ keep ⊆ subs ∧
    (∀ id, id ∈ keep → ∃ c, m' !! id = Some c ∧ live_chan c) ∧
    (∀ id, is_Some (m' !! id) ↔ is_Some (m !! id)) ∧
    (∀ id c, m' !! id = Some c → ∃ c0, m !! id = Some c0 ∧
       ((id ∉ subs ∧ c = c0) ∨
        (id ∈ keep ∧ live_chan c0 ∧ c = MkChan (buf c0 ++ [e]) false false ∧
         (length (buf c0) < liveBufferCapacity)%nat) ∨
        (live_chan c0 ∧ c = MkChan (buf c0) true true))).
Proof.
  intros Hnd Hsubs.
  destruct (fan_out_spec e subs m Hnd Hsubs) as (keep & m' & Hrun & Hnd' & Hsub & Hout & Hin).
  exists keep, m'. split_and!; [done..| | |].
  - intros id Hid. destruct (Hsubs id) as (c0 & Hc0 & Hl0); [set_solver|].
    specialize (Hin id c0 ltac:(set_solver) Hc0). case_decide; [|naive_solver].
    eexists. split; [apply Hin|done].
  - intros id. destruct (decide (id ∈ subs)) as [Hi|Hi]; [|by rewrite Hout].
    destruct (Hsubs id Hi) as (c0 & Hc0 & _). specialize (Hin id c0 Hi Hc0).
    rewrite Hc0. case_decide; destruct Hin as [_ ->]; done.
  - intros id c Hc. destruct (decide (id ∈ subs)) as [Hi|Hi].
    + destruct (Hsubs id Hi) as (c0 & Hc0 & Hl0). exists c0. split; [done|].
      specialize (Hin id c0 Hi Hc0). case_decide; naive_solver.
    + exists c. rewrite Hout in Hc by done. naive_solver.
Qed.

Lemma publish_inv w now tp p :
  inv w → room 1 w →
  ∃ w', step (OpPublish now tp p) w = Ok w' ∧ inv w' ∧
    log w' = log w ++ [MkStamped (Z.of_nat (length (log w)) + 1) now
                         (instanceEpoch (bus w)) p tp] ∧
    nextSubID (bus w') = nextSubID (bus w).
Proof.
  intros [Hnext Hlog Hring Hnd Hsubs Hids Hid0 Hcl Hdom Hrd] [Hroom _]. simpl.
  unfold publish. set (e := MkStamped (nextSeq (bus w)) now _ p tp).
  destruct (fan_out_inv e _ _ Hnd Hsubs) as (keep & m' & Hrun & Hnd' & Hsub & Hlive & Hsome & Hcases).
  rewrite Hrun. simpl. eexists. split_and!; [done| |by rewrite <- Hnext|done].
  split; simpl.
  - rewrite u64_small, length_app; simpl; lia.
  - intros i e'. rewrite lookup_app. destruct (log w !! i) eqn:Hi; [naive_solver|].
    apply lookup_ge_None in Hi. intros He'.
    apply list_lookup_singleton_Some in He' as [Hi0 <-]. simpl. split; [lia|done].
  - rewrite Hring. apply ring_push_log.
  - done.
  - done.
  - intros id. rewrite Hsome. apply Hids.
  - done.
  - intros Hc. specialize (Hcl Hc). rewrite Hcl in Hsub. by destruct keep; [|set_solver].
  - intros id. rewrite Hsome. apply Hdom.
  - intros id r c Hr Hc. destruct (Hcases id c Hc) as (c0 & Hc0 & Hcase).
    pose proof (Hrd id r c0 Hr Hc0) as Hok.
    destruct Hcase as [[Hi ->]|[(Hk & Hl0 & -> & Hlt)|(Hl0 & ->)]].
    + by eapply reader_ok_other.
    + by eapply reader_ok_push.
    + by eapply reader_ok_drop.
Qed.

(** ** Subscribe *)

(** The ring holds the events after position [length log - RingCapacity]. *)
Lemma ring_filter w since :
  inv w → 0 ≤ since →
  filter (λ e, since < Seq e) (ring (bus w)) =
  drop (Z.to_nat since `max` (length (log w) - RingCapacity)) (log w).
Proof.
  intros Hinv Hs. rewrite (inv_ring w Hinv).
  set (k := (length (log w) - RingCapacity)%nat).
  assert (Hf : ∀ n l, (∀ i e, l !! i = Some e → Seq e = Z.of_nat (n + i) + 1) →
     filter (λ e : Stamped P, since < Seq e) l = drop (Z.to_nat since - n) l).
  { intros n l. revert n. induction l as [|x l IH]; intros n Hl; [by rewrite drop_nil|].
    pose proof (Hl 0%nat x eq_refl) as Hx.
    assert (Hl' : ∀ i e, l !! i = Some e → Seq e = Z.of_nat (S n + i) + 1).
    { intros i e Hi. rewrite (Hl (S i) e Hi). lia. }
    rewrite filter_cons. case_decide.
    - rewrite (IH (S n)) by done. replace (Z.to_nat since - n)%nat with 0%nat by lia.
      replace (Z.to_nat since - S n)%nat with 0%nat by lia. done.
    - rewrite (IH (S n)) by done.
      replace (Z.to_nat since - n)%nat with (S (Z.to_nat since - S n)) by lia. done. }
  rewrite (Hf k), drop_drop.
  - f_equal. lia.
  - intros i e Hi. rewrite lookup_drop in Hi. apply (inv_log w Hinv) in Hi. lia.
Qed.

(** The cursor check: a cursor is accepted exactly when the ring still holds every
    event after it. *)
Definition servable (since epoch : Z) (w : world) : Prop :=
  since = 0 ∨ (epoch = instanceEpoch (bus w) ∧ since ≤ Z.of_nat (length (log w)) ∧
               Z.of_nat (length (log w)) - since ≤ Z.of_nat RingCapacity).

Lemma ring_oldest w since :
  inv w → 0 ≤ since →
  match ring (bus w) with [] => False | e :: _ => since + 1 < Seq e end ↔
  since < Z.of_nat (length (log w)) - Z.of_nat RingCapacity.
Proof.
  intros Hinv Hs. pose proof (inv_ring w Hinv) as Hring.
  destruct (ring (bus w)) as [|e rest] eqn:Hr.
  - apply (f_equal length) in Hring. rewrite length_drop in Hring. simpl in Hring.
    assert (length (log w) = 0)%nat by (unfold RingCapacity in *; lia).
    split; [done|unfold RingCapacity; lia].
  - assert (He : log w !! (length (log w) - RingCapacity)%nat = Some e).
    { rewrite <- (Nat.add_0_r (_ - _)), <- lookup_drop, <- Hring. done. }
    apply (inv_log w Hinv) in He as [He _]. rewrite He. lia.
Qed.

Lemma subscribe_open w since epoch :
  inv w → room 1 w → closed (bus w) = false → 0 ≤ since < 2 ^ 64 →
  Subscribe since epoch (bus w) =
  if decide (servable since epoch w) then
    let id := nextSubID (bus w) + 1 in
    Ok (MkBus (instanceEpoch (bus w)) (nextSeq (bus w)) id (ring (bus w))
          (subscribers (bus w) ++ [id]) false
          (<[id := MkChan [] false false]> (chans (bus w))),
        MkSubscription (drop (Z.to_nat since `max` (length (log w) - RingCapacity)) (log w))
          (Some id) (instanceEpoch (bus w)) (Z.of_nat (length (log w))))
  else Err ErrBufferUnderflow.
Proof.
  intros Hinv [Hr1 Hr2] Hc Hs. unfold Subscribe. rewrite Hc.
  rewrite (ring_filter w since Hinv) by lia. rewrite (inv_next w Hinv).
  pose proof (inv_subid w Hinv) as Hid.
  rewrite (u64_small (nextSubID (bus w) + 1)) by lia.
  rewrite (u64_small (Z.of_nat (length (log w)) + 1 - 1)) by lia.
  replace (Z.of_nat (length (log w)) + 1 - 1) with (Z.of_nat (length (log w))) by lia.
  pose proof (ring_oldest w since Hinv ltac:(lia)) as Hhd.
  unfold servable.
  destruct (decide (0 < since ∧ epoch ≠ instanceEpoch (bus w))) as [?|H1].
  { rewrite decide_False; [done|]. lia. }
  destruct (decide (Z.of_nat (length (log w)) + 1 ≤ since)) as [?|H2].
  { rewrite decide_False; [done|]. lia. }
  rewrite (u64_small (since + 1)) by lia.
  destruct (bool_decide (0 < since)) eqn:Hpos; simpl.
  2: { apply bool_decide_eq_false in Hpos. rewrite decide_True by lia. done. }
  apply bool_decide_eq_true in Hpos.
  assert (epoch = instanceEpoch (bus w)).
  { destruct (decide (epoch = instanceEpoch (bus w))); [done|]. exfalso; auto. }
  destruct (match ring (bus w) with [] => false | e :: _ => bool_decide (since + 1 < Seq e) end)
    eqn:Hring.
  - rewrite decide_False; [done|]. intros Hserv.
    assert (since < Z.of_nat (length (log w)) - Z.of_nat RingCapacity); [|lia].
    apply Hhd. destruct (ring (bus w)); [done|]. by apply bool_decide_eq_true in Hring.
  - rewrite decide_True; [done|]. right. split_and!; [done|lia|].
    destruct (decide (since < Z.of_nat (length (log w)) - Z.of_nat RingCapacity)) as [Hb|]; [|lia].
    apply Hhd in Hb. destruct (ring (bus w)); [done|].
    by apply bool_decide_eq_false in Hring.
Qed.

(** A reader keeps its run when the list of subscribers grows or when a channel
    other than its own changes. *)
Lemma reader_ok_mono b b' l id r c :
  reader_ok b l id r c → (id ∈ subscribers b → id ∈ subscribers b') →
  (closed b = true → closed b' = true) →
  reader_ok b' l id r c.
Proof.
  intros (m & Hm & Hrun & Hopen & Hclosed & Hlag & Hlen) Hid Hb.
  exists m. split_and!; try done; try lia; naive_solver.
Qed.

(** Closing a channel, by the bus or by its reader. *)
Lemma reader_ok_close b b' l id r r' c :
  reader_ok b l id r c → (closed b' = true ∨ cancelled r' = true) →
  base r' = base r → replay r' = replay r → received r' = received r →
  reader_ok b' l id r' (subscriber_close c).
Proof.
  intros (m & Hm & Hrun & Hopen & Hclosed & Hlag & Hlen) Hb H1 H2 H3.
  exists m. rewrite H1, H2, H3. simpl. split_and!; try done; lia.
Qed.

(** A receive moves the oldest buffered event to the reader. *)
Lemma reader_ok_recv b l id r e rest c :
  reader_ok b l id r c → buf c = e :: rest →
  reader_ok b l id (MkReader (base r) (replay r) (received r ++ [e]) (cancelled r))
    (MkChan rest (ch_closed c) (ch_lagged c)).
Proof.
  intros (m & Hm & Hrun & Hopen & Hclosed & Hlag & Hlen) Hbuf.
  exists m. rewrite Hbuf in Hrun, Hlen. simpl in *. split_and!; try done; try lia.
  by rewrite <- !(assoc_L (++)).
Qed.

Lemma subscribe_inv w since epoch :
  inv w → room 1 w → 0 ≤ since < 2 ^ 64 →
  ∃ w', step (OpSubscribe since epoch) w = Ok w' ∧ inv w' ∧ log w' = log w ∧
    nextSubID (bus w) ≤ nextSubID (bus w') ≤ nextSubID (bus w) + 1.
Proof.
  intros Hinv Hroom Hs. pose proof Hroom as [Hr1 Hr2]. unfold step.
  destruct (closed (bus w)) eqn:Hc.
  { unfold Subscribe. rewrite Hc. simpl. exists w. by destruct w; easy_split. }
  rewrite (subscribe_open w since epoch) by done. case_decide as Hserv; [|by exists w; easy_split].
  simpl. eexists. split_and!; [done| |done|simpl; lia..].
  destruct Hinv as [Hnext Hlog Hring Hnd Hsubs Hids Hid0 Hcl Hdom Hrd].
  set (id0 := nextSubID (bus w) + 1).
  assert (Hfresh : chans (bus w) !! id0 = None).
  { apply eq_None_not_Some. intros Hx%Hids. subst id0. lia. }
  assert (Hnotin : id0 ∉ subscribers (bus w)).
  { intros (c & Hx & _)%Hsubs. by rewrite Hfresh in Hx. }
  split; simpl; try done.
  - apply NoDup_app. split_and!; [done|set_solver|apply NoDup_singleton].
  - intros id [Hid|Hid%list_elem_of_singleton]%elem_of_app.
    + rewrite lookup_insert_ne by set_solver. by apply Hsubs.
    + subst. rewrite lookup_insert_eq. by eexists.
  - intros id. rewrite lookup_insert. case_decide; [subst; subst id0; lia|].
    intros ?%Hids. subst id0. lia.
  - lia.
  - intros id. rewrite !lookup_insert. case_decide; [by split|]. apply Hdom.
  - intros id r c. rewrite !lookup_insert. case_decide as Heq.
    + intros [= <-] [= <-]. subst. exists (length (log w)).
      unfold start_after. simpl. rewrite length_drop, firstn_all.
      unfold servable in Hserv. split_and!; try done; try lia; try (case_decide; lia).
      * rewrite app_nil_r. case_decide; [f_equal; lia|]. f_equal. lia.
      * intros _. split_and!; [done|set_solver|done].
    + intros Hr Hcid. eapply reader_ok_mono; [by eapply Hrd|simpl; set_solver|].
      by rewrite Hc.
Qed.

Lemma recv_inv w id :
  inv w → ∃ w', step (OpRecv id) w = Ok w' ∧ inv w' ∧ log w' = log w ∧
    nextSubID (bus w') = nextSubID (bus w).
Proof.
  intros Hinv. unfold step, recv.
  destruct (chans (bus w) !! id) as [c|] eqn:Hc; [|exists w; by destruct w].
  destruct (buf c) as [|e rest] eqn:Hb; [exists w; by destruct w|].
  eexists. split_and!; [done| |done..].
  destruct Hinv as [Hnext Hlog Hring Hnd Hsubs Hids Hid0 Hcl Hdom Hrd].
  assert (Hsome : ∀ id', is_Some (<[id:=MkChan rest (ch_closed c) (ch_lagged c)]> (chans (bus w)) !! id')
     ↔ is_Some (chans (bus w) !! id')).
  { intros id'. rewrite lookup_insert. case_decide; [subst; rewrite Hc; by split|done]. }
  split; simpl; try done.
  - intros id' Hid'. destruct (Hsubs id' Hid') as (c' & Hc' & Hl').
    rewrite lookup_insert. case_decide; [simplify_eq; by eexists|by eexists].
  - intros id'. rewrite Hsome. apply Hids.
  - intros id'. rewrite Hsome, lookup_alter. case_decide; [|apply Hdom].
    subst. rewrite fmap_is_Some. apply Hdom.
  - intros id' r' c'. rewrite lookup_insert, lookup_alter. case_decide as Heq.
    + subst. intros (r & Hr & ->)%fmap_Some [= <-].
      eapply reader_ok_mono; [by eapply reader_ok_recv; eauto|done..].
    + intros Hr' Hc'. eapply reader_ok_mono; [by eapply Hrd|done..].
Qed.

Lemma remove_first_spec id subs :
  NoDup subs → NoDup (remove_first id subs) ∧
  ∀ x, x ∈ remove_first id subs ↔ x ∈ subs ∧ x ≠ id.
Proof.
  induction subs as [|s subs IH]; intros Hnd; simpl; [set_solver|].
  apply NoDup_cons in Hnd as [Hs Hnd]. destruct (IH Hnd) as [IH1 IH2].
  case_decide; subst; [split; [done|set_solver]|].
  split; [apply NoDup_cons; set_solver|set_solver].
Qed.

Lemma cancel_inv w id :
  inv w → ∃ w', step (OpCancel id) w = Ok w' ∧ inv w' ∧ log w' = log w ∧
    nextSubID (bus w') = nextSubID (bus w).
Proof.
  intros Hinv. unfold step. destruct (readers w !! id) as [r|] eqn:Hrid; [|by exists w].
  eexists. split_and!; [done| |done..].
  destruct Hinv as [Hnext Hlog Hring Hnd Hsubs Hids Hid0 Hcl Hdom Hrd].
  destruct (remove_first_spec id _ Hnd) as [Hnd' Hrem].
  split; simpl; try done.
  - intros id' [Hid' Hne]%Hrem. rewrite lookup_alter_ne by done. by apply Hsubs.
  - intros id'. rewrite lookup_alter. case_decide; [rewrite fmap_is_Some; subst|]; apply Hids.
  - intros Hc. by rewrite (Hcl Hc).
  - intros id'. rewrite !lookup_alter. case_decide; rewrite ?fmap_is_Some; [subst|]; apply Hdom.
  - intros id' r' c'. rewrite !lookup_alter. case_decide as Heq.
    + subst. intros (r0 & Hr0 & ->)%fmap_Some (c0 & Hc0 & ->)%fmap_Some.
      eapply reader_ok_close; [by eapply Hrd|by right|done..].
    + intros Hr' Hc'. eapply reader_ok_mono; [by eapply Hrd| |done].
      intros Hin. apply Hrem. by split.
Qed.

Lemma close_all_lookup subs (m : gmap Z (chan P)) id :
  close_all subs m !! id =
  if decide (id ∈ subs) then subscriber_close <$> m !! id else m !! id.
Proof.
  unfold close_all. revert m. induction subs as [|s subs IH]; intros m; cbn [foldl].
  { case_decide; [set_solver|done]. }
  rewrite IH, lookup_alter. repeat case_decide; try set_solver; subst.
  destruct (m !! id); done.
Qed.

Lemma close_inv w :
  inv w → ∃ w', step OpClose w = Ok w' ∧ inv w' ∧ log w' = log w ∧
    nextSubID (bus w') = nextSubID (bus w).
Proof.
  intros [Hnext Hlog Hring Hnd Hsubs Hids Hid0 Hcl Hdom Hrd].
  eexists. split_and!; [done| |done..].
  assert (Hsome : ∀ id, is_Some (close_all (subscribers (bus w)) (chans (bus w)) !! id)
     ↔ is_Some (chans (bus w) !! id)).
  { intros id. rewrite close_all_lookup. case_decide; by rewrite ?fmap_is_Some. }
  split; simpl; try done.
  - apply NoDup_nil_2.
  - by intros id ?%elem_of_nil.
  - intros id. rewrite Hsome. apply Hids.
  - intros id. rewrite Hsome. apply Hdom.
  - intros id r c Hr. rewrite close_all_lookup. case_decide as Hin.
    + intros (c0 & Hc0 & ->)%fmap_Some. eapply reader_ok_close; [by eapply Hrd|by left|done..].
    + intros Hc. eapply reader_ok_mono; [by eapply Hrd| |done]. done.
Qed.

(** A call the compiler accepts: the cursor is a [uint64]. *)
Definition op_ok (o : op) : Prop :=
  match o with OpSubscribe since _ => 0 ≤ since < 2 ^ 64 | _ => True end.

Lemma step_inv w o :
  inv w → room 1 w → op_ok o →
  ∃ w', step o w = Ok w' ∧ inv w' ∧
    (log w' = log w ∨ ∃ e, log w' = log w ++ [e]) ∧
    nextSubID (bus w) ≤ nextSubID (bus w') ≤ nextSubID (bus w) + 1.
Proof.
  intros Hinv Hroom Hok. destruct o as [now tp p|since epoch|id|id|].
  - destruct (publish_inv w now tp p Hinv Hroom) as (w' & ? & ? & Hl & ?).
    exists w'. easy_split.
  - destruct (subscribe_inv w since epoch Hinv Hroom Hok) as (w' & ? & ? & ? & ?).
    exists w'. easy_split.
  - destruct (recv_inv w id Hinv) as (w' & ? & ? & ? & ?). exists w'. easy_split.
  - destruct (cancel_inv w id Hinv) as (w' & ? & ? & ? & ?). exists w'. easy_split.
  - destruct (close_inv w Hinv) as (w' & ? & ? & ? & ?). exists w'. easy_split.
Qed.

(** Every history within the counters' range runs to the end, without a panic, and
    keeps the invariant; the log only grows. *)
Lemma run_inv os k w :
  inv w → room (Z.of_nat (length os) + k) w → 0 ≤ k → Forall op_ok os →
  ∃ w', run os w = Ok w' ∧ inv w' ∧ room k w' ∧ log w `prefix_of` log w'.
Proof.
  revert w. induction os as [|o os IH]; intros w Hinv Hroom Hk Hok; simpl.
  { exists w. unfold room in *. simpl in *. easy_split. }
  apply Forall_cons in Hok as [Ho Hok]. unfold room in Hroom. simpl in Hroom.
  destruct (step_inv w o Hinv) as (w1 & Hs & Hinv1 & Hl & Hid); [unfold room; lia|done|].
  rewrite Hs. simpl.
  assert (log w `prefix_of` log w1 ∧ (length (log w1) ≤ length (log w) + 1)%nat) as [Hp Hlen].
  { destruct Hl as [->|[e ->]]; [split; [done|lia]|].
    rewrite length_app. simpl. split; [by eexists|lia]. }
  destruct (IH w1 Hinv1) as (w2 & Hr & Hinv2 & Hroom2 & Hp2); [unfold room; lia|done|done|].
  exists w2. split_and!; [done|done|done|]. by transitivity (log w1).
Qed.

(** Closing is sticky. *)
Lemma step_closed o w w' : step o w = Ok w' → closed (bus w) = true → closed (bus w') = true.
Proof.
  intros Hs Hc. destruct o; simpl in Hs.
  - apply rbind_Ok in Hs as ([b q] & Hp & Hw). unfold publish in Hp.
    apply rbind_Ok in Hp as (x & _ & Hb). by simplify_eq.
  - unfold Subscribe in Hs. rewrite Hc in Hs. by simplify_eq.
  - unfold recv in Hs. repeat case_match; by simplify_eq.
  - case_match; by simplify_eq.
  - by simplify_eq.
Qed.

Lemma run_closed os w w' :
  run (OpClose :: os) w = Ok w' → closed (bus w') = true.
Proof.
  simpl. set (w1 := MkWorld (Close (bus w)) (log w) (readers w)).
  assert (closed (bus w1) = true) as Hc by done. clearbody w1. revert w1 Hc.
  induction os as [|o os IH]; intros w1 Hc; simpl; [by intros [= <-]|].
  intros (w2 & Hs & Hr)%rbind_Ok. by eapply IH, Hr; eapply step_closed.
Qed.

End system.
End BusSystem.

(** * What the bus promises *)
Module BusSpec.
Import Bus BusSystem.
Section spec.
Context {P : Type}.

(** The states a bus reaches in fewer than [2^64 - 1] calls. *)
Definition reachable (epoch : Z) (w : world (P := P)) : Prop :=
  ∃ os, Forall op_ok os ∧ Z.of_nat (length os) < 2 ^ 64 - 2 ∧ run os (init epoch) = Ok w.

Lemma reachable_inv epoch w : reachable epoch w → inv w ∧ room 1 w.
Proof.
  intros (os & Hok & Hlen & Hrun).
  destruct (run_inv os 1 (init epoch)) as (w' & Hrun' & Hinv & Hroom & _);
    [apply inv_init|unfold room; simpl; lia|lia|done|].
  rewrite Hrun in Hrun'. by simplify_eq.
Qed.

(** C8. Gap-free delivery. Every sequence of Publish, Subscribe, Cancel, Close and
    reads of the live channel, of fewer than 2^64 - 2 calls, runs without a panic
    (no send on a closed channel); the events carry the sequence numbers 1, 2, 3, ...
    and the bus's epoch; and for every subscription handed out, its replay, then what
    its reader has read, then what its channel still buffers is one contiguous run of
    all published events, in order, that starts right after the subscription's
    position and, while its channel is open, ends with the newest event. *)
Theorem bus_gap_free epoch (os : list (op (P := P))) :
  Forall op_ok os → Z.of_nat (length os) < 2 ^ 64 - 2 →
  ∃ w, run os (init epoch) = Ok w ∧
    (∀ i e, log w !! i = Some e → Seq e = Z.of_nat i + 1 ∧
       InstanceEpoch e = instanceEpoch (bus w)) ∧
    (∀ id r, readers w !! id = Some r →
       ∃ c m, chans (bus w) !! id = Some c ∧ (base r ≤ m ≤ length (log w))%nat ∧
         replay r ++ received r ++ buf c = drop (base r) (take m (log w)) ∧
         (ch_closed c = false → m = length (log w))).
Proof.
  intros Hok Hlen.
  destruct (run_inv os 1 (init epoch)) as (w & Hrun & Hinv & _ & _);
    [apply inv_init|unfold room; simpl; lia|lia|done|].
  exists w. split_and!; [done|apply (inv_log w Hinv)|].
  intros id r Hr. destruct (proj2 (inv_dom w Hinv id)) as [c Hc]; [by eexists|].
  destruct (inv_readers w Hinv id r c Hr Hc) as (m & Hm & Hrn & Ho & _).
  exists c, m. split_and!; naive_solver.
Qed.

(** The cursor check is exact. On an open bus, in every reachable state, a
    subscription is accepted if and only if its cursor is 0, or carries this bus's
    epoch, does not lie beyond the newest event, and lies within the ring window; an
    accepted positioned cursor is replayed every event after it, and a refused one
    gets ErrBufferUnderflow. *)
Theorem subscribe_exact epoch w since reqEpoch :
  reachable epoch w → closed (bus w) = false → 0 ≤ since < 2 ^ 64 →
  if decide (since = 0 ∨ (reqEpoch = instanceEpoch (bus w) ∧
               since ≤ Z.of_nat (length (log w)) ∧
               Z.of_nat (length (log w)) - since ≤ Z.of_nat RingCapacity))
  then ∃ b s, Subscribe since reqEpoch (bus w) = Ok (b, s) ∧
         HeadSeq s = Z.of_nat (length (log w)) ∧
         Replay s = drop (if decide (since = 0) then length (log w) - RingCapacity
                          else Z.to_nat since) (log w)
  else Subscribe since reqEpoch (bus w) = Err ErrBufferUnderflow.
Proof.
  intros [Hinv Hroom]%reachable_inv Hc Hs.
  rewrite (subscribe_open w since reqEpoch Hinv Hroom Hc Hs).
  unfold servable. case_decide as Hserv; [|done].
  do 2 eexists. split_and!; [done..|]. simpl. f_equal.
  case_decide; [subst; lia|]. destruct Hserv as [?|(_ & ? & ?)]; [done|lia].
Qed.

(** A slow reader loses nothing it can recover. When the bus dropped a reader for
    overrunning its buffer (or anyone closed its channel) and the reader has drained
    it, there is a cursor, the number of the last event it saw, such that
    re-subscribing there succeeds as long as at most a ring's worth of events was
    published since, and old replay, old reads and new replay together are again
    every event from the original position to the newest, with none missing and none
    repeated. *)
Theorem resubscribe_after_overrun epoch w id r c :
  reachable epoch w → closed (bus w) = false →
  readers w !! id = Some r → chans (bus w) !! id = Some c → buf c = [] →
  ∃ m, (base r ≤ m ≤ length (log w))%nat ∧
    replay r ++ received r = drop (base r) (take m (log w)) ∧
    ((length (log w) - m ≤ RingCapacity)%nat →
     ∃ b s, Subscribe (Z.of_nat m) (instanceEpoch (bus w)) (bus w) = Ok (b, s) ∧
       (replay r ++ received r) ++ Replay s = drop (base r) (log w)).
Proof.
  intros [Hinv Hroom]%reachable_inv Hcl Hr Hc Hb.
  destruct (inv_readers w Hinv id r c Hr Hc) as (m & Hm & Hrn & _).
  rewrite Hb, app_nil_r in Hrn. exists m. split_and!; [lia|lia|done|]. intros Hwin.
  destruct Hroom as [Hr1 Hr2]. rewrite subscribe_open by (try done; unfold room; lia).
  unfold servable. rewrite decide_True by (right; split_and!; [done|lia|lia]).
  do 2 eexists. split; [done|]. simpl. rewrite Hrn, Nat2Z.id.
  rewrite Nat.max_l by lia.
  rewrite <- (take_drop m (log w)) at 3. rewrite drop_app_le; [done|].
  rewrite length_take. lia.
Qed.

(** The overrun latch tells the two ways a live channel ends apart: a latched
    channel is always closed, and a closed channel without the latch means that the
    bus was shut down or that the reader itself cancelled. *)
Theorem lagged_means_overrun epoch w id r c :
  reachable epoch w → readers w !! id = Some r → chans (bus w) !! id = Some c →
  (ch_lagged c = true → ch_closed c = true) ∧
  (ch_closed c = true → ch_lagged c = false → closed (bus w) = true ∨ cancelled r = true) ∧
  (length (buf c) ≤ liveBufferCapacity)%nat.
Proof.
  intros [Hinv _]%reachable_inv Hr Hc.
  destruct (inv_readers w Hinv id r c Hr Hc) as (m & _ & _ & _ & H1 & H2 & H3). naive_solver.
Qed.

(** Shutdown is final. After Close, whatever follows, every channel that was ever
    handed out is closed and every later Subscribe, with any cursor, returns the
    terminal stream: no error, no replay, nothing registered. *)
Theorem close_is_final epoch w os w' since reqEpoch :
  reachable epoch w → Forall op_ok os →
  Z.of_nat (length os) + Z.of_nat (length (log w)) < 2 ^ 64 - 2 →
  Z.of_nat (length os) + nextSubID (bus w) < 2 ^ 64 - 2 →
  run (OpClose :: os) w = Ok w' →
  (∀ id c, chans (bus w') !! id = Some c → ch_closed c = true) ∧
  Subscribe since reqEpoch (bus w') =
    Ok (bus w', MkSubscription [] None (instanceEpoch (bus w')) (u64 (nextSeq (bus w') - 1))).
Proof.
  intros [Hinv _]%reachable_inv Hok H1 H2 Hrun.
  assert (Hcl : closed (bus w') = true) by (by eapply run_closed).
  destruct (run_inv (OpClose :: os) 0 w) as (w'' & Hrun'' & Hinv' & _ & _);
    [done|unfold room; simpl; lia|lia|by constructor|].
  rewrite Hrun in Hrun''. injection Hrun'' as <-. split.
  - intros id c Hc. destruct (ch_closed c) eqn:Hcc; [done|].
    destruct (proj1 (inv_dom w' Hinv' id)) as [r Hr]; [by eexists|].
    destruct (inv_readers w' Hinv' id r c Hr Hc) as (m & _ & _ & Ho & _).
    destruct (Ho Hcc) as (_ & Hin & _). rewrite (inv_closed w' Hinv' Hcl) in Hin.
    by apply elem_of_nil in Hin.
  - unfold Subscribe. by rewrite Hcl.
Qed.

End spec.

(** ** The promises at a concrete history: two events, a snapshot subscription, a
    third event, a read. *)
Definition demo_ops : list (op (P := nat)) :=
  [OpPublish 10 "" 100%nat; OpPublish 11 "" 101%nat; OpSubscribe 0 0;
   OpPublish 12 "" 102%nat; OpRecv 1; OpRecv 1].

Definition demo_event (n : Z) (p : nat) : Stamped nat := MkStamped n (9 + n) 7 p "".

Definition demo_world : world (P := nat) :=
  MkWorld (MkBus 7 4 1 [demo_event 1 100; demo_event 2 101; demo_event 3 102] [1] false
             {[1 := MkChan [] false false]})
    [demo_event 1 100; demo_event 2 101; demo_event 3 102]
    {[1 := MkReader 0 [demo_event 1 100; demo_event 2 101] [demo_event 3 102] false]}.

Lemma demo_ok : Forall op_ok demo_ops.
Proof. repeat constructor; simpl; lia. Qed.

Lemma demo_reachable : reachable 7 demo_world.
Proof. exists demo_ops. split_and!; [apply demo_ok|simpl; lia|vm_compute; reflexivity]. Qed.

Lemma bus_gap_free_witness :
  ∃ w, run demo_ops (init 7) = Ok w ∧
    (∀ id r, readers w !! id = Some r →
       ∃ c m, chans (bus w) !! id = Some c ∧ (base r ≤ m ≤ length (log w))%nat ∧
         replay r ++ received r ++ buf c = drop (base r) (take m (log w)) ∧
         (ch_closed c = false → m = length (log w))).
Proof.
  destruct (bus_gap_free 7 demo_ops demo_ok ltac:(simpl; lia)) as (w & H1 & _ & H2).
  exists w. exact (conj H1 H2).
Defined.

Lemma subscribe_exact_witness :
  Subscribe 2 8 (bus demo_world) = Err ErrBufferUnderflow ∧
  ∃ b s, Subscribe 2 7 (bus demo_world) = Ok (b, s) ∧
    HeadSeq s = 3 ∧ Replay s = [demo_event 3 102].
Proof.
  split.
  - exact (subscribe_exact 7 demo_world 2 8 demo_reachable eq_refl ltac:(lia)).
  - exact (subscribe_exact 7 demo_world 2 7 demo_reachable eq_refl ltac:(lia)).
Defined.

Lemma resubscribe_after_overrun_witness :
  ∃ m, (0 ≤ m ≤ 3)%nat ∧
    [demo_event 1 100; demo_event 2 101; demo_event 3 102] = drop 0 (take m (log demo_world)) ∧
    ((3 - m ≤ RingCapacity)%nat →
     ∃ b s, Subscribe (Z.of_nat m) 7 (bus demo_world) = Ok (b, s) ∧
       [demo_event 1 100; demo_event 2 101; demo_event 3 102] ++ Replay s = log demo_world).
Proof.
  exact (resubscribe_after_overrun 7 demo_world 1 _ _ demo_reachable eq_refl eq_refl eq_refl eq_refl).
Defined.

Lemma lagged_means_overrun_witness :
  let c := MkChan (P := nat) [] false false in
  (ch_lagged c = true → ch_closed c = true) ∧
  (ch_closed c = true → ch_lagged c = false → closed (bus demo_world) = true ∨ false = true) ∧
  (length (buf c) ≤ liveBufferCapacity)%nat.
Proof. exact (lagged_means_overrun 7 demo_world 1 _ _ demo_reachable eq_refl eq_refl). Defined.

Lemma close_is_final_witness :
  ∃ w', run [OpClose; OpPublish 13 "" 103%nat] demo_world = Ok w' ∧
    Subscribe 2 8 (bus w') = Ok (bus w', MkSubscription [] None 7 4).
Proof.
  eexists. split; [vm_compute; reflexivity|].
  exact (proj2 (close_is_final 7 demo_world [OpPublish 13 "" 103%nat] _ 2 8 demo_reachable
    ltac:(repeat constructor) ltac:(simpl; lia) ltac:(simpl; lia)
    ltac:(vm_compute; reflexivity))).
Defined.

End BusSpec.
