(* ===== verification/Accum.v ===== *)
(** Keyed accumulation: a map whose entry at a key is combined with each value added
    under that key.  The usage rollups are such maps; what a rebuild of them needs is
    that the order of additions does not matter. *)
From stdpp Require Import base gmap list fin_maps.
From S2P Require Import Prelude.

Section accum.
Context {K B V : Type} `{Countable K}.
Context (zero : B) (comb : K → B → V → B).

(** [m[k] = comb k m[k] v], reading an absent key as [zero]. *)
Definition add_entry (m : gmap K B) (e : K * V) : gmap K B :=
  <[e.1 := comb e.1 (mget zero m e.1) e.2]> m.

Definition accum (l : list (K * V)) (m : gmap K B) : gmap K B := foldl add_entry m l.

(** The values added under one key. *)
Definition at_key (k : K) (l : list (K * V)) : list V :=
  snd <$> filter (λ e, e.1 = k) l.

Definition fold_key (k : K) (o : option B) (vs : list V) : option B :=
  foldl (λ o v, Some (comb k (default zero o) v)) o vs.

Lemma at_key_app k l1 l2 : at_key k (l1 ++ l2) = at_key k l1 ++ at_key k l2.
Proof. unfold at_key. by rewrite filter_app, fmap_app. Qed.

Lemma at_key_perm k l1 l2 : l1 ≡ₚ l2 → at_key k l1 ≡ₚ at_key k l2.
Proof. intros Hp. unfold at_key. by rewrite Hp. Qed.

Lemma at_key_nil k l : (∀ e, e ∈ l → e.1 ≠ k) → at_key k l = [].
Proof.
  intros He. unfold at_key. rewrite filter_none; [done|]. by apply Forall_forall.
Qed.

Lemma at_key_fmap {A} (f : A → K) (d : A → V) l k :
  at_key k ((λ s, (f s, d s)) <$> l) = d <$> filter (λ s, f s = k) l.
Proof.
  unfold at_key. induction l as [|x l IH]; [done|].
  rewrite fmap_cons, !filter_cons. cbn [fst]. case_decide; rewrite ?fmap_cons; [|done].
  by rewrite IH.
Qed.

(** Adding entries, seen at one key. *)
Lemma accum_lookup l m k : accum l m !! k = fold_key k (m !! k) (at_key k l).
Proof.
  unfold accum. revert m. induction l as [|[k' v] l IH]; intros m; simpl; [done|].
  rewrite IH. unfold at_key, add_entry. rewrite filter_cons. simpl.
  case_decide as Hk; simpl.
  - subst. by rewrite lookup_insert_eq.
  - by rewrite lookup_insert_ne.
Qed.

Lemma accum_app l1 l2 m : accum (l1 ++ l2) m = accum l2 (accum l1 m).
Proof. apply foldl_app. Qed.

(** Additions under one key commute. *)
Hypothesis comb_comm : ∀ k b v w, comb k (comb k b v) w = comb k (comb k b w) v.

Lemma fold_key_perm k o vs1 vs2 : vs1 ≡ₚ vs2 → fold_key k o vs1 = fold_key k o vs2.
Proof using comb_comm.
  unfold fold_key. intros Hp. revert o. induction Hp; intros o; simpl; [done|done| |].
  - by rewrite comb_comm.
  - by rewrite IHHp1.
Qed.

Lemma accum_perm l1 l2 m : l1 ≡ₚ l2 → accum l1 m = accum l2 m.
Proof using comb_comm.
  intros Hp. apply map_eq. intros k. rewrite !accum_lookup.
  by apply fold_key_perm, at_key_perm.
Qed.

End accum.
