(* ===== verification/Usage.v ===== *)
(** Token and compute usage accounting: src/go/internal/usage/usage.go (the events,
    buckets and their validation) and src/go/internal/usage/memory.go (the reference
    store: raw logs, hour and day rollups, series reads, rebuild and prune).

    Each call is scoped to the tenant its context names; the tenant id is an argument
    here, the empty string when the context carries none.  Timestamps that reach a
    bucket computation are validated to lie in [1, maxTimestamptzMs], so the sums
    [start + width] stay far from the int64 bounds and are written without a wrap;
    the accumulated counters do wrap. *)
From stdpp Require Import base gmap sorting strings list fin_maps.
From Stdlib Require Import ZArith Lia.
From S2P Require Import Prelude Accum.

(** * Buckets *)

Definition GranularityUnspecified : Z := 0.
Definition GranularityHour : Z := 1.
Definition GranularityDay : Z := 2.
Definition hourMs : Z := 3600000.
Definition dayMs : Z := 24 * hourMs.
Definition maxTimestamptzMs : Z := MaxInt64 `quot` 1000.

(** [Granularity.widthMs] *)
Definition widthMs (g : Z) : Z :=
  if decide (g = GranularityHour) then hourMs
  else if decide (g = GranularityDay) then dayMs
  else 0.

(** [Granularity.BucketStart]; Go's remainder truncates toward zero. *)
Definition BucketStart (g unixMs : Z) : Z :=
  let width := widthMs g in
  if decide (width = 0) then unixMs else unixMs - Z.rem unixMs width.

Definition rollupGranularities : list Z := [GranularityHour; GranularityDay].

(** * Events *)

Record TokenUsageEvent := MkTokenUsageEvent {
  ID : string;
  OccurredAtUnixMs : Z;
  AgentAccountID : string;
  OwnerUserID : string;
  SessionID : string;
  RequestID : string;
  Provider : string;
  Model : string;
  CredentialID : string;
  InputTokens : Z;
  OutputTokens : Z;
  CacheReadTokens : Z;
  CacheWriteTokens : Z;
  TotalTokens : Z;
  CostMicroUSD : Z;
  RateVersion : string;
  Outcome : string
}.

Record Bucket := MkBucket {
  bStartUnixMs : Z;
  bInput : Z;
  bOutput : Z;
  bCacheRead : Z;
  bCacheWrite : Z;
  bTotal : Z;
  bCost : Z
}.
Definition zeroBucket : Bucket := MkBucket 0 0 0 0 0 0 0.

Record ComputeInterval := MkComputeInterval {
  IntervalID : string;
  iStartUnixMs : Z;
  iEndUnixMs : Z;
  iAgentAccountID : string;
  iOwnerUserID : string
}.

Record ComputeBucket := MkComputeBucket {
  cStartUnixMs : Z;
  ActiveMs : Z;
  Intervals : Z
}.
Definition zeroComputeBucket : ComputeBucket := MkComputeBucket 0 0 0.

Record SeriesQuery := MkSeriesQuery {
  qGranularity : Z;
  qStartUnixMs : Z;
  qEndUnixMs : Z;
  qAgentAccountIDs : list string;
  qProvider : string
}.

(** What is wrong with an event, the cases of [TokenUsageEvent.problem] in order. *)
Inductive defect :=
| EmptyID
| NonPositiveOccurredAt
| OccurredAtPastLast
| EmptyRollupKey
| NegativeCount
| UnknownOutcome (o : string).

(** Every error wraps [ErrInvalidArgument]. *)
Inductive error :=
| InvalidEvent (i : nat) (id : string) (d : defect)
| NoRollupGranularity (g : Z)
| EmptyIntervalID
| IntervalStartRange
| IntervalEndRange
| EmptyIntervalKey.

Definition problem (e : TokenUsageEvent) : option defect :=
  if decide (ID e = "") then Some EmptyID
  else if decide (OccurredAtUnixMs e ≤ 0) then Some NonPositiveOccurredAt
  else if decide (maxTimestamptzMs < OccurredAtUnixMs e) then Some OccurredAtPastLast
  else if decide (AgentAccountID e = "" ∨ OwnerUserID e = "" ∨ Provider e = "" ∨ Model e = "")
  then Some EmptyRollupKey
  else if decide (InputTokens e < 0 ∨ OutputTokens e < 0 ∨ CacheReadTokens e < 0 ∨
                  CacheWriteTokens e < 0 ∨ TotalTokens e < 0 ∨ CostMicroUSD e < 0)
  then Some NegativeCount
  else if decide (Outcome e ≠ "ok" ∧ Outcome e ≠ "error" ∧ Outcome e ≠ "aborted")
  then Some (UnknownOutcome (Outcome e))
  else None.

Fixpoint validate_from (i : nat) (events : list TokenUsageEvent) : result error unit :=
  match events with
  | [] => Ok tt
  | e :: rest =>
      match problem e with
      | Some d => Err (InvalidEvent i (ID e) d)
      | None => validate_from (S i) rest
      end
  end.

Definition ValidateEvents (events : list TokenUsageEvent) : result error unit :=
  validate_from 0 events.

(** [SeriesQuery.Validate] *)
Definition Validate (q : SeriesQuery) : result error unit :=
  if decide (widthMs (qGranularity q) = 0) then Err (NoRollupGranularity (qGranularity q))
  else Ok tt.

Definition validateComputeInterval (i : ComputeInterval) : result error unit :=
  if decide (IntervalID i = "") then Err EmptyIntervalID
  else if decide (iStartUnixMs i ≤ 0 ∨ maxTimestamptzMs < iStartUnixMs i)
  then Err IntervalStartRange
  else if decide (iEndUnixMs i < 0 ∨ maxTimestamptzMs < iEndUnixMs i ∨
                  (iEndUnixMs i ≠ 0 ∧ iEndUnixMs i < iStartUnixMs i))
  then Err IntervalEndRange
  else if decide (iAgentAccountID i = "" ∨ iOwnerUserID i = "") then Err EmptyIntervalKey
  else Ok tt.

(** [TokenUsageEvent.usage] *)
Definition usage (e : TokenUsageEvent) : Bucket :=
  MkBucket 0 (InputTokens e) (OutputTokens e) (CacheReadTokens e) (CacheWriteTokens e)
    (TotalTokens e) (CostMicroUSD e).

(** [Bucket.plus] keeps the left start. *)
Definition plus (b o : Bucket) : Bucket :=
  MkBucket (bStartUnixMs b) (add64 (bInput b) (bInput o)) (add64 (bOutput b) (bOutput o))
    (add64 (bCacheRead b) (bCacheRead o)) (add64 (bCacheWrite b) (bCacheWrite o))
    (add64 (bTotal b) (bTotal o)) (add64 (bCost b) (bCost o)).

Definition with_start (s : Z) (b : Bucket) : Bucket :=
  MkBucket s (bInput b) (bOutput b) (bCacheRead b) (bCacheWrite b) (bTotal b) (bCost b).

(** * The in-memory store *)

Record rollupKey := MkRollupKey {
  kGranularity : Z;
  kStartUnixMs : Z;
  kOwnerUserID : string;
  kAgentAccountID : string;
  kProvider : string;
  kModel : string
}.
#[global] Instance rollupKey_eq : EqDecision rollupKey.
Proof. solve_decision. Defined.
#[global] Program Instance rollupKey_countable : Countable rollupKey :=
  inj_countable'
    (λ k, (kGranularity k, kStartUnixMs k, kOwnerUserID k, kAgentAccountID k,
           kProvider k, kModel k))
    (λ '(g, s, o, a, p, m), MkRollupKey g s o a p m) _.
Next Obligation. by intros []. Qed.

Record computeRollupKey := MkComputeRollupKey {
  ckGranularity : Z;
  ckStartUnixMs : Z;
  ckOwnerUserID : string;
  ckAgentAccountID : string
}.
#[global] Instance computeRollupKey_eq : EqDecision computeRollupKey.
Proof. solve_decision. Defined.
#[global] Program Instance computeRollupKey_countable : Countable computeRollupKey :=
  inj_countable'
    (λ k, (ckGranularity k, ckStartUnixMs k, ckOwnerUserID k, ckAgentAccountID k))
    (λ '(g, s, o, a), MkComputeRollupKey g s o a) _.
Next Obligation. by intros []. Qed.

Record memoryTenant := MkTenant {
  events : gmap string TokenUsageEvent;
  rollups : gmap rollupKey Bucket;
  computeEvents : gmap string ComputeInterval;
  computeRollups : gmap computeRollupKey ComputeBucket
}.
Definition emptyTenant : memoryTenant := MkTenant ∅ ∅ ∅ ∅.

Record Memory := MkMemory {
  tenants : gmap string memoryTenant;
  horizonUnixMs : Z;
  computeHorizonUnixMs : Z
}.

Definition NewMemory : Memory := MkMemory ∅ MinInt64 MinInt64.

(** [Memory.tenant] creates the tenant's state on first use. *)
Definition tenant (id : string) (m : Memory) : Memory * memoryTenant :=
  match tenants m !! id with
  | Some t => (m, t)
  | None => (MkMemory (<[id := emptyTenant]> (tenants m)) (horizonUnixMs m)
               (computeHorizonUnixMs m), emptyTenant)
  end.

(** A write through the tenant pointer. *)
Definition put_tenant (id : string) (t : memoryTenant) (m : Memory) : Memory :=
  MkMemory (<[id := t]> (tenants m)) (horizonUnixMs m) (computeHorizonUnixMs m).

(** ** Token usage *)

Definition rollup_key (g : Z) (e : TokenUsageEvent) : rollupKey :=
  MkRollupKey g (BucketStart g (OccurredAtUnixMs e)) (OwnerUserID e) (AgentAccountID e)
    (Provider e) (Model e).

(** One pass of the loop of [rollUp]: add the usage, then stamp the key's start. *)
Definition roll_one (k : rollupKey) (b : Bucket) (u : Bucket) : Bucket :=
  with_start (kStartUnixMs k) (plus b u).

(** [memoryTenant.rollUp] *)
Definition rollUp (e : TokenUsageEvent) (m : gmap rollupKey Bucket) : gmap rollupKey Bucket :=
  foldl (λ m g, add_entry zeroBucket roll_one m (rollup_key g e, usage e))
    m rollupGranularities.

Definition append_one (t : memoryTenant) (e : TokenUsageEvent) : memoryTenant :=
  match events t !! ID e with
  | Some _ => t
  | None => MkTenant (<[ID e := e]> (events t)) (rollUp e (rollups t))
              (computeEvents t) (computeRollups t)
  end.

Definition AppendTokenUsage (id : string) (es : list TokenUsageEvent) (m : Memory)
  : result error Memory :=
  _ <-? ValidateEvents es ;
  let '(m, t) := tenant id m in
  Ok (put_tenant id (foldl append_one t es) m).

(** The filter of a series read; the provider test is the token series' own. *)
Definition key_in_query (q : SeriesQuery) (g start : Z) (agent : string) : bool :=
  bool_decide (g = qGranularity q) && bool_decide (qStartUnixMs q ≤ start) &&
  bool_decide (start < qEndUnixMs q) &&
  (bool_decide (qAgentAccountIDs q = []) || bool_decide (agent ∈ qAgentAccountIDs q)).

Definition token_key_in_query (q : SeriesQuery) (k : rollupKey) : bool :=
  key_in_query q (kGranularity k) (kStartUnixMs k) (kAgentAccountID k) &&
  (bool_decide (qProvider q = "") || bool_decide (kProvider k = qProvider q)).

(** The loop over the rollups: [sums[start] = sums[start].plus(b)]. *)
Definition token_sums (q : SeriesQuery) (m : gmap rollupKey Bucket) : gmap Z Bucket :=
  accum zeroBucket (λ _, plus)
    ((λ kb, (kStartUnixMs kb.1, kb.2)) <$>
       filter (λ kb, token_key_in_query q kb.1 = true) (map_to_list m)) ∅.

Definition bucket_le (a b : Bucket) : Prop := bStartUnixMs a ≤ bStartUnixMs b.
#[global] Instance bucket_le_dec : RelDecision bucket_le.
Proof. intros a b. unfold bucket_le. apply _. Defined.

Definition TokenUsageSeries (id : string) (q : SeriesQuery) (m : Memory)
  : result error (Memory * list Bucket) :=
  _ <-? Validate q ;
  let '(m, t) := tenant id m in
  Ok (m, merge_sort bucket_le
           ((λ kb, with_start kb.1 kb.2) <$> map_to_list (token_sums q (rollups t)))).

(** Rebuild: drop the buckets from the horizon on, then roll the raw events from the
    horizon on up again, in the map's order. *)
Definition RebuildTokenUsageRollups (id : string) (m : Memory) : Memory :=
  let '(m, t) := tenant id m in
  let kept := filter (λ kb, ¬ horizonUnixMs m ≤ kStartUnixMs kb.1) (rollups t) in
  let again := filter (λ e, horizonUnixMs m ≤ OccurredAtUnixMs e)
                 (snd <$> map_to_list (events t)) in
  put_tenant id (MkTenant (events t) (foldl (λ r e, rollUp e r) kept again)
                   (computeEvents t) (computeRollups t)) m.

(** How many entries of a map a deletion loop removes. *)
Definition removed {A} (keep : A → bool) (m : gmap string A) : Z :=
  Z.of_nat (size (filter (λ ie, keep ie.2 = false) m)).

Definition sum_tenants (f : memoryTenant → Z) (m : gmap string memoryTenant) : Z :=
  foldl (λ n it, add64 n (f it.2)) 0 (map_to_list m).

Definition PruneTokenUsageBefore (beforeUnixMs : Z) (m : Memory) : Memory * Z :=
  let cutoff := BucketStart GranularityDay beforeUnixMs in
  let keep e := bool_decide (cutoff ≤ OccurredAtUnixMs e) in
  (MkMemory
     ((λ t, MkTenant (filter (λ ie, keep ie.2 = true) (events t)) (rollups t)
              (computeEvents t) (computeRollups t)) <$> tenants m)
     (Z.max (horizonUnixMs m) cutoff) (computeHorizonUnixMs m),
   sum_tenants (λ t, removed keep (events t)) (tenants m)).

(** ** Compute usage *)

(** The values [start] takes in [for start := first; start <= last; start += width].
    [(last - first) / width + 1] rounds are enough for a positive width. *)
Fixpoint bucket_starts (fuel : nat) (start last width : Z) : list Z :=
  match fuel with
  | O => []
  | S fuel => if decide (start ≤ last) then start :: bucket_starts fuel (start + width) last width
              else []
  end.

Definition loop_starts (first last width : Z) : list Z :=
  bucket_starts (Z.to_nat ((last - first) / width + 1)) first last width.

(** The loop body's key and increments at one bucket. *)
Definition compute_key (i : ComputeInterval) (g start : Z) : computeRollupKey :=
  MkComputeRollupKey g start (iOwnerUserID i) (iAgentAccountID i).

Definition compute_delta (i : ComputeInterval) (horizon g start : Z) : Z * Z :=
  let width := widthMs g in
  let activeStart := Z.max (iStartUnixMs i) start in
  let activeEnd := Z.min (iEndUnixMs i) (start + width) in
  (Z.max 0 (activeEnd - activeStart),
   if decide (horizon ≤ iStartUnixMs i ∧ BucketStart g (iStartUnixMs i) = start)
   then 1 else 0).

Definition compute_roll (k : computeRollupKey) (b : ComputeBucket) (d : Z * Z)
  : ComputeBucket :=
  MkComputeBucket (ckStartUnixMs k) (add64 (ActiveMs b) d.1) (add64 (Intervals b) d.2).

Definition first_bucket (i : ComputeInterval) (horizon g : Z) : Z :=
  Z.max (BucketStart g (iStartUnixMs i))
    (if decide (horizon = MinInt64) then MinInt64 else BucketStart g horizon).

Definition last_bucket (i : ComputeInterval) (g : Z) : Z :=
  Z.max (BucketStart g (iStartUnixMs i)) (BucketStart g (iEndUnixMs i - 1)).

Definition roll_compute_at (i : ComputeInterval) (horizon g : Z)
  (m : gmap computeRollupKey ComputeBucket) : gmap computeRollupKey ComputeBucket :=
  foldl (λ m start, add_entry zeroComputeBucket compute_roll m
           (compute_key i g start, compute_delta i horizon g start))
    m (loop_starts (first_bucket i horizon g) (last_bucket i g) (widthMs g)).

(** [memoryTenant.rollUpCompute] *)
Definition rollUpCompute (i : ComputeInterval) (horizon : Z)
  (m : gmap computeRollupKey ComputeBucket) : gmap computeRollupKey ComputeBucket :=
  if decide (iEndUnixMs i = 0 ∨ (horizon ≠ MinInt64 ∧ iEndUnixMs i < horizon)) then m
  else foldl (λ m g, roll_compute_at i horizon g m) m rollupGranularities.

Definition close_interval (i : ComputeInterval) (e : Z) : ComputeInterval :=
  MkComputeInterval (IntervalID i) (iStartUnixMs i) e (iAgentAccountID i) (iOwnerUserID i).

Definition set_interval (t : memoryTenant) (i : ComputeInterval) : memoryTenant :=
  MkTenant (events t) (rollups t) (<[IntervalID i := i]> (computeEvents t))
    (if decide (iEndUnixMs i ≠ 0) then rollUpCompute i MinInt64 (computeRollups t)
     else computeRollups t).

(** [AppendComputeInterval]: a duplicate changes nothing unless it closes an open
    interval, which keeps its own start, agent and owner. *)
Definition AppendComputeInterval (id : string) (interval : ComputeInterval) (m : Memory)
  : result error Memory :=
  _ <-? validateComputeInterval interval ;
  let '(m, t) := tenant id m in
  match computeEvents t !! IntervalID interval with
  | Some existing =>
      if decide (iEndUnixMs existing ≠ 0 ∨ iEndUnixMs interval = 0) then Ok m
      else
        let closed := close_interval existing (iEndUnixMs interval) in
        _ <-? validateComputeInterval closed ;
        Ok (put_tenant id
              (MkTenant (events t) (rollups t)
                 (<[IntervalID interval := closed]> (computeEvents t))
                 (rollUpCompute closed MinInt64 (computeRollups t))) m)
  | None => Ok (put_tenant id (set_interval t interval) m)
  end.

Definition compute_sum (_ : Z) (b o : ComputeBucket) : ComputeBucket :=
  MkComputeBucket (cStartUnixMs o) (add64 (ActiveMs b) (ActiveMs o))
    (add64 (Intervals b) (Intervals o)).

Definition compute_sums (q : SeriesQuery) (m : gmap computeRollupKey ComputeBucket)
  : gmap Z ComputeBucket :=
  accum zeroComputeBucket compute_sum
    ((λ kb, (ckStartUnixMs kb.1,
             MkComputeBucket (ckStartUnixMs kb.1) (ActiveMs kb.2) (Intervals kb.2))) <$>
       filter (λ kb, key_in_query q (ckGranularity kb.1) (ckStartUnixMs kb.1)
                       (ckAgentAccountID kb.1) = true) (map_to_list m)) ∅.

Definition cbucket_le (a b : ComputeBucket) : Prop := cStartUnixMs a ≤ cStartUnixMs b.
#[global] Instance cbucket_le_dec : RelDecision cbucket_le.
Proof. intros a b. unfold cbucket_le. apply _. Defined.

Definition ComputeUsageSeries (id : string) (q : SeriesQuery) (m : Memory)
  : result error (Memory * list ComputeBucket) :=
  _ <-? Validate q ;
  let '(m, t) := tenant id m in
  Ok (m, merge_sort cbucket_le (snd <$> map_to_list (compute_sums q (computeRollups t)))).

Definition RebuildComputeUsageRollups (id : string) (m : Memory) : Memory :=
  let '(m, t) := tenant id m in
  let h := computeHorizonUnixMs m in
  let kept := filter (λ kb, ¬ BucketStart GranularityDay h ≤ ckStartUnixMs kb.1)
                (computeRollups t) in
  let again := filter (λ i, iEndUnixMs i ≠ 0 ∧ h ≤ BucketStart GranularityDay (iEndUnixMs i))
                 (snd <$> map_to_list (computeEvents t)) in
  put_tenant id (MkTenant (events t) (rollups t) (computeEvents t)
                   (foldl (λ r i, rollUpCompute i h r) kept again)) m.

Definition PruneComputeUsageBefore (beforeUnixMs : Z) (m : Memory) : Memory * Z :=
  let cutoff := BucketStart GranularityDay beforeUnixMs in
  let keep i := negb (bool_decide (iEndUnixMs i ≠ 0) &&
                      bool_decide (BucketStart GranularityDay (iEndUnixMs i) < cutoff)) in
  (MkMemory
     ((λ t, MkTenant (events t) (rollups t)
              (filter (λ ie, keep ie.2 = true) (computeEvents t)) (computeRollups t))
        <$> tenants m)
     (horizonUnixMs m) (Z.max (computeHorizonUnixMs m) cutoff),
   sum_tenants (λ t, 2 * removed keep (computeEvents t)) (tenants m)).

(** [Memory.clearRollups] *)
Definition clearRollups (m : Memory) : Memory :=
  MkMemory ((λ t, MkTenant (events t) ∅ (computeEvents t) ∅) <$> tenants m)
    (horizonUnixMs m) (computeHorizonUnixMs m).
