(* ===== verification/UsageFacts.v ===== *)
(** What the usage store guarantees: buckets contain their timestamps, a rebuild
    repairs any damage to the rollups past the prune horizon, a series read is the
    sum of the raw events, a compute interval is split over its buckets without loss,
    appends are idempotent. *)
From stdpp Require Import base gmap sorting strings list fin_maps.
From Stdlib Require Import ZArith Lia.
From S2P Require Import Prelude Accum Usage.

(** * Bucket arithmetic *)

Lemma width_cases g : g ∈ rollupGranularities →
  (g = GranularityHour ∧ widthMs g = hourMs) ∨ (g = GranularityDay ∧ widthMs g = dayMs).
Proof. unfold rollupGranularities. set_solver. Qed.

Lemma width_pos g : g ∈ rollupGranularities → 0 < widthMs g ∧ (widthMs g | dayMs).
Proof.
  intros [[_ ->]|[_ ->]]%width_cases; unfold dayMs, hourMs; split; try lia.
  - by exists 24.
  - by exists 1.
Qed.

Lemma bucket_start_nonneg g t : g ∈ rollupGranularities → 0 ≤ t →
  BucketStart g t = widthMs g * (t / widthMs g).
Proof.
  intros [Hp _]%width_pos Ht. unfold BucketStart.
  rewrite decide_False by lia. rewrite Z.rem_mod_nonneg by lia.
  pose proof (Z.div_mod t (widthMs g)). lia.
Qed.

Lemma bucket_start_bounds g t : g ∈ rollupGranularities → 0 ≤ t →
  BucketStart g t ≤ t < BucketStart g t + widthMs g ∧ (widthMs g | BucketStart g t) ∧
  0 ≤ BucketStart g t.
Proof.
  intros Hg Ht. rewrite bucket_start_nonneg by done. destruct (width_pos g Hg) as [Hp _].
  pose proof (Z.div_mod t (widthMs g)). pose proof (Z.mod_pos_bound t (widthMs g)).
  pose proof (Z.div_pos t (widthMs g)).
  split_and!; try lia. by apply Z.divide_factor_l.
Qed.

(** A bucket start is the only multiple of the width at most one width below. *)
Lemma bucket_start_unique g t s : g ∈ rollupGranularities → 0 ≤ t →
  (widthMs g | s) → s ≤ t < s + widthMs g → BucketStart g t = s.
Proof.
  intros Hg Ht [q ->] Hs. rewrite bucket_start_nonneg by done.
  destruct (width_pos g Hg) as [Hp _].
  rewrite (Z.div_unique t (widthMs g) q (t - widthMs g * q)); lia.
Qed.

Lemma bucket_start_day t : BucketStart GranularityDay t = t - Z.rem t dayMs.
Proof. done. Qed.

Lemma bucket_start_aligned t : (dayMs | t) → BucketStart GranularityDay t = t.
Proof. intros [q ->]. rewrite bucket_start_day, Z.rem_mul by done. lia. Qed.

(** A prune horizon: never pruned, or the start of a UTC day. *)
Definition horizon_ok (h : Z) : Prop := h = MinInt64 ∨ (dayMs | h).

Lemma cutoff_aligned t : (dayMs | BucketStart GranularityDay t).
Proof.
  rewrite bucket_start_day.
  exists (Z.quot t dayMs). pose proof (Z.quot_rem' t dayMs). lia.
Qed.

Lemma horizon_ok_max h t :
  horizon_ok h → horizon_ok (Z.max h (BucketStart GranularityDay t)).
Proof.
  intros Hh. destruct (Z.max_spec h (BucketStart GranularityDay t)) as [[_ ->]|[_ ->]];
    [right; apply cutoff_aligned|done].
Qed.

(** A bucket starts at or after the horizon exactly when its timestamps do. *)
Lemma horizon_bucket h g t : horizon_ok h → g ∈ rollupGranularities → 0 ≤ t →
  h ≤ BucketStart g t ↔ h ≤ t.
Proof.
  intros Hh Hg Ht. destruct (bucket_start_bounds g t Hg Ht) as (Hb & [q Hq] & H0).
  destruct (width_pos g Hg) as [Hp [r Hr]].
  destruct Hh as [->|[p Hp']]; [unfold MinInt64; lia|].
  split; [lia|]. intros Hle. rewrite Hp', Hr in *. rewrite Hq in *.
  assert (p * r ≤ q) by nia. nia.
Qed.

(** * Token rollups *)

Lemma plus_start s b o : plus (with_start s b) o = with_start s (plus b o).
Proof. done. Qed.

Lemma plus_comm_r b v w : plus (plus b v) w = plus (plus b w) v.
Proof.
  unfold plus; simpl. f_equal; rewrite <- !add64_assoc; f_equal; apply add64_comm.
Qed.

Lemma plus_assoc b v w : plus b (plus v w) = plus (plus b v) w.
Proof. unfold plus; simpl. f_equal; apply add64_assoc. Qed.

Lemma roll_one_comm k b v w : roll_one k (roll_one k b v) w = roll_one k (roll_one k b w) v.
Proof. unfold roll_one. rewrite !plus_start. by rewrite plus_comm_r. Qed.

(** The rollup entries one event, or a list of events, adds. *)
Definition event_entries (e : TokenUsageEvent) : list (rollupKey * Bucket) :=
  (λ g, (rollup_key g e, usage e)) <$> rollupGranularities.

Definition token_entries (es : list TokenUsageEvent) : list (rollupKey * Bucket) :=
  es ≫= event_entries.

Lemma token_entries_cons e es :
  token_entries (e :: es) = event_entries e ++ token_entries es.
Proof. done. Qed.

Definition token_accum := accum zeroBucket roll_one.

Lemma rollUp_accum e m : rollUp e m = token_accum (event_entries e) m.
Proof. done. Qed.

Lemma rollUp_list es m :
  foldl (λ r e, rollUp e r) m es = token_accum (token_entries es) m.
Proof.
  revert m. induction es as [|e es IH]; intros m; [done|].
  cbn [foldl]. rewrite IH, rollUp_accum. unfold token_accum.
  by rewrite token_entries_cons, accum_app.
Qed.

#[export] Instance token_entries_proper : Proper ((≡ₚ) ==> (≡ₚ)) token_entries.
Proof. intros es es' Hp. unfold token_entries. by rewrite Hp. Qed.

(** The raw events of a tenant, in any order. *)
Definition raw (t : memoryTenant) : list TokenUsageEvent := snd <$> map_to_list (events t).

Definition valid_event (e : TokenUsageEvent) : Prop := problem e = None.

Lemma valid_event_time e : valid_event e → 0 < OccurredAtUnixMs e ≤ maxTimestamptzMs.
Proof. unfold valid_event, problem. intros. repeat case_decide; naive_solver lia. Qed.

(** From the horizon on, the rollups are what the raw events add up to. *)
Record token_ok (h : Z) (t : memoryTenant) : Prop := {
  token_valid : ∀ id e, events t !! id = Some e → ID e = id ∧ valid_event e;
  token_rolled : ∀ k, h ≤ kStartUnixMs k →
    rollups t !! k = token_accum (token_entries (raw t)) ∅ !! k
}.

(** Events before the horizon add nothing at or after it. *)
Lemma token_entries_old h es k :
  horizon_ok h → Forall valid_event es →
  Forall (λ e, OccurredAtUnixMs e < h) es → h ≤ kStartUnixMs k →
  at_key k (token_entries es) = [].
Proof.
  intros Hh Hv Hold Hk. apply at_key_nil. intros [k' u] Hin Hkk. simpl in Hkk. subst k'.
  unfold token_entries in Hin. apply list_elem_of_bind in Hin as (e & Hin & He).
  apply list_elem_of_fmap in Hin as (g & Heq & Hg). simpl in *. simplify_eq. simpl in Hk.
  rewrite Forall_forall in Hv, Hold. specialize (Hv e He). specialize (Hold e He).
  pose proof (valid_event_time e Hv). rewrite horizon_bucket in Hk by (done || lia). lia.
Qed.

Lemma token_split h es k :
  horizon_ok h → Forall valid_event es → h ≤ kStartUnixMs k →
  at_key k (token_entries (filter (λ e, h ≤ OccurredAtUnixMs e) es)) =
  at_key k (token_entries es).
Proof.
  intros Hh Hv Hk. induction Hv as [|e es He Hv IH]; [done|].
  rewrite filter_cons. case_decide as Hle; rewrite !token_entries_cons, !at_key_app, ?IH;
    [done|].
  pose proof (token_entries_old h [e] k Hh) as Hnil.
  rewrite token_entries_cons, app_nil_r in Hnil.
  rewrite Hnil; [done|by constructor| |done]. constructor; [lia|constructor].
Qed.

Lemma raw_valid h t : token_ok h t → Forall valid_event (raw t).
Proof.
  intros Hok. apply Forall_forall. intros e He. unfold raw in He.
  apply list_elem_of_fmap in He as ([id e'] & -> & Hin). apply elem_of_map_to_list in Hin.
  by apply (token_valid h t Hok) in Hin as [_ ?].
Qed.

(** Rebuilding from any rollups that are right below the horizon gives the rollups. *)
Lemma rebuild_rollups h t r :
  horizon_ok h → token_ok h t →
  (∀ k, kStartUnixMs k < h → r !! k = rollups t !! k) →
  foldl (λ r e, rollUp e r) (filter (λ kb, ¬ h ≤ kStartUnixMs kb.1) r)
    (filter (λ e, h ≤ OccurredAtUnixMs e) (raw t)) = rollups t.
Proof.
  intros Hh Hok Hr. rewrite rollUp_list. apply map_eq. intros k.
  unfold token_accum. rewrite accum_lookup.
  destruct (decide (h ≤ kStartUnixMs k)) as [Hk|Hk].
  - rewrite (token_split h (raw t) k Hh (raw_valid h t Hok) Hk).
    rewrite (token_rolled h t Hok k Hk). unfold token_accum. rewrite accum_lookup.
    rewrite map_lookup_filter_None_2, lookup_empty; [done|].
    right. intros x _. simpl. naive_solver.
  - rewrite at_key_nil.
    + simpl. rewrite <- (Hr k) by lia. destruct (r !! k) eqn:Hrk.
      * by apply map_lookup_filter_Some_2.
      * by apply map_lookup_filter_None_2; left.
    + intros [k' u] Hin Hkk. simpl in Hkk. subst k'. unfold token_entries in Hin.
      apply list_elem_of_bind in Hin as (e & Hin & He).
      apply list_elem_of_filter in He as [Hle He].
      apply list_elem_of_fmap in Hin as (g & Heq & Hg). simplify_eq. apply Hk.
      pose proof (raw_valid h t Hok) as Hv. rewrite Forall_forall in Hv.
      pose proof (valid_event_time e (Hv e He)). simpl. apply horizon_bucket; done || lia.
Qed.

(** * Compute rollups *)

Lemma bucket_starts_elem n start last w s :
  0 < w → last < start + Z.of_nat n * w →
  s ∈ bucket_starts n start last w ↔ (w | s - start) ∧ start ≤ s ≤ last.
Proof.
  intros Hw. revert start. induction n as [|n IH]; intros start Hn; cbn [bucket_starts].
  { split; [by intros ?%elem_of_nil|lia]. }
  case_decide as Hle; [|split; [by intros ?%elem_of_nil|lia]].
  rewrite elem_of_cons, IH by lia. split.
  - intros [->|[[q Hq] Hs]]; [split; [exists 0; lia|lia]|]. split; [exists (q + 1); lia|lia].
  - intros [[q Hq] Hs]. destruct (decide (s = start)) as [|Hne]; [by left|right].
    assert (0 < q) by nia. split; [exists (q - 1); lia|nia].
Qed.

Lemma loop_fuel first last w : 0 < w →
  last < first + Z.of_nat (Z.to_nat ((last - first) / w + 1)) * w.
Proof.
  intros Hw. pose proof (Z.div_mod (last - first) w). pose proof (Z.mod_pos_bound (last - first) w).
  destruct (decide (0 ≤ last - first)).
  - pose proof (Z.div_pos (last - first) w). rewrite Z2Nat.id by lia. nia.
  - assert ((last - first) / w < 0) by (apply Z.div_lt_upper_bound; lia). nia.
Qed.

(** The loop visits exactly the bucket starts between its bounds, each once. *)
Lemma loop_starts_elem first last w s :
  0 < w → s ∈ loop_starts first last w ↔ (w | s - first) ∧ first ≤ s ≤ last.
Proof. intros Hw. apply bucket_starts_elem; [done|]. by apply loop_fuel. Qed.

Lemma bucket_starts_ge n start last w s :
  0 < w → s ∈ bucket_starts n start last w → start ≤ s.
Proof.
  intros Hw. revert start. induction n as [|n IH]; intros start; cbn [bucket_starts];
    [by intros ?%elem_of_nil|]. case_decide; [|by intros ?%elem_of_nil].
  intros [->|Hin]%elem_of_cons; [lia|]. apply IH in Hin. lia.
Qed.

Lemma bucket_starts_nodup n start last w : 0 < w → NoDup (bucket_starts n start last w).
Proof.
  intros Hw. revert start. induction n as [|n IH]; intros start; cbn [bucket_starts];
    [constructor|]. case_decide; [|constructor].
  apply NoDup_cons. split; [|done]. intros Hin%bucket_starts_ge; lia.
Qed.

Lemma filter_eq_nodup (l : list Z) a :
  NoDup l → filter (λ x, x = a) l = if decide (a ∈ l) then [a] else [].
Proof.
  induction 1 as [|x l Hx _ IH]; [by rewrite decide_False by set_solver|].
  rewrite filter_cons, IH. repeat case_decide; subst; set_solver.
Qed.

Definition valid_interval (i : ComputeInterval) : Prop := validateComputeInterval i = Ok tt.

Lemma valid_interval_times i : valid_interval i →
  0 < iStartUnixMs i ≤ maxTimestamptzMs ∧
  (iEndUnixMs i ≠ 0 → iStartUnixMs i ≤ iEndUnixMs i ≤ maxTimestamptzMs).
Proof.
  unfold valid_interval, validateComputeInterval. intros.
  repeat case_decide; try done; lia.
Qed.

Definition granularity_entries (h : Z) (i : ComputeInterval) (g : Z)
  : list (computeRollupKey * (Z * Z)) :=
  (λ s, (compute_key i g s, compute_delta i h g s)) <$>
    loop_starts (first_bucket i h g) (last_bucket i g) (widthMs g).

Definition interval_entries (h : Z) (i : ComputeInterval)
  : list (computeRollupKey * (Z * Z)) :=
  if decide (iEndUnixMs i = 0 ∨ (h ≠ MinInt64 ∧ iEndUnixMs i < h)) then []
  else rollupGranularities ≫= granularity_entries h i.

Definition compute_accum := accum zeroComputeBucket compute_roll.

Lemma compute_roll_comm k b v w :
  compute_roll k (compute_roll k b v) w = compute_roll k (compute_roll k b w) v.
Proof.
  unfold compute_roll; simpl. f_equal; rewrite <- !add64_assoc; f_equal; apply add64_comm.
Qed.

Lemma roll_compute_at_accum i h g m :
  roll_compute_at i h g m = compute_accum (granularity_entries h i g) m.
Proof.
  unfold roll_compute_at, granularity_entries, compute_accum, accum.
  generalize (loop_starts (first_bucket i h g) (last_bucket i g) (widthMs g)). intros l.
  revert m. induction l as [|s l IH]; intros m; [done|]. apply IH.
Qed.

Lemma rollUpCompute_accum i h m :
  rollUpCompute i h m = compute_accum (interval_entries h i) m.
Proof.
  unfold rollUpCompute, interval_entries. case_decide; [done|].
  cbn [foldl rollupGranularities mbind list_bind]. rewrite !roll_compute_at_accum.
  unfold compute_accum. by rewrite app_nil_r, accum_app.
Qed.

Definition compute_entries (h : Z) (l : list ComputeInterval)
  : list (computeRollupKey * (Z * Z)) := l ≫= interval_entries h.

Lemma compute_entries_cons h i l :
  compute_entries h (i :: l) = interval_entries h i ++ compute_entries h l.
Proof. done. Qed.

#[export] Instance compute_entries_proper h : Proper ((≡ₚ) ==> (≡ₚ)) (compute_entries h).
Proof. intros l l' Hp. unfold compute_entries. by rewrite Hp. Qed.

Lemma rollUpCompute_list h l m :
  foldl (λ r i, rollUpCompute i h r) m l = compute_accum (compute_entries h l) m.
Proof.
  revert m. induction l as [|i l IH]; intros m; [done|].
  cbn [foldl]. rewrite IH, rollUpCompute_accum. unfold compute_accum.
  by rewrite compute_entries_cons, accum_app.
Qed.

(** What an interval adds under one key: at most one increment. *)
Lemma granularity_at_key h i g k :
  g ∈ rollupGranularities →
  at_key k (granularity_entries h i g) =
  if decide (g = ckGranularity k ∧ iOwnerUserID i = ckOwnerUserID k ∧
             iAgentAccountID i = ckAgentAccountID k ∧
             ckStartUnixMs k ∈ loop_starts (first_bucket i h g) (last_bucket i g) (widthMs g))
  then [compute_delta i h g (ckStartUnixMs k)] else [].
Proof.
  intros [Hw _]%width_pos. unfold granularity_entries. rewrite at_key_fmap.
  pose proof (bucket_starts_nodup _ (first_bucket i h g) (last_bucket i g) (widthMs g) Hw
    : NoDup (loop_starts _ _ _)) as Hnd.
  destruct k as [g' s' o a]. unfold compute_key. simpl.
  destruct (decide (g = g' ∧ iOwnerUserID i = o ∧ iAgentAccountID i = a)) as [(-> & <- & <-)|Hne].
  - rewrite (list_filter_iff _ (λ x, x = s')) by naive_solver.
    rewrite filter_eq_nodup by done. repeat case_decide; naive_solver.
  - rewrite filter_none; [rewrite decide_False by naive_solver; done|].
    apply Forall_forall. intros x _ Heq. naive_solver.
Qed.

Lemma bucket_start_aligned_any g t :
  g ∈ rollupGranularities → (dayMs | t) → BucketStart g t = t.
Proof.
  intros [Hp Hd]%width_pos Ht. unfold BucketStart. rewrite decide_False by lia.
  assert ((widthMs g | t)) as [q ->] by (by transitivity dayMs).
  rewrite Z.rem_mul by lia. lia.
Qed.

(** The first bucket of the loop, without and with a horizon. *)
Lemma first_bucket_unclipped i g : g ∈ rollupGranularities → 0 < iStartUnixMs i →
  first_bucket i MinInt64 g = BucketStart g (iStartUnixMs i).
Proof.
  intros Hg Hs. unfold first_bucket. rewrite decide_True by done.
  destruct (bucket_start_bounds g (iStartUnixMs i) Hg ltac:(lia)) as (_ & _ & H0).
  unfold MinInt64. lia.
Qed.

Lemma first_bucket_clipped i g h : g ∈ rollupGranularities → h ≠ MinInt64 → (dayMs | h) →
  first_bucket i h g = Z.max (BucketStart g (iStartUnixMs i)) h.
Proof.
  intros. unfold first_bucket. rewrite decide_False by done.
  by rewrite (bucket_start_aligned_any g h).
Qed.

(** Two multiples of the width are congruent to the same starts. *)
Lemma divide_shift w a b s : (w | a) → (w | b) → (w | s - a) ↔ (w | s - b).
Proof. intros [x ->] [y ->]. split; intros [q Hq]; [exists (q + x - y)|exists (q + y - x)]; lia. Qed.

(** Clipping at the horizon changes nothing at or after it, and an interval that ended
    before it adds nothing there. *)
Lemma clip_granularity h i g k :
  h ≠ MinInt64 → (dayMs | h) → valid_interval i → iEndUnixMs i ≠ 0 →
  g ∈ rollupGranularities → h ≤ ckStartUnixMs k →
  at_key k (granularity_entries h i g) = at_key k (granularity_entries MinInt64 i g) ∧
  (iEndUnixMs i < h → at_key k (granularity_entries MinInt64 i g) = []).
Proof.
  intros Hm Hd Hv Hend Hg Hk. pose proof (valid_interval_times i Hv) as [Hs He].
  specialize (He Hend). rewrite !granularity_at_key by done.
  destruct (width_pos g Hg) as [Hw Hwd].
  destruct (bucket_start_bounds g (iStartUnixMs i) Hg ltac:(lia)) as (Hb & Hbd & Hb0).
  destruct (bucket_start_bounds g (iEndUnixMs i - 1) Hg ltac:(lia)) as (Hb' & _ & _).
  rewrite first_bucket_unclipped, first_bucket_clipped by (done || lia).
  set (bs := BucketStart g (iStartUnixMs i)) in *.
  assert (Hmax : (widthMs g | Z.max bs h)).
  { destruct (Z.max_spec bs h) as [[_ ->]|[_ ->]]; [by transitivity dayMs|done]. }
  pose proof (divide_shift (widthMs g) (Z.max bs h) bs (ckStartUnixMs k) Hmax Hbd) as Hsame.
  assert (Hin : ckStartUnixMs k ∈ loop_starts (Z.max bs h) (last_bucket i g) (widthMs g) ↔
                ckStartUnixMs k ∈ loop_starts bs (last_bucket i g) (widthMs g)).
  { rewrite !loop_starts_elem by done. split; intros [? ?]; split; try tauto; lia. }
  split.
  - assert (Hdelta : compute_delta i h g (ckStartUnixMs k) =
                     compute_delta i MinInt64 g (ckStartUnixMs k)).
    { unfold compute_delta. fold bs. f_equal. unfold MinInt64. repeat case_decide; lia. }
    rewrite Hdelta. repeat case_decide; tauto.
  - intros Hlt. rewrite decide_False; [done|]. rewrite loop_starts_elem by done.
    unfold last_bucket. fold bs. lia.
Qed.

Lemma clip_at_key h i k :
  horizon_ok h → valid_interval i → h ≤ ckStartUnixMs k →
  at_key k (interval_entries h i) = at_key k (interval_entries MinInt64 i).
Proof.
  intros Hh Hv Hk. destruct (decide (h = MinInt64)) as [->|Hm]; [done|].
  destruct Hh as [?|Hd]; [done|]. unfold interval_entries.
  destruct (decide (iEndUnixMs i = 0)) as [?|Hend].
  { by rewrite !decide_True by auto. }
  rewrite (decide_False (P := _ ∨ (MinInt64 ≠ _ ∧ _))) by naive_solver.
  destruct (decide (iEndUnixMs i < h)) as [Hlt|Hge].
  - rewrite decide_True by (right; auto). cbn [rollupGranularities mbind list_bind].
    rewrite !at_key_app. rewrite !(λ g Hg, proj2 (clip_granularity h i g k Hm Hd Hv Hend Hg Hk) Hlt)
      by set_solver. done.
  - rewrite decide_False by naive_solver. cbn [rollupGranularities mbind list_bind].
    rewrite !at_key_app. rewrite !(λ g Hg, proj1 (clip_granularity h i g k Hm Hd Hv Hend Hg Hk))
      by set_solver. done.
Qed.

Definition raw_compute (t : memoryTenant) : list ComputeInterval :=
  snd <$> map_to_list (computeEvents t).

(** From the horizon on, the compute rollups are what the raw intervals add up to. *)
Record compute_ok (h : Z) (t : memoryTenant) : Prop := {
  compute_valid : ∀ id i, computeEvents t !! id = Some i → IntervalID i = id ∧ valid_interval i;
  compute_rolled : ∀ k, h ≤ ckStartUnixMs k →
    computeRollups t !! k = compute_accum (compute_entries MinInt64 (raw_compute t)) ∅ !! k
}.

Lemma raw_compute_valid h t : compute_ok h t → Forall valid_interval (raw_compute t).
Proof.
  intros Hok. apply Forall_forall. intros i Hi. unfold raw_compute in Hi.
  apply list_elem_of_fmap in Hi as ([id i'] & -> & Hin). apply elem_of_map_to_list in Hin.
  by apply (compute_valid h t Hok) in Hin as [_ ?].
Qed.

(** The horizon rounded to its day, as the rebuild compares it. *)
Lemma horizon_day h : horizon_ok h →
  h ≤ BucketStart GranularityDay h ∧
  (BucketStart GranularityDay h = h ∨ (h = MinInt64 ∧ BucketStart GranularityDay h ≤ 0)).
Proof.
  intros [->|Hd]; [|rewrite bucket_start_aligned by done; split; [lia|by left]].
  vm_compute. split; [discriminate|]. right. split; [done|discriminate].
Qed.

(** Every entry of a clipped interval starts at or after the horizon. *)
Lemma interval_entries_start h i k d :
  horizon_ok h → valid_interval i → (k, d) ∈ interval_entries h i →
  BucketStart GranularityDay h ≤ ckStartUnixMs k.
Proof.
  intros Hh Hv Hin. pose proof (valid_interval_times i Hv) as [Hs _].
  unfold interval_entries in Hin. case_decide; [by apply elem_of_nil in Hin|].
  apply list_elem_of_bind in Hin as (g & Hin & Hg).
  apply list_elem_of_fmap in Hin as (s & Heq & Hl). simplify_eq. simpl.
  apply loop_starts_elem in Hl as [_ Hl]; [|by apply width_pos].
  destruct (bucket_start_bounds g (iStartUnixMs i) Hg ltac:(lia)) as (_ & _ & H0).
  destruct (horizon_day h Hh) as [Hle [Heq|[-> Hneg]]].
  - destruct Hh as [->|Hd].
    + rewrite first_bucket_unclipped in Hl by (done || lia). unfold MinInt64 in *. lia.
    + destruct (decide (h = MinInt64)) as [->|Hm].
      * rewrite first_bucket_unclipped in Hl by (done || lia). unfold MinInt64 in *. lia.
      * rewrite first_bucket_clipped in Hl by done. lia.
  - rewrite first_bucket_unclipped in Hl by (done || lia). lia.
Qed.

(** The intervals a rebuild rolls up again account for every bucket from the horizon on. *)
Lemma compute_split h l k :
  horizon_ok h → Forall valid_interval l → h ≤ ckStartUnixMs k →
  at_key k (compute_entries h
    (filter (λ i, iEndUnixMs i ≠ 0 ∧ h ≤ BucketStart GranularityDay (iEndUnixMs i)) l)) =
  at_key k (compute_entries MinInt64 l).
Proof.
  intros Hh Hv Hk. induction Hv as [|i l Hi Hv IH]; [done|].
  rewrite filter_cons. case_decide as Hf;
    rewrite !compute_entries_cons, !at_key_app, ?IH, <- (clip_at_key h i k Hh Hi Hk); [done|].
  enough (interval_entries h i = []) as -> by done.
  unfold interval_entries. rewrite decide_True; [done|].
  destruct (decide (iEndUnixMs i = 0)) as [|Hend]; [by left|right].
  destruct (valid_interval_times i Hi) as [Hs He]. specialize (He Hend).
  assert (HD : GranularityDay ∈ rollupGranularities) by (unfold rollupGranularities; set_solver).
  destruct (bucket_start_bounds GranularityDay (iEndUnixMs i) HD ltac:(lia)) as (_ & _ & H0).
  pose proof (horizon_bucket h GranularityDay (iEndUnixMs i) Hh HD ltac:(lia)).
  assert (¬ h ≤ BucketStart GranularityDay (iEndUnixMs i)) by tauto.
  split; [intros ->; unfold MinInt64 in *; lia|lia].
Qed.

Lemma rebuild_compute_rollups h t r :
  horizon_ok h → compute_ok h t →
  (∀ k, ckStartUnixMs k < BucketStart GranularityDay h → r !! k = computeRollups t !! k) →
  foldl (λ r i, rollUpCompute i h r)
    (filter (λ kb, ¬ BucketStart GranularityDay h ≤ ckStartUnixMs kb.1) r)
    (filter (λ i, iEndUnixMs i ≠ 0 ∧ h ≤ BucketStart GranularityDay (iEndUnixMs i))
       (raw_compute t)) = computeRollups t.
Proof.
  intros Hh Hok Hr. rewrite rollUpCompute_list. apply map_eq. intros k.
  unfold compute_accum. rewrite accum_lookup.
  pose proof (raw_compute_valid h t Hok) as Hv. destruct (horizon_day h Hh) as [Hle _].
  destruct (decide (BucketStart GranularityDay h ≤ ckStartUnixMs k)) as [Hk|Hk].
  - rewrite (compute_split h (raw_compute t) k Hh Hv) by lia.
    rewrite (compute_rolled h t Hok k) by lia. unfold compute_accum. rewrite accum_lookup.
    rewrite map_lookup_filter_None_2, lookup_empty; [done|].
    right. intros x _. simpl. naive_solver.
  - rewrite at_key_nil.
    + simpl. rewrite <- (Hr k) by lia. destruct (r !! k) eqn:Hrk.
      * by apply map_lookup_filter_Some_2.
      * by apply map_lookup_filter_None_2; left.
    + intros [k' d] Hin Hkk. simpl in Hkk. subst k'. apply Hk.
      apply list_elem_of_bind in Hin as (i & Hin & [_ Hi]%list_elem_of_filter).
      rewrite Forall_forall in Hv. by eapply interval_entries_start; [|apply Hv|].
Qed.

(** * Histories of calls *)

Inductive op :=
| OpAppendToken (tenant : string) (es : list TokenUsageEvent)
| OpAppendCompute (tenant : string) (i : ComputeInterval)
| OpTokenSeries (tenant : string) (q : SeriesQuery)
| OpComputeSeries (tenant : string) (q : SeriesQuery)
| OpRebuildToken (tenant : string)
| OpRebuildCompute (tenant : string)
| OpPruneToken (before : Z)
| OpPruneCompute (before : Z).

(** The store after one call; a call that fails leaves it as it is. *)
Definition step (m : Memory) (o : op) : Memory :=
  match o with
  | OpAppendToken id es => match AppendTokenUsage id es m with Ok m' => m' | _ => m end
  | OpAppendCompute id i => match AppendComputeInterval id i m with Ok m' => m' | _ => m end
  | OpTokenSeries id q => match TokenUsageSeries id q m with Ok (m', _) => m' | _ => m end
  | OpComputeSeries id q => match ComputeUsageSeries id q m with Ok (m', _) => m' | _ => m end
  | OpRebuildToken id => RebuildTokenUsageRollups id m
  | OpRebuildCompute id => RebuildComputeUsageRollups id m
  | OpPruneToken b => (PruneTokenUsageBefore b m).1
  | OpPruneCompute b => (PruneComputeUsageBefore b m).1
  end.

Definition run (os : list op) : Memory := foldl step NewMemory os.

Record memory_ok (m : Memory) : Prop := {
  ok_horizon : horizon_ok (horizonUnixMs m);
  ok_compute_horizon : horizon_ok (computeHorizonUnixMs m);
  ok_token : ∀ id t, tenants m !! id = Some t → token_ok (horizonUnixMs m) t;
  ok_compute : ∀ id t, tenants m !! id = Some t → compute_ok (computeHorizonUnixMs m) t
}.

Lemma token_ok_empty h : token_ok h emptyTenant.
Proof. by split. Qed.

Lemma compute_ok_empty h : compute_ok h emptyTenant.
Proof. by split. Qed.

Lemma tenant_ok m id m' t :
  memory_ok m → tenant id m = (m', t) →
  memory_ok m' ∧ tenants m' !! id = Some t ∧ horizonUnixMs m' = horizonUnixMs m ∧
  computeHorizonUnixMs m' = computeHorizonUnixMs m.
Proof.
  intros [H1 H2 H3 H4] Ht. unfold tenant in Ht.
  destruct (tenants m !! id) eqn:Hid; simplify_eq; [by easy_split; split|].
  simpl. rewrite lookup_insert_eq. split_and!; try done. split; simpl; try done.
  - intros id' t'. rewrite lookup_insert. case_decide; [intros [= <-]; apply token_ok_empty|].
    apply H3.
  - intros id' t'. rewrite lookup_insert. case_decide; [intros [= <-]; apply compute_ok_empty|].
    apply H4.
Qed.

Lemma put_tenant_ok m id t :
  memory_ok m → token_ok (horizonUnixMs m) t → compute_ok (computeHorizonUnixMs m) t →
  memory_ok (put_tenant id t m).
Proof.
  intros [H1 H2 H3 H4] Ht Hc. split; simpl; try done.
  - intros id' t'. rewrite lookup_insert. case_decide; [by intros [= <-]|apply H3].
  - intros id' t'. rewrite lookup_insert. case_decide; [by intros [= <-]|apply H4].
Qed.

(** A component of a tenant keeps its invariant when its own two fields do not change. *)
Lemma token_ok_frame h t t' :
  token_ok h t → events t' = events t → rollups t' = rollups t → token_ok h t'.
Proof.
  intros [H1 H2] He Hr. split; rewrite ?He; [done|]. intros k Hk.
  unfold raw. rewrite Hr, He. by apply H2.
Qed.

Lemma compute_ok_frame h t t' :
  compute_ok h t → computeEvents t' = computeEvents t → computeRollups t' = computeRollups t →
  compute_ok h t'.
Proof.
  intros [H1 H2] He Hr. split; rewrite ?He; [done|]. intros k Hk.
  unfold raw_compute. rewrite Hr, He. by apply H2.
Qed.

Lemma append_one_ok h t e :
  token_ok h t → valid_event e → token_ok h (append_one t e).
Proof.
  intros [H1 H2] He. unfold append_one. destruct (events t !! ID e) eqn:Hid; [by split|].
  split; simpl.
  - intros id e'. rewrite lookup_insert. case_decide; [naive_solver|apply H1].
  - intros k Hk. rewrite rollUp_accum. unfold token_accum. rewrite accum_lookup.
    rewrite (H2 k Hk). unfold token_accum. rewrite <- accum_lookup, <- accum_app.
    f_equal. apply accum_perm; [apply roll_one_comm|].
    unfold raw. simpl. rewrite map_to_list_insert by done. rewrite fmap_cons.
    rewrite token_entries_cons. by rewrite Permutation_app_comm.
Qed.

Lemma append_list_ok h t es :
  token_ok h t → Forall valid_event es → token_ok h (foldl append_one t es).
Proof.
  intros Ht Hes. revert t Ht. induction Hes as [|e es He Hes IH]; intros t Ht; simpl; [done|].
  by apply IH, append_one_ok.
Qed.

Lemma append_list_compute h t es :
  compute_ok h t → compute_ok h (foldl append_one t es).
Proof.
  intros Ht. revert t Ht. induction es as [|e es IH]; intros t Ht; simpl; [done|].
  apply IH. eapply compute_ok_frame; [done|unfold append_one; by case_match..].
Qed.

Lemma validate_events_ok es : ValidateEvents es = Ok tt ↔ Forall valid_event es.
Proof.
  unfold ValidateEvents. generalize 0%nat. induction es as [|e es IH]; intros n; simpl.
  { split; [by constructor|done]. }
  rewrite Forall_cons. unfold valid_event at 1. destruct (problem e); [naive_solver|].
  rewrite IH. tauto.
Qed.

(** Writing a closed interval where none, or an open one, was. *)
Lemma set_closed_ok h t i :
  compute_ok h t → valid_interval i →
  match computeEvents t !! IntervalID i with
  | None => True
  | Some old => iEndUnixMs old = 0
  end →
  compute_ok h (MkTenant (events t) (rollups t) (<[IntervalID i := i]> (computeEvents t))
                  (rollUpCompute i MinInt64 (computeRollups t))).
Proof.
  intros [H1 H2] Hv Hold. split; simpl.
  - intros id i'. rewrite lookup_insert. case_decide; [naive_solver|apply H1].
  - intros k Hk. rewrite rollUpCompute_accum. unfold compute_accum. rewrite accum_lookup.
    rewrite (H2 k Hk). unfold compute_accum. rewrite <- accum_lookup, <- accum_app.
    f_equal. apply accum_perm; [apply compute_roll_comm|].
    assert (Hraw : compute_entries MinInt64 (raw_compute t) ≡ₚ
                   compute_entries MinInt64 (snd <$> map_to_list (delete (IntervalID i) (computeEvents t)))).
    { unfold raw_compute. destruct (computeEvents t !! IntervalID i) as [old|] eqn:Ho.
      - rewrite <- (map_to_list_delete (computeEvents t) (IntervalID i) old Ho).
        rewrite fmap_cons, compute_entries_cons. cbn [snd].
        assert (interval_entries MinInt64 old = []) as ->; [|done].
        unfold interval_entries. by rewrite decide_True by auto.
      - by rewrite delete_id. }
    rewrite Hraw. unfold raw_compute. simpl. rewrite <- insert_delete_eq.
    rewrite map_to_list_insert by apply lookup_delete_eq.
    rewrite fmap_cons, compute_entries_cons. by rewrite Permutation_app_comm.
Qed.

Lemma set_interval_ok h t i :
  compute_ok h t → valid_interval i → computeEvents t !! IntervalID i = None →
  compute_ok h (set_interval t i).
Proof.
  intros Hok Hv Hnone. unfold set_interval. case_decide as Hend.
  { apply set_closed_ok; [done|done|by rewrite Hnone]. }
  assert (Hr : rollUpCompute i MinInt64 (computeRollups t) = computeRollups t).
  { unfold rollUpCompute. rewrite decide_True; [done|]. left. lia. }
  rewrite <- Hr at 1. apply set_closed_ok; [done|done|by rewrite Hnone].
Qed.

Lemma raw_filter {A} (keep : A → bool) (m : gmap string A) :
  (snd <$> map_to_list (filter (λ ie, keep ie.2 = true) m)) ≡ₚ
  filter (λ x, keep x = true) (snd <$> map_to_list m).
Proof.
  induction m as [|id x m Hid IH] using map_ind; [done|].
  rewrite map_filter_insert, map_to_list_insert by done.
  rewrite fmap_cons, filter_cons. cbn [snd]. case_decide.
  - rewrite map_to_list_insert, fmap_cons, IH; [done|].
    apply map_lookup_filter_None_2. by left.
  - rewrite delete_id, IH; [done|]. done.
Qed.

Definition keep_event (cutoff : Z) (e : TokenUsageEvent) : bool :=
  bool_decide (cutoff ≤ OccurredAtUnixMs e).

Lemma prune_token_ok h t cutoff :
  horizon_ok cutoff → token_ok h t →
  token_ok (Z.max h cutoff)
    (MkTenant (filter (λ ie, keep_event cutoff ie.2 = true) (events t))
       (rollups t) (computeEvents t) (computeRollups t)).
Proof.
  intros Hc Hok. pose proof (raw_valid h t Hok) as Hv. destruct Hok as [H1 H2]. split; simpl.
  - intros id e [He _]%map_lookup_filter_Some. by apply H1.
  - intros k Hk. rewrite (H2 k) by lia. unfold token_accum. rewrite !accum_lookup.
    apply fold_key_perm; [apply roll_one_comm|]. unfold raw at 2. simpl.
    symmetry. etransitivity.
    { apply at_key_perm, token_entries_proper, (raw_filter (keep_event cutoff)). }
    rewrite (list_filter_iff _ (λ e, cutoff ≤ OccurredAtUnixMs e))
      by (intros; unfold keep_event; apply bool_decide_eq_true).
    fold (raw t). by rewrite (token_split cutoff (raw t) k Hc Hv) by lia.
Qed.

(** The intervals a prune removes add nothing from the cutoff on. *)
Definition keep_interval (cutoff : Z) (i : ComputeInterval) : bool :=
  negb (bool_decide (iEndUnixMs i ≠ 0) &&
        bool_decide (BucketStart GranularityDay (iEndUnixMs i) < cutoff)).

Lemma compute_pruned_split cutoff l k :
  (dayMs | cutoff) → Forall valid_interval l → cutoff ≤ ckStartUnixMs k →
  at_key k (compute_entries MinInt64 (filter (λ i, keep_interval cutoff i = true) l)) =
  at_key k (compute_entries MinInt64 l).
Proof.
  intros Hd Hv Hk. induction Hv as [|i l Hi Hv IH]; [done|].
  rewrite filter_cons. case_decide as Hf; rewrite !compute_entries_cons, !at_key_app, ?IH; [done|].
  apply not_true_is_false in Hf. unfold keep_interval in Hf.
  apply negb_false_iff, andb_true_iff in Hf as [Hend Hlt].
  apply bool_decide_eq_true in Hend, Hlt.
  rewrite <- (clip_at_key cutoff i k (or_intror Hd) Hi Hk).
  destruct (valid_interval_times i Hi) as [Hs He]. specialize (He Hend).
  assert (HD : GranularityDay ∈ rollupGranularities) by (unfold rollupGranularities; set_solver).
  destruct (bucket_start_bounds GranularityDay (iEndUnixMs i) HD ltac:(lia)) as (_ & _ & H0).
  pose proof (horizon_bucket cutoff GranularityDay (iEndUnixMs i) (or_intror Hd) HD ltac:(lia)).
  unfold interval_entries. rewrite decide_True; [done|]. right.
  split; [intros ->; unfold MinInt64 in *; lia|lia].
Qed.

Lemma prune_compute_ok h t cutoff :
  (dayMs | cutoff) → compute_ok h t →
  compute_ok (Z.max h cutoff)
    (MkTenant (events t) (rollups t)
       (filter (λ ie, keep_interval cutoff ie.2 = true) (computeEvents t)) (computeRollups t)).
Proof.
  intros Hc Hok. pose proof (raw_compute_valid h t Hok) as Hv. destruct Hok as [H1 H2]. split; simpl.
  - intros id e [He _]%map_lookup_filter_Some. by apply H1.
  - intros k Hk. rewrite (H2 k) by lia. unfold compute_accum. rewrite !accum_lookup.
    apply fold_key_perm; [apply compute_roll_comm|]. unfold raw_compute at 2. simpl.
    symmetry. etransitivity.
    { apply at_key_perm, compute_entries_proper, (raw_filter (keep_interval cutoff)). }
    fold (raw_compute t). by rewrite (compute_pruned_split cutoff (raw_compute t) k Hc Hv) by lia.
Qed.

Lemma token_ok_mono h h' t : h ≤ h' → token_ok h t → token_ok h' t.
Proof. intros Hle [H1 H2]. split; [done|]. intros k Hk. apply H2. lia. Qed.

(** A rebuild of a consistent tenant changes nothing. *)
Lemma rebuild_token_id m id :
  memory_ok m → RebuildTokenUsageRollups id m = (tenant id m).1.
Proof.
  intros Hm. unfold RebuildTokenUsageRollups. destruct (tenant id m) as [m' t] eqn:Ht.
  destruct (tenant_ok m id m' t Hm Ht) as (Hm' & Hid & _ & _). fold (raw t).
  rewrite (rebuild_rollups (horizonUnixMs m') t (rollups t));
    [|apply Hm'|by eapply ok_token|done].
  unfold put_tenant. destruct t, m'. simpl in *. by rewrite insert_id.
Qed.

Lemma rebuild_compute_id m id :
  memory_ok m → RebuildComputeUsageRollups id m = (tenant id m).1.
Proof.
  intros Hm. unfold RebuildComputeUsageRollups. destruct (tenant id m) as [m' t] eqn:Ht.
  destruct (tenant_ok m id m' t Hm Ht) as (Hm' & Hid & _ & _). fold (raw_compute t).
  rewrite (rebuild_compute_rollups (computeHorizonUnixMs m') t (computeRollups t));
    [|apply Hm'|by eapply ok_compute|done].
  unfold put_tenant. destruct t, m'. simpl in *. by rewrite insert_id.
Qed.

Lemma append_token_ok m id es m' :
  memory_ok m → AppendTokenUsage id es m = Ok m' → memory_ok m'.
Proof.
  intros Hm Ha. unfold AppendTokenUsage in Ha.
  apply rbind_Ok in Ha as ([] & Hes%validate_events_ok & Ha).
  destruct (tenant id m) as [m1 t] eqn:Ht. simplify_eq.
  destruct (tenant_ok m id m1 t Hm Ht) as (Hm1 & Hid & _ & _).
  apply put_tenant_ok; [done|apply append_list_ok|apply append_list_compute]; try done.
  - by eapply ok_token.
  - by eapply ok_compute.
Qed.

Lemma append_compute_ok m id i m' :
  memory_ok m → AppendComputeInterval id i m = Ok m' → memory_ok m'.
Proof.
  intros Hm Ha. unfold AppendComputeInterval in Ha.
  apply rbind_Ok in Ha as ([] & Hi & Ha).
  destruct (tenant id m) as [m1 t] eqn:Ht.
  destruct (tenant_ok m id m1 t Hm Ht) as (Hm1 & Hid & _ & _).
  pose proof (ok_token m1 Hm1 id t Hid) as Htok. pose proof (ok_compute m1 Hm1 id t Hid) as Hcomp.
  destruct (computeEvents t !! IntervalID i) as [old|] eqn:Hold.
  - case_decide as Hdup; [by simplify_eq|].
    apply rbind_Ok in Ha as ([] & Hclosed & Ha). simplify_eq.
    destruct (compute_valid _ _ Hcomp _ _ Hold) as [Hident _].
    apply put_tenant_ok; [done|by eapply token_ok_frame|].
    rewrite <- Hident. change (IntervalID old) with
      (IntervalID (close_interval old (iEndUnixMs i))).
    apply set_closed_ok; [done|done|]. simpl. rewrite Hident, Hold. lia.
  - simplify_eq. apply put_tenant_ok; [done|by eapply token_ok_frame|by apply set_interval_ok].
Qed.

Lemma prune_token_memory_ok b m : memory_ok m → memory_ok (PruneTokenUsageBefore b m).1.
Proof.
  intros [H1 H2 H3 H4]. pose proof (cutoff_aligned b) as Hc.
  split; simpl; [by apply horizon_ok_max|done|..].
  - intros id t' (t & <- & Ht)%lookup_fmap_Some. by apply prune_token_ok; [right|eapply H3].
  - intros id t' (t & <- & Ht)%lookup_fmap_Some. by eapply compute_ok_frame; [by eapply H4|..].
Qed.

Lemma prune_compute_memory_ok b m : memory_ok m → memory_ok (PruneComputeUsageBefore b m).1.
Proof.
  intros [H1 H2 H3 H4]. pose proof (cutoff_aligned b) as Hc.
  split; simpl; [done|by apply horizon_ok_max|..].
  - intros id t' (t & <- & Ht)%lookup_fmap_Some. by eapply token_ok_frame; [by eapply H3|..].
  - intros id t' (t & <- & Ht)%lookup_fmap_Some. by apply prune_compute_ok; [|eapply H4].
Qed.

Lemma step_ok m o : memory_ok m → memory_ok (step m o).
Proof.
  intros Hm. destruct o as [id es|id i|id q|id q|id|id|b|b]; simpl.
  - destruct (AppendTokenUsage id es m) eqn:Ha; [by eapply append_token_ok|done|done].
  - destruct (AppendComputeInterval id i m) eqn:Ha; [by eapply append_compute_ok|done|done].
  - unfold TokenUsageSeries. destruct (Validate q); simpl; try done.
    destruct (tenant id m) eqn:Ht. by eapply tenant_ok.
  - unfold ComputeUsageSeries. destruct (Validate q); simpl; try done.
    destruct (tenant id m) eqn:Ht. by eapply tenant_ok.
  - rewrite rebuild_token_id by done. destruct (tenant id m) eqn:Ht. by eapply tenant_ok.
  - rewrite rebuild_compute_id by done. destruct (tenant id m) eqn:Ht. by eapply tenant_ok.
  - by apply prune_token_memory_ok.
  - by apply prune_compute_memory_ok.
Qed.

Lemma run_ok os : memory_ok (run os).
Proof.
  unfold run. assert (Hnew : memory_ok NewMemory) by (split; try (by left); done).
  revert Hnew. generalize NewMemory. induction os as [|o os IH]; intros m Hm; [done|].
  by apply IH, step_ok.
Qed.

(** * Theorems *)

(** C33. A rebuild repairs the token rollups. Take any state the store reaches through
    appends, reads, rebuilds and prunes, and replace a tenant's rollups by any map
    that agrees with them on the buckets that start before the prune horizon
    (clearing them when nothing was pruned, for instance): a rebuild restores exactly
    the state before the damage, whatever order it visits the raw events in. In
    particular a rebuild of an undamaged store changes nothing, also after prunes,
    late events and wrapped counters. *)
Theorem rebuild_token_repairs os id t r :
  tenants (run os) !! id = Some t →
  (∀ k, kStartUnixMs k < horizonUnixMs (run os) → r !! k = rollups t !! k) →
  RebuildTokenUsageRollups id
    (put_tenant id (MkTenant (events t) r (computeEvents t) (computeRollups t)) (run os))
  = run os.
Proof.
  intros Ht Hr. pose proof (run_ok os) as Hm. unfold RebuildTokenUsageRollups, tenant.
  simpl. rewrite lookup_insert_eq. simpl. fold (raw t).
  rewrite (rebuild_rollups (horizonUnixMs (run os)) t r);
    [|apply Hm|by eapply ok_token|done].
  unfold put_tenant. simpl. rewrite insert_insert_eq. destruct t. simpl.
  rewrite insert_id by done. by destruct (run os).
Qed.

(** A rebuild repairs the compute rollups, in the same sense: intervals that
    straddle the prune horizon are clipped to it, and the buckets before it are kept,
    so that no active time and no interval start is lost or counted twice. *)
Theorem rebuild_compute_repairs os id t r :
  tenants (run os) !! id = Some t →
  (∀ k, ckStartUnixMs k < BucketStart GranularityDay (computeHorizonUnixMs (run os)) →
     r !! k = computeRollups t !! k) →
  RebuildComputeUsageRollups id
    (put_tenant id (MkTenant (events t) (rollups t) (computeEvents t) r) (run os))
  = run os.
Proof.
  intros Ht Hr. pose proof (run_ok os) as Hm. unfold RebuildComputeUsageRollups, tenant.
  simpl. rewrite lookup_insert_eq. simpl. fold (raw_compute t).
  rewrite (rebuild_compute_rollups (computeHorizonUnixMs (run os)) t r);
    [|apply Hm|by eapply ok_compute|done].
  unfold put_tenant. simpl. rewrite insert_insert_eq. destruct t. simpl.
  rewrite insert_id by done. by destruct (run os).
Qed.

(** * Series reads *)

Lemma plus_roll b k o u : plus b (roll_one k o u) = plus (plus b o) u.
Proof. unfold roll_one. rewrite <- plus_assoc. done. Qed.

Lemma plus_roll_zero b k u : plus b (roll_one k zeroBucket u) = plus b u.
Proof.
  unfold roll_one, plus, with_start. simpl. unfold add64.
  f_equal; rewrite i64_add_r; f_equal; lia.
Qed.

Definition sum_entries (q : SeriesQuery) (m : gmap rollupKey Bucket) : list (Z * Bucket) :=
  (λ kb, (kStartUnixMs kb.1, kb.2)) <$>
    filter (λ kb, token_key_in_query q kb.1 = true) (map_to_list m).

Definition sum_accum := accum (K := Z) zeroBucket (λ _, plus).

Lemma sum_accum_snoc l s u : sum_accum ((s, u) :: l) ∅ =
  add_entry zeroBucket (λ _, plus) (sum_accum l ∅) (s, u).
Proof.
  unfold sum_accum. rewrite (accum_perm _ _ (λ _, plus_comm_r) _ (l ++ [(s, u)])).
  - by rewrite accum_app.
  - by rewrite Permutation_app_comm.
Qed.

Lemma sum_entries_insert q m k b :
  m !! k = None →
  sum_entries q (<[k := b]> m) ≡ₚ
  (if token_key_in_query q k then [(kStartUnixMs k, b)] else []) ++ sum_entries q m.
Proof.
  intros Hk. unfold sum_entries. rewrite map_to_list_insert by done. rewrite filter_cons.
  cbn [fst]. case_decide as Hq; [by rewrite Hq|]. apply not_true_is_false in Hq. by rewrite Hq.
Qed.

(** Rolling a value up under a key adds it to that key's bucket sum. *)
Lemma token_sums_add q m k u :
  token_sums q (add_entry zeroBucket roll_one m (k, u)) =
  if token_key_in_query q k
  then add_entry zeroBucket (λ _, plus) (token_sums q m) (kStartUnixMs k, u)
  else token_sums q m.
Proof.
  change (token_sums q ?x) with (sum_accum (sum_entries q x) ∅).
  assert (Hperm : ∀ l1 l2, l1 ≡ₚ l2 → sum_accum l1 ∅ = sum_accum l2 ∅).
  { intros. apply accum_perm; [intros; apply plus_comm_r|done]. }
  unfold add_entry at 1. cbn [fst snd].
  destruct (m !! k) as [b|] eqn:Hk; unfold mget at 1; rewrite Hk; cbn [default].
  - assert (Hm : m = <[k := b]> (delete k m)) by (by rewrite insert_delete_eq, insert_id).
    pose proof (lookup_delete_eq m k) as Hnone.
    generalize dependent (delete k m). intros m' -> Hnone. clear Hk.
    rewrite insert_insert_eq. rewrite !(Hperm _ _ (sum_entries_insert q m' k _ Hnone)).
    destruct (token_key_in_query q k); [|done]. simpl app. rewrite !sum_accum_snoc.
    unfold add_entry. cbn [fst snd]. rewrite mget_insert_eq, insert_insert_eq.
    by rewrite plus_roll.
  - rewrite (Hperm _ _ (sum_entries_insert q m k _ Hk)).
    destruct (token_key_in_query q k); [|done]. simpl app. rewrite sum_accum_snoc.
    unfold add_entry. cbn [fst snd]. by rewrite plus_roll_zero.
Qed.

Lemma token_sums_accum q l m :
  token_sums q (token_accum l m) =
  sum_accum ((λ ku, (kStartUnixMs ku.1, ku.2)) <$>
               filter (λ ku, token_key_in_query q ku.1 = true) l) (token_sums q m).
Proof.
  unfold token_accum, sum_accum, accum. revert m.
  induction l as [|[k u] l IH]; intros m; [done|]. cbn [foldl]. rewrite IH, token_sums_add.
  rewrite filter_cons. cbn [fst].
  destruct (token_key_in_query q k) eqn:Hq; case_decide; done.
Qed.

Lemma token_sums_ext q m1 m2 :
  (∀ k, token_key_in_query q k = true → m1 !! k = m2 !! k) →
  token_sums q m1 = token_sums q m2.
Proof.
  intros Heq. unfold token_sums. apply accum_perm; [intros; apply plus_comm_r|].
  apply fmap_Permutation, NoDup_Permutation;
    [apply NoDup_filter, NoDup_map_to_list..|].
  intros [k b]. rewrite !list_elem_of_filter, !elem_of_map_to_list. cbn [fst].
  split; intros [Hq Hk]; (split; [done|]); by rewrite <- ?Heq, ?Heq in * by done.
Qed.

(** The events a query selects. *)
Definition event_in_query (q : SeriesQuery) (e : TokenUsageEvent) : bool :=
  token_key_in_query q (rollup_key (qGranularity q) e).

Lemma query_entries q es :
  Validate q = Ok tt →
  (λ ku, (kStartUnixMs ku.1, ku.2)) <$>
    filter (λ ku, token_key_in_query q ku.1 = true) (token_entries es) =
  (λ e, (BucketStart (qGranularity q) (OccurredAtUnixMs e), usage e)) <$>
    filter (λ e, event_in_query q e = true) es.
Proof.
  intros Hq. assert (Hg : qGranularity q = GranularityHour ∨ qGranularity q = GranularityDay).
  { unfold Validate, widthMs in Hq. repeat case_decide; naive_solver. }
  induction es as [|e es IH]; [done|].
  rewrite token_entries_cons, filter_app, fmap_app, IH, filter_cons.
  assert (Hother : ∀ g, g ≠ qGranularity q → token_key_in_query q (rollup_key g e) = false).
  { intros g Hne. unfold token_key_in_query, key_in_query. simpl.
    by rewrite bool_decide_eq_false_2. }
  unfold event_entries, rollupGranularities. cbn [fmap list_fmap].
  rewrite !filter_cons. cbn [fst]. unfold event_in_query.
  destruct Hg as [Hg|Hg]; rewrite Hg in *.
  - rewrite (Hother GranularityDay) by done.
    destruct (token_key_in_query q (rollup_key GranularityHour e)); done.
  - rewrite (Hother GranularityHour) by done.
    destruct (token_key_in_query q (rollup_key GranularityDay e)); done.
Qed.

Lemma sum_fold s vs :
  fold_key (K := Z) zeroBucket (λ _, plus) s None vs =
  match vs with [] => None | _ => Some (foldl plus zeroBucket vs) end.
Proof.
  destruct vs as [|v vs]; [done|]. simpl. generalize (plus zeroBucket v). intros b.
  revert b. induction vs as [|w vs IH]; intros b; [done|]. simpl. apply IH.
Qed.

(** The raw events of one bucket of a query. *)
Definition bucket_events (q : SeriesQuery) (s : Z) (es : list TokenUsageEvent)
  : list TokenUsageEvent :=
  filter (λ e, event_in_query q e = true ∧
               BucketStart (qGranularity q) (OccurredAtUnixMs e) = s) es.

Lemma token_sums_lookup q t h s :
  token_ok h t → Validate q = Ok tt → h ≤ qStartUnixMs q →
  token_sums q (rollups t) !! s =
  match bucket_events q s (raw t) with
  | [] => None
  | es => Some (foldl plus zeroBucket (usage <$> es))
  end.
Proof.
  intros Hok Hq Hh.
  rewrite (token_sums_ext q _ (token_accum (token_entries (raw t)) ∅)).
  2: { intros k Hk. apply (token_rolled h t Hok). unfold token_key_in_query, key_in_query in Hk.
       repeat rewrite ?andb_true_iff, ?bool_decide_eq_true in Hk. lia. }
  rewrite token_sums_accum, query_entries by done. unfold sum_accum.
  rewrite accum_lookup, at_key_fmap. change (token_sums q ∅ !! s) with (@None Bucket).
  rewrite sum_fold. unfold bucket_events. rewrite list_filter_filter.
  rewrite (list_filter_iff _ (λ e, event_in_query q e = true ∧
     BucketStart (qGranularity q) (OccurredAtUnixMs e) = s)) by (intros; tauto).
  by destruct (filter _ (raw t)).
Qed.

(** A token series is the sum of the raw events. In every reachable state, for a
    query at hour or day width that does not start before the prune horizon, the
    series is sorted, has one bucket per start, and holds a bucket for a start
    exactly when some raw event the query selects (window, agents, provider) falls in
    it, with the counters of those events added up (modulo 2^64). *)
Theorem token_series_is_sum os id t q :
  tenants (run os) !! id = Some t → Validate q = Ok tt →
  horizonUnixMs (run os) ≤ qStartUnixMs q →
  ∃ L, TokenUsageSeries id q (run os) = Ok (run os, L) ∧
    Sorted bucket_le L ∧ NoDup (bStartUnixMs <$> L) ∧
    ∀ b, b ∈ L ↔ ∃ s, bucket_events q s (raw t) ≠ [] ∧
      b = with_start s (foldl plus zeroBucket (usage <$> bucket_events q s (raw t))).
Proof.
  intros Ht Hq Hh. pose proof (ok_token _ (run_ok os) id t Ht) as Hok.
  unfold TokenUsageSeries, tenant. rewrite Hq, Ht. simpl. eexists. split; [done|].
  set (l := (λ kb, with_start kb.1 kb.2) <$> map_to_list (token_sums q (rollups t))).
  split_and!.
  - apply Sorted_merge_sort. intros x y. unfold bucket_le. lia.
  - rewrite merge_sort_Permutation. subst l. rewrite <- list_fmap_compose.
    apply NoDup_fst_map_to_list.
  - intros b. rewrite merge_sort_Permutation. subst l. rewrite list_elem_of_fmap.
    split.
    + intros ([s b'] & -> & Hin). apply elem_of_map_to_list in Hin. exists s.
      rewrite (token_sums_lookup q t _ s Hok Hq Hh) in Hin. cbn [fst snd].
      destruct (bucket_events q s (raw t)); naive_solver.
    + intros (s & Hne & ->). exists (s, foldl plus zeroBucket (usage <$> bucket_events q s (raw t))).
      split; [done|]. apply elem_of_map_to_list.
      rewrite (token_sums_lookup q t _ s Hok Hq Hh). by destruct (bucket_events q s (raw t)).
Qed.

(** * Compute intervals and appends *)

Definition sumZ (l : list Z) : Z := foldr Z.add 0 l.

(** Active time from a bucket boundary on. *)
Lemma active_tail i g n s last :
  0 < widthMs g → last < s + Z.of_nat n * widthMs g → iEndUnixMs i ≤ last + widthMs g →
  iStartUnixMs i < s + widthMs g → (s ≤ last ∨ iEndUnixMs i ≤ Z.max (iStartUnixMs i) s) →
  (widthMs g | last - s) →
  sumZ (fst <$> (compute_delta i MinInt64 g <$> bucket_starts n s last (widthMs g))) =
  Z.max 0 (iEndUnixMs i - Z.max (iStartUnixMs i) s).
Proof.
  intros Hw. revert s. induction n as [|n IH]; intros s Hn Hend Hst Hlast Hd;
    cbn [bucket_starts]; [simpl; lia|].
  case_decide as Hle; [|simpl; lia]. rewrite !fmap_cons. cbn [sumZ foldr].
  fold (sumZ (fst <$> (compute_delta i MinInt64 g <$>
          bucket_starts n (s + widthMs g) last (widthMs g)))).
  destruct Hd as [q Hq].
  rewrite IH; [unfold compute_delta; simpl; lia|lia|lia|lia| |exists (q - 1); lia].
  destruct (decide (s + widthMs g ≤ last)); [by left|right]. assert (q = 0) by nia. lia.
Qed.

(** Exactly one bucket of the loop counts the interval's start. *)
Lemma count_starts i g n s last :
  0 < widthMs g → s ≤ last → s = BucketStart g (iStartUnixMs i) →
  0 ≤ iStartUnixMs i → (0 < n)%nat →
  sumZ (snd <$> (compute_delta i MinInt64 g <$> bucket_starts n s last (widthMs g))) = 1.
Proof.
  intros Hw Hle Hs H0 Hn. destruct n as [|n]; [lia|]. cbn [bucket_starts].
  rewrite decide_True by done. rewrite !fmap_cons. cbn [sumZ foldr].
  assert (Hzero : ∀ l, (∀ x, x ∈ l → s < x) →
    sumZ (snd <$> (compute_delta i MinInt64 g <$> l)) = 0).
  { induction l as [|x l IH]; intros Hl; [done|]. rewrite !fmap_cons. cbn [sumZ foldr].
    fold (sumZ (snd <$> (compute_delta i MinInt64 g <$> l))). rewrite IH by set_solver.
    specialize (Hl x ltac:(set_solver)). unfold compute_delta. simpl.
    rewrite decide_False by lia. lia. }
  fold (sumZ (snd <$> (compute_delta i MinInt64 g <$>
          bucket_starts n (s + widthMs g) last (widthMs g)))).
  rewrite Hzero; [|intros x Hx%bucket_starts_ge; lia].
  unfold compute_delta. simpl. rewrite decide_True; [done|]. unfold MinInt64. lia.
Qed.

(** A compute interval is split over its buckets without loss. Rolling a valid
    closed interval up touches, at each width, one bucket per UTC hour (or day) from
    the one it started in to the last one it reached and no other key; the active
    times it puts there add up to exactly its duration, also for an interval of zero
    length or one that ends on a bucket boundary, and exactly one of those buckets
    counts it as started. *)
Theorem interval_split_without_loss i g :
  valid_interval i → iEndUnixMs i ≠ 0 → g ∈ rollupGranularities →
  let starts := loop_starts (first_bucket i MinInt64 g) (last_bucket i g) (widthMs g) in
  sumZ (fst <$> (compute_delta i MinInt64 g <$> starts)) = iEndUnixMs i - iStartUnixMs i ∧
  sumZ (snd <$> (compute_delta i MinInt64 g <$> starts)) = 1 ∧
  ∀ k, ckGranularity k = g →
    rollUpCompute i MinInt64 ∅ !! k =
    if decide (iOwnerUserID i = ckOwnerUserID k ∧ iAgentAccountID i = ckAgentAccountID k ∧
               ckStartUnixMs k ∈ starts)
    then Some (compute_roll k zeroComputeBucket (compute_delta i MinInt64 g (ckStartUnixMs k)))
    else None.
Proof.
  intros Hv Hend Hg. pose proof (valid_interval_times i Hv) as [Hs He]. specialize (He Hend).
  destruct (width_pos g Hg) as [Hw _].
  destruct (bucket_start_bounds g (iStartUnixMs i) Hg ltac:(lia)) as (Hb & Hbd & _).
  destruct (bucket_start_bounds g (iEndUnixMs i - 1) Hg ltac:(lia)) as (Hb' & Hbd' & _).
  cbn zeta. split_and!.
  - unfold loop_starts. rewrite first_bucket_unclipped by (done || lia).
    rewrite active_tail; [unfold last_bucket; lia|done|by apply loop_fuel| |lia| |].
    + unfold last_bucket. lia.
    + left. unfold last_bucket. lia.
    + unfold last_bucket. destruct (Z.max_spec (BucketStart g (iStartUnixMs i))
        (BucketStart g (iEndUnixMs i - 1))) as [[_ ->]|[_ ->]]; by apply Z.divide_sub_r.
  - unfold loop_starts. rewrite first_bucket_unclipped by (done || lia).
    apply count_starts; [done|unfold last_bucket; lia|done|lia|].
    pose proof (loop_fuel (BucketStart g (iStartUnixMs i)) (last_bucket i g) _ Hw).
    unfold last_bucket in *. lia.
  - intros k Hk. rewrite rollUpCompute_accum. unfold compute_accum, interval_entries.
    rewrite decide_False by naive_solver. rewrite accum_lookup, lookup_empty.
    cbn [rollupGranularities mbind list_bind]. rewrite !at_key_app.
    rewrite !granularity_at_key by (unfold rollupGranularities; set_solver).
    destruct (width_cases g Hg) as [[-> _]|[-> _]]; rewrite Hk;
      repeat case_decide; try done; naive_solver.
Qed.

Lemma append_seen t es :
  Forall (λ e, is_Some (events t !! ID e)) es → foldl append_one t es = t.
Proof.
  induction 1 as [|e es [x Hx] _ IH]; [done|]. simpl.
  unfold append_one at 2. by rewrite Hx.
Qed.

Lemma append_seen_after t es e :
  is_Some (events t !! ID e) ∨ e ∈ es → is_Some (events (foldl append_one t es) !! ID e).
Proof.
  revert t. induction es as [|x es IH]; intros t He; simpl.
  { destruct He as [?|?%elem_of_nil]; done. }
  apply IH. destruct He as [He|[->|He]%elem_of_cons]; [left|left|by right].
  - unfold append_one. case_match; [done|]. simpl. rewrite lookup_insert. by case_decide.
  - unfold append_one. case_match; [by eexists|]. simpl. by rewrite lookup_insert_eq.
Qed.

(** Appends are idempotent and all-or-nothing. In any state, a batch is accepted
    exactly when every event in it is valid; a rejected batch writes nothing; and
    sending an accepted batch again changes nothing, so a retried batch is not counted
    twice. *)
Theorem append_token_idempotent id es m :
  match AppendTokenUsage id es m with
  | Ok m' => Forall valid_event es ∧ AppendTokenUsage id es m' = Ok m'
  | Err e => ¬ Forall valid_event es ∧
      ∃ i x d, es !! i = Some x ∧ problem x = Some d ∧ e = InvalidEvent i (ID x) d
  | Panic => False
  end.
Proof.
  unfold AppendTokenUsage. destruct (ValidateEvents es) as [[]|e|] eqn:Hval; simpl.
  - destruct (tenant id m) as [m1 t] eqn:Ht. split; [by apply validate_events_ok|].
    unfold tenant. simpl. rewrite lookup_insert_eq. rewrite append_seen.
    + unfold put_tenant. simpl. by rewrite insert_insert_eq.
    + apply Forall_forall. intros e He. apply append_seen_after. by right.
  - split; [intros Hv%validate_events_ok; congruence|]. clear m.
    unfold ValidateEvents in Hval.
    assert (Hgen : ∀ n, validate_from n es = Err e → ∃ i x d,
      es !! i = Some x ∧ problem x = Some d ∧ e = InvalidEvent (n + i) (ID x) d).
    { clear Hval. induction es as [|x es IH]; intros n; simpl; [done|].
      destruct (problem x) as [d|] eqn:Hp.
      - intros [= <-]. exists 0%nat, x, d. rewrite Nat.add_0_r. done.
      - intros (i & y & d & ? & ? & ->)%IH. exists (S i), y, d.
        by rewrite Nat.add_succ_r. }
    apply (Hgen 0%nat Hval).
  - revert Hval. unfold ValidateEvents. generalize 0%nat.
    induction es as [|x es IH]; intros n; simpl; [done|]. case_match; [done|]. apply IH.
Qed.

(** A prune removes exactly the raw events before the start of the cutoff's UTC
    day, in every tenant, leaves every rollup (and so every series) as it is, and never
    moves the horizon back. *)
Theorem prune_token_keeps_rollups b m id t :
  tenants m !! id = Some t →
  let m' := (PruneTokenUsageBefore b m).1 in
  ∃ t', tenants m' !! id = Some t' ∧ rollups t' = rollups t ∧
    computeRollups t' = computeRollups t ∧ computeEvents t' = computeEvents t ∧
    (∀ i e, events t' !! i = Some e ↔
       events t !! i = Some e ∧ BucketStart GranularityDay b ≤ OccurredAtUnixMs e) ∧
    horizonUnixMs m ≤ horizonUnixMs m' ∧ BucketStart GranularityDay b ≤ horizonUnixMs m' ∧
    ∀ q, match TokenUsageSeries id q m' with Ok r => Some r.2 | _ => None end =
         match TokenUsageSeries id q m with Ok r => Some r.2 | _ => None end.
Proof.
  intros Ht. simpl. eexists. split_and!.
  - rewrite lookup_fmap, Ht. done.
  - done.
  - done.
  - done.
  - intros i e. simpl. rewrite map_lookup_filter_Some. simpl.
    by rewrite bool_decide_eq_true.
  - lia.
  - lia.
  - intros q. unfold TokenUsageSeries. destruct (Validate q); [|done|done]. simpl.
    unfold tenant. simpl. rewrite lookup_fmap, Ht. done.
Qed.

(** * The theorems at concrete inputs *)

Definition demo_event (id : string) (at_ms tokens : Z) : TokenUsageEvent :=
  MkTokenUsageEvent id at_ms "agent" "owner" "" "" "anthropic" "m" "" tokens 0 0 0 tokens 1 "" "ok".

(** From 23:30 on one day to 02:30 on the next. *)
Definition demo_interval : ComputeInterval :=
  MkComputeInterval "i1" 171000000 181800000 "agent" "owner".

Definition demo_ops : list op :=
  [OpAppendToken "t" [demo_event "a" 5 10; demo_event "b" 172800005 20];
   OpAppendCompute "t" demo_interval; OpPruneToken 172800000; OpPruneCompute 172800000].

Definition demo_query : SeriesQuery := MkSeriesQuery GranularityDay 172800000 900000000 [] "".

Definition demo_tenant : memoryTenant :=
  default emptyTenant (tenants (run demo_ops) !! "t").

Lemma demo_tenant_eq : tenants (run demo_ops) !! "t" = Some demo_tenant.
Proof.
  assert (bool_decide (is_Some (tenants (run demo_ops) !! "t")) = true) as Hs
    by (vm_compute; reflexivity).
  apply bool_decide_eq_true in Hs as [t Ht]. unfold demo_tenant. by rewrite Ht.
Qed.

Definition bad_key : rollupKey := MkRollupKey GranularityDay 172800000 "owner" "agent" "anthropic" "m".
Definition bad_ckey : computeRollupKey := MkComputeRollupKey GranularityDay 172800000 "owner" "agent".

Lemma rebuild_token_repairs_witness :
  RebuildTokenUsageRollups "t"
    (put_tenant "t" (MkTenant (events demo_tenant) (<[bad_key := zeroBucket]> (rollups demo_tenant))
       (computeEvents demo_tenant) (computeRollups demo_tenant)) (run demo_ops)) = run demo_ops.
Proof.
  apply (rebuild_token_repairs demo_ops "t" demo_tenant _ demo_tenant_eq).
  intros k Hk. apply lookup_insert_ne. intros <-.
  assert (horizonUnixMs (run demo_ops) = 172800000) as Hh by (vm_compute; reflexivity).
  rewrite Hh in Hk. simpl in Hk. lia.
Defined.

Lemma rebuild_compute_repairs_witness :
  RebuildComputeUsageRollups "t"
    (put_tenant "t" (MkTenant (events demo_tenant) (rollups demo_tenant) (computeEvents demo_tenant)
       (delete bad_ckey (computeRollups demo_tenant))) (run demo_ops)) = run demo_ops.
Proof.
  apply (rebuild_compute_repairs demo_ops "t" demo_tenant _ demo_tenant_eq).
  intros k Hk. apply lookup_delete_ne. intros <-.
  assert (BucketStart GranularityDay (computeHorizonUnixMs (run demo_ops)) = 172800000) as Hh
    by (vm_compute; reflexivity).
  rewrite Hh in Hk. simpl in Hk. lia.
Defined.

Lemma token_series_is_sum_witness :
  ∃ L, TokenUsageSeries "t" demo_query (run demo_ops) = Ok (run demo_ops, L) ∧
    Sorted bucket_le L ∧ NoDup (bStartUnixMs <$> L) ∧
    ∀ b, b ∈ L ↔ ∃ s, bucket_events demo_query s (raw demo_tenant) ≠ [] ∧
      b = with_start s (foldl plus zeroBucket (usage <$> bucket_events demo_query s (raw demo_tenant))).
Proof.
  apply (token_series_is_sum demo_ops "t" demo_tenant demo_query demo_tenant_eq eq_refl).
  vm_compute. discriminate.
Defined.

Lemma interval_split_without_loss_witness :
  let starts := loop_starts 169200000 180000000 hourMs in
  sumZ (fst <$> (compute_delta demo_interval MinInt64 GranularityHour <$> starts)) = 10800000 ∧
  sumZ (snd <$> (compute_delta demo_interval MinInt64 GranularityHour <$> starts)) = 1.
Proof.
  destruct (interval_split_without_loss demo_interval GranularityHour) as (H1 & H2 & _).
  - reflexivity.
  - discriminate.
  - apply elem_of_cons. by left.
  - exact (conj H1 H2).
Defined.

Lemma prune_token_keeps_rollups_witness :
  ∃ t', tenants (PruneTokenUsageBefore 400000000 (run demo_ops)).1 !! "t" = Some t' ∧
    rollups t' = rollups demo_tenant.
Proof.
  destruct (prune_token_keeps_rollups 400000000 (run demo_ops) "t" demo_tenant demo_tenant_eq)
    as (t' & H1 & H2 & _).
  exists t'. exact (conj H1 H2).
Defined.
