(* ===== verification/GatewayCred.v ===== *)
(** The LLM gateway's credential store: src/go/internal/gatewaycred/gatewaycred.go
    (credentials, clearable token fields) and src/go/internal/gatewaycred/memory.go
    (the tenant-isolated store: create, list, compare-and-set update, disable, and the
    own-before-shared pool).

    Every call takes the lock, so it is one step on [Memory].  The tenant of the
    context is an argument.  The random id of [Create] and the clock of [Disable] are
    arguments too.  A credential's OAuth grant sits behind a pointer that the store
    copies on the way in and out, so a credential is a value here. *)
From stdpp Require Import base gmap sorting strings list fin_maps.
From Stdlib Require Import ZArith Lia.
From S2P Require Import Prelude.

(** * Credentials *)

Definition ScopeOwn : Z := 1.
Definition ScopeShared : Z := 2.

Record OAuthToken := MkOAuthToken {
  Access : string;
  Refresh : string;
  ExpiresUnixMs : Z;
  EnterpriseURL : string;
  ProjectID : string;
  Email : string;
  AccountID : string;
  APIEndpoint : string;
  OrgID : string;
  OrgName : string;
  AuthorizedAtUnixMs : Z;
  Region : string;
  InferenceRegion : string;
  ActiveOrganizationID : string
}.

Record Credential := MkCredential {
  CredID : string;
  CredProvider : string;
  CredScope : Z;
  CredOwnerUserID : string;
  CredVersion : Z;
  apiKey : string;
  oauth : option OAuthToken
}.

Inductive error :=
| ErrInvalidArgument (what : string)
| ErrNotFound
| ErrFailedPrecondition
| ErrVersionConflict
| ErrCreateID.

Definition NewAPIKeyCredential (c : Credential) (key : string) : Credential :=
  MkCredential (CredID c) (CredProvider c) (CredScope c) (CredOwnerUserID c) (CredVersion c)
    key None.

Definition NewOAuthCredential (c : Credential) (tok : OAuthToken) : Credential :=
  MkCredential (CredID c) (CredProvider c) (CredScope c) (CredOwnerUserID c) (CredVersion c)
    "" (Some tok).

(** [Credential.APIKey] and [Credential.OAuth] *)
Definition APIKey (c : Credential) : string * bool :=
  (apiKey c, bool_decide (oauth c = None) && bool_decide (apiKey c ≠ "")).

Definition OAuth (c : Credential) : option OAuthToken := oauth c.

(** The entries of the table [oauthClearable]; [None] for a name it does not hold. *)
Definition oauthClearable (name : string) : option (OAuthToken → OAuthToken) :=
  if decide (name = "enterprise_url") then
    Some (λ '(MkOAuthToken a r x eu p em ai ep oi on au rg ir ao), MkOAuthToken a r x "" p em ai ep oi on au rg ir ao)
  else if decide (name = "project_id") then
    Some (λ '(MkOAuthToken a r x eu p em ai ep oi on au rg ir ao), MkOAuthToken a r x eu "" em ai ep oi on au rg ir ao)
  else if decide (name = "email") then
    Some (λ '(MkOAuthToken a r x eu p em ai ep oi on au rg ir ao), MkOAuthToken a r x eu p "" ai ep oi on au rg ir ao)
  else if decide (name = "account_id") then
    Some (λ '(MkOAuthToken a r x eu p em ai ep oi on au rg ir ao), MkOAuthToken a r x eu p em "" ep oi on au rg ir ao)
  else if decide (name = "api_endpoint") then
    Some (λ '(MkOAuthToken a r x eu p em ai ep oi on au rg ir ao), MkOAuthToken a r x eu p em ai "" oi on au rg ir ao)
  else if decide (name = "org_id") then
    Some (λ '(MkOAuthToken a r x eu p em ai ep oi on au rg ir ao), MkOAuthToken a r x eu p em ai ep "" on au rg ir ao)
  else if decide (name = "org_name") then
    Some (λ '(MkOAuthToken a r x eu p em ai ep oi on au rg ir ao), MkOAuthToken a r x eu p em ai ep oi "" au rg ir ao)
  else if decide (name = "authorized_at_unix_ms") then
    Some (λ '(MkOAuthToken a r x eu p em ai ep oi on au rg ir ao), MkOAuthToken a r x eu p em ai ep oi on 0 rg ir ao)
  else if decide (name = "region") then
    Some (λ '(MkOAuthToken a r x eu p em ai ep oi on au rg ir ao), MkOAuthToken a r x eu p em ai ep oi on au "" ir ao)
  else if decide (name = "inference_region") then
    Some (λ '(MkOAuthToken a r x eu p em ai ep oi on au rg ir ao), MkOAuthToken a r x eu p em ai ep oi on au rg "" ao)
  else if decide (name = "active_organization_id") then
    Some (λ '(MkOAuthToken a r x eu p em ai ep oi on au rg ir ao), MkOAuthToken a r x eu p em ai ep oi on au rg ir "")
  else None.

Definition ValidOAuthClearFields (names : list string) : bool :=
  forallb (λ n, bool_decide (is_Some (oauthClearable n))) names.

Definition validateCredential (c : Credential) : result error unit :=
  if decide (CredProvider c = "") then Err (ErrInvalidArgument "provider is required")
  else if decide ((CredScope c = ScopeOwn ∧ CredOwnerUserID c = "") ∨
                  (CredScope c = ScopeShared ∧ CredOwnerUserID c ≠ "") ∨
                  (CredScope c ≠ ScopeOwn ∧ CredScope c ≠ ScopeShared))
  then Err (ErrInvalidArgument "scope and owner do not match")
  else
    let isKey := bool_decide (apiKey c ≠ "") && bool_decide (oauth c = None) in
    let isOAuth := match oauth c with
                   | Some t => bool_decide (Access t ≠ "") && bool_decide (apiKey c = "")
                   | None => false
                   end in
    if Bool.eqb isKey isOAuth then
      Err (ErrInvalidArgument "exactly one credential value is required")
    else Ok tt.

(** [next] where it is set, [old] where it is the zero value. *)
Definition keep_str (next old : string) : string := if decide (next = "") then old else next.
Definition keep_int (next old : Z) : Z := if decide (next = 0) then old else next.

Definition merge_fields (old next : OAuthToken) : OAuthToken :=
  MkOAuthToken (keep_str (Access next) (Access old)) (keep_str (Refresh next) (Refresh old))
    (keep_int (ExpiresUnixMs next) (ExpiresUnixMs old))
    (keep_str (EnterpriseURL next) (EnterpriseURL old))
    (keep_str (ProjectID next) (ProjectID old)) (keep_str (Email next) (Email old))
    (keep_str (AccountID next) (AccountID old)) (keep_str (APIEndpoint next) (APIEndpoint old))
    (keep_str (OrgID next) (OrgID old)) (keep_str (OrgName next) (OrgName old))
    (keep_int (AuthorizedAtUnixMs next) (AuthorizedAtUnixMs old))
    (keep_str (Region next) (Region old)) (keep_str (InferenceRegion next) (InferenceRegion old))
    (keep_str (ActiveOrganizationID next) (ActiveOrganizationID old)).

(** The clearing loop; calling the absent entry of an unknown name panics. *)
Fixpoint clear_fields (names : list string) (t : OAuthToken) : result error OAuthToken :=
  match names with
  | [] => Ok t
  | n :: rest =>
      match oauthClearable n with
      | Some f => clear_fields rest (f t)
      | None => Panic
      end
  end.

Definition mergeOAuth (old next : OAuthToken) (clearFields : list string)
  : result error OAuthToken := clear_fields clearFields (merge_fields old next).

(** * The store *)

Record memoryCredential := MkRow {
  credential : Credential;
  created : Z;
  disabledAt : option Z;
  cause : string
}.

Record Memory := MkMemory {
  tenants : gmap string (gmap string memoryCredential);
  agentOwner : gmap string string;
  m_created : Z
}.

Definition NewMemory : Memory := MkMemory ∅ ∅ 0.

Definition SetAgentOwner (agent owner : string) (m : Memory) : Memory :=
  MkMemory (tenants m) (<[agent := owner]> (agentOwner m)) (m_created m).

(** [Memory.tenant]: the tenant's rows, created on first use. *)
Definition rows_of (tenant : string) (m : Memory) : gmap string memoryCredential :=
  mget ∅ (tenants m) tenant.

Definition put_rows (tenant : string) (rows : gmap string memoryCredential) (m : Memory)
  : Memory :=
  MkMemory (<[tenant := rows]> (tenants m)) (agentOwner m) (m_created m).

Definition touch (tenant : string) (m : Memory) : Memory :=
  put_rows tenant (rows_of tenant m) m.

Definition enabled (r : memoryCredential) : bool := bool_decide (disabledAt r = None).

Definition set_id_version (c : Credential) (id : string) (v : Z) : Credential :=
  MkCredential id (CredProvider c) (CredScope c) (CredOwnerUserID c) v (apiKey c) (oauth c).

(** [Create]; [newID] is what [credentialID] returned. *)
Definition Create (tenant : string) (newID : option string) (c : Credential) (m : Memory)
  : Memory * result error Credential :=
  match validateCredential c with
  | Ok _ =>
      match newID with
      | None => (m, Err ErrCreateID)
      | Some id =>
          let c := set_id_version c id 1 in
          let rows := rows_of tenant m in
          let n := u64 (m_created m + 1) in
          (MkMemory (<[tenant := <[id := MkRow c n None ""]> rows]> (tenants m))
             (agentOwner m) n, Ok c)
      end
  | Err e => (m, Err e)
  | Panic => (m, Panic)
  end.

(** The order of both sorts: provider, then creation number, then id. *)
Definition row_le (a b : memoryCredential) : Prop :=
  let ca := credential a in
  let cb := credential b in
  (CredProvider ca ≠ CredProvider cb ∧ String.le (CredProvider ca) (CredProvider cb)) ∨
  (CredProvider ca = CredProvider cb ∧ created a < created b) ∨
  (CredProvider ca = CredProvider cb ∧ created a = created b ∧
   String.le (CredID ca) (CredID cb)).
#[global] Instance row_le_dec : RelDecision row_le.
Proof. intros a b. unfold row_le. apply _. Defined.

Definition sorted_credentials (rows : list memoryCredential) : list Credential :=
  credential <$> merge_sort row_le rows.

Definition row_list (rows : gmap string memoryCredential) : list memoryCredential :=
  snd <$> map_to_list rows.

Definition listed (owner provider : string) (r : memoryCredential) : bool :=
  let c := credential r in
  negb (negb (enabled r) ||
        (bool_decide (CredScope c = ScopeOwn) && bool_decide (CredOwnerUserID c ≠ owner)) ||
        (bool_decide (provider ≠ "") && bool_decide (CredProvider c ≠ provider))).

(** [Memory.List] *)
Definition List_ (tenant owner provider : string) (m : Memory)
  : Memory * list Credential :=
  (touch tenant m,
   sorted_credentials (filter (λ r, listed owner provider r = true)
                         (row_list (rows_of tenant m)))).

Definition is_enabled_own (owner provider : string) (r : memoryCredential) : bool :=
  let c := credential r in
  enabled r && bool_decide (CredScope c = ScopeOwn) &&
  bool_decide (CredOwnerUserID c = owner) && bool_decide (CredProvider c = provider).

Definition hasEnabledOwn (rows : gmap string memoryCredential) (owner provider : string) : bool :=
  existsb (is_enabled_own owner provider) (row_list rows).

Definition inPool (rows : gmap string memoryCredential) (candidate : memoryCredential)
  (owner : string) : bool :=
  let c := credential candidate in
  if decide (CredScope c = ScopeOwn) then bool_decide (CredOwnerUserID c = owner)
  else bool_decide (CredScope c = ScopeShared) && negb (hasEnabledOwn rows owner (CredProvider c)).

(** The selection test of the loop of [Pool]. *)
Definition pool_selects (rows : gmap string memoryCredential) (owner : string)
  (r : memoryCredential) : bool :=
  let c := credential r in
  if enabled r then
    if bool_decide (CredScope c = ScopeOwn) && bool_decide (CredOwnerUserID c = owner) then true
    else bool_decide (CredScope c = ScopeShared) &&
         negb (hasEnabledOwn rows owner (CredProvider c))
  else false.

Definition Pool (tenant agent : string) (m : Memory) : Memory * result error (list Credential) :=
  match agentOwner m !! agent with
  | Some owner =>
      if decide (agent = "") then (m, Err ErrNotFound)
      else
        let rows := rows_of tenant m in
        (touch tenant m,
         Ok (sorted_credentials (filter (λ r, pool_selects rows owner r = true) (row_list rows))))
  | None => (m, Err ErrNotFound)
  end.

(** The lookup both mutations share: the row, if it is enabled and in the agent's pool. *)
Definition find_in_pool (rows : gmap string memoryCredential) (m : Memory) (agent id : string)
  : option memoryCredential :=
  match rows !! id, agentOwner m !! agent with
  | Some row, Some owner => if enabled row && inPool rows row owner then Some row else None
  | _, _ => None
  end.

Definition UpdateOAuth (tenant agent id : string) (tok : OAuthToken) (expected : Z)
  (clearFields : list string) (m : Memory) : Memory * result error Z :=
  if decide (id = "" ∨ agent = "" ∨ expected = 0 ∨ Access tok = "") then
    (m, Err (ErrInvalidArgument "id, agent, expected version, and access token are required"))
  else if negb (ValidOAuthClearFields clearFields) then
    (m, Err (ErrInvalidArgument "clear fields name a field that cannot be cleared"))
  else
    let rows := rows_of tenant m in
    match find_in_pool rows m agent id with
    | None => (touch tenant m, Err ErrNotFound)
    | Some row =>
        match oauth (credential row) with
        | None => (touch tenant m, Err ErrFailedPrecondition)
        | Some old =>
            if decide (CredVersion (credential row) ≠ expected)
            then (touch tenant m, Err ErrVersionConflict)
            else
              match mergeOAuth old tok clearFields with
              | Ok merged =>
                  let v := add64 (CredVersion (credential row)) 1 in
                  let c := NewOAuthCredential (credential row) merged in
                  (put_rows tenant
                     (<[id := MkRow (set_id_version c (CredID c) v) (created row)
                                (disabledAt row) (cause row)]> rows) m, Ok v)
              | Err e => (touch tenant m, Err e)
              | Panic => (m, Panic)
              end
        end
    end.

Definition Disable (now : Z) (tenant agent id why : string) (expected : Z) (m : Memory)
  : Memory * result error unit :=
  if decide (id = "" ∨ agent = "" ∨ expected = 0) then
    (m, Err (ErrInvalidArgument "id, agent, and expected version are required"))
  else
    let rows := rows_of tenant m in
    match find_in_pool rows m agent id with
    | None => (touch tenant m, Err ErrNotFound)
    | Some row =>
        if decide (CredVersion (credential row) ≠ expected)
        then (touch tenant m, Err ErrVersionConflict)
        else
          let c := credential row in
          (put_rows tenant
             (<[id := MkRow (set_id_version c (CredID c) (add64 (CredVersion c) 1))
                        (created row) (Some now) why]> rows) m, Ok tt)
    end.

(** * Facts *)

Lemma elem_of_row_list rows r : r ∈ row_list rows ↔ ∃ id, rows !! id = Some r.
Proof.
  unfold row_list. rewrite list_elem_of_fmap. split.
  - intros ([id r'] & -> & Hin). exists id. by apply elem_of_map_to_list.
  - intros [id Hid]. exists (id, r). split; [done|]. by apply elem_of_map_to_list.
Qed.

Lemma hasEnabledOwn_spec rows owner provider :
  hasEnabledOwn rows owner provider = true ↔
  ∃ id r, rows !! id = Some r ∧ is_enabled_own owner provider r = true.
Proof.
  unfold hasEnabledOwn. rewrite existsb_exists. split.
  - intros (r & Hin%list_elem_of_In%elem_of_row_list & Hr). naive_solver.
  - intros (id & r & Hid & Hr). exists r. split; [|done].
    apply list_elem_of_In, elem_of_row_list. by exists id.
Qed.

Lemma elem_of_sorted_credentials c rows :
  c ∈ sorted_credentials rows ↔ ∃ r, r ∈ rows ∧ credential r = c.
Proof.
  unfold sorted_credentials. rewrite list_elem_of_fmap. setoid_rewrite merge_sort_Permutation.
  naive_solver.
Qed.

#[export] Instance row_le_total : Total row_le.
Proof.
  intros a b. unfold row_le.
  destruct (decide (CredProvider (credential a) = CredProvider (credential b))) as [Hp|Hp].
  - destruct (Z.lt_total (created a) (created b)) as [?|[?|?]];
      [left; right; left; by split| |right; right; left; by split].
    destruct (total String.le (CredID (credential a)) (CredID (credential b)));
      [left|right]; right; right; by split_and!.
  - destruct (total String.le (CredProvider (credential a)) (CredProvider (credential b)));
      [left|right]; left; (split; [congruence|done]).
Qed.

Lemma inPool_selects rows owner r :
  enabled r && inPool rows r owner = pool_selects rows owner r.
Proof.
  unfold inPool, pool_selects. destruct (enabled r); [|done]. simpl.
  destruct (decide (CredScope (credential r) = ScopeOwn)) as [Hs|Hs].
  - rewrite (bool_decide_eq_true_2 _ Hs). simpl.
    destruct (bool_decide (CredOwnerUserID (credential r) = owner)) eqn:Ho; [done|].
    rewrite bool_decide_eq_false_2; [done|]. rewrite Hs. done.
  - rewrite (bool_decide_eq_false_2 _ Hs). done.
Qed.

Lemma find_in_pool_Some rows m agent id row :
  find_in_pool rows m agent id = Some row ↔
  rows !! id = Some row ∧ ∃ owner, agentOwner m !! agent = Some owner ∧
    pool_selects rows owner row = true.
Proof.
  unfold find_in_pool. destruct (rows !! id) as [r|], (agentOwner m !! agent) as [o|];
    rewrite ?inPool_selects;
    [|split; [done|by intros (? & ? & ? & _)]..].
  destruct (pool_selects rows o r) eqn:Hp; split.
  - intros [= <-]. by eauto.
  - by intros (-> & _).
  - done.
  - intros ([= <-] & o' & [= <-] & Hsel). congruence.
Qed.

Lemma pool_selects_spec rows owner r :
  pool_selects rows owner r = true ↔ disabledAt r = None ∧
    ((CredScope (credential r) = ScopeOwn ∧ CredOwnerUserID (credential r) = owner) ∨
     (CredScope (credential r) = ScopeShared ∧
      hasEnabledOwn rows owner (CredProvider (credential r)) = false)).
Proof.
  unfold pool_selects, enabled.
  destruct (decide (disabledAt r = None)) as [Hd|Hd];
    [rewrite bool_decide_eq_true_2 by done|rewrite bool_decide_eq_false_2 by done; naive_solver].
  destruct (bool_decide (CredScope (credential r) = ScopeOwn) &&
            bool_decide (CredOwnerUserID (credential r) = owner)) eqn:Hown.
  - apply andb_true_iff in Hown as [?%bool_decide_eq_true ?%bool_decide_eq_true]. naive_solver.
  - rewrite andb_true_iff, bool_decide_eq_true, negb_true_iff.
    apply andb_false_iff in Hown. rewrite !bool_decide_eq_false in Hown. naive_solver.
Qed.

Lemma no_enabled_own rows owner provider :
  hasEnabledOwn rows owner provider = false ↔
  ∀ id' r', rows !! id' = Some r' → disabledAt r' = None →
    CredScope (credential r') = ScopeOwn → CredOwnerUserID (credential r') = owner →
    CredProvider (credential r') ≠ provider.
Proof.
  rewrite <- not_true_iff_false, hasEnabledOwn_spec. unfold is_enabled_own, enabled. split.
  - intros Hn id' r' H1 H2 H3 H4 H5. apply Hn. exists id', r'. split; [done|].
    rewrite !andb_true_iff, !bool_decide_eq_true. done.
  - intros Hn (id' & r' & H1 & H2). rewrite !andb_true_iff, !bool_decide_eq_true in H2.
    naive_solver.
Qed.

(** ** Clearing and merging *)

(** The clearable fields that hold text, by the name a request uses for them. *)
Definition text_fields : list (string * (OAuthToken → string)) :=
  [("enterprise_url", EnterpriseURL); ("project_id", ProjectID); ("email", Email);
   ("account_id", AccountID); ("api_endpoint", APIEndpoint); ("org_id", OrgID);
   ("org_name", OrgName); ("region", Region); ("inference_region", InferenceRegion);
   ("active_organization_id", ActiveOrganizationID)].

(** One clearing changes its own field only. *)
Lemma clearable_effect n f t :
  oauthClearable n = Some f →
  Access (f t) = Access t ∧ Refresh (f t) = Refresh t ∧ ExpiresUnixMs (f t) = ExpiresUnixMs t ∧
  AuthorizedAtUnixMs (f t) =
    (if decide (n = "authorized_at_unix_ms") then 0 else AuthorizedAtUnixMs t) ∧
  Forall (λ ng, ng.2 (f t) = if decide (n = ng.1) then "" else ng.2 t) text_fields.
Proof.
  unfold oauthClearable, text_fields. intros H. destruct t.
  repeat case_decide; simplify_eq; split_and!; try done; repeat constructor.
Qed.

Lemma clear_fields_spec names t :
  ValidOAuthClearFields names = true →
  ∃ t', clear_fields names t = Ok t' ∧
    Access t' = Access t ∧ Refresh t' = Refresh t ∧ ExpiresUnixMs t' = ExpiresUnixMs t ∧
    AuthorizedAtUnixMs t' =
      (if decide ("authorized_at_unix_ms" ∈ names) then 0 else AuthorizedAtUnixMs t) ∧
    Forall (λ ng, ng.2 t' = if decide (ng.1 ∈ names) then "" else ng.2 t) text_fields.
Proof.
  revert t. induction names as [|n names IH]; intros t Hv.
  { exists t. split_and!; try done. apply Forall_forall. intros ng _.
    by rewrite decide_False by apply not_elem_of_nil. }
  cbn [ValidOAuthClearFields forallb] in Hv. apply andb_true_iff in Hv as [Hn Hv].
  apply bool_decide_eq_true in Hn as [f Hf]. cbn [clear_fields]. rewrite Hf.
  destruct (clearable_effect n f t Hf) as (E1 & E2 & E3 & E4 & E5).
  destruct (IH (f t) Hv) as (t' & H0 & H1 & H2 & H3 & H4 & H5).
  exists t'. split_and!; [done|congruence..| |].
  - by rewrite H4, E4, decide_elem_cons.
  - rewrite Forall_forall in H5, E5 |- *. intros ng Hng.
    by rewrite (H5 ng Hng), (E5 ng Hng), decide_elem_cons.
Qed.

(** ** Histories *)

Inductive op :=
| OpSetAgentOwner (agent owner : string)
| OpCreate (tenant : string) (newID : option string) (c : Credential)
| OpList (tenant owner provider : string)
| OpPool (tenant agent : string)
| OpUpdateOAuth (tenant agent id : string) (tok : OAuthToken) (expected : Z) (clear : list string)
| OpDisable (now : Z) (tenant agent id why : string) (expected : Z).

Definition step (m : Memory) (o : op) : Memory :=
  match o with
  | OpSetAgentOwner a w => SetAgentOwner a w m
  | OpCreate t i c => (Create t i c m).1
  | OpList t w p => (List_ t w p m).1
  | OpPool t a => (Pool t a m).1
  | OpUpdateOAuth t a i tok e cl => (UpdateOAuth t a i tok e cl m).1
  | OpDisable n t a i y e => (Disable n t a i y e m).1
  end.

Definition run (m : Memory) (os : list op) : Memory := foldl step m os.

(** The tenant a call is scoped to. *)
Definition op_tenant (o : op) : option string :=
  match o with
  | OpSetAgentOwner _ _ => None
  | OpCreate t _ _ | OpList t _ _ | OpPool t _ | OpUpdateOAuth t _ _ _ _ _
  | OpDisable _ t _ _ _ _ => Some t
  end.

Lemma rows_of_put t t' rows m :
  rows_of t (put_rows t' rows m) = if decide (t' = t) then rows else rows_of t m.
Proof.
  unfold rows_of, put_rows. simpl. case_decide; subst;
    [apply mget_insert_eq|by apply mget_insert_ne].
Qed.

Lemma rows_of_touch t t' m : rows_of t (touch t' m) = rows_of t m.
Proof. unfold touch. rewrite rows_of_put. by case_decide; subst. Qed.

(** What one call does to the rows of one tenant: nothing, or one row is written. *)
Inductive row_change : gmap string memoryCredential → op → gmap string memoryCredential → Prop :=
| change_none rows o : row_change rows o rows
| change_create rows t id c n :
    validateCredential c = Ok tt →
    row_change rows (OpCreate t (Some id) c)
      (<[id := MkRow (set_id_version c id 1) n None ""]> rows)
| change_update rows t agent id tok e cl row old merged v :
    rows !! id = Some row → enabled row = true → oauth (credential row) = Some old →
    CredVersion (credential row) = e → Access tok ≠ "" → mergeOAuth old tok cl = Ok merged →
    v = add64 e 1 → ValidOAuthClearFields cl = true →
    row_change rows (OpUpdateOAuth t agent id tok e cl)
      (<[id := MkRow (set_id_version (NewOAuthCredential (credential row) merged)
                        (CredID (credential row)) v) (created row) (disabledAt row) (cause row)]> rows)
| change_disable rows now t agent id y e row :
    rows !! id = Some row → enabled row = true → CredVersion (credential row) = e →
    row_change rows (OpDisable now t agent id y e)
      (<[id := MkRow (set_id_version (credential row) (CredID (credential row)) (add64 e 1))
                 (created row) (Some now) y]> rows).

Lemma find_in_pool_enabled rows m agent id row :
  find_in_pool rows m agent id = Some row → rows !! id = Some row ∧ enabled row = true.
Proof.
  intros (Hr & o & _ & Hsel)%find_in_pool_Some. split; [done|].
  unfold pool_selects in Hsel. by destruct (enabled row).
Qed.

(** Every call changes at most the rows of the tenant it is scoped to, in one of the
    ways of [row_change]. *)
Lemma step_rows m o t :
  row_change (rows_of t m) o (rows_of t (step m o)) ∧
  (op_tenant o ≠ Some t → rows_of t (step m o) = rows_of t m).
Proof.
  destruct o as [a w|t' i c|t' w p|t' a|t' a i tok e cl|now t' a i y e]; simpl.
  - split; [constructor|done].
  - unfold Create. destruct (validateCredential c) as [[]| |] eqn:Hv; [|split; [constructor|done]..].
    destruct i as [id|]; [|split; [constructor|done]]. simpl.
    change (rows_of t (MkMemory (<[t':=?r]> (tenants m)) ?a ?n)) with (mget ∅ (<[t':=r]> (tenants m)) t).
    destruct (decide (t' = t)) as [->|Hne].
    + rewrite mget_insert_eq. split; [by constructor|done].
    + rewrite mget_insert_ne by done. split; [constructor|done].
  - rewrite rows_of_touch. split; [constructor|done].
  - unfold Pool. destruct (agentOwner m !! a); [|split; [constructor|done]].
    case_decide; [split; [constructor|done]|]. simpl. rewrite rows_of_touch.
    split; [constructor|done].
  - unfold UpdateOAuth. case_decide as Harg; [split; [constructor|done]|].
    destruct (ValidOAuthClearFields cl) eqn:Hcl; simpl; [|split; [constructor|done]].
    destruct (find_in_pool (rows_of t' m) m a i) as [row|] eqn:Hf; simpl;
      [|rewrite rows_of_touch; split; [constructor|done]].
    destruct (oauth (credential row)) as [old|] eqn:Ho; simpl;
      [|rewrite rows_of_touch; split; [constructor|done]].
    case_decide as Hver; simpl; [rewrite rows_of_touch; split; [constructor|done]|].
    destruct (mergeOAuth old tok cl) as [merged| |] eqn:Hm; simpl;
      [|rewrite ?rows_of_touch; split; [constructor|done]..].
    rewrite rows_of_put. apply find_in_pool_enabled in Hf as [Hr He].
    case_decide as Ht; [subst t'|split; [constructor|naive_solver]]. split; [|done].
    eapply change_update; try done; naive_solver.
  - unfold Disable. case_decide as Harg; [split; [constructor|done]|].
    destruct (find_in_pool (rows_of t' m) m a i) as [row|] eqn:Hf; simpl;
      [|rewrite rows_of_touch; split; [constructor|done]].
    case_decide as Hver; simpl; [rewrite rows_of_touch; split; [constructor|done]|].
    rewrite rows_of_put. apply find_in_pool_enabled in Hf as [Hr He].
    case_decide as Ht; [subst t'|split; [constructor|naive_solver]]. split; [|done].
    rewrite Hver. by eapply change_disable.
Qed.

(** ** The store invariant *)

Definition row_ok (id : string) (r : memoryCredential) : Prop :=
  CredID (credential r) = id ∧ validateCredential (credential r) = Ok tt.

Definition rows_ok (rows : gmap string memoryCredential) : Prop :=
  ∀ id r, rows !! id = Some r → row_ok id r.

Lemma validate_ignores_id c id v :
  validateCredential (set_id_version c id v) = validateCredential c.
Proof. done. Qed.

(** A valid credential keeps its shape when its grant is replaced. *)
Lemma validate_new_oauth c old tok :
  validateCredential c = Ok tt → oauth c = Some old → Access tok ≠ "" →
  validateCredential (NewOAuthCredential c tok) = Ok tt.
Proof.
  unfold validateCredential. simpl. intros Hv Ho Ha. rewrite Ho in Hv.
  case_decide; [done|]. case_decide; [done|].
  rewrite (bool_decide_eq_true_2 (Access tok ≠ "")) by done. done.
Qed.

Lemma merge_access old tok cl merged :
  Access tok ≠ "" → ValidOAuthClearFields cl = true → mergeOAuth old tok cl = Ok merged →
  Access merged = Access tok.
Proof.
  intros Ha Hv Hm. unfold mergeOAuth in Hm.
  destruct (clear_fields_spec cl (merge_fields old tok) Hv) as (t' & H0 & H1 & _).
  rewrite H0 in Hm. injection Hm as <-. rewrite H1. simpl. unfold keep_str.
  by rewrite decide_False.
Qed.

Lemma row_change_ok rows o rows' : row_change rows o rows' → rows_ok rows → rows_ok rows'.
Proof.
  intros Hch Hok. destruct Hch as [rows o|rows t id c n Hv|rows t agent id tok e cl row old
    merged v Hr He Ho Hver Ha Hm Hv Hcl|rows now t agent id y e row Hr He Hver]; [done|..];
    intros id' r'; rewrite lookup_insert; case_decide as Hid; try apply Hok; intros [= <-]; subst id'.
  - split; [done|]. by rewrite <- Hv.
  - destruct (Hok id row Hr) as [Hcid Hval]. split; [done|]. simpl credential.
    rewrite validate_ignores_id. eapply validate_new_oauth; [done..|].
    by rewrite (merge_access old tok cl).
  - destruct (Hok id row Hr) as [Hcid Hval]. by split.
Qed.

Lemma run_rows_ok m os t : rows_ok (rows_of t m) → rows_ok (rows_of t (run m os)).
Proof.
  unfold run. revert m. induction os as [|o os IH]; intros m Hm; [done|].
  apply IH. eapply row_change_ok; [apply step_rows|done].
Qed.

(** A successful disable leaves a disabled row. *)
Lemma disable_writes now tenant agent id why v m m' :
  Disable now tenant agent id why v m = (m', Ok tt) →
  ∃ r, rows_of tenant m' !! id = Some r ∧ disabledAt r ≠ None.
Proof.
  unfold Disable. intros Hd. case_decide; [done|].
  destruct (find_in_pool _ _ _ _) as [row|]; [|done]. case_decide; [done|]. simplify_eq.
  eexists. rewrite rows_of_put, decide_True, lookup_insert_eq by done. done.
Qed.

(** No call but a create with the same id brings a disabled row back. *)
Lemma row_change_disabled tenant rows o rows' id :
  row_change rows o rows' → op_tenant o = Some tenant →
  match o with OpCreate t (Some i) _ => t = tenant → i ≠ id | _ => True end →
  (∃ r, rows !! id = Some r ∧ disabledAt r ≠ None) →
  ∃ r, rows' !! id = Some r ∧ disabledAt r ≠ None.
Proof.
  intros Hch Ht Ho (r & Hr & Hd). destruct Hch as [rows o|rows t i c n Hv|rows t agent i tok e cl
    row old merged v Hi He Hoa Hver Ha Hm Hv Hcl|rows now t agent i y e row Hi He Hver];
    [by exists r|..].
  - simpl in Ht, Ho. exists r. rewrite lookup_insert_ne; naive_solver.
  - exists r. rewrite lookup_insert_ne; [done|]. intros ->.
    apply bool_decide_eq_true in He. congruence.
  - exists r. rewrite lookup_insert_ne; [done|]. intros ->.
    apply bool_decide_eq_true in He. congruence.
Qed.

(** The store is well formed and the row is there, disabled. *)
Definition disabled_row (tenant id : string) (m : Memory) : Prop :=
  rows_ok (rows_of tenant m) ∧ ∃ r, rows_of tenant m !! id = Some r ∧ disabledAt r ≠ None.

Lemma run_disabled tenant id m os :
  Forall (λ o, match o with OpCreate t (Some i) _ => t = tenant → i ≠ id | _ => True end) os →
  disabled_row tenant id m → disabled_row tenant id (run m os).
Proof.
  intros Hos. revert m. induction Hos as [|o os Ho Hos IH]; intros m Hm; [done|]. simpl.
  apply IH. destruct Hm as [Hok Hr]. destruct (step_rows m o tenant) as [Hch Hout].
  split; [by eapply row_change_ok|].
  destruct (decide (op_tenant o = Some tenant)) as [Ht|Ht]; [|by rewrite Hout].
  by eapply row_change_disabled.
Qed.

Lemma disabled_unlisted tenant id m r :
  disabled_row tenant id m → r ∈ row_list (rows_of tenant m) → disabledAt r = None →
  CredID (credential r) ≠ id.
Proof.
  intros [Hok (r0 & Hr0 & Hd0)] [i Hi]%elem_of_row_list Hd Heq.
  destruct (Hok i r Hi) as [Hid _]. assert (i = id) as -> by congruence. congruence.
Qed.

Lemma disabled_not_found tenant id m a :
  disabled_row tenant id m → find_in_pool (rows_of tenant m) m a id = None.
Proof.
  intros [_ (r0 & Hr0 & Hd0)]. apply eq_None_not_Some. intros [row [Hrow He]%find_in_pool_enabled].
  apply bool_decide_eq_true in He. congruence.
Qed.

Lemma disabled_not_in_pool tenant id m a L :
  disabled_row tenant id m → (Pool tenant a m).2 = Ok L → id ∉ CredID <$> L.
Proof.
  intros Hrow HL. unfold Pool in HL. destruct (agentOwner m !! a); [|done].
  case_decide; [done|]. simpl in HL. simplify_eq.
  intros (c & -> & (r' & Hr' & <-)%elem_of_sorted_credentials)%list_elem_of_fmap.
  apply list_elem_of_filter in Hr' as [Hs Hin]. apply pool_selects_spec in Hs as [Hs _].
  by eapply disabled_unlisted.
Qed.

Lemma disabled_not_listed tenant id m w p :
  disabled_row tenant id m → id ∉ CredID <$> (List_ tenant w p m).2.
Proof.
  intros Hrow (c & -> & (r' & Hr' & <-)%elem_of_sorted_credentials)%list_elem_of_fmap.
  apply list_elem_of_filter in Hr' as [Hs Hin]. unfold listed, enabled in Hs.
  destruct (decide (disabledAt r' = None)); [by eapply disabled_unlisted|].
  by rewrite bool_decide_eq_false_2 in Hs.
Qed.

(** * Theorems *)

(** A pool holds the owner's own credentials, and the tenant's shared ones only
    for providers where the owner has none. For a known agent, a credential is in the
    pool exactly when its row is enabled and it is the owner's own, or it is shared and
    no enabled own credential of the owner serves its provider; so no provider mixes
    own and shared credentials, and the list is sorted by provider, age and id. An
    unknown or empty agent gets ErrNotFound. *)
Theorem pool_own_before_shared tenant agent m :
  match agentOwner m !! agent with
  | Some owner =>
      if decide (agent = "") then (Pool tenant agent m).2 = Err ErrNotFound
      else ∃ rows, (Pool tenant agent m).2 = Ok (credential <$> rows) ∧ Sorted row_le rows ∧
        (∀ r, r ∈ rows ↔ (∃ id, rows_of tenant m !! id = Some r) ∧ disabledAt r = None ∧
           ((CredScope (credential r) = ScopeOwn ∧ CredOwnerUserID (credential r) = owner) ∨
            (CredScope (credential r) = ScopeShared ∧
             ∀ id' r', rows_of tenant m !! id' = Some r' → disabledAt r' = None →
               CredScope (credential r') = ScopeOwn →
               CredOwnerUserID (credential r') = owner →
               CredProvider (credential r') ≠ CredProvider (credential r)))) ∧
        (∀ r1 r2, r1 ∈ rows → r2 ∈ rows →
           CredProvider (credential r1) = CredProvider (credential r2) →
           CredScope (credential r1) = CredScope (credential r2))
  | None => (Pool tenant agent m).2 = Err ErrNotFound
  end.
Proof.
  unfold Pool. destruct (agentOwner m !! agent) as [owner|]; [|done].
  case_decide; [done|]. simpl. eexists. split; [done|].
  set (rows := rows_of tenant m).
  assert (Hmem : ∀ r, r ∈ merge_sort row_le (filter (λ r, pool_selects rows owner r = true)
                           (row_list rows)) ↔
     (∃ id, rows !! id = Some r) ∧ pool_selects rows owner r = true).
  { intros r. rewrite merge_sort_Permutation, list_elem_of_filter, elem_of_row_list. tauto. }
  split_and!.
  - apply Sorted_merge_sort, _.
  - intros r. rewrite Hmem, pool_selects_spec, no_enabled_own. tauto.
  - intros r1 r2 H1 H2 Hp. apply Hmem in H1 as [[i1 E1] S1], H2 as [[i2 E2] S2].
    apply pool_selects_spec in S1 as (D1 & [[A1 B1]|[A1 B1]]), S2 as (D2 & [[A2 B2]|[A2 B2]]);
      rewrite A1, A2; try done; exfalso.
    + rewrite no_enabled_own in B2. exact (B2 i1 r1 E1 D1 A1 B1 Hp).
    + rewrite no_enabled_own in B1. exact (B1 i2 r2 E2 D2 A2 B2 (eq_sym Hp)).
Qed.

(** The row with this id is in the agent's pool. *)
Definition listed_in_pool (tenant agent id : string) (m : Memory) : Prop :=
  ∃ L row, (Pool tenant agent m).2 = Ok L ∧ rows_of tenant m !! id = Some row ∧
    credential row ∈ L.

Lemma find_in_pool_listed tenant agent id m row :
  find_in_pool (rows_of tenant m) m agent id = Some row → agent ≠ "" →
  listed_in_pool tenant agent id m.
Proof.
  intros (Hr & o & Ho & Hs)%find_in_pool_Some Ha. unfold listed_in_pool, Pool. rewrite Ho.
  rewrite decide_False by done. do 2 eexists. split_and!; [done|done|].
  apply elem_of_sorted_credentials. exists row. split; [|done].
  apply list_elem_of_filter. split; [done|]. apply elem_of_row_list. by eexists.
Qed.

(** An id outside the caller's pool cannot be probed. Update and disable answer
    with anything other than an argument error or ErrNotFound only for an id that the
    agent's own pool lists; a missing row, a disabled row and a row of someone else's
    pool are indistinguishable. *)
Theorem mutation_only_in_pool tenant agent id tok expected cl now why m :
  match (UpdateOAuth tenant agent id tok expected cl m).2 with
  | Err ErrNotFound | Err (ErrInvalidArgument _) => True
  | _ => listed_in_pool tenant agent id m
  end ∧
  match (Disable now tenant agent id why expected m).2 with
  | Err ErrNotFound | Err (ErrInvalidArgument _) => True
  | _ => listed_in_pool tenant agent id m
  end.
Proof.
  unfold UpdateOAuth, Disable. split.
  - case_decide as Harg; [done|]. destruct (ValidOAuthClearFields cl); [|done]. simpl.
    destruct (find_in_pool _ _ _ _) as [row|] eqn:Hf; [|done].
    apply find_in_pool_listed in Hf; [|naive_solver]. repeat case_match; done.
  - case_decide as Harg; [done|].
    destruct (find_in_pool _ _ _ _) as [row|] eqn:Hf; [|done].
    apply find_in_pool_listed in Hf; [|naive_solver]. repeat case_match; done.
Qed.

Lemma add64_succ_ne v : in_i64 v → add64 v 1 ≠ v.
Proof.
  unfold in_i64, add64, i64, MinInt64, MaxInt64. intros Hv.
  destruct (decide (v = 2 ^ 63 - 1)) as [->|]; [by vm_compute|].
  rewrite Z.mod_small; lia.
Qed.

(** Writes are compare-and-set. An update that returns a version replaced a row
    whose version was exactly the expected one, with the merged grant and the next
    version, and touched no other row; no second update or disable with the same
    expected version succeeds after it, whoever calls it. *)
Theorem update_is_cas tenant agent id tok v cl m m' v' :
  in_i64 v → UpdateOAuth tenant agent id tok v cl m = (m', Ok v') →
  ∃ row old merged, rows_of tenant m !! id = Some row ∧ CredVersion (credential row) = v ∧
    oauth (credential row) = Some old ∧ mergeOAuth old tok cl = Ok merged ∧ v' = add64 v 1 ∧
    (∃ row', rows_of tenant m' !! id = Some row' ∧ oauth (credential row') = Some merged ∧
       CredVersion (credential row') = v' ∧ disabledAt row' = None) ∧
    (∀ id', id' ≠ id → rows_of tenant m' !! id' = rows_of tenant m !! id') ∧
    (∀ agent2 tok2 cl2 n, (UpdateOAuth tenant agent2 id tok2 v cl2 m').2 ≠ Ok n) ∧
    (∀ agent2 now why u, (Disable now tenant agent2 id why v m').2 ≠ Ok u).
Proof.
  intros Hv Hup. unfold UpdateOAuth in Hup. case_decide as Harg; [done|].
  destruct (ValidOAuthClearFields cl) eqn:Hcl; [|done]. simpl in Hup.
  destruct (find_in_pool _ _ _ _) as [row|] eqn:Hf; [|done].
  destruct (oauth (credential row)) as [old|] eqn:Ho; [|done].
  case_decide as Hver; [done|].
  destruct (mergeOAuth old tok cl) as [merged| |] eqn:Hm; [|done..]. simplify_eq.
  pose proof (find_in_pool_enabled _ _ _ _ _ Hf) as [Hr He].
  apply bool_decide_eq_true in He.
  exists row, old, merged.
  assert (Hrow : ∀ row', rows_of tenant (put_rows tenant
     (<[id:=MkRow (set_id_version (NewOAuthCredential (credential row) merged)
        (CredID (credential row)) (add64 (CredVersion (credential row)) 1))
        (created row) (disabledAt row) (cause row)]> (rows_of tenant m)) m) !! id = Some row' →
     CredVersion (credential row') ≠ CredVersion (credential row)).
  { intros row'. rewrite rows_of_put, decide_True, lookup_insert_eq by done.
    intros [= <-]. simpl. by apply add64_succ_ne. }
  split_and!; try done.
  - eexists. rewrite rows_of_put, decide_True, lookup_insert_eq by done. done.
  - intros id' Hne. rewrite rows_of_put, decide_True by done. by rewrite lookup_insert_ne.
  - intros agent2 tok2 cl2 n. unfold UpdateOAuth. case_decide; [done|].
    destruct (ValidOAuthClearFields cl2); [|done]. simpl.
    destruct (find_in_pool _ _ agent2 id) as [row'|] eqn:Hf'; [|done].
    apply find_in_pool_enabled in Hf' as [Hr' _]. destruct (oauth (credential row')); [|done].
    case_decide as Hver'; [done|]. by destruct (Hrow row' Hr').
  - intros agent2 now why u. unfold Disable. case_decide; [done|].
    destruct (find_in_pool _ _ agent2 id) as [row'|] eqn:Hf'; [|done].
    apply find_in_pool_enabled in Hf' as [Hr' _].
    case_decide as Hver'; [done|]. by destruct (Hrow row' Hr').
Qed.

(** A disabled credential stays out of every pool. After a successful disable, and
    any further calls that do not create the same random id again, no pool and no list
    of the tenant holds the credential, for any agent, owner or provider, and neither an
    update nor a disable of it succeeds. *)
Theorem disable_is_final now tenant agent id why v m m' os :
  rows_ok (rows_of tenant m) →
  Disable now tenant agent id why v m = (m', Ok tt) →
  Forall (λ o, match o with OpCreate t (Some i) _ => t = tenant → i ≠ id | _ => True end) os →
  let m2 := run m' os in
  (∀ a L, (Pool tenant a m2).2 = Ok L → id ∉ CredID <$> L) ∧
  (∀ w p, id ∉ CredID <$> (List_ tenant w p m2).2) ∧
  (∀ a tok e cl n, (UpdateOAuth tenant a id tok e cl m2).2 ≠ Ok n) ∧
  (∀ a n y e u, (Disable n tenant a id y e m2).2 ≠ Ok u).
Proof.
  intros Hok Hdis Hos m2. assert (disabled_row tenant id m2) as Hrow.
  { eapply run_disabled; [done|]. split; [|by eapply disable_writes].
    pose proof (step_rows m (OpDisable now tenant agent id why v) tenant) as [Hch _].
    simpl in Hch. rewrite Hdis in Hch. by eapply row_change_ok. }
  split_and!.
  - intros a L. by apply disabled_not_in_pool.
  - intros w p. by apply disabled_not_listed.
  - intros a tok e cl n. unfold UpdateOAuth. case_decide; [done|].
    destruct (ValidOAuthClearFields cl); [|done]. simpl. by rewrite disabled_not_found.
  - intros a n y e u. unfold Disable. case_decide; [done|]. by rewrite disabled_not_found.
Qed.

Lemma step_owner m o : (∀ a w, o ≠ OpSetAgentOwner a w) → agentOwner (step m o) = agentOwner m.
Proof.
  intros Hno. destruct o; simpl; [naive_solver|..];
    unfold Create, Pool, UpdateOAuth, Disable; repeat case_match; done.
Qed.

(** Tenants are isolated. Calls under other tenants, whatever they are and however
    many, change nothing another tenant's agents can see: its pools, its lists and the
    outcome of its updates stay the same. *)
Theorem tenants_isolated tenant m os agent owner provider id tok e cl :
  Forall (λ o, ∃ t, op_tenant o = Some t ∧ t ≠ tenant) os →
  (Pool tenant agent (run m os)).2 = (Pool tenant agent m).2 ∧
  (List_ tenant owner provider (run m os)).2 = (List_ tenant owner provider m).2 ∧
  (UpdateOAuth tenant agent id tok e cl (run m os)).2 = (UpdateOAuth tenant agent id tok e cl m).2.
Proof.
  intros Hos.
  assert (rows_of tenant (run m os) = rows_of tenant m ∧
                  agentOwner (run m os) = agentOwner m) as [Hrows Howner].
  { revert m. induction Hos as [|o os (t & Ht & Hne) _ IH]; intros m; [done|].
    simpl. destruct (IH (step m o)) as [-> ->]. split.
    - apply step_rows. rewrite Ht. naive_solver.
    - apply step_owner. intros a w ->. done. }
  split_and!.
  - unfold Pool. rewrite Howner, Hrows. repeat case_match; done.
  - unfold List_. by rewrite Hrows.
  - unfold UpdateOAuth, find_in_pool. rewrite Howner, Hrows. repeat case_match; done.
Qed.

(** Merging a refreshed grant. For clear names the request check accepts, the merge
    never panics; every metadata field ends empty if it was named, else as the new grant
    gives it, else as stored; and the grant itself (access, refresh, expiry) is never
    cleared. *)
Theorem merge_oauth_fields old next cl :
  if ValidOAuthClearFields cl then
    ∃ t, mergeOAuth old next cl = Ok t ∧
      Access t = keep_str (Access next) (Access old) ∧
      Refresh t = keep_str (Refresh next) (Refresh old) ∧
      ExpiresUnixMs t = keep_int (ExpiresUnixMs next) (ExpiresUnixMs old) ∧
      AuthorizedAtUnixMs t =
        (if decide ("authorized_at_unix_ms" ∈ cl) then 0
         else keep_int (AuthorizedAtUnixMs next) (AuthorizedAtUnixMs old)) ∧
      Forall (λ ng, ng.2 t = if decide (ng.1 ∈ cl) then "" else keep_str (ng.2 next) (ng.2 old))
        text_fields
  else ∀ tenant agent id e m, ∃ s,
    (UpdateOAuth tenant agent id next e cl m).2 = Err (ErrInvalidArgument s).
Proof.
  destruct (ValidOAuthClearFields cl) eqn:Hv.
  - destruct (clear_fields_spec cl (merge_fields old next) Hv) as (t & H0 & H1 & H2 & H3 & H4 & H5).
    exists t. unfold mergeOAuth. split_and!; [done..|].
    assert (Hmf : Forall (λ ng, ng.2 (merge_fields old next) =
              keep_str (ng.2 next) (ng.2 old)) text_fields) by (by repeat constructor).
    rewrite Forall_forall in H5, Hmf |- *. intros ng Hng.
    by rewrite (H5 ng Hng), (Hmf ng Hng).
  - intros. unfold UpdateOAuth. rewrite Hv. case_decide; by eexists.
Qed.

(** * The theorems at concrete inputs *)

Definition demo_tok (a : string) : OAuthToken := MkOAuthToken a "r" 9 "" "" "" "" "" "" "" 0 "" "" "".
Definition demo_own : Credential :=
  NewOAuthCredential (MkCredential "" "anthropic" ScopeOwn "user" 0 "" None) (demo_tok "a1").
Definition demo_shared : Credential :=
  NewAPIKeyCredential (MkCredential "" "anthropic" ScopeShared "" 0 "" None) "key".

Definition demo_store : Memory :=
  run NewMemory [OpSetAgentOwner "agent" "user"; OpCreate "t" (Some "own") demo_own;
                 OpCreate "t" (Some "shared") demo_shared].

Lemma demo_rows_ok : rows_ok (rows_of "t" demo_store).
Proof. apply run_rows_ok. intros id r Hr. done. Qed.

Lemma update_is_cas_witness :
  ∃ m', UpdateOAuth "t" "agent" "own" (demo_tok "a2") 1 [] demo_store = (m', Ok 2) ∧
    ∀ agent2 tok2 cl2 n, (UpdateOAuth "t" agent2 "own" tok2 1 cl2 m').2 ≠ Ok n.
Proof.
  eexists. split; [reflexivity|].
  destruct (update_is_cas "t" "agent" "own" (demo_tok "a2") 1 [] demo_store _ 2
    ltac:(unfold in_i64, MinInt64, MaxInt64; lia) eq_refl)
    as (row & old & merged & _ & _ & _ & _ & _ & _ & _ & Hup & _).
  exact Hup.
Defined.

Lemma disable_is_final_witness :
  ∃ m', Disable 5 "t" "agent" "own" "revoked" 1 demo_store = (m', Ok tt) ∧
    ∀ a L, (Pool "t" a (run m' [OpCreate "t" (Some "own2") demo_own])).2 = Ok L →
      "own" ∉ CredID <$> L.
Proof.
  eexists. split; [reflexivity|].
  refine (proj1 (disable_is_final 5 "t" "agent" "own" "revoked" 1 demo_store _
    [OpCreate "t" (Some "own2") demo_own] demo_rows_ok eq_refl _)).
  constructor; [done|constructor].
Defined.

Lemma tenants_isolated_witness :
  (Pool "t" "agent" (run demo_store [OpCreate "u" (Some "x") demo_own])).2 =
  (Pool "t" "agent" demo_store).2.
Proof.
  refine (proj1 (tenants_isolated "t" demo_store [OpCreate "u" (Some "x") demo_own]
    "agent" "" "" "" (demo_tok "") 1 [] _)).
  constructor; [by exists "u"|constructor].
Defined.
