(* ===== verification/Refs.v ===== *)
(** Work references in text ([go/internal/refs/refs.go]): the byte classes, the
    matchers of a tracker key ([RIG-12]) and of a forge ref ([owner/repo#12]),
    [Parse], [String] and [Scan]. The theorems: the canonical text of a reference
    parses back to it and every parsed reference is canonical; [Scan] finds
    exactly the references that stand on token edges outside URL tokens. *)
From stdpp Require Import base list strings.
From Stdlib Require Import ZArith Lia Ascii.
From S2P Require Import Prelude Text.

Open Scope nat_scope.

Module Refs.

Inductive Kind := KindTracker | KindForge.

Record Ref := mkRef {
  kind : Kind;
  key : bytes;
  owner : bytes;
  repo : bytes;
  num : N;
}.

Record Span := mkSpan { Start : nat; End : nat; ref : Ref }.

Definition maxKeyLen : nat := 10.
Definition MaxNumber : N := 2 ^ 53 - 1.

(** ** Byte classes *)

Definition isUpper (c : ascii) : bool := (65 <=? code c) && (code c <=? 90).
Definition isDigit (c : ascii) : bool := is_digit c.
Definition isWord (c : ascii) : bool :=
  isDigit c || isUpper c || ((97 <=? code c) && (code c <=? 122)) || bool_decide (c = "_"%char).
Definition isNameByte (c : ascii) : bool :=
  isWord c || bool_decide (c = "."%char) || bool_decide (c = "-"%char).
(** The closure [matchTracker] runs over the rest of a key. *)
Definition isKeyByte (c : ascii) : bool := isUpper c || isDigit c.
Definition isSpace (c : ascii) : bool :=
  bool_decide (c = " "%char) || (code c =? 9) || (code c =? 10) || (code c =? 13).
Definition blocksStart (c : ascii) : bool :=
  isNameByte c || bool_decide (c = "/"%char) || bool_decide (c = "#"%char).
Definition blocksEnd (c : ascii) : bool :=
  isWord c || bool_decide (c = "/"%char) || bool_decide (c = "#"%char) || bool_decide (c = "-"%char).

(** ** Matchers *)

Definition number (s : bytes) (i : nat) : option (N * nat) :=
  let e := run s i isDigit in
  if e =? i then None
  else match ParseUint (slice s i e) with
       | None => None
       | Some n => if (MaxNumber <? n)%N then None else Some (n, e)
       end.

Definition matchForge (s : bytes) (i : nat) : option (Ref * nat) :=
  let ownerEnd := run s i isNameByte in
  if (ownerEnd =? i) || (length s <=? ownerEnd) || negb (is_byte s ownerEnd "/") then None
  else
    let repoEnd := run s (ownerEnd + 1) isNameByte in
    if (repoEnd =? ownerEnd + 1) || (length s <=? repoEnd) || negb (is_byte s repoEnd "#") then None
    else
      match number s (repoEnd + 1) with
      | None => None
      | Some (n, e) =>
          Some (mkRef KindForge [] (ToLower (slice s i ownerEnd))
                  (ToLower (slice s (ownerEnd + 1) repoEnd)) n, e)
      end.

Definition matchTracker (s : bytes) (i : nat) : option (Ref * nat) :=
  match s !! i with
  | None => None
  | Some c =>
      if negb (isUpper c) then None
      else
        let keyEnd := run s (i + 1) isKeyByte in
        let keyLen := keyEnd - i in
        if (keyLen <? 2) || (maxKeyLen <? keyLen) || (length s <=? keyEnd)
           || negb (is_byte s keyEnd "-") then None
        else
          match number s (keyEnd + 1) with
          | None => None
          | Some (n, e) => Some (mkRef KindTracker (slice s i keyEnd) [] [] n, e)
          end
  end.

Definition matchAt (s : bytes) (i : nat) : option (Ref * nat) :=
  match matchForge s i with
  | Some m => Some m
  | None => matchTracker s i
  end.

(** [ErrInvalid] is the one error. *)
Definition Parse (s : bytes) : option Ref :=
  match matchAt s 0 with
  | Some (r, e) => if e =? length s then Some r else None
  | None => None
  end.

Definition String (r : Ref) : bytes :=
  match kind r with
  | KindForge => owner r ++ "/"%char :: repo r ++ "#"%char :: FormatUint (num r)
  | KindTracker => key r ++ "-"%char :: FormatUint (num r)
  end.

(** ** Scan *)

Definition tokenEnd (s : bytes) (i : nat) : nat := run s i (λ c, negb (isSpace c)).

(** The byte before [i] satisfies [p]. *)
Definition prev_is (s : bytes) (i : nat) (p : ascii → bool) : bool :=
  match i with
  | O => false
  | S j => match s !! j with Some c => p c | None => false end
  end.

(** The byte at [i] satisfies [p]. *)
Definition next_is (s : bytes) (i : nat) (p : ascii → bool) : bool :=
  match s !! i with Some c => p c | None => false end.

(** The loop of [Scan] from index [i]; [None] when the fuel is spent. *)
Fixpoint scan_loop (fuel : nat) (text : bytes) (i : nat) : option (list Span) :=
  if length text <=? i then Some []
  else
    match fuel with
    | O => None
    | S fuel' =>
        if ((i =? 0) || prev_is text i isSpace)
           && contains (slice text i (tokenEnd text i)) (lit "://")
        then scan_loop fuel' text (tokenEnd text i + 1)
        else if prev_is text i blocksStart then scan_loop fuel' text (i + 1)
        else
          match matchAt text i with
          | None => scan_loop fuel' text (i + 1)
          | Some (r, e) =>
              if next_is text e blocksEnd then scan_loop fuel' text (i + 1)
              else match scan_loop fuel' text e with
                   | Some spans => Some (mkSpan i e r :: spans)
                   | None => None
                   end
          end
    end.

Definition Scan (text : bytes) : option (list Span) := scan_loop (length text) text 0.

(** ** The canonical references *)

Definition lower_name (s : bytes) : bool :=
  negb (bool_decide (s = [])) && forallb (λ c, isNameByte c && negb (isUpper c)) s.

Definition canonical (r : Ref) : bool :=
  (num r <=? MaxNumber)%N &&
  match kind r with
  | KindForge => bool_decide (key r = []) && lower_name (owner r) && lower_name (repo r)
  | KindTracker =>
      bool_decide (owner r = []) && bool_decide (repo r = []) &&
      (2 <=? length (key r)) && (length (key r) <=? maxKeyLen) &&
      match key r with
      | c :: k => isUpper c && forallb isKeyByte k
      | [] => false
      end
  end.

(** ** Facts of the matchers *)

Lemma isDigit_name c : isDigit c = true → isNameByte c = true.
Proof. unfold isNameByte, isWord. by intros ->. Qed.

Lemma keyByte_name c : isKeyByte c = true → isNameByte c = true.
Proof.
  unfold isKeyByte, isNameByte, isWord. intros [->| ->]%orb_true_iff; [|done]. by rewrite orb_true_r.
Qed.

Lemma number_Some s i n e :
  i ≤ length s → number s i = Some (n, e) →
  i < e ∧ e ≤ length s ∧ e = run s i isDigit ∧ ParseUint (slice s i e) = Some n ∧ (n ≤ MaxNumber)%N.
Proof.
  intros Hi. unfold number. pose proof (run_ge s isDigit i). pose proof (run_le s isDigit i Hi).
  destruct (Nat.eqb_spec (run s i isDigit) i); [done|].
  destruct (ParseUint _) as [m|] eqn:Hp; [|done].
  destruct (N.ltb_spec MaxNumber m); [done|]. intros [= <- <-]. split_and!; (done || lia).
Qed.

(** A match, as the list of the bytes it is made of. *)
Definition forge_shape (s : bytes) (i : nat) (r : Ref) (e : nat) : Prop :=
  ∃ a b, i < a ∧ a + 1 < b ∧ b + 1 < e ∧ e ≤ length s
    ∧ a = run s i isNameByte ∧ s !! a = Some "/"%char
    ∧ b = run s (a + 1) isNameByte ∧ s !! b = Some "#"%char
    ∧ number s (b + 1) = Some (num r, e)
    ∧ r = mkRef KindForge [] (ToLower (slice s i a)) (ToLower (slice s (a + 1) b)) (num r).

Definition tracker_shape (s : bytes) (i : nat) (r : Ref) (e : nat) : Prop :=
  ∃ c a, s !! i = Some c ∧ isUpper c = true ∧ i + 2 ≤ a ∧ a ≤ i + maxKeyLen
    ∧ a + 1 < e ∧ e ≤ length s
    ∧ a = run s (i + 1) isKeyByte ∧ s !! a = Some "-"%char
    ∧ number s (a + 1) = Some (num r, e)
    ∧ r = mkRef KindTracker (slice s i a) [] [] (num r).

Lemma matchForge_spec s i r e :
  i ≤ length s → matchForge s i = Some (r, e) ↔ forge_shape s i r e.
Proof.
  intros Hi. unfold matchForge. split.
  - pose proof (run_ge s isNameByte i) as Hge.
    destruct (Nat.eqb_spec (run s i isNameByte) i) as [|Hne]; [done|].
    destruct (Nat.leb_spec (length s) (run s i isNameByte)) as [|Hlt]; [done|].
    destruct (is_byte s (run s i isNameByte) "/") eqn:Hsl; [|done]. cbn [orb negb].
    apply is_byte_spec in Hsl.
    pose proof (run_ge s isNameByte (run s i isNameByte + 1)) as Hge2.
    destruct (Nat.eqb_spec (run s (run s i isNameByte + 1) isNameByte) (run s i isNameByte + 1))
      as [|Hne2]; [done|].
    destruct (Nat.leb_spec (length s) (run s (run s i isNameByte + 1) isNameByte)) as [|Hlt2]; [done|].
    destruct (is_byte s (run s (run s i isNameByte + 1) isNameByte) "#") eqn:Hh; [|done].
    cbn [orb negb]. apply is_byte_spec in Hh.
    destruct (number _ _) as [[n e']|] eqn:Hn; [|done]. intros [= <- <-].
    pose proof Hn as Hn'; apply number_Some in Hn' as (? & ? & _); [|lia].
    exists (run s i isNameByte), (run s (run s i isNameByte + 1) isNameByte).
    split_and!; (done || lia).
  - intros (a & b & Hia & Hab & Hbe & He & Ha & Hsl & Hb & Hh & Hn & ->).
    rewrite <- Ha. rewrite <- Hb.
    apply is_byte_spec in Hsl as ->. apply is_byte_spec in Hh as ->.
    rewrite (proj2 (Nat.eqb_neq a i)), (proj2 (Nat.leb_gt (length s) a)) by lia. cbn [orb negb].
    rewrite (proj2 (Nat.eqb_neq b (a + 1))), (proj2 (Nat.leb_gt (length s) b)) by lia. cbn [orb negb].
    by rewrite Hn.
Qed.

Lemma matchTracker_spec s i r e :
  matchTracker s i = Some (r, e) ↔ tracker_shape s i r e.
Proof.
  unfold matchTracker, tracker_shape. split.
  - destruct (s !! i) as [c|] eqn:Hc; [|done].
    destruct (isUpper c) eqn:Hu; [|done]. cbn [negb].
    destruct (Nat.ltb_spec (run s (i + 1) isKeyByte - i) 2) as [|H2]; [done|].
    destruct (Nat.ltb_spec maxKeyLen (run s (i + 1) isKeyByte - i)) as [|Hm]; [done|].
    destruct (Nat.leb_spec (length s) (run s (i + 1) isKeyByte)) as [|Hl]; [done|].
    destruct (is_byte s _ "-") eqn:Hd; [|done]. cbn [orb negb]. apply is_byte_spec in Hd.
    destruct (number _ _) as [[n e']|] eqn:Hn; [|done]. intros [= <- <-].
    pose proof Hn as Hn'; apply number_Some in Hn' as (? & ? & _); [|lia].
    exists c, (run s (i + 1) isKeyByte). split_and!; (done || lia).
  - intros (c & a & -> & -> & H2 & Hm & Hae & He & Ha & Hd & Hn & ->). cbn [negb].
    rewrite <- Ha. apply is_byte_spec in Hd as ->.
    rewrite (proj2 (Nat.ltb_ge (a - i) 2)), (proj2 (Nat.ltb_ge maxKeyLen (a - i))),
      (proj2 (Nat.leb_gt (length s) a)) by lia. cbn [orb negb]. by rewrite Hn.
Qed.

Lemma matchAt_Some s i r e :
  i ≤ length s → matchAt s i = Some (r, e) →
  forge_shape s i r e ∨ tracker_shape s i r e.
Proof.
  intros Hi. unfold matchAt. destruct (matchForge s i) as [[r' e']|] eqn:Hf.
  - intros [= <- <-]. left. by apply matchForge_spec.
  - intros ?. right. by apply matchTracker_spec.
Qed.

Lemma matchAt_bounds s i r e :
  i ≤ length s → matchAt s i = Some (r, e) → i < e ∧ e ≤ length s.
Proof.
  intros Hi Hm. destruct (matchAt_Some _ _ _ _ Hi Hm) as [(a & b & H)|(c & a & H)];
    destruct_and! H; lia.
Qed.

(** ** Locality: a match depends on its own bytes only *)

Lemma run_slice s i e k p :
  i ≤ k → k ≤ run s k p → run s k p ≤ e → e ≤ length s →
  run (slice s i e) (k - i) p = run s k p - i.
Proof.
  intros Hik Hk Hr He. pose proof (length_slice s i e ltac:(lia) He) as Hlen.
  apply run_unique; [lia|lia|..].
  - intros j c Hj Hlt Hc. rewrite lookup_slice in Hc by lia.
    apply (run_in s p k (i + j)); [lia|lia|done].
  - intros c Hc. pose proof (lookup_lt_Some _ _ _ Hc). rewrite lookup_slice in Hc by lia.
    apply (run_stop s p k). rewrite <- Hc. f_equal. lia.
Qed.

Lemma number_slice s i k n e :
  i ≤ k → k ≤ length s → number s k = Some (n, e) →
  number (slice s i e) (k - i) = Some (n, e - i).
Proof.
  intros Hik Hk Hn. pose proof Hn as Hn'. apply number_Some in Hn' as (Hlt & He & Hr & Hp & Hm); [|done].
  unfold number. rewrite run_slice by lia. rewrite <- Hr.
  rewrite (proj2 (Nat.eqb_neq (e - i) (k - i))) by lia.
  rewrite slice_slice by lia. replace (i + (k - i)) with k by lia.
  replace (i + (e - i)) with e by lia. rewrite Hp.
  by rewrite (proj2 (N.ltb_ge MaxNumber n)).
Qed.

Lemma forge_shape_slice s i r e :
  forge_shape s i r e → forge_shape (slice s i e) 0 r (e - i).
Proof.
  intros (a & b & Hia & Hab & Hbe & He & Ha & Hsl & Hb & Hh & Hn & Hr).
  exists (a - i), (b - i). rewrite length_slice by lia.
  split_and!; [lia..| | | | | |].
  - pose proof (run_slice s i e i isNameByte) as H. rewrite Nat.sub_diag in H. rewrite H; lia.
  - rewrite lookup_slice by lia. by replace (i + (a - i)) with a by lia.
  - replace (a - i + 1) with (a + 1 - i) by lia. rewrite run_slice; lia.
  - rewrite lookup_slice by lia. by replace (i + (b - i)) with b by lia.
  - replace (b - i + 1) with (b + 1 - i) by lia. apply number_slice; [lia|lia|done].
  - rewrite !slice_slice by lia. rewrite Nat.add_0_r.
    replace (i + (a - i)) with a by lia. replace (i + (b - i)) with b by lia.
    by replace (i + (a - i + 1)) with (a + 1) by lia.
Qed.

Lemma tracker_shape_slice s i r e :
  tracker_shape s i r e → tracker_shape (slice s i e) 0 r (e - i).
Proof.
  intros (c & a & Hc & Hu & H2 & Hm & Hae & He & Ha & Hd & Hn & Hr).
  exists c, (a - i). rewrite length_slice by lia.
  split_and!; [|done|lia|lia|lia|lia| | | |].
  - rewrite lookup_slice by lia. by rewrite Nat.add_0_r.
  - replace (0 + 1) with (i + 1 - i) by lia. rewrite run_slice; lia.
  - rewrite lookup_slice by lia. by replace (i + (a - i)) with a by lia.
  - replace (a - i + 1) with (a + 1 - i) by lia. apply number_slice; [lia|lia|done].
  - rewrite slice_slice by lia. rewrite Nat.add_0_r. by replace (i + (a - i)) with a by lia.
Qed.

(** Name bytes only: no forge ref. *)
Lemma matchForge_name_only s :
  (∀ j c, s !! j = Some c → isNameByte c = true) → matchForge s 0 = None.
Proof.
  intros Hall. destruct (matchForge s 0) as [[r e]|] eqn:Hf; [|done].
  apply matchForge_spec in Hf; [|lia]. destruct Hf as (a & b & H). destruct_and! H.
  by match goal with H : s !! a = Some _ |- _ => apply Hall in H end.
Qed.

Lemma tracker_shape_names s i r e j c :
  tracker_shape s i r e → slice s i e !! j = Some c → isNameByte c = true.
Proof.
  intros (d & a & Hd & Hu & H2 & Hm & Hae & He & Ha & Hda & Hn & Hr) Hc.
  pose proof (lookup_lt_Some _ _ _ Hc) as Hlt. rewrite length_slice in Hlt by lia.
  rewrite lookup_slice in Hc by lia. apply number_Some in Hn as (_ & _ & He' & _); [|lia].
  destruct (decide (j = 0)) as [->|]; [rewrite Nat.add_0_r in Hc; apply keyByte_name; simplify_eq; unfold isKeyByte; by rewrite Hu|].
  destruct (decide (i + j < a)).
  { apply keyByte_name. apply (run_in s _ (i + 1) (i + j)); [lia|lia|done]. }
  destruct (decide (i + j = a)) as [Hj|]; [rewrite Hj in Hc; by simplify_eq|].
  apply isDigit_name, (run_in s _ (a + 1) (i + j)); [lia|lia|done].
Qed.

Lemma matchAt_slice s i r e :
  i ≤ length s → matchAt s i = Some (r, e) → Parse (slice s i e) = Some r.
Proof.
  intros Hi Hm. pose proof (matchAt_bounds _ _ _ _ Hi Hm) as [Hlt He].
  unfold Parse, matchAt. rewrite length_slice by lia.
  destruct (matchAt_Some _ _ _ _ Hi Hm) as [Hs|Hs].
  - apply forge_shape_slice, matchForge_spec in Hs; [|lia]. rewrite Hs. by rewrite Nat.eqb_refl.
  - rewrite matchForge_name_only by (intros; by eapply tracker_shape_names).
    apply tracker_shape_slice, matchTracker_spec in Hs. rewrite Hs. by rewrite Nat.eqb_refl.
Qed.

(** ** Round trip *)

Lemma lower_byte_name c :
  isNameByte c = true → isNameByte (lower_byte c) && negb (isUpper (lower_byte c)) = true.
Proof. destruct c as [[] [] [] [] [] [] [] []]; by vm_compute. Qed.

Lemma lower_byte_id c : isUpper c = false → lower_byte c = c.
Proof. unfold isUpper, lower_byte. by intros ->. Qed.

Lemma ToLower_lower_name s : lower_name s = true → ToLower s = s.
Proof.
  intros [_ H]%andb_prop. unfold ToLower.
  induction s as [|c s IH]; [done|]. apply andb_prop in H as [Hc Hs].
  apply andb_prop in Hc as [_ Hc]. rewrite fmap_cons, IH by done.
  by rewrite lower_byte_id by (by apply negb_true_iff).
Qed.

Lemma lower_name_names s : lower_name s = true → s ≠ [] ∧ forallb isNameByte s = true.
Proof.
  intros [Hne H]%andb_prop. split; [by apply negb_true_iff, bool_decide_eq_false in Hne|].
  rewrite forallb_forall in *. intros c Hc. by apply H, andb_prop in Hc as [].
Qed.

Lemma ToLower_run_name s i :
  i < run s i isNameByte → i ≤ length s → lower_name (ToLower (slice s i (run s i isNameByte))) = true.
Proof.
  intros Hlt Hi. pose proof (forallb_slice_run s i isNameByte Hi) as Hall.
  pose proof (length_slice s i _ (run_ge s isNameByte i) (run_le s isNameByte i Hi)) as Hlen.
  unfold lower_name. apply andb_true_intro. split.
  - apply negb_true_iff, bool_decide_eq_false. unfold ToLower.
    intros H%(f_equal length). rewrite length_fmap, Hlen in H. simpl in H. lia.
  - unfold ToLower. rewrite forallb_forall in *. intros c Hc.
    apply list_elem_of_In, list_elem_of_fmap in Hc as (d & -> & Hd).
    apply lower_byte_name, Hall. by apply list_elem_of_In.
Qed.

Lemma Parse_canonical s r : Parse s = Some r → canonical r = true.
Proof.
  unfold Parse. destruct (matchAt s 0) as [[r' e]|] eqn:Hm; [|done].
  destruct (e =? length s); [|done]. intros [= ->].
  destruct (matchAt_Some _ _ _ _ (Nat.le_0_l _) Hm)
    as [(a & b & Hia & Hab & Hbe & He & Ha & Hsl & Hb & Hh & Hn & ->)
       |(c & a & Hc & Hu & H2 & Hm' & Hae & He & Ha & Hd & Hn & ->)];
    apply number_Some in Hn as (_ & _ & _ & _ & Hn); try lia; unfold canonical; cbn [num kind key owner repo] in *.
  - rewrite (proj2 (N.leb_le _ _) Hn). rewrite Hb. rewrite ToLower_run_name by lia.
    rewrite Ha, ToLower_run_name by lia. done.
  - rewrite (proj2 (N.leb_le _ _) Hn). rewrite length_slice by lia.
    rewrite (proj2 (Nat.leb_le 2 (a - 0))), (proj2 (Nat.leb_le (a - 0) maxKeyLen)) by lia.
    pose proof (forallb_slice_run s (0 + 1) isKeyByte ltac:(lia)) as Hall. rewrite <- Ha in Hall.
    destruct s as [|c' s]; [done|]. injection Hc as ->.
    unfold slice in *. rewrite drop_0. rewrite Nat.sub_0_r. destruct a as [|a]; [lia|].
    simpl in *. rewrite Hu. rewrite drop_0, Nat.sub_0_r in Hall. by rewrite Hall.
Qed.

Lemma number_app s1 n :
  (n ≤ MaxNumber)%N →
  number (s1 ++ FormatUint n) (length s1) = Some (n, length (s1 ++ FormatUint n)).
Proof.
  intros Hn. destruct (FormatUint_spec n) as (Hne & Hd & _).
  assert (Hr : run (s1 ++ FormatUint n) (length s1) isDigit = length (s1 ++ FormatUint n)).
  { pose proof (run_app isDigit s1 (FormatUint n) [] Hd) as H. rewrite app_nil_r in H.
    rewrite H, length_app by done. done. }
  unfold number. rewrite Hr. rewrite length_app.
  rewrite (proj2 (Nat.eqb_neq _ _)) by (destruct (FormatUint n); simpl; [done|lia]).
  pose proof (slice_mid s1 (FormatUint n) []) as Hsl. rewrite app_nil_r in Hsl. rewrite Hsl.
  rewrite ParseUint_FormatUint; [|unfold MaxNumber in Hn; lia].
  by rewrite (proj2 (N.ltb_ge _ _) Hn).
Qed.

Lemma Parse_String_forge o p n :
  lower_name o = true → lower_name p = true → (n ≤ MaxNumber)%N →
  Parse (o ++ "/"%char :: p ++ "#"%char :: FormatUint n) = Some (mkRef KindForge [] o p n).
Proof.
  intros Ho Hp Hn. pose proof (ToLower_lower_name o Ho) as Hol. pose proof (ToLower_lower_name p Hp) as Hpl.
  apply lower_name_names in Ho as [Hone Ho]. apply lower_name_names in Hp as [Hpne Hp].
  set (s := o ++ _).
  set (s1 := o ++ ["/"%char]). set (s2 := s1 ++ p ++ ["#"%char]).
  assert (E1 : s = s1 ++ p ++ "#"%char :: FormatUint n) by (unfold s, s1; by rewrite <- app_assoc).
  assert (E2 : s = s2 ++ FormatUint n) by (unfold s2; by rewrite E1, <- !app_assoc).
  assert (L1 : length s1 = length o + 1) by (unfold s1; by rewrite length_app).
  assert (L2 : length s2 = length s1 + length p + 1)
    by (unfold s2; rewrite !length_app; simpl; lia).
  assert (Hlen : length s = length s2 + length (FormatUint n)) by (by rewrite E2, length_app).
  assert (Hd : FormatUint n ≠ []) by apply FormatUint_spec.
  assert (0 < length o) by (destruct o; simpl; [done|lia]).
  assert (0 < length p) by (destruct p; simpl; [done|lia]).
  assert (0 < length (FormatUint n)) by (destruct (FormatUint n); simpl; [done|lia]).
  assert (Hf : matchForge s 0 = Some (mkRef KindForge [] o p n, length s)).
  { apply matchForge_spec; [lia|]. exists (length o), (length s1 + length p).
    split_and!; [lia..| | | | | |].
    - unfold s. symmetry. apply (run_app isNameByte [] o); [done|]. by intros c [= <-].
    - unfold s. by rewrite lookup_app_r, Nat.sub_diag by lia.
    - rewrite <- L1, E1. symmetry. apply run_app; [done|]. by intros c [= <-].
    - rewrite E1. rewrite lookup_app_r by lia. rewrite lookup_app_r by lia.
      by replace (length s1 + length p - length s1 - length p) with 0 by lia.
    - rewrite <- L2, E2. by apply number_app.
    - rewrite <- L1. rewrite E1 at 2. rewrite slice_mid, Hpl. simpl.
      unfold s at 1. rewrite slice_app. by rewrite Hol. }
  unfold Parse, matchAt. by rewrite Hf, Nat.eqb_refl.
Qed.

Lemma Parse_String_tracker c k n :
  isUpper c = true → forallb isKeyByte k = true → 1 ≤ length k → S (length k) ≤ maxKeyLen →
  (n ≤ MaxNumber)%N →
  Parse ((c :: k) ++ "-"%char :: FormatUint n) = Some (mkRef KindTracker (c :: k) [] [] n).
Proof.
  intros Hc Hk Hk1 Hk2 Hn. set (s := (c :: k) ++ _).
  set (s1 := (c :: k) ++ ["-"%char]).
  assert (E1 : s = s1 ++ FormatUint n) by (unfold s, s1; by rewrite <- app_assoc).
  assert (L1 : length s1 = length k + 2) by (unfold s1; rewrite length_app; simpl; lia).
  assert (Hlen : length s = length s1 + length (FormatUint n)) by (by rewrite E1, length_app).
  destruct (FormatUint_spec n) as (Hd & Hdd & _).
  assert (0 < length (FormatUint n)) by (destruct (FormatUint n); simpl; [done|lia]).
  assert (Ht : tracker_shape s 0 (mkRef KindTracker (c :: k) [] [] n) (length s)).
  { exists c, (S (length k)). split_and!; [done|done|lia|lia|lia|lia| | | |].
    - unfold s. symmetry. apply (run_app isKeyByte [c] k ("-"%char :: FormatUint n)); [done|].
      by intros d [= <-].
    - unfold s. rewrite lookup_app_r by (simpl; lia). simpl. by rewrite Nat.sub_diag.
    - replace (S (length k) + 1) with (length s1) by lia. rewrite E1. by apply number_app.
    - f_equal. unfold s. by rewrite (slice_app (c :: k)). }
  unfold Parse, matchAt. rewrite matchForge_name_only.
  - apply matchTracker_spec in Ht as ->. by rewrite Nat.eqb_refl.
  - intros j d Hj. eapply tracker_shape_names; [done|]. by rewrite slice_all.
Qed.

Lemma Parse_String r : canonical r = true → Parse (String r) = Some r.
Proof.
  unfold canonical. intros [Hn H]%andb_prop. apply N.leb_le in Hn. unfold String.
  destruct r as [[] k o p n]; cbn [num kind key owner repo] in *.
  - apply andb_prop in H as [H Hk]. apply andb_prop in H as [H Hk2%Nat.leb_le].
    apply andb_prop in H as [H Hk1%Nat.leb_le]. apply andb_prop in H as [Ho%bool_decide_eq_true Hp%bool_decide_eq_true].
    subst. destruct k as [|c k]; [done|]. apply andb_prop in Hk as [Hc Hk]. simpl in *.
    apply Parse_String_tracker; try done. lia.
  - apply andb_prop in H as [H Hp]. apply andb_prop in H as [H%bool_decide_eq_true Ho]. subst.
    by apply Parse_String_forge.
Qed.

(** The canonical references, and only they, are what [Parse] returns, and
    each is read back from its own canonical text: [Parse] after [String] is the
    identity exactly on the references that some text parses to. *)
Theorem parse_string_roundtrip (r : Ref) :
  (canonical r = true ↔ Parse (String r) = Some r) ∧
  (canonical r = true ↔ ∃ s, Parse s = Some r).
Proof.
  split; split.
  - apply Parse_String.
  - apply Parse_canonical.
  - intros ?%Parse_String. eauto.
  - intros [s ?]. by eapply Parse_canonical.
Qed.

(** ** Scan *)

Definition token_start (text : bytes) (a : nat) : bool := (a =? 0) || prev_is text a isSpace.

(** The whitespace-delimited token that starts at [a] holds a [://]. *)
Definition url_token (text : bytes) (a : nat) : bool :=
  token_start text a && contains (slice text a (tokenEnd text a)) (lit "://").

Definition in_url (text : bytes) (j : nat) : Prop :=
  ∃ a, url_token text a = true ∧ a ≤ j ∧ j < tokenEnd text a.

(** A reference stands at [i] on token edges, outside every URL token. *)
Definition ref_at (text : bytes) (i : nat) (r : Ref) (e : nat) : Prop :=
  matchAt text i = Some (r, e) ∧ prev_is text i blocksStart = false
  ∧ next_is text e blocksEnd = false ∧ ¬ in_url text i.

Fixpoint ordered (lo : nat) (spans : list Span) : Prop :=
  match spans with
  | [] => True
  | sp :: rest => lo ≤ Start sp ∧ Start sp < End sp ∧ ordered (End sp) rest
  end.

Lemma name_not_space c : isNameByte c = true → isSpace c = false.
Proof. destruct c as [[] [] [] [] [] [] [] []]; by vm_compute. Qed.

Lemma run_name_not_space s i p j c :
  (∀ c, p c = true → isNameByte c = true) →
  i ≤ j → j < run s i p → s !! j = Some c → isSpace c = false.
Proof. intros Hp ? ? ?. apply name_not_space, Hp. by apply (run_in s p i j). Qed.

Lemma match_not_space s i r e j c :
  i ≤ length s → matchAt s i = Some (r, e) → i ≤ j → j < e → s !! j = Some c →
  isSpace c = false.
Proof.
  intros Hi Hm Hij Hje Hc.
  destruct (matchAt_Some _ _ _ _ Hi Hm) as [Hf|Ht].
  - destruct Hf as (a & b & Hia & Hab & Hbe & He & Ha & Hsl & Hb & Hh & Hn & Hr).
    apply number_Some in Hn as (_ & _ & He' & _); [|lia].
    destruct (decide (j = a)) as [->|]; [by simplify_eq|].
    destruct (decide (j = b)) as [->|]; [by simplify_eq|].
    destruct (decide (j < a)); [|destruct (decide (j < b))].
    + apply (run_name_not_space s i isNameByte j); [done|lia|lia|done].
    + apply (run_name_not_space s (a + 1) isNameByte j); [done|lia|lia|done].
    + apply (run_name_not_space s (b + 1) isDigit j); [apply isDigit_name|lia|lia|done].
  - apply name_not_space. eapply (tracker_shape_names s i r e (j - i)); [done|].
    rewrite lookup_slice by lia. rewrite <- Hc. f_equal. lia.
Qed.

(** [i] is not strictly inside a URL token. *)
Definition clear (text : bytes) (i : nat) : Prop :=
  ∀ a, url_token text a = true → a < i → ¬ (i < tokenEnd text a).

Lemma tokenEnd_space text a j c :
  a ≤ j → j < tokenEnd text a → text !! j = Some c → isSpace c = false.
Proof. intros. apply negb_true_iff. by eapply (run_in text (λ c, negb (isSpace c)) a j). Qed.

Lemma clear_step text i e :
  clear text i → url_token text i = false → i < e →
  (∀ j c, i ≤ j → j + 1 < e → text !! j = Some c → isSpace c = false) → clear text e.
Proof.
  intros Hcl Hi Hlt Hns a Ha Hae He. destruct (lt_eq_lt_dec a i) as [[Hai|Hai]|Hai].
  - apply (Hcl a Ha Hai). lia.
  - congruence.
  - apply andb_prop in Ha as [Ha _]. apply orb_prop in Ha as [Ha%Nat.eqb_eq|Ha]; [lia|].
    destruct a as [|a]; [lia|]. simpl in Ha. destruct (text !! a) as [c|] eqn:Hc; [|done].
    rewrite (Hns a c) in Ha; [done|lia|lia|done].
Qed.

Lemma clear_token text i : i < length text → clear text (tokenEnd text i + 1).
Proof.
  intros Hi a Ha Hlt Hin. set (t := tokenEnd text i) in *.
  assert (Ht : t ≤ length text) by (apply run_le; lia).
  assert (Htl : tokenEnd text a ≤ length text) by (apply run_le; lia).
  destruct (lookup_lt_is_Some_2 text t) as [c Hc]; [lia|].
  pose proof (run_stop text (λ c, negb (isSpace c)) i c Hc) as Hs. cbv beta in Hs.
  rewrite (tokenEnd_space text a t c) in Hs; [done|lia|lia|done].
Qed.

Lemma clear_not_in_url text i : clear text i → url_token text i = false → ¬ in_url text i.
Proof.
  intros Hcl Hu (a & Ha & Hai & Hia). destruct (decide (a = i)) as [->|]; [congruence|].
  apply (Hcl a Ha); lia.
Qed.

Lemma scan_url_covers text i j r e :
  url_token text i = true → i < length text → i ≤ j → ref_at text j r e →
  tokenEnd text i + 1 ≤ j.
Proof.
  intros Hu Hi Hij (Hm & _ & _ & Hnu). destruct (decide (tokenEnd text i + 1 ≤ j)) as [|Hlt]; [done|].
  destruct (decide (j = tokenEnd text i)) as [Hj|].
  - destruct (decide (j < length text)) as [Hjl|Hjl].
    + destruct (lookup_lt_is_Some_2 text j Hjl) as [c Hc].
      pose proof (matchAt_bounds text j r e (Nat.lt_le_incl _ _ Hjl) Hm) as [Hje He].
      pose proof (match_not_space text j r e j c ltac:(lia) Hm ltac:(lia) ltac:(lia) Hc) as Hs.
      rewrite Hj in Hc. pose proof (run_stop text (λ c, negb (isSpace c)) i c Hc) as Hs'. cbv beta in Hs'.
      by rewrite Hs in Hs'.
    + assert (Hjl' : j ≤ length text) by (rewrite Hj; apply run_le; lia).
      pose proof (matchAt_bounds _ _ _ _ Hjl' Hm). lia.
  - exfalso. apply Hnu. exists i. split_and!; [done|done|]. lia.
Qed.

Definition scan_good (text : bytes) (i : nat) (spans : list Span) : Prop :=
  ordered i spans
  ∧ (∀ sp, sp ∈ spans → ref_at text (Start sp) (ref sp) (End sp))
  ∧ (∀ j r e, i ≤ j → j < length text → ref_at text j r e →
       ∃ sp, sp ∈ spans ∧ Start sp ≤ j ∧ j < End sp).

Lemma ordered_weaken lo lo' spans : lo' ≤ lo → ordered lo spans → ordered lo' spans.
Proof. destruct spans; simpl; [done|]. intros ? (? & ? & ?). split_and!; (done || lia). Qed.

Lemma scan_good_skip text i i' spans :
  i ≤ i' → (∀ j r e, i ≤ j → j < length text → ref_at text j r e → i' ≤ j) →
  scan_good text i' spans → scan_good text i spans.
Proof.
  intros Hle Hskip (Ho & Hs & Hc). split_and!; [by eapply ordered_weaken|done|].
  intros j r e Hj Hjl Hr. eapply Hc; eauto.
Qed.

Lemma scan_good_next text i spans :
  (∀ r e, ¬ ref_at text i r e) → scan_good text (i + 1) spans → scan_good text i spans.
Proof.
  intros Hno. apply scan_good_skip; [lia|]. intros j r e Hj _ Hr.
  destruct (decide (j = i)) as [->|]; [by apply Hno in Hr|lia].
Qed.

Lemma scan_loop_correct fuel text i :
  length text - i ≤ fuel → clear text i →
  ∃ spans, scan_loop fuel text i = Some spans ∧ scan_good text i spans.
Proof.
  revert i; induction fuel as [|fuel IH]; intros i Hf Hcl.
  { exists []. simpl. destruct (Nat.leb_spec (length text) i); [|lia]. split; [done|].
    split_and!; [done|by intros ? ?%not_elem_of_nil|]. intros; lia. }
  cbn [scan_loop]. destruct (Nat.leb_spec (length text) i) as [|Hi].
  { exists []. split; [done|]. split_and!; [done|by intros ? ?%not_elem_of_nil|]. intros; lia. }
  fold (token_start text i). fold (url_token text i).
  destruct (url_token text i) eqn:Hu.
  { pose proof (run_ge text (λ c, negb (isSpace c)) i) as Hge. fold (tokenEnd text i) in Hge.
    destruct (IH (tokenEnd text i + 1)) as (spans & -> & Hg); [lia|by apply clear_token|].
    exists spans. split; [done|]. eapply scan_good_skip; [|intros; by eapply scan_url_covers|done]. lia. }
  assert (Hcl1 : clear text (i + 1)) by (eapply clear_step; [done|done|lia|intros; lia]).
  destruct (IH (i + 1)) as (spans1 & E1 & Hg1); [lia|done|].
  destruct (prev_is text i blocksStart) eqn:Hb.
  { exists spans1. split; [done|]. apply scan_good_next; [|done]. intros r e (_ & ? & _). congruence. }
  destruct (matchAt text i) as [[r e]|] eqn:Hm.
  2: { exists spans1. split; [done|]. apply scan_good_next; [|done]. intros r e (? & _). congruence. }
  destruct (next_is text e blocksEnd) eqn:He.
  { exists spans1. split; [done|]. apply scan_good_next; [|done].
    intros r' e' (Hm' & _ & ? & _). congruence. }
  pose proof (matchAt_bounds _ _ _ _ (Nat.lt_le_incl _ _ Hi) Hm) as [Hie Hel].
  destruct (IH e) as (spans & -> & Ho & Hs & Hc); [lia| |].
  { apply (clear_step text i); [done|done|done|]. intros j c Hj Hje Hcc.
    apply (match_not_space text i r e j); (done || lia). }
  exists (mkSpan i e r :: spans). split; [done|]. split_and!.
  - simpl. split_and!; (done || lia).
  - intros sp [->|Hsp]%elem_of_cons; [|by apply Hs]. simpl. split_and!; try done.
    by apply clear_not_in_url.
  - intros j r' e' Hj Hjl Hr. destruct (decide (j < e)).
    + exists (mkSpan i e r). split_and!; [left|simpl; lia|simpl; lia].
    + destruct (Hc j r' e') as (sp & ? & ? & ?); [lia|done|done|]. exists sp. split_and!; [by right|done|done].
Qed.

(** [Scan] terminates on every text; its spans are in order and disjoint, each
    lies in the text, reads back by [Parse] to the reference it carries, starts and
    ends on a token edge and is outside every URL token; and every reference that
    stands so in the text is a span or overlaps an earlier one. *)
Theorem scan_finds_refs (text : bytes) :
  ∃ spans, Scan text = Some spans
  ∧ ordered 0 spans
  ∧ (∀ sp, sp ∈ spans →
       End sp ≤ length text
       ∧ Parse (slice text (Start sp) (End sp)) = Some (ref sp)
       ∧ ref_at text (Start sp) (ref sp) (End sp))
  ∧ (∀ j r e, j < length text → ref_at text j r e →
       ∃ sp, sp ∈ spans ∧ Start sp ≤ j ∧ j < End sp).
Proof.
  destruct (scan_loop_correct (length text) text 0) as (spans & Hs & Ho & Hr & Hc);
    [lia|intros a _ Ha; lia|].
  exists spans. split_and!; [done|done| |].
  - intros sp Hsp. pose proof (Hr sp Hsp) as Href. destruct Href as (Hm & ?).
    assert (Hle : Start sp ≤ length text).
    { unfold matchAt in Hm. destruct (decide (Start sp ≤ length text)) as [|Hgt]; [done|].
      assert (Hd : text !! Start sp = None) by (apply lookup_ge_None_2; lia).
      unfold matchForge, matchTracker, run in Hm. rewrite Hd in Hm.
      rewrite drop_ge in Hm by lia. simpl in Hm. rewrite Nat.add_0_r, Nat.eqb_refl in Hm. done. }
    pose proof (matchAt_bounds _ _ _ _ Hle Hm). split_and!; [lia| |done].
    by apply matchAt_slice.
  - intros j r e Hj. apply Hc; [lia|done].
Qed.

(** Concrete scans. *)
Example scan_text :
  Scan (lit "see RIG-12, Acme/Web#7 and https://x/y#1") =
  Some [mkSpan 4 10 (mkRef KindTracker (lit "RIG") [] [] 12);
        mkSpan 12 22 (mkRef KindForge [] (lit "acme") (lit "web") 7)].
Proof. by vm_compute. Qed.

End Refs.
