(* ===== verification/Subjects.v ===== *)
(** The subject grammar of the message fabric ([fabric/subjects.go]) and the two
    reference payloads that ride it ([fabric/eventref.go],
    [fabric/bindingchange.go]): which strings are subject tokens, the subject of
    every plane, the whole-subject check of [Subscribe], publish-side validation
    and the deduplication key. JSON and SHA-256 are arguments. *)
From stdpp Require Import base list strings.
From Stdlib Require Import ZArith Lia Ascii.
From S2P Require Import Prelude Text.

Open Scope nat_scope.

Module Subjects.

(** The errors, with what they name. *)
Inductive error :=
| ErrEmptyToken (what : string)
| ErrReserved (what : string) (s : bytes) (i : nat)
| ErrWhitespace (what : string) (s : bytes) (i : nat)
| ErrTokenCount (subject : bytes) (n : nat)
| ErrRoot (subject : bytes)
| ErrCommsToken (subject t : bytes)
| ErrEmptyRowID (tenant kind : bytes)
| ErrEmptySession (tenant : bytes)
| ErrOp (tenant session op : bytes)
| ErrNoOp (tenant session : bytes)
| ErrJSON
| ErrIncomplete (tenant kind row : bytes)
| ErrForeignSubject (want got : bytes)
| ErrForeignTenant (payload subject : bytes).

Definition subjectPrefix : bytes := lit "compass".
Definition wildcardToken : bytes := lit "*".
Definition commsToken : bytes := lit "comms".
Definition commsSubjectTokens : nat := 4.
Definition commsStreamSubjects : bytes :=
  subjectPrefix ++ lit "." ++ wildcardToken ++ lit ".comms." ++ wildcardToken.
Definition routingBindingPrefix : bytes := subjectPrefix ++ lit ".routing.binding".
Definition DLQSubject : bytes := subjectPrefix ++ lit ".dlq.comms".

Definition reserved (c : ascii) : bool :=
  bool_decide (c = "."%char) || bool_decide (c = "*"%char) || bool_decide (c = ">"%char).

Definition whitespace (c : ascii) : bool :=
  bool_decide (c = " "%char) || (code c =? 9) || (code c =? 13) || (code c =? 10).

Definition ValidSubjectToken (what : string) (s : bytes) : result error () :=
  match s with
  | [] => Err (ErrEmptyToken what)
  | _ =>
      match index_func reserved s with
      | Some i => Err (ErrReserved what s i)
      | None =>
          match index_func whitespace s with
          | Some i => Err (ErrWhitespace what s i)
          | None => Ok ()
          end
      end
  end.

Definition CommsSubject (tenant kind : bytes) : result error bytes :=
  _ <-? ValidSubjectToken "tenant" tenant ;
  _ <-? ValidSubjectToken "event kind" kind ;
  Ok (subjectPrefix ++ lit "." ++ tenant ++ lit ".comms." ++ kind).

Definition CommsWildcardSubject (kind : bytes) : result error bytes :=
  _ <-? ValidSubjectToken "event kind" kind ;
  Ok (subjectPrefix ++ lit "." ++ wildcardToken ++ lit ".comms." ++ kind).

Definition validCommsSubject (subject : bytes) : result error () :=
  let tokens := split "." subject in
  if negb (length tokens =? commsSubjectTokens) then Err (ErrTokenCount subject (length tokens))
  else
    match tokens with
    | [t0; t1; t2; t3] =>
        if bool_decide (t0 ≠ subjectPrefix) then Err (ErrRoot subject)
        else if bool_decide (t2 ≠ commsToken) then Err (ErrCommsToken subject t2)
        else
          _ <-? ValidSubjectToken "tenant" t1 ;
          ValidSubjectToken "event kind" t3
    | _ => Panic
    end.

Definition RunnerCommandSubject (runnerID : bytes) : result error bytes :=
  _ <-? ValidSubjectToken "runner id" runnerID ;
  Ok (subjectPrefix ++ lit ".runner." ++ runnerID ++ lit ".cmd").

Definition RunnerEventsSubject : bytes := subjectPrefix ++ lit ".runner.events".

Definition RoutingBindingSubject (tenant : bytes) : result error bytes :=
  _ <-? ValidSubjectToken "tenant" tenant ;
  Ok (routingBindingPrefix ++ lit "." ++ tenant).

Definition RoutingBindingWildcardSubject : bytes := routingBindingPrefix ++ lit "." ++ wildcardToken.

Definition ClientSubject (sessionID : bytes) : result error bytes :=
  _ <-? ValidSubjectToken "session id" sessionID ;
  Ok (lit "client." ++ sessionID).

(** ** References *)

Record EventRef := mkEventRef { Tenant : bytes; Kind : bytes; RowID : bytes }.

#[global] Instance EventRef_eq_dec : EqDecision EventRef.
Proof. solve_decision. Defined.

Definition valid (r : EventRef) : result error () :=
  _ <-? ValidSubjectToken "tenant" (Tenant r) ;
  _ <-? ValidSubjectToken "event kind" (Kind r) ;
  if bool_decide (RowID r = []) then Err (ErrEmptyRowID (Tenant r) (Kind r)) else Ok ().

(** One field as [msgID] writes it to the hash: its length, a colon, its bytes. *)
Definition hash_field (f : bytes) : bytes :=
  FormatInt (Z.of_nat (length f)) ++ ":"%char :: f.

(** The bytes [msgID] hashes. *)
Definition msgID_input (r : EventRef) : bytes :=
  hash_field (Tenant r) ++ hash_field (Kind r) ++ hash_field (RowID r).

Record BindingChange := mkBindingChange { bTenant : bytes; SessionID : bytes; Op : bytes }.

Definition BindingBound : bytes := lit "bound".
Definition BindingUnbound : bytes := lit "unbound".

Definition binding_valid (b : BindingChange) : result error () :=
  _ <-? ValidSubjectToken "tenant" (bTenant b) ;
  if bool_decide (SessionID b = []) then Err (ErrEmptySession (bTenant b))
  else if bool_decide (Op b = BindingBound) || bool_decide (Op b = BindingUnbound) then Ok ()
  else Err (ErrOp (bTenant b) (SessionID b) (Op b)).

Section Codec.
(** [encoding/json] and [crypto/sha256]. *)
Context (unmarshal_ref : bytes → option EventRef)
        (unmarshal_change : bytes → option BindingChange)
        (sha256_hex : bytes → bytes).

Definition msgID (r : EventRef) : bytes := sha256_hex (msgID_input r).

Definition decodeEventRef (b : bytes) : result error EventRef :=
  match unmarshal_ref b with
  | None => Err ErrJSON
  | Some r =>
      if bool_decide (Tenant r = []) || bool_decide (Kind r = []) || bool_decide (RowID r = [])
      then Err (ErrIncomplete (Tenant r) (Kind r) (RowID r))
      else Ok r
  end.

Definition decodeBindingChange (data : bytes) : result error BindingChange :=
  match unmarshal_change data with
  | None => Err ErrJSON
  | Some b =>
      _ <-? ValidSubjectToken "tenant" (bTenant b) ;
      if bool_decide (SessionID b = []) then Err (ErrEmptySession (bTenant b))
      else if bool_decide (Op b = []) then Err (ErrNoOp (bTenant b) (SessionID b))
      else Ok b
  end.

Definition durableName (subject : bytes) : bytes := lit "comms-" ++ sha256_hex subject.
End Codec.

(** ** Facts of the grammar *)

(** A subject token: not empty, no separator, no wildcard, no whitespace. *)
Definition token (s : bytes) : Prop :=
  s ≠ [] ∧ ∀ c, c ∈ s → reserved c = false ∧ whitespace c = false.

Lemma ValidSubjectToken_Ok what s u : ValidSubjectToken what s = Ok u ↔ token s.
Proof.
  destruct u. unfold ValidSubjectToken, token. destruct s as [|c s]; [naive_solver|].
  destruct (index_func reserved (c :: s)) as [i|] eqn:Hr.
  - split; [done|]. intros [_ H]. apply index_func_Some in Hr as (d & Hd & Hp).
    apply list_elem_of_lookup_2, H in Hd as [? _]. congruence.
  - rewrite index_func_None in Hr. destruct (index_func whitespace (c :: s)) as [i|] eqn:Hw.
    + split; [done|]. intros [_ H]. apply index_func_Some in Hw as (d & Hd & Hp).
      apply list_elem_of_lookup_2, H in Hd as [_ ?]. congruence.
    + rewrite index_func_None in Hw. split; [|done]. intros _. split; [done|]. intros d Hd. auto.
Qed.

Lemma ValidSubjectToken_no_panic what s : ValidSubjectToken what s ≠ Panic.
Proof.
  unfold ValidSubjectToken. destruct s; [done|].
  destruct (index_func reserved _); [done|]. by destruct (index_func whitespace _).
Qed.

Lemma token_no_sep s : token s → "."%char ∉ s.
Proof. intros [_ H] Hin. by apply H in Hin as [? _]. Qed.

Lemma token_not_wildcard s : token s → s ≠ wildcardToken.
Proof. intros [_ H] ->. destruct (H "*"%char) as [? _]; [left|done]. Qed.

Lemma CommsSubject_Ok t k s :
  CommsSubject t k = Ok s ↔
  token t ∧ token k ∧ s = subjectPrefix ++ lit "." ++ t ++ lit ".comms." ++ k.
Proof.
  unfold CommsSubject. rewrite rbind_Ok. setoid_rewrite rbind_Ok.
  setoid_rewrite ValidSubjectToken_Ok. split.
  - intros (_ & ? & _ & ? & [= <-]). done.
  - intros (? & ? & ->). by exists (), () || exists (); split; [done|]; exists ().
Qed.

Lemma split4 a b c d :
  "."%char ∉ a → "."%char ∉ b → "."%char ∉ c → "."%char ∉ d →
  split "." (a ++ "."%char :: b ++ "."%char :: c ++ "."%char :: d) = [a; b; c; d].
Proof. intros. rewrite !split_cons by done. by rewrite split_no_sep. Qed.

Lemma split_comms t k :
  token t → token k →
  split "." (subjectPrefix ++ lit "." ++ t ++ lit ".comms." ++ k) = [subjectPrefix; t; commsToken; k].
Proof.
  intros Ht Hk. pose proof (split4 subjectPrefix t commsToken k) as H.
  rewrite <- H; [done| | | |]; try by apply token_no_sep.
  - apply has_byte_false. by vm_compute.
  - apply has_byte_false. by vm_compute.
Qed.

(** The subjects [Subscribe] accepts are exactly those [CommsSubject] builds,
    and a comms subject determines its tenant and its kind: no two tenants share
    one. *)
Theorem comms_grammar (s : bytes) :
  (validCommsSubject s = Ok () ↔ ∃ t k, CommsSubject t k = Ok s)
  ∧ (∀ t k t' k', CommsSubject t k = Ok s → CommsSubject t' k' = Ok s → t = t' ∧ k = k').
Proof.
  setoid_rewrite CommsSubject_Ok. split; [split|].
  - unfold validCommsSubject. pose proof (join_split "." s) as Hj.
    destruct (split "." s) as [|t0 [|t1 [|t2 [|t3 [|]]]]] eqn:Hs; simpl; try done.
    case_bool_decide as H0; [done|]. case_bool_decide as H2; [done|].
    subst t0 t2.
    intros (u & Ht%ValidSubjectToken_Ok & Hk%ValidSubjectToken_Ok)%rbind_Ok.
    exists t1, t3. split_and!; [done|done|]. by rewrite <- Hj.
  - intros (t & k & Ht & Hk & ->). unfold validCommsSubject. rewrite split_comms by done.
    cbn [length Nat.eqb negb]. rewrite !bool_decide_eq_false_2 by auto.
    apply (ValidSubjectToken_Ok "tenant" t ()) in Ht as ->. by apply ValidSubjectToken_Ok.
  - intros t k t' k' (Ht & Hk & ->) (Ht' & Hk' & H).
    apply (f_equal (split "."%char)) in H. rewrite !split_comms in H by done. by injection H.
Qed.

(** ** Capture by the stream *)

Lemma RunnerCommandSubject_Ok r s :
  RunnerCommandSubject r = Ok s ↔ token r ∧ s = subjectPrefix ++ lit ".runner." ++ r ++ lit ".cmd".
Proof.
  unfold RunnerCommandSubject. rewrite rbind_Ok. setoid_rewrite ValidSubjectToken_Ok.
  split; [by intros (_ & ? & [= <-])|]. intros (? & ->). by exists ().
Qed.

Lemma RoutingBindingSubject_Ok t s :
  RoutingBindingSubject t = Ok s ↔ token t ∧ s = routingBindingPrefix ++ lit "." ++ t.
Proof.
  unfold RoutingBindingSubject. rewrite rbind_Ok. setoid_rewrite ValidSubjectToken_Ok.
  split; [by intros (_ & ? & [= <-])|]. intros (? & ->). by exists ().
Qed.

Lemma ClientSubject_Ok t s : ClientSubject t = Ok s ↔ token t ∧ s = lit "client." ++ t.
Proof.
  unfold ClientSubject. rewrite rbind_Ok. setoid_rewrite ValidSubjectToken_Ok.
  split; [by intros (_ & ? & [= <-])|]. intros (? & ->). by exists ().
Qed.

Lemma CommsWildcardSubject_Ok k s :
  CommsWildcardSubject k = Ok s ↔
  token k ∧ s = subjectPrefix ++ lit "." ++ wildcardToken ++ lit ".comms." ++ k.
Proof.
  unfold CommsWildcardSubject. rewrite rbind_Ok. setoid_rewrite ValidSubjectToken_Ok.
  split; [by intros (_ & ? & [= <-])|]. intros (? & ->). by exists ().
Qed.

Ltac no_sep := first [by apply token_no_sep | by apply has_byte_false; vm_compute].

Lemma split_runner r :
  token r → split "." (subjectPrefix ++ lit ".runner." ++ r ++ lit ".cmd") =
            [subjectPrefix; lit "runner"; r; lit "cmd"].
Proof.
  intros. rewrite <- (split4 subjectPrefix (lit "runner") r (lit "cmd")); [done|no_sep..].
Qed.

Lemma split_routing t :
  token t → split "." (routingBindingPrefix ++ lit "." ++ t) =
            [subjectPrefix; lit "routing"; lit "binding"; t].
Proof.
  intros. rewrite <- (split4 subjectPrefix (lit "routing") (lit "binding") t); [done|no_sep..].
Qed.

Lemma split_client t : token t → split "." (lit "client." ++ t) = [lit "client"; t].
Proof.
  intros. change (lit "client." ++ t) with (lit "client" ++ "."%char :: t).
  rewrite split_cons, split_no_sep; [done|no_sep..].
Qed.

Lemma split_wildcard k :
  token k → split "." (subjectPrefix ++ lit "." ++ wildcardToken ++ lit ".comms." ++ k) =
            [subjectPrefix; wildcardToken; commsToken; k].
Proof.
  intros. rewrite <- (split4 subjectPrefix wildcardToken commsToken k); [done|no_sep..].
Qed.

(** One token of a subscription against one token of a subject. *)
Definition token_matches (p t : bytes) : Prop := p = wildcardToken ∨ p = t.

#[global] Instance token_matches_dec p t : Decision (token_matches p t).
Proof. unfold token_matches. apply _. Defined.

Section Capture.
(** NATS's subject matching. Documented: subjects are split at the dots, and in a
    subscription without the tail wildcard [*] stands for exactly one token. *)
Context (captures : bytes → bytes → bool).
Hypothesis captures_tokens : ∀ pat s, ">"%char ∉ pat →
  captures pat s = true ↔ Forall2 token_matches (split "." pat) (split "." s).

Lemma stream_captures s :
  captures commsStreamSubjects s = true ↔
  ∃ t k, split "." s = [subjectPrefix; t; commsToken; k].
Proof.
  rewrite captures_tokens by (by apply has_byte_false; vm_compute).
  change (split "." commsStreamSubjects) with [subjectPrefix; wildcardToken; commsToken; wildcardToken].
  unfold token_matches. split.
  - intros H. pose proof (Forall2_length _ _ _ H) as Hl.
    destruct (split "." s) as [|a [|b [|c [|d [|]]]]]; try done.
    rewrite !Forall2_cons in H. destruct H as ([[=]|<-] & _ & [[=]|<-] & _). eauto.
  - intros (t & k & ->). rewrite !Forall2_cons. auto 10.
Qed.

(** The comms stream captures the subject of every comms event; a kind
    subscription receives that kind of every tenant and no other kind; the stream
    captures no routing, client, dead-letter or runner-event subject; of the runner
    command subjects it captures one, that of a Runner whose id is [comms]. *)
Theorem stream_capture :
  (∀ t k s, CommsSubject t k = Ok s → captures commsStreamSubjects s = true)
  ∧ (∀ t k k' w s, CommsWildcardSubject k = Ok w → CommsSubject t k' = Ok s →
       captures w s = true ↔ k = k')
  ∧ (∀ t s, RoutingBindingSubject t = Ok s → captures commsStreamSubjects s = false)
  ∧ (∀ t s, ClientSubject t = Ok s → captures commsStreamSubjects s = false)
  ∧ captures commsStreamSubjects DLQSubject = false
  ∧ captures commsStreamSubjects RunnerEventsSubject = false
  ∧ (∀ r s, RunnerCommandSubject r = Ok s → captures commsStreamSubjects s = true ↔ r = commsToken).
Proof.
  split_and!.
  - intros t k s (Ht & Hk & ->)%CommsSubject_Ok. apply stream_captures. rewrite split_comms by done. eauto.
  - intros t k k' w s (Hk & ->)%CommsWildcardSubject_Ok (Ht & Hk' & ->)%CommsSubject_Ok.
    rewrite captures_tokens.
    + rewrite split_wildcard, split_comms by done. unfold token_matches. split.
      * rewrite !Forall2_cons. intros (_ & _ & _ & [->|Hkk] & _); [|done].
        by destruct (token_not_wildcard _ Hk).
      * intros ->. rewrite !Forall2_cons. auto 10.
    + rewrite !not_elem_of_app. destruct Hk as [_ Hk].
      split_and!; try (by apply has_byte_false; vm_compute). intros Hin. by apply Hk in Hin as [? _].
  - intros t s (Ht & ->)%RoutingBindingSubject_Ok. apply not_true_iff_false.
    rewrite stream_captures, split_routing by done. by intros (? & ? & [=]).
  - intros t s (Ht & ->)%ClientSubject_Ok. apply not_true_iff_false.
    rewrite stream_captures, split_client by done. by intros (? & ? & [=]).
  - apply not_true_iff_false. rewrite stream_captures. vm_compute. by intros (? & ? & [=]).
  - apply not_true_iff_false. rewrite stream_captures. vm_compute. by intros (? & ? & [=]).
  - intros r s (Hr & ->)%RunnerCommandSubject_Ok. rewrite stream_captures, split_runner by done.
    split; [by intros (? & ? & [= _ -> _])|]. intros ->. eauto.
Qed.
End Capture.

Definition nats_captures (pat s : bytes) : bool :=
  bool_decide (Forall2 token_matches (split "." pat) (split "." s)).

Lemma stream_capture_witness :
  nats_captures commsStreamSubjects (lit "compass.acme.comms.message_posted") = true
  ∧ nats_captures commsStreamSubjects (lit "compass.routing.binding.comms") = false
  ∧ nats_captures commsStreamSubjects (lit "compass.runner.comms.cmd") = true.
Proof.
  destruct (stream_capture nats_captures) as (H1 & _ & H3 & _ & _ & _ & H7).
  { intros. unfold nats_captures. by rewrite bool_decide_eq_true. }
  split_and!.
  - by apply (H1 (lit "acme") (lit "message_posted")).
  - by apply (H3 (lit "comms")).
  - by apply (H7 (lit "comms")).
Defined.

(** ** Deduplication *)

Lemma FormatInt_no_colon n : ":"%char ∉ FormatInt (Z.of_nat n).
Proof.
  unfold FormatInt. destruct (Z.ltb_spec (Z.of_nat n) 0); [lia|].
  destruct (FormatUint_spec (Z.to_N (Z.of_nat n))) as (_ & Hd & _).
  intros Hin%list_elem_of_In. rewrite forallb_forall in Hd. by apply Hd in Hin.
Qed.

Lemma hash_field_inj f g x y : hash_field f ++ x = hash_field g ++ y → f = g ∧ x = y.
Proof.
  unfold hash_field. rewrite <- !app_assoc. simpl. intros H.
  apply sep_inj in H as [Hl H]; [|apply FormatInt_no_colon..].
  apply FormatInt_inj in Hl. apply app_length_inj in H; [done|lia].
Qed.

(** The bytes hashed for the deduplication key determine tenant, kind and row:
    two publishes share them exactly when they publish the same reference. *)
Theorem msgID_input_exact (r r' : EventRef) : msgID_input r = msgID_input r' ↔ r = r'.
Proof.
  split; [|by intros ->]. destruct r as [t k i], r' as [t' k' i'].
  unfold msgID_input; simpl. intros H.
  apply hash_field_inj in H as [-> H]. apply hash_field_inj in H as [-> H].
  rewrite <- (app_nil_r (hash_field i)), <- (app_nil_r (hash_field i')) in H.
  by apply hash_field_inj in H as [-> _].
Qed.

End Subjects.
