(* ===== verification/Fabric.v ===== *)
(** The message fabric above NATS ([fabric/fabric.go], [event_fabric.go],
    [stream.go], [routing_fabric.go], [runner_fabric.go], [backlog_metric.go]):
    configuration defaults, publishing, the handling of one delivered event, the
    dead-letter parking protocol shared by the callback and the advisory path, the
    binding-change plane, the consumer reference counts and the reconnect hooks.
    JetStream and core NATS, JSON, protobuf and SHA-256 are arguments; durations
    and instants are counted in nanoseconds. *)
From stdpp Require Import base gmap list strings sorting.
From Stdlib Require Import ZArith Lia Ascii.
From S2P Require Import Prelude Text Subjects.

Open Scope Z_scope.

Module Fabric.
Import Subjects.

(** ** Configuration *)

Definition Millisecond : Z := 1000000.
Definition Second : Z := 1000 * Millisecond.
Definition Minute : Z := 60 * Second.
Definition Hour : Z := 60 * Minute.

Definition DefaultStreamName : bytes := lit "COMPASS_COMMS".
Definition DefaultMaxDeliver : Z := 5.
Definition DefaultAckWait : Z := 30 * Second.
Definition DefaultDuplicateWindow : Z := 2 * Minute.
Definition DefaultMaxAge : Z := 24 * Hour.
Definition DefaultReplicas : Z := 1.
Definition MinInactiveThreshold : Z := Hour.
Definition defaultRunnerEventBuffer : Z := 256.
Definition recreateRetryFloor : Z := 100 * Millisecond.

Record Config := mkConfig {
  StreamName : bytes;
  MaxDeliver : Z;
  AckWait : Z;
  DuplicateWindow : Z;
  MaxAge : Z;
  Replicas : Z;
  RunnerEventBuffer : Z;
  testInactiveThreshold : Z;
}.

(** The fields hold Go [int] and [time.Duration] values. *)
Definition config_ok (c : Config) : Prop :=
  in_i64 (MaxDeliver c) ∧ in_i64 (AckWait c) ∧ in_i64 (MaxAge c).

Definition positive_or (v d : Z) : Z := if 0 <? v then v else d.

Definition streamName (c : Config) : bytes :=
  match StreamName c with [] => DefaultStreamName | n => n end.
Definition maxDeliver (c : Config) : Z := positive_or (MaxDeliver c) DefaultMaxDeliver.
Definition deliveryBudget (c : Config) : Z :=
  let n := maxDeliver c in if n <=? 0 then DefaultMaxDeliver else u64 n.
Definition ackWait (c : Config) : Z := positive_or (AckWait c) DefaultAckWait.
Definition duplicateWindow (c : Config) : Z := positive_or (DuplicateWindow c) DefaultDuplicateWindow.
Definition maxAge (c : Config) : Z := positive_or (MaxAge c) DefaultMaxAge.
Definition replicas (c : Config) : Z := positive_or (Replicas c) DefaultReplicas.
Definition runnerEventBuffer (c : Config) : Z :=
  positive_or (RunnerEventBuffer c) defaultRunnerEventBuffer.

Definition threshold_ceiling : Z := MaxInt64 - 2 * Second.

Definition inactiveThreshold (c : Config) : Z :=
  if 0 <? testInactiveThreshold c then testInactiveThreshold c
  else
    let age := maxAge c in
    if threshold_ceiling / 2 <? age then threshold_ceiling
    else Z.max (i64 (2 * age)) MinInactiveThreshold.

Record StreamConfig := mkStreamConfig {
  sc_name : bytes; sc_subjects : list bytes; sc_replicas : Z; sc_maxAge : Z; sc_duplicates : Z;
}.

Definition streamConfig (c : Config) : StreamConfig :=
  mkStreamConfig (streamName c) [commsStreamSubjects] (replicas c) (maxAge c) (duplicateWindow c).

Record ConsumerConfig := mkConsumerConfig {
  cc_durable : bytes; cc_filter : bytes; cc_ackWait : Z; cc_maxDeliver : Z;
  cc_replicas : Z; cc_inactive : Z;
}.

Definition consumerConfig (sha256_hex : bytes → bytes) (c : Config) (subject : bytes) : ConsumerConfig :=
  mkConsumerConfig (durableName sha256_hex subject) subject (ackWait c) (maxDeliver c)
    (replicas c) (inactiveThreshold c).

(** The delays [retryUntil] waits between attempts, [n] of them. *)
Fixpoint retry_delays (c : Config) (n : nat) (delay : Z) : list Z :=
  match n with
  | O => []
  | S n' => delay :: retry_delays c n' (Z.min (i64 (2 * delay)) (ackWait c))
  end.

Definition retryUntil_delays (c : Config) (n : nat) : list Z :=
  retry_delays c n (Z.min recreateRetryFloor (ackWait c)).

(** ** Backlog gauge *)

Definition backlog (numPending numAckPending : Z) : Z :=
  let ackPending := u64 (Z.max numAckPending 0) in
  let total := u64 (numPending + ackPending) in
  if (total <? numPending) || (MaxInt64 <? total) then MaxInt64 else i64 total.

(** ** Credentials in log lines *)

Definition is_lower (c : ascii) : bool := ((97 <=? code c) && (code c <=? 122))%nat.

(** [strings.LastIndex(s, "@")]: the bytes before and after the last [@]. *)
Fixpoint last_at (s : bytes) : option (bytes * bytes) :=
  match s with
  | [] => None
  | c :: s' =>
      match last_at s' with
      | Some (a, b) => Some (c :: a, b)
      | None => if bool_decide (c = "@"%char) then Some ([], s') else None
      end
  end.

(** [strings.Index(s, sub)]: the bytes before the first [sub]. *)
Fixpoint before_sub (s sub : bytes) : option bytes :=
  if has_prefix sub s then Some []
  else match s with
       | [] => None
       | c :: s' => (λ p, c :: p) <$> before_sub s' sub
       end.

Definition redactURL (raw : bytes) : bytes :=
  match last_at raw with
  | None => raw
  | Some (pre, host) =>
      let scheme :=
        match before_sub pre (lit "://") with
        | Some p => if negb (bool_decide (p = [])) && forallb is_lower p then p else lit "nats"
        | None => lit "nats"
        end in
      scheme ++ lit "://<redacted>@" ++ host
  end.

(** ** Messages *)

Record metadata := mkMeta { Consumer : bytes; StreamSeq : Z; NumDelivered : Z }.

Record msg := mkMsg {
  data : bytes;
  subject : bytes;
  meta : option metadata;  (** [None]: unreadable *)
}.

(** Why a delivery failed. *)
Inductive cause :=
| CauseErr (e : Subjects.error)
| CauseForeign (want got : bytes)
| CauseCallback (e : bytes)
| CausePanic
| CauseBudget (c : cause) (attempts : Z)
| CauseMetadata (c : cause)
| CauseDropped (deliveries : Z).

Definition parkKey : Type := bytes * Z.

(** What handling one delivery does, in order. *)
Inductive effect :=
| EInProgress
| EActive (k : parkKey) (delta : Z)
| ECall (r : EventRef)
| EAck
| ENak
| EPark (c : cause).

Definition invoke (fn : EventRef → result bytes ()) (r : EventRef) : result cause () :=
  match fn r with
  | Ok _ => Ok ()
  | Err e => Err (CauseCallback e)
  | Panic => Err CausePanic
  end.

Definition retryOrPark (cfg : Config) (m : msg) (c : cause) : list effect :=
  match meta m with
  | None => [EPark (CauseMetadata c)]
  | Some md =>
      if deliveryBudget cfg <=? NumDelivered md then [EPark (CauseBudget c (NumDelivered md))]
      else [ENak]
  end.

Definition active_effect (m : msg) (delta : Z) : list effect :=
  match meta m with
  | Some md => [EActive (Consumer md, StreamSeq md) delta]
  | None => []
  end.

Definition handleEvent (unmarshal : bytes → option EventRef) (cfg : Config) (m : msg)
    (fn : EventRef → result bytes ()) : list effect :=
  match decodeEventRef unmarshal (data m) with
  | Err e => [EPark (CauseErr e)]
  | Panic => []
  | Ok r =>
      match CommsSubject (Tenant r) (Kind r) with
      | Err e => [EPark (CauseErr e)]
      | Panic => []
      | Ok want =>
          if bool_decide (subject m ≠ want) then [EPark (CauseForeign want (subject m))]
          else
            EInProgress :: active_effect m 1 ++ ECall r ::
            match invoke fn r with
            | Ok _ => [EAck]
            | Err c => retryOrPark cfg m c
            | Panic => []
            end ++ active_effect m (-1)
      end
  end.

Definition maxParkReason : nat := 256.

Definition sanitizeReason (s : bytes) : bytes :=
  let s := (λ c, if ((code c =? 13) || (code c =? 10))%nat then " "%char else c) <$> s in
  if (maxParkReason <? length s)%nat then take maxParkReason s else s.

(** [traceparent]: the first value of the first header whose name is the trace
    header in any letter case; a header list in the order the map is walked. *)
Definition traceparentHeader : bytes := lit "traceparent".
Fixpoint traceparent (h : list (bytes * list bytes)) : bytes :=
  match h with
  | [] => []
  | (k, v) :: h' =>
      match v with
      | v0 :: _ => if bool_decide (ToLower k = traceparentHeader) then v0 else traceparent h'
      | [] => traceparent h'
      end
  end.

(** One record on the dead-letter subject. *)
Record dlqRecord := mkDLQ {
  dlq_subject : bytes; dlq_data : bytes; dlq_origin : bytes; dlq_reason : bytes; dlq_trace : bytes;
}.

(** The record [publishDLQ] sends; [render] is the text of the cause. *)
Definition publishDLQ (render : cause → bytes) (origin payload trace : bytes) (c : cause) : dlqRecord :=
  mkDLQ DLQSubject payload origin (sanitizeReason (render c)) trace.

(** ** Publishing *)

(** What reaches the broker. *)
Inductive sent :=
| SStream (subject payload msgID : bytes)
| SCore (subject payload : bytes).

Inductive perror :=
| PClosed
| PRef (e : Subjects.error)
| PSubject (want got : bytes)
| PTenant (payload given : bytes)
| PNoCommand
| PEncode
| PStream
| PBroker
| PFlush.

Definition of_ref {A} (r : result Subjects.error A) : result perror A :=
  match r with Ok a => Ok a | Err e => Err (PRef e) | Panic => Panic end.

Section Publish.
(** The codecs, and the broker's answers to each call. *)
Context (marshal_ref : EventRef → option bytes) (marshal_change : BindingChange → option bytes)
        (sha256_hex : bytes → bytes)
        (ensureStream_ok publish_ok flush_ok : bool).

(** [Publish]: the result, and what was handed to the broker. *)
Definition Publish (closed : bool) (subj : bytes) (r : EventRef) : result perror () * list sent :=
  if closed then (Err PClosed, [])
  else match valid r with
       | Err e => (Err (PRef e), [])
       | Panic => (Panic, [])
       | Ok _ =>
           match CommsSubject (Tenant r) (Kind r) with
           | Err e => (Err (PRef e), [])
           | Panic => (Panic, [])
           | Ok want =>
               if bool_decide (subj ≠ want) then (Err (PSubject want subj), [])
               else if negb ensureStream_ok then (Err PStream, [])
               else match marshal_ref r with
                    | None => (Err PEncode, [])
                    | Some d =>
                        (if publish_ok then Ok () else Err PBroker,
                         [SStream subj d (msgID sha256_hex r)])
                    end
           end
       end.

Definition PublishBindingChange (closed : bool) (tenant : bytes) (b : BindingChange)
    : result perror () * list sent :=
  if closed then (Err PClosed, [])
  else match binding_valid b with
       | Err e => (Err (PRef e), [])
       | Panic => (Panic, [])
       | Ok _ =>
           match RoutingBindingSubject tenant with
           | Err e => (Err (PRef e), [])
           | Panic => (Panic, [])
           | Ok subj =>
               if bool_decide (bTenant b ≠ tenant) then (Err (PTenant (bTenant b) tenant), [])
               else match marshal_change b with
                    | None => (Err PEncode, [])
                    | Some d =>
                        (if publish_ok then if flush_ok then Ok () else Err PFlush else Err PBroker,
                         [SCore subj d])
                    end
           end
       end.

(** [SendCommand]; the command is its marshalled bytes, [None] the nil command
    and [Some None] one that does not marshal. *)
Definition SendCommand (closed : bool) (runnerID : bytes) (cmd : option (option bytes))
    : result perror () * list sent :=
  if closed then (Err PClosed, [])
  else match cmd with
       | None => (Err PNoCommand, [])
       | Some enc =>
           match RunnerCommandSubject runnerID with
           | Err e => (Err (PRef e), [])
           | Panic => (Panic, [])
           | Ok subj =>
               match enc with
               | None => (Err PEncode, [])
               | Some d =>
                   (if publish_ok then if flush_ok then Ok () else Err PFlush else Err PBroker,
                    [SCore subj d])
               end
           end
       end.
End Publish.

(** [handleBindingChange]: the change the callback is run with, if any; a callback
    that panics is recovered, so the result is the same. *)
Definition handleBindingChange (unmarshal : bytes → option BindingChange) (m : msg)
    : option BindingChange :=
  match decodeBindingChange unmarshal (data m) with
  | Ok b =>
      match RoutingBindingSubject (bTenant b) with
      | Ok want => if bool_decide (subject m ≠ want) then None else Some b
      | _ => None
      end
  | _ => None
  end.

(** ** Consumer reference counts *)

Record liveConsumer := mkLive { consumer : nat; refs : Z }.

Definition trackConsumer (name : bytes) (cons : nat) (m : gmap bytes liveConsumer) : gmap bytes liveConsumer :=
  let live := match m !! name with Some l => l | None => mkLive cons 0 end in
  <[name := mkLive (consumer live) (refs live + 1)]> m.

Definition untrackConsumer (name : bytes) (m : gmap bytes liveConsumer) : gmap bytes liveConsumer :=
  match m !! name with
  | None => m
  | Some live =>
      if 0 <? refs live - 1 then <[name := mkLive (consumer live) (refs live - 1)]> m
      else delete name m
  end.

(** ** Reconnect hooks *)

Record hooks := mkHooks { reconnectNext : Z; reconnectHooks : gmap Z nat }.

Definition OnReconnect (closed : bool) (fn : option nat) (h : hooks) : result perror Z * hooks :=
  match fn with
  | None => (Err PNoCommand, h)
  | Some f =>
      if closed then (Err PClosed, h)
      else
        let id := reconnectNext h + 1 in
        (Ok id, mkHooks id (<[id := f]> (reconnectHooks h)))
  end.

Definition unsubscribe_hook (id : Z) (h : hooks) : hooks :=
  mkHooks (reconnectNext h) (delete id (reconnectHooks h)).

(** [runReconnectHooks]: the hooks in the order they are run. *)
Definition runReconnectHooks (h : hooks) : list nat :=
  omap (λ id, reconnectHooks h !! id) (merge_sort Z.le (map_to_list (reconnectHooks h)).*1).

(** * Theorems *)

(** ** One delivery *)

Definition settles (e : effect) : bool :=
  match e with EAck | ENak | EPark _ => true | _ => false end.

Lemma decodeEventRef_Ok unmarshal b r :
  decodeEventRef unmarshal b = Ok r ↔
  unmarshal b = Some r ∧ Tenant r ≠ [] ∧ Kind r ≠ [] ∧ RowID r ≠ [].
Proof.
  unfold decodeEventRef. destruct (unmarshal b) as [r'|]; [|naive_solver].
  repeat case_bool_decide; naive_solver.
Qed.

Lemma decodeEventRef_no_panic unmarshal b : decodeEventRef unmarshal b ≠ Panic.
Proof. unfold decodeEventRef. destruct (unmarshal b); [|done]. by destruct (_ || _). Qed.

Lemma rbind_no_panic {E A B} (c : result E A) (k : A → result E B) :
  c ≠ Panic → (∀ a, k a ≠ Panic) → rbind c k ≠ Panic.
Proof. by destruct c; simpl. Qed.

Lemma CommsSubject_no_panic t k : CommsSubject t k ≠ Panic.
Proof.
  unfold CommsSubject. repeat (apply rbind_no_panic; [apply ValidSubjectToken_no_panic|intros _]). done.
Qed.

Lemma deliveryBudget_positive cfg : config_ok cfg → 1 ≤ deliveryBudget cfg ∧ deliveryBudget cfg = maxDeliver cfg.
Proof.
  intros (H & _). unfold deliveryBudget, maxDeliver, positive_or, in_i64, MinInt64, MaxInt64, DefaultMaxDeliver in *.
  destruct (Z.ltb_spec 0 (MaxDeliver cfg)).
  - rewrite (proj2 (Z.leb_gt _ _)) by lia. rewrite u64_small by lia. lia.
  - by vm_compute.
Qed.

Section Delivery.
Context (unmarshal : bytes → option EventRef) (cfg : Config) (m : msg).
Context (fn : EventRef → result bytes ()).

(** The reference the message carries for the tenant of its subject. *)
Definition carries (r : EventRef) : Prop :=
  unmarshal (data m) = Some r ∧ RowID r ≠ [] ∧ CommsSubject (Tenant r) (Kind r) = Ok (subject m).

(** [handleEvent] either runs the callback on the carried reference, or parks. *)
Lemma handleEvent_cases :
  (∃ r, carries r ∧ handleEvent unmarshal cfg m fn =
     EInProgress :: active_effect m 1 ++ ECall r ::
       match invoke fn r with Ok _ => [EAck] | Err c => retryOrPark cfg m c | Panic => [] end
       ++ active_effect m (-1))
  ∨ ((∀ r, ¬ carries r) ∧ ∃ c, handleEvent unmarshal cfg m fn = [EPark c]).
Proof.
  unfold handleEvent, carries.
  destruct (decodeEventRef unmarshal (data m)) as [r|e|] eqn:Hd; [| |by apply decodeEventRef_no_panic in Hd].
  - apply decodeEventRef_Ok in Hd as (Hu & Ht & Hk & Hr).
    destruct (CommsSubject (Tenant r) (Kind r)) as [w|e|] eqn:Hs; [| |by apply CommsSubject_no_panic in Hs].
    + case_bool_decide as Hw.
      * right. split; [|eauto]. intros r' (Hu' & _ & Hs'). assert (r' = r) as -> by congruence.
        rewrite Hs in Hs'. by injection Hs' as ->.
      * left. exists r. subst w. done.
    + right. split; [|eauto]. intros r' (Hu' & _ & Hs'). assert (r' = r) as -> by congruence. congruence.
  - right. split; [|eauto]. intros r (Hu & Hr & Hs).
    apply CommsSubject_Ok in Hs as ([Ht _] & [Hk _] & _).
    assert (decodeEventRef unmarshal (data m) = Ok r); [by apply decodeEventRef_Ok|congruence].
Qed.

Lemma call_in r0 d1 d2 r tail :
  ECall r0 ∉ tail →
  ECall r0 ∈ EInProgress :: active_effect m d1 ++ ECall r :: tail ++ active_effect m d2 ↔ r0 = r.
Proof.
  unfold active_effect. intros Ht. destruct (meta m); simpl;
    rewrite ?elem_of_cons, ?elem_of_app, ?elem_of_cons, ?elem_of_nil; naive_solver.
Qed.

Lemma settle_in e d1 d2 r tail :
  settles e = true →
  e ∈ EInProgress :: active_effect m d1 ++ ECall r :: tail ++ active_effect m d2 ↔ e ∈ tail.
Proof.
  unfold active_effect. intros He. destruct (meta m); simpl;
    rewrite ?elem_of_cons, ?elem_of_app, ?elem_of_cons, ?elem_of_nil; naive_solver.
Qed.

Lemma filter_settles d1 d2 r tail :
  filter (λ e, settles e = true) (EInProgress :: active_effect m d1 ++ ECall r :: tail ++ active_effect m d2)
  = filter (λ e, settles e = true) tail.
Proof.
  unfold active_effect. destruct (meta m); cbn [app];
    repeat (rewrite filter_cons_False by done); rewrite filter_app;
    repeat (rewrite filter_cons_False by done); by rewrite filter_nil, app_nil_r.
Qed.

(** The settlement after a callback: one effect. *)
Definition settlement (r : EventRef) : list effect :=
  match invoke fn r with Ok _ => [EAck] | Err c => retryOrPark cfg m c | Panic => [] end.

Lemma settlement_spec r :
  (fn r = Ok () ∧ settlement r = [EAck])
  ∨ (fn r ≠ Ok () ∧ (∃ md, meta m = Some md ∧ NumDelivered md < deliveryBudget cfg) ∧ settlement r = [ENak])
  ∨ (fn r ≠ Ok () ∧ (∀ md, meta m = Some md → deliveryBudget cfg ≤ NumDelivered md)
     ∧ ∃ c, settlement r = [EPark c]).
Proof.
  unfold settlement, invoke, retryOrPark.
  destruct (fn r) as [[]|e|]; [by left|right..];
    (destruct (meta m) as [md|]; [|right; naive_solver];
     destruct (Z.leb_spec (deliveryBudget cfg) (NumDelivered md)); [right|left]; naive_solver).
Qed.

Lemma settlement_no_call r r0 : ECall r0 ∉ settlement r.
Proof.
  destruct (settlement_spec r) as [(_ & ->)|[(_ & _ & ->)|(_ & _ & c & ->)]];
    by rewrite list_elem_of_singleton.
Qed.

Lemma handleEvent_calls r : ECall r ∈ handleEvent unmarshal cfg m fn ↔ carries r.
Proof.
  destruct handleEvent_cases as [(r' & Hr & E)|(Hn & c & ->)].
  - fold (settlement r') in E. rewrite E, call_in by apply settlement_no_call.
    split; [by intros ->|]. intros (? & _). destruct Hr as (? & _). congruence.
  - rewrite list_elem_of_singleton. split; [done|]. by intros ?%Hn.
Qed.

Lemma ex_and_swap {A B} (P : A → Prop) (Q : A → B → Prop) :
  (∃ a b, P a ∧ Q a b) ↔ ∃ a, P a ∧ ∃ b, Q a b.
Proof. naive_solver. Qed.

Definition calls (e : effect) : bool := match e with ECall _ => true | _ => false end.

(** One call, and nothing is called once the event is settled. *)
Lemma handleEvent_once :
  (length (filter (λ e, calls e = true) (handleEvent unmarshal cfg m fn)) ≤ 1)%nat
  ∧ ∀ pre e post r, handleEvent unmarshal cfg m fn = pre ++ e :: post → settles e = true → ECall r ∉ post.
Proof.
  destruct handleEvent_cases as [(r & _ & E)|(_ & c & ->)].
  - fold (settlement r) in E. rewrite E. clear E.
    assert (∃ e, settlement r = [e] ∧ calls e = false) as (e & -> & He).
    { destruct (settlement_spec r) as [(_ & ->)|[(_ & _ & ->)|(_ & _ & c & ->)]]; eauto. }
    unfold active_effect. destruct (meta m) as [md|]; cbn [app]; split.
    1, 3: by destruct e.
    all: intros pre e' post r' Epre He'; destruct pre as [|? [|? [|? [|? [|? [|? pre]]]]]]; simplify_eq/=;
      try done; intros Hin; repeat (apply elem_of_cons in Hin as [?|Hin]; [done|]);
      by apply elem_of_nil in Hin.
  - split; [simpl; lia|]. intros pre e post r E _.
    destruct pre as [|? [|? pre]]; simplify_eq/=. apply not_elem_of_nil.
Qed.

(** C31. Handling one delivered event. The callback runs at most once, and only on
    the complete reference the payload decodes to, whose own subject is the subject
    the event arrived on, so never for another tenant's row; the event is settled
    exactly once, and no callback runs after the settlement; it is acked exactly when
    the callback returned nil, redelivered exactly when the callback failed or
    panicked with attempts left, and parked in every other case, in particular at
    the last attempt of the budget. *)
Theorem handle_event_outcome :
  let es := handleEvent unmarshal cfg m fn in
  (length (filter (λ e, calls e = true) es) ≤ 1)%nat
  ∧ (∀ pre e post r, es = pre ++ e :: post → settles e = true → ECall r ∉ post)
  ∧ (∀ r, ECall r ∈ es ↔ carries r)
  ∧ length (filter (λ e, settles e = true) es) = 1%nat
  ∧ (EAck ∈ es ↔ ∃ r, carries r ∧ fn r = Ok ())
  ∧ (ENak ∈ es ↔ ∃ r md, carries r ∧ fn r ≠ Ok () ∧ meta m = Some md ∧ NumDelivered md < deliveryBudget cfg)
  ∧ ((∃ c, EPark c ∈ es) ↔
       (∀ r, ¬ carries r)
       ∨ ∃ r, carries r ∧ fn r ≠ Ok () ∧ ∀ md, meta m = Some md → deliveryBudget cfg ≤ NumDelivered md).
Proof.
  intros es. subst es. split; [apply handleEvent_once|]. split; [apply handleEvent_once|].
  destruct handleEvent_cases as [(r & Hr & E)|(Hn & c & ->)].
  - fold (settlement r) in E. rewrite E.
    assert (Huniq : ∀ r', carries r' → r' = r).
    { intros r' (? & _). destruct Hr as (? & _). congruence. }
    setoid_rewrite (call_in _ _ _ _ _ (settlement_no_call r _)).
    rewrite filter_settles. setoid_rewrite settle_in; [|done..].
    assert (Hex : ∀ P : EventRef → Prop, (∃ r', carries r' ∧ P r') ↔ P r).
    { intros P. split; [|eauto]. by intros (r' & ->%Huniq & ?). }
    assert (Hnot : ¬ ∀ r, ¬ carries r) by (intros H; by apply (H r)).
    setoid_rewrite ex_and_swap. rewrite !Hex.
    destruct (settlement_spec r) as [(Hf & ->)|[(Hf & (md & Hmd & Hlt) & ->)|(Hf & Hmd & c & ->)]];
      setoid_rewrite list_elem_of_singleton.
    + split_and!; [by split; [intros ->|apply Huniq]|done|done|split|split].
      * done.
      * by intros (md & Hf' & _).
      * by intros (c & ?).
      * by intros [?|[? _]].
    + split_and!; [by split; [intros ->|apply Huniq]|done|done|split|split].
      * intros _. by exists md.
      * done.
      * by intros (c & ?).
      * intros [?|[_ H]]; [done|]. specialize (H md Hmd). lia.
    + split_and!; [by split; [intros ->|apply Huniq]|done|done|split|split].
      * done.
      * intros (md & _ & Hmd' & Hlt). specialize (Hmd md Hmd'). lia.
      * intros _. by right.
      * intros _. by exists c.
  - setoid_rewrite list_elem_of_singleton. split_and!; [|done|..]; naive_solver.
Qed.
End Delivery.

(** ** Publishing *)

Section PublishFacts.
Context (marshal_ref : EventRef → option bytes) (unmarshal_ref : bytes → option EventRef)
        (marshal_change : BindingChange → option bytes) (unmarshal_change : bytes → option BindingChange)
        (sha256_hex : bytes → bytes) (ensureStream_ok publish_ok flush_ok : bool).

Let publish := Publish marshal_ref sha256_hex ensureStream_ok publish_ok.
Let publish_change := PublishBindingChange marshal_change publish_ok flush_ok.

Lemma Publish_sent closed subj r x :
  x ∈ (publish closed subj r).2 →
  closed = false ∧ RowID r ≠ [] ∧ CommsSubject (Tenant r) (Kind r) = Ok subj
  ∧ ∃ d, marshal_ref r = Some d ∧ x = SStream subj d (msgID sha256_hex r).
Proof.
  unfold publish, Publish. destruct closed; [by intros ?%not_elem_of_nil|].
  destruct (valid r) as [u|e|] eqn:Hv; [|by intros ?%not_elem_of_nil..].
  destruct (CommsSubject (Tenant r) (Kind r)) as [w|e|]; [|by intros ?%not_elem_of_nil..].
  case_bool_decide as Hw; [by intros ?%not_elem_of_nil|]. subst w.
  destruct ensureStream_ok; [|by intros ?%not_elem_of_nil]. cbn [negb].
  destruct (marshal_ref r) as [d|]; [|by intros ?%not_elem_of_nil].
  intros ->%list_elem_of_singleton. split_and!; [done| |done|eauto].
  unfold valid in Hv. apply rbind_Ok in Hv as (_ & _ & Hv). apply rbind_Ok in Hv as (_ & _ & Hv).
  by case_bool_decide.
Qed.

Lemma Publish_Ok closed subj r : (publish closed subj r).1 = Ok () → (publish closed subj r).2 ≠ [].
Proof.
  unfold publish, Publish. destruct closed; [done|].
  destruct (valid r); [|done..]. destruct (CommsSubject _ _); [|done..].
  case_bool_decide; [done|]. destruct ensureStream_ok; [|done]. by destruct (marshal_ref r).
Qed.

Lemma PublishBindingChange_sent closed t b x :
  x ∈ (publish_change closed t b).2 →
  closed = false ∧ bTenant b = t ∧ SessionID b ≠ [] ∧ Op b ≠ []
  ∧ ∃ s d, RoutingBindingSubject t = Ok s ∧ marshal_change b = Some d ∧ x = SCore s d.
Proof.
  unfold publish_change, PublishBindingChange. destruct closed; [by intros ?%not_elem_of_nil|].
  destruct (binding_valid b) as [u|e|] eqn:Hv; [|by intros ?%not_elem_of_nil..].
  destruct (RoutingBindingSubject t) as [w|e|] eqn:Hs; [|by intros ?%not_elem_of_nil..].
  case_bool_decide as Hw; [by intros ?%not_elem_of_nil|].
  destruct (marshal_change b) as [d|]; [|by intros ?%not_elem_of_nil].
  intros ->%list_elem_of_singleton.
  unfold binding_valid in Hv. apply rbind_Ok in Hv as (_ & _ & Hv).
  case_bool_decide as Hb; [done|]. split_and!; [done|done|done| |eauto].
  intros Ho. rewrite Ho in Hv. done.
Qed.

Lemma handleBindingChange_Some m b :
  handleBindingChange unmarshal_change m = Some b →
  unmarshal_change (data m) = Some b ∧ SessionID b ≠ [] ∧ Op b ≠ []
  ∧ RoutingBindingSubject (bTenant b) = Ok (subject m).
Proof.
  unfold handleBindingChange, decodeBindingChange.
  destruct (unmarshal_change (data m)) as [b'|]; [|done].
  destruct (ValidSubjectToken _ _) as [[]| |]; cbn [rbind]; [|done..].
  case_bool_decide; [done|]. case_bool_decide; [done|].
  destruct (RoutingBindingSubject _) as [w| |] eqn:Hs; [|done..].
  case_bool_decide; [done|]. intros [= <-]. subst w. done.
Qed.

(** What is published reaches the subscriber as it was: a successful [Publish]
    sends one message, any message it sends is on the subject the reference itself
    names and its handler runs the callback on exactly that reference; the same for
    a binding change, whose handler never reports a change of a tenant other than
    the one of the subject. The codec decodes what it encoded. *)
Theorem published_reaches_subscriber
    (Hcodec : ∀ r d, marshal_ref r = Some d → unmarshal_ref d = Some r)
    (Hcodec' : ∀ b d, marshal_change b = Some d → unmarshal_change d = Some b) :
  (∀ closed subj r, (publish closed subj r).1 = Ok () → (publish closed subj r).2 ≠ [])
  ∧ (∀ closed subj r s d i cfg md fn, SStream s d i ∈ (publish closed subj r).2 →
       s = subj ∧ i = msgID sha256_hex r
       ∧ ∀ r', ECall r' ∈ handleEvent unmarshal_ref cfg (mkMsg d s md) fn ↔ r' = r)
  ∧ (∀ closed t b s d md, SCore s d ∈ (publish_change closed t b).2 →
       handleBindingChange unmarshal_change (mkMsg d s md) = Some b)
  ∧ (∀ m b, handleBindingChange unmarshal_change m = Some b →
       RoutingBindingSubject (bTenant b) = Ok (subject m)).
Proof.
  split_and!.
  - apply Publish_Ok.
  - intros closed subj r s d i cfg md fn Hin.
    apply Publish_sent in Hin as (_ & Hr & Hs & d' & Hd & [= -> -> ->]).
    split_and!; [done|done|]. intros r'.
    rewrite handleEvent_calls. unfold carries; simpl. rewrite (Hcodec _ _ Hd). split; [by intros ([= ->] & _)|]. by intros ->.
  - intros closed t b s d md Hin.
    apply PublishBindingChange_sent in Hin as (_ & <- & Hb & Ho & s' & d' & Hs & Hd & [= -> ->]).
    unfold handleBindingChange, decodeBindingChange; simpl. rewrite (Hcodec' _ _ Hd).
    pose proof Hs as Hs'. apply RoutingBindingSubject_Ok in Hs' as [Ht _].
    apply (ValidSubjectToken_Ok "tenant" _ ()) in Ht as ->. cbn [rbind].
    rewrite !bool_decide_eq_false_2 by done. rewrite Hs. by rewrite bool_decide_eq_false_2 by auto.
  - intros m b H. by apply handleBindingChange_Some in H as (_ & _ & _ & ?).
Qed.
End PublishFacts.

Definition sample_ref : EventRef := mkEventRef (lit "acme") (lit "message_posted") (lit "m1").

Lemma published_reaches_subscriber_witness :
  let marshal r := if bool_decide (r = sample_ref) then Some (lit "{}") else None in
  let unmarshal d := if bool_decide (d = lit "{}") then Some sample_ref else None in
  let out := (Publish marshal (λ b, b) true true false
                (lit "compass.acme.comms.message_posted") sample_ref).2 in
  out ≠ [] ∧ ECall sample_ref ∈
    handleEvent unmarshal (mkConfig [] 0 0 0 0 0 0 0)
      (mkMsg (lit "{}") (lit "compass.acme.comms.message_posted") None) (λ _, Ok ()).
Proof.
  intros marshal unmarshal out.
  destruct (published_reaches_subscriber marshal unmarshal (λ _, None) (λ _, None) (λ b, b) true true true)
    as (H1 & H2 & _).
  - intros r d. unfold marshal, unmarshal. by case_bool_decide; [intros [= <-]; subst|].
  - done.
  - split; [by apply H1|].
    apply (H2 false (lit "compass.acme.comms.message_posted") sample_ref _ _ (msgID_input sample_ref)); [|done].
    change (Publish marshal _ true true false _ sample_ref).2
      with [SStream (lit "compass.acme.comms.message_posted") (lit "{}") (msgID_input sample_ref)].
    left.
Defined.

(** ** Bounds *)

Lemma ackWait_bounds c : config_ok c → 0 < ackWait c ≤ MaxInt64.
Proof.
  intros (_ & H & _). unfold ackWait, positive_or, in_i64, DefaultAckWait, Second, Millisecond, MinInt64, MaxInt64 in *.
  destruct (Z.ltb_spec 0 (AckWait c)); lia.
Qed.

Lemma maxAge_bounds c : config_ok c → 0 < maxAge c ≤ MaxInt64.
Proof.
  intros (_ & _ & H). unfold maxAge, positive_or, in_i64, DefaultMaxAge, Hour, Minute, Second, Millisecond, MinInt64, MaxInt64 in *.
  destruct (Z.ltb_spec 0 (MaxAge c)); lia.
Qed.

Lemma inactiveThreshold_bounds c :
  config_ok c → testInactiveThreshold c = 0 →
  MinInactiveThreshold ≤ inactiveThreshold c ≤ threshold_ceiling
  ∧ (2 * maxAge c ≤ inactiveThreshold c ∨ inactiveThreshold c = threshold_ceiling).
Proof.
  intros Hc Ht. pose proof (maxAge_bounds c Hc) as Ha. unfold inactiveThreshold. rewrite Ht. cbn [Z.ltb Z.compare].
  destruct (Z.ltb_spec (threshold_ceiling / 2) (maxAge c)) as [Hlt|Hge].
  - unfold threshold_ceiling, MinInactiveThreshold, Hour, Minute, Second, Millisecond, MaxInt64. lia.
  - assert (2 * maxAge c ≤ threshold_ceiling).
    { pose proof (Z.mul_div_le threshold_ceiling 2). lia. }
    rewrite i64_small.
    + unfold threshold_ceiling, MinInactiveThreshold, Hour, Minute, Second, Millisecond, MaxInt64 in *. lia.
    + unfold in_i64, threshold_ceiling, Second, Millisecond, MaxInt64, MinInt64 in *. lia.
Qed.

(** Doubling and capping never leaves the range, nor wraps, while the cap is at
    most half of the range. *)
Lemma retry_delays_bounds c n d :
  config_ok c → ackWait c ≤ MaxInt64 / 2 → 0 < d ≤ ackWait c →
  Forall (λ w, 0 < w ≤ ackWait c) (retry_delays c n d).
Proof.
  intros Hc Hhalf. revert d; induction n as [|n IH]; intros d Hd; [constructor|].
  constructor; [done|]. apply IH. rewrite i64_small.
  - pose proof (ackWait_bounds c Hc). lia.
  - pose proof (Z.mul_div_le MaxInt64 2). unfold in_i64, MinInt64. lia.
Qed.

Lemma backlog_bounds p a :
  0 ≤ p < 2 ^ 64 → in_i64 a → backlog p a = Z.min (p + Z.max a 0) MaxInt64.
Proof.
  intros Hp Ha. unfold backlog. rewrite (u64_small (Z.max a 0)) by (unfold in_i64, MinInt64, MaxInt64 in *; lia).
  unfold in_i64, MinInt64, MaxInt64 in *. destruct (Z_lt_le_dec (p + Z.max a 0) (2 ^ 64)) as [Hs|Hs].
  - rewrite u64_small by lia. rewrite (proj2 (Z.ltb_ge _ p)) by lia. cbn [orb].
    destruct (Z.ltb_spec (2 ^ 63 - 1) (p + Z.max a 0)); [lia|].
    rewrite i64_small by (unfold in_i64, MinInt64, MaxInt64; lia). lia.
  - assert (Hw : u64 (p + Z.max a 0) = p + Z.max a 0 - 2 ^ 64).
    { unfold u64. rewrite <- (Z.mod_add _ (-1)) by lia. rewrite Z.mod_small; lia. }
    rewrite Hw, (proj2 (Z.ltb_lt _ p)) by lia. cbn [orb]. lia.
Qed.

(** The derived limits hold for every configuration of machine-width fields:
    the attempt budget is at least one and is the [MaxDeliver] given to the server;
    a consumer is reaped no sooner than an hour and, unless the ceiling is reached,
    no sooner than twice the replay window, and the ceiling leaves the two seconds
    the server may add below the 64-bit limit; the delays between attempts to
    recreate a consumer are positive and capped by [AckWait]; the backlog gauge is
    the exact sum, clamped. *)
Theorem fabric_bounds (c : Config) (n : nat) (pending ackPending : Z)
    (Hc : config_ok c) (Hp : 0 ≤ pending < 2 ^ 64) (Ha : in_i64 ackPending) :
  (1 ≤ deliveryBudget c ∧ deliveryBudget c = maxDeliver c)
  ∧ (testInactiveThreshold c = 0 →
       MinInactiveThreshold ≤ inactiveThreshold c ∧ inactiveThreshold c + 2 * Second ≤ MaxInt64
       ∧ (2 * maxAge c ≤ inactiveThreshold c ∨ inactiveThreshold c = threshold_ceiling))
  ∧ (ackWait c ≤ MaxInt64 / 2 → Forall (λ w, 0 < w ≤ ackWait c) (retryUntil_delays c n))
  ∧ backlog pending ackPending = Z.min (pending + Z.max ackPending 0) MaxInt64.
Proof.
  refine (conj _ (conj _ (conj _ _))).
  - by apply deliveryBudget_positive.
  - intros Ht. destruct (inactiveThreshold_bounds c Hc Ht) as ([? H] & ?).
    split_and!; [done| |done]. unfold threshold_ceiling in H. lia.
  - intros Hh. apply retry_delays_bounds; [done|done|].
    pose proof (ackWait_bounds c Hc). unfold recreateRetryFloor, Millisecond. lia.
  - by apply backlog_bounds.
Qed.

Lemma fabric_bounds_witness :
  let c := mkConfig [] 0 0 0 0 0 0 0 in
  deliveryBudget c = 5 ∧ backlog (2 ^ 64 - 1) 7 = MaxInt64
  ∧ Forall (λ w, 0 < w ≤ ackWait c) (retryUntil_delays c 12).
Proof.
  intros c. destruct (fabric_bounds c 12 (2 ^ 64 - 1) 7) as (_ & _ & H & H').
  - by vm_compute.
  - by vm_compute.
  - by vm_compute.
  - split_and!; [done|done|]. apply H. by vm_compute.
Defined.

(** ** Text that reaches logs and headers *)

Lemma last_at_None s : last_at s = None ↔ "@"%char ∉ s.
Proof.
  induction s as [|c s IH]; simpl.
  - split; [|done]. by intros _ ?%not_elem_of_nil.
  - destruct (last_at s) as [[a b]|].
    + split; [done|]. intros [_ H]%not_elem_of_cons. by apply IH in H.
    + rewrite not_elem_of_cons. case_bool_decide as Hc.
      * split; [done|]. intros [? _]. congruence.
      * split; [|done]. intros _. split; [congruence|by apply IH].
Qed.

Lemma last_at_sound s a b : last_at s = Some (a, b) → s = a ++ "@"%char :: b ∧ "@"%char ∉ b.
Proof.
  revert a b; induction s as [|c s IH]; intros a b; simpl; [done|].
  destruct (last_at s) as [[a' b']|] eqn:E.
  - intros [= <- <-]. destruct (IH a' b' eq_refl) as [-> Hb]. done.
  - apply last_at_None in E. case_bool_decide; [|done]. intros [= <- <-]. by subst.
Qed.

Lemma last_at_Some s a b : last_at s = Some (a, b) ↔ s = a ++ "@"%char :: b ∧ "@"%char ∉ b.
Proof.
  split; [apply last_at_sound|]. intros [-> Hb].
  destruct (last_at (a ++ "@"%char :: b)) as [[a' b']|] eqn:E.
  - apply last_at_sound in E as [E Hb']. apply last_sep_inj in E as [-> ->]; done.
  - apply last_at_None in E. destruct E. apply elem_of_app. right. left.
Qed.

Lemma before_sub_prefix s sub p : before_sub s sub = Some p → ∃ rest, s = p ++ rest.
Proof.
  revert p; induction s as [|x s IH]; intros p; simpl; destruct (has_prefix _ _);
    try (intros [= <-]; by eexists).
  intros (q & Hq & ->)%fmap_Some. destruct (IH q Hq) as [rest ->]. by exists rest.
Qed.

Lemma sanitizeReason_clean s :
  (length (sanitizeReason s) ≤ maxParkReason)%nat
  ∧ ∀ c, c ∈ sanitizeReason s → code c ≠ 13%nat ∧ code c ≠ 10%nat.
Proof.
  set (f := λ c : ascii, if ((code c =? 13) || (code c =? 10))%nat then " "%char else c).
  assert (Hf : ∀ c, c ∈ f <$> s → code c ≠ 13%nat ∧ code c ≠ 10%nat).
  { intros c (d & -> & _)%list_elem_of_fmap. unfold f.
    destruct (Nat.eqb_spec (code d) 13); [done|]. destruct (Nat.eqb_spec (code d) 10); done. }
  unfold sanitizeReason. fold f. destruct (Nat.ltb_spec maxParkReason (length (f <$> s))).
  - split; [rewrite length_take; lia|]. intros c Hc. apply Hf. apply elem_of_take in Hc as (i & Hc & _). by eapply list_elem_of_lookup_2.
  - done.
Qed.

(** What leaves the process as text is safe to write down: a URL with
    credentials is logged as a lower-case scheme and the bytes after its last [@],
    so nothing before that [@] but a scheme is shown, and the result has exactly the
    one [@]; a dead-letter record is on the dead-letter subject, keeps the payload
    and the original subject, and its reason has no line break and at most 256
    bytes. *)
Theorem logged_text_is_clean (raw pre host : bytes) render origin payload trace c :
  (raw = pre ++ "@"%char :: host ∧ "@"%char ∉ host →
     ∃ scheme, forallb is_lower scheme = true
       ∧ redactURL raw = scheme ++ lit "://<redacted>@" ++ host
       ∧ (scheme = lit "nats" ∨ ∃ rest, pre = scheme ++ rest))
  ∧ ("@"%char ∉ raw → redactURL raw = raw)
  ∧ (let r := publishDLQ render origin payload trace c in
     dlq_subject r = DLQSubject ∧ dlq_data r = payload ∧ dlq_origin r = origin
     ∧ (length (dlq_reason r) ≤ maxParkReason)%nat
     ∧ ∀ b, b ∈ dlq_reason r → code b ≠ 13%nat ∧ code b ≠ 10%nat).
Proof.
  refine (conj _ (conj _ _)); [| |split_and!; [done|done|done|apply sanitizeReason_clean..]].
  - intros H. apply last_at_Some in H. unfold redactURL. rewrite H.
    destruct (before_sub pre (lit "://")) as [p|] eqn:Hp; [|by exists (lit "nats"); auto].
    destruct (negb _ && forallb is_lower p) eqn:Hl; [|by exists (lit "nats"); auto].
    apply andb_prop in Hl as [_ Hl]. exists p. split_and!; [done|done|right].
    by eapply before_sub_prefix.
  - intros H. apply last_at_None in H. unfold redactURL. by rewrite H.
Qed.

End Fabric.
