(* ===== verification/Parking.v ===== *)
(** The dead-letter parking protocol ([fabric/event_fabric.go]: [claimPark],
    [finishParkClaim], [activeParkAttempt], and the order in which [park] and the
    advisory handler of [parkOnMaxDeliveries] call them). Each section of code
    under [parkedMu] is one function on the shared state; the goroutines that park
    are a transition system in which every interleaving of these sections is a
    run. The theorem: a message is dead-lettered once for each time its claim is
    made, whatever the interleaving, and no goroutine waits for ever. *)
From stdpp Require Import base gmap list strings.
From Stdlib Require Import ZArith Lia.
From S2P Require Import Prelude Text Subjects Fabric.

Open Scope Z_scope.

Module Parking.
Import Fabric.

(** A claim is a shared object: the map holds a reference to it, and so does every
    goroutine that found it there. *)
Record parkClaim := mkClaim {
  closed : bool;  (** [done] is closed *)
  inFlight : bool;
  published : bool;
  expires : Z;
}.

Record parkState := mkPark {
  parkedSequences : gmap parkKey nat;
  claims : gmap nat parkClaim;
  nextClaim : nat;
  activePark : gmap parkKey Z;
}.

Definition set_claims (s : parkState) (m : gmap nat parkClaim) : parkState :=
  mkPark (parkedSequences s) m (nextClaim s) (activePark s).

(** [f.cfg.maxAge() + 2*f.cfg.ackWait()]. *)
Definition retention (cfg : Config) : Z := i64 (maxAge cfg + i64 (2 * ackWait cfg)).

Definition refresh (cfg : Config) (now : Z) (c : parkClaim) : parkClaim :=
  mkClaim (closed c) (inFlight c) (published c) (now + retention cfg).

Definition activeParkAttempt (cfg : Config) (now : Z) (k : parkKey) (delta : Z) (s : parkState) : parkState :=
  let n := mget 0 (activePark s) k + delta in
  if (delta <? 0) && (n =? 0) then
    let s' := mkPark (parkedSequences s) (claims s) (nextClaim s) (delete k (activePark s)) in
    match parkedSequences s !! k with
    | Some id =>
        match claims s !! id with
        | Some c => if inFlight c then s' else set_claims s' (<[id := refresh cfg now c]> (claims s))
        | None => s'
        end
    | None => s'
    end
  else mkPark (parkedSequences s) (claims s) (nextClaim s) (<[k := n]> (activePark s)).

(** The pruning condition of [claimPark]. *)
Definition expired (now : Z) (s : parkState) (k : parkKey) (id : nat) : bool :=
  (mget 0 (activePark s) k =? 0) &&
  match claims s !! id with
  | Some c => negb (inFlight c) && (expires c <? now)
  | None => false
  end.

Definition prune (now : Z) (s : parkState) : parkState :=
  mkPark (filter (λ p, expired now s p.1 p.2 = false) (parkedSequences s))
    (claims s) (nextClaim s) (activePark s).

(** One turn of the loop of [claimPark] up to its first unlock: the claim, and
    whether the caller owns it. *)
Definition claimPark_try (now : Z) (k : parkKey) (s : parkState) : parkState * (nat * bool) :=
  let s := prune now s in
  match parkedSequences s !! k with
  | None =>
      let id := nextClaim s in
      (mkPark (<[k := id]> (parkedSequences s))
         (<[id := mkClaim false true false 0]> (claims s)) (S id) (activePark s), (id, true))
  | Some id => (s, (id, false))
  end.

(** The section after the wait: whether the owner published; if so the entry is
    kept for another retention. *)
Definition claimPark_settled (cfg : Config) (now : Z) (k : parkKey) (id : nat) (s : parkState)
    : parkState * bool :=
  match claims s !! id with
  | None => (s, false)
  | Some c =>
      (if published c && bool_decide (parkedSequences s !! k = Some id)
       then set_claims s (<[id := refresh cfg now c]> (claims s)) else s,
       published c)
  end.

Definition finishParkClaim (cfg : Config) (now : Z) (k : parkKey) (id : nat) (ok : bool) (s : parkState)
    : parkState * bool :=
  match claims s !! id with
  | None => (s, false)
  | Some c =>
      if bool_decide (parkedSequences s !! k ≠ Some id) || negb (inFlight c) then (s, false)
      else
        let e := if ok then now + retention cfg else expires c in
        (mkPark (if ok then parkedSequences s else delete k (parkedSequences s))
           (<[id := mkClaim true false ok e]> (claims s)) (nextClaim s) (activePark s), true)
  end.

(** ** The goroutines *)

(** How a parking attempt ended: its own publish and its success, another
    goroutine's published record, or the end of its context while waiting. *)
Inductive outcome := Owned (ok : bool) | Settled | Cancelled.

Inductive pc :=
| Try                          (** about to enter [claimPark]'s loop *)
| Wait (id : nat)              (** waiting for the owner *)
| Publish (id : nat)           (** owns the claim, about to publish *)
| Finish (id : nat) (ok : bool)  (** published or failed, about to finish *)
| Done (o : outcome).

Record sys := mkSys {
  st : parkState;
  threads : gmap nat (parkKey * pc);
  dlq : list parkKey;      (** the records on the dead-letter subject, by message *)
  pruned : list parkKey;   (** the entries pruning has removed *)
}.

Definition goto (s : sys) (t : nat) (k : parkKey) (p : pc) (st' : parkState) : sys :=
  mkSys st' (<[t := (k, p)]> (threads s)) (dlq s) (pruned s).

Definition pruned_keys (now : Z) (s : parkState) : list parkKey :=
  (map_to_list (filter (λ p, expired now s p.1 p.2 = true) (parkedSequences s))).*1.

Section Steps.
Context (cfg : Config).

(** The next section of the code goroutine [t] is at, other than leaving the wait
    because its context ended. *)
Inductive act (t : nat) (s : sys) : sys → Prop :=
| ATry k now :
    threads s !! t = Some (k, Try) →
    act t s
      (let '(st', (id, owner)) := claimPark_try now k (st s) in
       mkSys st' (<[t := (k, if owner then Publish id else Wait id)]> (threads s))
         (dlq s) (pruned_keys now (st s) ++ pruned s))
| ASettled k id now :
    threads s !! t = Some (k, Wait id) →
    (∃ c, claims (st s) !! id = Some c ∧ closed c = true) →
    act t s
      (let '(st', pub) := claimPark_settled cfg now k id (st s) in
       goto s t k (if pub then Done Settled else Try) st')
| APublish k id ok :
    threads s !! t = Some (k, Publish id) →
    act t s (mkSys (st s) (<[t := (k, Finish id ok)]> (threads s))
               (if ok then k :: dlq s else dlq s) (pruned s))
| AFinish k id ok now :
    threads s !! t = Some (k, Finish id ok) →
    act t s (goto s t k (Done (Owned ok)) (finishParkClaim cfg now k id ok (st s)).1).

(** A run interleaves these sections with new attempts, contexts that end while
    their goroutine waits, and deliveries that begin and end. *)
Inductive step : sys → sys → Prop :=
| SSpawn s t k :
    threads s !! t = None → step s (goto s t k Try (st s))
| SAct t s s' : act t s s' → step s s'
| SCancel s t k id c :
    threads s !! t = Some (k, Wait id) → claims (st s) !! id = Some c → closed c = false →
    step s (goto s t k (Done Cancelled) (st s))
| SActive s k delta now :
    step s (mkSys (activeParkAttempt cfg now k delta (st s)) (threads s) (dlq s) (pruned s)).

Definition init : sys := mkSys (mkPark ∅ ∅ 0 ∅) ∅ [] [].

Inductive reachable : sys → Prop :=
| reach_init : reachable init
| reach_step s s' : reachable s → step s s' → reachable s'.
End Steps.

(** ** The invariant *)

Definition count (k : parkKey) (l : list parkKey) : nat := length (filter (λ x, x = k) l).

(** The flags of a claim: in flight, published, or given up. *)
Definition flags : Type := bool * bool * bool.
Definition flight : flags := (false, true, false).
Definition pub : flags := (true, false, true).
Definition failed : flags := (true, false, false).

Definition flags_of (s : parkState) (id : nat) : option flags :=
  (λ c, (closed c, inFlight c, published c)) <$> claims s !! id.

Definition owner (p : pc) (id : nat) : Prop := p = Publish id ∨ ∃ ok, p = Finish id ok.

Record Inv (P : gmap parkKey nat) (F : nat → option flags) (n : nat)
    (T : gmap nat (parkKey * pc)) (D U : list parkKey) : Prop := {
  inv_parked k id : P !! k = Some id → (id < n)%nat ∧
    ((F id = Some flight ∧ ∃ t p, T !! t = Some (k, p) ∧ owner p id) ∨ F id = Some pub);
  inv_inj k k' id : P !! k = Some id → P !! k' = Some id → k = k';
  inv_owner t k p id : T !! t = Some (k, p) → owner p id → P !! k = Some id ∧ F id = Some flight;
  inv_uniq t t' k k' p p' id : T !! t = Some (k, p) → T !! t' = Some (k', p') →
    owner p id → owner p' id → t = t';
  inv_wait t k id : T !! t = Some (k, Wait id) → (id < n)%nat ∧
    (P !! k = Some id ∨ (F id = Some pub ∧ (1 ≤ count k D)%nat) ∨ F id = Some failed);
  inv_free k : P !! k = None → count k D = count k U;
  inv_pub k id : P !! k = Some id → F id = Some pub → count k D = S (count k U);
  inv_publish t k id : T !! t = Some (k, Publish id) → count k D = count k U;
  inv_finish t k id ok : T !! t = Some (k, Finish id ok) →
    count k D = (count k U + if ok then 1 else 0)%nat;
  inv_done t k o : T !! t = Some (k, Done o) → o = Owned true ∨ o = Settled → (1 ≤ count k D)%nat;
}.

Definition sys_inv (s : sys) : Prop :=
  Inv (parkedSequences (st s)) (flags_of (st s)) (nextClaim (st s)) (threads s) (dlq s) (pruned s).

Lemma count_app k l1 l2 : count k (l1 ++ l2) = (count k l1 + count k l2)%nat.
Proof. unfold count. by rewrite filter_app, length_app. Qed.

Lemma count_cons_eq k l : count k (k :: l) = S (count k l).
Proof. unfold count. by rewrite filter_cons_True. Qed.

Lemma count_cons_ne k k' l : k' ≠ k → count k (k' :: l) = count k l.
Proof. intros. unfold count. by rewrite filter_cons_False. Qed.

Lemma count_nodup k l : NoDup l → count k l = if decide (k ∈ l) then 1%nat else 0%nat.
Proof.
  induction 1 as [|x l Hx _ IH]; [done|]. destruct (decide (x = k)) as [->|Hne].
  - rewrite count_cons_eq, IH. rewrite decide_False by done. by rewrite decide_True by left.
  - rewrite count_cons_ne, IH by done. destruct (decide (k ∈ l)) as [Hk|Hk].
    + by rewrite decide_True by (by right).
    + rewrite decide_False; [done|]. rewrite elem_of_cons. naive_solver.
Qed.

(** Case analysis on the lookups of an updated thread table. *)
Ltac threads_case :=
  repeat match goal with
  | H : <[_ := _]> _ !! _ = Some _ |- _ =>
      apply lookup_insert_Some in H as [[? ?]|[? H]]; simplify_eq
  end.

Lemma pub_flight : pub ≠ flight.
Proof. done. Qed.

Lemma owner_Publish id id' : owner (Publish id) id' ↔ id = id'.
Proof. unfold owner. naive_solver. Qed.

Lemma owner_Finish id ok id' : owner (Finish id ok) id' ↔ id = id'.
Proof. unfold owner. naive_solver. Qed.

Lemma owner_other p id : owner p id → (∃ ok, p = Finish id ok) ∨ p = Publish id.
Proof. unfold owner. naive_solver. Qed.

(** A goroutine that owns nothing moves to a state that owns nothing. *)
Lemma inv_goto P F n T D U t k p :
  Inv P F n T D U →
  (∀ k' p' id, T !! t = Some (k', p') → ¬ owner p' id) → (∀ id, ¬ owner p id) →
  (∀ id, p = Wait id → (id < n)%nat ∧
     (P !! k = Some id ∨ (F id = Some pub ∧ (1 ≤ count k D)%nat) ∨ F id = Some failed)) →
  (∀ o, p = Done o → o = Owned true ∨ o = Settled → (1 ≤ count k D)%nat) →
  Inv P F n (<[t := (k, p)]> T) D U.
Proof.
  intros I Hold Hnew Hw Hd. split.
  - intros k' id Hk. destruct (inv_parked _ _ _ _ _ _ I k' id Hk) as [Hn [[HF (t' & p' & Ht & Ho)]|HF]].
    + split; [done|]. left. split; [done|]. exists t', p'. split; [|done].
      rewrite lookup_insert_ne; [done|]. intros <-. by eapply Hold.
    + auto.
  - apply I.
  - intros t' k' p' id Ht Ho. threads_case; [by apply Hnew in Ho|]. eapply (inv_owner _ _ _ _ _ _ I); eauto.
  - intros t1 t2 k1 k2 p1 p2 id H1 H2 Ho1 Ho2. threads_case; try done; try (exfalso; by eapply Hnew).
    eapply (inv_uniq _ _ _ _ _ _ I); eauto.
  - intros t' k' id Ht. threads_case; [by apply Hw|]. eapply (inv_wait _ _ _ _ _ _ I); eauto.
  - apply I.
  - apply I.
  - intros t' k' id Ht. threads_case; [|eapply (inv_publish _ _ _ _ _ _ I); eauto]. by destruct (Hnew id); left.
  - intros t' k' id ok Ht. threads_case; [|eapply (inv_finish _ _ _ _ _ _ I); eauto]. by destruct (Hnew id); right; exists ok.
  - intros t' k' o Ht Ho. threads_case; [by eapply Hd|]. eapply (inv_done _ _ _ _ _ _ I); eauto.
Qed.

Lemma inv_ext P F F' n T D U : (∀ id, F' id = F id) → Inv P F n T D U → Inv P F' n T D U.
Proof.
  intros E I. split; try apply I.
  - intros k id. rewrite E. apply I.
  - intros t k p id. rewrite E. apply I.
  - intros t k id. rewrite E. apply I.
  - intros k id. rewrite E. apply I.
Qed.

Ltac use I := eapply I; eauto.

(** Pruning removes published entries only. *)
Lemma inv_prune P P' F n T D U R :
  Inv P F n T D U → NoDup R →
  (∀ k id, P' !! k = Some id ↔ P !! k = Some id ∧ k ∉ R) →
  (∀ k, k ∈ R → ∃ id, P !! k = Some id ∧ F id = Some pub) →
  Inv P' F n T D (R ++ U).
Proof.
  intros I Hnd HP HR.
  assert (Hcount : ∀ k, k ∉ R → count k (R ++ U) = count k U).
  { intros k Hk. rewrite count_app, count_nodup, decide_False by done. done. }
  assert (Hin : ∀ k, k ∈ R → count k D = count k (R ++ U)).
  { intros k Hk. destruct (HR k Hk) as (id & HPk & HF). rewrite count_app, (count_nodup k R), decide_True by done.
    rewrite (inv_pub _ _ _ _ _ _ I k id) by done. lia. }
  assert (Hown : ∀ t k p id, T !! t = Some (k, p) → owner p id → k ∉ R).
  { intros t k p id Ht Ho Hk. destruct (HR k Hk) as (id' & HPk & HF).
    destruct (inv_owner _ _ _ _ _ _ I t k p id Ht Ho) as [HPk' HF'].
    pose proof pub_flight. congruence. }
  split.
  - intros k id Hk. apply HP in Hk as [Hk _]. use (inv_parked _ _ _ _ _ _ I).
  - intros k k' id Hk Hk'. apply HP in Hk as [Hk _]. apply HP in Hk' as [Hk' _]. use (inv_inj _ _ _ _ _ _ I).
  - intros t k p id Ht Ho. destruct (inv_owner _ _ _ _ _ _ I t k p id Ht Ho) as [HPk HF].
    split; [|done]. apply HP. split; [done|]. by eapply Hown.
  - apply I.
  - intros t k id Ht. destruct (inv_wait _ _ _ _ _ _ I t k id Ht) as [Hn [HPk|Hw]]; split; auto.
    destruct (decide (k ∈ R)) as [Hk|Hk]; [|left; by apply HP].
    right. left. destruct (HR k Hk) as (id' & HPk' & HF). assert (id' = id) as -> by congruence.
    split; [done|]. rewrite (inv_pub _ _ _ _ _ _ I k id) by done. lia.
  - intros k Hk. destruct (decide (k ∈ R)) as [HkR|HkR]; [by apply Hin|].
    rewrite Hcount by done. apply (inv_free _ _ _ _ _ _ I). destruct (P !! k) as [id|] eqn:HPk; [|done].
    assert (P' !! k = Some id) by (by apply HP). congruence.
  - intros k id Hk HF. apply HP in Hk as [Hk HkR]. rewrite Hcount by done. use (inv_pub _ _ _ _ _ _ I).
  - intros t k id Ht. rewrite Hcount by (eapply Hown; [done|by left]). use (inv_publish _ _ _ _ _ _ I).
  - intros t k id ok Ht. rewrite Hcount by (eapply Hown; [done|right; by eexists]).
    use (inv_finish _ _ _ _ _ _ I).
  - apply I.
Qed.

(** A new claim: the caller owns it. *)
Lemma inv_claim P F F' n T D U t k :
  Inv P F n T D U → P !! k = None → T !! t = Some (k, Try) →
  F' n = Some flight → (∀ id, id ≠ n → F' id = F id) →
  Inv (<[k := n]> P) F' (S n) (<[t := (k, Publish n)]> T) D U.
Proof.
  intros I HPk Ht HFn HF.
  assert (Hlt : ∀ k id, P !! k = Some id → (id < n)%nat).
  { intros k' id Hk'. by apply (inv_parked _ _ _ _ _ _ I) in Hk' as [? _]. }
  assert (Hold : ∀ t' k' p id, T !! t' = Some (k', p) → owner p id → k' ≠ k ∧ t' ≠ t ∧ (id < n)%nat).
  { intros t' k' p id Ht' Ho. destruct (inv_owner _ _ _ _ _ _ I t' k' p id Ht' Ho) as [HPk' _].
    split_and!; [congruence| |by eapply Hlt].
    intros ->. rewrite Ht in Ht'. injection Ht' as <- <-. by destruct Ho as [?|[??]]. }
  split.
  - intros k' id Hk'. apply lookup_insert_Some in Hk' as [[<- <-]|[Hne Hk']].
    + split; [lia|]. left. split; [done|]. exists t, (Publish n). rewrite lookup_insert_eq.
      split; [done|by left].
    + pose proof (Hlt _ _ Hk'). rewrite HF by lia.
      destruct (inv_parked _ _ _ _ _ _ I k' id Hk') as [_ [[HF' (t' & p & Ht' & Ho)]|HF']]; split; auto.
      left. split; [done|]. exists t', p. split; [|done]. rewrite lookup_insert_ne; [done|].
      intros <-. by destruct (Hold _ _ _ _ Ht' Ho) as (_ & ? & _).
  - intros k1 k2 id H1 H2. apply lookup_insert_Some in H1 as [[<- <-]|[? H1]];
      apply lookup_insert_Some in H2 as [[<- ?]|[? H2]]; [done| | |by use (inv_inj _ _ _ _ _ _ I)].
    + apply Hlt in H2. lia.
    + apply Hlt in H1. lia.
  - intros t' k' p id Ht' Ho. threads_case.
    + apply owner_Publish in Ho as <-. by rewrite lookup_insert_eq.
    + destruct (Hold _ _ _ _ Ht' Ho) as (Hne & _ & Hn). rewrite lookup_insert_ne, HF by (done || lia).
      use (inv_owner _ _ _ _ _ _ I).
  - intros t1 t2 k1 k2 p1 p2 id H1 H2 Ho1 Ho2. threads_case; try done;
      [..|use (inv_uniq _ _ _ _ _ _ I)];
      (match goal with Ho : owner (Publish _) _ |- _ => apply owner_Publish in Ho as <- end;
       match goal with Ht : T !! _ = Some _, Ho : owner _ n |- _ =>
         destruct (Hold _ _ _ _ Ht Ho) as (_ & _ & ?); lia end).
  - intros t' k' id Ht'. threads_case.
    destruct (inv_wait _ _ _ _ _ _ I t' k' id Ht') as [Hn Hw]. rewrite HF by lia. split; [lia|].
    destruct Hw as [HPk'|Hw]; [|by right]. left. rewrite lookup_insert_ne; [done|congruence].
  - intros k' Hk'. apply lookup_insert_None in Hk' as [Hk' _]. use (inv_free _ _ _ _ _ _ I).
  - intros k' id Hk' HF'. apply lookup_insert_Some in Hk' as [[<- <-]|[Hne Hk']];
      [pose proof pub_flight; congruence|].
    rewrite HF in HF' by (apply Hlt in Hk'; lia). use (inv_pub _ _ _ _ _ _ I).
  - intros t' k' id Ht'. threads_case; [use (inv_free _ _ _ _ _ _ I)|use (inv_publish _ _ _ _ _ _ I)].
  - intros t' k' id ok Ht'. threads_case. use (inv_finish _ _ _ _ _ _ I).
  - intros t' k' o Ht'. threads_case. use (inv_done _ _ _ _ _ _ I).
Qed.

(** Two owners of one key are one goroutine. *)
Lemma inv_owner_key P F n T D U t t' k p p' id id' :
  Inv P F n T D U → T !! t = Some (k, p) → T !! t' = Some (k, p') →
  owner p id → owner p' id' → t = t'.
Proof.
  intros I Ht Ht' Ho Ho'. destruct (inv_owner _ _ _ _ _ _ I _ _ _ _ Ht Ho) as [HP _].
  destruct (inv_owner _ _ _ _ _ _ I _ _ _ _ Ht' Ho') as [HP' _].
  assert (id' = id) as -> by congruence. by eapply (inv_uniq _ _ _ _ _ _ I).
Qed.

Lemma inv_publish_step P F n T D U t k id ok :
  Inv P F n T D U → T !! t = Some (k, Publish id) →
  Inv P F n (<[t := (k, Finish id ok)]> T) (if ok then k :: D else D) U.
Proof.
  intros I Ht. set (D' := if ok then k :: D else D).
  destruct (inv_owner _ _ _ _ _ _ I t k (Publish id) id Ht) as [HPk HFk]; [by left|].
  assert (Hne : ∀ k', k' ≠ k → count k' D' = count k' D).
  { intros k' Hk'. unfold D'. destruct ok; [|done]. by rewrite count_cons_ne. }
  assert (Hge : ∀ k', (count k' D ≤ count k' D')%nat).
  { intros k'. unfold D'. destruct ok; [|done]. destruct (decide (k' = k)) as [->|].
    - rewrite count_cons_eq. lia.
    - by rewrite count_cons_ne. }
  assert (Hold : ∀ t' k' p id', t' ≠ t → T !! t' = Some (k', p) → owner p id' → k' ≠ k).
  { intros t' k' p id' Hne' Ht' Ho ->. destruct Hne'.
    eapply (inv_owner_key P F n T D U t' t k); eauto. by left. }
  split.
  - intros k' id' Hk'. destruct (inv_parked _ _ _ _ _ _ I k' id' Hk') as [Hn [[HF (t' & p & Ht' & Ho)]|HF]];
      split; auto. left. split; [done|]. destruct (decide (t' = t)) as [->|Hne'].
    + rewrite Ht in Ht'. injection Ht' as <- <-. apply owner_Publish in Ho as <-.
      exists t, (Finish id ok). rewrite lookup_insert_eq. split; [done|]. right. by exists ok.
    + exists t', p. by rewrite lookup_insert_ne.
  - apply I.
  - intros t' k' p id' Ht' Ho. threads_case; [|use (inv_owner _ _ _ _ _ _ I)].
    by apply owner_Finish in Ho as <-.
  - intros t1 t2 k1 k2 p1 p2 id' H1 H2 Ho1 Ho2. threads_case; try done; [..|use (inv_uniq _ _ _ _ _ _ I)];
      (match goal with Ho : owner (Finish _ _) _ |- _ => apply owner_Finish in Ho as <- end);
      [symmetry|]; by eapply (inv_uniq _ _ _ _ _ _ I); eauto; left.
  - intros t' k' id' Ht'. threads_case. destruct (inv_wait _ _ _ _ _ _ I t' k' id' Ht') as [Hn Hw].
    split; [done|]. specialize (Hge k'). destruct Hw as [?|[[? ?]|?]]; auto with lia.
  - intros k' Hk'. rewrite Hne by congruence. use (inv_free _ _ _ _ _ _ I).
  - intros k' id' Hk' HF. rewrite Hne; [use (inv_pub _ _ _ _ _ _ I)|].
    intros ->. pose proof pub_flight. congruence.
  - intros t' k' id' Ht'. threads_case. rewrite Hne; [use (inv_publish _ _ _ _ _ _ I)|].
    eapply Hold; eauto. by left.
  - intros t' k' id' ok' Ht'. threads_case.
    + unfold D'. rewrite <- (inv_publish _ _ _ _ _ _ I _ _ _ Ht). destruct ok'.
      * rewrite count_cons_eq. lia.
      * lia.
    + rewrite Hne; [use (inv_finish _ _ _ _ _ _ I)|]. eapply Hold; eauto. right. by exists ok'.
  - intros t' k' o Ht' Ho. threads_case. specialize (Hge k').
    pose proof (inv_done _ _ _ _ _ _ I _ _ _ Ht' Ho). lia.
Qed.

Lemma inv_finish_step P F F' n T D U t k id ok :
  Inv P F n T D U → T !! t = Some (k, Finish id ok) →
  F' id = Some (if ok then pub else failed) → (∀ id', id' ≠ id → F' id' = F id') →
  Inv (if ok then P else delete k P) F' n (<[t := (k, Done (Owned ok))]> T) D U.
Proof.
  intros I Ht HFid HF. set (P' := if ok then P else delete k P).
  assert (Hown : owner (Finish id ok) id) by (right; by exists ok).
  destruct (inv_owner _ _ _ _ _ _ I t k _ id Ht Hown) as [HPk HFk].
  pose proof (inv_finish _ _ _ _ _ _ I _ _ _ _ Ht) as Hcnt.
  assert (HP' : ∀ k' id', P' !! k' = Some id' → P !! k' = Some id').
  { intros k' id'. unfold P'. destruct ok; [done|]. by intros [_ ?]%lookup_delete_Some. }
  assert (HP'ne : ∀ k', k' ≠ k → P' !! k' = P !! k').
  { intros k' Hk'. unfold P'. destruct ok; [done|]. by rewrite lookup_delete_ne. }
  assert (Hkey : ∀ k' id', P !! k' = Some id' → k' ≠ k → id' ≠ id).
  { intros k' id' Hk' Hne ->. by apply Hne, (inv_inj _ _ _ _ _ _ I k' k id). }
  assert (Hold : ∀ t' k' p id', t' ≠ t → T !! t' = Some (k', p) → owner p id' → k' ≠ k).
  { intros t' k' p id' Hne' Ht' Ho ->. destruct Hne'. by eapply (inv_owner_key P F n T D U t' t k). }
  split.
  - intros k' id' Hk'. pose proof (HP' _ _ Hk') as Hk. destruct (decide (k' = k)) as [->|Hne].
    + assert (id' = id) as -> by congruence. split; [by apply (inv_parked _ _ _ _ _ _ I) in Hk as [? _]|].
      right. rewrite HFid. destruct ok; [done|]. unfold P' in Hk'. by rewrite lookup_delete_eq in Hk'.
    + rewrite HF by eauto. destruct (inv_parked _ _ _ _ _ _ I k' id' Hk) as [Hn [[HF1 (t' & p & Ht' & Ho)]|HF1]];
        split; auto. left. split; [done|]. exists t', p. split; [|done].
      rewrite lookup_insert_ne; [done|]. intros <-. congruence.
  - intros k1 k2 id' H1 H2. eapply (inv_inj _ _ _ _ _ _ I); eauto.
  - intros t' k' p id' Ht' Ho. threads_case; [by destruct Ho as [?|[??]]|].
    pose proof (Hold _ _ _ _ ltac:(eauto) Ht' Ho) as Hne.
    destruct (inv_owner _ _ _ _ _ _ I _ _ _ _ Ht' Ho) as [HPk' HFk'].
    rewrite HP'ne, HF by eauto. done.
  - intros t1 t2 k1 k2 p1 p2 id' H1 H2 Ho1 Ho2. threads_case; try done;
      try (by destruct Ho1 as [?|[??]]); try (by destruct Ho2 as [?|[??]]). use (inv_uniq _ _ _ _ _ _ I).
  - intros t' k' id' Ht'. threads_case. destruct (inv_wait _ _ _ _ _ _ I t' k' id' Ht') as [Hn Hw].
    split; [done|]. destruct (decide (id' = id)) as [->|Hid].
    + destruct Hw as [Hw|[[Hw _]|Hw]]; [|pose proof pub_flight; congruence|by rewrite HFk in Hw].
      assert (k' = k) as -> by (by eapply (inv_inj _ _ _ _ _ _ I)).
      destruct ok; [by left|right; by right].
    + rewrite HF by done. destruct Hw as [Hw|Hw]; [|by right]. left. rewrite HP'ne; [done|congruence].
  - intros k' Hk'. destruct (decide (k' = k)) as [->|Hne].
    + unfold P' in Hk'. destruct ok; [congruence|]. rewrite Hcnt. lia.
    + rewrite HP'ne in Hk' by done. use (inv_free _ _ _ _ _ _ I).
  - intros k' id' Hk' HF1. pose proof (HP' _ _ Hk') as Hk. destruct (decide (k' = k)) as [->|Hne].
    + assert (id' = id) as -> by congruence. destruct ok; [rewrite Hcnt; lia|]. by rewrite HFid in HF1.
    + rewrite HF in HF1 by eauto. use (inv_pub _ _ _ _ _ _ I).
  - intros t' k' id' Ht'. threads_case. use (inv_publish _ _ _ _ _ _ I).
  - intros t' k' id' ok' Ht'. threads_case. use (inv_finish _ _ _ _ _ _ I).
  - intros t' k' o Ht' Ho. threads_case; [|use (inv_done _ _ _ _ _ _ I)].
    destruct Ho as [[= ->]|?]; [|done]. rewrite Hcnt. lia.
Qed.

(** ** Steps keep the invariant *)

Lemma flags_of_refresh cfg now s id c id' :
  claims s !! id = Some c →
  flags_of (set_claims s (<[id := refresh cfg now c]> (claims s))) id' = flags_of s id'.
Proof.
  intros Hc. unfold flags_of; simpl. destruct (decide (id = id')) as [<-|].
  - by rewrite lookup_insert_eq, Hc.
  - by rewrite lookup_insert_ne.
Qed.

Lemma active_same cfg now k delta s :
  let s' := activeParkAttempt cfg now k delta s in
  parkedSequences s' = parkedSequences s ∧ nextClaim s' = nextClaim s
  ∧ ∀ id, flags_of s' id = flags_of s id.
Proof.
  unfold activeParkAttempt; simpl. destruct (_ && _); [|done].
  destruct (parkedSequences s !! k) as [id|]; [|done].
  destruct (claims s !! id) as [c|] eqn:Hc; [|done]. destruct (inFlight c); [done|].
  split_and!; [done|done|]. intros id'. unfold flags_of; simpl. destruct (decide (id = id')) as [<-|].
  - by rewrite lookup_insert_eq, Hc.
  - by rewrite lookup_insert_ne.
Qed.

Lemma inv_try s now :
  sys_inv s →
  let s1 := prune now (st s) in
  Inv (parkedSequences s1) (flags_of s1) (nextClaim s1) (threads s) (dlq s)
    (pruned_keys now (st s) ++ pruned s).
Proof.
  intros I s1. unfold sys_inv in I. apply (inv_prune (parkedSequences (st s))); [done| | |].
  - apply NoDup_fst_map_to_list.
  - intros k id. unfold s1, prune, pruned_keys; cbn [parkedSequences].
    rewrite map_lookup_filter_Some, list_elem_of_fmap. cbn [fst snd]. split.
    + intros [Hk He]. split; [done|]. intros ([k' id'] & -> & Hin%elem_of_map_to_list).
      apply map_lookup_filter_Some in Hin as [Hk' He']. cbn [fst snd] in *. simplify_eq. congruence.
    + intros [Hk Hn]. split; [done|]. apply not_true_iff_false. intros He. apply Hn.
      exists (k, id). split; [done|]. apply elem_of_map_to_list. by apply map_lookup_filter_Some.
  - intros k Hk. apply list_elem_of_fmap in Hk as ([k' id] & -> & Hin%elem_of_map_to_list).
    apply map_lookup_filter_Some in Hin as [Hk He]. cbn [fst snd] in *. exists id. split; [done|].
    apply andb_prop in He as [_ He]. unfold s1, flags_of; simpl.
    destruct (inv_parked _ _ _ _ _ _ I k' id Hk) as [_ [[HF _]|HF]]; [|done].
    unfold flags_of in HF. destruct (claims (st s) !! id) as [c|]; [|done].
    injection HF as HF1 HF2 HF3. by rewrite HF2 in He.
Qed.

Lemma act_inv cfg t s s' : sys_inv s → act cfg t s s' → sys_inv s'.
Proof.
  intros I Hs. destruct Hs as [k now Ht|k id now Ht (c & Hc & Hcl)|k id ok Ht|k id ok now Ht];
    unfold sys_inv; simpl.
  - apply (inv_try s now) in I. unfold claimPark_try.
    set (s1 := prune now (st s)) in *.
    destruct (parkedSequences s1 !! k) as [id|] eqn:Hk; simpl.
    + apply inv_goto; try done.
      * intros k' p' id'. rewrite Ht. by intros [= <- <-] [?|[??]].
      * by intros id' [?|[??]].
      * intros id' [= ->]. split; [|by left]. by apply (inv_parked _ _ _ _ _ _ I) in Hk as [? _].
    + apply (inv_claim _ (flags_of s1)); try done; unfold flags_of; simpl.
      * by rewrite lookup_insert_eq.
      * intros id' Hne. by rewrite lookup_insert_ne.
  - assert (Hw := inv_wait _ _ _ _ _ _ I t k id Ht). unfold claimPark_settled. rewrite Hc.
    destruct (published c) eqn:Hp; cbn [andb].
    + assert (HF : flags_of (st s) id = Some pub ∨ flags_of (st s) id = Some (true, true, true)).
      { unfold flags_of. rewrite Hc; simpl. rewrite Hcl, Hp. destruct (inFlight c); auto. }
      assert (Hcnt : (1 ≤ count k (dlq s))%nat).
      { destruct Hw as [_ [HPk|[[_ ?]|HFf]]]; [|done|].
        - destruct (inv_parked _ _ _ _ _ _ I _ _ HPk) as [_ [[HFf _]|HFp]].
          + destruct HF as [HF|HF]; rewrite HF in HFf; done.
          + rewrite (inv_pub _ _ _ _ _ _ I k id) by done. lia.
        - destruct HF as [HF|HF]; rewrite HF in HFf; done. }
      assert (I' : Inv (parkedSequences (st s)) (flags_of (st s)) (nextClaim (st s))
                     (<[t := (k, Done Settled)]> (threads s)) (dlq s) (pruned s)).
      { apply inv_goto; try done; [|by intros ? [?|[??]]].
        intros k' p' id'. rewrite Ht. by intros [= <- <-] [?|[??]]. }
      case_bool_decide; [|done]. eapply inv_ext; [|done]. intros id'. by apply flags_of_refresh.
    + apply inv_goto; try done; [|by intros ? [?|[??]]].
      intros k' p' id'. rewrite Ht. by intros [= <- <-] [?|[??]].
  - by apply inv_publish_step.
  - assert (Hown : owner (Finish id ok) id) by (right; by exists ok).
    destruct (inv_owner _ _ _ _ _ _ I _ _ _ _ Ht Hown) as [HPk HF].
    pose proof HF as HF'. unfold flags_of in HF'. destruct (claims (st s) !! id) as [c|] eqn:Hc; [|done].
    injection HF' as _ Hfl _. unfold finishParkClaim. rewrite Hc, Hfl.
    rewrite bool_decide_eq_false_2 by auto. simpl.
    apply (inv_finish_step _ (flags_of (st s)) _ _ _ _ _ _ _ id); try done; unfold flags_of; simpl.
    + rewrite lookup_insert_eq. by destruct ok.
    + intros id' Hne. by rewrite lookup_insert_ne.
Qed.

Lemma parking_step_inv cfg s s' : sys_inv s → step cfg s s' → sys_inv s'.
Proof.
  intros I Hs. destruct Hs as [s t k Ht|t s s' Ha|s t k id c Ht Hc Hcl|s k delta now]; unfold sys_inv; simpl.
  - apply inv_goto; try done; [by rewrite Ht|]. by intros id [?|[??]].
  - by eapply act_inv.
  - apply inv_goto; try done; [|by intros ? [?|[??]]|by intros ? [= <-] [?|?]].
    intros k' p' id'. rewrite Ht. by intros [= <- <-] [?|[??]].
  - destruct (active_same cfg now k delta (st s)) as (-> & -> & HF). by eapply inv_ext.
Qed.

Lemma init_inv : sys_inv init.
Proof. split; simpl; intros *; rewrite ?lookup_empty; try done. Qed.

Lemma parking_inv cfg s : reachable cfg s → sys_inv s.
Proof. induction 1 as [|s s' _ IH Hs]; [apply init_inv|by eapply parking_step_inv]. Qed.

Lemma owner_can_act cfg s t k p id :
  threads s !! t = Some (k, p) → owner p id → ∃ s', act cfg t s s'.
Proof.
  intros Ht [->|[ok ->]]; eexists.
  - by apply (APublish cfg t s k id true).
  - by apply (AFinish cfg t s k id ok 0).
Qed.

(** A waiting goroutine can go on, or the owner of its claim is at work. *)
Lemma waiter_not_stuck cfg s t k id :
  sys_inv s → threads s !! t = Some (k, Wait id) →
  (∃ s', act cfg t s s') ∨ ∃ t' p', threads s !! t' = Some (k, p') ∧ owner p' id ∧ ∃ s', act cfg t' s s'.
Proof.
  intros I Ht. destruct (inv_wait _ _ _ _ _ _ I t k id Ht) as [_ Hw].
  assert (Hset : ∀ f, flags_of (st s) id = Some f → f.1.1 = true → ∃ s', act cfg t s s').
  { intros f HF Hf. unfold flags_of in HF. destruct (claims (st s) !! id) as [c|] eqn:Hc; [|done].
    injection HF as <-. eexists. apply (ASettled cfg t s k id 0 Ht). eauto. }
  destruct Hw as [HP|[[HF _]|HF]]; [|left; by eapply Hset..].
  destruct (inv_parked _ _ _ _ _ _ I k id HP) as [_ [[_ (t' & p & Ht' & Ho)]|HF]]; [|left; by eapply Hset].
  right. exists t', p. split_and!; [done..|]. by eapply owner_can_act.
Qed.

(** C32. Dead-letter parking under every interleaving of callback and advisory
    goroutines: a message has at most one dead-letter record more than its claim has
    been pruned after its retention; an attempt that ended with its own successful
    publish, or because another goroutine had published, leaves a record (one whose
    publish failed, or whose context ended while it waited, promises none); the
    entry of a message is never pruned while its owner is at work; and no attempt is
    stuck: one that is not over can take its next step, or it waits for a claim whose
    owner is at work on the same message and can take its own. The end of a context
    does not count as a step here. *)
Theorem parked_once (cfg : Config) (s : sys) (k : parkKey) (Hs : reachable cfg s) :
  (count k (dlq s) ≤ S (count k (pruned s)))%nat
  ∧ (∀ t o, threads s !! t = Some (k, Done o) → o = Owned true ∨ o = Settled →
       (1 ≤ count k (dlq s))%nat)
  ∧ (∀ t p id, threads s !! t = Some (k, p) → owner p id → parkedSequences (st s) !! k = Some id)
  ∧ (∀ t p, threads s !! t = Some (k, p) → (∀ o, p ≠ Done o) →
       (∃ s', act cfg t s s')
       ∨ ∃ id t' p', p = Wait id ∧ threads s !! t' = Some (k, p') ∧ owner p' id ∧ ∃ s', act cfg t' s s').
Proof.
  apply parking_inv in Hs as I. unfold sys_inv in I. split_and!.
  - destruct (parkedSequences (st s) !! k) as [id|] eqn:HP.
    + destruct (inv_parked _ _ _ _ _ _ I k id HP) as [_ [[_ (t & p & Ht & Ho)]|HF]].
      * destruct Ho as [->|[ok ->]].
        -- rewrite (inv_publish _ _ _ _ _ _ I _ _ _ Ht). lia.
        -- rewrite (inv_finish _ _ _ _ _ _ I _ _ _ _ Ht). destruct ok; lia.
      * rewrite (inv_pub _ _ _ _ _ _ I k id) by done. lia.
    + rewrite (inv_free _ _ _ _ _ _ I k) by done. lia.
  - intros t o. apply (inv_done _ _ _ _ _ _ I).
  - intros t p id Ht Ho. by apply (inv_owner _ _ _ _ _ _ I t k p id).
  - intros t p Ht Hnd. destruct p as [|id|id|id ok|o]; [| | | |by destruct (Hnd o)].
    + left. eexists. by apply (ATry cfg t s k 0).
    + destruct (waiter_not_stuck cfg s t k id I Ht) as [?|(t' & p' & ?)]; [by left|right; naive_solver].
    + left. eapply owner_can_act; [done|by left].
    + left. eapply owner_can_act; [done|right; by eexists].
Qed.

(** The callback's last attempt and the server's advisory race for one message: the
    advisory waits for the callback's record and adds none. *)
Lemma parked_once_witness :
  ∃ s, threads s !! 1%nat = Some ((lit "comms-x", 7%Z), Done Settled)
    ∧ (1 ≤ count (lit "comms-x", 7%Z) (dlq s))%nat
    ∧ (count (lit "comms-x", 7%Z) (dlq s) ≤ 1)%nat.
Proof.
  set (cfg := mkConfig [] 0 0 0 0 0 0 0). set (k := (lit "comms-x", 7%Z)).
  pose proof (reach_init cfg) as R.
  eapply reach_step in R; [|apply (SSpawn cfg _ 0 k); reflexivity].
  eapply reach_step in R; [|apply (SSpawn cfg _ 1 k); reflexivity].
  eapply reach_step in R; [|apply (SAct cfg 0), (ATry cfg 0 _ k 100); reflexivity].
  eapply reach_step in R; [|apply (SAct cfg 1), (ATry cfg 1 _ k 101); reflexivity].
  eapply reach_step in R; [|apply (SAct cfg 0), (APublish cfg 0 _ k 0 true); reflexivity].
  eapply reach_step in R; [|apply (SAct cfg 0), (AFinish cfg 0 _ k 0 true 102); reflexivity].
  eapply reach_step in R;
    [|apply (SAct cfg 1), (ASettled cfg 1 _ k 0 103); [reflexivity|eexists; split; reflexivity]].
  destruct (parked_once cfg _ k R) as (Hle & Hdone & _).
  eexists. split_and!; [| |exact Hle].
  - reflexivity.
  - apply (Hdone 1%nat Settled); [reflexivity|by right].
Defined.

End Parking.
