(* ===== verification/Envelope.v ===== *)
(** At-rest encryption of user secrets ([go/internal/envelope/envelope.go]): the
    key and its zero value, [Encrypt] and [Decrypt] over an AEAD cipher that is an
    argument, and the associated data that binds a ciphertext to its row. *)
From stdpp Require Import base list strings.
From Stdlib Require Import ZArith Lia Ascii.
From S2P Require Import Prelude Text.

Open Scope Z_scope.

Module Envelope.

Inductive error :=
| ErrDecrypt
| ErrUnsetKey
| ErrKeyLen (n : nat)
| ErrCipher
| ErrNonce
| ErrAADField (field : string).

Definition keyLen : nat := 32.
Definition nonceLen : nat := 12.

Record Key := mkKey { k : bytes; set : bool }.

(** The zero value: all bytes zero, not built by [NewKey]. *)
Definition zeroKey : Key := mkKey (replicate keyLen zero) false.

Definition NewKey (raw : bytes) : result error Key :=
  if negb (Nat.eqb (length raw) keyLen) then Err (ErrKeyLen (length raw)) else Ok (mkKey raw true).

Section Cipher.
(** [crypto/aes] and [crypto/cipher]: whether a cipher can be built for a key, its
    nonce size, sealing and opening; [crypto/sha256]. *)
Context (cipher_ok : bytes → bool) (NonceSize : nat)
        (Seal : bytes → bytes → bytes → bytes → bytes)
        (Open : bytes → bytes → bytes → bytes → option bytes)
        (sha256 : bytes → bytes).

Definition Fingerprint (key : Key) (salt : bytes) : bytes := sha256 (salt ++ k key).

(** [gcm]: the cipher is its key. *)
Definition gcm (key : Key) : result error bytes :=
  if negb (set key) then Err ErrUnsetKey
  else if cipher_ok (k key) then Ok (k key) else Err ErrCipher.

(** [entropy] is what the random reader fills the nonce with, [None] its failure. *)
Definition Encrypt (entropy : option bytes) (key : Key) (plaintext aad : bytes)
    : result error (bytes * bytes) :=
  c <-? gcm key ;
  match entropy with
  | None => Err ErrNonce
  | Some nonce => Ok (nonce, Seal c nonce plaintext aad)
  end.

Definition Decrypt (key : Key) (nonce ciphertext aad : bytes) : result error bytes :=
  match gcm key with
  | Err ErrUnsetKey => Err ErrUnsetKey
  | Err _ => Err ErrDecrypt
  | Panic => Panic
  | Ok c =>
      if negb (Nat.eqb (length nonce) NonceSize) then Err ErrDecrypt
      else match Open c nonce ciphertext aad with
           | Some pt => Ok pt
           | None => Err ErrDecrypt
           end
  end.
End Cipher.

(** ** Associated data *)

Definition NUL : ascii := zero.

(** The first field that holds the separator, if any. *)
Fixpoint bad_field (fields : list (string * bytes)) : option string :=
  match fields with
  | [] => None
  | (name, value) :: rest => if has_byte NUL value then Some name else bad_field rest
  end.

Definition UserSecretAAD (tenantID : bytes) (scopeKind : Z) (scopeID name : bytes) (keyVersion : Z)
    : result error bytes :=
  match bad_field [("tenantID", tenantID); ("scopeID", scopeID); ("name", name)] with
  | Some f => Err (ErrAADField f)
  | None =>
      Ok (lit "compass/user-secret/v1" ++ NUL :: tenantID ++ NUL :: FormatInt scopeKind
          ++ NUL :: scopeID ++ NUL :: name ++ NUL :: FormatInt keyVersion)
  end.

Definition GatewayCredentialAAD (tenantID id : bytes) (keyVersion : Z) : result error bytes :=
  match bad_field [("tenantID", tenantID); ("id", id)] with
  | Some f => Err (ErrAADField f)
  | None =>
      Ok (lit "compass/gateway-credential/v1" ++ NUL :: tenantID ++ NUL :: id
          ++ NUL :: FormatInt keyVersion)
  end.

(** ** Theorems *)

Lemma bad_field_None fs : bad_field fs = None ↔ Forall (λ f, NUL ∉ f.2) fs.
Proof.
  induction fs as [|[n v] fs IH]; simpl; [by split; [constructor|]|].
  rewrite Forall_cons. simpl. destruct (has_byte NUL v) eqn:Hv.
  - split; [done|]. intros [H _]. apply has_byte_false in H. congruence.
  - apply has_byte_false in Hv. naive_solver.
Qed.

Lemma FormatInt_no_NUL z : NUL ∉ FormatInt z.
Proof.
  assert (Hu : ∀ n, NUL ∉ FormatUint n).
  { intros n Hin%list_elem_of_In. destruct (FormatUint_spec n) as (_ & Hd & _).
    rewrite forallb_forall in Hd. by apply Hd in Hin. }
  unfold FormatInt. destruct (z <? 0); [|apply Hu].
  rewrite not_elem_of_cons. split; [done|apply Hu].
Qed.

Lemma UserSecretAAD_Ok t sk sid n kv b :
  UserSecretAAD t sk sid n kv = Ok b ↔
  NUL ∉ t ∧ NUL ∉ sid ∧ NUL ∉ n ∧
  b = lit "compass/user-secret/v1" ++ NUL :: t ++ NUL :: FormatInt sk
      ++ NUL :: sid ++ NUL :: n ++ NUL :: FormatInt kv.
Proof.
  unfold UserSecretAAD. destruct (bad_field _) as [f|] eqn:Hb.
  - split; [done|]. intros (? & ? & ? & _).
    assert (bad_field [("tenantID", t); ("scopeID", sid); ("name", n)] = None)
      by (apply bad_field_None; repeat constructor; done). congruence.
  - apply bad_field_None in Hb. rewrite !Forall_cons in Hb. destruct Hb as (? & ? & ? & _).
    split; [by intros [= <-]|]. by intros (_ & _ & _ & ->).
Qed.

Lemma GatewayCredentialAAD_Ok t id kv b :
  GatewayCredentialAAD t id kv = Ok b ↔
  NUL ∉ t ∧ NUL ∉ id ∧
  b = lit "compass/gateway-credential/v1" ++ NUL :: t ++ NUL :: id ++ NUL :: FormatInt kv.
Proof.
  unfold GatewayCredentialAAD. destruct (bad_field _) as [f|] eqn:Hb.
  - split; [done|]. intros (? & ? & _).
    assert (bad_field [("tenantID", t); ("id", id)] = None)
      by (apply bad_field_None; repeat constructor; done). congruence.
  - apply bad_field_None in Hb. rewrite !Forall_cons in Hb. destruct Hb as (? & ? & _).
    split; [by intros [= <-]|]. by intros (_ & _ & ->).
Qed.

Lemma domain_no_NUL (s : string) : has_byte NUL (lit s) = false → NUL ∉ lit s.
Proof. apply has_byte_false. Qed.

(** The associated data identifies what it was built from: two user-secret
    encodings are equal only for equal tenant, scope, name and key version, two
    gateway encodings only for equal tenant, row and key version, and no encoding of
    one kind is one of the other; a field with the separator byte is refused, and
    nothing else is. *)
Theorem aad_injective :
  (∀ t sk sid n kv t' sk' sid' n' kv' b,
     UserSecretAAD t sk sid n kv = Ok b → UserSecretAAD t' sk' sid' n' kv' = Ok b →
     (t, sk, sid, n, kv) = (t', sk', sid', n', kv'))
  ∧ (∀ t id kv t' id' kv' b,
     GatewayCredentialAAD t id kv = Ok b → GatewayCredentialAAD t' id' kv' = Ok b →
     (t, id, kv) = (t', id', kv'))
  ∧ (∀ t sk sid n kv t' id' kv' b,
     UserSecretAAD t sk sid n kv = Ok b → GatewayCredentialAAD t' id' kv' ≠ Ok b)
  ∧ (∀ t sk sid n kv, (∃ b, UserSecretAAD t sk sid n kv = Ok b) ↔ NUL ∉ t ∧ NUL ∉ sid ∧ NUL ∉ n)
  ∧ (∀ t id kv, (∃ b, GatewayCredentialAAD t id kv = Ok b) ↔ NUL ∉ t ∧ NUL ∉ id).
Proof.
  pose proof FormatInt_no_NUL as Hi.
  assert (Hu : NUL ∉ lit "compass/user-secret/v1") by (by apply domain_no_NUL).
  assert (Hg : NUL ∉ lit "compass/gateway-credential/v1") by (by apply domain_no_NUL).
  split_and!.
  - intros * (? & ? & ? & ->)%UserSecretAAD_Ok (? & ? & ? & E)%UserSecretAAD_Ok.
    apply sep_inj in E as [_ E]; [|auto..]. apply sep_inj in E as [-> E]; [|auto..].
    apply sep_inj in E as [->%FormatInt_inj E]; [|auto..]. apply sep_inj in E as [-> E]; [|auto..].
    apply sep_inj in E as [-> ->%FormatInt_inj]; [done|auto..].
  - intros * (? & ? & ->)%GatewayCredentialAAD_Ok (? & ? & E)%GatewayCredentialAAD_Ok.
    apply sep_inj in E as [_ E]; [|auto..]. apply sep_inj in E as [-> E]; [|auto..].
    apply sep_inj in E as [-> ->%FormatInt_inj]; [done|auto..].
  - intros * (? & ? & ? & ->)%UserSecretAAD_Ok (? & ? & E)%GatewayCredentialAAD_Ok.
    apply sep_inj in E as [E _]; [|done..]. done.
  - intros *. setoid_rewrite UserSecretAAD_Ok. naive_solver.
  - intros *. setoid_rewrite GatewayCredentialAAD_Ok. naive_solver.
Qed.

(** A key is 32 bytes or none; what a key of [NewKey] encrypts it decrypts under
    the same associated data; the zero key neither encrypts nor decrypts, and says
    so; every other failure to decrypt is the one opaque error. The cipher opens what
    it sealed under a nonce of its size, accepts 32-byte keys, and the random reader
    fills the nonce. *)
Theorem encrypt_decrypt (cipher_ok : bytes → bool) (Seal : bytes → bytes → bytes → bytes → bytes)
    (Open : bytes → bytes → bytes → bytes → option bytes)
    (Hkeys : ∀ key, length key = keyLen → cipher_ok key = true)
    (Hopen : ∀ key nonce pt aad, length key = keyLen → length nonce = nonceLen →
       Open key nonce (Seal key nonce pt aad) aad = Some pt) :
  (∀ raw, (∃ key, NewKey raw = Ok key) ↔ length raw = keyLen)
  ∧ (∀ raw key nonce pt aad, NewKey raw = Ok key → length nonce = nonceLen →
       ∃ ct, Encrypt cipher_ok Seal (Some nonce) key pt aad = Ok (nonce, ct)
         ∧ Decrypt cipher_ok nonceLen Open key nonce ct aad = Ok pt)
  ∧ (∀ e pt aad nonce ct,
       Encrypt cipher_ok Seal e zeroKey pt aad = Err ErrUnsetKey
       ∧ Decrypt cipher_ok nonceLen Open zeroKey nonce ct aad = Err ErrUnsetKey)
  ∧ (∀ key nonce ct aad, set key = true →
       Decrypt cipher_ok nonceLen Open key nonce ct aad = Err ErrDecrypt
       ∨ ∃ pt, Decrypt cipher_ok nonceLen Open key nonce ct aad = Ok pt).
Proof.
  split_and!.
  - intros raw. unfold NewKey. destruct (Nat.eqb_spec (length raw) keyLen); simpl; naive_solver.
  - intros raw key nonce pt aad Hk Hn. unfold NewKey in Hk.
    destruct (Nat.eqb_spec (length raw) keyLen) as [Hl|]; [|done]. injection Hk as <-.
    exists (Seal raw nonce pt aad). unfold Encrypt, Decrypt, gcm; simpl.
    rewrite Hkeys by done; simpl. rewrite Hn, Hopen by done. done.
  - done.
  - intros key nonce ct aad Hs. unfold Decrypt, gcm. rewrite Hs. cbn [negb].
    destruct (cipher_ok (k key)); [|by left]. destruct (negb _); [by left|].
    destruct (Open _ _ _ _); eauto.
Qed.

Lemma encrypt_decrypt_witness :
  let seal (_ _ pt _ : bytes) := pt in
  let open (_ _ ct _ : bytes) := Some ct in
  ∃ ct, Encrypt (λ _, true) seal (Some (replicate 12 zero)) (mkKey (replicate 32 one) true) (lit "s") []
        = Ok (replicate 12 zero, ct)
    ∧ Decrypt (λ _, true) nonceLen open (mkKey (replicate 32 one) true) (replicate 12 zero) ct [] = Ok (lit "s").
Proof.
  intros seal open.
  destruct (encrypt_decrypt (λ _, true) seal open) as (_ & H & _); [done|done|].
  by apply (H (replicate 32 one)).
Defined.

End Envelope.
