(* ===== verification/BoardGate.v ===== *)
(** The pull-request gate of the board ([go/internal/board/pr_gate.go]): the first
    unmet gate of a stored pull request and its stale-approval flag. The theorems
    relate the loops over reviews and checks to what the gate means. *)
From stdpp Require Import base gmap list strings.
From Stdlib Require Import ZArith Lia Ascii.
From S2P Require Import Prelude Text.

Open Scope nat_scope.

Module BoardGate.

(** ** Wire data *)

Record MergeQueueEntry := mkQueue { mq_state : bytes }.
Record Check := mkCheck { required : bool; check_state : bytes }.
Record ChecksSummary := mkChecks { cs_state : bytes; cs_checks : list (option Check) }.
Record Review := mkReview { is_bot : bool; author : bytes; verdict : bytes; commit_id : bytes }.
Record Thread := mkThread { resolved : bool }.

Record PullRequest := mkPR {
  repo : bytes;
  num : N;
  title : bytes;
  url : bytes;
  forge_state : bytes;
  draft : bool;
  mergeable_state : bytes;
  head_ref : bytes;
  base_ref : bytes;
  head_sha : bytes;
  merge_queue : option MergeQueueEntry;
  checks : option ChecksSummary;
  reviews : list (option Review);
  threads : list (option Thread);
}.

Inductive BoardPrGate :=
| UNSPECIFIED | MERGED | CLOSED | QUEUED | QUEUE_FAILED | QUEUE_REMOVED | DRAFT | CONFLICTS
| CHECKS_FAILED | CHECKS_PENDING | CHANGES_REQUESTED | AWAITING_REVIEW | AWAITING_ENQUEUE.

#[global] Instance gate_eq_dec : EqDecision BoardPrGate.
Proof. solve_decision. Defined.

(** ** Letter case, on UTF-8 bytes

    [strings.EqualFold(s, t)] and [strings.ToLower(s) == t] for a lower-case ASCII
    literal [t]. Beside the ASCII letters, the runes that fold to an ASCII letter are
    the long s and the Kelvin sign; those that are lowered to one are the dotted
    capital I and the Kelvin sign. *)
Definition b (n : nat) : ascii := ascii_of_nat n.

Definition drop_prefix (pre s : bytes) : option bytes :=
  if has_prefix pre s then Some (drop (length pre) s) else None.

Fixpoint case_eq (alt : ascii → list bytes) (s t : bytes) : bool :=
  match t with
  | [] => bool_decide (s = [])
  | c :: t' =>
      match s with
      | d :: s' => bool_decide (lower_byte d = c) && case_eq alt s' t'
      | [] => false
      end
      || existsb (λ pre, match drop_prefix pre s with Some s' => case_eq alt s' t' | None => false end) (alt c)
  end.

Definition kelvin : bytes := [b 226; b 132; b 170].
Definition long_s : bytes := [b 197; b 191].
Definition dotted_I : bytes := [b 196; b 176].

Definition EqualFold (s : bytes) (t : string) : bool :=
  case_eq (λ c, if bool_decide (c = "k"%char) then [kelvin]
                else if bool_decide (c = "s"%char) then [long_s] else []) s (lit t).

Definition lower_is (s : bytes) (t : string) : bool :=
  case_eq (λ c, if bool_decide (c = "k"%char) then [kelvin]
                else if bool_decide (c = "i"%char) then [dotted_I] else []) s (lit t).

(** [strings.TrimSpace(s) == ""]. *)
Definition blank (s : bytes) : bool := bool_decide (TrimSpace s = []).

(** ** The gates *)

Definition queue_state (pr : PullRequest) : bytes :=
  match merge_queue pr with Some q => mq_state q | None => [] end.

Definition queueGate (state : bytes) : BoardPrGate :=
  if lower_is state "queued" || lower_is state "testing" then QUEUED
  else if lower_is state "failed" then QUEUE_FAILED
  else if lower_is state "removed" then QUEUE_REMOVED
  else UNSPECIFIED.

Definition checkStateGate (state : bytes) : BoardPrGate :=
  if lower_is state "failure" || lower_is state "cancelled" then CHECKS_FAILED
  else if lower_is state "success" || lower_is state "neutral" || bool_decide (state = []) then UNSPECIFIED
  else CHECKS_PENDING.

(** The first loop of [checksGate]: whether a required check failed, and otherwise
    whether there is a required check. *)
Fixpoint first_pass (cs : list (option Check)) (hasRequired : bool) : BoardPrGate + bool :=
  match cs with
  | [] => inr hasRequired
  | None :: cs' => first_pass cs' hasRequired
  | Some c :: cs' =>
      if negb (required c) then first_pass cs' hasRequired
      else if bool_decide (checkStateGate (check_state c) = CHECKS_FAILED) then inl CHECKS_FAILED
      else first_pass cs' true
  end.

Fixpoint second_pass (cs : list (option Check)) : BoardPrGate :=
  match cs with
  | [] => UNSPECIFIED
  | None :: cs' => second_pass cs'
  | Some c :: cs' =>
      if required c && bool_decide (checkStateGate (check_state c) = CHECKS_PENDING) then CHECKS_PENDING
      else second_pass cs'
  end.

Definition checksGate (cs : option ChecksSummary) : BoardPrGate :=
  match cs with
  | None => CHECKS_PENDING
  | Some cs =>
      match first_pass (cs_checks cs) false with
      | inl g => g
      | inr false => if blank (cs_state cs) then CHECKS_PENDING else checkStateGate (cs_state cs)
      | inr true => second_pass (cs_checks cs)
      end
  end.

Record reviewStateResult := mkReviews { changesRequested : bool; approved : bool; staleApproval : bool }.

(** One turn of the first loop of [reviewState]. *)
Definition note_review (latest : gmap bytes Review) (r : option Review) : gmap bytes Review :=
  match r with
  | None => latest
  | Some r =>
      if is_bot r || bool_decide (author r = []) then latest
      else if lower_is (verdict r) "approved" || lower_is (verdict r) "changes_requested"
      then <[author r := r]> latest
      else if lower_is (verdict r) "dismissed" then delete (author r) latest
      else latest
  end.

Definition latest_reviews (rs : list (option Review)) : gmap bytes Review := foldl note_review ∅ rs.

(** One turn of the second loop; its order over the map does not matter. *)
Definition tally (head : bytes) (res : reviewStateResult) (r : Review) : reviewStateResult :=
  if lower_is (verdict r) "changes_requested" then
    mkReviews true (approved res) (staleApproval res)
  else if lower_is (verdict r) "approved" then
    if negb (bool_decide (commit_id r = [])) && negb (bool_decide (commit_id r = head))
    then mkReviews (changesRequested res) (approved res) true
    else mkReviews (changesRequested res) true (staleApproval res)
  else res.

Definition reviewState (pr : PullRequest) : reviewStateResult :=
  foldl (tally (head_sha pr)) (mkReviews false false false)
    (map_to_list (latest_reviews (reviews pr))).*2.

Definition open_thread (t : option Thread) : bool :=
  match t with Some t => negb (resolved t) | None => false end.

Definition prGate (pr : PullRequest) (rv : reviewStateResult) : BoardPrGate :=
  if EqualFold (forge_state pr) "merged" || EqualFold (queue_state pr) "merged" then MERGED
  else if EqualFold (forge_state pr) "closed" then CLOSED
  else if bool_decide (queueGate (queue_state pr) ≠ UNSPECIFIED) then queueGate (queue_state pr)
  else if draft pr then DRAFT
  else if EqualFold (mergeable_state pr) "dirty" then CONFLICTS
  else
    let gate := checksGate (checks pr) in
    if bool_decide (gate ≠ UNSPECIFIED) then gate
    else if changesRequested rv then CHANGES_REQUESTED
    else if negb (approved rv) then AWAITING_REVIEW
    else if existsb open_thread (threads pr) then AWAITING_REVIEW
    else AWAITING_ENQUEUE.

Definition derivePRState (pr : option PullRequest) : BoardPrGate * bool :=
  match pr with
  | None => (UNSPECIFIED, false)
  | Some pr => let rv := reviewState pr in (prGate pr rv, staleApproval rv)
  end.

Definition PrGate (pr : option PullRequest) : BoardPrGate := (derivePRState pr).1.

(** ** What the gate means *)

(** A review that counts for [a]: a person's, with a deciding verdict. *)
Definition decides (a : bytes) (r : option Review) : bool :=
  match r with
  | None => false
  | Some r =>
      bool_decide (author r = a) && negb (is_bot r) && negb (bool_decide (a = []))
      && (lower_is (verdict r) "approved" || lower_is (verdict r) "changes_requested"
          || lower_is (verdict r) "dismissed")
  end.

(** The standing review of [a]: the last that counts, unless it was dismissed. *)
Definition standing (rs : list (option Review)) (a : bytes) : option Review :=
  match last (filter (λ r, decides a r = true) rs) with
  | Some (Some r) =>
      if lower_is (verdict r) "approved" || lower_is (verdict r) "changes_requested" then Some r else None
  | _ => None
  end.

Definition fresh (pr : PullRequest) (r : Review) : Prop := commit_id r = [] ∨ commit_id r = head_sha pr.

Definition required_checks (cs : ChecksSummary) : list Check :=
  filter (λ c, required c = true) (omap id (cs_checks cs)).

(** The checks pass: the required ones if there are any, the summary otherwise. *)
Definition checks_pass (pr : PullRequest) : Prop :=
  ∃ cs, checks pr = Some cs ∧
    if decide (required_checks cs = []) then
      blank (cs_state cs) = false ∧ checkStateGate (cs_state cs) = UNSPECIFIED
    else ∀ c, c ∈ required_checks cs → checkStateGate (check_state c) = UNSPECIFIED.

Definition open_and_idle (pr : PullRequest) : Prop :=
  EqualFold (forge_state pr) "merged" = false ∧ EqualFold (queue_state pr) "merged" = false
  ∧ EqualFold (forge_state pr) "closed" = false ∧ queueGate (queue_state pr) = UNSPECIFIED
  ∧ draft pr = false ∧ EqualFold (mergeable_state pr) "dirty" = false.

(** ** Theorems *)

Lemma case_eq_head alt c t s :
  alt c = [] → case_eq alt s (c :: t) = true → ∃ d s', s = d :: s' ∧ lower_byte d = c.
Proof.
  intros Ha. cbn [case_eq]. rewrite Ha. cbn [existsb]. destruct s as [|d s]; [done|].
  rewrite orb_false_r. intros [H%bool_decide_eq_true _]%andb_prop. eauto.
Qed.

Lemma verdicts_differ s : lower_is s "approved" = true → lower_is s "changes_requested" = false.
Proof.
  unfold lower_is. intros H. apply not_true_iff_false. intros H'.
  apply (case_eq_head _ "a" (lit "pproved")) in H as (d & s' & -> & Hd); [|done].
  apply (case_eq_head _ "c" (lit "hanges_requested")) in H' as (d' & s'' & [= <- <-] & Hd'); [|done].
  congruence.
Qed.

#[local] Opaque lower_is EqualFold blank.

Lemma standing_single a r :
  decides a (Some r) = true →
  standing [Some r] a =
  if lower_is (verdict r) "approved" || lower_is (verdict r) "changes_requested" then Some r else None.
Proof. intros Hd. unfold standing. by rewrite filter_cons_True, filter_nil. Qed.

Lemma decides_Some a r :
  decides a (Some r) =
  bool_decide (author r = a) && negb (is_bot r) && negb (bool_decide (a = []))
  && (lower_is (verdict r) "approved" || lower_is (verdict r) "changes_requested"
      || lower_is (verdict r) "dismissed").
Proof. done. Qed.

Lemma note_review_lookup latest r a :
  note_review latest r !! a =
  if decides a r then standing [r] a else latest !! a.
Proof.
  destruct r as [r|]; [|done]. destruct (decides a (Some r)) eqn:Hd.
  - rewrite standing_single by done. rewrite decides_Some in Hd.
    apply andb_prop in Hd as [Hd Hv]. apply andb_prop in Hd as [Hd Ha%negb_true_iff].
    apply andb_prop in Hd as [<-%bool_decide_eq_true Hb%negb_true_iff].
    unfold note_review. rewrite Hb, Ha. cbn [orb].
    destruct (lower_is (verdict r) "approved" || lower_is (verdict r) "changes_requested");
      [by rewrite lookup_insert_eq|]. cbn [orb] in Hv. rewrite Hv. by rewrite lookup_delete_eq.
  - unfold note_review. destruct (is_bot r || bool_decide (author r = [])) eqn:Hb; [done|].
    apply orb_false_elim in Hb as [Hb Ha]. destruct (decide (author r = a)) as [<-|Hne].
    + rewrite decides_Some, bool_decide_eq_true_2, Hb, Ha in Hd by done. cbn [andb negb] in Hd.
      apply orb_false_elim in Hd as [-> ->]. done.
    + destruct (_ || _); [by rewrite lookup_insert_ne|]. destruct (lower_is _ _); [by rewrite lookup_delete_ne|done].
Qed.

Lemma standing_snoc rs r a :
  standing (rs ++ [r]) a = if decides a r then standing [r] a else standing rs a.
Proof.
  unfold standing. rewrite filter_app. destruct (decides a r) eqn:Hd.
  - rewrite !(filter_cons_True _ r) by done. rewrite filter_nil. by rewrite last_snoc.
  - rewrite (filter_cons_False _ r) by congruence. by rewrite filter_nil, app_nil_r.
Qed.

(** The map the loop builds holds the standing reviews. *)
Lemma latest_standing rs a : latest_reviews rs !! a = standing rs a.
Proof.
  induction rs as [|r rs IH] using rev_ind; [done|]. unfold latest_reviews.
  rewrite foldl_app; cbn [foldl]. rewrite note_review_lookup, standing_snoc.
  destruct (decides a r); [done|apply IH].
Qed.

Lemma tally_flags head rs res :
  let out := foldl (tally head) res rs in
  changesRequested out = changesRequested res
    || existsb (λ r, lower_is (verdict r) "changes_requested") rs
  ∧ approved out = approved res
    || existsb (λ r, lower_is (verdict r) "approved"
                 && (bool_decide (commit_id r = []) || bool_decide (commit_id r = head))) rs
  ∧ staleApproval out = staleApproval res
    || existsb (λ r, lower_is (verdict r) "approved"
                 && negb (bool_decide (commit_id r = []) || bool_decide (commit_id r = head))) rs.
Proof.
  revert res; induction rs as [|r rs IH]; intros res; cbn [foldl existsb]; [by rewrite !orb_false_r|].
  destruct (IH (tally head res r)) as (-> & -> & ->). unfold tally.
  destruct (lower_is (verdict r) "changes_requested") eqn:Hc; cbn.
  - assert (Ha : lower_is (verdict r) "approved" = false).
    { apply not_true_iff_false. intros Ha. apply verdicts_differ in Ha. congruence. }
    rewrite Ha. cbn. by rewrite orb_true_r.
  - destruct (lower_is (verdict r) "approved") eqn:Ha; cbn; [|done].
    destruct (bool_decide (commit_id r = [])), (bool_decide (commit_id r = head)); cbn;
      by rewrite ?orb_true_r.
Qed.

Lemma existsb_standing (pr : PullRequest) (p : Review → bool) :
  existsb p (map_to_list (latest_reviews (reviews pr))).*2 = true ↔
  ∃ a r, standing (reviews pr) a = Some r ∧ p r = true.
Proof.
  rewrite existsb_exists. setoid_rewrite <- list_elem_of_In. setoid_rewrite list_elem_of_fmap. split.
  - intros (r & ([a r'] & -> & Hin%elem_of_map_to_list) & Hp). rewrite latest_standing in Hin. eauto.
  - intros (a & r & Hs & Hp). exists r. split; [|done]. exists (a, r). split; [done|].
    apply elem_of_map_to_list. by rewrite latest_standing.
Qed.

Lemma first_pass_spec cs h :
  match first_pass cs h with
  | inl g => g = CHECKS_FAILED ∧ ∃ c, c ∈ filter (λ c, required c = true) (omap id cs)
                                  ∧ checkStateGate (check_state c) = CHECKS_FAILED
  | inr h' => h' = h || negb (bool_decide (filter (λ c, required c = true) (omap id cs) = []))
              ∧ ∀ c, c ∈ filter (λ c, required c = true) (omap id cs) →
                 checkStateGate (check_state c) ≠ CHECKS_FAILED
  end.
Proof.
  revert h; induction cs as [|[c|] cs IH]; intros h; cbn [first_pass omap list_omap id].
  - rewrite filter_nil, bool_decide_eq_true_2, orb_false_r by done. split; [done|]. by intros c ?%not_elem_of_nil.
  - destruct (required c) eqn:Hr; cbn [negb].
    + rewrite (filter_cons_True _ c) by done.
      destruct (decide (checkStateGate (check_state c) = CHECKS_FAILED)) as [Hf|Hf];
        [rewrite (bool_decide_eq_true_2 _ Hf)|rewrite (bool_decide_eq_false_2 _ Hf)].
      * cbn beta iota. split; [done|]. exists c. split; [left|done].
      * specialize (IH true). destruct (first_pass cs true) as [g|h'].
        -- destruct IH as (-> & c' & Hin & Hc'). split; [done|]. exists c'. split; [by right|done].
        -- destruct IH as (-> & Hall). rewrite (bool_decide_eq_false_2 (c :: _ = [])) by done. cbn. rewrite orb_true_r.
           split; [done|]. intros c' [->|Hin]%elem_of_cons; [done|by apply Hall].
    + rewrite (filter_cons_False _ c) by congruence. apply IH.
  - apply IH.
Qed.

Lemma second_pass_spec cs :
  second_pass cs = UNSPECIFIED ↔
  ∀ c, c ∈ filter (λ c, required c = true) (omap id cs) → checkStateGate (check_state c) ≠ CHECKS_PENDING.
Proof.
  induction cs as [|[c|] cs IH]; cbn [second_pass omap list_omap id].
  - split; [|done]. by intros _ c ?%not_elem_of_nil.
  - destruct (required c) eqn:Hr; cbn [andb].
    + rewrite (filter_cons_True _ c) by done. case_bool_decide as Hp.
      * split; [done|]. intros H. exfalso. apply (H c); [left|done].
      * rewrite IH. split; [|intros H c' ?; apply H; by right].
        intros H c' [->|?]%elem_of_cons; [done|by apply H].
    + by rewrite (filter_cons_False _ c) by congruence.
  - apply IH.
Qed.

Lemma checkStateGate_cases s :
  checkStateGate s = CHECKS_FAILED ∨ checkStateGate s = UNSPECIFIED ∨ checkStateGate s = CHECKS_PENDING.
Proof. unfold checkStateGate. destruct (_ || _); [auto|]. destruct (_ || _ || _); auto. Qed.

Lemma checksGate_pass pr : checksGate (checks pr) = UNSPECIFIED ↔ checks_pass pr.
Proof.
  unfold checks_pass, checksGate. destruct (checks pr) as [cs|]; [|naive_solver].
  pose proof (first_pass_spec (cs_checks cs) false) as Hf. fold (required_checks cs) in Hf.
  assert (Hiff : (∃ cs', Some cs = Some cs' ∧ (if decide (required_checks cs' = []) then
      blank (cs_state cs') = false ∧ checkStateGate (cs_state cs') = UNSPECIFIED
    else ∀ c, c ∈ required_checks cs' → checkStateGate (check_state c) = UNSPECIFIED))
    ↔ (if decide (required_checks cs = []) then
      blank (cs_state cs) = false ∧ checkStateGate (cs_state cs) = UNSPECIFIED
    else ∀ c, c ∈ required_checks cs → checkStateGate (check_state c) = UNSPECIFIED)).
  { split; [by intros (? & [= <-] & ?)|eauto]. }
  rewrite Hiff. clear Hiff. destruct (first_pass (cs_checks cs) false) as [g|[]].
  - destruct Hf as (-> & c & Hin & Hc). split; [done|]. destruct (decide _) as [He|_].
    + rewrite He in Hin. by apply not_elem_of_nil in Hin.
    + intros H. apply H in Hin. congruence.
  - destruct Hf as (Hreq & Hall). rewrite orb_false_l in Hreq. symmetry in Hreq.
    apply negb_true_iff, bool_decide_eq_false in Hreq. rewrite decide_False by done.
    rewrite second_pass_spec. fold (required_checks cs). split.
    + intros H c Hc. destruct (checkStateGate_cases (check_state c)) as [?|[?|?]]; [by apply Hall in Hc|done|by apply H in Hc].
    + intros H c Hc. rewrite H by done. done.
  - destruct Hf as (Hreq & _). rewrite orb_false_l in Hreq. symmetry in Hreq.
    apply negb_false_iff, bool_decide_eq_true in Hreq. rewrite decide_True by done.
    destruct (blank (cs_state cs)); naive_solver.
Qed.

Lemma prGate_late pr rv :
  PrGate (Some pr) = prGate pr (reviewState pr)
  ∧ ((prGate pr rv = CHANGES_REQUESTED ∨ prGate pr rv = AWAITING_ENQUEUE) →
      open_and_idle pr ∧ checks_pass pr)
  ∧ (open_and_idle pr → checks_pass pr →
      prGate pr rv = if changesRequested rv then CHANGES_REQUESTED
                     else if negb (approved rv) then AWAITING_REVIEW
                     else if existsb open_thread (threads pr) then AWAITING_REVIEW
                     else AWAITING_ENQUEUE).
Proof.
  split; [done|]. rewrite <- checksGate_pass. unfold open_and_idle, prGate. split.
  - destruct (EqualFold (forge_state pr) "merged"); cbn [orb]; [naive_solver|].
    destruct (EqualFold (queue_state pr) "merged"); [naive_solver|].
    destruct (EqualFold (forge_state pr) "closed"); [naive_solver|].
    case_bool_decide as Hq.
    { unfold queueGate. destruct (_ || _); [naive_solver|]. destruct (lower_is _ _); [naive_solver|].
      destruct (lower_is _ _); naive_solver. }
    destruct (draft pr); [naive_solver|]. destruct (EqualFold (mergeable_state pr) "dirty"); [naive_solver|].
    case_bool_decide as Hc; [|done]. intros H. exfalso. revert H.
    unfold checksGate. destruct (checks pr) as [cs|]; [|naive_solver].
    pose proof (first_pass_spec (cs_checks cs) false) as Hf.
    destruct (first_pass (cs_checks cs) false) as [g|[]]; [naive_solver| |].
    + assert (Hs : second_pass (cs_checks cs) = UNSPECIFIED ∨ second_pass (cs_checks cs) = CHECKS_PENDING).
      { clear. induction (cs_checks cs) as [|[c|] l IH]; simpl; [auto| |done]. destruct (_ && _); auto. }
      destruct Hs as [-> | ->]; naive_solver.
    + destruct (blank _); [naive_solver|]. destruct (checkStateGate_cases (cs_state cs)) as [->|[->| ->]]; naive_solver.
  - intros (-> & -> & -> & Hq & -> & ->) Hc. cbn [orb].
    rewrite bool_decide_eq_false_2 by auto. by rewrite bool_decide_eq_false_2 by auto.
Qed.

(** What the gate of a pull request says. It awaits enqueueing exactly when it
    is open, idle in the queue, not a draft, without conflicts, its checks pass, no
    reviewer's standing verdict asks for changes, some standing approval is of the
    current head (or of no commit), and every thread is resolved; changes are
    reported exactly when the earlier gates are met and a standing verdict asks for
    them; the stale flag is set exactly when a standing approval is of another
    commit. The standing verdict of a person is the last deciding one, unless
    dismissed; bots have none. *)
Theorem gate_meaning (pr : PullRequest) :
  (PrGate (Some pr) = AWAITING_ENQUEUE ↔
     open_and_idle pr ∧ checks_pass pr
     ∧ (∀ a r, standing (reviews pr) a = Some r → lower_is (verdict r) "changes_requested" = false)
     ∧ (∃ a r, standing (reviews pr) a = Some r ∧ lower_is (verdict r) "approved" = true ∧ fresh pr r)
     ∧ (∀ t, Some t ∈ threads pr → resolved t = true))
  ∧ (PrGate (Some pr) = CHANGES_REQUESTED ↔
     open_and_idle pr ∧ checks_pass pr
     ∧ ∃ a r, standing (reviews pr) a = Some r ∧ lower_is (verdict r) "changes_requested" = true)
  ∧ ((derivePRState (Some pr)).2 = true ↔
     ∃ a r, standing (reviews pr) a = Some r ∧ lower_is (verdict r) "approved" = true ∧ ¬ fresh pr r).
Proof.
  set (rv := reviewState pr).
  destruct (tally_flags (head_sha pr) (map_to_list (latest_reviews (reviews pr))).*2 (mkReviews false false false))
    as (Hch & Hap & Hst). fold (reviewState pr) in Hch, Hap, Hst. fold rv in Hch, Hap, Hst. cbn [orb] in *.
  assert (Hfresh : ∀ r, bool_decide (commit_id r = []) || bool_decide (commit_id r = head_sha pr) = true ↔ fresh pr r).
  { intros r. unfold fresh. rewrite orb_true_iff, !bool_decide_eq_true. done. }
  assert (Hch' : changesRequested rv = true ↔
    ∃ a r, standing (reviews pr) a = Some r ∧ lower_is (verdict r) "changes_requested" = true).
  { simpl in Hch. rewrite Hch. apply existsb_standing. }
  assert (Hap' : approved rv = true ↔
    ∃ a r, standing (reviews pr) a = Some r ∧ lower_is (verdict r) "approved" = true ∧ fresh pr r).
  { simpl in Hap. rewrite Hap, existsb_standing. setoid_rewrite andb_true_iff. by setoid_rewrite Hfresh. }
  assert (Hth : existsb open_thread (threads pr) = false ↔ ∀ t, Some t ∈ threads pr → resolved t = true).
  { rewrite <- not_true_iff_false, existsb_exists. setoid_rewrite <- list_elem_of_In. split.
    - intros H t Ht. destruct (resolved t) eqn:Hr; [done|]. destruct H. exists (Some t). cbn. by rewrite Hr.
    - intros H ([t|] & Ht & Ho); [|done]. cbn in Ho. by rewrite (H t Ht) in Ho. }
  destruct (prGate_late pr rv) as (E & Hlate & Hval). fold rv in E.
  split_and!; [rewrite E; split|rewrite E; split|].
  - intros Hg. destruct (Hlate (or_intror Hg)) as [Ho Hc]. rewrite (Hval Ho Hc) in Hg.
    destruct (changesRequested rv) eqn:Hcr; [done|]. destruct (approved rv); [|done]. cbn [negb] in Hg.
    destruct (existsb open_thread (threads pr)); [done|].
    refine (conj Ho (conj Hc (conj _ (conj (proj1 Hap' eq_refl) (proj1 Hth eq_refl))))).
    intros a r Hs. apply not_true_iff_false. intros Hv.
    discriminate (proj2 Hch'). eauto.
  - intros (Ho & Hc & Hno & Ha & Ht). rewrite (Hval Ho Hc). apply Hap' in Ha as ->. apply Hth in Ht as ->.
    destruct (changesRequested rv) eqn:Hcr; [|done]. destruct (proj1 Hch' eq_refl) as (a & r & Hs & Hv).
    by rewrite (Hno a r Hs) in Hv.
  - intros Hg. destruct (Hlate (or_introl Hg)) as [Ho Hc]. rewrite (Hval Ho Hc) in Hg.
    refine (conj Ho (conj Hc _)). apply Hch'. destruct (changesRequested rv); [done|]. destruct (approved rv); [|done].
    by destruct (existsb open_thread (threads pr)).
  - intros (Ho & Hc & Hch1). rewrite (Hval Ho Hc). by apply Hch' in Hch1 as ->.
  - simpl. fold rv. simpl in Hst. rewrite Hst, existsb_standing. setoid_rewrite andb_true_iff.
    setoid_rewrite negb_true_iff. setoid_rewrite <- not_true_iff_false. by setoid_rewrite Hfresh.
Qed.

End BoardGate.
