(* ===== verification/BoardProjection.v ===== *)
(** The agent-session projection of the board ([go/internal/board/projection.go])
    over an event bus it reaches through the interface [EventLog]; the bus of
    [go/events/events.go] discharges the interface. The theorem: the snapshot is
    always the last published status of each session. *)
From stdpp Require Import base gmap list strings sorting.
From Stdlib Require Import ZArith Lia.
From S2P Require Import Prelude Wire EventBus.

Open Scope nat_scope.

(** * What the projection needs of a bus

    [ready n b]: the bus can take [n] more events. A ready bus accepts an event and
    appends it to what it has published. *)
Class EventLog (P B : Type) := {
  sink_error : Type;
  sink_publish : P → B → result sink_error B;
  published : B → list P;
  ready : nat → B → Prop;
  ready_less n b : ready (S n) b → ready n b;
  sink_publish_ok n p b :
    ready (S n) b → ∃ b', sink_publish p b = Ok b' ∧ published b' = published b ++ [p] ∧ ready n b';
}.

(** The bus, with the clock and the trace parent fixed, is such a log: an event is
    published until the 64-bit sequence number would wrap. *)
#[global, program] Instance bus_log {P} (now : Z) (tp : string) : EventLog P (BusSystem.world (P := P)) := {
  sink_error := Bus.error;
  sink_publish p w := BusSystem.step (BusSystem.OpPublish now tp p) w;
  published w := Bus.Payload <$> BusSystem.log w;
  ready n w := BusSystem.inv w ∧ BusSystem.room (Z.of_nat n) w;
}.
Next Obligation.
  intros P now tp n w [Hinv Hroom]. split; [done|]. unfold BusSystem.room in *. lia.
Qed.
Next Obligation.
  intros P now tp n p w [Hinv Hroom].
  destruct (BusSystem.publish_inv w now tp p) as (w' & Hs & Hinv' & Hlog & Hid).
  - done.
  - unfold BusSystem.room in *. lia.
  - exists w'. split_and!; [done| |done|].
    + rewrite Hlog, fmap_app. done.
    + unfold BusSystem.room in *. rewrite Hlog, Hid, length_app. simpl. lia.
Qed.

Module BoardProjection.

(** The tier and the posture are open wire enums. *)
Record AgentSessionStatus := mkStatus {
  session_id : string;
  state : AgentSessionState;
  agent_account_id : string;
  runtime_tier : Z;
  egress_posture : Z;
}.

Record sessionEntry := mkEntry {
  e_state : AgentSessionState;
  account : string;
  tier : Z;
  egressPosture : Z;
}.

Section Projection.
Context {B : Type} `{EventLog AgentSessionStatus B}.

Record Projection := mkProjection { bus : B; sessions : gmap string sessionEntry }.

Definition NewProjection (b : B) : Projection := mkProjection b ∅.

Definition isTerminal (s : AgentSessionState) : bool :=
  bool_decide (s = STOPPED) || bool_decide (s = ERRORED).

Definition statusOf (id : string) (e : sessionEntry) : AgentSessionStatus :=
  mkStatus id (e_state e) (account e) (tier e) (egressPosture e).

(** [None] is the nil status. *)
Definition accepted (status : option AgentSessionStatus) : bool :=
  match status with
  | None => false
  | Some s => negb (bool_decide (session_id s = "")) && negb (bool_decide (state s = UNSPECIFIED))
  end.

Definition PublishSessionStatus (status : option AgentSessionStatus) (p : Projection)
    : result sink_error Projection :=
  match status with
  | None => Ok p
  | Some s =>
      if negb (accepted status) then Ok p
      else
        let entry := mkEntry (state s) (agent_account_id s) (runtime_tier s) (egress_posture s) in
        b <-? sink_publish s (bus p) ;
        Ok (mkProjection b (<[session_id s := entry]> (sessions p)))
  end.

Definition status_le (a b : AgentSessionStatus) : Prop := String.le (session_id a) (session_id b).

#[global] Instance status_le_dec : RelDecision status_le.
Proof. intros a b. unfold status_le. apply _. Defined.

Definition Snapshot (sessionID : string) (p : Projection) : list AgentSessionStatus :=
  if negb (bool_decide (sessionID = "")) then
    match sessions p !! sessionID with
    | None => []
    | Some entry => [statusOf sessionID entry]
    end
  else
    merge_sort status_le
      ((λ x, statusOf x.1 x.2) <$>
        filter (λ x, isTerminal (e_state x.2) = false) (map_to_list (sessions p))).

Fixpoint publish_all (l : list (option AgentSessionStatus)) (p : Projection) : result sink_error Projection :=
  match l with
  | [] => Ok p
  | s :: l' => p' <-? PublishSessionStatus s p ; publish_all l' p'
  end.

(** ** Theorem *)

(** The last status of a session among those published. *)
Definition last_status (id : string) (l : list AgentSessionStatus) : option AgentSessionStatus :=
  last (filter (λ s, session_id s = id) l).

Lemma last_status_snoc id l s :
  last_status id (l ++ [s]) = if decide (session_id s = id) then Some s else last_status id l.
Proof.
  unfold last_status. rewrite filter_app. case_decide.
  - rewrite (filter_cons_True _ s), filter_nil by done. by rewrite last_snoc.
  - rewrite (filter_cons_False _ s), filter_nil by done. by rewrite app_nil_r.
Qed.

(** The map holds exactly the last published statuses. *)
Definition agrees (p : Projection) : Prop :=
  ∀ id, statusOf id <$> sessions p !! id = last_status id (published (bus p)).

Lemma publish_one n s p :
  ready (S n) (bus p) → agrees p →
  ∃ p', PublishSessionStatus s p = Ok p' ∧ agrees p' ∧ ready n (bus p')
    ∧ published (bus p') = published (bus p) ++ (if accepted s then option_list s else []).
Proof.
  intros Hr Ha. destruct (accepted s) eqn:Hac.
  - destruct s as [s|]; [|done].
    destruct (sink_publish_ok n s (bus p) Hr) as (b' & Hp & Hlog & Hr').
    unfold PublishSessionStatus. rewrite Hac, Hp. cbn [negb rbind].
    eexists. split; [done|]. split_and!; [|done|done].
    intros id. cbn. rewrite Hlog, last_status_snoc. case_decide as Hid.
    + subst id. rewrite lookup_insert_eq. by destruct s.
    + rewrite lookup_insert_ne by done. apply Ha.
  - exists p. assert (HP : PublishSessionStatus s p = Ok p).
    { destruct s as [s|]; [|done]. unfold PublishSessionStatus. by rewrite Hac. }
    split_and!; [done|done|by apply ready_less|by rewrite app_nil_r].
Qed.

Lemma publish_all_ok l p :
  ready (length l) (bus p) → agrees p →
  ∃ p', publish_all l p = Ok p' ∧ agrees p'
    ∧ published (bus p') = published (bus p) ++ omap id (filter (λ s, accepted s = true) l).
Proof.
  revert p; induction l as [|s l IH]; intros p Hr Ha.
  - exists p. by rewrite filter_nil, app_nil_r.
  - destruct (publish_one (length l) s p Hr Ha) as (p1 & Hp & Ha1 & Hr1 & Hl1).
    destruct (IH p1 Hr1 Ha1) as (p' & Hp' & Ha' & Hl'). exists p'.
    cbn [publish_all]. rewrite Hp. cbn [rbind]. split_and!; [done|done|].
    rewrite Hl', Hl1, <- app_assoc. f_equal. destruct (accepted s) eqn:Hac.
    + rewrite filter_cons_True by done. by destruct s.
    + by rewrite filter_cons_False by congruence.
Qed.

#[local] Instance status_le_trans : Transitive status_le.
Proof. intros a b c. unfold status_le. by transitivity (session_id b). Qed.

#[local] Instance status_le_total : Total status_le.
Proof. intros a b. unfold status_le. apply (total String.le). Qed.

Lemma elem_of_live p s :
  s ∈ Snapshot "" p ↔
  ∃ e, sessions p !! session_id s = Some e ∧ isTerminal (e_state e) = false ∧ s = statusOf (session_id s) e.
Proof.
  unfold Snapshot. rewrite bool_decide_eq_true_2 by done. cbn [negb].
  rewrite (merge_sort_Permutation status_le), list_elem_of_fmap. split.
  - intros ([id e] & -> & Hin). apply list_elem_of_filter in Hin as [Ht Hin%elem_of_map_to_list].
    exists e. done.
  - intros (e & Hl & Ht & Hs). exists (session_id s, e). split; [done|].
    apply list_elem_of_filter. split; [done|]. by apply elem_of_map_to_list.
Qed.

Lemma live_nodup p : NoDup (session_id <$> Snapshot "" p).
Proof.
  unfold Snapshot. rewrite bool_decide_eq_true_2 by done. cbn [negb].
  rewrite (merge_sort_Permutation status_le). rewrite <- list_fmap_compose.
  apply (sublist_NoDup _ (map_to_list (sessions p)).*1); [apply NoDup_fst_map_to_list|].
  apply (fmap_sublist fst), sublist_filter.
Qed.

(** The board never disagrees with the event stream. Over any bus that keeps the
    promise of [EventLog], after any sequence of transitions handed to a fresh board:
    the bus has got exactly the well-formed ones, in order; the snapshot of one
    session is the last status published for it, terminal or not, or empty if there
    is none; the board's snapshot lists, once each and sorted by session id, exactly
    the sessions whose last published status is not terminal, with that status. *)
Theorem snapshot_is_last_published (b : B) (l : list (option AgentSessionStatus))
    (Hfresh : published b = []) (Hroom : ready (length l) b) :
  ∃ p, publish_all l (NewProjection b) = Ok p
  ∧ published (bus p) = omap id (filter (λ s, accepted s = true) l)
  ∧ (∀ sid, sid ≠ "" → Snapshot sid p = option_list (last_status sid (published (bus p))))
  ∧ Sorted status_le (Snapshot "" p) ∧ NoDup (session_id <$> Snapshot "" p)
  ∧ (∀ s, s ∈ Snapshot "" p ↔
       last_status (session_id s) (published (bus p)) = Some s ∧ isTerminal (state s) = false).
Proof.
  destruct (publish_all_ok l (NewProjection b)) as (p & Hp & Ha & Hl); [done| |].
  { intros sid. cbn. by rewrite Hfresh, lookup_empty. }
  exists p. cbn in Hl. rewrite Hfresh in Hl. split_and!; [done|done| | |apply live_nodup|].
  - intros sid Hs. unfold Snapshot. rewrite bool_decide_eq_false_2 by done. cbn [negb].
    rewrite <- Ha. by destruct (sessions p !! sid).
  - unfold Snapshot. rewrite bool_decide_eq_true_2 by done. apply Sorted_merge_sort. apply _.
  - intros s. rewrite elem_of_live, <- Ha. split.
    + intros (e & -> & Ht & Hs). cbn. rewrite <- Hs. split; [done|].
      assert (state s = e_state e) as -> by (by rewrite Hs). done.
    + intros [(e & He & ->)%fmap_Some Ht]. exists e. done.
Qed.
End Projection.
End BoardProjection.

(** A board over the real bus, and one transition of a session. *)
Lemma snapshot_is_last_published_witness :
  let s := BoardProjection.mkStatus "s1" WORKING "a1" 1 1 in
  ∃ p, BoardProjection.Snapshot "s1" p = [s]
    ∧ published (EventLog := bus_log 5 "") (BoardProjection.bus p) = [s].
Proof.
  intros s.
  destruct (BoardProjection.snapshot_is_last_published (H := bus_log 5 "")
              (BusSystem.init 7) [Some s; None]) as (p & _ & Hl & Hs & _).
  - reflexivity.
  - split; [apply BusSystem.inv_init|by vm_compute].
  - exists p. rewrite Hs by done. rewrite Hl. split; reflexivity.
Defined.
