(* ===== verification/BoardStack.v ===== *)
(** Stacks of pull requests ([go/internal/board/stack.go]): which open pull requests
    of an agent build on each other, their positions and their tips. A pull request
    is identified by its index in the repository's list, as the code compares
    pointers. The theorem: along a chain of base branches the positions count up
    from the root, and the walk that finds a chain ends on every input. *)
From stdpp Require Import base gmap list strings sorting.
From Stdlib Require Import ZArith Lia Ascii.
From Stdlib Require String.
From S2P Require Import Prelude Text BoardGate.

Open Scope nat_scope.

Module BoardStack.
Import BoardGate.

Definition MaxUint32 : N := 2 ^ 32 - 1.

Definition stackPosition (length : nat) : N :=
  if (MaxUint32 <? N.of_nat length)%N then MaxUint32 else N.of_nat length.

Record Stack := mkStack { Position : N; Tip : bytes }.

Definition boardRefKey (repo : bytes) (n : N) : bytes := repo ++ "#"%char :: FormatUint n.

Definition eligible (pr : option PullRequest) : bool :=
  match pr with
  | None => false
  | Some pr =>
      bool_decide (forge_state pr = lit "open") && negb (bool_decide (repo pr = []))
      && negb (num pr =? 0)%N
  end.

(** [byRepo]: the repositories, and the pull requests of one, in order. *)
Definition in_repo (open : list (option PullRequest)) (r : bytes) : list PullRequest :=
  omap (λ o, match o with
             | Some pr => if eligible o && bool_decide (ToLower (repo pr) = r) then Some pr else None
             | None => None
             end) open.

Definition repos (open : list (option PullRequest)) : list bytes :=
  remove_dups (omap (λ o, match o with
                          | Some pr => if eligible o then Some (ToLower (repo pr)) else None
                          | None => None
                          end) open).

Section Repo.
Context (rp : bytes) (prs : list PullRequest).

Definition key_of (i : nat) : option bytes := (λ pr, boardRefKey rp (num pr)) <$> prs !! i.

(** [byHead]: the last pull request with a head branch. *)
Definition byHead : gmap bytes nat :=
  foldl (λ m '(i, pr), <[head_ref pr := i]> m) ∅ (imap pair prs).

Definition parent_of (i : nat) : option nat :=
  match prs !! i with
  | Some pr => byHead !! base_ref pr
  | None => None
  end.

(** The keys of the pull requests some other one builds on. *)
Definition parent_keys : list bytes :=
  omap (λ i, match parent_of i with
             | Some p => if bool_decide (p = i) then None else key_of p
             | None => None
             end) (seq 0 (length prs)).

Definition is_tip (i : nat) : bool :=
  match key_of i with
  | Some k => bool_decide (k ∉ parent_keys)
  | None => false
  end.

(** Go compares the keys as strings. *)
Definition key_le (i j : nat) : Prop :=
  String.le (String.string_of_list_ascii (default [] (key_of i)))
            (String.string_of_list_ascii (default [] (key_of j))).

#[global] Instance key_le_dec : RelDecision key_le.
Proof. intros i j. unfold key_le. apply _. Defined.

Definition tips : list nat := merge_sort key_le (filter (λ i, is_tip i = true) (seq 0 (length prs))).

(** The walk from a pull request along the base branches, until there is no further
    one or a number repeats; [fuel] bounds its length. *)
Fixpoint walk (fuel : nat) (seen : list N) (cur : option nat) : list nat :=
  match fuel, cur with
  | S fuel', Some i =>
      match prs !! i with
      | Some pr =>
          if bool_decide (num pr ∈ seen) then []
          else i :: walk fuel' (num pr :: seen) (parent_of i)
      | None => []
      end
  | _, _ => []
  end.

Definition chain (i : nat) : list nat := walk (S (length prs)) [] (Some i).

(** The pull requests of a chain from its root down, with their positions. *)
Definition positions (c : list nat) : list (nat * nat) := imap (λ d i, (i, S d)) (reverse c).

Definition assign_one (tip : bytes) (out : gmap bytes Stack) (x : nat * nat) : gmap bytes Stack :=
  match key_of x.1 with
  | Some k =>
      match out !! k with
      | Some _ => out
      | None => <[k := mkStack (stackPosition x.2) tip]> out
      end
  | None => out
  end.

Definition assign_tip (out : gmap bytes Stack) (tip : nat) : gmap bytes Stack :=
  foldl (assign_one (default [] (key_of tip))) out (positions (chain tip)).

Definition assign_repo (out : gmap bytes Stack) : gmap bytes Stack := foldl assign_tip out tips.
End Repo.

Definition StackOf (open : list (option PullRequest)) : gmap bytes Stack :=
  foldl (λ out r, assign_repo r (in_repo open r) out) ∅ (repos open).

(** ** The walk *)

Section RepoFacts.
Context (rp : bytes) (prs : list PullRequest).

Lemma walk_spec fuel seen cur :
  NoDup (walk prs fuel seen cur)
  ∧ ∀ i, i ∈ walk prs fuel seen cur → i < length prs ∧ ∃ pr, prs !! i = Some pr ∧ num pr ∉ seen.
Proof.
  revert seen cur; induction fuel as [|fuel IH]; intros seen cur; simpl.
  { split; [constructor|]. by intros i ?%not_elem_of_nil. }
  destruct cur as [i|]; [|split; [constructor|by intros i ?%not_elem_of_nil]].
  destruct (prs !! i) as [pr|] eqn:Hi; [|split; [constructor|by intros j ?%not_elem_of_nil]].
  case_bool_decide as Hs; [split; [constructor|by intros j ?%not_elem_of_nil]|].
  destruct (IH (num pr :: seen) (parent_of prs i)) as [Hnd Hel]. split.
  - constructor; [|done]. intros (_ & pr' & Hi' & Hn)%Hel. rewrite Hi in Hi'. injection Hi' as <-.
    apply Hn. left.
  - intros j [->|Hj]%elem_of_cons.
    + split; [by eapply lookup_lt_Some|eauto].
    + destruct (Hel j Hj) as (? & pr' & ? & Hn). split; [done|]. exists pr'. split; [done|].
      intros ?. apply Hn. by right.
Qed.

Lemma NoDup_bounded_length (l : list nat) n : NoDup l → (∀ i, i ∈ l → i < n) → length l ≤ n.
Proof.
  intros Hnd Hb. rewrite <- (length_seq n 0). apply submseteq_length, NoDup_submseteq; [done|].
  intros i Hi. apply elem_of_seq. specialize (Hb i Hi). lia.
Qed.

Lemma walk_length fuel seen cur : length (walk prs fuel seen cur) ≤ length prs.
Proof.
  destruct (walk_spec fuel seen cur) as [Hnd Hel]. apply NoDup_bounded_length; [done|].
  intros i Hi. by apply Hel.
Qed.

Lemma walk_fuel fuel n seen cur :
  length (walk prs fuel seen cur) < fuel → walk prs (fuel + n) seen cur = walk prs fuel seen cur.
Proof.
  revert seen cur; induction fuel as [|fuel IH]; intros seen cur Hl; simpl in *; [lia|].
  destruct cur as [i|]; [|done]. destruct (prs !! i) as [pr|]; [|done].
  case_bool_decide; [done|]. simpl in Hl. f_equal. apply IH. lia.
Qed.

(** The walk stops by itself: more fuel changes nothing. *)
Lemma chain_fuel i n : walk prs (S (length prs) + n) [] (Some i) = chain prs i.
Proof. apply walk_fuel. pose proof (walk_length (S (length prs)) [] (Some i)). lia. Qed.

(** The walk from [i] ends at a pull request that builds on none of the others. *)
Definition rooted_walk (l : list nat) : Prop := ∃ j, last l = Some j ∧ parent_of prs j = None.

Definition rooted (i : nat) : Prop := rooted_walk (chain prs i).

Lemma walk_seen fuel seen seen' cur :
  rooted_walk (walk prs fuel seen cur) → length (walk prs fuel seen cur) < fuel →
  (∀ x, x ∈ seen' → x ∈ seen) → walk prs fuel seen' cur = walk prs fuel seen cur.
Proof.
  revert seen seen' cur; induction fuel as [|fuel IH]; intros seen seen' cur Hr Hl Hsub; simpl in *; [done|].
  destruct cur as [i|]; [|done]. destruct (prs !! i) as [pr|] eqn:Hi; [|done].
  case_bool_decide as Hs; [by destruct Hr as (j & ? & _)|].
  rewrite bool_decide_eq_false_2 by auto. f_equal. simpl in Hl.
  destruct (walk prs fuel (num pr :: seen) (parent_of prs i)) as [|k l] eqn:Hw.
  - destruct Hr as (j & [= <-] & Hj). rewrite Hj. by destruct fuel.
  - rewrite <- Hw. apply IH.
    + rewrite Hw. destruct Hr as (j & Hlast & Hj). exists j. split; [|done].
      by rewrite <- Hlast.
    + rewrite Hw. lia.
    + intros x [->|Hx]%elem_of_cons; [left|right; auto].
Qed.

Lemma chain_unfold i pr :
  prs !! i = Some pr → chain prs i = i :: walk prs (length prs) [num pr] (parent_of prs i).
Proof.
  intros Hi. unfold chain. cbn [walk]. rewrite Hi. rewrite bool_decide_eq_false_2; [done|].
  by intros ?%not_elem_of_nil.
Qed.

Lemma chain_step i :
  i < length prs → rooted i →
  chain prs i = i :: match parent_of prs i with Some p => chain prs p | None => [] end.
Proof.
  intros Hlt Hr. destruct (lookup_lt_is_Some_2 prs i Hlt) as [pr Hi].
  rewrite (chain_unfold i pr Hi). f_equal. destruct (parent_of prs i) as [p|] eqn:Hp; [|by destruct (length prs)].
  unfold rooted in Hr. rewrite (chain_unfold i pr Hi), Hp in Hr.
  pose proof (walk_length (S (length prs)) [] (Some i)) as Hl.
  fold (chain prs i) in Hl. rewrite (chain_unfold i pr Hi), Hp in Hl. simpl in Hl.
  assert (Hrw : rooted_walk (walk prs (length prs) [num pr] (Some p))).
  { destruct Hr as (j & Hlast & Hj). exists j. split; [|done].
    destruct (walk prs (length prs) [num pr] (Some p)); [|done].
    injection Hlast as <-. congruence. }
  rewrite <- (walk_fuel (length prs) 1) by lia. rewrite Nat.add_1_r. unfold chain. symmetry.
  apply walk_seen.
  - rewrite <- Nat.add_1_r, walk_fuel by lia. done.
  - rewrite <- Nat.add_1_r at 1. rewrite walk_fuel by lia. lia.
  - by intros x ?%not_elem_of_nil.
Qed.

Lemma parent_lt i p : parent_of prs i = Some p → p < length prs.
Proof.
  unfold parent_of. destruct (prs !! i); [|done]. unfold byHead.
  assert (Hgen : ∀ l (m : gmap bytes nat), (∀ k j, m !! k = Some j → j < length prs) →
    (∀ j pr, (j, pr) ∈ l → j < length prs) →
    ∀ k j, foldl (λ m '(i, pr), <[head_ref pr := i]> m) m l !! k = Some j → j < length prs).
  { induction l as [|[j pr] l IH]; intros m Hm Hl; [done|]. apply IH.
    - intros k j' [[_ <-]|[_ ?]]%lookup_insert_Some; [apply (Hl j pr); left|eauto].
    - intros. eapply Hl. by right. }
  apply Hgen.
  - intros k j. by rewrite lookup_empty.
  - intros j pr Hin. apply list_elem_of_lookup in Hin as [k Hk].
    rewrite list_lookup_imap in Hk. apply fmap_Some in Hk as (pr' & Hk & [= -> ->]).
    by eapply lookup_lt_Some.
Qed.
End RepoFacts.

(** ** Positions *)

Lemma fold_keeps {A} (f : gmap bytes Stack → A → gmap bytes Stack) l out k st :
  (∀ o a, o !! k = Some st → f o a !! k = Some st) →
  out !! k = Some st → foldl f out l !! k = Some st.
Proof. intros Hf. revert out; induction l; simpl; auto. Qed.

(** An entry after a loop was there before or was added in some turn. *)
Lemma fold_new {A} (f : gmap bytes Stack → A → gmap bytes Stack) (Q : A → Stack → Prop) l out k st :
  (∀ o a, f o a !! k = Some st → o !! k = Some st ∨ Q a st) →
  foldl f out l !! k = Some st → out !! k = Some st ∨ ∃ a, a ∈ l ∧ Q a st.
Proof.
  intros Hf. revert out; induction l as [|a l IH]; intros out; simpl; [auto|].
  intros [H|(a' & Ha & HQ)]%IH.
  - apply Hf in H as [H|H]; [auto|]. right. exists a. split; [left|done].
  - right. exists a'. split; [by right|done].
Qed.

Lemma fold_has {A} (f : gmap bytes Stack → A → gmap bytes Stack) l out k a :
  (∀ o a', is_Some (o !! k) → is_Some (f o a' !! k)) → (∀ o, is_Some (f o a !! k)) →
  a ∈ l → is_Some (foldl f out l !! k).
Proof.
  intros Hk Ha. revert out; induction l as [|a' l IH]; intros out; [by intros ?%not_elem_of_nil|].
  intros [->|Hin]%elem_of_cons; simpl; [|by apply IH].
  assert (Hs : is_Some (f out a' !! k)) by apply Ha. clear IH Ha. revert Hs. generalize (f out a').
  clear out. induction l as [|b l IH]; intros o Hs; simpl; [done|]. apply IH. by apply Hk.
Qed.

Section Assign.
Context (rp : bytes) (prs : list PullRequest).

Lemma assign_one_keeps tip out x k : is_Some (out !! k) → assign_one rp prs tip out x !! k = out !! k.
Proof.
  intros [st Hk]. unfold assign_one. destruct (key_of rp prs x.1) as [k'|]; [|done].
  destruct (out !! k') eqn:Hk'; [done|]. rewrite lookup_insert_ne; [done|congruence].
Qed.

Lemma assign_one_new tip out x k st :
  assign_one rp prs tip out x !! k = Some st →
  out !! k = Some st ∨ (key_of rp prs x.1 = Some k ∧ st = mkStack (stackPosition x.2) tip).
Proof.
  unfold assign_one. destruct (key_of rp prs x.1) as [k'|]; [|auto].
  destruct (out !! k') eqn:Hk'; [auto|]. intros [[-> <-]|[_ ?]]%lookup_insert_Some; auto.
Qed.

Lemma assign_one_has tip out x k : key_of rp prs x.1 = Some k → is_Some (assign_one rp prs tip out x !! k).
Proof.
  intros Hk. unfold assign_one. rewrite Hk. destruct (out !! k) eqn:E; [by eexists|].
  rewrite lookup_insert_eq. by eexists.
Qed.

(** An entry a repository adds: who it is for, and which tip's chain it is from. *)
Definition added (k : bytes) (st : Stack) : Prop :=
  ∃ t i d, is_tip rp prs t = true ∧ t < length prs ∧ (i, d) ∈ positions (chain prs t)
    ∧ key_of rp prs i = Some k ∧ st = mkStack (stackPosition d) (default [] (key_of rp prs t)).

Lemma tips_elem t : t ∈ tips rp prs ↔ is_tip rp prs t = true ∧ t < length prs.
Proof.
  unfold tips. rewrite (merge_sort_Permutation (key_le rp prs)), list_elem_of_filter, elem_of_seq.
  split; [intros []; split; (done || lia)|intros []; split; (done || lia)].
Qed.

Lemma assign_tip_keeps out t k : is_Some (out !! k) → assign_tip rp prs out t !! k = out !! k.
Proof.
  intros [st Hk]. unfold assign_tip. rewrite Hk. apply fold_keeps; [|done].
  intros o x Ho. rewrite assign_one_keeps; [done|by eexists].
Qed.

Lemma assign_repo_new out k st : assign_repo rp prs out !! k = Some st → out !! k = Some st ∨ added k st.
Proof.
  intros H. unfold assign_repo in H.
  apply (fold_new _ (λ t st, ∃ x, x ∈ positions (chain prs t) ∧ key_of rp prs x.1 = Some k
    ∧ st = mkStack (stackPosition x.2) (default [] (key_of rp prs t)))) in H as [H|(t & Ht & [i d] & Hx & Hk & ->)]; [auto| |].
  - right. apply tips_elem in Ht as [Ht Hlt]. by exists t, i, d.
  - intros o t Ho. unfold assign_tip in Ho.
    apply (fold_new _ (λ x st, key_of rp prs x.1 = Some k ∧ st = mkStack (stackPosition x.2) (default [] (key_of rp prs t)))) in Ho
      as [Ho|(x & Hx & Hk & ->)]; [auto|right; eauto|]. intros o' x. apply assign_one_new.
Qed.

Lemma assign_repo_keeps out k : is_Some (out !! k) → assign_repo rp prs out !! k = out !! k.
Proof.
  intros [st Hk]. unfold assign_repo. rewrite Hk. apply fold_keeps; [|done].
  intros o t Ho. rewrite assign_tip_keeps; [done|by eexists].
Qed.

Lemma assign_repo_has out t i d k :
  is_tip rp prs t = true → t < length prs → (i, d) ∈ positions (chain prs t) →
  key_of rp prs i = Some k → is_Some (assign_repo rp prs out !! k).
Proof.
  intros Ht Hlt Hin Hk. apply (fold_has _ _ _ _ t).
  - intros o t' Ho. by rewrite assign_tip_keeps.
  - intros o. apply (fold_has _ _ _ _ (i, d)); [|by intros o'; apply assign_one_has|done].
    intros o' x Ho'. by rewrite assign_one_keeps.
  - by apply tips_elem.
Qed.

(** Every number occurs once, and no chain of base branches is a loop. *)
Context (Hnum : NoDup (num <$> prs)) (Hroot : ∀ i, i < length prs → rooted prs i).

Definition depth (i : nat) : nat := length (chain prs i).

Lemma depth_step i :
  i < length prs → depth i = match parent_of prs i with Some p => S (depth p) | None => 1 end.
Proof.
  intros Hi. unfold depth. rewrite (chain_step prs i Hi (Hroot i Hi)). by destruct (parent_of prs i).
Qed.

Lemma chain_suffix t l1 i l2 : t < length prs → chain prs t = l1 ++ i :: l2 → chain prs i = i :: l2.
Proof.
  revert t; induction l1 as [|x l1 IH]; intros t Ht Hc.
  - pose proof Hc as Hc'. rewrite (chain_step prs t Ht (Hroot t Ht)) in Hc'. injection Hc' as -> _. done.
  - rewrite (chain_step prs t Ht (Hroot t Ht)) in Hc. injection Hc as _ Hc.
    destruct (parent_of prs t) as [p|] eqn:Hp; [|by destruct l1].
    apply (IH p); [by eapply parent_lt|done].
Qed.

Lemma positions_elem c i d : (i, d) ∈ positions c ↔ ∃ l1 l2, c = l1 ++ i :: l2 ∧ d = S (length l2).
Proof.
  unfold positions. rewrite list_elem_of_lookup. setoid_rewrite list_lookup_imap. split.
  - intros (k & (j & Hj & [= -> ->])%fmap_Some). apply list_elem_of_split_length in Hj as (l1 & l2 & Hc & Hk).
    exists (reverse l2), (reverse l1). split; [|by rewrite length_reverse, Hk].
    rewrite <- (reverse_involutive c), Hc, reverse_app, reverse_cons, <- app_assoc. done.
  - intros (l1 & l2 & -> & ->). exists (length l2).
    rewrite reverse_app, reverse_cons, <- app_assoc.
    rewrite lookup_app_r by (rewrite length_reverse; lia). rewrite length_reverse, Nat.sub_diag. done.
Qed.

Lemma positions_depth t i d : t < length prs → (i, d) ∈ positions (chain prs t) → d = depth i.
Proof.
  intros Ht (l1 & l2 & Hc & ->)%positions_elem. unfold depth. by rewrite (chain_suffix t l1 i l2).
Qed.

Lemma key_of_inj i j k : key_of rp prs i = Some k → key_of rp prs j = Some k → i = j.
Proof.
  unfold key_of. intros (pr & Hi & Hk)%fmap_Some (pr' & Hj & Hk')%fmap_Some. rewrite Hk in Hk'.
  unfold boardRefKey in Hk'. apply app_inv_head in Hk'. injection Hk' as Hn%FormatUint_inj.
  eapply (NoDup_lookup (num <$> prs)); [done|..]; rewrite list_lookup_fmap; [rewrite Hi|rewrite Hj]; simpl; by rewrite ?Hn.
Qed.

(** Every pull request is on the chain of some tip. *)
Lemma on_some_chain i : i < length prs → ∃ t, is_tip rp prs t = true ∧ t < length prs ∧ i ∈ chain prs t.
Proof.
  assert (Hgen : ∀ n i, i < length prs → length prs - depth i ≤ n →
    ∃ t, is_tip rp prs t = true ∧ t < length prs ∧ i ∈ chain prs t); [|intros; by eapply Hgen].
  intros n; induction n as [n IH] using lt_wf_ind. clear i. intros i Hi Hn.
  destruct (is_tip rp prs i) eqn:Ht.
  { exists i. split_and!; [done|done|]. rewrite (chain_step prs i Hi (Hroot i Hi)). left. }
  unfold is_tip in Ht. destruct (key_of rp prs i) as [k|] eqn:Hk.
  2: { apply fmap_None in Hk. apply lookup_ge_None in Hk. lia. }
  apply bool_decide_eq_false, dec_stable in Ht. unfold parent_keys in Ht.
  apply list_elem_of_omap in Ht as (j & Hj%elem_of_seq & Hpj).
  destruct (parent_of prs j) as [p|] eqn:Hp; [|done]. case_bool_decide; [done|].
  assert (p = i) as -> by (by eapply key_of_inj).
  assert (Hd : depth j = S (depth i)) by (rewrite depth_step by lia; by rewrite Hp).
  assert (Hdl : depth j ≤ length prs) by apply walk_length.
  destruct (IH (length prs - depth j) ltac:(lia) j ltac:(lia) ltac:(lia)) as (t & Htt & Htl & Hin).
  exists t. split_and!; [done|done|]. apply list_elem_of_split in Hin as (l1 & l2 & Hc).
  pose proof (chain_suffix t l1 j l2 Htl Hc) as Hcj.
  rewrite (chain_step prs j ltac:(lia) (Hroot j ltac:(lia))), Hp in Hcj. injection Hcj as Hcj.
  rewrite Hc, <- Hcj, (chain_step prs i Hi (Hroot i Hi)). apply elem_of_app. right. right. left.
Qed.
End Assign.

(** ** The whole *)

Lemma boardRefKey_inj r n r' n' : boardRefKey r n = boardRefKey r' n' → r = r' ∧ n = n'.
Proof.
  assert (Hd : ∀ m, "#"%char ∉ FormatUint m).
  { intros m Hin%list_elem_of_In. destruct (FormatUint_spec m) as (_ & Hd & _).
    rewrite forallb_forall in Hd. by apply Hd in Hin. }
  intros H. apply last_sep_inj in H as [-> ->%FormatUint_inj]; done.
Qed.

Lemma in_repo_listed open r i pr : in_repo open r !! i = Some pr → r ∈ repos open.
Proof.
  intros Hi%list_elem_of_lookup_2. unfold in_repo in Hi. apply list_elem_of_omap in Hi as (o & Ho & He).
  apply elem_of_remove_dups, list_elem_of_omap. exists o. split; [done|].
  destruct o as [pr'|]; [|done]. destruct (eligible (Some pr')); [|done]. cbn [andb] in He.
  case_bool_decide as Hr; [|done]. by rewrite Hr.
Qed.

Lemma StackOf_new open k st :
  StackOf open !! k = Some st → ∃ r, r ∈ repos open ∧ added r (in_repo open r) k st.
Proof.
  intros H. apply (fold_new _ (λ r st, added r (in_repo open r) k st)) in H as [H|H]; [by rewrite lookup_empty in H|done|].
  intros o r. apply assign_repo_new.
Qed.

(** Stacks. The walk along base branches ends on every input, loops included.
    In a repository where each number occurs once and no chain of base branches is a
    loop, every open pull request gets a stack entry: its position is its depth, which
    is 1 for a pull request that builds on no other and one more than its parent's
    otherwise, clamped to the wire field; its tip is a pull request no other builds
    on, and the pull request is on the chain from that tip. *)
Theorem stack_positions (open : list (option PullRequest)) (r : bytes) (i : nat) (pr : PullRequest)
    (Hi : in_repo open r !! i = Some pr) (Hnum : NoDup (num <$> in_repo open r))
    (Hroot : ∀ j, j < length (in_repo open r) → rooted (in_repo open r) j) :
  (∀ n, walk (in_repo open r) (S (length (in_repo open r)) + n) [] (Some i) = chain (in_repo open r) i)
  ∧ depth (in_repo open r) i =
      match parent_of (in_repo open r) i with Some p => S (depth (in_repo open r) p) | None => 1 end
  ∧ ∃ st t, StackOf open !! boardRefKey r (num pr) = Some st
      ∧ Position st = stackPosition (depth (in_repo open r) i)
      ∧ is_tip r (in_repo open r) t = true ∧ key_of r (in_repo open r) t = Some (Tip st)
      ∧ i ∈ chain (in_repo open r) t.
Proof.
  set (prs := in_repo open r) in *. pose proof (lookup_lt_Some _ _ _ Hi) as Hlt.
  assert (Hk : key_of r prs i = Some (boardRefKey r (num pr))) by (unfold key_of; by rewrite Hi).
  split_and!; [intros n; apply chain_fuel|by apply depth_step|].
  assert (Hs : is_Some (StackOf open !! boardRefKey r (num pr))).
  { destruct (on_some_chain r prs Hnum Hroot i Hlt) as (t & Ht & Htl & Hin).
    apply list_elem_of_split in Hin as (l1 & l2 & Hc).
    apply (fold_has _ _ _ _ r); [|intros o|by eapply in_repo_listed].
    - intros o r' Ho. by rewrite assign_repo_keeps.
    - apply (assign_repo_has r prs o t i (S (length l2))); try done. apply positions_elem. by exists l1, l2. }
  destruct Hs as [st Hst]. exists st.
  apply StackOf_new in Hst as Hnew. destruct Hnew as (r' & _ & t & j & d & Ht & Htl & Hin & Hj & ->).
  assert (r' = r) as ->.
  { unfold key_of in Hj. apply fmap_Some in Hj as (pr' & _ & [<- _]%boardRefKey_inj). done. }
  fold prs in Ht, Htl, Hin, Hj |- *. assert (j = i) as -> by (by eapply key_of_inj).
  exists t. split_and!; [done| |done| |].
  - simpl. by rewrite (positions_depth prs Hroot t i d).
  - simpl. unfold key_of. by destruct (lookup_lt_is_Some_2 prs t Htl) as [pr' ->].
  - apply positions_elem in Hin as (l1 & l2 & -> & _). apply elem_of_app. right. left.
Qed.

Definition sample_pr (n : N) (head base : string) : option PullRequest :=
  Some (mkPR (lit "acme/web") n [] [] (lit "open") false [] (lit head) (lit base) [] None None [] []).

Lemma stack_positions_witness :
  ∃ st t, StackOf [sample_pr 7 "b" "a"; sample_pr 3 "a" "main"] !! boardRefKey (lit "acme/web") 7 = Some st
    ∧ Position st = 2%N ∧ t = 0.
Proof.
  set (open := [sample_pr 7 "b" "a"; sample_pr 3 "a" "main"]).
  set (p7 := mkPR (lit "acme/web") 7 [] [] (lit "open") false [] (lit "b") (lit "a") [] None None [] []).
  destruct (stack_positions open (lit "acme/web") 0 p7) as (_ & _ & st & t & Hst & Hp & _).
  - reflexivity.
  - apply (bool_decide_unpack _). by vm_compute.
  - intros j Hj. change (j < 2) in Hj.
    destruct j as [|[|j]]; [exists 1|exists 1|lia]; split; by vm_compute.
  - exists st, 0. split_and!; [exact Hst| |reflexivity]. rewrite Hp. by vm_compute.
Defined.

End BoardStack.
