(* ===== verification/BoardRefs.v ===== *)
(** Board references ([go/internal/board/refs_derive.go]): task references joined to
    stored forge rows, for a batch of requests with one store read per row type. The
    store is reached through the interface [RefResolver]. The theorem: each result of
    a batch is the result of its request alone. *)
From stdpp Require Import base gmap list strings.
From Stdlib Require Import ZArith Lia Ascii.
From S2P Require Import Prelude Text Refs BoardGate BoardStack.

Open Scope nat_scope.

Module BoardRefs.
Import BoardGate BoardStack.

(** ** Data *)

Definition ForgeProviderGitHub : Z := 1.
Definition ForgeProviderLinear : Z := 4.

Record ForgeCoord := mkCoord { Provider : Z; Host : bytes; Repo : bytes; Number : N }.

#[global] Instance ForgeCoord_eq_dec : EqDecision ForgeCoord.
Proof. solve_decision. Defined.
#[global] Instance ForgeCoord_countable : Countable ForgeCoord.
Proof.
  apply (inj_countable' (λ c, (Provider c, Host c, Repo c, Number c))
           (λ '(p, h, r, n), mkCoord p h r n)). by intros [].
Defined.

(** [ForgeCoord.Normalized]. *)
Definition Normalized (c : ForgeCoord) : ForgeCoord :=
  let r := TrimSpace (Repo c) in
  mkCoord (Provider c) (Host c) (if (Provider c =? ForgeProviderGitHub)%Z then ToLower r else r) (Number c).

Inductive BoardRefKind := KIND_UNSPECIFIED | KIND_ISSUE | KIND_PULL_REQUEST.

#[global] Instance kind_eq_dec : EqDecision BoardRefKind.
Proof. solve_decision. Defined.
#[global] Instance kind_countable : Countable BoardRefKind.
Proof.
  apply (inj_countable' (λ k, match k with KIND_UNSPECIFIED => 0 | KIND_ISSUE => 1 | KIND_PULL_REQUEST => 2 end)
           (λ n, match n with 0 => KIND_UNSPECIFIED | 1 => KIND_ISSUE | _ => KIND_PULL_REQUEST end)).
  by intros [].
Defined.

(** The store's artifact kinds: 1 an issue, 2 a pull request. *)
Record AuthoredRef := mkAuthored { a_coord : ForgeCoord; a_kind : Z }.

(** Times are milliseconds, [None] the zero time. *)
Record PullRequestRow := mkRow {
  row_coord : ForgeCoord; row_state : bytes; row_updated : option Z; row_pr : bytes;
}.

Record Issue := mkIssue {
  i_provider : Z; i_host : bytes; i_repo : bytes; i_number : N;
  i_title : bytes; i_url : bytes; i_forge_state : bytes; i_state : Z; i_updated : option Z;
}.

Record BoardRef := mkBoardRef {
  br_ref : bytes; br_url : bytes; br_kind : BoardRefKind; br_owned : bool;
  br_title : bytes; br_draft : bool; br_checks : bytes; br_gate : BoardPrGate; br_stale : bool;
  br_queue : bytes; br_observed : Z; br_position : N; br_tip : bytes;
  br_forge_state : bytes; br_issue_state : Z;
}.

(** A reference with nothing known of it. *)
Definition bare (text url : bytes) : BoardRef :=
  mkBoardRef text url KIND_UNSPECIFIED false [] false [] UNSPECIFIED false [] 0 0 [] [] 0.

Definition AccountID : Type := bytes.

Record RefRequest := mkRequest { Agent : AccountID; req_refs : list bytes }.

Record Forges := mkForges { GitHubHost : bytes; LinearHost : bytes; LinearTeams : list bytes }.

Definition artifactKey : Type := ForgeCoord * BoardRefKind.
Definition stackGroup : Type := Z * bytes.

Record parsedBoardRef := mkParsed { p_ref : Refs.Ref; p_coord : ForgeCoord; p_kind : BoardRefKind }.
Record storedBoardPR := mkStored { s_row : PullRequestRow; s_pr : PullRequest }.

Inductive store_error := ErrOpen | ErrAuthored | ErrPullRequests | ErrIssues.

(** A result, a store failure, or the stored pull requests that do not decode. *)
Inductive RefResult :=
| Derived (refs : list BoardRef) (untracked : list bytes)
| StoreFailed (e : store_error)
| Undecodable (bad : gset ForgeCoord).

(** The stored-row read surface. *)
Class RefResolver := {
  OpenAuthoredRefsForAgents : list AccountID → result unit (gmap AccountID (list AuthoredRef));
  AuthoredCoordsForAgents :
    list AccountID → list ForgeCoord → result unit (gmap AccountID (list AuthoredRef));
  PullRequestsByCoords : list ForgeCoord → result unit (list PullRequestRow);
  IssuesByCoords : list ForgeCoord → result unit (list Issue);
}.

(** ** Parsing a request *)

Definition boardRefKind (k : Z) : BoardRefKind :=
  if (k =? 1)%Z then KIND_ISSUE else if (k =? 2)%Z then KIND_PULL_REQUEST else KIND_UNSPECIFIED.

Definition coord_of (host : bytes) (provider : Z) (r : Refs.Ref) : ForgeCoord :=
  match Refs.kind r with
  | Refs.KindForge =>
      Normalized (mkCoord provider host (Refs.owner r ++ "/"%char :: Refs.repo r) (Refs.num r))
  | Refs.KindTracker => Normalized (mkCoord provider host (Refs.key r) (Refs.num r))
  end.

Definition configuredCoord (r : Refs.Ref) (forges : Forges) : option (ForgeCoord * BoardRefKind) :=
  if (Refs.num r =? 0)%N then None
  else match Refs.kind r with
       | Refs.KindForge =>
           if bool_decide (GitHubHost forges = []) then None
           else Some (coord_of (GitHubHost forges) ForgeProviderGitHub r, KIND_PULL_REQUEST)
       | Refs.KindTracker =>
           if bool_decide (LinearHost forges = []) || negb (bool_decide (Refs.key r ∈ LinearTeams forges))
           then None
           else Some (coord_of (LinearHost forges) ForgeProviderLinear r, KIND_ISSUE)
       end.

Definition taskRefCoord (r : Refs.Ref) : option (ForgeCoord * BoardRefKind) :=
  if (Refs.num r =? 0)%N then None
  else match Refs.kind r with
       | Refs.KindForge => Some (coord_of (lit "github.com") ForgeProviderGitHub r, KIND_PULL_REQUEST)
       | Refs.KindTracker => Some (coord_of (lit "linear.app") ForgeProviderLinear r, KIND_ISSUE)
       end.

Definition unknownRefURL (r : Refs.Ref) (forges : Forges) : bytes :=
  match Refs.kind r with
  | Refs.KindForge =>
      if bool_decide (GitHubHost forges = []) then []
      else lit "https://" ++ GitHubHost forges ++ lit "/" ++ Refs.owner r ++ lit "/" ++ Refs.repo r
           ++ lit "/issues/" ++ FormatUint (Refs.num r)
  | Refs.KindTracker =>
      if bool_decide (LinearHost forges = []) || negb (bool_decide (Refs.key r ∈ LinearTeams forges))
      then []
      else lit "https://" ++ LinearHost forges ++ lit "/browse/" ++ Refs.key r ++ lit "-"
           ++ FormatUint (Refs.num r)
  end.

Definition parseBoardRef (r : Refs.Ref) (forges : Forges) : option parsedBoardRef * BoardRef :=
  match configuredCoord r forges with
  | None => (None, bare (Refs.String r) [])
  | Some (c, k) => (Some (mkParsed r c k), bare (Refs.String r) (unknownRefURL r forges))
  end.

Definition addTaskRefCoords (r : Refs.Ref) (item : option parsedBoardRef) (taskRefs : gset artifactKey)
    : gset artifactKey :=
  match taskRefCoord r with
  | None => taskRefs
  | Some (c, k) =>
      let '(c, k) := match item with Some it => (p_coord it, p_kind it) | None => (c, k) end in
      let s := {[ (c, k) ]} ∪ taskRefs in
      match Refs.kind r with
      | Refs.KindForge => {[ (c, KIND_ISSUE) ]} ∪ s
      | Refs.KindTracker => s
      end
  end.

(** The coordinates of the batch: a set and, in order of first use, a list. *)
Definition coord_acc : Type := gset ForgeCoord * list ForgeCoord.

Definition addCoord (c : ForgeCoord) (acc : coord_acc) : coord_acc :=
  if decide (c ∈ acc.1) then acc else ({[ c ]} ∪ acc.1, acc.2 ++ [c]).

Record batchRequest := mkBatch {
  parsed : list (option parsedBoardRef);
  taskRefs : gset artifactKey;
  coords : gset ForgeCoord;
}.

(** One turn of the loop of [parseRefRequest]: the item, its board reference, and
    the request and batch coordinates after it. *)
Definition parse_one (forges : Forges) (text : bytes) (st : batchRequest * list BoardRef * coord_acc)
    : batchRequest * list BoardRef * coord_acc :=
  let '(rq, derived, acc) := st in
  match Refs.Parse text with
  | None => (mkBatch (parsed rq ++ [None]) (taskRefs rq) (coords rq), derived ++ [bare text []], acc)
  | Some r =>
      let '(item, base) := parseBoardRef r forges in
      let tr := addTaskRefCoords r item (taskRefs rq) in
      match item with
      | Some it =>
          (mkBatch (parsed rq ++ [item]) tr ({[ p_coord it ]} ∪ coords rq), derived ++ [base],
           addCoord (p_coord it) acc)
      | None => (mkBatch (parsed rq ++ [None]) tr (coords rq), derived ++ [base], acc)
      end
  end.

Definition parseRefRequest (refsIn : list bytes) (forges : Forges) (acc : coord_acc)
    : batchRequest * list BoardRef * coord_acc :=
  foldl (λ st text, parse_one forges text st) (mkBatch [] ∅ ∅, [], acc) refsIn.

Fixpoint parse_requests (forges : Forges) (reqs : list RefRequest) (acc : coord_acc)
    : list (batchRequest * list BoardRef) * coord_acc :=
  match reqs with
  | [] => ([], acc)
  | rq :: rest =>
      let '(b, d, acc) := parseRefRequest (req_refs rq) forges acc in
      let '(l, acc) := parse_requests forges rest acc in
      ((b, d) :: l, acc)
  end.

(** ** Reading the rows *)

Section Rows.
Context (decode : bytes → option PullRequest).

Definition authoredKeys (l : list AuthoredRef) : gset artifactKey :=
  list_to_set ((λ r, (Normalized (a_coord r), boardRefKind (a_kind r))) <$> l).

(** [storePRRow]: a row that decodes is indexed, one that does not is noted. *)
Definition storePRRow (m : gmap ForgeCoord storedBoardPR) (row : PullRequestRow) : gmap ForgeCoord storedBoardPR :=
  match decode (row_pr row) with
  | Some pr => <[Normalized (row_coord row) := mkStored row pr]> m
  | None => m
  end.

Definition index_prs (rows : list PullRequestRow) : gmap ForgeCoord storedBoardPR := foldl storePRRow ∅ rows.

Definition bad_prs (rows : list PullRequestRow) : gset ForgeCoord :=
  list_to_set ((λ row, Normalized (row_coord row)) <$> filter (λ row, decode (row_pr row) = None) rows).

Definition issueCoord (i : Issue) : ForgeCoord :=
  Normalized (mkCoord (i_provider i) (i_host i) (i_repo i) (i_number i)).

Definition index_issues (l : list Issue) : gmap ForgeCoord Issue :=
  foldl (λ m i, <[issueCoord i := i]> m) ∅ l.

(** The pull requests [agentStacks] stacks for one group of an agent. *)
Definition group_prs (open : list AuthoredRef) (rows : list PullRequestRow)
    (prs : gmap ForgeCoord storedBoardPR) (g : stackGroup) : list (option PullRequest) :=
  omap (λ row,
    let c := Normalized (row_coord row) in
    match prs !! c with
    | Some st =>
        if bool_decide (row_state row = lit "open")
           && bool_decide ((c, KIND_PULL_REQUEST) ∈ authoredKeys open)
           && bool_decide ((Provider c, ToLower (Host c)) = g)
        then Some (Some (s_pr st)) else None
    | None => None
    end) rows.

Record batchRows := mkRows {
  r_open : gmap AccountID (list AuthoredRef);
  r_owned : gmap AccountID (gset artifactKey);
  r_prs : gmap ForgeCoord storedBoardPR;
  r_bad : gset ForgeCoord;
  r_stacks : AccountID → stackGroup → gmap bytes Stack;
  r_issues : gmap ForgeCoord Issue;
}.

(** [requests[i].coords] after an agent's open authored coordinates are added. *)
Definition add_open (open : list AuthoredRef) (rq : batchRequest) : batchRequest :=
  mkBatch (parsed rq) (taskRefs rq) (list_to_set ((λ r, Normalized (a_coord r)) <$> open) ∪ coords rq).

Definition add_open_coords (open : list AuthoredRef) (acc : coord_acc) : coord_acc :=
  foldl (λ acc r, addCoord (Normalized (a_coord r)) acc) acc open.

Context `{RefResolver}.

(** [loadBatchRows]: the rows, and the requests with their open coordinates. *)
Definition loadBatchRows (agents : list AccountID) (reqs : list RefRequest)
    (requests : list batchRequest) (acc : coord_acc)
    : result store_error (batchRows * list batchRequest) :=
  match OpenAuthoredRefsForAgents agents with
  | Ok openByAgent =>
      let requests := zip_with (λ rq b, add_open (mget [] openByAgent (Agent rq)) b) reqs requests in
      let acc := foldl (λ acc rq, add_open_coords (mget [] openByAgent (Agent rq)) acc) acc reqs in
      match AuthoredCoordsForAgents agents acc.2 with
      | Ok ownedByAgent =>
          match PullRequestsByCoords acc.2 with
          | Ok prRows =>
              match IssuesByCoords acc.2 with
              | Ok issueRows =>
                  let prs := index_prs prRows in
                  Ok (mkRows openByAgent
                        (list_to_map ((λ a, (a, authoredKeys (mget [] ownedByAgent a))) <$> agents))
                        prs (bad_prs prRows)
                        (λ a g, StackOf (group_prs (mget [] openByAgent a) prRows prs g))
                        (index_issues issueRows), requests)
              | _ => Err ErrIssues
              end
          | _ => Err ErrPullRequests
          end
      | _ => Err ErrAuthored
      end
  | _ => Err ErrOpen
  end.

(** ** Filling a reference *)

Definition unixMilli (t : option Z) : Z := default 0%Z t.

Definition fillPullRequestRef (base : BoardRef) (stored : storedBoardPR) (item : parsedBoardRef)
    (stacks : gmap bytes Stack) (owned : bool) : BoardRef :=
  let pr := s_pr stored in
  let '(gate, stale) := derivePRState (Some pr) in
  let st := stacks !! boardRefKey (Refs.owner (p_ref item) ++ "/"%char :: Refs.repo (p_ref item)) (Refs.num (p_ref item)) in
  mkBoardRef (br_ref base) (url pr) KIND_PULL_REQUEST owned (title pr) (draft pr)
    (match checks pr with Some c => cs_state c | None => [] end) gate stale (queue_state pr)
    (unixMilli (row_updated (s_row stored)))
    (match st with Some s => Position s | None => br_position base end)
    (match st with Some s => Tip s | None => br_tip base end)
    (br_forge_state base) (br_issue_state base).

Definition fillIssueDerivedRef (base : BoardRef) (item : parsedBoardRef) (i : Issue) (authored : gset artifactKey) : BoardRef :=
  mkBoardRef (br_ref base) (i_url i) KIND_ISSUE (bool_decide ((p_coord item, KIND_ISSUE) ∈ authored))
    (i_title i) (br_draft base) (br_checks base) (br_gate base) (br_stale base) (br_queue base)
    (unixMilli (i_updated i)) (br_position base) (br_tip base) (i_forge_state i) (i_state i).

Definition fillRef (rows : batchRows) (base : BoardRef) (item : parsedBoardRef)
    (authored : gset artifactKey) (stacks : stackGroup → gmap bytes Stack) : BoardRef :=
  match p_kind item with
  | KIND_PULL_REQUEST =>
      match r_prs rows !! p_coord item with
      | Some stored =>
          fillPullRequestRef base stored item
            (stacks (Provider (p_coord item), ToLower (Host (p_coord item))))
            (bool_decide ((p_coord item, p_kind item) ∈ authored))
      | None =>
          match Refs.kind (p_ref item) with
          | Refs.KindForge =>
              match r_issues rows !! p_coord item with
              | Some i => fillIssueDerivedRef base item i authored
              | None => base
              end
          | Refs.KindTracker => base
          end
      end
  | KIND_ISSUE =>
      match r_issues rows !! p_coord item with
      | Some i => fillIssueDerivedRef base item i authored
      | None => base
      end
  | KIND_UNSPECIFIED => base
  end.

Definition authoredRefString (r : AuthoredRef) : bytes :=
  let c := Normalized (a_coord r) in
  if (a_kind r =? 1)%Z || (a_kind r =? 2)%Z then
    if (Provider c =? ForgeProviderLinear)%Z then Repo c ++ "-"%char :: FormatUint (Number c)
    else ToLower (Repo c) ++ "#"%char :: FormatUint (Number c)
  else [].

Definition untracked_refs (open : list AuthoredRef) (named : gset artifactKey) : list bytes :=
  authoredRefString <$>
    filter (λ r, (Normalized (a_coord r), boardRefKind (a_kind r)) ∉ named) open.

(** [batchRows.result]. *)
Definition result_of (rows : batchRows) (agent : AccountID) (rq : batchRequest) (derived : list BoardRef)
    : RefResult :=
  let bad := r_bad rows ∩ coords rq in
  if bool_decide (bad = ∅) then
    let authored := mget ∅ (r_owned rows) agent in
    Derived
      (zip_with (λ base item, match item with
                              | Some it => fillRef rows base it authored (r_stacks rows agent)
                              | None => base
                              end) derived (parsed rq))
      (untracked_refs (mget [] (r_open rows) agent) (taskRefs rq))
  else Undecodable bad.

(** The distinct agents, in order of first use. *)
Definition distinct_agents (reqs : list RefRequest) : list AccountID :=
  foldl (λ l rq, if decide (Agent rq ∈ l) then l else l ++ [Agent rq]) [] reqs.

Definition DeriveRefsBatch (forges : Forges) (reqs : list RefRequest) : list RefResult :=
  let '(parsed, acc) := parse_requests forges reqs (∅, []) in
  match loadBatchRows (distinct_agents reqs) reqs parsed.*1 acc with
  | Ok (rows, requests) =>
      zip_with (λ rq bd, result_of rows (Agent rq) bd.1 bd.2) reqs (zip requests parsed.*2)
  | Err e => (λ _, StoreFailed e) <$> reqs
  | Panic => []
  end.

Definition DeriveRefs (forges : Forges) (agent : AccountID) (refsIn : list bytes) : option RefResult :=
  head (DeriveRefsBatch forges [mkRequest agent refsIn]).
End Rows.

(** ** Parsing does not depend on the rest of the batch *)

Definition parse_alone (forges : Forges) (refsIn : list bytes) : batchRequest * list BoardRef :=
  (parseRefRequest refsIn forges (∅, [])).1.

(** What holds while a request is parsed: the set and the list of the batch
    coordinates agree, and hold the request's, which hold its items'. *)
Definition parse_ok (st : batchRequest * list BoardRef * coord_acc) : Prop :=
  (∀ c, c ∈ st.2.1 ↔ c ∈ st.2.2)
  ∧ (∀ c, c ∈ coords st.1.1 → c ∈ st.2.2)
  ∧ (∀ it, Some it ∈ parsed st.1.1 → p_coord it ∈ coords st.1.1).

Lemma addCoord_spec c acc :
  (∀ c, c ∈ acc.1 ↔ c ∈ acc.2) →
  (∀ x, x ∈ (addCoord c acc).1 ↔ x ∈ (addCoord c acc).2) ∧
  ∀ x, x ∈ (addCoord c acc).2 ↔ x = c ∨ x ∈ acc.2.
Proof.
  intros Hacc. unfold addCoord. case_decide as Hc.
  - split; [done|]. intros x. rewrite Hacc in Hc. naive_solver.
  - split; intros x; simpl; rewrite elem_of_app, list_elem_of_singleton, ?elem_of_union, ?elem_of_singleton, ?Hacc; tauto.
Qed.

Lemma parse_one_indep forges text x acc acc' :
  (parse_one forges text (x, acc)).1 = (parse_one forges text (x, acc')).1.
Proof.
  destruct x as [rq d]. unfold parse_one. destruct (Refs.Parse text) as [r|]; [|done].
  destruct (parseBoardRef r forges) as [[it|] base]; done.
Qed.

Lemma parse_fold_indep forges l x acc acc' :
  (foldl (λ st text, parse_one forges text st) (x, acc) l).1 =
  (foldl (λ st text, parse_one forges text st) (x, acc') l).1.
Proof.
  revert x acc acc'; induction l as [|t l IH]; intros x acc acc'; cbn [foldl]; [done|].
  pose proof (parse_one_indep forges t x acc acc') as H.
  destruct (parse_one forges t (x, acc)) as [y a], (parse_one forges t (x, acc')) as [y' a'].
  simpl in H. subst y'. apply IH.
Qed.

Lemma parse_one_ok forges text st :
  parse_ok st → parse_ok (parse_one forges text st)
  ∧ ∀ c, c ∈ st.2.2 → c ∈ (parse_one forges text st).2.2.
Proof.
  destruct st as [[rq d] acc]. intros (Ha & Hc & Hi). unfold parse_one.
  destruct (Refs.Parse text) as [r|]; cycle 1.
  { split; [|done]. split_and!; [done|done|]. simpl. intros it [Hin|?%list_elem_of_singleton]%elem_of_app; [by apply Hi|done]. }
  destruct (parseBoardRef r forges) as [[it|] base]; simpl in *.
  - destruct (addCoord_spec (p_coord it) acc Ha) as [Hagree Hel]. split; [|intros c ?; apply Hel; auto].
    split_and!; simpl; [done| |].
    + intros c [->%elem_of_singleton|Hin]%elem_of_union; apply Hel; [by left|right; by apply Hc].
    + intros it' [Hin|[= ->]%list_elem_of_singleton]%elem_of_app; apply elem_of_union; [right; by apply Hi|left; by apply elem_of_singleton].
  - split; [|done]. split_and!; simpl; [done|done|].
    intros it' [Hin|?%list_elem_of_singleton]%elem_of_app; [by apply Hi|done].
Qed.

Lemma parse_fold_ok forges l st :
  parse_ok st → parse_ok (foldl (λ st text, parse_one forges text st) st l)
  ∧ ∀ c, c ∈ st.2.2 → c ∈ (foldl (λ st text, parse_one forges text st) st l).2.2.
Proof.
  revert st; induction l as [|t l IH]; intros st Hst; cbn [foldl]; [done|].
  destruct (parse_one_ok forges t st Hst) as [H1 H2]. destruct (IH _ H1) as [H3 H4]. auto.
Qed.

Lemma parse_alone_items forges refsIn it :
  Some it ∈ parsed (parse_alone forges refsIn).1 → p_coord it ∈ coords (parse_alone forges refsIn).1.
Proof.
  destruct (parse_fold_ok forges refsIn (mkBatch [] ∅ ∅, [], (∅, []))) as [(_ & _ & Hi) _]; [|apply Hi].
  split_and!; simpl; [set_solver|set_solver|by intros it' ?%not_elem_of_nil].
Qed.

Lemma parseRefRequest_ok forges refsIn acc :
  (∀ c, c ∈ acc.1 ↔ c ∈ acc.2) →
  parse_ok (parseRefRequest refsIn forges acc)
  ∧ (∀ c, c ∈ acc.2 → c ∈ (parseRefRequest refsIn forges acc).2.2)
  ∧ (parseRefRequest refsIn forges acc).1 = parse_alone forges refsIn.
Proof.
  intros Hacc. destruct (parse_fold_ok forges refsIn (mkBatch [] ∅ ∅, [], acc)) as [H1 H2].
  { split_and!; simpl; [done|set_solver|by intros it ?%not_elem_of_nil]. }
  refine (conj H1 (conj H2 _)). apply parse_fold_indep.
Qed.

Lemma parse_requests_spec forges reqs acc :
  (∀ c, c ∈ acc.1 ↔ c ∈ acc.2) →
  ∃ acc', parse_requests forges reqs acc = ((λ rq, parse_alone forges (req_refs rq)) <$> reqs, acc')
    ∧ (∀ c, c ∈ acc'.1 ↔ c ∈ acc'.2) ∧ (∀ c, c ∈ acc.2 → c ∈ acc'.2)
    ∧ ∀ rq, rq ∈ reqs → ∀ c, c ∈ coords (parse_alone forges (req_refs rq)).1 → c ∈ acc'.2.
Proof.
  revert acc; induction reqs as [|rq reqs IH]; intros acc Hacc; cbn [parse_requests].
  { exists acc. split_and!; [done|done|done|]. by intros rq ?%not_elem_of_nil. }
  destruct (parseRefRequest_ok forges (req_refs rq) acc Hacc) as ((H1 & H2 & _) & H3 & Hind).
  destruct (parseRefRequest (req_refs rq) forges acc) as [[b d] acc1]. simpl in *.
  destruct (IH acc1 H1) as (acc' & -> & Ha' & Hm & Hr).
  exists acc'. split_and!.
  - by rewrite Hind.
  - done.
  - auto.
  - intros rq' [->|Hin]%elem_of_cons c Hc; [|by eapply Hr]. apply Hm, H2. by rewrite <- Hind in Hc.
Qed.

Lemma omap_filter {A B} (P : A → Prop) `{∀ x, Decision (P x)} (f g : A → option B) (l : list A) :
  (∀ x, (P x → f x = g x) ∧ (¬ P x → g x = None)) → omap f (filter P l) = omap g l.
Proof.
  intros Hfg. induction l as [|x l IH]; [done|]. destruct (Hfg x) as [H1 H2].
  destruct (decide (P x)) as [Hx|Hx].
  - rewrite filter_cons_True by done. cbn. rewrite H1 by done. destruct (g x); [f_equal|]; apply IH.
  - rewrite filter_cons_False by done. cbn. rewrite H2 by done. apply IH.
Qed.

(** ** Rows of the batch and rows of the request *)

Section Coherent.
Context (decode : bytes → option PullRequest) `{RefResolver}.

(** The tables of one database state. A store that answers gives, for the agents
    and coordinates asked for, their part of the tables, in the tables' order. *)
Context (openT authoredT : AccountID → list AuthoredRef) (prT : list PullRequestRow) (issueT : list Issue).

Definition coherent : Prop :=
  (∀ agents, [] ∉ agents →
     ∃ m, OpenAuthoredRefsForAgents agents = Ok m ∧ ∀ a, a ∈ agents → mget [] m a = openT a)
  ∧ (∀ agents cs, [] ∉ agents →
     ∃ m, AuthoredCoordsForAgents agents cs = Ok m
       ∧ ∀ a, a ∈ agents → mget [] m a = filter (λ r, Normalized (a_coord r) ∈ cs) (authoredT a))
  ∧ (∀ cs, PullRequestsByCoords cs = Ok (filter (λ r, Normalized (row_coord r) ∈ cs) prT))
  ∧ (∀ cs, IssuesByCoords cs = Ok (filter (λ i, issueCoord i ∈ cs) issueT)).

Lemma index_prs_filter (cs : list ForgeCoord) c rows :
  c ∈ cs → index_prs decode (filter (λ r, Normalized (row_coord r) ∈ cs) rows) !! c = index_prs decode rows !! c.
Proof.
  intros Hc. induction rows as [|r rows IH] using rev_ind; [done|].
  unfold index_prs in *. rewrite filter_app, !foldl_app. cbn [foldl].
  assert (Hsame : ∀ m m' : gmap ForgeCoord storedBoardPR, m !! c = m' !! c → storePRRow decode m r !! c = storePRRow decode m' r !! c).
  { intros m m' Hm. unfold storePRRow. destruct (decode (row_pr r)); [|done].
    destruct (decide (Normalized (row_coord r) = c)) as [<-|]; [by rewrite !lookup_insert_eq|by rewrite !lookup_insert_ne]. }
  destruct (decide (Normalized (row_coord r) ∈ cs)) as [Hr|Hr].
  - rewrite filter_cons_True, filter_nil by done. cbn [foldl]. by apply Hsame.
  - rewrite filter_cons_False, filter_nil by done. cbn [foldl]. rewrite IH. unfold storePRRow.
    destruct (decode (row_pr r)); [|done]. rewrite lookup_insert_ne; [done|]. by intros <-.
Qed.

Lemma index_issues_filter (cs : list ForgeCoord) c l :
  c ∈ cs → index_issues (filter (λ i, issueCoord i ∈ cs) l) !! c = index_issues l !! c.
Proof.
  intros Hc. induction l as [|r l IH] using rev_ind; [done|].
  unfold index_issues in *. rewrite filter_app, !foldl_app. cbn [foldl].
  destruct (decide (issueCoord r ∈ cs)) as [Hr|Hr].
  - rewrite filter_cons_True, filter_nil by done. cbn [foldl].
    destruct (decide (issueCoord r = c)) as [->|]; [by rewrite !lookup_insert_eq|by rewrite !lookup_insert_ne].
  - rewrite filter_cons_False, filter_nil by done. cbn [foldl]. rewrite lookup_insert_ne; [done|]. by intros <-.
Qed.

Lemma bad_prs_filter (cs : list ForgeCoord) rows (q : gset ForgeCoord) :
  (∀ c, c ∈ q → c ∈ cs) →
  bad_prs decode (filter (λ r, Normalized (row_coord r) ∈ cs) rows) ∩ q = bad_prs decode rows ∩ q.
Proof.
  intros Hq. apply set_eq. intros c. unfold bad_prs. rewrite !elem_of_intersection, !elem_of_list_to_set, !list_elem_of_fmap.
  setoid_rewrite list_elem_of_filter. setoid_rewrite list_elem_of_filter. naive_solver.
Qed.

Lemma group_prs_filter (cs : list ForgeCoord) open rows g :
  (∀ r, r ∈ open → Normalized (a_coord r) ∈ cs) →
  group_prs open (filter (λ r, Normalized (row_coord r) ∈ cs) rows)
    (index_prs decode (filter (λ r, Normalized (row_coord r) ∈ cs) rows)) g
  = group_prs open rows (index_prs decode rows) g.
Proof.
  intros Hopen. unfold group_prs. apply omap_filter. intros row. split.
  - intros Hc. by rewrite index_prs_filter.
  - intros Hc. destruct (index_prs decode rows !! _); [|done].
    rewrite (bool_decide_eq_false_2 (_ ∈ authoredKeys open)); [by rewrite andb_false_r|].
    unfold authoredKeys. rewrite elem_of_list_to_set, list_elem_of_fmap.
    intros (r & Heq & Hin). apply (f_equal fst) in Heq. cbn [fst] in Heq. apply Hc.
    rewrite Heq. by apply Hopen.
Qed.

(** The rows a request would get from the whole tables. *)
Definition full_rows (agent : AccountID) : batchRows :=
  mkRows {[ agent := openT agent ]} {[ agent := authoredKeys (authoredT agent) ]}
    (index_prs decode prT) (bad_prs decode prT)
    (λ a g, StackOf (group_prs (openT a) prT (index_prs decode prT) g)) (index_issues issueT).

(** What the whole tables give for a request: what the batch must give too. *)
Definition alone (forges : Forges) (rq : RefRequest) : RefResult :=
  let '(b, d) := parse_alone forges (req_refs rq) in
  result_of (full_rows (Agent rq)) (Agent rq) (add_open (openT (Agent rq)) b) d.

Lemma result_frame rows rows' agent rq derived :
  r_bad rows ∩ coords rq = r_bad rows' ∩ coords rq →
  (∀ it, Some it ∈ parsed rq → p_coord it ∈ coords rq) →
  (∀ c, c ∈ coords rq → r_prs rows !! c = r_prs rows' !! c ∧ r_issues rows !! c = r_issues rows' !! c
     ∧ ∀ k, (c, k) ∈ mget ∅ (r_owned rows) agent ↔ (c, k) ∈ mget ∅ (r_owned rows') agent) →
  (∀ g, r_stacks rows agent g = r_stacks rows' agent g) →
  mget [] (r_open rows) agent = mget [] (r_open rows') agent →
  result_of rows agent rq derived = result_of rows' agent rq derived.
Proof.
  intros Hbad Hit Hc Hst Hop. unfold result_of. rewrite Hbad, Hop.
  destruct (bool_decide _); [|done]. f_equal.
  assert (Hin : ∀ x, x ∈ parsed rq → x ∈ parsed rq) by done. revert Hin. generalize (parsed rq) at 1 3 4.
  intros items. revert derived. induction items as [|[it|] items IH]; intros [|base derived] Hin; try done.
  - cbn [zip_with]. f_equal; [|apply IH; intros x ?; apply Hin; by right].
    destruct (Hc (p_coord it)) as (Hp & Hi & Ho); [apply Hit, Hin; left|].
    unfold fillRef, fillIssueDerivedRef. rewrite Hp, Hi, Hst.
    rewrite (bool_decide_ext _ _ (Ho (p_kind it))), (bool_decide_ext _ _ (Ho KIND_ISSUE)). done.
  - cbn [zip_with]. f_equal. apply IH. intros x ?. apply Hin. by right.
Qed.

(** ** The batch *)

Lemma distinct_agents_elem reqs a : a ∈ distinct_agents reqs ↔ ∃ rq, rq ∈ reqs ∧ Agent rq = a.
Proof.
  unfold distinct_agents. induction reqs as [|rq reqs IH] using rev_ind.
  - simpl. split; [by intros ?%not_elem_of_nil|]. by intros (rq & ?%not_elem_of_nil & _).
  - rewrite foldl_app. cbn [foldl]. set (l := foldl _ _ reqs) in *.
    transitivity (a ∈ l ∨ Agent rq = a).
    + case_decide as Hin; [|rewrite elem_of_app, list_elem_of_singleton; naive_solver].
      split; [auto|]. by intros [?| <-].
    + rewrite IH. setoid_rewrite elem_of_app. setoid_rewrite list_elem_of_singleton. naive_solver.
Qed.

Lemma add_open_coords_spec open acc :
  (∀ c, c ∈ acc.1 ↔ c ∈ acc.2) →
  (∀ c, c ∈ (add_open_coords open acc).1 ↔ c ∈ (add_open_coords open acc).2)
  ∧ (∀ c, c ∈ acc.2 → c ∈ (add_open_coords open acc).2)
  ∧ ∀ r, r ∈ open → Normalized (a_coord r) ∈ (add_open_coords open acc).2.
Proof.
  unfold add_open_coords. revert acc; induction open as [|r open IH]; intros acc Hacc; cbn [foldl].
  { split_and!; [done|done|]. by intros r ?%not_elem_of_nil. }
  destruct (addCoord_spec (Normalized (a_coord r)) acc Hacc) as [H1 H2].
  destruct (IH _ H1) as (H3 & H4 & H5). split_and!; [done|intros c Hc; apply H4, H2; auto|].
  intros r' [->|Hr]%elem_of_cons; [apply H4, H2; auto|by apply H5].
Qed.

Lemma fold_open_spec (opens : AccountID → list AuthoredRef) reqs acc :
  (∀ c, c ∈ acc.1 ↔ c ∈ acc.2) →
  let acc' := foldl (λ acc rq, add_open_coords (opens (Agent rq)) acc) acc reqs in
  (∀ c, c ∈ acc.2 → c ∈ acc'.2)
  ∧ ∀ rq r, rq ∈ reqs → r ∈ opens (Agent rq) → Normalized (a_coord r) ∈ acc'.2.
Proof.
  revert acc; induction reqs as [|rq reqs IH]; intros acc Hacc; cbn [foldl].
  { split; [done|]. by intros rq r ?%not_elem_of_nil. }
  destruct (add_open_coords_spec (opens (Agent rq)) acc Hacc) as (H1 & H2 & H3).
  destruct (IH _ H1) as (H4 & H5). split; [auto|].
  intros rq' r [->|Hin]%elem_of_cons Hr; [by apply H4, H3|by eapply H5].
Qed.

Lemma foldl_ext_elem {A B} (f g : A → B → A) l a :
  (∀ x y, y ∈ l → f x y = g x y) → foldl f a l = foldl g a l.
Proof.
  revert a; induction l as [|y l IH]; intros a Hfg; cbn [foldl]; [done|].
  rewrite Hfg by left. apply IH. intros. apply Hfg. by right.
Qed.

Lemma mget_singleton {K A} `{Countable K} (z : A) (k : K) v : mget z {[ k := v ]} k = v.
Proof. unfold mget. by rewrite lookup_singleton_eq. Qed.

Lemma mget_owned (agents : list AccountID) (am : gmap AccountID (list AuthoredRef)) a :
  a ∈ agents →
  mget ∅ (list_to_map ((λ a, (a, authoredKeys (mget [] am a))) <$> agents) : gmap AccountID (gset artifactKey)) a
  = authoredKeys (mget [] am a).
Proof.
  induction agents as [|x agents IH]; [by intros ?%not_elem_of_nil|]. intros Ha. cbn.
  destruct (decide (x = a)) as [->|Hne]; [by rewrite mget_insert_eq|].
  rewrite mget_insert_ne by done. apply IH. by apply elem_of_cons in Ha as [?|?].
Qed.

Lemma zip_with_diag {A B} (f : A → A → B) (g : A → B) l :
  (∀ x, x ∈ l → f x x = g x) → zip_with f l l = g <$> l.
Proof.
  induction l as [|x l IH]; intros Hf; [done|]. cbn [zip_with]. rewrite fmap_cons, Hf by left.
  f_equal. apply IH. intros y ?. apply Hf. by right.
Qed.

(** The rows of a batch, when the store answers. *)
Lemma loadBatchRows_spec forges reqs acc :
  coherent → (∀ rq, rq ∈ reqs → Agent rq ≠ []) → (∀ c, c ∈ acc.1 ↔ c ∈ acc.2) →
  (∀ rq, rq ∈ reqs → ∀ c, c ∈ coords (parse_alone forges (req_refs rq)).1 → c ∈ acc.2) →
  ∃ rows,
    loadBatchRows decode (distinct_agents reqs) reqs
      ((λ rq, (parse_alone forges (req_refs rq)).1) <$> reqs) acc
    = Ok (rows, (λ rq, add_open (openT (Agent rq)) (parse_alone forges (req_refs rq)).1) <$> reqs)
    ∧ ∀ rq, rq ∈ reqs →
        result_of rows (Agent rq) (add_open (openT (Agent rq)) (parse_alone forges (req_refs rq)).1)
          (parse_alone forges (req_refs rq)).2 = alone forges rq.
Proof.
  intros (Ho & Ha & Hp & Hi) Hne Hacc Hsub. set (agents := distinct_agents reqs).
  assert (Hag : ∀ rq, rq ∈ reqs → Agent rq ∈ agents).
  { intros rq Hrq. apply distinct_agents_elem. eauto. }
  assert (Hnil : [] ∉ agents).
  { intros (rq & Hrq & He)%distinct_agents_elem. by apply (Hne rq Hrq). }
  destruct (Ho agents Hnil) as (om & Eo & Hom). unfold loadBatchRows. rewrite Eo.
  rewrite (foldl_ext_elem _ (λ acc rq, add_open_coords (openT (Agent rq)) acc));
    [|intros x rq Hrq; by rewrite Hom by auto].
  destruct (fold_open_spec openT reqs acc Hacc) as [Hmono Hopen].
  set (acc' := foldl (λ acc rq, add_open_coords (openT (Agent rq)) acc) acc reqs) in *.
  destruct (Ha agents acc'.2 Hnil) as (am & Ea & Ham). rewrite Ea, Hp, Hi.
  eexists. split.
  - do 2 f_equal. rewrite zip_with_fmap_r. apply zip_with_diag. intros rq Hrq. by rewrite Hom by auto.
  - intros rq Hrq. unfold alone. destruct (parse_alone forges (req_refs rq)) as [b d] eqn:E. cbn [fst snd].
    assert (HQ : ∀ c, c ∈ coords (add_open (openT (Agent rq)) b) → c ∈ acc'.2).
    { intros c [Hc|Hc]%elem_of_union.
      - apply elem_of_list_to_set, list_elem_of_fmap in Hc as (r & -> & Hr). by eapply Hopen.
      - apply Hmono, (Hsub rq Hrq). by rewrite E. }
    apply result_frame; cbn [r_bad r_prs r_issues r_owned r_stacks r_open full_rows].
    + by apply bad_prs_filter.
    + intros it Hit. apply elem_of_union. right.
      pose proof (parse_alone_items forges (req_refs rq) it) as Hpi. rewrite E in Hpi. by apply Hpi.
    + intros c Hc. apply HQ in Hc. split_and!; [by apply index_prs_filter|by apply index_issues_filter|].
      intros k. rewrite mget_singleton, mget_owned, Ham by auto. unfold authoredKeys. rewrite !elem_of_list_to_set, !list_elem_of_fmap.
      setoid_rewrite list_elem_of_filter. split; [naive_solver|].
      intros (r & Hk & Hr). exists r. split; [done|]. split; [|done].
      apply (f_equal fst) in Hk. cbn [fst] in Hk. by rewrite <- Hk.
    + intros g. f_equal. rewrite Hom by auto. apply group_prs_filter. intros r Hr. by eapply Hopen.
    + rewrite mget_singleton. by apply Hom; auto.
Qed.

(** A batch of board requests gives each request what it would get alone: for a
    store that answers from one state of its tables and requests that name their
    agents, the result of request [i] in the batch is the result of [DeriveRefs] on
    that request, its references, untracked work and decode errors included; rows,
    stacks and ownership of other agents in the batch do not show. *)
Theorem batch_is_pointwise (forges : Forges) (reqs : list RefRequest) (i : nat) (rq : RefRequest)
    (Hco : coherent) (Hne : ∀ rq, rq ∈ reqs → Agent rq ≠ []) (Hi : reqs !! i = Some rq) :
  length (DeriveRefsBatch decode forges reqs) = length reqs
  ∧ DeriveRefsBatch decode forges reqs !! i = DeriveRefs decode forges (Agent rq) (req_refs rq).
Proof.
  assert (Hb : ∀ reqs, (∀ rq, rq ∈ reqs → Agent rq ≠ []) →
    DeriveRefsBatch decode forges reqs = alone forges <$> reqs).
  { clear -Hco. intros reqs Hne. unfold DeriveRefsBatch.
    destruct (parse_requests_spec forges reqs (∅, [])) as (acc & -> & Hacc & _ & Hsub); [set_solver|].
    destruct (loadBatchRows_spec forges reqs acc Hco Hne Hacc Hsub) as (rows & Hl & Hres).
    assert (E1 : ((λ rq, parse_alone forges (req_refs rq)) <$> reqs).*1 =
                 (λ rq, (parse_alone forges (req_refs rq)).1) <$> reqs) by (by rewrite <- list_fmap_compose).
    rewrite E1, Hl. clear -Hres. induction reqs as [|rq reqs IH]; [done|].
    cbn. rewrite <- (Hres rq) by left. f_equal. apply IH. intros rq' ?. apply Hres. by right. }
  split; [by rewrite Hb, length_fmap|].
  unfold DeriveRefs. rewrite !Hb; [|..|done].
  - rewrite list_lookup_fmap, Hi. by destruct rq.
  - intros rq' ->%list_elem_of_singleton. simpl. apply Hne. by eapply list_elem_of_lookup_2.
Qed.
End Coherent.

(** ** A store in memory *)

Section Tables.
Context (openT authoredT : AccountID → list AuthoredRef) (prT : list PullRequestRow) (issueT : list Issue).

Definition table_resolver : RefResolver := {|
  OpenAuthoredRefsForAgents agents := Ok (list_to_map ((λ a, (a, openT a)) <$> agents));
  AuthoredCoordsForAgents agents cs :=
    Ok (list_to_map ((λ a, (a, filter (λ r, Normalized (a_coord r) ∈ cs) (authoredT a))) <$> agents));
  PullRequestsByCoords cs := Ok (filter (λ r, Normalized (row_coord r) ∈ cs) prT);
  IssuesByCoords cs := Ok (filter (λ i, issueCoord i ∈ cs) issueT);
|}.

Lemma mget_table {A} (f : AccountID → list A) agents a :
  a ∈ agents → mget [] (list_to_map ((λ a, (a, f a)) <$> agents) : gmap AccountID (list A)) a = f a.
Proof.
  induction agents as [|x agents IH]; [by intros ?%not_elem_of_nil|]. intros Ha. cbn.
  destruct (decide (x = a)) as [->|Hne]; [by rewrite mget_insert_eq|].
  rewrite mget_insert_ne by done. apply IH. by apply elem_of_cons in Ha as [?|?].
Qed.

Lemma table_coherent : coherent (H := table_resolver) openT authoredT prT issueT.
Proof.
  split_and!; [..|done|done].
  - intros agents _. eexists. split; [reflexivity|]. intros a Ha. by apply (mget_table openT).
  - intros agents cs _. eexists. split; [reflexivity|]. intros a Ha.
    by apply (mget_table (λ a, filter (λ r, Normalized (a_coord r) ∈ cs) (authoredT a))).
Qed.
End Tables.

(** Two agents ask for one stored pull request; the second is its author. *)
Lemma batch_is_pointwise_witness :
  let forges := mkForges (lit "github.com") [] [] in
  let c := mkCoord 1 (lit "github.com") (lit "acme/web") 7 in
  let openT a := if bool_decide (a = lit "b") then [mkAuthored c 2] else [] in
  let row := mkRow c (lit "open") (Some 5%Z) (lit "{}") in
  let pr := mkPR (lit "acme/web") 7 (lit "t") [] (lit "open") false [] (lit "h") (lit "main") [] None None [] [] in
  let decode (_ : bytes) := Some pr in
  let R := table_resolver openT openT [row] [] in
  let reqs := [mkRequest (lit "a") [lit "acme/web#7"]; mkRequest (lit "b") [lit "Acme/Web#7"; lit "x"]] in
  DeriveRefsBatch (H := R) decode forges reqs !! 1 =
    DeriveRefs (H := R) decode forges (lit "b") [lit "Acme/Web#7"; lit "x"]
  ∧ ∃ r1 r2, DeriveRefs (H := R) decode forges (lit "b") [lit "Acme/Web#7"; lit "x"] = Some (Derived [r1; r2] [])
      ∧ br_owned r1 = true ∧ br_position r1 = 1%N.
Proof.
  intros forges c openT row pr decode R reqs. split.
  - destruct (batch_is_pointwise (H := R) decode openT openT [row] [] forges reqs 1
                (mkRequest (lit "b") [lit "Acme/Web#7"; lit "x"])) as [_ E].
    + apply table_coherent.
    + intros rq [->|[->|?%not_elem_of_nil]%elem_of_cons]%elem_of_cons; done.
    + reflexivity.
    + exact E.
  - do 2 eexists. split; [vm_compute; reflexivity|]. split; reflexivity.
Defined.

End BoardRefs.
