(* ===== verification/DeliveryHold.v ===== *)
(** Message delivery, the settle gate ([src/go/internal/delivery/settle.go],
    [dispatch.go], [consumer.go]).

    A message that a live agent posts is held until the author's turn settles.
    This file models the part of the consumer's mutex-protected state that decides
    when a held message is released: the held registry, the settle marks, the
    identity generations and the queue of settle edges, with every operation that
    reads or writes them.  A Go map is a [gmap], a read of an absent key gives the
    zero value ([mget]); [c.now().UnixMilli()] is an argument of the operations
    that read the clock.  Each critical section of the mutex is one function, so a
    run is a sequence of operations in any order. *)
From stdpp Require Import base gmap strings list sorting.
From Stdlib Require Import ZArith Lia.
From S2P Require Import Prelude Slices Wire.

Module DeliveryHold.

(** * Data *)

Record heldEntry := HeldEntry {
  messageID : string;
  traceparent : string;
  tenant : string;
  atUnixMs : Z;
  turnSequence : Z;
  e_generation : Z;
}.

#[export] Instance heldEntry_eq_dec : EqDecision heldEntry.
Proof. solve_decision. Defined.

Record settleEvent := SettleEvent {
  sessionID : string;
  state : AgentSessionState;
  ev_turnSequence : Z;
  upTo : Z;
  ev_generation : Z;
}.

(** The fields of [Consumer] that the settle gate keeps under [mu]. *)
Record Settles := MkSettles {
  held : gmap string (list heldEntry);
  lastSettle : gmap string Z;
  lastSettleSequence : gmap string Z;
  lastSettleLegacy : gmap string bool;
  generation : gmap string Z;
  generationStart : gmap string Z;
  fallbackLogged : gset string;
  settleQueue : list settleEvent;
}.

Definition NewSettles : Settles := MkSettles ∅ ∅ ∅ ∅ ∅ ∅ ∅ [].

Definition heldOf (s : Settles) (sid : string) : list heldEntry := mget [] (held s) sid.

(** * Operations *)

Definition firesHeldDelivers (st : AgentSessionState) : bool :=
  match st with
  | READY | STOPPED | ERRORED => true
  | _ => false
  end.

(** What a STARTING edge does to one held entry. *)
Definition demote (gen : Z) (e : heldEntry) : heldEntry :=
  HeldEntry (messageID e) (traceparent e) (tenant e) (atUnixMs e) 0 gen.

Definition startGeneration (now : Z) (sid : string) (s : Settles) : Settles :=
  let gen := u64 (mget 0 (generation s) sid + 1) in
  MkSettles
    (alter (fmap (demote gen)) sid (held s))
    (delete sid (lastSettle s))
    (delete sid (lastSettleSequence s))
    (delete sid (lastSettleLegacy s))
    (<[sid := gen]> (generation s))
    (<[sid := now]> (generationStart s))
    (fallbackLogged s)
    (settleQueue s).

(** The settle arm of [OnSessionSettled]: the edge is queued and the marks move.
    The legacy flag is cleared by a new highest sequence and set by a zero one. *)
Definition recordSettle (now : Z) (sid : string) (st : AgentSessionState) (seq : Z)
    (s : Settles) : Settles :=
  let newer := bool_decide (mget 0 (lastSettleSequence s) sid < seq) in
  let legacy1 := if newer then <[sid := false]> (lastSettleLegacy s) else lastSettleLegacy s in
  MkSettles
    (held s)
    (<[sid := now]> (lastSettle s))
    (if newer then <[sid := seq]> (lastSettleSequence s) else lastSettleSequence s)
    (if bool_decide (seq = 0) then <[sid := true]> legacy1 else legacy1)
    (generation s) (generationStart s) (fallbackLogged s)
    (settleQueue s ++
       [SettleEvent sid st seq MaxInt64 (mget 0 (generation s) sid)]).

(** The boolean result of this and the following operations says whether the
    [notify] channel is signalled. *)
Definition OnSessionSettled (now : Z) (sid : string) (st : AgentSessionState) (seq : Z)
    (s : Settles) : Settles * bool :=
  if bool_decide (st = STARTING) then (startGeneration now sid s, false)
  else if firesHeldDelivers st then (recordSettle now sid st seq s, true)
  else (s, false).

Definition holdIndex (entries : list heldEntry) (at_ : Z) : nat :=
  BinarySearch (λ e, bool_decide (atUnixMs e ≤ at_)) entries.

(** Whether the post was committed before the author's current generation began. *)
Definition oldIdentity (s : Settles) (sid : string) (at_ : Z) : bool :=
  match generationStart s !! sid with
  | Some start => bool_decide (at_ < start)
  | None => false
  end.

(** The entry [hold] registers; an old identity's post loses its turn sequence. *)
Definition holdEntry (s : Settles) (sid msg tp ten : string) (at_ seq : Z) : heldEntry :=
  HeldEntry msg tp ten at_ (if oldIdentity s sid at_ then 0 else seq)
    (mget 0 (generation s) sid).

Definition holdEligible (s : Settles) (sid : string) (at_ seq : Z) : bool :=
  match lastSettle s !! sid with
  | None => false
  | Some settled =>
      bool_decide (0 < seq ∧ seq ≤ mget 0 (lastSettleSequence s) sid)
      || oldIdentity s sid at_
      || (mget false (lastSettleLegacy s) sid && bool_decide (at_ ≤ settled))
  end.

(** The edge a late hold replays. *)
Definition replayEdge (s : Settles) (sid : string) (at_ seq : Z) : settleEvent :=
  let gen := mget 0 (generation s) sid in
  if oldIdentity s sid at_ then
    SettleEvent sid READY 0 (mget 0 (generationStart s) sid - 1) gen
  else if bool_decide (seq = 0) || mget false (lastSettleLegacy s) sid then
    SettleEvent sid READY 0 (mget 0 (lastSettle s) sid) gen
  else SettleEvent sid READY seq MaxInt64 gen.

Definition hold (sid msg tp ten : string) (at_ seq0 : Z) (s : Settles) : Settles * bool :=
  let seq := if oldIdentity s sid at_ then 0 else seq0 in
  let entry := holdEntry s sid msg tp ten at_ seq0 in
  let entries := heldOf s sid in
  let eligible := holdEligible s sid at_ seq in
  (MkSettles
     (<[sid := sliceInsert (holdIndex entries at_) entry entries]> (held s))
     (lastSettle s) (lastSettleSequence s) (lastSettleLegacy s)
     (generation s) (generationStart s) (fallbackLogged s)
     (if eligible then settleQueue s ++ [replayEdge s sid at_ seq] else settleQueue s),
   eligible).

(** Whether an edge releases an entry: the commit-time bound, the generation, and
    the turn sequence when both sides have one. *)
Definition releases (ev : settleEvent) (e : heldEntry) : bool :=
  bool_decide (atUnixMs e ≤ upTo ev)
  && (bool_decide (e_generation e ≤ ev_generation ev)
      && (bool_decide (ev_turnSequence ev = 0) || bool_decide (turnSequence e = 0)
          || bool_decide (turnSequence e ≤ ev_turnSequence ev))).

(** The registry half of [fireHeld]: what fires, in order, and what stays. *)
Definition fireHeld (ev : settleEvent) (s : Settles) : Settles * list heldEntry :=
  let entries := heldOf s (sessionID ev) in
  let fire := filter (λ e, releases ev e = true) entries in
  let keep := filter (λ e, releases ev e = false) entries in
  (MkSettles
     (match keep with
      | [] => delete (sessionID ev) (held s)
      | _ => <[sessionID ev := keep]> (held s)
      end)
     (lastSettle s) (lastSettleSequence s) (lastSettleLegacy s)
     (generation s) (generationStart s) (fallbackLogged s) (settleQueue s),
   fire).

(** The first critical section of a [drainSettles] iteration: the edge leaves the
    queue, and the session of a zero-sequence edge is noted as warned about. *)
Definition popSettle (ev : settleEvent) (queue : list settleEvent) (s : Settles) : Settles :=
  MkSettles (held s) (lastSettle s) (lastSettleSequence s) (lastSettleLegacy s)
    (generation s) (generationStart s)
    (if bool_decide (ev_turnSequence ev = 0)
     then {[ sessionID ev ]} ∪ fallbackLogged s else fallbackLogged s)
    queue.

(** One iteration of [drainSettles]: pop an edge and fire.  The result is the session
    and what fired, or [None] when the queue is empty and the loop returns. *)
Definition drainSettle1 (s : Settles) : option (Settles * (string * list heldEntry)) :=
  match settleQueue s with
  | [] => None
  | ev :: queue =>
      let r := fireHeld ev (popSettle ev queue s) in
      Some (r.1, (sessionID ev, r.2))
  end.

(** The whole loop, when nothing is appended meanwhile: as many iterations as there
    are queued edges. *)
Fixpoint drain_loop (fuel : nat) (s : Settles) : Settles * list (string * list heldEntry) :=
  match fuel with
  | O => (s, [])
  | S fuel =>
      match drainSettle1 s with
      | None => (s, [])
      | Some (s1, f) => let '(s2, fs) := drain_loop fuel s1 in (s2, f :: fs)
      end
  end.

Definition drainSettles (s : Settles) : Settles * list (string * list heldEntry) :=
  drain_loop (length (settleQueue s)) s.

Definition reap1 (s : Settles) (sid : string) : Settles :=
  MkSettles (delete sid (held s)) (delete sid (lastSettle s))
    (delete sid (lastSettleSequence s)) (delete sid (lastSettleLegacy s))
    (delete sid (generation s)) (delete sid (generationStart s))
    (fallbackLogged s ∖ {[ sid ]}) (settleQueue s).

Definition OnSessionsReaped (sids : list string) (s : Settles) : Settles :=
  foldl reap1 s sids.

(** The pruning of [drainRecovery]: a session that is not live loses its marks; one
    that restarted and never settled loses its generation.  The held entries and the
    queue stay. *)
Definition pruneSettles (live : gset string) (s : Settles) : Settles :=
  let dead1 := dom (lastSettle s) ∖ live in
  let gen1 := filter (λ p, p.1 ∉ dead1) (generation s) in
  let start1 := filter (λ p, p.1 ∉ dead1) (generationStart s) in
  let dead2 := dom gen1 ∖ live in
  MkSettles
    (held s)
    (filter (λ p, p.1 ∉ dead1) (lastSettle s))
    (filter (λ p, p.1 ∉ dead1) (lastSettleSequence s))
    (filter (λ p, p.1 ∉ dead1) (lastSettleLegacy s))
    (filter (λ p, p.1 ∉ dead2) gen1)
    (filter (λ p, p.1 ∉ dead2) start1)
    (fallbackLogged s ∖ dead1)
    (settleQueue s).

(** [messageHeld]: the id is held under some session. *)
Definition messageHeld (s : Settles) (id : string) : bool :=
  existsb (λ p, existsb (λ e, bool_decide (messageID e = id)) p.2) (map_to_list (held s)).

(** [heldIDs]: the ids held for live author sessions. *)
Definition heldIDs (live : gset string) (s : Settles) : gset string :=
  list_to_set
    (concat (map (λ p, map messageID p.2)
       (map_to_list (filter (λ p, p.1 ∈ live) (held s))))).

(** * Runs *)

Inductive op :=
| OpHold (sid msg tp ten : string) (at_ seq : Z)
| OpSettled (now : Z) (sid : string) (st : AgentSessionState) (seq : Z)
| OpDrain1
| OpReaped (sids : list string)
| OpPrune (live : gset string).

Definition step (s : Settles) (o : op) : Settles :=
  match o with
  | OpHold sid msg tp ten at_ seq => (hold sid msg tp ten at_ seq s).1
  | OpSettled now sid st seq => (OnSessionSettled now sid st seq s).1
  | OpDrain1 => match drainSettle1 s with Some (s1, _) => s1 | None => s end
  | OpReaped sids => OnSessionsReaped sids s
  | OpPrune live => pruneSettles live s
  end.

(** The states that operations satisfying [ok] reach from the empty consumer. *)
Inductive reach (ok : Settles → op → Prop) : Settles → Prop :=
| reach_init : reach ok NewSettles
| reach_op s o : reach ok s → ok s o → reach ok (step s o).

Lemma reach_ind_inv (ok : Settles → op → Prop) (I : Settles → Prop) :
  I NewSettles → (∀ s o, I s → ok s o → I (step s o)) → ∀ s, reach ok s → I s.
Proof. intros H0 HS s. induction 1; eauto. Qed.

(** * The held registry: order and contents *)

Definition at_le (e1 e2 : heldEntry) : Prop := atUnixMs e1 ≤ atUnixMs e2.

#[export] Instance at_le_trans : Transitive at_le.
Proof. unfold at_le. intros ????. lia. Qed.

(** A list in commit order splits at any commit time. *)
Lemma sorted_split (l : list heldEntry) at_ :
  StronglySorted at_le l →
  ∃ l1 l2, l = l1 ++ l2 ∧ Forall (λ e, atUnixMs e ≤ at_) l1 ∧ Forall (λ e, at_ < atUnixMs e) l2.
Proof.
  induction 1 as [|e l HS (l1 & l2 & -> & H1 & H2) Hall]; [by exists [], []|].
  destruct (decide (atUnixMs e ≤ at_)) as [Hle|Hgt].
  - exists (e :: l1), l2. auto.
  - exists [], (e :: l1 ++ l2). split_and!; [done|done|].
    constructor; [lia|]. eapply Forall_impl; [exact Hall|]. unfold at_le. intros; lia.
Qed.

Lemma holdIndex_split (l1 l2 : list heldEntry) at_ :
  Forall (λ e, atUnixMs e ≤ at_) l1 → Forall (λ e, at_ < atUnixMs e) l2 →
  holdIndex (l1 ++ l2) at_ = length l1.
Proof.
  intros H1 H2. apply BinarySearch_boundary.
  - eapply Forall_impl; [exact H1|]. intros. by apply bool_decide_eq_true_2.
  - eapply Forall_impl; [exact H2|]. simpl. intros. apply bool_decide_eq_false_2. lia.
Qed.

(** Where [hold] puts its entry: after everything committed no later, before
    everything committed later. *)
Lemma hold_position (l : list heldEntry) (e : heldEntry) at_ :
  StronglySorted at_le l → atUnixMs e = at_ →
  ∃ l1 l2, l = l1 ++ l2 ∧ sliceInsert (holdIndex l at_) e l = l1 ++ e :: l2
    ∧ Forall (λ e', atUnixMs e' ≤ at_) l1 ∧ Forall (λ e', at_ < atUnixMs e') l2.
Proof.
  intros HS <-. destruct (sorted_split l (atUnixMs e) HS) as (l1 & l2 & -> & H1 & H2).
  exists l1, l2. rewrite holdIndex_split, sliceInsert_split; auto.
Qed.

Lemma sorted_app_cons (l1 l2 : list heldEntry) e :
  StronglySorted at_le (l1 ++ l2) →
  Forall (λ e', at_le e' e) l1 → Forall (λ e', at_le e e') l2 →
  StronglySorted at_le (l1 ++ e :: l2).
Proof.
  induction l1 as [|e1 l1 IH]; simpl; intros HS H1 H2.
  - by constructor.
  - inversion HS; subst. inversion H1; subst. constructor; [auto|].
    rewrite Forall_app, Forall_cons in *. naive_solver.
Qed.

Lemma sorted_demote gen l : StronglySorted at_le l → StronglySorted at_le (demote gen <$> l).
Proof.
  induction 1 as [|e l HS IH Hall]; simpl; constructor; [done|].
  rewrite Forall_fmap. exact Hall.
Qed.

(** The registry's list of one session after each operation. *)
Lemma heldOf_hold sid msg tp ten at_ seq s sid' :
  heldOf (hold sid msg tp ten at_ seq s).1 sid' =
  if decide (sid' = sid) then
    sliceInsert (holdIndex (heldOf s sid) at_) (holdEntry s sid msg tp ten at_ seq) (heldOf s sid)
  else heldOf s sid'.
Proof.
  unfold heldOf, hold. simpl. case_decide; subst.
  - by rewrite mget_insert_eq.
  - by rewrite mget_insert_ne.
Qed.

Lemma heldOf_startGeneration now sid s sid' :
  heldOf (startGeneration now sid s) sid' =
  if decide (sid' = sid) then demote (u64 (mget 0 (generation s) sid + 1)) <$> heldOf s sid
  else heldOf s sid'.
Proof.
  unfold heldOf, startGeneration, mget. simpl. case_decide; subst.
  - rewrite lookup_alter_eq. by destruct (held s !! sid).
  - by rewrite lookup_alter_ne.
Qed.

Lemma heldOf_fireHeld ev s sid :
  heldOf (fireHeld ev s).1 sid =
  if decide (sid = sessionID ev) then
    filter (λ e, releases ev e = false) (heldOf s (sessionID ev))
  else heldOf s sid.
Proof.
  unfold fireHeld. simpl. unfold heldOf at 1, mget. simpl.
  destruct (filter _ _) eqn:E; case_decide; subst.
  - by rewrite lookup_delete_eq.
  - by rewrite lookup_delete_ne.
  - by rewrite lookup_insert_eq.
  - by rewrite lookup_insert_ne.
Qed.

Lemma heldOf_reaped sids s sid :
  heldOf (OnSessionsReaped sids s) sid = if decide (sid ∈ sids) then [] else heldOf s sid.
Proof.
  revert s. induction sids as [|sid' sids IH]; intros s; [done|].
  unfold OnSessionsReaped in *. simpl. rewrite IH, decide_elem_cons. unfold heldOf, mget. simpl.
  repeat case_decide; subst; try done.
  - by rewrite lookup_delete_eq.
  - by rewrite lookup_delete_ne.
Qed.

(** Every held list stays in commit order, whatever the operations. *)
Lemma reach_sorted ok s sid : reach ok s → StronglySorted at_le (heldOf s sid).
Proof.
  intros R. revert sid.
  apply (reach_ind_inv ok (λ s, ∀ sid, StronglySorted at_le (heldOf s sid))); [constructor| |done].
  clear. intros s o IH _ sid. destruct o as [sid' msg tp ten at_ seq|now sid' st seq| |sids|live]; cbn [step].
  - rewrite heldOf_hold. case_decide; [|done]. subst.
    destruct (hold_position (heldOf s sid') (holdEntry s sid' msg tp ten at_ seq) at_ (IH _) eq_refl)
      as (l1 & l2 & E & -> & H1 & H2).
    apply sorted_app_cons; [rewrite <- E; done|done|].
    eapply Forall_impl; [exact H2|]. unfold at_le. simpl. intros; lia.
  - unfold OnSessionSettled. case_bool_decide; simpl.
    + rewrite heldOf_startGeneration. case_decide; [by apply sorted_demote|done].
    + destruct (firesHeldDelivers st); apply IH.
  - unfold drainSettle1. destruct (settleQueue s) as [|ev q]; [done|].
    rewrite heldOf_fireHeld. case_decide; [by apply sorted_filter, IH|apply IH].
  - rewrite heldOf_reaped. case_decide; [constructor|done].
  - apply IH.
Qed.

(** * Late holds *)

Lemma releases_spec ev e :
  releases ev e = true ↔
  atUnixMs e ≤ upTo ev ∧ e_generation e ≤ ev_generation ev ∧
  (ev_turnSequence ev = 0 ∨ turnSequence e = 0 ∨ turnSequence e ≤ ev_turnSequence ev).
Proof.
  unfold releases. rewrite !andb_true_iff, !orb_true_iff, !bool_decide_eq_true. tauto.
Qed.

Lemma oldIdentity_spec s sid at_ :
  oldIdentity s sid at_ = true ↔ ∃ start, generationStart s !! sid = Some start ∧ at_ < start.
Proof.
  unfold oldIdentity. destruct (generationStart s !! sid) as [st|].
  - rewrite bool_decide_eq_true. naive_solver.
  - naive_solver.
Qed.

(** When a late hold is released at once, in the code's terms. *)
Definition settledAlready (s : Settles) (sid : string) (at_ seq : Z) : Prop :=
  ∃ settled, lastSettle s !! sid = Some settled ∧
    (oldIdentity s sid at_ = true
     ∨ (0 < seq ≤ mget 0 (lastSettleSequence s) sid ∧ mget false (lastSettleLegacy s) sid = false)
     ∨ (mget false (lastSettleLegacy s) sid = true ∧ at_ ≤ settled)).

(** The replay edge of an eligible hold releases the entry except in one case: the
    sequence has settled, but only a later legacy settle bounds the replay, and the
    post was committed after it. *)
Lemma replay_releases s sid msg tp ten at_ seq0 :
  in_i64 at_ →
  let seq := if oldIdentity s sid at_ then 0 else seq0 in
  (holdEligible s sid at_ seq = true
   ∧ releases (replayEdge s sid at_ seq) (holdEntry s sid msg tp ten at_ seq0) = true)
  ↔ settledAlready s sid at_ seq.
Proof.
  intros Hat seq. unfold settledAlready, holdEligible.
  destruct (lastSettle s !! sid) as [settled|] eqn:EL; [|naive_solver].
  rewrite releases_spec, !orb_true_iff, andb_true_iff, !bool_decide_eq_true.
  assert (mget 0 (lastSettle s) sid = settled) as EM by (unfold mget; by rewrite EL).
  unfold replayEdge, holdEntry. rewrite EM. subst seq.
  unfold in_i64 in Hat.
  destruct (oldIdentity s sid at_) eqn:EO; simpl.
  - apply oldIdentity_spec in EO as (start & EG & Hlt).
    split; [intros _; eauto|]. intros _.
    split; [tauto|]. unfold mget. rewrite EG. simpl. repeat split; try lia; tauto.
  - destruct (mget false (lastSettleLegacy s) sid) eqn:ELeg.
    + rewrite orb_true_r. simpl. split.
      * intros [_ (Hle & _)]. exists settled. split; [done|]. right; right. split; [done|lia].
      * intros (x & [= <-] & [?|[[_ ?]|[_ Hle]]]); [done|done|].
        repeat split; try lia; tauto.
    + destruct (bool_decide (seq0 = 0)) eqn:E0; simpl.
      * apply bool_decide_eq_true in E0. split; [|naive_solver lia].
        intros [[[?|?]|?] _]; naive_solver lia.
      * split; [intros [[[?|?]|[? _]] _]; try done; eauto 6|].
        intros (x & [= <-] & [?|[[? _]|[? _]]]); try done.
        repeat split; try lia; tauto.
Qed.

(** * Runs whose settles are numbered *)

(** The operations of a run with current agents: commit times and clock readings
    are [int64], settles carry a turn sequence, the generation counter does not
    wrap, and a recovery pass finds every author with a held post live. *)
Definition numbered (s : Settles) (o : op) : Prop :=
  match o with
  | OpHold _ _ _ _ at_ seq => in_i64 at_ ∧ 0 ≤ seq
  | OpSettled now sid st seq =>
      in_i64 now ∧ 0 < seq ∧ mget 0 (generation s) sid + 1 < 2 ^ 64
  | OpPrune live => ∀ sid, heldOf s sid ≠ [] → sid ∈ live
  | OpDrain1 | OpReaped _ => True
  end.

(** The same runs, when a session leaves (a reap or a recovery pass that finds it
    dead) only after the loop has handled its queued edges. *)
Definition numbered_drained (s : Settles) (o : op) : Prop :=
  numbered s o ∧
  match o with
  | OpReaped sids => ∀ ev, ev ∈ settleQueue s → sessionID ev ∉ sids
  | OpPrune live => ∀ ev, ev ∈ settleQueue s → sessionID ev ∈ live
  | _ => True
  end.

Lemma reach_weaken (ok1 ok2 : Settles → op → Prop) s :
  (∀ s o, ok1 s o → ok2 s o) → reach ok1 s → reach ok2 s.
Proof. intros H. induction 1; constructor; auto. Qed.

(** The marks of one session are the same in two states. *)
Definition same_marks (s s' : Settles) (sid : string) : Prop :=
  lastSettle s' !! sid = lastSettle s !! sid
  ∧ lastSettleSequence s' !! sid = lastSettleSequence s !! sid
  ∧ generation s' !! sid = generation s !! sid
  ∧ generationStart s' !! sid = generationStart s !! sid.

Lemma lookup_filter_keep {V} (D : gset string) (m : gmap string V) k :
  k ∉ D → filter (λ p, p.1 ∉ D) m !! k = m !! k.
Proof.
  intros Hk. destruct (m !! k) as [v|] eqn:E.
  - by apply map_lookup_filter_Some.
  - apply map_lookup_filter_None. by left.
Qed.

Lemma prune_same_marks live s sid : sid ∈ live → same_marks s (pruneSettles live s) sid.
Proof.
  intros Hl. unfold same_marks, pruneSettles. simpl.
  rewrite !lookup_filter_keep by set_solver. done.
Qed.

Lemma startGeneration_same_marks now sid s sid' :
  sid' ≠ sid → same_marks s (startGeneration now sid s) sid'.
Proof.
  intros. unfold same_marks, startGeneration. simpl.
  by rewrite !lookup_delete_ne, !lookup_insert_ne by done.
Qed.

Lemma recordSettle_same_marks now sid st seq s sid' :
  sid' ≠ sid → same_marks s (recordSettle now sid st seq s) sid'.
Proof.
  intros. unfold same_marks, recordSettle. simpl.
  rewrite !lookup_insert_ne by done. case_bool_decide; by rewrite ?lookup_insert_ne by done.
Qed.

Lemma reaped_same_marks sids s sid :
  sid ∉ sids → same_marks s (OnSessionsReaped sids s) sid.
Proof.
  revert s. induction sids as [|sid' sids IH]; intros s Hn; [done|].
  apply not_elem_of_cons in Hn as [Hne Hn]. unfold OnSessionsReaped. simpl.
  specialize (IH (reap1 s sid') Hn) as (H1 & H2 & H3 & H4). unfold OnSessionsReaped in *.
  unfold same_marks. rewrite H1, H2, H3, H4. unfold reap1. simpl.
  by rewrite !lookup_delete_ne by done.
Qed.

Lemma reaped_queue sids s : settleQueue (OnSessionsReaped sids s) = settleQueue s.
Proof.
  revert s. induction sids as [|sid' sids IH]; intros s; [done|]. unfold OnSessionsReaped in *.
  simpl. by rewrite IH.
Qed.

Lemma reaped_legacy sids s sid b :
  lastSettleLegacy (OnSessionsReaped sids s) !! sid = Some b →
  lastSettleLegacy s !! sid = Some b.
Proof.
  revert s. induction sids as [|sid' sids IH]; intros s; [done|]. unfold OnSessionsReaped in *.
  simpl. intros H. apply IH in H. simpl in H. by apply lookup_delete_Some in H as [_ ?].
Qed.

(** A held post that an observed settle has made due: its turn has settled, or its
    identity is gone. *)
Definition due (s : Settles) (sid : string) (e : heldEntry) : Prop :=
  is_Some (lastSettle s !! sid) ∧
  (0 < turnSequence e ≤ mget 0 (lastSettleSequence s) sid
   ∨ ∃ start, generationStart s !! sid = Some start ∧ atUnixMs e < start).

Lemma same_marks_due s s' sid e : same_marks s s' sid → due s' sid e → due s sid e.
Proof. intros (H1 & H2 & H3 & H4). unfold due, mget. by rewrite H1, H2, H4. Qed.

(** What holds of every held entry of a session. *)
Record entry_ok (s : Settles) (sid : string) (e : heldEntry) : Prop := {
  ok_at : in_i64 (atUnixMs e);
  ok_seq : 0 ≤ turnSequence e;
  ok_gen : e_generation e = mget 0 (generation s) sid;
  ok_old : ∀ start, generationStart s !! sid = Some start → atUnixMs e < start →
           turnSequence e = 0;
  ok_due : due s sid e → ∃ ev, ev ∈ settleQueue s ∧ sessionID ev = sid ∧ releases ev e = true;
}.

Definition legacy_free (s : Settles) : Prop :=
  ∀ sid b, lastSettleLegacy s !! sid = Some b → b = false.

Lemma legacy_free_get s sid : legacy_free s → mget false (lastSettleLegacy s) sid = false.
Proof.
  intros H. unfold mget. destruct (lastSettleLegacy s !! sid) eqn:E; [|done]. by apply H in E.
Qed.

(** A recorded sequence comes with a recorded settle time. *)
Definition seq_settled (s : Settles) : Prop :=
  ∀ sid, is_Some (lastSettleSequence s !! sid) → is_Some (lastSettle s !! sid).

Definition entries_ok (s : Settles) : Prop :=
  legacy_free s ∧ seq_settled s ∧ ∀ sid e, e ∈ heldOf s sid → entry_ok s sid e.

(** An entry's facts move to a state with the same marks for its session and a
    queue that keeps what releases it. *)
Lemma entry_ok_same s s' sid e :
  same_marks s s' sid →
  (∀ ev, ev ∈ settleQueue s → sessionID ev = sid → releases ev e = true → ev ∈ settleQueue s') →
  entry_ok s sid e → entry_ok s' sid e.
Proof.
  intros HM HQ [H1 H2 H3 H4 H5]. split; [done|done| | |].
  - unfold mget. destruct HM as (_ & _ & -> & _). exact H3.
  - destruct HM as (_ & _ & _ & ->). exact H4.
  - intros HD. destruct (H5 (same_marks_due _ _ _ _ HM HD)) as (ev & Hev & Hs & Hr). eauto.
Qed.

(** The entry a hold registers satisfies the invariant: if it is due, its replay
    edge is queued. *)
Lemma hold_entry_ok sid msg tp ten at_ seq s :
  legacy_free s → in_i64 at_ → 0 ≤ seq →
  entry_ok (hold sid msg tp ten at_ seq s).1 sid (holdEntry s sid msg tp ten at_ seq).
Proof.
  intros HL Hat Hseq.
  split; simpl; [done|by destruct (oldIdentity _ _ _)|done| |].
  - intros start EG Hlt. by rewrite (proj2 (oldIdentity_spec s sid at_)) by eauto.
  - intros [[settled ES] HD]. unfold due in HD. simpl in ES, HD.
    destruct (proj2 (replay_releases s sid msg tp ten at_ seq Hat)) as [HE HR].
    { exists settled. split; [done|]. rewrite legacy_free_get by done.
      destruct HD as [HD|HD]; [|left; by apply oldIdentity_spec].
      destruct (oldIdentity s sid at_); [by left|]. right; left. split; [lia|done]. }
    rewrite HE. eexists. split; [apply elem_of_app; right; by apply list_elem_of_singleton|].
    split; [|done]. unfold replayEdge. repeat case_match; done.
Qed.

Lemma hold_same_marks sid msg tp ten at_ seq s sid' :
  same_marks s (hold sid msg tp ten at_ seq s).1 sid'.
Proof. done. Qed.

Lemma entries_ok_hold sid msg tp ten at_ seq s :
  in_i64 at_ → 0 ≤ seq → entries_ok s → entries_ok (hold sid msg tp ten at_ seq s).1.
Proof.
  intros Hat Hseq (HL & HS & HE). split; [exact HL|]. split; [exact HS|]. intros sid' e.
  rewrite heldOf_hold. intros He.
  assert (entry_ok s sid' e → entry_ok (hold sid msg tp ten at_ seq s).1 sid' e) as Hkeep.
  { apply entry_ok_same; [apply hold_same_marks|]. intros ev Hev _ _. simpl.
    destruct (holdEligible _ _ _ _); [apply elem_of_app; by left|done]. }
  case_decide; subst; [|auto].
  apply elem_sliceInsert in He as [->|He]; [by apply hold_entry_ok|auto].
Qed.

Lemma entries_ok_start now sid s :
  mget 0 (generation s) sid + 1 < 2 ^ 64 →
  entries_ok s → entries_ok (startGeneration now sid s).
Proof.
  intros Hg (HL & HS & HE). refine (conj _ (conj _ _)).
  - intros sid' b. simpl. intros [_ H]%lookup_delete_Some. by apply HL in H.
  - intros sid'. simpl. destruct (decide (sid' = sid)) as [->|Hne].
    + rewrite !lookup_delete_eq. done.
    + rewrite !lookup_delete_ne by done. apply HS.
  - intros sid' e. rewrite heldOf_startGeneration. case_decide as Hd.
    + subst sid'. intros (e0 & -> & He0)%list_elem_of_fmap. destruct (HE _ _ He0).
      split; simpl; [done|lia|by rewrite mget_insert_eq|done|].
      intros [[x Hx] _]. simpl in Hx. by rewrite lookup_delete_eq in Hx.
    + intros He. eapply entry_ok_same; [by apply startGeneration_same_marks| |by apply HE].
      by intros.
Qed.

Lemma entries_ok_record now sid st seq s :
  0 < seq → entries_ok s → entries_ok (recordSettle now sid st seq s).
Proof.
  intros Hs (HL & HS & HE). refine (conj _ (conj _ _)).
  - intros sid' b. unfold recordSettle. simpl.
    rewrite (bool_decide_eq_false_2 (seq = 0)) by lia. case_bool_decide; [|apply HL].
    intros [[_ <-]|[_ HX]]%lookup_insert_Some; [done|by apply HL in HX].
  - intros sid' Hx. simpl. destruct (decide (sid' = sid)) as [->|Hne].
    + rewrite lookup_insert_eq. done.
    + destruct (recordSettle_same_marks now sid st seq s sid' Hne) as (E1 & E2 & _).
      unfold recordSettle in E1. simpl in E1. rewrite E1. apply HS. by rewrite <- E2.
  - intros sid' e He. specialize (HE sid' e He).
    destruct (decide (sid' = sid)) as [->|Hne]; last first.
    { eapply entry_ok_same; [by apply recordSettle_same_marks| |exact HE].
      intros ev Hev _ _. simpl. apply elem_of_app. by left. }
    destruct HE as [H1 H2 H3 H4 H5]. split; [done|done|done|done|].
    set (edge := SettleEvent sid st seq MaxInt64 (mget 0 (generation s) sid)).
    destruct (decide (turnSequence e ≤ seq)) as [Hle|Hgt].
    { intros _. exists edge. split; [apply elem_of_app; right; by apply list_elem_of_singleton|].
      split; [done|]. apply releases_spec. unfold in_i64 in H1. simpl. lia. }
    intros [_ HD]. unfold mget in HD. unfold recordSettle in HD. simpl in HD.
    destruct H5 as (ev & Hev & Hs' & Hr).
    2: { exists ev. split; [apply elem_of_app; by left|done]. }
    destruct HD as [HD|(start & EG & Hlt)]; [|exfalso; specialize (H4 _ EG Hlt); lia].
    case_bool_decide as HN.
    { rewrite lookup_insert_eq in HD. simpl in HD. lia. }
    split; [|by left]. apply HS. destruct (lastSettleSequence s !! sid); [done|].
    simpl in HD. lia.
Qed.

Lemma entries_ok_drain s ev q :
  settleQueue s = ev :: q → entries_ok s → entries_ok (fireHeld ev (popSettle ev q s)).1.
Proof.
  intros EQ (HL & HS & HE). split; [exact HL|]. split; [exact HS|].
  intros sid e He. rewrite heldOf_fireHeld in He.
  assert (e ∈ heldOf s sid ∧ (sessionID ev = sid → releases ev e = false)) as [He' Hr].
  { case_decide as Hd; [subst sid|split; [exact He|by intros <-]].
    apply list_elem_of_filter in He as [? He]. split; [exact He|done]. }
  apply (entry_ok_same s); [done| |by apply HE].
  intros ev' Hev Hs Hr'. rewrite EQ in Hev. apply elem_of_cons in Hev as [->|Hev]; [|exact Hev].
  rewrite Hr in Hr' by done. done.
Qed.

Lemma entries_ok_reaped sids s : entries_ok s → entries_ok (OnSessionsReaped sids s).
Proof.
  intros (HL & HS & HE). refine (conj _ (conj _ _)).
  - intros sid b H. eapply HL, reaped_legacy, H.
  - clear HE HL. revert s HS. induction sids as [|sid' sids IH]; [done|]. intros s HS.
    apply (IH (reap1 s sid')). intros sid. simpl. destruct (decide (sid' = sid)) as [->|].
    + rewrite !lookup_delete_eq. done.
    + rewrite !lookup_delete_ne by done. apply HS.
  - intros sid e. rewrite heldOf_reaped. case_decide; [set_solver|]. intros He.
    eapply entry_ok_same; [by apply reaped_same_marks| |by apply HE].
    intros. by rewrite reaped_queue.
Qed.

Lemma is_Some_filter {V} (D : gset string) (m : gmap string V) k :
  is_Some (filter (λ p, p.1 ∉ D) m !! k) ↔ k ∉ D ∧ is_Some (m !! k).
Proof.
  split.
  - intros [v [Hm HP]%map_lookup_filter_Some]. eauto.
  - intros [HP [v Hm]]. exists v. by apply map_lookup_filter_Some.
Qed.

Lemma entries_ok_prune live s :
  (∀ sid, heldOf s sid ≠ [] → sid ∈ live) → entries_ok s → entries_ok (pruneSettles live s).
Proof.
  intros Hlive (HL & HS & HE). refine (conj _ (conj _ _)).
  - intros sid b [H _]%map_lookup_filter_Some. by apply HL in H.
  - intros sid. unfold pruneSettles. cbn [lastSettle lastSettleSequence].
    rewrite !is_Some_filter. intros [? ?]. auto.
  - intros sid e He. apply (entry_ok_same s); [| |by apply HE].
    + apply prune_same_marks, Hlive. intros E. change (e ∈ heldOf s sid) in He. rewrite E in He; by apply not_elem_of_nil in He.
    + done.
Qed.

Lemma reach_entries_ok s : reach numbered s → entries_ok s.
Proof.
  apply reach_ind_inv.
  - split; [|split]; intros ?; [done|by intros [? ?]|set_solver].
  - intros s0 o IH. destruct o as [sid' msg tp ten at_ seq|now sid' st seq| |sids|live]; cbn [step numbered].
    + intros []. by apply entries_ok_hold.
    + intros (? & ? & ?). unfold OnSessionSettled. case_bool_decide; [by apply entries_ok_start|].
      destruct (firesHeldDelivers st); [by apply entries_ok_record|done].
    + intros _. unfold drainSettle1. destruct (settleQueue s0) as [|ev q] eqn:E; [done|].
      by apply entries_ok_drain.
    + intros _. by apply entries_ok_reaped.
    + intros ?. by apply entries_ok_prune.
Qed.

(** ** Edges *)

(** What holds of every queued edge: it belongs to an earlier generation, or its
    sequence has been observed, or it replays an old identity's posts only. *)
Definition edge_ok (s : Settles) (ev : settleEvent) : Prop :=
  ev_generation ev < mget 0 (generation s) (sessionID ev)
  ∨ ev_generation ev = mget 0 (generation s) (sessionID ev)
    ∧ (0 < ev_turnSequence ev ≤ mget 0 (lastSettleSequence s) (sessionID ev)
       ∨ ∃ start, generationStart s !! sessionID ev = Some start ∧ upTo ev < start).

Lemma edge_ok_same s s' ev : same_marks s s' (sessionID ev) → edge_ok s ev → edge_ok s' ev.
Proof. intros (_ & H2 & H3 & H4). unfold edge_ok, mget. by rewrite H2, H3, H4. Qed.

Lemma edge_ok_hold sid msg tp ten at_ seq s ev :
  legacy_free s → 0 ≤ seq → (∀ ev, ev ∈ settleQueue s → edge_ok s ev) →
  ev ∈ settleQueue (hold sid msg tp ten at_ seq s).1 → edge_ok s ev.
Proof.
  intros HL Hs HE. cbn [hold settleQueue fst].
  destruct (holdEligible _ _ _ _) eqn:HQ; [|apply HE].
  intros [?|Hev%list_elem_of_singleton]%elem_of_app; [auto|subst ev]. clear HE.
  unfold holdEligible in HQ. destruct (lastSettle s !! sid); [|done].
  unfold replayEdge. rewrite legacy_free_get in * by done.
  destruct (oldIdentity s sid at_) eqn:EO; right.
  - split; [done|]. right. apply oldIdentity_spec in EO as (start & EG & Hlt).
    exists start. simpl. split; [done|]. unfold mget. rewrite EG. simpl. lia.
  - simpl in HQ. rewrite !orb_false_r, bool_decide_eq_true in HQ.
    rewrite (bool_decide_eq_false_2 (seq = 0)) by lia. simpl. split; [done|by left].
Qed.

Lemma edge_ok_start now sid s ev :
  mget 0 (generation s) sid + 1 < 2 ^ 64 → 0 ≤ mget 0 (generation s) sid →
  edge_ok s ev → edge_ok (startGeneration now sid s) ev.
Proof.
  intros Hg H0 HE. destruct (decide (sessionID ev = sid)) as [<-|Hne];
    [|by eapply edge_ok_same; [apply startGeneration_same_marks|]].
  left. cbn [generation startGeneration]. rewrite mget_insert_eq, u64_small by lia.
  destruct HE as [|[-> _]]; lia.
Qed.

Lemma edge_ok_record now sid st seq s ev :
  0 < seq → edge_ok s ev → edge_ok (recordSettle now sid st seq s) ev.
Proof.
  intros Hs HE. destruct (decide (sessionID ev = sid)) as [<-|Hne];
    [|by eapply edge_ok_same; [apply recordSettle_same_marks|]].
  unfold edge_ok in *. cbn [recordSettle generation generationStart lastSettleSequence].
  case_bool_decide; [rewrite mget_insert_eq|done].
  destruct HE as [?|[? [?|?]]]; [by left|right; split; [done|left; lia]|right; auto].
Qed.

Lemma edge_ok_recorded now sid st seq s :
  0 < seq → edge_ok (recordSettle now sid st seq s)
              (SettleEvent sid st seq MaxInt64 (mget 0 (generation s) sid)).
Proof.
  intros Hs. right. split; [done|]. left.
  cbn [recordSettle generation lastSettleSequence ev_turnSequence sessionID].
  case_bool_decide; [rewrite mget_insert_eq|]; lia.
Qed.

(** The generation counters and recorded sequences are not negative. *)
Definition nonneg (s : Settles) : Prop :=
  map_Forall (λ _ g, 0 ≤ g) (generation s) ∧ map_Forall (λ _ q, 0 ≤ q) (lastSettleSequence s).

Lemma nonneg_get (m : gmap string Z) sid : map_Forall (λ _ g, 0 ≤ g) m → 0 ≤ mget 0 m sid.
Proof. intros H. unfold mget. destruct (m !! sid) eqn:E; [by apply H in E|done]. Qed.

Lemma map_Forall_filter_any {V} (P : string → V → Prop) (D : gset string) (m : gmap string V) :
  map_Forall P m → map_Forall P (filter (λ p, p.1 ∉ D) m).
Proof. intros H k v [Hm _]%map_lookup_filter_Some. by apply H. Qed.

Lemma nonneg_step s o : nonneg s → numbered s o → nonneg (step s o).
Proof.
  intros [HG HQ]. destruct o as [sid' msg tp ten at_ seq|now sid' st seq| |sids|live];
    cbn [step numbered].
  - done.
  - intros (_ & Hs & _). unfold OnSessionSettled. case_bool_decide; simpl.
    + split; simpl; [|by apply map_Forall_delete].
      apply map_Forall_insert_2; [|done]. unfold u64. apply Z.mod_pos_bound. lia.
    + destruct (firesHeldDelivers st); [|done]. split; simpl; [done|].
      case_bool_decide; [apply map_Forall_insert_2; [lia|done]|done].
  - unfold drainSettle1. destruct (settleQueue s); done.
  - intros _. clear -HG HQ. revert s HG HQ. induction sids as [|sid sids IH]; [done|].
    intros s HG HQ. apply (IH (reap1 s sid)); simpl; by apply map_Forall_delete.
  - intros _. split; simpl; repeat apply map_Forall_filter_any; done.
Qed.

Lemma reach_nonneg s : reach numbered s → nonneg s.
Proof. apply reach_ind_inv; [done|apply nonneg_step]. Qed.

Lemma reach_edges_ok s :
  reach numbered_drained s → ∀ ev, ev ∈ settleQueue s → edge_ok s ev.
Proof.
  induction 1 as [|s o R IH [HN HD]]; [by intros ? ?%not_elem_of_nil|].
  assert (reach numbered s) as RN by (eapply reach_weaken; [|exact R]; by intros ?? [? _]).
  destruct (reach_entries_ok s RN) as (HL & _). destruct (reach_nonneg s RN) as [HG _].
  destruct o as [sid' msg tp ten at_ seq|now sid' st seq| |sids|live];
    cbn [step numbered] in *; intros ev Hev.
  - destruct HN. apply (edge_ok_same s); [done|]. by eapply edge_ok_hold.
  - destruct HN as (_ & ? & ?). unfold OnSessionSettled in *. case_bool_decide; simpl in *.
    + apply edge_ok_start; [done|by apply nonneg_get|auto].
    + destruct (firesHeldDelivers st); simpl in *; [|auto].
      apply elem_of_app in Hev as [?|Hev%list_elem_of_singleton]; [|subst ev];
        [by apply edge_ok_record; auto|by apply edge_ok_recorded].
  - unfold drainSettle1 in *. destruct (settleQueue s) as [|ev0 q] eqn:EQ; [rewrite EQ in Hev; auto|].
    apply (edge_ok_same s); [done|]. apply IH. by apply elem_of_cons; right.
  - rewrite reaped_queue in Hev. apply (edge_ok_same s); [|auto].
    by apply reaped_same_marks, HD.
  - apply (edge_ok_same s); [|by apply IH]. by apply prune_same_marks, HD.
Qed.

(** * Draining *)

(** No queued edge of the session releases the entry. *)
Definition kept (q : list settleEvent) (sid : string) (e : heldEntry) : bool :=
  forallb (λ ev, negb (bool_decide (sessionID ev = sid) && releases ev e)) q.

(** What a drain fired for one session, edge after edge. *)
Definition fired (sid : string) (fs : list (string * list heldEntry)) : list heldEntry :=
  concat (map snd (filter (λ f, f.1 = sid) fs)).

Lemma filter_split_perm (p : heldEntry → bool) (l : list heldEntry) :
  l ≡ₚ filter (λ e, p e = true) l ++ filter (λ e, p e = false) l.
Proof.
  induction l as [|e l IH]; [done|]. destruct (p e) eqn:E.
  - rewrite filter_cons_True, filter_cons_False by congruence. simpl. by f_equiv.
  - rewrite filter_cons_False, filter_cons_True by congruence.
    rewrite <- Permutation_middle. by f_equiv.
Qed.

Lemma drain_step s ev q :
  settleQueue s = ev :: q →
  drainSettles s =
  let s1 := (fireHeld ev (popSettle ev q s)).1 in
  ((drainSettles s1).1,
   (sessionID ev, filter (λ e, releases ev e = true) (heldOf s (sessionID ev))) :: (drainSettles s1).2).
Proof.
  intros EQ. unfold drainSettles. rewrite EQ. cbn [length drain_loop]. unfold drainSettle1.
  rewrite EQ. cbn zeta.
  replace (length (settleQueue (fireHeld ev (popSettle ev q s)).1)) with (length q) by done.
  by destruct (drain_loop (length q) _).
Qed.

Lemma heldOf_drain1 s ev q sid :
  heldOf (fireHeld ev (popSettle ev q s)).1 sid =
  filter (λ e, kept [ev] sid e = true) (heldOf s sid).
Proof.
  rewrite heldOf_fireHeld. unfold kept. simpl. case_decide as Hd.
  - subst sid. change (heldOf (popSettle ev q s)) with (heldOf s).
    apply list_filter_iff. intros e. rewrite bool_decide_eq_true_2 by done.
    by destruct (releases ev e).
  - symmetry. apply filter_all, Forall_forall. intros e _.
    by rewrite bool_decide_eq_false_2.
Qed.

Lemma drain_spec s :
  settleQueue (drainSettles s).1 = []
  ∧ map fst (drainSettles s).2 = map sessionID (settleQueue s)
  ∧ (∀ f, f ∈ (drainSettles s).2 → f.2 `sublist_of` heldOf s f.1)
  ∧ ∀ sid, heldOf s sid ≡ₚ fired sid (drainSettles s).2 ++ heldOf (drainSettles s).1 sid
           ∧ heldOf (drainSettles s).1 sid
             = filter (λ e, kept (settleQueue s) sid e = true) (heldOf s sid).
Proof.
  remember (settleQueue s) as q eqn:EQ. revert s EQ.
  induction q as [|ev q IH]; intros s EQ.
  - unfold drainSettles. rewrite <- EQ. simpl. split_and!; [done|done|set_solver|].
    intros sid. split; [done|]. symmetry. by apply filter_all, Forall_forall.
  - rewrite (drain_step s ev q) by done. cbn zeta. cbn [fst snd].
    destruct (IH (fireHeld ev (popSettle ev q s)).1 eq_refl) as (H1 & H2 & H3 & H4). clear IH.
    set (r := drainSettles _) in *. split_and!; [done|simpl; by f_equal| |].
    + intros f [->|Hf]%elem_of_cons; [apply sublist_filter|].
      etrans; [by apply H3|]. rewrite heldOf_drain1. apply sublist_filter.
    + intros sid. destruct (H4 sid) as [HP HF]. split.
      * unfold fired. destruct (decide (sessionID ev = sid)) as [<-|Hne].
        -- rewrite filter_cons_True by done. simpl. rewrite <- app_assoc.
           fold (fired (sessionID ev) r.2). rewrite <- HP, heldOf_fireHeld, decide_True by done.
           apply filter_split_perm.
        -- rewrite filter_cons_False by done. fold (fired sid r.2). rewrite <- HP.
           by rewrite heldOf_fireHeld, decide_False.
      * rewrite HF, heldOf_drain1, list_filter_filter. apply list_filter_iff. intros e.
        unfold kept. simpl. rewrite andb_true_r, andb_true_iff. tauto.
Qed.

Lemma reach_drain (ok : Settles → op → Prop) s :
  (∀ s, ok s OpDrain1) → reach ok s → reach ok (drainSettles s).1.
Proof.
  intros Hok. remember (settleQueue s) as q eqn:EQ. revert s EQ.
  induction q as [|ev q IH]; intros s EQ R.
  - unfold drainSettles. by rewrite <- EQ.
  - rewrite (drain_step s ev q) by done. apply IH; [done|].
    assert (step s OpDrain1 = (fireHeld ev (popSettle ev q s)).1) as <-.
    { cbn [step]. unfold drainSettle1. by rewrite <- EQ. }
    by apply reach_op.
Qed.

(** ** Concrete runs *)

Fixpoint run_ok (ok : Settles → op → Prop) (s : Settles) (os : list op) : Prop :=
  match os with
  | [] => True
  | o :: os => ok s o ∧ run_ok ok (step s o) os
  end.

Lemma reach_run ok os s : reach ok s → run_ok ok s os → reach ok (foldl step s os).
Proof.
  revert s. induction os as [|o os IH]; intros s R; [done|]. intros [H1 H2].
  apply IH; [by apply reach_op|done].
Qed.

(** Turn 1 settles between two posts of turn 1; a post of turn 2 is held as well. *)
Definition demo_ops : list op :=
  [ OpSettled 50 "author" STARTING 1;
    OpHold "author" "m1" "" "t" 100 1;
    OpHold "author" "m3" "" "t" 300 2;
    OpSettled 200 "author" READY 1;
    OpHold "author" "m2" "" "t" 150 1 ].

Lemma demo_run_ok ok :
  ok = numbered ∨ ok = numbered_drained → reach ok (foldl step NewSettles demo_ops).
Proof.
  intros [-> | ->]; apply reach_run; try apply reach_init; vm_compute; repeat split; discriminate.
Qed.

(** A recovery pass that runs while a live author is missing from the snapshot drops
    the session's generation but not its held post; once the author's turn settles,
    the drained queue leaves the due post held. *)
Example prune_strands_held_post :
  let s := (drainSettles (foldl step NewSettles
    [ OpSettled 50 "author" STARTING 1;
      OpHold "author" "m1" "" "t" 100 1;
      OpPrune ∅;
      OpSettled 200 "author" READY 1 ])).1 in
  messageID <$> heldOf s "author" = ["m1"]
  ∧ mget 0 (lastSettleSequence s) "author" = 1
  ∧ heldIDs {[ "author" ]} s = {[ "m1" ]}.
Proof. vm_compute. done. Qed.

(** * Claims *)

(** Draining loses and duplicates nothing: the settle queue is emptied in order,
    every session's held posts are exactly what its edges fired plus what stays, what
    stays is what no edge of the session releases, and each edge's batch keeps the
    held (commit) order. *)
Theorem drain_conserves s :
  settleQueue (drainSettles s).1 = []
  ∧ map fst (drainSettles s).2 = map sessionID (settleQueue s)
  ∧ (∀ f, f ∈ (drainSettles s).2 → f.2 `sublist_of` heldOf s f.1)
  ∧ ∀ sid, heldOf s sid ≡ₚ fired sid (drainSettles s).2 ++ heldOf (drainSettles s).1 sid
           ∧ heldOf (drainSettles s).1 sid
             = filter (λ e, kept (settleQueue s) sid e = true) (heldOf s sid).
Proof. apply drain_spec. Qed.

(** C10. No stranded post: in any run in which every settle carries a turn sequence
    and every recovery pass finds each author with a held post live ([numbered];
    [prune_strands_held_post] is a run without the second), once the loop has
    drained the settle queue no held post is due, that is, every post still held
    belongs to a turn of the current identity whose settle has not been observed,
    even when the post's event arrived after the settle. *)
Theorem settled_turn_is_released s sid e :
  reach numbered s → e ∈ heldOf (drainSettles s).1 sid → ¬ due (drainSettles s).1 sid e.
Proof.
  intros R He HD. apply (reach_drain numbered) in R; [|done].
  destruct (drain_spec s) as (EQ & _). destruct (reach_entries_ok _ R) as (_ & _ & HE).
  destruct (ok_due _ _ _ (HE _ _ He) HD) as (ev & Hev & _). rewrite EQ in Hev.
  by apply not_elem_of_nil in Hev.
Qed.

(** The post of turn 2 stays held after the drain, and is not due. *)
Lemma settled_turn_is_released_witness :
  let s := foldl step NewSettles demo_ops in
  let e := HeldEntry "m3" "" "t" 300 2 1 in
  e ∈ heldOf (drainSettles s).1 "author" ∧ ¬ due (drainSettles s).1 "author" e.
Proof.
  intros s e. assert (e ∈ heldOf (drainSettles s).1 "author") as He.
  { assert (heldOf (drainSettles s).1 "author" = [e]) as -> by (vm_compute; reflexivity).
    by apply list_elem_of_singleton. }
  split; [exact He|].
  apply (settled_turn_is_released s "author" e); [apply demo_run_ok; by left|exact He].
Defined.

(** C9. No early release: in such a run, when moreover a session is reaped, or found
    dead by a recovery pass, only after the loop has handled its queued edges
    ([numbered_drained]), an edge never fires a post ahead of its turn: a fired post's turn
    sequence is at most the highest one its session has reported in the current
    identity generation, so an edge queued before a restart frees none of the new
    identity's posts. *)
Theorem no_early_release s s1 sid fire e :
  reach numbered_drained s → drainSettle1 s = Some (s1, (sid, fire)) → e ∈ fire →
  e ∈ heldOf s sid ∧ turnSequence e ≤ mget 0 (lastSettleSequence s) sid.
Proof.
  intros R HD He.
  assert (reach numbered s) as RN by (eapply reach_weaken; [|exact R]; by intros ?? [? _]).
  unfold drainSettle1 in HD. destruct (settleQueue s) as [|ev q] eqn:EQ; [done|].
  assert (sessionID ev = sid) as <- by congruence.
  assert (fire = (fireHeld ev (popSettle ev q s)).2) as -> by congruence.
  apply list_elem_of_filter in He as [Hr He]. split; [done|].
  destruct (reach_entries_ok s RN) as (_ & _ & HE). destruct (HE _ _ He) as [_ _ Hg Hold _].
  destruct (reach_nonneg s RN) as [_ Hq]. apply (nonneg_get _ (sessionID ev)) in Hq.
  apply releases_spec in Hr as (Hat & Hgen & Hseq).
  destruct (reach_edges_ok s R ev) as [?|[_ [?|(start & EG & ?)]]]; [rewrite EQ; set_solver|lia|lia|].
  specialize (Hold start EG). lia.
Qed.

(** The first drained edge fires both posts of turn 1. *)
Lemma no_early_release_witness :
  let s := foldl step NewSettles demo_ops in
  let e := HeldEntry "m2" "" "t" 150 1 1 in
  e ∈ heldOf s "author" ∧ turnSequence e ≤ mget 0 (lastSettleSequence s) "author".
Proof.
  intros s e.
  apply (no_early_release s
    (match drainSettle1 s with Some (s1, _) => s1 | None => s end) "author"
    [HeldEntry "m1" "" "t" 100 1 1; e] e);
    [apply demo_run_ok; by right|vm_compute; reflexivity|set_solver].
Defined.

(** A hold puts the post after every held post of its author committed no later
    and before every later one, and queues an edge that releases it exactly when the
    post's settle was already observed: its identity is gone, its turn sequence has
    settled, or a legacy settle came at or after its commit. *)
Theorem hold_late_replay ok s sid msg tp ten at_ seq0 :
  reach ok s → in_i64 at_ →
  let seq := if oldIdentity s sid at_ then 0 else seq0 in
  let e := holdEntry s sid msg tp ten at_ seq0 in
  let s' := (hold sid msg tp ten at_ seq0 s).1 in
  (∃ l1 l2, heldOf s sid = l1 ++ l2 ∧ heldOf s' sid = l1 ++ e :: l2
     ∧ Forall (λ e', atUnixMs e' ≤ at_) l1 ∧ Forall (λ e', at_ < atUnixMs e') l2)
  ∧ ((∃ ev, settleQueue s' = settleQueue s ++ [ev] ∧ releases ev e = true)
     ↔ settledAlready s sid at_ seq).
Proof.
  intros R Hat seq e s'. split.
  - subst s'. rewrite heldOf_hold, decide_True by done.
    by apply hold_position; [eapply reach_sorted|].
  - pose proof (replay_releases s sid msg tp ten at_ seq0 Hat) as HR. cbn zeta in HR.
    fold seq e in HR. rewrite <- HR. subst s'. cbn [hold settleQueue fst]. fold seq. split.
    + destruct (holdEligible s sid at_ seq); intros (ev & Hev & Hr).
      * apply app_inj_2 in Hev as [_ [= ->]]; done.
      * apply (f_equal length) in Hev. rewrite length_app in Hev. simpl in Hev. lia.
    + intros [HE Hr]. rewrite HE. eauto.
Qed.

(** A post of the settled turn 1, committed between the two held ones. *)
Lemma hold_late_replay_witness :
  let s := foldl step NewSettles demo_ops in
  let s' := (hold "author" "m4" "" "t" 160 1 s).1 in
  (∃ ev, settleQueue s' = settleQueue s ++ [ev]
         ∧ releases ev (holdEntry s "author" "m4" "" "t" 160 1) = true)
  ∧ messageID <$> heldOf s' "author" = ["m1"; "m2"; "m4"; "m3"].
Proof.
  intros s s'. split; [|vm_compute; reflexivity].
  apply (hold_late_replay numbered s "author" "m4" "" "t" 160 1);
    [apply demo_run_ok; by left|vm_compute; split; discriminate|].
  exists 200. split; [vm_compute; reflexivity|]. right; left.
  vm_compute. repeat split; discriminate.
Defined.

End DeliveryHold.
