(* ===== verification/DeliveryRoute.v ===== *)
(** Message delivery, the routing of one message ([src/go/internal/delivery/
    dispatch.go], [scan.go], [settle.go], [consumer.go]).

    The consumer calls its store, the session resolver, the dispatcher and the waker
    while other goroutines change what they answer, so two calls with the same
    arguments may answer differently.  A routine is therefore a program ([prog]) over
    the calls it makes, and its behaviours are the traces of calls with the answers
    they got ([runs]); a theorem about every trace holds whatever the environment
    does between two calls.  The reads and writes of the consumer's own
    mutex-protected registry (the settle gate) are calls as well, one per critical
    section.  Logging, spans and metrics leave no trace.

    Texts and handles are byte lists, identifiers are strings. *)
From stdpp Require Import base gmap strings list sorting.
From Stdlib Require Import Ascii ZArith Lia.
From S2P Require Import Prelude Text Wire.

Module DeliveryRoute.

(** * Data *)

(** [store.ChannelAgentMember]. *)
Record ChannelAgentMember := MkMember {
  ID : string;
  OwnerUserID : string;
  OwnerHandle : bytes;
  Handle : bytes;
}.

Inductive opKind := Deliver | Steer.

#[export] Instance opKind_eq_dec : EqDecision opKind.
Proof. solve_decision. Defined.

(** An [AgentControl]: the oneof arm, and what the arm carries. *)
Record AgentControl := MkControl {
  kind : opKind;
  op_message : Message;
  op_from : string;
  op_channel : string;
  op_topic : string;
}.

Definition deliverOp (m : Message) (from ch topic : string) : AgentControl :=
  MkControl Deliver m from ch topic.
Definition steerOp (m : Message) (from ch topic : string) : AgentControl :=
  MkControl Steer m from ch topic.

(** A store read fails with [store.ErrNotFound] or with some other error. *)
Inductive readErr := ErrNotFound | ErrOther.

(** * Mentions in a text *)

(** One rune of [[a-z0-9]] under [(?i)], lowercased, and the rest.  Simple case
    folding adds U+017F (long s, its own lower case) and U+212A (Kelvin sign, lower
    case [k]) to the letters. *)
Definition handle_start (s : bytes) : option (bytes * bytes) :=
  match s with
  | c :: s' =>
      let n := code c in
      if ((97 <=? n) && (n <=? 122) || (65 <=? n) && (n <=? 90) || (48 <=? n) && (n <=? 57))%nat
      then Some ([lower_byte c], s')
      else if has_prefix (byte_seq [197; 191]) s
      then Some (byte_seq [197; 191], drop 2 s)
      else if has_prefix (byte_seq [226; 132; 170]) s
      then Some (lit "k", drop 3 s)
      else None
  | [] => None
  end.

(** One rune of [[a-z0-9._-]]. *)
Definition handle_more (s : bytes) : option (bytes * bytes) :=
  match s with
  | c :: s' =>
      if bool_decide (c ∈ lit "._-") then Some ([c], s') else handle_start s
  | [] => None
  end.

(** [[a-z0-9._-]*], greedy. *)
Fixpoint handle_run (fuel : nat) (s : bytes) : bytes * bytes :=
  match fuel with
  | O => ([], s)
  | S fuel =>
      match handle_more s with
      | Some (out, s') => let '(more, rest) := handle_run fuel s' in (out ++ more, rest)
      | None => ([], s)
      end
  end.

(** [[a-z0-9][a-z0-9._-]*]. *)
Definition handle_word (s : bytes) : option (bytes * bytes) :=
  match handle_start s with
  | Some (out, s') =>
      let '(more, rest) := handle_run (length s') s' in Some (out ++ more, rest)
  | None => None
  end.

(** Group 1 of [mentionRE], lowercased: a word, then [/] and a word when both are
    there.  No character of the class is a [/], so greedy matching needs no
    backtracking. *)
Definition mention_handle (s : bytes) : option (bytes * bytes) :=
  match handle_word s with
  | Some (w1, c :: s') =>
      if bool_decide (c = "/"%char) then
        match handle_word s' with
        | Some (w2, rest) => Some (w1 ++ "/"%char :: w2, rest)
        | None => Some (w1, c :: s')
        end
      else Some (w1, c :: s')
  | r => r
  end.

(** [FindAllStringSubmatch]: leftmost matches that do not overlap. *)
Fixpoint find_mentions (fuel : nat) (s : bytes) : list bytes :=
  match fuel, s with
  | S fuel, c :: s' =>
      if bool_decide (c = "@"%char) then
        match mention_handle s' with
        | Some (h, rest) => h :: find_mentions fuel rest
        | None => find_mentions fuel s'
        end
      else find_mentions fuel s'
  | _, _ => []
  end.

(** The [seen] map of the code: distinct handles in first-appearance order. *)
Fixpoint distinct (seen : list bytes) (hs : list bytes) : list bytes :=
  match hs with
  | [] => []
  | h :: hs => if bool_decide (h ∈ seen) then distinct seen hs
               else h :: distinct (h :: seen) hs
  end.

Definition parseMentions (text : bytes) : list bytes :=
  distinct [] (find_mentions (length text) text).

Definition mentionHandles (m : Message) : list bytes :=
  distinct [] (concat (map (λ b, parseMentions (GetText b)) (Blocks m))).

(** [strings.Cut] at the first [/]. *)
Fixpoint cut_slash (s : bytes) : option (bytes * bytes) :=
  match s with
  | [] => None
  | c :: s =>
      if bool_decide (c = "/"%char) then Some ([], s)
      else match cut_slash s with Some (a, b) => Some (c :: a, b) | None => None end
  end.

Record QualifiedHandle := MkQualified { Owner : bytes; qHandle : bytes; Raw : bytes }.

Definition ParseQualifiedHandle (raw : bytes) : QualifiedHandle :=
  match cut_slash raw with
  | Some (owner, handle) => MkQualified owner handle raw
  | None => MkQualified [] raw raw
  end.

Definition Qualified (q : QualifiedHandle) : bool := bool_decide (qHandle q ≠ Raw q).

Definition reservedMentions : list bytes := [lit "everyone"; lit "agents"; lit "users"].

(** The members one handle of a post names. *)
Definition handle_members (members : list ChannelAgentMember) (authorOwner : string)
    (h : bytes) : list string :=
  if bool_decide (h ∈ reservedMentions) then
    if bool_decide (h = lit "everyone" ∨ h = lit "agents") then map ID members else []
  else
    let qh := ParseQualifiedHandle h in
    map ID (List.filter (λ mb,
      bool_decide (Handle mb = qHandle qh)
      && (if Qualified qh then bool_decide (OwnerHandle mb = Owner qh)
          else bool_decide (OwnerUserID mb = authorOwner)))
      members).

Definition askAnswerTarget (m : Message) : option string :=
  let fix go (bs : list MessageBlock) :=
    match bs with
    | [] => None
    | BlockAskAnswer asker :: bs => if bool_decide (asker = "") then go bs else Some asker
    | _ :: bs => go bs
    end
  in go (Blocks m).

(** * Programs over calls *)

Inductive call : Type → Type :=
(* [DeliveryReads] *)
| MessageByID (id : string) : call (readErr + Message)
| MessageChannel (id : string) : call (readErr + string)
| IsAgentAccount (a : string) : call (readErr + bool)
| TopicChannelNames (topic : string) : call (option (string * string))
| ChannelAgentMembers (ch author : string) : call (option (list ChannelAgentMember))
| ResolveOwner (a : string) : call (option string)
| SubscribedAgents (ch author : string) : call (option (list string))
| UndeliveredMessages (a : string) : call (option (list (string * list Message)))
| OwedMentions (a : string) : call (option (list (string * list Message)))
| SweepChannels (a : string) : call (option (list string))
| PinnedEntries (ch : string) : call (option (list string))
| InSweepSet (a ch : string) : call (option bool)
| RecordOwedMention (a ch m : string) : call bool
| ClearOwedMention (a m : string) : call bool
| MarkMentionsRouted (m : string) : call bool
| UnroutedMentionMessages (afterSeq : Z) (limit : nat) : call (option (list (string * Z)))
(* [SessionResolver], [ControlDispatcher], [AgentWaker] *)
| SessionForAccount (a : string) : call (option string)
| LiveAgentSessions : call (list (string * string))
| DispatchControl (sid : string) (op : AgentControl) : call bool
| WakeAgent (a : string) : call unit
(* the consumer's own registry, and the order in which Go ranges over a set *)
| HeldIDs : call (gset string)
| MessageHeld (id : string) : call bool
| Hold (sid id : string) (at_ seq : Z) : call unit
| RangeSet (s : gset string) : call (list string).

Inductive prog (A : Type) : Type :=
| Ret (a : A)
| Vis (X : Type) (c : call X) (k : X → prog A).
Arguments Ret {A} a.
Arguments Vis {A X} c k.

Fixpoint bind {A B} (p : prog A) (f : A → prog B) : prog B :=
  match p with
  | Ret a => f a
  | Vis c k => Vis c (λ x, bind (k x) f)
  end.

Notation "x <-- p ; q" := (bind p (λ x, q))
  (at level 100, p at next level, q at level 200, right associativity).
Notation "p ;;; q" := (bind p (λ _, q)) (at level 100, q at level 200, right associativity).

Definition do_ {X} (c : call X) : prog X := Vis c Ret.

(** [for x in l { body }] and the same with values collected. *)
Fixpoint each {A} (l : list A) (body : A → prog unit) : prog unit :=
  match l with
  | [] => Ret tt
  | x :: l => body x ;;; each l body
  end.

Fixpoint collect {A B} (l : list A) (body : A → prog (list B)) : prog (list B) :=
  match l with
  | [] => Ret []
  | x :: l => ys <-- body x; zs <-- collect l body; Ret (ys ++ zs)
  end.

(** ** Dispatch *)

Definition sourceNames (m : Message) : prog (string * string) :=
  if bool_decide (TopicId m = "") then Ret ("", "")
  else r <-- do_ (TopicChannelNames (TopicId m));
       Ret match r with Some (topic, ch) => (ch, topic) | None => ("", "") end.

(** A refused dispatch is logged and left to the sweep. *)
Definition gatedDispatch (sid : string) (op : AgentControl) : prog unit :=
  do_ (DispatchControl sid op) ;;; Ret tt.

Definition dispatchTo (sid : string) (m : Message) (from : string) : prog unit :=
  n <-- sourceNames m; gatedDispatch sid (deliverOp m from n.1 n.2).

Definition dispatchSteerTo (sid : string) (m : Message) (from : string) : prog unit :=
  n <-- sourceNames m; gatedDispatch sid (steerOp m from n.1 n.2).

Definition wake (a : string) : prog unit := do_ (WakeAgent a).

(** ** Mention and answer routing *)

Definition resolveMentioned (ch author : string) (handles : list bytes) : prog (gset string) :=
  members <-- do_ (ChannelAgentMembers ch author);
  match members with
  | None => Ret ∅
  | Some members =>
      owner <-- do_ (ResolveOwner author);
      match owner with
      | None => Ret ∅
      | Some owner =>
          Ret (list_to_set (concat (map (handle_members members owner) handles)))
      end
  end.

Definition routeMention1 (ch : string) (m : Message) (a : string) : prog unit :=
  live <-- do_ (SessionForAccount a);
  match live with
  | Some sid => dispatchSteerTo sid m (AuthorHandle m)
  | None =>
      inSweep <-- do_ (InSweepSet a ch);
      match inSweep with
      | Some false =>
          ok <-- do_ (RecordOwedMention a ch (Id m));
          if ok : bool then
            live <-- do_ (SessionForAccount a);
            match live with
            | Some sid => dispatchSteerTo sid m (AuthorHandle m)
            | None => Ret tt
            end
          else Ret tt
      | _ => Ret tt
      end ;;;
      wake a
  end.

Definition routeMentionsFor (ch author : string) (m : Message) : prog (gset string) :=
  match mentionHandles m with
  | [] => Ret ∅
  | handles =>
      mentioned <-- resolveMentioned ch author handles;
      order <-- do_ (RangeSet mentioned);
      each order (routeMention1 ch m) ;;;
      Ret mentioned
  end.

Definition routeAskAnswerFor (ch : string) (m : Message) : prog unit :=
  match askAnswerTarget m with
  | None => Ret tt
  | Some asker =>
      inSweep <-- do_ (InSweepSet asker ch);
      match inSweep with
      | Some false =>
          ok <-- do_ (RecordOwedMention asker ch (Id m));
          if ok : bool then
            live <-- do_ (SessionForAccount asker);
            match live with
            | Some sid => dispatchSteerTo sid m (AuthorHandle m)
            | None => Ret tt
            end
          else Ret tt
      | _ => Ret tt
      end
  end.

Definition fanOut1 (m : Message) (mentioned : gset string) (a : string) : prog unit :=
  if bool_decide (a ∈ mentioned) then Ret tt
  else
    live <-- do_ (SessionForAccount a);
    match live with
    | None => wake a
    | Some sid => dispatchTo sid m (AuthorHandle m)
    end.

Definition fanOut (ch author : string) (m : Message) : prog unit :=
  mentioned <-- routeMentionsFor ch author m;
  routeAskAnswerFor ch m ;;;
  do_ (MarkMentionsRouted (Id m)) ;;;
  recipients <-- do_ (SubscribedAgents ch author);
  match recipients with
  | None => Ret tt
  | Some recipients => each recipients (fanOut1 m mentioned)
  end.

(** ** The posted-message handler *)

Definition storeMessageToWire (id : string) : prog (readErr + (Message * string * string)) :=
  m <-- do_ (MessageByID id);
  match m with
  | inl e => Ret (inl e)
  | inr m =>
      ch <-- do_ (MessageChannel id);
      Ret match ch with inl e => inl e | inr ch => inr (m, ch, AuthorAccountId m) end
  end.

(** A missing row acks ([None], the Go [nil]); any other error is returned. *)
Definition readFailure (e : readErr) : option readErr :=
  match e with ErrNotFound => None | ErrOther => Some ErrOther end.

Definition onMessagePosted (m : Message) : prog (option readErr) :=
  if bool_decide (TopicId m = "" ∨ Id m = "") then Ret None
  else
    agent <-- do_ (IsAgentAccount (AuthorAccountId m));
    match agent with
    | inl e => Ret (readFailure e)
    | inr false =>
        ch <-- do_ (MessageChannel (Id m));
        match ch with
        | inl e => Ret (readFailure e)
        | inr ch => fanOut ch (AuthorAccountId m) m ;;; Ret None
        end
    | inr true =>
        live <-- do_ (SessionForAccount (AuthorAccountId m));
        match live with
        | Some sid => do_ (Hold sid (Id m) (AtUnixMs m) (TurnSequence m)) ;;; Ret None
        | None =>
            w <-- storeMessageToWire (Id m);
            match w with
            | inl e => Ret (readFailure e)
            | inr (wire, ch, author) => fanOut ch author wire ;;; Ret None
            end
        end
    end.

Definition onEventRef (rowID : string) : prog (option readErr) :=
  m <-- do_ (MessageByID rowID);
  match m with
  | inl e => Ret (readFailure e)
  | inr m => onMessagePosted m
  end.

(** The dispatch half of [fireHeld], for one fired entry. *)
Definition fireEntry (id : string) : prog unit :=
  w <-- storeMessageToWire id;
  match w with
  | inl _ => Ret tt
  | inr (wire, ch, author) => fanOut ch author wire
  end.

(** ** Sweeps *)

Definition sweepSession (account sid : string) (skipHeld : bool) : prog unit :=
  owed <-- do_ (UndeliveredMessages account);
  match owed with
  | None => Ret tt
  | Some owed =>
      skip <-- (if skipHeld then do_ HeldIDs else Ret ∅);
      each owed (λ p, each p.2 (λ m,
        if bool_decide (Id m ∈ skip) then Ret tt
        else n <-- sourceNames m;
             do_ (DispatchControl sid (deliverOp m (AuthorHandle m) n.1 n.2)) ;;; Ret tt))
  end.

Definition sweepAllLive : prog unit :=
  live <-- do_ LiveAgentSessions;
  each live (λ p, sweepSession p.1 p.2 true).

Definition pinOp (id : string) : prog (list AgentControl) :=
  w <-- storeMessageToWire id;
  match w with
  | inl _ => Ret []
  | inr (wire, _, _) => n <-- sourceNames wire;
                        Ret [deliverOp wire (AuthorHandle wire) n.1 n.2]
  end.

(** [false] is the returned error. *)
Definition sweepPins (agent sid : string) : prog bool :=
  channels <-- do_ (SweepChannels agent);
  match channels with
  | None => Ret false
  | Some channels =>
      ops <-- collect channels (λ ch,
                entries <-- do_ (PinnedEntries ch);
                match entries with
                | None => Ret []
                | Some entries => collect entries pinOp
                end);
      each ops (λ op, do_ (DispatchControl sid op) ;;; Ret tt) ;;;
      Ret true
  end.

Definition owedOp (agent : string) (m : Message) : prog (list AgentControl) :=
  w <-- storeMessageToWire (Id m);
  match w with
  | inl _ => do_ (ClearOwedMention agent (Id m)) ;;; Ret []
  | inr (wire, _, _) => n <-- sourceNames wire;
                        Ret [steerOp wire (AuthorHandle wire) n.1 n.2]
  end.

Definition sweepOwedMentions (agent sid : string) : prog bool :=
  owed <-- do_ (OwedMentions agent);
  match owed with
  | None => Ret false
  | Some owed =>
      ops <-- collect owed (λ p, collect p.2 (owedOp agent));
      each ops (λ op, do_ (DispatchControl sid op) ;;; Ret tt) ;;;
      Ret true
  end.

(** What [drainStarts] runs for one start edge. *)
Definition startSession (account sid : string) : prog unit :=
  sweepSession account sid true ;;;
  sweepPins account sid ;;;
  sweepOwedMentions account sid ;;;
  Ret tt.

(** ** The recovery scan *)

Definition scanBatchLimit : nat := 256.

Definition markUnlessHeld (id : string) : prog bool :=
  held <-- do_ (MessageHeld id);
  if held : bool then Ret true else do_ (MarkMentionsRouted id).

Definition scanRow (id : string) : prog unit :=
  held <-- do_ (MessageHeld id);
  if held : bool then Ret tt
  else
    w <-- storeMessageToWire id;
    match w with
    | inl _ => Ret tt
    | inr (wire, ch, author) =>
        routeMentionsFor ch author wire ;;;
        routeAskAnswerFor ch wire ;;;
        markUnlessHeld id ;;;
        Ret tt
    end.

(** The batch loop; [false] when the fuel runs out. *)
Fixpoint scan_loop (fuel : nat) (afterSeq : Z) : prog bool :=
  match fuel with
  | O => Ret false
  | S fuel =>
      batch <-- do_ (UnroutedMentionMessages afterSeq scanBatchLimit);
      match batch with
      | None => Ret true
      | Some batch =>
          each batch (λ row, scanRow row.1) ;;;
          if bool_decide (length batch < scanBatchLimit)%nat then Ret true
          else scan_loop fuel (match last batch with Some row => row.2 | None => afterSeq end)
      end
  end.

Definition scanMissedMentions (fuel : nat) : prog bool := scan_loop fuel 0.

(** * Behaviours *)

Inductive event : Type :=
| Ev (X : Type) (c : call X) (x : X).
Arguments Ev {X} c x.

(** What an answer must satisfy: Go ranges over a set in some order. *)
Definition valid {X} (c : call X) : X → Prop :=
  match c with
  | RangeSet s => λ order, order ≡ₚ elements s
  | _ => λ _, True
  end.

(** [runs p tr a]: [p] can make the calls of [tr], get its answers and return [a]. *)
Fixpoint runs {A} (p : prog A) (tr : list event) (a : A) : Prop :=
  match p with
  | Ret b => tr = [] ∧ a = b
  | @Vis _ X c k => ∃ (x : X) tr', tr = Ev c x :: tr' ∧ valid c x ∧ runs (k x) tr' a
  end.

Lemma runs_bind {A B} (p : prog A) (f : A → prog B) tr b :
  runs (bind p f) tr b ↔ ∃ tr1 tr2 a, tr = tr1 ++ tr2 ∧ runs p tr1 a ∧ runs (f a) tr2 b.
Proof.
  revert tr. induction p as [a|X c k IH]; intros tr; simpl.
  - split; [intros H; by exists [], tr, a|]. by intros (? & ? & ? & -> & [-> ->] & H).
  - split.
    + intros (x & tr' & -> & Hv & (tr1 & tr2 & a & -> & H1 & H2)%IH).
      exists (Ev c x :: tr1), tr2, a. eauto 8.
    + intros (tr1 & tr2 & a & -> & (x & tr' & -> & Hv & H1) & H2).
      exists x, (tr' ++ tr2). split_and!; [done|done|]. apply IH. eauto 6.
Qed.

Lemma runs_each {A} (l : list A) (body : A → prog unit) tr :
  runs (each l body) tr tt ↔
  ∃ trs, tr = concat trs ∧ Forall2 (λ x t, runs (body x) t tt) l trs.
Proof.
  revert tr. induction l as [|x l IH]; intros tr; simpl.
  - split; [intros [-> _]; by exists []|]. intros (trs & -> & H). by inversion H.
  - rewrite runs_bind. split.
    + intros (tr1 & tr2 & [] & -> & H1 & (trs & -> & H2)%IH).
      exists (tr1 :: trs). split; [done|]. by constructor.
    + intros (trs & -> & H). inversion H; subst. simpl. do 2 eexists. exists tt.
      split_and!; [done|done|]. apply IH. eauto.
Qed.

(** Every call that a program can make satisfies [P]. *)
Fixpoint calls {A} (P : ∀ X, call X → Prop) (p : prog A) : Prop :=
  match p with
  | Ret _ => True
  | @Vis _ X c k => P X c ∧ ∀ x, calls P (k x)
  end.

Definition sat (P : ∀ X, call X → Prop) (ev : event) : Prop :=
  match ev with @Ev X c _ => P X c end.

Lemma calls_runs {A} P (p : prog A) tr a : calls P p → runs p tr a → Forall (sat P) tr.
Proof.
  revert tr. induction p as [b|X c k IH]; intros tr; simpl.
  - intros _ [-> _]. constructor.
  - intros [Hc Hk] (x & tr' & -> & _ & H). constructor; [exact Hc|]. eapply IH; eauto.
Qed.

Lemma calls_bind {A B} P (p : prog A) (f : A → prog B) :
  calls P p → (∀ a, calls P (f a)) → calls P (bind p f).
Proof. induction p as [a|X c k IH]; simpl; [auto|]. intros [? ?] ?. split; auto. Qed.

Lemma calls_each {A} P (l : list A) body :
  (∀ x, calls P (body x)) → calls P (each l body).
Proof. intros H. induction l; simpl; [done|]. by apply calls_bind. Qed.

(** What a mention or answer pass may call: it dispatches steers only, and leaves
    the routed mark alone. *)
Definition routing_call (X : Type) (c : call X) : Prop :=
  match c with
  | DispatchControl _ op => kind op = Steer
  | MarkMentionsRouted _ | UnroutedMentionMessages _ _ => False
  | _ => True
  end.

(** What the subscriber loop may call: it dispatches delivers only. *)
Definition subscriber_call (X : Type) (c : call X) : Prop :=
  match c with
  | DispatchControl _ op => kind op = Deliver
  | MarkMentionsRouted _ => False
  | _ => True
  end.

Ltac calls_auto :=
  repeat first
    [ progress simpl
    | apply calls_bind; [|intros ?]
    | apply calls_each; intros ?
    | match goal with
      | |- _ ∧ _ => split
      | |- ∀ _, _ => intros ?
      | |- context [match ?x with _ => _ end] => destruct x
      end
    | done ].

Lemma names_calls (P : ∀ X, call X → Prop) m :
  P _ (TopicChannelNames (TopicId m)) → calls P (sourceNames m).
Proof. intros. unfold sourceNames. calls_auto. Qed.

Lemma steer_calls sid m from : calls routing_call (dispatchSteerTo sid m from).
Proof.
  unfold dispatchSteerTo, gatedDispatch. apply calls_bind; [by apply names_calls|]. calls_auto.
Qed.

Lemma mention1_calls ch m a : calls routing_call (routeMention1 ch m a).
Proof.
  unfold routeMention1. simpl. split; [done|]. intros [sid|]; [apply steer_calls|].
  simpl. split; [done|]. intros [[]|]; simpl; [done| |done].
  split; [done|]. intros []; simpl; [|done]. split; [done|]. intros [sid|]; [|by simpl].
  apply calls_bind; [apply steer_calls|]. by simpl.
Qed.

Lemma resolve_calls (P : ∀ X, call X → Prop) ch author handles :
  P _ (ChannelAgentMembers ch author) → P _ (ResolveOwner author) →
  calls P (resolveMentioned ch author handles).
Proof. intros. unfold resolveMentioned. simpl. split; [done|]. intros [?|]; simpl; [|done].
  split; [done|]. by intros [?|]. Qed.

Lemma mentions_calls ch author m : calls routing_call (routeMentionsFor ch author m).
Proof.
  unfold routeMentionsFor. destruct (mentionHandles m); [done|].
  apply calls_bind; [by apply resolve_calls|]. intros ms. simpl. split; [done|]. intros order.
  apply calls_bind; [apply calls_each, mention1_calls|done].
Qed.

Lemma ask_calls ch m : calls routing_call (routeAskAnswerFor ch m).
Proof.
  unfold routeAskAnswerFor. destruct (askAnswerTarget m); [|done]. simpl. split; [done|].
  intros [[]|]; simpl; [done| |done]. split; [done|]. intros []; simpl; [|done].
  split; [done|]. intros [sid|]; [apply steer_calls|done].
Qed.

Lemma fanOut1_calls m ms a : calls subscriber_call (fanOut1 m ms a).
Proof.
  unfold fanOut1. case_bool_decide; [done|]. simpl. split; [done|]. intros [sid|]; [|done].
  unfold dispatchTo, gatedDispatch. apply calls_bind; [by apply names_calls|]. calls_auto.
Qed.

(** ** What a mention pass owes *)

(** The mentioned set is what the answers of the two reads determine. *)
Inductive resolved (ch author : string) (m : Message) (tr : list event) : gset string → Prop :=
| resolved_no_handles : mentionHandles m = [] → resolved ch author m tr ∅
| resolved_no_members :
    Ev (ChannelAgentMembers ch author) None ∈ tr → resolved ch author m tr ∅
| resolved_no_owner : Ev (ResolveOwner author) None ∈ tr → resolved ch author m tr ∅
| resolved_set members owner :
    Ev (ChannelAgentMembers ch author) (Some members) ∈ tr →
    Ev (ResolveOwner author) (Some owner) ∈ tr →
    resolved ch author m tr
      (list_to_set (concat (map (handle_members members owner) (mentionHandles m)))).

(** A control of kind [k] for [m] went to a session that [a] resolved to. *)
Definition controlled (k : opKind) (m : Message) (a : string) (tr : list event) : Prop :=
  ∃ sid op ok, Ev (SessionForAccount a) (Some sid) ∈ tr ∧ Ev (DispatchControl sid op) ok ∈ tr
    ∧ kind op = k ∧ op_message op = m.

Definition woken (a : string) (tr : list event) : Prop := Ev (WakeAgent a) tt ∈ tr.

(** Every event of the trace satisfies [G] of the events before it. *)
Definition guarded (G : list event → event → Prop) (tr : list event) : Prop :=
  ∀ pre ev post, tr = pre ++ ev :: post → G pre ev.

Section guarded.
Context (G : list event → event → Prop).

Lemma guarded_app tr1 tr2 :
  (∀ k pre ev, G pre ev → G (k ++ pre) ev) →
  guarded G tr1 → guarded G tr2 → guarded G (tr1 ++ tr2).
Proof.
  intros HG H1 H2 pre ev post E. apply app_eq_inv in E as [(k & -> & E)|(k & -> & E)].
  - destruct k as [|ev' k]; simpl in E.
    + rewrite app_nil_r in *. specialize (H2 [] ev post (eq_sym E)).
      apply (HG pre) in H2. by rewrite app_nil_r in H2.
    + injection E as <- E. exact (H1 pre ev k eq_refl).
  - apply HG. exact (H2 k ev post E).
Qed.

Lemma guarded_trivial tr : Forall (λ ev, ∀ pre, G pre ev) tr → guarded G tr.
Proof. rewrite Forall_forall. intros H pre ev post ->. apply H. set_solver. Qed.

Lemma guarded_snoc tr ev : guarded G tr → G tr ev → guarded G (tr ++ [ev]).
Proof.
  intros H1 H2 pre ev' post E. destruct post as [|x post _] using rev_ind.
  - apply app_inj_2 in E as [<- [= <-]]; done.
  - rewrite app_comm_cons, app_assoc in E. apply app_inj_2 in E as [-> _]; [|done]. eauto.
Qed.

End guarded.

Definition wake_of (ev : event) : option string :=
  match ev with @Ev X c _ => match c with WakeAgent a => Some a | _ => None end end.

(** A wake comes after the sweep-set check of its agent and, when the agent is
    outside the sweep set, after the attempt to record the owed mention. *)
Definition wake_guard (ch : string) (m : Message) (pre : list event) (ev : event) : Prop :=
  ∀ a, wake_of ev = Some a →
  ∃ r, Ev (InSweepSet a ch) r ∈ pre
    ∧ (r = Some false → ∃ ok, Ev (RecordOwedMention a ch (Id m)) ok ∈ pre).

Definition durable_first (ch : string) (m : Message) (tr : list event) : Prop :=
  guarded (wake_guard ch m) tr.

Lemma durable_first_app ch m tr1 tr2 :
  durable_first ch m tr1 → durable_first ch m tr2 → durable_first ch m (tr1 ++ tr2).
Proof.
  apply guarded_app. intros k pre ev H a Ha. destruct (H a Ha) as (r & Hr & Hk).
  exists r. split; [set_solver|]. intros Hf. destruct (Hk Hf) as [ok Hok]. exists ok. set_solver.
Qed.

Definition not_wake (X : Type) (c : call X) : Prop :=
  match c with WakeAgent _ => False | _ => True end.

Lemma durable_no_wake ch m tr : Forall (sat not_wake) tr → durable_first ch m tr.
Proof.
  intros H. apply guarded_trivial. eapply Forall_impl; [exact H|].
  intros [X c x] Hs pre a Ha. destruct c; done.
Qed.

Lemma durable_last ch m tr a r :
  Forall (sat not_wake) tr → Ev (InSweepSet a ch) r ∈ tr →
  (r = Some false → ∃ ok, Ev (RecordOwedMention a ch (Id m)) ok ∈ tr) →
  durable_first ch m (tr ++ [Ev (WakeAgent a) tt]).
Proof.
  intros HN Hr Hk. apply guarded_snoc; [by apply durable_no_wake|].
  intros a' [= <-]. eauto.
Qed.

(** A control sent to a session: no wake, and the dispatch is in the trace. *)
Lemma dispatch_spec (k : opKind) (mk : Message → string → string → string → AgentControl)
    sid m from tr :
  (∀ ch topic, kind (mk m from ch topic) = k ∧ op_message (mk m from ch topic) = m) →
  runs (n <-- sourceNames m; gatedDispatch sid (mk m from n.1 n.2)) tr tt →
  Forall (sat not_wake) tr
  ∧ ∃ op ok, Ev (DispatchControl sid op) ok ∈ tr ∧ kind op = k ∧ op_message op = m.
Proof.
  intros Hmk. rewrite runs_bind. intros (tr1 & tr2 & [ch t] & -> & H1 & H2). simpl in H2.
  destruct H2 as (ok & tr' & -> & _ & -> & _). split.
  - apply Forall_app. split; [|by repeat constructor].
    eapply calls_runs; [by apply names_calls|exact H1].
  - exists (mk m from ch t), ok. split; [set_solver|apply Hmk].
Qed.

Lemma steer_spec sid m from tr :
  runs (dispatchSteerTo sid m from) tr tt →
  Forall (sat not_wake) tr
  ∧ ∃ op ok, Ev (DispatchControl sid op) ok ∈ tr ∧ kind op = Steer ∧ op_message op = m.
Proof. by apply (dispatch_spec Steer steerOp). Qed.

Lemma deliver_spec sid m from tr :
  runs (dispatchTo sid m from) tr tt →
  Forall (sat not_wake) tr
  ∧ ∃ op ok, Ev (DispatchControl sid op) ok ∈ tr ∧ kind op = Deliver ∧ op_message op = m.
Proof. by apply (dispatch_spec Deliver deliverOp). Qed.

(** The recheck after a recorded owed mention. *)
Definition recheck (m : Message) (a : string) : prog unit :=
  live <-- do_ (SessionForAccount a);
  match live with
  | Some sid => dispatchSteerTo sid m (AuthorHandle m)
  | None => Ret tt
  end.

Lemma recheck_no_wake m a tr : runs (recheck m a) tr tt → Forall (sat not_wake) tr.
Proof.
  unfold recheck. simpl. intros ([sid|] & tr' & -> & _ & H); constructor; try done.
  - by apply steer_spec in H as [? _].
  - by destruct H as [-> _].
Qed.

(** The record-then-recheck branch shared by mentions and answers. *)
Lemma record_spec ch m a r tr :
  runs (match r with
        | Some false =>
            ok <-- do_ (RecordOwedMention a ch (Id m)); if ok : bool then recheck m a else Ret tt
        | _ => Ret tt
        end) tr tt →
  Forall (sat not_wake) tr
  ∧ (r = Some false → ∃ ok, Ev (RecordOwedMention a ch (Id m)) ok ∈ tr).
Proof.
  destruct r as [[]|]; cbn [bind do_ runs]; try by intros [-> _].
  intros (ok & tr' & -> & _ & H). split; [|intros _; exists ok; set_solver].
  constructor; [done|]. destruct ok; [by eapply recheck_no_wake|by destruct H as [-> _]].
Qed.

Lemma mention1_spec ch m a tr :
  runs (routeMention1 ch m a) tr tt →
  durable_first ch m tr ∧ (controlled Steer m a tr ∨ woken a tr).
Proof.
  unfold routeMention1. fold (recheck m a). cbn [bind do_ runs].
  intros ([sid|] & tr' & -> & _ & H).
  - apply steer_spec in H as (HN & op & ok & Hop & Hk & Hm). split.
    + apply durable_no_wake. by constructor.
    + left. exists sid, op, ok. set_solver.
  - cbn [runs] in H. destruct H as (r & tr'' & -> & _ & H).
    apply runs_bind in H as (tr1 & tr2 & [] & -> & H1 & H2).
    cbn [wake do_ runs] in H2. destruct H2 as ([] & ? & -> & _ & -> & _).
    apply record_spec in H1 as [HN HK]. split.
    + rewrite !app_comm_cons. apply (durable_last _ _ _ _ r).
      * by repeat constructor.
      * set_solver.
      * intros Hr. destruct (HK Hr) as [ok Hok]. exists ok. set_solver.
    + right. unfold woken. set_solver.
Qed.

Lemma reached_mono k m a tr tr' :
  tr ⊆ tr' → controlled k m a tr ∨ woken a tr → controlled k m a tr' ∨ woken a tr'.
Proof.
  intros H [(sid & op & ok & H1 & H2 & H3)|Hw]; [left|right; by apply H].
  exists sid, op, ok. auto.
Qed.

Lemma each_mention ch m order tr :
  runs (each order (routeMention1 ch m)) tr tt →
  durable_first ch m tr ∧ ∀ a, a ∈ order → controlled Steer m a tr ∨ woken a tr.
Proof.
  revert tr. induction order as [|b order IH]; intros tr; cbn [each].
  - intros [-> _]. split; [by apply durable_no_wake|]. by intros a ?%not_elem_of_nil.
  - rewrite runs_bind. intros (tr1 & tr2 & [] & -> & [H1 H2]%mention1_spec & [H3 H4]%IH).
    split; [by apply durable_first_app|]. intros a [->|Ha]%elem_of_cons.
    + eapply reached_mono; [|exact H2]. set_solver.
    + eapply reached_mono; [|by apply H4]. set_solver.
Qed.

Lemma resolve_spec ch author m tr ms :
  runs (resolveMentioned ch author (mentionHandles m)) tr ms →
  resolved ch author m tr ms ∧ Forall (sat not_wake) tr.
Proof.
  intros H. split; [|eapply calls_runs; [|exact H]; by apply resolve_calls].
  revert H. unfold resolveMentioned. cbn [bind do_ runs].
  intros ([members|] & tr' & -> & _ & H); cbn [runs] in H.
  - destruct H as ([owner|] & tr'' & -> & _ & H); destruct H as [-> ->].
    + eapply resolved_set; set_solver.
    + apply resolved_no_owner. set_solver.
  - destruct H as [-> ->]. apply resolved_no_members. set_solver.
Qed.

Lemma resolved_mono ch author m tr tr' ms :
  tr ⊆ tr' → resolved ch author m tr ms → resolved ch author m tr' ms.
Proof.
  intros H [?|?|?|????]; [by apply resolved_no_handles|apply resolved_no_members|
    apply resolved_no_owner|eapply resolved_set]; auto.
Qed.

Lemma mentions_spec ch author m tr ms :
  runs (routeMentionsFor ch author m) tr ms →
  resolved ch author m tr ms ∧ durable_first ch m tr
  ∧ ∀ a, a ∈ ms → controlled Steer m a tr ∨ woken a tr.
Proof.
  unfold routeMentionsFor. destruct (mentionHandles m) as [|h hs] eqn:EH.
  - intros [-> ->]. split_and!; [by apply resolved_no_handles|by apply durable_no_wake|set_solver].
  - rewrite <- EH. rewrite runs_bind. intros (tr1 & tr2 & M & -> & H1 & H2).
    apply resolve_spec in H1 as [HR HW]. cbn [bind do_ runs] in H2.
    destruct H2 as (order & tr3 & -> & Hv & H2). cbn [valid] in Hv.
    apply runs_bind in H2 as (tr4 & tr5 & [] & -> & [HD HS]%each_mention & [-> ->]).
    rewrite app_nil_r. split_and!.
    + eapply resolved_mono; [|exact HR]. set_solver.
    + apply durable_first_app; [by apply durable_no_wake|].
      apply (durable_first_app _ _ [_]); [|done]. apply durable_no_wake. by repeat constructor.
    + intros a Ha. eapply reached_mono; [|apply HS]; [set_solver|].
      rewrite Hv. by apply elem_of_elements.
Qed.

(** The answer pass checks the asker's sweep set, and records the owed answer when
    the asker is outside it. *)
Definition answer_owed (ch : string) (m : Message) (tr : list event) : Prop :=
  ∀ asker, askAnswerTarget m = Some asker →
  ∃ r, Ev (InSweepSet asker ch) r ∈ tr
    ∧ (r = Some false → ∃ ok, Ev (RecordOwedMention asker ch (Id m)) ok ∈ tr).

Lemma ask_spec ch m tr : runs (routeAskAnswerFor ch m) tr tt → answer_owed ch m tr.
Proof.
  unfold routeAskAnswerFor, answer_owed. destruct (askAnswerTarget m) as [asker|]; [|done].
  intros H a [= <-]. fold (recheck m asker) in H. cbn [bind do_ runs] in H.
  destruct H as (r & tr' & -> & _ & H). apply record_spec in H as [_ HK].
  exists r. split; [set_solver|]. intros Hr. destruct (HK Hr) as [ok Hok]. exists ok. set_solver.
Qed.

(** The session a dispatch event names. *)
Definition dispatch_sid (ev : event) : option string :=
  match ev with @Ev X c _ => match c with DispatchControl sid _ => Some sid | _ => None end end.

Lemma names_no_dispatch m tr r ev :
  runs (sourceNames m) tr r → ev ∈ tr → dispatch_sid ev = None.
Proof.
  unfold sourceNames. case_bool_decide; cbn [bind do_ runs].
  - intros [-> _] H'. by apply not_elem_of_nil in H'.
  - intros (x & tr' & -> & _ & -> & _) ->%list_elem_of_singleton. done.
Qed.

Lemma fanOut1_spec m ms a tr :
  runs (fanOut1 m ms a) tr tt →
  (a ∉ ms → controlled Deliver m a tr ∨ woken a tr)
  ∧ ∀ ev sid, ev ∈ tr → dispatch_sid ev = Some sid →
      a ∉ ms ∧ Ev (SessionForAccount a) (Some sid) ∈ tr.
Proof.
  unfold fanOut1. case_bool_decide as Hd.
  { intros [-> _]. split; [done|]. by intros ?? ?%not_elem_of_nil. }
  cbn [bind do_ runs]. intros ([sid|] & tr' & -> & _ & H).
  - split.
    + intros _. left. apply deliver_spec in H as (_ & op & ok & H1 & H2 & H3).
      exists sid, op, ok. set_solver.
    + intros ev sid' Hev Hs. split; [done|]. assert (sid' = sid) as ->; [|set_solver].
      apply elem_of_cons in Hev as [->|Hev]; [done|].
      unfold dispatchTo in H. apply runs_bind in H as (t1 & t2 & n & -> & H1 & H2).
      cbn [gatedDispatch bind do_ runs] in H2. destruct H2 as (ok & t3 & -> & _ & -> & _).
      apply elem_of_app in Hev as [Hev|Hev].
      * by rewrite (names_no_dispatch _ _ _ _ H1 Hev) in Hs.
      * apply list_elem_of_singleton in Hev as ->. by injection Hs.
  - cbn [wake do_ runs] in H. destruct H as ([] & t & -> & _ & -> & _).
    split; [intros _; right; unfold woken; set_solver|].
    intros ev sid' Hev Hs. apply elem_of_cons in Hev as [->|Hev]; [done|].
    apply list_elem_of_singleton in Hev as ->. done.
Qed.

Lemma each_fanOut1 m ms rs tr :
  runs (each rs (fanOut1 m ms)) tr tt →
  (∀ a, a ∈ rs → a ∉ ms → controlled Deliver m a tr ∨ woken a tr)
  ∧ ∀ ev sid, ev ∈ tr → dispatch_sid ev = Some sid →
      ∃ a, a ∈ rs ∧ a ∉ ms ∧ Ev (SessionForAccount a) (Some sid) ∈ tr.
Proof.
  revert tr. induction rs as [|b rs IH]; intros tr; cbn [each].
  - intros [-> _]. split; [by intros a ?%not_elem_of_nil|by intros ?? ?%not_elem_of_nil].
  - rewrite runs_bind. intros (tr1 & tr2 & [] & -> & [H1 H2]%fanOut1_spec & [H3 H4]%IH). split.
    + intros a [->|Ha]%elem_of_cons Hn.
      * eapply reached_mono; [|by apply H1]. set_solver.
      * eapply reached_mono; [|by apply H3]. set_solver.
    + intros ev sid [Hev|Hev]%elem_of_app Hs.
      * destruct (H2 ev sid Hev Hs). exists b. set_solver.
      * destruct (H4 ev sid Hev Hs) as (a & ?). exists a. set_solver.
Qed.

(** ** The scan *)

(** The batch read's contract: rows ascend, above the cursor and up to the last
    sequence the table holds. *)
Definition batch_ok (maxSeq : Z) (ev : event) : Prop :=
  match ev with
  | @Ev X c x =>
      match c in call X return X → Prop with
      | UnroutedMentionMessages afterSeq _ => λ r,
          match r with
          | Some batch => StronglySorted Z.lt (map snd batch)
                          ∧ Forall (λ row, afterSeq < row.2 ≤ maxSeq)%Z batch
          | None => True
          end
      | _ => λ _, True
      end x
  end.

(** An ascending list's last element is far above its lower bound. *)
Lemma ascending_last (lo : Z) (l : list Z) x :
  StronglySorted Z.lt (l ++ [x]) → Forall (λ z, lo < z)%Z (l ++ [x]) →
  (lo + Z.of_nat (S (length l)) ≤ x)%Z.
Proof.
  revert lo. induction l as [|z l IH]; intros lo HS HF; simpl in *.
  - inversion HF. lia.
  - inversion HS as [|?? HS' HA]; subst. inversion HF; subst.
    specialize (IH z HS' HA). lia.
Qed.

Lemma scan_loop_returns maxSeq fuel afterSeq tr r :
  runs (scan_loop fuel afterSeq) tr r → Forall (batch_ok maxSeq) tr →
  (afterSeq ≤ maxSeq)%Z → (maxSeq - afterSeq < 256 * Z.of_nat fuel)%Z → r = true.
Proof.
  revert afterSeq tr. induction fuel as [|fuel IH]; intros afterSeq tr; [lia|].
  cbn [scan_loop bind do_ runs]. intros (batch & tr' & -> & _ & H) HF Hle Hf.
  inversion HF as [|?? HB HF']; subst. destruct batch as [batch|]; [|by destruct H as [_ ->]].
  apply runs_bind in H as (tr1 & tr2 & [] & -> & _ & H).
  apply Forall_app in HF' as [_ HF']. cbn [batch_ok] in HB. destruct HB as [HS HB].
  case_bool_decide as Hlen; [by destruct H as [_ ->]|].
  destruct batch as [|row batch _] using rev_ind; [simpl in Hlen; unfold scanBatchLimit in Hlen; lia|].
  rewrite last_snoc in H. rewrite map_app in HS. simpl in HS.
  assert (Forall (λ z, afterSeq < z)%Z (map snd batch ++ [row.2])) as HA.
  { apply Forall_app in HB as [HB1 HB2]. rewrite Forall_app. split.
    - rewrite Forall_fmap. eapply Forall_impl; [exact HB1|]. simpl. intros ? [? _]. done.
    - inversion HB2 as [|?? [? _] _]; subst. by repeat constructor. }
  pose proof (ascending_last _ _ _ HS HA) as HL. rewrite length_fmap in HL.
  apply Forall_app in HB as [_ HB]. inversion HB as [|?? [_ Hmax] _]; subst.
  rewrite length_app in Hlen. simpl in Hlen. unfold scanBatchLimit in Hlen.
  eapply IH; [exact H|done|lia|lia].
Qed.

(** A mark of the scan comes right after the registry answered that the message is
    not held. *)
Definition mark_guard (pre : list event) (ev : event) : Prop :=
  match ev with
  | @Ev X c _ =>
      match c with
      | MarkMentionsRouted id => last pre = Some (Ev (MessageHeld id) false)
      | _ => True
      end
  end.

Lemma mark_guard_app tr1 tr2 :
  guarded mark_guard tr1 → guarded mark_guard tr2 → guarded mark_guard (tr1 ++ tr2).
Proof.
  apply guarded_app. intros k pre [X [] x] H; simpl in *; try done.
  rewrite last_app, H. done.
Qed.

Lemma mark_guard_routing tr : Forall (sat routing_call) tr → guarded mark_guard tr.
Proof.
  intros H. apply guarded_trivial. eapply Forall_impl; [exact H|].
  intros [X [] x] Hs pre; done.
Qed.

Lemma store_calls (P : ∀ X, call X → Prop) id :
  P _ (MessageByID id) → P _ (MessageChannel id) → calls P (storeMessageToWire id).
Proof. intros. unfold storeMessageToWire. calls_auto. Qed.

(** What the scan does with one row: it dispatches steers only and reads no batch. *)
Definition row_call (X : Type) (c : call X) : Prop :=
  match c with
  | DispatchControl _ op => kind op = Steer
  | UnroutedMentionMessages _ _ => False
  | _ => True
  end.

Lemma routing_row tr : Forall (sat routing_call) tr → Forall (sat row_call) tr.
Proof. intros H. eapply Forall_impl; [exact H|]. intros [X [] x]; simpl; done. Qed.

(** A row of a batch is left to the settle gate, unreadable, or marked. *)
Definition handled (id : string) (tr : list event) : Prop :=
  Ev (MessageHeld id) true ∈ tr
  ∨ (∃ e, Ev (MessageByID id) (inl e) ∈ tr) ∨ (∃ e, Ev (MessageChannel id) (inl e) ∈ tr)
  ∨ ∃ ok, Ev (MarkMentionsRouted id) ok ∈ tr.

Lemma handled_mono id tr tr' : tr ⊆ tr' → handled id tr → handled id tr'.
Proof. intros H [?|[[e ?]|[[e ?]|[ok ?]]]]; unfold handled; eauto 8. Qed.

Lemma store_spec id tr w :
  runs (storeMessageToWire id) tr w →
  match w with
  | inl _ => (∃ e, Ev (MessageByID id) (inl e) ∈ tr) ∨ (∃ e, Ev (MessageChannel id) (inl e) ∈ tr)
  | inr _ => True
  end.
Proof.
  unfold storeMessageToWire. cbn [bind do_ runs].
  intros ([e|m] & tr' & -> & _ & H); cbn [runs] in H.
  - destruct H as [-> ->]. left. exists e. set_solver.
  - destruct H as ([e|ch] & tr'' & -> & _ & -> & ->); [|done]. right. exists e. set_solver.
Qed.

Lemma mark_spec id tr ok :
  runs (markUnlessHeld id) tr ok →
  guarded mark_guard tr ∧ Forall (sat row_call) tr ∧ handled id tr.
Proof.
  unfold markUnlessHeld. cbn [bind do_ runs]. intros ([] & tr' & -> & _ & H); cbn [runs] in H.
  - destruct H as [-> _]. split_and!; [|by repeat constructor|left; set_solver].
    apply guarded_trivial. by repeat constructor.
  - destruct H as (b & ? & -> & _ & -> & _). split_and!; [|by repeat constructor|].
    + apply (guarded_snoc _ [_]); [|done]. apply guarded_trivial. by repeat constructor.
    + right; right; right. exists b. set_solver.
Qed.

Lemma scanRow_spec id tr :
  runs (scanRow id) tr tt →
  guarded mark_guard tr ∧ Forall (sat row_call) tr ∧ handled id tr.
Proof.
  unfold scanRow. cbn [bind do_ runs]. intros ([] & tr' & -> & _ & H).
  { destruct H as [-> _]. split_and!; [|by repeat constructor|left; set_solver].
    apply guarded_trivial. by repeat constructor. }
  apply runs_bind in H as (t1 & t2 & w & -> & H1 & H2).
  assert (Forall (sat routing_call) (Ev (MessageHeld id) false :: t1)) as HR.
  { constructor; [done|]. eapply calls_runs; [|exact H1]. by apply store_calls. }
  pose proof (store_spec _ _ _ H1) as HS. rewrite app_comm_cons.
  destruct w as [e|[[wire ch] author]].
  - destruct H2 as [-> _]. rewrite app_nil_r.
    split_and!; [by apply mark_guard_routing|by apply routing_row|].
    apply (handled_mono _ t1); [set_solver|]. unfold handled. tauto.
  - apply runs_bind in H2 as (t3 & t4 & ms & -> & H3 & H4).
    apply runs_bind in H4 as (t5 & t6 & [] & -> & H5 & H6).
    apply runs_bind in H6 as (t7 & t8 & ok & -> & H7 & [-> _]).
    apply mark_spec in H7 as (HG & HC & HH). rewrite app_nil_r.
    pose proof (calls_runs _ _ _ _ (mentions_calls _ _ _) H3) as HR3.
    pose proof (calls_runs _ _ _ _ (ask_calls _ _) H5) as HR5.
    split_and!.
    + do 3 (apply mark_guard_app; [by apply mark_guard_routing|]). done.
    + rewrite !Forall_app. split_and!; [by apply routing_row..|done].
    + eapply handled_mono; [|exact HH]. set_solver.
Qed.

(** The rows of a batch read. *)
Definition batch_of (ev : event) : option (list (string * Z)) :=
  match ev with
  | @Ev X c x =>
      match c in call X return X → option (list (string * Z)) with
      | UnroutedMentionMessages _ _ => λ r, r
      | _ => λ _, None
      end x
  end.

(** Every row of every batch of the trace is handled in it. *)
Definition rows_handled (tr : list event) : Prop :=
  ∀ ev batch row, ev ∈ tr → batch_of ev = Some batch → row ∈ batch → handled row.1 tr.

Definition steers_only (X : Type) (c : call X) : Prop :=
  match c with DispatchControl _ op => kind op = Steer | _ => True end.

Lemma row_steers tr : Forall (sat row_call) tr → Forall (sat steers_only) tr.
Proof. intros H. eapply Forall_impl; [exact H|]. intros [X [] x]; simpl; done. Qed.

Lemma row_no_batch tr ev : Forall (sat row_call) tr → ev ∈ tr → batch_of ev = None.
Proof. rewrite Forall_forall. intros H Hin. specialize (H _ Hin). by destruct ev as [X [] x]. Qed.

Lemma each_scanRow (batch : list (string * Z)) tr :
  runs (each batch (λ row, scanRow row.1)) tr tt →
  guarded mark_guard tr ∧ Forall (sat row_call) tr ∧ ∀ row, row ∈ batch → handled row.1 tr.
Proof.
  revert tr. induction batch as [|row batch IH]; intros tr; cbn [each].
  - intros [-> _]. split_and!; [by apply guarded_trivial|done|by intros ? ?%not_elem_of_nil].
  - rewrite runs_bind.
    intros (t1 & t2 & [] & -> & (H1 & H2 & H3)%scanRow_spec & (H4 & H5 & H6)%IH).
    split_and!; [by apply mark_guard_app|by apply Forall_app|].
    intros row' [->|Hr]%elem_of_cons.
    + eapply handled_mono; [|exact H3]. set_solver.
    + eapply handled_mono; [|by apply H6]. set_solver.
Qed.

Lemma scan_loop_spec fuel afterSeq tr r :
  runs (scan_loop fuel afterSeq) tr r →
  guarded mark_guard tr ∧ Forall (sat steers_only) tr ∧ rows_handled tr.
Proof.
  revert afterSeq tr. induction fuel as [|fuel IH]; intros afterSeq tr; cbn [scan_loop].
  { intros [-> _]. split_and!; [by apply guarded_trivial|done|by intros ??? ?%not_elem_of_nil]. }
  cbn [bind do_ runs]. intros (batch & tr' & -> & _ & H). destruct batch as [batch|].
  2: { destruct H as [-> _]. split_and!; [|by repeat constructor|].
       - apply guarded_trivial. by repeat constructor.
       - by intros ev b row ->%list_elem_of_singleton. }
  apply runs_bind in H as (t1 & t2 & [] & -> & (HG & HC & HH)%each_scanRow & H).
  assert (guarded mark_guard t2 ∧ Forall (sat steers_only) t2 ∧ rows_handled t2) as (H1 & H2 & H3).
  { case_bool_decide; [|by eapply IH]. destruct H as [-> _].
    split_and!; [by apply guarded_trivial|done|by intros ??? ?%not_elem_of_nil]. }
  split_and!.
  - apply (mark_guard_app [_]); [apply guarded_trivial; by repeat constructor|].
    by apply mark_guard_app.
  - constructor; [done|]. apply Forall_app. split; [by apply row_steers|done].
  - intros ev b row [->|[Hev|Hev]%elem_of_app]%elem_of_cons Hb Hr.
    + simpl in Hb. injection Hb as ->. eapply handled_mono; [|by apply HH]. set_solver.
    + by rewrite (row_no_batch _ _ HC Hev) in Hb.
    + eapply handled_mono; [|by eapply H3]. set_solver.
Qed.

(** ** A concrete environment *)

(** The trace and the result of a program when every call is answered by one
    function of the call. *)
Fixpoint exec {A} (answer : ∀ X, call X → X) (p : prog A) : list event * A :=
  match p with
  | Ret a => ([], a)
  | @Vis _ X c k => let r := exec answer (k (answer X c)) in (Ev c (answer X c) :: r.1, r.2)
  end.

Lemma exec_runs {A} (answer : ∀ X, call X → X) (p : prog A) :
  (∀ X (c : call X), valid c (answer X c)) → runs p (exec answer p).1 (exec answer p).2.
Proof.
  intros HV. induction p as [a|X c k IH]; simpl; [done|].
  exists (answer X c), (exec answer (k (answer X c))).1. auto.
Qed.

(** One channel: [bob] is offline and outside the sweep set, [carol] is live. *)
Definition demo_message : Message :=
  MkMessage "m1" "topic" "alice" "alice" 10 1 [BlockText (lit "hi @Bob and @users")].

Definition demo_answer (X : Type) (c : call X) : X :=
  match c in call X return X with
  | MessageByID _ => inr demo_message
  | MessageChannel _ => inr "ch"
  | IsAgentAccount _ => inr false
  | TopicChannelNames _ => None
  | ChannelAgentMembers _ _ => Some [MkMember "bob" "u" (lit "u") (lit "bob")]
  | ResolveOwner _ => Some "u"
  | SubscribedAgents _ _ => Some ["bob"; "carol"]
  | UndeliveredMessages _ => None
  | OwedMentions _ => None
  | SweepChannels _ => None
  | PinnedEntries _ => None
  | InSweepSet _ _ => Some false
  | RecordOwedMention _ _ _ => true
  | ClearOwedMention _ _ => true
  | MarkMentionsRouted _ => true
  | UnroutedMentionMessages afterSeq _ =>
      if bool_decide (afterSeq < 3)%Z then Some [("m1", 3%Z)] else Some []
  | SessionForAccount a => if bool_decide (a = "carol") then Some "s-carol" else None
  | LiveAgentSessions => [("carol", "s-carol")]
  | DispatchControl _ _ => true
  | WakeAgent _ => tt
  | HeldIDs => ∅
  | MessageHeld _ => false
  | Hold _ _ _ _ => tt
  | RangeSet s => elements s
  end.

Lemma demo_valid X (c : call X) : valid c (demo_answer X c).
Proof. destruct c; try exact I. cbn [valid demo_answer]. reflexivity. Qed.

(** * Claims *)

(** C13. Fan-out of a message, whatever the store, the resolver and the dispatcher
    answer and however the answers change during the pass.  The pass routes the
    mentions, then the answer target, then marks the message routed, then serves the
    subscribers.  Every mentioned agent that the reads determine is steered at a
    session it resolved to or woken; a wake of a mentioned agent comes after its
    sweep-set check and, outside the sweep set, after the attempt to record the owed
    mention; an answer's asker outside the sweep set gets its owed record.  Mention
    and answer passes only steer, the subscriber loop only delivers, every subscriber
    that is not mentioned is delivered to or woken, and a deliver only goes to the
    session of a subscriber that is not mentioned. *)
Theorem fan_out_contract ch author m tr :
  runs (fanOut ch author m) tr tt →
  ∃ mentioned t1 t2 marked recipients t3,
    tr = t1 ++ t2 ++ Ev (MarkMentionsRouted (Id m)) marked
                     :: Ev (SubscribedAgents ch author) recipients :: t3
    ∧ resolved ch author m t1 mentioned
    ∧ durable_first ch m t1
    ∧ (∀ a, a ∈ mentioned → controlled Steer m a t1 ∨ woken a t1)
    ∧ answer_owed ch m t2
    ∧ Forall (sat routing_call) (t1 ++ t2)
    ∧ Forall (sat subscriber_call) t3
    ∧ (∀ a, a ∈ default [] recipients → a ∉ mentioned → controlled Deliver m a t3 ∨ woken a t3)
    ∧ ∀ ev sid, ev ∈ t3 → dispatch_sid ev = Some sid →
        ∃ a, a ∈ default [] recipients ∧ a ∉ mentioned ∧ Ev (SessionForAccount a) (Some sid) ∈ t3.
Proof.
  unfold fanOut. rewrite runs_bind. intros (t1 & t & ms & -> & H1 & H).
  apply runs_bind in H as (t2 & t' & [] & -> & H2 & H). cbn [bind do_ runs] in H.
  destruct H as (marked & t'' & -> & _ & rs & t3 & -> & _ & H).
  destruct (mentions_spec _ _ _ _ _ H1) as (HR & HD & HS).
  exists ms, t1, t2, marked, rs, t3. refine (conj eq_refl (conj HR (conj HD (conj HS _)))).
  split; [by apply ask_spec|]. split.
  { apply Forall_app. split; [exact (calls_runs _ _ _ _ (mentions_calls _ _ _) H1)|].
    exact (calls_runs _ _ _ _ (ask_calls _ _) H2). }
  destruct rs as [rs|]; simpl.
  - split; [|by apply each_fanOut1].
    eapply calls_runs; [|exact H]. apply calls_each, fanOut1_calls.
  - destruct H as [-> _]. split_and!; [done|by intros ? ?%not_elem_of_nil|by intros ?? ?%not_elem_of_nil].
Qed.

(** The pass over the demo message: [bob] is woken after his owed record, [carol] gets
    the only deliver. *)
Lemma fan_out_contract_witness :
  let tr := (exec demo_answer (fanOut "ch" "alice" demo_message)).1 in
  omap wake_of tr = ["bob"] ∧ omap dispatch_sid tr = ["s-carol"]
  ∧ ∃ mentioned t1 t2 marked recipients t3,
      tr = t1 ++ t2 ++ Ev (MarkMentionsRouted "m1") marked
                       :: Ev (SubscribedAgents "ch" "alice") recipients :: t3
      ∧ resolved "ch" "alice" demo_message t1 mentioned
      ∧ durable_first "ch" demo_message t1.
Proof.
  intros tr. split; [vm_compute; reflexivity|]. split; [vm_compute; reflexivity|].
  destruct (fan_out_contract "ch" "alice" demo_message tr)
    as (ms & t1 & t2 & mk & rs & t3 & E & HR & HD & _).
  - pose proof (exec_runs demo_answer (fanOut "ch" "alice" demo_message) demo_valid) as H.
    destruct (exec demo_answer (fanOut "ch" "alice" demo_message)).2. exact H.
  - exists ms, t1, t2, mk, rs, t3. exact (conj E (conj HR HD)).
Defined.

(** C14. The recovery scan, when the store's batches ascend above the cursor it is
    given and stay below [maxSeq]: it ends (each full batch of 256 moves the cursor by
    at least 256, so [maxSeq / 256 + 1] batches are enough), every row of every batch
    it read is held, unreadable or marked, a message is marked only right after the
    registry said it is not held, and only steers are dispatched. *)
Theorem scan_recovers maxSeq fuel tr r :
  runs (scanMissedMentions fuel) tr r → Forall (batch_ok maxSeq) tr →
  (0 ≤ maxSeq < 256 * Z.of_nat fuel)%Z →
  r = true ∧ rows_handled tr ∧ guarded mark_guard tr ∧ Forall (sat steers_only) tr.
Proof.
  intros H HB Hf. destruct (scan_loop_spec _ _ _ _ H) as (H1 & H2 & H3).
  refine (conj _ (conj H3 (conj H1 H2))).
  eapply scan_loop_returns; [exact H|exact HB|lia|lia].
Qed.

(** A table whose only unrouted row is the demo message: one short batch. *)
Lemma scan_recovers_witness :
  let tr := (exec demo_answer (scanMissedMentions 1)).1 in
  (exec demo_answer (scanMissedMentions 1)).2 = true
  ∧ rows_handled tr ∧ guarded mark_guard tr ∧ Forall (sat steers_only) tr.
Proof.
  intros tr. apply (scan_recovers 3 1 tr); [apply exec_runs, demo_valid| |lia].
  vm_compute. repeat constructor; discriminate.
Defined.

End DeliveryRoute.
