(* ===== verification/DeliveryLoop.v ===== *)
(** Message delivery, the consumer's loop and the wakes of lost sessions
    ([src/go/internal/delivery/settle.go], [consumer.go]).

    Hooks of the hub and of the fabric run on their own goroutines: they append to a
    queue or set a flag under the mutex and signal the [notify] channel, which holds
    at most one signal.  One loop receives the signal and drains every queue in a
    fixed order.  A state of this model is the mutex-protected state, the channel, the
    loop's position and the goroutines inside hooks.  A hook takes two steps, its
    section under the mutex and its later send on the channel, and anything may
    happen between them; a step of the loop is one iteration of a drain.  Times and
    durations are nanoseconds. *)
From stdpp Require Import base gmap strings list.
From Stdlib Require Import ZArith Lia.
From S2P Require Import Prelude Wire DeliveryHold.

Open Scope Z_scope.

Module DeliveryLoop.

Import DeliveryHold.

(** * Data *)

Record startEvent := StartEvent { se_session : string; se_account : string }.

Record lostEvent := LostEvent { le_account : string; errored : bool; deferred : bool }.

Record erroredBackoff := Backoff { strikes : Z; last : Z; pending : bool }.

Definition erroredWakeBaseDelay : Z := 30 * 10 ^ 9.
Definition erroredWakeMaxDelay : Z := 15 * 60 * 10 ^ 9.
Definition erroredWakeResetAfter : Z := 30 * 60 * 10 ^ 9.

(** The fields of [Consumer] that the loop drains besides the settle gate, and the
    deferred wakes that [afterFunc] has scheduled and not yet run. *)
Record Wakes := MkWakes {
  startQueue : list startEvent;
  lostQueue : list lostEvent;
  owedRewake : bool;
  recoveryPending : bool;
  erroredWakes : gmap string erroredBackoff;
  timers : list (string * Z);
}.

Definition NewWakes : Wakes := MkWakes [] [] false false ∅ [].

(** * Hooks *)

Definition OnSessionStarted (sid account : string) (w : Wakes) : Wakes * bool :=
  if bool_decide (sid = "" ∨ account = "") then (w, false)
  else (MkWakes (startQueue w ++ [StartEvent sid account]) (lostQueue w) (owedRewake w)
          (recoveryPending w) (erroredWakes w) (timers w), true).

Definition enqueueLost (ev : lostEvent) (w : Wakes) : Wakes * bool :=
  (MkWakes (startQueue w) (lostQueue w ++ [ev]) (owedRewake w)
     (recoveryPending w) (erroredWakes w) (timers w), true).

Definition OnSessionLost (sid account : string) (err : bool) (w : Wakes) : Wakes * bool :=
  if bool_decide (sid = "" ∨ account = "") then (w, false)
  else enqueueLost (LostEvent account err false) w.

Definition OnRunnerReady (w : Wakes) : Wakes * bool :=
  (MkWakes (startQueue w) (lostQueue w) true (recoveryPending w) (erroredWakes w) (timers w), true).

Definition requestRecovery (w : Wakes) : Wakes * bool :=
  (MkWakes (startQueue w) (lostQueue w) (owedRewake w) true (erroredWakes w) (timers w), true).

(** The function a timer runs: the [i]th scheduled wake fires. *)
Definition fireTimer (i : nat) (w : Wakes) : Wakes * bool :=
  match timers w !! i with
  | None => (w, false)
  | Some (account, _) =>
      enqueueLost (LostEvent account true true)
        (MkWakes (startQueue w) (lostQueue w) (owedRewake w) (recoveryPending w)
           (erroredWakes w) (delete i (timers w)))
  end.

(** * Backoff *)

Definition erroredWakeDelay (strikes : Z) : Z :=
  if bool_decide (strikes = 0) then 0
  else if bool_decide (10 < strikes) then erroredWakeMaxDelay
  else Z.min (Z.shiftl erroredWakeBaseDelay (strikes - 1)) erroredWakeMaxDelay.

Definition erroredWakePending (account : string) (w : Wakes) : bool :=
  match erroredWakes w !! account with Some b => pending b | None => false end.

Definition set_erroredWakes (m : gmap string erroredBackoff) (w : Wakes) : Wakes :=
  MkWakes (startQueue w) (lostQueue w) (owedRewake w) (recoveryPending w) m (timers w).

Definition nextErroredWakeDelay (now : Z) (account : string) (w : Wakes) : Wakes * Z :=
  let b0 := match erroredWakes w !! account with
            | Some b => if bool_decide (erroredWakeResetAfter ≤ now - last b)
                        then Backoff 0 0 false else b
            | None => Backoff 0 0 false
            end in
  let delay := erroredWakeDelay (strikes b0) in
  (set_erroredWakes
     (<[account := Backoff (strikes b0 + 1) now (bool_decide (0 < delay))]> (erroredWakes w)) w,
   delay).

Definition clearPendingErroredWake (account : string) (w : Wakes) : Wakes :=
  match erroredWakes w !! account with
  | Some b => set_erroredWakes (<[account := Backoff (strikes b) (last b) false]> (erroredWakes w)) w
  | None => w
  end.

Definition pruneErroredWakes (now : Z) (w : Wakes) : Wakes :=
  set_erroredWakes
    (filter (λ p, ¬ (pending p.2 = false ∧ erroredWakeResetAfter ≤ now - last p.2)) (erroredWakes w))
    w.

(** [hasOwedWork], from the answers of its two reads ([None] is an error). *)
Definition hasOwedWork (undelivered mentions : option nat) : bool :=
  match undelivered with
  | None => true
  | Some n => if bool_decide (0 < n)%nat then true
              else match mentions with None => true | Some k => bool_decide (0 < k)%nat end
  end.

(** What one iteration of [drainLost] does. *)
Inductive lostAction := LostSkip | LostDefer (delay : Z) | LostWake.

Definition set_lostQueue (q : list lostEvent) (w : Wakes) : Wakes :=
  MkWakes (startQueue w) q (owedRewake w) (recoveryPending w) (erroredWakes w) (timers w).

Definition afterFunc (account : string) (delay : Z) (w : Wakes) : Wakes :=
  MkWakes (startQueue w) (lostQueue w) (owedRewake w) (recoveryPending w) (erroredWakes w)
    (timers w ++ [(account, delay)]).

(** The part of the iteration after the queue and the owed-work check. *)
Definition lostWake (now : Z) (ev : lostEvent) (w : Wakes) : Wakes * lostAction :=
  let a := le_account ev in
  if errored ev && negb (deferred ev) then
    let '(w1, delay) := nextErroredWakeDelay now a w in
    if bool_decide (0 < delay) then (afterFunc a delay w1, LostDefer delay)
    else (w1, LostWake)
  else if deferred ev then (clearPendingErroredWake a w, LostWake)
  else (w, LostWake).

Definition handleLost (now : Z) (owed : bool) (ev : lostEvent) (w : Wakes) : Wakes * lostAction :=
  let a := le_account ev in
  if errored ev && negb (deferred ev) && erroredWakePending a w then (w, LostSkip)
  else if errored ev && negb owed then
    ((if deferred ev then clearPendingErroredWake a w else w), LostSkip)
  else lostWake now ev w.

(** One iteration of [drainLost]; [None] when the queue is empty. *)
Definition drainLost1 (now : Z) (owed : bool) (w : Wakes) : option (Wakes * (string * lostAction)) :=
  match lostQueue w with
  | [] => None
  | ev :: q =>
      let r := handleLost now owed ev (set_lostQueue q w) in
      Some (r.1, (le_account ev, r.2))
  end.

(** One iteration of [drainStarts]: the session to sweep. *)
Definition drainStarts1 (w : Wakes) : option (Wakes * startEvent) :=
  match startQueue w with
  | [] => None
  | ev :: q => Some (MkWakes q (lostQueue w) (owedRewake w) (recoveryPending w)
                       (erroredWakes w) (timers w), ev)
  end.

(** The flag halves of [drainOwedRewake] and [drainRecovery]. *)
Definition takeOwedRewake (w : Wakes) : Wakes * bool :=
  (MkWakes (startQueue w) (lostQueue w) false (recoveryPending w) (erroredWakes w) (timers w),
   owedRewake w).

Definition takeRecovery (w : Wakes) : Wakes * bool :=
  (MkWakes (startQueue w) (lostQueue w) (owedRewake w) false (erroredWakes w) (timers w),
   recoveryPending w).

(** [drainRecovery] up to its sweeps: with a pass owed, dead sessions lose their
    marks and stale backoffs go. *)
Definition drainRecovery (now : Z) (live : gset string) (s : Settles) (w : Wakes) :
    Settles * Wakes * bool :=
  let '(w1, run) := takeRecovery w in
  if run then (pruneSettles live s, pruneErroredWakes now w1, true) else (s, w1, false).

(** * The loop *)

(** Where [Run] is: at its select, in the floor tick's own [requestRecovery] between
    its unlock and its send, or in one of the five drains. *)
Inductive phase := AtSelect | FloorSend | InSettles | InStarts | InLost | InRewake | InRecovery.

(** The hooks, with their arguments and the clock they read. *)
Inductive hook :=
| HHold (sid msg : string) (tp ten : string) (at_ seq : Z)
| HSettled (now : Z) (sid : string) (st : AgentSessionState) (seq : Z)
| HReaped (sids : list string)
| HStarted (sid account : string)
| HLost (sid account : string) (err : bool)
| HTimer (i : nat)
| HRunnerReady
| HReconnect.

(** What the body of a hook does, in order: its section under the mutex, and the
    send on [notify]. *)
Inductive op := OLock (h : hook) | OSend.

Definition hook_body (h : hook) : list op := [OLock h; OSend].

(** The section of a hook under the mutex, and whether the hook goes on to send. *)
Definition critical (h : hook) (s : Settles) (w : Wakes) : Settles * Wakes * bool :=
  match h with
  | HHold sid msg tp ten at_ seq => let r := hold sid msg tp ten at_ seq s in (r.1, w, r.2)
  | HSettled now sid st seq => let r := OnSessionSettled now sid st seq s in (r.1, w, r.2)
  | HReaped sids => (OnSessionsReaped sids s, w, false)
  | HStarted sid account => let r := OnSessionStarted sid account w in (s, r.1, r.2)
  | HLost sid account err => let r := OnSessionLost sid account err w in (s, r.1, r.2)
  | HTimer i => let r := fireTimer i w in (s, r.1, r.2)
  | HRunnerReady => let r := OnRunnerReady w in (s, r.1, r.2)
  | HReconnect => let r := requestRecovery w in (s, r.1, r.2)
  end.

Record Consumer := MkConsumer {
  gate : Settles;
  wakes : Wakes;
  notify : bool;
  pc : phase;
  goroutines : gmap nat (list op);  (** what each running hook has left to do *)
}.

Definition NewConsumer : Consumer := MkConsumer NewSettles NewWakes false AtSelect ∅.

Definition goto (c : Consumer) (p : phase) : Consumer :=
  MkConsumer (gate c) (wakes c) (notify c) p (goroutines c).

(** Goroutine [i] does [o] and has [rest] left.  A full channel drops the send: the
    signal is there either way. *)
Definition hook_op (i : nat) (o : op) (rest : list op) (c : Consumer) : Consumer :=
  match o with
  | OLock h =>
      let '(s, w, send) := critical h (gate c) (wakes c) in
      MkConsumer s w (notify c) (pc c)
        (if send then <[i := rest]> (goroutines c) else delete i (goroutines c))
  | OSend =>
      MkConsumer (gate c) (wakes c) true (pc c)
        (match rest with [] => delete i (goroutines c) | _ => <[i := rest]> (goroutines c) end)
  end.

Inductive step : Consumer → Consumer → Prop :=
(* hooks, at any time *)
| SHook c i h :
    goroutines c !! i = None →
    step c (MkConsumer (gate c) (wakes c) (notify c) (pc c) (<[i := hook_body h]> (goroutines c)))
| SHookOp c i o rest :
    goroutines c !! i = Some (o :: rest) → step c (hook_op i o rest c)
(* the loop *)
| SFloor c :
    pc c = AtSelect →
    step c (MkConsumer (gate c) (requestRecovery (wakes c)).1 (notify c) FloorSend (goroutines c))
| SFloorSend c :
    pc c = FloorSend → step c (MkConsumer (gate c) (wakes c) true AtSelect (goroutines c))
| SNotified c :
    pc c = AtSelect → notify c = true →
    step c (MkConsumer (gate c) (wakes c) false InSettles (goroutines c))
| SDrainSettle c s fired :
    pc c = InSettles → drainSettle1 (gate c) = Some (s, fired) →
    step c (MkConsumer s (wakes c) (notify c) InSettles (goroutines c))
| SSettlesDone c :
    pc c = InSettles → drainSettle1 (gate c) = None → step c (goto c InStarts)
| SDrainStart c w ev :
    pc c = InStarts → drainStarts1 (wakes c) = Some (w, ev) →
    step c (MkConsumer (gate c) w (notify c) InStarts (goroutines c))
| SStartsDone c :
    pc c = InStarts → drainStarts1 (wakes c) = None → step c (goto c InLost)
| SDrainLost c now owed w act :
    pc c = InLost → drainLost1 now owed (wakes c) = Some (w, act) →
    step c (MkConsumer (gate c) w (notify c) InLost (goroutines c))
| SLostDone c now owed :
    pc c = InLost → drainLost1 now owed (wakes c) = None → step c (goto c InRewake)
| SRewake c w run :
    pc c = InRewake → takeOwedRewake (wakes c) = (w, run) →
    step c (MkConsumer (gate c) w (notify c) InRecovery (goroutines c))
| SRecovery c now live s w run :
    pc c = InRecovery → drainRecovery now live (gate c) (wakes c) = (s, w, run) →
    step c (MkConsumer s w (notify c) AtSelect (goroutines c)).

Inductive reachable : Consumer → Prop :=
| reachable_init : reachable NewConsumer
| reachable_step c c' : reachable c → step c c' → reachable c'.

(** * No lost wakeup *)

Definition rank (p : phase) : nat :=
  match p with
  | InSettles => 0 | InStarts => 1 | InLost => 2 | InRewake => 3 | InRecovery => 4 | AtSelect | FloorSend => 5
  end.

(** Work queued for a drain. *)
Definition gate_work (s : Settles) (p : phase) : Prop :=
  match p with InSettles => settleQueue s ≠ [] | _ => False end.

Definition wakes_work (w : Wakes) (p : phase) : Prop :=
  match p with
  | InStarts => startQueue w ≠ []
  | InLost => lostQueue w ≠ []
  | InRewake => owedRewake w = true
  | InRecovery => recoveryPending w = true
  | _ => False
  end.

(** A signal is there or on its way. *)
Definition signalled (c : Consumer) : Prop :=
  notify c = true ∨ pc c = FloorSend ∨ ∃ i, goroutines c !! i = Some [OSend].

(** Without one, only the current drain and the later ones have work. *)
Definition wakeup_inv (c : Consumer) : Prop :=
  signalled c ∨
  ∀ p, gate_work (gate c) p ∨ wakes_work (wakes c) p → (rank (pc c) ≤ rank p)%nat.

(** A running hook is at its beginning, or about to send. *)
Definition hooks_inv (c : Consumer) : Prop :=
  ∀ i g, goroutines c !! i = Some g → (∃ h, g = hook_body h) ∨ g = [OSend].

Lemma hold_signal sid msg tp ten at_ seq s :
  (hold sid msg tp ten at_ seq s).2 = true
  ∨ settleQueue (hold sid msg tp ten at_ seq s).1 = settleQueue s.
Proof. unfold hold. simpl. destruct (holdEligible _ _ _ _); auto. Qed.

Lemma settled_signal now sid st seq s :
  (OnSessionSettled now sid st seq s).2 = true
  ∨ settleQueue (OnSessionSettled now sid st seq s).1 = settleQueue s.
Proof. unfold OnSessionSettled. case_bool_decide; [by right|]. destruct (firesHeldDelivers st); auto. Qed.

Lemma started_signal sid a w :
  (OnSessionStarted sid a w).2 = true ∨ (OnSessionStarted sid a w).1 = w.
Proof. unfold OnSessionStarted. case_bool_decide; auto. Qed.

Lemma lost_signal sid a e w : (OnSessionLost sid a e w).2 = true ∨ (OnSessionLost sid a e w).1 = w.
Proof. unfold OnSessionLost. case_bool_decide; auto. Qed.

Lemma timer_signal i w : (fireTimer i w).2 = true ∨ (fireTimer i w).1 = w.
Proof. unfold fireTimer. destruct (timers w !! i) as [[? ?]|]; auto. Qed.

(** A section that is followed by no send queues nothing. *)
Lemma critical_silent h s w :
  (critical h s w).2 = false →
  settleQueue (critical h s w).1.1 = settleQueue s ∧ (critical h s w).1.2 = w.
Proof.
  destruct h as [sid msg tp ten at_ seq|now sid st seq|sids|sid a|sid a e|i| |]; cbn [critical fst snd]; intros E; try done.
  - destruct (hold_signal sid msg tp ten at_ seq s) as [E'|E']; [congruence|by split].
  - destruct (settled_signal now sid st seq s) as [E'|E']; [congruence|by split].
  - split; [apply reaped_queue|done].
  - destruct (started_signal sid a w) as [E'|E']; [congruence|by split].
  - destruct (lost_signal sid a e w) as [E'|E']; [congruence|by split].
  - destruct (timer_signal i w) as [E'|E']; [congruence|by split].
Qed.

(** The drains of the lost queue touch no other queue. *)
Definition same_queues (w w' : Wakes) : Prop :=
  startQueue w' = startQueue w ∧ lostQueue w' = lostQueue w
  ∧ owedRewake w' = owedRewake w ∧ recoveryPending w' = recoveryPending w.

Lemma clearPending_queues a w : same_queues w (clearPendingErroredWake a w).
Proof. unfold clearPendingErroredWake. by destruct (erroredWakes w !! a). Qed.

Lemma handleLost_queues now owed ev w : same_queues w (handleLost now owed ev w).1.
Proof.
  unfold handleLost, lostWake.
  destruct (errored ev && negb (deferred ev) && erroredWakePending (le_account ev) w); [done|].
  destruct (errored ev && negb owed); [destruct (deferred ev); [apply clearPending_queues|done]|].
  destruct (errored ev && negb (deferred ev)).
  - unfold nextErroredWakeDelay. by case_bool_decide.
  - destruct (deferred ev); [apply clearPending_queues|done].
Qed.

Lemma drainLost_queues now owed w w' act :
  drainLost1 now owed w = Some (w', act) →
  ∃ ev q, lostQueue w = ev :: q ∧ same_queues (set_lostQueue q w) w'.
Proof.
  unfold drainLost1. destruct (lostQueue w) as [|ev q]; [done|].
  intros [= <- _]. exists ev, q. split; [done|]. apply handleLost_queues.
Qed.

(** A step of the loop, from a drain to itself or to the next one. *)
Lemma loop_inv c s w p :
  wakeup_inv c →
  (∀ q, gate_work s q ∨ wakes_work w q →
        (gate_work (gate c) q ∨ wakes_work (wakes c) q)
        ∧ ((rank (pc c) ≤ rank q)%nat → (rank p ≤ rank q)%nat)) →
  pc c ≠ FloorSend →
  wakeup_inv (MkConsumer s w (notify c) p (goroutines c)).
Proof.
  intros H HQ HF. destruct H as [[H|[H|H]]|H]; [by left; left|done|by left; right; right|].
  right. simpl. intros q Hq. destruct (HQ q Hq) as [H1 H2]. auto.
Qed.

Lemma drainRecovery_spec now live s w s' w' run :
  drainRecovery now live s w = (s', w', run) →
  settleQueue s' = settleQueue s ∧ startQueue w' = startQueue w ∧ lostQueue w' = lostQueue w
  ∧ owedRewake w' = owedRewake w ∧ recoveryPending w' = false.
Proof. unfold drainRecovery. simpl. by destruct (recoveryPending w); intros [= <- <- _]. Qed.

(** The loop's own steps keep the invariant. *)
Ltac loop_step Hpc :=
  apply loop_inv; [done| |by rewrite Hpc]; rewrite Hpc; intros q;
  destruct q; simpl; intros [Hq|Hq]; try done; try congruence;
  (split; [first [by auto | left; congruence | right; congruence]|simpl; lia]).

(** Of a hook's two steps, the first queues work and leaves a sender behind, the
    second puts the signal there. *)
Lemma wakeup_hook_op c i o rest :
  hooks_inv c → goroutines c !! i = Some (o :: rest) →
  wakeup_inv c → hooks_inv (hook_op i o rest c) ∧ wakeup_inv (hook_op i o rest c).
Proof.
  intros HH Hi HI. destruct (HH i _ Hi) as [(h & E)|E]; injection E as -> ->; unfold hook_op.
  - destruct (critical h (gate c) (wakes c)) as [[s w] []] eqn:EC; split.
    + intros j g Hj. simpl in Hj. apply lookup_insert_Some in Hj as [[<- <-]|[_ Hj]]; [by right|by eapply HH].
    + left. right. right. exists i. apply lookup_insert_eq.
    + intros j g Hj. simpl in Hj. apply lookup_delete_Some in Hj as [_ Hj]. by eapply HH.
    + pose proof (critical_silent h (gate c) (wakes c)) as [EQ EW]; [by rewrite EC|];
      rewrite EC in EQ, EW; simpl in EQ, EW; subst w. destruct HI as [[H|[H|(j & Hj)]]|H].
      * by left; left.
      * by left; right; left.
      * left. right. right. exists j. simpl. rewrite lookup_delete_ne; [done|].
        intros <-. by rewrite Hi in Hj.
      * right. simpl. intros p [Hw|Hw]; apply H; [left|by right]. by destruct p; simpl in *; rewrite <- ?EQ.
  - split; [|by left; left]. intros j g Hj. simpl in Hj. apply lookup_delete_Some in Hj as [_ Hj]. by eapply HH.
Qed.

Lemma wakeup_step c c' :
  step c c' → hooks_inv c → wakeup_inv c → hooks_inv c' ∧ wakeup_inv c'.
Proof.
  destruct 1 as [c i h Hi|c i o rest Hi|c Hpc|c Hpc|c Hpc Hn|c s f Hpc HD|c Hpc HD|c w ev Hpc HD|c Hpc HD
    |c now owed w act Hpc HD|c now owed Hpc HD|c w run Hpc HD|c now live s w run Hpc HD]; intros HH HI;
    [|by apply wakeup_hook_op|(split; [exact HH|])..].
  - split.
    + intros j g Hj. simpl in Hj. apply lookup_insert_Some in Hj as [[<- <-]|[_ Hj]]; [left; by exists h|by eapply HH].
    + destruct HI as [[H|[H|(j & Hj)]]|H]; [by left; left|by left; right; left| |by right].
      left. right. right. exists j. simpl. rewrite lookup_insert_ne; [done|]. intros <-. congruence.
  - left. by right; left.
  - by left; left.
  - right. simpl. lia.
  - assert (settleQueue (gate c) ≠ []) by (intros E; unfold drainSettle1 in HD; by rewrite E in HD).
    loop_step Hpc.
  - unfold drainSettle1 in HD. destruct (settleQueue (gate c)) eqn:E; [|done]. loop_step Hpc.
  - unfold drainStarts1 in HD. destruct (startQueue (wakes c)) eqn:E; [done|].
    simplify_eq. loop_step Hpc.
  - unfold drainStarts1 in HD. destruct (startQueue (wakes c)) eqn:E; [|done]. loop_step Hpc.
  - apply drainLost_queues in HD as (ev & q0 & E & HS1 & HS2 & HS3 & HS4).
    simpl in *. loop_step Hpc.
  - unfold drainLost1 in HD. destruct (lostQueue (wakes c)) eqn:E; [|done]. loop_step Hpc.
  - injection HD as <- _. loop_step Hpc.
  - apply drainRecovery_spec in HD as (H1 & H2 & H3 & H4 & H5). loop_step Hpc.
Qed.

Lemma reachable_wakeup c : reachable c → hooks_inv c ∧ wakeup_inv c.
Proof.
  induction 1 as [|c c' _ [HH HI] HS]; [|by eapply wakeup_step].
  split; [by intros i g; simpl; rewrite lookup_empty|]. right. intros [] [H|H]; simpl in *; done.
Qed.

(** * Backoff of ERRORED wakes *)

(** The guarded shift is the mathematical doubling with a cap. *)
Lemma erroredWakeDelay_spec n :
  0 ≤ n →
  erroredWakeDelay n =
  if bool_decide (n = 0) then 0
  else Z.min (erroredWakeBaseDelay * 2 ^ (n - 1)) erroredWakeMaxDelay.
Proof.
  intros Hn. unfold erroredWakeDelay. case_bool_decide; [done|].
  case_bool_decide; [|by rewrite Z.shiftl_mul_pow2 by lia].
  assert (2 ^ 10 ≤ 2 ^ (n - 1)) by (apply Z.pow_le_mono_r; lia).
  unfold erroredWakeBaseDelay, erroredWakeMaxDelay. lia.
Qed.

Lemma erroredWakeDelay_bounds n :
  0 < n → erroredWakeBaseDelay ≤ erroredWakeDelay n ≤ erroredWakeMaxDelay.
Proof.
  intros Hn. rewrite erroredWakeDelay_spec by lia. rewrite bool_decide_eq_false_2 by lia.
  assert (2 ^ 0 ≤ 2 ^ (n - 1)) by (apply Z.pow_le_mono_r; lia).
  unfold erroredWakeBaseDelay, erroredWakeMaxDelay. lia.
Qed.

(** Deferred wakes of one account that are scheduled or queued. *)
Definition outstanding (a : string) (w : Wakes) : nat :=
  length (filter (λ t, t.1 = a) (timers w))
  + length (filter (λ ev, le_account ev = a ∧ deferred ev = true) (lostQueue w)).

Record backoff_inv (w : Wakes) : Prop := {
  inv_single : ∀ a, outstanding a w = if erroredWakePending a w then 1%nat else 0%nat;
  inv_delays : Forall (λ t, erroredWakeBaseDelay ≤ t.2 ≤ erroredWakeMaxDelay) (timers w);
  inv_deferred : Forall (λ ev, deferred ev = true → errored ev = true) (lostQueue w);
  inv_strikes : map_Forall (λ _ b, 0 ≤ strikes b) (erroredWakes w);
}.

Lemma backoff_same w w' :
  timers w' = timers w → lostQueue w' = lostQueue w → erroredWakes w' = erroredWakes w →
  backoff_inv w → backoff_inv w'.
Proof.
  intros E1 E2 E3 [H1 H2 H3 H4]. split; rewrite ?E1, ?E2, ?E3; try done.
  intros a. specialize (H1 a). unfold outstanding, erroredWakePending in *. by rewrite E1, E2, E3.
Qed.

Lemma backoff_lost a err w : backoff_inv w → backoff_inv (enqueueLost (LostEvent a err false) w).1.
Proof.
  intros [H1 H2 H3 H4]. split; simpl; try done.
  - intros b. specialize (H1 b). unfold outstanding, erroredWakePending in *. simpl.
    rewrite filter_app, length_app. simpl. rewrite filter_cons_False by (simpl; naive_solver).
    simpl. lia.
  - apply Forall_app. split; [done|]. by repeat constructor.
Qed.

Lemma backoff_timer i w : backoff_inv w → backoff_inv (fireTimer i w).1.
Proof.
  intros [H1 H2 H3 H4]. unfold fireTimer. destruct (timers w !! i) as [[a d]|] eqn:E; [|by split].
  apply list_elem_of_split_length in E as (l1 & l2 & ET & Hi). split; simpl; try done.
  - intros b. specialize (H1 b). unfold outstanding, erroredWakePending in *. simpl.
    rewrite ET, Hi, delete_middle. rewrite ET in H1.
    rewrite !filter_app, !length_app in *. simpl.
    destruct (decide (a = b)) as [->|Hne].
    + rewrite filter_cons_True in H1 by done. rewrite filter_cons_True by done. simpl in *. lia.
    + rewrite filter_cons_False in H1 by done. rewrite filter_cons_False by (simpl; naive_solver).
      simpl in *. lia.
  - rewrite ET, Hi, delete_middle. rewrite ET in H2.
    rewrite Forall_app, Forall_cons in H2. rewrite Forall_app. naive_solver.
  - apply Forall_app. split; [done|]. by repeat constructor.
Qed.

Lemma pending_clear a b w :
  erroredWakePending b (clearPendingErroredWake a w)
  = if decide (b = a) then false else erroredWakePending b w.
Proof.
  unfold erroredWakePending, clearPendingErroredWake.
  destruct (erroredWakes w !! a) as [bo|] eqn:E; simpl; case_decide; subst; try done.
  - by rewrite lookup_insert_eq.
  - by rewrite lookup_insert_ne.
  - by rewrite E.
Qed.

Lemma clearPending_keeps a w :
  timers (clearPendingErroredWake a w) = timers w
  ∧ (map_Forall (λ _ b, 0 ≤ strikes b) (erroredWakes w) →
     map_Forall (λ _ b, 0 ≤ strikes b) (erroredWakes (clearPendingErroredWake a w))).
Proof.
  unfold clearPendingErroredWake. destruct (erroredWakes w !! a) as [bo|] eqn:E; [|done].
  split; [done|]. intros H. apply map_Forall_insert_2; [exact (H _ _ E)|done].
Qed.

(** Popping an edge that is not deferred changes no count; popping a deferred one
    must come with the clearing of its account's flag. *)
Lemma backoff_pop_plain ev q w :
  lostQueue w = ev :: q → deferred ev = false → backoff_inv w → backoff_inv (set_lostQueue q w).
Proof.
  intros E Hd [H1 H2 H3 H4]. split; simpl; try done.
  - intros a. specialize (H1 a). unfold outstanding, erroredWakePending in *. simpl.
    rewrite E, filter_cons_False in H1 by (intros [_ ?]; congruence). done.
  - rewrite E in H3. by inversion H3.
Qed.

Lemma backoff_pop_deferred ev q w :
  lostQueue w = ev :: q → deferred ev = true → backoff_inv w →
  backoff_inv (clearPendingErroredWake (le_account ev) (set_lostQueue q w)).
Proof.
  intros E Hd [H1 H2 H3 H4].
  destruct (clearPending_queues (le_account ev) (set_lostQueue q w)) as (_ & EL & _).
  destruct (clearPending_keeps (le_account ev) (set_lostQueue q w)) as [ET EM].
  split; [| by rewrite ET|rewrite EL; simpl; rewrite E in H3; by inversion H3|by apply EM].
  intros a. specialize (H1 a). rewrite pending_clear. unfold outstanding in *.
  rewrite ET, EL. simpl. rewrite E in H1. unfold erroredWakePending in *. simpl.
  case_decide as Ha.
  - subst a. rewrite filter_cons_True in H1 by done. simpl in H1. case_match; [case_match|]; lia.
  - rewrite filter_cons_False in H1 by naive_solver. done.
Qed.

(** A strike that no deferred wake is pending for. *)
Lemma backoff_strike now a w :
  erroredWakePending a w = false → backoff_inv w →
  let r := nextErroredWakeDelay now a w in
  backoff_inv (if bool_decide (0 < r.2) then afterFunc a r.2 r.1 else r.1).
Proof.
  intros HP [H1 H2 H3 H4] r. subst r. unfold nextErroredWakeDelay. cbn [fst snd].
  set (b0 := match erroredWakes w !! a with Some b => _ | None => _ end).
  assert (0 ≤ strikes b0) as Hs.
  { subst b0. destruct (erroredWakes w !! a) as [b|] eqn:E; [|done].
    case_bool_decide; [done|]. exact (H4 _ _ E). }
  assert (map_Forall (λ _ b, 0 ≤ strikes b)
    (<[a := Backoff (strikes b0 + 1) now (bool_decide (0 < erroredWakeDelay (strikes b0)))]>
       (erroredWakes w))) as HM by (apply map_Forall_insert_2; [simpl; lia|done]).
  assert (∀ b, b ≠ a → outstanding b w = if erroredWakePending b w then 1%nat else 0%nat) as HO by auto.
  specialize (H1 a). rewrite HP in H1. case_bool_decide as Hd; (split; simpl; try done).
  - intros b. unfold outstanding, erroredWakePending in *. simpl.
    rewrite filter_app, length_app. destruct (decide (b = a)) as [->|Hne].
    + rewrite lookup_insert_eq, filter_cons_True by done. simpl. lia.
    + rewrite lookup_insert_ne, filter_cons_False by naive_solver. simpl. rewrite <- HO by done. lia.
  - apply Forall_app. split; [done|]. constructor; [|done]. simpl. apply erroredWakeDelay_bounds.
    destruct (decide (strikes b0 = 0)) as [E0|]; [rewrite E0 in Hd; vm_compute in Hd; done|lia].
  - intros b. unfold outstanding, erroredWakePending in *. simpl.
    destruct (decide (b = a)) as [->|Hne]; [rewrite lookup_insert_eq; simpl; lia|].
    rewrite lookup_insert_ne by done. auto.
Qed.

Lemma backoff_drain now owed w w' act :
  drainLost1 now owed w = Some (w', act) → backoff_inv w → backoff_inv w'.
Proof.
  unfold drainLost1. destruct (lostQueue w) as [|ev q] eqn:E; [done|].
  intros HD HI. assert (w' = (handleLost now owed ev (set_lostQueue q w)).1) as -> by congruence.
  clear HD. destruct (deferred ev) eqn:Hd.
  - pose proof (backoff_pop_deferred ev q w E Hd HI) as HC.
    assert (errored ev = true) as He.
    { pose proof (inv_deferred _ HI) as HF. rewrite E in HF. inversion HF; auto. }
    unfold handleLost, lostWake. rewrite Hd, He. simpl. by destruct owed.
  - apply (backoff_pop_plain ev q w E Hd) in HI. set (w1 := set_lostQueue q w) in *.
    unfold handleLost, lostWake. rewrite Hd. simpl. rewrite andb_true_r.
    destruct (errored ev); simpl; [|done].
    destruct (erroredWakePending (le_account ev) w1) eqn:HP; [done|].
    destruct owed; simpl; [|done].
    pose proof (backoff_strike now _ _ HP HI) as HS. simpl in HS.
    unfold nextErroredWakeDelay in *. simpl in *. by case_bool_decide.
Qed.

(** Pruning drops no pending backoff. *)
Lemma backoff_prune now w : backoff_inv w → backoff_inv (pruneErroredWakes now w).
Proof.
  intros [H1 H2 H3 H4]. split; simpl; try done.
  - intros a. specialize (H1 a). unfold outstanding in *. simpl. rewrite H1.
    unfold erroredWakePending. simpl. destruct (erroredWakes w !! a) as [b|] eqn:E.
    + destruct (decide (pending b = false ∧ erroredWakeResetAfter ≤ now - last b)) as [[Hp Hl]|Hn].
      * rewrite (proj2 (map_lookup_filter_None _ _ _)), Hp; [done|].
        right. intros x Hx. rewrite E in Hx. injection Hx as <-. simpl. tauto.
      * by rewrite (proj2 (map_lookup_filter_Some _ _ _ b)).
    + rewrite (proj2 (map_lookup_filter_None _ _ _)); [done|by left].
  - intros a b [Hb _]%map_lookup_filter_Some. exact (H4 _ _ Hb).
Qed.

Lemma backoff_critical h s w : backoff_inv w → backoff_inv (critical h s w).1.2.
Proof.
  intros HI. destruct h as [| | |sid a|sid a err|i| |]; simpl; try done; try (by apply (backoff_same w)).
  - unfold OnSessionStarted. case_bool_decide; [done|]. by apply (backoff_same w).
  - unfold OnSessionLost. case_bool_decide; [done|]. by apply backoff_lost.
  - by apply backoff_timer.
Qed.

Lemma backoff_step c c' : step c c' → backoff_inv (wakes c) → backoff_inv (wakes c').
Proof.
  destruct 1 as [|c i o rest Hi|c Hpc|c Hpc|c Hpc Hn|c s f Hpc HD|c Hpc HD|c w ev Hpc HD|c Hpc HD
    |c now owed w act Hpc HD|c now owed Hpc HD|c w run Hpc HD|c now live s w run Hpc HD]; intros HI;
    try (exact HI); simpl; try (by apply (backoff_same (wakes c))).
  - destruct o as [h|]; [|done]. apply (backoff_critical h (gate c)) in HI. unfold hook_op.
    by destruct (critical h (gate c) (wakes c)) as [[s w] send].
  - unfold drainStarts1 in HD. destruct (startQueue (wakes c)); [done|].
    injection HD as <- _. by apply (backoff_same (wakes c)).
  - by eapply backoff_drain.
  - injection HD as <- _. by apply (backoff_same (wakes c)).
  - unfold drainRecovery in HD. simpl in HD. destruct (recoveryPending (wakes c));
      injection HD as _ <- _; [apply backoff_prune|]; by apply (backoff_same (wakes c)).
Qed.

Lemma reachable_backoff c : reachable c → backoff_inv (wakes c).
Proof.
  induction 1 as [|c c' _ IH HS]; [|by eapply backoff_step].
  split; try done.
Qed.

(** ** A concrete run *)

(** An account errors twice with owed work: it is woken at once the first time; the
    second wake is deferred by 30 s. *)
Definition demo_consumer : Consumer :=
  MkConsumer NewSettles
    (MkWakes [] [] false false {[ "bob" := Backoff 2 5 true ]} [("bob", 30000000000)])
    false InLost ∅.

Lemma hook_runs c h c' :
  reachable c → goroutines c !! 0%nat = None →
  hook_op 0 OSend [] (hook_op 0 (OLock h) [OSend]
    (MkConsumer (gate c) (wakes c) (notify c) (pc c) (<[0%nat := hook_body h]> (goroutines c)))) = c' →
  goroutines (hook_op 0 (OLock h) [OSend]
    (MkConsumer (gate c) (wakes c) (notify c) (pc c) (<[0%nat := hook_body h]> (goroutines c)))) !! 0%nat
    = Some [OSend] →
  reachable c'.
Proof.
  intros R H0 <- HS. eapply reachable_step; [eapply reachable_step; [eapply reachable_step; [exact R|]|]|].
  - by apply (SHook _ 0 h).
  - apply SHookOp. apply lookup_insert_eq.
  - by apply SHookOp.
Qed.

Lemma demo_consumer_reachable : reachable demo_consumer.
Proof.
  pose proof reachable_init as R.
  eapply (hook_runs _ (HLost "s1" "bob" true)) in R; [|vm_compute; reflexivity..].
  eapply reachable_step in R; [|apply SNotified; reflexivity].
  eapply reachable_step in R; [|apply SSettlesDone; reflexivity].
  eapply reachable_step in R; [|apply SStartsDone; reflexivity].
  eapply reachable_step in R; [|eapply (SDrainLost _ 0 true); vm_compute; reflexivity].
  eapply (hook_runs _ (HLost "s2" "bob" true)) in R; [|vm_compute; reflexivity..].
  eapply reachable_step in R; [|eapply (SDrainLost _ 5 true); vm_compute; reflexivity].
  eapply reachable_step in R; [|apply (SLostDone _ 0 true); vm_compute; reflexivity].
  eapply reachable_step in R; [|eapply SRewake; vm_compute; reflexivity].
  eapply reachable_step in R; [|eapply (SRecovery _ 0 ∅); vm_compute; reflexivity].
  eapply reachable_step in R; [|apply SNotified; reflexivity].
  eapply reachable_step in R; [|apply SSettlesDone; reflexivity].
  eapply reachable_step in R; [|apply SStartsDone; reflexivity].
  vm_compute in R. exact R.
Qed.

(** The loop goes on to its select. *)
Lemma demo_idle_reachable : reachable (MkConsumer NewSettles (wakes demo_consumer) false AtSelect ∅).
Proof.
  pose proof demo_consumer_reachable as R.
  eapply reachable_step in R; [|apply (SLostDone _ 0 true); reflexivity].
  eapply reachable_step in R; [|eapply SRewake; reflexivity].
  eapply reachable_step in R; [|eapply (SRecovery _ 0 ∅); reflexivity].
  exact R.
Qed.

(** At the select no drain has work before it. *)
Lemma idle_empty c :
  pc c = AtSelect →
  (∀ p, gate_work (gate c) p ∨ wakes_work (wakes c) p → (rank (pc c) ≤ rank p)%nat) →
  settleQueue (gate c) = [] ∧ startQueue (wakes c) = [] ∧ lostQueue (wakes c) = []
  ∧ owedRewake (wakes c) = false ∧ recoveryPending (wakes c) = false.
Proof.
  intros Hpc H. rewrite Hpc in H.
  assert (∀ p, p ≠ AtSelect → p ≠ FloorSend → ¬ (gate_work (gate c) p ∨ wakes_work (wakes c) p)) as HN.
  { intros p Hp Hp' Hw. specialize (H p Hw). destruct p; simpl in *; try lia; done. }
  split_and!; [pose proof (HN InSettles)|pose proof (HN InStarts)|pose proof (HN InLost)
    |pose proof (HN InRewake)|pose proof (HN InRecovery)]; simpl in *.
  - destruct (settleQueue (gate c)); [done|]. exfalso. naive_solver.
  - destruct (startQueue (wakes c)); [done|]. exfalso. naive_solver.
  - destruct (lostQueue (wakes c)); [done|]. exfalso. naive_solver.
  - destruct (owedRewake (wakes c)); [|done]. exfalso. naive_solver.
  - destruct (recoveryPending (wakes c)); [|done]. exfalso. naive_solver.
Qed.

(** * Claims *)

(** C11. No wakeup is lost, whatever the interleaving of hooks, timers and drains,
    with each hook's section under the mutex and its later send two steps: when the
    loop waits at its select with no signal in the channel, either every queue is
    empty and no recovery or rewake is owed, or a hook that has queued work is about
    to send, and its next step puts the signal in the channel.  A signal sent while
    one is pending is dropped. *)
Theorem no_lost_wakeup c :
  reachable c → pc c = AtSelect → notify c = false →
  (settleQueue (gate c) = [] ∧ startQueue (wakes c) = [] ∧ lostQueue (wakes c) = []
   ∧ owedRewake (wakes c) = false ∧ recoveryPending (wakes c) = false)
  ∨ ∃ i, goroutines c !! i = Some [OSend]
      ∧ step c (MkConsumer (gate c) (wakes c) true AtSelect (delete i (goroutines c))).
Proof.
  intros R Hpc Hn. destruct (reachable_wakeup c R) as [_ [[H|[H|(i & Hi)]]|H]]; [congruence..| |].
  - right. exists i. split; [done|]. rewrite <- Hpc. by apply (SHookOp c i OSend []).
  - left. by apply idle_empty.
Qed.

(** After two losses the loop waits with every queue drained. *)
Lemma no_lost_wakeup_witness :
  settleQueue NewSettles = [] ∧ startQueue (wakes demo_consumer) = [] ∧ lostQueue (wakes demo_consumer) = []
  ∧ owedRewake (wakes demo_consumer) = false ∧ recoveryPending (wakes demo_consumer) = false.
Proof.
  destruct (no_lost_wakeup (MkConsumer NewSettles (wakes demo_consumer) false AtSelect ∅)) as [H|(i & Hi & _)];
    [apply demo_idle_reachable|reflexivity|reflexivity|exact H|].
  simpl in Hi. by rewrite lookup_empty in Hi.
Defined.

(** ERRORED wakes are spaced and never doubled: in every reachable state an account
    has at most one deferred wake scheduled or queued, exactly when its backoff says
    one is pending, each scheduled delay is between 30 s and 15 min, and an account
    that errors again within 15 min of when its last wake was due keeps its strikes:
    its next delay is the doubled, capped one. *)
Theorem errored_wakes_back_off c a :
  reachable c →
  outstanding a (wakes c) = (if erroredWakePending a (wakes c) then 1%nat else 0%nat)
  ∧ Forall (λ t, 30 * 10 ^ 9 ≤ t.2 ≤ 900 * 10 ^ 9) (timers (wakes c))
  ∧ ∀ b now, erroredWakes (wakes c) !! a = Some b → 0 < strikes b →
      now < last b + erroredWakeDelay (strikes b - 1) + 900 * 10 ^ 9 →
      (nextErroredWakeDelay now a (wakes c)).2
      = Z.min (30 * 10 ^ 9 * 2 ^ (strikes b - 1)) (900 * 10 ^ 9).
Proof.
  intros R. destruct (reachable_backoff c R) as [H1 H2 _ H4]. split; [done|].
  split; [exact H2|]. intros b now E Hs Hnow. unfold nextErroredWakeDelay. rewrite E.
  assert (erroredWakeDelay (strikes b - 1) ≤ 900 * 10 ^ 9) as Hd.
  { rewrite erroredWakeDelay_spec by lia. case_bool_decide; [lia|]. apply Z.le_min_r. }
  rewrite bool_decide_eq_false_2 by (unfold erroredWakeResetAfter; lia). simpl.
  rewrite erroredWakeDelay_spec by lia. by rewrite bool_decide_eq_false_2 by lia.
Qed.

(** [bob]'s deferred wake is the one scheduled; erroring a minute later, his next delay
    is a minute. *)
Lemma errored_wakes_back_off_witness :
  outstanding "bob" (wakes demo_consumer) = 1%nat
  ∧ (nextErroredWakeDelay 60000000000 "bob" (wakes demo_consumer)).2 = 60000000000.
Proof.
  destruct (errored_wakes_back_off demo_consumer "bob" demo_consumer_reachable) as (H1 & _ & H3).
  split; [exact H1|].
  apply (H3 (Backoff 2 5 true)); vm_compute; reflexivity.
Defined.

End DeliveryLoop.
