(* ===== verification/ControlLane.v ===== *)
(** The Runner's control lane ([src/go/internal/runner/gateway/control.go]).

    The Runner delivers control operations to an agent over a subscription.  Each
    operation gets a sequence number and is retained until the agent acknowledges it;
    a subscription drains the retained operations past the acknowledged cursor, a new
    subscription takes over from the old one, and a replay barrier holds live
    operations back.

    Each critical section of a session's mutex is one function on [controlSession].
    [Producer] puts them behind the session map.  The last part of the file is the
    system of one session: the critical sections and the drain loops of any number of
    subscriptions, interleaved.  A subscription's [wake] channel is named by the
    drainer that owns it; a critical section that signals or closes a channel says so
    in its result.  Sequence numbers are [uint64]. *)
From stdpp Require Import base gmap strings list sorting.
From Stdlib Require Import ZArith Lia.
From S2P Require Import Prelude Slices.

Open Scope Z_scope.

Module ControlLane.

(** * Data *)

(** The [control] oneof of an [AgentControl]; [Steer] and [Deliver] say whether they
    carry their message. *)
Inductive Control :=
| Prompt | Steer (hasMessage : bool) | Deliver (hasMessage : bool) | Config
| Replay | ReplayComplete | ForgeNotification | StartNow | NoControl.

Record AgentControl := MkControl {
  control : Control;
  body : string;
  ControlSeq : Z;
}.

Record retained := Retained { seq : Z; op : AgentControl }.

Record controlSession := MkSession {
  nextSeq : Z;
  ops : list retained;
  held : bool;
  sub : Z;
  wake : option nat;
  live : bool;
  retired : bool;
  cursor : Z;
  epoch : Z;
}.

Inductive laneErr :=
| ErrNoAgent | errEmptyControlVariant | errRetentionFull | errNoBoundSession.

Definition maxRetainedOps : nat := Z.to_nat 4096.

Definition representable (o : AgentControl) : bool :=
  match control o with
  | Replay | Config => false
  | Steer m => m
  | Deliver m => m
  | NoControl => false
  | _ => true
  end.

Definition replayPath (o : AgentControl) : bool :=
  match control o with ReplayComplete | Replay => true | _ => false end.

Definition stamp (o : AgentControl) (n : Z) : AgentControl := MkControl (control o) (body o) n.

(** * Critical sections of one session *)

(** [Bind]'s fresh state. *)
Definition newSession (e : Z) : controlSession :=
  MkSession 0 [] false 0 None false false 0 e.

(** [send] under the lock.  The flag says whether [signalLocked] runs. *)
Definition send_locked (o : AgentControl) (requireLive : bool) (s : controlSession)
    : result laneErr (controlSession * bool) :=
  if requireLive && negb (live s) then Err ErrNoAgent
  else if bool_decide (maxRetainedOps ≤ length (ops s))%nat && negb (replayPath o)
  then Err errRetentionFull
  else
    let n := u64 (nextSeq s + 1) in
    Ok (MkSession n (ops s ++ [Retained n (stamp o n)]) (held s) (sub s) (wake s) (live s)
          (retired s) (cursor s) (epoch s),
        negb (held s) || replayPath o).

(** [Retire] under the lock; the channel it closes. *)
Definition retire_locked (s : controlSession) : controlSession * option nat :=
  (MkSession (nextSeq s) [] (held s) (u64 (sub s + 1)) None false true (cursor s) (epoch s),
   wake s).

(** The renumbered operations of [Restart], from [n] on. *)
Fixpoint renumber (n : Z) (l : list retained) : list retained :=
  match l with
  | [] => []
  | r :: l =>
      if replayPath (op r) then renumber n l
      else Retained n (stamp (op r) n) :: renumber (n + 1) l
  end.

Definition restart_locked (e : Z) (first : AgentControl) (s : controlSession)
    : controlSession * option nat :=
  let l := Retained 1 (stamp first 1) :: renumber 2 (ops s) in
  (MkSession (Z.of_nat (length l)) l false (u64 (sub s + 1)) None false (retired s) 0 e, wake s).

(** The applied sequence numbers an acknowledgment names one by one. *)
Definition boundedAboveSet (appliedAbove : list Z) (retainedSeqs : gset Z) : gset Z :=
  list_to_set (filter (λ n, n ∈ retainedSeqs) appliedAbove).

(** [appliedRanges[:2*min(len/2, maxRetainedOps)]], as pairs. *)
Fixpoint range_pairs (k : nat) (l : list Z) : list (Z * Z) :=
  match k, l with
  | S k, a :: b :: l => (a, b) :: range_pairs k l
  | _, _ => []
  end.

(** One pair of the difference array. *)
Definition cover_pair (sorted : list Z) (cover : list Z) (p : Z * Z) : list Z :=
  let '(start, stop) := p in
  if bool_decide (stop < start) then cover
  else
    let lo := BinarySearch (λ x, bool_decide (x < start)) sorted in
    let hi0 := BinarySearch (λ x, bool_decide (x < stop)) sorted in
    let hi := if bool_decide (sorted !! hi0 = Some stop) then S hi0 else hi0 in
    if bool_decide (lo < hi)%nat then alter (Z.add (-1)) hi (alter (Z.add 1) lo cover) else cover.

(** The walk over the covered runs. *)
Fixpoint covered (depth : Z) (sorted cover : list Z) : list Z :=
  match sorted, cover with
  | n :: sorted, c :: cover =>
      let depth := depth + c in
      if bool_decide (0 < depth) then n :: covered depth sorted cover
      else covered depth sorted cover
  | _, _ => []
  end.

Definition appliedRangesSet (appliedRanges : list Z) (retainedSeqs : gset Z) : gset Z :=
  if bool_decide (appliedRanges = [] ∨ retainedSeqs = ∅) then ∅
  else
    let sorted := merge_sort Z.le (elements retainedSeqs) in
    let cover := foldl (cover_pair sorted) (replicate (S (length sorted)) 0)
                   (range_pairs maxRetainedOps appliedRanges) in
    list_to_set (covered 0 sorted cover).

(** The set [AckControl] builds from its snapshot of the retained numbers. *)
Definition ack_above (appliedAbove appliedRanges : list Z) (snapshot : gset Z) : gset Z :=
  if bool_decide (appliedAbove = [] ∧ appliedRanges = []) then ∅
  else boundedAboveSet appliedAbove snapshot ∪ appliedRangesSet appliedRanges snapshot.

(** [AckControl] under the lock. *)
Definition ack_locked (e ackedSeq : Z) (above : gset Z) (s : controlSession) : controlSession :=
  if bool_decide (epoch s ≠ e) then s
  else
    let acked := if bool_decide (nextSeq s < ackedSeq) then nextSeq s else ackedSeq in
    let c := if bool_decide (cursor s < acked) then acked else cursor s in
    MkSession (nextSeq s) (filter (λ r, ¬ seq r ≤ c ∧ seq r ∉ above) (ops s)) (held s) (sub s)
      (wake s) (live s) (retired s) c (epoch s).

Definition hold_locked (s : controlSession) : controlSession :=
  MkSession (nextSeq s) (ops s) true (sub s) (wake s) (live s) (retired s) (cursor s) (epoch s).

Definition release_locked (e : Z) (s : controlSession) : controlSession * bool :=
  if bool_decide (epoch s ≠ e) then (s, false)
  else (MkSession (nextSeq s) (ops s) false (sub s) (wake s) (live s) (retired s) (cursor s)
          (epoch s), true).

(** The bind of [serve], by the drainer [d]: the channel it closes, or the refusal. *)
Definition bind_locked (d : nat) (s : controlSession) : result laneErr (controlSession * option nat) :=
  if retired s then Err errNoBoundSession
  else Ok (MkSession (nextSeq s) (ops s) (held s) (u64 (sub s + 1)) (Some d) true (retired s)
             (cursor s) (epoch s), wake s).

(** The deferred exit of [serve]. *)
Definition exit_locked (mine : Z) (s : controlSession) : controlSession :=
  if bool_decide (sub s = mine)
  then MkSession (nextSeq s) (ops s) (held s) (sub s) (wake s) false (retired s) (cursor s) (epoch s)
  else s.

(** Whether the barrier lets an operation pass. *)
Definition deliverable (s : controlSession) (r : retained) : bool :=
  negb (held s) || replayPath (op r).

Definition collectBatch (s : controlSession) (sent : Z) (above : gset Z) : list retained :=
  let first := BinarySearch (λ r, bool_decide (seq r < sent)) (ops s) in
  filter (λ r, sent < seq r ∧ seq r ∉ above ∧ deliverable s r = true) (drop first (ops s)).

(** [absorbContiguous]: at most one iteration per element of [above]. *)
Fixpoint absorb_loop (fuel : nat) (sent : Z) (above : gset Z) : Z * gset Z :=
  match fuel with
  | O => (sent, above)
  | S fuel =>
      let next := u64 (sent + 1) in
      if bool_decide (next ∈ above) then absorb_loop fuel next (above ∖ {[ next ]})
      else (sent, above)
  end.

Definition absorbContiguous (from : Z) (above : gset Z) : Z * gset Z :=
  absorb_loop (size above) from above.

Definition absorbJump (from : Z) (above : gset Z) : Z * gset Z :=
  absorbContiguous from (filter (λ n, ¬ n ≤ from) above).

(** * The producer *)

Record Producer := MkProducer {
  sessions : gmap string controlSession;
  lastEpoch : Z;
}.

Definition newControlProducer : Producer := MkProducer ∅ 0.

Definition Bind (sid : string) (p : Producer) : Producer :=
  match sessions p !! sid with
  | Some _ => p
  | None => let e := u64 (lastEpoch p + 1) in
            MkProducer (<[sid := newSession e]> (sessions p)) e
  end.

Definition Epoch (sid : string) (p : Producer) : Z :=
  match sessions p !! sid with Some s => epoch s | None => 0 end.

Definition send (sid : string) (o : AgentControl) (requireLive : bool) (p : Producer)
    : Producer * option laneErr :=
  if negb (representable o) then (p, Some errEmptyControlVariant)
  else match sessions p !! sid with
       | None => (p, Some errNoBoundSession)
       | Some s =>
           match send_locked o requireLive s with
           | Ok (s', _) => (MkProducer (<[sid := s']> (sessions p)) (lastEpoch p), None)
           | Err e => (p, Some e)
           | Panic => (p, None)
           end
       end.

Definition Send (sid : string) (o : AgentControl) (p : Producer) := send sid o false p.
Definition SendIfLive (sid : string) (o : AgentControl) (p : Producer) := send sid o true p.

(** Retiring detaches the session; a drainer that still has it sees the tombstone. *)
Definition Retire (sid : string) (p : Producer) : Producer * option controlSession :=
  (MkProducer (delete sid (sessions p)) (lastEpoch p), fst ∘ retire_locked <$> sessions p !! sid).

Definition Restart (sid : string) (first : AgentControl) (p : Producer) : Producer * option laneErr :=
  match sessions p !! sid with
  | None => (p, Some errNoBoundSession)
  | Some s =>
      let e := u64 (lastEpoch p + 1) in
      (MkProducer (<[sid := (restart_locked e first s).1]> (sessions p)) e, None)
  end.

Definition on_session (f : controlSession → controlSession) (sid : string) (p : Producer) : Producer :=
  match sessions p !! sid with
  | None => p
  | Some s => MkProducer (<[sid := f s]> (sessions p)) (lastEpoch p)
  end.

Definition AckControl (sid : string) (e ackedSeq : Z) (appliedAbove appliedRanges : list Z) :=
  on_session (λ s, ack_locked e ackedSeq
    (ack_above appliedAbove appliedRanges (list_to_set (map seq (ops s)))) s) sid.

Definition HoldForReplay := on_session hold_locked.
Definition ReleaseReplayBarrier (sid : string) (e : Z) := on_session (λ s, (release_locked e s).1) sid.

Definition subscriptionGeneration (sid : string) (p : Producer) : Z :=
  match sessions p !! sid with Some s => sub s | None => 0 end.

#[global] Opaque maxRetainedOps.

(** * Applied ranges *)

Definition zsum (l : list Z) : Z := foldr Z.add 0 l.

Lemma zsum_alter d j k (c : list Z) :
  (j < length c)%nat →
  zsum (take k (alter (Z.add d) j c)) = zsum (take k c) + (if decide (j < k)%nat then d else 0).
Proof.
  revert j k. induction c as [|z c IH]; intros j k Hj; simpl in Hj; [lia|].
  destruct k as [|k]; [simpl; lia|]. destruct j as [|j].
  - case_decide; [|lia]. simpl. lia.
  - change (alter (Z.add d) (S j) (z :: c)) with (z :: alter (Z.add d) j c).
    cbn [take zsum foldr]. fold (zsum (take k (alter (Z.add d) j c))). fold (zsum (take k c)).
    rewrite IH by lia. repeat case_decide; lia.
Qed.

Lemma covered_elem depth (l c : list Z) n :
  (length l ≤ length c)%nat →
  n ∈ covered depth l c ↔ ∃ i, l !! i = Some n ∧ 0 < depth + zsum (take (S i) c).
Proof.
  revert depth c. induction l as [|m l IH]; intros depth c Hl; simpl.
  - split; [by intros ?%not_elem_of_nil|]. by intros (i & ? & _).
  - destruct c as [|z c]; simpl in Hl; [lia|].
    assert (n ∈ covered (depth + z) l c ↔
            ∃ i, l !! i = Some n ∧ 0 < depth + zsum (take (S (S i)) (z :: c))) as E.
    { rewrite IH by lia. apply exist_proper. intros i. simpl. rewrite Z.add_assoc. done. }
    assert (∀ P : Prop, (P ↔ 0 < depth + z) →
      (n = m ∧ P ∨ n ∈ covered (depth + z) l c) ↔
      ∃ i, (m :: l) !! i = Some n ∧ 0 < depth + zsum (take (S i) (z :: c))) as HE.
    { intros P HP. rewrite E. split.
      - intros [[-> Hp%HP]|(i & Hi)]; [exists O; simpl; rewrite Z.add_0_r; auto|by exists (S i)].
      - intros ([|i] & Hi & Hd); [|eauto]. left. simpl in Hi, Hd. injection Hi as ->.
        rewrite HP. split; [done|lia]. }
    case_bool_decide as Hd.
    + rewrite elem_of_cons, <- (HE True) by tauto. tauto.
    + rewrite <- (HE False) by (split; [done|lia]). tauto.
Qed.

(** One pair adds one to the depth of exactly the elements it covers. *)
Lemma cover_pair_depth (l c : list Z) a b i n :
  StronglySorted Z.lt l → length c = S (length l) → l !! i = Some n →
  length (cover_pair l c (a, b)) = length c ∧
  zsum (take (S i) (cover_pair l c (a, b))) =
  zsum (take (S i) c) + (if decide (a ≤ n ≤ b) then 1 else 0).
Proof.
  intros HS Hc Hi. unfold cover_pair. case_bool_decide as Hab.
  { split; [done|]. rewrite decide_False by lia. lia. }
  assert (∀ t, ∀ x y : Z, x < y → bool_decide (y < t) = true → bool_decide (x < t) = true) as HR.
  { intros t x y. rewrite !bool_decide_eq_true. lia. }
  set (lo := BinarySearch _ l). set (hi0 := BinarySearch _ l).
  assert ((lo ≤ i)%nat ↔ a ≤ n) as Hlo.
  { unfold lo. rewrite (BinarySearch_spec Z.lt _ _ _ _ (HR a) HS Hi), bool_decide_eq_false. lia. }
  assert (∀ j m, l !! j = Some m → (hi0 ≤ j)%nat ↔ b ≤ m) as Hhi0.
  { intros j m Hj. unfold hi0.
    rewrite (BinarySearch_spec Z.lt _ _ _ _ (HR b) HS Hj), bool_decide_eq_false. lia. }
  set (hi := if bool_decide (l !! hi0 = Some b) then S hi0 else hi0).
  assert ((i < hi)%nat ↔ n ≤ b) as Hhi.
  { unfold hi. case_bool_decide as Hf.
    - pose proof (Hhi0 i n Hi) as H1.
      destruct (decide (i = hi0)) as [->|Hne]; [rewrite Hf in Hi; injection Hi; lia|].
      split; [intros; lia|]. intros Hle. destruct (decide (i < hi0)%nat); [lia|].
      assert (b < n); [|lia]. apply (sorted_lookup_lt _ _ _ _ _ _ HS Hf Hi). lia.
    - pose proof (Hhi0 i n Hi) as H1. destruct (decide (n = b)) as [->|]; [|lia].
      split; [lia|]. intros _. destruct (decide (hi0 ≤ i)%nat) as [Hle|]; [|lia].
      destruct (decide (i = hi0)) as [->|Hne]; [done|].
      destruct (lookup_lt_is_Some_2 l hi0) as [m Hm]; [apply lookup_lt_Some in Hi; lia|].
      pose proof (proj1 (Hhi0 hi0 m Hm) ltac:(lia)).
      assert (m < b); [|lia]. apply (sorted_lookup_lt _ _ _ _ _ _ HS Hm Hi). lia. }
  assert (lo ≤ length l ∧ hi ≤ length l)%nat as [Hl1 Hl2].
  { split; [exact (BinarySearch_le _ _ Z.lt (HR a) HS)|]. unfold hi. case_bool_decide as Hf.
    - apply lookup_lt_Some in Hf. lia.
    - exact (BinarySearch_le _ _ Z.lt (HR b) HS). }
  case_bool_decide as Hlh.
  - rewrite !length_alter. split; [done|].
    rewrite !zsum_alter by (rewrite ?length_alter; lia).
    repeat case_decide; lia.
  - split; [done|]. rewrite decide_False by lia. lia.
Qed.

Lemma cover_depth (l c : list Z) ps i n :
  StronglySorted Z.lt l → length c = S (length l) → l !! i = Some n →
  zsum (take (S i) (foldl (cover_pair l) c ps)) =
  zsum (take (S i) c) + Z.of_nat (length (filter (λ p, p.1 ≤ n ≤ p.2) ps))
  ∧ length (foldl (cover_pair l) c ps) = length c.
Proof.
  intros HS. revert c. induction ps as [|[a b] ps IH]; intros c Hc Hi; cbn [foldl].
  { split; [simpl length; lia|done]. }
  destruct (cover_pair_depth l c a b i n HS Hc Hi) as [HL HD].
  destruct (IH (cover_pair l c (a, b))) as [H1 H2]; [congruence|done|].
  rewrite H1, H2, HD, HL. split; [|done]. rewrite filter_cons. simpl. repeat case_decide; simpl; lia.
Qed.

Lemma zsum_zeros k n : zsum (take k (replicate n 0)) = 0.
Proof. revert k. induction n as [|n IH]; intros [|k]; simpl; [done..|]. apply IH. Qed.

Lemma filter_pos {A} (P : A → Prop) `{∀ x, Decision (P x)} (l : list A) :
  0 < Z.of_nat (length (filter P l)) ↔ ∃ x, x ∈ l ∧ P x.
Proof.
  split.
  - intros H'. destruct (filter P l) as [|x k] eqn:E; [simpl in H'; lia|].
    exists x. assert (x ∈ filter P l) as Hx by (rewrite E; set_solver).
    apply list_elem_of_filter in Hx as [? ?]. auto.
  - intros (x & Hx & HP). assert (x ∈ filter P l) as Hf by (apply list_elem_of_filter; auto).
    destruct (filter P l); [by apply not_elem_of_nil in Hf|simpl; lia].
Qed.

Lemma sorted_strict (l : list Z) : StronglySorted Z.le l → NoDup l → StronglySorted Z.lt l.
Proof.
  induction 1 as [|x l HS IH Hall]; [constructor|]. intros [Hx HN]%NoDup_cons.
  constructor; [auto|]. rewrite Forall_forall in *. intros y Hy. specialize (Hall y Hy).
  assert (x ≠ y) by (intros ->; done). lia.
Qed.

(** The difference-array walk marks exactly the retained numbers that a pair covers. *)
Lemma appliedRangesSet_elem ranges (R : gset Z) n :
  n ∈ appliedRangesSet ranges R ↔
  n ∈ R ∧ ∃ p, p ∈ range_pairs maxRetainedOps ranges ∧ p.1 ≤ n ≤ p.2.
Proof.
  unfold appliedRangesSet. case_bool_decide as Hd.
  { split; [set_solver|]. intros (HR & p & Hp & _). destruct Hd as [-> | ->]; [|set_solver].
    destruct maxRetainedOps; simpl in Hp; by apply not_elem_of_nil in Hp. }
  set (l := merge_sort Z.le (elements R)).
  assert (l ≡ₚ elements R) as HP by apply merge_sort_Permutation.
  assert (StronglySorted Z.lt l) as HS.
  { apply sorted_strict; [|rewrite HP; apply NoDup_elements].
    apply Sorted_StronglySorted; [apply _|]. apply Sorted_merge_sort, _. }
  set (ps := range_pairs maxRetainedOps ranges).
  set (z := replicate (S (length l)) 0).
  assert (length z = S (length l)) as Hz by apply length_replicate.
  assert (length (foldl (cover_pair l) z ps) = length z) as HL.
  { clear -HS. generalize z. induction ps as [|[a b] ps IH]; intros c; simpl; [done|].
    rewrite IH. unfold cover_pair. repeat case_bool_decide; by rewrite ?length_alter. }
  rewrite elem_of_list_to_set, covered_elem by lia.
  rewrite <- (elem_of_elements R), <- HP.
  rewrite (list_elem_of_lookup l). split.
  - intros (i & Hi & Hd'). destruct (cover_depth l z ps i n HS Hz Hi) as [HE _].
    unfold z in Hd', HE. rewrite HE, zsum_zeros in Hd'. split; [eauto|].
    apply (filter_pos (λ p, p.1 ≤ n ≤ p.2)). lia.
  - intros ([i Hi] & Hp). exists i. split; [done|].
    destruct (cover_depth l z ps i n HS Hz Hi) as [HE _]. unfold z in HE |- *.
    rewrite HE, zsum_zeros. apply (filter_pos (λ p, p.1 ≤ n ≤ p.2)) in Hp. lia.
Qed.

(** * Outcomes of a send *)

(** What [Send] and [SendIfLive] do in every case: a payload-free operation, an
    unbound session, an absent agent and a full retention buffer are refused in this
    order and leave no trace (no number is consumed); everything else is retained
    under the next number, stamped with it, and the replay path is exempt from the
    buffer's bound. *)
Theorem send_outcome p sid o rl :
  match (send sid o rl p).2 with
  | Some e =>
      (send sid o rl p).1 = p ∧
      match e with
      | errEmptyControlVariant => representable o = false
      | errNoBoundSession => representable o = true ∧ sessions p !! sid = None
      | ErrNoAgent => representable o = true ∧ rl = true
          ∧ ∃ s, sessions p !! sid = Some s ∧ live s = false
      | errRetentionFull => representable o = true ∧ replayPath o = false
          ∧ ∃ s, sessions p !! sid = Some s ∧ (rl = true → live s = true)
              ∧ (maxRetainedOps ≤ length (ops s))%nat
      end
  | None =>
      representable o = true
      ∧ ∃ s n, sessions p !! sid = Some s ∧ (rl = true → live s = true)
        ∧ ((length (ops s) < maxRetainedOps)%nat ∨ replayPath o = true)
        ∧ n = u64 (nextSeq s + 1)
        ∧ (send sid o rl p).1
          = MkProducer (<[sid := MkSession n (ops s ++ [Retained n (stamp o n)]) (held s) (sub s)
                                   (wake s) (live s) (retired s) (cursor s) (epoch s)]> (sessions p))
              (lastEpoch p)
  end.
Proof.
  unfold send. destruct (representable o) eqn:ER; simpl; [|done].
  destruct (sessions p !! sid) as [s|] eqn:ES; [|done].
  unfold send_locked. destruct (rl && negb (live s)) eqn:EL; simpl.
  { apply andb_true_iff in EL as [-> EL]. apply negb_true_iff in EL. eauto 6. }
  assert (rl = true → live s = true) as HL.
  { intros ->. by destruct (live s). }
  case_bool_decide as Hf; simpl.
  - destruct (replayPath o) eqn:EP; simpl.
    + split; [done|]. exists s, (u64 (nextSeq s + 1)). auto.
    + split; [done|]. split; [done|]. split; [done|]. exists s. auto.
  - split; [done|]. exists s, (u64 (nextSeq s + 1)). split; [done|]. split; [done|].
    split; [left; lia|done].
Qed.

End ControlLane.
