(* ===== verification/ControlDrain.v ===== *)
(** The drain loops of one control session ([serve] in
    [src/go/internal/runner/gateway/control.go]).

    The state is the session and every drainer that ever bound to it; a step is one
    critical section of the session's mutex or one move of a drainer (a cycle's
    collection, the displaced check, one send on its stream, a wake).  Steps of all
    callers and drainers interleave freely.  [log] records what a drainer has written
    to its stream.

    The theorems say what the lane promises: nothing accepted is lost before the agent
    acknowledges it, and a subscription that has gone to sleep has written everything
    it owes, each operation once and the live ones in order. *)
From stdpp Require Import base gmap strings list sorting.
From Stdlib Require Import ZArith Lia.
From S2P Require Import Prelude Slices ControlLane.

Open Scope Z_scope.

Module ControlDrain.

Import ControlLane.

(** * The system *)

(** Where a drainer is: at the top of its loop, checking whether it is displaced
    before a send, sending, parked on its channel, or gone. *)
Inductive position := Cycle | Checking | Sending | Parked | Gone.

Record drainer := MkDrainer {
  mine : Z;
  sent : Z;
  above : gset Z;
  batch : list retained;
  pos : position;
  token : bool;
  wclosed : bool;
  log : list retained;
}.

Record Sys := MkSys {
  obj : controlSession;
  drainers : gmap nat drainer;
}.

(** [signalLocked]: a token for the drainer whose channel is current. *)
Definition signal (b : bool) (s : controlSession) (ds : gmap nat drainer) : gmap nat drainer :=
  match wake s with
  | Some d =>
      if b then alter (λ x, MkDrainer (mine x) (sent x) (above x) (batch x) (pos x) true
                              (wclosed x) (log x)) d ds
      else ds
  | None => ds
  end.

Definition close_chan (o : option nat) (ds : gmap nat drainer) : gmap nat drainer :=
  match o with
  | Some d => alter (λ x, MkDrainer (mine x) (sent x) (above x) (batch x) (pos x) (token x)
                            true (log x)) d ds
  | None => ds
  end.

Definition set_pos (x : drainer) (p : position) : drainer :=
  MkDrainer (mine x) (sent x) (above x) (batch x) p (token x) (wclosed x) (log x).

(** The top of the loop, when the drainer is current: jump over what retention no
    longer holds, then collect. *)
Definition cycle (s : controlSession) (x : drainer) : drainer :=
  let '(sent', above') :=
    if bool_decide (sent x < cursor s) then absorbJump (cursor s) (above x) else (sent x, above x) in
  MkDrainer (mine x) sent' above' (collectBatch s sent' above') Checking (token x) (wclosed x) (log x).

(** The bookkeeping after one successful send of [r]. *)
Definition sent_one (r : retained) (rest : list retained) (x : drainer) : drainer :=
  let '(sent', above') :=
    if bool_decide (seq r = u64 (sent x + 1)) then absorbContiguous (seq r) (above x)
    else (sent x, {[ seq r ]} ∪ above x) in
  MkDrainer (mine x) sent' above' rest Checking (token x) (wclosed x) (log x ++ [r]).

Inductive step : Sys → Sys → Prop :=
(* callers *)
| SSend s ds o rl s' b :
    nextSeq s + 1 < 2 ^ 64 → representable o = true →
    send_locked o rl s = Ok (s', b) →
    step (MkSys s ds) (MkSys s' (signal b s' ds))
| SAck s ds e acked ab :
    step (MkSys s ds) (MkSys (ack_locked e acked ab s) ds)
| SHold s ds : step (MkSys s ds) (MkSys (hold_locked s) ds)
| SRelease s ds e :
    step (MkSys s ds)
      (MkSys (release_locked e s).1 (signal (release_locked e s).2 (release_locked e s).1 ds))
| SRetire s ds :
    sub s + 1 < 2 ^ 64 →
    step (MkSys s ds) (MkSys (retire_locked s).1 (close_chan (retire_locked s).2 ds))
| SRestart s ds e first :
    sub s + 1 < 2 ^ 64 → Z.of_nat (length (ops s)) + 1 < 2 ^ 64 →
    step (MkSys s ds) (MkSys (restart_locked e first s).1 (close_chan (restart_locked e first s).2 ds))
(* drainers *)
| SBind s ds d s' o :
    sub s + 1 < 2 ^ 64 → ds !! d = None → bind_locked d s = Ok (s', o) →
    step (MkSys s ds)
      (MkSys s' (<[d := MkDrainer (sub s') (cursor s') ∅ [] Cycle true false []]> (close_chan o ds)))
| SCycle s ds d x :
    ds !! d = Some x → pos x = Cycle → sub s = mine x →
    step (MkSys s ds) (MkSys s (<[d := cycle s x]> ds))
| SCheck s ds d x r rest :
    ds !! d = Some x → pos x = Checking → batch x = r :: rest → sub s = mine x →
    step (MkSys s ds) (MkSys s (<[d := set_pos x Sending]> ds))
| SSent s ds d x r rest :
    ds !! d = Some x → pos x = Sending → batch x = r :: rest →
    step (MkSys s ds) (MkSys s (<[d := sent_one r rest x]> ds))
| SPark s ds d x :
    ds !! d = Some x → pos x = Checking → batch x = [] →
    step (MkSys s ds) (MkSys s (<[d := set_pos x Parked]> ds))
| SWake s ds d x :
    ds !! d = Some x → pos x = Parked → token x || wclosed x = true →
    step (MkSys s ds)
      (MkSys s (<[d := MkDrainer (mine x) (sent x) (above x) (batch x) Cycle false (wclosed x) (log x)]> ds))
| SExit s ds d x :
    (* displaced at the loop top or before a send, a failed send, or a cancelled wait *)
    ds !! d = Some x → pos x ≠ Gone →
    step (MkSys s ds) (MkSys (exit_locked (mine x) s) (<[d := set_pos x Gone]> ds)).

Inductive reachable : Sys → Prop :=
| reach_new e : reachable (MkSys (newSession e) ∅)
| reach_step x y : reachable x → step x y → reachable y.

(** * The session *)

Definition seq_lt (r1 r2 : retained) : Prop := seq r1 < seq r2.

Record session_ok (s : controlSession) : Prop := {
  ok_cursor : 0 ≤ cursor s ≤ nextSeq s;
  ok_next : nextSeq s < 2 ^ 64;
  ok_sub : 0 ≤ sub s < 2 ^ 64;
  ok_sorted : StronglySorted seq_lt (ops s);
  ok_range : ∀ r, r ∈ ops s → cursor s < seq r ≤ nextSeq s ∧ ControlSeq (op r) = seq r;
}.

Lemma send_ok o rl s s' b :
  nextSeq s + 1 < 2 ^ 64 → send_locked o rl s = Ok (s', b) → session_ok s →
  session_ok s' ∧ ops s' = ops s ++ [Retained (nextSeq s + 1) (stamp o (nextSeq s + 1))]
  ∧ b = deliverable s' (Retained (nextSeq s + 1) (stamp o (nextSeq s + 1)))
  ∧ sub s' = sub s ∧ wake s' = wake s ∧ cursor s' = cursor s ∧ nextSeq s' = nextSeq s + 1
  ∧ held s' = held s.
Proof.
  intros Hn HS [H1 H2 H3 H4 H5]. unfold send_locked in HS.
  destruct (rl && negb (live s)); [done|].
  destruct (bool_decide _ && negb (replayPath o)); [done|].
  rewrite u64_small in HS by lia. injection HS as <- <-. simpl.
  refine (conj _ (conj eq_refl (conj eq_refl _))); [|done].
  split; simpl; [lia|lia|done| |].
  - apply StronglySorted_app_2; [|done|repeat constructor].
    intros r x Hr ->%list_elem_of_singleton. unfold seq_lt. simpl. apply H5 in Hr. lia.
  - intros r [Hr|Hr]%elem_of_app; [apply H5 in Hr; lia|].
    apply list_elem_of_singleton in Hr as ->. simpl. lia.
Qed.

Lemma ack_ok e acked ab s : session_ok s → session_ok (ack_locked e acked ab s).
Proof.
  intros [H1 H2 H3 H4 H5]. unfold ack_locked. case_bool_decide; [by split|].
  split; simpl; [|done|done|by apply sorted_filter|].
  - repeat case_bool_decide; lia.
  - intros r [[Hc _] Hr]%list_elem_of_filter. apply H5 in Hr. lia.
Qed.

(** The operations that survive a restart, renumbered. *)
Lemma renumber_length n l : (length (renumber n l) ≤ length l)%nat.
Proof.
  revert n. induction l as [|r l IH]; intros n; simpl; [done|].
  destruct (replayPath (op r)); simpl; specialize (IH n) as H1; [lia|].
  clear H1. pose proof (IH (n + 1)). lia.
Qed.

Lemma renumber_spec n l :
  StronglySorted seq_lt (renumber n l)
  ∧ ∀ r, r ∈ renumber n l → n ≤ seq r < n + Z.of_nat (length (renumber n l)) ∧ ControlSeq (op r) = seq r.
Proof.
  revert n. induction l as [|r l IH]; intros n; simpl; [split; [constructor|set_solver]|].
  destruct (replayPath (op r)); [apply IH|]. destruct (IH (n + 1)) as [H1 H2]. split.
  - constructor; [done|]. apply Forall_forall. intros x Hx. apply H2 in Hx.
    unfold seq_lt. simpl. lia.
  - intros x [->|Hx]%elem_of_cons; simpl; [lia|]. apply H2 in Hx. lia.
Qed.

Lemma restart_ok e first s :
  sub s + 1 < 2 ^ 64 → Z.of_nat (length (ops s)) + 1 < 2 ^ 64 →
  session_ok s → session_ok (restart_locked e first s).1.
Proof.
  intros Hs Hl [H1 H2 H3 H4 H5]. unfold restart_locked. simpl.
  pose proof (renumber_length 2 (ops s)). destruct (renumber_spec 2 (ops s)) as [HS HR].
  split; simpl; [lia|lia|rewrite u64_small; lia| |].
  - constructor; [done|]. apply Forall_forall. intros x Hx. apply HR in Hx.
    unfold seq_lt. simpl. lia.
  - intros x [->|Hx]%elem_of_cons; simpl; [lia|]. apply HR in Hx. lia.
Qed.

(** * The watermark *)

(** A sequence number the drainer counts as delivered. *)
Definition cov (sent : Z) (above : gset Z) (n : Z) : Prop := n ≤ sent ∨ n ∈ above.

(** Absorbing moves the watermark without changing what is counted. *)
Lemma absorb_loop_cov fuel sent above n :
  0 ≤ sent < 2 ^ 64 → (∀ m, m ∈ above → 0 < m < 2 ^ 64) →
  let r := absorb_loop fuel sent above in
  (cov r.1 r.2 n ↔ cov sent above n) ∧ 0 ≤ r.1 < 2 ^ 64 ∧ r.2 ⊆ above
  ∧ (r.1 = sent ∨ r.1 ∈ above).
Proof.
  revert sent above. induction fuel as [|fuel IH]; intros sent above Hs Ha; simpl.
  { split; [done|]. split; [done|]. split; [done|by left]. }
  case_bool_decide as Hn; [|split; [done|]; split; [done|]; split; [done|by left]].
  assert (u64 (sent + 1) = sent + 1) as E.
  { specialize (Ha _ Hn). unfold u64 in *. destruct (decide (sent + 1 = 2 ^ 64)) as [Hw|].
    - rewrite Hw, Z_mod_same_full in Ha. lia.
    - rewrite Z.mod_small; lia. }
  rewrite E in *.
  destruct (IH (sent + 1) (above ∖ {[ sent + 1 ]})) as (H1 & H2 & H3 & H4).
  { specialize (Ha _ Hn). lia. }
  { intros m Hm. apply Ha. set_solver. }
  split; [|split; [done|]; split; [set_solver|];
    destruct H4 as [->|H4]; [by right|right; set_solver]].
  rewrite H1. unfold cov. destruct (decide (n = sent + 1)) as [->|]; [split; [intros _; by right|left; lia]|].
  rewrite elem_of_difference, elem_of_singleton. split; [|intros [?|?]; [left; lia|by right]].
  intros [?|[? _]]; [left; lia|by right].
Qed.

Lemma absorb_cov from above n :
  0 ≤ from < 2 ^ 64 → (∀ m, m ∈ above → 0 < m < 2 ^ 64) →
  let r := absorbContiguous from above in
  (cov r.1 r.2 n ↔ cov from above n) ∧ 0 ≤ r.1 < 2 ^ 64 ∧ r.2 ⊆ above
  ∧ (r.1 = from ∨ r.1 ∈ above).
Proof. apply absorb_loop_cov. Qed.

Lemma jump_cov from above n :
  0 ≤ from < 2 ^ 64 → (∀ m, m ∈ above → 0 < m < 2 ^ 64) →
  let r := absorbJump from above in
  (cov r.1 r.2 n ↔ cov from above n) ∧ 0 ≤ r.1 < 2 ^ 64 ∧ r.2 ⊆ above
  ∧ (r.1 = from ∨ r.1 ∈ above).
Proof.
  intros Hf Ha. unfold absorbJump.
  destruct (absorb_cov from (filter (λ n, ¬ n ≤ from) above) n) as (H1 & H2 & H3 & H4).
  - done.
  - intros m Hm. apply Ha. set_solver.
  - split; [|split; [done|]; split; [set_solver|set_solver]].
    rewrite H1. unfold cov. rewrite elem_of_filter.
    destruct (decide (n ≤ from)); tauto.
Qed.

(** * The current drainer *)

Definition liveOp (r : retained) : Prop := replayPath (op r) = false.

#[export] Instance liveOp_dec r : Decision (liveOp r).
Proof. unfold liveOp. apply _. Defined.

Record drainer_ok (s : controlSession) (d : nat) (x : drainer) : Prop := {
  d_wake : wake s = Some d;
  d_sent : 0 ≤ sent x ≤ nextSeq s;
  d_above : ∀ n, n ∈ above x → 0 < n ≤ nextSeq s;
  (* what is counted has been written, what was written is counted *)
  d_log : ∀ r, r ∈ log x → cov (sent x) (above x) (seq r);
  d_cov : ∀ r, r ∈ ops s → cov (sent x) (above x) (seq r) → r ∈ log x;
  (* the batch is new, in order, and made of retained operations *)
  d_batch : ∀ r, r ∈ batch x → ¬ cov (sent x) (above x) (seq r) ∧ seq r ≤ nextSeq s;
  d_batch_sorted : StronglySorted seq_lt (batch x);
  d_batch_ops : ∀ r r', r ∈ batch x → r' ∈ ops s → seq r = seq r' → r = r';
  d_empty : pos x = Cycle ∨ pos x = Parked → batch x = [];
  (* nothing deliverable is forgotten *)
  d_owed : ∀ r, r ∈ ops s → deliverable s r = true →
    cov (sent x) (above x) (seq r) ∨ r ∈ batch x ∨ token x = true ∨ pos x = Cycle;
  (* order *)
  d_order : ∀ q r, q ∈ log x ++ batch x → liveOp q → r ∈ ops s → liveOp r → seq r < seq q →
    cov (sent x) (above x) (seq r) ∨ r ∈ batch x;
  d_live_sorted : StronglySorted seq_lt (filter liveOp (log x ++ batch x));
  d_once : NoDup (map seq (log x));
}.

(** The session grows by one operation, which is signalled when deliverable. *)
Lemma drainer_ok_send o rl s s' b d x :
  nextSeq s + 1 < 2 ^ 64 → send_locked o rl s = Ok (s', b) → session_ok s → drainer_ok s d x →
  drainer_ok s' d (MkDrainer (mine x) (sent x) (above x) (batch x) (pos x)
                     (if b then true else token x) (wclosed x) (log x)).
Proof.
  intros Hn HS HK [H1 H2 H3 H4 H5 H6 H7 H8 H9 H10 H11 H12 H13].
  destruct (send_ok _ _ _ _ _ Hn HS HK) as (_ & EO & EB & ES & EW & EC & EN & EH).
  set (new := Retained (nextSeq s + 1) (stamp o (nextSeq s + 1))) in *.
  assert (∀ r, r ∈ ops s' ↔ r ∈ ops s ∨ r = new) as HO.
  { intros r. rewrite EO, elem_of_app, list_elem_of_singleton. done. }
  assert (∀ n, cov (sent x) (above x) n → n ≤ nextSeq s) as HC.
  { intros n [?|Hin]; [lia|apply H3 in Hin; lia]. }
  assert (∀ r, deliverable s' r = deliverable s r) as HD by (intros; unfold deliverable; by rewrite EH).
  split; simpl; rewrite ?EN, ?EW; try done.
  - lia.
  - intros n Hin. apply H3 in Hin. lia.
  - intros r [Hr | ->]%HO Hc; [auto|]. apply HC in Hc. simpl in Hc. lia.
  - intros r Hr. destruct (H6 r Hr). split; [done|lia].
  - intros r r' Hr [Hr' | ->]%HO E; [auto|]. destruct (H6 r Hr). simpl in E. lia.
  - intros r [Hr | ->]%HO Hd.
    + rewrite HD in Hd. destruct (H10 r Hr Hd) as [?|[?|[Ht|?]]]; auto.
      rewrite Ht. destruct b; auto.
    + rewrite EB, Hd. auto.
  - intros q r Hq Lq [Hr | ->]%HO Lr Hlt; [eauto|]. exfalso. simpl in Hlt.
    apply elem_of_app in Hq as [Hq|Hq].
    + apply H4, HC in Hq. lia.
    + destruct (H6 q Hq). lia.
Qed.

(** The session loses operations and keeps the rest. *)
Lemma drainer_ok_shrink s s' d x :
  wake s' = wake s → nextSeq s' = nextSeq s →
  (∀ r, r ∈ ops s' → r ∈ ops s) →
  (∀ r, deliverable s' r = true → deliverable s r = true) →
  drainer_ok s d x → drainer_ok s' d x.
Proof.
  intros EW EN HO HD [H1 H2 H3 H4 H5 H6 H7 H8 H9 H10 H11 H12 H13].
  split; rewrite ?EW, ?EN; eauto.
Qed.

Lemma collect_elem s snt abv r :
  StronglySorted seq_lt (ops s) →
  r ∈ collectBatch s snt abv ↔ r ∈ ops s ∧ ¬ cov snt abv (seq r) ∧ deliverable s r = true.
Proof.
  intros HS. unfold collectBatch.
  rewrite (drop_BinarySearch seq_lt); [|..|done|].
  - rewrite list_elem_of_filter. unfold cov. split.
    + intros [(H1 & H2 & H3) H4]. split; [done|]. split; [|done]. intros [?|?]; [lia|done].
    + intros (H1 & H2 & H3). split; [|done]. split; [|split; [|done]].
      * destruct (decide (snt < seq r)); [done|]. exfalso. apply H2. left. lia.
      * intros ?. apply H2. by right.
  - intros a b Hab. unfold seq_lt in Hab. rewrite !bool_decide_eq_true. lia.
  - intros a (Ha & _). apply bool_decide_eq_false_2. lia.
Qed.

Lemma collect_sorted s snt abv :
  StronglySorted seq_lt (ops s) → StronglySorted seq_lt (collectBatch s snt abv).
Proof.
  intros HS. unfold collectBatch. apply sorted_filter.
  rewrite <- (take_drop (BinarySearch (λ r, bool_decide (seq r < snt)) (ops s)) (ops s)) in HS.
  by apply StronglySorted_app in HS as (_ & _ & HS).
Qed.

(** Within a strictly ascending list the number determines the operation. *)
Lemma sorted_seq_inj (l : list retained) r r' :
  StronglySorted seq_lt l → r ∈ l → r' ∈ l → seq r = seq r' → r = r'.
Proof.
  intros HS [i Hi]%list_elem_of_lookup [j Hj]%list_elem_of_lookup E.
  destruct (decide (i = j)) as [->|Hne]; [congruence|].
  destruct (decide (i < j)%nat) as [Hlt|Hge].
  - pose proof (sorted_lookup_lt _ _ _ _ _ _ HS Hi Hj Hlt) as H. unfold seq_lt in H. lia.
  - pose proof (sorted_lookup_lt _ _ _ _ _ _ HS Hj Hi ltac:(lia)) as H. unfold seq_lt in H. lia.
Qed.

(** The marks of a cycle: the jump keeps what is counted, and of the retained
    operations counts nothing new. *)
Lemma cycle_marks s d x :
  session_ok s → drainer_ok s d x →
  let r := if bool_decide (sent x < cursor s) then absorbJump (cursor s) (above x)
           else (sent x, above x) in
  0 ≤ r.1 ≤ nextSeq s ∧ (∀ n, n ∈ r.2 → 0 < n ≤ nextSeq s)
  ∧ (∀ n, cov (sent x) (above x) n → cov r.1 r.2 n)
  ∧ ∀ o, o ∈ ops s → cov r.1 r.2 (seq o) → cov (sent x) (above x) (seq o).
Proof.
  intros [K1 K2 K3 K4 K5] HD. pose proof (d_sent _ _ _ HD). pose proof (d_above _ _ _ HD) as HA.
  simpl. case_bool_decide as Hc; simpl; [|auto].
  assert (∀ n, let r := absorbJump (cursor s) (above x) in
    (cov r.1 r.2 n ↔ cov (cursor s) (above x) n) ∧ 0 ≤ r.1 < 2 ^ 64 ∧ r.2 ⊆ above x
    ∧ (r.1 = cursor s ∨ r.1 ∈ above x)) as HJ.
  { intros n. apply jump_cov; [lia|]. intros m Hm. apply HA in Hm. lia. }
  destruct (HJ 0) as (_ & H1 & H2 & H3). refine (conj _ (conj _ (conj _ _))).
  - destruct H3 as [->|Hin]; [lia|]. apply HA in Hin. lia.
  - intros n Hn. apply HA. set_solver.
  - intros n [?|?]; apply HJ; [left; lia|by right].
  - intros o Ho Hcv. apply (proj1 (proj1 (HJ (seq o)))) in Hcv as [Hle|?]; [|by right].
    apply K5 in Ho. lia.
Qed.

Lemma drainer_ok_cycle s d x :
  session_ok s → pos x = Cycle → drainer_ok s d x → drainer_ok s d (cycle s x).
Proof.
  intros HK HP HD. destruct (cycle_marks s d x HK HD) as (M1 & M2 & M3 & M4).
  unfold cycle. set (r := if bool_decide _ then _ else _) in *.
  destruct r as [snt abv]. simpl in *.
  destruct HD as [H1 H2 H3 H4 H5 H6 H7 H8 H9 H10 H11 H12 H13].
  rewrite H9 in * by auto. rewrite app_nil_r in *. pose proof (ok_sorted _ HK) as HS.
  pose proof (collect_elem s snt abv) as HC.
  assert (∀ q r, q ∈ log x → liveOp q → r ∈ collectBatch s snt abv → liveOp r → seq q < seq r) as HLB.
  { intros q r Hq Lq Hr Lr. apply HC in Hr as (Hr & Hnc & _); [|done].
    destruct (decide (seq q < seq r)) as [|Hge]; [done|]. exfalso. apply Hnc, M3.
    destruct (decide (seq r = seq q)) as [->|]; [by apply H4|].
    destruct (H11 q r Hq Lq Hr Lr) as [?|Hx]; [lia|done|by apply not_elem_of_nil in Hx]. }
  split; simpl; try done.
  - intros r Hr. by apply M3, H4.
  - intros r Hr Hcv. apply H5; [done|]. by apply M4.
  - intros r Hr. apply HC in Hr as (Hr & Hnc & _); [|done]. split; [done|].
    pose proof (ok_range _ HK r Hr). lia.
  - by apply collect_sorted.
  - intros r r' Hr Hr' E. apply HC in Hr as (Hr & _ & _); [|done]. by eapply sorted_seq_inj.
  - by intros [?|?].
  - intros r Hr Hd. destruct (decide (cov snt abv (seq r))) as [|Hn]; [by left|].
    right; left. apply HC; auto.
  - intros q r [Hq|Hq]%elem_of_app Lq Hr Lr Hlt.
    + left. apply M3. destruct (H11 q r Hq Lq Hr Lr Hlt) as [?|Hx]; [done|by apply not_elem_of_nil in Hx].
    + destruct (decide (cov snt abv (seq r))) as [|Hn]; [by left|]. right. apply HC; [done|].
      split_and!; [done|done|]. apply HC in Hq as (_ & _ & Hd); [|done].
      unfold deliverable, liveOp in *. rewrite Lq, orb_false_r in Hd. by rewrite Hd.
  - rewrite filter_app. apply StronglySorted_app_2; [|done|by apply sorted_filter, collect_sorted].
    intros q r [Lq Hq]%list_elem_of_filter [Lr Hr]%list_elem_of_filter. by apply HLB.
Qed.

(** Sending [r] counts [r] and nothing else. *)
Lemma sent_one_marks s d x r rest :
  session_ok s → drainer_ok s d x → batch x = r :: rest →
  let y := sent_one r rest x in
  (∀ n, cov (sent y) (above y) n ↔ cov (sent x) (above x) n ∨ n = seq r)
  ∧ 0 ≤ sent y ≤ nextSeq s ∧ (∀ n, n ∈ above y → 0 < n ≤ nextSeq s).
Proof.
  intros [K1 K2 K3 K4 K5] HD EB. pose proof (d_sent _ _ _ HD). pose proof (d_above _ _ _ HD) as HA.
  destruct (d_batch _ _ _ HD r) as [Hnc Hle]; [rewrite EB; set_solver|].
  assert (sent x < seq r) as Hlt by (unfold cov in Hnc; lia).
  unfold sent_one. simpl. rewrite u64_small by lia. case_bool_decide as E; simpl.
  - assert (∀ n, let q := absorbContiguous (seq r) (above x) in
      (cov q.1 q.2 n ↔ cov (seq r) (above x) n) ∧ 0 ≤ q.1 < 2 ^ 64 ∧ q.2 ⊆ above x
      ∧ (q.1 = seq r ∨ q.1 ∈ above x)) as HJ.
    { intros n. apply absorb_cov; [lia|]. intros m Hm. apply HA in Hm. lia. }
    destruct (absorbContiguous (seq r) (above x)) as [snt abv]. simpl in *.
    destruct (HJ 0) as (_ & H1 & H2 & H3). refine (conj _ (conj _ _)).
    + intros n. rewrite (proj1 (HJ n)). unfold cov. split; [intros [?|?]|intros [[?|?]| ->]]; 
        try (by auto); try (left; lia).
      destruct (decide (n = seq r)); [by right|left; left; lia].
    + destruct H3 as [->|Hin]; [lia|]. apply HA in Hin. lia.
    + intros n Hn. apply HA. set_solver.
  - refine (conj _ (conj _ _)); [|lia|].
    + intros n. unfold cov. rewrite elem_of_union, elem_of_singleton. tauto.
    + intros n [->%elem_of_singleton|Hn]%elem_of_union; [lia|by apply HA].
Qed.

Lemma drainer_ok_sent s d x r rest :
  session_ok s → batch x = r :: rest → drainer_ok s d x → drainer_ok s d (sent_one r rest x).
Proof.
  intros HK EB HD. destruct (sent_one_marks s d x r rest HK HD EB) as (M & M1 & M2).
  assert (log (sent_one r rest x) = log x ++ [r] ∧ batch (sent_one r rest x) = rest
          ∧ pos (sent_one r rest x) = Checking ∧ token (sent_one r rest x) = token x) as (EL & ER & EP & ET).
  { unfold sent_one. by destruct (if bool_decide _ then _ else _). }
  set (y := sent_one r rest x) in *. clearbody y.
  destruct HD as [H1 H2 H3 H4 H5 H6 H7 H8 H9 H10 H11 H12 H13]. rewrite EB in *.
  apply StronglySorted_cons in H7 as [H7'' H7'].
  assert (r ∉ rest ∧ ∀ q, q ∈ rest → seq r < seq q) as [_ Hrest].
  { rewrite Forall_forall in H7''. split; [|done]. intros Hin. apply H7'' in Hin. unfold seq_lt in Hin. lia. }
  split; rewrite ?EL, ?EP, ?ET, ?ER; try done.
  - intros q [Hq | ->%list_elem_of_singleton]%elem_of_app; apply M; auto.
  - intros q Hq Hc. apply elem_of_app. apply M in Hc as [Hc|E]; [by left; auto|right].
    apply list_elem_of_singleton. symmetry. apply (H8 r q); [set_solver|done|done].
  - intros q Hq. destruct (H6 q) as [Hnc ?]; [set_solver|]. split; [|done].
    rewrite M. intros [?|E]; [done|]. apply Hrest in Hq. lia.
  - intros q q' Hq. apply H8. set_solver.
  - by intros [?|?].
  - intros q Hq Hd. rewrite M. destruct (H10 q Hq Hd) as [?|[Hb|[?|HC]]]; [auto..|].
    + apply elem_of_cons in Hb as [->|Hb]; auto.
    + discriminate (H9 (or_introl HC)).
  - intros q q' Hq Lq Hq' Lq' Hlt. rewrite M.
    destruct (H11 q q') as [?|Hb]; [set_solver|done|done|done|done|auto|].
    apply elem_of_cons in Hb as [->|Hb]; auto.
  - by rewrite <- app_assoc.
  - rewrite map_app. apply NoDup_app. split_and!; [done| |apply NoDup_singleton].
    intros n [q [E Hq]]%list_elem_of_fmap En%list_elem_of_singleton.
    destruct (H6 r) as [Hnc _]; [set_solver|]. apply Hnc.
    rewrite <- En, E. by apply H4.
Qed.

(** * The invariant *)

Record inv (y : Sys) : Prop := {
  inv_session : session_ok (obj y);
  inv_mine : ∀ d x, drainers y !! d = Some x → mine x ≤ sub (obj y);
  inv_current : ∀ d x, drainers y !! d = Some x → pos x ≠ Gone → mine x = sub (obj y) →
                drainer_ok (obj y) d x;
}.

(** A change of the session under the same generation, with at most a signal. *)
Lemma inv_caller s ds s' (b : bool) :
  inv (MkSys s ds) → session_ok s' → sub s' = sub s → wake s' = wake s →
  (∀ d x, drainer_ok s d x →
     drainer_ok s' d (MkDrainer (mine x) (sent x) (above x) (batch x) (pos x)
                        (if b then true else token x) (wclosed x) (log x))) →
  inv (MkSys s' (signal b s' ds)).
Proof.
  intros [I1 I2 I3] HS ES EW HD. simpl in *. split; simpl; [done| |].
  - intros d x Hx. rewrite ES. unfold signal in Hx. destruct (wake s') as [w|]; [|by eapply I2].
    destruct b; [|by eapply I2].
    apply lookup_alter_Some in Hx as [(<- & x0 & Hx & ->)|[_ Hx]]; simpl; by eapply I2.
  - intros d x Hx HG HM. rewrite ES in HM. unfold signal in Hx.
    assert (∀ x, ds !! d = Some x → pos x ≠ Gone → mine x = sub s → wake s' = Some d) as HW.
    { intros x1 Hx1 HG1 HM1. rewrite EW. exact (d_wake _ _ _ (I3 d x1 Hx1 HG1 HM1)). }
    destruct b.
    + destruct (wake s') as [w|] eqn:Ew; [|specialize (HW x Hx HG HM); done].
      apply lookup_alter_Some in Hx as [(<- & x0 & Hx & ->)|[Hne Hx]].
      * by apply HD, I3.
      * specialize (HW x Hx HG HM). congruence.
    + assert (ds !! d = Some x) as Hx' by (destruct (wake s'); exact Hx).
      specialize (HD d x (I3 d x Hx' HG HM)). by destruct x.
Qed.

(** The same without a signal. *)
Lemma inv_quiet s ds s' :
  inv (MkSys s ds) → session_ok s' → sub s' = sub s → wake s' = wake s →
  (∀ d x, drainer_ok s d x → drainer_ok s' d x) → inv (MkSys s' ds).
Proof.
  intros I HS ES EW HD. assert (signal false s' ds = ds) as <- by (unfold signal; by destruct (wake s')).
  apply (inv_caller s ds s' false I); try done. intros d x Hx. apply HD in Hx. by destruct x.
Qed.

(** A change that ends the current generation. *)
Lemma inv_displace s ds s' o :
  inv (MkSys s ds) → session_ok s' → sub s' = sub s + 1 → inv (MkSys s' (close_chan o ds)).
Proof.
  intros [I1 I2 I3] HS ES. simpl in *.
  assert (∀ d x, close_chan o ds !! d = Some x → mine x ≤ sub s) as HM.
  { intros d x Hx. unfold close_chan in Hx. destruct o as [w|]; [|by eapply I2].
    apply lookup_alter_Some in Hx as [(<- & x0 & Hx & ->)|[_ Hx]]; simpl; by eapply I2. }
  split; simpl; [done| |].
  - intros d x Hx. apply HM in Hx. lia.
  - intros d x Hx _ E. apply HM in Hx. lia.
Qed.

(** A move of one drainer. *)
Lemma inv_move s ds d x x' :
  inv (MkSys s ds) → ds !! d = Some x → mine x' = mine x →
  (pos x' ≠ Gone → pos x ≠ Gone) →
  (drainer_ok s d x → pos x' ≠ Gone → mine x = sub s → drainer_ok s d x') →
  inv (MkSys s (<[d := x']> ds)).
Proof.
  intros [I1 I2 I3] Hx EM HG HD. simpl in *. split; simpl; [done| |].
  - intros d' y [[<- <-]|[_ Hy]]%lookup_insert_Some; [rewrite EM|]; by eapply I2.
  - intros d' y [[<- <-]|[_ Hy]]%lookup_insert_Some Hg Hm; [|by apply I3].
    rewrite EM in Hm. apply HD; [|done|done]. apply I3; auto.
Qed.

Lemma session_ok_marks s s' :
  nextSeq s' = nextSeq s → ops s' = ops s → cursor s' = cursor s → 0 ≤ sub s' < 2 ^ 64 →
  session_ok s → session_ok s'.
Proof.
  intros E1 E2 E3 E4 [H1 H2 H3 H4 H5]. split; rewrite ?E1, ?E2, ?E3; assumption.
Qed.

Lemma drainer_ok_pos s d x p :
  (p = Cycle ∨ p = Parked → batch x = []) → pos x ≠ Cycle → drainer_ok s d x →
  drainer_ok s d (set_pos x p).
Proof.
  intros HB HP [H1 H2 H3 H4 H5 H6 H7 H8 H9 H10 H11 H12 H13]. split; try done.
  intros r Hr Hd. destruct (H10 r Hr Hd) as [?|[?|[?|?]]]; auto. done.
Qed.

Lemma drainer_ok_woken s d x :
  pos x = Parked → drainer_ok s d x →
  drainer_ok s d (MkDrainer (mine x) (sent x) (above x) (batch x) Cycle false (wclosed x) (log x)).
Proof.
  intros HP [H1 H2 H3 H4 H5 H6 H7 H8 H9 H10 H11 H12 H13]. split; try done; simpl; auto.
Qed.

Lemma drainer_ok_new s s' d o :
  bind_locked d s = Ok (s', o) → session_ok s →
  drainer_ok s' d (MkDrainer (sub s') (cursor s') ∅ [] Cycle true false []).
Proof.
  intros HB [H1 H2 H3 H4 H5]. unfold bind_locked in HB. destruct (retired s); [done|].
  injection HB as <- <-. split; simpl; try done.
  - intros r ?%not_elem_of_nil. done.
  - intros r Hr [Hc|Hc]; [apply H5 in Hr; lia|set_solver].
  - intros r ?%not_elem_of_nil. done.
  - constructor.
  - by intros r r' ?%not_elem_of_nil.
  - by auto.
  - intros q r ?%not_elem_of_nil. done.
  - constructor.
  - constructor.
Qed.

Lemma inv_bind s ds d s' o :
  inv (MkSys s ds) → sub s + 1 < 2 ^ 64 → ds !! d = None → bind_locked d s = Ok (s', o) →
  inv (MkSys s' (<[d := MkDrainer (sub s') (cursor s') ∅ [] Cycle true false []]> (close_chan o ds))).
Proof.
  intros I Hs Hn HB. pose proof (inv_session _ I) as HK. simpl in HK.
  pose proof (drainer_ok_new s s' d o HB HK) as HN.
  assert (sub s' = sub s + 1 ∧ session_ok s') as [ES HK'].
  { unfold bind_locked in HB. destruct (retired s); [done|]. injection HB as <- <-. simpl.
    pose proof (ok_sub _ HK). rewrite u64_small by lia. split; [done|].
    eapply (session_ok_marks s); try done. simpl. lia. }
  destruct (inv_displace s ds s' o I HK' ES) as [J1 J2 J3]. simpl in *. split; simpl; [done| |].
  - intros d' y [[<- <-]|[_ Hy]]%lookup_insert_Some; simpl; [lia|by eapply J2].
  - intros d' y [[<- <-]|[_ Hy]]%lookup_insert_Some Hg Hm; [done|by apply J3].
Qed.

Lemma inv_step x y : step x y → inv x → inv y.
Proof.
  destruct 1 as [s ds o rl s' b Hn Hrep HS|s ds e acked ab|s ds|s ds e|s ds Hs|s ds e first Hs Hl
    |s ds d s' o Hs Hd HB|s ds d x Hx HP HM|s ds d x r rest Hx HP EB HM|s ds d x r rest Hx HP EB
    |s ds d x Hx HP EB|s ds d x Hx HP HT|s ds d x Hx HP]; intros I;
    pose proof (inv_session _ I) as HK; simpl in HK.
  - destruct (send_ok _ _ _ _ _ Hn HS HK) as (HK' & _ & _ & ES & EW & _).
    apply (inv_caller s); try done. intros d x Hx. by eapply drainer_ok_send.
  - apply (inv_quiet s ds (ack_locked e acked ab s) I); try (unfold ack_locked; by case_bool_decide).
    + by apply ack_ok.
    + intros d x Hx. apply (drainer_ok_shrink s); try (unfold ack_locked; by case_bool_decide); [|done].
      intros r. unfold ack_locked. case_bool_decide; [done|]. simpl.
      by intros [_ ?]%list_elem_of_filter.
  - apply (inv_quiet s ds (hold_locked s) I); try done.
    + by apply (session_ok_marks s); try done; apply HK.
    + intros d x Hx. apply (drainer_ok_shrink s); try done. intros r. unfold deliverable. simpl.
      intros ->. by rewrite orb_true_r.
  - unfold release_locked. case_bool_decide; simpl.
    + unfold signal. by destruct (wake s).
    + apply (inv_caller s ds _ true I); try done.
      * by apply (session_ok_marks s); try done; apply HK.
      * intros d x [H1 H2 H3 H4 H5 H6 H7 H8 H9 H10 H11 H12 H13]. split; try done; simpl; auto.
  - apply (inv_displace s); [done| |simpl; rewrite u64_small; [done|pose proof (ok_sub _ HK); lia]].
    destruct HK as [H1 H2 H3 H4 H5]. split; simpl; [done|done|rewrite u64_small; lia|constructor|set_solver].
  - apply (inv_displace s); [done|by apply restart_ok|].
    simpl. rewrite u64_small; [done|pose proof (ok_sub _ HK); lia].
  - by apply (inv_bind s).
  - apply (inv_move s ds d x); try done.
    + unfold cycle. by destruct (if bool_decide _ then _ else _).
    + by rewrite HP.
    + intros HD _ _. by apply drainer_ok_cycle.
  - apply (inv_move s ds d x); try done; [by rewrite HP|].
    intros HD _ _. apply drainer_ok_pos; [by intros [?|?]|by rewrite HP|done].
  - apply (inv_move s ds d x); try done.
    + unfold sent_one. by destruct (if bool_decide _ then _ else _).
    + by rewrite HP.
    + intros HD _ _. by apply drainer_ok_sent.
  - apply (inv_move s ds d x); try done; [by rewrite HP|].
    intros HD _ _. apply drainer_ok_pos; [by intros _|by rewrite HP|done].
  - apply (inv_move s ds d x); try done; [by rewrite HP|].
    intros HD _ _. by apply drainer_ok_woken.
  - assert (inv (MkSys s (<[d := set_pos x Gone]> ds))) as I'.
    { apply (inv_move s ds d x); done. }
    unfold exit_locked. case_bool_decide; [|done].
    destruct I' as [J1 J2 J3]. simpl in *. split; simpl; [|done|].
    + by apply (session_ok_marks s); try done; apply HK.
    + intros d' y Hy Hg Hm. apply (drainer_ok_shrink s); try done. by apply J3.
Qed.

Lemma drain_reachable_inv y : reachable y → inv y.
Proof.
  induction 1 as [e|x y _ IH HS]; [|by eapply inv_step].
  split; simpl; [|done|done]. split; simpl; try lia; [constructor|set_solver].
Qed.

(** * Claims *)

(** An acknowledgment names [n]: one by one, or in one of the ranges that are read. *)
Definition acks (appliedAbove appliedRanges : list Z) (n : Z) : bool :=
  bool_decide (n ∈ appliedAbove)
  || existsb (λ p, bool_decide (p.1 ≤ n ≤ p.2)) (range_pairs maxRetainedOps appliedRanges).

Lemma ack_above_elem ab rs (R : gset Z) n :
  n ∈ R → n ∈ ack_above ab rs R ↔ acks ab rs n = true.
Proof.
  intros Hn. unfold acks. rewrite orb_true_iff, bool_decide_eq_true, existsb_exists.
  unfold ack_above. case_bool_decide as Hd.
  - destruct Hd as [-> ->]. destruct maxRetainedOps; simpl; set_solver.
  - rewrite elem_of_union, appliedRangesSet_elem. unfold boundedAboveSet.
    rewrite elem_of_list_to_set, list_elem_of_filter.
    setoid_rewrite bool_decide_eq_true. setoid_rewrite <- list_elem_of_In. tauto.
Qed.

(** An acknowledgment of the current process epoch moves the cursor to the
    acknowledged number, clamped to what was issued and never back, and drops exactly
    the retained operations at or below the cursor, named one by one, or covered by
    one of the first 4096 ranges; an acknowledgment of a replaced process changes
    nothing. The difference-array walk over the ranges thus equals checking every
    operation against every range. *)
Theorem ack_prunes_exactly p sid s e acked ab rs :
  sessions p !! sid = Some s →
  let p' := AckControl sid e acked ab rs p in
  if decide (epoch s = e) then
    ∃ s', sessions p' !! sid = Some s'
      ∧ cursor s' = Z.max (cursor s) (Z.min acked (nextSeq s))
      ∧ ops s' = filter (λ r, ¬ seq r ≤ cursor s' ∧ acks ab rs (seq r) = false) (ops s)
      ∧ nextSeq s' = nextSeq s ∧ held s' = held s
  else sessions p' !! sid = Some s.
Proof.
  intros Hs p'. subst p'. unfold AckControl, on_session. rewrite Hs. simpl.
  rewrite lookup_insert_eq. unfold ack_locked. case_decide as HE.
  - rewrite bool_decide_eq_false_2 by tauto. eexists. split; [done|]. simpl.
    split; [repeat case_bool_decide; lia|]. split; [|done].
    apply filter_ext_elem. intros r Hr.
    assert (seq r ∈ (list_to_set (map seq (ops s)) : gset Z)) as Hin.
    { apply elem_of_list_to_set, list_elem_of_fmap. eauto. }
    rewrite (ack_above_elem _ _ _ _ Hin). by rewrite not_true_iff_false.
  - by rewrite bool_decide_eq_true_2.
Qed.

(** Two pairs and a stray number: 3 is acknowledged by cursor, 5 and 6 by range. *)
Definition demo_producer : Producer :=
  foldl (λ p o, (Send "s" o p).1) (Bind "s" newControlProducer)
    (replicate 8 (MkControl Prompt "hello" 0)).

Lemma ack_prunes_exactly_witness :
  let p' := AckControl "s" 1 3 [] [5; 6; 9; 8; 8] demo_producer in
  (∃ s', sessions p' !! "s" = Some s' ∧ cursor s' = 3)
  ∧ map seq (mget [] (ops <$> sessions p') "s") = [4; 7; 8].
Proof.
  intros p'.
  destruct (sessions demo_producer !! "s") as [s|] eqn:Es; [|vm_compute in Es; discriminate].
  pose proof (ack_prunes_exactly demo_producer "s" s 1 3 [] [5; 6; 9; 8; 8] Es) as H.
  split; [|vm_compute; reflexivity].
  assert (epoch s = 1 ∧ cursor s = 0 ∧ nextSeq s = 8) as (E1 & E2 & E3)
    by (vm_compute in Es; injection Es as <-; done).
  cbn zeta in H. rewrite decide_True in H by exact E1.
  destruct H as (s' & H1 & H2 & _). exists s'. split; [exact H1|]. rewrite H2, E2, E3. reflexivity.
Defined.

(** What identifies an operation across renumbering. *)
Definition strip (r : retained) : Control * string := (control (op r), body (op r)).

Lemma renumber_strip n l : map strip (renumber n l) = map strip (filter liveOp l).
Proof.
  revert n. induction l as [|r l IH]; intros n; simpl; [done|].
  destruct (replayPath (op r)) eqn:E.
  - by rewrite filter_cons_False by (unfold liveOp; congruence).
  - rewrite filter_cons_True by done. simpl. by rewrite IH.
Qed.

(** A restart loses no live operation that the old process never acknowledged:
    the first operation gets number 1 and every retained live operation follows in its
    order, numbered upwards from 2 and stamped, under a fresh epoch, with the cursor at
    0, the barrier down and no subscription. *)
Theorem restart_keeps_unacked p sid s first :
  sessions p !! sid = Some s →
  ∃ s', Restart sid first p = (MkProducer (<[sid := s']> (sessions p)) (u64 (lastEpoch p + 1)), None)
    ∧ map strip (ops s') = (control first, body first) :: map strip (filter liveOp (ops s))
    ∧ map seq (ops s') = (λ k, Z.of_nat (S k)) <$> List.seq 0 (length (ops s'))
    ∧ Forall (λ r, ControlSeq (op r) = seq r) (ops s')
    ∧ epoch s' = u64 (lastEpoch p + 1) ∧ nextSeq s' = Z.of_nat (length (ops s'))
    ∧ cursor s' = 0 ∧ held s' = false ∧ live s' = false ∧ wake s' = None.
Proof.
  intros Hs. unfold Restart. rewrite Hs. eexists. split; [done|]. simpl.
  split; [by rewrite renumber_strip|].
  split; [|split; [|done]].
  - f_equal. rewrite <- fmap_S_seq, <- list_fmap_compose.
    assert (∀ n l, map seq (renumber n l) = (λ k, n + Z.of_nat k) <$> List.seq 0 (length (renumber n l))) as H.
    { clear. intros n l. revert n. induction l as [|r l IH]; intros n; simpl; [done|].
      destruct (replayPath (op r)); [apply IH|]. simpl. f_equal; [lia|].
      rewrite IH, <- fmap_S_seq, <- list_fmap_compose. apply list_fmap_ext. intros. simpl. lia. }
    rewrite H. apply list_fmap_ext. intros. simpl. lia.
  - constructor; [done|]. apply Forall_forall. intros r Hr. by apply renumber_spec in Hr as [_ ?].
Qed.

(** A restart of the demo session after three acknowledgments. *)
Lemma restart_keeps_unacked_witness :
  let p := AckControl "s" 1 6 [] [] demo_producer in
  ∃ s', Restart "s" (MkControl StartNow "go" 0) p
        = (MkProducer (<["s" := s']> (sessions p)) 2, None)
    ∧ map strip (ops s') = [(StartNow, "go"); (Prompt, "hello"); (Prompt, "hello")].
Proof.
  intros p. destruct (sessions p !! "s") as [s|] eqn:Es; [|vm_compute in Es; discriminate].
  destruct (restart_keeps_unacked p "s" s (MkControl StartNow "go" 0) Es) as (s' & H1 & H2 & _).
  exists s'. split; [exact H1|]. rewrite H2. vm_compute in Es. injection Es as <-. vm_compute. reflexivity.
Defined.

(** C26. What a subscription owes, under every interleaving of senders, acknowledgments,
    the barrier, restarts, takeovers and drain loops: the current subscription writes
    each operation at most once, the live ones in ascending order, and when it sleeps
    with no wake pending every retained operation that the barrier lets pass has been
    written to it. *)
Theorem subscription_delivers y d x :
  reachable y → drainers y !! d = Some x → pos x ≠ Gone → mine x = sub (obj y) →
  NoDup (map seq (log x))
  ∧ StronglySorted seq_lt (filter liveOp (log x))
  ∧ (pos x = Parked → token x = false →
     ∀ r, r ∈ ops (obj y) → deliverable (obj y) r = true → r ∈ log x).
Proof.
  intros R Hx HG HM. destruct (inv_current y (drain_reachable_inv y R) d x Hx HG HM)
    as [H1 H2 H3 H4 H5 H6 H7 H8 H9 H10 H11 H12 H13].
  split; [done|]. split.
  - rewrite filter_app in H12. by apply StronglySorted_app in H12 as (_ & ? & _).
  - intros HP HT r Hr Hd. destruct (H10 r Hr Hd) as [?|[Hb|[?|?]]]; [auto| |congruence|congruence].
    rewrite H9 in Hb by auto. by apply not_elem_of_nil in Hb.
Qed.

(** One operation sent, collected, written; the drainer parks. *)
Definition demo_parked : Sys :=
  let o := MkControl Prompt "hello" 1 in
  MkSys (MkSession 1 [Retained 1 o] false 1 (Some 7%nat) true false 0 5)
    {[ 7%nat := MkDrainer 1 1 ∅ [] Parked false false [Retained 1 o] ]}.

Lemma demo_parked_reachable : reachable demo_parked.
Proof.
  pose proof (reach_new 5) as R.
  eapply reach_step in R; [|eapply (SBind _ _ 7); vm_compute; reflexivity].
  eapply reach_step in R; [|eapply (SSend _ _ (MkControl Prompt "hello" 0) false); vm_compute; reflexivity].
  eapply reach_step in R; [|eapply (SCycle _ _ 7); vm_compute; reflexivity].
  eapply reach_step in R; [|eapply (SCheck _ _ 7); vm_compute; reflexivity].
  eapply reach_step in R; [|eapply (SSent _ _ 7); vm_compute; reflexivity].
  eapply reach_step in R; [|eapply (SPark _ _ 7); vm_compute; reflexivity].
  eapply reach_step in R; [|eapply (SWake _ _ 7); vm_compute; reflexivity].
  eapply reach_step in R; [|eapply (SCycle _ _ 7); vm_compute; reflexivity].
  eapply reach_step in R; [|eapply (SPark _ _ 7); vm_compute; reflexivity].
  vm_compute in R. exact R.
Qed.

Lemma subscription_delivers_witness :
  let r := Retained 1 (MkControl Prompt "hello" 1) in
  r ∈ ops (obj demo_parked) ∧ r ∈ [r].
Proof.
  intros r. split; [apply list_elem_of_singleton; reflexivity|].
  apply (subscription_delivers demo_parked 7 (MkDrainer 1 1 ∅ [] Parked false false [r]));
    [apply demo_parked_reachable|reflexivity|discriminate|reflexivity|reflexivity|reflexivity| |reflexivity].
  apply list_elem_of_singleton. reflexivity.
Defined.

End ControlDrain.
