(* ===== verification/Router.v ===== *)
(** The session-command router ([src/go/internal/runnerhub/router.go]).

    Client calls push commands down the Runner's stream and wait for the result with
    the same request id.  The state is the router under its mutex, the pending calls
    on the heap (waiters hold pointers to them), the outbound queue of every
    attachment, and what each attachment's sender has written to its stream.  An
    operation is one critical section, one iteration of a sender, or one of the two
    halves of [complete] (the lookup under the lock, and the publication of the result
    after it).  Closing a closed channel, and sending on one, are [Panic].

    The refusal registry is a third-party LRU cache; it is the interface [Lru].  The hook
    for a session the Runner does not know is installed, as the hub does at enroll. *)
From stdpp Require Import base gmap strings list.
From Stdlib Require Import ZArith Lia.
From S2P Require Import Prelude LruCache.

Open Scope Z_scope.

Module Router.

(** * Data *)

Record deliverRefusal := MkRefusal { r_session : string; r_trace : string }.

Inductive frameClass := frameDeliver | frameSignal | frameCommand.

#[export] Instance frameClass_eq_dec : EqDecision frameClass.
Proof. solve_decision. Defined.

(** A [SessionsResponse]: its request id, the session of its deliver arm, its trace. *)
Record command := MkCommand { cmd_id : string; cmd_session : string; cmd_trace : string }.

Record outFrame := MkFrame { cmd : command; class : frameClass }.

(** A [SessionsRequest]: the request id, whether it is an error, and whether that
    error is NOT_FOUND. *)
Record reply := MkReply { rep_id : string; rep_error : bool; rep_notFound : bool; rep_body : string }.

(** Why a call failed: the stream detached, or its frame could not be written. *)
Inductive callErr := Detached (cause : string) | SendFailed.

Inductive outcome := Answer (r : reply) | Failure (e : callErr).

Record pendingCall := MkCall { call_id : string; done : option outcome }.

Record senderState := MkSender {
  queue : list outFrame;
  qclosed : bool;
  exited : bool;
  wire : list outFrame;
}.

Definition sendQueueCap : nat := Z.to_nat 256.
Definition deliverRefusalsMax : nat := Z.to_nat 16384.
#[global] Opaque deliverRefusalsMax.

Section router.
Context {L : Type} `{!Lru deliverRefusalsMax deliverRefusal L}.

Record commandRouter := MkRouter {
  sender : option nat;
  inflight : gmap string nat;
  deliverRefusals : L;
  refusedDelivers : Z;
  unknown : list string;
  calls : gmap nat pendingCall;
  senders : gmap nat senderState;
  (* results looked up and not yet published: the call and the result *)
  publishing : list (nat * outcome);
}.

Definition newCommandRouter : commandRouter :=
  MkRouter None ∅ lru_empty 0 [] ∅ ∅ [].

Inductive routerErr := ErrNoRequestID | ErrNoSessionsStream | ErrQueueFull.

(** * Operations *)

Definition attach (q : nat) (r : commandRouter) : commandRouter :=
  MkRouter (Some q) (inflight r) (deliverRefusals r) (refusedDelivers r) (unknown r) (calls r)
    (<[q := MkSender [] false false []]> (senders r)) (publishing r).

(** [call.err = ...; close(call.done)], [call.result = ...; close(call.done)]. *)
Definition close_call (o : outcome) (cs : gmap nat pendingCall) (c : nat)
    : result routerErr (gmap nat pendingCall) :=
  match cs !! c with
  | Some (MkCall id None) => Ok (<[c := MkCall id (Some o)]> cs)
  | _ => Panic
  end.

Fixpoint close_calls (o : outcome) (l : list nat) (cs : gmap nat pendingCall)
    : result routerErr (gmap nat pendingCall) :=
  match l with
  | [] => Ok cs
  | c :: l => cs1 <-? close_call o cs c; close_calls o l cs1
  end.

Definition close_queue (q : nat) (ss : gmap nat senderState) : result routerErr (gmap nat senderState) :=
  match ss !! q with
  | Some s => if qclosed s then Panic
              else Ok (<[q := MkSender (queue s) true (exited s) (wire s)]> ss)
  | None => Panic
  end.

(** [detach] under the lock: the range over the map visits the calls in some order. *)
Definition detach (cause : string) (r : commandRouter) : result routerErr commandRouter :=
  ss <-? match sender r with Some q => close_queue q (senders r) | None => Ok (senders r) end;
  cs <-? close_calls (Failure (Detached cause)) (map snd (map_to_list (inflight r))) (calls r);
  Ok (MkRouter None ∅ (deliverRefusals r) (refusedDelivers r) (unknown r) cs ss (publishing r)).

(** [enqueue]: [false] without a sender or with a full queue. *)
Definition enqueue (f : outFrame) (r : commandRouter) : result routerErr (gmap nat senderState * bool) :=
  match sender r with
  | None => Ok (senders r, false)
  | Some q =>
      match senders r !! q with
      | None => Panic
      | Some s =>
          if qclosed s then Panic
          else if bool_decide (length (queue s) < sendQueueCap)%nat
          then Ok (<[q := MkSender (queue s ++ [f]) (qclosed s) (exited s) (wire s)]> (senders r), true)
          else Ok (senders r, false)
      end
  end.

(** What a dispatch waits on: the call, new or joined. *)
Definition dispatch (cm : command) (c : nat) (r : commandRouter)
    : result routerErr (commandRouter * (routerErr + nat)) :=
  if bool_decide (cmd_id cm = "") then Ok (r, inl ErrNoRequestID)
  else
    match inflight r !! cmd_id cm with
    | Some existing => Ok (r, inr existing)
    | None =>
        match sender r with
        | None => Ok (r, inl ErrNoSessionsStream)
        | Some _ =>
            e <-? enqueue (MkFrame cm frameCommand) r;
            if e.2 : bool then
              Ok (MkRouter (sender r) (<[cmd_id cm := c]> (inflight r)) (deliverRefusals r)
                    (refusedDelivers r) (unknown r) (<[c := MkCall (cmd_id cm) None]> (calls r)) e.1
                    (publishing r), inr c)
            else Ok (r, inl ErrQueueFull)
        end
    end.

Definition push (cm : command) (r : commandRouter) : result routerErr commandRouter :=
  e <-? enqueue (MkFrame cm frameSignal) r;
  Ok (MkRouter (sender r) (inflight r) (deliverRefusals r) (refusedDelivers r) (unknown r)
        (calls r) e.1 (publishing r)).

Definition send1 (cm : command) (r : commandRouter) : result routerErr (commandRouter * option routerErr) :=
  if bool_decide (cmd_id cm = "") then Ok (r, Some ErrNoRequestID)
  else
    match sender r with
    | None => Ok (r, Some ErrNoSessionsStream)
    | Some _ =>
        let l := lru_add (cmd_id cm) (MkRefusal (cmd_session cm) (cmd_trace cm)) (deliverRefusals r) in
        e <-? enqueue (MkFrame cm frameDeliver) r;
        Ok (MkRouter (sender r) (inflight r)
              (if e.2 then l else lru_remove (cmd_id cm) l)
              (refusedDelivers r) (unknown r) (calls r) e.1 (publishing r),
            if e.2 then None else Some ErrQueueFull)
    end.

(** [complete] under the lock, and what follows it for a refused deliver: the counter,
    and the hook for a session the Runner does not know. *)
Definition complete (rep : reply) (r : commandRouter) : commandRouter :=
  match inflight r !! rep_id rep with
  | Some c =>
      MkRouter (sender r) (delete (rep_id rep) (inflight r)) (deliverRefusals r) (refusedDelivers r)
        (unknown r) (calls r) (senders r) (publishing r ++ [(c, Answer rep)])
  | None =>
      let l := lru_remove (rep_id rep) (deliverRefusals r) in
      match lru_peek (rep_id rep) (deliverRefusals r) with
      | None => MkRouter (sender r) (inflight r) l (refusedDelivers r) (unknown r) (calls r)
                  (senders r) (publishing r)
      | Some ref =>
          MkRouter (sender r) (inflight r) l (u64 (refusedDelivers r + 1))
            (if rep_error rep && rep_notFound rep && bool_decide (r_session ref ≠ "")
             then unknown r ++ [r_session ref] else unknown r)
            (calls r) (senders r) (publishing r)
      end
  end.

(** The second half of a correlated [complete]. *)
Definition publish_result (i : nat) (r : commandRouter) : result routerErr commandRouter :=
  match publishing r !! i with
  | None => Ok r
  | Some (c, o) =>
      cs <-? close_call o (calls r) c;
      Ok (MkRouter (sender r) (inflight r) (deliverRefusals r) (refusedDelivers r) (unknown r) cs
            (senders r) (delete i (publishing r)))
  end.

(** [failFrameOnSendError]. *)
Definition failFrame (f : outFrame) (r : commandRouter) : result routerErr commandRouter :=
  let id := cmd_id (cmd f) in
  match class f with
  | frameCommand =>
      match inflight r !! id with
      | Some c =>
          cs <-? close_call (Failure SendFailed) (calls r) c;
          Ok (MkRouter (sender r) (delete id (inflight r)) (deliverRefusals r) (refusedDelivers r)
                (unknown r) cs (senders r) (publishing r))
      | None => Ok r
      end
  | frameDeliver =>
      Ok (MkRouter (sender r) (inflight r) (lru_remove id (deliverRefusals r)) (refusedDelivers r)
            (unknown r) (calls r) (senders r) (publishing r))
  | frameSignal => Ok r
  end.

(** One iteration of [runSender]: a frame is written, or the write fails and the
    sender ends; the sender also ends when its closed queue is empty. *)
Definition runSender1 (q : nat) (ok : bool) (r : commandRouter) : result routerErr commandRouter :=
  match senders r !! q with
  | None => Ok r
  | Some s =>
      if exited s then Ok r
      else match queue s with
           | [] => if qclosed s
                   then Ok (MkRouter (sender r) (inflight r) (deliverRefusals r) (refusedDelivers r)
                              (unknown r) (calls r)
                              (<[q := MkSender [] true true (wire s)]> (senders r)) (publishing r))
                   else Ok r
           | f :: fs =>
               let s' := if ok then MkSender fs (qclosed s) false (wire s ++ [f])
                         else MkSender fs (qclosed s) true (wire s) in
               let r' := MkRouter (sender r) (inflight r) (deliverRefusals r) (refusedDelivers r)
                           (unknown r) (calls r) (<[q := s']> (senders r)) (publishing r) in
               if ok then Ok r' else failFrame f r'
           end
  end.

(** * Runs *)

Inductive rop :=
| OAttach (q : nat)
| ODetach (cause : string)
| ODispatch (cm : command) (c : nat)
| OPush (cm : command)
| OSend1 (cm : command)
| OComplete (rep : reply)
| OPublish (i : nat)
| OSender (q : nat) (ok : bool).

Definition rstep (r : commandRouter) (o : rop) : result routerErr commandRouter :=
  match o with
  | OAttach q => Ok (attach q r)
  | ODetach cause => detach cause r
  | ODispatch cm c => x <-? dispatch cm c r; Ok x.1
  | OPush cm => push cm r
  | OSend1 cm => x <-? send1 cm r; Ok x.1
  | OComplete rep => Ok (complete rep r)
  | OPublish i => publish_result i r
  | OSender q ok => runSender1 q ok r
  end.

(** New attachments and new calls are new objects. *)
Definition fresh (r : commandRouter) (o : rop) : Prop :=
  match o with
  | OAttach q => senders r !! q = None
  | ODispatch _ c => calls r !! c = None
  | _ => True
  end.

Inductive reach : commandRouter → Prop :=
| reach_new : reach newCommandRouter
| reach_op r o r' : reach r → fresh r o → rstep r o = Ok r' → reach r'.

(** * The invariant *)

Record inv (r : commandRouter) : Prop := {
  i_sender : ∀ q, sender r = Some q → ∃ st, senders r !! q = Some st ∧ qclosed st = false;
  i_idle : sender r = None → inflight r = ∅;
  i_inflight : ∀ id c, inflight r !! id = Some c → calls r !! c = Some (MkCall id None);
  i_publishing : ∀ c o, (c, o) ∈ publishing r →
    ∃ id rep, calls r !! c = Some (MkCall id None) ∧ inflight r !! id ≠ Some c
      ∧ o = Answer rep ∧ rep_id rep = id;
  i_once : NoDup (map fst (publishing r));
  i_open : ∀ c id, calls r !! c = Some (MkCall id None) →
    inflight r !! id = Some c ∨ c ∈ map fst (publishing r);
  i_answer : ∀ c id rep, calls r !! c = Some (MkCall id (Some (Answer rep))) → rep_id rep = id;
}.

Lemma inv_new : inv newCommandRouter.
Proof.
  split; simpl; try done; try (intros; by rewrite lookup_empty in * ); try set_solver.
  constructor.
Qed.

(** Changes that leave the calls and the maps of calls alone. *)
Lemma inv_frame r r' :
  inflight r' = inflight r → calls r' = calls r → publishing r' = publishing r →
  (sender r' = None → sender r = None) →
  (∀ q, sender r' = Some q → ∃ st, senders r' !! q = Some st ∧ qclosed st = false) →
  inv r → inv r'.
Proof.
  intros E1 E2 E3 E4 E5 [H1 H2 H3 H4 H5 H6 H7].
  split; rewrite ?E1, ?E2, ?E3; try done. intros Hn. auto.
Qed.

Lemma enqueue_ok f r :
  inv r → ∃ ss b, enqueue f r = Ok (ss, b)
    ∧ (∀ q, sender r = Some q → ∃ st, ss !! q = Some st ∧ qclosed st = false)
    ∧ (b = true → sender r ≠ None).
Proof.
  intros [H1 _ _ _ _ _ _]. unfold enqueue. destruct (sender r) as [q|] eqn:ES.
  2: { exists (senders r), false. split; [done|]. split; [by intros ? [=]|done]. }
  destruct (H1 q eq_refl) as (st & Hst & Hc). rewrite Hst, Hc.
  case_bool_decide; eexists _, _; (split; [reflexivity|]); (split; [|done]).
  - intros q' [= <-]. rewrite lookup_insert_eq. eauto.
  - intros q' [= <-]. eauto.
Qed.

(** Closing the calls of a duplicate-free list of open calls. *)
Lemma close_calls_ok o l cs :
  NoDup l → (∀ c, c ∈ l → ∃ id, cs !! c = Some (MkCall id None)) →
  ∃ cs', close_calls o l cs = Ok cs' ∧
    ∀ c, cs' !! c = if decide (c ∈ l) then (λ p, MkCall (call_id p) (Some o)) <$> cs !! c else cs !! c.
Proof.
  revert cs. induction l as [|c l IH]; intros cs HN HO; cbn [close_calls].
  { exists cs. split; [done|]. intros c. by rewrite decide_False by (apply not_elem_of_nil). }
  apply NoDup_cons in HN as [Hc HN]. destruct (HO c) as [id Hid]; [set_solver|].
  unfold close_call at 1. rewrite Hid. simpl.
  destruct (IH (<[c := MkCall id (Some o)]> cs)) as (cs' & -> & H); [done| |].
  { intros c' Hc'. rewrite lookup_insert_ne by (intros ->; done). apply HO. set_solver. }
  exists cs'. split; [done|]. intros c'. rewrite H.
  destruct (decide (c' = c)) as [->|Hne].
  - rewrite decide_False, decide_True by set_solver. by rewrite lookup_insert_eq, Hid.
  - rewrite lookup_insert_ne by done. repeat case_decide; try done; set_solver.
Qed.

(** One open call gets its outcome and leaves the map or the publishing list. *)
Lemma inv_settle r id c o infl pub ss snd l rd u :
  inv r → calls r !! c = Some (MkCall id None) →
  (∀ id' c', infl !! id' = Some c' ↔ inflight r !! id' = Some c' ∧ c' ≠ c) →
  (∀ p, p ∈ pub → p ∈ publishing r ∧ p.1 ≠ c) →
  (∀ c', c' ∈ map fst (publishing r) → c' ≠ c → c' ∈ map fst pub) →
  NoDup (map fst pub) →
  (∀ rep, o = Answer rep → rep_id rep = id) →
  (snd = None → infl = ∅) →
  (∀ q, snd = Some q → ∃ st, ss !! q = Some st ∧ qclosed st = false) →
  inv (MkRouter snd infl l rd u (<[c := MkCall id (Some o)]> (calls r)) ss pub).
Proof.
  intros [H1 H2 H3 H4 H5 H6 H7] Hc HI HP HP' HN HA HE HQ. split; simpl; try done.
  - intros id' c' [Hin Hne]%HI. rewrite lookup_insert_ne by done. auto.
  - intros c' o' Hin. apply HP in Hin as [Hin Hne]. simpl in Hne.
    destruct (H4 _ _ Hin) as (id' & rep & E1 & E2 & E3).
    exists id', rep. rewrite lookup_insert_ne by done. split; [done|]. split; [|done].
    intros Hx. apply HI in Hx as [Hx _]. done.
  - intros c' id' [[_ [=]]|[Hne Hc']]%lookup_insert_Some. destruct (H6 _ _ Hc') as [?|?].
    + left. apply HI. auto.
    + right. auto.
  - intros c' id' rep [[_ [= <- Ho]]|[_ Hc']]%lookup_insert_Some; [auto|eauto].
Qed.

(** Settled calls keep their outcome. *)
Definition settled_kept (r r' : commandRouter) : Prop :=
  ∀ c id o, calls r !! c = Some (MkCall id (Some o)) → calls r' !! c = Some (MkCall id (Some o)).

Lemma settled_insert r c id o infl l rd u ss snd pub :
  calls r !! c = Some (MkCall id None) →
  settled_kept r (MkRouter snd infl l rd u (<[c := MkCall id (Some o)]> (calls r)) ss pub).
Proof.
  intros Hc c' id' o' H. simpl. rewrite lookup_insert_ne; [done|]. intros <-. congruence.
Qed.

Definition step_ok (r : commandRouter) (x : result routerErr commandRouter) : Prop :=
  ∃ r', x = Ok r' ∧ inv r' ∧ settled_kept r r'.

Lemma step_ok_frame r r' :
  inflight r' = inflight r → calls r' = calls r → publishing r' = publishing r →
  (sender r' = None → sender r = None) →
  (∀ q, sender r' = Some q → ∃ st, senders r' !! q = Some st ∧ qclosed st = false) →
  inv r → step_ok r (Ok r').
Proof.
  intros E1 E2 E3 E4 E5 HI. exists r'. split; [done|]. split; [by eapply inv_frame|].
  intros c id o. by rewrite E2.
Qed.

Lemma step_attach q r : inv r → senders r !! q = None → step_ok r (Ok (attach q r)).
Proof.
  intros HI Hq. apply step_ok_frame; try done. simpl. intros q' [= <-].
  rewrite lookup_insert_eq. eauto.
Qed.

Lemma step_detach cause r : inv r → step_ok r (detach cause r).
Proof.
  intros HI. unfold detach.
  assert (∃ ss, match sender r with Some q => close_queue q (senders r) | None => Ok (senders r) end
                = @Ok routerErr _ ss) as [ss ->].
  { destruct (sender r) as [q|] eqn:ES; [|eauto]. destruct (i_sender _ HI q ES) as (st & Hst & Hc).
    unfold close_queue. rewrite Hst, Hc. eauto. }
  simpl. set (l := map snd (map_to_list (inflight r))).
  assert (∀ c, c ∈ l ↔ ∃ id, inflight r !! id = Some c) as Hl.
  { intros c. unfold l. rewrite list_elem_of_fmap. split.
    - intros ([id c'] & -> & H%elem_of_map_to_list). eauto.
    - intros [id H]. exists (id, c). split; [done|]. by apply elem_of_map_to_list. }
  destruct (close_calls_ok (Failure (Detached cause)) l (calls r)) as (cs & Ecs & HC).
  - apply NoDup_fmap_2_strong; [|apply NoDup_map_to_list].
    intros [id1 c1] [id2 c2] H1%elem_of_map_to_list H2%elem_of_map_to_list E. simpl in E. subst c2.
    apply (i_inflight _ HI) in H1, H2. congruence.
  - intros c [id Hc]%Hl. apply (i_inflight _ HI) in Hc. eauto.
  - rewrite Ecs. simpl. eexists. split; [reflexivity|].
    assert (∀ c id o, calls r !! c = Some (MkCall id (Some o)) → c ∉ l) as Hdone.
    { intros c id o Hc [id' Hin]%Hl. apply (i_inflight _ HI) in Hin. congruence. }
    split; [|intros c id o Hc; simpl; rewrite HC, decide_False by eauto; done].
    destruct HI as [H1 H2 H3 H4 H5 H6 H7]. split; simpl; try done.
    + intros c o Hin. destruct (H4 _ _ Hin) as (id & rep & E1 & E2 & E3 & E4).
      exists id, rep. rewrite HC, decide_False; [by rewrite lookup_empty|].
      intros [id' Hx]%Hl. pose proof (H3 _ _ Hx) as Hx'. rewrite E1 in Hx'. injection Hx' as <-. done.
    + intros c id. rewrite HC. case_decide as Hd.
      * destruct (calls r !! c); by intros [=].
      * intros Hc. right. destruct (H6 _ _ Hc) as [Hx|]; [|done]. exfalso. apply Hd, Hl. eauto.
    + intros c id rep. rewrite HC. case_decide; [|apply H7]. destruct (calls r !! c); by intros [=].
Qed.

Lemma step_dispatch cm c r :
  inv r → calls r !! c = None → step_ok r (x <-? dispatch cm c r; Ok x.1).
Proof.
  intros HI Hc. unfold dispatch.
  assert (step_ok r (Ok r)) as Hsame.
  { apply step_ok_frame; try done. apply HI. }
  case_bool_decide; [done|]. destruct (inflight r !! cmd_id cm) as [c0|] eqn:EI; [done|].
  destruct (sender r) as [q|] eqn:ES; [|done].
  destruct (enqueue_ok (MkFrame cm frameCommand) r HI) as (ss & b & -> & HQ & _). simpl.
  destruct b; [|done]. simpl. eexists. split; [reflexivity|]. rewrite ES in HQ.
  split; [|intros c' id o Hc'; simpl; rewrite lookup_insert_ne; [done|congruence]].
  destruct HI as [H1 H2 H3 H4 H5 H6 H7]. split; simpl; try done.
  - intros id c' [[<- <-]|[Hne Hin]]%lookup_insert_Some; [by rewrite lookup_insert_eq|].
    rewrite lookup_insert_ne; [auto|]. intros <-. apply H3 in Hin. congruence.
  - intros c' o Hin. destruct (H4 _ _ Hin) as (id & rep & E1 & E2 & E3).
    exists id, rep. assert (c ≠ c') by congruence. rewrite lookup_insert_ne by done.
    split; [done|]. split; [|done]. intros [[_ ?]|[_ ?]]%lookup_insert_Some; [congruence|done].
  - intros c' id [[<- [= <-]]|[Hne Hc']]%lookup_insert_Some; [left; by rewrite lookup_insert_eq|].
    destruct (H6 _ _ Hc') as [Hx|]; [left|by right].
    rewrite lookup_insert_ne; [done|]. intros <-. congruence.
  - intros c' id rep Hx. apply lookup_insert_Some in Hx as [[_ Hx]|[_ Hx]]; [done|exact (H7 _ _ _ Hx)].
Qed.

Lemma step_push cm r : inv r → step_ok r (push cm r).
Proof.
  intros HI. unfold push. destruct (enqueue_ok (MkFrame cm frameSignal) r HI) as (ss & b & -> & HQ & _).
  simpl. by apply step_ok_frame.
Qed.

Lemma step_send1 cm r : inv r → step_ok r (x <-? send1 cm r; Ok x.1).
Proof.
  intros HI. unfold send1. case_bool_decide; [apply step_ok_frame; try done; apply HI|].
  destruct (sender r) as [q|] eqn:ES; [|apply step_ok_frame; try done; apply HI].
  destruct (enqueue_ok (MkFrame cm frameDeliver) r HI) as (ss & b & -> & HQ & _). simpl.
  rewrite ES in HQ. apply step_ok_frame; try done.
Qed.

Lemma step_complete rep r : inv r → step_ok r (Ok (complete rep r)).
Proof.
  intros HI. unfold complete. destruct (inflight r !! rep_id rep) as [c|] eqn:EI.
  2: { destruct (lru_peek _ _); apply step_ok_frame; try done; apply HI. }
  eexists. split; [reflexivity|]. split; [|by intros c1 id1 o1].
  destruct HI as [H1 H2 H3 H4 H5 H6 H7]. pose proof (H3 _ _ EI) as Hc. split; simpl; try done.
  - intros Hn. rewrite H2 by done. apply delete_empty.
  - intros id c' [_ Hin]%lookup_delete_Some. auto.
  - intros c' o [Hin|Hin]%elem_of_app.
    + destruct (H4 _ _ Hin) as (id & rep' & E1 & E2 & E3). exists id, rep'. split; [done|].
      split; [|done]. intros [_ ?]%lookup_delete_Some. done.
    + apply list_elem_of_singleton in Hin. injection Hin as -> ->.
      exists (rep_id rep), rep. rewrite lookup_delete_eq. done.
  - rewrite map_app. apply NoDup_app. split; [done|]. split; [|apply NoDup_singleton].
    intros c' ([c1 o1] & -> & Hin)%list_elem_of_fmap Hc'. apply list_elem_of_singleton in Hc'.
    simpl in Hc'. subst c1. destruct (H4 _ _ Hin) as (id & rep' & E1 & E2 & _).
    rewrite Hc in E1. injection E1 as <-. done.
  - intros c' id Hc'. destruct (H6 _ _ Hc') as [Hx|Hx]; [|right; rewrite map_app; set_solver].
    destruct (decide (id = rep_id rep)) as [->|Hne].
    + right. rewrite map_app. assert (c' = c) as -> by congruence. set_solver.
    + left. by rewrite lookup_delete_ne.
Qed.

Lemma step_publish i r : inv r → step_ok r (publish_result i r).
Proof.
  intros HI. unfold publish_result. destruct (publishing r !! i) as [[c o]|] eqn:EP.
  2: { apply step_ok_frame; try done; apply HI. }
  pose proof (list_elem_of_lookup_2 _ _ _ EP) as Hin.
  destruct (i_publishing _ HI _ _ Hin) as (id & rep & Hc & Hni & -> & Hrep).
  unfold close_call. rewrite Hc. simpl. eexists. split; [reflexivity|].
  split; [|by apply settled_insert].
  apply list_elem_of_split_length in EP as (l1 & l2 & EL & ->).
  pose proof (i_once _ HI) as HN. rewrite EL, map_app in HN. simpl in HN.
  apply (inv_settle r id c); try done.
  - intros id' c'. split; [|tauto]. intros Hx. split; [done|]. intros ->.
    apply (i_inflight _ HI) in Hx as Hx'. rewrite Hc in Hx'. injection Hx' as <-. done.
  - intros p Hp. rewrite EL, delete_middle in Hp.
    split; [rewrite EL; set_solver|]. intros E.
    apply NoDup_app in HN as (_ & Hd & [Hn _]%NoDup_cons).
    apply elem_of_app in Hp as [Hp|Hp].
    + apply (Hd c); [rewrite <- E; by apply list_elem_of_fmap_2|set_solver].
    + apply Hn. rewrite <- E. by apply list_elem_of_fmap_2.
  - intros c' Hx Hne. rewrite EL, delete_middle. rewrite EL, map_app in Hx. simpl in Hx.
    rewrite map_app. set_solver.
  - rewrite EL, delete_middle, map_app. apply NoDup_app in HN as (HN1 & Hd & [_ HN2]%NoDup_cons).
    apply NoDup_app. split; [done|]. split; [|done]. intros x Hx Hx2. apply (Hd x Hx). set_solver.
  - by intros rep' [= <-].
  - apply HI.
  - apply HI.
Qed.

Lemma step_failFrame f r : inv r → step_ok r (failFrame f r).
Proof.
  intros HI. unfold failFrame. destruct (class f); try (apply step_ok_frame; try done; apply HI).
  destruct (inflight r !! cmd_id (cmd f)) as [c|] eqn:EI; [|apply step_ok_frame; try done; apply HI].
  pose proof (i_inflight _ HI _ _ EI) as Hc. unfold close_call. rewrite Hc. simpl.
  eexists. split; [reflexivity|]. split; [|by apply settled_insert].
  apply (inv_settle r (cmd_id (cmd f)) c); try done.
  - intros id' c'. rewrite lookup_delete_Some. split.
    + intros [Hne Hx]. split; [done|]. intros ->. apply (i_inflight _ HI) in Hx. congruence.
    + intros [Hx Hne]. split; [|done]. intros <-. congruence.
  - intros [c' o] Hp. split; [done|]. simpl. intros ->.
    destruct (i_publishing _ HI _ _ Hp) as (id & rep & E1 & E2 & _). rewrite Hc in E1.
    injection E1 as <-. done.
  - apply HI.
  - intros Hn. rewrite (i_idle _ HI Hn). apply delete_empty.
  - apply HI.
Qed.

Lemma step_ok_trans r r' x : settled_kept r r' → step_ok r' x → step_ok r x.
Proof.
  intros HK (r2 & -> & HI & HK'). exists r2. split; [done|]. split; [done|].
  intros c id o Hc. by apply HK', HK.
Qed.

Lemma step_sender q ok r : inv r → step_ok r (runSender1 q ok r).
Proof.
  intros HI. unfold runSender1.
  assert (step_ok r (Ok r)) as Hsame by (apply step_ok_frame; try done; apply HI).
  destruct (senders r !! q) as [st|] eqn:EQ; [|done]. destruct (exited st); [done|].
  assert (∀ s', qclosed s' = qclosed st → ∀ q', sender r = Some q' →
    ∃ st', <[q := s']> (senders r) !! q' = Some st' ∧ qclosed st' = false) as HS.
  { intros s' Es q' Hq'. destruct (i_sender _ HI q' Hq') as (st' & Hst & Hcl).
    destruct (decide (q = q')) as [->|]; [|rewrite lookup_insert_ne by done; eauto].
    rewrite lookup_insert_eq. exists s'. split; [done|]. congruence. }
  destruct (queue st) as [|f fs].
  - destruct (qclosed st) eqn:EC; [|done]. by apply step_ok_frame; try done; apply HS.
  - destruct ok; [by apply step_ok_frame; try done; apply HS|].
    eapply step_ok_trans; [|apply step_failFrame]; [by intros c1 id1 o1|].
    apply (inv_frame r); try done. by apply HS.
Qed.

Lemma rstep_ok r o : inv r → fresh r o → step_ok r (rstep r o).
Proof.
  intros HI HF. destruct o; simpl in *.
  - by apply step_attach.
  - by apply step_detach.
  - by apply step_dispatch.
  - by apply step_push.
  - by apply step_send1.
  - by apply step_complete.
  - by apply step_publish.
  - by apply step_sender.
Qed.

Lemma reach_inv r : reach r → inv r.
Proof.
  induction 1 as [|r o r' _ IH HF HS]; [apply inv_new|].
  destruct (rstep_ok r o IH HF) as (r2 & E & HI & _). congruence.
Qed.

(** * Claims *)

(** C24. Whatever the interleaving of dispatches, retries, results, send failures,
    attaches and detaches, no operation panics (no call's channel is closed twice, no
    frame goes to a closed queue); a settled call keeps its outcome; an answer carries
    its call's own request id; and a call that is not settled is in flight on a live
    attachment or its answer is being published, so a detached router leaves no waiter
    behind. *)
Theorem calls_settle_once r o :
  reach r → fresh r o →
  (∃ r', rstep r o = Ok r' ∧ settled_kept r r')
  ∧ (∀ c id rep, calls r !! c = Some (MkCall id (Some (Answer rep))) → rep_id rep = id)
  ∧ (∀ c id, calls r !! c = Some (MkCall id None) →
       inflight r !! id = Some c ∧ sender r ≠ None
       ∨ ∃ rep, (c, Answer rep) ∈ publishing r ∧ rep_id rep = id).
Proof.
  intros R HF. pose proof (reach_inv r R) as HI. refine (conj _ (conj _ _)).
  - destruct (rstep_ok r o HI HF) as (r' & E & _ & HK). eauto.
  - apply HI.
  - intros c id Hc. destruct (i_open _ HI _ _ Hc) as [Hx|Hx].
    + left. split; [done|]. intros Hn. rewrite (i_idle _ HI Hn), lookup_empty in Hx. done.
    + right. apply list_elem_of_fmap in Hx as ([c' o'] & E & Hin). simpl in E. subst c'.
      destruct (i_publishing _ HI _ _ Hin) as (id' & rep & E1 & _ & -> & E2). exists rep.
      split; [done|]. rewrite Hc in E1. injection E1 as <-. done.
Qed.

End router.

(** A command is dispatched and written, its answer arrives and is being published,
    and the stream detaches. *)
Lemma calls_settle_once_witness :
  ∃ r : @commandRouter (listCache deliverRefusal),
    calls r !! 7%nat = Some (MkCall "r1" None) ∧ length (publishing r) = 1%nat ∧
    ∃ r', rstep r (ODetach "closed") = Ok r' ∧ settled_kept r r'.
Proof.
  pose proof (@reach_new _ (listCache_lru deliverRefusalsMax)) as R.
  eapply (reach_op _ (OAttach 0)) in R; [|reflexivity|vm_compute; reflexivity].
  eapply (reach_op _ (ODispatch (MkCommand "r1" "" "") 7)) in R; [|reflexivity|vm_compute; reflexivity].
  eapply (reach_op _ (OSender 0 true)) in R; [|exact I|vm_compute; reflexivity].
  eapply (reach_op _ (OComplete (MkReply "r1" false false "ok"))) in R; [|exact I|vm_compute; reflexivity].
  match type of R with reach ?r => exists r end.
  refine (conj _ (conj _ _)); [vm_compute; reflexivity|vm_compute; reflexivity|].
  exact (proj1 (calls_settle_once _ (ODetach "closed") R I)).
Defined.

End Router.
