(* ===== verification/HubBindings.v ===== *)
(** Session bindings of the Runner hub ([src/go/internal/runnerhub/relay_comms.go],
    [hub.go]): which agent account a session speaks for, and which Runner serves it.

    The hub caches the durable table in maps under one mutex.  An operation that leaves
    the mutex for a store call is split at those calls ([..._begin], [..._end]): other
    operations, other servers writing the table, and a re-enrolling Runner may run in
    between.  The table is the environment: rows appear and disappear at any time.  The
    model is one tenant's view of it, which row security gives every read the hub makes
    outside the system role. *)
From stdpp Require Import base gmap strings list.
From Stdlib Require Import ZArith Lia.
From S2P Require Import Prelude.

Open Scope Z_scope.

Module HubBindings.

(** * Data *)

Record sessionBinding := MkBinding {
  account : string;
  runnerID : string;
  version : string;
  lifetime : Z;
}.

Inductive bindingLookup := bindingFound | bindingNotFound | bindingUnverifiable.

Inductive relayErr := errSessionUnbound | errSessionBindingUnverifiable.

(** The binding fields of [Hub]; [runner] is the enrolled Runner's id, [wired] says
    whether a binding store is installed. *)
Record Hub := MkHub {
  runner : option string;
  wired : bool;
  containerAccounts : gmap string sessionBinding;
  sessionAccounts : gmap string sessionBinding;
  accountSessions : gmap string string;
  reapStale : gmap string Z;
  bindingEpoch : Z;
  lastLifetime : Z;
  runnerEpoch : gmap string Z;
}.

Definition NewHub (w : bool) : Hub := MkHub None w ∅ ∅ ∅ ∅ 0 0 ∅.

Definition set_maps (fwd : gmap string sessionBinding) (rev : gmap string string) (h : Hub) : Hub :=
  MkHub (runner h) (wired h) (containerAccounts h) fwd rev (reapStale h) (bindingEpoch h)
    (lastLifetime h) (runnerEpoch h).

Definition set_containers (m : gmap string sessionBinding) (h : Hub) : Hub :=
  MkHub (runner h) (wired h) m (sessionAccounts h) (accountSessions h) (reapStale h)
    (bindingEpoch h) (lastLifetime h) (runnerEpoch h).

(** * Containers *)

Definition bindContainer (containerName agentAccountID rid : string) (h : Hub) : Hub :=
  if bool_decide (containerName = "" ∨ agentAccountID = "" ∨ rid = "") then h
  else set_containers (<[containerName := MkBinding agentAccountID rid "" 0]> (containerAccounts h)) h.

Definition unbindContainer (containerName : string) (h : Hub) : Hub :=
  set_containers (delete containerName (containerAccounts h)) h.

Definition owned_by (rid : string) (o : option sessionBinding) : option string :=
  match o with
  | Some b => if bool_decide (rid = "" ∨ runnerID b ≠ rid) then None else Some (account b)
  | None => None
  end.

Definition AccountForContainer (rid containerName : string) (h : Hub) : option string :=
  owned_by rid (containerAccounts h !! containerName).

Definition AccountForLiveSession (rid sid : string) (h : Hub) : option string :=
  owned_by rid (sessionAccounts h !! sid).

(** * Bindings *)

Definition newBindingLocked (a rid v : string) (h : Hub) : sessionBinding * Hub :=
  let l := u64 (lastLifetime h + 1) in
  (MkBinding a rid v l,
   MkHub (runner h) (wired h) (containerAccounts h) (sessionAccounts h) (accountSessions h)
     (reapStale h) (bindingEpoch h) l (runnerEpoch h)).

Definition sameBinding (a b : sessionBinding) : bool :=
  if bool_decide (version a ≠ "" ∨ version b ≠ "") then bool_decide (version a = version b)
  else bool_decide (lifetime a = lifetime b).

(** [promoteSession] before the store write: the account and the enrolled Runner. *)
Definition promote_begin (containerName sid : string) (h : Hub) : option (string * string) :=
  if bool_decide (containerName = "" ∨ sid = "") then None
  else (λ b, (account b, default "" (runner h))) <$> containerAccounts h !! containerName.

(** [promoteSession] after it: [displaced] and [v] are what the store returned, empty
    when it failed or is not wired. *)
Definition promote_end (sid a rid displaced v : string) (h : Hub) : Hub :=
  let '(b, h1) := newBindingLocked a rid v h in
  let fwd := <[sid := b]> (sessionAccounts h1) in
  set_maps (if bool_decide (displaced ≠ "" ∧ displaced ≠ sid) then delete displaced fwd else fwd)
    (<[a := sid]> (accountSessions h1)) h1.

(** Drop a forward entry, and the reverse entry if it still points back. *)
Definition evict (sid : string) (b : sessionBinding) (h : Hub) : Hub :=
  set_maps (delete sid (sessionAccounts h))
    (if bool_decide (accountSessions h !! account b = Some sid)
     then delete (account b) (accountSessions h) else accountSessions h) h.

Definition evictStaleBinding (sid : string) (stale : option sessionBinding) (h : Hub) : Hub :=
  match stale, sessionAccounts h !! sid with
  | Some st, Some live => if sameBinding live st then evict sid st h else h
  | _, _ => h
  end.

(** [releaseSession]: whether a limited release goes on to the store. *)
Definition mine (only : option sessionBinding) (o : option sessionBinding) : bool :=
  match only, o with
  | Some x, Some live => sameBinding live x
  | _, _ => true
  end.

Definition release_begin (sid : string) (only : option sessionBinding) (h : Hub) : bool :=
  mine only (sessionAccounts h !! sid).

(** What the store call of a release does, by the binding it is limited to. *)
Inductive deletion := DeleteAll | DeleteVersion (v : string) | ProbeOnly.

Definition release_store (only : option sessionBinding) : deletion :=
  match only with
  | None => DeleteAll
  | Some b => if bool_decide (version b ≠ "") then DeleteVersion (version b) else ProbeOnly
  end.

(** [releaseSession] after the store call: whether it released, and the account that
    has no session any more. *)
Definition release_end (sid : string) (only : option sessionBinding) (h : Hub)
    : Hub * bool * option string :=
  match sessionAccounts h !! sid with
  | None => (h, true, None)
  | Some b =>
      if mine only (Some b) then
        (evict sid b h, true,
         if bool_decide (accountSessions h !! account b = Some sid) then Some (account b) else None)
      else (h, false, None)
  end.

Definition OnBindingChange (sid : string) (h : Hub) : Hub :=
  if bool_decide (sid = "") then h
  else match sessionAccounts h !! sid with
       | Some b => evict sid b h
       | None => h
       end.

(** * Reading through *)

Definition readThroughAllowed (w enrolled systemRole : bool) : bool :=
  w && enrolled && negb systemRole.

(** A row as the store returns it: account, Runner, version, and when it was written. *)
Record row := MkRow { r_account : string; r_runner : string; r_version : string; r_born : nat }.

(** [lookupSessionBinding] before the read: an answer, or the epoch the read runs under. *)
Definition lookup_begin (sid : string) (systemRole : bool) (h : Hub)
    : (option sessionBinding * bindingLookup) + Z :=
  match sessionAccounts h !! sid with
  | Some b => inl (Some b, bindingFound)
  | None =>
      if negb (wired h) then inl (None, bindingNotFound)
      else if readThroughAllowed (wired h) (bool_decide (is_Some (runner h))) systemRole
      then inr (bindingEpoch h)
      else inl (None, bindingUnverifiable)
  end.

(** Whether a row read under an epoch may not be cached. *)
Definition refuses (rid : string) (ep : Z) (h : Hub) : bool :=
  bool_decide (mget 0 (reapStale h) rid ≠ 0) || bool_decide (ep < mget 0 (runnerEpoch h) rid).

(** [lookupSessionBinding] after a read that found the row. *)
Definition lookup_end (sid : string) (ep : Z) (r : row) (h : Hub)
    : Hub * (option sessionBinding * bindingLookup) :=
  match sessionAccounts h !! sid with
  | Some live => (h, (Some live, bindingFound))
  | None =>
      if refuses (r_runner r) ep h then (h, (None, bindingUnverifiable))
      else
        let '(b, h1) := newBindingLocked (r_account r) (r_runner r) (r_version r) h in
        (set_maps (<[sid := b]> (sessionAccounts h1)) (accountSessions h1) h1, (Some b, bindingFound))
  end.

(** [SessionForAccount] before the read. *)
Definition live_for (a : string) (h : Hub) : option string :=
  match accountSessions h !! a with
  | Some sid =>
      match sessionAccounts h !! sid with
      | Some b =>
          if match runner h with Some id => bool_decide (runnerID b = id) | None => true end
          then Some sid else None
      | None => None
      end
  | None => None
  end.

Definition account_begin (a : string) (systemRole : bool) (h : Hub)
    : Hub * (option string + (string * Z)) :=
  match live_for a h with
  | Some sid => (h, inl (Some sid))
  | None =>
      let h1 := set_maps (sessionAccounts h) (delete a (accountSessions h)) h in
      match runner h with
      | Some rid =>
          (h1, if readThroughAllowed (wired h) true systemRole then inr (rid, bindingEpoch h)
               else inl None)
      | None => (h1, inl None)
      end
  end.

(** [SessionForAccount] after a read that found session [sid] with row [r]. *)
Definition account_end (a rid : string) (ep : Z) (sid : string) (r : row) (h : Hub)
    : Hub * option string :=
  if bool_decide (r_runner r ≠ rid) then (h, None)
  else
    let live := match accountSessions h !! a with
                | Some s => match sessionAccounts h !! s with
                            | Some b => if bool_decide (runner h = Some (runnerID b)) then Some s else None
                            | None => None
                            end
                | None => None
                end in
    match live with
    | Some s => (h, Some s)
    | None =>
        let h1 := set_maps (sessionAccounts h) (delete a (accountSessions h)) h in
        if match runner h with
           | Some id => bool_decide (id ≠ rid) || bool_decide (ep < mget 0 (runnerEpoch h) (r_runner r))
           | None => false
           end || bool_decide (mget 0 (reapStale h) (r_runner r) ≠ 0)
        then (h1, None)
        else
          let '(b, h2) := newBindingLocked a (r_runner r) (r_version r) h1 in
          (set_maps (<[sid := b]> (sessionAccounts h2)) (<[a := sid]> (accountSessions h2)) h2, Some sid)
    end.

Definition CachedSessionForAccount (a : string) (h : Hub) : option string := accountSessions h !! a.
Definition LiveAgentSessions (h : Hub) : gmap string string := accountSessions h.

(** * Decisions on a lookup *)

Definition accountForRunnerSession (rid : string) (lk : option sessionBinding * bindingLookup)
    : option string :=
  match lk with
  | (Some b, bindingFound) => if bool_decide (rid = "" ∨ runnerID b ≠ rid) then None else Some (account b)
  | _ => None
  end.

Definition accountForRunnerSessionError (rid : string) (lk : option sessionBinding * bindingLookup)
    : result relayErr string :=
  if bool_decide (rid = "") then Err errSessionUnbound
  else match lk with
       | (_, bindingUnverifiable) => Err errSessionBindingUnverifiable
       | (Some b, bindingFound) =>
           if bool_decide (runnerID b ≠ rid) then Err errSessionUnbound else Ok (account b)
       | _ => Err errSessionUnbound
       end.

(** [frameSession]: [cached] and [enrolled] are read under one lock; [lk] is the lookup
    that follows a miss.  The binding, and whether the frame is allowed. *)
Definition frameSession (rid : string) (lifecycle enrolled : bool) (cached : option sessionBinding)
    (lk : option sessionBinding * bindingLookup) : option sessionBinding * bool :=
  if bool_decide (rid = "") then (None, false)
  else match cached with
       | Some b => (Some b, bool_decide (runnerID b = rid))
       | None =>
           if negb lifecycle && negb enrolled then (None, false)
           else match lk with
                | (_, bindingUnverifiable) => (None, false)
                | (Some b, bindingFound) => (Some b, bool_decide (runnerID b = rid))
                | _ => (None, enrolled)
                end
       end.

(** * Enrollment *)

(** [enroll] before the durable reap; the epoch it runs under. *)
Definition enroll_begin (id : string) (h : Hub) : Hub * Z :=
  let ep := u64 (bindingEpoch h + 1) in
  (MkHub (Some id) (wired h) ∅ ∅ ∅ (if wired h then <[id := ep]> (reapStale h) else reapStale h) ep
     (lastLifetime h) (<[id := ep]> (runnerEpoch h)), ep).

(** [enroll] after it. *)
Definition enroll_end (id : string) (ep : Z) (reaped : bool) (h : Hub) : Hub :=
  let ep' := u64 (bindingEpoch h + 1) in
  MkHub (runner h) (wired h) (containerAccounts h) (sessionAccounts h) (accountSessions h)
    (if reaped && bool_decide (mget 0 (reapStale h) id = ep) then delete id (reapStale h) else reapStale h)
    ep' (lastLifetime h) (<[id := ep']> (runnerEpoch h)).

(** * The system *)

Section system.
(** A session id belongs to one account: it is issued for it, and the table refuses to
    bind it to another. *)
Variable owner : string → string.

(** Operations between two of their critical sections. *)
Inductive thread :=
| TLookup1 (sid : string) (ep : Z)
| TLookup2 (sid : string) (ep : Z) (r : row)
| TAccount1 (a rid : string) (ep : Z)
| TAccount2 (a rid : string) (ep : Z) (sid : string) (r : row)
| TPromote1 (sid a rid : string)
| TPromote2 (sid a rid displaced v : string) (born : nat)
| TRelease (sid : string) (only : option sessionBinding)
| TEnroll1 (id : string) (ep : Z)
| TEnroll2 (id : string) (ep : Z) (reaped : bool).

(** [writer] holds [bindingWriteMu].  The clock, the time of each Runner's last enroll
    and the age of each cached binding (by lifetime) are only for the statements. *)
Record Sys := MkSys {
  hub : Hub;
  rows : gmap string row;
  threads : gmap nat thread;
  writer : option nat;
  clock : nat;
  enrolledAt : gmap string nat;
  born : gmap Z nat;
}.

Definition NewSys (w : bool) (rs : gmap string row) : Sys := MkSys (NewHub w) rs ∅ None 0 ∅ ∅.

(** Rows of [rs'] are old ones, or were written at [now]. *)
Definition table_change (now : nat) (rs rs' : gmap string row) : Prop :=
  ∀ sid r, rs' !! sid = Some r → rs !! sid = Some r ∨ r_born r = now ∧ r_account r = owner sid.

Definition reap (id : string) (rs : gmap string row) : gmap string row :=
  filter (λ p, r_runner p.2 ≠ id) rs.

(** The age of the binding an operation has just cached. *)
Definition record_born (h h' : Hub) (t : nat) (m : gmap Z nat) : gmap Z nat :=
  if bool_decide (lastLifetime h' = lastLifetime h) then m else <[lastLifetime h' := t]> m.

Definition room (h : Hub) : Prop := lastLifetime h + 1 < 2 ^ 64 ∧ bindingEpoch h + 1 < 2 ^ 64.

Inductive step : Sys → Sys → Prop :=
(* the table changes by itself *)
| STable h rs rs' ts w c e b :
    table_change (S c) rs rs' →
    step (MkSys h rs ts w c e b) (MkSys h rs' ts w (S c) e b)
(* operations of one critical section *)
| SContainer h rs ts w c e b cn a rid :
    step (MkSys h rs ts w c e b) (MkSys (bindContainer cn a rid h) rs ts w c e b)
| SUnbind h rs ts w c e b cn :
    step (MkSys h rs ts w c e b) (MkSys (unbindContainer cn h) rs ts w c e b)
| SChange h rs ts w c e b sid :
    step (MkSys h rs ts w c e b) (MkSys (OnBindingChange sid h) rs ts w c e b)
| SEvict h rs ts w c e b sid stale :
    (∀ st, stale = Some st → account st = owner sid) →
    step (MkSys h rs ts w c e b) (MkSys (evictStaleBinding sid stale h) rs ts w c e b)
(* lookupSessionBinding *)
| SLookup1 h rs ts w c e b t sid ep :
    ts !! t = None → lookup_begin sid false h = inr ep →
    step (MkSys h rs ts w c e b) (MkSys h rs (<[t := TLookup1 sid ep]> ts) w c e b)
| SLookup2 h rs ts w c e b t sid ep r :
    ts !! t = Some (TLookup1 sid ep) → rs !! sid = Some r →
    step (MkSys h rs ts w c e b) (MkSys h rs (<[t := TLookup2 sid ep r]> ts) w c e b)
| SLookup3 h rs ts w c e b t sid ep r h' :
    ts !! t = Some (TLookup2 sid ep r) → room h → h' = (lookup_end sid ep r h).1 →
    step (MkSys h rs ts w c e b)
      (MkSys h' rs (delete t ts) w c e (record_born h h' (r_born r) b))
(* SessionForAccount *)
| SAccount1 h rs ts w c e b t a rid ep h' :
    ts !! t = None → account_begin a false h = (h', inr (rid, ep)) →
    step (MkSys h rs ts w c e b) (MkSys h' rs (<[t := TAccount1 a rid ep]> ts) w c e b)
| SAccount0 h rs ts w c e b a sys h' o :
    account_begin a sys h = (h', inl o) →
    step (MkSys h rs ts w c e b) (MkSys h' rs ts w c e b)
| SAccount2 h rs ts w c e b t a rid ep sid r :
    ts !! t = Some (TAccount1 a rid ep) → rs !! sid = Some r → r_account r = a →
    step (MkSys h rs ts w c e b) (MkSys h rs (<[t := TAccount2 a rid ep sid r]> ts) w c e b)
| SAccount3 h rs ts w c e b t a rid ep sid r h' :
    ts !! t = Some (TAccount2 a rid ep sid r) → room h → h' = (account_end a rid ep sid r h).1 →
    step (MkSys h rs ts w c e b)
      (MkSys h' rs (delete t ts) w c e (record_born h h' (r_born r) b))
(* promoteSession *)
| SPromote1 h rs ts c e b t cn sid a rid :
    ts !! t = None → promote_begin cn sid h = Some (a, rid) → owner sid = a →
    step (MkSys h rs ts None c e b) (MkSys h rs (<[t := TPromote1 sid a rid]> ts) (Some t) c e b)
| SPromote2 h rs rs' ts w c e b t sid a rid displaced v :
    ts !! t = Some (TPromote1 sid a rid) → table_change (S c) rs rs' →
    (displaced = "" ∨ owner displaced = a) →
    step (MkSys h rs ts w c e b)
      (MkSys h rs' (<[t := TPromote2 sid a rid displaced v (S c)]> ts) w (S c) e b)
| SPromote3 h rs ts w c e b t sid a rid displaced v t0 h' :
    ts !! t = Some (TPromote2 sid a rid displaced v t0) → room h →
    h' = promote_end sid a rid displaced v h →
    step (MkSys h rs ts w c e b)
      (MkSys h' rs (delete t ts) None c e (record_born h h' t0 b))
(* releaseSession; a full one holds the writer's lock *)
| SRelease1 h rs ts w w' c e b t sid only :
    ts !! t = None → release_begin sid only h = true →
    match only with None => w = None ∧ w' = Some t | Some _ => w' = w end →
    step (MkSys h rs ts w c e b) (MkSys h rs (<[t := TRelease sid only]> ts) w' c e b)
| SRelease2 h rs ts w c e b t sid only :
    ts !! t = Some (TRelease sid only) →
    step (MkSys h rs ts w c e b)
      (MkSys (release_end sid only h).1.1 rs (delete t ts)
        (if bool_decide (w = Some t) then None else w) c e b)
(* enroll *)
| SEnroll1 h rs ts c e b t id h' ep :
    ts !! t = None → room h → enroll_begin id h = (h', ep) →
    step (MkSys h rs ts None c e b)
      (MkSys h' rs (<[t := TEnroll1 id ep]> ts) (Some t) (S c) (<[id := S c]> e) b)
| SEnroll2 h rs ts w c e b t id ep (reaped : bool) :
    (* without a store there is no reap, and no error *)
    ts !! t = Some (TEnroll1 id ep) → (wired h = false → reaped = true) →
    step (MkSys h rs ts w c e b)
      (MkSys h (if reaped && wired h then reap id rs else rs) (<[t := TEnroll2 id ep reaped]> ts) w c e b)
| SEnroll3 h rs ts w c e b t id ep reaped :
    ts !! t = Some (TEnroll2 id ep reaped) → room h →
    step (MkSys h rs ts w c e b)
      (MkSys (enroll_end id ep reaped h) rs (delete t ts) None c e b)
(* a lookup that found no row, or whose read failed *)
| SGone h rs ts w c e b t sid ep :
    ts !! t = Some (TLookup1 sid ep) →
    step (MkSys h rs ts w c e b) (MkSys h rs (delete t ts) w c e b)
| SGone' h rs ts w c e b t a rid ep :
    ts !! t = Some (TAccount1 a rid ep) →
    step (MkSys h rs ts w c e b) (MkSys h rs (delete t ts) w c e b).

Inductive reachable (wd : bool) : Sys → Prop :=
| reach_new rs : (∀ sid r, rs !! sid = Some r → r_born r = O ∧ r_account r = owner sid) →
    reachable wd (NewSys wd rs)
| reach_step x y : reachable wd x → step x y → reachable wd y.

(** * Invariant *)

(** Written after the Runner's last enroll began. *)
Definition fresh (e : gmap string nat) (rid : string) (t : nat) : Prop :=
  ∀ x, e !! rid = Some x → (x < t)%nat.

Record cache_ok (h : Hub) (e : gmap string nat) (b : gmap Z nat) : Prop := {
  c_fwd sid bd : sessionAccounts h !! sid = Some bd →
    lifetime bd ≤ lastLifetime h ∧ account bd = owner sid
    ∧ ∃ t, b !! lifetime bd = Some t ∧ fresh e (runnerID bd) t;
  c_rev a sid : accountSessions h !! a = Some sid → owner sid = a ∧ is_Some (sessionAccounts h !! sid);
}.

Record epoch_ok (h : Hub) : Prop := {
  e_runner rid : mget 0 (runnerEpoch h) rid ≤ bindingEpoch h;
  e_epoch : 0 ≤ bindingEpoch h;
  e_life : 0 ≤ lastLifetime h;
}.

Definition rows_ok (h : Hub) (rs : gmap string row) (e : gmap string nat) : Prop :=
  ∀ sid r, rs !! sid = Some r → r_account r = owner sid ∧
    (wired h = true → mget 0 (reapStale h) (r_runner r) = 0 → fresh e (r_runner r) (r_born r)).

(** What a row read under an epoch promises when it passes the gate. *)
Definition gated (h : Hub) (e : gmap string nat) (ep : Z) (r : row) : Prop :=
  mget 0 (reapStale h) (r_runner r) = 0 → mget 0 (runnerEpoch h) (r_runner r) ≤ ep →
  fresh e (r_runner r) (r_born r).

Definition thread_ok (h : Hub) (rs : gmap string row) (e : gmap string nat) (th : thread) : Prop :=
  match th with
  | TLookup1 sid ep => wired h = true ∧ ep ≤ bindingEpoch h
  | TLookup2 sid ep r => ep ≤ bindingEpoch h ∧ r_account r = owner sid ∧ gated h e ep r
  | TAccount1 a rid ep => wired h = true ∧ ep ≤ bindingEpoch h ∧ runner h ≠ None
  | TAccount2 a rid ep sid r => ep ≤ bindingEpoch h ∧ runner h ≠ None ∧ owner sid = a ∧ gated h e ep r
  | TPromote1 sid a rid => owner sid = a
  | TPromote2 sid a rid d v t => owner sid = a ∧ (d = "" ∨ owner d = a) ∧ fresh e rid t
  | TRelease _ _ | TEnroll1 _ _ => True
  | TEnroll2 id ep reaped =>
      reaped = true → wired h = true →
      ∀ sid r, rs !! sid = Some r → r_runner r = id → fresh e id (r_born r)
  end.

Definition is_writer (th : thread) : bool :=
  match th with
  | TPromote1 _ _ _ | TPromote2 _ _ _ _ _ _ | TRelease _ None | TEnroll1 _ _ | TEnroll2 _ _ _ => true
  | _ => false
  end.

Record inv (y : Sys) : Prop := {
  i_cache : cache_ok (hub y) (enrolledAt y) (born y);
  i_epoch : epoch_ok (hub y);
  i_rows : rows_ok (hub y) (rows y) (enrolledAt y);
  i_threads t th : threads y !! t = Some th → thread_ok (hub y) (rows y) (enrolledAt y) th;
  i_writer t th : threads y !! t = Some th → is_writer th = true → writer y = Some t;
  i_time rid x : enrolledAt y !! rid = Some x → (x ≤ clock y)%nat;
}.

(** The fields that decide which rows may be cached. *)
Record same_gate (h h' : Hub) : Prop := {
  g_runner : runner h' = runner h;
  g_wired : wired h' = wired h;
  g_stale : reapStale h' = reapStale h;
  g_epoch : bindingEpoch h' = bindingEpoch h;
  g_runners : runnerEpoch h' = runnerEpoch h;
}.

Lemma same_gate_refl h : same_gate h h.
Proof. by split. Qed.

Lemma gate_epoch h h' : same_gate h h' → lastLifetime h ≤ lastLifetime h' → epoch_ok h → epoch_ok h'.
Proof.
  intros [G1 G2 G3 G4 G5] HL [E1 E2 E3]. split; rewrite ?G4, ?G5; [done|done|lia].
Qed.

Lemma gate_rows h h' rs e : same_gate h h' → rows_ok h rs e → rows_ok h' rs e.
Proof. intros [G1 G2 G3 G4 G5] HR sid r Hr. rewrite G2, G3. by apply HR. Qed.

Lemma gate_thread h h' rs e th : same_gate h h' → thread_ok h rs e th → thread_ok h' rs e th.
Proof.
  intros [G1 G2 G3 G4 G5]. destruct th; simpl; unfold gated; rewrite ?G1, ?G2, ?G3, ?G4, ?G5; done.
Qed.

(** A critical section that touches only the cache. *)
Lemma inv_cache h h' rs ts w c e b b' :
  inv (MkSys h rs ts w c e b) → same_gate h h' → lastLifetime h ≤ lastLifetime h' →
  cache_ok h' e b' → inv (MkSys h' rs ts w c e b').
Proof.
  intros [H1 H2 H3 H4 H5 H6] HG HL HC. simpl in *. split; simpl; try done.
  - by apply (gate_epoch h).
  - by apply (gate_rows h).
  - intros t th Ht. apply (gate_thread h); eauto.
Qed.

(** Ending a thread, starting one, and letting go of the lock. *)
Lemma inv_delete h rs ts w c e b t :
  inv (MkSys h rs ts w c e b) → inv (MkSys h rs (delete t ts) w c e b).
Proof.
  intros [H1 H2 H3 H4 H5 H6]. simpl in *. split; simpl; try done.
  - intros t' th [_ Ht]%lookup_delete_Some. eauto.
  - intros t' th [_ Ht]%lookup_delete_Some. eauto.
Qed.

Lemma inv_delete_unlock h rs ts w c e b t :
  w = Some t → inv (MkSys h rs ts w c e b) → inv (MkSys h rs (delete t ts) None c e b).
Proof.
  intros -> [H1 H2 H3 H4 H5 H6]. simpl in *. split; simpl; try done.
  - intros t' th [_ Ht]%lookup_delete_Some. eauto.
  - intros t' th [Hne Ht]%lookup_delete_Some Hw. specialize (H5 _ _ Ht Hw). congruence.
Qed.

Lemma inv_insert h rs ts w c e b t th :
  inv (MkSys h rs ts w c e b) → thread_ok h rs e th → (is_writer th = true → w = Some t) →
  inv (MkSys h rs (<[t := th]> ts) w c e b).
Proof.
  intros [H1 H2 H3 H4 H5 H6] HT HW. simpl in *. split; simpl; try done.
  - intros t' th' [[<- <-]|[_ Ht]]%lookup_insert_Some; eauto.
  - intros t' th' [[<- <-]|[_ Ht]]%lookup_insert_Some; eauto.
Qed.

Lemma inv_lock h rs ts c e b t th :
  inv (MkSys h rs ts None c e b) → ts !! t = None → thread_ok h rs e th →
  inv (MkSys h rs (<[t := th]> ts) (Some t) c e b).
Proof.
  intros [H1 H2 H3 H4 H5 H6] Hn HT. simpl in *. split; simpl; try done.
  - intros t' th' [[<- <-]|[_ Ht]]%lookup_insert_Some; eauto.
  - intros t' th' [[<- <-]|[_ Ht]]%lookup_insert_Some Hw; [done|]. specialize (H5 _ _ Ht Hw). done.
Qed.

(** The table changes. *)
Lemma inv_table h rs rs' ts w c e b :
  inv (MkSys h rs ts w c e b) → table_change (S c) rs rs' → inv (MkSys h rs' ts w (S c) e b).
Proof.
  intros [H1 H2 H3 H4 H5 H6] HC. simpl in *.
  assert (∀ rid r, r_born r = S c → fresh e rid (r_born r)) as Hf.
  { intros rid r -> x Hx. apply H6 in Hx. lia. }
  split; simpl; try done.
  - intros sid r Hr. destruct (HC sid r Hr) as [Ho|[Hb Ha]]; [by apply H3|]. split; [done|].
    intros _ _. by apply Hf.
  - intros t th Ht. specialize (H4 t th Ht). destruct th; simpl in *; try done.
    intros Hr Hw sid r Hs Hrun. destruct (HC sid r Hs) as [Ho|[Hb Ha]]; [eauto|]. by apply Hf.
  - intros rid x Hx. apply H6 in Hx. lia.
Qed.

(** Removing entries. *)
Lemma cache_evict h e b sid bd :
  cache_ok h e b → account bd = owner sid → cache_ok (evict sid bd h) e b.
Proof.
  intros [HF HR] Ha. split; simpl.
  - intros s x [_ Hx]%lookup_delete_Some. by apply HF.
  - intros a s. case_bool_decide as Hp.
    + intros [Hne Hs]%lookup_delete_Some. destruct (HR _ _ Hs) as [Ho [x Hx]]. split; [done|].
      exists x. apply lookup_delete_Some. split; [|done]. intros ->. congruence.
    + intros Hs. destruct (HR _ _ Hs) as [Ho [x Hx]]. split; [done|].
      exists x. apply lookup_delete_Some. split; [|done]. intros ->. apply Hp. congruence.
Qed.

Lemma cache_drop_account h e b a :
  cache_ok h e b → cache_ok (set_maps (sessionAccounts h) (delete a (accountSessions h)) h) e b.
Proof.
  intros [HF HR]. split; simpl; [done|]. intros a' s [_ Hs]%lookup_delete_Some. eauto.
Qed.

Lemma evictStale_cache sid stale h e b :
  cache_ok h e b → (∀ st, stale = Some st → account st = owner sid) →
  cache_ok (evictStaleBinding sid stale h) e b.
Proof.
  intros HC Ho. unfold evictStaleBinding. destruct stale as [st|]; [|done].
  destruct (sessionAccounts h !! sid); [|done]. destruct (sameBinding _ _); [|done].
  apply cache_evict; auto.
Qed.

Lemma change_cache sid h e b : cache_ok h e b → cache_ok (OnBindingChange sid h) e b.
Proof.
  intros HC. unfold OnBindingChange. case_bool_decide; [done|].
  destruct (sessionAccounts h !! sid) as [bd|] eqn:E; [|done].
  apply cache_evict; [done|]. by apply HC in E as (_ & ? & _).
Qed.

Lemma release_cache sid only h e b : cache_ok h e b → cache_ok (release_end sid only h).1.1 e b.
Proof.
  intros HC. unfold release_end. destruct (sessionAccounts h !! sid) as [bd|] eqn:E; [|done].
  destruct (mine only (Some bd)); [|done]. apply cache_evict; [done|]. by apply HC in E as (_ & ? & _).
Qed.

(** Adding one entry. *)
Lemma cache_add h e b sid a rid v t fwd rev :
  cache_ok h e b → epoch_ok h → room h → owner sid = a → fresh e rid t →
  (∀ s x, fwd !! s = Some x →
     s = sid ∧ x = (newBindingLocked a rid v h).1 ∨ sessionAccounts h !! s = Some x) →
  (∀ a' s, rev !! a' = Some s → owner s = a' ∧ is_Some (fwd !! s)) →
  let h' := set_maps fwd rev (newBindingLocked a rid v h).2 in
  cache_ok h' e (record_born h h' t b) ∧ same_gate h h' ∧ lastLifetime h ≤ lastLifetime h'.
Proof.
  intros [HF HR] [_ _ HL] [Hroom _] Ho Hf Hfwd Hrev h'.
  assert (lastLifetime h' = lastLifetime h + 1) as EL.
  { subst h'. simpl. apply u64_small. lia. }
  refine (conj _ (conj _ _)); [|by split|lia].
  unfold record_born. rewrite bool_decide_false by lia. rewrite EL. split; [|done].
  intros s x Hx. rewrite EL. destruct (Hfwd s x Hx) as [[-> ->]|Hold].
  - simpl. rewrite u64_small by lia. split; [lia|]. split; [done|].
    exists t. by rewrite lookup_insert_eq.
  - destruct (HF s x Hold) as (H1 & H2 & t0 & H3 & H4). split; [lia|]. split; [done|].
    exists t0. rewrite lookup_insert_ne by lia. done.
Qed.

(** The three operations that add. *)
Lemma promote_cache h e b sid a rid d v t :
  cache_ok h e b → epoch_ok h → room h → owner sid = a → (d = "" ∨ owner d = a) → fresh e rid t →
  let h' := promote_end sid a rid d v h in
  cache_ok h' e (record_born h h' t b) ∧ same_gate h h' ∧ lastLifetime h ≤ lastLifetime h'.
Proof.
  intros HC HE Hroom Ho Hd Hf. apply (cache_add h e b sid a rid v t); try done; simpl.
  - intros s x. case_bool_decide.
    + intros [_ [[<- <-]|[_ Hx]]%lookup_insert_Some]%lookup_delete_Some; [by left|by right].
    + intros [[<- <-]|[_ Hx]]%lookup_insert_Some; [by left|by right].
  - intros a' s [[<- <-]|[Hne Hs]]%lookup_insert_Some.
    + split; [done|]. case_bool_decide as Hdd.
      * rewrite lookup_delete_ne by tauto. rewrite lookup_insert_eq. eauto.
      * rewrite lookup_insert_eq. eauto.
    + destruct (c_rev _ _ _ HC _ _ Hs) as [Ho' Hx]. split; [done|].
      assert (is_Some (<[sid := MkBinding a rid v (u64 (lastLifetime h + 1))]> (sessionAccounts h) !! s))
        as Hy by (rewrite lookup_insert_is_Some'; auto).
      case_bool_decide as Hdd; [|done]. rewrite lookup_delete_ne; [done|]. intros ->.
      destruct Hd as [->|Hd]; [tauto|congruence].
Qed.

Lemma lookup_cache h e b sid ep r :
  cache_ok h e b → epoch_ok h → room h → r_account r = owner sid → gated h e ep r →
  let h' := (lookup_end sid ep r h).1 in
  cache_ok h' e (record_born h h' (r_born r) b) ∧ same_gate h h' ∧ lastLifetime h ≤ lastLifetime h'.
Proof.
  intros HC HE Hroom Ho Hg. unfold lookup_end.
  assert (cache_ok h e (record_born h h (r_born r) b) ∧ same_gate h h ∧ lastLifetime h ≤ lastLifetime h)
    as Hsame by (unfold record_born; rewrite bool_decide_true by done; split; [done|split; [by split|lia]]).
  destruct (sessionAccounts h !! sid) as [live|] eqn:E; [done|].
  destruct (refuses _ _ _) eqn:ER; [done|].
  apply orb_false_iff in ER as [E1%bool_decide_eq_false E2%bool_decide_eq_false].
  apply (cache_add h e b sid (r_account r) (r_runner r) (r_version r) (r_born r)); try done; simpl.
  - apply Hg; [|lia]. destruct (decide (mget 0 (reapStale h) (r_runner r) = 0)); tauto.
  - intros s x [[<- <-]|[_ Hx]]%lookup_insert_Some; [by left|by right].
  - intros a' s Hs. destruct (c_rev _ _ _ HC _ _ Hs) as [Ho' Hx]. split; [done|].
    rewrite lookup_insert_is_Some'. auto.
Qed.

Lemma account_cache h e b a rid ep sid r :
  cache_ok h e b → epoch_ok h → room h → runner h ≠ None → owner sid = a → gated h e ep r →
  let h' := (account_end a rid ep sid r h).1 in
  cache_ok h' e (record_born h h' (r_born r) b) ∧ same_gate h h' ∧ lastLifetime h ≤ lastLifetime h'.
Proof.
  intros HC HE Hroom HR Ho Hg. unfold account_end.
  assert (∀ h1, h1 = h ∨ h1 = set_maps (sessionAccounts h) (delete a (accountSessions h)) h →
    cache_ok h1 e (record_born h h1 (r_born r) b) ∧ same_gate h h1 ∧ lastLifetime h ≤ lastLifetime h1) as Hsame.
  { intros h1 [->| ->]; unfold record_born; rewrite bool_decide_true by done; simpl.
    - split; [done|]. split; [by split|lia].
    - split; [by apply cache_drop_account|]. split; [by split|lia]. }
  case_bool_decide as Hrid; [auto|].
  cbn zeta. match goal with |- context [match ?x with Some s => (h, Some s) | None => _ end] =>
    destruct x; [auto|] end.
  destruct (runner h) as [id|] eqn:ER; [|done].
  destruct (_ || _) eqn:EG; [apply Hsame; by right|].
  apply orb_false_iff in EG as [[_ E1%bool_decide_eq_false]%orb_false_iff E2%bool_decide_eq_false].
  set (h1 := set_maps (sessionAccounts h) (delete a (accountSessions h)) h).
  destruct (cache_add h1 e b sid a (r_runner r) (r_version r) (r_born r)
    (<[sid := (newBindingLocked a (r_runner r) (r_version r) h1).1]> (sessionAccounts h1))
    (<[a := sid]> (accountSessions h1))) as (HA & HB & HD); try done.
  - by apply cache_drop_account.
  - by apply (gate_epoch h).
  - apply Hg; [|lia]. destruct (decide (mget 0 (reapStale h) (r_runner r) = 0)); tauto.
  - intros s x [[<- <-]|[_ Hx]]%lookup_insert_Some; [by left|by right].
  - intros a' s [[<- <-]|[Hne Hs]]%lookup_insert_Some; [split; [done|]; rewrite lookup_insert_eq; eauto|].
    subst h1. simpl in Hs. apply lookup_delete_Some in Hs as [_ Hs].
    destruct (c_rev _ _ _ HC _ _ Hs) as [Ho' Hx]. split; [done|]. rewrite lookup_insert_is_Some'. auto.
Qed.

(** Enrollment. *)
Lemma inv_enroll_begin h rs ts c e b t id h' ep :
  inv (MkSys h rs ts None c e b) → ts !! t = None → room h → enroll_begin id h = (h', ep) →
  inv (MkSys h' rs (<[t := TEnroll1 id ep]> ts) (Some t) (S c) (<[id := S c]> e) b).
Proof.
  intros [H1 [E1 E2 E3] H3 H4 H5 H6] Hn [_ Hroom] [= <- <-]. simpl in *.
  rewrite u64_small by lia.
  assert (∀ rid x, rid ≠ id → fresh e rid x → fresh (<[id := S c]> e) rid x) as Hfr.
  { intros rid x Hne Hf z. rewrite lookup_insert_ne by done. apply Hf. }
  assert (∀ th, is_writer th = false → thread_ok h rs e th →
    thread_ok (MkHub (Some id) (wired h) ∅ ∅ ∅ (if wired h then <[id:=bindingEpoch h + 1]> (reapStale h)
      else reapStale h) (bindingEpoch h + 1) (lastLifetime h) (<[id:=bindingEpoch h + 1]> (runnerEpoch h)))
      rs (<[id := S c]> e) th) as HT.
  { assert (∀ ep r, ep ≤ bindingEpoch h → gated h e ep r →
      gated (MkHub (Some id) (wired h) ∅ ∅ ∅ (if wired h then <[id:=bindingEpoch h + 1]> (reapStale h)
      else reapStale h) (bindingEpoch h + 1) (lastLifetime h) (<[id:=bindingEpoch h + 1]> (runnerEpoch h)))
        (<[id := S c]> e) ep r) as HG.
    { intros ep r Hep Hg. unfold gated in *. simpl. destruct (decide (r_runner r = id)) as [->|Hne].
      - rewrite mget_insert_eq. lia.
      - rewrite mget_insert_ne by done. intros Hs Hr. apply Hfr; [done|]. apply Hg; [|done].
        destruct (wired h); [|done]. by rewrite mget_insert_ne in Hs. }
    intros th Hw Hth. destruct th; simpl in *; try done; destruct_and?; split_and?; try done; auto; lia. }
  split; simpl; try done.
  - split; simpl; [|lia|lia]. intros rid. destruct (decide (id = rid)) as [->|Hne].
    + by rewrite mget_insert_eq.
    + rewrite mget_insert_ne by done. specialize (E1 rid). lia.
  - intros sid r Hr. simpl. destruct (H3 sid r Hr) as [Ho Hf]. split; [done|]. intros Hw.
    rewrite Hw. destruct (decide (r_runner r = id)) as [->|Hne]; [rewrite mget_insert_eq; lia|].
    rewrite mget_insert_ne by done. intros Hs. apply Hfr; auto.
  - intros t' th [[<- <-]|[_ Ht]]%lookup_insert_Some; [done|]. apply HT; [|by eauto].
    destruct (is_writer th) eqn:Ew; [|done]. specialize (H5 _ _ Ht Ew). done.
  - intros t' th [[<- <-]|[_ Ht]]%lookup_insert_Some Hw; [done|]. specialize (H5 _ _ Ht Hw). done.
  - intros rid x [[<- <-]|[_ Hx]]%lookup_insert_Some; [lia|]. apply H6 in Hx. lia.
Qed.

Lemma inv_enroll_end h rs ts w c e b t id ep reaped :
  inv (MkSys h rs ts w c e b) → ts !! t = Some (TEnroll2 id ep reaped) → room h →
  inv (MkSys (enroll_end id ep reaped h) rs (delete t ts) None c e b).
Proof.
  intros HI Ht [_ Hroom]. pose proof (i_writer _ HI _ _ Ht eq_refl) as Hw. simpl in Hw.
  pose proof (i_threads _ HI _ _ Ht) as HE. simpl in HE.
  apply (inv_delete_unlock _ _ _ w); [done|].
  destruct HI as [H1 [E1 E2 E3] H3 H4 H5 H6]. simpl in *.
  unfold enroll_end. rewrite u64_small by lia.
  set (st := if _ && _ then _ else _).
  assert (∀ rid, rid ≠ id → mget 0 st rid = mget 0 (reapStale h) rid) as Hst.
  { intros rid Hne. subst st. destruct (_ && _); [|done]. unfold mget. by rewrite lookup_delete_ne. }
  split; simpl; try done.
  - split; simpl; apply H1.
  - split; simpl; [|lia|lia]. intros rid. destruct (decide (id = rid)) as [->|Hne].
    + by rewrite mget_insert_eq.
    + rewrite mget_insert_ne by done. specialize (E1 rid). lia.
  - intros sid r Hr. simpl. destruct (H3 sid r Hr) as [Ho Hf]. split; [done|]. intros Hwd Hs.
    destruct (decide (r_runner r = id)) as [Hid|Hne]; [|rewrite Hst in Hs by done; auto].
    destruct (decide (mget 0 (reapStale h) (r_runner r) = 0)) as [Hz|Hz]; [auto|].
    subst st. destruct reaped; simpl in Hs; [rewrite Hid in *; eauto|tauto].
  - assert (∀ ep r, ep ≤ bindingEpoch h → gated h e ep r →
      gated (MkHub (runner h) (wired h) (containerAccounts h) (sessionAccounts h) (accountSessions h) st
        (bindingEpoch h + 1) (lastLifetime h) (<[id:=bindingEpoch h + 1]> (runnerEpoch h))) e ep r) as HG.
    { intros ep' r Hep Hg. unfold gated in *. simpl. destruct (decide (r_runner r = id)) as [->|Hne].
      - rewrite mget_insert_eq. lia.
      - rewrite mget_insert_ne, Hst by done. auto. }
    intros t' th Ht'. specialize (H4 t' th Ht').
    destruct th; simpl in *; try done; destruct_and?; split_and?; try done; auto; lia.
Qed.

Lemma inv_reap h rs ts w c e b id :
  inv (MkSys h rs ts w c e b) → inv (MkSys h (reap id rs) ts w c e b).
Proof.
  intros [H1 H2 H3 H4 H5 H6]. simpl in *. split; simpl; try done.
  - intros sid r [Hr _]%map_lookup_filter_Some. by apply H3.
  - intros t th Ht. specialize (H4 t th Ht). destruct th; simpl in *; try done.
    intros Hx Hy sid r [Hr _]%map_lookup_filter_Some. eauto.
Qed.

Lemma container_cache h e b m : cache_ok h e b → cache_ok (set_containers m h) e b.
Proof. intros [HF HR]. by split. Qed.

Lemma account_begin_spec a sys h h' o :
  account_begin a sys h = (h', o) →
  (h' = h ∨ h' = set_maps (sessionAccounts h) (delete a (accountSessions h)) h)
  ∧ match o with
    | inr (rid, ep) => wired h = true ∧ runner h = Some rid ∧ ep = bindingEpoch h
    | inl _ => True
    end.
Proof.
  unfold account_begin. destruct (live_for a h); [intros [= <- <-]; auto|].
  destruct (runner h) as [rid|]; [|intros [= <- <-]; auto].
  unfold readThroughAllowed. destruct (wired h) eqn:EW; simpl; [|intros [= <- <-]; auto].
  destruct sys; simpl; intros [= <- <-]; auto.
Qed.

Lemma inv_account h h' rs ts w c e b a :
  inv (MkSys h rs ts w c e b) →
  h' = h ∨ h' = set_maps (sessionAccounts h) (delete a (accountSessions h)) h →
  inv (MkSys h' rs ts w c e b).
Proof.
  intros HI [->| ->]; [done|]. apply (inv_cache h _ _ _ _ _ _ b); [done|by split|simpl; lia|].
  apply cache_drop_account, HI.
Qed.

Lemma hub_inv_step x y : inv x → step x y → inv y.
Proof.
  intros HI HS. pose proof (i_cache _ HI) as HC. pose proof (i_epoch _ HI) as HE. destruct HS; simpl in *.
  - by eapply inv_table.
  - eapply inv_cache; [done|..]; unfold bindContainer; case_bool_decide; try done;
      first [by split|apply container_cache; done|lia].
  - eapply inv_cache; [done|..]; [by split|simpl; lia|by apply container_cache].
  - eapply inv_cache; [done|..|by apply change_cache]; unfold OnBindingChange;
      case_bool_decide; try destruct (sessionAccounts h !! sid); try done; by split.
  - eapply inv_cache; [done|..|by apply evictStale_cache]; unfold evictStaleBinding;
      destruct stale; try done; destruct (sessionAccounts h !! sid); try done;
      destruct (sameBinding _ _); try done; by split.
  - apply inv_insert; [done| |done]. unfold lookup_begin in *.
    destruct (sessionAccounts h !! sid); [done|]. destruct (wired h) eqn:EW; simpl in *; [|done].
    destruct (readThroughAllowed _ _ _); simplify_eq. simpl. split; [done|lia].
  - apply inv_insert; [done| |done]. pose proof (i_threads _ HI _ _ H) as [Hw Hep]. simpl in *.
    destruct (i_rows _ HI _ _ H0) as [Ho Hf]. simpl in *. split; [done|]. split; [done|].
    intros Hs _. auto.
  - pose proof (i_threads _ HI _ _ H) as (Hep & Ho & Hg). simpl in *.
    destruct (lookup_cache h e b sid ep r HC HE H0 Ho Hg) as (A & B & C). subst.
    apply inv_delete. eapply inv_cache; [done..|]. done.
  - apply account_begin_spec in H0 as (Hh & Hw & Hr & ->).
    apply inv_insert; [by eapply inv_account| |done]. simpl. destruct Hh as [->| ->]; simpl; rewrite Hr; done.
  - apply account_begin_spec in H as (Hh & _).
    by eapply inv_account.
  - apply inv_insert; [done| |done]. pose proof (i_threads _ HI _ _ H) as (Hw & Hep & Hr). simpl in *.
    destruct (i_rows _ HI _ _ H0) as [Ho Hf]. simpl in *. split; [done|]. split; [done|].
    split; [congruence|]. intros Hs _. auto.
  - pose proof (i_threads _ HI _ _ H) as (Hep & Hr & Ho & Hg). simpl in *.
    destruct (account_cache h e b a rid ep sid r HC HE H0 Hr Ho Hg) as (A & B & C). subst.
    apply inv_delete. eapply inv_cache; [done..|]. done.
  - by apply inv_lock.
  - pose proof (i_threads _ HI _ _ H) as Ho. simpl in Ho.
    apply inv_insert; [by eapply inv_table| |intros _; by apply (i_writer _ HI _ _ H)].
    simpl. split; [done|]. split; [done|]. intros x Hx. apply (i_time _ HI) in Hx. simpl in Hx. lia.
  - pose proof (i_threads _ HI _ _ H) as (Ho & Hd & Hf). simpl in *.
    destruct (promote_cache h e b sid a rid displaced v t0 HC HE H0 Ho Hd Hf) as (A & B & C). subst.
    apply (inv_delete_unlock _ _ _ w); [by apply (i_writer _ HI _ _ H)|].
    eapply inv_cache; [done..|]. done.
  - destruct only as [bd|].
    + subst. by apply inv_insert.
    + destruct H1 as [-> ->]. by apply inv_lock.
  - assert (inv (MkSys (release_end sid only h).1.1 rs ts w c e b)) as HI'.
    { eapply inv_cache; [done|..|by apply release_cache]; unfold release_end;
        destruct (sessionAccounts h !! sid); try done; destruct (mine _ _); try done; by split. }
    case_bool_decide; [by apply (inv_delete_unlock _ _ _ w)|by apply inv_delete].
  - by eapply inv_enroll_begin.
  - apply inv_insert; [destruct (reaped && wired h); [by apply inv_reap|done]| |].
    + simpl. intros -> Hw sid r. rewrite Hw. simpl. intros [_ Hne]%map_lookup_filter_Some. done.
    + intros _. by apply (i_writer _ HI _ _ H).
  - by eapply inv_enroll_end.
  - by apply inv_delete.
  - by apply inv_delete.
Qed.

Lemma hub_reachable_inv wd y : reachable wd y → inv y.
Proof.
  induction 1 as [rs Hrs|x y _ IH HS]; [|by eapply hub_inv_step].
  split; simpl; try done.
  - intros sid r Hr. destruct (Hrs sid r Hr) as [H1 H2]. split; [done|]. intros _ _ x. by rewrite lookup_empty.
Qed.

(** * Claims *)

(** C27. A binding from before a Runner's re-enrollment never comes back: over every
    interleaving of lookups, promotions, releases, peer writes of the table and enrolls
    (with successful and with failed reaps), whatever the cache serves for a Runner
    comes from a write that happened after that Runner's last enroll began, even for a
    lookup whose store read straddled the enroll; and the reverse index only names
    cached sessions of the account asked for. *)
Theorem no_binding_survives_enroll wd y sid bd a :
  reachable wd y →
  (sessionAccounts (hub y) !! sid = Some bd →
     account bd = owner sid
     ∧ ∃ t, born y !! lifetime bd = Some t
         ∧ ∀ x, enrolledAt y !! runnerID bd = Some x → (x < t)%nat)
  ∧ (CachedSessionForAccount a (hub y) = Some sid →
       ∃ b, sessionAccounts (hub y) !! sid = Some b ∧ account b = a).
Proof.
  intros R. pose proof (hub_reachable_inv wd y R) as HI. split.
  - intros Hb. by apply (i_cache _ HI) in Hb as (_ & ? & ?).
  - intros Ha. apply (i_cache _ HI) in Ha as [<- [b Hb]]. exists b. split; [done|].
    by apply (i_cache _ HI) in Hb as (_ & ? & _).
Qed.

End system.

(** A foreign Runner learns nothing: whatever is bound to another Runner answers exactly
    like an unbound session, and only an unverifiable read answers differently. *)
Lemma foreign_is_unbound rid b v :
  runnerID b ≠ rid →
  accountForRunnerSession rid (Some b, v) = None
  ∧ (v ≠ bindingUnverifiable →
     accountForRunnerSessionError rid (Some b, v) = accountForRunnerSessionError rid (None, bindingNotFound))
  ∧ ∀ lifecycle enrolled lk, (frameSession rid lifecycle enrolled (Some b) lk).2 = false.
Proof.
  intros Hne. refine (conj _ (conj _ _)).
  - destruct v; simpl; [|done..]. rewrite bool_decide_true; [done|]. by right.
  - intros Hv. unfold accountForRunnerSessionError. case_bool_decide; [done|].
    destruct v; [|done..]. by rewrite bool_decide_true.
  - intros lc en lk. unfold frameSession. case_bool_decide; [done|]. simpl. by rewrite bool_decide_false.
Qed.

(** A limited release never drops a binding that is not its own, and a completed one
    leaves the session unbound. *)
Lemma release_own sid only h b :
  sessionAccounts h !! sid = Some b →
  let '(h', released, _) := release_end sid (Some only) h in
  if sameBinding b only then released = true ∧ sessionAccounts h' !! sid = None
  else released = false ∧ h' = h.
Proof.
  intros Hb. unfold release_end. rewrite Hb. simpl. destruct (sameBinding b only); [|done].
  simpl. by rewrite lookup_delete_eq.
Qed.

Definition demo_owner (sid : string) : string := if bool_decide (sid = "s1") then "agent" else "other".

(** A lookup reads a row; the Runner re-enrolls and its reap deletes the row before the
    lookup finishes, which is then refused; the session is promoted anew. *)
Lemma no_binding_survives_enroll_witness :
  ∃ y b, reachable demo_owner true y ∧ sessionAccounts (hub y) !! "s1" = Some b
    ∧ account b = "agent" ∧ CachedSessionForAccount "agent" (hub y) = Some "s1".
Proof.
  assert (reachable demo_owner true (NewSys true {["s1" := MkRow "agent" "r" "v0" 0]})) as R.
  { constructor. intros sid r Hs. apply lookup_singleton_Some in Hs as [<- <-]. done. }
  unfold NewSys in R.
  assert (∀ h, lastLifetime h ≤ 10 → bindingEpoch h ≤ 10 → room h) as HR by (unfold room; lia).
  eapply reach_step in R; [|eapply (SEnroll1 _ _ _ _ _ _ _ 0 "q"); [reflexivity|by apply HR|vm_compute; reflexivity]].
  eapply reach_step in R; [|eapply (SEnroll2 _ _ _ _ _ _ _ _ 0 "q" _ true); [reflexivity|done]].
  eapply reach_step in R; [|eapply (SEnroll3 _ _ _ _ _ _ _ _ 0 "q" _ true); [reflexivity|by apply HR]].
  eapply reach_step in R; [|eapply (SLookup1 _ _ _ _ _ _ _ _ 1 "s1"); reflexivity].
  eapply reach_step in R; [|eapply (SLookup2 _ _ _ _ _ _ _ _ 1 "s1"); vm_compute; reflexivity].
  eapply reach_step in R; [|eapply (SEnroll1 _ _ _ _ _ _ _ 0 "r"); [vm_compute; reflexivity|by apply HR|vm_compute; reflexivity]].
  eapply reach_step in R; [|eapply (SEnroll2 _ _ _ _ _ _ _ _ 0 "r" _ true); [vm_compute; reflexivity|done]].
  eapply reach_step in R; [|eapply (SEnroll3 _ _ _ _ _ _ _ _ 0 "r" _ true); [vm_compute; reflexivity|by apply HR]].
  eapply reach_step in R; [|eapply (SLookup3 _ _ _ _ _ _ _ _ 1 "s1"); [vm_compute; reflexivity|by apply HR|vm_compute; reflexivity]].
  eapply reach_step in R; [|apply (SContainer _ _ _ _ _ _ _ _ "c" "agent" "r")].
  eapply reach_step in R; [|eapply (SPromote1 _ _ _ _ _ _ _ 2 "c" "s1"); vm_compute; reflexivity].
  eapply reach_step in R; [|eapply (SPromote2 _ _ _ ∅ _ _ _ _ _ 2 "s1" _ _ "" "v1");
    [vm_compute; reflexivity|intros ? ? Hx; by rewrite lookup_empty in Hx|by left]].
  eapply reach_step in R; [|eapply (SPromote3 _ _ _ _ _ _ _ _ 2 "s1"); [vm_compute; reflexivity|by apply HR|reflexivity]].
  match type of R with reachable _ _ ?y => set (z := y) in R end.
  assert (∃ b, sessionAccounts (hub z) !! "s1" = Some b) as [b Hb] by (eexists; vm_compute; reflexivity).
  exists z, b. split; [exact R|]. split; [exact Hb|].
  split; [|vm_compute; reflexivity].
  exact (proj1 (proj1 (no_binding_survives_enroll demo_owner true z "s1" b "agent" R) Hb)).
Defined.

End HubBindings.
