(* ===== verification/HubFrames.v ===== *)
(** The frame path of the Runner hub ([src/go/internal/runnerhub/hub.go]): sequence-gap
    diagnostics, the enrollment generation that fences old streams, the ordering of
    lifecycle frames, and the two acknowledgment arms.

    [Deliver] holds the enrollment lock shared and, for a lifecycle frame, the session's
    own lock, so one [Deliver] is one step as far as its session is concerned.  What the
    binding lookups and the store answer are inputs; what the hub hands to its sinks
    (board, delivery, presence, trace tail) is the list of effects, in order. *)
From stdpp Require Import base gmap fin_sets strings list sorting.
From Stdlib Require Import ZArith Lia.
From S2P Require Import Prelude Wire LruCache.

Open Scope Z_scope.

Module HubFrames.

Definition maxMissingSeqs : nat := Z.to_nat 4096.
Definition maxLifecycleSeqs : nat := Z.to_nat 4096.
#[global] Opaque maxMissingSeqs maxLifecycleSeqs.

(** * Sequence gaps *)

Record Seqs := MkSeqs { lastSeq : Z; missingSeqs : gset Z; gapOverflow : bool }.

Definition newSeqs : Seqs := MkSeqs 0 ∅ false.

(** The loop over the missing numbers; the flag says that it stopped at the bound. *)
Fixpoint gap_loop (fuel : nat) (missing seq : Z) (m : gset Z) : gset Z * bool :=
  match fuel with
  | O => (m, false)
  | S fuel =>
      if bool_decide (missing < seq) then
        if bool_decide (maxMissingSeqs ≤ size m)%nat then (m, true)
        else gap_loop fuel (u64 (missing + 1)) seq ({[missing]} ∪ m)
      else (m, false)
  end.

Definition recordSeq (s : Seqs) (seq : Z) : Seqs :=
  if bool_decide (seq ≤ lastSeq s) then MkSeqs (lastSeq s) (missingSeqs s ∖ {[seq]}) (gapOverflow s)
  else
    let next := u64 (lastSeq s + 1) in
    if bool_decide (lastSeq s ≠ 0 ∧ next < seq) then
      let '(m, over) := gap_loop (S maxMissingSeqs) next seq (missingSeqs s) in
      MkSeqs seq m (gapOverflow s || over)
    else MkSeqs seq (missingSeqs s) (gapOverflow s).

Definition seenGap (s : Seqs) : bool := gapOverflow s || bool_decide (missingSeqs s ≠ ∅).

(** The fuel is enough: every iteration but the last adds a number. *)
Lemma gap_loop_spec fuel cur seq (m : gset Z) :
  0 ≤ cur ≤ seq → seq < 2 ^ 64 → (∀ n, n ∈ m → n < cur) → (size m ≤ maxMissingSeqs)%nat →
  (maxMissingSeqs < fuel + size m)%nat →
  let '(m', over) := gap_loop fuel cur seq m in
  (∀ n, n ∈ m' → n ∈ m ∨ cur ≤ n < seq) ∧ m ⊆ m' ∧ (size m' ≤ maxMissingSeqs)%nat
  ∧ if over then (maxMissingSeqs ≤ size m')%nat ∧ ∃ n, cur ≤ n < seq ∧ n ∉ m'
    else ∀ n, cur ≤ n < seq → n ∈ m'.
Proof.
  revert cur m. induction fuel as [|fuel IH]; intros cur m Hc Hs Hm Hz Hf; [lia|].
  cbn [gap_loop]. case_bool_decide as Hlt.
  2: { refine (conj _ (conj _ (conj Hz _))); [auto|done|]. intros n Hn. lia. }
  case_bool_decide as Hfull.
  { refine (conj _ (conj _ (conj Hz (conj Hfull _)))); [auto|done|]. exists cur. split; [lia|].
    intros Hin. apply Hm in Hin. lia. }
  assert (cur ∉ m) as Hnew by (intros Hin; apply Hm in Hin; lia).
  assert (size ({[cur]} ∪ m) = S (size m)) as Esz.
  { rewrite (size_union {[cur]} m) by set_solver. by rewrite size_singleton. }
  rewrite u64_small by lia. specialize (IH (cur + 1) ({[cur]} ∪ m)).
  destruct (gap_loop fuel (cur + 1) seq ({[cur]} ∪ m)) as [m' over].
  destruct IH as (H1 & H2 & H3 & H4); [lia|lia| |lia|lia|].
  { intros n [->%elem_of_singleton|Hn]%elem_of_union; [lia|]. apply Hm in Hn. lia. }
  refine (conj _ (conj _ (conj H3 _))).
  - intros n Hn. destruct (H1 n Hn) as [[->%elem_of_singleton|?]%elem_of_union|?]; [right; lia|by left|right; lia].
  - set_solver.
  - destruct over.
    + destruct H4 as [H4 (n & Hn & Hn')]. split; [done|]. exists n. split; [lia|done].
    + intros n Hn. destruct (decide (n = cur)) as [->|]; [apply H2; set_solver|]. apply H4. lia.
Qed.

(** What the diagnostics say of the numbers received, first [f]. *)
Record gaps_ok (f : Z) (l : list Z) (s : Seqs) : Prop := {
  g_last : lastSeq s ∈ l;
  g_max n : n ∈ l → n ≤ lastSeq s;
  g_sound n : n ∈ missingSeqs s → f ≤ n < lastSeq s ∧ n ∉ l;
  g_complete : gapOverflow s = false → ∀ n, f ≤ n ≤ lastSeq s → n ∉ l → n ∈ missingSeqs s;
  g_bound : (size (missingSeqs s) ≤ maxMissingSeqs)%nat;
  g_over : gapOverflow s = true → ∃ l1 l2 top (X : gset Z), l = l1 ++ l2 ∧ top ∈ l1
    ∧ (maxMissingSeqs < size X)%nat ∧ ∀ n, n ∈ X → f ≤ n < top ∧ n ∉ l1;
}.

Lemma gaps_first f : 0 < f < 2 ^ 64 → gaps_ok f [f] (recordSeq newSeqs f).
Proof.
  intros Hf. unfold recordSeq, newSeqs. simpl.
  case_bool_decide; [lia|]. split; simpl; try done.
  - set_solver.
  - intros n ->%list_elem_of_singleton. done.
  - intros _ n Hn Hni. exfalso. apply Hni. apply list_elem_of_singleton. lia.
  - apply Nat.le_0_l.
Qed.

(** An overrun stays an overrun. *)
Lemma over_app f (l l' : list Z) :
  (∃ l1 l2 top (X : gset Z), l = l1 ++ l2 ∧ top ∈ l1
    ∧ (maxMissingSeqs < size X)%nat ∧ ∀ n, n ∈ X → f ≤ n < top ∧ n ∉ l1) →
  ∃ l1 l2 top (X : gset Z), l ++ l' = l1 ++ l2 ∧ top ∈ l1
    ∧ (maxMissingSeqs < size X)%nat ∧ ∀ n, n ∈ X → f ≤ n < top ∧ n ∉ l1.
Proof.
  intros (l1 & l2 & top & X & -> & H). exists l1, (l2 ++ l'), top, X. by rewrite (assoc_L (++)).
Qed.

Lemma gaps_late f l s q :
  gaps_ok f l s → q ≤ lastSeq s → gaps_ok f (l ++ [q]) (MkSeqs (lastSeq s) (missingSeqs s ∖ {[q]}) (gapOverflow s)).
Proof.
  intros [H1 H2 H3 H4 H5 H6] Hq. split; simpl.
  - set_solver.
  - intros n [Hn| ->%list_elem_of_singleton]%elem_of_app; auto.
  - intros n [Hn Hne]%elem_of_difference. destruct (H3 n Hn) as [Hr Hni]. split; [done|]. set_solver.
  - intros Ho n Hr Hni. apply elem_of_difference. split; [apply H4; set_solver|set_solver].
  - etrans; [|exact H5]. apply subseteq_size. set_solver.
  - intros Ho. by apply over_app, H6.
Qed.

Lemma gaps_next f l s q :
  gaps_ok f l s → q = lastSeq s + 1 → gaps_ok f (l ++ [q]) (MkSeqs q (missingSeqs s) (gapOverflow s)).
Proof.
  intros [H1 H2 H3 H4 H5 H6] ->. split; simpl.
  - set_solver.
  - intros n [Hn| ->%list_elem_of_singleton]%elem_of_app; [|done]. apply H2 in Hn. lia.
  - intros n Hn. destruct (H3 n Hn) as [Hr Hni]. split; [lia|].
    intros [?| ->%list_elem_of_singleton]%elem_of_app; [done|lia].
  - intros Ho n Hr Hni. destruct (decide (n = lastSeq s + 1)) as [->|]; [set_solver|].
    apply H4; [done|lia|set_solver].
  - done.
  - intros Ho. by apply over_app, H6.
Qed.

Lemma gaps_jump f l s q :
  gaps_ok f l s → 0 < f → f ≤ lastSeq s → lastSeq s + 1 < q → q < 2 ^ 64 →
  let '(m, over) := gap_loop (S maxMissingSeqs) (lastSeq s + 1) q (missingSeqs s) in
  gaps_ok f (l ++ [q]) (MkSeqs q m (gapOverflow s || over)).
Proof.
  intros [H1 H2 H3 H4 H5 H6] Hf Hfl Hlt Hq.
  pose proof (gap_loop_spec (S maxMissingSeqs) (lastSeq s + 1) q (missingSeqs s)) as HG.
  destruct (gap_loop _ _ _ _) as [m over]. destruct HG as (G1 & G2 & G3 & G4); [lia|lia| |done|lia|].
  { intros n Hn. destruct (H3 n Hn). lia. }
  assert (∀ n, lastSeq s + 1 ≤ n < q → n ∉ l ++ [q]) as Hnew.
  { intros n Hn [Hin| ->%list_elem_of_singleton]%elem_of_app; [apply H2 in Hin; lia|lia]. }
  assert (∀ n, n ∈ m → f ≤ n < q ∧ n ∉ l ++ [q]) as Hm.
  { intros n Hn. destruct (G1 n Hn) as [Hold|Hr]; [|split; [lia|by apply Hnew]].
    destruct (H3 n Hold) as [Hr Hni]. split; [lia|].
    intros [?| ->%list_elem_of_singleton]%elem_of_app; [done|lia]. }
  split; simpl; try done.
  - set_solver.
  - intros n [Hn| ->%list_elem_of_singleton]%elem_of_app; [|done]. apply H2 in Hn. lia.
  - intros [Ho Hov]%orb_false_iff n Hr Hni. rewrite Hov in G4. rewrite elem_of_app in Hni.
    destruct (decide (n = q)) as [->|]; [exfalso; apply Hni; right; by apply list_elem_of_singleton|].
    destruct (decide (n ≤ lastSeq s)).
    + apply G2, H4; [done|lia|tauto].
    + apply G4. lia.
  - intros [Ho| ->]%orb_true_iff; [by apply over_app, H6|].
    destruct G4 as [G4 (n & Hn & Hni)].
    exists (l ++ [q]), [], q, ({[n]} ∪ m). rewrite app_nil_r. split; [done|]. split; [set_solver|].
    split; [rewrite (size_union {[n]} m) by set_solver; rewrite size_singleton; lia|].
    intros x [->%elem_of_singleton|Hx]%elem_of_union; [|by apply Hm]. split; [lia|by apply Hnew].
Qed.

Lemma recordSeq_ok f l s q :
  gaps_ok f l s → 0 < f → f ∈ l → 0 < q < 2 ^ 64 → lastSeq s < 2 ^ 64 →
  gaps_ok f (l ++ [q]) (recordSeq s q).
Proof.
  intros HG Hf Hfl Hq Hl. pose proof (g_max _ _ _ HG f Hfl) as Hle.
  unfold recordSeq. case_bool_decide as Hlate; [by apply gaps_late|].
  rewrite u64_small by lia. case_bool_decide as Hj.
  - pose proof (gaps_jump f l s q HG Hf Hle (proj2 Hj)) as H. destruct (gap_loop _ _ _ _). apply H. lia.
  - apply gaps_next; [done|]. destruct (decide (lastSeq s + 1 < q)); [|lia]. exfalso. apply Hj. lia.
Qed.

(** The diagnostics over a whole stream of numbers. *)
Lemma recordSeqs_ok f l :
  Forall (λ n, 0 < n < 2 ^ 64) (f :: l) →
  gaps_ok f (f :: l) (foldl recordSeq newSeqs (f :: l)).
Proof.
  induction l as [|q l IH] using rev_ind; intros HF.
  - inversion HF. by apply gaps_first.
  - rewrite app_comm_cons, Forall_app in HF. destruct HF as [HF Hq].
    specialize (IH HF). rewrite (app_comm_cons l [q] f), foldl_app.
    rewrite Forall_singleton in Hq. rewrite Forall_forall in HF.
    apply (recordSeq_ok f (f :: l)); [done| |set_solver|done|].
    + apply (HF f). set_solver.
    + apply HF. apply IH.
Qed.

(** * Claims on gaps *)

(** Gap diagnostics: for any numbers a stream delivers, late ones included, at most
    4096 are tracked; every tracked number lies between the first and the newest number
    and was not delivered; without an overrun exactly the undelivered numbers are
    tracked, so no gap is reported iff everything from the first to the newest number
    arrived; and an overrun is only ever reported after more than 4096 numbers were
    missing at once. *)
Theorem gap_diagnostics_exact f l s :
  Forall (λ n, 0 < n < 2 ^ 64) (f :: l) → s = foldl recordSeq newSeqs (f :: l) →
  (size (missingSeqs s) ≤ maxMissingSeqs)%nat
  ∧ (∀ n, n ∈ missingSeqs s → f ≤ n < lastSeq s ∧ n ∉ f :: l)
  ∧ (gapOverflow s = false →
      (seenGap s = false ↔ ∀ n, f ≤ n ≤ lastSeq s → n ∈ f :: l))
  ∧ (gapOverflow s = true →
      ∃ l1 l2 top (X : gset Z), f :: l = l1 ++ l2 ∧ top ∈ l1 ∧ (maxMissingSeqs < size X)%nat
        ∧ ∀ n, n ∈ X → f ≤ n < top ∧ n ∉ l1).
Proof.
  intros HF ->. pose proof (recordSeqs_ok f l HF) as [H1 H2 H3 H4 H5 H6].
  set (s := foldl recordSeq newSeqs (f :: l)) in *.
  refine (conj H5 (conj H3 (conj _ H6))). intros Ho. unfold seenGap. rewrite Ho. simpl.
  rewrite bool_decide_eq_false. split.
  - intros He n Hn. destruct (decide (n ∈ f :: l)) as [|Hni]; [done|].
    specialize (H4 Ho n Hn Hni). destruct (decide (missingSeqs s = ∅)) as [E|]; [|tauto]. set_solver.
  - intros Hall Hne. apply set_choose_L in Hne as [n Hn]. destruct (H3 n Hn) as [Hr Hni].
    apply Hni, Hall. lia.
Qed.

Lemma gap_diagnostics_exact_witness :
  seenGap (foldl recordSeq newSeqs [5; 8; 6]) = true
  ∧ ∀ n, n ∈ missingSeqs (foldl recordSeq newSeqs [5; 8; 6]) → 5 ≤ n < 8 ∧ n ∉ [5; 8; 6].
Proof.
  split; [vm_compute; reflexivity|].
  assert (lastSeq (foldl recordSeq newSeqs [5; 8; 6]) = 8) as <- by (vm_compute; reflexivity).
  apply (gap_diagnostics_exact 5 [8; 6] _); [|reflexivity].
  repeat constructor.
Defined.

(** * Frames *)

(** The [frame] oneof of an [AgentFrame]; an unset and an unrecognized variant count as
    unknown. *)
Inductive AgentFrame :=
| FrameSession (state : AgentSessionState) (turnSequence : Z)
| FrameDeliveryAck (messageID : string)
| FrameForgeNotificationAck (subscriptionID revision : string)
| FrameUnset
| FrameOther.

Record RunnerEvent := MkEvent {
  RunnerSeq : Z;
  SessionID : string;
  RunnerID : string;
  Frame : AgentFrame;
  EnrollGen : Z;
}.

(** What the binding lookups and the delivery store answer during one [Deliver]. *)
Record answers := MkAnswers {
  a_bound : option string;
  a_allowed : bool;
  a_scoped : bool;
  a_agent : option string;
  a_channel : option string;
  a_stored : bool;
}.

Inductive effect :=
| RelaySessionFrame (sid : string) (st : AgentSessionState) (turn : Z)
| PublishSessionStatus (sid : string) (st : AgentSessionState) (acct : option string) (tier posture : Z)
| OnSessionSettled (sid : string) (st : AgentSessionState) (turn : Z)
| OnSessionLifecycle (acct sid : string) (st : AgentSessionState)
| DropLostSession (gen : Z) (rid sid : string)
| AckDelivery (agent channel messageID : string)
| AdvanceForgeDeliveredRevision (agent subscriptionID revision : string).

Section frames.
Context {L : Type} `{!Lru maxLifecycleSeqs Z L}.

Record Hub := MkHub {
  seqs : Seqs;
  lifecycleSeqs : L;
  enrollGen : Z;
  unknownFrames : Z;
  droppedAcks : Z;
  tier : Z;
  egressPosture : Z;
}.

Definition NewHub : Hub := MkHub newSeqs lru_empty 1 0 0 0 0.

Definition set_seqs (s : Seqs) (h : Hub) : Hub :=
  MkHub s (lifecycleSeqs h) (enrollGen h) (unknownFrames h) (droppedAcks h) (tier h) (egressPosture h).

Definition set_lifecycle (l : L) (h : Hub) : Hub :=
  MkHub (seqs h) l (enrollGen h) (unknownFrames h) (droppedAcks h) (tier h) (egressPosture h).

Definition countUnknown (h : Hub) : Hub :=
  MkHub (seqs h) (lifecycleSeqs h) (enrollGen h) (u64 (unknownFrames h + 1)) (droppedAcks h) (tier h)
    (egressPosture h).

Definition countDroppedAck (h : Hub) : Hub :=
  MkHub (seqs h) (lifecycleSeqs h) (enrollGen h) (unknownFrames h) (u64 (droppedAcks h + 1)) (tier h)
    (egressPosture h).

Definition staleEnrollment (ev : RunnerEvent) (h : Hub) : bool :=
  negb (bool_decide (EnrollGen ev = 0 ∨ EnrollGen ev = enrollGen h)).

(** Everything a lifecycle frame triggers, in order. *)
Definition lifecycleEffects (ev : RunnerEvent) (st : AgentSessionState) (turn : Z) (acct : option string)
    (h : Hub) : list effect :=
  [RelaySessionFrame (SessionID ev) st turn;
   PublishSessionStatus (SessionID ev) st acct (tier h) (egressPosture h);
   OnSessionSettled (SessionID ev) st turn]
  ++ match acct with Some a => [OnSessionLifecycle a (SessionID ev) st] | None => [] end
  ++ match acct with
     | Some _ => if bool_decide (st = ERRORED)
                 then [DropLostSession (enrollGen h) (RunnerID ev) (SessionID ev)] else []
     | None => []
     end.

Definition deliverSession (ans : answers) (ev : RunnerEvent) (st : AgentSessionState) (turn : Z)
    (h : Hub) : Hub * list effect :=
  if negb (a_allowed ans) then (h, [])
  else if bool_decide (st = UNSPECIFIED) then (h, [RelaySessionFrame (SessionID ev) st turn])
  else
    let l := lru_touch (SessionID ev) (lifecycleSeqs h) in
    match lru_peek (SessionID ev) (lifecycleSeqs h) with
    | Some last =>
        if bool_decide (RunnerSeq ev ≤ last) then (set_lifecycle l h, [])
        else (set_lifecycle (lru_add (SessionID ev) (RunnerSeq ev) l) h,
              lifecycleEffects ev st turn (a_bound ans) h)
    | None =>
        (set_lifecycle (lru_add (SessionID ev) (RunnerSeq ev) l) h,
         lifecycleEffects ev st turn (a_bound ans) h)
    end.

Definition deliverAck (ans : answers) (messageID : string) (h : Hub) : Hub * list effect :=
  if bool_decide (messageID = "") then (countDroppedAck h, [])
  else if negb (a_scoped ans) then (countDroppedAck h, [])
  else match a_agent ans with
       | None => (countDroppedAck h, [])
       | Some agent =>
           match a_channel ans with
           | None => (countDroppedAck h, [])
           | Some channel =>
               (if a_stored ans then h else countDroppedAck h, [AckDelivery agent channel messageID])
           end
       end.

Definition forgeNotificationAck (ans : answers) (subscriptionID revision : string) (h : Hub)
    : Hub * list effect :=
  if bool_decide (subscriptionID = "") then (countDroppedAck h, [])
  else if negb (a_scoped ans) then (countDroppedAck h, [])
  else match a_agent ans with
       | None => (countDroppedAck h, [])
       | Some agent =>
           (if a_stored ans then h else countDroppedAck h,
            [AdvanceForgeDeliveredRevision agent subscriptionID revision])
       end.

Definition Deliver (ans : answers) (ev : RunnerEvent) (h : Hub) : Hub * list effect :=
  let stale := staleEnrollment ev h in
  let h1 := if stale then h else set_seqs (recordSeq (seqs h) (RunnerSeq ev)) h in
  match Frame ev with
  | FrameUnset | FrameOther => (countUnknown h1, [])
  | FrameSession st turn => if stale then (h1, []) else deliverSession ans ev st turn h1
  | FrameDeliveryAck messageID => deliverAck ans messageID h1
  | FrameForgeNotificationAck sub rev => forgeNotificationAck ans sub rev h1
  end.

(** The frame state of [enroll]. *)
Definition enroll (t p : Z) (h : Hub) : Hub :=
  MkHub newSeqs lru_empty (u64 (enrollGen h + 1)) (unknownFrames h) (droppedAcks h) t p.

(** * Runs *)

(** The published statuses and the frames that were due, each with the generation and
    the sequence number of its frame. *)
Record Sys := MkSys {
  hub : Hub;
  log : list (Z * string * Z);
  due : list (Z * string * Z);
}.

Definition publishes (es : list effect) : bool :=
  existsb (λ e, match e with PublishSessionStatus _ _ _ _ _ => true | _ => false end) es.

(** A lifecycle frame of a current stream, from the Runner that owns the session. *)
Definition is_due (ans : answers) (ev : RunnerEvent) (h : Hub) : bool :=
  negb (staleEnrollment ev h) && a_allowed ans
  && match Frame ev with FrameSession st _ => negb (bool_decide (st = UNSPECIFIED)) | _ => false end.

Definition tag (ev : RunnerEvent) (h : Hub) : Z * string * Z := (enrollGen h, SessionID ev, RunnerSeq ev).

Inductive reach (X : gset string) : Sys → Prop :=
| reach_new : reach X (MkSys NewHub [] [])
| reach_deliver h lg d ans ev :
    reach X (MkSys h lg d) → SessionID ev ∈ X →
    reach X (MkSys (Deliver ans ev h).1
      (if publishes (Deliver ans ev h).2 then lg ++ [tag ev h] else lg)
      (if is_due ans ev h then d ++ [tag ev h] else d))
| reach_enroll h lg d t p :
    reach X (MkSys h lg d) → enrollGen h + 1 < 2 ^ 64 → reach X (MkSys (enroll t p h) lg d).

(** What was published for a session under a generation. *)
Definition published (g : Z) (sid : string) (lg : list (Z * string * Z)) : list Z :=
  snd <$> filter (λ x, x.1 = (g, sid)) lg.

Record inv (X : gset string) (y : Sys) : Prop := {
  i_gen : 1 ≤ enrollGen (hub y) ∧ ∀ g s n, (g, s, n) ∈ log y → g ≤ enrollGen (hub y);
  i_sorted g s : StronglySorted Z.lt (published g s (log y));
  i_newest s : list.last (published (enrollGen (hub y)) s (log y)) = lru_peek s (lifecycleSeqs (hub y));
  i_keys s : is_Some (lru_peek s (lifecycleSeqs (hub y))) → s ∈ X;
  i_due g s n : (g, s, n) ∈ due y → ∃ m, n ≤ m ∧ (g, s, m) ∈ log y;
}.

Lemma published_snoc g s lg g' s' n :
  published g s (lg ++ [(g', s', n)])
  = if decide ((g', s') = (g, s)) then published g s lg ++ [n] else published g s lg.
Proof.
  unfold published. rewrite filter_app, fmap_app, filter_cons. simpl. case_decide; [done|].
  by rewrite app_nil_r.
Qed.

Lemma published_elem g s n lg : n ∈ published g s lg ↔ (g, s, n) ∈ lg.
Proof.
  unfold published. rewrite list_elem_of_fmap. split.
  - intros ([[g' s'] n'] & -> & [E Hin]%list_elem_of_filter). simpl in *. congruence.
  - intros H. exists (g, s, n). split; [done|]. by apply list_elem_of_filter.
Qed.

(** The five shapes of a [Deliver]. *)
Lemma Deliver_cases ans ev h :
  let '(h', es) := Deliver ans ev h in
  enrollGen h' = enrollGen h ∧
  if is_due ans ev h then
    match lru_peek (SessionID ev) (lifecycleSeqs h) with
    | Some last => if bool_decide (RunnerSeq ev ≤ last)
        then es = [] ∧ lifecycleSeqs h' = lru_touch (SessionID ev) (lifecycleSeqs h)
        else publishes es = true
             ∧ lifecycleSeqs h' = lru_add (SessionID ev) (RunnerSeq ev) (lru_touch (SessionID ev) (lifecycleSeqs h))
    | None => publishes es = true
             ∧ lifecycleSeqs h' = lru_add (SessionID ev) (RunnerSeq ev) (lru_touch (SessionID ev) (lifecycleSeqs h))
    end
  else publishes es = false ∧ lifecycleSeqs h' = lifecycleSeqs h.
Proof.
  unfold Deliver, is_due. destruct (Frame ev) as [st turn|msg|sub rev| |]; simpl.
  - destruct (staleEnrollment ev h); simpl; [done|]. unfold deliverSession.
    destruct (a_allowed ans); simpl; [|done]. case_bool_decide; simpl; [done|].
    destruct (lru_peek (SessionID ev) (lifecycleSeqs h)); [|done]. by case_bool_decide.
  - rewrite !andb_false_r. unfold deliverAck, countDroppedAck.
    destruct (staleEnrollment ev h); simpl; repeat case_match; simplify_eq; done.
  - rewrite !andb_false_r. unfold forgeNotificationAck, countDroppedAck.
    destruct (staleEnrollment ev h); simpl; repeat case_match; simplify_eq; done.
  - rewrite !andb_false_r. by destruct (staleEnrollment ev h).
  - rewrite !andb_false_r. by destruct (staleEnrollment ev h).
Qed.

Lemma sorted_snoc (l : list Z) x :
  StronglySorted Z.lt l → (∀ y, list.last l = Some y → y < x) → StronglySorted Z.lt (l ++ [x]).
Proof.
  intros HS HL. apply StronglySorted_app. split; [|split; [done|repeat constructor]].
  intros y z Hy ->%list_elem_of_singleton.
  destruct l as [|w l] using rev_ind; [set_solver|]. rewrite last_snoc in HL.
  specialize (HL w eq_refl). apply elem_of_app in Hy as [Hy| ->%list_elem_of_singleton]; [|done].
  apply StronglySorted_app in HS as [HS _]. specialize (HS y w Hy ltac:(set_solver)). lia.
Qed.

(** A published frame. *)
Lemma inv_publish X h lg d ev h' d' :
  inv X (MkSys h lg d) → (size X ≤ maxLifecycleSeqs)%nat → SessionID ev ∈ X →
  enrollGen h' = enrollGen h →
  lifecycleSeqs h' = lru_add (SessionID ev) (RunnerSeq ev) (lru_touch (SessionID ev) (lifecycleSeqs h)) →
  (∀ last, lru_peek (SessionID ev) (lifecycleSeqs h) = Some last → last < RunnerSeq ev) →
  (∀ x, x ∈ d' → x ∈ d ∨ x = tag ev h) →
  inv X (MkSys h' (lg ++ [tag ev h]) d').
Proof.
  intros [[H1 H1'] H2 H3 H4 H5] HX Hin EG EL Hnew Hd. simpl in *.
  assert (∀ k, lru_peek k (lifecycleSeqs h')
    = if decide (k = SessionID ev) then Some (RunnerSeq ev) else lru_peek k (lifecycleSeqs h)) as Hpk.
  { intros k. rewrite EL. case_decide as Hk; [subst; apply lru_peek_add|].
    rewrite (lru_add_room X); [by rewrite lru_peek_touch| |done|done|done].
    intros x. rewrite lru_peek_touch. apply H4. }
  unfold tag in *. split; simpl; rewrite ?EG.
  - split; [done|]. intros g s n [Hx|Hx]%elem_of_app; [eauto|].
    apply list_elem_of_singleton in Hx. simplify_eq. done.
  - intros g s. rewrite published_snoc. case_decide as Hk; [|done]. simplify_eq.
    apply sorted_snoc; [done|]. intros y. rewrite H3. apply Hnew.
  - intros s. rewrite published_snoc, Hpk. case_decide as Hk.
    + simplify_eq. rewrite decide_True by done. by rewrite last_snoc.
    + rewrite decide_False by congruence. apply H3.
  - intros s. rewrite Hpk. case_decide; [by subst|apply H4].
  - intros g s n Hx. destruct (Hd _ Hx) as [Hx'|[= -> -> ->]].
    + destruct (H5 _ _ _ Hx') as (m & Hm & Hm'). exists m. split; [done|]. set_solver.
    + exists (RunnerSeq ev). split; [done|]. set_solver.
Qed.

(** A frame that publishes nothing. *)
Lemma frames_inv_quiet X h lg d h' d' :
  inv X (MkSys h lg d) → enrollGen h' = enrollGen h →
  (∀ k, lru_peek k (lifecycleSeqs h') = lru_peek k (lifecycleSeqs h)) →
  (∀ g s n, (g, s, n) ∈ d' → ∃ m, n ≤ m ∧ (g, s, m) ∈ lg) →
  inv X (MkSys h' lg d').
Proof.
  intros [H1 H2 H3 H4 H5] EG EP HD. simpl in *. split; simpl; rewrite ?EG; try done.
  - intros s. by rewrite EP.
  - intros s. rewrite EP. apply H4.
Qed.

Lemma frames_reach_inv X y : (size X ≤ maxLifecycleSeqs)%nat → reach X y → inv X y.
Proof.
  intros HX. induction 1 as [|h lg d ans ev _ IH Hin|h lg d t p _ IH Hg].
  - split; simpl; try done.
    + split; [lia|]. intros *. by rewrite elem_of_nil.
    + intros g s. constructor.
    + intros s. by rewrite lru_peek_empty.
    + intros s. rewrite lru_peek_empty. by intros [? ?].
    + intros *. by rewrite elem_of_nil.
  - pose proof (Deliver_cases ans ev h) as HC. destruct (Deliver ans ev h) as [h' es].
    destruct HC as [EG HC]. simpl. destruct (is_due ans ev h).
    2: { destruct HC as [-> EL]. eapply frames_inv_quiet; [exact IH|done|by intros k; rewrite EL|apply IH]. }
    assert (∀ x, x ∈ d ++ [tag ev h] → x ∈ d ∨ x = tag ev h) as Hd.
    { intros x [Hx| ->%list_elem_of_singleton]%elem_of_app; auto. }
    pose proof (i_newest _ _ IH (SessionID ev)) as HN. simpl in HN.
    destruct (lru_peek (SessionID ev) (lifecycleSeqs h)) as [last|] eqn:EP.
    + case_bool_decide as Hle; destruct HC as [Hes EL].
      * subst es. simpl. eapply frames_inv_quiet; [exact IH|done|by intros k; rewrite EL, lru_peek_touch|].
        intros g s n Hx. destruct (Hd _ Hx) as [Hx'|[= -> -> ->]]; [by apply IH|].
        exists last. split; [done|]. apply published_elem. apply last_Some in HN as [l' ->]. set_solver.
      * rewrite Hes. eapply inv_publish; [exact IH|done..| |done]. rewrite EP. intros ? [= <-]. lia.
    + destruct HC as [-> EL]. eapply inv_publish; [exact IH|done..| |done]. rewrite EP. done.
  - destruct IH as [[H1 H1'] H2 H3 H4 H5]. simpl in *. split; simpl.
    + rewrite u64_small by lia. split; [lia|]. intros g s n Hx. apply H1' in Hx. lia.
    + done.
    + intros s. rewrite u64_small, lru_peek_empty by lia.
      destruct (published (enrollGen h + 1) s lg) as [|n l] eqn:E; [done|]. exfalso.
      assert (n ∈ published (enrollGen h + 1) s lg) as Hn by (rewrite E; set_solver).
      apply published_elem in Hn. apply H1' in Hn. lia.
    + intros s. rewrite lru_peek_empty. by intros [? ?].
    + done.
Qed.

(** * Claim on order *)

(** C29. In a run whose frames name, over all its enrollments together, at most as many
    sessions as the cache of lifecycle sequences holds ([maxLifecycleSeqs], 4096; past it an
    evicted session's older frame is published again): within an enrollment a session's lifecycle statuses are published in strictly
    increasing sequence order, every frame of the owning Runner on a current stream is
    published or is older than one that was, and nothing is published for a stale
    stream; so the newest published status is the newest frame, whatever order frames
    arrive in. *)
Theorem lifecycle_in_order X y g s :
  (size X ≤ maxLifecycleSeqs)%nat → reach X y →
  StronglySorted Z.lt (published g s (log y))
  ∧ (∀ n, (g, s, n) ∈ due y → ∃ m, list.last (published g s (log y)) = Some m ∧ n ≤ m)
  ∧ (∀ ans ev, EnrollGen ev ≠ 0 → EnrollGen ev ≠ enrollGen (hub y) →
       publishes (Deliver ans ev (hub y)).2 = false).
Proof.
  intros HX R. pose proof (frames_reach_inv X y HX R) as HI. refine (conj (i_sorted _ _ HI g s) (conj _ _)).
  - intros n Hn. destruct (i_due _ _ HI _ _ _ Hn) as (m & Hm & Hin). apply published_elem in Hin.
    pose proof (i_sorted _ _ HI g s) as HS. destruct (published g s (log y)) as [|w l] using rev_ind; [set_solver|].
    exists w. rewrite last_snoc. split; [done|].
    apply elem_of_app in Hin as [Hin| ->%list_elem_of_singleton]; [|done].
    apply StronglySorted_app in HS as [HS _]. specialize (HS m w Hin ltac:(set_solver)). lia.
  - intros ans ev H0 Hg. pose proof (Deliver_cases ans ev (hub y)) as HC.
    destruct (Deliver ans ev (hub y)) as [h' es]. destruct HC as [_ HC].
    assert (is_due ans ev (hub y) = false) as E; [|rewrite E in HC; apply HC].
    unfold is_due, staleEnrollment. by rewrite bool_decide_false by tauto.
Qed.

End frames.

Definition demo_answers : answers := MkAnswers (Some "agent") true true (Some "agent") (Some "c") true.

(** Three frames of a session arrive out of order. *)
Lemma lifecycle_in_order_witness :
  ∃ y : @Sys (listCache Z), reach {["s"]} y ∧ published 1 "s" (log y) = [1; 3]
    ∧ StronglySorted Z.lt (published 1 "s" (log y)).
Proof.
  pose proof (@reach_new _ (listCache_lru maxLifecycleSeqs) {["s"]}) as R.
  eapply (reach_deliver _ _ _ _ demo_answers (MkEvent 1 "s" "r" (FrameSession READY 0) 1)) in R; [|done].
  eapply (reach_deliver _ _ _ _ demo_answers (MkEvent 3 "s" "r" (FrameSession WORKING 0) 1)) in R; [|done].
  eapply (reach_deliver _ _ _ _ demo_answers (MkEvent 2 "s" "r" (FrameSession READY 0) 1)) in R; [|done].
  match type of R with reach _ ?y => exists y end.
  split; [exact R|]. split; [vm_compute; reflexivity|].
  refine (proj1 (lifecycle_in_order {["s"]} _ 1 "s" _ R)).
  rewrite size_singleton. apply Nat.leb_le. vm_compute. reflexivity.
Defined.

End HubFrames.
