(* ===== verification/HubLocks.v ===== *)
(** Two small synchronization mechanisms of the Runner hub
    ([src/go/internal/runnerhub/hub.go]): the reference-counted lifecycle lock of a
    session ([lockSession]) and the shutdown of the runner-ready hooks
    ([fireRunnerReady], [hookReturned], [StopReadyHooks]).  A step is one critical
    section or one lock operation; closing a closed channel is [Panic]. *)
From stdpp Require Import base gmap strings list.
From Stdlib Require Import ZArith Lia.
From S2P Require Import Prelude.

Open Scope Z_scope.

Module SessionLocks.

Record sessionLock := MkLock { locked : bool; refs : Z }.

(** A goroutine in [lockSession]: waiting for the mutex, holding it, or having unlocked
    it and about to drop its reference. *)
Inductive stage := Waiting | Holding | Unlocked.

Record user := MkUser { session : string; lock : nat; at_ : stage }.

Record Locks := MkLocks {
  sessionLocks : gmap string nat;
  objs : gmap nat sessionLock;
  users : gmap nat user;
}.

Definition newLocks : Locks := MkLocks ∅ ∅ ∅.

(** The first critical section: find or make the lock, count a reference.  [fresh] is
    the object a new lock would be. *)
Definition enter (sid : string) (fresh : nat) (s : Locks) : nat * Locks :=
  match sessionLocks s !! sid with
  | Some l => (l, MkLocks (sessionLocks s)
                    (alter (λ o, MkLock (locked o) (refs o + 1)) l (objs s)) (users s))
  | None => (fresh, MkLocks (<[sid := fresh]> (sessionLocks s)) (<[fresh := MkLock false 1]> (objs s)) (users s))
  end.

(** The last one: drop the reference, and the entry with the last one. *)
Definition leave (sid : string) (l : nat) (s : Locks) : Locks :=
  let r := default 0 (refs <$> objs s !! l) - 1 in
  MkLocks (if bool_decide (r = 0) then delete sid (sessionLocks s) else sessionLocks s)
    (alter (λ o, MkLock (locked o) r) l (objs s)) (users s).

Definition set_locked (b : bool) (l : nat) (s : Locks) : Locks :=
  MkLocks (sessionLocks s) (alter (λ o, MkLock b (refs o)) l (objs s)) (users s).

Definition set_user (t : nat) (u : option user) (s : Locks) : Locks :=
  MkLocks (sessionLocks s) (objs s) (match u with Some u => <[t := u]> (users s) | None => delete t (users s) end).

Inductive step : Locks → Locks → Prop :=
| SEnter s t sid fresh l s' :
    users s !! t = None → objs s !! fresh = None → enter sid fresh s = (l, s') →
    step s (set_user t (Some (MkUser sid l Waiting)) s')
| SAcquire s t sid l r :
    users s !! t = Some (MkUser sid l Waiting) → objs s !! l = Some (MkLock false r) →
    step s (set_user t (Some (MkUser sid l Holding)) (set_locked true l s))
| SUnlock s t sid l :
    users s !! t = Some (MkUser sid l Holding) →
    step s (set_user t (Some (MkUser sid l Unlocked)) (set_locked false l s))
| SLeave s t sid l :
    users s !! t = Some (MkUser sid l Unlocked) →
    step s (set_user t None (leave sid l s)).

Inductive reachable : Locks → Prop :=
| reach_new : reachable newLocks
| reach_step x y : reachable x → step x y → reachable y.

(** The references an object should have. *)
Definition uses (l : nat) (us : gmap nat user) : Z := mcount (λ u, lock u = l) us.

Record inv (s : Locks) : Prop := {
  i_user t u : users s !! t = Some u → sessionLocks s !! session u = Some (lock u);
  i_entry sid l : sessionLocks s !! sid = Some l →
    ∃ o, objs s !! l = Some o ∧ refs o = uses l (users s) ∧ 0 < uses l (users s);
  i_inj sid1 sid2 l : sessionLocks s !! sid1 = Some l → sessionLocks s !! sid2 = Some l → sid1 = sid2;
  i_held t u : users s !! t = Some u → at_ u = Holding →
    ∃ o, objs s !! lock u = Some o ∧ locked o = true;
  i_one t1 t2 u1 u2 : users s !! t1 = Some u1 → users s !! t2 = Some u2 →
    at_ u1 = Holding → at_ u2 = Holding → lock u1 = lock u2 → t1 = t2;
}.

Lemma uses_insert_new l t u us :
  us !! t = None → uses l (<[t := u]> us) = uses l us + (if decide (lock u = l) then 1 else 0).
Proof. intros. unfold uses. rewrite mcount_insert_new by done. by repeat case_decide. Qed.

Lemma uses_insert_same l t u u' us :
  us !! t = Some u → lock u' = lock u → uses l (<[t := u']> us) = uses l us.
Proof. intros Hu El. eapply (mcount_insert_same (λ u, lock u = l)); [done|]. by rewrite El. Qed.

Lemma uses_delete l t u us :
  us !! t = Some u → uses l (delete t us) = uses l us - (if decide (lock u = l) then 1 else 0).
Proof. intros Hu. unfold uses. rewrite (mcount_delete _ us t u Hu). by repeat case_decide. Qed.

Lemma uses_zero l us : (∀ t u, us !! t = Some u → lock u ≠ l) → uses l us = 0.
Proof. apply (mcount_zero (λ u, lock u = l)). Qed.

Lemma uses_pos l t u us : us !! t = Some u → lock u = l → 0 < uses l us.
Proof. apply (mcount_pos (λ u, lock u = l)). Qed.

(** Objects of live entries, read through an update of one of them. *)
Lemma lookup_alter_obj (f : sessionLock → sessionLock) l l' (m : gmap nat sessionLock) o :
  m !! l' = Some o →
  alter f l m !! l' = Some (if decide (l = l') then f o else o).
Proof.
  intros H. case_decide as E; [subst; by rewrite lookup_alter_eq, H|by rewrite lookup_alter_ne].
Qed.

Lemma inv_enter s t sid fresh l s' :
  inv s → users s !! t = None → objs s !! fresh = None → enter sid fresh s = (l, s') →
  inv (set_user t (Some (MkUser sid l Waiting)) s').
Proof.
  intros [H1 H2 H3 H4 H5] Ht Hf. unfold enter.
  destruct (sessionLocks s !! sid) as [l0|] eqn:El; intros [= <- <-]; split; simpl.
  - intros t' u [[<- <-]|[_ Hu]]%lookup_insert_Some; [done|eauto].
  - intros sid' l' Hl. destruct (H2 _ _ Hl) as (o & Ho & Hr & Hp).
    rewrite (lookup_alter_obj _ _ _ _ o Ho), uses_insert_new by done. simpl.
    eexists. split; [done|]. case_decide; simpl; lia.
  - eauto.
  - intros t' u [[<- <-]|[_ Hu]]%lookup_insert_Some Ha; [done|].
    destruct (H4 _ _ Hu Ha) as (o & Ho & Hk). rewrite (lookup_alter_obj _ _ _ _ o Ho).
    eexists. split; [done|]. by case_decide.
  - intros t1 t2 u1 u2 [[<- <-]|[_ Hu1]]%lookup_insert_Some [[<- <-]|[_ Hu2]]%lookup_insert_Some; try done; eauto.
  - intros t' u [[<- <-]|[_ Hu]]%lookup_insert_Some; [by rewrite lookup_insert_eq|].
    rewrite lookup_insert_ne; [eauto|]. intros E. apply H1 in Hu. congruence.
  - assert (∀ t u, users s !! t = Some u → lock u ≠ fresh) as Hfr.
    { intros t' u Hu E. apply H1, H2 in Hu as (o & Ho & _). congruence. }
    intros sid' l' [[<- <-]|[Hne Hl]]%lookup_insert_Some.
    + rewrite lookup_insert_eq, uses_insert_new by done. simpl. rewrite decide_True by done.
      rewrite uses_zero by done. eexists. split; [done|]. simpl. lia.
    + destruct (H2 _ _ Hl) as (o & Ho & Hr & Hp). assert (fresh ≠ l') as Hd by congruence.
      rewrite lookup_insert_ne, uses_insert_new by done. simpl. rewrite decide_False by done.
      exists o. split; [done|]. lia.
  - intros s1 s2 l' [[<- <-]|[_ A]]%lookup_insert_Some [[<- E]|[_ B]]%lookup_insert_Some; try done; [| |eauto].
    + apply H2 in B as (o & Ho & _). congruence.
    + subst. apply H2 in A as (o & Ho & _). congruence.
  - intros t' u [[<- <-]|[_ Hu]]%lookup_insert_Some Ha; [done|].
    destruct (H4 _ _ Hu Ha) as (o & Ho & Hk). exists o. rewrite lookup_insert_ne; [done|]. congruence.
  - intros t1 t2 u1 u2 [[<- <-]|[_ Hu1]]%lookup_insert_Some [[<- <-]|[_ Hu2]]%lookup_insert_Some; try done; eauto.
Qed.

(** Taking and giving back the mutex. *)
Lemma inv_mutex s t sid l st st' b :
  inv s → users s !! t = Some (MkUser sid l st) →
  (∀ t' u, users s !! t' = Some u → at_ u = Holding → lock u = l → t' = t) →
  (st' = Holding ↔ b = true) →
  inv (set_user t (Some (MkUser sid l st')) (set_locked b l s)).
Proof.
  intros [H1 H2 H3 H4 H5] Ht Hh Hb. split; simpl.
  - intros t' u [[<- <-]|[_ Hu]]%lookup_insert_Some; [apply (H1 _ _ Ht)|eauto].
  - intros sid' l' Hl. destruct (H2 _ _ Hl) as (o & Ho & Hr & Hp).
    rewrite (lookup_alter_obj _ _ _ _ o Ho), (uses_insert_same _ _ (MkUser sid l st)) by done.
    eexists. split; [done|]. by case_decide.
  - eauto.
  - intros t' u [[<- <-]|[Hne Hu]]%lookup_insert_Some Ha; simpl in *.
    + apply H1 in Ht as Hl. simpl in Hl. apply H2 in Hl as (o & Ho & _).
      rewrite (lookup_alter_obj _ _ _ _ o Ho), decide_True by done. eexists. split; [done|]. by apply Hb.
    + destruct (H4 _ _ Hu Ha) as (o & Ho & Hk). rewrite (lookup_alter_obj _ _ _ _ o Ho).
      eexists. split; [done|]. case_decide as Hd; [|done]. exfalso. apply Hne. symmetry. by apply (Hh _ u).
  - intros t1 t2 u1 u2 [[<- <-]|[N1 Hu1]]%lookup_insert_Some [[<- <-]|[N2 Hu2]]%lookup_insert_Some A1 A2 E;
      simpl in *; try done; [| |eauto].
    + symmetry. by apply (Hh _ u2).
    + by apply (Hh _ u1).
Qed.

Lemma inv_leave s t sid l :
  inv s → users s !! t = Some (MkUser sid l Unlocked) → inv (set_user t None (leave sid l s)).
Proof.
  intros [H1 H2 H3 H4 H5] Ht. pose proof (H1 _ _ Ht) as Hl. simpl in Hl.
  destruct (H2 _ _ Hl) as (o & Ho & Hr & Hp). unfold leave. rewrite Ho. simpl.
  assert (uses l (delete t (users s)) = refs o - 1) as Hu.
  { rewrite (uses_delete _ _ _ _ Ht). simpl. rewrite decide_True by done. lia. }
  assert (∀ t' u, delete t (users s) !! t' = Some u → refs o - 1 = 0 → session u ≠ sid) as Hlast.
  { intros t' u Hu' Hz <-. apply lookup_delete_Some in Hu' as Hu''. destruct Hu'' as [_ Hx].
    apply H1 in Hx. assert (lock u = l) as El by congruence.
    pose proof (uses_pos _ _ _ _ Hu' El). lia. }
  split; simpl.
  - intros t' u Hu'. pose proof (Hlast t' u Hu') as Hne. apply lookup_delete_Some in Hu' as [_ Hx].
    case_bool_decide; [rewrite lookup_delete_ne by (symmetry; auto)|]; eauto.
  - intros sid' l' Hl'.
    assert (sessionLocks s !! sid' = Some l' ∧ (refs o - 1 = 0 → sid' ≠ sid)) as [Hold Hne].
    { case_bool_decide; [apply lookup_delete_Some in Hl' as [? ?]; auto|tauto]. }
    destruct (H2 _ _ Hold) as (o' & Ho' & Hr' & Hp'). rewrite (lookup_alter_obj _ _ _ _ o' Ho').
    destruct (decide (l = l')) as [<-|Hd].
    + assert (sid' = sid) as -> by eauto. eexists. split; [done|]. simpl. rewrite Hu.
      split; [done|]. destruct (decide (refs o - 1 = 0)); [naive_solver|lia].
    + exists o'. split; [done|]. rewrite (uses_delete _ _ _ _ Ht). simpl.
      rewrite decide_False by done. lia.
  - intros s1 s2 l' A B. case_bool_decide; [|eauto].
    apply lookup_delete_Some in A as [_ A], B as [_ B]. eauto.
  - intros t' u [_ Hx]%lookup_delete_Some Ha. destruct (H4 _ _ Hx Ha) as (o' & Ho' & Hk).
    rewrite (lookup_alter_obj _ _ _ _ o' Ho'). eexists. split; [done|]. case_decide; [subst; simpl; congruence|done].
  - intros t1 t2 u1 u2 [_ A]%lookup_delete_Some [_ B]%lookup_delete_Some. eauto.
Qed.

Lemma locks_reachable_inv s : reachable s → inv s.
Proof.
  induction 1 as [|x y _ IH HS].
  { split; simpl; try done. }
  destruct HS as [s t sid fresh l s' Ht Hf HE|s t sid l r Ht Hl|s t sid l Ht|s t sid l Ht].
  - by eapply inv_enter.
  - eapply inv_mutex; [done|done| |done]. intros t' u Hu Ha El.
    destruct (i_held _ IH _ _ Hu Ha) as (o & Ho & Hk). subst l. rewrite Hl in Ho. by injection Ho as <-.
  - eapply inv_mutex; [done|done| |done]. intros t' u Hu Ha El.
    apply (i_one _ IH _ _ _ _ Hu Ht Ha eq_refl El).
  - by eapply inv_leave.
Qed.

(** The lifecycle lock of a session excludes: at most one goroutine holds it, also
    while locks are dropped and made anew by concurrent callers; and the table keeps
    exactly the locks that someone holds, waits for or is about to drop. *)
Theorem session_lock_exclusive s t1 t2 u1 u2 sid :
  reachable s →
  (users s !! t1 = Some u1 → users s !! t2 = Some u2 → session u1 = session u2 →
   at_ u1 = Holding → at_ u2 = Holding → t1 = t2)
  ∧ (is_Some (sessionLocks s !! sid) ↔ ∃ t u, users s !! t = Some u ∧ session u = sid).
Proof.
  intros R. pose proof (locks_reachable_inv s R) as HI. split.
  - intros A B E Ha Hb. apply (i_one _ HI _ _ _ _ A B Ha Hb).
    pose proof (i_user _ HI _ _ A). pose proof (i_user _ HI _ _ B). congruence.
  - split; [|intros (t & u & Hu & <-); rewrite (i_user _ HI _ _ Hu); eauto].
    intros [l Hl]. destruct (i_entry _ HI _ _ Hl) as (o & _ & _ & Hp).
    destruct (decide (map_Forall (λ _ u, lock u ≠ l) (users s))) as [HF|HF].
    + rewrite uses_zero in Hp; [lia|]. exact HF.
    + apply map_not_Forall in HF as (t & u & Hu & Hne); [|apply _]. apply dec_stable in Hne.
      exists t, u. split; [done|]. apply (i_inj _ HI _ _ l); [|done]. rewrite <- Hne. by apply (i_user _ HI t u).
Qed.

(** Two callers of one session: the second waits while the first holds. *)
Lemma session_lock_exclusive_witness :
  ∃ s, reachable s ∧ users s !! 0%nat = Some (MkUser "s" 9 Holding)
    ∧ users s !! 1%nat = Some (MkUser "s" 9 Waiting) ∧ is_Some (sessionLocks s !! "s").
Proof.
  pose proof reach_new as R.
  eapply reach_step in R; [|eapply (SEnter _ 0 "s" 9); vm_compute; reflexivity].
  eapply reach_step in R; [|eapply (SEnter _ 1 "s" 8); vm_compute; reflexivity].
  eapply reach_step in R; [|eapply (SAcquire _ 0 "s" 9); vm_compute; reflexivity].
  match type of R with reachable ?s => exists s end.
  split; [exact R|]. split; [vm_compute; reflexivity|]. split; [vm_compute; reflexivity|].
  apply (proj2 (session_lock_exclusive _ 0 1 (MkUser "s" 9 Holding) (MkUser "s" 9 Waiting) "s" R)).
  exists 0%nat, (MkUser "s" 9 Holding). split; vm_compute; reflexivity.
Defined.

End SessionLocks.

Module ReadyHooks.

(** [hooksDone] is absent, an open channel ([Some false]) or a closed one. *)
Record Hooks := MkHooks { hooksClosed : bool; hooksRunning : Z; hooksDone : option bool }.

Definition newHooks : Hooks := MkHooks false 0 None.

Definition close_done (h : Hooks) : result unit Hooks :=
  match hooksDone h with
  | Some false => Ok (MkHooks (hooksClosed h) (hooksRunning h) (Some true))
  | _ => Panic
  end.

Definition StopReadyHooks (h : Hooks) : result unit Hooks :=
  if hooksClosed h then Ok h
  else
    let h1 := MkHooks true (hooksRunning h) (Some false) in
    if bool_decide (hooksRunning h = 0) then close_done h1 else Ok h1.

(** [fireRunnerReady] with a hook installed: whether it starts the hook. *)
Definition fireRunnerReady (h : Hooks) : Hooks * bool :=
  if hooksClosed h then (h, false)
  else (MkHooks false (hooksRunning h + 1) (hooksDone h), true).

Definition hookReturned (h : Hooks) : result unit Hooks :=
  let h1 := MkHooks (hooksClosed h) (hooksRunning h - 1) (hooksDone h) in
  if hooksClosed h && bool_decide (hooksRunning h1 = 0) then close_done h1 else Ok h1.

(** The hub, with the hooks that have started and not returned. *)
Inductive reachable : Hooks → nat → Prop :=
| reach_new : reachable newHooks 0
| reach_fire h n h' b : reachable h n → fireRunnerReady h = (h', b) →
    reachable h' (if b then S n else n)
| reach_return h n h' : reachable h (S n) → hookReturned h = Ok h' → reachable h' n
| reach_stop h n h' : reachable h n → StopReadyHooks h = Ok h' → reachable h' n.

Definition ok (h : Hooks) (n : nat) : Prop :=
  hooksRunning h = Z.of_nat n
  ∧ hooksDone h = (if hooksClosed h then Some (bool_decide (n = 0%nat)) else None).

Lemma ok_stop h n : ok h n → ∃ h', StopReadyHooks h = Ok h' ∧ ok h' n ∧ hooksClosed h' = true.
Proof.
  intros [Hr Hd]. unfold StopReadyHooks. destruct (hooksClosed h) eqn:EC; [exists h; split; [done|]; split; [split; [done|by rewrite EC]|done]|].
  rewrite Hr. case_bool_decide as Hz; eexists; (split; [reflexivity|]); (split; [|done]); split; simpl; try done.
  - by rewrite bool_decide_true by lia.
  - by rewrite bool_decide_false by lia.
Qed.

Lemma ok_return h n : ok h (S n) → ∃ h', hookReturned h = Ok h' ∧ ok h' n.
Proof.
  intros [Hr Hd]. unfold hookReturned. simpl. rewrite Hr.
  destruct (hooksClosed h) eqn:EC; simpl.
  - rewrite bool_decide_false in Hd by done.
    case_bool_decide as Hz; unfold close_done; simpl; rewrite ?Hd;
      eexists; (split; [reflexivity|]); split; simpl; try lia.
    + by rewrite bool_decide_true by lia.
    + by rewrite bool_decide_false by lia.
  - eexists. split; [reflexivity|]. split; simpl; [lia|]. done.
Qed.

Lemma ok_fire h n h' b : ok h n → fireRunnerReady h = (h', b) → ok h' (if b then S n else n).
Proof.
  intros [Hr Hd]. unfold fireRunnerReady. destruct (hooksClosed h) eqn:EC; intros [= <- <-].
  - split; [done|]. by rewrite EC.
  - split; simpl; [lia|done].
Qed.

Lemma hooks_ok h n : reachable h n → ok h n.
Proof.
  induction 1 as [|h n h' b _ IH HF|h n h' _ IH HF|h n h' _ IH HF]; [done|by eapply ok_fire| |].
  - destruct (ok_return h n IH) as (h1 & E & ?). congruence.
  - destruct (ok_stop h n IH) as (h1 & E & ? & _). congruence.
Qed.

(** Shutdown of the hooks: stopping and returning never close the channel twice, the
    channel is closed exactly when the hub was stopped and every started hook returned,
    and a stopped hub starts no hook. *)
Lemma hooks_drain h n :
  reachable h n →
  (∃ h', StopReadyHooks h = Ok h')
  ∧ (∀ m, n = S m → ∃ h', hookReturned h = Ok h')
  ∧ (hooksDone h = Some true ↔ hooksClosed h = true ∧ n = 0%nat)
  ∧ (hooksClosed h = true → fireRunnerReady h = (h, false)).
Proof.
  intros R. pose proof (hooks_ok h n R) as HO. refine (conj _ (conj _ (conj _ _))).
  - destruct (ok_stop h n HO) as (h' & E & _). eauto.
  - intros m ->. destruct (ok_return h m HO) as (h' & E & _). eauto.
  - destruct HO as [_ ->]. destruct (hooksClosed h); [|naive_solver].
    destruct (decide (n = 0%nat)) as [->|Hn]; [done|]. rewrite bool_decide_false by done. naive_solver.
  - unfold fireRunnerReady. by intros ->.
Qed.

End ReadyHooks.
