(* ===== verification/Presence.v ===== *)
(** Agent presence ([src/go/internal/presence/presence.go], [run.go], [activity.go]).

    The publisher projects each agent's presence from its last lifecycle state and an
    open-ask overlay, and publishes a change exactly once.  One goroutine, the loop,
    handles bus events and the queue of hub edges; hub goroutines append edges, and
    callers of [PublishActivity] publish beside the loop.  The model keeps the two
    halves of each operation that leaves the mutex in between apart: an append and its
    wakeup, the recording of a presence and its publication, the read of a presence and
    the publication of an activity.  What the store and the Runner answer is an input
    of the step that asks ([None] is a failed read, or an unknown session). *)
From stdpp Require Import base gmap strings list.
From Stdlib Require Import ZArith Lia.
From S2P Require Import Prelude Wire.

Module Presence.

(** * Data *)

Inductive edgeKind := edgeLifecycle | edgePromoted.

Record hubEdge := MkEdge {
  kind : edgeKind;
  account : string;
  sessionID : string;
  state : AgentSessionState;
  traceparent : string;
}.

Record AgentPresenceChanged := MkChanged {
  AgentAccountId : string;
  Presence : AgentPresence;
  Activity : string;
}.

(** The payloads of a comms event that the loop tells apart; a message may be nil. *)
Inductive commsEvent :=
| MessagePosted (msg : option Message)
| MessageUpdated (msg : option Message)
| OtherEvent.

Record Publisher := MkPublisher {
  last : gmap string AgentPresence;
  lastState : gmap string AgentSessionState;
  queue : list hubEdge;
  notify : bool;
}.

Definition NewPublisher : Publisher := MkPublisher ∅ ∅ [] false.

(** * Operations *)

Definition presenceFor (st : AgentSessionState) (openAsk : bool) : AgentPresence :=
  match st with
  | WORKING => PRESENCE_WORKING
  | STARTING | READY => if openAsk then PRESENCE_WAITING else PRESENCE_IDLE
  | _ => PRESENCE_OFFLINE
  end.

Definition PresenceSnapshot (p : Publisher) : gmap string AgentPresence := last p.

Definition PresenceFor (ids : list string) (p : Publisher) : gmap string AgentPresence :=
  foldl (λ out id, match last p !! id with Some pr => <[id := pr]> out | None => out end) ∅ ids.

(** [publishIfChanged] under the lock, and the event it then publishes. *)
Definition publishIfChanged (a : string) (pr : AgentPresence) (p : Publisher)
    : Publisher * option AgentPresenceChanged :=
  if bool_decide (last p !! a = Some pr) then (p, None)
  else (MkPublisher (<[a := pr]> (last p)) (lastState p) (queue p) (notify p),
        Some (MkChanged a pr "")).

Definition setState (a : string) (st : AgentSessionState) (p : Publisher) : Publisher :=
  MkPublisher (last p) (<[a := st]> (lastState p)) (queue p) (notify p).

(** [ask] answers [AgentHasOpenAsk]. *)
Definition recomputeFromStore (ask : option bool) (a : string) (p : Publisher)
    : Publisher * option AgentPresenceChanged :=
  match lastState p !! a, ask with
  | Some st, Some openAsk => publishIfChanged a (presenceFor st openAsk) p
  | _, _ => (p, None)
  end.

Definition applyLifecycle (ask : option bool) (a : string) (st : AgentSessionState) (p : Publisher)
    : Publisher * option AgentPresenceChanged :=
  match ask with
  | None => (p, None)
  | Some openAsk => publishIfChanged a (presenceFor st openAsk) (setState a st p)
  end.

(** [status] answers [SessionState]; a timeout is [None]. *)
Definition applyPromoted (status : option AgentSessionState) (ask : option bool) (a : string)
    (p : Publisher) : Publisher * option AgentPresenceChanged :=
  applyLifecycle ask a (default UNSPECIFIED status) p.

Definition applyEdge (status : option AgentSessionState) (ask : option bool) (e : hubEdge)
    (p : Publisher) : Publisher * option AgentPresenceChanged :=
  match kind e with
  | edgeLifecycle => applyLifecycle ask (account e) (state e) p
  | edgePromoted => applyPromoted status ask (account e) p
  end.

Definition hasAsk (msg : option Message) : bool :=
  match msg with
  | Some m => existsb (λ b, match b with BlockAsk => true | _ => false end) (Blocks m)
  | None => false
  end.

Definition author (msg : option Message) : string :=
  match msg with Some m => AuthorAccountId m | None => "" end.

(** The agent whose presence an event may change. *)
Definition eventAuthor (ev : commsEvent) : option string :=
  match ev with
  | MessagePosted msg =>
      if negb (hasAsk msg) || bool_decide (author msg = "") then None else Some (author msg)
  | MessageUpdated msg => if bool_decide (author msg = "") then None else Some (author msg)
  | OtherEvent => None
  end.

Definition handleEvent (ask : option bool) (ev : commsEvent) (p : Publisher)
    : Publisher * option AgentPresenceChanged :=
  match eventAuthor ev with
  | Some a => recomputeFromStore ask a p
  | None => (p, None)
  end.

(** [OnSessionLifecycle] and [OnSessionPromoted] queue an edge, then wake the loop. *)
Definition OnSessionLifecycle (a sid : string) (st : AgentSessionState) (tp : string) : hubEdge :=
  MkEdge edgeLifecycle a sid st tp.
Definition OnSessionPromoted (a sid tp : string) : hubEdge :=
  MkEdge edgePromoted a sid UNSPECIFIED tp.

Definition enqueue (e : hubEdge) (p : Publisher) : Publisher :=
  MkPublisher (last p) (lastState p) (queue p ++ [e]) (notify p).
Definition signal (p : Publisher) : Publisher :=
  MkPublisher (last p) (lastState p) (queue p) true.

(** The event of [PublishActivity]: the presence is read under the lock, the event is
    published after it. *)
Definition PublishActivity (a activity : string) (p : Publisher) : AgentPresenceChanged :=
  MkChanged a (default PRESENCE_OFFLINE (last p !! a)) activity.

(** * The system *)

(** Where the loop is: in its [select], draining edges, or about to publish a change
    and then go on where it was. *)
Inductive mode := Waiting | Draining.

Record Sys := MkSys {
  pub : Publisher;
  at_ : mode;
  pending : option AgentPresenceChanged;
  (* sinks between their append and their wakeup *)
  waking : nat;
  (* activities read and not yet published *)
  activities : list AgentPresenceChanged;
  (* what was published, and whether the loop published it *)
  bus : list (bool * AgentPresenceChanged);
  (* the lifecycle state and the answer of the last successful read of each agent *)
  seen : gmap string (AgentSessionState * bool);
}.

Definition NewSys : Sys := MkSys NewPublisher Waiting None 0 [] [] ∅.

(** What a handled edge or event teaches. *)
Definition learn (status : option AgentSessionState) (ask : option bool) (e : hubEdge)
    (m : gmap string (AgentSessionState * bool)) : gmap string (AgentSessionState * bool) :=
  match ask with
  | None => m
  | Some b => <[account e := (match kind e with
                              | edgeLifecycle => state e
                              | edgePromoted => default UNSPECIFIED status
                              end, b)]> m
  end.

Definition learnAsk (ask : option bool) (ev : commsEvent)
    (m : gmap string (AgentSessionState * bool)) : gmap string (AgentSessionState * bool) :=
  match ask, eventAuthor ev with
  | Some b, Some a => alter (λ x, (x.1, b)) a m
  | _, _ => m
  end.

Inductive step : Sys → Sys → Prop :=
| SEnqueue p at_ pd w acts bs sn e :
    step (MkSys p at_ pd w acts bs sn) (MkSys (enqueue e p) at_ pd (S w) acts bs sn)
| SSignal p at_ pd w acts bs sn :
    step (MkSys p at_ pd (S w) acts bs sn) (MkSys (signal p) at_ pd w acts bs sn)
| SActivity p at_ pd w acts bs sn a activity :
    step (MkSys p at_ pd w acts bs sn)
      (MkSys p at_ pd w (acts ++ [PublishActivity a activity p]) bs sn)
| SActivityPublish p at_ pd w acts1 ev acts2 bs sn :
    step (MkSys p at_ pd w (acts1 ++ ev :: acts2) bs sn)
      (MkSys p at_ pd w (acts1 ++ acts2) (bs ++ [(false, ev)]) sn)
(* the loop *)
| SPublish p at_ ev w acts bs sn :
    step (MkSys p at_ (Some ev) w acts bs sn) (MkSys p at_ None w acts (bs ++ [(true, ev)]) sn)
| SWake p w acts bs sn :
    notify p = true →
    step (MkSys p Waiting None w acts bs sn)
      (MkSys (MkPublisher (last p) (lastState p) (queue p) false) Draining None w acts bs sn)
| SEvent p w acts bs sn ask ev :
    step (MkSys p Waiting None w acts bs sn)
      (MkSys (handleEvent ask ev p).1 Waiting (handleEvent ask ev p).2 w acts bs (learnAsk ask ev sn))
| SEdge p w acts bs sn e es status ask p0 :
    queue p = e :: es → p0 = MkPublisher (last p) (lastState p) es (notify p) →
    step (MkSys p Draining None w acts bs sn)
      (MkSys (applyEdge status ask e p0).1 Draining (applyEdge status ask e p0).2 w acts bs
        (learn status ask e sn))
| SDrained p w acts bs sn :
    queue p = [] →
    step (MkSys p Draining None w acts bs sn) (MkSys p Waiting None w acts bs sn).

Inductive reachable : Sys → Prop :=
| reach_new : reachable NewSys
| reach_step x y : reachable x → step x y → reachable y.

(** The changes of one agent, published and about to be. *)
Definition changes (a : string) (y : Sys) : list AgentPresence :=
  Presence <$> filter (λ ev, AgentAccountId ev = a)
    ((snd <$> filter (λ x, x.1 = true) (bus y)) ++ option_list (pending y)).

(** No two neighbours are equal. *)
Fixpoint alternating (l : list AgentPresence) : Prop :=
  match l with
  | x :: (y :: _) as l' => x ≠ y ∧ alternating l'
  | _ => True
  end.

(** * Invariant *)

Record inv (y : Sys) : Prop := {
  i_changes a : alternating (changes a y) ∧ list.last (changes a y) = last (pub y) !! a;
  i_seen a : last (pub y) !! a = (λ x, presenceFor x.1 x.2) <$> seen y !! a;
  i_state a : lastState (pub y) !! a = fst <$> seen y !! a;
  i_wake : at_ y = Waiting → waking y = 0%nat → notify (pub y) = false → queue (pub y) = [];
}.

Lemma alternating_snoc l x : alternating l → list.last l ≠ Some x → alternating (l ++ [x]).
Proof.
  induction l as [|y [|z l] IH]; [done| |].
  - intros _ Hne. simpl in *. split; [congruence|done].
  - intros [Hyz HA] Hl. split; [done|]. by apply IH.
Qed.

(** One agent's new presence, recorded by the loop. *)
Lemma publishIfChanged_ok p a pr :
  let '(p', o) := publishIfChanged a pr p in
  last p' = <[a := pr]> (last p) ∧ lastState p' = lastState p ∧ queue p' = queue p
  ∧ notify p' = notify p
  ∧ match o with
    | None => last p !! a = Some pr
    | Some ev => ev = MkChanged a pr "" ∧ last p !! a ≠ Some pr
    end.
Proof.
  unfold publishIfChanged. case_bool_decide as H; [|done]. by rewrite insert_id.
Qed.

(** The changes after the loop recorded what [publishIfChanged] decides. *)
Lemma changes_record p p0 at1 at2 w acts bs sn sn' a pr :
  inv (MkSys p at1 None w acts bs sn) →
  last p0 = last p →
  let '(p', o) := publishIfChanged a pr p0 in
  ∀ a', alternating (changes a' (MkSys p' at2 o w acts bs sn'))
        ∧ list.last (changes a' (MkSys p' at2 o w acts bs sn')) = last p' !! a'.
Proof.
  intros [HC _ _ _] HL. pose proof (publishIfChanged_ok p0 a pr) as H.
  destruct (publishIfChanged a pr p0) as [p' o]. destruct H as (H1 & _ & _ & _ & H5).
  intros a'. destruct (HC a') as [HA HB]. unfold changes in *. simpl in *.
  rewrite app_nil_r in HA, HB. rewrite H1, HL. rewrite HL in H5. destruct o as [ev|]; simpl.
  - destruct H5 as [-> Hne]. rewrite filter_app, fmap_app. destruct (decide (a = a')) as [<-|Hd].
    + rewrite filter_cons_True by done. simpl. rewrite lookup_insert_eq, last_snoc. split; [|done].
      apply alternating_snoc; [done|]. by rewrite HB.
    + rewrite filter_cons_False by done. simpl. rewrite app_nil_r, lookup_insert_ne by done. done.
  - rewrite app_nil_r. split; [done|]. rewrite HB. destruct (decide (a = a')) as [<-|Hd].
    + by rewrite lookup_insert_eq.
    + by rewrite lookup_insert_ne.
Qed.

(** Steps that keep the publisher's maps and the published changes. *)
Lemma presence_inv_frame y y' :
  last (pub y') = last (pub y) → lastState (pub y') = lastState (pub y) → seen y' = seen y →
  (∀ a, changes a y' = changes a y) →
  (at_ y' = Waiting → waking y' = 0%nat → notify (pub y') = false → queue (pub y') = []) →
  inv y → inv y'.
Proof.
  intros E1 E2 E3 E4 E5 [H1 H2 H3 H4]. split; rewrite ?E1, ?E2, ?E3; try done.
  intros a. rewrite E4. apply H1.
Qed.

(** An edge that was read successfully. *)
Lemma inv_edge p w acts bs sn p0 a st b es :
  inv (MkSys p Draining None w acts bs sn) →
  p0 = MkPublisher (last p) (lastState p) es (notify p) →
  let '(p', o) := publishIfChanged a (presenceFor st b) (setState a st p0) in
  inv (MkSys p' Draining o w acts bs (<[a := (st, b)]> sn)).
Proof.
  intros HI ->. set (p1 := setState _ _ _).
  pose proof (changes_record p p1 Draining Draining w acts bs sn (<[a := (st, b)]> sn) a
    (presenceFor st b) HI eq_refl) as HC.
  pose proof (publishIfChanged_ok p1 a (presenceFor st b)) as HP.
  destruct (publishIfChanged _ _ _) as [p' o]. destruct HP as (H1 & H2 & _ & _ & _).
  split; simpl; [exact HC| | |done].
  - intros a'. rewrite H1. subst p1. simpl. pose proof (i_seen _ HI a') as HS. simpl in HS.
    destruct (decide (a = a')) as [<-|]; [by rewrite !lookup_insert_eq|by rewrite !lookup_insert_ne].
  - intros a'. rewrite H2. subst p1. simpl. pose proof (i_state _ HI a') as HS. simpl in HS.
    destruct (decide (a = a')) as [<-|]; [by rewrite !lookup_insert_eq|by rewrite !lookup_insert_ne].
Qed.

Lemma inv_event p w acts bs sn a st b :
  inv (MkSys p Waiting None w acts bs sn) → lastState p !! a = Some st →
  let '(p', o) := publishIfChanged a (presenceFor st b) p in
  inv (MkSys p' Waiting o w acts bs (alter (λ x, (x.1, b)) a sn)).
Proof.
  intros HI HS.
  pose proof (changes_record p p Waiting Waiting w acts bs sn (alter (λ x, (x.1, b)) a sn) a
    (presenceFor st b) HI eq_refl) as HC.
  pose proof (publishIfChanged_ok p a (presenceFor st b)) as HP.
  destruct (publishIfChanged _ _ _) as [p' o]. destruct HP as (H1 & H2 & H3 & H4 & _).
  pose proof (i_state _ HI a) as Ha. simpl in Ha. rewrite HS in Ha.
  destruct (sn !! a) as [[st' b']|] eqn:ES; [|done]. simpl in Ha. injection Ha as <-.
  split; simpl; [exact HC| | |].
  - intros a'. rewrite H1. pose proof (i_seen _ HI a') as Hs. simpl in Hs.
    destruct (decide (a = a')) as [<-|]; [by rewrite lookup_insert_eq, lookup_alter_eq, ES|].
    by rewrite lookup_insert_ne, lookup_alter_ne.
  - intros a'. rewrite H2. pose proof (i_state _ HI a') as Hs. simpl in Hs.
    destruct (decide (a = a')) as [<-|]; [by rewrite Hs, lookup_alter_eq, ES|].
    by rewrite lookup_alter_ne.
  - rewrite H3, H4. apply HI.
Qed.

Lemma presence_step_inv x y : inv x → step x y → inv y.
Proof.
  intros HI HS. destruct HS.
  - by eapply presence_inv_frame; [..|exact HI].
  - by eapply presence_inv_frame; [..|exact HI].
  - eapply presence_inv_frame; [..|exact HI]; try done. apply HI.
  - eapply presence_inv_frame; [..|exact HI]; try done; [|apply HI].
    intros a. unfold changes. simpl. rewrite (filter_app _ bs), filter_cons_False by done.
    by rewrite app_nil_r.
  - eapply presence_inv_frame; [..|exact HI]; try done; [|apply HI].
    intros a. unfold changes. simpl. rewrite (filter_app _ bs), filter_cons_True by done.
    by rewrite fmap_app, app_nil_r.
  - by eapply presence_inv_frame; [..|exact HI].
  - unfold handleEvent, learnAsk. destruct (eventAuthor ev) as [a|]; [|by destruct ask].
    unfold recomputeFromStore. destruct (lastState p !! a) as [st|] eqn:ES; destruct ask as [b|].
    + pose proof (inv_event p w acts bs sn a st b HI ES) as H. by destruct (publishIfChanged _ _ _).
    + done.
    + simpl. pose proof (i_state _ HI a) as Ha. simpl in Ha. rewrite ES in Ha.
      destruct (sn !! a) eqn:E; [done|].
      rewrite (alter_id _ sn); [done|]. intros x Hx. congruence.
    + done.
  - unfold applyEdge, applyPromoted, applyLifecycle, learn.
    destruct ask as [b|]; [|destruct (kind e); (eapply presence_inv_frame; [..|exact HI]; subst; done)].
    destruct (kind e).
    + pose proof (inv_edge p w acts bs sn p0 (account e) (state e) b es HI ltac:(assumption)) as Hx.
      by destruct (publishIfChanged _ _ _).
    + pose proof (inv_edge p w acts bs sn p0 (account e) (default UNSPECIFIED status) b es HI
        ltac:(assumption)) as Hx. by destruct (publishIfChanged _ _ _).
  - eapply presence_inv_frame; [..|exact HI]; done.
Qed.

Lemma presence_reachable_inv y : reachable y → inv y.
Proof.
  induction 1 as [|x y _ IH HS]; [|by eapply presence_step_inv].
  split; simpl; try done.
Qed.

Lemma PresenceFor_lookup ids p a :
  PresenceFor ids p !! a = if decide (a ∈ ids) then last p !! a else None.
Proof.
  unfold PresenceFor. assert (∀ out : gmap string AgentPresence,
    foldl (λ out id, match last p !! id with Some pr => <[id := pr]> out | None => out end) out ids !! a
    = if decide (a ∈ ids) then match last p !! a with Some pr => Some pr | None => out !! a end
      else out !! a) as H.
  { induction ids as [|id ids IH]; intros out; cbn [foldl].
    - by rewrite decide_False by (apply not_elem_of_nil).
    - rewrite IH, decide_elem_cons. destruct (decide (id = a)) as [->|Hne].
      + destruct (last p !! a) as [pr|] eqn:E; repeat case_decide; try done.
        by rewrite lookup_insert_eq.
      + destruct (last p !! id); [by rewrite lookup_insert_ne|done]. }
  rewrite H. case_decide; [|done]. by destruct (last p !! a).
Qed.

(** * Claims *)

(** C28. Over every interleaving of hub edges, bus events, activities and the loop: the
    changes published for an agent never repeat a presence, and the newest one is what
    the snapshot shows; that presence is the projection of the last recorded lifecycle
    state under the last answer the store gave (a failed read changes nothing); the
    roster read is the snapshot restricted to the agents asked for; and a loop waiting
    without a wakeup, with no sink about to wake it, has handled every edge. *)
Theorem presence_published_once y a ids :
  reachable y →
  alternating (changes a y)
  ∧ list.last (changes a y) = PresenceSnapshot (pub y) !! a
  ∧ PresenceSnapshot (pub y) !! a = (λ x, presenceFor x.1 x.2) <$> seen y !! a
  ∧ PresenceFor ids (pub y) !! a = (if decide (a ∈ ids) then PresenceSnapshot (pub y) !! a else None)
  ∧ (at_ y = Waiting → waking y = 0%nat → notify (pub y) = false → queue (pub y) = []).
Proof.
  intros R. pose proof (presence_reachable_inv y R) as HI. destruct (i_changes _ HI a) as [HA HB].
  refine (conj HA (conj HB (conj (i_seen _ HI a) (conj _ (i_wake _ HI))))). apply PresenceFor_lookup.
Qed.

(** An agent becomes ready, and then opens an ask. *)
Lemma presence_published_once_witness :
  ∃ y, reachable y ∧ changes "a" y = [PRESENCE_IDLE; PRESENCE_WAITING] ∧ alternating (changes "a" y).
Proof.
  pose proof reach_new as R. unfold NewSys in R.
  eapply reach_step in R; [|apply (SEnqueue _ _ _ _ _ _ _ (OnSessionLifecycle "a" "s" READY ""))].
  eapply reach_step in R; [|apply SSignal].
  eapply reach_step in R; [|apply SWake; reflexivity].
  eapply reach_step in R; [|eapply (SEdge _ _ _ _ _ _ _ None (Some false)); reflexivity].
  cbn in R. eapply reach_step in R; [|apply SPublish].
  eapply reach_step in R; [|apply SDrained; reflexivity].
  eapply reach_step in R;
    [|apply (SEvent _ _ _ _ _ (Some true) (MessagePosted (Some (MkMessage "m" "t" "a" "h" 0 0 [BlockAsk]))))].
  match type of R with reachable ?y => exists y end.
  split; [exact R|]. split; [reflexivity|].
  exact (proj1 (presence_published_once _ "a" ["a"] R)).
Defined.

(** The publication of an activity is not ordered with the publication of a change: an
    activity read before a change can be published after it, and the newest event on
    the bus then shows a presence the snapshot no longer has. *)
Lemma stale_activity :
  ∃ y, reachable y ∧ pending y = None ∧ activities y = []
    ∧ list.last (bus y) = Some (false, MkChanged "a" PRESENCE_OFFLINE "reading")
    ∧ PresenceSnapshot (pub y) !! "a" = Some PRESENCE_WORKING.
Proof.
  pose proof reach_new as R. unfold NewSys in R.
  eapply reach_step in R; [|apply (SActivity _ _ _ _ _ _ _ "a" "reading")].
  eapply reach_step in R; [|apply (SEnqueue _ _ _ _ _ _ _ (OnSessionLifecycle "a" "s" WORKING ""))].
  eapply reach_step in R; [|apply SSignal].
  eapply reach_step in R; [|apply SWake; reflexivity].
  eapply reach_step in R; [|eapply (SEdge _ _ _ _ _ _ _ None (Some false)); reflexivity].
  cbn in R. eapply reach_step in R; [|apply SPublish].
  eapply reach_step in R; [|apply (SActivityPublish _ _ _ _ [] _ [])].
  match type of R with reachable ?y => exists y end.
  split; [exact R|]. repeat split.
Qed.

End Presence.
