(* ===== verification/ConfigPaths.v ===== *)
(** Paths of agent-config bundles ([src/go/internal/store/agent_config.go],
    [agent_config_locks.go]): the grammar of admitted members, and the tenant's locks.
    A bundle later becomes files on a host, so the grammar is closed at the store. *)
From stdpp Require Import base list strings gmap.
From Stdlib Require Import Ascii Lia.
From S2P Require Import Prelude Text.

Module ConfigPaths.

(** * Names *)

Definition topDirSkills : bytes := lit "skills".
Definition topDirExtensions : bytes := lit "extensions".
Definition topDirMCP : bytes := lit "mcp".
Definition topDirSettings : bytes := lit "settings".
Definition topDirRules : bytes := lit "rules".
Definition topDirAgents : bytes := lit "agents".
Definition topDirPrompts : bytes := lit "prompts".
Definition topDirProfiles : bytes := lit "profiles".

Definition memberAgentsMD : bytes := lit "AGENTS.md".
Definition memberModels : bytes := lit "models.yml".
Definition settingsFile : bytes := lit "config.yml".
Definition memberSystemMD : bytes := lit "SYSTEM.md".
Definition memberProfileYML : bytes := lit "profile.yml".
Definition memberLocksYML : bytes := lit "locks.yml".

Definition configBundleTopDirs : list bytes :=
  [topDirSkills; topDirExtensions; topDirMCP; topDirSettings; topDirRules; topDirAgents;
   topDirPrompts; topDirProfiles].

Inductive ConfigLayer := LayerDefault | LayerTenant | LayerUser | LayerRole.

#[export] Instance ConfigLayer_eq_dec : EqDecision ConfigLayer.
Proof. solve_decision. Defined.

(** The two tar entry types a bundle may have. *)
Inductive entryKind := TypeReg | TypeDir.

#[export] Instance entryKind_eq_dec : EqDecision entryKind.
Proof. solve_decision. Defined.

(** [configNamePattern]. *)
Definition name_byte (c : ascii) : bool :=
  (65 <=? code c) && (code c <=? 90) || (97 <=? code c) && (code c <=? 122)
  || is_digit c || bool_decide (c = "_"%char) || bool_decide (c = "-"%char).

Definition configName (s : bytes) : bool := negb (bool_decide (s = [])) && forallb name_byte s.

(** [strings.HasSuffix], [strings.CutSuffix], [strings.TrimSuffix]. *)
Definition HasSuffix (s suf : bytes) : bool :=
  bool_decide (length suf ≤ length s ∧ drop (length s - length suf) s = suf).

Definition CutSuffix (s suf : bytes) : option bytes :=
  if HasSuffix s suf then Some (take (length s - length suf) s) else None.

Definition canonicalConfigPath (path : bytes) : bytes := default path (CutSuffix path (lit "/")).

(** * The grammar *)

Definition illegal (p : bytes) : bool :=
  bool_decide (p = [] ∨ p = lit "." ∨ p = lit "..").

Definition configMemberParts (name : bytes) : option (list bytes) :=
  if has_prefix (lit "/") name then None
  else if bool_decide (name = []) then None
  else
    let parts := split "/" name in
    if existsb illegal parts then None
    else if bool_decide (parts = [memberLocksYML]) then Some parts
    else if bool_decide (parts = [memberAgentsMD] ∨ parts = [memberModels]) then Some parts
    else if bool_decide (head parts ∈ Some <$> configBundleTopDirs) then Some parts
    else None.

Definition validNestedConfigDir (parts : list bytes) : bool :=
  forallb (λ p, negb (illegal p) && negb (has_byte "/" p) && negb (has_byte "\" p)) parts
  && negb (bool_decide (parts = [])).

(** [validateFlatNamedMember]: the first extension that fits decides. *)
Fixpoint validateFlatNamedMember (filename : bytes) (exts : list bytes) : bool :=
  match exts with
  | [] => false
  | ext :: exts =>
      match CutSuffix filename ext with
      | Some base => configName base
      | None => validateFlatNamedMember filename exts
      end
  end.

Definition validateStoredMemberPathGrammar (parts : list bytes) (layer : ConfigLayer) : bool :=
  match parts with
  | [p] => bool_decide (p = memberAgentsMD ∨ p = memberModels)
  | [top; f] =>
      if bool_decide (top = topDirSettings) then bool_decide (f = settingsFile)
      else if bool_decide (top = topDirRules) then validateFlatNamedMember f [lit ".md"; lit ".mdc"]
      else if bool_decide (top = topDirAgents) then validateFlatNamedMember f [lit ".md"]
      else if bool_decide (top = topDirMCP) then
        match CutSuffix f (lit ".json") with Some base => configName base | None => false end
      else false
  | [top; d; f] =>
      if bool_decide (top = topDirPrompts) then bool_decide (f = memberSystemMD) && configName d
      else if bool_decide (top = topDirProfiles) then
        bool_decide (layer = LayerDefault) && bool_decide (f = memberProfileYML) && configName d
      else false
  | _ => false
  end.

Definition skill_top (p : bytes) : bool := bool_decide (p = topDirSkills ∨ p = topDirExtensions).

Definition configDirectoryPathAllowed (parts : list bytes) (layer : ConfigLayer) : bool :=
  match parts with
  | [p] =>
      if bool_decide (p = memberLocksYML ∨ p ∉ configBundleTopDirs) then false
      else negb (bool_decide (p = topDirProfiles ∧ layer ≠ LayerDefault))
  | [top; d] =>
      skill_top top && configName d
      || bool_decide (top = topDirProfiles ∧ layer = LayerDefault) && configName d
      || bool_decide (top = topDirPrompts) && configName d
  | top :: d :: rest => skill_top top && configName d && validNestedConfigDir rest
  | [] => false
  end.

(** [parts[2:len(parts)-1]] of a member with at least three parts. *)
Definition middle (parts : list bytes) : list bytes := take (length parts - 3) (drop 2 parts).

Definition validateConfigMemberPath (parts : list bytes) (kind : entryKind) (layer : ConfigLayer) : bool :=
  if bool_decide (parts = [memberLocksYML]) then bool_decide (kind = TypeReg ∧ layer = LayerTenant)
  else if bool_decide (kind = TypeDir) then configDirectoryPathAllowed parts layer
  else if bool_decide (parts = [memberAgentsMD] ∨ parts = [memberModels]) then true
  else match parts with
       | top :: d :: _ =>
           if negb (bool_decide (top ∈ configBundleTopDirs)) then false
           else if bool_decide (last parts = Some memberLocksYML) then false
           else if bool_decide (top = topDirProfiles ∧ layer ≠ LayerDefault) then false
           else if skill_top top then
             bool_decide (3 ≤ length parts) && configName d
             && ((length parts <=? 3) || validNestedConfigDir (middle parts))
           else validateStoredMemberPathGrammar parts layer
       | _ => false
       end.

(** * Locks *)

Definition validLockMemberPath (parts : list bytes) : bool :=
  match parts with
  | [p] => bool_decide (p = memberAgentsMD ∨ p = memberModels)
  | top :: _ =>
      if bool_decide (3 ≤ length parts) && skill_top top then false
      else validateConfigMemberPath parts TypeReg LayerTenant
  | [] => false
  end.

(** One entry of [locks.yml]; a value that is not a string is [None]. *)
Definition lock_entry_ok (path : bytes) : bool :=
  match configMemberParts (canonicalConfigPath path) with
  | None => false
  | Some parts =>
      if HasSuffix path (lit "/") then
        (length parts <=? 2) && validateConfigMemberPath parts TypeDir LayerTenant
        && bool_decide (head parts ∈ Some <$> [topDirPrompts; topDirSkills; topDirExtensions])
      else validLockMemberPath parts
  end.

(** The list check of [parseConfigLocks]; [seen] are the earlier entries. *)
Fixpoint parse_entries (seen : list bytes) (values : list (option bytes)) : option (list bytes) :=
  match values with
  | [] => Some (reverse seen)
  | v :: values =>
      match v with
      | Some path =>
          if bool_decide (path = [] ∨ path ∈ seen) then None
          else if lock_entry_ok path then parse_entries (path :: seen) values else None
      | None => None
      end
  end.

Definition parseConfigLocks (values : list (option bytes)) : option (list bytes) := parse_entries [] values.

Definition Covers (locks : list bytes) (member : bytes) : bool :=
  let member := canonicalConfigPath member in
  existsb (λ path, if HasSuffix path (lit "/") then has_prefix path member
                   else bool_decide (member = path)) locks.

(** The directory a member of [skills/] or [extensions/] belongs to. *)
Definition configDirectoryMember (path : bytes) : option (bytes * bytes) :=
  match split "/" path with
  | top :: d :: _ => if skill_top top then Some (top, d) else None
  | _ => None
  end.

(** * What the grammar admits *)

(** A component below [skills/<name>/]. *)
Definition component (p : bytes) : Prop :=
  p ≠ [] ∧ p ≠ lit "." ∧ p ≠ lit ".." ∧ "/"%char ∉ p ∧ "\"%char ∉ p.

(** The regular files of a bundle, by layer. *)
Inductive admitted (layer : ConfigLayer) : list bytes → Prop :=
| Adm_context : admitted layer [memberAgentsMD]
| Adm_models : admitted layer [memberModels]
| Adm_locks : layer = LayerTenant → admitted layer [memberLocksYML]
| Adm_tree top name dirs file :
    top = topDirSkills ∨ top = topDirExtensions → configName name = true →
    Forall component dirs → file ≠ memberLocksYML → admitted layer (top :: name :: dirs ++ [file])
| Adm_settings : admitted layer [topDirSettings; settingsFile]
| Adm_rule base ext :
    ext = lit ".md" ∨ ext = lit ".mdc" → configName base = true → admitted layer [topDirRules; base ++ ext]
| Adm_agent base : configName base = true → admitted layer [topDirAgents; base ++ lit ".md"]
| Adm_mcp base : configName base = true → admitted layer [topDirMCP; base ++ lit ".json"]
| Adm_prompt role : configName role = true → admitted layer [topDirPrompts; role; memberSystemMD]
| Adm_profile name :
    layer = LayerDefault → configName name = true → admitted layer [topDirProfiles; name; memberProfileYML].

Lemma HasSuffix_spec s suf : HasSuffix s suf = true ↔ ∃ b, s = b ++ suf.
Proof.
  unfold HasSuffix. rewrite bool_decide_eq_true. split.
  - intros [Hl Hd]. exists (take (length s - length suf) s). rewrite <- Hd at 2. by rewrite take_drop.
  - intros [b ->]. rewrite length_app. split; [lia|]. by rewrite drop_app_length' by lia.
Qed.

Lemma CutSuffix_Some s suf b : CutSuffix s suf = Some b ↔ s = b ++ suf.
Proof.
  unfold CutSuffix. destruct (HasSuffix s suf) eqn:E.
  - apply HasSuffix_spec in E as [b' ->]. rewrite length_app, take_app_length' by lia. split.
    + by intros [= ->].
    + intros H%app_inv_tail. by subst.
  - split; [done|]. intros ->. assert (HasSuffix (b ++ suf) suf = true) by (apply HasSuffix_spec; eauto).
    congruence.
Qed.

Lemma illegal_false p : illegal p = false ↔ p ≠ [] ∧ p ≠ lit "." ∧ p ≠ lit "..".
Proof. unfold illegal. rewrite bool_decide_eq_false. tauto. Qed.

Lemma nested_spec dirs : validNestedConfigDir dirs = true ↔ dirs ≠ [] ∧ Forall component dirs.
Proof.
  unfold validNestedConfigDir. rewrite andb_true_iff, negb_true_iff, bool_decide_eq_false, forallb_forall,
    Forall_forall.
  assert (∀ p, negb (illegal p) && negb (has_byte "/" p) && negb (has_byte "\" p) = true ↔ component p) as H.
  { intros p. rewrite !andb_true_iff, !negb_true_iff, illegal_false, !has_byte_false.
    unfold component. tauto. }
  setoid_rewrite H. setoid_rewrite list_elem_of_In. tauto.
Qed.

Lemma md_mdc base : ¬ ∃ b : bytes, base ++ lit ".mdc" = b ++ lit ".md".
Proof.
  intros [b H]. apply (f_equal reverse) in H. rewrite !reverse_app in H. vm_compute in H. congruence.
Qed.

Lemma rule_spec f :
  validateFlatNamedMember f [lit ".md"; lit ".mdc"] = true ↔
  ∃ base ext, f = base ++ ext ∧ (ext = lit ".md" ∨ ext = lit ".mdc") ∧ configName base = true.
Proof.
  cbn [validateFlatNamedMember]. destruct (CutSuffix f (lit ".md")) as [b|] eqn:E1.
  - apply CutSuffix_Some in E1 as ->. split; [intros H; eexists b, _; eauto|].
    intros (base & ext & H & [->| ->] & HN).
    + apply app_inv_tail in H as ->. done.
    + exfalso. apply (md_mdc base). eauto.
  - assert (∀ b, f ≠ b ++ lit ".md") as Hn.
    { intros b Hb. apply CutSuffix_Some in Hb. congruence. }
    destruct (CutSuffix f (lit ".mdc")) as [b|] eqn:E2.
    + apply CutSuffix_Some in E2 as ->. split; [intros H; eexists b, _; eauto|].
      intros (base & ext & H & [->| ->] & HN); [by apply Hn in H|]. by apply app_inv_tail in H as ->.
    + split; [done|]. intros (base & ext & -> & [->| ->] & HN); [by destruct (Hn base)|].
      assert (CutSuffix (base ++ lit ".mdc") (lit ".mdc") = Some base) by (by apply CutSuffix_Some). congruence.
Qed.

Lemma cut_name_spec f ext :
  match CutSuffix f ext with Some base => configName base | None => false end = true ↔
  ∃ base, f = base ++ ext ∧ configName base = true.
Proof.
  destruct (CutSuffix f ext) as [b|] eqn:E.
  - apply CutSuffix_Some in E as ->. split; [eauto|]. intros (base & H%app_inv_tail & HN). by subst.
  - split; [done|]. intros (base & H%CutSuffix_Some & _). congruence.
Qed.

Lemma agent_spec f :
  validateFlatNamedMember f [lit ".md"] = true ↔ ∃ base, f = base ++ lit ".md" ∧ configName base = true.
Proof. cbn [validateFlatNamedMember]. apply cut_name_spec. Qed.

Lemma skill_top_spec p : skill_top p = true ↔ p = topDirSkills ∨ p = topDirExtensions.
Proof. unfold skill_top. by rewrite bool_decide_eq_true. Qed.

(** A path with at least two parts. *)
Lemma long_path top d rest layer :
  validateConfigMemberPath (top :: d :: rest) TypeReg layer = true ↔
  top ∈ configBundleTopDirs ∧ last (d :: rest) ≠ Some memberLocksYML
  ∧ (top = topDirProfiles → layer = LayerDefault)
  ∧ (if skill_top top then
       configName d = true ∧ ∃ dirs file, rest = dirs ++ [file] ∧ Forall component dirs
     else validateStoredMemberPathGrammar (top :: d :: rest) layer = true).
Proof.
  unfold validateConfigMemberPath. rewrite bool_decide_false by done.
  rewrite (bool_decide_false (TypeReg = TypeDir)) by done.
  rewrite (bool_decide_false (_ ∨ _)) by naive_solver.
  destruct (decide (top ∈ configBundleTopDirs)) as [Ht|Ht].
  2: { rewrite (bool_decide_false (top ∈ _)) by done. naive_solver. }
  rewrite (bool_decide_true (top ∈ _)) by done. cbn [negb].
  replace (last (top :: d :: rest)) with (last (d :: rest)) by done.
  destruct (decide (last (d :: rest) = Some memberLocksYML)) as [Hl|Hl].
  { rewrite (bool_decide_true (last _ = _)) by done. naive_solver. }
  rewrite (bool_decide_false (last _ = _)) by done.
  destruct (decide (top = topDirProfiles ∧ layer ≠ LayerDefault)) as [Hp|Hp].
  { rewrite (bool_decide_true (_ ∧ _)) by done. naive_solver. }
  rewrite (bool_decide_false (_ ∧ _)) by done.
  assert (top = topDirProfiles → layer = LayerDefault) as Hp'.
  { intros E. destruct (decide (layer = LayerDefault)); tauto. }
  destruct (skill_top top) eqn:ES; [|naive_solver].
  unfold middle. cbn [drop length]. destruct rest as [|f rest _] using rev_ind.
  { rewrite bool_decide_false by (simpl; lia). simpl. split; [done|]. intros (_ & _ & _ & _ & [|? ?] & ? & ? & _); done. }
  rewrite length_app. cbn [length]. rewrite bool_decide_true by lia.
  replace (S (S (length rest + 1)) - 3) with (length rest) by lia. rewrite drop_0, take_app_length.
  rewrite !andb_true_iff, orb_true_iff, Nat.leb_le, nested_spec. split.
  - intros [[_ Hd] Hm]. split; [done|]. split; [done|]. split; [done|]. split; [done|].
    exists rest, f. split; [done|]. destruct Hm as [Hm|[_ Hm]]; [|done].
    destruct rest; [constructor|simpl in Hm; lia].
  - intros (_ & _ & _ & Hd & dirs & file & E & HF). apply app_inj_tail in E as [-> ->].
    split; [done|]. destruct dirs; [left; simpl; lia|right; done].
Qed.

Lemma topDirs_cases top : top ∈ configBundleTopDirs ↔
  top = topDirSkills ∨ top = topDirExtensions ∨ top = topDirMCP ∨ top = topDirSettings ∨ top = topDirRules
  ∨ top = topDirAgents ∨ top = topDirPrompts ∨ top = topDirProfiles.
Proof. unfold configBundleTopDirs. rewrite !elem_of_cons, elem_of_nil. tauto. Qed.


Lemma grammar_admitted top d rest layer :
  skill_top top = false → top ∈ configBundleTopDirs →
  validateStoredMemberPathGrammar (top :: d :: rest) layer = true → admitted layer (top :: d :: rest).
Proof.
  intros Hs _ HG. destruct rest as [|f [|g rest]]; cbn [validateStoredMemberPathGrammar] in HG; [| |done].
  - case_bool_decide; [subst; apply bool_decide_eq_true in HG as ->; constructor|].
    case_bool_decide; [subst; apply rule_spec in HG as (base & ext & -> & He & HN); by constructor|].
    case_bool_decide; [subst; apply agent_spec in HG as (base & -> & HN); by constructor|].
    case_bool_decide; [|done]. subst. apply cut_name_spec in HG as (base & -> & HN). by constructor.
  - case_bool_decide.
    + subst. apply andb_true_iff in HG as [->%bool_decide_eq_true HN]. by constructor.
    + case_bool_decide; [|done]. subst.
      apply andb_true_iff in HG as [[HL%bool_decide_eq_true ->%bool_decide_eq_true]%andb_true_iff HN].
      by constructor.
Qed.

(** The last character tells names apart. *)
Lemma last_char_ne (a b : bytes) : last a ≠ last b → a ≠ b.
Proof. congruence. Qed.

Lemma ext_not_locks base ext : ext = lit ".md" ∨ ext = lit ".mdc" ∨ ext = lit ".json" → base ++ ext ≠ memberLocksYML.
Proof.
  intros H. apply last_char_ne. rewrite last_app. destruct H as [->|[->| ->]]; vm_compute; congruence.
Qed.

Lemma admitted_grammar layer parts :
  admitted layer parts → validateConfigMemberPath parts TypeReg layer = true.
Proof.
  destruct 1 as [| |Hl|top name dirs file Ht HN HF Hf| |base ext He HN|base HN|base HN|role HN|name Hl HN].
  - done.
  - done.
  - subst. done.
  - apply long_path. assert (skill_top top = true) as Hst by (by apply skill_top_spec).
    rewrite Hst. split; [apply topDirs_cases; tauto|].
    split; [rewrite app_comm_cons, last_snoc; congruence|].
    split; [intros ->; exfalso; destruct Ht as [Ht|Ht]; vm_compute in Ht; done|].
    split; [done|]. eauto.
  - done.
  - apply long_path. split; [apply topDirs_cases; tauto|].
    split; [cbn [last]; intros [= Hx]; revert Hx; apply ext_not_locks; tauto|].
    split; [intros Hx; vm_compute in Hx; done|].
    change (skill_top topDirRules) with false. cbn iota. cbn [validateStoredMemberPathGrammar].
    rewrite bool_decide_false by (vm_compute; congruence). rewrite bool_decide_true by done.
    apply rule_spec. eauto.
  - apply long_path. split; [apply topDirs_cases; tauto|].
    split; [cbn [last]; intros [= Hx]; revert Hx; apply ext_not_locks; tauto|].
    split; [intros Hx; vm_compute in Hx; done|].
    change (skill_top topDirAgents) with false. cbn iota. cbn [validateStoredMemberPathGrammar].
    do 2 (rewrite bool_decide_false by (vm_compute; congruence)). rewrite bool_decide_true by done.
    apply agent_spec. eauto.
  - apply long_path. split; [apply topDirs_cases; tauto|].
    split; [cbn [last]; intros [= Hx]; revert Hx; apply ext_not_locks; tauto|].
    split; [intros Hx; vm_compute in Hx; done|].
    change (skill_top topDirMCP) with false. cbn iota. cbn [validateStoredMemberPathGrammar].
    do 3 (rewrite bool_decide_false by (vm_compute; congruence)). rewrite bool_decide_true by done.
    apply cut_name_spec. eauto.
  - apply long_path. split; [apply topDirs_cases; tauto|].
    split; [vm_compute; congruence|]. split; [intros Hx; vm_compute in Hx; done|].
    change (skill_top topDirPrompts) with false. cbn iota. cbn [validateStoredMemberPathGrammar].
    rewrite bool_decide_true, bool_decide_true by done. done.
  - apply long_path. split; [apply topDirs_cases; tauto|].
    split; [vm_compute; congruence|]. split; [done|].
    change (skill_top topDirProfiles) with false. cbn iota. cbn [validateStoredMemberPathGrammar].
    rewrite bool_decide_false by (vm_compute; congruence). by rewrite !bool_decide_true by done.
Qed.

Lemma grammar_exact layer parts :
  validateConfigMemberPath parts TypeReg layer = true ↔ admitted layer parts.
Proof.
  split; [|apply admitted_grammar]. intros H. destruct parts as [|top [|d rest]].
  - done.
  - unfold validateConfigMemberPath in H. case_bool_decide as E1.
    + apply bool_decide_eq_true in H as [_ ->]. rewrite E1. by constructor.
    + rewrite bool_decide_false in H by done. case_bool_decide as E2; [|done].
      destruct E2 as [->| ->]; constructor.
  - apply long_path in H as (Ht & Hl & Hp & H). destruct (skill_top top) eqn:ES.
    + destruct H as (HN & dirs & file & -> & HF). apply skill_top_spec in ES.
      constructor; [done..|]. intros ->. apply Hl. by rewrite app_comm_cons, last_snoc.
    + by apply grammar_admitted.
Qed.

(** * Paths and their parts *)

Definition safe_part (p : bytes) : Prop := p ≠ [] ∧ p ≠ lit "." ∧ p ≠ lit ".." ∧ "/"%char ∉ p.

Lemma split_app_sep sep a b : split sep (a ++ sep :: b) = split sep a ++ split sep b.
Proof.
  rewrite <- (join_split sep a) at 1. pose proof (split_tokens sep a) as HT.
  pose proof (split_not_nil sep a) as Hn. induction (split sep a) as [|w ws IH]; [done|].
  apply Forall_cons in HT as [Hw HT]. destruct ws as [|w' ws].
  - simpl. by apply split_cons.
  - rewrite join_cons by done. rewrite <- app_assoc. cbn [app]. rewrite split_cons by done. by rewrite IH.
Qed.

Lemma parts_spec name parts :
  configMemberParts name = Some parts ↔
  parts = split "/" name ∧ Forall safe_part parts
  ∧ (parts = [memberLocksYML] ∨ parts = [memberAgentsMD] ∨ parts = [memberModels]
     ∨ head parts ∈ Some <$> configBundleTopDirs).
Proof.
  unfold configMemberParts. destruct (has_prefix (lit "/") name) eqn:EP.
  { apply has_prefix_spec in EP as [r ->]. split; [done|]. intros (-> & HF & _).
    apply Forall_cons in HF as [[? _] _]. done. }
  case_bool_decide as En.
  { subst. split; [done|]. intros (-> & HF & _). apply Forall_cons in HF as [[? _] _]. done. }
  destruct (existsb illegal (split "/" name)) eqn:EI.
  { apply existsb_exists in EI as (p & Hp & Hi). apply list_elem_of_In in Hp. split; [done|].
    intros (-> & HF & _). rewrite Forall_forall in HF. specialize (HF p Hp) as (? & ? & ? & _).
    unfold illegal in Hi. apply bool_decide_eq_true in Hi. tauto. }
  assert (Forall safe_part (split "/" name)) as HS.
  { pose proof (split_tokens "/" name) as HT. rewrite Forall_forall in HT |- *. intros p Hp.
    destruct (illegal p) eqn:Ei.
    - assert (existsb illegal (split "/" name) = true); [|congruence].
      apply existsb_exists. exists p. by rewrite <- list_elem_of_In.
    - apply illegal_false in Ei as (? & ? & ?). split; [done|]. split; [done|]. split; [done|]. by apply HT. }
  repeat case_bool_decide; naive_solver.
Qed.

Lemma admitted_top layer parts :
  admitted layer parts →
  parts = [memberLocksYML] ∨ parts = [memberAgentsMD] ∨ parts = [memberModels]
  ∨ head parts ∈ Some <$> configBundleTopDirs.
Proof.
  intros H. assert (∀ top rest, top ∈ configBundleTopDirs → head (top :: rest) ∈ Some <$> configBundleTopDirs) as Ht.
  { intros top rest Hin. cbn [head]. by apply list_elem_of_fmap_2. }
  destruct H; auto; do 3 right; apply Ht, topDirs_cases; tauto.
Qed.

(** * Claim *)

(** The store's door for member paths is exactly the documented grammar: a name is
    accepted for a regular file of a layer iff it is the slash-joined form of parts that
    the grammar admits and of which none is empty, a dot or dot-dot; so an accepted name
    can never leave the directory it is materialized in, and [profiles/] and
    [locks.yml] exist only in their own layer. *)
Theorem member_paths_exact layer name parts :
  configMemberParts name = Some parts ∧ validateConfigMemberPath parts TypeReg layer = true ↔
  admitted layer parts ∧ name = join "/" parts ∧ Forall safe_part parts.
Proof.
  rewrite grammar_exact, parts_spec. split.
  - intros [(-> & HS & _) HA]. split; [done|]. split; [|done]. by rewrite join_split.
  - intros (HA & -> & HS). split; [|done]. split; [|split; [done|by eapply admitted_top]].
    rewrite split_join; [done| |].
    + intros ->. inversion HA.
    + eapply Forall_impl; [exact HS|]. by intros p (_ & _ & _ & ?).
Qed.

End ConfigPaths.
