(* ===== verification/ConfigMerge.v ===== *)
(** The effective agent config ([src/go/internal/store/agent_config_merge.go],
    [agent_config.go], [agent_config_overlay.go]): default, tenant, user and role bundles
    are merged by precedence, a directory of [skills/] or [extensions/] is replaced as a
    whole, and members the tenant locked cannot be overlaid.

    A bundle is opaque: [untar] decodes it to its entries (gzip and tar, with the cap on
    decompressed bytes), [yaml] reads the [paths] list of a locks file, and [write]
    encodes entries. *)
From stdpp Require Import base list strings gmap sorting.
From Stdlib Require Import Ascii ZArith Lia.
From S2P Require Import Prelude Text ConfigPaths.

Module ConfigMerge.
Import ConfigPaths.

Open Scope nat_scope.

(** * Data *)

(** A tar entry; a type other than file and directory is [None]. *)
Record entry := MkEntry { e_name : bytes; e_kind : option entryKind; e_content : bytes }.

Notation files := (gmap bytes bytes).

Record configMember := MkMember { content : bytes; layer : ConfigLayer }.

Record EffectiveMember := MkEffective { Path : bytes; Layer : ConfigLayer }.

Inductive mergeErr :=
| ErrLayer (l : ConfigLayer) | ErrLocks | ErrFileCount | ErrWrite.

Definition maxFileCount : nat := Z.to_nat 4096.
Definition maxDecompressedBytes : Z := Z.shiftl 64 20.
#[global] Opaque maxFileCount.

(** * Stored layers *)

(** The loop of [validateStoredConfigBundle]. *)
Fixpoint validate_entries (l : ConfigLayer) (fileCount : nat) (contentBytes : Z) (es : list entry) : bool :=
  match es with
  | [] => true
  | e :: es =>
      match e_kind e, configMemberParts (canonicalConfigPath (e_name e)) with
      | Some TypeDir, Some parts =>
          validateConfigMemberPath parts TypeDir l && validate_entries l fileCount contentBytes es
      | Some TypeReg, Some parts =>
          let size := Z.of_nat (length (e_content e)) in
          negb (bool_decide (maxFileCount < S fileCount))
          && validateConfigMemberPath parts TypeReg l
          && negb (bool_decide (maxDecompressedBytes - contentBytes < size)%Z)
          && validate_entries l (S fileCount) (contentBytes + size) es
      | _, _ => false
      end
  end.

Definition validateStoredConfigBundle (l : ConfigLayer) (es : list entry) : bool :=
  validate_entries l 0 0 es.

Definition readConfigBundleMembers (es : list entry) : files :=
  foldl (λ m e, if bool_decide (e_kind e = Some TypeDir) then m
                else <[canonicalConfigPath (e_name e) := e_content e]> m) ∅ es.

(** * The upload door *)

Record layerCaps := MkCaps { cap_bytes : Z; cap_files : nat }.

Definition defaultLayerCaps : layerCaps := MkCaps (Z.shiftl 48 20) (Z.to_nat 2560).
Definition overlayLayerCaps : layerCaps := MkCaps (Z.shiftl 4 20) (Z.to_nat 512).

Definition capsForLayer (l : ConfigLayer) : layerCaps :=
  match l with
  | LayerDefault => defaultLayerCaps
  | LayerTenant | LayerUser | LayerRole => overlayLayerCaps
  end.

Inductive doorErr := ErrType | ErrPath | ErrFiles | ErrDuplicate | ErrBytes | ErrContent.

(** Accepts a file and returns the bytes and names seen so far. *)
Definition validateConfigFileLimits (caps : layerCaps) (name : bytes) (size contentBytes : Z)
    (seen : list bytes) (fileCount : nat) : result doorErr (Z * list bytes) :=
  if bool_decide (cap_files caps < fileCount) then Err ErrFiles
  else if bool_decide (name ∈ seen) then Err ErrDuplicate
  else if bool_decide (cap_bytes caps - contentBytes < size)%Z then Err ErrBytes
  else Ok ((contentBytes + size)%Z, name :: seen).

(** The loop of [readAndValidateConfigMembers]; [regular] is the check of a file's
    content. *)
Fixpoint read_members (regular : list bytes → bytes → bool) (l : ConfigLayer) (caps : layerCaps)
    (contentBytes : Z) (seen : list bytes) (members : list (bytes * bytes)) (es : list entry)
    : result doorErr (list (bytes * bytes)) :=
  match es with
  | [] => Ok (reverse members)
  | e :: es =>
      let name := canonicalConfigPath (e_name e) in
      match e_kind e, configMemberParts name with
      | None, _ => Err ErrType
      | Some _, None => Err ErrPath
      | Some k, Some parts =>
          if negb (validateConfigMemberPath parts k l) then Err ErrPath
          else match k with
          | TypeDir => read_members regular l caps contentBytes seen members es
          | TypeReg =>
              st <-? validateConfigFileLimits caps name (Z.of_nat (length (e_content e))) contentBytes seen
                       (S (length members));
              if regular parts (e_content e)
              then read_members regular l caps st.1 st.2 ((name, e_content e) :: members) es
              else Err ErrContent
          end
      end
  end.

Definition readAndValidateConfigMembers (regular : list bytes → bytes → bool) (l : ConfigLayer)
    (es : list entry) : result doorErr (list (bytes * bytes)) :=
  read_members regular l (capsForLayer l) 0 [] [] es.

(** * Merging *)

Definition blocked (l : ConfigLayer) (locks : list bytes) (path : bytes) : bool :=
  bool_decide (l = LayerUser ∨ l = LayerRole) && Covers locks path.

(** The directories the layer brings. *)
Definition memberDirectories (l : ConfigLayer) (locks : list bytes) (fs : list (bytes * bytes))
    : list (bytes * bytes) :=
  omap (λ p, let path := canonicalConfigPath p.1 in
             if blocked l locks path then None else configDirectoryMember path) fs.

Definition droppedMembers (l : ConfigLayer) (locks : list bytes) (fs : list (bytes * bytes))
    : list EffectiveMember :=
  omap (λ p, let path := canonicalConfigPath p.1 in
             if blocked l locks path then Some (MkEffective path l) else None) fs.

Definition kept (dirs : list (bytes * bytes)) (path : bytes) : Prop :=
  ∀ d, configDirectoryMember path = Some d → d ∉ dirs.

#[export] Instance kept_dec dirs path : Decision (kept dirs path).
Proof.
  unfold kept. destruct (configDirectoryMember path) as [d|].
  - destruct (decide (d ∈ dirs)); [right|left]; naive_solver.
  - left. naive_solver.
Defined.

Definition applyConfigLayer (selected : gmap bytes configMember) (l : ConfigLayer) (locks : list bytes)
    (f : files) : gmap bytes configMember :=
  let fs := map_to_list f in
  let dirs := memberDirectories l locks fs in
  foldl (λ sel (p : bytes * bytes), let path := canonicalConfigPath p.1 in
                  if blocked l locks path then sel else <[path := MkMember p.2 l]> sel)
    (filter (λ p, kept dirs p.1) selected) fs.

Definition member_le (x y : EffectiveMember) : Prop := bytes_leb (Path x) (Path y) = true.

#[export] Instance member_le_dec : RelDecision member_le.
Proof. intros x y. unfold member_le. apply _. Defined.

Definition sortEffectiveMembers (l : list EffectiveMember) : list EffectiveMember := merge_sort member_le l.

Definition effectiveConfigMembers (selected : gmap bytes configMember) : list EffectiveMember :=
  sortEffectiveMembers ((λ p, MkEffective p.1 (layer p.2)) <$> map_to_list selected).

Section merge.
Context {B : Type} (untar : B → option (list entry)) (yaml : bytes → option (list (option bytes)))
  (write : list (bytes * bytes) → option B).

Definition readValidatedLayer (l : ConfigLayer) (b : B) : result mergeErr files :=
  match untar b with
  | None => Err (ErrLayer l)
  | Some es => if validateStoredConfigBundle l es then Ok (readConfigBundleMembers es) else Err (ErrLayer l)
  end.

(** The tenant's locks leave its files. *)
Definition takeLocks (l : ConfigLayer) (locks : list bytes) (f : files) : result mergeErr (list bytes * files) :=
  match l, f !! memberLocksYML with
  | LayerTenant, Some body =>
      match yaml body ≫= parseConfigLocks with
      | Some locks' => Ok (locks', delete memberLocksYML f)
      | None => Err ErrLocks
      end
  | _, _ => Ok (locks, f)
  end.

Record merged := MkMerged {
  selected : gmap bytes configMember;
  locks : list bytes;
  dropped : list EffectiveMember;
}.

Definition merge_layer (m : merged) (x : ConfigLayer * option B) : result mergeErr merged :=
  match x.2 with
  | None => Ok m
  | Some b =>
      f <-? readValidatedLayer x.1 b;
      lf <-? takeLocks x.1 (locks m) f;
      Ok (MkMerged (applyConfigLayer (selected m) x.1 lf.1 lf.2) lf.1
            (dropped m ++ droppedMembers x.1 lf.1 (map_to_list lf.2)))
  end.

Fixpoint merge_layers (m : merged) (xs : list (ConfigLayer * option B)) : result mergeErr merged :=
  match xs with
  | [] => Ok m
  | x :: xs => m' <-? merge_layer m x; merge_layers m' xs
  end.

Definition layersOf (d t u r : option B) : list (ConfigLayer * option B) :=
  [(LayerDefault, d); (LayerTenant, t); (LayerUser, u); (LayerRole, r)].

Definition writeEffectiveConfigBundle (sel : gmap bytes configMember) : result mergeErr B :=
  if bool_decide (maxFileCount < size sel) then Err ErrFileCount
  else match write ((λ e, (Path e, default [] (content <$> sel !! Path e))) <$> effectiveConfigMembers sel) with
       | Some b => Ok b
       | None => Err ErrWrite
       end.

Definition MergeConfigBundles (d t u r : option B)
    : result mergeErr (B * list EffectiveMember * list EffectiveMember) :=
  m <-? merge_layers (MkMerged ∅ [] []) (layersOf d t u r);
  let members := effectiveConfigMembers (selected m) in
  match d, t, u, r with
  | Some b, None, None, None => Ok (b, members, dropped m)
  | None, None, None, None =>
      match write [] with Some b => Ok (b, members, dropped m) | None => Err ErrWrite end
  | _, _, _, _ =>
      b <-? writeEffectiveConfigBundle (selected m); Ok (b, members, sortEffectiveMembers (dropped m))
  end.

(** * Overlays *)

Inductive overlayErr := RoleWithoutOwner | UnknownRole.

Definition managerRoles : list bytes := [lit "supervisor"; lit "owner"; lit "manager"].

Definition IsManagerRole (role : bytes) : bool := bool_decide (role ∈ managerRoles).

Definition overlayLayerForKey (owner role : bytes) : result overlayErr ConfigLayer :=
  if bool_decide (owner = []) then
    if bool_decide (role = []) then Ok LayerTenant else Err RoleWithoutOwner
  else if bool_decide (role = []) then Ok LayerUser
  else if IsManagerRole role then Ok LayerRole else Err UnknownRole.

(** The lock check of [PutAgentConfigOverlay]. *)
Definition overlayAllowed (l : ConfigLayer) (locks : list bytes) (es : list entry) : bool :=
  match l with
  | LayerUser | LayerRole =>
      forallb (λ p, negb (Covers locks (canonicalConfigPath p.1))) (map_to_list (readConfigBundleMembers es))
  | _ => true
  end.

(** * Validated files *)

(** Every member of a validated layer has an admitted path. *)
Definition files_ok (l : ConfigLayer) (f : files) : Prop :=
  ∀ p c, f !! p = Some c →
    ∃ parts, configMemberParts p = Some parts ∧ validateConfigMemberPath parts TypeReg l = true.

Lemma read_ok l es : ∀ n z f,
  validate_entries l n z es = true → files_ok l f →
  files_ok l (foldl (λ m e, if bool_decide (e_kind e = Some TypeDir) then m
                else <[canonicalConfigPath (e_name e) := e_content e]> m) f es).
Proof.
  induction es as [|e es IH]; intros n z f HV HF; cbn [foldl]; [done|].
  cbn [validate_entries] in HV. destruct (e_kind e) as [[]|] eqn:EK; [| |done].
  - destruct (configMemberParts _) as [parts|] eqn:EP; [|done].
    apply andb_true_iff in HV as [[[_ HP]%andb_true_iff _]%andb_true_iff HV].
    rewrite bool_decide_false by done. eapply IH; [exact HV|].
    intros p c [[<- _]|[_ Hp]]%lookup_insert_Some; eauto.
  - destruct (configMemberParts _) as [parts|] eqn:EP; [|done].
    apply andb_true_iff in HV as [_ HV]. rewrite bool_decide_true by done. by eapply IH.
Qed.

Lemma readValidatedLayer_ok l b f : readValidatedLayer l b = Ok f → files_ok l f.
Proof.
  unfold readValidatedLayer. destruct (untar b) as [es|]; [|done].
  destruct (validateStoredConfigBundle l es) eqn:EV; [|done]. intros [= <-].
  eapply read_ok; [exact EV|]. intros p c. by rewrite lookup_empty.
Qed.

Lemma parts_canonical p parts : configMemberParts p = Some parts → canonicalConfigPath p = p.
Proof.
  intros (-> & HS & _)%parts_spec. unfold canonicalConfigPath.
  destruct (CutSuffix p (lit "/")) as [b|] eqn:E; [|done]. apply CutSuffix_Some in E as ->. exfalso.
  change (lit "/") with ["/"%char] in HS. rewrite split_app_sep in HS.
  apply Forall_app in HS as [_ HS]. apply Forall_cons in HS as [[? _] _]. done.
Qed.

Lemma files_ok_canonical l f p c : files_ok l f → f !! p = Some c → canonicalConfigPath p = p.
Proof. intros HF Hp. apply HF in Hp as (parts & E & _). by eapply parts_canonical. Qed.

(** * One layer *)

Lemma fold_select (l : ConfigLayer) (lk : list bytes) (fs : list (bytes * bytes)) (m : gmap bytes configMember) (p : bytes) :
  NoDup fs.*1 → (∀ x, x ∈ fs → canonicalConfigPath x.1 = x.1) →
  foldl (λ sel (p : bytes * bytes), let path := canonicalConfigPath p.1 in
                  if blocked l lk path then sel else <[path := MkMember p.2 l]> sel) m fs !! p
  = if blocked l lk p then m !! p
    else match (list_to_map fs : files) !! p with Some c => Some (MkMember c l) | None => m !! p end.
Proof.
  revert m. induction fs as [|[k c] fs IH]; intros m HN HC; cbn [foldl].
  { simpl. by case_match. }
  cbn [fmap list_fmap] in HN. apply NoDup_cons in HN as [Hk HN].
  rewrite IH by (try done; intros x Hx; apply HC; set_solver).
  pose proof (HC (k, c) ltac:(set_solver)) as Hc. cbn [fst snd] in *. rewrite Hc. cbn [list_to_map].
  destruct (decide (k = p)) as [->|Hne].
  - rewrite (not_elem_of_list_to_map_1 fs p) by done.
    change (list_to_map ((p, c) :: fs)) with (<[p := c]> (list_to_map fs : files)).
    rewrite lookup_insert_eq. destruct (blocked l lk p); [done|]. by rewrite lookup_insert_eq.
  - change (list_to_map ((k, c) :: fs)) with (<[k := c]> (list_to_map fs : files)).
    rewrite lookup_insert_ne by done. destruct (blocked l lk k); [done|].
    by rewrite lookup_insert_ne.
Qed.

Lemma applyConfigLayer_lookup (sel : gmap bytes configMember) (l : ConfigLayer) (lk : list bytes) (f : files) (p : bytes) :
  files_ok l f →
  applyConfigLayer sel l lk f !! p =
  match f !! p, blocked l lk p with
  | Some c, false => Some (MkMember c l)
  | _, _ => if decide (kept (memberDirectories l lk (map_to_list f)) p) then sel !! p else None
  end.
Proof.
  intros HF. unfold applyConfigLayer. rewrite fold_select, list_to_map_to_list.
  - assert (filter (λ x, kept (memberDirectories l lk (map_to_list f)) x.1) sel !! p
      = if decide (kept (memberDirectories l lk (map_to_list f)) p) then sel !! p else None) as ->.
    { case_decide as Hk; [|apply map_lookup_filter_None; right; by intros x _].
      destruct (sel !! p) as [x|] eqn:E; [by apply map_lookup_filter_Some|].
      apply map_lookup_filter_None. by left. }
    destruct (blocked l lk p), (f !! p); done.
  - apply NoDup_fst_map_to_list.
  - intros [k c] Hk%elem_of_map_to_list. by eapply files_ok_canonical.
Qed.

Lemma memberDirectories_spec (l : ConfigLayer) (lk : list bytes) (f : files) d :
  files_ok l f →
  d ∈ memberDirectories l lk (map_to_list f) ↔
  ∃ q c, f !! q = Some c ∧ blocked l lk q = false ∧ configDirectoryMember q = Some d.
Proof.
  intros HF. unfold memberDirectories. rewrite list_elem_of_omap. split.
  - intros ([q c] & Hq%elem_of_map_to_list & H). cbn [fst] in H.
    rewrite (files_ok_canonical _ _ _ _ HF Hq) in H. destruct (blocked l lk q) eqn:E; [done|]. eauto.
  - intros (q & c & Hq & Hb & Hd). exists (q, c). split; [by apply elem_of_map_to_list|]. cbn [fst].
    rewrite (files_ok_canonical _ _ _ _ HF Hq). by rewrite Hb.
Qed.

(** * The reference: resolve a path from the highest layer down *)

Fixpoint resolve (lk : list bytes) (ls : list (ConfigLayer * files)) (p : bytes) : option configMember :=
  match ls with
  | [] => None
  | (l, f) :: ls =>
      match f !! p, blocked l lk p with
      | Some c, false => Some (MkMember c l)
      | _, _ => if decide (kept (memberDirectories l lk (map_to_list f)) p) then resolve lk ls p else None
      end
  end.

(** The files a stored layer contributes: the tenant's locks are not among them. *)
Definition decode (x : ConfigLayer * option B) : option (ConfigLayer * files) :=
  match x.2 ≫= untar with
  | Some es =>
      let f := readConfigBundleMembers es in
      Some (x.1, if bool_decide (x.1 = LayerTenant) then delete memberLocksYML f else f)
  | None => None
  end.

Lemma files_ok_delete l f p : files_ok l f → files_ok l (delete p f).
Proof. intros HF q c [_ Hq]%lookup_delete_Some. eauto. Qed.

Lemma parse_entries_ok seen values lk :
  parse_entries seen values = Some lk → Forall (λ q, lock_entry_ok q = true) seen →
  Forall (λ q, lock_entry_ok q = true) lk.
Proof.
  revert seen. induction values as [|[q|] values IH]; intros seen H HS; simpl in H; [| |done].
  - injection H as <-. rewrite Forall_forall in HS |- *. intros x Hx. apply HS. by apply elem_of_reverse.
  - case_bool_decide; [done|]. destruct (lock_entry_ok q) eqn:E; [|done].
    apply (IH _ H). by constructor.
Qed.

(** What a layer does to the state. *)
Definition layer_done (m : merged) (l : ConfigLayer) (f : files) (m' : merged) : Prop :=
  files_ok l f ∧ selected m' = applyConfigLayer (selected m) l (locks m') f
  ∧ dropped m' = dropped m ++ droppedMembers l (locks m') (map_to_list f).

Lemma takeLocks_ok l lk f lk' f' :
  takeLocks l lk f = Ok (lk', f') →
  f' = (if bool_decide (l = LayerTenant) then delete memberLocksYML f else f)
  ∧ (l ≠ LayerTenant → lk' = lk) ∧ (lk' = lk ∨ Forall (λ q, lock_entry_ok q = true) lk').
Proof.
  unfold takeLocks. destruct l; simpl; try (intros [= <- <-]; naive_solver).
  destruct (f !! memberLocksYML) as [body|] eqn:E.
  - destruct (yaml body) as [vs|]; simpl; [|done]. destruct (parseConfigLocks vs) as [lk0|] eqn:EL; [|done].
    intros [= <- <-]. split; [done|]. split; [done|]. right. eapply parse_entries_ok; [exact EL|done].
  - intros [= <- <-]. rewrite delete_id by done. naive_solver.
Qed.

Lemma merge_layer_ok m x m' :
  merge_layer m x = Ok m' →
  match decode x with None => m' = m | Some (l, f) => l = x.1 ∧ layer_done m l f m' end
  ∧ (x.1 ≠ LayerTenant → locks m' = locks m)
  ∧ (locks m' = locks m ∨ Forall (λ q, lock_entry_ok q = true) (locks m')).
Proof.
  unfold merge_layer, decode. destruct x as [l [b|]]; simpl; [|intros [= <-]; auto].
  intros (f & HR & H)%rbind_Ok. apply rbind_Ok in H as ([lk f'] & HT & [= <-]). simpl in *.
  apply readValidatedLayer_ok in HR as HF. apply takeLocks_ok in HT as (-> & HL & HO).
  unfold readValidatedLayer in HR. destruct (untar b) as [es|]; [|done].
  destruct (validateStoredConfigBundle l es); [|done]. injection HR as <-. simpl.
  split; [|by split]. split; [done|]. split; [|done]. case_bool_decide; [by apply files_ok_delete|done].
Qed.

Lemma blocked_free l lk lk' p : l = LayerDefault ∨ l = LayerTenant → blocked l lk p = blocked l lk' p.
Proof. intros H. unfold blocked. by rewrite !bool_decide_false by (destruct H; subst; naive_solver). Qed.

(** Locks do not concern the lower layers. *)
Lemma apply_free l lk lk' sel f :
  l = LayerDefault ∨ l = LayerTenant →
  applyConfigLayer sel l lk f = applyConfigLayer sel l lk' f
  ∧ droppedMembers l lk (map_to_list f) = droppedMembers l lk' (map_to_list f).
Proof. by intros [->| ->]. Qed.

Lemma layer_done_locks m l f m' lk :
  layer_done m l f m' → (l = LayerDefault ∨ l = LayerTenant) ∨ locks m' = lk →
  files_ok l f ∧ selected m' = applyConfigLayer (selected m) l lk f
  ∧ dropped m' = dropped m ++ droppedMembers l lk (map_to_list f).
Proof.
  intros (HF & HS & HD) [Hl|<-]; [|done]. split; [done|].
  rewrite HS, HD. destruct (apply_free l (locks m') lk (selected m) f Hl) as [-> ->]. done.
Qed.

(** A step of the merge, under the locks of the end. *)
Lemma merge_step m x m' lk :
  merge_layer m x = Ok m' → (x.1 = LayerDefault ∨ x.1 = LayerTenant) ∨ locks m' = lk →
  Forall (λ y, files_ok y.1 y.2) (omap decode [x])
  ∧ selected m' = foldl (λ sel y, applyConfigLayer sel y.1 lk y.2) (selected m) (omap decode [x])
  ∧ dropped m' = dropped m ++ concat ((λ y, droppedMembers y.1 lk (map_to_list y.2)) <$> omap decode [x]).
Proof.
  intros HM HL. apply merge_layer_ok in HM as (HM & _ & _). simpl.
  destruct (decode x) as [[l f]|]; simpl; [|subst; by rewrite app_nil_r].
  destruct HM as [-> HD]. destruct (layer_done_locks _ _ _ _ lk HD HL) as (HF & HS & HD').
  rewrite app_nil_r. split; [by repeat constructor|]. done.
Qed.

(** The locks of the end are the locks every overlay was merged under. *)
Lemma merge_four d t u r m :
  merge_layers (MkMerged ∅ [] []) (layersOf d t u r) = Ok m →
  Forall (λ q, lock_entry_ok q = true) (locks m)
  ∧ Forall (λ x, files_ok x.1 x.2) (omap decode (layersOf d t u r))
  ∧ selected m = foldl (λ sel x, applyConfigLayer sel x.1 (locks m) x.2) ∅ (omap decode (layersOf d t u r))
  ∧ dropped m = concat ((λ x, droppedMembers x.1 (locks m) (map_to_list x.2)) <$> omap decode (layersOf d t u r)).
Proof.
  unfold layersOf. cbn [merge_layers].
  intros (m1 & E1 & (m2 & E2 & (m3 & E3 & (m4 & E4 & [= ->])%rbind_Ok)%rbind_Ok)%rbind_Ok)%rbind_Ok.
  pose proof (merge_layer_ok _ _ _ E1) as (_ & L1 & _). pose proof (merge_layer_ok _ _ _ E2) as (_ & _ & L2).
  pose proof (merge_layer_ok _ _ _ E3) as (_ & L3 & _). pose proof (merge_layer_ok _ _ _ E4) as (_ & L4 & _).
  cbn [fst] in *. specialize (L1 ltac:(done)). specialize (L3 ltac:(done)). specialize (L4 ltac:(done)).
  destruct (merge_step _ _ _ (locks m) E1) as (F1 & S1 & D1); [left; by left|].
  destruct (merge_step _ _ _ (locks m) E2) as (F2 & S2 & D2); [left; by right|].
  destruct (merge_step _ _ _ (locks m) E3) as (F3 & S3 & D3); [right; congruence|].
  destruct (merge_step _ _ _ (locks m) E4) as (F4 & S4 & D4); [by right|].
  change [(LayerDefault, d); (LayerTenant, t); (LayerUser, u); (LayerRole, r)]
    with ([(LayerDefault, d)] ++ [(LayerTenant, t)] ++ [(LayerUser, u)] ++ [(LayerRole, r)]).
  rewrite !omap_app. split.
  { destruct L2 as [L2|L2]; [|by rewrite L4, L3]. simpl in L1. by rewrite L4, L3, L2, L1. }
  rewrite !Forall_app, !foldl_app, !fmap_app, !concat_app.
  rewrite S4, S3, S2, S1, D4, D3, D2, D1. rewrite <- !(assoc_L (++)). done.
Qed.

Lemma foldl_resolve lk ls p :
  Forall (λ x, files_ok x.1 x.2) ls →
  foldl (λ sel x, applyConfigLayer sel x.1 lk x.2) ∅ ls !! p = resolve lk (reverse ls) p.
Proof.
  induction ls as [|[l f] ls IH] using rev_ind; [intros; apply lookup_empty|].
  rewrite Forall_app, Forall_singleton, foldl_app, reverse_snoc. intros [HF Hf]. cbn [foldl fst snd resolve].
  rewrite applyConfigLayer_lookup by done. by rewrite IH.
Qed.

Lemma merge_done d t u r bundle members drops :
  MergeConfigBundles d t u r = Ok (bundle, members, drops) →
  ∃ m, merge_layers (MkMerged ∅ [] []) (layersOf d t u r) = Ok m
    ∧ members = effectiveConfigMembers (selected m) ∧ drops ≡ₚ dropped m.
Proof.
  unfold MergeConfigBundles. intros (m & HM & H)%rbind_Ok. exists m. split; [done|].
  assert (∀ x, (b <-? writeEffectiveConfigBundle (selected m);
      Ok (b, effectiveConfigMembers (selected m), sortEffectiveMembers (dropped m))) = Ok x →
      x.1.2 = effectiveConfigMembers (selected m) ∧ x.2 ≡ₚ dropped m) as Hw.
  { intros x (b & _ & [= <-])%rbind_Ok. split; [done|]. apply merge_sort_Permutation. }
  destruct d, t, u, r; try (apply Hw in H; exact H).
  - by injection H as <- <- <-.
  - destruct (write []); [|done]. by injection H as <- <- <-.
Qed.

Lemma members_spec sel e :
  e ∈ effectiveConfigMembers sel ↔ layer <$> sel !! Path e = Some (Layer e).
Proof.
  unfold effectiveConfigMembers, sortEffectiveMembers.
  rewrite (merge_sort_Permutation member_le), list_elem_of_fmap. split.
  - intros ([p x] & -> & H%elem_of_map_to_list). simpl in *. by rewrite H.
  - destruct (sel !! Path e) as [x|] eqn:E; [|done]. intros [= Hx]. exists (Path e, x).
    split; [destruct e; simpl in *; congruence|]. by apply elem_of_map_to_list.
Qed.

Lemma dropped_spec l lk f e :
  files_ok l f →
  e ∈ droppedMembers l lk (map_to_list f) ↔
  Layer e = l ∧ is_Some (f !! Path e) ∧ blocked l lk (Path e) = true.
Proof.
  intros HF. unfold droppedMembers. rewrite list_elem_of_omap. split.
  - intros ([p c] & Hp%elem_of_map_to_list & H). cbn [fst] in H.
    rewrite (files_ok_canonical _ _ _ _ HF Hp) in H. destruct (blocked l lk p) eqn:E; [|done].
    injection H as <-. simpl. rewrite Hp. eauto.
  - intros (<- & [c Hc] & Hb). exists (Path e, c). split; [by apply elem_of_map_to_list|]. cbn [fst].
    rewrite (files_ok_canonical _ _ _ _ HF Hc), Hb. by destruct e.
Qed.

(** * Locks *)

(** A valid lock that covers one member of a directory covers the directory. *)
Lemma lock_covers_dir path p q d parts l :
  lock_entry_ok path = true → canonicalConfigPath p = p →
  (if HasSuffix path (lit "/") then has_prefix path p else bool_decide (p = path)) = true →
  configDirectoryMember p = Some d → configDirectoryMember q = Some d →
  configMemberParts q = Some parts → validateConfigMemberPath parts TypeReg l = true →
  HasSuffix path (lit "/") = true ∧ has_prefix path q = true.
Proof.
  intros HL Hp HC Hdp Hdq Hq Hv. apply parts_spec in Hq as (-> & HS & _).
  unfold configDirectoryMember in Hdp, Hdq.
  destruct (split "/" q) as [|top [|dir more]] eqn:Eq; [done|done|].
  destruct (skill_top top) eqn:ES; [|done]. injection Hdq as <-.
  apply long_path in Hv as (_ & _ & _ & Hv). rewrite ES in Hv. destruct Hv as (_ & dirs & file & -> & _).
  destruct (split "/" p) as [|ptop [|pdir pmore]] eqn:Ep; [done|done|].
  destruct (skill_top ptop); [|done]. injection Hdp as -> ->.
  unfold lock_entry_ok in HL. destruct (configMemberParts (canonicalConfigPath path)) as [lparts|] eqn:EL; [|done].
  apply parts_spec in EL as (-> & _ & _).
  destruct (HasSuffix path (lit "/")) eqn:EH.
  - split; [done|]. apply andb_true_iff in HL as [[HL%Nat.leb_le _]%andb_true_iff _].
    apply HasSuffix_spec in EH as [b ->].
    assert (canonicalConfigPath (b ++ lit "/") = b) as Ec.
    { unfold canonicalConfigPath. assert (CutSuffix (b ++ lit "/") (lit "/") = Some b) as -> by (by apply CutSuffix_Some).
      done. }
    rewrite Ec in HL. apply has_prefix_spec in HC as [r Er].
    change (lit "/") with ["/"%char] in *. rewrite <- app_assoc in Er. simpl in Er.
    assert (split "/" b ++ split "/" r = top :: dir :: pmore) as Esp by (rewrite <- Ep, Er; by rewrite split_app_sep).
    apply has_prefix_spec. rewrite <- (join_split "/" q), Eq.
    pose proof (join_split "/" b) as Eb. pose proof (split_not_nil "/" b) as Hb.
    destruct (split "/" b) as [|b1 [|b2 [|b3 bs]]]; simpl in HL; [done| | |lia]; simpl in Esp.
    + injection Esp as -> _. subst b. rewrite join_cons by done. simpl.
      eexists. rewrite <- app_assoc. done.
    + injection Esp as -> -> _. subst b. rewrite join_cons by done. rewrite (join_cons _ dir) by (by destruct dirs).
      rewrite join_cons by done. simpl. eexists. repeat (rewrite <- !app_assoc; simpl). done.
  - exfalso. apply bool_decide_eq_true in HC. subst path. rewrite Hp, Ep in HL.
    unfold validLockMemberPath in HL. destruct pmore as [|x pmore].
    + simpl in HL. apply long_path in HL as (_ & _ & _ & HL). rewrite ES in HL.
      destruct HL as (_ & [|? ?] & ? & ? & _); done.
    + cbn [length] in HL. rewrite bool_decide_true in HL by lia. rewrite ES in HL. done.
Qed.

Lemma covers_dir lk p q d parts l :
  Forall (λ x, lock_entry_ok x = true) lk → canonicalConfigPath p = p → canonicalConfigPath q = q →
  Covers lk p = true → configDirectoryMember p = Some d → configDirectoryMember q = Some d →
  configMemberParts q = Some parts → validateConfigMemberPath parts TypeReg l = true →
  Covers lk q = true.
Proof.
  intros HL Hp Hq HC Hdp Hdq HP HV. unfold Covers in *. rewrite Hp in HC. rewrite Hq.
  apply existsb_exists in HC as (path & Hin & HC). apply existsb_exists. exists path. split; [done|].
  rewrite Forall_forall in HL. apply list_elem_of_In in Hin.
  destruct (lock_covers_dir path p q d parts l) as [E1 E2]; auto. by rewrite E1.
Qed.

(** An overlay cannot change what a locked path resolves to. *)
Lemma resolve_locked l f lk ls p :
  l = LayerUser ∨ l = LayerRole → files_ok l f → Forall (λ x, lock_entry_ok x = true) lk →
  canonicalConfigPath p = p → Covers lk p = true →
  resolve lk ((l, f) :: ls) p = resolve lk ls p.
Proof.
  intros Hl HF HL Hp HC. cbn [resolve].
  assert (∀ x, blocked l lk x = Covers lk x) as Hb by (intros x; unfold blocked; by rewrite bool_decide_true).
  assert (kept (memberDirectories l lk (map_to_list f)) p) as Hk.
  { intros d Hd (q & c & Hq & Hqb & Hdq)%memberDirectories_spec; [|done].
    rewrite Hb in Hqb. destruct (HF q c Hq) as (parts & HP & HV).
    assert (Covers lk q = true); [|congruence].
    eapply (covers_dir lk p q d parts l); eauto. by eapply parts_canonical. }
  rewrite Hb, HC, decide_True by done. by destruct (f !! p).
Qed.

(** * Sizes *)

Definition fileCount (es : list entry) : nat := length (filter (λ e, e_kind e ≠ Some TypeDir) es).

Lemma size_read_from (es : list entry) (m : files) :
  size (foldl (λ m e, if bool_decide (e_kind e = Some TypeDir) then m
                else <[canonicalConfigPath (e_name e) := e_content e]> m) m es) ≤ size m + fileCount es.
Proof.
  unfold fileCount. revert m. induction es as [|e es IH]; intros m; cbn [foldl]; [simpl; lia|].
  rewrite filter_cons. case_bool_decide as E.
  - rewrite decide_False by tauto. apply IH.
  - rewrite decide_True by done. cbn [length]. etrans; [apply IH|].
    rewrite map_size_insert. destruct (m !! _); simpl; lia.
Qed.

Lemma size_read (es : list entry) : size (readConfigBundleMembers es) ≤ fileCount es.
Proof. etrans; [apply (size_read_from es ∅)|]. by rewrite map_size_empty. Qed.

Lemma size_apply (l : ConfigLayer) (lk : list bytes) (sel : gmap bytes configMember) (f : files) : size (applyConfigLayer sel l lk f) ≤ size sel + size f.
Proof.
  unfold applyConfigLayer. rewrite <- (length_map_to_list f).
  assert (size (filter (λ p : bytes * configMember, kept (memberDirectories l lk (map_to_list f)) p.1) sel)
    ≤ size sel) as Hs by (apply map_subseteq_size, map_filter_subseteq).
  revert Hs. generalize (filter (λ p : bytes * configMember, kept (memberDirectories l lk (map_to_list f)) p.1) sel).
  generalize (size sel). induction (map_to_list f) as [|x fs IH]; intros n m Hm; cbn [foldl length]; [lia|].
  etrans; [apply (IH (S n))|lia]. case_match; [lia|]. rewrite map_size_insert. case_match; simpl; lia.
Qed.

Definition layer_size (x : ConfigLayer * files) : nat := size x.2.

Lemma size_foldl (lk : list bytes) (ls : list (ConfigLayer * files)) (sel : gmap bytes configMember) :
  size (foldl (λ s x, applyConfigLayer s x.1 lk x.2) sel ls)
  ≤ size sel + sum_list_with layer_size ls.
Proof.
  revert sel. induction ls as [|[l f] ls IH]; intros sel; cbn [foldl sum_list_with fst snd]; [lia|].
  etrans; [apply IH|]. pose proof (size_apply l lk sel f). unfold layer_size at 2. cbn [snd]. lia.
Qed.

(** What passes the door passes the check of stored bundles, with room to spare. *)
Lemma door_stored regular l es : ∀ z seen members out,
  read_members regular l (capsForLayer l) z seen members es = Ok out →
  validate_entries l (length members) z es = true
  ∧ (length members ≤ cap_files (capsForLayer l) →
     length members + fileCount es ≤ cap_files (capsForLayer l)).
Proof.
  assert (cap_files (capsForLayer l) ≤ maxFileCount ∧ (cap_bytes (capsForLayer l) ≤ maxDecompressedBytes)%Z) as [HC HB].
  { with_strategy transparent [maxFileCount] unfold maxFileCount. split.
    - destruct l; cbn [capsForLayer cap_files defaultLayerCaps overlayLayerCaps]; lia.
    - by destruct l; vm_compute. }
  unfold fileCount. induction es as [|e es IH]; intros z seen members out H.
  { simpl. split; [done|lia]. }
  cbn [read_members] in H. cbn [validate_entries]. rewrite filter_cons.
  destruct (e_kind e) as [k|]; [|done]. destruct (configMemberParts _) as [parts|]; [|by destruct k].
  destruct (validateConfigMemberPath parts k l) eqn:EP; [|done]. cbn [negb] in H. destruct k.
  - apply rbind_Ok in H as ([z' seen'] & HV & H). unfold validateConfigFileLimits in HV.
    case_bool_decide as E1; [done|]. case_bool_decide; [done|]. case_bool_decide as E3; [done|].
    injection HV as <- <-. destruct (regular parts _); [|done]. cbn [fst snd] in H.
    apply IH in H as [HV HN]. cbn [length] in HV, HN. rewrite decide_True by done. cbn [length].
    rewrite EP, HV, !bool_decide_false by lia. split; [done|]. intros _. specialize (HN ltac:(lia)). lia.
  - apply IH in H as [HV HN]. rewrite decide_False by (intros Hk; by apply Hk). rewrite EP, HV. done.
Qed.

Lemma door_fits regular l es out :
  readAndValidateConfigMembers regular l es = Ok out →
  validateStoredConfigBundle l es = true ∧ fileCount es ≤ cap_files (capsForLayer l).
Proof.
  intros H. apply (door_stored _ _ _ _ _ []) in H as [HV HN]. split; [done|]. simpl in HN. apply HN. lia.
Qed.

(** The layer is absent or its bundle passed the door. *)
Definition uploaded (regular : list bytes → bytes → bool) (x : ConfigLayer * option B) : Prop :=
  ∀ b, x.2 = Some b → ∃ es out, untar b = Some es ∧ readAndValidateConfigMembers regular x.1 es = Ok out.

Lemma size_decode regular x :
  uploaded regular x → sum_list_with layer_size (omap decode [x]) ≤ cap_files (capsForLayer x.1).
Proof.
  intros HU. unfold decode. cbn [omap list_omap]. destruct (x.2) as [b|] eqn:EB; simpl; [|lia].
  destruct (HU b EB) as (es & out & -> & HR). apply door_fits in HR as [_ HF]. simpl.
  pose proof (size_read es). unfold layer_size. cbn [snd]. case_bool_decide; [|lia].
  assert (size (delete memberLocksYML (readConfigBundleMembers es)) ≤ size (readConfigBundleMembers es)); [|lia].
  apply map_subseteq_size, delete_subseteq.
Qed.

(** * Claims *)

(** Merging the layers upwards is the same as resolving each path from the top: the
    highest layer that has the member and may supply it wins, unless a layer above
    brings any other file of the same skill or extension directory, which then hides it;
    the reported members are exactly the resolved paths with their layers, and the
    reported drops are exactly the locked members of the user and role layers. *)
Theorem merge_is_top_down d t u r bundle members drops :
  MergeConfigBundles d t u r = Ok (bundle, members, drops) →
  ∃ lk, Forall (λ x, lock_entry_ok x = true) lk
    ∧ (∀ e, e ∈ members ↔
         layer <$> resolve lk (reverse (omap decode (layersOf d t u r))) (Path e) = Some (Layer e))
    ∧ (∀ e, e ∈ drops ↔ ∃ f, (Layer e, f) ∈ omap decode (layersOf d t u r)
         ∧ is_Some (f !! Path e) ∧ blocked (Layer e) lk (Path e) = true).
Proof.
  intros (m & HM & -> & HD)%merge_done. apply merge_four in HM as (HL & HF & HS & HDr).
  exists (locks m). split; [done|]. split.
  - intros e. rewrite members_spec, HS. by rewrite foldl_resolve.
  - intros e. rewrite HD, HDr, list_elem_of_In, in_concat. setoid_rewrite <- list_elem_of_In. rewrite Forall_forall in HF. split.
    + intros (l & ([l' f] & -> & Hx)%list_elem_of_fmap & Hin). specialize (HF _ Hx). simpl in *.
      apply dropped_spec in Hin as (<- & ? & ?); [|done]. eauto.
    + intros (f & Hx & Hp & Hb). eexists. split; [apply list_elem_of_fmap_2, Hx|].
      specialize (HF _ Hx). simpl in *. by apply dropped_spec.
Qed.

Lemma layersOf_split (d t u r : option B) :
  omap decode (layersOf d t u r)
  = omap decode (layersOf d t None None) ++ omap decode [(LayerUser, u)] ++ omap decode [(LayerRole, r)].
Proof.
  unfold layersOf. rewrite <- !omap_app. cbn [app omap list_omap].
  assert (∀ l, decode (l, None) = None) as HN by done. by rewrite !HN.
Qed.

(** The locks the merge ends with are the tenant's. *)
Lemma merge_locks d t u r m b es body :
  merge_layers (MkMerged ∅ [] []) (layersOf d t u r) = Ok m → t = Some b → untar b = Some es →
  readConfigBundleMembers es !! memberLocksYML = Some body → yaml body ≫= parseConfigLocks = Some (locks m).
Proof.
  unfold layersOf. cbn [merge_layers].
  intros (m1 & E1 & (m2 & E2 & (m3 & E3 & (m4 & E4 & [= ->])%rbind_Ok)%rbind_Ok)%rbind_Ok)%rbind_Ok -> EU EB.
  pose proof (merge_layer_ok _ _ _ E3) as (_ & L3 & _). pose proof (merge_layer_ok _ _ _ E4) as (_ & L4 & _).
  rewrite L4, L3 by done. unfold merge_layer in E2. simpl in E2.
  apply rbind_Ok in E2 as (f & HR & ([lk f'] & HT & [= <-])%rbind_Ok). unfold readValidatedLayer in HR.
  rewrite EU in HR. destruct (validateStoredConfigBundle _ _); [|done]. injection HR as <-.
  unfold takeLocks in HT. rewrite EB in HT. simpl. destruct (yaml body ≫= parseConfigLocks); [|done].
  by injection HT as <- <-.
Qed.

Lemma resolve_overlay l o lk ls p :
  l = LayerUser ∨ l = LayerRole → Forall (λ x, files_ok x.1 x.2) (omap decode [(l, o)]) →
  Forall (λ x, lock_entry_ok x = true) lk → canonicalConfigPath p = p → Covers lk p = true →
  resolve lk (reverse (omap decode [(l, o)]) ++ ls) p = resolve lk ls p.
Proof.
  intros Hl HF HL Hp HC. simpl in *. destruct (decode (l, o)) as [[l' f]|] eqn:E; [|done].
  assert (l' = l) as -> by (unfold decode in E; cbn [fst snd] in E; destruct (o ≫= untar); congruence).
  apply Forall_cons in HF as [HF _]. cbn [fst snd] in HF. rewrite reverse_singleton. cbn [app].
  by apply resolve_locked.
Qed.

(** A tenant's locks hold: whatever the user and role layers contain, a member the
    locks of the tenant bundle cover resolves to what the default and tenant layers alone
    give, so it is neither replaced nor hidden by an overlay. *)
Theorem locked_members_stand d b u r es body bundle members drops :
  MergeConfigBundles d (Some b) u r = Ok (bundle, members, drops) →
  untar b = Some es → readConfigBundleMembers es !! memberLocksYML = Some body →
  ∃ lk, yaml body ≫= parseConfigLocks = Some lk
    ∧ ∀ e, canonicalConfigPath (Path e) = Path e → Covers lk (Path e) = true →
        (e ∈ members ↔
           layer <$> resolve lk (reverse (omap decode (layersOf d (Some b) None None))) (Path e) = Some (Layer e)).
Proof.
  intros (m & HM & -> & _)%merge_done EU EB. exists (locks m). split; [by eapply merge_locks|].
  apply merge_four in HM as (HL & HF & HS & _). intros e Hc HC. rewrite members_spec, HS, foldl_resolve by done.
  rewrite layersOf_split in HF |- *. rewrite !Forall_app in HF. destruct HF as (_ & HU & HR).
  rewrite !reverse_app, <- (assoc_L (++)).
  rewrite (resolve_overlay LayerRole), (resolve_overlay LayerUser) by auto. done.
Qed.

(** Uploaded layers are read back without an error but for a lock file. *)
Lemma merge_layers_uploaded regular xs m e :
  Forall (uploaded regular) xs → merge_layers m xs = Err e → e = ErrLocks.
Proof.
  revert m. induction xs as [|[l [b|]] xs IH]; intros m HU; cbn [merge_layers]; [done| |].
  - apply Forall_cons in HU as [HU HX]. destruct (HU b eq_refl) as (es & out & EU & HR).
    apply door_fits in HR as [HV _]. unfold merge_layer, readValidatedLayer, takeLocks. cbn [fst snd] in *.
    rewrite EU, HV. simpl. destruct l; simpl; try by apply IH. destruct (_ !! memberLocksYML); simpl; [|by apply IH].
    destruct (yaml _ ≫= _); simpl; [by apply IH|congruence].
  - apply Forall_cons in HU as [_ HX]. by apply IH.
Qed.

Lemma uploaded_size regular d t u r m :
  Forall (uploaded regular) (layersOf d t u r) →
  merge_layers (MkMerged ∅ [] []) (layersOf d t u r) = Ok m → size (selected m) ≤ maxFileCount.
Proof.
  intros HD (_ & _ & HS & _)%merge_four. rewrite HS. etrans; [apply size_foldl|].
  change (layersOf d t u r) with
    ([(LayerDefault, d)] ++ [(LayerTenant, t)] ++ [(LayerUser, u)] ++ [(LayerRole, r)]) in *.
  rewrite !omap_app, !sum_list_with_app, map_size_empty.
  rewrite !Forall_app, !Forall_singleton in HD. destruct HD as (H1 & H2 & H3 & H4).
  apply size_decode in H1, H2, H3, H4. cbn [fst capsForLayer cap_files defaultLayerCaps overlayLayerCaps] in *.
  with_strategy transparent [maxFileCount] unfold maxFileCount. lia.
Qed.

(** Bundles that passed the upload door always merge, whatever their contents: with
    the caps of the door (2560 files in the default layer, 512 in each overlay) no layer
    is refused when it is read back and the effective bundle is within the file limit of
    4096, so the merge can fail only in an unreadable lock list or in the writer. *)
Theorem uploaded_bundles_merge regular d t u r e :
  Forall (uploaded regular) (layersOf d t u r) → MergeConfigBundles d t u r = Err e →
  e = ErrLocks ∨ e = ErrWrite.
Proof.
  intros HD. unfold MergeConfigBundles.
  destruct (merge_layers (MkMerged ∅ [] []) (layersOf d t u r)) as [m|e'|] eqn:HM; simpl; [| |done].
  - pose proof (uploaded_size _ _ _ _ _ _ HD HM) as HZ.
    assert (∀ e, writeEffectiveConfigBundle (selected m) = Err e → e = ErrWrite) as Hw.
    { intros e'. unfold writeEffectiveConfigBundle. rewrite bool_decide_false by lia. destruct (write _); congruence. }
    destruct (writeEffectiveConfigBundle (selected m)) as [b|e'|]; simpl in Hw;
      destruct d, t, u, r; simpl; try done; try (destruct (write []); [done|]; intros [= <-]; by right);
      intros [= <-]; right; by apply Hw.
  - intros [= <-]. left. by eapply merge_layers_uploaded.
Qed.

End merge.
(** * Witnesses *)

Module Sample.

Definition file (p c : string) : entry := MkEntry (lit p) (Some TypeReg) (lit c).

Definition untar (b : list entry) : option (list entry) := Some b.

(** Every locks file locks one skill. *)
Definition yaml (_ : bytes) : option (list (option bytes)) := Some [Some (lit "skills/a/")].

Definition write (fs : list (bytes * bytes)) : option (list entry) :=
  Some ((λ p, MkEntry p.1 (Some TypeReg) p.2) <$> fs).

Definition def : list entry := [file "skills/a/SKILL.md" "d"; file "skills/b/SKILL.md" "d"; file "AGENTS.md" "d"].
Definition tenant : list entry := [file "locks.yml" "x"].
Definition user : list entry := [file "skills/a/SKILL.md" "u"; file "skills/b/x.md" "u"; file "skills/b/SKILL.md" "u"].
Definition role : list entry := [file "AGENTS.md" "r"].

Definition merge := MergeConfigBundles untar yaml write (Some def) (Some tenant) (Some user) (Some role).

Definition members : list EffectiveMember :=
  [MkEffective (lit "AGENTS.md") LayerRole; MkEffective (lit "skills/a/SKILL.md") LayerDefault;
   MkEffective (lit "skills/b/SKILL.md") LayerUser; MkEffective (lit "skills/b/x.md") LayerUser].

End Sample.

Lemma merge_is_top_down_witness :
  ∃ bundle drops, Sample.merge = Ok (bundle, Sample.members, drops) ∧
  ∃ lk, ∀ e, e ∈ Sample.members ↔
    layer <$> resolve lk (reverse (omap (decode Sample.untar)
      (layersOf (Some Sample.def) (Some Sample.tenant) (Some Sample.user) (Some Sample.role)))) (Path e) = Some (Layer e).
Proof.
  eexists _, _. split; [vm_compute; reflexivity|].
  edestruct (merge_is_top_down Sample.untar Sample.yaml Sample.write (Some Sample.def) (Some Sample.tenant)
    (Some Sample.user) (Some Sample.role)) as (lk & _ & H & _); [vm_compute; reflexivity|].
  exists lk. exact H.
Defined.

Lemma locked_members_stand_witness :
  ∃ lk, Covers lk (lit "skills/a/SKILL.md") = true ∧
    (MkEffective (lit "skills/a/SKILL.md") LayerDefault ∈ Sample.members ↔
     layer <$> resolve lk (reverse (omap (decode Sample.untar)
       (layersOf (Some Sample.def) (Some Sample.tenant) None None))) (lit "skills/a/SKILL.md") = Some LayerDefault).
Proof.
  edestruct (locked_members_stand Sample.untar Sample.yaml Sample.write (Some Sample.def) Sample.tenant
    (Some Sample.user) (Some Sample.role) Sample.tenant (lit "x")) as (lk & HL & H);
    [vm_compute; reflexivity|reflexivity|vm_compute; reflexivity|].
  exists lk. vm_compute in HL. injection HL as <-. split; [vm_compute; reflexivity|].
  apply (H (MkEffective (lit "skills/a/SKILL.md") LayerDefault)); vm_compute; reflexivity.
Defined.

Lemma uploaded_bundles_merge_witness :
  Forall (uploaded Sample.untar (λ _ _, true)) (layersOf (Some Sample.def) (Some Sample.tenant) (Some Sample.user) None)
  ∧ (MergeConfigBundles Sample.untar (λ _, None) Sample.write (Some Sample.def) (Some Sample.tenant)
       (Some Sample.user) None = Err ErrLocks)
  ∧ (ErrLocks = ErrLocks ∨ ErrLocks = ErrWrite).
Proof.
  assert (Forall (uploaded Sample.untar (λ _ _, true))
    (layersOf (Some Sample.def) (Some Sample.tenant) (Some Sample.user) None)) as HU.
  { repeat constructor; intros b Hb; simpl in Hb; try done; injection Hb as <-;
      eexists _, _; (split; [reflexivity|vm_compute; reflexivity]). }
  split; [exact HU|]. split; [vm_compute; reflexivity|].
  apply (uploaded_bundles_merge Sample.untar (λ _, None) Sample.write (λ _ _, true) (Some Sample.def)
    (Some Sample.tenant) (Some Sample.user) None ErrLocks HU). vm_compute; reflexivity.
Defined.

End ConfigMerge.
