(* ===== verification/RunnerPublish.v ===== *)
(** The Runner's upstream publishing ([src/go/internal/runner/gateway/publisher.go],
    [publish.go], [session_state.go]): the sequence counter every publisher of a Runner
    link shares, the shared per-session stream, the gate that fences telemetry while a
    terminal session state is sent, and the report of that state.

    [SeqLink] is the counter with the numbers in flight.  [PublishGate] interleaves the
    critical sections of any number of [Publish] handlers, of the report and of the
    other gateways on the link.  A lock acquisition is one step with the first action
    under the lock; [Send] succeeds or fails at will, and a failed one did not reach the
    Server. *)
From stdpp Require Import base gmap strings list fin_maps fin_sets sorting.
From Stdlib Require Import ZArith Lia Sorted.
From S2P Require Import Prelude.

Open Scope Z_scope.

(** * The sequence counter *)

Module SeqLink.

(** A goroutine that allocates: a [Publish] handler, the report of a session state, or
    another gateway of the link. *)
Inductive tid := THandler (t : nat) | TReport | TForeign (t : nat).

#[export] Instance tid_eq_dec : EqDecision tid.
Proof. solve_decision. Defined.

#[export] Instance tid_countable : Countable tid.
Proof.
  refine (inj_countable' (λ t, match t with THandler n => inl n | TReport => inr (inl tt) | TForeign n => inr (inr n) end)
    (λ x, match x with inl n => THandler n | inr (inl _) => TReport | inr (inr n) => TForeign n end) _).
  by intros [].
Defined.

(** An allocated number with what it is used for: the session, the stream (none for
    another gateway), whether it carries a session state, and how often the session had
    been reopened when it was allocated. *)
Record alloc := MkAlloc {
  a_seq : Z;
  a_session : string;
  a_stream : option nat;
  a_state : bool;
  a_life : nat;
}.

(** [SeqCounter], with the numbers in flight, those sent in the order of their [Send],
    those lost to a failed [Send], and the number of allocations. *)
Record Link := MkLink {
  n : Z;
  inflight : gmap tid alloc;
  sent : list alloc;
  burned : gset Z;
  allocs : Z;
}.

Definition newLink : Link := MkLink 0 ∅ [] ∅ 0.

(** [SeqCounter.next], by goroutine [k]. *)
Definition next (k : tid) (sid : string) (stream : option nat) (st : bool) (life : nat) (l : Link) : Link :=
  let q := u64 (n l + 1) in
  MkLink q (<[k := MkAlloc q sid stream st life]> (inflight l)) (sent l) (burned l) (allocs l + 1).

Definition rollback (q : Z) (c : Z) : Z := if bool_decide (c = q) then u64 (c - 1) else c.

(** A [Send] that succeeds, and one that fails and rolls back. *)
Definition send_ok (k : tid) (l : Link) : Link :=
  match inflight l !! k with
  | Some a => MkLink (n l) (delete k (inflight l)) (sent l ++ [a]) (burned l) (allocs l)
  | None => l
  end.

Definition send_fail (k : tid) (l : Link) : Link :=
  match inflight l !! k with
  | Some a =>
      MkLink (rollback (a_seq a) (n l)) (delete k (inflight l)) (sent l)
        (if bool_decide (n l = a_seq a) then burned l else {[a_seq a]} ∪ burned l) (allocs l)
  | None => l
  end.

Definition in_use (l : Link) (a : alloc) : Prop := (∃ k, inflight l !! k = Some a) ∨ a ∈ sent l.

Definition live (l : Link) (q : Z) : Prop := ∃ a, in_use l a ∧ a_seq a = q.

Record link_ok (l : Link) : Prop := {
  k_bound : 0 ≤ n l ≤ allocs l;
  k_range q : live l q ∨ q ∈ burned l → 1 ≤ q ≤ n l;
  k_inj k1 k2 a1 a2 : inflight l !! k1 = Some a1 → inflight l !! k2 = Some a2 → a_seq a1 = a_seq a2 → k1 = k2;
  k_nodup : NoDup (a_seq <$> sent l);
  k_fresh k a : inflight l !! k = Some a → a_seq a ∉ a_seq <$> sent l;
  k_burned q : q ∈ burned l → ¬ live l q;
  k_cover q : 1 ≤ q ≤ n l → live l q ∨ q ∈ burned l;
}.

Lemma newLink_ok : link_ok newLink.
Proof.
  assert (∀ q, ¬ live newLink q) as HL.
  { intros q (a & [[k Hk]|Ha] & _); simpl in *; [by rewrite lookup_empty in Hk|set_solver]. }
  split; simpl; try lia.
  - intros q [H|H]; [by apply HL in H|set_solver].
  - intros k1 k2 a1 a2. by rewrite lookup_empty.
  - constructor.
  - intros k a. by rewrite lookup_empty.
  - intros q _. apply HL.
Qed.

Lemma in_use_next k sid stream st life l a :
  inflight l !! k = None →
  in_use (next k sid stream st life l) a ↔ a = MkAlloc (u64 (n l + 1)) sid stream st life ∨ in_use l a.
Proof.
  intros Hk. unfold in_use. simpl. split.
  - intros [[k' H]|H]; [|auto]. apply lookup_insert_Some in H as [[_ <-]|[_ H]]; eauto.
  - intros [->|[[k' H]|H]]; [left; exists k; apply lookup_insert_eq| |auto].
    left. exists k'. rewrite lookup_insert_ne; [done|congruence].
Qed.

Lemma in_use_ok k l a : in_use (send_ok k l) a ↔ in_use l a.
Proof.
  unfold send_ok. destruct (inflight l !! k) as [b|] eqn:E; [|done]. unfold in_use. simpl.
  rewrite elem_of_app, list_elem_of_singleton. split.
  - intros [[k' H]|[H| ->]]; [left; exists k'; by apply lookup_delete_Some in H as [_ H]|auto|eauto].
  - intros [[k' H]|H]; [|auto]. destruct (decide (k' = k)) as [->|Hne]; [rewrite E in H; injection H as ->; auto|].
    left. exists k'. by rewrite lookup_delete_ne.
Qed.

(** A number that stops being in flight. *)
Lemma in_use_fail k l a b :
  link_ok l → inflight l !! k = Some b → in_use (send_fail k l) a ↔ in_use l a ∧ a_seq a ≠ a_seq b.
Proof.
  intros HK E. unfold send_fail. rewrite E. unfold in_use. simpl. split.
  - intros [[k' H]|H].
    + apply lookup_delete_Some in H as [Hne H]. split; [eauto|]. intros Hs. apply Hne. by eapply k_inj.
    + split; [auto|]. intros Hs. apply (k_fresh l HK k b E). rewrite <- Hs. by apply list_elem_of_fmap_2.
  - intros [[[k' H]|H] Hs]; [|auto]. left. exists k'. rewrite lookup_delete_ne; [done|congruence].
Qed.

Lemma next_ok k sid stream st life l :
  link_ok l → inflight l !! k = None → allocs l + 1 < 2 ^ 64 →
  a_seq <$> inflight (next k sid stream st life l) !! k = Some (n l + 1) ∧ link_ok (next k sid stream st life l).
Proof.
  intros HK Hk HA. destruct (k_bound l HK) as [Hn1 Hn2].
  assert (u64 (n l + 1) = n l + 1) as EU by (apply u64_small; lia).
  assert (∀ a, in_use l a → 1 ≤ a_seq a ≤ n l) as Hr by (intros a Ha; apply (k_range l HK); left; by exists a).
  split; [simpl; rewrite lookup_insert_eq; simpl; congruence|].
  split; try (simpl; lia).
  - simpl. rewrite EU. intros q [(a & Ha & <-)|Hb].
    + apply in_use_next in Ha as [->|Ha]; [simpl; lia| |done]. apply Hr in Ha. lia.
    + pose proof (k_range l HK q (or_intror Hb)). lia.
  - simpl. rewrite EU. intros k1 k2 a1 a2 [[<- <-]|[? H1]]%lookup_insert_Some [[<- <-]|[? H2]]%lookup_insert_Some Hs; simpl in Hs.
    + done.
    + pose proof (Hr a2 ltac:(left; eauto)). lia.
    + pose proof (Hr a1 ltac:(left; eauto)). lia.
    + by eapply (k_inj l HK).
  - apply (k_nodup l HK).
  - simpl. intros k' a [[<- <-]|[? H]]%lookup_insert_Some; [|by eapply (k_fresh l HK)]. simpl. rewrite EU.
    intros (a & Hs & Ha)%list_elem_of_fmap. pose proof (Hr a ltac:(by right)). lia.
  - intros q Hq (a & Ha & <-). simpl in Hq. apply in_use_next in Ha as [->|Ha]; [| |done].
    + simpl in Hq. rewrite EU in Hq. pose proof (k_range l HK _ (or_intror Hq)). lia.
    + apply (k_burned l HK _ Hq). by exists a.
  - simpl. rewrite EU. intros q Hq. destruct (decide (q = n l + 1)) as [->|Hne].
    + left. eexists. split; [apply in_use_next; [done|by left]|]. simpl. done.
    + destruct (k_cover l HK q ltac:(lia)) as [(a & Ha & <-)|Hb]; [|auto].
      left. exists a. split; [apply in_use_next; auto|done].
Qed.

Lemma send_ok_ok k l : link_ok l → link_ok (send_ok k l).
Proof.
  intros HK. assert (∀ q, live (send_ok k l) q ↔ live l q) as HL.
  { intros q. unfold live. by setoid_rewrite in_use_ok. }
  unfold send_ok in *. destruct (inflight l !! k) as [b|] eqn:E; [|done].
  split; simpl.
  - apply (k_bound l HK).
  - intros q. rewrite HL. apply (k_range l HK).
  - intros k1 k2 a1 a2 [_ H1]%lookup_delete_Some [_ H2]%lookup_delete_Some. by eapply (k_inj l HK).
  - rewrite fmap_app. apply NoDup_app. split; [apply (k_nodup l HK)|]. split; [|apply NoDup_singleton].
    intros q Hq ->%list_elem_of_singleton. by eapply (k_fresh l HK).
  - intros k' a [Hne H]%lookup_delete_Some. rewrite fmap_app, elem_of_app. cbn [fmap list_fmap]. rewrite list_elem_of_singleton.
    intros [Hs|Hs]; [by eapply (k_fresh l HK)|]. apply Hne. by eapply (k_inj l HK).
  - intros q. rewrite HL. apply (k_burned l HK).
  - intros q. rewrite HL. apply (k_cover l HK).
Qed.

Lemma send_fail_ok k l : link_ok l → allocs l < 2 ^ 64 → link_ok (send_fail k l).
Proof.
  intros HK HA. destruct (inflight l !! k) as [b|] eqn:E; [|unfold send_fail; by rewrite E].
  assert (∀ q, live (send_fail k l) q ↔ live l q ∧ q ≠ a_seq b) as HL.
  { intros q. unfold live. setoid_rewrite (in_use_fail k l _ b HK E). naive_solver. }
  assert (live l (a_seq b)) as Hb by (exists b; split; [left; eauto|done]).
  pose proof (k_range l HK (a_seq b) (or_introl Hb)) as Hr. destruct (k_bound l HK) as [Hn1 Hn2].
  unfold send_fail, rollback in *. rewrite E in *.
  assert (u64 (n l - 1) = n l - 1) as EU by (apply u64_small; lia).
  split; simpl.
  - case_bool_decide; lia.
  - intros q [[Hq Hne]%HL|Hq].
    + pose proof (k_range l HK q (or_introl Hq)). case_bool_decide; lia.
    + case_bool_decide as Ed.
      * pose proof (k_range l HK q (or_intror Hq)). rewrite EU.
        assert (q ≠ a_seq b); [|lia]. intros ->. by apply (k_burned l HK) in Hq.
      * apply elem_of_union in Hq as [->%elem_of_singleton|Hq]; [lia|].
        apply (k_range l HK q). by right.
  - intros k1 k2 a1 a2 [_ H1]%lookup_delete_Some [_ H2]%lookup_delete_Some. by eapply (k_inj l HK).
  - apply (k_nodup l HK).
  - intros k' a [Hne H]%lookup_delete_Some. by eapply (k_fresh l HK).
  - intros q Hq [Hl Hne]%HL. case_bool_decide; [by apply (k_burned l HK) in Hq|].
    apply elem_of_union in Hq as [->%elem_of_singleton|Hq]; [done|by apply (k_burned l HK) in Hq].
  - intros q Hq. setoid_rewrite HL. destruct (decide (q = a_seq b)) as [->|Hne].
    + right. case_bool_decide as Ed; [lia|set_solver].
    + destruct (k_cover l HK q) as [Hl|Hl]; [case_bool_decide; lia|auto|].
      right. case_bool_decide; set_solver.
Qed.

End SeqLink.

(** * The gateway *)

Module PublishGate.
Import SeqLink.

(** [publishGate]; [idle] is the channel: nil, open ([Some true]) or closed. *)
Record publishGate := MkGate {
  gate_id : nat;
  draining : bool;
  sealed : bool;
  handlers : Z;
  idle : option bool;
}.

(** [sessionPublisher]: its lock, the error of opening its stream, its context. *)
Record sessionPublisher := MkPub {
  sessionID : string;
  openErr : bool;
  cancelled : bool;
  closed : bool;
  holder : option tid;
}.

(** Where a [Publish] handler is: about to take a publisher, about to close the one it
    replaced, in its receive loop, with a number in flight under the publisher's lock,
    about to detach, about to close, about to leave the gate. *)
Inductive handlerAt :=
| HBegun | HStale (p old : nat) | HOpen (p : nat) | HSend (p : nat)
| HDetach (p : nat) | HClose (p : nat) | HEnd.

(** Where the report of a session state is: waiting for the open handlers, sealed, on the
    shared stream (waiting for its lock, sending, detaching, closing), or on a stream of
    its own. *)
Inductive reportAt :=
| RDraining (gate : nat) (waits : bool) | RSealed
| RShared (p : nat) | RSharedSend (p : nat) | RSharedDetach (p : nat) | RSharedClose (p : nat)
| ROpen | ROneShot (p : nat) | ROneSend (p : nat) | ROneClose (p : nat).

(** A [Gateway] with its running calls.  [gates] counts the gates made; [life] counts how
    often a session was reopened. *)
Record Gateway := MkGateway {
  link : Link;
  publishes : gmap string publishGate;
  gates : nat;
  pub : option nat;
  publishers : gmap nat sessionPublisher;
  running : gmap nat (string * handlerAt);
  report : option (string * reportAt);
  life : gmap string nat;
}.

Definition NewGateway : Gateway := MkGateway newLink ∅ 0 None ∅ ∅ None ∅.

Definition with_link (f : Link → Link) (g : Gateway) : Gateway :=
  MkGateway (f (link g)) (publishes g) (gates g) (pub g) (publishers g) (running g) (report g) (life g).
Definition with_gates (m : gmap string publishGate) (k : nat) (g : Gateway) : Gateway :=
  MkGateway (link g) m k (pub g) (publishers g) (running g) (report g) (life g).
Definition with_pub (p : option nat) (g : Gateway) : Gateway :=
  MkGateway (link g) (publishes g) (gates g) p (publishers g) (running g) (report g) (life g).
Definition with_publishers (m : gmap nat sessionPublisher) (g : Gateway) : Gateway :=
  MkGateway (link g) (publishes g) (gates g) (pub g) m (running g) (report g) (life g).
Definition with_running (m : gmap nat (string * handlerAt)) (g : Gateway) : Gateway :=
  MkGateway (link g) (publishes g) (gates g) (pub g) (publishers g) m (report g) (life g).
Definition with_report (r : option (string * reportAt)) (g : Gateway) : Gateway :=
  MkGateway (link g) (publishes g) (gates g) (pub g) (publishers g) (running g) r (life g).

(** ** The gate *)

Definition newGate (k : nat) : publishGate := MkGate k false false 0 None.

(** The session's gate, made when there is none. *)
Definition gate_of (sid : string) (g : Gateway) : publishGate * Gateway :=
  match publishes g !! sid with
  | Some x => (x, g)
  | None => (newGate (gates g), with_gates (<[sid := newGate (gates g)]> (publishes g)) (S (gates g)) g)
  end.

Definition set_gate (sid : string) (x : publishGate) (g : Gateway) : Gateway :=
  with_gates (<[sid := x]> (publishes g)) (gates g) g.

(** Refused when the session is draining or sealed. *)
Definition beginPublish (sid : string) (g : Gateway) : option Gateway :=
  let '(x, g) := gate_of sid g in
  if draining x || sealed x then None
  else Some (set_gate sid
    (MkGate (gate_id x) (draining x) (sealed x) (handlers x + 1)
       (if bool_decide (handlers x = 0) then Some true else idle x)) g).

(** Closing a nil or closed channel panics. *)
Definition endPublish (sid : string) (g : Gateway) : result unit Gateway :=
  match publishes g !! sid with
  | None => Ok g
  | Some x =>
      let h := handlers x - 1 in
      if bool_decide (h = 0) then
        match idle x with
        | Some true =>
            if negb (draining x) && negb (sealed x) then Ok (with_gates (delete sid (publishes g)) (gates g) g)
            else Ok (set_gate sid (MkGate (gate_id x) (draining x) (sealed x) h (Some false)) g)
        | _ => Panic
        end
      else Ok (set_gate sid (MkGate (gate_id x) (draining x) (sealed x) h (idle x)) g)
  end.

(** [admitFrame] for a frame of goroutine [k] on stream [p]. *)
Definition admitFrame (sid : string) (k : tid) (p : nat) (g : Gateway) : option Gateway :=
  match publishes g !! sid with
  | Some (MkGate _ _ true _ _) => None
  | _ => Some (with_link (next k sid (Some p) false (mget 0%nat (life g) sid)) g)
  end.

(** [fencePublishes] up to its wait, the wait for the [idle] channel it found there, and
    the seal after it; the seal is set on the gate found at the start. *)
Definition fence_begin (sid : string) (g : Gateway) : reportAt * Gateway :=
  let '(x, g) := gate_of sid g in
  (RDraining (gate_id x) (bool_decide (0 < handlers x)),
   set_gate sid (MkGate (gate_id x) true (sealed x) (handlers x) (idle x)) g).

Definition fence_waits (sid : string) (gate : nat) (waits : bool) (g : Gateway) : bool :=
  waits && match publishes g !! sid with
           | Some x => negb (bool_decide (gate_id x = gate ∧ idle x = Some false))
           | None => true
           end.

Definition fence_seal (sid : string) (gate : nat) (g : Gateway) : Gateway :=
  match publishes g !! sid with
  | Some x =>
      if bool_decide (gate_id x = gate)
      then set_gate sid (MkGate (gate_id x) (draining x) true (handlers x) (idle x)) g
      else g
  | None => g
  end.

(** [unfencePublishes], when the session is bound again. *)
Definition unfencePublishes (sid : string) (g : Gateway) : Gateway :=
  let g' := MkGateway (link g) (publishes g) (gates g) (pub g) (publishers g) (running g) (report g)
              (<[sid := S (mget 0%nat (life g) sid)]> (life g)) in
  match publishes g !! sid with
  | None => g'
  | Some x =>
      if bool_decide (handlers x = 0) then with_gates (delete sid (publishes g)) (gates g) g'
      else set_gate sid (MkGate (gate_id x) false false (handlers x) (idle x)) g'
  end.

(** ** Publishers *)

Definition newSessionPublisher (sid : string) (fails : bool) : sessionPublisher :=
  MkPub sid fails fails false None.

(** The shared publisher of the session, and the one it replaces. *)
Definition acquirePublisher (sid : string) (fresh : nat) (fails : bool) (g : Gateway)
    : nat * option nat * Gateway :=
  let stale := match pub g with
               | Some p => match publishers g !! p with
                           | Some x => if negb (bool_decide (sessionID x = sid)) || cancelled x then Some p else None
                           | None => None
                           end
               | None => None
               end in
  match pub g, stale with
  | Some p, None => (p, None, g)
  | _, _ => (fresh, stale, with_pub (Some fresh)
               (with_publishers (<[fresh := newSessionPublisher sid fails]> (publishers g)) g))
  end.

Definition sharedPublisher (sid : string) (g : Gateway) : option nat :=
  p ← pub g; x ← publishers g !! p; if bool_decide (sessionID x = sid) then Some p else None.

Definition detachPublisher (p : nat) (g : Gateway) : Gateway :=
  if bool_decide (pub g = Some p) then with_pub None g else g.

Definition set_holder (p : nat) (h : option tid) (g : Gateway) : Gateway :=
  with_publishers (alter (λ x, MkPub (sessionID x) (openErr x) (cancelled x) (closed x) h) p (publishers g)) g.

(** [close] under the lock. *)
Definition close (p : nat) (g : Gateway) : Gateway :=
  with_publishers (alter (λ x, MkPub (sessionID x) (openErr x) true true (holder x)) p (publishers g)) g.

Definition cancel (p : nat) (g : Gateway) : Gateway :=
  with_publishers (alter (λ x, MkPub (sessionID x) (openErr x) true (closed x) (holder x)) p (publishers g)) g.

Definition free (p : nat) (g : Gateway) : bool :=
  match publishers g !! p with Some x => bool_decide (holder x = None) | None => false end.

(** ** Steps *)

Inductive label :=
| LBegin (t : nat) (sid : string) | LAcquire (t fresh : nat) (fails : bool) | LCloseStale (t : nat)
| LForward (t : nat) | LSend (t : nat) (ok : bool) | LEof (t : nat) | LDetach (t : nat) | LClose (t : nat)
| LEnd (t : nat)
| LFence (sid : string) | LSeal (timeout : bool) | LShared | LState | LStateSend (ok : bool)
| LStateDetach | LStateClose | LOneShot (fresh : nat) (fails : bool) | LReopen (sid : string)
| LCancel (p : nat)
| LForeign (t : nat) (sid : string) (st : bool) | LForeignSend (t : nat) (ok : bool).

Definition goto (t : nat) (sid : string) (a : handlerAt) (g : Gateway) : Gateway :=
  with_running (<[t := (sid, a)]> (running g)) g.

(** The end of a [Send] under the lock of [p]. *)
Definition sent_by (k : tid) (p : nat) (ok : bool) (g : Gateway) : Gateway :=
  set_holder p None (with_link (if ok then send_ok k else send_fail k) g).

(** [openErr] makes a send fail. *)
Definition can_send (p : nat) (ok : bool) (g : Gateway) : bool :=
  negb ok || match publishers g !! p with Some x => negb (openErr x) | None => false end.

(** A step of handler [t], which is at [a] for session [sid]. *)
Definition handler_step (l : label) (t : nat) (sid : string) (a : handlerAt) (g : Gateway) : option Gateway :=
  match l, a with
  | LAcquire _ fresh fails, HBegun =>
      if bool_decide (publishers g !! fresh = None) then
        let '(p, stale, g') := acquirePublisher sid fresh fails g in
        Some (goto t sid (match stale with Some old => HStale p old | None => HOpen p end) g')
      else None
  | LCloseStale _, HStale p old =>
      if free old g then Some (goto t sid (HOpen p) (close old g)) else None
  | LForward _, HOpen p =>
      if free p g then
        match publishers g !! p with
        | Some x =>
            match admitFrame (sessionID x) (THandler t) p g with
            | Some g' => Some (goto t sid (HSend p) (set_holder p (Some (THandler t)) g'))
            | None => Some (goto t sid (HDetach p) g)
            end
        | None => None
        end
      else None
  | LSend _ ok, HSend p =>
      if can_send p ok g
      then Some (goto t sid (if ok then HOpen p else HDetach p) (sent_by (THandler t) p ok g))
      else None
  | LEof _, HOpen p => Some (goto t sid (HDetach p) g)
  | LDetach _, HDetach p => Some (goto t sid (HClose p) (detachPublisher p g))
  | LClose _, HClose p => if free p g then Some (goto t sid HEnd (close p g)) else None
  | LEnd _, HEnd =>
      match endPublish sid g with
      | Ok g' => Some (with_running (delete t (running g)) g')
      | _ => None
      end
  | _, _ => None
  end.

(** A step of the report of session [sid]. *)
Definition report_step (l : label) (sid : string) (a : reportAt) (g : Gateway) : option Gateway :=
  let at_ x := with_report (Some (sid, x)) in
  let lf := mget 0%nat (life g) sid in
  match l, a with
  | LSeal timeout, RDraining gate waits =>
      if negb timeout && fence_waits sid gate waits g then None else Some (at_ RSealed (fence_seal sid gate g))
  | LShared, RSealed =>
      Some (at_ (match sharedPublisher sid g with Some p => RShared p | None => ROpen end) g)
  | LState, RShared p =>
      if free p g then
        match publishers g !! p with
        | Some x => if cancelled x then Some (at_ ROpen g)
                    else Some (at_ (RSharedSend p)
                           (set_holder p (Some TReport) (with_link (next TReport (sessionID x) (Some p) true lf) g)))
        | None => None
        end
      else None
  | LStateSend ok, RSharedSend p =>
      if can_send p ok g
      then Some (at_ (if ok then RSharedDetach p else ROpen) (sent_by TReport p ok g))
      else None
  | LStateDetach, RSharedDetach p => Some (at_ (RSharedClose p) (detachPublisher p g))
  | LStateClose, RSharedClose p => if free p g then Some (with_report None (close p g)) else None
  | LOneShot fresh fails, ROpen =>
      if bool_decide (publishers g !! fresh = None)
      then Some (at_ (ROneShot fresh)
             (with_publishers (<[fresh := newSessionPublisher sid fails]> (publishers g)) g))
      else None
  | LState, ROneShot p =>
      if free p g
      then Some (at_ (ROneSend p)
             (set_holder p (Some TReport) (with_link (next TReport sid (Some p) true lf) g)))
      else None
  | LStateSend ok, ROneSend p =>
      if can_send p ok g then Some (at_ (ROneClose p) (sent_by TReport p ok g)) else None
  | LStateClose, ROneClose p => if free p g then Some (with_report None (close p g)) else None
  | _, _ => None
  end.

(** The transition lock of the container orders reports and [BindSession], so a report
    begins, and a session is reopened, only when no report runs. *)
Definition exec (l : label) (g : Gateway) : option Gateway :=
  match l with
  | LBegin t sid =>
      match running g !! t with
      | None => goto t sid HBegun <$> beginPublish sid g
      | Some _ => None
      end
  | LAcquire t _ _ | LCloseStale t | LForward t | LSend t _ | LEof t | LDetach t | LClose t | LEnd t =>
      match running g !! t with Some (sid, a) => handler_step l t sid a g | None => None end
  | LFence sid =>
      match report g with
      | None => let '(a, g') := fence_begin sid g in Some (with_report (Some (sid, a)) g')
      | Some _ => None
      end
  | LSeal _ | LShared | LState | LStateSend _ | LStateDetach | LStateClose | LOneShot _ _ =>
      match report g with Some (sid, a) => report_step l sid a g | None => None end
  | LReopen sid => match report g with None => Some (unfencePublishes sid g) | Some _ => None end
  | LCancel p => Some (cancel p g)
  | LForeign t sid st =>
      match inflight (link g) !! TForeign t with
      | None => Some (with_link (next (TForeign t) sid None st 0) g)
      | Some _ => None
      end
  | LForeignSend t ok => Some (with_link (if ok then send_ok (TForeign t) else send_fail (TForeign t)) g)
  end.

Inductive reachable : Gateway → Prop :=
| reach_new : reachable NewGateway
| reach_step g l g' : reachable g → exec l g = Some g' → reachable g'.

(** ** Who sends on which stream *)

Definition sending (g : Gateway) (k : tid) : option nat :=
  match k with
  | THandler t => match running g !! t with Some (_, HSend p) => Some p | _ => None end
  | TReport => match report g with Some (_, RSharedSend p) | Some (_, ROneSend p) => Some p | _ => None end
  | TForeign _ => None
  end.

(** A goroutine that sends holds the lock of its stream and has one number in flight on
    it; nothing else is in flight. *)
Record lock_ok (g : Gateway) : Prop := {
  l_held k p : sending g k = Some p →
    (∃ x, publishers g !! p = Some x ∧ holder x = Some k) ∧
    (∃ a, inflight (link g) !! k = Some a);
  l_stream k a : inflight (link g) !! k = Some a →
    a_stream a = sending g k ∧ (a_stream a = None → ∃ t, k = TForeign t);
}.

(** [g'] has the publishers of [g] with the same sessions and locks. *)
Definition same_locks (g g' : Gateway) : Prop :=
  ∀ p x, publishers g !! p = Some x →
    ∃ x', publishers g' !! p = Some x' ∧ holder x' = holder x ∧ sessionID x' = sessionID x.

Lemma lock_frame g g' :
  lock_ok g → link g' = link g → (∀ k, sending g' k = sending g k) → same_locks g g' → lock_ok g'.
Proof.
  intros [H1 H2] HL HS HP. split; intros k; rewrite ?HL, HS; [|apply H2].
  intros p Hp. destruct (H1 k p Hp) as [(x & Hx & Hh) Ha]. split; [|done].
  destruct (HP p x Hx) as (x' & Hx' & Hh' & _). exists x'. split; congruence.
Qed.

Lemma sending_goto t sid a g k :
  sending (goto t sid a g) k =
  if decide (k = THandler t) then match a with HSend p => Some p | _ => None end else sending g k.
Proof.
  destruct k as [t'| |t']; simpl; [|done|done]. case_decide as E.
  - injection E as ->. rewrite lookup_insert_eq. by destruct a.
  - rewrite lookup_insert_ne by congruence. done.
Qed.

Lemma same_locks_refl g g' : publishers g' = publishers g → same_locks g g'.
Proof. intros E p x Hx. rewrite E. eauto. Qed.

Lemma same_locks_alter (f : sessionPublisher → sessionPublisher) q g :
  (∀ x, holder (f x) = holder x ∧ sessionID (f x) = sessionID x) →
  ∀ p x, publishers g !! p = Some x →
    ∃ x', alter f q (publishers g) !! p = Some x' ∧ holder x' = holder x ∧ sessionID x' = sessionID x.
Proof.
  intros Hf p x Hx. destruct (decide (q = p)) as [->|Hne].
  - rewrite lookup_alter_eq, Hx. eexists. split; [done|apply Hf].
  - rewrite lookup_alter_ne by done. eauto.
Qed.

Lemma same_locks_insert q y g :
  publishers g !! q = None →
  ∀ p x, publishers g !! p = Some x →
    ∃ x', <[q := y]> (publishers g) !! p = Some x' ∧ holder x' = holder x ∧ sessionID x' = sessionID x.
Proof. intros Hq p x Hx. rewrite lookup_insert_ne by congruence. eauto. Qed.

(** Taking a lock with a number, and giving it back. *)
Lemma lock_take g g' k p sid st lf x :
  lock_ok g → publishers g !! p = Some x → holder x = None →
  sending g k = None → sending g' k = Some p → (∀ k', k' ≠ k → sending g' k' = sending g k') →
  link g' = next k sid (Some p) st lf (link g) →
  publishers g' = publishers (set_holder p (Some k) g) → lock_ok g'.
Proof.
  intros [H1 H2] Hx Hh HN HS HO HL HP. split.
  - intros k' p' Hp. rewrite HL, HP. simpl. destruct (decide (k' = k)) as [->|Hne].
    + assert (p' = p) as -> by congruence. rewrite lookup_alter_eq, Hx, lookup_insert_eq. simpl. eauto.
    + rewrite HO in Hp by done. destruct (H1 k' p' Hp) as [(x' & Hx' & Hh') Ha].
      rewrite lookup_alter_ne, lookup_insert_ne by congruence. eauto.
  - intros k' a. rewrite HL. simpl. intros [[<- <-]|[Hne Ha]]%lookup_insert_Some; [by rewrite HS|].
    rewrite HO by done. by apply H2.
Qed.

Lemma lock_give g g' k p (ok : bool) :
  lock_ok g → sending g k = Some p → sending g' k = None →
  (∀ k', k' ≠ k → sending g' k' = sending g k') →
  link g' = (if ok then send_ok k else send_fail k : Link → Link) (link g) →
  publishers g' = publishers (set_holder p None g) → lock_ok g'.
Proof.
  intros [H1 H2] HS HS' HO HL HP. destruct (H1 k p HS) as [(x & Hx & Hh) [a Ha]].
  assert (inflight (link g') = delete k (inflight (link g))) as EI.
  { rewrite HL. unfold send_ok, send_fail. destruct ok; by rewrite Ha. }
  split.
  - intros k' p' Hp. destruct (decide (k' = k)) as [->|Hne]; [congruence|]. rewrite HO in Hp by done.
    destruct (H1 k' p' Hp) as [(x' & Hx' & Hh') Ha']. rewrite EI, HP. simpl.
    rewrite lookup_alter_ne, lookup_delete_ne by congruence. eauto.
  - intros k' b. rewrite EI. intros [Hne Hb]%lookup_delete_Some. rewrite HO by congruence. by apply H2.
Qed.

(** ** Seals *)

Definition sealed_at (g : Gateway) (sid : string) : Prop :=
  ∃ x, publishes g !! sid = Some x ∧ sealed x = true.

(** A fenced gate stays in the table as long as its session is not reopened. *)
Definition gates_keep (g g' : Gateway) : Prop :=
  ∀ sid x, publishes g !! sid = Some x → draining x = true ∨ sealed x = true →
    ∃ x', publishes g' !! sid = Some x' ∧ gate_id x' = gate_id x
      ∧ (draining x = true → draining x' = true) ∧ (sealed x = true → sealed x' = true).

Lemma sealed_keep g g' sid : gates_keep g g' → sealed_at g sid → sealed_at g' sid.
Proof. intros HG (x & Hx & Hs). destruct (HG sid x Hx (or_intror Hs)) as (x' & ? & _ & _ & ?). exists x'. auto. Qed.

Lemma gates_keep_refl g g' : publishes g' = publishes g → gates_keep g g'.
Proof. intros E sid x Hx _. rewrite E. eauto. Qed.

(** Replacing one gate by one that is at least as fenced. *)
Lemma gates_keep_insert g g' sid y :
  publishes g' = <[sid := y]> (publishes g) →
  (∀ x, publishes g !! sid = Some x → gate_id y = gate_id x
     ∧ (draining x = true → draining y = true) ∧ (sealed x = true → sealed y = true)) →
  gates_keep g g'.
Proof.
  intros E Hy sid' x Hx _. rewrite E. destruct (decide (sid = sid')) as [<-|Hne].
  - rewrite lookup_insert_eq. destruct (Hy x Hx) as (? & ? & ?). eauto.
  - rewrite lookup_insert_ne by done. eauto.
Qed.

(** The report of a session state runs under a fence of its session. *)
Definition report_ok (g : Gateway) : Prop :=
  match report g with
  | None => True
  | Some (sid, RDraining gate _) =>
      ∃ x, publishes g !! sid = Some x ∧ gate_id x = gate ∧ draining x = true
  | Some (sid, a) =>
      sealed_at g sid ∧
      match a with
      | RShared p | RSharedSend p | ROneShot p | ROneSend p =>
          ∃ x, publishers g !! p = Some x ∧ sessionID x = sid
      | _ => True
      end
  end.

Definition keeps_sessions (g g' : Gateway) : Prop :=
  ∀ p x, publishers g !! p = Some x → ∃ x', publishers g' !! p = Some x' ∧ sessionID x' = sessionID x.

Lemma report_frame g g' :
  report_ok g → report g' = report g → gates_keep g g' → keeps_sessions g g' → report_ok g'.
Proof.
  unfold report_ok. intros HR -> HG HP. destruct (report g) as [[sid a]|]; [|done].
  assert (∀ p, (∃ x, publishers g !! p = Some x ∧ sessionID x = sid) →
    ∃ x, publishers g' !! p = Some x ∧ sessionID x = sid) as HP'.
  { intros p (x & Hx & <-). destruct (HP p x Hx) as (x' & ? & ?). eauto. }
  destruct a; try (destruct HR as [HR HX]; split; [by eapply sealed_keep|auto]).
  destruct HR as (x & Hx & Hi & Hd). destruct (HG sid x Hx (or_introl Hd)) as (x' & ? & ? & ? & _).
  exists x'. split; [done|]. split; [congruence|auto].
Qed.

(** ** What a step does to the link *)

Inductive move (g g' : Gateway) : Prop :=
| MQuiet : link g' = link g → life g' = life g → gates_keep g g' →
    (∀ k, sending g' k = sending g k) → same_locks g g' → move g g'
| MTake k p x st :
    publishers g !! p = Some x → holder x = None → sending g k = None → sending g' k = Some p →
    (∀ k', k' ≠ k → sending g' k' = sending g k') →
    link g' = next k (sessionID x) (Some p) st (mget 0%nat (life g) (sessionID x)) (link g) →
    (if st then sealed_at g (sessionID x) else ¬ sealed_at g (sessionID x)) →
    (∀ t, k ≠ TForeign t) →
    publishers g' = publishers (set_holder p (Some k) g) → publishes g' = publishes g → life g' = life g →
    move g g'
| MGive k p ok :
    sending g k = Some p → sending g' k = None → (∀ k', k' ≠ k → sending g' k' = sending g k') →
    link g' = (if ok : bool then send_ok k else send_fail k) (link g) →
    publishers g' = publishers (set_holder p None g) → publishes g' = publishes g → life g' = life g →
    move g g'
| MForeign t sid st : inflight (link g) !! TForeign t = None →
    g' = with_link (next (TForeign t) sid None st 0) g → move g g'
| MForeignSend t ok : g' = with_link (if ok : bool then send_ok (TForeign t) else send_fail (TForeign t)) g → move g g'
| MReopen sid : report g = None → g' = unfencePublishes sid g → move g g'.

Definition sends (a : handlerAt) : option nat := match a with HSend p => Some p | _ => None end.

Lemma sending_handler g t sid a : running g !! t = Some (sid, a) → sending g (THandler t) = sends a.
Proof. intros H. simpl. rewrite H. by destruct a. Qed.

Lemma sending_running g g' :
  running g' = running g → report g' = report g → ∀ k, sending g' k = sending g k.
Proof. intros E1 E2 []; simpl; by rewrite ?E1, ?E2. Qed.

(** A handler moves on without a lock. *)
Lemma quiet_handler t sid a b g g1 :
  running g !! t = Some (sid, a) → sends a = None → sends b = None →
  link g1 = link g → life g1 = life g → running g1 = running g → report g1 = report g →
  gates_keep g g1 → same_locks g g1 → move g (goto t sid b g1).
Proof.
  intros Ht Ha Hb HL HF HR HT HG HP. apply MQuiet; [done|done|done| |done].
  intros k. rewrite sending_goto. case_decide as E.
  - subst k. rewrite (sending_handler _ _ _ _ Ht), Ha. exact Hb.
  - by apply sending_running.
Qed.

Lemma begin_spec sid g g' :
  beginPublish sid g = Some g' →
  let x := default (newGate (gates g)) (publishes g !! sid) in
  draining x = false ∧ sealed x = false ∧
  ∃ k, g' = with_gates (<[sid := MkGate (gate_id x) false false (handlers x + 1)
              (if bool_decide (handlers x = 0) then Some true else idle x)]> (publishes g)) k g.
Proof.
  unfold beginPublish, gate_of. destruct (publishes g !! sid) as [x|] eqn:E; simpl.
  - destruct (draining x) eqn:Ed; [done|]. destruct (sealed x) eqn:Es; [done|]. simpl. intros [= <-].
    split; [done|]. split; [done|]. by exists (gates g).
  - intros [= <-]. split; [done|]. split; [done|]. exists (S (gates g)).
    unfold set_gate, with_gates. simpl. by rewrite insert_insert_eq.
Qed.

Lemma fence_spec sid g a g' :
  fence_begin sid g = (a, g') →
  let x := default (newGate (gates g)) (publishes g !! sid) in
  a = RDraining (gate_id x) (bool_decide (0 < handlers x)) ∧
  ∃ k, g' = with_gates (<[sid := MkGate (gate_id x) true (sealed x) (handlers x) (idle x)]> (publishes g)) k g.
Proof.
  unfold fence_begin, gate_of. destruct (publishes g !! sid) as [x|] eqn:E; simpl; intros [= <- <-].
  - split; [done|]. by exists (gates g).
  - split; [done|]. exists (S (gates g)). unfold set_gate, with_gates. simpl. by rewrite insert_insert_eq.
Qed.

Lemma acquire_spec sid fresh fails g p stale g' :
  acquirePublisher sid fresh fails g = (p, stale, g') → publishers g !! fresh = None →
  link g' = link g ∧ life g' = life g ∧ running g' = running g ∧ report g' = report g
  ∧ publishes g' = publishes g ∧ same_locks g g'.
Proof.
  intros H Hf. unfold acquirePublisher in H.
  assert (g' = g ∨ g' = with_pub (Some fresh)
    (with_publishers (<[fresh := newSessionPublisher sid fails]> (publishers g)) g)) as [->| ->].
  { destruct (pub g) as [q|]; [|right; congruence]. destruct (publishers g !! q) as [x|]; [|left; congruence].
    destruct (negb (bool_decide (sessionID x = sid)) || cancelled x); [right|left]; congruence. }
  - do 5 (split; [done|]). by apply same_locks_refl.
  - do 5 (split; [done|]). intros q x. by apply same_locks_insert.
Qed.

Lemma end_spec sid g g' :
  endPublish sid g = Ok g' →
  ∃ m, g' = with_gates m (gates g) g ∧ gates_keep g g'.
Proof.
  unfold endPublish. destruct (publishes g !! sid) as [x|] eqn:E.
  - case_bool_decide.
    + destruct (idle x) as [[]|]; [|done|done]. destruct (negb (draining x) && negb (sealed x)) eqn:EN.
      * intros [= <-]. eexists. split; [done|]. intros sid' y Hy [Hd|Hd]; simpl;
          (destruct (decide (sid = sid')) as [<-|Hne]; [|rewrite lookup_delete_ne by done; eauto]);
          assert (y = x) as -> by congruence; rewrite Hd in EN; simpl in EN; [done|by rewrite andb_false_r in EN].
      * intros [= <-]. eexists. split; [done|]. eapply gates_keep_insert; [done|]. intros y Hy.
        assert (y = x) as -> by congruence. done.
    + intros [= <-]. eexists. split; [done|]. eapply gates_keep_insert; [done|]. intros y Hy.
      assert (y = x) as -> by congruence. done.
  - intros [= <-]. exists (publishes g). split; [by destruct g|by apply gates_keep_refl].
Qed.

Lemma admit_spec sid k p g g' :
  admitFrame sid k p g = Some g' →
  ¬ sealed_at g sid ∧ g' = with_link (next k sid (Some p) false (mget 0%nat (life g) sid)) g.
Proof.
  unfold admitFrame. destruct (publishes g !! sid) as [[i d [] h c]|] eqn:E; [done| |]; intros [= <-]; (split; [|done]).
  - intros (x & Hx & Hs). assert (x = MkGate i d false h c) as -> by congruence. done.
  - intros (x & Hx & Hs). congruence.
Qed.

Lemma free_spec p g : free p g = true ↔ ∃ x, publishers g !! p = Some x ∧ holder x = None.
Proof.
  unfold free. destruct (publishers g !! p) as [x|]; [|naive_solver]. rewrite bool_decide_eq_true. naive_solver.
Qed.

Lemma handler_moves l t sid a g g' :
  running g !! t = Some (sid, a) → handler_step l t sid a g = Some g' → move g g'.
Proof.
  intros Ht H. destruct l, a; try discriminate H; cbn [handler_step] in H.
  - case_bool_decide; [|done]. destruct (acquirePublisher _ _ _ g) as [[p stale] g1] eqn:EA.
    apply acquire_spec in EA as (? & ? & ? & ? & ? & ?); [|done].
    injection H as <-. eapply quiet_handler; try done; [by destruct stale|by apply gates_keep_refl].
  - destruct (free old g); [|done]. injection H as <-. eapply quiet_handler; try done; [by apply gates_keep_refl|].
    intros q x Hx. by apply same_locks_alter.
  - destruct (free p g) eqn:EF; [|done]. apply free_spec in EF as (x & Hx & Hh). rewrite Hx in H.
    destruct (admitFrame (sessionID x) (THandler t) p g) as [g1|] eqn:EA; injection H as <-.
    + apply admit_spec in EA as [Hs ->].
      eapply (MTake _ _ (THandler t) p x false); try done; [by rewrite (sending_handler _ _ _ _ Ht)|..].
      * rewrite sending_goto. by rewrite decide_True.
      * intros k' Hk. rewrite sending_goto, decide_False by done. by apply sending_running.
    + eapply quiet_handler; try done; [by apply gates_keep_refl|by apply same_locks_refl].
  - destruct (can_send p ok g); [|done]. injection H as <-.
    eapply (MGive _ _ (THandler t) p ok); try done; [by rewrite (sending_handler _ _ _ _ Ht)|..].
    + rewrite sending_goto, decide_True by done. by destruct ok.
    + intros k' Hk. rewrite sending_goto, decide_False by done. by apply sending_running.
  - injection H as <-. eapply quiet_handler; try done; [by apply gates_keep_refl|by apply same_locks_refl].
  - injection H as <-. unfold detachPublisher. case_bool_decide;
      (eapply quiet_handler; try done; [by apply gates_keep_refl|by apply same_locks_refl]).
  - destruct (free p g); [|done]. injection H as <-. eapply quiet_handler; try done; [by apply gates_keep_refl|].
    intros q x Hx. by apply same_locks_alter.
  - destruct (endPublish sid g) as [g1| |] eqn:EE; [|done|done]. apply end_spec in EE as (m & -> & HG). injection H as <-.
    apply MQuiet; try done; [|by apply same_locks_refl].
    intros [t'| |]; simpl; try done. destruct (decide (t = t')) as [<-|Hne].
    + by rewrite lookup_delete_eq, Ht.
    + by rewrite lookup_delete_ne.
Qed.

Definition reports (a : reportAt) : option nat :=
  match a with RSharedSend p | ROneSend p => Some p | _ => None end.

Lemma sending_report g sid a : report g = Some (sid, a) → sending g TReport = reports a.
Proof. intros H. simpl. rewrite H. by destruct a. Qed.

Definition none_or (sid : string) (b : option reportAt) : option (string * reportAt) := pair sid <$> b.

Lemma sending_with_report sid b g k :
  sending (with_report (none_or sid b) g) k =
  if decide (k = TReport) then b ≫= reports else sending g k.
Proof.
  case_decide as E; [subst k; by destruct b as [[]|]|by destruct k].
Qed.

Lemma sending_report_at sid b g k :
  sending (with_report (Some (sid, b)) g) k = if decide (k = TReport) then reports b else sending g k.
Proof. exact (sending_with_report sid (Some b) g k). Qed.

(** The report moves on without a lock. *)
Lemma quiet_report sid a b g g1 :
  report g = Some (sid, a) → reports a = None → b ≫= reports = None →
  link g1 = link g → life g1 = life g → running g1 = running g → report g1 = report g →
  gates_keep g g1 → same_locks g g1 → move g (with_report (none_or sid b) g1).
Proof.
  intros Ht Ha Hb HL HF HR HT HG HP. apply MQuiet; [done|done|done| |done].
  intros k. rewrite sending_with_report. case_decide as E.
  - subst k. by rewrite (sending_report _ _ _ Ht), Ha.
  - by apply sending_running.
Qed.

(** The report takes the lock of a stream with the number of its state. *)
Lemma take_report sid a b p x g :
  report g = Some (sid, a) → reports a = None → reports b = Some p →
  publishers g !! p = Some x → holder x = None → sessionID x = sid → sealed_at g sid →
  move g (with_report (Some (sid, b)) (set_holder p (Some TReport)
    (with_link (next TReport sid (Some p) true (mget 0%nat (life g) sid)) g))).
Proof.
  intros Ht Ha Hb Hx Hh <- Hs. eapply (MTake _ _ TReport p x true); try done.
  - by rewrite (sending_report _ _ _ Ht).
  - intros k Hk. rewrite sending_report_at, decide_False by done. by apply sending_running.
Qed.

Lemma give_report sid a b p ok g :
  report g = Some (sid, a) → reports a = Some p → reports b = None →
  move g (with_report (Some (sid, b)) (sent_by TReport p ok g)).
Proof.
  intros Ht Ha Hb. eapply (MGive _ _ TReport p ok); try done.
  - by rewrite (sending_report _ _ _ Ht).
  - intros k Hk. rewrite sending_report_at, decide_False by done. by apply sending_running.
Qed.

Lemma gates_keep_seal sid gate g : gates_keep g (fence_seal sid gate g).
Proof.
  unfold fence_seal. destruct (publishes g !! sid) as [x|] eqn:E; [|by apply gates_keep_refl].
  case_bool_decide; [|by apply gates_keep_refl]. eapply gates_keep_insert; [done|].
  intros y Hy. assert (y = x) as -> by congruence. done.
Qed.

Lemma report_moves l sid a g g' :
  report g = Some (sid, a) → report_ok g → report_step l sid a g = Some g' → move g g'.
Proof.
  intros Ht HR H. unfold report_ok in HR. rewrite Ht in HR.
  destruct l, a; try discriminate H; cbn [report_step] in H.
  - destruct (negb timeout && _); [done|]. injection H as <-.
    eapply (quiet_report sid _ (Some RSealed)); try done; try (unfold fence_seal; by repeat case_match).
    + apply gates_keep_seal.
    + apply same_locks_refl. unfold fence_seal. by repeat case_match.
  - injection H as <-. destruct (sharedPublisher sid g) as [p|];
      [eapply (quiet_report sid _ (Some (RShared p)))|eapply (quiet_report sid _ (Some ROpen))]; try done;
      (by apply gates_keep_refl) || (by apply same_locks_refl).
  - destruct HR as (Hs & x & Hx & Hsid). destruct (free p g) eqn:EF; [|done].
    apply free_spec in EF as (y & Hy & Hh). assert (y = x) as -> by congruence. rewrite Hx in H.
    destruct (cancelled x); injection H as <-.
    + eapply (quiet_report sid _ (Some ROpen)); try done; (by apply gates_keep_refl) || (by apply same_locks_refl).
    + rewrite Hsid. by eapply take_report.
  - destruct HR as (Hs & x & Hx & Hsid). destruct (free p g) eqn:EF; [|done].
    apply free_spec in EF as (y & Hy & Hh). assert (y = x) as -> by congruence. injection H as <-.
    by eapply take_report.
  - destruct (can_send p ok g); [|done]. injection H as <-. by destruct ok; eapply give_report.
  - destruct (can_send p ok g); [|done]. injection H as <-. by eapply give_report.
  - injection H as <-. unfold detachPublisher. case_bool_decide;
      (eapply (quiet_report sid _ (Some (RSharedClose p))); try done; (by apply gates_keep_refl) || (by apply same_locks_refl)).
  - destruct (free p g); [|done]. injection H as <-.
    eapply (quiet_report sid _ None); try done; [by apply gates_keep_refl|]. intros q x. by apply same_locks_alter.
  - destruct (free p g); [|done]. injection H as <-.
    eapply (quiet_report sid _ None); try done; [by apply gates_keep_refl|]. intros q x. by apply same_locks_alter.
  - case_bool_decide; [|done]. injection H as <-.
    eapply (quiet_report sid _ (Some (ROneShot fresh))); try done; [by apply gates_keep_refl|].
    intros q x. by apply same_locks_insert.
Qed.

Lemma keeps_same g g' : publishers g' = publishers g → keeps_sessions g g'.
Proof. intros E p x Hx. rewrite E. eauto. Qed.

Lemma keeps_alter (f : sessionPublisher → sessionPublisher) q g g' :
  publishers g' = alter f q (publishers g) → (∀ x, sessionID (f x) = sessionID x) → keeps_sessions g g'.
Proof.
  intros E Hf p x Hx. rewrite E. destruct (decide (q = p)) as [->|Hne].
  - rewrite lookup_alter_eq, Hx. eauto.
  - rewrite lookup_alter_ne by done. eauto.
Qed.

Lemma move_sessions g g' : move g g' → keeps_sessions g g'.
Proof.
  intros [? ? ? ? HP|k p x st ? ? ? ? ? ? ? ? HP ? ?|k p ok ? ? ? ? HP ? ?|t sid st ? ->|t ok ->|sid _ ->].
  - intros p x Hx. destruct (HP p x Hx) as (x' & ? & ? & ?). eauto.
  - eapply keeps_alter; [exact HP|done].
  - eapply keeps_alter; [exact HP|done].
  - by apply keeps_same.
  - by apply keeps_same.
  - apply keeps_same. unfold unfencePublishes. by repeat case_match.
Qed.

Lemma shared_spec sid g p : sharedPublisher sid g = Some p → ∃ x, publishers g !! p = Some x ∧ sessionID x = sid.
Proof.
  unfold sharedPublisher. destruct (pub g) as [q|]; [simpl|done].
  destruct (publishers g !! q) as [x|] eqn:E; [simpl|done]. case_bool_decide; [|done]. intros [= <-]. eauto.
Qed.

(** The report stays within its fence. *)
Lemma report_stays l sid a g g' :
  report g = Some (sid, a) → report_ok g → report_step l sid a g = Some g' → report_ok g'.
Proof.
  intros Ht HR H. pose proof (move_sessions _ _ (report_moves _ _ _ _ _ Ht HR H)) as HK.
  unfold report_ok in HR. rewrite Ht in HR.
  destruct l, a; try discriminate H; cbn [report_step] in H.
  - destruct (negb timeout && _); [done|]. injection H as <-. unfold report_ok. cbn [report with_report].
    destruct HR as (x & Hx & Hi & Hd). split; [|done]. unfold sealed_at, fence_seal. rewrite Hx.
    rewrite bool_decide_true by done. simpl. rewrite lookup_insert_eq. eauto.
  - injection H as <-. destruct HR as [Hs _]. destruct (sharedPublisher sid g) as [p|] eqn:ES; [|by split].
    split; [done|]. by apply shared_spec.
  - destruct HR as (Hs & x & Hx & Hsid). destruct (free p g); [|done]. rewrite Hx in H.
    destruct (cancelled x); injection H as <-; [by split|]. split; [done|].
    destruct (HK p x Hx) as (x' & ? & ?). exists x'. split; [done|congruence].
  - destruct HR as (Hs & x & Hx & Hsid). destruct (free p g); [|done]. injection H as <-. split; [done|].
    destruct (HK p x Hx) as (x' & ? & ?). exists x'. split; [done|congruence].
  - destruct (can_send p ok g); [|done]. injection H as <-. destruct HR as [Hs _]. by destruct ok; split.
  - destruct (can_send p ok g); [|done]. injection H as <-. destruct HR as [Hs _]. by split.
  - injection H as <-. destruct HR as [Hs _]. split; [|done]. unfold detachPublisher. by case_bool_decide.
  - destruct (free p g); [|done]. by injection H as <-.
  - destruct (free p g); [|done]. by injection H as <-.
  - case_bool_decide; [|done]. injection H as <-. destruct HR as [Hs _]. split; [done|].
    eexists. split; [apply lookup_insert_eq|done].
Qed.

Lemma goto_begin_move t sid g g' :
  running g !! t = None → beginPublish sid g = Some g' →
  move g (goto t sid HBegun g') ∧ report g' = report g.
Proof.
  intros Ht H. apply begin_spec in H as (Hd & Hs & k & ->). split; [|done].
  apply MQuiet; try done.
  - eapply gates_keep_insert; [done|]. intros y Hy. rewrite Hy in *. simpl in *. split; [done|]. split; congruence.
  - intros k'. rewrite sending_goto. case_decide as E; [subst k'; simpl; by rewrite Ht|]. by apply sending_running.
  - by apply same_locks_refl.
Qed.

Lemma handler_report l t sid a g g' : handler_step l t sid a g = Some g' → report g' = report g.
Proof.
  intros H. destruct l, a; try discriminate H; cbn [handler_step] in H.
  - case_bool_decide; [|done]. destruct (acquirePublisher _ _ _ g) as [[p stale] g1] eqn:EA.
    apply acquire_spec in EA as (? & ? & ? & ? & ? & ?); [|done]. by injection H as <-.
  - destruct (free old g); [|done]. by injection H as <-.
  - destruct (free p g); [|done]. destruct (publishers g !! p); [|done].
    destruct (admitFrame _ _ p g) as [g1|] eqn:EA; injection H as <-; [|done]. by apply admit_spec in EA as [_ ->].
  - destruct (can_send p ok g); [|done]. by injection H as <-.
  - by injection H as <-.
  - injection H as <-. unfold detachPublisher. by case_bool_decide.
  - destruct (free p g); [|done]. by injection H as <-.
  - destruct (endPublish sid g) as [g1| |] eqn:EE; [|done|done]. apply end_spec in EE as (m & -> & HG).
    by injection H as <-.
Qed.

Lemma move_report g g' : move g g' → report g' = report g → report_ok g → report_ok g'.
Proof.
  intros HM ER HR. destruct (decide (report g = None)) as [EN|EN].
  { unfold report_ok. by rewrite ER, EN. }
  eapply report_frame; [done|done| |by apply move_sessions].
  destruct HM as [| | |t sid st ? ->|t ok ->|sid ? ->]; try done; by apply gates_keep_refl.
Qed.

Lemma exec_move l g g' : report_ok g → exec l g = Some g' → move g g' ∧ report_ok g'.
Proof.
  intros HR H.
  assert (move g g' → report g' = report g → move g g' ∧ report_ok g') as HM.
  { intros HM ER. split; [done|by eapply move_report]. }
  assert (∀ t, match running g !! t with Some (sid, a) => handler_step l t sid a g | None => None end = Some g' →
    move g g' ∧ report_ok g') as HH.
  { intros t Ht. destruct (running g !! t) as [[sid a]|] eqn:E; [|done].
    apply HM; [by eapply handler_moves|by eapply handler_report]. }
  assert (match report g with Some (sid, a) => report_step l sid a g | None => None end = Some g' →
    move g g' ∧ report_ok g') as HS.
  { intros Ha. destruct (report g) as [[sid a]|] eqn:E; [|done].
    split; [by eapply report_moves|by eapply report_stays]. }
  destruct l; cbn [exec] in H; try (by eapply HH); try (by apply HS).
  - destruct (running g !! t) as [|] eqn:E; [done|]. destruct (beginPublish sid g) as [g1|] eqn:EB; [|done].
    injection H as <-. destruct (goto_begin_move t sid g g1 E EB) as [? ?]. by apply HM.
  - destruct (report g) eqn:ER; [done|]. destruct (fence_begin sid g) as [a g1] eqn:EF. injection H as <-.
    apply fence_spec in EF as (-> & k & ->). split.
    + apply MQuiet; try done; [|intros []; simpl; try done; by rewrite ER|by apply same_locks_refl].
      eapply gates_keep_insert; [done|]. intros y Hy. by rewrite Hy.
    + unfold report_ok. simpl. rewrite lookup_insert_eq. eauto.
  - destruct (report g) eqn:ER; [done|]. injection H as <-. apply HM; [by eapply MReopen|].
    unfold unfencePublishes. by repeat case_match.
  - injection H as <-. apply HM; [|done]. apply MQuiet; try done; [by apply gates_keep_refl|].
    intros q x. by apply same_locks_alter.
  - destruct (inflight (link g) !! TForeign t) eqn:EI; [done|]. injection H as <-. apply HM; [|done].
    by eapply MForeign.
  - injection H as <-. apply HM; [|done]. by eapply MForeignSend.
Qed.

(** ** The invariants *)

Lemma sending_unfence sid g k : sending (unfencePublishes sid g) k = sending g k.
Proof. apply sending_running; unfold unfencePublishes; by repeat case_match. Qed.

Lemma unfence_link sid g : link (unfencePublishes sid g) = link g ∧ publishers (unfencePublishes sid g) = publishers g.
Proof. unfold unfencePublishes. by repeat case_match. Qed.

(** A goroutine about to allocate has nothing in flight. *)
Lemma nothing_in_flight g k :
  lock_ok g → sending g k = None → (∀ t, k ≠ TForeign t) → inflight (link g) !! k = None.
Proof.
  intros [_ H2] HS HF. destruct (inflight (link g) !! k) as [a|] eqn:E; [|done].
  destruct (H2 k a E) as [E1 E2]. destruct E2 as [t Ht]; [congruence|]. by apply HF in Ht.
Qed.

Lemma move_lock g g' : move g g' → lock_ok g → lock_ok g'.
Proof.
  intros HM HL. destruct HM as [? _ _ ? ?|k p x st ? ? ? ? ? ? _ HF ? _ _|k p ok ? ? ? ? ? _ _|t sid st ? ->|t ok ->|sid _ ->].
  - by eapply lock_frame.
  - by eapply lock_take.
  - by eapply lock_give.
  - destruct HL as [H1 H2]. split.
    + intros k p Hp. destruct (H1 k p Hp) as [? Ha]. split; [done|]. simpl.
      destruct (decide (k = TForeign t)) as [->|Hne]; [done|]. by rewrite lookup_insert_ne.
    + intros k a. simpl. intros [[<- <-]|[_ Ha]]%lookup_insert_Some; [simpl; eauto|by apply H2].
  - destruct HL as [H1 H2].
    assert (inflight (link (with_link (if ok then send_ok (TForeign t) else send_fail (TForeign t)) g))
      = delete (TForeign t) (inflight (link g))) as EI.
    { simpl. destruct ok; unfold send_ok, send_fail; destruct (inflight (link g) !! TForeign t) eqn:E; simpl; try done;
        by rewrite delete_id. }
    split.
    + intros k p Hp. destruct (H1 k p Hp) as [? Ha]. split; [done|]. rewrite EI.
      destruct (decide (k = TForeign t)) as [->|Hne]; [done|]. by rewrite lookup_delete_ne.
    + intros k a. rewrite EI. intros [_ Ha]%lookup_delete_Some. by apply H2.
  - destruct (unfence_link sid g) as [EL EP]. eapply lock_frame; [done|done|apply sending_unfence|by apply same_locks_refl].
Qed.

(** Numbers grow along a stream. *)
Record stream_ok (l : Link) : Prop := {
  s_after k a e p : inflight l !! k = Some a → a_stream a = Some p → e ∈ sent l → a_stream e = Some p →
    a_seq e < a_seq a;
  s_sorted p : StronglySorted (λ x y, a_seq x < a_seq y) (filter (λ a, a_stream a = Some p) (sent l));
}.

Lemma in_use_range l a : link_ok l → in_use l a → 1 ≤ a_seq a ≤ n l.
Proof. intros HK Ha. apply (k_range l HK). left. by exists a. Qed.

Lemma stream_next k sid stream st lf l :
  link_ok l → allocs l + 1 < 2 ^ 64 → stream_ok l → stream_ok (next k sid stream st lf l).
Proof.
  intros HK HA [H1 H2]. destruct (k_bound l HK). split; [|done]. simpl. rewrite u64_small by lia.
  intros k' a e p [[<- <-]|[_ Ha]]%lookup_insert_Some Hp He Hep; [simpl|by eapply H1].
  pose proof (in_use_range l e HK ltac:(by right)). lia.
Qed.

Lemma stream_fail k l : stream_ok l → stream_ok (send_fail k l).
Proof.
  intros [H1 H2]. unfold send_fail. destruct (inflight l !! k); [|by split]. split; [|done].
  simpl. intros k' x e p [_ Ha]%lookup_delete_Some. by eapply H1.
Qed.

Lemma stream_sent k l :
  (∀ k' a a' p, inflight l !! k = Some a → inflight l !! k' = Some a' →
     a_stream a = Some p → a_stream a' = Some p → k' = k) →
  stream_ok l → stream_ok (send_ok k l).
Proof.
  intros HU [H1 H2]. unfold send_ok. destruct (inflight l !! k) as [b|] eqn:E; [|by split]. split; simpl.
  - intros k' a e p [Hne Ha]%lookup_delete_Some Hp. rewrite elem_of_app, list_elem_of_singleton.
    intros [He| ->]; [by eapply H1|]. intros Hb. destruct Hne. symmetry. by eapply HU.
  - intros p. rewrite filter_app, filter_cons. simpl. case_decide as Hp; [|by rewrite app_nil_r].
    apply StronglySorted_app. split; [|split; [apply H2|repeat constructor]].
    intros x y [Hx Hin]%list_elem_of_filter ->%list_elem_of_singleton. by eapply H1.
Qed.

(** One number in flight per stream. *)
Lemma one_per_stream g k k' a a' p :
  lock_ok g → inflight (link g) !! k = Some a → inflight (link g) !! k' = Some a' →
  a_stream a = Some p → a_stream a' = Some p → k' = k.
Proof.
  intros [H1 H2] Ha Ha' Hp Hp'. destruct (H2 _ _ Ha) as [E _]. destruct (H2 _ _ Ha') as [E' _].
  rewrite Hp in E. rewrite Hp' in E'. destruct (H1 k p (eq_sym E)) as [(x & Hx & Hh) _].
  destruct (H1 k' p (eq_sym E')) as [(x' & Hx' & Hh') _]. congruence.
Qed.

Lemma move_link g g' :
  move g g' → lock_ok g → link_ok (link g) ∧ stream_ok (link g) → allocs (link g') < 2 ^ 64 →
  link_ok (link g') ∧ stream_ok (link g').
Proof.
  intros HM HL [HK HS] HA. pose proof (λ k k' a a' p, one_per_stream g k k' a a' p HL) as HU.
  assert (∀ k ok, allocs ((if ok : bool then send_ok k else send_fail k) (link g)) = allocs (link g)) as HE.
  { intros k []; unfold send_ok, send_fail; by case_match. }
  assert (∀ k ok, allocs (link g) < 2 ^ 64 → link_ok ((if ok : bool then send_ok k else send_fail k) (link g)) ∧
    stream_ok ((if ok : bool then send_ok k else send_fail k) (link g))) as HG.
  { intros k [] Hlt; split; [by apply send_ok_ok|by apply stream_sent; eauto|by apply send_fail_ok|by apply stream_fail]. }
  destruct HM as [-> _ _ _ _|k p x st ? ? ? ? ? EL _ HF ? _ _|k p ok ? ? ? EL ? _ _|t sid st ? ->|t ok ->|sid _ ->].
  - done.
  - rewrite EL in HA |- *. simpl in HA. split; [|by apply stream_next].
    apply next_ok; [done|by apply nothing_in_flight|done].
  - rewrite EL in HA |- *. rewrite HE in HA. by apply HG.
  - simpl in HA |- *. split; [by apply next_ok|by apply stream_next].
  - simpl in HA |- *. rewrite HE in HA. by apply HG.
  - by destruct (unfence_link sid g) as [-> _].
Qed.

Lemma move_allocs g g' : move g g' → allocs (link g) ≤ allocs (link g').
Proof.
  assert (∀ k ok l, allocs ((if ok : bool then send_ok k else send_fail k) l) = allocs l) as HE.
  { intros k [] l; unfold send_ok, send_fail; by case_match. }
  intros [-> _ _ _ _|k p x st ? ? ? ? ? -> _ HF ? _ _|k p ok ? ? ? -> ? _ _|t sid st ? ->|t ok ->|sid _ ->]; simpl.
  - done.
  - lia.
  - by rewrite HE.
  - lia.
  - by rewrite HE.
  - by destruct (unfence_link sid g) as [-> _].
Qed.

(** Session states against frames, on the streams of this gateway. *)
Record order_ok (g : Gateway) : Prop := {
  o_life e : in_use (link g) e → a_stream e ≠ None → (a_life e ≤ mget 0 (life g) (a_session e))%nat;
  o_state e : in_use (link g) e → a_stream e ≠ None → a_state e = true →
    a_life e = mget 0%nat (life g) (a_session e) → sealed_at g (a_session e);
  o_order e f : in_use (link g) e → in_use (link g) f → a_stream e ≠ None → a_stream f ≠ None →
    a_state e = true → a_state f = false → a_session f = a_session e → a_life f = a_life e →
    a_seq f < a_seq e;
}.

(** No new numbers, and the seals stay. *)
Lemma order_frame g g' :
  order_ok g → (∀ a, in_use (link g') a → in_use (link g) a) → life g' = life g → gates_keep g g' → order_ok g'.
Proof.
  intros [H1 H2 H3] HU HF HG. split.
  - intros e He. rewrite HF. eauto.
  - intros e He Hs Ht. rewrite HF. intros Hl. eapply sealed_keep; eauto.
  - intros e f He Hf. eauto.
Qed.

Lemma in_use_send k (ok : bool) l a :
  link_ok l → in_use ((if ok then send_ok k else send_fail k) l) a → in_use l a.
Proof.
  intros HK. destruct ok; [apply in_use_ok|].
  destruct (inflight l !! k) as [b|] eqn:E; [|unfold send_fail; by rewrite E].
  intros Ha. by eapply in_use_fail in Ha as [? _].
Qed.

(** A new number: a state only under a seal, a frame only without. *)
Lemma order_next g g' k sid stream st lf :
  order_ok g → link_ok (link g) → allocs (link g) + 1 < 2 ^ 64 → inflight (link g) !! k = None →
  link g' = next k sid stream st lf (link g) → life g' = life g → publishes g' = publishes g →
  (stream ≠ None → lf = mget 0%nat (life g) sid ∧ if st then sealed_at g sid else ¬ sealed_at g sid) →
  order_ok g'.
Proof.
  intros [H1 H2 H3] HK HA HN EL HF HP HS. destruct (k_bound _ HK).
  assert (∀ sid, sealed_at g' sid ↔ sealed_at g sid) as HSe by (intros; unfold sealed_at; by rewrite HP).
  assert (u64 (n (link g) + 1) = n (link g) + 1) as EU by (apply u64_small; lia).
  assert (∀ e, in_use (link g') e →
    e = MkAlloc (u64 (n (link g) + 1)) sid stream st lf ∨ in_use (link g) e) as HU.
  { intros e. rewrite EL. by apply in_use_next. }
  split; intros e; rewrite ?HF, ?HSe.
  - intros [->|He]%HU; [|by auto]. simpl. intros Hs. by destruct (HS Hs) as [-> _].
  - intros [->|He]%HU; [|by auto]. simpl. intros Hs Ht _. destruct (HS Hs) as [_ HX]. by rewrite Ht in HX.
  - intros f [->|He]%HU [->|Hf]%HU Hse Hsf Hte Htf Hsid Hlf; simpl in *; try congruence; [| |by eapply H3].
    + pose proof (in_use_range _ f HK Hf). lia.
    + subst st. destruct (HS Hsf) as [El Hn]. subst sid. destruct Hn. apply H2; congruence || done.
Qed.

Lemma move_order g g' :
  move g g' → lock_ok g → link_ok (link g) → allocs (link g') < 2 ^ 64 → order_ok g → order_ok g'.
Proof.
  intros HM HL HK HA HO.
  destruct HM as [EL EF HG _ _|k p x st ? ? ? ? ? EL HS HF ? EP EF|k p ok ? ? ? EL ? EP EF|t sid st Hf ->|t ok ->|sid _ ->].
  - apply (order_frame g); [done|by rewrite EL|done|done].
  - rewrite EL in HA. simpl in HA. eapply order_next; try done; by apply nothing_in_flight.
  - apply (order_frame g); [done|intros a; rewrite EL; by apply in_use_send|done|by apply gates_keep_refl].
  - simpl in HA. by eapply (order_next g _ (TForeign t) sid None st 0).
  - apply (order_frame g); [done|intros a; simpl; by apply in_use_send|done|by apply gates_keep_refl].
  - destruct HO as [H1 H2 H3]. destruct (unfence_link sid g) as [EL _].
    assert (life (unfencePublishes sid g) = <[sid := S (mget 0%nat (life g) sid)]> (life g)) as EF.
    { unfold unfencePublishes. by repeat case_match. }
    split; rewrite ?EL; [| |done].
    + intros e He Hs. specialize (H1 e He Hs). rewrite EF. destruct (decide (sid = a_session e)) as [->|Hne].
      * rewrite mget_insert_eq. lia.
      * by rewrite mget_insert_ne.
    + intros e He Hs Ht. rewrite EF. destruct (decide (sid = a_session e)) as [->|Hne].
      * rewrite mget_insert_eq. specialize (H1 e He Hs). lia.
      * rewrite mget_insert_ne by done. intros Hl. destruct (H2 e He Hs Ht Hl) as (x & Hx & Hsx). exists x.
        split; [|done]. unfold unfencePublishes. destruct (publishes g !! sid); [|done].
        case_bool_decide; simpl; [by rewrite lookup_delete_ne|by rewrite lookup_insert_ne].
Qed.

Lemma gateway_inv g :
  reachable g → allocs (link g) < 2 ^ 64 →
  report_ok g ∧ lock_ok g ∧ (link_ok (link g) ∧ stream_ok (link g)) ∧ order_ok g.
Proof.
  induction 1 as [|g l g' HR IH HE]; intros HA.
  - split; [done|]. split; [by split; [intros []|intros k a; simpl; rewrite lookup_empty]|].
    assert (∀ a, ¬ in_use newLink a) as HN.
    { intros a [[k Hk]|Ha]; simpl in *; [by rewrite lookup_empty in Hk|by apply elem_of_nil in Ha]. }
    split; [split; [apply newLink_ok|]|].
    + split; [intros k a e p; simpl; by rewrite lookup_empty|constructor].
    + split; [intros e He|intros e He|intros e f He]; by apply HN in He.
  - assert (allocs (link g) < 2 ^ 64) as HA'.
    { assert (report_ok g) as HRo; [|pose proof (move_allocs _ _ (proj1 (exec_move _ _ _ HRo HE))); lia].
      clear - HR. induction HR as [|g l g' _ IH HE]; [done|]. by eapply exec_move in HE as [_ ?]. }
    destruct (IH HA') as (HRo & HL & HK & HO). destruct (exec_move _ _ _ HRo HE) as [HM HRo'].
    split; [done|]. split; [by eapply move_lock|]. split; [by eapply move_link|].
    eapply move_order; [done|done|by destruct HK|done|done].
Qed.

(** ** The gate counts the open handlers *)

Definition open_handlers (sid : string) (g : Gateway) : Z := mcount (λ y, y.1 = sid) (running g).

Record count_ok (g : Gateway) : Prop := {
  c_gate sid x : publishes g !! sid = Some x →
    handlers x = open_handlers sid g
    ∧ (0 < handlers x → idle x = Some true) ∧ (handlers x = 0 → idle x ≠ Some true)
    ∧ (handlers x = 0 → draining x = true ∨ sealed x = true);
  c_none sid : publishes g !! sid = None → open_handlers sid g = 0;
  c_wait sid gate : report g = Some (sid, RDraining gate true) →
    ∃ x, publishes g !! sid = Some x ∧ gate_id x = gate ∧ idle x ≠ None;
}.

(** A step that leaves the gates and the number of handlers alone. *)
Lemma count_frame g g' :
  count_ok g → publishes g' = publishes g → (∀ sid, open_handlers sid g' = open_handlers sid g) →
  (∀ sid gate, report g' = Some (sid, RDraining gate true) → report g = Some (sid, RDraining gate true)) →
  count_ok g'.
Proof.
  intros [H1 H2 H3] EP EC ER. split.
  - intros sid x. rewrite EP, EC. apply H1.
  - intros sid. rewrite EP, EC. apply H2.
  - intros sid gate Hr. rewrite EP. eauto.
Qed.

Lemma count_goto t sid a b g g1 sid' :
  running g !! t = Some (sid, a) → running g1 = running g →
  open_handlers sid' (goto t sid b g1) = open_handlers sid' g.
Proof.
  intros Ht E. unfold open_handlers. simpl. rewrite E.
  eapply (mcount_insert_same (λ y : string * handlerAt, y.1 = sid')); [done|done].
Qed.

(** The steps of a handler before its last one. *)
Lemma handler_count l t sid a g g' :
  running g !! t = Some (sid, a) → (∀ u, l ≠ LEnd u) → handler_step l t sid a g = Some g' →
  publishes g' = publishes g ∧ ∀ sid', open_handlers sid' g' = open_handlers sid' g.
Proof.
  intros Ht Hl H.
  assert (∀ b g1, publishes g1 = publishes g → running g1 = running g → Some (goto t sid b g1) = Some g' →
    publishes g' = publishes g ∧ ∀ sid', open_handlers sid' g' = open_handlers sid' g) as HG.
  { intros b g1 EP ER [= <-]. split; [done|]. intros sid'. by eapply count_goto. }
  destruct l, a; try discriminate H; cbn [handler_step] in H.
  - case_bool_decide; [|done]. destruct (acquirePublisher _ _ _ g) as [[p stale] g1] eqn:EA.
    apply acquire_spec in EA as (? & ? & ? & ? & ? & ?); [|done]. by eapply HG.
  - destruct (free old g); [|done]. by eapply HG, H.
  - destruct (free p g); [|done]. destruct (publishers g !! p); [|done].
    destruct (admitFrame _ _ p g) as [g1|] eqn:EA; [|by eapply HG, H].
    apply admit_spec in EA as [_ ->]. by eapply HG, H.
  - destruct (can_send p ok g); [|done]. by eapply HG, H.
  - by eapply HG, H.
  - eapply HG, H; unfold detachPublisher; by case_bool_decide.
  - destruct (free p g); [|done]. by eapply HG, H.
  - by destruct (Hl t0).
Qed.

Lemma count_begin t sid g g' :
  count_ok g → report_ok g → running g !! t = None → beginPublish sid g = Some g' → count_ok (goto t sid HBegun g').
Proof.
  intros [H1 H2 H3] HR Ht H. apply begin_spec in H as (Hd & Hs & k & ->).
  assert (∀ sid', open_handlers sid' (goto t sid HBegun (with_gates (<[sid := MkGate
    (gate_id (default (newGate (gates g)) (publishes g !! sid))) false false
    (handlers (default (newGate (gates g)) (publishes g !! sid)) + 1)
    (if bool_decide (handlers (default (newGate (gates g)) (publishes g !! sid)) = 0) then Some true
     else idle (default (newGate (gates g)) (publishes g !! sid)))]> (publishes g)) k g))
    = open_handlers sid' g + (if decide (sid = sid') then 1 else 0)) as HC.
  { intros sid'. unfold open_handlers. simpl. rewrite mcount_insert_new by done. by repeat case_decide. }
  assert (0 ≤ open_handlers sid g) by apply mcount_nonneg.
  split.
  - intros sid' x. rewrite HC. simpl. intros [[<- <-]|[Hne Hx]]%lookup_insert_Some; simpl.
    + rewrite decide_True by done. destruct (publishes g !! sid) as [y|] eqn:E; simpl in *.
      * destruct (H1 _ _ E) as (-> & Hi & _ & _). split; [done|]. split; [|split; lia].
        intros _. clear HC. case_bool_decide; [done|]. apply Hi. lia.
      * rewrite (H2 _ E). split; [done|]. split; [done|]. split; lia.
    + rewrite decide_False, Z.add_0_r by done. by apply H1.
  - intros sid'. rewrite HC. simpl. intros [Hx Hne]%lookup_insert_None. rewrite decide_False, Z.add_0_r by done. by apply H2.
  - intros sid' gate Hr. simpl in Hr. destruct (H3 _ _ Hr) as (x & Hx & Hg & Hi). simpl.
    destruct (decide (sid = sid')) as [<-|Hne]; [|rewrite lookup_insert_ne by done; eauto].
    exfalso. unfold report_ok in HR. rewrite Hr in HR. destruct HR as (y & Hy & _ & Hdy).
    rewrite Hy in Hd. simpl in Hd. congruence.
Qed.

Lemma count_end t sid a g g' :
  count_ok g → report_ok g → running g !! t = Some (sid, a) → endPublish sid g = Ok g' →
  count_ok (with_running (delete t (running g)) g').
Proof.
  intros [H1 H2 H3] HR Ht H.
  assert (∀ sid' g1, open_handlers sid' (with_running (delete t (running g)) g1)
    = open_handlers sid' g - (if decide (sid = sid') then 1 else 0)) as HC.
  { intros sid' g1. unfold open_handlers. simpl. rewrite (mcount_delete _ _ _ _ Ht). by repeat case_decide. }
  assert (0 < open_handlers sid g) as Hpos by (eapply (mcount_pos (λ y : string * handlerAt, y.1 = sid)); done).
  unfold endPublish in H. destruct (publishes g !! sid) as [x|] eqn:E; [|specialize (H2 _ E); lia].
  destruct (H1 _ _ E) as (Hh & Hi & _ & _).
  assert (∀ y, handlers y = handlers x - 1 → gate_id y = gate_id x → idle y ≠ None →
    (0 < handlers y → idle y = Some true) → (handlers y = 0 → idle y ≠ Some true ∧ (draining y = true ∨ sealed y = true)) →
    count_ok (with_running (delete t (running g)) (set_gate sid y g))) as HS.
  { intros y Ey Ei Hn Hp Hz. split.
    - intros sid' z. rewrite HC. simpl. intros [[<- <-]|[Hne Hx]]%lookup_insert_Some.
      + rewrite decide_True by done. split; [lia|]. split; [done|]. by split; apply Hz.
      + rewrite decide_False, Z.sub_0_r by done. by apply H1.
    - intros sid'. rewrite HC. simpl. intros [Hx Hne]%lookup_insert_None. rewrite decide_False, Z.sub_0_r by done. by apply H2.
    - intros sid' gate Hr. simpl in Hr |- *. destruct (H3 _ _ Hr) as (z & Hz' & Hg & Hiz).
      destruct (decide (sid = sid')) as [<-|Hne].
      + rewrite lookup_insert_eq. exists y. split; [done|]. split; [congruence|done].
      + rewrite lookup_insert_ne by done. eauto. }
  case_bool_decide as E0.
  - rewrite Hi in H by lia. destruct (draining x) eqn:Ed; [|destruct (sealed x) eqn:Es]; simpl in H; injection H as <-.
    + apply HS; simpl; try done; try lia. intros _. split; [done|by left].
    + apply HS; simpl; try done; try lia. intros _. split; [done|by right].
    + split.
      * intros sid' z. rewrite HC. simpl. intros [Hne Hz]%lookup_delete_Some.
        rewrite decide_False, Z.sub_0_r by done. by apply H1.
      * intros sid'. rewrite HC. simpl. intros [<-|Hn]%lookup_delete_None; [rewrite decide_True by done; lia|].
        rewrite (H2 _ Hn). case_decide; [subst; congruence|done].
      * intros sid' gate Hr. simpl in Hr |- *. destruct (decide (sid = sid')) as [<-|Hne].
        { exfalso. unfold report_ok in HR. rewrite Hr in HR. destruct HR as (y & Hy & _ & Hdy). congruence. }
        rewrite lookup_delete_ne by done. by eapply H3.
  - injection H as <-. apply HS; simpl; try done; try lia; rewrite Hi by lia; done.
Qed.

Lemma count_fence sid g a g' :
  count_ok g → report g = None → fence_begin sid g = (a, g') → count_ok (with_report (Some (sid, a)) g').
Proof.
  intros [H1 H2 H3] HR H. apply fence_spec in H as (-> & k & ->).
  assert (∀ sid' g1, running g1 = running g → open_handlers sid' g1 = open_handlers sid' g) as HC.
  { intros sid' g1 E. unfold open_handlers. by rewrite E. }
  split; simpl.
  - intros sid' x [[<- <-]|[Hne Hx]]%lookup_insert_Some; rewrite HC by done; [|by apply H1]. simpl.
    destruct (publishes g !! sid) as [y|] eqn:E; simpl.
    + destruct (H1 _ _ E) as (? & ? & ? & _). split; [done|]. split; [done|]. split; [done|by left].
    + rewrite (H2 _ E). split; [done|]. split; [lia|]. split; [done|by left].
  - intros sid' [Hn _]%lookup_insert_None. rewrite HC by done. by apply H2.
  - intros sid' gate [= <- <- Hw%bool_decide_eq_true]. rewrite lookup_insert_eq. eexists. split; [done|].
    split; [done|]. simpl. destruct (publishes g !! sid) as [y|] eqn:E; simpl in *; [|lia].
    destruct (H1 _ _ E) as (_ & -> & _); done.
Qed.

Lemma count_reopen sid g : count_ok g → report g = None → count_ok (unfencePublishes sid g).
Proof.
  intros [H1 H2 H3] HR. unfold unfencePublishes. destruct (publishes g !! sid) as [x|] eqn:E; [|by split].
  destruct (H1 _ _ E) as (Hh & Hi & Hz & _). case_bool_decide as E0; split; simpl.
  - intros sid' y [_ Hy]%lookup_delete_Some. by apply H1.
  - intros sid' [<-|Hn]%lookup_delete_None; [by rewrite <- E0|by apply H2].
  - intros sid' gate. by rewrite HR.
  - intros sid' y [[<- <-]|[_ Hy]]%lookup_insert_Some; [|by apply H1]. simpl. split; [done|]. done.
  - intros sid' [Hn _]%lookup_insert_None. by apply H2.
  - intros sid' gate. by rewrite HR.
Qed.

Lemma report_count l sid a g g' :
  count_ok g → report g = Some (sid, a) → report_step l sid a g = Some g' → count_ok g'.
Proof.
  intros HC HR H.
  assert (∀ b g1, publishes g1 = publishes g → running g1 = running g →
    (∀ s gate, none_or sid b ≠ Some (s, RDraining gate true)) →
    Some (with_report (none_or sid b) g1) = Some g' → count_ok g') as HG.
  { intros b g1 EP ER Hb [= <-]. apply (count_frame g); [done|done| |].
    - intros sid'. unfold open_handlers. simpl. by rewrite ER.
    - intros s gate. simpl. intros Hx. by apply Hb in Hx. }
  destruct l, a; try discriminate H; cbn [report_step] in H.
  - destruct (negb timeout && _); [done|]. injection H as <-. destruct HC as [H1 H2 H3].
    unfold fence_seal. destruct (publishes g !! sid) as [x|] eqn:E; [|by split].
    case_bool_decide; [|by split]. destruct (H1 _ _ E) as (? & ? & ? & _). split; simpl; try done.
    + intros sid' y [[<- <-]|[_ Hy]]%lookup_insert_Some; [|by apply H1]. simpl. split; [done|]. split; [done|].
      split; [done|by right].
    + intros sid' [Hn _]%lookup_insert_None. by apply H2.
  - by destruct (sharedPublisher sid g) as [p|]; [eapply (HG (Some (RShared p)))|eapply (HG (Some ROpen))].
  - destruct (free p g); [|done]. destruct (publishers g !! p) as [x|]; [|done].
    by destruct (cancelled x); [eapply (HG (Some ROpen))|eapply (HG (Some (RSharedSend p))), H].
  - destruct (free p g); [|done]. by eapply (HG (Some (ROneSend p))), H.
  - destruct (can_send p ok g); [|done]. destruct ok; by eapply (HG (Some _)), H.
  - destruct (can_send p ok g); [|done]. by eapply (HG (Some (ROneClose p))), H.
  - eapply (HG (Some (RSharedClose p))), H; unfold detachPublisher; by try case_bool_decide.
  - destruct (free p g); [|done]. by eapply (HG None), H.
  - destruct (free p g); [|done]. by eapply (HG None), H.
  - case_bool_decide; [|done]. by eapply (HG (Some (ROneShot fresh))), H.
Qed.

Lemma count_inv g : reachable g → report_ok g ∧ count_ok g.
Proof.
  induction 1 as [|g l g' _ [HR HC] HE].
  - split; [done|]. split; simpl; [intros sid x|done|done]. by rewrite lookup_empty.
  - destruct (exec_move _ _ _ HR HE) as [_ HR']. split; [done|].
    assert (∀ t, (∀ u, l ≠ LEnd u) →
      match running g !! t with Some (sid, a) => handler_step l t sid a g | None => None end = Some g' → count_ok g') as HH.
    { intros t Hl Ht. destruct (running g !! t) as [[sid a]|] eqn:E; [|done].
      destruct (handler_count _ _ _ _ _ _ E Hl Ht) as [EP EC]. apply (count_frame g); [done|done|done|].
      by rewrite (handler_report _ _ _ _ _ _ Ht). }
    assert (match report g with Some (sid, a) => report_step l sid a g | None => None end = Some g' → count_ok g') as HS.
    { intros Ha. destruct (report g) as [[sid a]|] eqn:E; [|done]. by eapply report_count. }
    destruct l; cbn [exec] in HE; try (by eapply HH); try (by apply HS).
    + destruct (running g !! t) as [|] eqn:E; [done|]. destruct (beginPublish sid g) as [g1|] eqn:EB; [|done].
      injection HE as <-. by apply count_begin with (g := g).
    + destruct (running g !! t) as [[sid []]|] eqn:E; try done. cbn [handler_step] in HE.
      destruct (endPublish sid g) as [g1| |] eqn:EE; [|done|done]. injection HE as <-.
      by eapply count_end.
    + destruct (report g) eqn:ER; [done|]. destruct (fence_begin sid g) as [a g1] eqn:EF. injection HE as <-.
      by eapply count_fence.
    + destruct (report g) eqn:ER; [done|]. injection HE as <-. by apply count_reopen.
    + injection HE as <-. by apply (count_frame g).
    + destruct (inflight (link g) !! TForeign t); [done|]. injection HE as <-. by apply (count_frame g).
    + injection HE as <-. by apply (count_frame g).
Qed.


(** ** Claims *)

(** C30. Runner sequence numbers, over every interleaving of publish handlers, reports,
    replaced publishers, failed sends and the other gateways of the link (below 2^64
    allocations): no number is sent twice, numbers grow along each stream, and every
    number up to the counter is exactly one of sent, in flight, or lost to a failed send
    that a later allocation had overtaken; so with none in flight and none lost, exactly
    1..n were sent and the Server's gap detector has nothing to report. *)
Theorem runner_seq_exact g :
  reachable g → allocs (link g) < 2 ^ 64 →
  NoDup (a_seq <$> sent (link g))
  ∧ (∀ p, StronglySorted (λ x y, a_seq x < a_seq y) (filter (λ a, a_stream a = Some p) (sent (link g))))
  ∧ (∀ q, 1 ≤ q ≤ n (link g) ↔
       q ∈ a_seq <$> sent (link g) ∨ (∃ k a, inflight (link g) !! k = Some a ∧ a_seq a = q) ∨ q ∈ burned (link g))
  ∧ (∀ q, q ∈ burned (link g) → q ∉ a_seq <$> sent (link g))
  ∧ (inflight (link g) = ∅ → burned (link g) = ∅ → a_seq <$> sent (link g) ≡ₚ seqZ 1 (n (link g))).
Proof.
  intros HR HA. destruct (gateway_inv g HR HA) as (_ & _ & [HK HS] & _).
  assert (∀ q, live (link g) q ↔ q ∈ a_seq <$> sent (link g) ∨ ∃ k a, inflight (link g) !! k = Some a ∧ a_seq a = q) as HL.
  { intros q. unfold live, in_use. rewrite list_elem_of_fmap. naive_solver. }
  assert (∀ q, 1 ≤ q ≤ n (link g) ↔ live (link g) q ∨ q ∈ burned (link g)) as HC.
  { intros q. split; [apply (k_cover _ HK)|apply (k_range _ HK)]. }
  split; [apply (k_nodup _ HK)|]. split; [apply (s_sorted _ HS)|]. split.
  { intros q. rewrite HC, HL. tauto. }
  split. { intros q Hq Hs. apply (k_burned _ HK q Hq), HL. by left. }
  intros HI HB. apply NoDup_Permutation; [apply (k_nodup _ HK)|apply NoDup_seqZ|].
  intros q. rewrite elem_of_seqZ. split.
  - intros Hq. assert (1 ≤ q ≤ n (link g)); [|lia]. apply HC. left. apply HL. by left.
  - intros Hq. destruct (proj1 (HC q)) as [Hq'|Hq']; [lia| |by rewrite HB in Hq'].
    apply HL in Hq' as [?|(k & a & Hk & _)]; [done|]. by rewrite HI, lookup_empty in Hk.
Qed.

(** A terminal session state is the session's last telemetry: once it was sent, every
    frame of the session sent on this gateway before the session is bound again carries
    a smaller sequence number, even if the drain timed out with frames still being sent,
    and on the state's own stream no frame follows it. *)
Theorem state_is_last g i j e f :
  reachable g → allocs (link g) < 2 ^ 64 →
  sent (link g) !! i = Some e → sent (link g) !! j = Some f →
  a_stream e ≠ None → a_stream f ≠ None → a_state e = true → a_state f = false →
  a_session f = a_session e → a_life f = a_life e →
  a_seq f < a_seq e ∧ (a_stream f = a_stream e → (j < i)%nat).
Proof.
  intros HR HA He Hf Hse Hsf Hte Htf Hsid Hl. destruct (gateway_inv g HR HA) as (_ & _ & [HK HS] & HO).
  assert (a_seq f < a_seq e) as Hlt.
  { eapply (o_order g HO); try done; right; by eapply list_elem_of_lookup_2. }
  split; [done|]. intros Hp. destruct (a_stream e) as [p|] eqn:Ep; [|done].
  destruct (decide (j < i)%nat) as [|Hge]; [done|]. exfalso.
  destruct (decide (i = j)) as [->|Hne]; [congruence|].
  pose proof (s_sorted _ HS p) as HSo. rewrite <- (take_drop_middle _ _ _ He) in HSo.
  rewrite filter_app, filter_cons, decide_True in HSo by done.
  apply StronglySorted_app in HSo as (_ & _ & HSo). apply StronglySorted_cons in HSo as [HSo _].
  rewrite Forall_forall in HSo. specialize (HSo f).
  assert (a_seq e < a_seq f); [|lia]. apply HSo, list_elem_of_filter. split; [done|].
  apply list_elem_of_lookup. exists (j - S i)%nat. rewrite lookup_drop. rewrite <- Hf. f_equal. lia.
Qed.

(** The publish gate counts its handlers exactly: leaving it never closes a nil or
    closed channel, a report whose open handlers have left can always go on without
    waiting for its timeout, and a gate without handlers is in the table only while its
    session is fenced, so the table does not grow with ended sessions' gates. *)
Theorem publish_gate_accounts g :
  reachable g →
  (∀ t sid, running g !! t = Some (sid, HEnd) → is_Some (exec (LEnd t) g))
  ∧ (∀ sid gate waits, report g = Some (sid, RDraining gate waits) → open_handlers sid g = 0 →
       is_Some (exec (LSeal false) g))
  ∧ (∀ sid x, publishes g !! sid = Some x → open_handlers sid g = 0 → draining x = true ∨ sealed x = true).
Proof.
  intros HR. destruct (count_inv g HR) as [HRo [H1 H2 H3]]. split; [|split].
  - intros t sid Ht. cbn [exec]. rewrite Ht. cbn [handler_step].
    assert (0 < open_handlers sid g) as Hpos by (eapply (mcount_pos (λ y : string * handlerAt, y.1 = sid)); done).
    unfold endPublish. destruct (publishes g !! sid) as [x|] eqn:E; [|eauto].
    destruct (H1 _ _ E) as (Hh & Hi & _). case_bool_decide; [|eauto]. rewrite Hi by lia.
    destruct (negb (draining x) && negb (sealed x)); eauto.
  - intros sid gate waits Hr Hc. cbn [exec]. rewrite Hr. cbn [report_step negb andb].
    assert (fence_waits sid gate waits g = false) as ->; [|eauto].
    unfold fence_waits. destruct waits; [|done]. destruct (H3 _ _ Hr) as (x & Hx & Hg & Hi). rewrite Hx.
    destruct (H1 _ _ Hx) as (Hh & _ & Hz & _). specialize (Hz ltac:(lia)).
    rewrite bool_decide_true; [done|]. split; [done|]. by destruct (idle x) as [[]|].
  - intros sid x Hx Hc. destruct (H1 _ _ Hx) as (Hh & _ & _ & Hd). apply Hd. lia.
Qed.

(** ** Witnesses *)

Fixpoint run (ls : list label) (g : Gateway) : option Gateway :=
  match ls with
  | [] => Some g
  | l :: ls => exec l g ≫= run ls
  end.

Lemma run_reachable ls g g' : reachable g → run ls g = Some g' → reachable g'.
Proof.
  revert g. induction ls as [|l ls IH]; intros g HR; simpl; [by intros [= <-]|].
  destruct (exec l g) as [g1|] eqn:E; simpl; [|done]. apply IH. by eapply reach_step.
Qed.

(** A drain that times out: the handler's second frame is still being sent when the
    report seals the gate, so the state waits for the lock of the shared stream. *)
Definition sample : list label :=
  [LBegin 0 "s"; LAcquire 0 7 false; LForward 0; LForeign 1 "x" false; LSend 0 true; LForeignSend 1 true;
   LForward 0; LFence "s"; LSeal true; LShared; LSend 0 true; LState; LStateSend true; LStateDetach; LStateClose;
   LForward 0; LDetach 0; LClose 0].

Definition sample_end : Gateway := default NewGateway (run sample NewGateway).

Lemma sample_reachable : reachable sample_end.
Proof. apply (run_reachable sample NewGateway); [constructor|by vm_compute]. Qed.

Lemma runner_seq_exact_witness :
  reachable sample_end ∧ allocs (link sample_end) = 4 ∧ a_seq <$> sent (link sample_end) ≡ₚ seqZ 1 4.
Proof.
  split; [exact sample_reachable|]. split; [reflexivity|].
  apply (runner_seq_exact sample_end sample_reachable); vm_compute; reflexivity.
Defined.

Lemma state_is_last_witness :
  ∃ e f, sent (link sample_end) !! 3%nat = Some e ∧ sent (link sample_end) !! 2%nat = Some f ∧ a_seq f < a_seq e.
Proof.
  eexists _, _. split; [vm_compute; reflexivity|]. split; [vm_compute; reflexivity|].
  eapply (state_is_last sample_end 3 2); [exact sample_reachable|vm_compute; reflexivity..|done|done|done|done|done|done].
Defined.

Lemma publish_gate_accounts_witness :
  running sample_end !! 0%nat = Some ("s", HEnd) ∧ is_Some (exec (LEnd 0) sample_end).
Proof.
  split; [vm_compute; reflexivity|].
  eapply (publish_gate_accounts sample_end sample_reachable). vm_compute; reflexivity.
Defined.

End PublishGate.
