(* ===== verification/ForgeOwner.v ===== *)
(** Attribution of forge bodies ([src/go/internal/forge/owner.go]): the Server strips
    every owner header from a body and stamps its own; readers parse it back as a display
    claim.

    The four regular expressions are matchers on byte strings that return what follows
    the match; [ReplaceAll] and [CountAll] walk a string over its leftmost
    non-overlapping matches. *)
From stdpp Require Import base list strings sets.
From Stdlib Require Import Ascii Lia ZArith.
From S2P Require Import Prelude Text.

Module ForgeOwner.

Definition LF : ascii := "010".
Definition CR : ascii := "013".

(** * Matching *)

(** [ReplaceAllString(s, "")] for the matcher [m]; the fuel bounds the bytes walked. *)
Fixpoint replace_fuel (m : bytes → option bytes) (fuel : nat) (s : bytes) : bytes :=
  match fuel with
  | O => s
  | S fuel =>
      match m s with
      | Some r => replace_fuel m fuel r
      | None => match s with [] => [] | c :: s => c :: replace_fuel m fuel s end
      end
  end.

Definition ReplaceAll (m : bytes → option bytes) (s : bytes) : bytes := replace_fuel m (S (length s)) s.

(** [len(FindAllStringIndex(s, -1))]. *)
Fixpoint count_fuel (m : bytes → option bytes) (fuel : nat) (s : bytes) : nat :=
  match fuel with
  | O => 0
  | S fuel =>
      match m s with
      | Some r => S (count_fuel m fuel r)
      | None => match s with [] => 0 | _ :: s => count_fuel m fuel s end
      end
  end.

Definition CountAll (m : bytes → option bytes) (s : bytes) : nat := count_fuel m (S (length s)) s.

(** [[^\n]*?-->]. *)
Fixpoint to_close (s : bytes) : option bytes :=
  match cut_prefix (lit "-->") s with
  | Some r => Some r
  | None => match s with [] => None | c :: s => if bool_decide (c = LF) then None else to_close s end
  end.

(** [\r?\n]. *)
Definition eol (s : bytes) : option bytes :=
  match s with
  | c :: s' =>
      if bool_decide (c = LF) then Some s'
      else if bool_decide (c = CR) then match s' with d :: r => if bool_decide (d = LF) then Some r else None | [] => None end
      else None
  | [] => None
  end.

(** [[^\n]*?-->\r?\n]: the first ["-->"] at the end of the line. *)
Fixpoint to_close_eol (s : bytes) : option bytes :=
  match cut_prefix (lit "-->") s ≫= eol with
  | Some r => Some r
  | None => match s with [] => None | c :: s => if bool_decide (c = LF) then None else to_close_eol s end
  end.

(** [[^\n]*\r?\n]. *)
Fixpoint to_eol (s : bytes) : option bytes :=
  match s with
  | [] => None
  | c :: s => if bool_decide (c = LF) then Some s else to_eol s
  end.

(** [c?]. *)
Definition opt (c : ascii) (s : bytes) : bytes :=
  match s with d :: r => if bool_decide (d = c) then r else s | [] => [] end.

Definition sentinel : bytes := lit "<!-- compass:owner ".
Definition written : bytes := lit "🧭 Written by ".

Definition commentRe (s : bytes) : option bytes := cut_prefix sentinel s ≫= to_close.

Definition fullBlockRe (s : bytes) : option bytes :=
  s ← cut_prefix sentinel s; s ← to_close_eol s; s ← cut_prefix written s; s ← to_eol s; s ← eol s;
  s ← cut_prefix (lit "---") s; s ← eol s; eol s.

Definition bareCommentRe (s : bytes) : option bytes := r ← commentRe s; Some (opt LF (opt CR r)).

(** [\S]. *)
Definition nonspace (c : ascii) : bool :=
  negb (bool_decide (c ∈ [" "%char; "009"%char; LF; "012"%char; CR])).

(** [(\S+)] before a space: the longest run is the only one that can be followed by it. *)
Definition field (s : bytes) : option (bytes * bytes) :=
  let k := prefix_len nonspace s in
  if bool_decide (k = 0) then None else Some (take k s, drop k s).

Record Author := MkAuthor { AgentHandle : bytes; OwnerHandle : bytes; SessionID : bytes }.

(** [parseRe] at the start of [s]: the version and the three fields. *)
Definition parse_at (s : bytes) : option (bytes * Author) :=
  s ← cut_prefix sentinel s; '(version, s) ← field s;
  s ← cut_prefix (lit " agent=") s; '(agent, s) ← field s;
  s ← cut_prefix (lit " owner=") s; '(owner, s) ← field s;
  s ← cut_prefix (lit " session=") s; '(session, s) ← field s;
  _ ← cut_prefix (lit " -->") s; Some (version, MkAuthor agent owner session).

(** [parseRe.FindStringSubmatch]. *)
Fixpoint parseRe (s : bytes) : option (bytes * Author) :=
  match parse_at s with
  | Some x => Some x
  | None => match s with [] => None | _ :: s => parseRe s end
  end.

(** * Stamping and stripping *)

Definition handle_first (c : ascii) : bool := is_digit c || (97 <=? code c) && (code c <=? 122).
Definition handle_byte (c : ascii) : bool := handle_first c || bool_decide (c = "-"%char).

(** [handleGrammar]. *)
Definition handleGrammar (s : bytes) : bool :=
  match s with
  | c :: r => handle_first c && forallb handle_byte r && (length r <=? 38)
  | [] => false
  end.

Definition valid_author (a : Author) : bool :=
  handleGrammar (AgentHandle a) && handleGrammar (OwnerHandle a) && handleGrammar (SessionID a).

Definition header (a : Author) : bytes :=
  lit "<!-- compass:owner v1 agent=" ++ AgentHandle a ++ lit " owner=" ++ OwnerHandle a
  ++ lit " session=" ++ SessionID a ++ lit " -->" ++ [LF]
  ++ lit "🧭 Written by **@" ++ AgentHandle a ++ lit "** (Compass agent, owned by **@" ++ OwnerHandle a
  ++ lit "**)" ++ [LF; LF] ++ lit "---" ++ [LF; LF].

Definition MaxOwnerHeaderLen (session : bytes) : nat :=
  length (header (MkAuthor (replicate 39 "a"%char) (replicate 39 "a"%char) session)).

Definition removeBlocks (body : bytes) : bytes * nat :=
  (ReplaceAll bareCommentRe (ReplaceAll fullBlockRe body), CountAll commentRe body).

Inductive stampErr := ErrField | ErrBodyTooLarge.

Definition StampOwner (body : bytes) (a : Author) (bodyLimit : Z) : result stampErr bytes :=
  if negb (valid_author a) then Err ErrField
  else
    let clean := (removeBlocks body).1 in
    if bool_decide (0 < bodyLimit ∧ bodyLimit - Z.of_nat (length (header a)) < Z.of_nat (length clean))%Z
    then Err ErrBodyTooLarge
    else Ok (header a ++ clean).

(** The body without headers, and the claimed author if there is one well-formed header. *)
Definition StripOwner (body : bytes) : bytes * option Author :=
  let '(clean, count) := removeBlocks body in
  if negb (bool_decide (count = 1)) then (clean, None)
  else match parseRe body with
       | Some (version, a) =>
           if bool_decide (version = lit "v1") && valid_author a then (clean, Some a) else (clean, None)
       | None => (clean, None)
       end.

(** * Walking *)

(** A match consumes something. *)
Definition shrinks (m : bytes → option bytes) : Prop := ∀ s r, m s = Some r → length r < length s.

Section walk.
Context (m : bytes → option bytes) (Hm : shrinks m).

Lemma replace_fuel_enough f g s : length s < f → length s < g → replace_fuel m f s = replace_fuel m g s.
Proof using Hm.
  revert g s. induction f as [|f IH]; intros [|g] s Hf Hg; try lia. simpl.
  destruct (m s) as [r|] eqn:E; [apply Hm in E; apply IH; lia|].
  destruct s as [|c s]; [done|]. simpl in *. f_equal. apply IH; lia.
Qed.

Lemma count_fuel_enough f g s : length s < f → length s < g → count_fuel m f s = count_fuel m g s.
Proof using Hm.
  revert g s. induction f as [|f IH]; intros [|g] s Hf Hg; try lia. simpl.
  destruct (m s) as [r|] eqn:E; [apply Hm in E; f_equal; apply IH; lia|].
  destruct s as [|c s]; [done|]. simpl in *. apply IH; lia.
Qed.

Lemma ReplaceAll_eq s :
  ReplaceAll m s = match m s with
                   | Some r => ReplaceAll m r
                   | None => match s with [] => [] | c :: s => c :: ReplaceAll m s end
                   end.
Proof using Hm.
  unfold ReplaceAll at 1. cbn [replace_fuel]. destruct (m s) as [r|] eqn:E; [|by destruct s].
  apply Hm in E. apply replace_fuel_enough; lia.
Qed.

Lemma CountAll_eq s :
  CountAll m s = match m s with
                 | Some r => S (CountAll m r)
                 | None => match s with [] => 0 | _ :: s => CountAll m s end
                 end.
Proof using Hm.
  unfold CountAll at 1. cbn [count_fuel]. destruct (m s) as [r|] eqn:E; [|by destruct s].
  apply Hm in E. f_equal. apply count_fuel_enough; lia.
Qed.

(** Bytes that no match starts with are kept and not counted. *)
Lemma CountAll_skip c p s :
  (∀ d t r, m (d :: t) = Some r → d = c) → c ∉ p → CountAll m (p ++ s) = CountAll m s.
Proof using Hm.
  intros Hc Hp. induction p as [|d p IH]; [done|]. apply not_elem_of_cons in Hp as [Hd Hp].
  cbn [app]. rewrite CountAll_eq. destruct (m (d :: p ++ s)) as [r|] eqn:E; [apply Hc in E; congruence|]. auto.
Qed.

End walk.

(** Without matches of [m] a matcher whose matches are among those of [m] removes nothing. *)
Lemma ReplaceAll_none m m' s :
  shrinks m → shrinks m' → (∀ s, is_Some (m' s) → is_Some (m s)) → CountAll m s = 0 → ReplaceAll m' s = s.
Proof.
  intros Hm Hm' HS. induction s as [|c s IH]; rewrite (CountAll_eq m Hm), (ReplaceAll_eq m' Hm'); intros H.
  - destruct (m' []) as [r|] eqn:E; [|done]. by apply Hm' in E; simpl in E; lia.
  - destruct (m (c :: s)) as [r|] eqn:E; [done|]. destruct (m' (c :: s)) as [r|] eqn:E'; [|by rewrite IH].
    destruct (HS (c :: s)) as [x Hx]; [eauto|]. congruence.
Qed.

(** * The matchers *)

Lemma cut_prefix_shrinks p s r : cut_prefix p s = Some r → length r ≤ length s.
Proof. intros ->%cut_prefix_Some. rewrite length_app. lia. Qed.

Lemma cut_sentinel_shrinks s r : cut_prefix sentinel s = Some r → length r < length s.
Proof. intros ->%cut_prefix_Some. rewrite length_app. simpl. lia. Qed.

Lemma eol_shrinks s r : eol s = Some r → length r ≤ length s.
Proof. unfold eol. repeat case_match; intros [= <-] || done; simpl in *; lia. Qed.

Lemma to_eol_shrinks s r : to_eol s = Some r → length r ≤ length s.
Proof.
  induction s as [|c s IH]; [done|]. cbn [to_eol]. case_bool_decide; [intros [= <-]; simpl; lia|].
  intros Hr%IH. simpl. lia.
Qed.

Lemma to_close_shrinks s r : to_close s = Some r → length r ≤ length s.
Proof.
  induction s as [|c s IH]; [done|]. cbn [to_close]. destruct (cut_prefix (lit "-->") (c :: s)) eqn:E.
  - intros [= <-]. by eapply cut_prefix_shrinks.
  - case_bool_decide; [done|]. intros Hr%IH. simpl. lia.
Qed.

(** ["-->"] at the end of a line is a ["-->"]. *)
Lemma to_close_eol_close s r : to_close_eol s = Some r → is_Some (to_close s) ∧ length r ≤ length s.
Proof.
  induction s as [|c s IH]; [done|]. cbn [to_close_eol to_close].
  destruct (cut_prefix (lit "-->") (c :: s)) as [x|] eqn:E; cbn [mbind option_bind].
  - destruct (eol x) as [y|] eqn:EE.
    + intros [= <-]. split; [eauto|]. apply cut_prefix_shrinks in E. apply eol_shrinks in EE. lia.
    + case_bool_decide; [done|]. intros [_ Hr]%IH. split; [eauto|]. simpl. lia.
  - case_bool_decide; [done|]. intros [Hc Hr]%IH. split; [done|]. simpl. lia.
Qed.

Lemma comment_shrinks : shrinks commentRe.
Proof. intros s r (x & Hx & Hr)%bind_Some. apply cut_sentinel_shrinks in Hx. apply to_close_shrinks in Hr. lia. Qed.

Lemma opt_shrinks c s : length (opt c s) ≤ length s.
Proof. unfold opt. repeat case_match; simpl; lia. Qed.

Lemma bare_shrinks : shrinks bareCommentRe.
Proof.
  intros s r (x & Hx & [= <-])%bind_Some. apply comment_shrinks in Hx.
  pose proof (opt_shrinks LF (opt CR x)). pose proof (opt_shrinks CR x). lia.
Qed.

Lemma full_shrinks : shrinks fullBlockRe.
Proof.
  intros s r (x1 & H1 & (x2 & H2 & (x3 & H3 & (x4 & H4 & (x5 & H5 & (x6 & H6 & (x7 & H7 & H8)%bind_Some)
    %bind_Some)%bind_Some)%bind_Some)%bind_Some)%bind_Some)%bind_Some.
  apply cut_sentinel_shrinks in H1. apply to_close_eol_close in H2 as [_ H2].
  apply cut_prefix_shrinks in H3, H6. apply to_eol_shrinks in H4. apply eol_shrinks in H5, H7, H8. lia.
Qed.

Lemma bare_comment s : is_Some (bareCommentRe s) → is_Some (commentRe s).
Proof. intros [r (x & Hx & _)%bind_Some]. eauto. Qed.

Lemma full_comment s : is_Some (fullBlockRe s) → is_Some (commentRe s).
Proof.
  intros [r (x1 & H1 & (x2 & H2 & _)%bind_Some)%bind_Some]. unfold commentRe. rewrite H1. cbn [mbind option_bind].
  by apply to_close_eol_close in H2 as [? _].
Qed.

Lemma comment_lt d t r : commentRe (d :: t) = Some r → d = "<"%char.
Proof. intros (x & Hx & _)%bind_Some. apply cut_prefix_Some in Hx. by injection Hx. Qed.

(** A body without comments is kept. *)
Lemma removeBlocks_clean c : CountAll commentRe c = 0 → removeBlocks c = (c, 0).
Proof.
  intros H. unfold removeBlocks. rewrite H.
  rewrite (ReplaceAll_none commentRe fullBlockRe c comment_shrinks full_shrinks full_comment H).
  by rewrite (ReplaceAll_none commentRe bareCommentRe c comment_shrinks bare_shrinks bare_comment H).
Qed.

(** * The stamped header *)

Definition no_comment (c : bytes) : Prop := CountAll commentRe c = 0.

(** The line breaks a forge may store. *)
Inductive newline : bytes → Prop := nl_lf : newline [LF] | nl_crlf : newline [CR; LF].

Definition fields (a : Author) : bytes :=
  lit "v1 agent=" ++ AgentHandle a ++ lit " owner=" ++ OwnerHandle a ++ lit " session=" ++ SessionID a ++ lit " ".

Definition byline (a : Author) : bytes :=
  lit "**@" ++ AgentHandle a ++ lit "** (Compass agent, owned by **@" ++ OwnerHandle a ++ lit "**)".

(** The header with line breaks [nl]. *)
Definition header_nl (nl : bytes) (a : Author) : bytes :=
  sentinel ++ fields a ++ lit "-->" ++ nl ++ written ++ byline a ++ nl ++ nl ++ lit "---" ++ nl ++ nl.

Lemma header_lf a : header a = header_nl [LF] a.
Proof. unfold header, header_nl, fields, byline. simpl. repeat (rewrite <- !app_assoc; simpl). done. Qed.

Lemma handle_bytes s c : handleGrammar s = true → c ∈ s → handle_byte c = true.
Proof.
  destruct s as [|d r]; [done|]. intros [[Hd Hr]%andb_true_iff _]%andb_true_iff [->|Hc]%elem_of_cons.
  - unfold handle_byte. by rewrite Hd.
  - rewrite forallb_forall in Hr. by apply Hr, list_elem_of_In.
Qed.

(** Bytes that no handle has. *)
Lemma handle_without s c : handleGrammar s = true → handle_byte c = false → c ∉ s.
Proof. intros Hs Hc Hin. apply (handle_bytes s c Hs) in Hin. congruence. Qed.

Section valid.
Context (a : Author) (Ha : valid_author a = true).

Lemma valid_parts :
  handleGrammar (AgentHandle a) = true ∧ handleGrammar (OwnerHandle a) = true ∧ handleGrammar (SessionID a) = true.
Proof using Ha. by apply andb_true_iff in Ha as [[? ?]%andb_true_iff ?]. Qed.

Lemma fields_without c : handle_byte c = false → c ∉ lit "v1 agent= owner= session= " → c ∉ fields a.
Proof using Ha.
  intros Hb Hc. destruct valid_parts as (H1 & H2 & H3).
  pose proof (handle_without _ c H1 Hb). pose proof (handle_without _ c H2 Hb). pose proof (handle_without _ c H3 Hb).
  unfold fields. rewrite !not_elem_of_app. repeat split; try done; intros Hin; apply Hc; revert Hin; simpl; set_solver.
Qed.

Lemma byline_without c : handle_byte c = false → c ∉ lit "**@** (Compass agent, owned by **@**)" → c ∉ byline a.
Proof using Ha.
  intros Hb Hc. destruct valid_parts as (H1 & H2 & _).
  pose proof (handle_without _ c H1 Hb). pose proof (handle_without _ c H2 Hb).
  unfold byline. rewrite !not_elem_of_app. repeat split; try done; intros Hin; apply Hc; revert Hin; simpl; set_solver.
Qed.

End valid.

Lemma close_in c w r : cut_prefix (lit "-->") (c :: w ++ lit "-->" ++ r) ≠ None → ">"%char ∈ c :: w.
Proof.
  destruct (cut_prefix _ _) as [x|] eqn:E; [intros _|done]. apply cut_prefix_Some in E.
  destruct w as [|d [|e w]]; simpl in E; [congruence|congruence|]. injection E as -> -> -> _. set_solver.
Qed.

Lemma to_close_app w r : ">"%char ∉ w → LF ∉ w → to_close (w ++ lit "-->" ++ r) = Some r.
Proof.
  induction w as [|c w IH]; intros Hg Hn.
  - change ([] ++ lit "-->" ++ r) with ("-"%char :: "-"%char :: ">"%char :: r). cbn [to_close].
    change ("-"%char :: "-"%char :: ">"%char :: r) with (lit "-->" ++ r). by rewrite cut_prefix_app.
  - cbn [app to_close]. destruct (cut_prefix (lit "-->") _) eqn:E.
    { destruct Hg. eapply close_in. by rewrite E. }
    rewrite bool_decide_false by set_solver. apply IH; set_solver.
Qed.

Lemma eol_nl nl r : newline nl → eol (nl ++ r) = Some r.
Proof. by intros []. Qed.

Lemma to_close_eol_app w nl r :
  newline nl → ">"%char ∉ w → LF ∉ w → to_close_eol (w ++ lit "-->" ++ nl ++ r) = Some r.
Proof.
  intros Hnl. induction w as [|c w IH]; intros Hg Hn.
  - change ([] ++ lit "-->" ++ nl ++ r) with ("-"%char :: "-"%char :: ">"%char :: nl ++ r). cbn [to_close_eol].
    change ("-"%char :: "-"%char :: ">"%char :: nl ++ r) with (lit "-->" ++ nl ++ r). rewrite cut_prefix_app.
    cbn [mbind option_bind]. by rewrite eol_nl.
  - cbn [app to_close_eol]. destruct (cut_prefix (lit "-->") _) eqn:E.
    { destruct Hg. eapply close_in. by rewrite E. }
    cbn [mbind option_bind]. rewrite bool_decide_false by set_solver. apply IH; set_solver.
Qed.

Lemma to_eol_app w nl r : newline nl → LF ∉ w → to_eol (w ++ nl ++ r) = Some r.
Proof.
  intros Hnl. induction w as [|c w IH]; intros Hn; [by destruct Hnl|].
  cbn [app to_eol]. rewrite bool_decide_false by set_solver. apply IH. set_solver.
Qed.

Lemma field_app w r :
  w ≠ [] → forallb nonspace w = true → field (w ++ " "%char :: r) = Some (w, " "%char :: r).
Proof.
  intros Hw HF. unfold field.
  assert (prefix_len nonspace (w ++ " "%char :: r) = length w) as ->.
  { clear Hw. induction w as [|c w IH]; [done|]. simpl in HF |- *. apply andb_true_iff in HF as [-> HF]. by rewrite IH. }
  rewrite bool_decide_false by (destruct w; simpl; [done|lia]).
  by rewrite take_app_length, drop_app_length.
Qed.

Lemma handle_field s : handleGrammar s = true → s ≠ [] ∧ forallb nonspace s = true.
Proof.
  intros Hs. split; [by destruct s|]. apply forallb_forall. intros c Hc%list_elem_of_In.
  unfold nonspace. apply negb_true_iff, bool_decide_eq_false. intros Hin.
  apply (handle_bytes s c Hs) in Hc. revert Hc. repeat (apply elem_of_cons in Hin as [->|Hin]; [done|]). by apply elem_of_nil in Hin.
Qed.

Section stamped.
Context (a : Author) (Ha : valid_author a = true) (nl : bytes) (Hnl : newline nl).

Lemma fields_gt_lf : ">"%char ∉ fields a ∧ LF ∉ fields a.
Proof using Ha. clear nl Hnl. split; (apply fields_without; [done|done|by apply has_byte_false]). Qed.

Lemma full_header c : fullBlockRe (header_nl nl a ++ c) = Some c.
Proof using Ha Hnl.
  destruct fields_gt_lf as [Hg Hn]. unfold fullBlockRe, header_nl. repeat rewrite <- app_assoc.
  rewrite cut_prefix_app. cbn [mbind option_bind]. rewrite to_close_eol_app by done. cbn [mbind option_bind].
  rewrite cut_prefix_app. cbn [mbind option_bind].
  rewrite to_eol_app by (done || (apply byline_without; [done|done|by apply has_byte_false])). cbn [mbind option_bind].
  rewrite eol_nl by done. cbn [mbind option_bind]. rewrite cut_prefix_app. cbn [mbind option_bind].
  rewrite eol_nl by done. cbn [mbind option_bind]. by apply eol_nl.
Qed.

Lemma count_header c : CountAll commentRe (header_nl nl a ++ c) = S (CountAll commentRe c).
Proof using Ha Hnl.
  destruct fields_gt_lf as [Hg Hn]. unfold header_nl. repeat rewrite <- app_assoc.
  rewrite (CountAll_eq commentRe comment_shrinks). unfold commentRe at 1. rewrite cut_prefix_app. cbn [mbind option_bind].
  rewrite to_close_app by done. f_equal.
  replace (nl ++ written ++ byline a ++ nl ++ nl ++ lit "---" ++ nl ++ nl ++ c)
    with ((nl ++ written ++ byline a ++ nl ++ nl ++ lit "---" ++ nl ++ nl) ++ c) by (by repeat rewrite <- app_assoc).
  apply (CountAll_skip commentRe comment_shrinks "<"%char); [apply comment_lt|].
  assert ("<"%char ∉ nl) by (destruct Hnl; by apply has_byte_false).
  rewrite !not_elem_of_app. repeat split; try done; try by apply has_byte_false.
  apply byline_without; [done|done|by apply has_byte_false].
Qed.

Lemma parse_header c : parseRe (header_nl nl a ++ c) = Some (lit "v1", a).
Proof using Ha.
  assert (parse_at (header_nl nl a ++ c) = Some (lit "v1", a)) as HP.
  { destruct (valid_parts a Ha) as (H1 & H2 & H3).
    apply handle_field in H1 as [N1 F1], H2 as [N2 F2], H3 as [N3 F3].
    unfold parse_at, header_nl, fields. repeat rewrite <- app_assoc.
    rewrite cut_prefix_app. cbn [mbind option_bind].
    change (lit "v1 agent=" ++ ?r) with (lit "v1" ++ " "%char :: (lit "agent=" ++ r)).
    rewrite field_app by done. cbn [mbind option_bind].
    change (" "%char :: lit "agent=" ++ ?r) with (lit " agent=" ++ r). rewrite cut_prefix_app. cbn [mbind option_bind].
    change (lit " owner=" ++ ?r) with (" "%char :: (lit "owner=" ++ r)).
    rewrite field_app by done. cbn [mbind option_bind].
    change (" "%char :: lit "owner=" ++ ?r) with (lit " owner=" ++ r). rewrite cut_prefix_app. cbn [mbind option_bind].
    change (lit " session=" ++ ?r) with (" "%char :: (lit "session=" ++ r)).
    rewrite field_app by done. cbn [mbind option_bind].
    change (" "%char :: lit "session=" ++ ?r) with (lit " session=" ++ r). rewrite cut_prefix_app. cbn [mbind option_bind].
    change (lit " " ++ ?r) with (" "%char :: r).
    rewrite field_app by done. cbn [mbind option_bind].
    change (" "%char :: lit "-->" ++ ?r) with (lit " -->" ++ r). rewrite cut_prefix_app. cbn [mbind option_bind].
    by destruct a. }
  destruct (header_nl nl a ++ c) as [|d s]; cbn [parseRe]; by rewrite HP.
Qed.

End stamped.

Lemma remove_header nl a c :
  newline nl → valid_author a = true → no_comment c → removeBlocks (header_nl nl a ++ c) = (c, 1).
Proof.
  intros Hnl Ha Hc. unfold removeBlocks. rewrite count_header, Hc by done.
  rewrite (ReplaceAll_eq fullBlockRe full_shrinks), full_header by done.
  pose proof (removeBlocks_clean c Hc) as HR. unfold removeBlocks in HR. by injection HR as ->.
Qed.

Lemma strip_header nl a c :
  newline nl → valid_author a = true → no_comment c → StripOwner (header_nl nl a ++ c) = (c, Some a).
Proof.
  intros Hnl Ha Hc. unfold StripOwner. rewrite remove_header, parse_header by done. cbn [negb].
  rewrite bool_decide_true by done. simpl. by rewrite Ha.
Qed.

(** With comments left in the body the claim is refused. *)
Lemma strip_ambiguous a c :
  valid_author a = true → ¬ no_comment c → ∃ c', StripOwner (header a ++ c) = (c', None).
Proof.
  intros Ha Hc. unfold StripOwner, removeBlocks. rewrite header_lf, count_header by (done || constructor).
  rewrite bool_decide_false by (unfold no_comment in Hc; lia). eexists. reflexivity.
Qed.

(** * Claims *)

(** What stamping does, on every input: an illegal field or a body that does not fit
    beside the reserved header is refused; otherwise the result is the Server's header
    in front of the stripped body, within the limit, and a reader of that text never
    attributes it to anyone but the stamped author: it reads that author when the
    stripped body holds no owner comment, and no author otherwise. *)
Theorem stamp_owner_exact body a bodyLimit :
  let clean := (removeBlocks body).1 in
  match StampOwner body a bodyLimit with
  | Err ErrField => valid_author a = false
  | Err ErrBodyTooLarge =>
      valid_author a = true ∧ (0 < bodyLimit < Z.of_nat (length (header a ++ clean)))%Z
  | Ok s =>
      valid_author a = true ∧ s = header a ++ clean
      ∧ (0 < bodyLimit → Z.of_nat (length s) ≤ bodyLimit)%Z
      ∧ ∃ c, StripOwner s = (c, if bool_decide (no_comment clean) then Some a else None)
  | Panic => False
  end.
Proof.
  intros clean. unfold StampOwner. fold clean. destruct (valid_author a) eqn:Ha; cbn [negb]; [|done].
  case_bool_decide as HL; [split; [done|]; rewrite length_app; lia|].
  split; [done|]. split; [done|]. split; [rewrite length_app; lia|].
  case_bool_decide as Hc.
  - exists clean. rewrite header_lf. apply strip_header; [constructor|done|done].
  - by apply strip_ambiguous.
Qed.

(** Attribution survives the trip through a forge: from the stamped text, with line
    feeds or with the CRLF line breaks forges store, a reader gets back exactly the body
    and the author, and stamping it again, with the same or another author, gives what
    stamping the plain body gives (so stamping is idempotent and replaces, never
    appends), for every body without an owner comment. *)
Theorem owner_roundtrip nl a b c bodyLimit :
  newline nl → valid_author a = true → CountAll commentRe c = 0 →
  StripOwner (header_nl nl a ++ c) = (c, Some a)
  ∧ StampOwner (header_nl nl a ++ c) b bodyLimit = StampOwner c b bodyLimit
  ∧ (∀ s, StampOwner c a bodyLimit = Ok s → s = header_nl [LF] a ++ c ∧ StampOwner s a bodyLimit = Ok s).
Proof.
  intros Hnl Ha Hc.
  assert (∀ nl x, newline nl → StampOwner (header_nl nl a ++ c) x bodyLimit = StampOwner c x bodyLimit) as HS.
  { intros nl' x Hnl'. unfold StampOwner. by rewrite remove_header, removeBlocks_clean. }
  split; [by apply strip_header|]. split; [by apply HS|]. intros s Hs.
  assert (s = header_nl [LF] a ++ c) as ->.
  { unfold StampOwner in Hs. rewrite Ha, removeBlocks_clean in Hs by done. cbn [negb fst] in Hs.
    case_bool_decide; [done|]. rewrite <- header_lf. congruence. }
  split; [done|]. rewrite HS by constructor. exact Hs.
Qed.

(** * Nested comments

    Removing a comment can join the text around it into a new one: the stamped text then
    has two owner comments, nobody is attributed, and stamping it again changes it. *)

Definition nested : bytes :=
  lit "<!-- comp<!-- compass:owner -->ass:owner v1 agent=eve owner=eve session=1 -->".

Definition bob : Author := MkAuthor (lit "bob") (lit "alice") (lit "s1").

Lemma nested_comment_survives :
  StampOwner nested bob 0 = Ok (header bob ++ lit "<!-- compass:owner v1 agent=eve owner=eve session=1 -->")
  ∧ (StripOwner (header bob ++ lit "<!-- compass:owner v1 agent=eve owner=eve session=1 -->")).2 = None
  ∧ StampOwner (header bob ++ lit "<!-- compass:owner v1 agent=eve owner=eve session=1 -->") bob 0 = Ok (header bob).
Proof. split; [vm_compute; reflexivity|]. split; vm_compute; reflexivity. Qed.

Lemma owner_roundtrip_witness :
  StripOwner (header_nl [CR; LF] bob ++ lit "Fixes #3.") = (lit "Fixes #3.", Some bob)
  ∧ StampOwner (header_nl [CR; LF] bob ++ lit "Fixes #3.") bob 1000 = StampOwner (lit "Fixes #3.") bob 1000.
Proof.
  destruct (owner_roundtrip [CR; LF] bob bob (lit "Fixes #3.") 1000) as (H1 & H2 & _);
    [constructor|vm_compute; reflexivity|vm_compute; reflexivity|]. by split.
Defined.

End ForgeOwner.
