(* ===== verification/ForgeDetect.v ===== *)
(** Change detection for forge notifications ([src/go/internal/ingest/notify_detect.go]):
    the snapshot of an artifact, how a webhook event changes it ([ApplyEvent]), how a full
    fetch is compared with it ([DetectChanges]), and the digest that keys it.

    JSON and SHA-256 are arguments: [marshal] and [unmarshal] for the snapshot, [digest]
    for the hex digest of bytes.  The claims take JSON to read back what it wrote, as it
    does for valid UTF-8, the only texts that the forges' own JSON decodes to.
    [slices.SortFunc] is not stable; [distinct_runs] keeps equal keys out of the claims. *)
From stdpp Require Import base list strings gmap sorting.
From Stdlib Require Import Ascii String ZArith Lia.
From S2P Require Import Prelude Text ForgeOwner.

Module ForgeDetect.
Import ForgeOwner.

Open Scope Z_scope.

(** * Data *)

Inductive ForgeProvider := ProviderUnspecified | Github | Gitlab | Forgejo | Linear.

Inductive ForgeArtifactKind := KindUnspecified | KindIssue | KindPullRequest.

Inductive ForgeNotificationKind :=
| NotifyUnspecified | NotifyComment | NotifyState | NotifyUpdate | NotifyChecks | NotifyReview | NotifyOpened.

#[export] Instance ForgeProvider_eq_dec : EqDecision ForgeProvider.
Proof. solve_decision. Defined.
#[export] Instance ForgeArtifactKind_eq_dec : EqDecision ForgeArtifactKind.
Proof. solve_decision. Defined.
#[export] Instance ForgeNotificationKind_eq_dec : EqDecision ForgeNotificationKind.
Proof. solve_decision. Defined.

(** A check run.  The forge's, the snapshot's and the wire's types have the same fields
    and are one type here. *)
Record Check := MkCheck { Name : bytes; CheckState : bytes; CheckURL : bytes; Required : bool }.

#[export] Instance Check_eq_dec : EqDecision Check.
Proof. solve_decision. Defined.

Record Checks := MkChecks { HeadSHA : bytes; RollUp : bytes; Runs : list Check }.

#[export] Instance Checks_eq_dec : EqDecision Checks.
Proof. solve_decision. Defined.

Record SnapshotComment := MkSnapshotComment { Key : bytes; Body : bytes; ForgeAccount : bytes }.

Record ArtifactSnapshot := MkSnapshot {
  State : bytes;
  Comments : gmap bytes SnapshotComment;
  SnapChecks : option Checks;
  HighWaterNumber : Z;
}.

Definition zeroSnapshot : ArtifactSnapshot := MkSnapshot [] ∅ None 0.

(** The forge's comment and a new artifact. *)
Record ForgeComment := MkComment { c_Key : bytes; c_URL : bytes; c_Body : bytes; c_ForgeAccount : bytes }.

Record NewArtifact := MkArtifact { a_Number : Z; a_URL : bytes; a_Project : bytes }.

Record CommentRef := MkRef {
  r_Url : bytes;
  r_CommentKey : bytes;
  r_Body : bytes;
  r_ForgeAccount : bytes;
  r_Agent : option (bytes * bytes);
}.

Record ForgeEvent := MkEvent {
  ev_Provider : ForgeProvider;
  ev_Host : bytes;
  ev_Repo : bytes;
  ev_Kind : ForgeArtifactKind;
  ev_Number : Z;
  ev_Project : bytes;
  ev_URL : bytes;
  ev_Change : ForgeNotificationKind;
  ev_Comment : option CommentRef;
  ev_Checks : option Checks;
  ev_HeadSHA : bytes;
  ev_State : bytes;
}.

Record FetchedArtifact := MkFetched {
  f_Provider : ForgeProvider;
  f_Host : bytes;
  f_Repo : bytes;
  f_Kind : ForgeArtifactKind;
  f_Number : Z;
  f_URL : bytes;
  f_Container : bool;
  f_State : bytes;
  f_Comments : list ForgeComment;
  f_Checks : option Checks;
  f_NewArtifacts : list NewArtifact;
}.

(** * Canonical form *)

(** Checks by name, then URL. *)
Definition check_le (x y : Check) : Prop :=
  if decide (Name x = Name y) then bytes_leb (CheckURL x) (CheckURL y) = true
  else bytes_leb (Name x) (Name y) = true.

#[export] Instance check_le_dec : RelDecision check_le.
Proof. intros x y. unfold check_le. case_decide; apply _. Defined.

Definition sort_checks (c : Checks) : Checks :=
  MkChecks (HeadSHA c) (RollUp c) (merge_sort check_le (Runs c)).

(** [checksFromSummary]; [checksSummaryFromForge] and [summaryFromChecks] copy. *)
Definition checksFromSummary (c : Checks) : Checks := sort_checks c.

(** What [canonicalJSON] encodes. *)
Definition canonical (s : ArtifactSnapshot) : ArtifactSnapshot :=
  MkSnapshot (State s) (Comments s) (sort_checks <$> SnapChecks s) (HighWaterNumber s).

(** * Webhooks *)

Definition ApplyEvent (prev : option ArtifactSnapshot) (ev : ForgeEvent) : ArtifactSnapshot :=
  let s := default zeroSnapshot prev in
  match ev_Change ev with
  | NotifyComment =>
      match ev_Comment ev with
      | Some r =>
          if bool_decide (r_CommentKey r = []) then s
          else MkSnapshot (State s)
                 (<[r_CommentKey r := MkSnapshotComment (r_CommentKey r) (r_Body r) (r_ForgeAccount r)]> (Comments s))
                 (SnapChecks s) (HighWaterNumber s)
      | None => s
      end
  | NotifyState => MkSnapshot (ev_State ev) (Comments s) (SnapChecks s) (HighWaterNumber s)
  | NotifyChecks =>
      match ev_Checks ev with
      | Some c => MkSnapshot (State s) (Comments s) (Some (checksFromSummary c)) (HighWaterNumber s)
      | None => s
      end
  | NotifyOpened =>
      if bool_decide (HighWaterNumber s < ev_Number ev)
      then MkSnapshot (State s) (Comments s) (SnapChecks s) (ev_Number ev) else s
  | _ => s
  end.

(** * The sweep *)

Definition snapshot_comment (c : ForgeComment) : SnapshotComment :=
  MkSnapshotComment (c_Key c) (StripOwner (c_Body c)).1 (c_ForgeAccount c).

Definition add_comments (m : gmap bytes SnapshotComment) (cs : list ForgeComment) : gmap bytes SnapshotComment :=
  foldl (λ m c, if bool_decide (c_Key c = []) then m else <[c_Key c := snapshot_comment c]> m) m cs.

(** The snapshot an artifact fetch rebuilds. *)
Definition rebuilt (prev : option ArtifactSnapshot) (f : FetchedArtifact) : ArtifactSnapshot :=
  MkSnapshot (f_State f) (add_comments ∅ (f_Comments f)) (checksFromSummary <$> f_Checks f)
    (match prev with Some p => HighWaterNumber p | None => 0 end).

Definition event_of (f : FetchedArtifact) (number : Z) (url project : bytes) (k : ForgeNotificationKind)
    (c : option CommentRef) (ch : option Checks) (sha state : bytes) : ForgeEvent :=
  MkEvent (f_Provider f) (f_Host f) (f_Repo f) (f_Kind f) number project url k c ch sha state.

Definition comment_event (f : FetchedArtifact) (c : ForgeComment) : ForgeEvent :=
  let '(clean, author) := StripOwner (c_Body c) in
  event_of f (f_Number f) (c_URL c) [] NotifyComment
    (Some (MkRef (c_URL c) (c_Key c) clean (c_ForgeAccount c) ((λ a, (AgentHandle a, OwnerHandle a)) <$> author)))
    None [] [].

(** A comment that the stored snapshot does not have. *)
Definition new_comment (p : ArtifactSnapshot) (c : ForgeComment) : Prop :=
  c_Key c ≠ [] ∧ Comments p !! c_Key c = None.

#[export] Instance new_comment_dec p c : Decision (new_comment p c).
Proof. unfold new_comment. apply _. Defined.

Section detect.
Context (marshal : ArtifactSnapshot → bytes) (unmarshal : bytes → option ArtifactSnapshot) (digest : bytes → bytes).

Definition canonicalJSON (s : ArtifactSnapshot) : bytes := marshal (canonical s).

Definition SnapshotRevision (s : ArtifactSnapshot) : bytes := digest (canonicalJSON s).

Definition checksChanged (a b : option Checks) : bool :=
  negb (bool_decide (canonicalJSON (MkSnapshot [] ∅ a 0) = canonicalJSON (MkSnapshot [] ∅ b 0))).

Definition detectArtifact (prev : option ArtifactSnapshot) (f : FetchedArtifact)
    : ArtifactSnapshot * list ForgeEvent :=
  let next := rebuilt prev f in
  match prev with
  | None => (next, [])
  | Some p =>
      (next,
       (comment_event f <$> filter (new_comment p) (f_Comments f))
       ++ (if bool_decide (f_State f = State p) then []
           else [event_of f (f_Number f) (f_URL f) [] NotifyState None None [] (f_State f)])
       ++ match f_Checks f with
          | Some c =>
              if checksChanged (SnapChecks p) (SnapChecks next)
              then [event_of f (f_Number f) (f_URL f) [] NotifyChecks None (Some c) (HeadSHA c) []]
              else []
          | None => []
          end)
  end.

Definition detectContainer (prev : option ArtifactSnapshot) (f : FetchedArtifact)
    : ArtifactSnapshot * list ForgeEvent :=
  let base := match prev with Some p => HighWaterNumber p | None => 0 end in
  let next := MkSnapshot [] ∅ None (foldl (λ h a, if bool_decide (h < a_Number a) then a_Number a else h)
                                     base (f_NewArtifacts f)) in
  match prev with
  | None => (next, [])
  | Some _ =>
      (next,
       (λ a, event_of f (a_Number a) (a_URL a) (a_Project a) NotifyOpened None None [] [])
         <$> filter (λ a, base < a_Number a) (f_NewArtifacts f))
  end.

Definition DetectChanges (prev : option ArtifactSnapshot) (f : FetchedArtifact)
    : list ForgeEvent * ArtifactSnapshot * bytes :=
  let '(next, changes) := if f_Container f then detectContainer prev f else detectArtifact prev f in
  let next := default zeroSnapshot (unmarshal (canonicalJSON next)) in
  (changes, next, SnapshotRevision next).

End detect.

(** * Canonical form: facts *)

Lemma check_le_total x y : check_le x y ∨ check_le y x.
Proof.
  unfold check_le. destruct (decide (Name x = Name y)) as [E|E].
  - rewrite decide_True by done. apply bytes_leb_total.
  - rewrite decide_False by done. apply bytes_leb_total.
Qed.

#[export] Instance check_le_Total : Total check_le.
Proof. intros x y. apply check_le_total. Qed.

#[export] Instance check_le_Transitive : Transitive check_le.
Proof.
  intros x y z. unfold check_le. intros H1 H2.
  destruct (decide (Name x = Name y)) as [E1|E1], (decide (Name y = Name z)) as [E2|E2].
  - rewrite decide_True by congruence. by eapply bytes_leb_trans.
  - rewrite decide_False by congruence. by rewrite E1.
  - rewrite decide_False by congruence. by rewrite <- E2.
  - destruct (decide (Name x = Name z)) as [E|E]; [|by eapply bytes_leb_trans].
    exfalso. apply E1. apply bytes_leb_antisym; [done|]. by rewrite E.
Qed.

Definition check_key (c : Check) : bytes * bytes := (Name c, CheckURL c).

Lemma check_le_key x y : check_le x y → check_le y x → check_key x = check_key y.
Proof.
  unfold check_le, check_key. destruct (decide (Name x = Name y)) as [E|E].
  - rewrite decide_True by done. intros H1 H2. f_equal; [done|]. by apply bytes_leb_antisym.
  - rewrite decide_False by done. intros H1 H2. destruct E. by apply bytes_leb_antisym.
Qed.

(** No two runs have the same name and URL; then the canonical order is unique. *)
Definition distinct_runs (c : Checks) : Prop := NoDup (check_key <$> Runs c).

Lemma sort_checks_unique c1 c2 :
  HeadSHA c1 = HeadSHA c2 → RollUp c1 = RollUp c2 → Runs c1 ≡ₚ Runs c2 → distinct_runs c1 →
  sort_checks c1 = sort_checks c2.
Proof.
  intros E1 E2 HP HN. unfold sort_checks. f_equal; [done|done|].
  apply (Sorted_unique_strong check_le); [|apply (Sorted_merge_sort check_le)..|by rewrite !merge_sort_Permutation].
  intros x y. rewrite !merge_sort_Permutation. intros Hx Hy H1 H2. rewrite <- HP in Hy.
  pose proof (check_le_key x y H1 H2) as EK.
  apply list_elem_of_lookup in Hx as [i Hi]. apply list_elem_of_lookup in Hy as [j Hj].
  assert (i = j) as ->; [|congruence].
  apply (NoDup_lookup (check_key <$> Runs c1) i j (check_key x)); [done|by rewrite list_lookup_fmap, Hi|].
  by rewrite list_lookup_fmap, Hj, EK.
Qed.

Lemma sort_checks_idemp c : distinct_runs c → sort_checks (sort_checks c) = sort_checks c.
Proof.
  intros HN. symmetry. apply sort_checks_unique; [done|done| |done]. simpl. by rewrite merge_sort_Permutation.
Qed.

(** * Comments *)

Lemma add_comments_lookup m cs k :
  add_comments m cs !! k =
  match last (filter (λ c, c_Key c = k ∧ k ≠ []) cs) with
  | Some c => Some (snapshot_comment c)
  | None => m !! k
  end.
Proof.
  induction cs as [|c cs IH] using rev_ind; [done|].
  unfold add_comments in *. rewrite foldl_snoc, filter_app, filter_cons, filter_nil. simpl.
  destruct (decide (c_Key c = k ∧ k ≠ [])) as [[<- Hk]|Hk].
  - rewrite bool_decide_false by done. rewrite lookup_insert_eq, last_snoc. done.
  - rewrite app_nil_r. case_bool_decide as E; [done|]. rewrite lookup_insert_ne; [done|]. naive_solver.
Qed.

(** Applying the events of new comments is adding those comments. *)
Lemma apply_comments f s cs :
  Forall (λ c, c_Key c ≠ []) cs →
  foldl (λ s ev, ApplyEvent (Some s) ev) s (comment_event f <$> cs)
  = MkSnapshot (State s) (add_comments (Comments s) cs) (SnapChecks s) (HighWaterNumber s).
Proof.
  revert s. induction cs as [|c cs IH]; intros s; [by destruct s|]. intros [Hc HF]%Forall_cons.
  cbn [fmap list_fmap foldl add_comments]. rewrite IH by done. unfold comment_event, snapshot_comment.
  destruct (StripOwner (c_Body c)) as [clean author]. unfold ApplyEvent. simpl.
  rewrite bool_decide_false by done. done.
Qed.

(** * Claims *)

Section claims.
Context (marshal : ArtifactSnapshot → bytes) (unmarshal : bytes → option ArtifactSnapshot) (digest : bytes → bytes).
Context (json_roundtrip : ∀ s, unmarshal (marshal s) = Some s).

Notation detect := (DetectChanges marshal unmarshal digest).
Notation revision := (SnapshotRevision marshal digest).

(** Distinct runs in an optional roll-up. *)
Definition runs_ok (c : option Checks) : Prop := ∀ x, c = Some x → distinct_runs x.

Lemma detect_next prev f :
  detect prev f =
  let '(next, changes) := if f_Container f then detectContainer prev f else detectArtifact marshal prev f in
  (changes, canonical next, revision (canonical next)).
Proof using json_roundtrip.
  unfold DetectChanges. destruct (if f_Container f then _ else _) as [next changes].
  unfold canonicalJSON. by rewrite json_roundtrip.
Qed.

Lemma canonical_idemp s : runs_ok (SnapChecks s) → canonical (canonical s) = canonical s.
Proof.
  intros H. unfold canonical. simpl. f_equal. destruct (SnapChecks s) as [c|]; [|done]. simpl.
  f_equal. apply sort_checks_idemp. by apply H.
Qed.

Lemma rebuilt_runs prev f : runs_ok (f_Checks f) → runs_ok (SnapChecks (rebuilt prev f)).
Proof.
  intros H x. simpl. destruct (f_Checks f) as [c|] eqn:E; [|done]. intros [= <-]. unfold distinct_runs. simpl.
  rewrite merge_sort_Permutation. by apply H.
Qed.

(** Unchanged checks have the same canonical form. *)
Lemma checks_unchanged a b :
  checksChanged marshal a b = false ↔ sort_checks <$> a = sort_checks <$> b.
Proof using json_roundtrip.
  unfold checksChanged. rewrite negb_false_iff, bool_decide_eq_true. unfold canonicalJSON, canonical. simpl. split.
  - intros H. apply (f_equal unmarshal) in H. rewrite !json_roundtrip in H. congruence.
  - by intros ->.
Qed.

(** The snapshot a sweep may be compared with: nothing the stored snapshot has was edited
    or deleted since; for a container row, a container's snapshot. *)
Definition additive (p : ArtifactSnapshot) (f : FetchedArtifact) : Prop :=
  if f_Container f then State p = [] ∧ Comments p = ∅ ∧ SnapChecks p = None
  else (∀ k c, Comments p !! k = Some c → add_comments ∅ (f_Comments f) !! k = Some c)
       ∧ (f_Checks f = None → SnapChecks p = None).

Notation apply_all := (foldl (λ s ev, ApplyEvent (Some s) ev)).

Lemma new_comments_all p f :
  (∀ k c, Comments p !! k = Some c → add_comments ∅ (f_Comments f) !! k = Some c) →
  add_comments (Comments p) (filter (new_comment p) (f_Comments f)) = add_comments ∅ (f_Comments f).
Proof.
  intros HA. apply map_eq. intros k. rewrite !add_comments_lookup, list_filter_filter, lookup_empty.
  destruct (Comments p !! k) as [c|] eqn:E.
  - assert (filter (λ x, (c_Key x = k ∧ k ≠ []) ∧ new_comment p x) (f_Comments f) = []) as ->.
    { apply filter_none, Forall_forall. intros x _ [[Hx _] [_ Hn]]. subst k. congruence. }
    simpl. specialize (HA k c E). rewrite add_comments_lookup, lookup_empty in HA. by rewrite HA.
  - rewrite (list_filter_iff (λ x, (c_Key x = k ∧ k ≠ []) ∧ new_comment p x) (λ c, c_Key c = k ∧ k ≠ [])); [done|].
    intros x. unfold new_comment. split; [tauto|]. intros [Hx Hk]. subst k. auto.
Qed.

Lemma opened_all f h l :
  apply_all (MkSnapshot [] ∅ None h)
    ((λ a, event_of f (a_Number a) (a_URL a) (a_Project a) NotifyOpened None None [] []) <$> l)
  = MkSnapshot [] ∅ None (foldl (λ h a, if bool_decide (h < a_Number a) then a_Number a else h) h l).
Proof.
  revert h. induction l as [|a l IH]; intros h; [done|]. cbn [fmap list_fmap foldl]. unfold ApplyEvent at 2. simpl.
  case_bool_decide; apply IH.
Qed.

Lemma high_filter h b l :
  b ≤ h → foldl (λ h a, if bool_decide (h < a_Number a) then a_Number a else h) h (filter (λ a, b < a_Number a) l)
        = foldl (λ h a, if bool_decide (h < a_Number a) then a_Number a else h) h l.
Proof.
  revert h. induction l as [|a l IH]; intros h Hb; [done|]. rewrite filter_cons. cbn [foldl].
  destruct (decide (b < a_Number a)); [cbn [foldl]; apply IH; case_bool_decide; lia|].
  rewrite bool_decide_false by lia. by apply IH.
Qed.

Lemma high_max l h :
  h ≤ foldl (λ h a, if bool_decide (h < a_Number a) then a_Number a else h) h l
  ∧ ∀ a, a ∈ l → a_Number a ≤ foldl (λ h a, if bool_decide (h < a_Number a) then a_Number a else h) h l.
Proof.
  revert h. induction l as [|b l IH]; intros h; cbn [foldl]; [split; [done|intros a Ha; by apply elem_of_nil in Ha]|].
  destruct (IH (if bool_decide (h < a_Number b) then a_Number b else h)) as [H1 H2]. split.
  - etrans; [|exact H1]. case_bool_decide; lia.
  - intros a [->|Ha]%elem_of_cons; [|by apply H2]. etrans; [|exact H1]. case_bool_decide; lia.
Qed.

Lemma high_stays l h :
  Forall (λ a, a_Number a ≤ h) l → foldl (λ h a, if bool_decide (h < a_Number a) then a_Number a else h) h l = h.
Proof.
  induction 1 as [|a l Ha _ IH]; [done|]. cbn [foldl]. by rewrite bool_decide_false by lia.
Qed.

Lemma apply_artifact p f :
  (∀ k c, Comments p !! k = Some c → add_comments ∅ (f_Comments f) !! k = Some c) →
  (f_Checks f = None → SnapChecks p = None) →
  canonical (apply_all p (detectArtifact marshal (Some p) f).2) = canonical (rebuilt (Some p) f).
Proof using digest json_roundtrip.
  intros HA HV. unfold detectArtifact. cbn [snd]. rewrite !foldl_app, apply_comments.
  2:{ apply Forall_forall. intros c [[Hk _] _]%list_elem_of_filter. done. }
  rewrite new_comments_all by done.
  set (s := MkSnapshot (State p) (add_comments ∅ (f_Comments f)) (SnapChecks p) (HighWaterNumber p)).
  assert (∀ l, l = (if bool_decide (f_State f = State p) then []
           else [event_of f (f_Number f) (f_URL f) [] NotifyState None None [] (f_State f)]) →
    apply_all s l = MkSnapshot (f_State f) (add_comments ∅ (f_Comments f)) (SnapChecks p) (HighWaterNumber p)) as HS.
  { intros l ->. case_bool_decide as E; [by rewrite E|done]. }
  rewrite (HS _ eq_refl). unfold canonical. destruct (f_Checks f) as [c|] eqn:EF; simpl.
  - destruct (checksChanged _ _ _) eqn:EH; simpl; rewrite ?EF; [done|].
    apply checks_unchanged in EH. rewrite EF in EH. by rewrite EH.
  - by rewrite EF, HV.
Qed.

Lemma add_comments_unique cs c :
  NoDup (c_Key <$> cs) → c ∈ cs → c_Key c ≠ [] → add_comments ∅ cs !! c_Key c = Some (snapshot_comment c).
Proof.
  intros HN Hc Hk. rewrite add_comments_lookup.
  assert (filter (λ x, c_Key x = c_Key c ∧ c_Key c ≠ []) cs = [c]) as ->; [|done].
  induction cs as [|d cs IH]; [by apply elem_of_nil in Hc|]. cbn [fmap list_fmap] in HN.
  apply NoDup_cons in HN as [Hd HN]. rewrite filter_cons. apply elem_of_cons in Hc as [->|Hc].
  - rewrite decide_True by done. f_equal. apply filter_none, Forall_forall. intros x Hx [Ex _].
    apply Hd. rewrite <- Ex. by apply list_elem_of_fmap_2.
  - rewrite decide_False; [by apply IH|]. intros [Ed _]. apply Hd. rewrite Ed. by apply list_elem_of_fmap_2.
Qed.

Lemma distinct_sorted c : distinct_runs c → distinct_runs (sort_checks c).
Proof. unfold distinct_runs. simpl. by rewrite merge_sort_Permutation. Qed.

(** The events of a sweep change nothing in the snapshot it rebuilt, in whatever order the
    runs are stored. *)
Lemma reapply_artifact p f s ev :
  runs_ok (f_Checks f) → NoDup (c_Key <$> f_Comments f) → ev ∈ (detectArtifact marshal (Some p) f).2 →
  canonical s = canonical (rebuilt (Some p) f) →
  canonical (ApplyEvent (Some s) ev) = canonical (rebuilt (Some p) f).
Proof.
  intros HR HN Hev HI. destruct s as [st cm ck h]. pose proof HI as HI'.
  unfold canonical in HI'. simpl in HI'. injection HI' as -> -> Hck ->.
  unfold detectArtifact in Hev. cbn [snd] in Hev. apply elem_of_app in Hev as [Hev|[Hev|Hev]%elem_of_app].
  - apply list_elem_of_fmap in Hev as (c & -> & [[Hk _] Hc]%list_elem_of_filter).
    pose proof (add_comments_unique _ c HN Hc Hk) as HL.
    unfold comment_event, snapshot_comment in *. destruct (StripOwner (c_Body c)) as [clean author].
    unfold ApplyEvent. simpl. rewrite bool_decide_false by done.
    rewrite insert_id by exact HL. exact HI.
  - case_bool_decide; [by apply elem_of_nil in Hev|]. apply list_elem_of_singleton in Hev as ->.
    exact HI.
  - destruct (f_Checks f) as [c|] eqn:EF; [|by apply elem_of_nil in Hev].
    destruct (checksChanged _ _ _); [|by apply elem_of_nil in Hev]. apply list_elem_of_singleton in Hev as ->.
    unfold ApplyEvent, canonical. simpl. rewrite EF. simpl. done.
Qed.

(** The two producers agree: replaying the events of a sweep through the webhook
    step, from the stored snapshot, gives the snapshot the sweep rebuilt and the
    revision it keys it with, for artifacts and for containers, whenever comments and
    checks were only added or replaced; applying any of those events again leaves the
    revision alone when no comment is listed twice. *)
Theorem sweep_matches_webhook p f changes next rev :
  detect (Some p) f = (changes, next, rev) → runs_ok (f_Checks f) → additive p f →
  canonical (apply_all p changes) = next
  ∧ revision (apply_all p changes) = rev
  ∧ (NoDup (c_Key <$> f_Comments f) → ∀ ev, ev ∈ changes → revision (ApplyEvent (Some next) ev) = rev).
Proof using json_roundtrip.
  rewrite detect_next. unfold additive. intros HD HR HA. destruct (f_Container f) eqn:EC.
  - destruct p as [st cm ck h]. simpl in HA. destruct HA as (-> & -> & ->). unfold detectContainer in HD.
    injection HD as <- <- <-. simpl. rewrite opened_all, high_filter by lia. split; [done|]. split; [done|].
    intros _ ev (a & -> & [Ha Hin]%list_elem_of_filter)%list_elem_of_fmap. unfold ApplyEvent. simpl.
    rewrite bool_decide_false; [done|]. intros Hlt.
    pose proof (proj2 (high_max (f_NewArtifacts f) h) a Hin). lia.
  - unfold detectArtifact in HD. injection HD as <- <- <-. destruct HA as [HA HV].
    pose proof (apply_artifact p f HA HV) as HE.
    assert (canonical (canonical (rebuilt (Some p) f)) = canonical (rebuilt (Some p) f)) as HI
      by (apply canonical_idemp, rebuilt_runs, HR).
    split; [exact HE|]. split.
    { unfold SnapshotRevision, canonicalJSON. rewrite HI. do 2 f_equal. exact HE. }
    intros HN ev Hev. unfold SnapshotRevision, canonicalJSON. f_equal. f_equal. rewrite HI.
    by apply reapply_artifact.
Qed.

(** A sweep that finds nothing new is quiet: fetching again what the last sweep
    recorded, for an artifact or a container, detects no change and keeps the snapshot
    and its revision. *)
Theorem second_sweep_quiet prev f changes next rev :
  detect prev f = (changes, next, rev) → runs_ok (f_Checks f) → detect (Some next) f = ([], next, rev).
Proof using json_roundtrip.
  rewrite !detect_next. intros HD HR. destruct (f_Container f) eqn:EC.
  - unfold detectContainer in *. set (base := match prev with Some p => HighWaterNumber p | None => 0 end) in *.
    pose proof (high_max (f_NewArtifacts f) base) as [_ HM].
    assert (next = MkSnapshot [] ∅ None (foldl (λ h a, if bool_decide (h < a_Number a) then a_Number a else h)
      base (f_NewArtifacts f)) ∧ rev = revision next) as [-> ->] by (destruct prev; injection HD; intros; by subst).
    cbn [HighWaterNumber]. rewrite filter_none.
    + cbn [fmap list_fmap]. rewrite high_stays by (by apply Forall_forall). done.
    + apply Forall_forall. intros a Ha. specialize (HM a Ha). lia.
  - assert (changes = (detectArtifact marshal prev f).2 ∧ next = canonical (rebuilt prev f) ∧ rev = revision next)
      as (_ & -> & ->) by (unfold detectArtifact in *; destruct prev; injection HD; intros; by subst).
    unfold detectArtifact. cbn [Comments canonical State SnapChecks].
    assert (rebuilt (Some (canonical (rebuilt prev f))) f = rebuilt prev f) as -> by (by destruct prev).
    rewrite filter_none, bool_decide_true; [|done|].
    + cbn [fmap list_fmap app]. destruct (f_Checks f) as [c|] eqn:EF; [|done].
      assert (checksChanged marshal (sort_checks <$> SnapChecks (rebuilt prev f)) (SnapChecks (rebuilt prev f)) = false) as ->; [|done].
      apply checks_unchanged. cbn [SnapChecks rebuilt]. rewrite EF. simpl. f_equal.
      apply sort_checks_idemp, distinct_sorted. by apply HR.
    + apply Forall_forall. intros c Hc [Hk Hn]. cbn [Comments canonical rebuilt] in Hn.
      rewrite add_comments_lookup, lookup_empty in Hn.
      destruct (last _) eqn:EL; [done|]. apply last_None in EL.
      assert (c ∈ filter (λ c0, c_Key c0 = c_Key c ∧ c_Key c ≠ []) (f_Comments f)) as Hin by (by apply list_elem_of_filter).
      rewrite EL in Hin. by apply elem_of_nil in Hin.
Qed.

(** The first fetch of an artifact is a baseline and notifies nothing; when a comment
    arrived by webhook before it, that fetch notifies every other comment there is. *)
Lemma first_webhook_skips_baseline ev r f :
  ev_Change ev = NotifyComment → ev_Comment ev = Some r → f_Container f = false →
  (detect None f).1.1 = []
  ∧ ∀ c, c ∈ f_Comments f → c_Key c ≠ [] → c_Key c ≠ r_CommentKey r →
      comment_event f c ∈ (detect (Some (ApplyEvent None ev)) f).1.1.
Proof using json_roundtrip.
  intros E1 E2 EC. rewrite !detect_next, EC. split; [done|]. intros c Hc Hk Hne. simpl.
  apply elem_of_app. left. apply list_elem_of_fmap_2, list_elem_of_filter. split; [|done].
  split; [done|]. unfold ApplyEvent. rewrite E1, E2. case_bool_decide; simpl; [done|].
  by rewrite lookup_insert_ne.
Qed.

End claims.

(** * Witnesses *)

Module Sample.

(** Byte by byte, so that the encoding stays short. *)
#[local] Instance bytes_countable : Countable bytes.
Proof.
  apply (inj_countable' string_of_list_ascii list_ascii_of_string). apply list_ascii_of_string_of_list_ascii.
Defined.

#[export] Instance Check_countable : Countable Check.
Proof.
  apply (inj_countable' (λ c, (Name c, CheckState c, CheckURL c, Required c))
    (λ x, let '(a, b, c, d) := x in MkCheck a b c d)). by intros [].
Defined.

#[export] Instance Checks_countable : Countable Checks.
Proof.
  apply (inj_countable' (λ c, (HeadSHA c, RollUp c, Runs c)) (λ x, let '(a, b, c) := x in MkChecks a b c)). by intros [].
Defined.

#[export] Instance SnapshotComment_eq_dec : EqDecision SnapshotComment.
Proof. solve_decision. Defined.

#[export] Instance SnapshotComment_countable : Countable SnapshotComment.
Proof.
  apply (inj_countable' (λ c, (Key c, Body c, ForgeAccount c)) (λ x, let '(a, b, c) := x in MkSnapshotComment a b c)).
  by intros [].
Defined.

#[export] Instance ArtifactSnapshot_eq_dec : EqDecision ArtifactSnapshot.
Proof. solve_decision. Defined.

#[export] Instance ArtifactSnapshot_countable : Countable ArtifactSnapshot.
Proof.
  apply (inj_countable' (λ s, (State s, Comments s, SnapChecks s, HighWaterNumber s))
    (λ x, let '(a, b, c, d) := x in MkSnapshot a b c d)). by intros [].
Defined.

Fixpoint bits (p : positive) : bytes :=
  match p with xH => [] | xO p => "0"%char :: bits p | xI p => "1"%char :: bits p end.

Fixpoint unbits (s : bytes) : positive :=
  match s with [] => xH | c :: s => if bool_decide (c = "0"%char) then xO (unbits s) else xI (unbits s) end.

Definition marshal (s : ArtifactSnapshot) : bytes := bits (encode s).
Definition unmarshal (b : bytes) : option ArtifactSnapshot := decode (unbits b).

Lemma unmarshal_marshal s : unmarshal (marshal s) = Some s.
Proof.
  unfold unmarshal, marshal. assert (∀ p, unbits (bits p) = p) as -> by (by induction p; simpl; f_equal).
  apply decode_encode.
Qed.

Definition comment (k b : string) : ForgeComment := MkComment (lit k) [] (lit b) (lit "octo").

Definition artifact (st : string) (cs : list ForgeComment) (ck : option Checks) : FetchedArtifact :=
  MkFetched Github [] (lit "o/r") KindPullRequest 7 [] false (lit st) cs ck [].

Definition checks : Checks :=
  MkChecks (lit "abc") (lit "success")
    [MkCheck (lit "test") (lit "success") [] true; MkCheck (lit "lint") (lit "success") [] false].

Definition before : ArtifactSnapshot :=
  MkSnapshot (lit "open") {[lit "1" := MkSnapshotComment (lit "1") (lit "hi") (lit "octo")]} None 0.

Definition fetch : FetchedArtifact := artifact "merged" [comment "1" "hi"; comment "2" "done"] (Some checks).

Definition sweep := DetectChanges marshal unmarshal id (Some before) fetch.

Lemma runs : runs_ok (f_Checks fetch).
Proof.
  intros c [= <-]. apply (bool_decide_eq_true (NoDup _)). by vm_compute.
Qed.

Lemma sweep_eq :
  DetectChanges marshal unmarshal id (Some before) fetch = (sweep.1.1, sweep.1.2, sweep.2).
Proof.
  change (sweep = (sweep.1.1, sweep.1.2, sweep.2)). generalize sweep. by intros [[] ?].
Qed.

Lemma fetch_additive : additive before fetch.
Proof.
  split; [|done]. intros k c Hk. unfold before in Hk. cbn [Comments] in Hk.
  apply lookup_singleton_Some in Hk as [<- <-]. vm_compute. reflexivity.
Qed.

End Sample.

Lemma sweep_matches_webhook_witness :
  ev_Change <$> Sample.sweep.1.1 = [NotifyComment; NotifyState; NotifyChecks]
  ∧ SnapshotRevision Sample.marshal id
      (foldl (λ s ev, ApplyEvent (Some s) ev) Sample.before Sample.sweep.1.1) = Sample.sweep.2.
Proof.
  split; [vm_compute; reflexivity|].
  exact (proj1 (proj2 (sweep_matches_webhook Sample.marshal Sample.unmarshal id Sample.unmarshal_marshal
    Sample.before Sample.fetch _ _ _ Sample.sweep_eq Sample.runs Sample.fetch_additive))).
Defined.

Lemma second_sweep_quiet_witness :
  DetectChanges Sample.marshal Sample.unmarshal id (Some Sample.sweep.1.2) Sample.fetch
  = ([], Sample.sweep.1.2, Sample.sweep.2).
Proof.
  exact (second_sweep_quiet Sample.marshal Sample.unmarshal id Sample.unmarshal_marshal (Some Sample.before)
    Sample.fetch _ _ _ Sample.sweep_eq Sample.runs).
Defined.

End ForgeDetect.
