(* ===== verification/ForgeRoute.v ===== *)
(** Routing of forge notifications ([src/go/internal/ingest/notify_router.go]) and the
    reconciliation sweep that feeds it ([notify_reconcile.go]).

    [World] is what the store holds for one forge and the notifications handed to the
    dispatcher; the answers of the forge, of the store's queries and of the identity
    lookups are the functions of [Env].  Logging, pacing and cancellation are left out. *)
From stdpp Require Import base list strings gmap.
From Stdlib Require Import Ascii ZArith Lia.
From S2P Require Import Prelude Text ForgeOwner ForgeDetect.

Module ForgeRoute.
Import ForgeDetect.

Open Scope Z_scope.

(** * Data *)

#[export] Instance ForgeArtifactKind_countable : Countable ForgeArtifactKind.
Proof.
  apply (inj_countable' (λ k, match k with KindUnspecified => 0%nat | KindIssue => 1%nat | KindPullRequest => 2%nat end)
    (λ n, match n with 0%nat => KindUnspecified | 1%nat => KindIssue | _ => KindPullRequest end)). by intros [].
Defined.

(** Repository, kind and number; number 0 is a container. *)
Notation coord := (bytes * ForgeArtifactKind * Z)%type.

Inductive Scope := ScopeUnspecified | ScopeArtifact | ScopeContainer.

#[export] Instance Scope_eq_dec : EqDecision Scope.
Proof. solve_decision. Defined.

Record NotifySubscriber := MkSub {
  SubscriptionID : bytes;
  AgentAccountID : bytes;
  DeliveredRevision : bytes;
  SubScope : Scope;
}.

Record ArtifactCursor := MkCursor {
  ETag : bytes;
  CommentsETag : bytes;
  ChecksETag : bytes;
  Revision : bytes;
  Snapshot : bytes;
}.

Record Handle := MkHandle { Owner : bytes; Agent : bytes }.

#[export] Instance Handle_eq_dec : EqDecision Handle.
Proof. solve_decision. Defined.

Definition zeroHandle : Handle := MkHandle [] [].

Definition qualified (h : Handle) : bool := negb (bool_decide (Owner h = [])) && negb (bool_decide (Agent h = [])).

Record Notification := MkNotification {
  n_Subscription : bytes;
  n_Repo : bytes;
  n_Kind : ForgeArtifactKind;
  n_Number : Z;
  n_Url : bytes;
  n_Change : ForgeNotificationKind;
  n_Revision : bytes;
  n_Comment : option CommentRef;
  n_Checks : option Checks;
  n_State : bytes;
}.

(** [forge.ConditionalResult]. *)
Record Conditional (V : Type) := MkConditional { V_ : V; ETag_ : bytes; NotModified : bool }.
Arguments MkConditional {V}.
Arguments V_ {V}.
Arguments ETag_ {V}.
Arguments NotModified {V}.

Inductive pullAnswer := Pull (n : Z) | NoPullRequest | PullFailed.

(** What is outside: [None] is an error, [BudgetExhausted] the shared one of the forge. *)
Inductive fetchErr := BudgetExhausted | FetchFailed.

Record IdentityResolver := MkIdentities {
  HandleForAccount : bytes → option Handle;
  AuthorHandle : coord → option Handle;
}.

Record Env := MkEnv {
  LoadFails : coord → bool;
  UpsertFails : coord → bool;
  RollUpFor : bytes → Z → bytes → bytes → fetchErr + Conditional Checks;
  PullNumbers : option (bytes → bytes → pullAnswer);
  Subscribers : coord → bytes → bool → option (list NotifySubscriber);
  Identities : option IdentityResolver;
  CASFails : bytes → bool;
}.

(** [delivered] holds the delivered revision of each subscription. *)
Record World := MkWorld {
  cursors : gmap coord ArtifactCursor;
  delivered : gmap bytes bytes;
  notified : list (bytes * Notification);
}.

Inductive routeErr := ErrInvalidEvent | ErrPullNumber | ErrLoad | ErrRollUp (e : fetchErr) | ErrUpsert | ErrSubscribers.

Section route.
Context (marshal : ArtifactSnapshot → bytes) (unmarshal : bytes → option ArtifactSnapshot) (digest : bytes → bytes).

Notation revision_of := (SnapshotRevision marshal digest).

Definition decodeSnapshot (cur : option ArtifactCursor) : option ArtifactSnapshot :=
  match cur with
  | Some c => if bool_decide (Snapshot c = []) then None else unmarshal (Snapshot c)
  | None => None
  end.

(** * The router *)

Definition with_number (ev : ForgeEvent) (n : Z) : ForgeEvent :=
  MkEvent (ev_Provider ev) (ev_Host ev) (ev_Repo ev) (ev_Kind ev) n (ev_Project ev) (ev_URL ev) (ev_Change ev)
    (ev_Comment ev) (ev_Checks ev) (ev_HeadSHA ev) (ev_State ev).

Definition with_checks (ev : ForgeEvent) (c : option Checks) : ForgeEvent :=
  MkEvent (ev_Provider ev) (ev_Host ev) (ev_Repo ev) (ev_Kind ev) (ev_Number ev) (ev_Project ev) (ev_URL ev)
    (ev_Change ev) (ev_Comment ev) c (ev_HeadSHA ev) (ev_State ev).

Definition coord_of (ev : ForgeEvent) : coord := (ev_Repo ev, ev_Kind ev, ev_Number ev).

(** Step 0: [inr None] is a commit without a pull request, which is skipped. *)
Definition resolveNumber (env : Env) (ev : ForgeEvent) : routeErr + option ForgeEvent :=
  match PullNumbers env with
  | Some pulls =>
      if bool_decide (ev_Number ev = 0 ∧ ev_Provider ev = Github ∧ ev_Change ev = NotifyChecks ∧ ev_HeadSHA ev ≠ [])
      then match pulls (ev_Repo ev) (ev_HeadSHA ev) with
           | NoPullRequest => inr None
           | PullFailed => inl ErrPullNumber
           | Pull n => inr (Some (with_number ev n))
           end
      else inr (Some ev)
  | None => inr (Some ev)
  end.

(** Step 2: the event with the combined checks, and the ETag to keep. *)
Definition resolveChecks (env : Env) (prev : option ArtifactSnapshot) (etag : bytes) (ev : ForgeEvent)
    : routeErr + ForgeEvent * bytes :=
  if bool_decide (ev_Change ev = NotifyChecks ∧ ev_Checks ev = None) then
    match RollUpFor env (ev_Repo ev) (ev_Number ev) (ev_HeadSHA ev) etag with
    | inl e => inl (ErrRollUp e)
    | inr res =>
        if NotModified res
        then inr (match prev with Some p => with_checks ev (SnapChecks p) | None => ev end, etag)
        else inr (with_checks ev (Some (V_ res)), ETag_ res)
    end
  else inr (ev, etag).

Definition actorHandle (env : Env) (ev : ForgeEvent) : Handle :=
  match Identities env with
  | None => zeroHandle
  | Some ids =>
      match ev_Change ev with
      | NotifyComment | NotifyReview =>
          match ev_Comment ev ≫= r_Agent with Some (agent, owner) => MkHandle owner agent | None => zeroHandle end
      | NotifyOpened => default zeroHandle (AuthorHandle ids (coord_of ev))
      | _ => zeroHandle
      end
  end.

Definition selfOrigin (env : Env) (actor : Handle) (sub : NotifySubscriber) : bool :=
  qualified actor &&
  match Identities env with
  | Some ids =>
      let h := default zeroHandle (HandleForAccount ids (AgentAccountID sub)) in
      qualified h && bool_decide (actor = h)
  | None => false
  end.

Definition notification (ev : ForgeEvent) (subscription revision : bytes) : Notification :=
  let n c ch st := MkNotification subscription (ev_Repo ev) (ev_Kind ev) (ev_Number ev) (ev_URL ev) (ev_Change ev)
                     revision c ch st in
  match ev_Change ev with
  | NotifyComment => n (ev_Comment ev) None []
  | NotifyReview => n (ev_Comment ev) None (ev_State ev)
  | NotifyChecks => n None (ev_Checks ev) []
  | NotifyState => n None None (ev_State ev)
  | _ => n None None []
  end.

Definition notify (account : bytes) (n : Notification) (w : World) : World :=
  MkWorld (cursors w) (delivered w) (notified w ++ [(account, n)]).

(** [AdvanceDeliveredRevisionCAS] of the store. *)
Definition advanceCAS (env : Env) (sub prior next : bytes) (w : World) : World :=
  if negb (CASFails env sub) && bool_decide (mget [] (delivered w) sub = prior)
  then MkWorld (cursors w) (<[sub := next]> (delivered w)) (notified w) else w.

Definition advanceOnSuppress (env : Env) (sub : NotifySubscriber) (prior next : bytes) (w : World) : World :=
  if negb (bool_decide (SubScope sub = ScopeArtifact)) then w
  else if negb (bool_decide (DeliveredRevision sub = prior)) then w
  else advanceCAS env (SubscriptionID sub) (DeliveredRevision sub) next w.

(** Step 6 for one subscriber. *)
Definition dispatch (env : Env) (ev : ForgeEvent) (actor : Handle) (prior revision : bytes) (w : World)
    (sub : NotifySubscriber) : World :=
  if selfOrigin env actor sub then advanceOnSuppress env sub prior revision w
  else notify (AgentAccountID sub) (notification ev (SubscriptionID sub) revision) w.

(** The store's answer, with the delivered revisions it holds. *)
Definition readSubscribers (env : Env) (ev : ForgeEvent) (w : World) : option (list NotifySubscriber) :=
  match Subscribers env (coord_of ev) (ev_Project ev) (bool_decide (ev_Change ev = NotifyOpened)) with
  | Some subs =>
      Some (map (λ s, MkSub (SubscriptionID s) (AgentAccountID s) (mget [] (delivered w) (SubscriptionID s)) (SubScope s)) subs)
  | None => None
  end.

Definition upsertCursor (c : coord) (cur : ArtifactCursor) (w : World) : World :=
  MkWorld (<[c := cur]> (cursors w)) (delivered w) (notified w).

(** Steps 3 to 6 for an event whose cursor was loaded and whose checks are resolved. *)
Definition routeApplied (env : Env) (ev : ForgeEvent) (cur : option ArtifactCursor) (etag : bytes) (w : World)
    : option routeErr * World :=
  let next := ApplyEvent (decodeSnapshot cur) ev in
  let revision := revision_of next in
  if UpsertFails env (coord_of ev) then (Some ErrUpsert, w)
  else
    let w := upsertCursor (coord_of ev)
               (MkCursor (default [] (ETag <$> cur)) (default [] (CommentsETag <$> cur)) etag revision (marshal next)) w in
    match readSubscribers env ev w with
    | None => (Some ErrSubscribers, w)
    | Some subs =>
        (None, foldl (dispatch env ev (actorHandle env ev) (default [] (Revision <$> cur)) revision) w subs)
    end.

Definition Route (env : Env) (ev : ForgeEvent) (w : World) : option routeErr * World :=
  match resolveNumber env ev with
  | inl e => (Some e, w)
  | inr None => (None, w)
  | inr (Some ev) =>
      if bool_decide (ev_Provider ev = ProviderUnspecified ∨ ev_Kind ev = KindUnspecified ∨ ev_Number ev = 0)
      then (Some ErrInvalidEvent, w)
      else if LoadFails env (coord_of ev) then (Some ErrLoad, w)
      else
        let cur := cursors w !! coord_of ev in
        match resolveChecks env (decodeSnapshot cur) (default [] (ChecksETag <$> cur)) ev with
        | inr (ev, etag) => routeApplied env ev cur etag w
        | inl e => (Some e, w)
        end
  end.

Definition SynthesizeUpdate (sub : NotifySubscriber) (c : coord) (url revision : bytes) (w : World) : World :=
  notify (AgentAccountID sub)
    (MkNotification (SubscriptionID sub) c.1.1 c.1.2 c.2 url NotifyUpdate revision None None []) w.

(** * The sweep *)

(** The conditional reads of the forge. *)
Record Reader := MkReader {
  GetDetail : coord → bytes → fetchErr + Conditional (bytes * bytes);
  ListComments : coord → bytes → fetchErr + Conditional (list ForgeComment);
  ChecksConditional : bytes → Z → bytes → fetchErr + Conditional Checks;
  ListNewArtifacts : bytes → ForgeArtifactKind → Z → bytes → fetchErr + Conditional (list NewArtifact);
}.

Record NotifyTarget := MkTarget {
  t_coord : coord;
  t_cursor : option ArtifactCursor;
  t_subscribers : list NotifySubscriber;
}.

Record fetchETags := MkETags { e_detail : bytes; e_comments : bytes; e_checks : bytes }.

Inductive sweepErr := SweepFetch (e : fetchErr) | SweepInvalid | SweepUpsert | SweepRoute (e : routeErr).

Definition ETagsOf (cur : option ArtifactCursor) : fetchETags :=
  match cur with Some c => MkETags (ETag c) (CommentsETag c) (ChecksETag c) | None => MkETags [] [] [] end.

(** A comment set that was not modified is taken from the stored snapshot. *)
Definition commentsFromSnapshot (snap : option ArtifactSnapshot) : list ForgeComment :=
  match snap with
  | Some s => map (λ x : bytes * SnapshotComment, MkComment (Key x.2) [] (Body x.2) (ForgeAccount x.2)) (map_to_list (Comments s))
  | None => []
  end.

Definition fetched (prov : ForgeProvider) (host : bytes) (c : coord) (url : bytes) (container : bool) (st : bytes)
    (cs : list ForgeComment) (ck : option Checks) (news : list NewArtifact) : FetchedArtifact :=
  MkFetched prov host c.1.1 c.1.2 c.2 url container st cs ck news.

Definition fetchContainer (rd : Reader) (prov : ForgeProvider) (host : bytes) (tgt : NotifyTarget)
    : sweepErr + FetchedArtifact * fetchETags :=
  let c := t_coord tgt in
  let et := ETagsOf (t_cursor tgt) in
  let since := match decodeSnapshot (t_cursor tgt) with Some s => HighWaterNumber s | None => 0 end in
  match ListNewArtifacts rd c.1.1 c.1.2 since (e_detail et) with
  | inl e => inl (SweepFetch e)
  | inr res =>
      if NotModified res then inr (fetched prov host c [] true [] [] None [], et)
      else inr (fetched prov host c [] true [] [] None (V_ res), MkETags (ETag_ res) (e_comments et) (e_checks et))
  end.

Definition fetchArtifact (rd : Reader) (prov : ForgeProvider) (host : bytes) (tgt : NotifyTarget)
    : sweepErr + FetchedArtifact * fetchETags :=
  let c := t_coord tgt in
  let et := ETagsOf (t_cursor tgt) in
  let snap := decodeSnapshot (t_cursor tgt) in
  if bool_decide (c.1.2 = KindUnspecified) then inl SweepInvalid
  else match GetDetail rd c (e_detail et), ListComments rd c (e_comments et) with
  | inl e, _ => inl (SweepFetch e)
  | inr _, inl e => inl (SweepFetch e)
  | inr d, inr cm =>
      let st := if NotModified d then match snap with Some s => State s | None => [] end else (V_ d).1 in
      let url := if NotModified d then [] else (V_ d).2 in
      let et_d := if NotModified d then e_detail et else ETag_ d in
      let cs := if NotModified cm then commentsFromSnapshot snap else V_ cm in
      let et_c := if NotModified cm then e_comments et else ETag_ cm in
      if bool_decide (c.1.2 = KindPullRequest) then
        match ChecksConditional rd c.1.1 c.2 (e_checks et) with
        | inl e => inl (SweepFetch e)
        | inr ck =>
            inr (fetched prov host c url false st cs (if NotModified ck then snap ≫= SnapChecks else Some (V_ ck)) [],
                 MkETags et_d et_c (if NotModified ck then e_checks et else ETag_ ck))
        end
      else inr (fetched prov host c url false st cs None [], MkETags et_d et_c (e_checks et))
  end.

Definition fetch (rd : Reader) (prov : ForgeProvider) (host : bytes) (tgt : NotifyTarget)
    : sweepErr + FetchedArtifact * fetchETags :=
  if bool_decide ((t_coord tgt).2 = 0) then fetchContainer rd prov host tgt else fetchArtifact rd prov host tgt.

(** Route the changes; only an exhausted budget stops. *)
Fixpoint routeAll (env : Env) (changes : list ForgeEvent) (w : World) : option sweepErr * World :=
  match changes with
  | [] => (None, w)
  | ev :: changes =>
      match Route env ev w with
      | (Some (ErrRollUp BudgetExhausted), w) => (Some (SweepRoute (ErrRollUp BudgetExhausted)), w)
      | (_, w) => routeAll env changes w
      end
  end.

(** One payload-free update for every subscriber that trails. *)
Definition updateTrailing (tgt : NotifyTarget) (url revision : bytes) (w : World) : World :=
  foldl (λ w s, if bool_decide (DeliveredRevision s = revision) then w
                else SynthesizeUpdate s (t_coord tgt) url revision w) w (t_subscribers tgt).

Definition reconcileTarget (env : Env) (rd : Reader) (prov : ForgeProvider) (host : bytes) (tgt : NotifyTarget)
    (w : World) : option sweepErr * World :=
  match fetch rd prov host tgt with
  | inl e => (Some e, w)
  | inr (f, et) =>
      let '(changes, next, revision) := DetectChanges marshal unmarshal digest (decodeSnapshot (t_cursor tgt)) f in
      if UpsertFails env (t_coord tgt) then (Some SweepUpsert, w)
      else
        let w := upsertCursor (t_coord tgt)
                   (MkCursor (e_detail et) (e_comments et) (e_checks et) revision (canonicalJSON marshal next)) w in
        match routeAll env changes w with
        | (Some e, w) => (Some e, w)
        | (None, w) =>
            (None, if bool_decide (changes = []) then updateTrailing tgt (f_URL f) revision w else w)
        end
  end.

(** One pass over the targets. *)
Fixpoint sweep (env : Env) (rd : Reader) (prov : ForgeProvider) (host : bytes) (tgts : list NotifyTarget)
    (w : World) : World :=
  match tgts with
  | [] => w
  | tgt :: tgts =>
      match reconcileTarget env rd prov host tgt w with
      | (Some (SweepFetch BudgetExhausted), w) | (Some (SweepRoute (ErrRollUp BudgetExhausted)), w) => w
      | (_, w) => sweep env rd prov host tgts w
      end
  end.

(** * Facts *)

Notation sent env actor ev rev subs :=
  (map (λ s, (AgentAccountID s, notification ev (SubscriptionID s) rev))
     (filter (λ s, selfOrigin env actor s = false) subs)).

(** Whose delivered revision the router itself advances. *)
Definition suppressed_caught_up (env : Env) (actor : Handle) (prior : bytes) (s : NotifySubscriber) : Prop :=
  selfOrigin env actor s = true ∧ SubScope s = ScopeArtifact ∧ DeliveredRevision s = prior
  ∧ CASFails env (SubscriptionID s) = false.

Definition advanced (env : Env) (actor : Handle) (prior rev : bytes) (subs : list NotifySubscriber) (w w' : World) : Prop :=
  ∀ k, (∃ s, s ∈ subs ∧ SubscriptionID s = k ∧ suppressed_caught_up env actor prior s
             ∧ mget [] (delivered w) k = prior ∧ mget [] (delivered w') k = rev)
       ∨ ((∀ s, s ∈ subs → SubscriptionID s = k → suppressed_caught_up env actor prior s →
                mget [] (delivered w) k ≠ prior)
          ∧ delivered w' !! k = delivered w !! k).

Lemma dispatch_frame env ev actor prior rev w s :
  cursors (dispatch env ev actor prior rev w s) = cursors w
  ∧ notified (dispatch env ev actor prior rev w s) = notified w ++ sent env actor ev rev [s].
Proof.
  unfold dispatch, advanceOnSuppress, advanceCAS, notify. rewrite filter_cons, filter_nil.
  destruct (selfOrigin env actor s); simpl; [|done].
  repeat case_match; simpl; by rewrite app_nil_r.
Qed.

Lemma dispatch_delivered env ev actor prior rev w s k :
  (SubscriptionID s = k ∧ suppressed_caught_up env actor prior s ∧ mget [] (delivered w) k = prior
   ∧ delivered (dispatch env ev actor prior rev w s) !! k = Some rev)
  ∨ ((SubscriptionID s = k → suppressed_caught_up env actor prior s → mget [] (delivered w) k ≠ prior)
     ∧ delivered (dispatch env ev actor prior rev w s) !! k = delivered w !! k).
Proof.
  unfold dispatch, advanceOnSuppress, advanceCAS, notify, suppressed_caught_up.
  destruct (selfOrigin env actor s); [|right; split; [by intros _ [? _]|done]].
  case_bool_decide as E1; simpl; [|right; split; [naive_solver|done]].
  case_bool_decide as E2; simpl; [|right; split; [naive_solver|done]].
  destruct (CASFails env (SubscriptionID s)); simpl; [right; split; [naive_solver|done]|].
  case_bool_decide as E3; simpl; [|right; split; [naive_solver|done]].
  destruct (decide (SubscriptionID s = k)) as [<-|Hne].
  - left. rewrite lookup_insert_eq. naive_solver.
  - right. split; [done|]. by rewrite lookup_insert_ne.
Qed.

Lemma dispatch_all env ev actor prior rev w subs :
  let w' := foldl (dispatch env ev actor prior rev) w subs in
  cursors w' = cursors w ∧ notified w' = notified w ++ sent env actor ev rev subs
  ∧ advanced env actor prior rev subs w w'.
Proof.
  induction subs as [|s subs IH] using rev_ind; simpl.
  - split; [done|]. split; [by rewrite app_nil_r|]. intros k. right. split; [|done].
    intros s Hs. by apply elem_of_nil in Hs.
  - rewrite foldl_snoc. destruct IH as (IC & IN & IA).
    set (w1 := foldl (dispatch env ev actor prior rev) w subs) in *.
    destruct (dispatch_frame env ev actor prior rev w1 s) as [DC DN].
    split; [congruence|]. split.
    { rewrite DN, IN, filter_app, map_app. by rewrite <- app_assoc. }
    intros k. destruct (dispatch_delivered env ev actor prior rev w1 s k) as [(E1 & E2 & E3 & E4)|[E1 E2]].
    + destruct (IA k) as [(t & T1 & T2 & T3 & T4 & T5)|[T1 T2]].
      * left. exists t. rewrite elem_of_app. unfold mget. rewrite E4. naive_solver.
      * left. exists s. rewrite elem_of_app, list_elem_of_singleton. unfold mget in *. rewrite E4. rewrite T2 in E3. naive_solver.
    + destruct (IA k) as [(t & T1 & T2 & T3 & T4 & T5)|[T1 T2]].
      * left. exists t. rewrite elem_of_app. unfold mget in *. rewrite E2. naive_solver.
      * right. rewrite E2, T2. split; [|done]. intros t [Ht|Ht]%elem_of_app; [by apply T1|]. apply list_elem_of_singleton in Ht as ->.
        unfold mget in *. by rewrite T2 in E1.
Qed.

(** What an event with a coordinate and its checks does. *)
Definition routed (env : Env) (ev : ForgeEvent) (etag : bytes) (w : World) (err : option routeErr) (w' : World) : Prop :=
  let cur := cursors w !! coord_of ev in
  let next := ApplyEvent (decodeSnapshot cur) ev in
  let prior := default [] (Revision <$> cur) in
  UpsertFails env (coord_of ev) = false
  ∧ cursors w' = <[coord_of ev := MkCursor (default [] (ETag <$> cur)) (default [] (CommentsETag <$> cur)) etag
                                   (revision_of next) (marshal next)]> (cursors w)
  ∧ match Subscribers env (coord_of ev) (ev_Project ev) (bool_decide (ev_Change ev = NotifyOpened)), err with
    | None, Some e => e = ErrSubscribers ∧ notified w' = notified w ∧ delivered w' = delivered w
    | Some subs, None =>
        notified w' = notified w ++ sent env (actorHandle env ev) ev (revision_of next) subs
        ∧ ∀ subs', readSubscribers env ev w = Some subs' →
            advanced env (actorHandle env ev) prior (revision_of next) subs' w w'
    | _, _ => False
    end.

Lemma sent_read env actor ev rev w subs :
  sent env actor ev rev
    (map (λ s, MkSub (SubscriptionID s) (AgentAccountID s) (mget [] (delivered w) (SubscriptionID s)) (SubScope s)) subs)
  = sent env actor ev rev subs.
Proof.
  induction subs as [|s subs IH]; [done|]. cbn [map]. rewrite !filter_cons. unfold selfOrigin in *. simpl.
  case_decide; cbn [map]; by rewrite IH.
Qed.

Lemma routeApplied_spec env ev etag w err w' :
  routeApplied env ev (cursors w !! coord_of ev) etag w = (err, w') →
  (err = Some ErrUpsert ∧ UpsertFails env (coord_of ev) = true ∧ w' = w) ∨ routed env ev etag w err w'.
Proof.
  unfold routeApplied, routed, readSubscribers. set (cur := cursors w !! coord_of ev).
  destruct (UpsertFails env (coord_of ev)); [intros [= <- <-]; by left|]. intros H. right. split; [done|].
  destruct (Subscribers env (coord_of ev) (ev_Project ev) (bool_decide (ev_Change ev = NotifyOpened))) as [subs|];
    [|injection H as <- <-; simpl; done].
  injection H as <- <-.
  match goal with |- context [foldl (dispatch ?e ?v ?a ?p ?r) ?w1 ?l] =>
    destruct (dispatch_all e v a p r w1 l) as (HC & HN & HA) end.
  split; [by rewrite HC|]. split; [by rewrite HN, sent_read|].
  intros subs' [= <-]. exact HA.
Qed.

(** What routing one event does: it either changes nothing (an error before the
    cursor is stored, or a commit without a pull request), or it stores at the event's
    own coordinate the snapshot that the event makes of the stored one, with its
    revision and the ETags a sweep stored, and then notifies, in order and with that
    revision, exactly the matching subscribers that are not its author; delivered
    revisions move only for authors with an artifact subscription that had seen
    everything before.  Notifying comes after storing, on every path. *)
Theorem route_exact env ev w err w' :
  Route env ev w = (err, w') →
  (w' = w ∧ err ≠ Some ErrSubscribers ∧ (err = None → resolveNumber env ev = inr None))
  ∨ ∃ ev1 ev2 etag,
      resolveNumber env ev = inr (Some ev1)
      ∧ ev_Provider ev1 ≠ ProviderUnspecified ∧ ev_Kind ev1 ≠ KindUnspecified ∧ ev_Number ev1 ≠ 0
      ∧ coord_of ev2 = coord_of ev1
      ∧ resolveChecks env (decodeSnapshot (cursors w !! coord_of ev1))
          (default [] (ChecksETag <$> cursors w !! coord_of ev1)) ev1 = inr (ev2, etag)
      ∧ routed env ev2 etag w err w'.
Proof.
  unfold Route. destruct (resolveNumber env ev) as [e|[ev1|]] eqn:ER.
  - unfold resolveNumber in ER. intros [= <- <-]. left. split; [done|]. split; [|done]. repeat case_match; naive_solver.
  - case_bool_decide as EB; [intros [= <- <-]; by left|].
    destruct (LoadFails env (coord_of ev1)); [intros [= <- <-]; by left|].
    set (cur := cursors w !! coord_of ev1). destruct (resolveChecks env _ _ ev1) as [e|[ev2 etag]] eqn:EC.
    { intros [= <- <-]. left. split; [done|]. split; [|done]. unfold resolveChecks in EC. repeat case_match; naive_solver. }
    assert (coord_of ev2 = coord_of ev1) as Hc.
    { unfold resolveChecks in EC. repeat case_match; try done; injection EC as <- <-; done. }
    intros H. unfold cur in H. rewrite <- Hc in H.
    apply routeApplied_spec in H as [(-> & EU & ->)|HR]; [by left|].
    right. exists ev1, ev2, etag. split; [done|]. do 3 (split; [by intros E; apply EB; auto|]).
    split; [exact Hc|]. by split.
  - intros [= <- <-]. by left.
Qed.

(** * The sweep: facts *)

Context (json_roundtrip : ∀ s, unmarshal (marshal s) = Some s) (json_nonempty : ∀ s, marshal s ≠ []).

Notation detect := (DetectChanges marshal unmarshal digest).

Definition f_coord (f : FetchedArtifact) : coord := (f_Repo f, f_Kind f, f_Number f).

Lemma detected_event p f ev :
  ev ∈ (detectArtifact marshal (Some p) f).2 →
  coord_of ev = f_coord f ∧ ev_Provider ev = f_Provider f ∧ ev_Project ev = []
  ∧ (ev_Change ev = NotifyChecks → ev_Checks ev ≠ None) ∧ ev_Change ev ≠ NotifyOpened.
Proof.
  unfold detectArtifact. cbn [snd]. intros [Hev|[Hev|Hev]%elem_of_app]%elem_of_app.
  - apply list_elem_of_fmap in Hev as (c & -> & _). unfold comment_event. by destruct (ForgeOwner.StripOwner (c_Body c)).
  - case_bool_decide; [by apply elem_of_nil in Hev|]. by apply list_elem_of_singleton in Hev as ->.
  - destruct (f_Checks f) as [c|]; [|by apply elem_of_nil in Hev].
    destruct (checksChanged _ _ _); [|by apply elem_of_nil in Hev]. by apply list_elem_of_singleton in Hev as ->.
Qed.

(** The cursor of [c] holds [next], canonical or not, under [rev] and the given ETags. *)
Definition cursor_holds (c : coord) (et : fetchETags) (next : ArtifactSnapshot) (rev : bytes) (w : World) : Prop :=
  ∃ s, canonical s = next ∧ cursors w !! c = Some (MkCursor (e_detail et) (e_comments et) (e_checks et) rev (marshal s)).

(** What the sweep sends for one detected change of an artifact. *)
Definition change_sent (env : Env) (rev : bytes) (ev : ForgeEvent) : list (bytes * Notification) :=
  match Subscribers env (coord_of ev) [] false with
  | Some subs => sent env (actorHandle env ev) ev rev subs
  | None => []
  end.

Lemma Route_again env p f et w ev :
  let next := canonical (rebuilt (Some p) f) in
  runs_ok (f_Checks f) → NoDup (c_Key <$> f_Comments f) → ev ∈ (detectArtifact marshal (Some p) f).2 →
  f_Provider f ≠ ProviderUnspecified → f_Kind f ≠ KindUnspecified → f_Number f ≠ 0 →
  LoadFails env (f_coord f) = false → UpsertFails env (f_coord f) = false →
  cursor_holds (f_coord f) et next (revision_of next) w →
  ∃ err w', Route env ev w = (err, w')
    ∧ (err = None ∨ err = Some ErrSubscribers)
    ∧ cursor_holds (f_coord f) et next (revision_of next) w'
    ∧ notified w' = notified w ++ change_sent env (revision_of next) ev
    ∧ (∀ k, mget [] (delivered w') k = mget [] (delivered w) k)
    ∧ ∀ c, c ≠ f_coord f → cursors w' !! c = cursors w !! c.
Proof using json_nonempty json_roundtrip.
  intros next HR HN Hev HP HK Hnum HL HU (s & Hs & HC).
  destruct (detected_event p f ev Hev) as (Ec & Ep & Ej & Eck & Eo).
  destruct (Route env ev w) as [err w'] eqn:ER. exists err, w'. split; [done|].
  unfold Route in ER.
  assert (resolveNumber env ev = inr (Some ev)) as Hn.
  { unfold resolveNumber. destruct (PullNumbers env); [|done]. rewrite bool_decide_false; [done|].
    intros [E0 _]. apply Hnum. by injection Ec as _ _ <-. }
  rewrite Hn in ER. pose proof Ec as Ec'. unfold coord_of, f_coord in Ec'. injection Ec' as _ Ek En.
  rewrite bool_decide_false in ER by (rewrite Ep, Ek, En; tauto).
  rewrite Ec, HL in ER.
  assert (∀ x y, resolveChecks env x y ev = inr (ev, y)) as Hc.
  { intros x y. unfold resolveChecks. rewrite bool_decide_false; [done|]. naive_solver. }
  rewrite Hc in ER. rewrite <- Ec in ER. apply routeApplied_spec in ER as [(_ & EU & _)|ER].
  { rewrite Ec in EU. congruence. }
  unfold routed in ER. rewrite Ec, HC in ER. cbn [decodeSnapshot Snapshot fmap option_fmap option_map default ETag CommentsETag ChecksETag Revision] in ER.
  rewrite bool_decide_false in ER by apply json_nonempty. rewrite json_roundtrip in ER.
  pose proof (reapply_artifact marshal p f s ev HR HN Hev Hs) as HA. fold next in HA.
  assert (canonical next = next) as Hnn by (apply canonical_idemp, rebuilt_runs, HR).
  assert (revision_of (ApplyEvent (Some s) ev) = revision_of next) as Hrev.
  { unfold SnapshotRevision, canonicalJSON. by rewrite HA, Hnn. }
  destruct ER as (_ & EC & EM). rewrite Hrev in EC, EM.
  assert (cursor_holds (f_coord f) et next (revision_of next) w') as HCh.
  { exists (ApplyEvent (Some s) ev). split; [exact HA|]. by rewrite EC, lookup_insert_eq. }
  assert (∀ c, c ≠ f_coord f → cursors w' !! c = cursors w !! c) as HO.
  { intros c Hne. by rewrite EC, lookup_insert_ne. }
  assert (notified w' = notified w ++ change_sent env (revision_of next) ev
    ∧ (err = None ∨ err = Some ErrSubscribers) ∧ ∀ k, mget [] (delivered w') k = mget [] (delivered w) k) as (? & ? & ?);
    [|done].
  unfold change_sent. rewrite Ec. unfold readSubscribers in EM. rewrite Ec, Ej, (bool_decide_false _ Eo) in EM.
  destruct (Subscribers env (f_coord f) [] false), err as [e|]; try done.
  - destruct EM as [EM HD]. split; [done|]. split; [by left|]. intros k.
    destruct (HD _ eq_refl k) as [(t & _ & _ & _ & D1 & D2)|[_ D]]; [by rewrite D1, D2|]. unfold mget. by rewrite D.
  - destruct EM as (-> & EM & ED). rewrite app_nil_r. split; [done|]. split; [by right|]. by rewrite ED.
Qed.

Lemma routeAll_again env p f et evs w :
  let next := canonical (rebuilt (Some p) f) in
  runs_ok (f_Checks f) → NoDup (c_Key <$> f_Comments f) →
  (∀ ev, ev ∈ evs → ev ∈ (detectArtifact marshal (Some p) f).2) →
  f_Provider f ≠ ProviderUnspecified → f_Kind f ≠ KindUnspecified → f_Number f ≠ 0 →
  LoadFails env (f_coord f) = false → UpsertFails env (f_coord f) = false →
  cursor_holds (f_coord f) et next (revision_of next) w →
  ∃ w', routeAll env evs w = (None, w')
    ∧ cursor_holds (f_coord f) et next (revision_of next) w'
    ∧ notified w' = notified w ++ concat (map (change_sent env (revision_of next)) evs)
    ∧ (∀ k, mget [] (delivered w') k = mget [] (delivered w) k)
    ∧ ∀ c, c ≠ f_coord f → cursors w' !! c = cursors w !! c.
Proof using json_nonempty json_roundtrip.
  intros next HR HN Hevs HP HK Hnum HL HU. revert w. induction evs as [|ev evs IH]; intros w HC.
  - exists w. simpl. by rewrite app_nil_r.
  - destruct (Route_again env p f et w ev) as (err & w1 & E1 & Eerr & E2 & E3 & ED & E4); try done; [apply Hevs; left|].
    destruct (IH (λ e H, Hevs e (list_elem_of_further _ _ _ H)) w1 E2) as (w' & F1 & F2 & F3 & FD & F4).
    exists w'. cbn [routeAll]. rewrite E1. split; [by destruct Eerr as [-> | ->]|]. split; [done|]. split.
    + rewrite F3, E3. simpl. by rewrite <- app_assoc.
    + split; [intros k; by rewrite FD, ED|]. intros c Hc. by rewrite F4, E4.
Qed.

Lemma fetch_artifact rd prov host tgt f et :
  fetch rd prov host tgt = inr (f, et) → (t_coord tgt).2 ≠ 0 →
  f_Container f = false ∧ f_coord f = t_coord tgt ∧ f_Provider f = prov ∧ f_Kind f ≠ KindUnspecified.
Proof.
  unfold fetch, fetchArtifact, fetched. destruct tgt as [[[r k] n] cur subs]. simpl. intros H Hn.
  rewrite bool_decide_false in H by done. case_bool_decide; [done|].
  repeat case_match; try done; injection H as <- <-; done.
Qed.

(** The update a trailing subscriber gets. *)
Definition update_for (c : coord) (url revision : bytes) (s : NotifySubscriber) : bytes * Notification :=
  (AgentAccountID s, MkNotification (SubscriptionID s) c.1.1 c.1.2 c.2 url NotifyUpdate revision None None []).

Lemma updateTrailing_spec tgt url rev w :
  let w' := updateTrailing tgt url rev w in
  cursors w' = cursors w ∧ delivered w' = delivered w
  ∧ notified w' = notified w
      ++ map (update_for (t_coord tgt) url rev) (filter (λ s, DeliveredRevision s ≠ rev) (t_subscribers tgt)).
Proof.
  simpl. unfold updateTrailing. induction (t_subscribers tgt) as [|s l IH] using rev_ind; [by rewrite app_nil_r|].
  rewrite foldl_snoc, filter_app, filter_cons, filter_nil, map_app. destruct IH as (I1 & I2 & I3).
  case_bool_decide as E.
  - rewrite decide_False by tauto. by rewrite app_nil_r.
  - rewrite decide_True by done. simpl. rewrite I3, <- app_assoc. done.
Qed.

(** What the sweep of an artifact does, when the forge answers and the store works:
    the cursor ends with the fetched ETags, the rebuilt snapshot and its revision; the
    notifications added are, in order, those of every detected change for exactly its
    subscribers that did not cause it, or, when nothing changed, one update for exactly
    the subscribers that trail; every one of them carries that same final revision.
    No other cursor moves, and no delivered revision: the cursor is stored before the
    changes are routed, so an author's subscription never counts as caught up. *)
Theorem sweep_exact env rd prov host tgt w f et changes next rev :
  fetch rd prov host tgt = inr (f, et) → (t_coord tgt).2 ≠ 0 → prov ≠ ProviderUnspecified →
  detect (decodeSnapshot (t_cursor tgt)) f = (changes, next, rev) →
  runs_ok (f_Checks f) → NoDup (c_Key <$> f_Comments f) →
  LoadFails env (t_coord tgt) = false → UpsertFails env (t_coord tgt) = false →
  ∃ w' news, reconcileTarget env rd prov host tgt w = (None, w')
    ∧ cursor_holds (t_coord tgt) et next rev w' ∧ rev = revision_of next
    ∧ notified w' = notified w ++ news
    ∧ news = (if decide (changes = [])
              then map (update_for (t_coord tgt) (f_URL f) rev)
                     (filter (λ s, DeliveredRevision s ≠ rev) (t_subscribers tgt))
              else concat (map (change_sent env rev) changes))
    ∧ (∀ x, x ∈ news → n_Revision x.2 = rev)
    ∧ (∀ k, mget [] (delivered w') k = mget [] (delivered w) k)
    ∧ ∀ c, c ≠ t_coord tgt → cursors w' !! c = cursors w !! c.
Proof using json_nonempty json_roundtrip.
  intros HF Hn Hprov HD HR HN HL HU. destruct (fetch_artifact _ _ _ _ _ _ HF Hn) as (EC & Ec & Ep & Ek).
  unfold reconcileTarget. rewrite HF, HD, HU.
  rewrite detect_next, EC in HD by done.
  assert (next = canonical (rebuilt (decodeSnapshot (t_cursor tgt)) f) ∧ rev = revision_of next
    ∧ (changes = [] ∨ ∃ p, decodeSnapshot (t_cursor tgt) = Some p ∧ changes = (detectArtifact marshal (Some p) f).2))
    as (Enext & Erev & Hch).
  { unfold detectArtifact in *. destruct (decodeSnapshot (t_cursor tgt)) as [p|]; injection HD as <- <- <-; eauto 6. }
  assert (canonical next = next) as Hnn by (rewrite Enext; apply canonical_idemp, rebuilt_runs, HR).
  unfold canonicalJSON. rewrite Hnn.
  match goal with |- context [routeAll env changes ?w0] => set (w1 := w0) end.
  assert (cursor_holds (t_coord tgt) et next rev w1) as H1.
  { exists next. split; [done|]. simpl. by rewrite lookup_insert_eq. }
  assert (∀ c, c ≠ t_coord tgt → cursors w1 !! c = cursors w !! c) as H2.
  { intros c Hc. simpl. by rewrite lookup_insert_ne. }
  destruct (decide (changes = [])) as [->|Hne].
  - cbn [routeAll]. rewrite bool_decide_true by done.
    destruct (updateTrailing_spec tgt (f_URL f) rev w1) as (U1 & U2 & U3).
    eexists _, _. split; [done|]. split; [unfold cursor_holds; by rewrite U1|]. split; [done|].
    split; [exact U3|]. split; [done|]. split; [|split; [by rewrite U2|intros c Hc; rewrite U1; by apply H2]].
    intros x (s & <- & _)%list_elem_of_In%in_map_iff. done.
  - destruct Hch as [|(p & Ed & Ech)]; [done|]. rewrite Ed in Enext. subst rev next.
    rewrite <- Ec in H1, HL, HU, H2.
    destruct (routeAll_again env p f et changes w1 HR HN) as (w' & R1 & R2 & R3 & RD & R4); rewrite ?Ech; try done;
      [by rewrite Ep|by rewrite <- Ec in Hn|].
    exists w', (concat (map (change_sent env (revision_of (canonical (rebuilt (Some p) f)))) changes)).
    rewrite <- Ech, R1, bool_decide_false by done. rewrite <- Ec. split; [done|]. split; [done|]. split; [done|].
    split; [by rewrite R3|]. split; [done|]. split; [|split; [intros k; by rewrite RD|intros c Hc; by rewrite R4, H2]].
    intros x (l & (ev & <- & _)%in_map_iff & Hx)%list_elem_of_In%in_concat. unfold change_sent in Hx.
    destruct (Subscribers env _ _ _); [|done]. apply in_map_iff in Hx as (s & <- & _).
    simpl. unfold notification. by destruct (ev_Change ev).
Qed.

(** ** Nothing modified *)

(** What a stored snapshot of an artifact looks like. *)
Definition stored_ok (p : ArtifactSnapshot) : Prop :=
  runs_ok (SnapChecks p)
  ∧ ∀ k c, Comments p !! k = Some c → Key c = k ∧ k ≠ [] ∧ (ForgeOwner.StripOwner (Body c)).1 = Body c.

Lemma restored_comments p :
  stored_ok p → add_comments ∅ (commentsFromSnapshot (Some p)) = Comments p.
Proof.
  intros [_ Hp]. apply map_eq. intros k. unfold commentsFromSnapshot.
  set (g := λ x : bytes * SnapshotComment, MkComment (Key x.2) [] (Body x.2) (ForgeAccount x.2)).
  assert (∀ x, x ∈ map_to_list (Comments p) → c_Key (g x) = x.1) as Hkey.
  { intros [k' c] Hx%elem_of_map_to_list. simpl. by apply Hp. }
  assert (c_Key <$> map g (map_to_list (Comments p)) = (map_to_list (Comments p)).*1) as HK.
  { rewrite <- list_fmap_compose. apply list_fmap_ext. intros i x Hx. simpl. apply Hkey.
    by apply list_elem_of_lookup_2 in Hx. }
  destruct (Comments p !! k) as [c|] eqn:E.
  - destruct (Hp k c E) as (H1 & H2 & H3).
    assert (g (k, c) ∈ map g (map_to_list (Comments p))) as Hin.
    { apply (list_elem_of_fmap_2 g). by apply elem_of_map_to_list. }
    assert (NoDup (c_Key <$> map g (map_to_list (Comments p)))) as HND by (rewrite HK; apply NoDup_fst_map_to_list).
    assert (c_Key (g (k, c)) = k) as Hgk by done.
    pose proof (add_comments_unique _ _ HND Hin) as HU. rewrite Hgk in HU. rewrite HU by done.
    unfold snapshot_comment, g. simpl. rewrite H3. by destruct c.
  - rewrite add_comments_lookup, lookup_empty. destruct (last _) as [c|] eqn:EL; [|done]. exfalso.
    assert (c ∈ filter (λ c, c_Key c = k ∧ k ≠ []) (map g (map_to_list (Comments p)))) as Hc.
    { apply last_Some in EL as [l ->]. rewrite elem_of_app. right. by left. }
    apply list_elem_of_filter in Hc as [[Hc _] Hin].
    apply list_elem_of_fmap in Hin as (x & -> & Hx). rewrite (Hkey x Hx) in Hc. subst k.
    destruct x as [k c]. apply elem_of_map_to_list in Hx. simpl in E. congruence.
Qed.

(** A sweep of a pull request that the forge answers with "not modified" throughout
    detects nothing and keeps the snapshot and its revision, provided stripping the
    stored bodies again changes nothing. *)
Lemma unmodified_sweep_quiet rd prov host tgt p f et d cm ck :
  decodeSnapshot (t_cursor tgt) = Some p → stored_ok p → (t_coord tgt).1.2 = KindPullRequest → (t_coord tgt).2 ≠ 0 →
  GetDetail rd (t_coord tgt) (e_detail (ETagsOf (t_cursor tgt))) = inr d → NotModified d = true →
  ListComments rd (t_coord tgt) (e_comments (ETagsOf (t_cursor tgt))) = inr cm → NotModified cm = true →
  ChecksConditional rd (t_coord tgt).1.1 (t_coord tgt).2 (e_checks (ETagsOf (t_cursor tgt))) = inr ck → NotModified ck = true →
  fetch rd prov host tgt = inr (f, et) →
  et = ETagsOf (t_cursor tgt) ∧ detect (Some p) f = ([], canonical p, revision_of (canonical p)).
Proof using json_roundtrip.
  intros Ep Hok Hk Hn E1 N1 E2 N2 E3 N3. unfold fetch, fetchArtifact. rewrite bool_decide_false by done.
  rewrite bool_decide_false by (by rewrite Hk). rewrite E1, E2, N1, N2, Ep, bool_decide_true by done.
  rewrite E3, N3. intros [= <- <-]. split; [by destruct (ETagsOf (t_cursor tgt))|].
  set (f := fetched _ _ _ _ _ _ _ _ _). rewrite detect_next by done. change (f_Container f) with false.
  unfold detectArtifact. cbv beta iota zeta.
  assert (canonical (rebuilt (Some p) f) = canonical p) as Hc.
  { unfold canonical, rebuilt, f, fetched. cbn [f_State f_Comments f_Checks State Comments SnapChecks HighWaterNumber].
    pose proof (restored_comments p Hok) as HRC. unfold commentsFromSnapshot in HRC. rewrite HRC.
    destruct (SnapChecks p) as [c|] eqn:EC; [|done]. simpl. unfold checksFromSummary.
    rewrite sort_checks_idemp; [done|]. by apply (proj1 Hok). }
  rewrite Hc. do 2 f_equal.
  rewrite filter_none.
  - change (f_State f) with (State p). rewrite bool_decide_true by done.
    assert (checksChanged marshal (SnapChecks p) (SnapChecks (rebuilt (Some p) f)) = false) as ->.
    { apply (checks_unchanged _ _ json_roundtrip). pose proof (f_equal SnapChecks Hc) as Hs. exact (eq_sym Hs). }
    by destruct (f_Checks f).
  - apply Forall_forall. intros c Hc' [Hk' Hnone]. unfold f, fetched in Hc'. cbn [f_Comments commentsFromSnapshot] in Hc'.
    apply list_elem_of_fmap in Hc' as ([k c'] & -> & Hx). apply elem_of_map_to_list in Hx. cbn [c_Key snd] in *.
    destruct (proj2 Hok k c' Hx) as [E _]. rewrite E in Hnone. congruence.
Qed.

End route.

(** * Witnesses *)

Module Sample.
Export ForgeDetect.Sample.

Definition pr : coord := (lit "o/r", KindPullRequest, 7).

Definition cursor : ArtifactCursor := MkCursor (lit "e1") (lit "e2") (lit "e3") (lit "r0") (marshal (canonical before)).

(** Ada watches the pull request and wrote comment 2; Bob watches it as well. *)
Definition subs : list NotifySubscriber :=
  [MkSub (lit "s-ada") (lit "ada") (lit "r0") ScopeArtifact; MkSub (lit "s-bob") (lit "bob") (lit "r0") ScopeArtifact].

Definition handle (a : bytes) : option Handle :=
  if bool_decide (a = lit "ada") then Some (MkHandle (lit "eve") (lit "ada")) else None.

Definition env : Env :=
  MkEnv (λ _, false) (λ _, false) (λ _ _ _ _, inl FetchFailed) None (λ _ _ _, Some subs)
    (Some (MkIdentities handle (λ _, None))) (λ _, false).

Definition ref : CommentRef := MkRef [] (lit "2") (lit "done") (lit "octo") (Some (lit "ada", lit "eve")).

Definition event : ForgeEvent :=
  MkEvent Github [] (lit "o/r") KindPullRequest 7 [] [] NotifyComment (Some ref) None [] [].

Definition world : World := MkWorld {[pr := cursor]} {[lit "s-ada" := lit "r0"; lit "s-bob" := lit "r0"]} [].

Definition reader (cs : list ForgeComment) (new : list NewArtifact) : Reader :=
  MkReader (λ _ _, inr (MkConditional (lit "merged", lit "u") (lit "d2") false))
    (λ _ _, inr (MkConditional cs (lit "c2") false))
    (λ _ _ _, inr (MkConditional checks (lit "k2") false))
    (λ _ _ _ _, inr (MkConditional new (lit "n2") false)).

Definition rd : Reader := reader [comment "1" "hi"; comment "2" "done"] [].

Definition tgt : NotifyTarget := MkTarget pr (Some cursor) subs.

Definition f : FetchedArtifact :=
  fetched Github [] pr (lit "u") false (lit "merged") [comment "1" "hi"; comment "2" "done"] (Some checks) [].

Definition et : fetchETags := MkETags (lit "d2") (lit "c2") (lit "k2").

Lemma fetch_eq : ForgeRoute.fetch unmarshal rd Github [] tgt = inr (f, et).
Proof. vm_compute. reflexivity. Qed.

Definition found := DetectChanges marshal unmarshal id (decodeSnapshot unmarshal (Some cursor)) f.

Lemma found_eq : DetectChanges marshal unmarshal id (decodeSnapshot unmarshal (t_cursor tgt)) f = (found.1.1, found.1.2, found.2).
Proof. change (found = (found.1.1, found.1.2, found.2)). generalize found. by intros [[] ?]. Qed.

Lemma marshal_nonempty s : marshal s ≠ [].
Proof.
  unfold marshal. intros H. assert (encode s = 1%positive) as E by (destruct (encode s); done).
  pose proof (decode_encode s) as D. rewrite E in D. vm_compute in D. discriminate.
Qed.

End Sample.

Lemma route_exact_witness :
  let w' := (Route Sample.marshal Sample.unmarshal id Sample.env Sample.event Sample.world).2 in
  map fst (notified w') = [lit "bob"]
  ∧ mget [] (delivered w') (lit "s-ada") ≠ lit "r0" ∧ mget [] (delivered w') (lit "s-bob") = lit "r0"
  ∧ ∃ etag, routed Sample.marshal Sample.unmarshal id Sample.env Sample.event etag Sample.world None w'.
Proof.
  set (r := Route Sample.marshal Sample.unmarshal id Sample.env Sample.event Sample.world).
  assert (r.1 = None) as E1 by (vm_compute; reflexivity).
  split; [vm_compute; reflexivity|]. split; [by vm_compute|]. split; [vm_compute; reflexivity|].
  destruct (route_exact Sample.marshal Sample.unmarshal id Sample.env Sample.event Sample.world None r.2) as
    [(_ & _ & H)|(ev1 & ev2 & etag & H1 & _ & _ & _ & _ & H2 & H3)].
  - fold r. rewrite <- E1. by destruct r.
  - discriminate (H eq_refl).
  - exists etag. injection H1 as <-. injection H2 as <- _. exact H3.
Defined.

Lemma sweep_exact_witness :
  ev_Change <$> Sample.found.1.1 = [NotifyComment; NotifyState; NotifyChecks]
  ∧ ∃ w', reconcileTarget Sample.marshal Sample.unmarshal id Sample.env Sample.rd Github [] Sample.tgt Sample.world = (None, w')
      ∧ ∀ x, x ∈ notified w' → n_Revision x.2 = Sample.found.2.
Proof.
  split; [vm_compute; reflexivity|].
  destruct (sweep_exact Sample.marshal Sample.unmarshal id ForgeDetect.Sample.unmarshal_marshal Sample.marshal_nonempty
    Sample.env Sample.rd Github [] Sample.tgt Sample.world Sample.f Sample.et Sample.found.1.1 Sample.found.1.2 Sample.found.2 Sample.fetch_eq) as
    (w' & news & H1 & _ & _ & H2 & _ & H3 & _);
    [done|done|exact Sample.found_eq|exact ForgeDetect.Sample.runs| |done|done|].
  - apply (bool_decide_eq_true (NoDup _)). vm_compute. reflexivity.
  - exists w'. split; [exact H1|]. rewrite H2. exact H3.
Defined.

(** ** Two departures from the comments *)

(** A newly opened artifact is announced with the revision of its own new cursor, not
    with the container's that the sweep stored; and that cursor already holds a
    snapshot, so the artifact's first sweep is no silent baseline. *)
Lemma opened_revision_differs :
  let c := (lit "o/r", KindPullRequest, 0) in
  let w0 := MkWorld {[c := MkCursor [] [] [] [] (ForgeDetect.Sample.marshal zeroSnapshot)]} ∅ [] in
  let w1 := (reconcileTarget ForgeDetect.Sample.marshal ForgeDetect.Sample.unmarshal id
               Sample.env (Sample.reader [] [MkArtifact 9 [] []; MkArtifact 7 [] []]) Github [] (MkTarget c (cursors w0 !! c) []) w0).2 in
  let w2 := (reconcileTarget ForgeDetect.Sample.marshal ForgeDetect.Sample.unmarshal id
               Sample.env Sample.rd Github [] (MkTarget Sample.pr (cursors w1 !! Sample.pr) []) w1).2 in
  map n_Revision (map snd (notified w1)) ≠ map (λ _, default [] (Revision <$> cursors w1 !! c)) (notified w1)
  ∧ length (notified w1) = 4%nat ∧ length (notified w2) = 12%nat.
Proof. split; [vm_compute; congruence|]. split; vm_compute; reflexivity. Qed.

(** A stored body in which stripping uncovered a new owner comment is stripped again when
    the comments were not modified, so that a sweep in which nothing changed still moves
    the revision. *)
Lemma restrip_moves_revision :
  let c := MkSnapshotComment (lit "1") (ForgeOwner.StripOwner ForgeOwner.nested).1 (lit "octo") in
  let p := MkSnapshot (lit "open") {[lit "1" := c]} None 0 in
  let f := fetched Github [] Sample.pr [] false (State p) (commentsFromSnapshot (Some p)) None [] in
  (DetectChanges ForgeDetect.Sample.marshal ForgeDetect.Sample.unmarshal id (Some p) f).1.1 = []
  ∧ (DetectChanges ForgeDetect.Sample.marshal ForgeDetect.Sample.unmarshal id (Some p) f).2
    ≠ SnapshotRevision ForgeDetect.Sample.marshal id p.
Proof. split; [vm_compute; reflexivity|]. apply (bool_decide_eq_false (_ = _)). vm_compute. reflexivity. Qed.

End ForgeRoute.
