(* ===== verification/ForgeMarker.v ===== *)
(** The write marker ([src/go/internal/forge/write_marker.go]) and the body of a create
    ([writeBody] of [src/go/server/forge_write_sweep.go]): the comment by which recovery
    finds the object of a write intent, and its removal from agents' text. *)
From stdpp Require Import base list strings.
From Stdlib Require Import Ascii Lia ZArith.
From S2P Require Import Prelude Text ForgeOwner.

Module ForgeMarker.
Import ForgeOwner.

Definition writeMarkerPrefix : bytes := lit "<!-- compass:write ".

(** [[^>]*-->], with the number of dashes just read. *)
Fixpoint to_gt (dashes : nat) (s : bytes) : option bytes :=
  match s with
  | [] => None
  | c :: s =>
      if bool_decide (c = ">"%char) then (if 2 <=? dashes then Some s else None)
      else to_gt (if bool_decide (c = "-"%char) then S dashes else 0) s
  end.

Definition writeMarkerRe (s : bytes) : option bytes :=
  match cut_prefix writeMarkerPrefix s with Some r => to_gt 0 r | None => None end.

Definition marker (intentID : bytes) : bytes := writeMarkerPrefix ++ intentID ++ lit " -->".

Definition hasWriteMarker (body intentID : bytes) : bool := contains body (marker intentID).

(** [strings.TrimRight(s, "\n")]. *)
Definition trim_newlines (s : bytes) : bytes := reverse (drop (prefix_len (λ c, bool_decide (c = LF)) (reverse s)) (reverse s)).

Definition WithWriteMarker (body intentID : bytes) : bytes := trim_newlines body ++ [LF; LF] ++ marker intentID.

Definition StripWriteMarkers (body : bytes) : bytes := ReplaceAll writeMarkerRe body.

(** [writeBody]; [github]: the provider is GitHub. *)
Definition writeBody (github : bool) (author : Author) (bodyLimit : Z) (body intentID : bytes) (marked : bool) : result stampErr bytes :=
  let clean := StripWriteMarkers body in
  if negb marked || negb github then StampOwner clean author bodyLimit
  else
    let limit := if bool_decide (0 < bodyLimit)%Z then (bodyLimit - Z.of_nat (length (WithWriteMarker [] intentID)))%Z else bodyLimit in
    stamped <-? StampOwner clean author limit; Ok (WithWriteMarker stamped intentID).

(** * Facts *)

Lemma contains_app a b c : contains (a ++ b ++ c) b = true.
Proof.
  assert (∀ s, has_prefix b s = true → contains s b = true) as Hp by (intros s H; destruct s; simpl in *; by rewrite H).
  induction a as [|x a IH]; [apply Hp, has_prefix_spec; eauto|]. cbn [app contains]. rewrite IH. apply orb_true_r.
Qed.

Lemma WithWriteMarker_has body id : hasWriteMarker (WithWriteMarker body id) id = true.
Proof.
  unfold hasWriteMarker, WithWriteMarker. rewrite app_assoc. rewrite <- (app_nil_r (marker id)) at 1. apply contains_app.
Qed.

Lemma length_trim s : length (trim_newlines s) ≤ length s.
Proof. unfold trim_newlines. rewrite length_reverse, length_drop, length_reverse. lia. Qed.

(** The marked body of a create: it bears the intent's marker and keeps to the limit. *)
Lemma writeBody_marked author limit body id out :
  writeBody true author limit body id true = Ok out →
  hasWriteMarker out id = true
  ∧ ((0 < limit)%Z → (Z.of_nat (length (WithWriteMarker [] id)) < limit)%Z → (Z.of_nat (length out) ≤ limit)%Z).
Proof.
  unfold writeBody. cbn [negb orb]. set (l := if bool_decide (0 < limit)%Z then _ else _).
  intros [st [E [= <-]]]%rbind_Ok.
  split; [apply WithWriteMarker_has|]. intros H0 Hl.
  assert (Z.of_nat (length st) ≤ l)%Z as Hst.
  { unfold StampOwner in E. destruct (negb (valid_author author)); [done|]. case_bool_decide as Eb; [done|].
    set (x := header author ++ _) in E. injection E as <-. subst x.
    assert (0 < l)%Z as Hpos by (unfold l; rewrite bool_decide_true by done; lia).
    rewrite length_app. lia. }
  unfold l in Hst. rewrite bool_decide_true in Hst by done. unfold WithWriteMarker in *. rewrite !length_app in *.
  pose proof (length_trim st). change (length (trim_newlines [])) with 0%nat in Hst. simpl in *. lia.
Qed.

(** Removing one marker can put another together: the strip is one pass. *)
Definition split_marker (id : bytes) : bytes :=
  lit "<!-- compass:wri" ++ marker [] ++ lit "te " ++ id ++ lit " -->".

Lemma strip_reassembles :
  let id := lit "0b2f" in
  StripWriteMarkers (split_marker id) = marker id ∧ hasWriteMarker (StripWriteMarkers (split_marker id)) id = true.
Proof. split; vm_compute; reflexivity. Qed.

End ForgeMarker.
