(* ===== verification/ForgeIntents.v ===== *)
(** The store of forge write intents ([src/go/internal/store/forge_write_intents.go], its
    queries, and the authored-artifact row of [forge_authored.go]).

    A table is a list of rows in insertion order, which is the order of [created_at]; the
    unique indexes and checks of migration 0004 decide what an insert does.  A call runs
    under one tenant.  [known] is the composite foreign key on (agent, owner). *)
From stdpp Require Import base list strings sorting.
From Stdlib Require Import Ascii Lia ZArith.
From S2P Require Import Prelude Text.

Module ForgeIntents.

Open Scope Z_scope.

Inductive WriteState := WriteStatePending | WriteStateDone | WriteStateFailed | WriteStateLost.

#[export] Instance WriteState_eq_dec : EqDecision WriteState.
Proof. solve_decision. Defined.

Definition WriteKindIssue : Z := 1.
Definition WriteKindPullRequest : Z := 2.
Definition WriteKindComment : Z := 3.
Definition WriteKindReview : Z := 4.

Definition ForgeProviderGitHub : Z := 1.

Record WriteIntent := MkIntent {
  ID : bytes; Provider : Z; Host : bytes; Repo : bytes; Kind : Z; Parent : Z; HeadRef : bytes;
  AgentAccountID : bytes; OwnerUserID : bytes; SessionID : bytes; RequestKey : bytes;
  State : WriteState; ForgeKey : bytes; CreatedAt : Z; TenantID : bytes;
}.

Record AuthoredArtifact := MkArtifact {
  a_Provider : Z; a_Host : bytes; a_Repo : bytes; a_Kind : Z; a_Number : Z;
  a_Agent : bytes; a_Owner : bytes; a_Session : bytes; a_CreatedAtUnixMS : Z; a_Tenant : bytes;
}.

Inductive storeErr := ErrInvalidArgument | ErrConflict | ErrNotFound | ErrStore.

#[export] Instance storeErr_eq_dec : EqDecision storeErr.
Proof. solve_decision. Defined.

Record db := MkDb { intents : list WriteIntent; authored : list AuthoredArtifact }.

(** [ForgeCoord.Normalized]: of the repo. *)
Definition normalizedRepo (provider : Z) (repo : bytes) : bytes :=
  if bool_decide (provider = ForgeProviderGitHub) then ToLower (TrimSpace repo) else TrimSpace repo.

Definition validCoordinate (provider : Z) (host repo : bytes) : bool :=
  negb (bool_decide (provider = 0)) && negb (bool_decide (host = [])) && negb (bool_decide (repo = [])).

Definition set_state (st : WriteState) (key : bytes) (r : WriteIntent) : WriteIntent :=
  MkIntent (ID r) (Provider r) (Host r) (Repo r) (Kind r) (Parent r) (HeadRef r) (AgentAccountID r) (OwnerUserID r)
    (SessionID r) (RequestKey r) st key (CreatedAt r) (TenantID r).

(** ** Recording *)

(** The checks of [RecordWriteIntent] on its argument. *)
Definition valid_intent (isUUID : bytes → bool) (r : WriteIntent) : bool :=
  validCoordinate (Provider r) (Host r) (Repo r)
  && bool_decide (WriteKindIssue ≤ Kind r ≤ WriteKindReview)
  && negb (bool_decide (RequestKey r = []))
  && negb (bool_decide (AgentAccountID r = [] ∨ OwnerUserID r = []))
  && bool_decide (Parent r ≤ MaxInt64)
  && negb (bool_decide (Kind r = WriteKindPullRequest ∧ HeadRef r = []))
  && negb (bool_decide ((Kind r = WriteKindComment ∨ Kind r = WriteKindReview) ∧ Parent r = 0))
  && negb (bool_decide (Kind r ≠ WriteKindPullRequest ∧ HeadRef r ≠ []))
  && isUUID (ID r).

(** The index on (tenant, agent, client request id) of the rows that have not failed. *)
Definition same_request (r r' : WriteIntent) : bool :=
  bool_decide (TenantID r = TenantID r' ∧ AgentAccountID r = AgentAccountID r' ∧ RequestKey r = RequestKey r' ∧ State r' ≠ WriteStateFailed).

(** The primary key, and the index on pull-request heads. *)
Definition same_id (r r' : WriteIntent) : bool := bool_decide (TenantID r = TenantID r' ∧ ID r = ID r').
Definition holds_head (r : WriteIntent) : bool :=
  bool_decide (Kind r = WriteKindPullRequest ∧ (State r = WriteStatePending ∨ State r = WriteStateDone)).
Definition same_head (r r' : WriteIntent) : bool :=
  holds_head r && holds_head r'
  && bool_decide (TenantID r = TenantID r' ∧ Provider r = Provider r' ∧ Host r = Host r' ∧ Repo r = Repo r' ∧ HeadRef r = HeadRef r').

(** The row the insert writes. *)
Definition new_row (tenant : bytes) (now : Z) (r : WriteIntent) : WriteIntent :=
  MkIntent (ID r) (Provider r) (Host r) (normalizedRepo (Provider r) (Repo r)) (Kind r) (Parent r) (HeadRef r)
    (AgentAccountID r) (OwnerUserID r) (SessionID r) (RequestKey r) WriteStatePending [] now tenant.

Definition RecordWriteIntent (isUUID : bytes → bool) (known : bytes → bytes → bool) (tenant : bytes) (now : Z) (r : WriteIntent) (d : db)
    : result storeErr (WriteIntent * db) :=
  if negb (valid_intent isUUID r) then Err ErrInvalidArgument
  else
    let row := new_row tenant now r in
    if negb (bool_decide (1 ≤ Provider r ≤ 4)) then Err ErrStore
    else match find (same_request row) (intents d) with
    | Some old => Ok (old, d)
    | None =>
        if existsb (same_id row) (intents d) || existsb (same_head row) (intents d) then Err ErrConflict
        else if negb (known (AgentAccountID r) (OwnerUserID r)) then Err ErrInvalidArgument
        else Ok (row, MkDb (intents d ++ [row]) (authored d))
    end.

(** ** Ownership rows *)

Definition valid_artifact (a : AuthoredArtifact) : bool :=
  validCoordinate (a_Provider a) (a_Host a) (a_Repo a) && negb (bool_decide (a_Kind a = 0))
  && negb (bool_decide (a_Agent a = [])) && negb (bool_decide (a_Owner a = [])).

Definition same_coordinate (a b : AuthoredArtifact) : bool :=
  bool_decide (a_Tenant a = a_Tenant b ∧ a_Provider a = a_Provider b ∧ a_Host a = a_Host b ∧ a_Repo a = a_Repo b
    ∧ a_Kind a = a_Kind b ∧ a_Number a = a_Number b).

(** The upsert: authorship is written once. *)
Definition upsert_artifact (a : AuthoredArtifact) (l : list AuthoredArtifact) : list AuthoredArtifact :=
  if existsb (same_coordinate a) l then
    map (λ b, if same_coordinate a b then
      MkArtifact (a_Provider b) (a_Host b) (a_Repo b) (a_Kind b) (a_Number b) (a_Agent b) (a_Owner b) (a_Session a) (a_CreatedAtUnixMS a) (a_Tenant b)
      else b) l
  else l ++ [a].

(** [recordAuthoredArtifact] without a request key. *)
Definition recordAuthoredArtifact (known : bytes → bytes → bool) (a : AuthoredArtifact) (d : db) : result storeErr db :=
  if negb (bool_decide (1 ≤ a_Provider a ≤ 4) && bool_decide (1 ≤ a_Kind a ≤ 2)) then Err ErrStore
  else if negb (known (a_Agent a) (a_Owner a)) then Err ErrInvalidArgument
  else Ok (MkDb (intents d) (upsert_artifact a (authored d))).

(** ** Completing and ending *)

Definition find_intent (tenant id : bytes) (d : db) : option WriteIntent :=
  find (λ r, bool_decide (TenantID r = tenant ∧ ID r = id)) (intents d).

(** [UPDATE ... WHERE id = $ AND state = 'pending'], under the tenant's row policy. *)
Definition update_pending (tenant id : bytes) (st : WriteState) (key : WriteIntent → bytes) (l : list WriteIntent) : list WriteIntent :=
  map (λ r, if bool_decide (TenantID r = tenant ∧ ID r = id ∧ State r = WriteStatePending) then set_state st (key r) r else r) l.

Definition artifact_kind (kind : Z) : Z := if bool_decide (kind = WriteKindPullRequest) then 2 else 1.

(** The artifact is the intent's. *)
Definition matches_intent (a : AuthoredArtifact) (row : WriteIntent) : bool :=
  bool_decide (a_Provider a = Provider row ∧ a_Host a = Host row
    ∧ normalizedRepo (a_Provider a) (a_Repo a) = normalizedRepo (Provider row) (Repo row)
    ∧ a_Kind a = artifact_kind (Kind row) ∧ a_Number a ≠ 0 ∧ a_Number a ≤ MaxInt64
    ∧ a_Agent a = AgentAccountID row ∧ a_Owner a = OwnerUserID row ∧ a_Session a = SessionID row).

Definition CompleteWriteIntent (known : bytes → bytes → bool) (tenant id : bytes) (artifact : option AuthoredArtifact) (forgeKey : bytes) (d : db)
    : result storeErr db :=
  if bool_decide (id = []) then Err ErrInvalidArgument
  else match find_intent tenant id d with
  | None => Err ErrNotFound
  | Some row =>
      if negb (bool_decide (State row = WriteStatePending)) then Err ErrConflict
      else if negb (bool_decide (1 ≤ Kind row ≤ 4)) then Err ErrStore
      else
        let done (key : bytes) (d : db) := MkDb (update_pending tenant id WriteStateDone (λ _, key) (intents d)) (authored d) in
        if bool_decide (Kind row = WriteKindIssue ∨ Kind row = WriteKindPullRequest) then
          match artifact with
          | None => Err ErrInvalidArgument
          | Some a =>
              if negb (valid_artifact a) then Err ErrInvalidArgument
              else if negb (matches_intent a row) then Err ErrInvalidArgument
              else d <-? recordAuthoredArtifact known a d; Ok (done (FormatUint (Z.to_N (a_Number a))) d)
          end
        else match artifact with
          | Some _ => Err ErrInvalidArgument
          | None => if bool_decide (forgeKey = []) then Err ErrInvalidArgument else Ok (done forgeKey d)
          end
  end.

Definition EndWriteIntent (tenant id : bytes) (st : WriteState) (d : db) : result storeErr db :=
  if bool_decide (id = []) then Err ErrInvalidArgument
  else if negb (bool_decide (st = WriteStateFailed ∨ st = WriteStateLost)) then Err ErrInvalidArgument
  else match find_intent tenant id d with
  | None => Err ErrNotFound
  | Some row =>
      if bool_decide (State row = WriteStatePending) then Ok (MkDb (update_pending tenant id st ForgeKey (intents d)) (authored d))
      else Err ErrConflict
  end.

(** [PendingWriteIntents], under the system role: every tenant's, oldest first. *)
Definition PendingWriteIntents (olderThan : Z) (limit : nat) (d : db) : list WriteIntent :=
  take limit (filter (λ r, State r = WriteStatePending ∧ CreatedAt r < olderThan) (intents d)).

(** * Facts *)

(** What no statement changes of a row. *)
Definition same_attempt (r r' : WriteIntent) : Prop :=
  ID r = ID r' ∧ Provider r = Provider r' ∧ Host r = Host r' ∧ Repo r = Repo r' ∧ Kind r = Kind r' ∧ Parent r = Parent r' ∧ HeadRef r = HeadRef r'
  ∧ AgentAccountID r = AgentAccountID r' ∧ OwnerUserID r = OwnerUserID r' ∧ SessionID r = SessionID r' ∧ RequestKey r = RequestKey r'
  ∧ CreatedAt r = CreatedAt r' ∧ TenantID r = TenantID r'.

(** The table's constraints: ids are unique per tenant, and requests among the rows that
    have not failed. *)
Record table_ok (l : list WriteIntent) : Prop := {
  ok_ids : ∀ i j r r', l !! i = Some r → l !! j = Some r' → TenantID r = TenantID r' → ID r = ID r' → i = j;
  ok_requests : ∀ i j r r', l !! i = Some r → l !! j = Some r' → TenantID r = TenantID r' → AgentAccountID r = AgentAccountID r' →
    RequestKey r = RequestKey r' → State r ≠ WriteStateFailed → State r' ≠ WriteStateFailed → i = j;
  ok_heads : ∀ i j r r', l !! i = Some r → l !! j = Some r' → same_head r r' = true → i = j;
}.

Lemma set_state_same st key r : same_attempt r (set_state st key r).
Proof. unfold same_attempt. simpl. auto 20. Qed.

Lemma find_Some_elem {A} (f : A → bool) (l : list A) x : find f l = Some x → ∃ i, l !! i = Some x ∧ f x = true.
Proof. intros [Hin Hf]%find_some. apply list_elem_of_In, list_elem_of_lookup in Hin as [i Hi]. eauto. Qed.

Lemma find_None_all {A} (f : A → bool) (l : list A) i x : find f l = None → l !! i = Some x → f x = false.
Proof. intros Hf Hi. eapply find_none; [exact Hf|]. apply list_elem_of_In. by eapply list_elem_of_lookup_2. Qed.

Lemma existsb_false_all {A} (f : A → bool) (l : list A) i x : existsb f l = false → l !! i = Some x → f x = false.
Proof.
  intros Hf Hi. destruct (f x) eqn:E; [|done]. rewrite <- Hf. symmetry. apply existsb_exists. exists x. split; [|done].
  apply list_elem_of_In. by eapply list_elem_of_lookup_2.
Qed.

Lemma find_intent_spec tenant id d r :
  find_intent tenant id d = Some r → ∃ i, intents d !! i = Some r ∧ TenantID r = tenant ∧ ID r = id.
Proof. intros (i & Hi & Hb)%find_Some_elem. apply bool_decide_eq_true in Hb as [? ?]. eauto. Qed.

(** Of the rows, an update changes the one it names, if that is pending. *)
Lemma update_lookup tenant id st key l i :
  update_pending tenant id st key l !! i =
  (λ r, if bool_decide (TenantID r = tenant ∧ ID r = id ∧ State r = WriteStatePending) then set_state st (key r) r else r) <$> l !! i.
Proof. apply list_lookup_fmap. Qed.

Lemma update_row tenant id st key l i r' :
  update_pending tenant id st key l !! i = Some r' →
  ∃ r, l !! i = Some r ∧ same_attempt r r' ∧
    (r' = r ∨ TenantID r = tenant ∧ ID r = id ∧ State r = WriteStatePending ∧ r' = set_state st (key r) r).
Proof.
  rewrite update_lookup. destruct (l !! i) as [r|]; [|done]. simpl. intros [= <-]. exists r. split; [done|].
  case_bool_decide as E; [|split; [unfold same_attempt; auto 20|by left]].
  split; [apply set_state_same|]. right. by destruct E as (? & ? & ?).
Qed.

(** No update revives a failed row or takes a head again. *)
Lemma update_table_ok tenant id st key l : table_ok l → table_ok (update_pending tenant id st key l).
Proof.
  intros [H1 H2 H3]. constructor.
  - intros i j r r' (r0 & Hi & Hs & _)%update_row (r0' & Hj & Hs' & _)%update_row Ht Hid.
    eapply H1; [exact Hi|exact Hj|..]; unfold same_attempt in *; intuition congruence.
  - intros i j r r' (r0 & Hi & Hs & Hc)%update_row (r0' & Hj & Hs' & Hc')%update_row Ht Ha Hk Hst Hst'.
    eapply H2; [exact Hi|exact Hj|unfold same_attempt in *; intuition congruence..| |].
    + destruct Hc as [->|(_ & _ & -> & _)]; done.
    + destruct Hc' as [->|(_ & _ & -> & _)]; done.
  - intros i j r r' (r0 & Hi & Hs & Hc)%update_row (r0' & Hj & Hs' & Hc')%update_row Hh.
    eapply H3; [exact Hi|exact Hj|]. unfold same_head, holds_head in *. apply andb_true_iff in Hh as [[Ha Hb]%andb_true_iff Hd].
    apply bool_decide_eq_true in Ha, Hb, Hd. rewrite !andb_true_iff, !bool_decide_eq_true. unfold same_attempt in *.
    assert (State r0 = WriteStatePending ∨ State r0 = WriteStateDone) by (destruct Hc as [->|(_ & _ & -> & _)]; [tauto|by left]).
    assert (State r0' = WriteStatePending ∨ State r0' = WriteStateDone) by (destruct Hc' as [->|(_ & _ & -> & _)]; [tauto|by left]).
    intuition congruence.
Qed.

Lemma insert_table_ok l row :
  table_ok l → State row = WriteStatePending → find (same_request row) l = None → existsb (same_id row) l = false → existsb (same_head row) l = false →
  table_ok (l ++ [row]).
Proof.
  intros [H1 H2 H3] Hp Hr Hi Hh.
  assert (∀ i r, (l ++ [row]) !! i = Some r → l !! i = Some r ∨ (i = length l ∧ r = row)) as Hc.
  { intros i r [H|[Hge H]]%lookup_app_Some; [by left|]. apply list_lookup_singleton_Some in H as [Hz <-]. right. split; [lia|done]. }
  constructor.
  - intros i j r r' [Hl|[-> ->]]%Hc [Hl'|[-> ->]]%Hc Ht Hid; [by eapply H1|..|done].
    + apply (existsb_false_all _ _ _ _ Hi) in Hl. unfold same_id in Hl. apply bool_decide_eq_false in Hl. destruct Hl. done.
    + apply (existsb_false_all _ _ _ _ Hi) in Hl'. unfold same_id in Hl'. apply bool_decide_eq_false in Hl'. destruct Hl'. done.
  - intros i j r r' [Hl|[-> ->]]%Hc [Hl'|[-> ->]]%Hc Ht Ha Hk Hs Hs'; [by eapply H2|..|done].
    + apply (find_None_all _ _ _ _ Hr) in Hl. unfold same_request in Hl. apply bool_decide_eq_false in Hl. destruct Hl. done.
    + apply (find_None_all _ _ _ _ Hr) in Hl'. unfold same_request in Hl'. apply bool_decide_eq_false in Hl'. destruct Hl'. done.
  - assert (∀ r r', same_head r r' = same_head r' r) as Hsym.
    { intros r r'. apply eq_true_iff_eq. unfold same_head. rewrite !andb_true_iff, !bool_decide_eq_true. intuition congruence. }
    intros i j r r' [Hl|[-> ->]]%Hc [Hl'|[-> ->]]%Hc Hs; [by eapply H3|..|done].
    + rewrite Hsym in Hs. apply (existsb_false_all _ _ _ _ Hh) in Hl. congruence.
    + apply (existsb_false_all _ _ _ _ Hh) in Hl'. congruence.
Qed.

(** ** What each operation does *)

Lemma RecordWriteIntent_Ok isUUID known tenant now r d row d' :
  RecordWriteIntent isUUID known tenant now r d = Ok (row, d') →
  (d' = d ∧ row ∈ intents d ∧ TenantID row = tenant ∧ AgentAccountID row = AgentAccountID r ∧ RequestKey row = RequestKey r ∧ State row ≠ WriteStateFailed)
  ∨ (row = new_row tenant now r ∧ d' = MkDb (intents d ++ [row]) (authored d) ∧ valid_intent isUUID r = true
     ∧ find (same_request row) (intents d) = None ∧ existsb (same_id row) (intents d) = false ∧ existsb (same_head row) (intents d) = false).
Proof.
  unfold RecordWriteIntent. destruct (valid_intent isUUID r) eqn:Ev; [|done]. cbn [negb].
  destruct (negb (bool_decide (1 ≤ Provider r ≤ 4))); [done|]. destruct (find _ _) as [old|] eqn:Ef.
  - intros [= <- <-]. left. apply find_Some_elem in Ef as (i & Hi & Hs). apply bool_decide_eq_true in Hs. simpl in Hs.
    split; [done|]. split; [by eapply list_elem_of_lookup_2|]. intuition congruence.
  - destruct (existsb (same_id _) _ || existsb (same_head _) _) eqn:Ex; [done|]. apply orb_false_iff in Ex as [Ex1 Ex2].
    destruct (known _ _); [|done]. intros [= <- <-]. right. done.
Qed.

Lemma CompleteWriteIntent_Ok known tenant id a key d d' :
  CompleteWriteIntent known tenant id a key d = Ok d' →
  ∃ row, find_intent tenant id d = Some row ∧ State row = WriteStatePending
  ∧ intents d' = update_pending tenant id WriteStateDone (λ _, match a with Some a => FormatUint (Z.to_N (a_Number a)) | None => key end) (intents d)
  ∧ (match a with
     | Some a => (Kind row = WriteKindIssue ∨ Kind row = WriteKindPullRequest) ∧ matches_intent a row = true
                 ∧ authored d' = upsert_artifact a (authored d)
     | None => (Kind row = WriteKindComment ∨ Kind row = WriteKindReview) ∧ authored d' = authored d
     end).
Proof.
  unfold CompleteWriteIntent. case_bool_decide; [done|]. destruct (find_intent tenant id d) as [row|] eqn:Ef; [|done].
  destruct (bool_decide (State row = WriteStatePending)) eqn:Es; [|done]. apply bool_decide_eq_true in Es. cbn [negb].
  destruct (bool_decide (1 ≤ Kind row ≤ 4)) eqn:Ek; [|done]. apply bool_decide_eq_true in Ek. cbn [negb].
  destruct (bool_decide (Kind row = WriteKindIssue ∨ Kind row = WriteKindPullRequest)) eqn:Ei.
  - apply bool_decide_eq_true in Ei. destruct a as [a|]; [|done]. destruct (valid_artifact a); [|done]. cbn [negb].
    destruct (matches_intent a row) eqn:Em; [|done]. cbn [negb]. intros (d1 & Hr & [= <-])%rbind_Ok.
    unfold recordAuthoredArtifact in Hr. repeat (case_match; [done|]). injection Hr as <-. exists row. done.
  - apply bool_decide_eq_false in Ei. destruct a as [a|]; [done|]. case_bool_decide; [done|]. intros [= <-]. exists row.
    split; [done|]. split; [done|]. split; [done|]. split; [|done]. unfold WriteKindIssue, WriteKindPullRequest, WriteKindComment, WriteKindReview in *. lia.
Qed.

Lemma EndWriteIntent_Ok tenant id st d d' :
  EndWriteIntent tenant id st d = Ok d' →
  (st = WriteStateFailed ∨ st = WriteStateLost) ∧ ∃ row, find_intent tenant id d = Some row ∧ State row = WriteStatePending
  ∧ d' = MkDb (update_pending tenant id st ForgeKey (intents d)) (authored d).
Proof.
  unfold EndWriteIntent. case_bool_decide; [done|]. case_bool_decide as Es; [|done]. cbn [negb].
  destruct (find_intent tenant id d) as [row|] eqn:Ef; [|done]. case_bool_decide; [|done]. intros [= <-]. split; [done|]. by exists row.
Qed.

End ForgeIntents.
