(* ===== verification/ForgeWrites.v ===== *)
(** Forge creates under write intents ([src/go/server/forge_write_sweep.go] and the create
    arms of [src/go/server/forge.go]): a call records its intent, sends at most one create,
    and completes the intent; retries and the sweep recover an object whose answer was
    lost.

    Calls and sweeps interleave; a step is one store transaction or one exchange with a
    forge.  What is relied on of a forge is in the guards of [step]: a request answered by
    an error of [makes_nothing] makes no object, any other may make one at any later time,
    an answer names the object that the request made, and a lookup by marker finds only the
    object made for the marker's intent.  The guards do not depend on how the code
    classifies an error ([forgeRefused]).  A lookup by pull-request head may find any pull request.  Fresh ids
    are new.  The checks of the caller's scope and identity come before and are left out. *)
From stdpp Require Import base list strings.
From Stdlib Require Import Ascii Lia ZArith.
From S2P Require Import Prelude Text ForgeOwner ForgeMarker ForgeIntents.

Module ForgeWrites.
Import ForgeMarker ForgeIntents.

Open Scope Z_scope.

(** * The service *)

Record WrittenRef := MkRef { Number : Z; Key : bytes }.

#[export] Instance WrittenRef_eq_dec : EqDecision WrittenRef.
Proof. solve_decision. Defined.

(** A create made for an agent, with the request's key and body. *)
Record writeTarget := MkTarget {
  t_tenant : bytes; t_provider : Z; t_host : bytes; t_bodyLimit : Z; t_author : ForgeOwner.Author; t_owner : bytes; t_caller : bytes;
  t_session : bytes; t_repo : bytes; t_kind : Z; t_parent : Z; t_headRef : bytes; t_key : bytes; t_body : bytes;
}.

Inductive Code :=
| CodeInvalidArgument | CodeAlreadyExists | CodeNotFound | CodeInternal | CodeUnavailable | CodeFailedPrecondition.

Definition storeForgeError (e : storeErr) : Code :=
  match e with ErrNotFound => CodeNotFound | ErrInvalidArgument => CodeInvalidArgument | ErrConflict => CodeAlreadyExists | ErrStore => CodeInternal end.

(** What [errors.Is] and [errors.AsType] find in a create's error. *)
Record forgeError := MkForgeError { bodyTooLarge : bool; unsupported : bool; budgetExhausted : bool; status : option Z }.

Definition forgeRefused (e : forgeError) : bool :=
  if bodyTooLarge e || unsupported e then true
  else if budgetExhausted e then false
  else match status e with Some n => bool_decide (400 ≤ n < 500 ∧ n ≠ 429) | None => false end.

(** An error of [writeBody]: the request was never sent. *)
Definition stampError (e : ForgeOwner.stampErr) : forgeError :=
  MkForgeError (match e with ForgeOwner.ErrBodyTooLarge => true | _ => false end) false false None.

Inductive outcome :=
| Created (ref : WrittenRef)
| Replayed (i : WriteIntent) (ref : WrittenRef)
| CallError (c : Code)
| ForgeFailed (e : forgeError).

(** The intent of a target, recorded under the id [fresh]. *)
Definition intent_of (fresh : bytes) (t : writeTarget) : WriteIntent :=
  MkIntent fresh (t_provider t) (t_host t) (t_repo t) (t_kind t) (t_parent t) (t_headRef t) (t_caller t) (t_owner t) (t_session t) (t_key t)
    WriteStatePending [] 0 [].

Definition is_artifact (kind : Z) : bool := bool_decide (kind = WriteKindIssue ∨ kind = WriteKindPullRequest).

(** [intentRef]. *)
Definition intentRef (i : WriteIntent) : option WrittenRef :=
  if is_artifact (Kind i) then match ParseUint (ForgeKey i) with Some n => Some (MkRef (Z.of_N n) (ForgeKey i)) | None => None end
  else Some (MkRef 0 (ForgeKey i)).

(** [beginWrite] after the record: the caller owns a fresh attempt, or an earlier one is
    replayed, looked for, or reported. *)
Inductive begun := Fresh | Prior (ref : WrittenRef) | LookFor | Stop (c : Code).

Definition beginWrite (fresh : bytes) (i : WriteIntent) : begun :=
  if bool_decide (ID i = fresh) then Fresh
  else match State i with
  | WriteStateDone => match intentRef i with Some ref => Prior ref | None => Stop CodeInternal end
  | WriteStateLost => Stop CodeFailedPrecondition
  | WriteStatePending => LookFor
  | WriteStateFailed => Stop CodeInternal
  end.

(** [authoredArtifact], of a create arm, and the artifact of [completeFound]. *)
Definition authoredArtifact (t : writeTarget) (now number : Z) : AuthoredArtifact :=
  MkArtifact (t_provider t) (t_host t) (t_repo t) (artifact_kind (t_kind t)) number (t_caller t) (t_owner t) (t_session t) now (t_tenant t).
Definition foundArtifact (i : WriteIntent) (now number : Z) : AuthoredArtifact :=
  MkArtifact (Provider i) (Host i) (Repo i) (artifact_kind (Kind i)) number (AgentAccountID i) (OwnerUserID i) (SessionID i) now (TenantID i).

Section service.
Context (isUUID : bytes → bool) (known : bytes → bytes → bool).

(** [completeWrite]: a conflict means the object is recorded already. *)
Definition completeWrite (tenant id : bytes) (a : option AuthoredArtifact) (key : bytes) (d : db) : db * option Code :=
  match CompleteWriteIntent known tenant id a key d with
  | Ok d' => (d', None)
  | Err ErrConflict => (d, None)
  | Err e => (d, Some (storeForgeError e))
  | Panic => (d, Some CodeInternal)
  end.

(** [completeFound], and the end of a create arm. *)
Definition completeFound (now : Z) (i : WriteIntent) (ref : WrittenRef) (d : db) : db * option Code :=
  if is_artifact (Kind i) then completeWrite (TenantID i) (ID i) (Some (foundArtifact i now (Number ref))) [] d
  else if bool_decide (Kind i = WriteKindComment ∨ Kind i = WriteKindReview) then completeWrite (TenantID i) (ID i) None (Key ref) d
  else (d, Some CodeInternal).

Definition completeArm (now : Z) (t : writeTarget) (i : WriteIntent) (ref : WrittenRef) (d : db) : db * option Code :=
  if is_artifact (t_kind t) then completeWrite (t_tenant t) (ID i) (Some (authoredArtifact t now (Number ref))) [] d
  else completeWrite (t_tenant t) (ID i) None (Key ref) d.

(** [EndWriteIntent], whose conflict stands and whose other errors are logged. *)
Definition endWrite (i : WriteIntent) (st : WriteState) (d : db) : db :=
  match EndWriteIntent (TenantID i) (ID i) st d with Ok d' => d' | _ => d end.

Definition writeSweepMinAge : Z := 60000.
Definition writeLostAfter : Z := 86400000.
Definition writeSweepLimit : nat := 100.

(** * Calls and sweeps *)

(** What the forge holds: an object, the intent whose request made it. *)
Record object := MkObject { made_by : bytes; o_kind : Z; o_ref : WrittenRef }.

Inductive phase :=
| Begin (t : writeTarget)
| Looking (t : writeTarget) (i : WriteIntent)
| Found (t : writeTarget) (i : WriteIntent) (ref : WrittenRef)
| Owning (t : writeTarget) (i : WriteIntent)
| Sent (t : writeTarget) (i : WriteIntent)
| Recording (t : writeTarget) (i : WriteIntent) (ref : WrittenRef)
| Completing (t : writeTarget) (i : WriteIntent) (ref : WrittenRef)
| Failing (t : writeTarget) (i : WriteIntent) (o : outcome)
| Ended (t : writeTarget) (o : outcome)
| Sweep
| Sweeping (now : Z) (todo : list WriteIntent)
| SweepFound (now : Z) (i : WriteIntent) (ref : WrittenRef) (todo : list WriteIntent)
| SweepLost (now : Z) (i : WriteIntent) (todo : list WriteIntent)
| Over.

(** [flight]: the intents whose request may still make its object. [used]: the ids given. *)
Record world := MkWorld {
  store : db; objects : list object; flight : list bytes; used : list bytes; clock : Z; threads : list phase;
}.

Definition empty_world : world := MkWorld (MkDb [] []) [] [] [] 0 [].

Inductive answer :=
| LookErr | NotFound | FoundRef (ref : WrittenRef)
| CreateOk (ref : WrittenRef) | CreateErr (e : forgeError)
| Recorded (ok : bool).

Definition made (i : WriteIntent) (ref : WrittenRef) (w : world) : bool :=
  existsb (λ o, bool_decide (made_by o = ID i ∧ o_kind o = Kind i ∧ o_ref o = ref)) (objects w).

(** What a lookup may find. *)
Definition can_find (i : WriteIntent) (ref : WrittenRef) (w : world) : bool :=
  bool_decide (Kind i = WriteKindPullRequest) || made i ref w.

Definition go (n : nat) (p : phase) (w : world) : world :=
  MkWorld (store w) (objects w) (flight w) (used w) (clock w) (<[n := p]> (threads w)).
Definition set_store (d : db) (w : world) : world := MkWorld d (objects w) (flight w) (used w) (clock w) (threads w).
Definition set_flight (l : list bytes) (w : world) : world := MkWorld (store w) (objects w) l (used w) (clock w) (threads w).

(** What a forge and its client answer after which no object can come of the request,
    whatever the caller makes of the answer: the client sends nothing for a body that is
    too large or a kind the forge has no call for, and a request answered with a status
    from 400 to 499 other than 429, unless a budget was exhausted on the way, makes
    nothing.  After any other error the request may still make its object. *)
Definition makes_nothing (e : forgeError) : bool :=
  bool_decide (bodyTooLarge e = true ∨ unsupported e = true
    ∨ budgetExhausted e = false ∧ 400 ≤ default 0 (status e) ≤ 499 ∧ status e ≠ Some 429).

(** The record of [beginWrite], with what follows from its answer. *)
Definition record (n : nat) (t : writeTarget) (fresh : bytes) (w : world) : world :=
  let w := MkWorld (store w) (objects w) (flight w) (fresh :: used w) (clock w) (threads w) in
  match RecordWriteIntent isUUID known (t_tenant t) (clock w) (intent_of fresh t) (store w) with
  | Ok (i, d) =>
      let w := set_store d w in
      match beginWrite fresh i with
      | Fresh => go n (Owning t i) w
      | Prior ref => go n (Ended t (Replayed i ref)) w
      | LookFor => go n (Looking t i) w
      | Stop c => go n (Ended t (CallError c)) w
      end
  | Err e => go n (Ended t (CallError (storeForgeError e))) w
  | Panic => go n (Ended t (CallError CodeInternal)) w
  end.

(** [failWrite]: only a refusal ends the attempt. *)
Definition failWrite (n : nat) (t : writeTarget) (i : WriteIntent) (e : forgeError) (w : world) : world :=
  if forgeRefused e then go n (Failing t i (ForgeFailed e)) w else go n (Ended t (ForgeFailed e)) w.

(** Stamping the body and sending the create. *)
Definition send (n : nat) (t : writeTarget) (i : WriteIntent) (w : world) : world :=
  match writeBody (bool_decide (t_provider t = ForgeProviderGitHub)) (t_author t) (t_bodyLimit t) (t_body t) (ID i)
          (negb (bool_decide (t_kind t = WriteKindPullRequest))) with
  | Ok _ => go n (Sent t i) (set_flight (ID i :: flight w) w)
  | Err e => failWrite n t i (stampError e) w
  | Panic => w
  end.

(** One step of a call or a sweep; [None] where the answer is not possible. *)
Definition thread_step (n : nat) (fresh : bytes) (a : answer) (w : world) : option world :=
  match threads w !! n with
  | Some (Begin t) => if bool_decide (fresh ∈ used w) then None else Some (record n t fresh w)
  | Some (Looking t i) =>
      match a with
      | FoundRef ref => if can_find i ref w then Some (go n (Found t i ref) w) else None
      | LookErr | NotFound => Some (go n (Ended t (CallError CodeUnavailable)) w)
      | _ => None
      end
  | Some (Found t i ref) =>
      let '(d, e) := completeFound (clock w) i ref (store w) in
      Some (go n (Ended t (match e with Some c => CallError c | None => Replayed i ref end)) (set_store d w))
  | Some (Owning t i) => Some (send n t i w)
  | Some (Sent t i) =>
      match a with
      | CreateOk ref =>
          if made i ref w then
            Some (go n (if bool_decide (Kind i = WriteKindPullRequest) then Recording t i ref else Completing t i ref) w)
          else None
      | CreateErr e =>
          if makes_nothing e then
            if bool_decide (ID i ∈ flight w) then Some (failWrite n t i e (set_flight (filter (λ x, x ≠ ID i) (flight w)) w)) else None
          else Some (failWrite n t i e w)
      | _ => None
      end
  | Some (Recording t i ref) =>
      match a, recordAuthoredArtifact known (authoredArtifact t (clock w) (Number ref)) (store w) with
      | Recorded true, Ok d => Some (go n (Completing t i ref) (set_store d w))
      | Recorded _, _ => Some (go n (Ended t (CallError CodeInternal)) w)
      | _, _ => None
      end
  | Some (Completing t i ref) =>
      let '(d, e) := completeArm (clock w) t i ref (store w) in
      Some (go n (Ended t (match e with Some c => CallError c | None => Created ref end)) (set_store d w))
  | Some (Failing t i o) => Some (go n (Ended t o) (set_store (endWrite i WriteStateFailed (store w)) w))
  | Some Sweep => Some (go n (Sweeping (clock w) (PendingWriteIntents (clock w - writeSweepMinAge) writeSweepLimit (store w))) w)
  | Some (Sweeping now (i :: todo)) =>
      match a with
      | LookErr => Some (go n (Sweeping now todo) w)
      | FoundRef ref => if can_find i ref w then Some (go n (SweepFound now i ref todo) w) else None
      | NotFound => Some (go n (if bool_decide (now - CreatedAt i < writeLostAfter) then Sweeping now todo else SweepLost now i todo) w)
      | _ => None
      end
  | Some (Sweeping now []) => Some (go n Over w)
  | Some (SweepFound now i ref todo) => Some (go n (Sweeping now todo) (set_store (completeFound (clock w) i ref (store w)).1 w))
  | Some (SweepLost now i todo) => Some (go n (Sweeping now todo) (set_store (endWrite i WriteStateLost (store w)) w))
  | Some (Ended _ _) | Some Over | None => None
  end.

(** What a forge gives an object: a number to an issue or a pull request, a key to others. *)
Definition ref_ok (kind : Z) (ref : WrittenRef) : bool :=
  if is_artifact kind then bool_decide (1 ≤ Number ref ≤ MaxInt64) else negb (bool_decide (Key ref = [])).

Inductive event :=
| Call (t : writeTarget)
| Tick
| Thread (n : nat) (fresh : bytes) (a : answer)
| Adopt (n : nat) (c : Code)
| Land (o : object)
| Crash (n : nat)
| Later (ms : Z).

(** [Adopt]: a caller that owns a fresh intent and sends nothing ([adopt] of a stack run).
    [Crash]: the process ends under a call. *)
Definition step (ev : event) (w : world) : option world :=
  let spawn p := Some (MkWorld (store w) (objects w) (flight w) (used w) (clock w) (threads w ++ [p])) in
  match ev with
  | Call t => spawn (Begin t)
  | Tick => spawn Sweep
  | Thread n fresh a => thread_step n fresh a w
  | Adopt n c => match threads w !! n with Some (Owning t i) => Some (go n (Failing t i (CallError c)) w) | _ => None end
  | Land o =>
      if bool_decide (made_by o ∈ flight w) && ref_ok (o_kind o) (o_ref o)
         && existsb (λ r, bool_decide (ID r = made_by o ∧ Kind r = o_kind o)) (intents (store w)) then
        Some (MkWorld (store w) (objects w ++ [o]) (filter (λ x, x ≠ made_by o) (flight w)) (used w) (clock w) (threads w))
      else None
  | Crash n => Some (go n Over w)
  | Later ms => if bool_decide (0 ≤ ms) then Some (MkWorld (store w) (objects w) (flight w) (used w) (clock w + ms) (threads w)) else None
  end.

Definition play (evs : list event) : world := foldl (λ w ev, default w (step ev w)) empty_world evs.

(** * Invariant *)

Definition owner (p : phase) : option bytes :=
  match p with
  | Owning _ i | Sent _ i | Recording _ i _ | Completing _ i _ | Failing _ i _ => Some (ID i)
  | _ => None
  end.

Definition rows (w : world) : list WriteIntent := intents (store w).

(** The attempt is in the table; it has not failed there. *)
Definition row_of (w : world) (i : WriteIntent) : Prop := ∃ j r, rows w !! j = Some r ∧ same_attempt i r.
Definition live (w : world) (i : WriteIntent) : Prop := ∃ j r, rows w !! j = Some r ∧ same_attempt i r ∧ State r ≠ WriteStateFailed.

Definition of_target (t : writeTarget) (i : WriteIntent) : Prop :=
  TenantID i = t_tenant t ∧ AgentAccountID i = t_caller t ∧ RequestKey i = t_key t.

(** No object of the attempt exists, and none can come to exist. *)
Definition unborn (w : world) (id : bytes) : Prop := id ∉ flight w ∧ ∀ o, o ∈ objects w → made_by o ≠ id.

(** The object of the attempt; [shows]: up to what the reference of a replay carries. *)
Definition has_object (w : world) (i : WriteIntent) (ref : WrittenRef) : Prop :=
  ∃ o, o ∈ objects w ∧ made_by o = ID i ∧ o_kind o = Kind i ∧ o_ref o = ref.
Definition same_object (kind : Z) (ref ref' : WrittenRef) : Prop := if is_artifact kind then Number ref = Number ref' else Key ref = Key ref'.
Definition shows (w : world) (i : WriteIntent) (ref : WrittenRef) : Prop :=
  Kind i = WriteKindPullRequest ∨ ∃ ref', has_object w i ref' ∧ same_object (Kind i) ref ref'.

Definition fits (w : world) (p : phase) : Prop :=
  match p with
  | Looking t i => of_target t i ∧ row_of w i
  | Found t i ref => of_target t i ∧ row_of w i ∧ shows w i ref
  | Owning t i => of_target t i ∧ Kind i = t_kind t ∧ live w i ∧ unborn w (ID i)
  | Sent t i => of_target t i ∧ Kind i = t_kind t ∧ live w i
  | Recording t i ref | Completing t i ref => of_target t i ∧ Kind i = t_kind t ∧ live w i ∧ has_object w i ref
  | Failing t i o => live w i ∧ unborn w (ID i) ∧ match o with Created _ | Replayed _ _ => False | _ => True end
  | Ended t (Created ref) => ∃ i, of_target t i ∧ live w i ∧ has_object w i ref
  | Ended t (Replayed i ref) => of_target t i ∧ row_of w i ∧ shows w i ref
  | Sweeping _ todo => Forall (row_of w) todo
  | SweepFound _ i ref todo => Forall (row_of w) (i :: todo) ∧ shows w i ref
  | SweepLost _ i todo => Forall (row_of w) (i :: todo)
  | _ => True
  end.

(** What the store keeps of an object: its number or key. *)
Definition object_key (o : object) : bytes := if is_artifact (o_kind o) then FormatUint (Z.to_N (Number (o_ref o))) else Key (o_ref o).

Record global (w : world) : Prop := {
  g_table : table_ok (rows w);
  g_used : ∀ j r, rows w !! j = Some r → ID r ∈ used w;
  g_ids : ∀ j k r r', rows w !! j = Some r → rows w !! k = Some r' → ID r = ID r' → j = k;
  g_flight : ∀ id, id ∈ flight w → (∃ j r, rows w !! j = Some r ∧ ID r = id ∧ State r ≠ WriteStateFailed) ∧ ∀ o, o ∈ objects w → made_by o ≠ id;
  g_objects : ∀ o, o ∈ objects w → ref_ok (o_kind o) (o_ref o) = true
    ∧ ∃ j r, rows w !! j = Some r ∧ ID r = made_by o ∧ Kind r = o_kind o ∧ State r ≠ WriteStateFailed;
  g_once : ∀ i j o o', objects w !! i = Some o → objects w !! j = Some o' → made_by o = made_by o' → i = j;
  g_done : ∀ j r, rows w !! j = Some r → State r = WriteStateDone → Kind r ≠ WriteKindPullRequest →
    ∃ o, o ∈ objects w ∧ made_by o = ID r ∧ o_kind o = Kind r ∧ ForgeKey r = object_key o;
}.

Record inv (w : world) : Prop := {
  inv_global : global w;
  inv_fits : ∀ n p, threads w !! n = Some p → fits w p;
  inv_owner : ∀ n m p q id, threads w !! n = Some p → threads w !! m = Some q → owner p = Some id → owner q = Some id → n = m;
}.

(** Attempts stay in the table and objects at the forge. *)
Definition ext (w w' : world) : Prop :=
  (∀ j r, rows w !! j = Some r → ∃ r', rows w' !! j = Some r' ∧ same_attempt r r') ∧ ∀ o, o ∈ objects w → o ∈ objects w'.

(** Nothing is done to the attempt [id] that its owner relies on. *)
Definition spares (w w' : world) (id : bytes) : Prop :=
  (unborn w id → unborn w' id)
  ∧ ∀ j r r', rows w !! j = Some r → rows w' !! j = Some r' → ID r = id → State r ≠ WriteStateFailed → State r' ≠ WriteStateFailed.

Lemma same_attempt_refl r : same_attempt r r.
Proof. unfold same_attempt. auto 20. Qed.

Lemma same_attempt_trans a b c : same_attempt a b → same_attempt b c → same_attempt a c.
Proof. unfold same_attempt. intuition congruence. Qed.

Lemma row_of_ext w w' i : ext w w' → row_of w i → row_of w' i.
Proof. intros [HE _] (j & r & Hj & Hs). destruct (HE j r Hj) as (r' & Hr & Hs'). exists j, r'. split; [done|by eapply same_attempt_trans]. Qed.

Lemma has_object_ext w w' i ref : ext w w' → has_object w i ref → has_object w' i ref.
Proof. intros [_ HE] (o & Ho & H). exists o. split; [by apply HE|done]. Qed.

Lemma shows_ext w w' i ref : ext w w' → shows w i ref → shows w' i ref.
Proof. intros HE [?|(ref' & H & Hs)]; [by left|]. right. exists ref'. split; [by eapply has_object_ext|done]. Qed.

Lemma live_ext w w' i : ext w w' → spares w w' (ID i) → live w i → live w' i.
Proof.
  intros [HE _] [_ HS] (j & r & Hj & Hs & Hf). destruct (HE j r Hj) as (r' & Hr & Hs'). exists j, r'.
  split; [done|]. split; [by eapply same_attempt_trans|]. eapply HS; [exact Hj|exact Hr| |done]. symmetry. apply Hs.
Qed.

Lemma has_object_row w i ref : global w → row_of w i → has_object w i ref → live w i.
Proof.
  intros HG (j & r & Hj & Hs) (o & Ho & Hm & _). destruct (g_objects w HG o Ho) as (_ & k & r' & Hk & Hid & _ & Hf).
  assert (j = k) as <-. { eapply (g_ids w HG); [exact Hj|exact Hk|]. destruct Hs as (Hs & _). congruence. }
  exists j, r. assert (r = r') as <- by congruence. done.
Qed.

Lemma fits_ext w w' p :
  global w' → ext w w' → (∀ id, owner p = Some id → spares w w' id) → fits w p → fits w' p.
Proof.
  intros HG HE HS. pose proof (row_of_ext w w') as HR. pose proof (has_object_ext w w') as HO. pose proof (shows_ext w w') as HSh.
  assert (∀ l, Forall (row_of w) l → Forall (row_of w') l) as HF by (intros l Hl; eapply Forall_impl; [exact Hl|auto]).
  assert (∀ i, owner p = Some (ID i) → live w i → live w' i) as HL by (intros i Hi; apply live_ext; auto).
  destruct p as [t|t i|t i ref|t i|t i|t i ref|t i ref|t i o|t o| |now todo|now i ref todo|now i todo|]; simpl in *; try done.
  - intros [? ?]; auto.
  - intros (? & ? & ?); auto.
  - intros (? & ? & ? & Hu). destruct (HS _ eq_refl) as [HU _]. auto.
  - intros (? & ? & ?); auto.
  - intros (? & ? & ? & ?); auto.
  - intros (? & ? & ? & ?); auto.
  - intros (? & Hu & ?). destruct (HS _ eq_refl) as [HU _]. auto.
  - destruct o as [ref|i ref|c|e]; try done; [|intros (? & ? & ?); auto].
    intros (i & H1 & (j & r & Hj & Hs & _) & H3). exists i. split; [done|].
    assert (has_object w' i ref) as H3' by by apply HO. split; [|done]. eapply has_object_row; [done| |exact H3'].
    apply (row_of_ext w); [done|]. by exists j, r.
  - apply HF.
  - intros [? ?]; auto.
  - apply HF.
Qed.

(** ** Changes of the shared state *)

(** Nothing that the invariant speaks of has changed, the threads apart. *)
Definition calm (w w' : world) : Prop :=
  rows w' = rows w ∧ objects w' = objects w ∧ flight w' = flight w ∧ used w' = used w.

Lemma ext_calm w w' : calm w w' → ext w w'.
Proof.
  intros (E1 & E2 & _). split; [|by rewrite E2]. intros j r Hj. exists r. rewrite E1. split; [done|apply same_attempt_refl].
Qed.

Lemma spares_calm w w' id : calm w w' → spares w w' id.
Proof. intros (E1 & E2 & E3 & _). split; [unfold unborn; by rewrite E2, E3|]. rewrite E1. intros; congruence. Qed.

Lemma global_calm w w' : calm w w' → global w → global w'.
Proof. intros (E1 & E2 & E3 & E4) []. constructor; rewrite ?E1, ?E2, ?E3, ?E4; done. Qed.

(** A step of thread [n], from [p] to [q], over a change of the shared state. *)
Lemma inv_go w w' n p q :
  inv w → threads w !! n = Some p → threads w' = <[n := q]> (threads w) → global w' → ext w w' →
  (∀ id, owner p ≠ Some id → spares w w' id) → fits w' q →
  (∀ id, owner q = Some id → owner p = Some id ∨ ∀ m p', threads w !! m = Some p' → owner p' ≠ Some id) → inv w'.
Proof.
  intros HI Hn Ht HG HE HS Hq Ho. pose proof (lookup_lt_Some _ _ _ Hn) as Hlt.
  assert (∀ m p', threads w' !! m = Some p' → (m = n ∧ p' = q) ∨ (m ≠ n ∧ threads w !! m = Some p')) as Hc.
  { intros m p'. rewrite Ht. destruct (decide (m = n)) as [->|Hne].
    - rewrite list_lookup_insert_eq by done. intros [= <-]. by left.
    - rewrite list_lookup_insert_ne by done. by right. }
  constructor; [done| |].
  - intros m p' [[-> ->]|[Hm Hp]]%Hc; [done|]. eapply fits_ext; [done|done| |by eapply (inv_fits w HI)].
    intros id Hid. apply HS. intros Hid'. apply Hm. eapply (inv_owner w HI); [exact Hp|exact Hn|done..].
  - intros m m' p1 p2 id [[-> ->]|[Hm Hp]]%Hc [[-> ->]|[Hm' Hp']]%Hc H1 H2; [done| | |by eapply (inv_owner w HI)].
    + destruct (Ho id H1) as [H|H]; [by eapply (inv_owner w HI); [exact Hn|exact Hp'|..]|by destruct (H _ _ Hp')].
    + destruct (Ho id H2) as [H|H]; [by eapply (inv_owner w HI); [exact Hp|exact Hn|..]|by destruct (H _ _ Hp)].
Qed.

(** The thread moves, nothing else. *)
Lemma inv_goes w n p q :
  inv w → threads w !! n = Some p → fits w q → (∀ id, owner q = Some id → owner p = Some id) → inv (go n q w).
Proof.
  intros HI Hn Hq Ho. assert (calm w (go n q w)) as HC by done. pose proof (global_calm _ _ HC (inv_global w HI)) as HG.
  apply (inv_go w _ n p q HI Hn); try done.
  - by apply ext_calm.
  - intros. by apply spares_calm.
  - intros id Hid. left. by apply Ho.
Qed.

(** An update of a pending row: failing needs an unborn attempt, and done the object's key. *)
Lemma global_update w d tenant id st key :
  global w → intents d = update_pending tenant id st key (rows w) →
  (st = WriteStateFailed → unborn w id) →
  (st = WriteStateDone → ∀ j r, rows w !! j = Some r → ID r = id → Kind r ≠ WriteKindPullRequest →
     ∃ o, o ∈ objects w ∧ made_by o = id ∧ o_kind o = Kind r ∧ key r = object_key o) →
  global (set_store d w) ∧ ext w (set_store d w) ∧ (∀ id', (st = WriteStateFailed → id' ≠ id) → spares w (set_store d w) id').
Proof.
  intros HG Hd Hf Hk.
  assert (∀ j r', rows (set_store d w) !! j = Some r' → ∃ r, rows w !! j = Some r ∧ same_attempt r r' ∧
    (r' = r ∨ TenantID r = tenant ∧ ID r = id ∧ State r = WriteStatePending ∧ r' = set_state st (key r) r)) as Hrow.
  { intros j r'. unfold rows at 1. simpl. rewrite Hd. apply update_row. }
  assert (ext w (set_store d w)) as HE.
  { split; [|done]. intros j r Hj. unfold rows. simpl. rewrite Hd, update_lookup, Hj. simpl. eexists. split; [done|].
    case_bool_decide; [apply set_state_same|apply same_attempt_refl]. }
  assert (∀ id' j r, (st = WriteStateFailed → id' ≠ id) → rows w !! j = Some r → ID r = id' → State r ≠ WriteStateFailed →
    ∃ r', rows (set_store d w) !! j = Some r' ∧ same_attempt r r' ∧ State r' ≠ WriteStateFailed) as Hlive.
  { intros id' j r Hid Hj Hr Hst. destruct (proj1 HE j r Hj) as (r' & Hj' & Hs). exists r'. split; [done|]. split; [done|].
    destruct (Hrow j r' Hj') as (r0 & Hj0 & _ & [->|(_ & H2 & _ & ->)]); [congruence|]. simpl.
    intros ->. apply (Hid eq_refl). congruence. }
  split; [|split; [exact HE|]].
  - constructor.
    + unfold rows. simpl. rewrite Hd. by apply update_table_ok, (g_table w HG).
    + intros j r' (r & Hj & Hs & _)%Hrow. destruct Hs as (<- & _). by eapply (g_used w HG).
    + intros j k r r' (r0 & Hj & Hs & _)%Hrow (r0' & Hk' & Hs' & _)%Hrow E. eapply (g_ids w HG); [exact Hj|exact Hk'|].
      destruct Hs as (-> & _), Hs' as (-> & _). done.
    + intros id' Hid'. destruct (g_flight w HG id' Hid') as [(j & r & Hj & Hr & Hst) Ho]. split; [|done].
      destruct (Hlive id' j r) as (r' & Hj' & Hs & Hst'); [|done..|].
      { intros ->. intros ->. by destruct (Hf eq_refl) as [Hfl _]. }
      exists j, r'. split; [done|]. split; [|done]. destruct Hs as (<- & _). done.
    + intros o Ho. destruct (g_objects w HG o Ho) as (Hrk & j & r & Hj & Hr & Hkd & Hst). split; [done|].
      destruct (Hlive (made_by o) j r) as (r' & Hj' & Hs & Hst'); [|done..|].
      { intros ->. intros Hm. destruct (Hf eq_refl) as [_ Hno]. by apply (Hno o). }
      exists j, r'. split; [done|]. unfold same_attempt in Hs. intuition congruence.
    + apply (g_once w HG).
    + intros j r' (r & Hj & Hs & Hc)%Hrow Hdone Hkind. destruct Hc as [->|(Ht & Hi & Hp & ->)]; [by eapply (g_done w HG)|].
      simpl in Hdone, Hkind. destruct (Hk Hdone j r Hj Hi Hkind) as (o & Ho & Hm & Hok & Hkey). exists o. simpl.
      split; [done|]. split; [congruence|]. done.
  - intros id' Hid. split; [done|]. intros j r r' Hj Hj' Hr Hst. destruct (Hlive id' j r Hid Hj Hr Hst) as (r2 & Hj2 & _ & Hst2). congruence.
Qed.

(** The row of an attempt is the one its tenant and id find. *)
Lemma find_row w i r : global w → row_of w i → find_intent (TenantID i) (ID i) (store w) = Some r → same_attempt i r.
Proof.
  intros HG (j & r0 & Hj & Hs) (k & Hk & Ht & Hid)%find_intent_spec. assert (j = k) as <-.
  { eapply (g_ids w HG); [exact Hj|exact Hk|]. destruct Hs as (<- & _). done. }
  unfold rows in Hj. by assert (r0 = r) as <- by congruence.
Qed.

Lemma global_same_store w d : global w → intents d = rows w → global (set_store d w) ∧ ext w (set_store d w) ∧ ∀ id, spares w (set_store d w) id.
Proof.
  intros HG E. assert (calm w (set_store d w)) as HC by by (split; [exact E|]).
  split; [by eapply global_calm|]. split; [by apply ext_calm|]. intros. by apply spares_calm.
Qed.

(** [completeWrite] with what the object of the attempt is known by. *)
Lemma completeWrite_ok w i ref tenant a key :
  global w → row_of w i → tenant = TenantID i → shows w i ref →
  (Kind i ≠ WriteKindPullRequest → match a with
   | Some a => Kind i = WriteKindIssue → a_Number a = Number ref
   | None => key = Key ref
   end) →
  let w' := set_store (completeWrite tenant (ID i) a key (store w)).1 w in
  global w' ∧ ext w w' ∧ ∀ id, spares w w' id.
Proof.
  intros HG Hrow -> Hsh Ha. cbv zeta. unfold completeWrite.
  destruct (CompleteWriteIntent known (TenantID i) (ID i) a key (store w)) as [d'|e|] eqn:E.
  2:{ destruct e; by apply global_same_store. } 2:{ by apply global_same_store. }
  apply CompleteWriteIntent_Ok in E as (r & Hf & Hp & Hd & Hc). simpl.
  pose proof (find_row w i r HG Hrow Hf) as Hs.
  destruct (global_update w d' (TenantID i) (ID i) WriteStateDone
    (λ _, match a with Some a => FormatUint (Z.to_N (a_Number a)) | None => key end) HG Hd) as (H1 & H2 & H3).
  - done.
  - intros _ j r0 Hj Hid Hk. destruct Hrow as (j' & r' & Hj' & Hs'). assert (j' = j) as ->.
    { eapply (g_ids w HG); [exact Hj'|exact Hj|]. destruct Hs' as (<- & _). done. }
    assert (r' = r0) as -> by congruence. assert (Kind r0 = Kind i) as Hki by (symmetry; apply Hs'). rewrite Hki in *.
    assert (Kind r = Kind i) as Hkr by (symmetry; apply Hs).
    destruct Hsh as [?|(ref' & (o & Ho & Hm & Hok & <-) & Hso)]; [done|]. exists o. split; [done|]. split; [done|]. split; [done|].
    specialize (Ha Hk). unfold object_key. rewrite Hok. unfold same_object in Hso. destruct a as [a|].
    + destruct Hc as ([Hc|Hc] & _); [|congruence]. rewrite Hkr in Hc. rewrite (Ha Hc).
      assert (is_artifact (Kind i) = true) as Hia by (unfold is_artifact; apply bool_decide_eq_true; by left). rewrite Hia in *. by rewrite Hso.
    + destruct Hc as (Hc & _). rewrite Hkr in Hc. subst key.
      assert (is_artifact (Kind i) = false) as Hia.
      { unfold is_artifact. apply bool_decide_eq_false. unfold WriteKindIssue, WriteKindPullRequest, WriteKindComment, WriteKindReview in *. lia. }
      by rewrite Hia in *.
  - split; [done|]. split; [done|]. intros id. by apply H3.
Qed.

Lemma completeFound_ok w now i ref :
  global w → row_of w i → shows w i ref →
  let w' := set_store (completeFound now i ref (store w)).1 w in global w' ∧ ext w w' ∧ ∀ id, spares w w' id.
Proof.
  intros HG Hrow Hsh. unfold completeFound. destruct (is_artifact (Kind i)) eqn:Ei.
  - by apply (completeWrite_ok w i ref).
  - case_bool_decide; [by apply (completeWrite_ok w i ref)|]. by apply global_same_store.
Qed.

(** Ending an attempt: as failed, when it is unborn. *)
Lemma endWrite_ok w i st :
  global w → (st = WriteStateFailed → unborn w (ID i)) → st = WriteStateFailed ∨ st = WriteStateLost →
  let w' := set_store (endWrite i st (store w)) w in
  global w' ∧ ext w w' ∧ ∀ id, (st = WriteStateFailed → id ≠ ID i) → spares w w' id.
Proof.
  intros HG Hu Hst. unfold endWrite. destruct (EndWriteIntent (TenantID i) (ID i) st (store w)) as [d'| |] eqn:E.
  - apply EndWriteIntent_Ok in E as (_ & r & _ & _ & ->). 
    apply (global_update w _ (TenantID i) (ID i) st ForgeKey); [done..|]. intros ->. by destruct Hst.
  - destruct (global_same_store w (store w) HG eq_refl) as (? & ? & ?). auto.
  - destruct (global_same_store w (store w) HG eq_refl) as (? & ? & ?). auto.
Qed.

(** ** Steps *)

Lemma made_object i ref w : made i ref w = true → has_object w i ref.
Proof.
  unfold made. intros (o & Ho & Hb)%existsb_exists. apply bool_decide_eq_true in Hb as (? & ? & ?). exists o.
  split; [by apply list_elem_of_In|done].
Qed.

Lemma same_object_refl k ref : same_object k ref ref.
Proof. unfold same_object. by destruct (is_artifact k). Qed.

Lemma can_find_shows i ref w : can_find i ref w = true → shows w i ref.
Proof.
  intros [H|H]%orb_true_iff; [left; by apply bool_decide_eq_true in H|]. right. exists ref.
  split; [by apply made_object|apply same_object_refl].
Qed.

Lemma live_row w i : live w i → row_of w i.
Proof. intros (j & r & ? & ? & _). by exists j, r. Qed.

(** A done attempt's reference is its object's. *)
Lemma intentRef_shows w i j ref :
  global w → rows w !! j = Some i → State i = WriteStateDone → intentRef i = Some ref → shows w i ref.
Proof.
  intros HG Hj Hd Hr. destruct (decide (Kind i = WriteKindPullRequest)) as [|Hk]; [by left|]. right.
  destruct (g_done w HG j i Hj Hd Hk) as (o & Ho & Hm & Hok & Hkey). exists (o_ref o). split; [by exists o|].
  destruct (g_objects w HG o Ho) as [Hrk _]. unfold same_object, intentRef, object_key, ref_ok in *. rewrite Hok in *.
  destruct (is_artifact (Kind i)).
  - apply bool_decide_eq_true in Hrk. rewrite Hkey, ParseUint_FormatUint in Hr by (unfold MaxInt64 in *; lia).
    injection Hr as <-. simpl. lia.
  - injection Hr as <-. simpl. congruence.
Qed.

(** The new attempt's row. *)
Lemma global_insert w row fresh :
  global w → fresh ∉ used w → ID row = fresh → State row = WriteStatePending →
  find (same_request row) (rows w) = None → existsb (same_id row) (rows w) = false → existsb (same_head row) (rows w) = false →
  let w' := MkWorld (MkDb (rows w ++ [row]) (authored (store w))) (objects w) (flight w) (fresh :: used w) (clock w) (threads w) in
  global w' ∧ ext w w' ∧ (∀ id, spares w w' id) ∧ unborn w' fresh ∧ live w' row.
Proof.
  intros HG Hu Hid Hp H1 H2 H3. cbv zeta. set (w' := MkWorld _ _ _ _ _ _).
  assert (∀ j r, rows w' !! j = Some r → rows w !! j = Some r ∨ (j = length (rows w) ∧ r = row)) as Hc.
  { intros j r [H|[Hge H]]%lookup_app_Some; [by left|]. apply list_lookup_singleton_Some in H as [Hz <-]. right. split; [lia|done]. }
  assert (∀ j r, rows w !! j = Some r → rows w' !! j = Some r) as Hold by (intros; by apply lookup_app_l_Some).
  assert (∀ j r, rows w !! j = Some r → ID r ≠ fresh) as Hne by (intros j r Hj E; apply Hu; rewrite <- E; by eapply (g_used w HG)).
  split; [constructor|split; [split|split; [|split]]].
  - apply insert_table_ok; [apply (g_table w HG)|done..].
  - intros j r [Hj|[_ ->]]%Hc; [right; by eapply (g_used w HG)|]. rewrite Hid. left.
  - intros j k r r' [Hj|[-> ->]]%Hc [Hk|[-> ->]]%Hc E; [by eapply (g_ids w HG)| | |done].
    + destruct (Hne j r Hj). congruence.
    + destruct (Hne k r' Hk). congruence.
  - intros id H. destruct (g_flight w HG id H) as [(j & r & Hj & Hr) Ho]. split; [|done]. exists j, r. split; [by apply Hold|done].
  - intros o H. destruct (g_objects w HG o H) as (Hrk & j & r & Hj & Hr). split; [done|]. exists j, r. split; [by apply Hold|done].
  - apply (g_once w HG).
  - intros j r [Hj|[_ ->]]%Hc Hd Hk; [by eapply (g_done w HG)|congruence].
  - intros j r Hj. exists r. split; [by apply Hold|apply same_attempt_refl].
  - done.
  - intros id. split; [done|]. intros j r r' Hj Hj' _ Hst. apply Hold in Hj. congruence.
  - split.
    + intros Hf. destruct (g_flight w HG fresh Hf) as [(j & r & Hj & Hr & _) _]. by destruct (Hne j r Hj).
    + intros o Ho E. destruct (g_objects w HG o Ho) as (_ & j & r & Hj & Hr & _). destruct (Hne j r Hj). congruence.
  - exists (length (rows w)), row. split; [by apply list_lookup_middle|]. split; [apply same_attempt_refl|]. by rewrite Hp.
Qed.

Lemma global_used w fresh :
  global w → let w' := MkWorld (store w) (objects w) (flight w) (fresh :: used w) (clock w) (threads w) in
  global w' ∧ ext w w' ∧ ∀ id, spares w w' id.
Proof.
  intros HG. cbv zeta. set (w' := MkWorld _ _ _ _ _ _). split; [|split].
  - destruct HG. constructor; try done. intros j r Hj. right. by eapply g_used0.
  - split; [|done]. intros j r Hj. exists r. split; [done|apply same_attempt_refl].
  - intros id. split; [done|]. intros j r r' H1 H2. unfold rows in *. simpl in H2. congruence.
Qed.

Lemma inv_record w n t fresh : inv w → threads w !! n = Some (Begin t) → fresh ∉ used w → inv (record n t fresh w).
Proof.
  intros HI Hn Hu. pose proof (inv_global w HI) as HG. destruct (global_used w fresh HG) as (HG1 & HE1 & HS1).
  unfold record. set (w1 := MkWorld (store w) (objects w) (flight w) (fresh :: used w) (clock w) (threads w)) in *.
  assert (∀ q, fits w1 q → owner q = None → inv (go n q w1)) as Hgo.
  { intros q Hq Ho. apply (inv_go w _ n (Begin t) q HI Hn); [done|by apply (global_calm w1)|done|intros id _; apply HS1|done|].
    intros id. by rewrite Ho. }
  destruct (RecordWriteIntent isUUID known (t_tenant t) (clock w1) (intent_of fresh t) (store w1)) as [[i d]| |] eqn:E; [|by apply Hgo..].
  destruct (RecordWriteIntent_Ok _ _ _ _ _ _ _ _ E) as [(-> & Hin & Ht & Ha & Hk & Hst)|(-> & -> & Hv & H1 & H2 & H3)].
  - apply list_elem_of_lookup in Hin as [j Hj]. assert (ID i ∈ used w) as Hiu by by eapply (g_used w HG).
    unfold beginWrite. rewrite bool_decide_false by (intros <-; done).
    assert (set_store (store w1) w1 = w1) as -> by by destruct w. assert (row_of w1 i) as Hr by (exists j, i; split; [done|apply same_attempt_refl]).
    destruct (State i) eqn:Es; try (by apply Hgo); try done.
    destruct (intentRef i) as [ref|] eqn:Er; [|by apply Hgo]. apply Hgo; [|done]. split; [done|]. split; [done|].
    by eapply intentRef_shows.
  - set (row := new_row _ _ _) in *.
    destruct (global_insert w row fresh HG Hu eq_refl eq_refl H1 H2 H3) as (HG2 & HE2 & HS2 & Hub & Hlv).
    unfold beginWrite. rewrite bool_decide_true by done.
    apply (inv_go w _ n (Begin t) (Owning t row) HI Hn); try done.
    + by eapply global_calm; [|exact HG2].
    + intros id _. apply HS2.
    + intros id [= <-]. right. intros m p' Hm Ho. apply Hu.
      assert (∃ i', owner p' = Some (ID i') ∧ live w i') as (i' & Ho' & (j & r & Hj & Hs & _)).
      { pose proof (inv_fits w HI m p' Hm) as Hf. destruct p'; simpl in Ho, Hf; try done; eexists; (split; [reflexivity|]); apply Hf. }
      assert (ID i' = fresh) as <- by (rewrite Ho in Ho'; by injection Ho'). destruct Hs as (-> & _). by eapply (g_used w HG).
Qed.

Lemma global_flight_add w id :
  global w → unborn w id → (∃ j r, rows w !! j = Some r ∧ ID r = id ∧ State r ≠ WriteStateFailed) →
  let w' := set_flight (id :: flight w) w in global w' ∧ ext w w' ∧ ∀ id', id' ≠ id → spares w w' id'.
Proof.
  intros HG [Hu1 Hu2] Hr. cbv zeta. split; [|split].
  - destruct HG. constructor; try done. simpl. intros id' [->|Hid]%elem_of_cons; [done|by apply g_flight0].
  - split; [|done]. intros j r Hj. exists r. split; [done|apply same_attempt_refl].
  - intros id' Hne. split; [|intros j r r' H1 H2; unfold rows in *; simpl in H2; congruence].
    intros [H1 H2]. split; [|done]. simpl. by intros [?|?]%elem_of_cons.
Qed.

Lemma global_flight_drop w id :
  global w → let w' := set_flight (filter (λ x, x ≠ id) (flight w)) w in global w' ∧ ext w w' ∧ (∀ id', spares w w' id').
Proof.
  intros HG. cbv zeta. split; [|split].
  - destruct HG. constructor; try done. simpl. intros id' [_ Hid]%list_elem_of_filter. by apply g_flight0.
  - split; [|done]. intros j r Hj. exists r. split; [done|apply same_attempt_refl].
  - intros id'. split; [|intros j r r' H1 H2; unfold rows in *; simpl in H2; congruence].
    intros [H1 H2]. split; [|done]. simpl. by intros [_ ?]%list_elem_of_filter.
Qed.

(** The code takes for refused only what made nothing. *)
Lemma forgeRefused_makes_nothing e : forgeRefused e = true → makes_nothing e = true.
Proof.
  unfold forgeRefused, makes_nothing. rewrite bool_decide_eq_true. destruct (bodyTooLarge e); [by left|].
  destruct (unsupported e); [by right; left|]. simpl. destruct (budgetExhausted e); [done|].
  destruct (status e) as [n|]; [|done]. intros [? Hn]%bool_decide_eq_true. right. right. split; [done|]. simpl.
  split; [lia|]. by intros [= ->].
Qed.

(** [failWrite] of an owner whose attempt can have no object if the error is a refusal. *)
Lemma inv_failWrite w w1 n p t i e :
  inv w → threads w !! n = Some p → owner p = Some (ID i) → threads w1 = threads w → global w1 → ext w w1 → (∀ id, spares w w1 id) → live w i →
  (forgeRefused e = true → unborn w1 (ID i)) → inv (failWrite n t i e w1).
Proof.
  intros HI Hn Hp Ht HG HE HS Hl Hu. unfold failWrite. assert (∀ q, calm w1 (go n q w1)) as HC by done.
  assert (∀ q, fits (go n q w1) q → (∀ id, owner q = Some id → id = ID i) → inv (go n q w1)) as Hgo.
  { intros q Hq Ho. apply (inv_go w _ n p q HI Hn); try done.
    - simpl. by rewrite Ht.
    - by eapply global_calm.
    - intros id _. apply HS.
    - intros id Hid. left. by rewrite (Ho id Hid). }
  assert (live w1 i) as Hl1 by by eapply live_ext.
  destruct (forgeRefused e); apply Hgo; try done.
  - split; [done|]. split; [by apply Hu|done].
  - by intros id [= <-].
Qed.

Lemma inv_send w n t i : inv w → threads w !! n = Some (Owning t i) → inv (send n t i w).
Proof.
  intros HI Hn. pose proof (inv_fits w HI n _ Hn) as (Ht & Hk & Hl & Hu). pose proof (inv_global w HI) as HG. unfold send.
  destruct (writeBody _ _ _ _ _ _) as [b|e|]; [| |done].
  - destruct (global_flight_add w (ID i) HG Hu) as (H1 & H2 & H3).
    { destruct Hl as (j & r & Hj & Hs & Hf). exists j, r. split; [done|]. split; [|done]. symmetry. apply Hs. }
    apply (inv_go w _ n (Owning t i) (Sent t i) HI Hn); try done.
    + by eapply global_calm; [|exact H1].
    + intros id Hid. apply H3. intros ->. by apply Hid.
    + intros id [= <-]. by left.
  - eapply inv_failWrite; [exact HI|exact Hn|done|done|done|by apply ext_calm|intros; by apply spares_calm|done|done].
Qed.

(** A step that changes the store. *)
Lemma inv_store w n p q d :
  inv w → threads w !! n = Some p → global (set_store d w) → ext w (set_store d w) → (∀ id, owner p ≠ Some id → spares w (set_store d w) id) →
  fits (set_store d w) q → (∀ id, owner q = Some id → owner p = Some id) → inv (go n q (set_store d w)).
Proof.
  intros HI Hn HG HE HS Hq Ho. apply (inv_go w _ n p q HI Hn); [done|by apply (global_calm (set_store d w))|done|exact HS|done|].
  intros id Hid. left. by apply Ho.
Qed.

Lemma pending_rows w i older limit : i ∈ PendingWriteIntents older limit (store w) → row_of w i.
Proof.
  unfold PendingWriteIntents. intros Hi%elem_of_take. destruct Hi as (j & Hj & _).
  apply list_elem_of_lookup_2 in Hj. apply list_elem_of_filter in Hj as [_ Hj]. apply list_elem_of_lookup in Hj as [k Hk].
  exists k, i. split; [done|apply same_attempt_refl].
Qed.

Lemma inv_found w n t i ref d e :
  inv w → threads w !! n = Some (Found t i ref) → completeFound (clock w) i ref (store w) = (d, e) →
  inv (go n (Ended t (match e with Some c => CallError c | None => Replayed i ref end)) (set_store d w)).
Proof.
  intros HI Hn Hd. pose proof (inv_fits w HI n _ Hn) as (Ht & Hr & Hs).
  destruct (completeFound_ok w (clock w) i ref (inv_global w HI) Hr Hs) as (HG & HE & HS). rewrite Hd in HG, HE, HS.
  eapply inv_store; [done|exact Hn|exact HG|exact HE|intros id _; apply HS| |done].
  destruct e; [done|]. split; [done|]. split; [by eapply row_of_ext|by eapply shows_ext].
Qed.

Lemma inv_answered w n t i a w' :
  inv w → threads w !! n = Some (Sent t i) → thread_step n [] a w = Some w' → inv w'.
Proof.
  intros HI Hn. pose proof (inv_fits w HI n _ Hn) as (Ht & Hk & Hl). unfold thread_step. rewrite Hn.
  destruct a as [| |ref|ref|e|ok]; try done.
  - destruct (made i ref w) eqn:Hm; [|done]. apply made_object in Hm. intros [= <-].
    eapply inv_goes; [done|exact Hn| |]; by case_bool_decide.
  - destruct (makes_nothing e) eqn:He.
    + destruct (bool_decide (ID i ∈ flight w)) eqn:Hf; [|done]. apply bool_decide_eq_true in Hf. intros [= <-].
      destruct (global_flight_drop w (ID i) (inv_global w HI)) as (HG & HE & HS).
      eapply inv_failWrite; [exact HI|exact Hn|done|done|exact HG|exact HE|exact HS|done|]. intros _. split.
      * simpl. by intros [? _]%list_elem_of_filter.
      * intros o Ho. by apply (g_flight w (inv_global w HI) _ Hf).
    + intros [= <-]. eapply inv_failWrite; [exact HI|exact Hn|done|done|apply HI|by apply ext_calm|intros; by apply spares_calm|done|].
      intros E%forgeRefused_makes_nothing. congruence.
Qed.

Lemma inv_recording w n t i ref a w' :
  inv w → threads w !! n = Some (Recording t i ref) → thread_step n [] a w = Some w' → inv w'.
Proof.
  intros HI Hn. pose proof (inv_fits w HI n _ Hn) as (Ht & Hk & Hl & Ho). unfold thread_step. rewrite Hn.
  destruct a as [| | | | |ok]; try done.
  assert (inv (go n (Ended t (CallError CodeInternal)) w)) as Hfail by by eapply inv_goes.
  destruct ok; [|by intros [= <-]].
  destruct (recordAuthoredArtifact known _ _) as [d| |] eqn:E; [|by intros [= <-]..]. intros [= <-].
  assert (intents d = rows w) as Ed.
  { unfold recordAuthoredArtifact in E. repeat (case_match; [done|]). by injection E as <-. }
  destruct (global_same_store w d (inv_global w HI) Ed) as (HG & HE & HS).
  eapply inv_store; [done|exact Hn|exact HG|exact HE|intros id _; apply HS| |done].
  split; [done|]. split; [done|]. split; [by eapply live_ext|by eapply has_object_ext].
Qed.

Lemma inv_completing w n t i ref d e :
  inv w → threads w !! n = Some (Completing t i ref) → completeArm (clock w) t i ref (store w) = (d, e) →
  inv (go n (Ended t (match e with Some c => CallError c | None => Created ref end)) (set_store d w)).
Proof.
  intros HI Hn Hd. pose proof (inv_fits w HI n _ Hn) as (Ht & Hk & Hl & Ho).
  assert (let w' := set_store d w in global w' ∧ ext w w' ∧ ∀ id, spares w w' id) as (HG & HE & HS).
  { assert (shows w i ref) as Hs by (right; exists ref; split; [done|apply same_object_refl]).
    destruct Ht as (Ht & _). unfold completeArm in Hd. rewrite <- Hk in Hd. cbv zeta. change d with ((d, e).1). rewrite <- Hd.
    destruct (is_artifact (Kind i)) eqn:Ei; apply (completeWrite_ok w i ref); try done; [by apply HI|by apply live_row|by apply HI|by apply live_row]. }
  eapply inv_store; [done|exact Hn|exact HG|exact HE|intros id _; apply HS| |by destruct e].
  destruct e; [done|]. exists i. split; [done|]. split; [by eapply live_ext|by eapply has_object_ext].
Qed.

Lemma inv_failing w n t i o :
  inv w → threads w !! n = Some (Failing t i o) → inv (go n (Ended t o) (set_store (endWrite i WriteStateFailed (store w)) w)).
Proof.
  intros HI Hn. pose proof (inv_fits w HI n _ Hn) as (Hl & Hu & Ho).
  destruct (endWrite_ok w i WriteStateFailed (inv_global w HI)) as (HG & HE & HS); [done|by left|].
  eapply inv_store; [done|exact Hn|exact HG|exact HE| | |done].
  - intros id Hid. apply HS. intros _ ->. by apply Hid.
  - by destruct o.
Qed.

(** The steps of a sweep. *)
Lemma inv_sweep w n a w' :
  inv w → match threads w !! n with Some Sweep | Some (Sweeping _ _) | Some (SweepFound _ _ _ _) | Some (SweepLost _ _ _) => True | _ => False end →
  thread_step n [] a w = Some w' → inv w'.
Proof.
  intros HI Hp. unfold thread_step. destruct (threads w !! n) as [p|] eqn:Hn; [|done].
  pose proof (inv_fits w HI n _ Hn) as Hf. destruct p as [| | | | | | | | | |now todo|now i ref todo|now i todo|]; try done.
  - intros [= <-]. eapply inv_goes; [done|exact Hn| |done]. apply Forall_forall. intros i. apply pending_rows.
  - destruct todo as [|i todo]; [intros [= <-]; by eapply inv_goes|]. apply Forall_cons in Hf as [Hi Hf].
    destruct a as [| |ref| | |]; try done.
    + intros [= <-]. by eapply inv_goes.
    + intros [= <-]. eapply inv_goes; [done|exact Hn| |]; case_bool_decide; try done. by apply Forall_cons.
    + destruct (can_find i ref w) eqn:Hc; [|done]. intros [= <-]. eapply inv_goes; [done|exact Hn| |done].
      split; [by apply Forall_cons|by apply can_find_shows].
  - destruct Hf as [[Hi Hf]%Forall_cons Hs]. intros [= <-].
    destruct (completeFound_ok w (clock w) i ref (inv_global w HI) Hi Hs) as (HG & HE & HS).
    eapply inv_store; [done|exact Hn|exact HG|exact HE|intros id _; apply HS| |done].
    eapply Forall_impl; [exact Hf|]. intros r. by apply row_of_ext.
  - apply Forall_cons in Hf as [Hi Hf]. intros [= <-].
    destruct (endWrite_ok w i WriteStateLost (inv_global w HI)) as (HG & HE & HS); [done|by right|].
    eapply inv_store; [done|exact Hn|exact HG|exact HE|intros id _; by apply HS| |done].
    eapply Forall_impl; [exact Hf|]. intros r. by apply row_of_ext.
Qed.

Lemma inv_thread w n fresh a w' : inv w → thread_step n fresh a w = Some w' → inv w'.
Proof.
  intros HI. destruct (threads w !! n) as [p|] eqn:Hn; [|by unfold thread_step; rewrite Hn].
  assert (match p with Begin _ => True | _ => thread_step n fresh a w = thread_step n [] a w end) as Hfresh.
  { unfold thread_step. rewrite Hn. by destruct p. }
  destruct p as [t|t i|t i ref|t i|t i|t i ref|t i ref|t i o|t o| |now todo|now i ref todo|now i todo|]; simpl in Hfresh; rewrite ?Hfresh.
  - unfold thread_step. rewrite Hn. case_bool_decide; [done|]. intros [= <-]. by apply inv_record.
  - pose proof (inv_fits w HI n _ Hn) as (Ht & Hr). unfold thread_step. rewrite Hn. destruct a as [| |ref| | |]; try done.
    + intros [= <-]. by eapply inv_goes.
    + intros [= <-]. by eapply inv_goes.
    + destruct (can_find i ref w) eqn:Hc; [|done]. intros [= <-]. eapply inv_goes; [done|exact Hn| |done].
      split; [done|]. split; [done|]. by apply can_find_shows.
  - unfold thread_step. rewrite Hn. destruct (completeFound _ _ _ _) as [d e] eqn:E. intros [= <-]. by eapply inv_found.
  - unfold thread_step. rewrite Hn. intros [= <-]. by apply inv_send.
  - by apply (inv_answered w n t i).
  - by apply (inv_recording w n t i ref).
  - unfold thread_step. rewrite Hn. destruct (completeArm _ _ _ _ _) as [d e] eqn:E. intros [= <-]. by eapply inv_completing.
  - unfold thread_step. rewrite Hn. intros [= <-]. by apply inv_failing.
  - unfold thread_step. by rewrite Hn.
  - apply inv_sweep; [done|by rewrite Hn].
  - apply inv_sweep; [done|by rewrite Hn].
  - apply inv_sweep; [done|by rewrite Hn].
  - apply inv_sweep; [done|by rewrite Hn].
  - unfold thread_step. by rewrite Hn.
Qed.

Lemma inv_started w p : inv w → owner p = None → fits w p →
  inv (MkWorld (store w) (objects w) (flight w) (used w) (clock w) (threads w ++ [p])).
Proof.
  intros HI Hp Hf. set (w' := MkWorld _ _ _ _ _ _).
  assert (∀ m q, threads w' !! m = Some q → threads w !! m = Some q ∨ q = p) as Hc.
  { intros m q [H|[_ H]]%lookup_app_Some; [by left|]. apply list_lookup_singleton_Some in H as [_ <-]. by right. }
  assert (global w') as HG by (apply (global_calm w); [done|apply HI]). constructor; [done| |].
  - assert (∀ q, fits w q → fits w' q) as H.
    { intros q. apply fits_ext; [done|by apply ext_calm|]. intros id _. by apply spares_calm. }
    intros m q [Hq| ->]%Hc; apply H; [by eapply (inv_fits w HI)|done].
  - intros m m' q q' id H1 H2 Ho Ho'. destruct (Hc m q H1) as [H3| ->]; [|congruence]. destruct (Hc m' q' H2) as [H4| ->]; [|congruence].
    by eapply (inv_owner w HI).
Qed.

(** A change outside the threads that leaves their attempts alone. *)
Lemma inv_outside w w' : inv w → threads w' = threads w → global w' → ext w w' → (∀ id, spares w w' id) → inv w'.
Proof.
  intros HI Ht HG HE HS. constructor; [done| |]; rewrite Ht; [|apply HI].
  intros n p Hn. eapply fits_ext; [done|done|auto|by eapply (inv_fits w HI)].
Qed.

Lemma inv_land w o r j :
  inv w → made_by o ∈ flight w → ref_ok (o_kind o) (o_ref o) = true → rows w !! j = Some r → ID r = made_by o → Kind r = o_kind o →
  inv (MkWorld (store w) (objects w ++ [o]) (filter (λ x, x ≠ made_by o) (flight w)) (used w) (clock w) (threads w)).
Proof.
  intros HI Hf Hok Hj Hid Hk. pose proof (inv_global w HI) as HG. destruct (g_flight w HG _ Hf) as [(j' & r' & Hj' & Hid' & Hst) Hno].
  assert (j' = j) as ->. { eapply (g_ids w HG); [exact Hj'|exact Hj|congruence]. } assert (r' = r) as -> by congruence.
  set (w' := MkWorld _ _ _ _ _ _). assert (ext w w') as HE.
  { split; [|intros; apply elem_of_app; by left]. intros k q Hq. exists q. split; [done|apply same_attempt_refl]. }
  eapply inv_outside; [exact HI|done| |exact HE|].
  - constructor; try apply HG.
    + intros id [Hne Hin]%list_elem_of_filter. destruct (g_flight w HG id Hin) as [? Hn']. split; [done|].
      intros o' [Ho|Ho%list_elem_of_singleton]%elem_of_app; [by apply Hn'|]. subst o'. congruence.
    + intros o' [Ho|Ho%list_elem_of_singleton]%elem_of_app; [by apply (g_objects w HG)|]. subst o'. split; [done|]. by exists j, r.
    + intros i k o1 o2 [H1|[H1 E1]]%lookup_app_Some [H2|[H2 E2]]%lookup_app_Some Hm.
      * by eapply (g_once w HG).
      * apply list_lookup_singleton_Some in E2 as [_ <-]. apply list_elem_of_lookup_2 in H1. by destruct (Hno _ H1).
      * apply list_lookup_singleton_Some in E1 as [_ <-]. apply list_elem_of_lookup_2 in H2. by destruct (Hno _ H2).
      * apply list_lookup_singleton_Some in E1 as [? _], E2 as [? _]. lia.
    + intros k q Hq Hd Hkd. destruct (g_done w HG k q Hq Hd Hkd) as (o' & Ho & H). exists o'. split; [by apply HE|done].
  - intros id. split; [|intros k q q' H1 H2; unfold rows in *; simpl in H2; congruence].
    intros [H1 H2]. split; [simpl; by intros [_ ?]%list_elem_of_filter|].
    intros o' [Ho|Ho%list_elem_of_singleton]%elem_of_app; [by apply H2|]. subst o'. congruence.
Qed.

Lemma inv_happens w ev w' : inv w → step ev w = Some w' → inv w'.
Proof.
  intros HI. destruct ev as [t| |n fresh a|n c|o|n|ms]; cbn [step].
  - intros [= <-]. by apply inv_started.
  - intros [= <-]. by apply inv_started.
  - by apply inv_thread.
  - destruct (threads w !! n) as [p|] eqn:Hn; [|done]. pose proof (inv_fits w HI n _ Hn) as Hf. destruct p; try done. intros [= <-].
    eapply inv_goes; [done|exact Hn| |done]. destruct Hf as (? & ? & ? & ?). done.
  - destruct (_ && _) eqn:E; [|done]. apply andb_true_iff in E as [[H1%bool_decide_eq_true H2]%andb_true_iff (r & Hr & Hb)%existsb_exists].
    apply bool_decide_eq_true in Hb as [Hb1 Hb2]. apply list_elem_of_In, list_elem_of_lookup in Hr as [j Hj]. intros [= <-]. by eapply inv_land.
  - intros [= <-]. destruct (threads w !! n) as [p|] eqn:Hn; [by eapply inv_goes|].
    assert (go n Over w = w) as ->; [|done]. unfold go. rewrite list_insert_ge by (by apply lookup_ge_None). by destruct w.
  - case_bool_decide; [|done]. intros [= <-]. eapply inv_outside; [exact HI|done| | |].
    + apply (global_calm w); [done|apply HI].
    + by apply ext_calm.
    + intros. by apply spares_calm.
Qed.

Lemma inv_empty : inv empty_world.
Proof.
  constructor; [constructor|..]; try done; intros ? H; by apply elem_of_nil in H.
Qed.

Lemma inv_play evs w : inv w → inv (foldl (λ w ev, default w (step ev w)) w evs).
Proof.
  revert w. induction evs as [|ev evs IH]; intros w HI; [done|]. simpl. apply IH.
  destruct (step ev w) as [w'|] eqn:E; [by eapply inv_happens|done].
Qed.

(** * Terminal attempts *)

(** The rows stay, in place, and what has ended stays as it is. *)
Definition kept (d d' : db) : Prop :=
  ∀ j r, intents d !! j = Some r → ∃ r', intents d' !! j = Some r' ∧ same_attempt r r' ∧ (State r ≠ WriteStatePending → r' = r).

Lemma kept_same d d' : intents d' = intents d → kept d d'.
Proof. intros E j r Hj. exists r. rewrite E. split; [done|]. split; [apply same_attempt_refl|done]. Qed.

Lemma kept_update d d' tenant id st key : intents d' = update_pending tenant id st key (intents d) → kept d d'.
Proof.
  intros E j r Hj. rewrite E, update_lookup, Hj. simpl. eexists. split; [done|].
  case_bool_decide as Eb; [|by split; [apply same_attempt_refl|]]. split; [apply set_state_same|]. intros Hp. tauto.
Qed.

Lemma kept_completeWrite tenant id a key d : kept d (completeWrite tenant id a key d).1.
Proof.
  unfold completeWrite. destruct (CompleteWriteIntent _ _ _ _ _ _) as [d'|e|] eqn:E; [|destruct e; by apply kept_same|by apply kept_same].
  apply CompleteWriteIntent_Ok in E as (r & _ & _ & Hd & _). simpl. by eapply kept_update.
Qed.

Lemma kept_completeFound now i ref d : kept d (completeFound now i ref d).1.
Proof. unfold completeFound. repeat case_match; try apply kept_completeWrite. by apply kept_same. Qed.

Lemma kept_completeArm now t i ref d : kept d (completeArm now t i ref d).1.
Proof. unfold completeArm. case_match; apply kept_completeWrite. Qed.

Lemma kept_endWrite i st d : kept d (endWrite i st d).
Proof.
  unfold endWrite. destruct (EndWriteIntent _ _ _ _) as [d'| |] eqn:E; [|by apply kept_same..].
  apply EndWriteIntent_Ok in E as (_ & r & _ & _ & ->). by eapply kept_update.
Qed.

Lemma kept_record n t fresh w : kept (store w) (store (record n t fresh w)).
Proof.
  unfold record. destruct (RecordWriteIntent _ _ _ _ _ _) as [[i d]| |] eqn:E; [|by apply kept_same..].
  assert (kept (store w) d) as Hk.
  { apply RecordWriteIntent_Ok in E as [(-> & _)|(_ & -> & _)]; [by apply kept_same|].
    intros j r Hj. exists r. split; [by apply lookup_app_l_Some|]. split; [apply same_attempt_refl|done]. }
  by destruct (beginWrite fresh i).
Qed.

Lemma kept_failWrite n t i e w w1 : store w1 = store w → kept (store w) (store (failWrite n t i e w1)).
Proof. intros E. apply kept_same. unfold failWrite. rewrite <- E. by case_match. Qed.

Lemma kept_thread n fresh a w w' : thread_step n fresh a w = Some w' → kept (store w) (store w').
Proof.
  unfold thread_step. destruct (threads w !! n) as [p|]; [|done].
  destruct p as [t|t i|t i ref|t i|t i|t i ref|t i ref|t i o|t o| |now todo|now i ref todo|now i todo|]; try done.
  - case_bool_decide; [done|]. intros [= <-]. apply kept_record.
  - destruct a; try done; [intros [= <-]; by apply kept_same..|]. case_match; [|done]. intros [= <-]. by apply kept_same.
  - destruct (completeFound _ _ _ _) as [d e] eqn:E. intros [= <-]. pose proof (kept_completeFound (clock w) i ref (store w)) as H. by rewrite E in H.
  - intros [= <-]. unfold send. case_match; [by apply kept_same|by apply kept_failWrite|by apply kept_same].
  - destruct a; try done; repeat case_match; try done; intros [= <-]; try (by apply kept_failWrite); by apply kept_same.
  - destruct a as [| | | | |ok]; try done. destruct ok; [|intros [= <-]; by apply kept_same].
    destruct (recordAuthoredArtifact _ _ _) as [d| |] eqn:E; intros [= <-]; try by apply kept_same.
    unfold recordAuthoredArtifact in E. repeat (case_match; [done|]). injection E as <-. by apply kept_same.
  - destruct (completeArm _ _ _ _ _) as [d e] eqn:E. intros [= <-]. pose proof (kept_completeArm (clock w) t i ref (store w)) as H. by rewrite E in H.
  - intros [= <-]. apply kept_endWrite.
  - intros [= <-]. by apply kept_same.
  - destruct todo; [intros [= <-]; by apply kept_same|]. destruct a; try done; repeat case_match; try done; intros [= <-]; by apply kept_same.
  - intros [= <-]. apply kept_completeFound.
  - intros [= <-]. apply kept_endWrite.
Qed.

Lemma kept_trans d d' d'' : kept d d' → kept d' d'' → kept d d''.
Proof.
  intros H1 H2 j r Hj. destruct (H1 j r Hj) as (r' & Hj' & Hs & Hf). destruct (H2 j r' Hj') as (r'' & Hj'' & Hs' & Hf').
  exists r''. split; [done|]. split; [by eapply same_attempt_trans|]. intros Hp. pose proof (Hf Hp) as ->. by apply Hf'.
Qed.

Lemma kept_step ev w w' : step ev w = Some w' → kept (store w) (store w').
Proof.
  destruct ev as [t| |n fresh a|n c|o|n|ms]; cbn [step]; try (intros [= <-]; by apply kept_same).
  - apply kept_thread.
  - repeat case_match; try done. intros [= <-]. by apply kept_same.
  - repeat case_match; try done. intros [= <-]. by apply kept_same.
  - repeat case_match; try done. intros [= <-]. by apply kept_same.
Qed.

(** * Claims *)

(** The object is one that was made for the target's request. *)
Definition object_for (w : world) (t : writeTarget) (o : object) : Prop := o ∈ objects w ∧ ∃ r, r ∈ rows w ∧ ID r = made_by o ∧ of_target t r.

(** An object's row has not failed. *)
Lemma object_row w o r : global w → o ∈ objects w → r ∈ rows w → ID r = made_by o → ∃ k, rows w !! k = Some r ∧ State r ≠ WriteStateFailed.
Proof.
  intros HG Ho Hr Hid. apply list_elem_of_lookup in Hr as [k Hk]. exists k. split; [done|].
  destruct (g_objects w HG o Ho) as (_ & j & r' & Hj & Hid' & _ & Hs). assert (j = k) as -> by (eapply (g_ids w HG); [exact Hj|exact Hk|congruence]).
  congruence.
Qed.

Lemma has_object_for w t i ref :
  global w → of_target t i → row_of w i → has_object w i ref → ∃ o, object_for w t o ∧ o_kind o = Kind i ∧ o_ref o = ref.
Proof.
  intros HG Ht (j & r & Hj & Hs) (o & Ho & Hm & Hk & Hr). exists o. split; [|done]. split; [done|]. exists r.
  split; [by eapply list_elem_of_lookup_2|]. unfold of_target, same_attempt in *. intuition congruence.
Qed.

(** C19. However calls, retries, sweeps and crashes interleave, and whenever a request makes
    its object (never after an answer of [makes_nothing]), a forge holds at most one object for a request key of an agent of a
    tenant; a call that reports a create names the object made for its own key, and so
    does one that replays an earlier create, pull requests apart (their lookup is by the
    head). *)
Theorem forge_write_once evs :
  let w := play evs in
  (∀ i j o o' t, objects w !! i = Some o → objects w !! j = Some o' → object_for w t o → object_for w t o' → i = j)
  ∧ (∀ n t ref, threads w !! n = Some (Ended t (Created ref)) → ∃ o, object_for w t o ∧ o_ref o = ref)
  ∧ (∀ n t r ref, threads w !! n = Some (Ended t (Replayed r ref)) → Kind r ≠ WriteKindPullRequest →
       ∃ o, object_for w t o ∧ o_kind o = Kind r ∧ same_object (Kind r) ref (o_ref o)).
Proof.
  cbv zeta. assert (inv (play evs)) as HI by apply inv_play, inv_empty. set (w := play evs) in *. pose proof (inv_global w HI) as HG.
  split; [|split].
  - intros i j o o' t Hi Hj (Ho & r & Hr & Hid & Ht) (Ho' & r' & Hr' & Hid' & Ht').
    destruct (object_row w o r HG Ho Hr Hid) as (k & Hk & Hs). destruct (object_row w o' r' HG Ho' Hr' Hid') as (k' & Hk' & Hs').
    assert (k = k') as <-.
    { eapply (ok_requests _ (g_table w HG)); [exact Hk|exact Hk'|..]; unfold of_target in *; intuition congruence. }
    assert (r = r') as <- by congruence. eapply (g_once w HG); [exact Hi|exact Hj|congruence].
  - intros n t ref Hn. pose proof (inv_fits w HI n _ Hn) as (i & Ht & Hl & Ho).
    destruct (has_object_for w t i ref HG Ht (live_row w i Hl) Ho) as (o & ? & _ & ?). by exists o.
  - intros n t r ref Hn Hk. pose proof (inv_fits w HI n _ Hn) as (Ht & Hr & [?|(ref' & Ho & Hs)]); [done|].
    destruct (has_object_for w t r ref' HG Ht Hr Ho) as (o & ? & ? & <-). by exists o.
Qed.

(** No step removes an attempt or changes what it attempts, and an attempt that is done,
    failed or lost stays as it is. *)
Theorem write_intents_final evs evs' :
  kept (store (play evs)) (store (play (evs ++ evs'))).
Proof.
  unfold play. rewrite foldl_app. set (w := foldl _ empty_world evs). clearbody w. revert w.
  induction evs' as [|ev evs' IH]; intros w; [by apply kept_same|]. simpl. eapply kept_trans; [|apply IH].
  destruct (step ev w) as [w'|] eqn:E; [by eapply kept_step|by apply kept_same].
Qed.

(** Pending attempts whose lookups fail are left pending, however old they are. *)
Lemma sweep_starves todo w n now :
  threads w !! n = Some (Sweeping now todo) →
  let w' := foldl (λ w ev, default w (step ev w)) w (replicate (length todo) (Thread n [] LookErr)) in
  store w' = store w ∧ threads w' !! n = Some (Sweeping now []).
Proof.
  revert w. induction todo as [|i todo IH]; intros w Hn; [done|]. simpl. unfold thread_step. rewrite Hn. simpl.
  destruct (IH (go n (Sweeping now todo) w)) as [IH1 IH2]; [|by rewrite IH1]. simpl. apply list_lookup_insert_eq. by eapply lookup_lt_Some.
Qed.

End service.

(** A create whose answer is lost, a retry that finds its object by the marker, a second
    retry that replays the intent, and a create of another request. *)
Definition issue (key : string) : writeTarget :=
  MkTarget (lit "t1") ForgeProviderGitHub (lit "github.com") 65536 (ForgeOwner.MkAuthor (lit "bob") (lit "ann") (lit "s1"))
    (lit "owner") (lit "agent") (lit "s1") (lit "Org/Repo") WriteKindIssue 0 [] (lit key) (lit "text").

Definition retried_run : list event :=
  [Call (issue "k1"); Thread 0 (lit "i1") LookErr; Thread 0 [] LookErr; Land (MkObject (lit "i1") WriteKindIssue (MkRef 7 (lit "7")));
   Thread 0 [] (CreateErr (MkForgeError false false false None));
   Call (issue "k1"); Thread 1 (lit "i2") LookErr; Thread 1 [] (FoundRef (MkRef 7 (lit "7"))); Thread 1 [] LookErr;
   Call (issue "k1"); Thread 2 (lit "i3") LookErr;
   Call (issue "k2"); Thread 3 (lit "i4") LookErr; Thread 3 [] LookErr; Land (MkObject (lit "i4") WriteKindIssue (MkRef 8 (lit "8")));
   Thread 3 [] (CreateOk (MkRef 8 (lit "8"))); Thread 3 [] LookErr].

Definition retried : world := play (λ _, true) (λ _ _, true) retried_run.

Lemma forge_write_once_witness :
  length (objects retried) = 2%nat
  ∧ (match threads retried !! 1%nat with Some (Ended _ (Replayed _ ref)) => Number ref | _ => 0 end) = 7
  ∧ (match threads retried !! 2%nat with Some (Ended _ (Replayed _ ref)) => Number ref | _ => 0 end) = 7
  ∧ ∃ o, object_for retried (issue "k2") o ∧ o_ref o = MkRef 8 (lit "8").
Proof.
  split; [vm_compute; reflexivity|]. split; [vm_compute; reflexivity|]. split; [vm_compute; reflexivity|].
  apply (proj1 (proj2 (forge_write_once (λ _, true) (λ _ _, true) retried_run)) 3%nat (issue "k2")). vm_compute. reflexivity.
Defined.

End ForgeWrites.
