(* ===== verification/Threads.v ===== *)
(** Goroutines over shared state: programs with atomic critical sections, answers of the
    outside world, per-key mutexes, blocking waits and spawning; their interleavings; and
    a rely-guarantee logic in which each key's mutex protects the key's part of the state.

    The Runner's session host is written in this language and proved with this logic. *)
From stdpp Require Import base list gmap.
From S2P Require Import Prelude.

Module Threads.

Section lang.
Context {S K A R : Type} `{Countable K}.

(** [Crit f k] is one atomic action (a section under a state mutex, or one access of an
    atomic field): the state becomes [f s] and [k] continues from what it read, [s].
    [Await b k] blocks until [b] holds. [Go f p k] spawns [p], with the bookkeeping [f]. *)
Inductive prog :=
| Ret (r : R)
| Crit (f : S → S) (k : S → prog)
| Ask (k : A → prog)
| Lock (c : K) (k : prog)
| Unlock (c : K) (k : prog)
| Await (b : S → bool) (k : S → prog)
| Go (f : S → S) (p k : prog).

Record config := MkConfig { shared : S; locks : gmap K nat; threads : gmap nat prog }.

Definition set_thread (t : nat) (p : prog) (c : config) : config :=
  MkConfig (shared c) (locks c) (<[t := p]> (threads c)).

Definition set_shared (s : S) (c : config) : config := MkConfig s (locks c) (threads c).

(** One step of the thread [t]. *)
Inductive thread_step (t : nat) (c : config) : config → Prop :=
| step_crit f k :
    threads c !! t = Some (Crit f k) →
    thread_step t c (set_thread t (k (shared c)) (set_shared (f (shared c)) c))
| step_ask k a : threads c !! t = Some (Ask k) → thread_step t c (set_thread t (k a) c)
| step_lock d k :
    threads c !! t = Some (Lock d k) → locks c !! d = None →
    thread_step t c (MkConfig (shared c) (<[d := t]> (locks c)) (<[t := k]> (threads c)))
| step_unlock d k :
    threads c !! t = Some (Unlock d k) → locks c !! d = Some t →
    thread_step t c (MkConfig (shared c) (delete d (locks c)) (<[t := k]> (threads c)))
| step_await b k :
    threads c !! t = Some (Await b k) → b (shared c) = true → thread_step t c (set_thread t (k (shared c)) c)
| step_go f p k u :
    threads c !! t = Some (Go f p k) → threads c !! u = None →
    thread_step t c (set_thread t k (set_thread u p (set_shared (f (shared c)) c))).

(** * Rely and guarantee *)

(** [mono] holds of every step, [rely c] of every step that does not hold [c]'s mutex;
    [W] holds always, [J c] whenever [c]'s mutex is free. *)
Context (W : S → Prop) (mono : S → S → Prop) (rely : K → S → S → Prop) (J : K → S → Prop).

Definition inter (o : option K) (s s' : S) : Prop :=
  match o with Some c => rely c s s' | None => mono s s' end.

Definition guar (o : option K) (s s' : S) : Prop := W s' ∧ mono s s' ∧ ∀ d, o ≠ Some d → rely d s s'.

(** What a program that holds the mutex [o] (or none) does is permitted from [s]: it
    gives the mutex back with [J] restored, takes one at a time and never blocks while
    holding it. *)
Fixpoint ok (o : option K) (p : prog) (s : S) : Prop :=
  match p with
  | Ret _ => o = None
  | Crit f k => ∀ s', inter o s s' → W s' → guar o s' (f s') ∧ ok o (k s') (f s')
  | Ask k => ∀ a, ok o (k a) s
  | Lock c k => o = None ∧ ∀ s', mono s s' → W s' → J c s' → ok (Some c) k s'
  | Unlock c k => o = Some c ∧ J c s ∧ ok None k s
  | Await b k => o = None ∧ ∀ s', mono s s' → W s' → b s' = true → ok o (k s') s'
  | Go f p k => ∀ s', inter o s s' → W s' → guar o s' (f s') ∧ ok None p (f s') ∧ ok o k (f s')
  end.

Context (mono_refl : ∀ s, mono s s) (mono_trans : ∀ a b c, mono a b → mono b c → mono a c).
Context (rely_refl : ∀ d s, rely d s s) (rely_trans : ∀ d a b c, rely d a b → rely d b c → rely d a c).
Context (rely_mono : ∀ d s s', rely d s s' → mono s s').
Context (J_stable : ∀ d s s', J d s → rely d s s' → J d s').

Lemma inter_refl o s : inter o s s.
Proof using mono_refl rely_refl. destruct o; simpl; auto. Qed.

Lemma inter_mono o s s' : inter o s s' → mono s s'.
Proof using rely_mono. destruct o; simpl; eauto. Qed.

Lemma ok_inter o p s s' : ok o p s → inter o s s' → ok o p s'.
Proof using J_stable mono_trans rely_mono rely_trans.
  assert (∀ o a b c, inter o a b → inter o b c → inter o a c) as HT by (intros [d|]; simpl; eauto).
  revert o s s'. induction p as [r|f k IH|k IH|c k IH|c k IH|b k IH|f p IHp k IHk]; intros o s s' HO HI; simpl in *.
  - done.
  - intros s2 H2 HW. apply HO; eauto.
  - intros a. eapply IH; eauto.
  - destruct HO as [-> HO]. split; [done|]. intros s2 H2 HW HJ. apply HO; eauto.
  - destruct HO as (-> & HJ & HO). split; [done|]. split; [eauto|]. eapply IH; [exact HO|]. simpl. eauto.
  - destruct HO as [-> HO]. split; [done|]. intros s2 H2 HW. apply HO; eauto.
  - intros s2 H2 HW. apply HO; eauto.
Qed.

Record inv (c : config) : Prop := {
  inv_W : W (shared c);
  inv_thread : ∀ t p, threads c !! t = Some p →
    ∃ o, (∀ d, locks c !! d = Some t ↔ o = Some d) ∧ ok o p (shared c);
  inv_owner : ∀ d t, locks c !! d = Some t → is_Some (threads c !! t);
  inv_free : ∀ d, locks c !! d = None → J d (shared c);
}.

(** Another thread's program stays permitted when a guarantee is kept. *)
Lemma ok_other c t p u o s' :
  inv c → threads c !! t = Some p → t ≠ u → (∀ d, locks c !! d = Some u ↔ o = Some d) → guar o (shared c) s' →
  ∃ o', (∀ d, locks c !! d = Some t ↔ o' = Some d) ∧ ok o' p s'.
Proof using J_stable mono_trans rely_mono rely_trans.
  intros HI Ht Hne Ho (_ & Hm & Hr). destruct (inv_thread c HI t p Ht) as (o' & Ho' & HO).
  exists o'. split; [done|]. eapply ok_inter; [exact HO|]. destruct o' as [d|]; [|done]. simpl. apply Hr.
  intros ->. pose proof (proj2 (Ho' d) eq_refl) as E1. pose proof (proj2 (Ho d) eq_refl) as E2. congruence.
Qed.

(** A step that keeps the mutexes: the acting thread goes on with [p'], and perhaps a
    new thread [u] without a mutex appears. *)
Lemma inv_act c t p o s' p' new :
  inv c → threads c !! t = Some p → (∀ d, locks c !! d = Some t ↔ o = Some d) →
  guar o (shared c) s' → ok o p' s' →
  (∀ u q, new = Some (u, q) → threads c !! u = None ∧ ok None q s') →
  inv (MkConfig s' (locks c) (<[t := p']> (match new with Some (u, q) => <[u := q]> (threads c) | None => threads c end))).
Proof using J_stable mono_trans rely_mono rely_trans.
  intros HI Ht Ho HG HO Hnew. destruct HG as (HW & Hm & Hr). constructor; simpl.
  - done.
  - intros t' q Hq. destruct (decide (t' = t)) as [->|Hne].
    + rewrite lookup_insert_eq in Hq. injection Hq as <-. by exists o.
    + rewrite lookup_insert_ne in Hq by done.
      assert (threads c !! t' = Some q ∨ ∃ u, new = Some (u, q) ∧ t' = u) as [Hold|(u & En & ->)].
      { destruct new as [[u q']|]; [|by left]. destruct (decide (u = t')) as [->|Hu].
        - rewrite lookup_insert_eq in Hq. injection Hq as ->. right. eauto.
        - rewrite lookup_insert_ne in Hq by done. by left. }
      * apply (ok_other c t' q t o s' HI Hold Hne Ho). by split; [|split].
      * destruct (Hnew u q En) as [Hu HOq]. exists None. split; [|done]. intros d. split; [|done].
        intros Hd. destruct (inv_owner c HI d u Hd). congruence.
  - intros d u Hd. destruct (inv_owner c HI d u Hd) as [q Hq].
    destruct (decide (u = t)) as [->|Hne]; [by rewrite lookup_insert_eq; eauto|].
    rewrite lookup_insert_ne by done. destruct new as [[u' q']|]; [|by eauto].
    destruct (decide (u' = u)) as [->|Hu]; [by rewrite lookup_insert_eq; eauto|].
    rewrite lookup_insert_ne by done. eauto.
  - intros d Hd. eapply J_stable; [by apply (inv_free c HI)|]. apply Hr. intros ->.
    pose proof (proj2 (Ho d) eq_refl). congruence.
Qed.

Lemma inv_thread_step t c c' : inv c → thread_step t c c' → inv c'.
Proof using J_stable mono_refl mono_trans rely_mono rely_refl rely_trans.
  intros HI Hs. pose proof (inv_W c HI) as HW.
  assert (∀ p, threads c !! t = Some p → ∃ o, (∀ d, locks c !! d = Some t ↔ o = Some d) ∧ ok o p (shared c)) as HT
    by (intros p; apply (inv_thread c HI)).
  assert (∀ o, guar o (shared c) (shared c)) as HG by (intros o; split; [done|]; auto).
  destruct Hs as [f k Hp|k a Hp|d k Hp Hd|d k Hp Hd|b k Hp Hb|f p k u Hp Hu];
    destruct (HT _ Hp) as (o & Ho & HO); simpl in HO.
  - destruct (HO (shared c) (inter_refl o _) HW) as [H1 H2]. by apply (inv_act c t _ o _ _ None HI Hp Ho H1 H2).
  - by apply (inv_act c t _ o _ _ None HI Hp Ho (HG o) (HO a)).
  - destruct HO as [-> HO]. specialize (HO (shared c) (mono_refl _) HW (inv_free c HI d Hd)). constructor; simpl.
    + done.
    + intros t' q Hq. destruct (decide (t' = t)) as [->|Hne].
      * rewrite lookup_insert_eq in Hq. injection Hq as <-. exists (Some d). split; [|done]. intros e.
        destruct (decide (e = d)) as [->|He]; [rewrite lookup_insert_eq; naive_solver|].
        rewrite lookup_insert_ne by done. rewrite Ho. naive_solver.
      * rewrite lookup_insert_ne in Hq by done. destruct (inv_thread c HI t' q Hq) as (o' & Ho' & HO').
        exists o'. split; [|done]. intros e. destruct (decide (e = d)) as [->|He]; [|by rewrite lookup_insert_ne].
        rewrite lookup_insert_eq. rewrite <- Ho', Hd. naive_solver.
    + intros e u He. destruct (decide (u = t)) as [->|Hu]; [by rewrite lookup_insert_eq; eauto|].
      rewrite lookup_insert_ne by done. apply (inv_owner c HI e).
      destruct (decide (e = d)) as [->|Hed]; [rewrite lookup_insert_eq in He; congruence|].
      by rewrite lookup_insert_ne in He.
    + intros e He. apply (inv_free c HI). destruct (decide (e = d)) as [->|Hed]; [done|].
      by rewrite lookup_insert_ne in He.
  - destruct HO as (-> & HJ & HO). constructor; simpl.
    + done.
    + intros t' q Hq. destruct (decide (t' = t)) as [->|Hne].
      * rewrite lookup_insert_eq in Hq. injection Hq as <-. exists None. split; [|done]. intros e.
        rewrite lookup_delete_Some, Ho. naive_solver.
      * rewrite lookup_insert_ne in Hq by done. destruct (inv_thread c HI t' q Hq) as (o' & Ho' & HO').
        exists o'. split; [|done]. intros e. rewrite lookup_delete_Some, <- Ho'. split; [naive_solver|].
        intros He. split; [|done]. intros ->. congruence.
    + intros e u [_ He]%lookup_delete_Some. destruct (decide (u = t)) as [->|Hu]; [by rewrite lookup_insert_eq; eauto|].
      rewrite lookup_insert_ne by done. by apply (inv_owner c HI e).
    + intros e He. destruct (decide (e = d)) as [->|Hed]; [done|]. rewrite lookup_delete_ne in He by done.
      by apply (inv_free c HI).
  - destruct HO as [-> HO]. by apply (inv_act c t _ None _ _ None HI Hp Ho (HG None) (HO _ (mono_refl _) HW Hb)).
  - destruct (HO (shared c) (inter_refl o _) HW) as (H1 & H2 & H3).
    apply (inv_act c t _ o _ _ (Some (u, p)) HI Hp Ho H1 H3). by intros ? ? [= <- <-].
Qed.

(** * Interleavings *)

(** [env] is what happens by itself; [request] the programs that may be started. *)
Context (env : S → S → Prop) (request : prog → Prop).

Inductive step (c : config) : config → Prop :=
| step_thread t c' : thread_step t c c' → step c c'
| step_env s' : env (shared c) s' → step c (set_shared s' c)
| step_call u p : request p → threads c !! u = None → step c (set_thread u p c).

Definition start (s : S) : config := MkConfig s ∅ ∅.

Definition reachable (s : S) (c : config) : Prop := rtc step (start s) c.

Context (env_guar : ∀ s s', W s → env s s' → guar None s s').
Context (request_ok : ∀ p s, request p → ok None p s).

Lemma inv_preserved c c' : inv c → step c c' → inv c'.
Proof using J_stable env_guar mono_refl mono_trans rely_mono rely_refl rely_trans request_ok.
  intros HI [t c2 Hs|s' Hs|u p Hp Hu].
  - by eapply inv_thread_step.
  - destruct (env_guar _ _ (inv_W c HI) Hs) as (HW & Hm & Hr). constructor; simpl; [done| | |].
    + intros t p Hp. destruct (inv_thread c HI t p Hp) as (o & Ho & HO). exists o. split; [done|].
      eapply ok_inter; [exact HO|]. destruct o as [d|]; simpl; [by apply Hr|done].
    + apply (inv_owner c HI).
    + intros d Hd. eapply J_stable; [by apply (inv_free c HI)|by apply Hr].
  - constructor; simpl.
    + apply (inv_W c HI).
    + intros t q Hq. destruct (decide (t = u)) as [->|Hne].
      * rewrite lookup_insert_eq in Hq. injection Hq as <-. exists None. split; [|by apply request_ok].
        intros d. split; [|done]. intros Hd. destruct (inv_owner c HI d u Hd). congruence.
      * rewrite lookup_insert_ne in Hq by done. by apply (inv_thread c HI).
    + intros d t Hd. destruct (inv_owner c HI d t Hd) as [q Hq].
      destruct (decide (t = u)) as [->|Hne]; [by rewrite lookup_insert_eq; eauto|]. rewrite lookup_insert_ne; eauto.
    + apply (inv_free c HI).
Qed.

(** Whatever happens, [mono] relates the state before to the state after. *)
Lemma step_mono c c' : inv c → step c c' → mono (shared c) (shared c').
Proof using env_guar mono_refl rely_refl.
  intros HI [t c2 Hs|s' Hs|u p Hp Hu].
  - assert (∀ p, threads c !! t = Some p → ∃ o, ok o p (shared c)) as HT by (intros p Hp; destruct (inv_thread c HI t p Hp) as (o & _ & ?); eauto).
    pose proof (inv_W c HI) as HW.
    destruct Hs as [f k Hp|k a Hp|d k Hp Hd|d k Hp Hd|b k Hp Hb|f p k u Hp Hu]; simpl; try apply mono_refl; destruct (HT _ Hp) as [o HO]; simpl in HO.
    + by destruct (HO (shared c) (inter_refl o _) HW) as [(_ & ? & _) _].
    + by destruct (HO (shared c) (inter_refl o _) HW) as [(_ & ? & _) _].
  - by destruct (env_guar _ _ (inv_W c HI) Hs) as (_ & ? & _).
  - apply mono_refl.
Qed.

Lemma steps_mono c c' : inv c → rtc step c c' → inv c' ∧ mono (shared c) (shared c').
Proof using J_stable env_guar mono_refl mono_trans rely_mono rely_refl rely_trans request_ok.
  intros HI Hr. revert HI. induction Hr as [c|c c1 c2 Hs _ IH]; intros HI; [by split|].
  destruct (IH (inv_preserved _ _ HI Hs)) as [? Hm]. split; [done|]. eapply mono_trans; [by eapply step_mono|done].
Qed.

Lemma reachable_ok s c : W s → (∀ d, J d s) → reachable s c → inv c.
Proof using J_stable env_guar mono_refl mono_trans rely_mono rely_refl rely_trans request_ok.
  intros HW HJ Hr. assert (inv (start s)) as HI.
  { constructor; simpl; [done|by intros ? ? ?%lookup_empty_Some|by intros ? ? ?%lookup_empty_Some|by intros]. }
  unfold reachable in Hr. revert HI. induction Hr as [|x y z Hxy _ IH]; [done|]. intros HI. apply IH. by eapply inv_preserved.
Qed.

(** No deadlock: whoever holds a mutex can go on. *)
Lemma holder_steps `{Inhabited A} c d t : inv c → locks c !! d = Some t → ∃ c', thread_step t c c'.
Proof.
  intros HI Hd. destruct (inv_owner c HI d t Hd) as [p Hp].
  destruct (inv_thread c HI t p Hp) as (o & Ho & HO). pose proof (proj1 (Ho d) Hd) as ->.
  destruct p as [r|f k|k|e k|e k|b k|f p k]; simpl in HO.
  - done.
  - eexists. by eapply step_crit.
  - eexists. by eapply (step_ask _ _ _ inhabitant).
  - by destruct HO.
  - destruct HO as ([= <-] & _). eexists. by eapply step_unlock.
  - by destruct HO.
  - eexists. eapply (step_go _ _ _ _ _ (fresh (dom (threads c)))); [done|].
    apply not_elem_of_dom, is_fresh.
Qed.

(** * Obligations *)

(** [tok s i]: some goroutine still has to see to [i]; [due s i]: now is the time.
    A program that owes [i] does not return before the obligation is gone, and does not
    wait for anything else once it is due. *)
Section owed.
Context {I : Type} (tok due : S → I → Prop).

Fixpoint owes (i : I) (p : prog) : Prop :=
  match p with
  | Ret _ => False
  | Crit f k => ∀ s, tok (f s) i → owes i (k s)
  | Ask k => ∀ a, owes i (k a)
  | Lock _ k | Unlock _ k => owes i k
  | Await b k => ∀ s, (due s i → b s = true) ∧ (b s = true → tok s i → owes i (k s))
  | Go f _ k => owes i k
  end.

(** A program creates obligations only together with a goroutine that takes them on. *)
Fixpoint honest (p : prog) : Prop :=
  match p with
  | Ret _ => True
  | Crit f k => ∀ s, (∀ i, tok (f s) i → tok s i) ∧ honest (k s)
  | Ask k => ∀ a, honest (k a)
  | Lock _ k | Unlock _ k => honest k
  | Await b k => ∀ s, honest (k s)
  | Go f p k => (∀ s i, tok (f s) i → tok s i ∨ owes i p) ∧ honest p ∧ honest k
  end.

Definition covered (c : config) : Prop :=
  (∀ t p, threads c !! t = Some p → honest p)
  ∧ ∀ i, tok (shared c) i → ∃ t p, threads c !! t = Some p ∧ owes i p.

Context (tok_env : ∀ s s' i, env s s' → tok s' i → tok s i).
Context (request_honest : ∀ p, request p → honest p).

(** Whoever owes [i] still does after a step of [t]. *)
Lemma owes_step c t p p' s' i :
  threads c !! t = Some p →
  (∃ u q, threads c !! u = Some q ∧ owes i q) → (owes i p → owes i p') →
  ∃ u q, threads (set_thread t p' (set_shared s' c)) !! u = Some q ∧ owes i q.
Proof.
  intros Hp (u & q & Hq & HO) Hpp. simpl. destruct (decide (u = t)) as [->|Hne].
  - exists t, p'. rewrite lookup_insert_eq. split; [done|]. apply Hpp. congruence.
  - exists u, q. by rewrite lookup_insert_ne.
Qed.

Lemma covered_preserved c c' : covered c → step c c' → covered c'.
Proof using request_honest tok_env.
  intros [HH HC] [t c2 Hs|s' Hs|u p Hp Hu].
  - assert (∀ p p' (Hp : threads c !! t = Some p) t' q (Hpp : honest p'),
      <[t := p']> (threads c) !! t' = Some q → honest q) as HH'.
    { intros p p' Hp t' q Hpp Hq. destruct (decide (t' = t)) as [->|Hne].
      - rewrite lookup_insert_eq in Hq. by injection Hq as <-.
      - rewrite lookup_insert_ne in Hq by done. by eapply HH. }
    assert (∀ p p' i, threads c !! t = Some p → tok (shared c) i → (owes i p → owes i p') →
      ∃ u q, <[t := p']> (threads c) !! u = Some q ∧ owes i q) as HC'.
    { intros p p' i Hp Hi Hpp. by apply (owes_step c t p p' (shared c) i Hp (HC i Hi) Hpp). }
    destruct Hs as [f k Hp|k a Hp|d k Hp Hd|d k Hp Hd|b k Hp Hb|f p k u Hp Hu]; pose proof (HH _ _ Hp) as Hh; simpl in Hh.
    + split; simpl; [intros t' q; eapply HH'; [exact Hp|apply Hh]|].
      intros i Hi. eapply HC'; [exact Hp|by apply Hh|]. simpl. eauto.
    + split; simpl; [intros t' q; eapply HH'; [exact Hp|apply Hh]|].
      intros i Hi. eapply HC'; [exact Hp|done|]. simpl. eauto.
    + split; simpl; [intros t' q; eapply HH'; [exact Hp|apply Hh]|].
      intros i Hi. eapply HC'; [exact Hp|done|]. simpl. eauto.
    + split; simpl; [intros t' q; eapply HH'; [exact Hp|apply Hh]|].
      intros i Hi. eapply HC'; [exact Hp|done|]. simpl. eauto.
    + split; simpl; [intros t' q; eapply HH'; [exact Hp|apply Hh]|].
      intros i Hi. eapply HC'; [exact Hp|done|]. simpl. intros Ho. by apply Ho.
    + destruct Hh as (Hf & Hhp & Hhk). assert (u ≠ t) as Hne by congruence. split; simpl.
      * intros t' q Hq. destruct (decide (t' = t)) as [->|Ht]; [rewrite lookup_insert_eq in Hq; by injection Hq as <-|].
        rewrite lookup_insert_ne in Hq by done. destruct (decide (t' = u)) as [->|Hu'].
        -- rewrite lookup_insert_eq in Hq. by injection Hq as <-.
        -- rewrite lookup_insert_ne in Hq by done. by eapply HH.
      * intros i Hi. destruct (Hf _ _ Hi) as [Hi'|Ho].
        -- destruct (HC i Hi') as (t' & q & Hq & Ho). destruct (decide (t' = t)) as [->|Ht].
           ++ exists t, k. rewrite lookup_insert_eq. split; [done|]. rewrite Hp in Hq. by injection Hq as <-.
           ++ exists t', q. rewrite !lookup_insert_ne by congruence. done.
        -- exists u, p. by rewrite lookup_insert_ne, lookup_insert_eq.
  - split; simpl; [exact HH|]. intros i Hi. apply HC. by eapply tok_env.
  - split; simpl.
    + intros t q Hq. destruct (decide (t = u)) as [->|Hne]; [rewrite lookup_insert_eq in Hq; injection Hq as <-; by apply request_honest|].
      rewrite lookup_insert_ne in Hq by done. by eapply HH.
    + intros i Hi. destruct (HC i Hi) as (t & q & Hq & HO). exists t, q. rewrite lookup_insert_ne; [done|]. congruence.
Qed.

Lemma reachable_covered s c : (∀ i, ¬ tok s i) → reachable s c → covered c.
Proof using request_honest tok_env.
  intros Hs Hr. assert (covered (start s)) as HC by (split; [by intros ? ? Hp; simpl in Hp; rewrite lookup_empty in Hp|by intros i ?%Hs]).
  unfold reachable in Hr. revert HC. induction Hr as [|x y z Hxy _ IH]; [done|]. intros HC. apply IH. by eapply covered_preserved.
Qed.

(** Once nothing can move, nothing that is due is left undone. *)
Lemma settled `{Inhabited A} c i :
  inv c → covered c → (∀ t c', ¬ thread_step t c c') → tok (shared c) i → ¬ due (shared c) i.
Proof.
  intros HI [_ HC] HN Hi Hd. destruct (HC i Hi) as (t & p & Hp & HO).
  destruct (inv_thread c HI t p Hp) as (o & Ho & HOk).
  destruct p as [r|f k|k|d k|d k|b k|f p k]; simpl in HO, HOk.
  - done.
  - eapply HN. by eapply step_crit.
  - eapply HN. by eapply (step_ask _ _ _ inhabitant).
  - destruct (locks c !! d) as [u|] eqn:E; [|eapply HN; by eapply step_lock].
    destruct (holder_steps c d u HI E) as [c' Hc']. by eapply HN.
  - destruct HOk as (-> & _). eapply HN. eapply step_unlock; [exact Hp|]. by apply Ho.
  - eapply HN. eapply step_await; [exact Hp|]. by apply HO.
  - eapply HN. eapply (step_go _ _ _ _ _ (fresh (dom (threads c)))); [exact Hp|]. apply not_elem_of_dom, is_fresh.
Qed.

End owed.

(** * One program alone *)

(** The program run without interference, the answers given in order; spawned programs
    are returned.  Fuel bounds the actions. *)
Fixpoint exec (fuel : nat) (p : prog) (l : list A) (s : S) : option (R * S * list prog) :=
  match fuel with
  | O => None
  | Datatypes.S n =>
      match p with
      | Ret r => Some (r, s, [])
      | Crit f k => exec n (k s) l (f s)
      | Ask k => match l with a :: l => exec n (k a) l s | [] => None end
      | Lock _ k | Unlock _ k => exec n k l s
      | Await b k => if b s then exec n (k s) l s else None
      | Go f q k =>
          match exec n k l (f s) with Some (r, s, qs) => Some (r, s, q :: qs) | None => None end
      end
  end.

(** * Schedules *)

(** One move of a run: a program starts as thread [u]; thread [t] acts, with the answer
    [a] and the name [u] for what it spawns; the outside changes the state. *)
Inductive move :=
| Call (u : nat) (p : prog)
| Act (t : nat) (a : A) (u : nat)
| World (f : S → S).

Definition play (m : move) (c : config) : option config :=
  match m with
  | Call u p => match threads c !! u with None => Some (set_thread u p c) | Some _ => None end
  | World f => Some (set_shared (f (shared c)) c)
  | Act t a u =>
      match threads c !! t with
      | None | Some (Ret _) => None
      | Some (Crit f k) => Some (set_thread t (k (shared c)) (set_shared (f (shared c)) c))
      | Some (Ask k) => Some (set_thread t (k a) c)
      | Some (Lock d k) =>
          match locks c !! d with
          | None => Some (MkConfig (shared c) (<[d := t]> (locks c)) (<[t := k]> (threads c)))
          | Some _ => None
          end
      | Some (Unlock d k) =>
          if bool_decide (locks c !! d = Some t) then Some (MkConfig (shared c) (delete d (locks c)) (<[t := k]> (threads c)))
          else None
      | Some (Await b k) => if b (shared c) then Some (set_thread t (k (shared c)) c) else None
      | Some (Go f p k) =>
          match threads c !! u with
          | None => Some (set_thread t k (set_thread u p (set_shared (f (shared c)) c)))
          | Some _ => None
          end
      end
  end.

(** A schedule, skipping the moves that are not possible. *)
Definition play_all (ms : list move) (s : S) : config := foldl (λ c m, default c (play m c)) (start s) ms.

Definition allowed (m : move) : Prop :=
  match m with Call _ p => request p | World f => ∀ s, env s (f s) | Act _ _ _ => True end.

Lemma play_step m c c' : allowed m → play m c = Some c' → step c c'.
Proof.
  destruct m as [u p|t a u|f]; simpl; intros Hm Hp.
  - destruct (threads c !! u) eqn:E; [done|]. injection Hp as <-. by apply step_call.
  - apply (step_thread c t). destruct (threads c !! t) as [p|] eqn:E; [|done].
    destruct p as [r|f k|k|d k|d k|b k|f p k]; try done.
    + injection Hp as <-. by apply step_crit.
    + injection Hp as <-. by apply step_ask.
    + destruct (locks c !! d) eqn:El; [done|]. injection Hp as <-. by apply step_lock.
    + case_bool_decide; [|done]. injection Hp as <-. by apply step_unlock.
    + destruct (b (shared c)) eqn:Eb; [|done]. injection Hp as <-. by eapply step_await.
    + destruct (threads c !! u) eqn:Eu; [done|]. injection Hp as <-. by apply step_go.
  - injection Hp as <-. by apply step_env.
Qed.

Lemma play_all_reachable ms s : Forall allowed ms → reachable s (play_all ms s).
Proof.
  unfold reachable, play_all. generalize (start s). induction ms as [|m ms IH]; intros c Hms; [apply rtc_refl|].
  apply Forall_cons in Hms as [Hm Hms]. simpl. destruct (play m c) as [c'|] eqn:E; simpl; [|by apply IH].
  eapply rtc_l; [by eapply play_step|by apply IH].
Qed.

(** Nothing can move. *)
Definition stuck (c : config) : bool :=
  forallb (λ x : nat * prog, match x.2 with
    | Ret _ => true
    | Lock d _ => bool_decide (is_Some (locks c !! d))
    | Await b _ => negb (b (shared c))
    | _ => false
    end) (map_to_list (threads c)).

Lemma stuck_sound c : stuck c = true → ∀ t c', ¬ thread_step t c c'.
Proof.
  intros Hc t c' Hs. unfold stuck in Hc. rewrite forallb_forall in Hc.
  assert (∀ p, threads c !! t = Some p → (t, p) ∈ map_to_list (threads c)) as Hin by (intros p; apply elem_of_map_to_list).
  setoid_rewrite list_elem_of_In in Hin.
  destruct Hs as [f k Hp|k a Hp|d k Hp Hd|d k Hp Hd|b k Hp Hb|f p k u Hp Hu]; specialize (Hc _ (Hin _ Hp)); simpl in Hc; try done.
  - rewrite Hd in Hc. case_bool_decide as E; [|done]. by destruct E.
  - by rewrite Hb in Hc.
Qed.

End lang.

End Threads.
