(* ===== verification/RunnerHost.v ===== *)
(** The Runner's session host ([src/go/internal/runner/host.go], with the parts of
    [agent_exec.go] and [runtime/agent.go] it drives): the live session set, the agents'
    processes, the control sockets and the per-container transition locks.

    Each operation is a program of Threads: [Crit] is a section under the host's mutex (or
    the registry's, or one access of an atomic field), [Ask] an answer of the workload
    engine, the Server link, the file system or a socket, [Lock] the container's lock.
    Logging, spans and the bytes moved between them are left out. *)
From stdpp Require Import base list strings gmap.
From Stdlib Require Import Ascii ZArith Lia.
From S2P Require Import Prelude Text Threads.

Module RunnerHost.
Export Threads.

Open Scope Z_scope.

(** * State *)

(** The states that the host gives a session. *)
Inductive sessionState := READY | ERRORED.

#[export] Instance sessionState_eq_dec : EqDecision sessionState.
Proof. solve_decision. Defined.

Record liveSession := MkSession {
  sessionID : bytes;
  containerName : bytes;
  agentUID : Z;
  stream : option nat;
  state : sessionState;
  agentAccountID : bytes;
}.

Record AgentHandle := MkHandle { WorkspaceUID : Z; AgentAccountID : bytes }.

(** An agent process.  [exited]: its wait is done.  Two marks are of the model only:
    [lost], a kill that failed, and [watched], a watcher that has not decided yet. *)
Record AgentStream := MkStream {
  s_session : bytes;
  s_container : bytes;
  exited : bool;
  stopping : bool;
  lost : bool;
  watched : bool;
}.

(** [objs] is the heap of session records; [sessions] maps ids to them.  A served socket
    carries the sessions bound in its control producer. *)
Record agentHost := MkHost {
  sessions : gmap bytes nat;
  objs : list liveSession;
  sockets : gmap bytes (gset bytes);
  configVersions : gmap bytes bytes;
  hostTransports : gset bytes;
  startedContainers : gset bytes;
  registry : gmap bytes AgentHandle;
  streams : list AgentStream;
  cancelled : bool;
  closing : bool;
  drains : Z;
}.

Definition NewSessionHost : agentHost := MkHost ∅ [] ∅ ∅ ∅ ∅ ∅ [] false false 0.

Inductive hostErr :=
| errAlreadyRunning | errAlreadyProvisioned | errSessionUnknown | errContainerGone | errFreshSessionIDMissing
| errOperation.

Inductive result := Done (v : bytes) | Failed (e : hostErr).

(** What the outside answers: yes, no (or the one tolerated error), an error, a text, a
    launched workload. *)
Inductive answer := Yes | No | Err | Text (v : bytes) | Launched (h : AgentHandle).

#[export] Instance answer_inhabited : Inhabited answer := populate Yes.

(** The backend: bind mounts, a vsock gateway, or a direct child. *)
Inductive backend := Container | Vsock | HostProcess.

Notation prog := (@prog agentHost bytes answer result).

(** ** Fields *)

Definition set_sessions (m : gmap bytes nat) (h : agentHost) : agentHost :=
  MkHost m (objs h) (sockets h) (configVersions h) (hostTransports h) (startedContainers h) (registry h) (streams h)
    (cancelled h) (closing h) (drains h).
Definition set_objs (l : list liveSession) (h : agentHost) : agentHost :=
  MkHost (sessions h) l (sockets h) (configVersions h) (hostTransports h) (startedContainers h) (registry h) (streams h)
    (cancelled h) (closing h) (drains h).
Definition set_sockets (m : gmap bytes (gset bytes)) (h : agentHost) : agentHost :=
  MkHost (sessions h) (objs h) m (configVersions h) (hostTransports h) (startedContainers h) (registry h) (streams h)
    (cancelled h) (closing h) (drains h).
Definition set_configs (m : gmap bytes bytes) (h : agentHost) : agentHost :=
  MkHost (sessions h) (objs h) (sockets h) m (hostTransports h) (startedContainers h) (registry h) (streams h)
    (cancelled h) (closing h) (drains h).
Definition set_transports (m : gset bytes) (h : agentHost) : agentHost :=
  MkHost (sessions h) (objs h) (sockets h) (configVersions h) m (startedContainers h) (registry h) (streams h)
    (cancelled h) (closing h) (drains h).
Definition set_started (m : gset bytes) (h : agentHost) : agentHost :=
  MkHost (sessions h) (objs h) (sockets h) (configVersions h) (hostTransports h) m (registry h) (streams h)
    (cancelled h) (closing h) (drains h).
Definition set_registry (m : gmap bytes AgentHandle) (h : agentHost) : agentHost :=
  MkHost (sessions h) (objs h) (sockets h) (configVersions h) (hostTransports h) (startedContainers h) m (streams h)
    (cancelled h) (closing h) (drains h).
Definition set_streams (l : list AgentStream) (h : agentHost) : agentHost :=
  MkHost (sessions h) (objs h) (sockets h) (configVersions h) (hostTransports h) (startedContainers h) (registry h) l
    (cancelled h) (closing h) (drains h).
Definition set_cancelled (h : agentHost) : agentHost :=
  MkHost (sessions h) (objs h) (sockets h) (configVersions h) (hostTransports h) (startedContainers h) (registry h)
    (streams h) true (closing h) (drains h).
Definition set_closing (h : agentHost) : agentHost :=
  MkHost (sessions h) (objs h) (sockets h) (configVersions h) (hostTransports h) (startedContainers h) (registry h)
    (streams h) (cancelled h) true (drains h).
Definition add_drains (n : Z) (h : agentHost) : agentHost :=
  MkHost (sessions h) (objs h) (sockets h) (configVersions h) (hostTransports h) (startedContainers h) (registry h)
    (streams h) (cancelled h) (closing h) (drains h + n).

Definition lookup_session (sid : bytes) (h : agentHost) : option (nat * liveSession) :=
  match sessions h !! sid with
  | Some r => match objs h !! r with Some o => Some (r, o) | None => None end
  | None => None
  end.

(** The first session of a container, in the map's order. *)
Definition find_session (name : bytes) (h : agentHost) : option (bytes * nat * liveSession) :=
  head (omap (λ x : bytes * nat,
    match objs h !! x.2 with
    | Some o => if bool_decide (containerName o = name) then Some (x.1, x.2, o) else None
    | None => None
    end) (map_to_list (sessions h))).

Definition update_stream (i : nat) (f : AgentStream → AgentStream) (h : agentHost) : agentHost :=
  set_streams (alter f i (streams h)) h.

Definition set_exited (s : AgentStream) : AgentStream :=
  MkStream (s_session s) (s_container s) true (stopping s) (lost s) (watched s).
Definition set_stopping (s : AgentStream) : AgentStream :=
  MkStream (s_session s) (s_container s) (exited s) true (lost s) (watched s).
Definition set_lost (s : AgentStream) : AgentStream :=
  MkStream (s_session s) (s_container s) (exited s) (stopping s) true (watched s).
Definition set_watched (b : bool) (s : AgentStream) : AgentStream :=
  MkStream (s_session s) (s_container s) (exited s) (stopping s) (lost s) b.

Definition stream_is (p : AgentStream → bool) (i : nat) (h : agentHost) : bool :=
  match streams h !! i with Some s => p s | None => false end.

(** [RetireSession] and [BindSession] of the container's listener, if it is served. *)
Definition retire_control (name sid : bytes) (h : agentHost) : agentHost :=
  match sockets h !! name with
  | Some b => set_sockets (<[name := b ∖ {[sid]}]> (sockets h)) h
  | None => h
  end.

Definition bind_control (name sid : bytes) (h : agentHost) : agentHost :=
  match sockets h !! name with
  | Some b => set_sockets (<[name := b ∪ {[sid]}]> (sockets h)) h
  | None => h
  end.

Definition served (name : bytes) (h : agentHost) : bool := bool_decide (is_Some (sockets h !! name)).

(** * Processes and containers *)

(** [AgentStream.terminate]: a process without a handle cannot be killed. *)
Definition StreamStop (i : nat) (k : bool → prog) : prog :=
  Crit (update_stream i set_stopping) (λ h,
    if stream_is exited i h then k true
    else Ask (λ a, match a with
      | Err => Crit (update_stream i set_lost) (λ _, k false)
      | _ => Crit (update_stream i set_exited) (λ _, k true)
      end)).

(** [AgentRuntime.Teardown]. *)
Definition Teardown (name : bytes) (k : bool → prog) : prog :=
  Ask (λ a, match a with
    | Err => k false
    | _ => Ask (λ a, match a with
        | Err => k false
        | _ => Crit (λ h, set_registry (delete name (registry h)) h) (λ _, k true)
        end)
    end).

(** [AgentRuntime.Launch]. *)
Definition Launch (name : bytes) (k : option AgentHandle → prog) : prog :=
  Ask (λ a, match a with
    | Launched hd => Crit (λ h, set_registry (<[name := hd]> (registry h)) h) (λ _, k (Some hd))
    | _ => k None
    end).

Definition closeSocket (name : bytes) (k : prog) : prog :=
  Crit (λ h, set_transports (hostTransports h ∖ {[name]}) (set_sockets (delete name (sockets h)) h)) (λ _, k).

(** [serveSocketAt], and the vsock leg's [gateway.Serve]. *)
Definition serveSocket (name : bytes) (k : bool → prog) : prog :=
  Ask (λ a, match a with
    | Err => k false
    | _ => Crit (λ h, set_sockets (<[name := ∅]> (sockets h)) h) (λ _, k true)
    end).

Definition drop_session (sid name : bytes) (h : agentHost) : agentHost :=
  retire_control name sid (set_sessions (delete sid (sessions h)) h).

Definition retireContainer (name : bytes) (k : prog) : prog :=
  Crit (λ h,
    let h := match find_session name h with Some (sid, _, _) => drop_session sid name h | None => h end in
    set_started (startedContainers h ∖ {[name]}) (set_configs (delete name (configVersions h)) h))
  (λ h, match find_session name h with
    | Some (_, _, o) => match stream o with Some i => StreamStop i (λ _, k) | None => k end
    | None => k
    end).

Definition teardownContainer (name : bytes) (k : prog) : prog :=
  Crit id (λ h, match registry h !! name with Some _ => Teardown name (λ _, k) | None => k end).

Definition set_config (name v : bytes) (k : prog) : prog :=
  Crit (λ h, set_configs (<[name := v]> (configVersions h)) h) (λ _, k).

(** * Provision *)

Definition provisionContainer (name : bytes) (ret : result → prog) : prog :=
  serveSocket name (λ b, if negb b then ret (Failed errOperation) else
    Ask (λ a, match a with
      | Text v => Launch name (λ r, match r with
          | Some _ => set_config name v (ret (Done name))
          | None => closeSocket name (ret (Failed errOperation))
          end)
      | _ => closeSocket name (ret (Failed errOperation))
      end)).

Definition provisionVsockGateway (name : bytes) (ret : result → prog) : prog :=
  Launch name (λ r, match r with
    | None => ret (Failed errOperation)
    | Some _ => Ask (λ a, match a with
        | Yes => serveSocket name (λ b, if b then ret (Done name) else teardownContainer name (ret (Failed errOperation)))
        | _ => teardownContainer name (ret (Failed errOperation))
        end)
    end).

Definition provisionHostGateway (name : bytes) (ret : result → prog) : prog :=
  Launch name (λ r, match r with
    | None => ret (Failed errOperation)
    | Some _ => Ask (λ a, match a with
        | Yes =>
            Crit (λ h, set_transports (hostTransports h ∪ {[name]}) h) (λ _,
            serveSocket name (λ b,
              if negb b then closeSocket name (teardownContainer name (ret (Failed errOperation))) else
              Ask (λ a, match a with
                | Text v => set_config name v (ret (Done name))
                | _ => closeSocket name (teardownContainer name (ret (Failed errOperation)))
                end)))
        | _ => teardownContainer name (ret (Failed errOperation))
        end)
    end).

Definition provisionFresh (be : backend) (name : bytes) (ret : result → prog) : prog :=
  match be with
  | Container => provisionContainer name ret
  | Vsock => provisionVsockGateway name ret
  | HostProcess => provisionHostGateway name ret
  end.

(** A registered name that does not run is retired first. *)
Definition replaceStale (name : bytes) (k : prog) : prog :=
  retireContainer name (closeSocket name
    (Crit (λ h, set_registry (delete name (registry h)) h) (λ _, k))).

Definition provisionLocked (be : backend) (name : bytes) (ret : result → prog) : prog :=
  Crit id (λ h, match registry h !! name with
    | None => provisionFresh be name ret
    | Some _ => Ask (λ a, match a with
        | Err => ret (Failed errOperation)
        | Yes => ret (Failed errAlreadyProvisioned)
        | _ => Ask (λ a, match a with
            | Err => ret (Failed errOperation)
            | Yes => Ask (λ a, match a with
                | Err => ret (Failed errOperation)
                | _ => replaceStale name (provisionFresh be name ret)
                end)
            | _ => replaceStale name (provisionFresh be name ret)
            end)
        end)
    end).

Definition locked (name : bytes) (body : (result → prog) → prog) : prog :=
  Lock name (body (λ r, Unlock name (Ret r))).

(** [name] is the container name of the built spec. *)
Definition Provision (be : backend) (name : bytes) : prog :=
  Ask (λ a, match a with
    | Err => Ret (Failed errOperation)
    | _ => locked name (provisionLocked be name)
    end).

(** * Exits *)

Definition mark (sid name : bytes) (only : option nat) (h : agentHost) : agentHost :=
  match lookup_session sid h with
  | Some (r, o) =>
      if bool_decide (only = None ∨ stream o = only) then
        retire_control name sid
          (set_objs (<[r := MkSession (sessionID o) (containerName o) (agentUID o) None ERRORED (agentAccountID o)]> (objs h)) h)
      else h
  | None => h
  end.

(** The report to the Server is an answer that is only logged. *)
Definition markErrored (sid name : bytes) (only : option nat) (k : prog) : prog :=
  Crit (mark sid name only) (λ h,
    match lookup_session sid h with
    | Some (_, o) => if bool_decide (only = None ∨ stream o = only) && served name h then Ask (λ _, k) else k
    | None => k
    end).

Definition unwatch (i : nat) : agentHost → agentHost := update_stream i (set_watched false).

(** The watcher of one process; a select with both channels ready takes either. *)
Definition retireOnExit (sid name : bytes) (i : nat) : prog :=
  let go := Crit (λ h, if stream_is stopping i h then unwatch i h else h) (λ h,
    if stream_is stopping i h || cancelled h then Ret (Done [])
    else Lock name (Crit id (λ h,
      if cancelled h then Unlock name (Ret (Done []))
      else Crit (λ h, unwatch i (mark sid name (Some i) h)) (λ h,
        match lookup_session sid h with
        | Some (_, o) =>
            if bool_decide (stream o = Some i) && served name h then Ask (λ _, Unlock name (Ret (Done [])))
            else Unlock name (Ret (Done []))
        | None => Unlock name (Ret (Done []))
        end)))) in
  Await (λ h, stream_is exited i h || closing h) (λ h,
    if closing h then (if stream_is exited i h then Ask (λ a, match a with Yes => go | _ => Ret (Done []) end) else Ret (Done []))
    else go).

Definition watch (sid name : bytes) (i : nat) (k : prog) : prog :=
  Go (update_stream i (set_watched true)) (retireOnExit sid name i) k.

(** * Start *)

(** A session on the container that is not errored. *)
Definition busy (name : bytes) (h : agentHost) : bool :=
  existsb (λ x : bytes * nat, match objs h !! x.2 with
    | Some o => bool_decide (containerName o = name) && negb (bool_decide (state o = ERRORED))
    | None => false
    end) (map_to_list (sessions h)).

(** The id becomes a file name: it must be a bare path element. *)
Definition bareID (id : bytes) : bool := negb (has_byte "/"%char id).

Definition requireContainer (ret : result → prog) (k : prog) : prog :=
  Ask (λ a, match a with
    | Err => ret (Failed errOperation)
    | No => ret (Failed errContainerGone)
    | _ => k
    end).

(** Secrets: no secrets surface ([No]) is tolerated. *)
Definition installSecrets (ret : result → prog) (k : prog) : prog :=
  Ask (λ a, match a with
    | Err => ret (Failed errOperation)
    | No => k
    | _ => Ask (λ a, match a with Err => ret (Failed errOperation) | _ => k end)
    end).

(** The resume file of a resume, with its image blobs, whose failure is only logged. *)
Definition installResume (resumeID : bytes) (ret : result → prog) (k : prog) : prog :=
  if bool_decide (resumeID = []) then k else
  Ask (λ a, match a with
    | Err => ret (Failed errOperation)
    | _ =>
        if negb (bareID resumeID) then ret (Failed errOperation)
        else Ask (λ a, match a with
          | Err => ret (Failed errOperation)
          | _ => Ask (λ _, k)
          end)
    end).

Definition new_stream (sid name : bytes) (h : agentHost) : agentHost :=
  set_streams (streams h ++ [MkStream sid name false false false false]) h.

Definition StartAgent (sid name : bytes) (k : option nat → prog) : prog :=
  Ask (λ a, match a with
    | Err => k None
    | _ => Crit (new_stream sid name) (λ h, k (Some (length (streams h))))
    end).

Definition bindAndStartAgent (name sid resumeID : bytes) (k : option nat → prog) : prog :=
  let start := StartAgent sid name (λ r, match r with
    | Some i => Crit (λ h, set_started (startedContainers h ∪ {[name]}) h) (λ _, k (Some i))
    | None => k None
    end) in
  if bool_decide (resumeID = []) then start
  else Ask (λ a, match a with Err => k None | _ => start end).

(** Another session of the container, which can only be an errored one, makes way. *)
Definition make_way (name sid : bytes) (h : agentHost) : agentHost :=
  let stale := filter (λ x : bytes * nat, x.1 ≠ sid ∧ containerName <$> objs h !! x.2 = Some name) (map_to_list (sessions h)) in
  foldl (λ h x, drop_session x.1 name h) h stale.

Definition record_session (name sid : bytes) (hd : AgentHandle) (i : nat) (h : agentHost) : agentHost :=
  let h := make_way name sid h in
  let o := MkSession sid name (WorkspaceUID hd) (Some i) READY (AgentAccountID hd) in
  bind_control name sid (set_sessions (<[sid := length (objs h)]> (sessions h)) (set_objs (objs h ++ [o]) h)).

(** The id of the session to start, after the checks under the mutex. *)
Definition startID (name resumeID fresh : bytes) (h : agentHost) : hostErr + bytes :=
  if busy name h then inl errAlreadyRunning
  else if bool_decide (resumeID = []) then
    if bool_decide (fresh = []) then inl errFreshSessionIDMissing else inr fresh
  else match lookup_session resumeID h with
    | Some (_, o) => if bool_decide (state o = ERRORED) then inr resumeID else inl errAlreadyRunning
    | None => inr resumeID
    end.

(** The tail of [startLocked]: the running agent becomes the container's session. *)
Definition recordStarted (name sid : bytes) (hd : AgentHandle) (ret : result → prog) (i : nat) : prog :=
  Crit (record_session name sid hd i) (λ _,
  watch sid name i
  (Crit id (λ h, if served name h then Ask (λ _, ret (Done sid)) else ret (Done sid)))).

Definition launchSession (name sid resumeID : bytes) (hd : AgentHandle) (ret : result → prog) : prog :=
  installSecrets ret (installResume resumeID ret
  (bindAndStartAgent name sid resumeID (λ r, match r with
    | None => ret (Failed errOperation)
    | Some i => recordStarted name sid hd ret i
    end))).

Definition startLocked (name resumeID fresh : bytes) (ret : result → prog) : prog :=
  Crit id (λ h, match registry h !! name with
    | None => ret (Failed errSessionUnknown)
    | Some hd =>
        requireContainer ret
        (Crit id (λ h, match startID name resumeID fresh h with
          | inl e => ret (Failed e)
          | inr sid => launchSession name sid resumeID hd ret
          end))
    end).

Definition Start (name resumeID fresh : bytes) : prog := locked name (startLocked name resumeID fresh).

(** * Stop, Remove, Reload *)

Definition stopLocked (sid : bytes) (s : nat) (name : bytes) (ret : result → prog) : prog :=
  Crit id (λ h,
    if bool_decide (sessions h !! sid = Some s) then
      Crit (drop_session sid name) (λ h,
        match objs h !! s ≫= stream with
        | None => Ask (λ _, ret (Done []))
        | Some i => StreamStop i (λ b, if b then Ask (λ _, ret (Done [])) else ret (Failed errOperation))
        end)
    else ret (Failed errSessionUnknown)).

Definition Stop (sid : bytes) : prog :=
  Crit id (λ h, match lookup_session sid h with
    | None => Ret (Done [])
    | Some (s, o) => locked (containerName o) (stopLocked sid s (containerName o))
    end).

Definition removeLocked (name : bytes) (ret : result → prog) : prog :=
  retireContainer name
  (Crit id (λ h, match registry h !! name with
    | None => closeSocket name (ret (Done []))
    | Some _ => Teardown name (λ b, closeSocket name (ret (if b then Done [] else Failed errOperation)))
    end)).

Definition Remove (name : bytes) : prog := locked name (removeLocked name).

(** [reloadLocked] once the old process is gone: the new agent, then the rest before it. *)
Definition reloadRun (sid : bytes) (s : nat) (name : bytes) (ret : result → prog) : prog :=
  let fail := markErrored sid name None (ret (Failed errOperation)) in
  Ask (λ a, match a with
    | Err => fail
    | _ => StartAgent sid name (λ r, match r with
        | None => fail
        | Some i =>
            Crit (λ h, set_objs (alter (λ o, MkSession (sessionID o) (containerName o) (agentUID o) (Some i) READY
                                             (agentAccountID o)) s (objs h)) h) (λ _,
            watch sid name i (ret (Done [])))
        end)
    end).

Definition relaunch (sid : bytes) (s : nat) (name : bytes) (ret : result → prog) : prog :=
  Ask (λ a, match a with
    | Err => markErrored sid name None (ret (Failed errOperation))
    | _ => Crit id (λ h,
        if served name h then
          Crit (bind_control name sid) (λ _,
          Crit id (λ h, if bool_decide (sid ∈ default ∅ (sockets h !! name)) then reloadRun sid s name ret
                        else ret (Failed errOperation)))
        else reloadRun sid s name ret)
    end).

Definition reloadLocked (sid : bytes) (ret : result → prog) : prog :=
  Crit id (λ h, match lookup_session sid h with
    | None => ret (Failed errSessionUnknown)
    | Some (s, o) =>
        let name := containerName o in
        Crit id (λ h, match registry h !! name with
          | None => ret (Failed errSessionUnknown)
          | Some _ =>
              requireContainer ret
              (Crit id (λ h, match objs h !! s ≫= stream with
                | None => relaunch sid s name ret
                | Some i => StreamStop i (λ b, if b then relaunch sid s name ret else ret (Failed errOperation))
                end))
          end)
    end).

Definition Reload (sid : bytes) : prog :=
  Crit id (λ h, match lookup_session sid h with
    | None => Ret (Failed errSessionUnknown)
    | Some (_, o) => locked (containerName o) (reloadLocked sid)
    end).

(** * Refreshes *)

Definition RefreshSecrets (sid : bytes) : prog :=
  Crit id (λ h, match lookup_session sid h with
    | None => Ret (Failed errSessionUnknown)
    | Some (_, o) => Crit id (λ h, match registry h !! containerName o with
        | None => Ret (Failed errSessionUnknown)
        | Some _ => Ask (λ a, match a with
            | Err => Ret (Failed errOperation)
            | _ => locked (containerName o) (λ ret, Ask (λ a, match a with
                | Err => ret (Failed errOperation)
                | _ => ret (Done [])
                end))
            end)
        end)
    end).

Definition refreshOneContainer (be : backend) (sid name last : bytes) (k : prog) : prog :=
  let out := Unlock name k in
  Lock name (
    match be with
    | Vsock => out
    | _ => Ask (λ a, match a with
        | Err => out
        | _ => Ask (λ a, match a with
            | Text v =>
                if bool_decide (v = last) then out
                else Crit id (λ h,
                  if match lookup_session sid h with Some (_, o) => bool_decide (state o = ERRORED) | None => false end
                  then set_config name v out
                  else reloadLocked sid (λ r, match r with Done _ => set_config name v out | Failed _ => out end))
            | _ => out
            end)
        end)
    end).

Definition refreshAll (be : backend) (targets : list (bytes * bytes * bytes)) : prog :=
  foldr (λ t k, refreshOneContainer be t.1.1 t.1.2 t.2 k) (Ret (Done [])) targets.

(** The sessions, their containers and the versions recorded for them. *)
Definition config_targets (h : agentHost) : list (bytes * bytes * bytes) :=
  omap (λ x : bytes * nat, match objs h !! x.2 with
    | Some o => Some (x.1, containerName o, mget [] (configVersions h) (containerName o))
    | None => None
    end) (map_to_list (sessions h)).

Definition RefreshConfig (be : backend) : prog := Crit id (λ h, refreshAll be (config_targets h)).

(** * Readers and shutdown *)

Definition Session (name : bytes) (h : agentHost) : option bytes :=
  match find_session name h with Some (sid, _, _) => Some sid | None => None end.

Definition Status (sid : bytes) (h : agentHost) : hostErr + list liveSession :=
  if bool_decide (sid = []) then inr (omap (λ x : bytes * nat, objs h !! x.2) (map_to_list (sessions h)))
  else match lookup_session sid h with Some (_, o) => inr [o] | None => inl errSessionUnknown end.

(** Sending is the control producer's; here it is an answer. *)
Definition Deliver (sid : bytes) : prog :=
  Crit id (λ h, match lookup_session sid h with
    | None => Ret (Failed errSessionUnknown)
    | Some (_, o) =>
        if bool_decide (state o = ERRORED) || negb (served (containerName o) h) then Ret (Failed errSessionUnknown)
        else Ask (λ a, match a with Err => Ret (Failed errOperation) | _ => Ret (Done []) end)
    end).

Definition drainOne (name : bytes) : prog :=
  Lock name (removeLocked name (λ r, Unlock name (Crit (add_drains (-1)) (λ _, Ret r)))).

(** [Close]; the last join, of the watchers, is left out. *)
Definition Close : prog :=
  Crit id (λ h,
    foldr (λ name k, Go (add_drains 1) (drainOne name) k)
      (Await (λ h, bool_decide (drains h = 0)) (λ _, Crit set_closing (λ _, Ret (Done []))))
      (map fst (map_to_list (sockets h)))).

(** An agent exits by itself; the link's context ends. *)
Inductive world_step : agentHost → agentHost → Prop :=
| agent_exits h i : world_step h (update_stream i set_exited h)
| link_ends h : world_step h (set_cancelled h).

(** The commands of the dispatcher, which sessions may start where being restricted by [at_]. *)
Inductive command (be : backend) (at_ : bytes → bytes → Prop) : prog → Prop :=
| cmd_provision name : command be at_ (Provision be name)
| cmd_start name resumeID fresh :
    at_ (if bool_decide (resumeID = []) then fresh else resumeID) name → command be at_ (Start name resumeID fresh)
| cmd_stop sid : command be at_ (Stop sid)
| cmd_remove name : command be at_ (Remove name)
| cmd_reload sid : command be at_ (Reload sid)
| cmd_secrets sid : command be at_ (RefreshSecrets sid)
| cmd_config : command be at_ (RefreshConfig be)
| cmd_deliver sid : command be at_ (Deliver sid)
| cmd_close : command be at_ Close.

End RunnerHost.
