(* ===== verification/RunnerHostFacts.v ===== *)
(** What the Runner's session host guarantees over every interleaving of its operations,
    its watchers and the exits of agents.

    A container's lock protects the container's part of the state ([rely]); whenever the
    lock is free, [J] holds of that part.  [home] places every session in one container:
    a container is named after its agent account, and a session belongs to one account. *)
From stdpp Require Import base list strings gmap.
From Stdlib Require Import Ascii ZArith Lia.
From S2P Require Import Prelude Text Threads RunnerHost.

Module RunnerHostFacts.
Import RunnerHost.

Section facts.
Context (home : bytes → bytes).

(** * The discipline *)

Definition mono (h h' : agentHost) : Prop :=
  (∀ i s, streams h !! i = Some s → ∃ s', streams h' !! i = Some s' ∧ s_session s' = s_session s ∧ s_container s' = s_container s
     ∧ (exited s = true → exited s' = true) ∧ (stopping s = true → stopping s' = true))
  ∧ (cancelled h = true → cancelled h' = true) ∧ (closing h = true → closing h' = true).

(** What anyone but the holder of [c]'s lock may do to the container [c]: let its agents
    exit, and unwatch one that is being stopped. *)
Record rely (c : bytes) (h h' : agentHost) : Prop := {
  rely_m : mono h h';
  rely_sessions : ∀ sid, home sid = c → sessions h' !! sid = sessions h !! sid;
  rely_objs : ∀ r o, containerName o = c → objs h' !! r = Some o ↔ objs h !! r = Some o;
  rely_sockets : sockets h' !! c = sockets h !! c;
  rely_configs : configVersions h' !! c = configVersions h !! c;
  rely_registry : registry h' !! c = registry h !! c;
  rely_streams : ∀ i s', streams h' !! i = Some s' → s_container s' = c →
    ∃ s, streams h !! i = Some s ∧ s_container s = c ∧ stopping s' = stopping s ∧ lost s' = lost s
         ∧ (watched s' = watched s ∨ stopping s = true);
}.

Lemma mono_refl h : mono h h.
Proof. split; [|done]. intros i s Hs. by exists s. Qed.

Lemma mono_trans h1 h2 h3 : mono h1 h2 → mono h2 h3 → mono h1 h3.
Proof.
  intros (A1 & A2 & A3) (B1 & B2 & B3). split; [|auto]. intros i s Hs.
  destruct (A1 i s Hs) as (s2 & H2 & D2 & C2 & E2 & S2). destruct (B1 i s2 H2) as (s3 & H3 & D3 & C3 & E3 & S3).
  exists s3. split; [done|]. do 2 (split; [congruence|]). auto.
Qed.

Lemma rely_refl c h : rely c h h.
Proof. constructor; try done; [apply mono_refl|]. intros i s Hs Hc. exists s. auto 6. Qed.

Lemma rely_trans c h1 h2 h3 : rely c h1 h2 → rely c h2 h3 → rely c h1 h3.
Proof.
  intros [A1 A2 A3 A4 A5 A6 A7] [B1 B2 B3 B4 B5 B6 B7]. constructor.
  - by eapply mono_trans.
  - intros sid Hs. by rewrite B2, A2.
  - intros r o Ho. by rewrite B3, A3.
  - congruence.
  - congruence.
  - congruence.
  - intros i s3 H3 Hc. destruct (B7 i s3 H3 Hc) as (s2 & H2 & C2 & S2 & L2 & W2).
    destruct (A7 i s2 H2 C2) as (s1 & H1 & C1 & S1 & L1 & W1). exists s1.
    do 2 (split; [done|]). split; [congruence|]. split; [congruence|]. rewrite S1 in W2.
    destruct W1, W2; auto. left. congruence.
Qed.

(** Changes by the holder of [c]'s lock. *)
Definition loc (c : bytes) (h h' : agentHost) : Prop := mono h h' ∧ ∀ d, d ≠ c → rely d h h'.

Lemma loc_refl c h : loc c h h.
Proof. split; [apply mono_refl|]. intros. apply rely_refl. Qed.

Lemma loc_trans c h1 h2 h3 : loc c h1 h2 → loc c h2 h3 → loc c h1 h3.
Proof. intros [A1 A2] [B1 B2]. split; [by eapply mono_trans|]. intros d Hd. eapply rely_trans; [by apply A2|by apply B2]. Qed.

(** A change that touches neither streams nor the flags. *)
Lemma mono_same h h' : streams h' = streams h → cancelled h' = cancelled h → closing h' = closing h → mono h h'.
Proof. intros E1 E2 E3. split; [|by rewrite E2, E3]. intros i s Hs. exists s. by rewrite E1. Qed.

Lemma loc_same c h h' :
  streams h' = streams h → cancelled h' = cancelled h → closing h' = closing h →
  (∀ sid, home sid ≠ c → sessions h' !! sid = sessions h !! sid) →
  (∀ r o, containerName o ≠ c → objs h' !! r = Some o ↔ objs h !! r = Some o) →
  (∀ d, d ≠ c → sockets h' !! d = sockets h !! d) →
  (∀ d, d ≠ c → configVersions h' !! d = configVersions h !! d) →
  (∀ d, d ≠ c → registry h' !! d = registry h !! d) → loc c h h'.
Proof.
  intros E1 E2 E3 H1 H2 H3 H4 H5. assert (mono h h') as Hm by by apply mono_same. split; [done|].
  intros d Hd. constructor; auto.
  - intros sid Hs. apply H1. congruence.
  - intros r o Ho. apply H2. congruence.
  - intros i s'. rewrite E1. intros Hs Hc. exists s'. auto 6.
Qed.

Lemma loc_sockets c h m : (∀ d, d ≠ c → m !! d = sockets h !! d) → loc c h (set_sockets m h).
Proof. intros. by apply loc_same. Qed.

Lemma loc_configs c h m : (∀ d, d ≠ c → m !! d = configVersions h !! d) → loc c h (set_configs m h).
Proof. intros. by apply loc_same. Qed.

Lemma loc_registry c h m : (∀ d, d ≠ c → m !! d = registry h !! d) → loc c h (set_registry m h).
Proof. intros. by apply loc_same. Qed.

Lemma loc_sessions c h m : (∀ sid, home sid ≠ c → m !! sid = sessions h !! sid) → loc c h (set_sessions m h).
Proof. intros. by apply loc_same. Qed.

Lemma loc_transports c h m : loc c h (set_transports m h).
Proof. by apply loc_same. Qed.

Lemma loc_started c h m : loc c h (set_started m h).
Proof. by apply loc_same. Qed.

Lemma loc_drains c h n : loc c h (add_drains n h).
Proof. by apply loc_same. Qed.

Lemma loc_obj_new c h o : containerName o = c → loc c h (set_objs (objs h ++ [o]) h).
Proof.
  intros Ho. apply loc_same; try done. simpl. intros r o' Hne. rewrite lookup_app_Some. split; [|auto].
  intros [H|[_ H]]; [done|]. apply list_lookup_singleton_Some in H as [_ <-]. done.
Qed.

Lemma loc_obj_set c h r o o' :
  objs h !! r = Some o → containerName o = c → containerName o' = c → loc c h (set_objs (<[r := o']> (objs h)) h).
Proof.
  intros Hr Ho Ho'. apply loc_same; try done. simpl. intros r' p Hp. destruct (decide (r = r')) as [<-|Hne].
  - rewrite list_lookup_insert_eq by (by eapply lookup_lt_Some). naive_solver.
  - by rewrite list_lookup_insert_ne.
Qed.

Lemma loc_streams c h l :
  (∀ i s, streams h !! i = Some s → ∃ s', l !! i = Some s' ∧ s_session s' = s_session s ∧ s_container s' = s_container s
     ∧ (exited s = true → exited s' = true) ∧ (stopping s = true → stopping s' = true)
     ∧ (s_container s ≠ c → s' = s)) →
  (∀ i s', l !! i = Some s' → s_container s' ≠ c → is_Some (streams h !! i)) →
  loc c h (set_streams l h).
Proof.
  intros H1 H2. assert (mono h (set_streams l h)) as Hm.
  { split; [|done]. intros i s Hs. destruct (H1 i s Hs) as (s' & ? & ? & ? & ? & ? & _). by exists s'. }
  split; [done|]. intros d Hd. constructor; auto. simpl. intros i s' Hs' Hc.
  destruct (H2 i s' Hs') as [s Hs]; [congruence|]. destruct (H1 i s Hs) as (s2 & E2 & _ & C2 & _ & _ & K).
  assert (s2 = s') as -> by congruence. assert (s' = s) as -> by (apply K; congruence). exists s. auto 6.
Qed.

Lemma loc_new_stream sid c h : loc c h (new_stream sid c h).
Proof.
  apply loc_streams.
  - intros i s Hs. exists s. split; [|auto 6]. rewrite lookup_app_l; [done|]. by eapply lookup_lt_Some.
  - intros i s' Hs' Hc. apply lookup_app_Some in Hs' as [H|[_ H]]; [by eexists|].
    apply list_lookup_singleton_Some in H as [_ <-]. done.
Qed.

(** A change of one process of [c] that keeps its container and what it reached. *)
Lemma loc_update_stream c h i f s :
  streams h !! i = Some s → s_container s = c → s_session (f s) = s_session s → s_container (f s) = c →
  (exited s = true → exited (f s) = true) → (stopping s = true → stopping (f s) = true) →
  loc c h (update_stream i f h).
Proof.
  intros Hs Hc Hd Hf He Ht. unfold update_stream. apply loc_streams.
  - intros j s2 H2. destruct (decide (i = j)) as [<-|Hne].
    + rewrite list_lookup_alter_eq, Hs. simpl. assert (s2 = s) as -> by congruence. exists (f s). split; [done|].
      split; [done|]. split; [congruence|]. done.
    + rewrite list_lookup_alter_ne by done. exists s2. auto 7.
  - intros j s' H _. destruct (decide (i = j)) as [<-|Hne]; [by eexists|]. rewrite list_lookup_alter_ne in H by done. by eexists.
Qed.

(** * The container's part *)

(** The heap is consistent with the places of sessions. *)
Definition W (h : agentHost) : Prop :=
  ∀ sid r, sessions h !! sid = Some r →
    ∃ o, objs h !! r = Some o ∧ containerName o = home sid ∧ sessionID o = sid.

Notation entry_t := (option (bytes * nat * liveSession)).

(** The container's only session, if it has one. *)
Definition entry (c : bytes) (e : entry_t) (h : agentHost) : Prop :=
  match e with
  | Some (sid, r, o) =>
      home sid = c ∧ containerName o = c ∧ sessionID o = sid ∧ objs h !! r = Some o
      ∧ ∀ sid', home sid' = c → sessions h !! sid' = if decide (sid' = sid) then Some r else None
  | None => ∀ sid', home sid' = c → sessions h !! sid' = None
  end.

(** Every running agent of the container is among [X], or a kill of it failed. *)
Definition alive (c : bytes) (X : list nat) (h : agentHost) : Prop :=
  ∀ i s, streams h !! i = Some s → s_container s = c → exited s = false → i ∈ X ∨ lost s = true.

Definition belongs (c : bytes) (i : nat) (h : agentHost) : Prop :=
  ∃ s, streams h !! i = Some s ∧ s_container s = c.

(** The agent's exit will be seen to, or a kill of it failed. *)
Definition attended (c : bytes) (i : nat) (h : agentHost) : Prop :=
  ∃ s, streams h !! i = Some s ∧ s_container s = c
    ∧ (lost s = true ∨ (stopping s = false ∧ (watched s = true ∨ cancelled h = true))).

Record mid (c : bytes) (e : entry_t) (X : list nat) (B : option (gset bytes)) (C : option bytes)
    (R : option AgentHandle) (h : agentHost) : Prop := {
  mid_entry : entry c e h;
  mid_alive : alive c X h;
  mid_sockets : sockets h !! c = B;
  mid_configs : configVersions h !! c = C;
  mid_registry : registry h !! c = R;
}.

Definition entry_stream (e : entry_t) : option nat := match e with Some (_, _, o) => stream o | None => None end.

(** A ready session has its agent, an errored one none; the control producer knows the
    ready session and no other; what a container has, its registered workload has. *)
Record good (e : entry_t) (B : option (gset bytes)) (C : option bytes) (R : option AgentHandle) : Prop := {
  good_state : ∀ sid r o, e = Some (sid, r, o) → (state o = READY ↔ is_Some (stream o));
  good_bound : ∀ b, B = Some b → b = match e with Some (sid, _, o) => if decide (state o = READY) then {[sid]} else ∅ | None => ∅ end;
  good_reg : is_Some B ∨ is_Some C ∨ is_Some e → is_Some R;
}.

Definition of_session (sid : bytes) (i : nat) (h : agentHost) : Prop :=
  ∃ s, streams h !! i = Some s ∧ s_session s = sid.

(** The agent of the entry is its session's, and attended. *)
Definition att (c : bytes) (e : entry_t) (h : agentHost) : Prop :=
  ∀ sid r o i, e = Some (sid, r, o) → stream o = Some i → attended c i h ∧ of_session sid i h.

Definition J (c : bytes) (h : agentHost) : Prop :=
  ∃ e B C R, mid c e (option_list (entry_stream e)) B C R h ∧ good e B C R ∧ att c e h.

Lemma entry_rely c e h h' : entry c e h → rely c h h' → entry c e h'.
Proof.
  intros He HR. destruct e as [[[sid r] o]|]; simpl in *.
  - destruct He as (H1 & H2 & H3 & H4 & H5). do 3 (split; [done|]). split; [by apply (rely_objs c h h' HR)|].
    intros sid' Hs. by rewrite (rely_sessions c h h' HR), H5.
  - intros sid' Hs. by rewrite (rely_sessions c h h' HR), He.
Qed.

Lemma alive_rely c X h h' : alive c X h → rely c h h' → alive c X h'.
Proof.
  intros HA HR i s' Hs Hc He. destruct (rely_streams c h h' HR i s' Hs Hc) as (s & Hs0 & Hc0 & _ & HL & _).
  rewrite HL. apply HA; [done..|]. destruct (exited s) eqn:E; [|done].
  destruct (proj1 (rely_m c h h' HR) i s Hs0) as (s2 & H2 & _ & _ & HE & _). rewrite Hs in H2. injection H2 as <-.
  rewrite HE in He; done.
Qed.

Lemma mid_rely c e X B C R h h' : mid c e X B C R h → rely c h h' → mid c e X B C R h'.
Proof.
  intros [H1 H2 H3 H4 H5] HR. constructor.
  - by eapply entry_rely.
  - by eapply alive_rely.
  - by rewrite (rely_sockets c h h' HR).
  - by rewrite (rely_configs c h h' HR).
  - by rewrite (rely_registry c h h' HR).
Qed.

Lemma belongs_mono c i h h' : belongs c i h → mono h h' → belongs c i h'.
Proof. intros (s & Hs & Hc) [HM _]. destruct (HM i s Hs) as (s' & H' & _ & C' & _). exists s'. split; congruence. Qed.

Lemma attended_rely c i h h' : attended c i h → rely c h h' → attended c i h'.
Proof.
  intros (s & Hs & Hc & HA) HR. pose proof (rely_m c h h' HR) as HM.
  destruct (proj1 HM i s Hs) as (s' & Hs' & _ & Hc' & _ & _). exists s'. split; [done|]. split; [congruence|].
  destruct (rely_streams c h h' HR i s' Hs') as (s2 & H2 & _ & HS & HL & HW); [congruence|].
  assert (s2 = s) as -> by congruence. rewrite HL, HS. destruct HA as [HA|[H3 HA]]; [by left|]. right. split; [done|].
  destruct HW as [HW|HW]; [|congruence]. destruct HA as [HA|HA]; [left; congruence|right; by apply HM].
Qed.

Lemma of_session_mono sid i h h' : of_session sid i h → mono h h' → of_session sid i h'.
Proof. intros (s & Hs & Hc) [HM _]. destruct (HM i s Hs) as (s' & H' & C' & _). exists s'. split; congruence. Qed.

Lemma att_rely c e h h' : att c e h → rely c h h' → att c e h'.
Proof.
  intros HA HR sid r o i He Hi. destruct (HA sid r o i He Hi) as [H1 H2].
  split; [by eapply attended_rely|]. eapply of_session_mono; [done|apply HR].
Qed.

Lemma J_stable c h h' : J c h → rely c h h' → J c h'.
Proof.
  intros (e & B & C & R & H1 & H2 & H3) HR. exists e, B, C, R.
  split; [by eapply mid_rely|]. split; [done|by eapply att_rely].
Qed.

(** Other containers' sessions stay placed. *)
Lemma W_loc c e h h' : W h → loc c h h' → entry c e h' → W h'.
Proof.
  intros HW [_ HL] He sid r Hs. destruct (decide (home sid = c)) as [Hc|Hc].
  - destruct e as [[[sid2 r2] o]|]; simpl in He.
    + destruct He as (H1 & H2 & H3 & H4 & H5). rewrite (H5 sid Hc) in Hs. destruct (decide (sid = sid2)) as [->|]; [|done].
      injection Hs as <-. exists o. split; [done|]. split; congruence.
    + rewrite (He sid Hc) in Hs. done.
  - specialize (HL _ Hc). rewrite (rely_sessions _ h h' HL) in Hs by done.
    destruct (HW sid r Hs) as (o & Ho & Hco & Hso). exists o. split; [|done].
    by apply (rely_objs _ h h' HL).
Qed.

(** ** Searches under the mutex *)

Lemma lookup_entry c e sid h :
  entry c e h → home sid = c →
  lookup_session sid h = match e with Some (sid', r, o) => if decide (sid = sid') then Some (r, o) else None | None => None end.
Proof.
  intros He Hs. unfold lookup_session. destruct e as [[[sid' r] o]|]; simpl in He.
  - destruct He as (_ & _ & _ & H4 & H5). rewrite (H5 sid Hs). case_decide; [|done]. by rewrite H4.
  - by rewrite (He sid Hs).
Qed.

(** A search through the session map by container sees the container's entry only. *)
Lemma search_entry {A} (f : bytes → nat → liveSession → option A) c e h :
  W h → entry c e h → (∀ sid r o, containerName o ≠ c → f sid r o = None) →
  omap (λ x : bytes * nat, match objs h !! x.2 with Some o => f x.1 x.2 o | None => None end) (map_to_list (sessions h))
  = match e with Some (sid, r, o) => option_list (f sid r o) | None => [] end.
Proof.
  intros HW He Hf. set (g := λ x : bytes * nat, match objs h !! x.2 with Some o => f x.1 x.2 o | None => None end).
  assert (∀ sid r y, sessions h !! sid = Some r → g (sid, r) = Some y → ∃ o, e = Some (sid, r, o) ∧ f sid r o = Some y) as Hg.
  { intros sid r y Hs. unfold g. simpl. destruct (HW sid r Hs) as (o & Ho & Hc & _). rewrite Ho. intros Hy.
    destruct (decide (containerName o = c)) as [Hco|Hco]; [|by rewrite Hf in Hy].
    assert (home sid = c) as Hsc by congruence. destruct e as [[[sid2 r2] o2]|]; simpl in He.
    - destruct He as (_ & _ & _ & H4 & H5). rewrite (H5 sid Hsc) in Hs. case_decide; [|done]. subst sid2.
      injection Hs as <-. exists o2. split; [done|]. congruence.
    - rewrite (He sid Hsc) in Hs. done. }
  destruct e as [[[sid r] o]|]; simpl in He.
  - destruct He as (H1 & H2 & H3 & H4 & H5). assert (sessions h !! sid = Some r) as Hs by (rewrite (H5 sid H1); by case_decide).
    apply elem_of_map_to_list in Hs as Hin. apply list_elem_of_split in Hin as (l1 & l2 & El).
    pose proof (NoDup_fst_map_to_list (sessions h)) as HN. rewrite El in HN.
    assert (∀ x, x ∈ l1 ++ l2 → g x = None) as Hnone.
    { intros [sid' r'] Hx. destruct (g (sid', r')) as [y|] eqn:Ey; [|done].
      assert (sessions h !! sid' = Some r') as Hs'.
      { apply elem_of_map_to_list. rewrite El. set_solver. }
      destruct (Hg sid' r' y Hs' Ey) as (o' & [= <- <- <-] & _).
      rewrite fmap_app, fmap_cons in HN. apply NoDup_app in HN as (_ & HN1 & HN2). simpl in HN1, HN2.
      apply elem_of_app in Hx as [Hx|Hx].
      - apply (list_elem_of_fmap_2 fst) in Hx. exfalso. apply (HN1 _ Hx). left.
      - apply (list_elem_of_fmap_2 fst) in Hx. apply NoDup_cons in HN2 as [HN2 _]. by destruct HN2. }
    assert (∀ l, (∀ x, x ∈ l → g x = None) → omap g l = []) as Hl.
    { intros l. induction l as [|x l IH]; intros Hx; [done|]. cbn. rewrite (Hx x) by left. apply IH. intros y Hy. apply Hx. by right. }
    rewrite El, omap_app. cbn. rewrite (Hl l1) by set_solver. rewrite (Hl l2) by set_solver.
    unfold g. simpl. rewrite H4. by destruct (f sid r o).
  - destruct (omap g (map_to_list (sessions h))) as [|y l] eqn:E; [done|]. exfalso.
    assert (y ∈ omap g (map_to_list (sessions h))) as Hy by (rewrite E; left).
    apply list_elem_of_omap in Hy as ([sid r] & Hin & Hgy). apply elem_of_map_to_list in Hin.
    destruct (Hg sid r y Hin Hgy) as (o & ? & _). done.
Qed.

Lemma find_entry c e h : W h → entry c e h → find_session c h = e.
Proof.
  intros HW He. unfold find_session.
  rewrite (search_entry (λ sid r o, if bool_decide (containerName o = c) then Some (sid, r, o) else None) c e h HW He).
  - destruct e as [[[sid r] o]|]; simpl in *; [|done]. rewrite bool_decide_true by apply He. done.
  - intros. by rewrite bool_decide_false.
Qed.

(** * Rules *)

Notation OK := (@ok agentHost bytes answer result W mono rely J).

(** What the holder of the lock relies on across its own steps. *)
Definition later (c : bytes) (h h' : agentHost) : Prop := mono h h' ∧ ∀ i, attended c i h → attended c i h'.

Lemma later_refl c h : later c h h.
Proof. split; [apply mono_refl|done]. Qed.

Lemma later_trans c h1 h2 h3 : later c h1 h2 → later c h2 h3 → later c h1 h3.
Proof. intros [A1 A2] [B1 B2]. split; [by eapply mono_trans|auto]. Qed.

Lemma later_rely c h h' : rely c h h' → later c h h'.
Proof. intros HR. split; [apply HR|]. intros i Hi. by eapply attended_rely. Qed.

Lemma later_same c h h' : streams h' = streams h → cancelled h' = cancelled h → closing h' = closing h → later c h h'.
Proof.
  intros E1 E2 E3. split; [by apply mono_same|]. intros i (s & Hs & Hc & HA). exists s. by rewrite E1, E2.
Qed.

Lemma later_att c e h h' : att c e h → later c h h' → att c e h'.
Proof.
  intros HA [HM HL] sid r o i He Hi. destruct (HA sid r o i He Hi) as [H1 H2]. split; [by apply HL|by eapply of_session_mono].
Qed.

Lemma later_belongs c i h h' : belongs c i h → later c h h' → belongs c i h'.
Proof. intros HB [HM _]. by eapply belongs_mono. Qed.

Lemma guar_of c e X B C R h h' : W h → loc c h h' → mid c e X B C R h' → guar W mono rely (Some c) h h'.
Proof.
  intros HW HL HM. split; [eapply W_loc; [done|exact HL|apply HM]|]. split; [apply HL|]. intros d Hd. apply HL. congruence.
Qed.

Lemma ok_crit c e X B C R f k h :
  mid c e X B C R h →
  (∀ h', mid c e X B C R h' → W h' → rely c h h' →
     ∃ e' X' B' C' R', loc c h' (f h') ∧ mid c e' X' B' C' R' (f h') ∧ OK (Some c) (k h') (f h')) →
  OK (Some c) (Crit f k) h.
Proof.
  intros HM HK h' HR HW. destruct (HK h') as (e' & X' & B' & C' & R' & HL & HM' & HO); [by eapply mid_rely|done|done|].
  split; [|exact HO]. by eapply guar_of.
Qed.

Lemma ok_read c e X B C R k h :
  mid c e X B C R h → (∀ h', mid c e X B C R h' → W h' → later c h h' → OK (Some c) (k h') h') →
  OK (Some c) (Crit id k) h.
Proof.
  intros HM HK. eapply ok_crit; [exact HM|]. intros h' HM' HW HR. exists e, X, B, C, R.
  split; [apply loc_refl|]. split; [done|]. apply HK; [done..|by apply later_rely].
Qed.

(** A change of fields outside the streams. *)
Lemma ok_set c e X B C R f k h e' B' C' R' :
  mid c e X B C R h →
  (∀ h', loc c h' (f h') ∧ streams (f h') = streams h' ∧ cancelled (f h') = cancelled h' ∧ closing (f h') = closing h') →
  (∀ h', mid c e X B C R h' → W h' → mid c e' X B' C' R' (f h')) →
  (∀ h', mid c e' X B' C' R' h' → later c h h' → OK (Some c) k h') →
  OK (Some c) (Crit f (λ _, k)) h.
Proof.
  intros HM HL HF HK. eapply ok_crit; [exact HM|]. intros h' HM' HW HR. exists e', X, B', C', R'.
  destruct (HL h') as (H1 & H2 & H3 & H4). split; [done|]. split; [by apply HF|]. apply HK; [by apply HF|].
  eapply later_trans; [by apply later_rely|by apply later_same].
Qed.

Lemma ok_unlock c e X B C R k h :
  mid c e X B C R h → good e B C R → att c e h → X ⊆ option_list (entry_stream e) → OK None k h →
  OK (Some c) (Unlock c k) h.
Proof.
  intros [H1 H2 H3 H4 H5] HG HA HX HO. split; [done|]. split; [|exact HO]. exists e, B, C, R.
  split; [|done]. constructor; try done. intros i s Hs Hc He. destruct (H2 i s Hs Hc He) as [Hi|Hl]; [left; by apply HX|by right].
Qed.

Lemma J_intro c e X B C R h :
  mid c e X B C R h → good e B C R → att c e h → X ⊆ option_list (entry_stream e) → J c h.
Proof.
  intros HM HG HA HX. by destruct (ok_unlock c e X B C R (Ret (Done [])) h HM HG HA HX eq_refl) as (_ & HJ & _).
Qed.

Lemma mid_weaken c e X X' B C R h : X ⊆ X' → mid c e X B C R h → mid c e X' B C R h.
Proof.
  intros HX [H1 H2 H3 H4 H5]. constructor; try done. intros i s Hs Hc He.
  destruct (H2 i s Hs Hc He) as [Hi|Hl]; [left; by apply HX|by right].
Qed.

Ltac mid_same := let g := fresh in intros g [] ?; constructor; simpl;
  rewrite ?lookup_insert_eq, ?lookup_delete_eq; try done.

Lemma spec_closeSocket c e X B C R k h :
  mid c e X B C R h → (∀ h', mid c e X None C R h' → later c h h' → OK (Some c) k h') →
  OK (Some c) (closeSocket c k) h.
Proof.
  intros HM HK. eapply ok_set; [exact HM| |mid_same|exact HK]. intros h'. split; [|done].
  eapply loc_trans; [|apply loc_transports]. apply loc_sockets. intros. by rewrite lookup_delete_ne.
Qed.

Lemma spec_serveSocket c e X B C R k h :
  mid c e X B C R h → OK (Some c) (k false) h →
  (∀ h', mid c e X (Some ∅) C R h' → later c h h' → OK (Some c) (k true) h') →
  OK (Some c) (serveSocket c k) h.
Proof.
  intros HM HF HK a. destruct a; try exact HF;
    (eapply ok_set; [exact HM| |mid_same|exact HK]; intros h'; split; [|done]; apply loc_sockets;
     intros; by rewrite lookup_insert_ne).
Qed.

Lemma spec_set_config c e X B C R v k h :
  mid c e X B C R h → (∀ h', mid c e X B (Some v) R h' → later c h h' → OK (Some c) k h') →
  OK (Some c) (set_config c v k) h.
Proof.
  intros HM HK. eapply ok_set; [exact HM| |mid_same|exact HK]. intros h'. split; [|done]. apply loc_configs.
  intros. by rewrite lookup_insert_ne.
Qed.

Lemma spec_deregister c e X B C R k h :
  mid c e X B C R h → (∀ h', mid c e X B C None h' → later c h h' → OK (Some c) k h') →
  OK (Some c) (Crit (λ h, set_registry (delete c (registry h)) h) (λ _, k)) h.
Proof.
  intros HM HK. eapply ok_set; [exact HM| |mid_same|exact HK]. intros h'. split; [|done]. apply loc_registry.
  intros. by rewrite lookup_delete_ne.
Qed.

Lemma spec_Launch c e X B C R k h :
  mid c e X B C R h → OK (Some c) (k None) h →
  (∀ hd h', mid c e X B C (Some hd) h' → later c h h' → OK (Some c) (k (Some hd)) h') →
  OK (Some c) (Launch c k) h.
Proof.
  intros HM HF HK a. destruct a; try exact HF. eapply ok_set; [exact HM| |mid_same|apply HK]. intros h'. split; [|done].
  apply loc_registry. intros. by rewrite lookup_insert_ne.
Qed.

Lemma spec_Teardown c e X B C R k h :
  mid c e X B C R h → OK (Some c) (k false) h →
  (∀ h', mid c e X B C None h' → later c h h' → OK (Some c) (k true) h') →
  OK (Some c) (Teardown c k) h.
Proof.
  intros HM HF HK a. destruct a; try exact HF; intros a; destruct a; try exact HF; by eapply spec_deregister.
Qed.

Lemma spec_teardownContainer c e X B C R k h :
  mid c e X B C R h → (∀ R' h', mid c e X B C R' h' → (R' = R ∨ R' = None) → later c h h' → OK (Some c) k h') →
  OK (Some c) (teardownContainer c k) h.
Proof.
  intros HM HK. eapply ok_read; [exact HM|]. intros h1 HM1 HW1 HL1. destruct (registry h1 !! c) eqn:E.
  - eapply spec_Teardown; [exact HM1|by eapply HK; eauto|]. intros h2 HM2 HL2. eapply HK; eauto. by eapply later_trans.
  - eapply HK; eauto.
Qed.

(** ** Processes *)

Definition without (i : nat) (X : list nat) : list nat := filter (λ j, j ≠ i) X.

(** One process of the container changes. *)
Lemma mid_update_stream c e X B C R i f h :
  mid c e X B C R h → (∀ s, streams h !! i = Some s → s_container (f s) = s_container s) →
  (∀ s, streams h !! i = Some s → exited (f s) = false → exited s = false ∧ (lost s = true → lost (f s) = true)) →
  mid c e X B C R (update_stream i f h).
Proof.
  intros [H1 H2 H3 H4 H5] Hc Hf. constructor; try done. intros j s' Hs Hcs He. simpl in Hs.
  destruct (decide (i = j)) as [<-|Hne].
  - rewrite list_lookup_alter_eq in Hs. destruct (streams h !! i) as [s|] eqn:Es; [|done]. injection Hs as <-.
    destruct (Hf s eq_refl He) as [He' Hl]. destruct (H2 i s Es) as [|]; [by rewrite <- Hc|done|by left|right; auto].
  - rewrite list_lookup_alter_ne in Hs by done. by eapply H2.
Qed.

(** Once exited or lost, a process needs no account. *)
Lemma mid_without c e X B C R i h :
  mid c e X B C R h → (∀ s, streams h !! i = Some s → exited s = true ∨ lost s = true) → mid c e (without i X) B C R h.
Proof.
  intros [H1 H2 H3 H4 H5] Hi. constructor; try done. intros j s Hs Hc He.
  destruct (H2 j s Hs Hc He) as [Hj|Hl]; [|by right]. destruct (decide (j = i)) as [->|Hne].
  - destruct (Hi s Hs); [congruence|by right].
  - left. by apply list_elem_of_filter.
Qed.

Lemma lookup_update_stream i j f h :
  streams (update_stream i f h) !! j = if decide (i = j) then f <$> streams h !! j else streams h !! j.
Proof. simpl. case_decide as E; [subst; apply list_lookup_alter_eq|by apply list_lookup_alter_ne]. Qed.

(** Other processes of the container are attended as before. *)
Lemma attended_update c i j f h : i ≠ j → attended c j h → attended c j (update_stream i f h).
Proof. intros Hne (s & Hs & HA). exists s. rewrite lookup_update_stream, decide_False by done. by split. Qed.

Definition after_stop (c : bytes) (i : nat) (h h' : agentHost) : Prop :=
  mono h h' ∧ ∀ j, j ≠ i → attended c j h → attended c j h'.

Lemma loc_set_stopping c i h : belongs c i h → loc c h (update_stream i set_stopping h).
Proof. intros (s & Hs & Hc). by eapply loc_update_stream. Qed.
Lemma loc_set_lost c i h : belongs c i h → loc c h (update_stream i set_lost h).
Proof. intros (s & Hs & Hc). by eapply loc_update_stream. Qed.
Lemma loc_set_exited c i h : belongs c i h → loc c h (update_stream i set_exited h).
Proof. intros (s & Hs & Hc). by eapply loc_update_stream. Qed.

Lemma spec_StreamStop c e X B C R i k h :
  mid c e X B C R h → belongs c i h →
  (∀ b h', mid c e (without i X) B C R h' → (b = false → attended c i h') → after_stop c i h h' → OK (Some c) (k b) h') →
  OK (Some c) (StreamStop i k) h.
Proof.
  intros HM HB HK. eapply ok_crit; [exact HM|]. intros h1 HM1 HW1 HR1. exists e, X, B, C, R.
  assert (belongs c i h1) as HB1 by (eapply belongs_mono; [exact HB|apply HR1]).
  split; [by apply loc_set_stopping|]. assert (mid c e X B C R (update_stream i set_stopping h1)) as HM1'.
  { apply mid_update_stream; [done|done|]. intros s Hs. simpl. auto. }
  split; [exact HM1'|].
  assert (∀ j, j ≠ i → attended c j h → attended c j (update_stream i set_stopping h1)) as HA.
  { intros j Hj Hjh. apply attended_update; [done|]. by eapply attended_rely. }
  assert (mono h (update_stream i set_stopping h1)) as Hm.
  { eapply mono_trans; [apply HR1|]. apply loc_set_stopping with (c := c). done. }
  destruct (stream_is exited i h1) eqn:Ex.
  - apply HK; [|done|by split]. apply mid_without; [done|]. intros s Hs. left.
    rewrite lookup_update_stream, decide_True in Hs by done. unfold stream_is in Ex.
    destruct (streams h1 !! i) as [s1|]; [|done]. injection Hs as <-. done.
  - set (h1' := update_stream i set_stopping h1) in *. assert (belongs c i h1') as HB1'.
    { eapply belongs_mono; [exact HB|exact Hm]. }
    assert (∀ f b, loc c h1' h1' → (∀ h2, belongs c i h2 → loc c h2 (update_stream i f h2)) →
      (∀ s, s_container (f s) = s_container s) → (∀ s, exited (f s) = false → exited s = false ∧ (lost s = true → lost (f s) = true)) →
      (∀ s, exited (f s) = true ∨ lost (f s) = true) → (b = false → ∀ s, lost (f s) = true) →
      OK (Some c) (Crit (update_stream i f) (λ _, k b)) h1') as Hgo.
    { intros f b _ Hloc Hc He Hd Hb. eapply ok_crit; [exact HM1'|]. intros h2 HM2 HW2 HR2.
      assert (belongs c i h2) as HB2 by (eapply belongs_mono; [exact HB1'|apply HR2]).
      exists e, X, B, C, R. split; [by apply Hloc|].
      assert (mid c e X B C R (update_stream i f h2)) as HM2' by (apply mid_update_stream; auto).
      split; [exact HM2'|]. destruct HB2 as (s2 & Hs2 & Hc2). apply HK.
      - apply mid_without; [done|]. intros s Hs. rewrite lookup_update_stream, decide_True, Hs2 in Hs by done. injection Hs as <-. apply Hd.
      - intros Hbf. exists (f s2). rewrite lookup_update_stream, decide_True, Hs2 by done. split; [done|]. split; [by rewrite Hc|].
        left. by apply Hb.
      - split; [eapply mono_trans; [exact Hm|]; eapply mono_trans; [apply HR2|]; apply Hloc; by exists s2|].
        intros j Hj HAj. apply attended_update; [done|]. eapply attended_rely; [by apply HA|done]. }
    intros a. destruct a;
      try (apply Hgo; [apply loc_refl|intros; by apply loc_set_exited|done|done|by left|done]).
    apply Hgo; [apply loc_refl|intros; by apply loc_set_lost|done|done|by right|done].
Qed.

Lemma mid_new_stream sid c e X B C R h :
  mid c e X B C R h → mid c e (length (streams h) :: X) B C R (new_stream sid c h).
Proof.
  intros [H1 H2 H3 H4 H5]. constructor; try done. intros j s Hs Hc He. simpl in Hs.
  apply lookup_app_Some in Hs as [Hs|[Hj Hs]].
  - destruct (H2 j s Hs Hc He); [left; by right|by right].
  - apply list_lookup_singleton_Some in Hs as [Hz _]. assert (j = length (streams h)) as -> by lia. left. left.
Qed.

Lemma later_new_stream sid c h : later c h (new_stream sid c h).
Proof.
  split; [by apply (loc_new_stream sid c)|]. intros i (s & Hs & HA). exists s. split; [|done]. by apply lookup_app_l_Some.
Qed.

Lemma spec_StartAgent sid c e X B C R k h :
  mid c e X B C R h → OK (Some c) (k None) h →
  (∀ i h', mid c e (i :: X) B C R h' → streams h' !! i = Some (MkStream sid c false false false false) →
     later c h h' → OK (Some c) (k (Some i)) h') →
  OK (Some c) (StartAgent sid c k) h.
Proof.
  intros HM HF HK. assert (OK (Some c) (Crit (new_stream sid c) (λ h, k (Some (length (streams h))))) h) as HN.
  { eapply ok_crit; [exact HM|]. intros h1 HM1 HW1 HR1. exists e, (length (streams h1) :: X), B, C, R.
    split; [apply loc_new_stream|]. split; [by apply mid_new_stream|].
    apply HK; [by apply mid_new_stream|by apply list_lookup_middle|].
    eapply later_trans; [by apply later_rely|apply later_new_stream]. }
  intros a. by destruct a.
Qed.

(** ** Sessions *)

Definition forget (sid : bytes) (B : option (gset bytes)) : option (gset bytes) := (λ b, b ∖ {[sid]}) <$> B.

(** Changes that leave processes and flags alone. *)
Definition calm (h h' : agentHost) : Prop :=
  streams h' = streams h ∧ cancelled h' = cancelled h ∧ closing h' = closing h.

Lemma retire_control_spec c sid h :
  loc c h (retire_control c sid h) ∧ calm h (retire_control c sid h)
  ∧ sessions (retire_control c sid h) = sessions h ∧ objs (retire_control c sid h) = objs h
  ∧ sockets (retire_control c sid h) !! c = forget sid (sockets h !! c)
  ∧ configVersions (retire_control c sid h) = configVersions h ∧ registry (retire_control c sid h) = registry h.
Proof.
  unfold retire_control. destruct (sockets h !! c) as [b|] eqn:E.
  - split; [apply loc_sockets; intros; by rewrite lookup_insert_ne|]. simpl. rewrite lookup_insert_eq. done.
  - split; [apply loc_refl|]. rewrite E. done.
Qed.

Lemma bind_control_spec c sid h :
  loc c h (bind_control c sid h) ∧ calm h (bind_control c sid h)
  ∧ sessions (bind_control c sid h) = sessions h ∧ objs (bind_control c sid h) = objs h
  ∧ sockets (bind_control c sid h) !! c = (λ b, b ∪ {[sid]}) <$> sockets h !! c
  ∧ configVersions (bind_control c sid h) = configVersions h ∧ registry (bind_control c sid h) = registry h.
Proof.
  unfold bind_control. destruct (sockets h !! c) as [b|] eqn:E.
  - split; [apply loc_sockets; intros; by rewrite lookup_insert_ne|]. simpl. rewrite lookup_insert_eq. done.
  - split; [apply loc_refl|]. rewrite E. done.
Qed.

Lemma calm_later c h h' : calm h h' → later c h h'.
Proof. intros (? & ? & ?). by apply later_same. Qed.

Lemma calm_trans h1 h2 h3 : calm h1 h2 → calm h2 h3 → calm h1 h3.
Proof. unfold calm. intuition congruence. Qed.

(** [mid] after a calm change, by fields. *)
Lemma mid_calm c e e' X B B' C C' R R' h h' :
  mid c e X B C R h → calm h h' → entry c e' h' → sockets h' !! c = B' → configVersions h' !! c = C' →
  registry h' !! c = R' → mid c e' X B' C' R' h'.
Proof. intros [_ H2 _ _ _] (E1 & _ & _) He HB HC HR. constructor; try done. unfold alive. by rewrite E1. Qed.

Lemma drop_session_spec c sid r o X B C R h :
  mid c (Some (sid, r, o)) X B C R h →
  loc c h (drop_session sid c h) ∧ calm h (drop_session sid c h) ∧ mid c None X (forget sid B) C R (drop_session sid c h).
Proof.
  intros HM. unfold drop_session. set (h1 := set_sessions (delete sid (sessions h)) h).
  destruct (retire_control_spec c sid h1) as (L & K & E1 & E2 & E3 & E4 & E5).
  destruct (mid_entry _ _ _ _ _ _ _ HM) as (P1 & P2 & P3 & P4 & P5).
  assert (loc c h h1) as L1.
  { apply loc_sessions. intros sid' Hs. rewrite lookup_delete_ne; [done|]. congruence. }
  split; [by eapply loc_trans|]. split; [exact K|]. eapply mid_calm; [exact HM|exact K| | | |].
  - intros sid' Hs. rewrite E1. simpl. destruct (decide (sid' = sid)) as [->|Hne]; [by rewrite lookup_delete_eq|].
    rewrite lookup_delete_ne by done. rewrite P5 by done. by rewrite decide_False.
  - rewrite E3. simpl. by rewrite (mid_sockets _ _ _ _ _ _ _ HM).
  - rewrite E4. apply HM.
  - rewrite E5. apply HM.
Qed.

Definition errored (o : liveSession) : liveSession :=
  MkSession (sessionID o) (containerName o) (agentUID o) None ERRORED (agentAccountID o).

(** Replacing the entry's record. *)
Lemma set_obj_spec c sid r o o' X B C R h :
  mid c (Some (sid, r, o)) X B C R h → containerName o' = c → sessionID o' = sid →
  loc c h (set_objs (<[r := o']> (objs h)) h) ∧ mid c (Some (sid, r, o')) X B C R (set_objs (<[r := o']> (objs h)) h).
Proof.
  intros HM Hc Hs. destruct (mid_entry _ _ _ _ _ _ _ HM) as (P1 & P2 & P3 & P4 & P5).
  split; [by eapply loc_obj_set|]. eapply mid_calm; [exact HM|done| |apply HM..]. simpl.
  do 3 (split; [done|]). split; [apply list_lookup_insert_eq; by eapply lookup_lt_Some|exact P5].
Qed.

(** [mark] on the entry of the container. *)
Lemma mark_entry_spec c sid r o X B C R h only :
  mid c (Some (sid, r, o)) X B C R h → (only = None ∨ stream o = only) →
  loc c h (mark sid c only h) ∧ calm h (mark sid c only h)
  ∧ mid c (Some (sid, r, errored o)) X (forget sid B) C R (mark sid c only h).
Proof.
  intros HM Ho. destruct (mid_entry _ _ _ _ _ _ _ HM) as (P1 & P2 & P3 & P4 & P5). unfold mark.
  rewrite (lookup_entry _ _ _ _ (mid_entry _ _ _ _ _ _ _ HM) P1), decide_True by done.
  rewrite bool_decide_true by done. fold (errored o). set (h1 := set_objs (<[r:=errored o]> (objs h)) h).
  destruct (set_obj_spec c sid r o (errored o) X B C R h HM P2 P3) as [L1 M1]. fold h1 in L1, M1.
  destruct (retire_control_spec c sid h1) as (L & K & E1 & E2 & E3 & E4 & E5).
  split; [by eapply loc_trans|]. split; [exact K|]. eapply mid_calm; [exact M1|exact K| | | |].
  - pose proof (mid_entry _ _ _ _ _ _ _ M1) as (Q1 & Q2 & Q3 & Q4 & Q5). simpl.
    do 3 (split; [done|]). rewrite E2. split; [done|]. intros. rewrite E1. by apply Q5.
  - rewrite E3. by rewrite (mid_sockets _ _ _ _ _ _ _ M1).
  - rewrite E4. apply M1.
  - rewrite E5. apply M1.
Qed.

Lemma mark_other c e X B C R h sid only :
  mid c e X B C R h → home sid = c → (∀ r o, e = Some (sid, r, o) → only ≠ None ∧ stream o ≠ only) → mark sid c only h = h.
Proof.
  intros HM Hs Hne. unfold mark. rewrite (lookup_entry _ _ _ _ (mid_entry _ _ _ _ _ _ _ HM) Hs).
  destruct e as [[[sid' r] o]|]; [|done]. case_decide as E; [|done]. subst sid'.
  rewrite bool_decide_false; [done|]. specialize (Hne r o eq_refl). tauto.
Qed.

Lemma spec_retireContainer c e X B C R k h :
  mid c e X B C R h → (∀ i, entry_stream e = Some i → belongs c i h) →
  (∀ B' h', mid c None (match entry_stream e with Some i => without i X | None => X end) B' None R h' →
     (B = None → B' = None) → mono h h' → OK (Some c) k h') →
  OK (Some c) (retireContainer c k) h.
Proof.
  intros HM HB HK. eapply ok_crit; [exact HM|]. intros h1 HM1 HW1 HR1.
  rewrite (find_entry c e h1 HW1 (mid_entry _ _ _ _ _ _ _ HM1)).
  set (h2 := match e with Some (sid, _, _) => drop_session sid c h1 | None => h1 end).
  set (B' := match e with Some (sid, _, _) => forget sid B | None => B end).
  assert (loc c h1 h2 ∧ calm h1 h2 ∧ mid c None X B' C R h2) as (L2 & K2 & M2).
  { unfold h2, B'. destruct e as [[[sid r] o]|]; [by eapply drop_session_spec|]. split; [apply loc_refl|done]. }
  set (h3 := set_started (startedContainers h2 ∖ {[c]}) (set_configs (delete c (configVersions h2)) h2)).
  assert (loc c h2 h3) as L3.
  { eapply loc_trans; [|apply loc_started]. apply loc_configs. intros. by rewrite lookup_delete_ne. }
  assert (calm h2 h3) as K3 by done.
  assert (mid c None X B' None R h3) as M3.
  { eapply mid_calm; [exact M2|exact K3| | | |]; [|apply M2| |apply M2].
    - exact (mid_entry _ _ _ _ _ _ _ M2).
    - simpl. by rewrite lookup_delete_eq. }
  assert (B = None → B' = None) as HBn by (intros ->; unfold B'; by destruct e as [[[? ?] ?]|]).
  exists None, X, B', None, R. split; [by eapply loc_trans|]. split; [exact M3|].
  assert (mono h h3) as Hm.
  { eapply mono_trans; [apply HR1|]. eapply mono_trans; [apply L2|apply L3]. }
  destruct e as [[[sid r] o]|]; simpl in *; [|by apply (HK B')].
  destruct (stream o) as [i|]; [|by apply (HK B')].
  eapply spec_StreamStop; [exact M3| |].
  - eapply belongs_mono; [by apply HB|exact Hm].
  - intros b h4 M4 _ [Hm4 _]. apply (HK B'); [done|done|]. by eapply mono_trans.
Qed.

(** [markErrored] with no particular process: the entry, if the session is it. *)
Lemma spec_markErrored c sid r o X B C R k h :
  mid c (Some (sid, r, o)) X B C R h →
  (∀ h', mid c (Some (sid, r, errored o)) X (forget sid B) C R h' → OK (Some c) k h') →
  OK (Some c) (markErrored sid c None k) h.
Proof.
  intros HM HK. eapply ok_crit; [exact HM|]. intros h1 HM1 HW1 HR1.
  destruct (mark_entry_spec c sid r o X B C R h1 None HM1 (or_introl eq_refl)) as (L & K & M).
  exists (Some (sid, r, errored o)), X, (forget sid B), C, R. split; [done|]. split; [done|].
  specialize (HK _ M). destruct (lookup_session sid h1) as [[? ?]|]; [|done]. case_match; [|done]. by intros a.
Qed.

(** ** Watchers *)

Lemma mono_unwatch i h : mono h (unwatch i h).
Proof.
  split; [|done]. intros j s Hs. destruct (decide (i = j)) as [<-|Hne].
  - exists (set_watched false s). unfold unwatch. rewrite lookup_update_stream, decide_True, Hs by done. done.
  - exists s. unfold unwatch. by rewrite lookup_update_stream, decide_False.
Qed.

Lemma rely_unwatch d i h : stream_is stopping i h = true → rely d h (unwatch i h).
Proof.
  intros Hst. unfold stream_is in Hst. constructor; try done; [apply mono_unwatch|].
  intros j s' Hs' Hc. unfold unwatch in Hs'. rewrite lookup_update_stream in Hs'. case_decide as E.
  - subst j. destruct (streams h !! i) as [s|]; [|done]. injection Hs' as <-. exists s. auto 7.
  - exists s'. auto 6.
Qed.

(** The watcher's last section: mark the session if it still has the process, unwatch. *)
Lemma exit_spec c sid i e B C R h :
  mid c e (option_list (entry_stream e)) B C R h → good e B C R → att c e h →
  home sid = c → belongs c i h → of_session sid i h → stream_is exited i h = true →
  loc c h (unwatch i (mark sid c (Some i) h)) ∧ J c (unwatch i (mark sid c (Some i) h))
  ∧ ∃ e' X' B' C' R', mid c e' X' B' C' R' (unwatch i (mark sid c (Some i) h)).
Proof.
  intros HM HG HA Hs Hb Hof Hex.
  assert (∀ h', belongs c i h' → loc c h' (unwatch i h')) as HLU.
  { intros h' (s & Es & Ec). by eapply loc_update_stream. }
  assert (∀ e X B C R h', mid c e X B C R h' → mid c e X B C R (unwatch i h')) as HMU.
  { intros. apply mid_update_stream; [done|done|]. intros s Es. simpl. auto. }
  assert ((∃ r o, e = Some (sid, r, o) ∧ stream o = Some i) ∨ ¬ ∃ r o, e = Some (sid, r, o) ∧ stream o = Some i)
    as [(r & o & -> & Ho)|Hno].
  { destruct e as [[[sid' r] o]|]; [|right; naive_solver].
    destruct (decide (sid' = sid)) as [->|]; [|right; naive_solver].
    destruct (decide (stream o = Some i)); [left; eauto|right; naive_solver]. }
  - destruct (mark_entry_spec c sid r o _ B C R h (Some i) HM (or_intror Ho)) as (L & K & M).
    assert (mid c (Some (sid, r, errored o)) [] (forget sid B) C R (mark sid c (Some i) h)) as M'.
    { apply (mid_without _ _ _ _ _ _ i) in M; [|].
      - simpl in M. rewrite Ho in M. unfold without in M. simpl in M. rewrite filter_cons, filter_nil in M.
        rewrite decide_False in M by tauto. exact M.
      - intros s Es. left. destruct K as (K & _ & _). rewrite K in Es. unfold stream_is in Hex. by rewrite Es in Hex. }
    split; [eapply loc_trans; [exact L|]; apply HLU; eapply belongs_mono; [exact Hb|apply L]|].
    split; [|eauto 8]. eapply J_intro; [apply HMU, M'| |by intros ? ? ? ? [= <- <- <-]|done].
    constructor.
    + intros ? ? ? [= <- <- <-]. simpl. split; [done|]. by intros [? ?].
    + intros b Hb'. simpl. destruct B as [b0|]; [|done]. injection Hb' as <-.
      rewrite (good_bound _ _ _ _ HG b0 eq_refl). destruct (decide (state o = READY)); set_solver.
    + intros _. apply (good_reg _ _ _ _ HG). right. right. by eexists.
  - rewrite (mark_other c e _ B C R h sid (Some i) HM Hs).
    2:{ intros r o ->. split; [done|]. intros Ho. apply Hno. eauto. }
    split; [by apply HLU|]. split; [|eauto 8]. eapply J_intro; [apply HMU, HM|exact HG| |done].
    intros sid' r o j -> Ho. destruct (HA sid' r o j eq_refl Ho) as [H1 H2].
    assert (j ≠ i) as Hji.
    { intros ->. destruct H2 as (s & Es & <-), Hof as (s2 & Es2 & <-). rewrite Es in Es2. injection Es2 as <-. apply Hno. eauto. }
    split; [by apply attended_update|]. eapply of_session_mono; [exact H2|apply mono_unwatch].
Qed.

Lemma guar_id o h : W h → guar W mono rely o h h.
Proof. intros HW. split; [done|]. split; [apply mono_refl|]. intros. apply rely_refl. Qed.

Lemma exited_mono i h h' : stream_is exited i h = true → mono h h' → stream_is exited i h' = true.
Proof.
  unfold stream_is. intros H [HM _]. destruct (streams h !! i) as [s|] eqn:E; [|done].
  destruct (HM i s E) as (s' & -> & _ & _ & He & _). auto.
Qed.

(** [ok] of an unlocked read. *)
Lemma ok_read_free k h : (∀ h', mono h h' → W h' → OK None (k h') h') → OK None (Crit id k) h.
Proof. intros HK h' HR HW. split; [by apply guar_id|by apply HK]. Qed.

(** Taking the lock of [c]. *)
Lemma ok_lock c k h :
  (∀ h' e B C R, mono h h' → W h' → mid c e (option_list (entry_stream e)) B C R h' → good e B C R → att c e h' →
     OK (Some c) k h') →
  OK None (Lock c k) h.
Proof. intros HK. split; [done|]. intros h' HM HW (e & B & C & R & H1 & H2 & H3). by eapply HK. Qed.

Lemma ok_Unlock_J c k h : J c h → OK None k h → OK (Some c) (Unlock c k) h.
Proof. by intros. Qed.

Lemma retireOnExit_ok c sid i h :
  home sid = c → belongs c i h → of_session sid i h → OK None (retireOnExit sid c i) h.
Proof.
  intros Hs Hb Hof. unfold retireOnExit. set (go := Crit (λ h, if stream_is stopping i h then _ else h) _).
  assert (∀ h', mono h h' → stream_is exited i h' = true → OK None go h') as Hgo.
  { intros h1 Hm1 He1 h2 Hm2 HW2. split.
    - case_match; [|by apply guar_id]. split; [exact HW2|]. split; [apply mono_unwatch|]. intros d _. by apply rely_unwatch.
    - case_match eqn:Est; [done|]. apply orb_false_iff in Est as [-> _].
      apply ok_lock. intros h3 e B C R Hm3 HW3 HM HG HA.
      assert (mono h1 h3) as Hm13 by (eapply mono_trans; [exact Hm2|exact Hm3]).
      eapply ok_read; [exact HM|]. intros h4 M4 HW4 HL4. destruct (cancelled h4).
      + eapply ok_unlock; [exact M4|exact HG|by eapply later_att|done|done].
      + intros h5 HR5 HW5. assert (later c h3 h5) as HL5 by (eapply later_trans; [exact HL4|by apply later_rely]).
        assert (mono h h5) as Hm5 by (eapply mono_trans; [exact Hm1|]; eapply mono_trans; [exact Hm13|apply HL5]).
        assert (mid c e (option_list (entry_stream e)) B C R h5) as M5 by by eapply mid_rely.
        destruct (exit_spec c sid i e B C R h5 M5 HG (later_att _ _ _ _ HA HL5) Hs) as (L & HJ & e' & X' & B' & C' & R' & M').
        { by eapply belongs_mono. } { by eapply of_session_mono. }
        { eapply exited_mono; [exact He1|]. eapply mono_trans; [exact Hm13|apply HL5]. }
        split; [by eapply guar_of|].
        destruct (lookup_session sid h5) as [[? ?]|]; [|by apply ok_Unlock_J].
        case_match; [|by apply ok_Unlock_J]. intros a. by apply ok_Unlock_J. }
  split; [done|]. intros h1 Hm1 HW1 Hb1. destruct (closing h1) eqn:Ecl.
  - destruct (stream_is exited i h1) eqn:Ex; [|done]. intros a. destruct a; try done. by apply Hgo.
  - apply Hgo; [done|]. by apply orb_true_iff in Hb1 as [?|?]; [|congruence].
Qed.

(** The new agent of the session, which nobody stops. *)
Definition started (sid c : bytes) (i : nat) (h : agentHost) : Prop :=
  ∃ s, streams h !! i = Some s ∧ s_session s = sid ∧ s_container s = c ∧ stopping s = false.

Lemma started_rely sid c i h h' : started sid c i h → rely c h h' → started sid c i h'.
Proof.
  intros (s & Es & E1 & E2 & E3) HR. destruct (proj1 (rely_m _ _ _ HR) i s Es) as (s1 & Es1 & D1 & C1 & _ & _).
  destruct (rely_streams _ _ _ HR i s1 Es1) as (s0 & Es0 & _ & T1 & _ & _); [congruence|].
  exists s1. split; [done|]. do 2 (split; [congruence|]). congruence.
Qed.

Lemma started_calm sid c i h h' : started sid c i h → streams h' = streams h → started sid c i h'.
Proof. intros (s & Es & H) E. exists s. by rewrite E. Qed.

Lemma spec_watch c sid i e X B C R k h :
  mid c e X B C R h → home sid = c → started sid c i h →
  (∀ h', mid c e X B C R h' → attended c i h' → of_session sid i h' → mono h h' → OK (Some c) k h') →
  OK (Some c) (watch sid c i k) h.
Proof.
  intros HM Hs (s & Es & E1 & E2 & E3) HK.
  intros h1 HR1 HW1. pose proof (rely_m _ _ _ HR1) as Hm1.
  destruct (proj1 Hm1 i s Es) as (s1 & Es1 & D1 & C1 & _ & _).
  destruct (rely_streams _ _ _ HR1 i s1 Es1) as (s0 & Es0 & _ & T1 & _ & _); [congruence|].
  assert (s0 = s) as -> by congruence.
  assert (loc c h1 (update_stream i (set_watched true) h1)) as HL by (eapply loc_update_stream; [exact Es1|congruence|done|simpl; congruence|done|done]).
  assert (mid c e X B C R (update_stream i (set_watched true) h1)) as M1.
  { apply mid_update_stream; [by eapply mid_rely|done|]. intros s' Es'. simpl. auto. }
  set (h2 := update_stream i (set_watched true) h1) in *.
  assert (streams h2 !! i = Some (set_watched true s1)) as Es2.
  { unfold h2. by rewrite lookup_update_stream, decide_True, Es1. }
  assert (of_session sid i h2) as Hof by (exists (set_watched true s1); split; [done|simpl; congruence]).
  split; [by eapply guar_of|]. split.
  - apply retireOnExit_ok; [done| |done]. exists (set_watched true s1). split; [done|simpl; congruence].
  - apply HK; [done| |done|eapply mono_trans; [exact Hm1|apply HL]].
    exists (set_watched true s1). split; [done|]. simpl. split; [congruence|]. right. split; [congruence|by left].
Qed.

(** * The operations *)

Definition rets (c : bytes) (ret : result → prog) : Prop := ∀ r h, J c h → OK (Some c) (ret r) h.

Lemma J_empty c B C R h :
  mid c None [] B C R h → (∀ b, B = Some b → b = ∅) → (is_Some B ∨ is_Some C → is_Some R) → J c h.
Proof.
  intros HM HB HR. eapply J_intro; [exact HM| |by intros ? ? ? ? [=]|done]. constructor; [by intros ? ? ? [=]|done|].
  intros [?|[?|[? ?]]]; [auto|auto|done].
Qed.

Lemma without_self i : without i [i] = [].
Proof. unfold without. rewrite filter_cons, filter_nil, decide_False; tauto. Qed.

Lemma belongs_att c e h : att c e h → ∀ i, entry_stream e = Some i → belongs c i h.
Proof.
  intros HA i Hi. destruct e as [[[sid r] o]|]; [|done]. destruct (HA sid r o i eq_refl Hi) as [(s & ? & ? & _) _]. by exists s.
Qed.

Lemma spec_retire c e B C R k h :
  mid c e (option_list (entry_stream e)) B C R h → att c e h →
  (∀ B' h', mid c None [] B' None R h' → (B = None → B' = None) → OK (Some c) k h') →
  OK (Some c) (retireContainer c k) h.
Proof.
  intros HM HA HK. eapply spec_retireContainer; [exact HM|by apply belongs_att|]. intros B' h' M' HB _.
  apply (HK B'); [|done]. destruct (entry_stream e) as [i|]; simpl in M'; [by rewrite without_self in M'|done].
Qed.

Lemma removeLocked_ok c e B C R ret h :
  mid c e (option_list (entry_stream e)) B C R h → good e B C R → att c e h → rets c ret →
  OK (Some c) (removeLocked c ret) h.
Proof.
  intros HM HG HA Hret. eapply spec_retire; [exact HM|exact HA|]. intros B' h1 M1 _.
  eapply ok_read; [exact M1|]. intros h2 M2 _ _.
  assert (∀ r R' h', mid c None [] B' None R' h' → OK (Some c) (closeSocket c (ret r)) h') as Hclose.
  { intros r R' h' M'. eapply spec_closeSocket; [exact M'|]. intros h3 M3 _. apply Hret. eapply J_empty; [exact M3|done|].
    by intros [[? ?]|[? ?]]. }
  destruct (registry h2 !! c); [|by eapply Hclose].
  eapply spec_Teardown; [exact M2|by eapply Hclose|]. intros h3 M3 _. by eapply Hclose.
Qed.

Lemma provisionFresh_ok be c ret h :
  mid c None [] None None None h → rets c ret → OK (Some c) (provisionFresh be c ret) h.
Proof.
  intros HM Hret.
  assert (∀ r B C R h', mid c None [] B C R h' → (∀ b, B = Some b → b = ∅) → (is_Some B ∨ is_Some C → is_Some R) →
    OK (Some c) (ret r) h') as Hend.
  { intros r B C R h' M' HB HR. apply Hret. by eapply J_empty. }
  assert (∀ r R h', mid c None [] None None R h' → OK (Some c) (teardownContainer c (ret r)) h') as Htd.
  { intros r R h' M'. eapply spec_teardownContainer; [exact M'|]. intros R' h2 M2 _ _. eapply Hend; [exact M2|done|].
    by intros [[? ?]|[? ?]]. }
  assert (∀ B C R k h', mid c None [] B C R h' → (∀ h2, mid c None [] None C R h2 → OK (Some c) k h2) →
    OK (Some c) (closeSocket c k) h') as Hcl.
  { intros B C R k h' M' HK. eapply spec_closeSocket; [exact M'|]. intros h2 M2 _. by apply HK. }
  assert (∀ h', mid c None [] None None None h' → ∀ r, OK (Some c) (ret r) h') as Hnone.
  { intros h' M' r. eapply Hend; [exact M'|done|by intros [[? ?]|[? ?]]]. }
  destruct be; cbn [provisionFresh].
  - unfold provisionContainer. eapply spec_serveSocket; [exact HM|by apply Hnone|]. intros h1 M1 _ a. cbn [negb].
    assert (∀ h', mid c None [] (Some ∅) None None h' → OK (Some c) (closeSocket c (ret (Failed errOperation))) h') as Hfail.
    { intros h' M'. eapply Hcl; [exact M'|]. intros h2 M2. by apply Hnone. }
    destruct a; try by apply Hfail. eapply spec_Launch; [exact M1|by apply Hfail|]. intros hd h2 M2 _.
    eapply spec_set_config; [exact M2|]. intros h3 M3 _. eapply Hend; [exact M3|by intros b [= <-]|by eexists].
  - unfold provisionVsockGateway. eapply spec_Launch; [exact HM|by apply Hnone|]. intros hd h1 M1 _ a.
    destruct a; try by eapply Htd. eapply spec_serveSocket; [exact M1|by eapply Htd|]. intros h2 M2 _.
    eapply Hend; [exact M2|by intros b [= <-]|by eexists].
  - unfold provisionHostGateway. eapply spec_Launch; [exact HM|by apply Hnone|]. intros hd h1 M1 _ a.
    destruct a; try by eapply Htd. eapply (ok_set _ _ _ _ _ _ _ _ _ None None None (Some hd)); [exact M1| |mid_same|].
    { intros h'. split; [apply loc_transports|done]. }
    intros h2 M2 _. eapply spec_serveSocket; [exact M2| |].
    { eapply Hcl; [exact M2|]. intros h3 M3. by eapply Htd. }
    intros h3 M3 _ a. cbn [negb].
    destruct a; try (eapply Hcl; [exact M3|]; intros h4 M4; by eapply Htd).
    eapply spec_set_config; [exact M3|]. intros h4 M4 _. eapply Hend; [exact M4|by intros b [= <-]|by eexists].
Qed.

Lemma provisionLocked_ok be c e B C R ret h :
  mid c e (option_list (entry_stream e)) B C R h → good e B C R → att c e h → rets c ret →
  OK (Some c) (provisionLocked be c ret) h.
Proof.
  intros HM HG HA Hret. eapply ok_read; [exact HM|]. intros h1 M1 _ HL1. destruct (registry h1 !! c) as [hd|] eqn:ER.
  - assert (∀ r, OK (Some c) (ret r) h1) as Hkeep.
    { intros r. apply Hret. exists e, B, C, R. split; [done|]. split; [done|by eapply later_att]. }
    assert (OK (Some c) (replaceStale c (provisionFresh be c ret)) h1) as Hstale.
    { eapply spec_retire; [exact M1|by eapply later_att|]. intros B' h2 M2 _.
      eapply spec_closeSocket; [exact M2|]. intros h3 M3 _. eapply spec_deregister; [exact M3|]. intros h4 M4 _.
      by apply provisionFresh_ok. }
    intros a. destruct a; try exact (Hkeep _);
      (intros a; destruct a; try exact (Hkeep _); try exact Hstale; intros a; destruct a; try exact (Hkeep _); exact Hstale).
  - rewrite (mid_registry _ _ _ _ _ _ _ M1) in ER. subst R.
    assert (B = None ∧ C = None ∧ e = None) as (-> & -> & ->).
    { assert (¬ (is_Some B ∨ is_Some C ∨ is_Some e)) as HN by (intros Hx; by destruct (good_reg _ _ _ _ HG Hx)).
      destruct B, C, e; try done; exfalso; apply HN; eauto. }
    by apply provisionFresh_ok.
Qed.

(** ** Start *)

Lemma filter_as_omap {A} (P : A → Prop) `{∀ x, Decision (P x)} (l : list A) :
  filter P l = omap (λ x, if decide (P x) then Some x else None) l.
Proof. induction l as [|x l IH]; [done|]. rewrite filter_cons. cbn. case_decide; by rewrite IH. Qed.

Lemma existsb_as_omap {A} (f : A → bool) (l : list A) :
  existsb f l = match omap (λ x, if f x then Some tt else None) l with [] => false | _ => true end.
Proof. induction l as [|x l IH]; [done|]. cbn. by destruct (f x). Qed.

Lemma busy_entry c e h :
  W h → entry c e h → busy c h = match e with Some (_, _, o) => negb (bool_decide (state o = ERRORED)) | None => false end.
Proof.
  intros HW He. unfold busy. rewrite existsb_as_omap.
  set (f := λ (sid : bytes) (r : nat) (o : liveSession),
    if bool_decide (containerName o = c) && negb (bool_decide (state o = ERRORED)) then Some tt else None).
  rewrite (list_omap_ext _ (λ x : bytes * nat, match objs h !! x.2 with Some o => f x.1 x.2 o | None => None end) _ (map_to_list (sessions h))).
  2:{ apply Forall_Forall2_diag, Forall_forall. intros x _. by destruct (objs h !! x.2). }
  rewrite (search_entry f c e h HW He).
  - destruct e as [[[sid r] o]|]; [|done]. unfold f. rewrite bool_decide_true by apply He. by destruct (bool_decide _).
  - intros. unfold f. by rewrite bool_decide_false.
Qed.

Definition made_way (sid : bytes) (e : entry_t) : entry_t :=
  match e with Some (sid', r, o) => if decide (sid' = sid) then e else None | None => None end.

Lemma make_way_spec c sid e X B C R h :
  W h → mid c e X B C R h → (∀ b, B = Some b → b = ∅) →
  loc c h (make_way c sid h) ∧ calm h (make_way c sid h) ∧ mid c (made_way sid e) X B C R (make_way c sid h).
Proof.
  intros HW HM HB. unfold make_way.
  set (f := λ (s : bytes) (r : nat) (o : liveSession), if decide (s ≠ sid ∧ containerName o = c) then Some (s, r) else None).
  rewrite filter_as_omap, (list_omap_ext _ (λ x : bytes * nat, match objs h !! x.2 with Some o => f x.1 x.2 o | None => None end) _ (map_to_list (sessions h))).
  2:{ apply Forall_Forall2_diag, Forall_forall. intros [s r] _. simpl. destruct (objs h !! r) as [o|]; simpl.
      - unfold f. repeat case_decide; naive_solver.
      - case_decide; naive_solver. }
  rewrite (search_entry f c e h HW (mid_entry _ _ _ _ _ _ _ HM)).
  2:{ intros s r o Hne. unfold f. rewrite decide_False; [done|]. tauto. }
  destruct e as [[[s r] o]|]; simpl; [|split; [apply loc_refl|done]].
  unfold f. destruct (mid_entry _ _ _ _ _ _ _ HM) as (_ & P2 & _).
  destruct (decide (s = sid)) as [->|Hne].
  - rewrite decide_False by tauto. split; [apply loc_refl|done].
  - rewrite decide_True by done. simpl. destruct (drop_session_spec c s r o X B C R h HM) as (L & K & M).
    split; [done|]. split; [done|]. assert (forget s B = B) as <-; [|done].
    destruct B as [b|]; [|done]. rewrite (HB b eq_refl). unfold forget. simpl. f_equal. set_solver.
Qed.

(** What the control producer knows once the session is bound in it. *)
Definition bound (sid : bytes) (B : option (gset bytes)) : option (gset bytes) := (λ _ : gset bytes, {[sid]}) <$> B.

Lemma record_session_spec c sid hd i e X B C R h :
  W h → mid c e X B C R h → (∀ b, B = Some b → b = ∅) → home sid = c →
  loc c h (record_session c sid hd i h) ∧ calm h (record_session c sid hd i h)
  ∧ ∃ r, mid c (Some (sid, r, MkSession sid c (WorkspaceUID hd) (Some i) READY (AgentAccountID hd))) X
           (bound sid B) C R (record_session c sid hd i h).
Proof.
  intros HW HM HB Hs. destruct (make_way_spec c sid e X B C R h HW HM HB) as (L1 & K1 & M1).
  unfold record_session. set (h1 := make_way c sid h) in *.
  set (o := MkSession sid c (WorkspaceUID hd) (Some i) READY (AgentAccountID hd)).
  set (h2 := set_sessions (<[sid := length (objs h1)]> (sessions h1)) (set_objs (objs h1 ++ [o]) h1)).
  assert (loc c h1 h2) as L2.
  { eapply loc_trans; [by apply (loc_obj_new c h1 o)|]. apply loc_sessions. intros s Hne. rewrite lookup_insert_ne; [done|]. congruence. }
  destruct (bind_control_spec c sid h2) as (L3 & K3 & E1 & E2 & E3 & E4 & E5).
  split; [eapply loc_trans; [exact L1|by eapply loc_trans]|].
  split; [eapply calm_trans; [exact K1|eapply calm_trans; [|exact K3]; done]|].
  exists (length (objs h1)). eapply mid_calm; [exact M1|eapply calm_trans; [|exact K3]; done| | | |].
  - simpl. do 3 (split; [done|]). rewrite E2. split; [by apply list_lookup_middle|]. rewrite E1. simpl. intros s Hsc.
    case_decide as Ed; [subst s; by rewrite lookup_insert_eq|]. rewrite lookup_insert_ne by done.
    pose proof (mid_entry _ _ _ _ _ _ _ M1) as He. unfold made_way in He.
    destruct e as [[[s2 r2] o2]|]; [|by apply He]. destruct (decide (s2 = sid)) as [->|]; [|by apply He].
    simpl in He. destruct He as (_ & _ & _ & _ & He). rewrite He by done. by rewrite decide_False.
  - rewrite E3. simpl. rewrite (mid_sockets _ _ _ _ _ _ _ M1). destruct B as [b|]; [|done]. simpl.
    rewrite (HB b eq_refl). f_equal. set_solver.
  - rewrite E4. apply M1.
  - rewrite E5. apply M1.
Qed.

(** A session that is not ready has no agent. *)
Lemma idle_entry e B C R :
  good e B C R → (∀ sid r o, e = Some (sid, r, o) → state o = ERRORED) →
  entry_stream e = None ∧ ∀ b, B = Some b → b = ∅.
Proof.
  intros HG He. destruct e as [[[sid r] o]|].
  - specialize (He sid r o eq_refl). split.
    + simpl. destruct (stream o) eqn:E; [|done]. pose proof (proj2 (good_state _ _ _ _ HG sid r o eq_refl)) as H.
      rewrite E in H. specialize (H ltac:(eauto)). congruence.
    + intros b Hb. rewrite (good_bound _ _ _ _ HG b Hb), decide_False; [done|]. congruence.
  - split; [done|]. intros b Hb. apply (good_bound _ _ _ _ HG b Hb).
Qed.

Lemma ready_good sid r o B C R :
  state o = READY → is_Some (stream o) → is_Some R → good (Some (sid, r, o)) (bound sid B) C R.
Proof.
  intros H1 H2 H3. constructor; [|intros b Hb|done].
  - intros ? ? ? [= <- <- <-]. by rewrite H1.
  - rewrite decide_True by done. destruct B; [|done]. by injection Hb as <-.
Qed.

Lemma recordStarted_ok c sid hd i e B C ret h :
  mid c e [i] B C (Some hd) h → (∀ b, B = Some b → b = ∅) → home sid = c → started sid c i h → rets c ret →
  OK (Some c) (recordStarted c sid hd ret i) h.
Proof.
  intros M3 HB Hs Es Hret. eapply ok_crit; [exact M3|]. intros h4 M4 HW4 HR4.
  destruct (record_session_spec c sid hd i e [i] B C (Some hd) h4 HW4 M4 HB Hs) as (L & K & r & M5).
  eexists _, _, _, _, _. split; [exact L|]. split; [exact M5|].
  eapply spec_watch; [exact M5|exact Hs| |].
  { eapply started_calm; [by eapply started_rely|apply K]. }
  intros h6 M6 HA6 HS6 Hm6. eapply ok_read; [exact M6|]. intros h7 M7 _ HL7.
  assert (∀ r, OK (Some c) (ret r) h7) as Hdone.
  { intros r'. apply Hret. eapply J_intro; [exact M7|by apply ready_good| |done].
    intros ? ? ? ? [= <- <- <-] [= <-]. split; [by apply HL7|]. eapply of_session_mono; [exact HS6|apply HL7]. }
  destruct (served c h7); [|by apply Hdone]. intros a. by apply Hdone.
Qed.

Lemma bindAndStartAgent_ok c sid resumeID hd e B C ret h :
  mid c e [] B C (Some hd) h → (∀ b, B = Some b → b = ∅) → home sid = c → OK (Some c) (ret (Failed errOperation)) h → rets c ret →
  OK (Some c) (bindAndStartAgent c sid resumeID (λ r, match r with
    | None => ret (Failed errOperation) | Some i => recordStarted c sid hd ret i end)) h.
Proof.
  intros M2 HB Hs Hfail Hret. unfold bindAndStartAgent. set (st := StartAgent sid c _).
  assert (OK (Some c) st h) as Hst.
  { eapply spec_StartAgent; [exact M2|exact Hfail|]. intros i h3 M3 Es HL3. eapply ok_crit; [exact M3|].
    intros h4 M4 HW4 HR4. exists e, [i], B, C, (Some hd). split; [apply loc_started|].
    assert (mid c e [i] B C (Some hd) (set_started (startedContainers h4 ∪ {[c]}) h4)) as M5.
    { eapply mid_calm; [exact M4|done|exact (mid_entry _ _ _ _ _ _ _ M4)|apply M4..]. }
    split; [exact M5|]. eapply recordStarted_ok; [exact M5|done|done| |done].
    eapply started_calm; [eapply started_rely; [|exact HR4]|done]. by eexists. }
  case_bool_decide; [exact Hst|]. intros a. destruct a; try exact Hst. exact Hfail.
Qed.

Lemma launchSession_ok c sid resumeID hd e B C ret h :
  mid c e [] B C (Some hd) h → (∀ b, B = Some b → b = ∅) → home sid = c → OK (Some c) (ret (Failed errOperation)) h → rets c ret →
  OK (Some c) (launchSession c sid resumeID hd ret) h.
Proof.
  intros M2 HB Hs Hfail Hret. pose proof (bindAndStartAgent_ok c sid resumeID hd e B C ret h M2 HB Hs Hfail Hret) as Hbind.
  unfold launchSession, installResume. set (bind := bindAndStartAgent _ _ _ _) in *.
  assert (∀ k, OK (Some c) k h → OK (Some c) (installSecrets ret k) h) as Hsec.
  { intros k Hk a. destruct a; try exact Hfail; try exact Hk; intros a; destruct a; try exact Hfail; exact Hk. }
  apply Hsec. case_bool_decide; [exact Hbind|]. destruct (negb (bareID resumeID)); intros a; destruct a; try exact Hfail;
    intros a; destruct a; try exact Hfail; intros a; exact Hbind.
Qed.

Lemma startLocked_ok c resumeID fresh e B C R ret h :
  mid c e (option_list (entry_stream e)) B C R h → good e B C R → att c e h → rets c ret →
  home (if bool_decide (resumeID = []) then fresh else resumeID) = c →
  OK (Some c) (startLocked c resumeID fresh ret) h.
Proof.
  intros HM HG HA Hret Hhome. eapply ok_read; [exact HM|]. intros h1 M1 _ HL1.
  assert (∀ r h', mid c e (option_list (entry_stream e)) B C R h' → later c h h' → OK (Some c) (ret r) h') as Hfail.
  { intros r h' M' HL'. apply Hret. exists e, B, C, R. split; [done|]. split; [done|by eapply later_att]. }
  destruct (registry h1 !! c) as [hd|] eqn:ER; [|by apply Hfail].
  rewrite (mid_registry _ _ _ _ _ _ _ M1) in ER. subst R.
  set (go := Crit id _). assert (OK (Some c) go h1) as Hgo; [|intros a; destruct a; try (by apply Hfail); exact Hgo].
  eapply ok_read; [exact M1|]. intros h2 M2 HW2 HL2.
  assert (later c h h2) as HL02 by by eapply later_trans.
  destruct (startID c resumeID fresh h2) as [er|sid] eqn:ES; [by apply Hfail|].
  unfold startID in ES. rewrite (busy_entry c e h2 HW2 (mid_entry _ _ _ _ _ _ _ M2)) in ES.
  assert ((∀ s r o, e = Some (s, r, o) → state o = ERRORED) ∧ home sid = c) as [He Hs].
  { split.
    - intros s r o ->. destruct (decide (state o = ERRORED)); [done|]. by rewrite bool_decide_false in ES.
    - rewrite <- Hhome. repeat case_match; try done; injection ES as <-; done. }
  destruct (idle_entry e B C (Some hd) HG He) as [HX HB].
  pose proof (Hfail (Failed errOperation) h2 M2 HL02) as HF.
  rewrite HX in M2. by eapply launchSession_ok.
Qed.

(** ** Stop and Reload *)

Lemma entry_session c e sid s h :
  entry c e h → home sid = c → sessions h !! sid = Some s → ∃ o, e = Some (sid, s, o) ∧ objs h !! s = Some o ∧ containerName o = c.
Proof.
  intros He Hs Hh. destruct e as [[[sid' r] o]|]; simpl in He; [|by rewrite (He sid Hs) in Hh].
  destruct He as (_ & H2 & _ & H4 & H5). rewrite (H5 sid Hs) in Hh. case_decide; [|done]. subst sid'. injection Hh as <-. eauto.
Qed.

Lemma forget_bound sid r o B C R :
  good (Some (sid, r, o)) B C R → forget sid B = (λ _ : gset bytes, ∅) <$> B.
Proof.
  intros HG. destruct B as [b|]; [|done]. simpl. f_equal. rewrite (good_bound _ _ _ _ HG b eq_refl). destruct (decide _); set_solver.
Qed.

Lemma stopLocked_ok c sid s e B C R ret h :
  mid c e (option_list (entry_stream e)) B C R h → good e B C R → att c e h → rets c ret → home sid = c →
  OK (Some c) (stopLocked sid s c ret) h.
Proof.
  intros HM HG HA Hret Hs. eapply ok_read; [exact HM|]. intros h1 M1 _ HL1.
  assert (∀ r, OK (Some c) (ret r) h1) as Hkeep.
  { intros r. apply Hret. exists e, B, C, R. split; [done|]. split; [done|by eapply later_att]. }
  case_bool_decide as E; [|apply Hkeep].
  destruct (entry_session c e sid s h1 (mid_entry _ _ _ _ _ _ _ M1) Hs E) as (o & -> & _).
  eapply ok_crit; [exact M1|]. intros h2 M2 _ HR2. destruct (drop_session_spec c sid s o _ B C R h2 M2) as (L & K & M3).
  eexists _, _, _, _, _. split; [exact L|]. split; [exact M3|].
  assert (∀ r h', mid c None [] (forget sid B) C R h' → OK (Some c) (ret r) h') as Hend.
  { intros r h' M'. apply Hret. eapply J_empty; [exact M'| |].
    - intros b Hb. rewrite (forget_bound _ _ _ _ _ _ HG) in Hb. destruct B; [|done]. by injection Hb as <-.
    - intros HBC. apply (good_reg _ _ _ _ HG). destruct HBC as [HB|?]; [left|by right; left]. by destruct B, HB. }
  destruct (mid_entry _ _ _ _ _ _ _ M2) as (_ & _ & _ & -> & _). simpl in *. destruct (stream o) as [i|] eqn:Ei.
  - eapply spec_StreamStop; [exact M3| |].
    + eapply belongs_mono; [|eapply mono_trans; [apply HR2|apply L]]. destruct HL1 as [HL1 _]. eapply belongs_mono; [|exact HL1].
      apply (belongs_att c _ h HA). simpl. done.
    + intros b h4 M4 _ _. simpl in M4. rewrite without_self in M4. destruct b; [intros a|]; by apply Hend.
  - intros a. by apply Hend.
Qed.

(** The post-condition of a reload: a reloaded session is registered. *)
Definition reloads (c : bytes) (ret : result → prog) : Prop :=
  ∀ r h, J c h → (∀ v, r = Done v → is_Some (registry h !! c)) → OK (Some c) (ret r) h.

Lemma alter_as_insert {A} (f : A → A) (i : nat) (x : A) (l : list A) : l !! i = Some x → alter f i l = <[i := f x]> l.
Proof. revert i. induction l as [|y l IH]; intros [|i] Hx; try done; simpl; [by injection Hx as ->|]. f_equal. by apply IH. Qed.

(** The session of a container whose old agent is gone. *)
Record halted (c sid : bytes) (s : nat) (o : liveSession) (B : option (gset bytes)) (C : option bytes) (R : option AgentHandle)
    (h : agentHost) : Prop := {
  halted_mid : mid c (Some (sid, s, o)) [] B C R h;
  halted_bound : ∀ b, B = Some b → b ⊆ {[sid]};
  halted_reg : is_Some R;
}.

Lemma halted_keep c sid s o B C R h h' : halted c sid s o B C R h → mid c (Some (sid, s, o)) [] B C R h' → halted c sid s o B C R h'.
Proof. intros [_ H1 H2] HM. by constructor. Qed.

Lemma halted_fail c sid s o B C R ret h :
  halted c sid s o B C R h → reloads c ret → OK (Some c) (markErrored sid c None (ret (Failed errOperation))) h.
Proof.
  intros [HM HB HR] Hret. eapply spec_markErrored; [exact HM|]. intros h' M'. apply Hret; [|by intros ? [=]].
  eapply J_intro; [exact M'| |by intros ? ? ? ? [= <- <- <-]|done]. constructor.
  - intros ? ? ? [= <- <- <-]. simpl. split; [done|by intros [? ?]].
  - intros b Hb. simpl. destruct B as [b0|]; [|done]. specialize (HB b0 eq_refl). injection Hb as <-. set_solver.
  - done.
Qed.

Lemma reloadRun_ok c sid s o B C R ret h :
  halted c sid s o (bound sid B) C R h → reloads c ret → home sid = c →
  OK (Some c) (reloadRun sid s c ret) h.
Proof.
  intros HH Hret Hs. pose proof (halted_mid _ _ _ _ _ _ _ _ HH) as HM. unfold reloadRun.
  assert (OK (Some c) (markErrored sid c None (ret (Failed errOperation))) h) as Hfail by by eapply halted_fail.
  set (run := StartAgent sid c _). assert (OK (Some c) run h) as Hrun; [|intros a; destruct a; try exact Hfail; exact Hrun].
  eapply spec_StartAgent; [exact HM|exact Hfail|]. intros i h1 M1 Es HL1. eapply ok_crit; [exact M1|]. intros h2 M2 HW2 HR2.
  destruct (mid_entry _ _ _ _ _ _ _ M2) as (P1 & P2 & P3 & P4 & P5). rewrite (alter_as_insert _ _ _ _ P4).
  set (o' := MkSession (sessionID o) (containerName o) (agentUID o) (Some i) READY (agentAccountID o)).
  destruct (set_obj_spec c sid s o o' _ _ _ _ _ M2 P2 P3) as [L M3].
  eexists _, _, _, _, _. split; [exact L|]. split; [exact M3|].
  eapply spec_watch; [exact M3|done| |].
  { eapply started_calm; [eapply started_rely; [|exact HR2]|done]. by eexists. }
  intros h4 M4 HA4 HS4 _. apply Hret.
  - eapply J_intro; [exact M4|apply ready_good; [done|by eexists|apply HH]| |done]. by intros ? ? ? ? [= <- <- <-] [= <-].
  - intros _ _. rewrite (mid_registry _ _ _ _ _ _ _ M4). apply HH.
Qed.

Lemma relaunch_ok c sid s o B C R ret h :
  halted c sid s o B C R h → reloads c ret → home sid = c → OK (Some c) (relaunch sid s c ret) h.
Proof.
  intros HH Hret Hs. pose proof (halted_mid _ _ _ _ _ _ _ _ HH) as HM. unfold relaunch.
  assert (OK (Some c) (markErrored sid c None (ret (Failed errOperation))) h) as Hfail by by eapply halted_fail.
  set (go := Crit id _). assert (OK (Some c) go h) as Hgo; [|intros a; destruct a; try exact Hfail; exact Hgo].
  eapply ok_read; [exact HM|]. intros h1 M1 _ _. unfold served. rewrite (mid_sockets _ _ _ _ _ _ _ M1).
  destruct B as [b|].
  - rewrite bool_decide_true by by eexists. eapply ok_crit; [exact M1|]. intros h2 M2 _ _.
    destruct (bind_control_spec c sid h2) as (L & K & E1 & E2 & E3 & E4 & E5).
    assert (mid c (Some (sid, s, o)) [] (bound sid (Some b)) C R (bind_control c sid h2)) as M3.
    { eapply mid_calm; [exact M2|exact K| | | |].
      - destruct (mid_entry _ _ _ _ _ _ _ M2) as (P1 & P2 & P3 & P4 & P5). simpl. rewrite E1, E2. done.
      - rewrite E3, (mid_sockets _ _ _ _ _ _ _ M2). simpl. f_equal.
        pose proof (halted_bound _ _ _ _ _ _ _ _ HH b eq_refl). set_solver.
      - rewrite E4. apply M2.
      - rewrite E5. apply M2. }
    eexists _, _, _, _, _. split; [exact L|]. split; [exact M3|]. eapply ok_read; [exact M3|]. intros h4 M4 _ _.
    rewrite (mid_sockets _ _ _ _ _ _ _ M4). simpl. rewrite bool_decide_true by set_solver.
    eapply reloadRun_ok; [|done|done]. constructor; [exact M4|by intros ? [= <-]|apply HH].
  - rewrite bool_decide_false by by intros [? ?]. apply (reloadRun_ok c sid s o None C R); [by eapply halted_keep|done|done].
Qed.

Lemma reloadLocked_ok c sid e B C R ret h :
  mid c e (option_list (entry_stream e)) B C R h → good e B C R → att c e h → reloads c ret → home sid = c →
  OK (Some c) (reloadLocked sid ret) h.
Proof.
  intros HM HG HA Hret Hs.
  assert (∀ er h', mid c e (option_list (entry_stream e)) B C R h' → later c h h' → OK (Some c) (ret (Failed er)) h') as Hkeep.
  { intros er h' M' L'. apply Hret; [|done]. exists e, B, C, R. split; [done|]. split; [done|by eapply later_att]. }
  eapply ok_read; [exact HM|]. intros h1 M1 _ HL1.
  destruct (lookup_session sid h1) as [[s o]|] eqn:El; [|by apply Hkeep].
  rewrite (lookup_entry c e sid h1 (mid_entry _ _ _ _ _ _ _ M1) Hs) in El.
  destruct e as [[[sid' r] o']|]; [|done]. case_decide; [|done]. subst sid'. injection El as -> ->.
  assert (containerName o = c) as Hco by apply (mid_entry _ _ _ _ _ _ _ M1). rewrite Hco.
  eapply ok_read; [exact M1|]. intros h2 M2 _ HL2.
  assert (later c h h2) as HL02 by by eapply later_trans.
  destruct (registry h2 !! c) eqn:ER; [|by apply Hkeep].
  set (go := Crit id _). assert (OK (Some c) go h2) as Hgo; [|intros x; destruct x; try (by apply Hkeep); exact Hgo].
  eapply ok_read; [exact M2|]. intros h3 M3 _ HL3. assert (later c h h3) as HL03 by by eapply later_trans.
  destruct (mid_entry _ _ _ _ _ _ _ M3) as (_ & _ & _ & -> & _). cbn [mbind option_bind].
  assert (∀ h', mid c (Some (sid, s, o)) [] B C R h' → OK (Some c) (relaunch sid s c ret) h') as Hre.
  { intros h' M'. eapply relaunch_ok; [|done|done]. constructor; [exact M'| |].
    - intros b Hb. rewrite (good_bound _ _ _ _ HG b Hb). destruct (decide _); set_solver.
    - rewrite <- (mid_registry _ _ _ _ _ _ _ M2), ER. by eexists. }
  simpl in M3. destruct (stream o) as [i|] eqn:Ei; [|by apply Hre].
  eapply spec_StreamStop; [exact M3| |].
  { eapply later_belongs; [|exact HL03]. apply (belongs_att c _ h HA). done. }
  intros b h4 M4 HA4 [Hm4 _]. simpl in M4. rewrite without_self in M4. destruct b; [by apply Hre|].
  apply Hret; [|done]. eapply J_intro; [exact M4|exact HG| |set_solver].
  intros ? ? ? j [= <- <- <-] Hj. assert (j = i) as -> by congruence. split; [by apply HA4|].
  eapply of_session_mono; [by eapply HA|]. eapply mono_trans; [apply HL03|exact Hm4].
Qed.

End facts.

End RunnerHostFacts.
