(* ===== verification/RunnerHostTop.v ===== *)
(** The Runner's session host as a whole: every command is permitted, so the container
    invariants hold in every interleaving; every process that exits is seen to. *)
From stdpp Require Import base list strings gmap.
From Stdlib Require Import Ascii ZArith Lia.
From S2P Require Import Prelude Text Threads RunnerHost RunnerHostFacts.

Module RunnerHostTop.
Import RunnerHost RunnerHostFacts.

(** * Commands *)

Section top.
Context (home : bytes → bytes).

Notation OK := (@ok agentHost bytes answer result (W home) mono (rely home) (J home)).
Notation mid := (mid home).
Notation J := (J home).
Notation later := (later).

Lemma locked_ok c body h :
  (∀ ret h' e B C R, mid c e (option_list (entry_stream e)) B C R h' → good e B C R → att c e h' → rets home c ret →
     OK (Some c) (body ret) h') →
  OK None (locked c body) h.
Proof.
  intros HB. apply ok_lock. intros h' e B C R _ _ HM HG HA. eapply HB; [done..|].
  intros r h2 HJ. by apply ok_Unlock_J.
Qed.

Lemma W_lookup sid s o h : W home h → lookup_session sid h = Some (s, o) → containerName o = home sid.
Proof.
  intros HW. unfold lookup_session. destruct (sessions h !! sid) as [r|] eqn:E; [|done].
  destruct (HW sid r E) as (o' & -> & H & _). by intros [= _ <-].
Qed.

Lemma Provision_ok be name h : OK None (Provision be name) h.
Proof.
  assert (OK None (locked name (provisionLocked be name)) h) as HL.
  { apply locked_ok. intros. by eapply provisionLocked_ok. }
  intros a. destruct a; try exact HL. done.
Qed.

Lemma Start_ok name resumeID fresh h :
  home (if bool_decide (resumeID = []) then fresh else resumeID) = name → OK None (Start name resumeID fresh) h.
Proof. intros Hh. apply locked_ok. intros. by eapply startLocked_ok. Qed.

Lemma Stop_ok sid h : OK None (Stop sid) h.
Proof.
  apply ok_read_free. intros h1 _ HW. destruct (lookup_session sid h1) as [[s o]|] eqn:E; [|done].
  apply locked_ok. intros. eapply stopLocked_ok; [done..|]. symmetry. by eapply W_lookup.
Qed.

Lemma Remove_ok name h : OK None (Remove name) h.
Proof. apply locked_ok. intros. by eapply removeLocked_ok. Qed.

Lemma rets_reloads c ret : rets home c ret → reloads home c ret.
Proof. intros Hr r h HJ _. by apply Hr. Qed.

Lemma Reload_ok sid h : OK None (Reload sid) h.
Proof.
  apply ok_read_free. intros h1 _ HW. destruct (lookup_session sid h1) as [[s o]|] eqn:E; [|done].
  apply locked_ok. intros. eapply reloadLocked_ok; [done..|by apply rets_reloads|]. symmetry. by eapply W_lookup.
Qed.

Lemma RefreshSecrets_ok sid h : OK None (RefreshSecrets sid) h.
Proof.
  apply ok_read_free. intros h1 _ HW. destruct (lookup_session sid h1) as [[s o]|]; [|done].
  apply ok_read_free. intros h2 _ _. destruct (registry h2 !! containerName o); [|done].
  set (b := locked _ _). assert (OK None b h2) as Hb; [|intros x; destruct x; try exact Hb; done].
  apply locked_ok. intros ret h3 e B C R HM HG HA Hret. assert (J (containerName o) h3) as HJ by by exists e, B, C, R.
  intros x. destruct x; by apply Hret.
Qed.

Lemma Deliver_ok sid h : OK None (Deliver sid) h.
Proof.
  apply ok_read_free. intros h1 _ HW. destruct (lookup_session sid h1) as [[s o]|]; [|done].
  case_match; [done|]. intros a. by destruct a.
Qed.

(** Recording the version of a registered workload. *)
Lemma set_config_ok c v k h :
  J c h → is_Some (registry h !! c) → (∀ h', J c h' → OK (Some c) k h') → OK (Some c) (set_config c v k) h.
Proof.
  intros (e & B & C & R & HM & HG & HA) HR HK. rewrite (mid_registry _ _ _ _ _ _ _ _ HM) in HR.
  eapply spec_set_config; [exact HM|]. intros h' M' L'. apply HK. exists e, B, (Some v), R. split; [done|].
  split; [|by eapply later_att]. constructor; [apply HG|apply HG|done].
Qed.

Lemma J_errored_registered c sid r o h : J c h → home sid = c → lookup_session sid h = Some (r, o) → is_Some (registry h !! c).
Proof.
  intros (e & B & C & R & HM & HG & HA) Hs Hl. rewrite (mid_registry _ _ _ _ _ _ _ _ HM).
  rewrite (lookup_entry home c e sid h (mid_entry _ _ _ _ _ _ _ _ HM) Hs) in Hl.
  apply (good_reg _ _ _ _ HG). right. right. by destruct e.
Qed.

Lemma refreshOneContainer_ok be sid last k h :
  (∀ h', OK None k h') → OK None (refreshOneContainer be sid (home sid) last k) h.
Proof.
  intros HK. unfold refreshOneContainer. set (c := home sid). set (out := Unlock c k).
  assert (∀ h', J c h' → OK (Some c) out h') as Hout by by intros; apply ok_Unlock_J.
  apply ok_lock. intros h1 e B C R _ _ HM HG HA. assert (J c h1) as HJ by by exists e, B, C, R.
  assert (∀ v, OK (Some c) (if bool_decide (v = last) then out else Crit id (λ h,
      if match lookup_session sid h with Some (_, o) => bool_decide (state o = ERRORED) | None => false end
      then set_config c v out
      else reloadLocked sid (λ r, match r with Done _ => set_config c v out | Failed _ => out end))) h1) as Hv.
  2:{ destruct be; [|by apply Hout|]; intros x; destruct x; try (by apply Hout);
        intros x; destruct x; try (by apply Hout); apply Hv. }
  intros v. case_bool_decide; [by apply Hout|].
  eapply ok_read; [exact HM|]. intros h2 M2 _ HL2.
  assert (J c h2) as HJ2 by (exists e, B, C, R; split; [done|]; split; [done|by eapply later_att]).
  assert (OK (Some c) (reloadLocked sid (λ r, match r with Done _ => set_config c v out | Failed _ => out end)) h2) as Hre.
  { eapply reloadLocked_ok; [exact M2|exact HG|by eapply later_att| |done]. intros r h3 HJ3 HR. destruct r; [|by apply Hout].
    apply set_config_ok; [done|by eapply HR|exact Hout]. }
  destruct (lookup_session sid h2) as [[r o]|] eqn:El; [|exact Hre]. case_bool_decide; [|exact Hre].
  apply set_config_ok; [done|by eapply J_errored_registered|exact Hout].
Qed.

Lemma RefreshConfig_ok be h : OK None (RefreshConfig be) h.
Proof.
  apply ok_read_free. intros h1 _ HW.
  assert (∀ t, t ∈ config_targets h1 → t.1.2 = home t.1.1) as Ht.
  { intros t Ht. apply list_elem_of_omap in Ht as ([sid r] & Hin & Ho). simpl in Ho. apply elem_of_map_to_list in Hin.
    destruct (HW sid r Hin) as (o & E & Hc & _). rewrite E in Ho. by injection Ho as <-. }
  generalize dependent (config_targets h1). intros l Ht. generalize h1. induction l as [|[[sid name] v] l IH]; intros h2; [done|].
  assert (name = home sid) as -> by (apply (Ht (sid, name, v)); left).
  apply refreshOneContainer_ok. intros. apply IH. intros t Hin. apply Ht. by right.
Qed.

(** Changes of the flags and the drain count by nobody's lock. *)
Lemma guar_flag h h' :
  W home h → sessions h' = sessions h → objs h' = objs h → sockets h' = sockets h → configVersions h' = configVersions h →
  registry h' = registry h → streams h' = streams h → (cancelled h = true → cancelled h' = true) →
  (closing h = true → closing h' = true) → guar (W home) mono (rely home) None h h'.
Proof.
  intros HW E1 E2 E3 E4 E5 E6 H1 H2. assert (mono h h') as Hm.
  { split; [|done]. intros i s Hs. exists s. by rewrite E6. }
  split; [intros sid r; rewrite E1, E2; apply HW|]. split; [done|]. intros d _. constructor; auto.
  - intros sid _. by rewrite E1.
  - intros r o _. by rewrite E2.
  - by rewrite E3.
  - by rewrite E4.
  - by rewrite E5.
  - intros i s. rewrite E6. intros Hs Hc. exists s. auto 6.
Qed.

Lemma drainOne_ok name h : OK None (drainOne name) h.
Proof.
  apply ok_lock. intros h' e B C R _ _ HM HG HA. eapply removeLocked_ok; [exact HM|exact HG|exact HA|].
  intros r h2 HJ. apply ok_Unlock_J; [done|]. intros h3 _ HW3. split; [by apply guar_flag|done].
Qed.

Lemma Close_ok h : OK None Close h.
Proof.
  apply ok_read_free. intros h1 _ _. generalize h1 at 2. induction (map fst (map_to_list (sockets h1))) as [|name l IH]; intros h2.
  - split; [done|]. intros h3 _ HW3 _ h4 _ HW4. split; [by apply guar_flag|done].
  - intros h3 _ HW3. split; [by apply guar_flag|]. split; [apply drainOne_ok|apply IH].
Qed.

(** A session starts in its own container only. *)
Definition placed (id name : bytes) : Prop := home id = name.

Lemma command_ok be p h : command be placed p → OK None p h.
Proof.
  intros [name|name resumeID fresh Hat|sid|name|sid|sid| |sid|].
  - apply Provision_ok.
  - by apply Start_ok.
  - apply Stop_ok.
  - apply Remove_ok.
  - apply Reload_ok.
  - apply RefreshSecrets_ok.
  - apply RefreshConfig_ok.
  - apply Deliver_ok.
  - apply Close_ok.
Qed.

Lemma world_guar h h' : W home h → world_step h h' → guar (W home) mono (rely home) None h h'.
Proof.
  intros HW Hs. revert HW. destruct Hs as [h0 i|h0]; intros HW; [|by apply guar_flag]. assert (mono h0 (update_stream i set_exited h0)) as Hm.
  { split; [|done]. intros j s Hs. destruct (decide (i = j)) as [<-|Hne].
    - exists (set_exited s). by rewrite lookup_update_stream, decide_True, Hs by done.
    - exists s. by rewrite lookup_update_stream, decide_False. }
  split; [exact HW|]. split; [done|]. intros d _. constructor; try done.
  intros j s' Hs' Hc. rewrite lookup_update_stream in Hs'. case_decide; [|exists s'; auto 6].
  destruct (streams h0 !! j) as [s|]; [|done]. injection Hs' as <-. exists s. auto 6.
Qed.

Lemma host_reachable_inv be c :
  reachable world_step (command be placed) NewSessionHost c → inv (W home) mono (rely home) J c.
Proof.
  apply reachable_ok.
  - apply mono_refl.
  - apply mono_trans.
  - apply rely_refl.
  - apply rely_trans.
  - intros d s s'. apply rely_m.
  - apply J_stable.
  - apply world_guar.
  - intros p s. apply command_ok.
  - by intros sid r.
  - intros d. eapply (J_empty home d None None None); [|done|by intros [[? ?]|[? ?]]]. constructor; done.
Qed.

End top.

(** * Obligations *)

(** Somebody still has to see to the exit of process [i]: it is watched, and neither the
    link nor the host is ending. *)
Definition tok (h : agentHost) (i : nat) : Prop := stream_is watched i h = true ∧ cancelled h = false ∧ closing h = false.
Definition due (h : agentHost) (i : nat) : Prop := stream_is exited i h = true.

Notation honest := (@honest agentHost bytes answer result nat tok due).
Notation owes := (@owes agentHost bytes answer result nat tok due).

(** No new obligations: the change adds no watch and takes no flag back. *)
Definition tame (f : agentHost → agentHost) : Prop := ∀ h i, tok (f h) i → tok h i.

Lemma tame_calm f : (∀ h, streams (f h) = streams h ∧ cancelled (f h) = cancelled h ∧ closing (f h) = closing h) → tame f.
Proof. intros Hf h i. destruct (Hf h) as (E1 & E2 & E3). unfold tok, stream_is. by rewrite E1, E2, E3. Qed.

Lemma tame_update i f : (∀ s, watched (f s) = true → watched s = true) → tame (update_stream i f).
Proof.
  intros Hf h j (H1 & H2 & H3). split; [|done]. revert H1. unfold stream_is. rewrite lookup_update_stream. case_decide; [|done].
  destruct (streams h !! j) as [s|]; simpl; auto.
Qed.

Lemma tame_retire_control name sid : tame (retire_control name sid).
Proof. apply tame_calm. intros h. unfold retire_control. by destruct (sockets h !! name). Qed.

Lemma tame_bind_control name sid : tame (bind_control name sid).
Proof. apply tame_calm. intros h. unfold bind_control. by destruct (sockets h !! name). Qed.

Lemma tame_comp f g : tame f → tame g → tame (λ h, f (g h)).
Proof. intros Hf Hg h i H. by apply Hg, Hf. Qed.

Lemma tame_if f g (b : agentHost → bool) : tame f → tame g → tame (λ h, if b h then f h else g h).
Proof. intros Hf Hg h i. destruct (b h); auto. Qed.

Lemma tame_drop_session sid name : tame (drop_session sid name).
Proof. apply (tame_comp (retire_control name sid)); [apply tame_retire_control|by apply tame_calm]. Qed.

Lemma tame_mark sid name only : tame (mark sid name only).
Proof.
  intros h i. unfold mark. destruct (lookup_session sid h) as [[r o]|]; [|done]. case_bool_decide; [|done].
  intros Ht%tame_retire_control. exact Ht.
Qed.

Lemma tame_record_session name sid hd i : tame (record_session name sid hd i).
Proof.
  assert (∀ l h j, tok (foldl (λ h (x : bytes * nat), drop_session x.1 name h) h l) j → tok h j) as Hl.
  { intros l. induction l as [|x l IH]; intros h j; [done|]. simpl. intros Ht%IH. by apply (tame_drop_session x.1 name). }
  intros h j Ht. apply tame_bind_control in Ht. by apply (Hl _ h j) in Ht.
Qed.

Lemma tame_new_stream sid name : tame (new_stream sid name).
Proof.
  intros h i (H1 & H2 & H3). split; [|done]. revert H1. unfold stream_is. simpl.
  destruct (streams h !! i) as [s|] eqn:E; [by rewrite lookup_app_l by (by eapply lookup_lt_Some); rewrite E|].
  destruct ((streams h ++ _) !! i) eqn:E2; [|done]. apply lookup_app_Some in E2 as [E2|[_ E2]]; [congruence|].
  by apply list_lookup_singleton_Some in E2 as [_ <-].
Qed.

Create HintDb tame discriminated.
#[export] Hint Resolve tame_retire_control tame_bind_control tame_drop_session tame_mark tame_record_session tame_new_stream
  : tame.

Lemma honest_crit f k : tame f → (∀ h, honest (k h)) → honest (Crit f k).
Proof. intros Hf Hk h. split; [by apply Hf|done]. Qed.

(** A program built of tame sections, answers and locks is honest. *)
Ltac honest :=
  repeat match goal with
  | |- honest (match ?x with _ => _ end) => destruct x
  | |- honest (if ?x then _ else _) => destruct x
  | |- honest (Crit _ _) => apply honest_crit; [first [solve [eauto with tame] | by apply tame_calm | by apply tame_update]|intros ?]
  | |- honest (Ask _) => intros ?
  | |- honest (Lock _ ?k) => change (honest k)
  | |- honest (Unlock _ ?k) => change (honest k)
  | |- honest (Ret _) => exact Logic.I
  end; auto.

Lemma retireOnExit_honest sid name i : honest (retireOnExit sid name i).
Proof.
  assert (tame (unwatch i)) as Hu by by apply tame_update.
  intros h. assert (tame (λ h, if stream_is stopping i h then unwatch i h else h)) as H1.
  { intros h' j. destruct (stream_is stopping i h'); [apply Hu|done]. }
  assert (tame (λ h, unwatch i (mark sid name (Some i) h))) as H2.
  { intros h' j H%Hu. by eapply tame_mark. }
  honest.
Qed.

Lemma retireOnExit_owes sid name i : owes i (retireOnExit sid name i).
Proof.
  unfold retireOnExit. set (go := Crit (λ h, if stream_is stopping i h then _ else h) _).
  assert (owes i go) as Hgo.
  { intros h (H1 & H2 & H3). destruct (stream_is stopping i h) eqn:Es.
    - exfalso. revert H1. unfold unwatch, stream_is. rewrite lookup_update_stream, decide_True by done. by destruct (streams h !! i).
    - simpl in H2. rewrite H2. simpl. intros h2 (_ & H4 & _). simpl in H4. rewrite H4. intros h3 (H5 & _). exfalso. revert H5.
      unfold unwatch, stream_is. rewrite lookup_update_stream, decide_True by done. by destruct (streams _ !! i). }
  intros h. unfold due. split; [by intros ->|]. intros _ (_ & _ & ->). exact Hgo.
Qed.

Lemma watch_honest sid name i k : honest k → honest (watch sid name i k).
Proof.
  intros Hk. split; [|split; [apply retireOnExit_honest|done]]. intros h j (H1 & H2 & H3).
  destruct (decide (i = j)) as [<-|Hne]; [right; apply retireOnExit_owes|]. left. split; [|done].
  revert H1. unfold stream_is. by rewrite lookup_update_stream, decide_False.
Qed.

Lemma StreamStop_honest i k : (∀ b, honest (k b)) → honest (StreamStop i k).
Proof. intros Hk. unfold StreamStop. honest. Qed.

Lemma Teardown_honest name k : (∀ b, honest (k b)) → honest (Teardown name k).
Proof. intros Hk. unfold Teardown. honest. Qed.

Lemma Launch_honest name k : (∀ b, honest (k b)) → honest (Launch name k).
Proof. intros Hk. unfold Launch. honest. Qed.

Lemma closeSocket_honest name k : honest k → honest (closeSocket name k).
Proof. intros Hk. unfold closeSocket. honest. Qed.

Lemma serveSocket_honest name k : (∀ b, honest (k b)) → honest (serveSocket name k).
Proof. intros Hk. unfold serveSocket. honest. Qed.

Lemma set_config_honest name v k : honest k → honest (set_config name v k).
Proof. intros Hk. unfold set_config. honest. Qed.

Lemma StartAgent_honest sid name k : (∀ b, honest (k b)) → honest (StartAgent sid name k).
Proof. intros Hk. unfold StartAgent. honest. Qed.

Lemma markErrored_honest sid name only k : honest k → honest (markErrored sid name only k).
Proof. intros Hk. unfold markErrored. honest. Qed.

Lemma tame_id : tame id.
Proof. by intros h i. Qed.

#[export] Hint Resolve watch_honest StreamStop_honest Teardown_honest Launch_honest closeSocket_honest serveSocket_honest
  set_config_honest StartAgent_honest markErrored_honest tame_id : tame.

(** The same, past the pieces above. *)
Ltac honestly :=
  repeat match goal with
  | |- honest (StreamStop _ _) => apply StreamStop_honest; intros ?
  | |- honest (Teardown _ _) => apply Teardown_honest; intros ?
  | |- honest (Launch _ _) => apply Launch_honest; intros ?
  | |- honest (serveSocket _ _) => apply serveSocket_honest; intros ?
  | |- honest (StartAgent _ _ _) => apply StartAgent_honest; intros ?
  | |- honest (closeSocket _ _) => apply closeSocket_honest
  | |- honest (set_config _ _ _) => apply set_config_honest
  | |- honest (markErrored _ _ _ _) => apply markErrored_honest
  | |- honest (watch _ _ _ _) => apply watch_honest
  | |- _ => progress honest
  end.

Definition honest_rets (ret : result → prog) : Prop := ∀ r, honest (ret r).

Lemma locked_honest name body : (∀ ret, honest_rets ret → honest (body ret)) → honest (locked name body).
Proof. intros Hb. apply Hb. by intros r. Qed.

Lemma retireContainer_honest name k : honest k → honest (retireContainer name k).
Proof.
  intros Hk. apply honest_crit; [|intros h; honestly].
  intros h i Ht. destruct (find_session name h) as [[[sid r] o]|]; [|done]. by apply (tame_drop_session sid name).
Qed.

Lemma teardownContainer_honest name k : honest k → honest (teardownContainer name k).
Proof. intros Hk. unfold teardownContainer. honestly. Qed.

Lemma provisionFresh_honest be name ret : honest_rets ret → honest (provisionFresh be name ret).
Proof.
  intros Hr. assert (∀ r, honest (teardownContainer name (ret r))) as Ht by (intros r; by apply teardownContainer_honest).
  destruct be; cbn [provisionFresh]; [unfold provisionContainer|unfold provisionVsockGateway|unfold provisionHostGateway]; honestly.
Qed.

Lemma Provision_honest be name : honest (Provision be name).
Proof.
  assert (honest (locked name (provisionLocked be name))) as Hl; [|unfold Provision; honestly].
  apply locked_honest. intros ret Hr. pose proof (provisionFresh_honest be name ret Hr) as Hf.
  assert (honest (replaceStale name (provisionFresh be name ret))) as Hs.
  { apply retireContainer_honest. honestly. }
  unfold provisionLocked. honestly.
Qed.

Lemma Start_honest name resumeID fresh : honest (Start name resumeID fresh).
Proof.
  apply locked_honest. intros ret Hr. unfold startLocked, requireContainer.
  apply honest_crit; [apply tame_id|]. intros h. destruct (registry h !! name) as [hd|]; [|done].
  assert (∀ sid, honest (launchSession name sid resumeID hd ret)) as Hl; [|honestly].
  intros sid. assert (∀ i, honest (recordStarted name sid hd ret i)) as Hrec by (intros i; unfold recordStarted; honestly).
  unfold launchSession, installSecrets, installResume, bindAndStartAgent. honestly.
Qed.

Lemma Stop_honest sid : honest (Stop sid).
Proof.
  apply honest_crit; [apply tame_id|]. intros h. destruct (lookup_session sid h) as [[s o]|]; [|done].
  apply locked_honest. intros ret Hr. unfold stopLocked. honestly.
Qed.

Lemma removeLocked_honest name ret : honest_rets ret → honest (removeLocked name ret).
Proof. intros Hr. apply retireContainer_honest. honestly. Qed.

Lemma reloadLocked_honest sid ret : honest_rets ret → honest (reloadLocked sid ret).
Proof.
  intros Hr. assert (∀ s name, honest (reloadRun sid s name ret)) as Hrun by (intros; unfold reloadRun; honestly).
  assert (∀ s name, honest (relaunch sid s name ret)) as Hre by (intros; unfold relaunch; honestly).
  unfold reloadLocked, requireContainer. honestly.
Qed.

Lemma Reload_honest sid : honest (Reload sid).
Proof.
  apply honest_crit; [apply tame_id|]. intros h. destruct (lookup_session sid h) as [[s o]|]; [|done].
  apply locked_honest. intros ret Hr. by apply reloadLocked_honest.
Qed.

Lemma RefreshSecrets_honest sid : honest (RefreshSecrets sid).
Proof. unfold RefreshSecrets. honestly; apply locked_honest; intros ret Hr; honestly. Qed.

Lemma RefreshConfig_honest be : honest (RefreshConfig be).
Proof.
  apply honest_crit; [apply tame_id|]. intros h. induction (config_targets h) as [|[[sid name] v] l IH]; [done|].
  simpl. unfold refreshOneContainer. set (out := Unlock name _). assert (honest out) as Ho by exact IH.
  assert (∀ v', honest (set_config name v' out)) as Hc by (intros; honestly).
  assert (∀ v', honest (reloadLocked sid (λ r, match r with Done _ => set_config name v' out | Failed _ => out end))) as Hr.
  { intros v'. apply reloadLocked_honest. intros r. by destruct r. }
  destruct be; honestly.
Qed.

Lemma Deliver_honest sid : honest (Deliver sid).
Proof. unfold Deliver. honestly. Qed.

Lemma Close_honest : honest Close.
Proof.
  apply honest_crit; [apply tame_id|]. intros h. induction (map fst (map_to_list (sockets h))) as [|name l IH].
  - intros h2 h3. split; [|done]. by intros i (_ & _ & ?).
  - split; [by left|]. split; [|exact IH]. apply removeLocked_honest. intros r. honestly.
Qed.

Lemma command_honest be at_ p : command be at_ p → honest p.
Proof.
  intros [name|name resumeID fresh Hat|sid|name|sid|sid| |sid|].
  - apply Provision_honest.
  - apply Start_honest.
  - apply Stop_honest.
  - apply locked_honest. intros. by apply removeLocked_honest.
  - apply Reload_honest.
  - apply RefreshSecrets_honest.
  - apply RefreshConfig_honest.
  - apply Deliver_honest.
  - apply Close_honest.
Qed.

(** * What the host guarantees *)

(** The session [sid] is recorded for the container [name]. *)
Definition session_at (name sid : bytes) (o : liveSession) (h : agentHost) : Prop :=
  ∃ r, sessions h !! sid = Some r ∧ objs h !! r = Some o ∧ containerName o = name.

Definition ready_at (name sid : bytes) (i : nat) (h : agentHost) : Prop :=
  ∃ o, session_at name sid o h ∧ state o = READY ∧ stream o = Some i.

(** A container that no operation is working on. *)
Record settled_container (name : bytes) (h : agentHost) : Prop := {
  one_session : ∀ sid o sid' o', session_at name sid o h → session_at name sid' o' h → sid' = sid;
  ready_iff_agent : ∀ sid o, session_at name sid o h → (state o = READY ↔ is_Some (stream o));
  agents_accounted : ∀ i s, streams h !! i = Some s → s_container s = name → exited s = false → lost s = false →
    ready_at name (s_session s) i h;
  control_iff_ready : ∀ b sid, sockets h !! name = Some b → (sid ∈ b ↔ ∃ i, ready_at name sid i h);
  resources_registered : is_Some (sockets h !! name) ∨ is_Some (configVersions h !! name) ∨ (∃ sid o, session_at name sid o h) →
    is_Some (registry h !! name);
}.

Section guarantees.
Context (home : bytes → bytes).

Lemma entry_at c e h sid o : W home h → entry home c e h → session_at c sid o h ↔ ∃ r, e = Some (sid, r, o).
Proof.
  intros HW He. split.
  - intros (r & Hs & Ho & Hc). destruct (HW sid r Hs) as (o' & Ho' & Hh & _). assert (o' = o) as -> by congruence.
    destruct (entry_session home c e sid r h He) as (o2 & -> & Ho2 & _); [congruence|done|]. exists r. by assert (o2 = o) as -> by congruence.
  - intros (r & ->). destruct He as (H1 & H2 & H3 & H4 & H5). exists r. rewrite (H5 sid H1). by case_decide.
Qed.

Lemma J_settled c h : W home h → J home c h → settled_container c h.
Proof.
  intros HW (e & B & C & R & HM & HG & HA).
  assert (∀ sid o, session_at c sid o h ↔ ∃ r, e = Some (sid, r, o)) as Hat.
  { intros. apply entry_at; [done|apply HM]. }
  assert (∀ sid i, ready_at c sid i h ↔ ∃ r o, e = Some (sid, r, o) ∧ state o = READY ∧ stream o = Some i) as Hre.
  { intros sid i. unfold ready_at. setoid_rewrite Hat. naive_solver. }
  constructor.
  - intros sid o sid' o' (r & E)%Hat (r' & E')%Hat. rewrite E in E'. by injection E' as -> -> ->.
  - intros sid o (r & E)%Hat. by apply (good_state _ _ _ _ HG sid r o).
  - intros i s Hs Hc He Hl. destruct (mid_alive _ _ _ _ _ _ _ _ HM i s Hs Hc He) as [Hi|]; [|congruence].
    destruct (entry_stream e) as [j|] eqn:Es; [|by apply not_elem_of_nil in Hi]. apply list_elem_of_singleton in Hi as ->. rename j into i. destruct e as [[[sid r] o]|] eqn:Ee; [|done]. simpl in Es.
    destruct (HA sid r o i eq_refl Es) as [_ (s' & Hs' & <-)]. assert (s' = s) as -> by congruence.
    apply Hre. exists r, o. split; [done|]. split; [|done]. apply (good_state _ _ _ _ HG _ _ _ eq_refl). by eexists.
  - intros b sid Hb. rewrite (mid_sockets _ _ _ _ _ _ _ _ HM) in Hb. rewrite (good_bound _ _ _ _ HG b Hb).
    setoid_rewrite Hre. destruct e as [[[sid' r] o]|]; [|set_solver]. case_decide as Eo.
    + rewrite elem_of_singleton. split; [intros ->|naive_solver].
      destruct (proj1 (good_state _ _ _ _ HG sid' r o eq_refl) Eo) as [i Hi]. exists i, r, o. done.
    + rewrite elem_of_empty. naive_solver.
  - rewrite (mid_sockets _ _ _ _ _ _ _ _ HM), (mid_configs _ _ _ _ _ _ _ _ HM), (mid_registry _ _ _ _ _ _ _ _ HM).
    setoid_rewrite Hat. intros H. apply (good_reg _ _ _ _ HG). destruct H as [?|[?|(? & ? & ? & ->)]]; eauto.
Qed.

End guarantees.

(** C22. When each session id is only ever started in one container ([placed];
    [unplaced_session_orphans] is a run without it), in every interleaving of the host's commands, its watchers and the exits of
    agents: a container whose lock is free has at most one session, which is READY
    exactly when it has an agent; every agent still running in the container is that
    session's, unless a kill of it failed; the control producer of its socket knows
    exactly the READY session; and a container with a socket, a config or a session is
    registered.  And whoever holds a container's lock can go on. *)
Theorem runner_host_invariant home be c :
  reachable world_step (command be (placed home)) NewSessionHost c →
  (∀ name, locks c !! name = None → settled_container name (shared c))
  ∧ (∀ name t, locks c !! name = Some t → ∃ c', thread_step t c c').
Proof.
  intros HI%host_reachable_inv. split.
  - intros name Hn. eapply J_settled; [apply HI|by apply (inv_free _ _ _ _ _ HI)].
  - intros name t Ht. exact (holder_steps _ _ _ _ c name t HI Ht).
Qed.

(** C23. When nothing can move any more, and neither the link nor the host has ended, a
    READY session's agent has not exited, or a kill of it failed: the exit of an agent
    never goes unseen.  Sessions are placed as in the invariant. *)
Theorem agent_exit_seen home be c name sid i :
  reachable world_step (command be (placed home)) NewSessionHost c →
  (∀ t c', ¬ thread_step t c c') → cancelled (shared c) = false → closing (shared c) = false →
  ready_at name sid i (shared c) →
  stream_is exited i (shared c) = false ∨ stream_is lost i (shared c) = true.
Proof.
  intros Hr HN Hca Hcl (o & Hat & Ho & Hi). pose proof (host_reachable_inv home be c Hr) as HI.
  destruct (locks c !! name) as [t|] eqn:El.
  { destruct (holder_steps _ _ _ _ c name t HI El) as [c' Hc']. by destruct (HN t c'). }
  destruct (inv_free _ _ _ _ _ HI name El) as (e & B & C & R & HM & HG & HA).
  apply (entry_at home name e _ sid o (inv_W _ _ _ _ _ HI) (mid_entry _ _ _ _ _ _ _ _ HM)) in Hat as (r & ->).
  destruct (HA sid r o i eq_refl Hi) as [(s & Hs & _ & Hd) _]. unfold stream_is. rewrite Hs.
  destruct Hd as [Hl|(Hst & [Hw|Hc])]; [by right| |congruence]. left.
  assert (covered tok due c) as Hcov.
  { eapply reachable_covered; [..|exact Hr].
    - intros h h' j [h0 k|h0] Ht; [by apply (tame_update k set_exited)|by destruct Ht as (_ & ? & _)].
    - intros p. apply command_honest.
    - by intros j (Hj & _). }
  destruct (exited s) eqn:Ee; [|done]. exfalso. eapply (settled _ _ _ _ tok due c i HI Hcov HN).
  - unfold tok, stream_is. by rewrite Hs.
  - unfold due, stream_is. by rewrite Hs.
Qed.

(** * Concrete runs *)

Definition box : bytes := ["c"%char].
Definition box2 : bytes := ["d"%char].
Definition sess : bytes := ["s"%char].
Definition hd0 : AgentHandle := MkHandle 1000 [].

Notation move := (@move agentHost bytes answer result).

(** Thread [t] acts with each answer in turn. *)
Definition acts (t : nat) (l : list answer) : list move := map (λ a, Act t a (S t)) l.

Definition provision_run (t : nat) (name : bytes) : list move :=
  Call t (Provision Container name) ::
  acts t [Yes; Yes; Yes; Yes; Yes; Text ["v"%char]; Launched hd0; Yes; Yes; Yes; Yes].

Definition start_run (t : nat) (name resumeID fresh : bytes) : list move :=
  Call t (Start name resumeID fresh) :: acts t (replicate 24 Yes).

Definition live_run : list move := provision_run 0 box ++ start_run 1 box [] sess.

Definition live := play_all live_run NewSessionHost.

Lemma allowed_acts env req t l : Forall (allowed env req) (acts t l).
Proof. apply Forall_forall. intros m Hm. apply list_elem_of_fmap in Hm as (a & -> & _). exact Logic.I. Qed.

Lemma live_reachable : reachable world_step (command Container (placed (λ _, box))) NewSessionHost live.
Proof.
  apply play_all_reachable. unfold live_run, provision_run, start_run.
  rewrite Forall_app, !Forall_cons. split; (split; [simpl; by constructor|apply allowed_acts]).
Qed.

Lemma live_ready : ready_at box sess 0 (shared live).
Proof.
  eexists. split; [|split; [|]]; [exists 0%nat; split_and!| |]; vm_compute; reflexivity.
Qed.

Lemma runner_host_invariant_witness :
  reachable world_step (command Container (placed (λ _, box))) NewSessionHost live ∧ settled_container box (shared live).
Proof.
  split; [exact live_reachable|]. apply (proj1 (runner_host_invariant (λ _, box) Container live live_reachable)).
  vm_compute. reflexivity.
Defined.

Lemma agent_exit_seen_witness :
  ready_at box sess 0 (shared live)
  ∧ (stream_is exited 0 (shared live) = false ∨ stream_is lost 0 (shared live) = true).
Proof.
  split; [exact live_ready|]. apply (agent_exit_seen (λ _, box) Container live box sess 0 live_reachable).
  - apply stuck_sound. vm_compute. reflexivity.
  - vm_compute. reflexivity.
  - vm_compute. reflexivity.
  - exact live_ready.
Defined.

(** A [Remove] whose teardown fails closes the socket all the same, so the container stays
    registered and the [Close] that follows, which goes by the sockets, passes over it. *)
Definition leak_run : list move :=
  provision_run 0 box ++ Call 2 (Remove box) :: acts 2 [Yes; Yes; Yes; Err; Yes; Yes]
  ++ Call 4 Close :: acts 4 (replicate 4 Yes).

Lemma close_passes_over :
  let c := play_all leak_run NewSessionHost in
  reachable world_step (command Container (placed (λ _, box))) NewSessionHost c
  ∧ (∀ t c', ¬ thread_step t c c') ∧ closing (shared c) = true ∧ registry (shared c) !! box = Some hd0.
Proof.
  cbv zeta. split; [|split; [|split]].
  - apply play_all_reachable. unfold leak_run, provision_run.
    rewrite Forall_app, !Forall_cons, Forall_app, Forall_cons. repeat split; try apply allowed_acts; simpl; by constructor.
  - apply stuck_sound. vm_compute. reflexivity.
  - vm_compute. reflexivity.
  - vm_compute. reflexivity.
Qed.

(** If the same id is started in a second container, a reload in the first one can come
    between the check of [Start] and its record, and its new agent is orphaned. *)
Definition orphan_run : list move :=
  provision_run 0 box ++ provision_run 10 box2 ++ start_run 1 box [] sess
  ++ World (update_stream 0 set_exited) :: acts 2 (replicate 8 Yes)
  ++ Call 5 (Start box2 sess []) :: acts 5 (replicate 4 Yes)
  ++ Call 7 (Reload sess) :: acts 7 (replicate 24 Yes)
  ++ acts 5 (replicate 30 Yes).

Lemma orphaned name sid i r s o h :
  streams h !! i = Some s → s_container s = name → s_session s = sid → exited s = false → lost s = false →
  sessions h !! sid = Some r → objs h !! r = Some o → containerName o ≠ name → ¬ settled_container name h.
Proof.
  intros H1 H2 <- H3 H4 H5 H6 H7 H. destruct (agents_accounted _ _ H _ _ H1 H2 H3 H4) as (o' & (r' & Hs & Ho & Hc) & _).
  congruence.
Qed.

Lemma unplaced_session_orphans :
  let c := play_all orphan_run NewSessionHost in
  reachable world_step (command Container (λ _ _, True)) NewSessionHost c
  ∧ (∀ t c', ¬ thread_step t c c') ∧ locks c !! box = None ∧ ¬ settled_container box (shared c).
Proof.
  cbv zeta. split; [|split; [|split]].
  - apply play_all_reachable. unfold orphan_run, provision_run, start_run.
    rewrite ?Forall_app, ?Forall_cons, ?Forall_app, ?Forall_cons, ?Forall_app, ?Forall_cons, ?Forall_app.
    repeat split; try apply allowed_acts; simpl; intros; by constructor.
  - apply stuck_sound. vm_compute. reflexivity.
  - vm_compute. reflexivity.
  - apply (orphaned box sess 1 1 (MkStream sess box false false false true)
      (MkSession sess box2 1000 (Some 2%nat) READY [])); [vm_compute; reflexivity..|done].
Qed.

End RunnerHostTop.
