(* ===== verification/RunnerDispatch.v ===== *)
(** The Runner's session-command dispatcher ([src/go/internal/runner/dispatch.go]): the
    receive loop, a goroutine per command, request-id idempotency, the throttle on
    provisions, the coalescing config worker, the error frames, and the shutdown.

    One event is one atomic action: a section under the dispatcher's mutex, a channel
    operation, or the return of a call to the session host or the stream.  The host's
    answers are arguments of the events.  Logging and spans are left out. *)
From stdpp Require Import base list strings gmap.
From Stdlib Require Import Ascii Lia.
From S2P Require Import Prelude Text Utf8.

Module RunnerDispatch.
Import Utf8.

Open Scope nat_scope.

(** * Frames *)

Inductive command :=
| Start (container resumeBody freshSessionID : bytes)
| Provision (req accountID : bytes)
| Stop (sessionID : bytes)
| Remove (containerName : bytes)
| Reload (sessionID : bytes)
| Status (sessionID : bytes)
| SecretsVersion (sessionID : bytes)
| ConfigVersion
| DeliverControl (sessionID op : bytes)
| Unrecognized
| MissingVariant.

Record SessionsResponse := MkCommand { GetRequestId : bytes; GetCommand : command }.

(** The sentinels that [errors.Is] is asked for. *)
Inductive sentinel :=
| errAlreadyRunning | errAlreadyProvisioned | errSessionUnknown | errContainerGone | errFreshSessionIDMissing
| errTooManySessions | ErrOperatorConfig.

#[export] Instance sentinel_eq_dec : EqDecision sentinel.
Proof. solve_decision. Defined.

(** An error with what it wraps, and its text. *)
Record goError := MkError { wraps : list sentinel; Error : bytes }.

Definition Is (e : goError) (s : sentinel) : bool := bool_decide (s ∈ wraps e).

Inductive RunnerErrorCode := INTERNAL | ALREADY_RUNNING | NOT_FOUND | FAILED_PRECONDITION.

Inductive resultBody :=
| RStart (sessionID : bytes)
| RProvision (containerName : bytes)
| RStop
| RRemove
| RReload (sessionID : bytes)
| RStatus (statuses : list bytes)
| RError (code : RunnerErrorCode) (message : bytes).

Record SessionsRequest := MkResult { RequestId : bytes; Result : resultBody }.

(** ** Error frames *)

Definition maxRunnerErrorMessageBytes : nat := 4096.

(** An ellipsis and " (truncated)". *)
Definition truncatedMarker : bytes := byte_seq [226; 128; 166]%nat ++ lit " (truncated)".
Definition replacementRune : bytes := byte_seq [239; 191; 189]%nat.

(** [None]: an index out of range. *)
Definition truncateMessage (msg : bytes) : option bytes :=
  let msg := ToValidUTF8 msg replacementRune in
  if length msg <=? maxRunnerErrorMessageBytes then Some msg
  else match back_to_start msg (maxRunnerErrorMessageBytes - length truncatedMarker) with
       | Some cut => Some (take cut msg ++ truncatedMarker)
       | None => None
       end.

Definition errorCode (e : goError) : RunnerErrorCode :=
  if Is e errAlreadyRunning || Is e errAlreadyProvisioned then ALREADY_RUNNING
  else if Is e errSessionUnknown || Is e errContainerGone then NOT_FOUND
  else if Is e errFreshSessionIDMissing || Is e ErrOperatorConfig || Is e errTooManySessions then FAILED_PRECONDITION
  else INTERNAL.

(** The cut cannot fail ([truncateMessage_exact]), so the default is never taken. *)
Definition errorResult (id : bytes) (e : goError) : SessionsRequest :=
  MkResult id (RError (errorCode e) (default [] (truncateMessage (Error e)))).

(** ** Execution *)

(** What the host returns. *)
Inductive hostAnswer := HostErr (e : goError) | HostOk (v : bytes) | HostStatuses (l : list bytes).

Definition maxStatusEntries : nat := 4096.

Definition plainError (s : string) : goError := MkError [] (lit s).

Definition tooManySessions (n : nat) : goError :=
  MkError [errTooManySessions]
    (lit "runner holds more sessions than one status reply carries: " ++ FormatUint (N.of_nat n) ++ lit " > "
     ++ FormatUint (N.of_nat maxStatusEntries)).

(** The host is called for this command. *)
Definition calls_host (c : command) : bool :=
  match c with ConfigVersion | Unrecognized | MissingVariant => false | _ => true end.

(** [execute] without a call of the host; [ConfigVersion] is handled by the loop. *)
Definition execute_plain (id : bytes) (c : command) : option SessionsRequest :=
  match c with
  | MissingVariant => Some (errorResult id (plainError "sessions stream: command frame missing command variant"))
  | Unrecognized => Some (errorResult id (plainError "unrecognized session command variant"))
  | _ => None
  end.

(** [execute] from the host's answer on. *)
Definition execute_reply (id : bytes) (c : command) (a : hostAnswer) : option SessionsRequest :=
  match c, a with
  | SecretsVersion _, _ => None
  | _, HostErr e => Some (errorResult id e)
  | Start _ _ _, HostOk v => Some (MkResult id (RStart v))
  | Provision _ _, HostOk v => Some (MkResult id (RProvision v))
  | Stop _, _ => Some (MkResult id RStop)
  | Remove _, _ => Some (MkResult id RRemove)
  | Reload sid, _ => Some (MkResult id (RReload sid))
  | Status _, HostStatuses l =>
      if maxStatusEntries <? length l then Some (errorResult id (tooManySessions (length l)))
      else Some (MkResult id (RStatus l))
  | _, _ => None
  end.

(** * State *)

Definition provisionConcurrency : nat := 8.

(** Where a command's goroutine stands; [e] is the dedup entry it owns or joins. *)
Inductive phase :=
| Handling (cmd : SessionsResponse)
| Refreshing (cmd : SessionsResponse)
| Joining (e : nat)
| Acquiring (e : nat) (cmd : SessionsResponse)
| Hosting (e : nat) (cmd : SessionsResponse)
| Releasing (e : nat) (r : option SessionsRequest)
| Finishing (e : nat) (r : option SessionsRequest)
| Sending (r : SessionsRequest)
| Gone.

Inductive workerPhase := Selecting | Passing | Exited.

Inductive cause := Canceled | DeadlineExceeded | SendFailed.

#[export] Instance cause_eq_dec : EqDecision cause.
Proof. solve_decision. Defined.

(** The loop: before the bootstrap frame, receiving, joining its goroutines, returned. *)
Inductive outcome := ReturnNil | ReturnCause (c : cause) | ReturnErr.
Inductive loopPhase := Opening | Receiving | Unwinding (o : outcome) | Returned (o : outcome).

(** [handled] maps an id to its entry; an entry is open until its result is set.  Of the
    model only: [calls], the correlated host calls made; [sent], the frames sent;
    [signals] and [seen], the config signals received and those before the last pass. *)
Record dispatcher := MkDispatcher {
  handled : gmap bytes nat;
  entries : list (option (option SessionsRequest));
  configSignal : bool;
  worker : workerPhase;
  slots : nat;
  done : option cause;
  goroutines : list phase;
  loop : loopPhase;
  calls : list (bytes * command);
  sent : list SessionsRequest;
  signals : nat;
  seen : nat;
}.

Definition newDispatcher : dispatcher := MkDispatcher ∅ [] false Selecting 0 None [] Opening [] [] 0 0.

Definition set_phase (t : nat) (p : phase) (d : dispatcher) : dispatcher :=
  MkDispatcher (handled d) (entries d) (configSignal d) (worker d) (slots d) (done d) (<[t := p]> (goroutines d)) (loop d)
    (calls d) (sent d) (signals d) (seen d).
Definition set_slots (n : nat) (d : dispatcher) : dispatcher :=
  MkDispatcher (handled d) (entries d) (configSignal d) (worker d) n (done d) (goroutines d) (loop d)
    (calls d) (sent d) (signals d) (seen d).
Definition set_loop (l : loopPhase) (d : dispatcher) : dispatcher :=
  MkDispatcher (handled d) (entries d) (configSignal d) (worker d) (slots d) (done d) (goroutines d) l
    (calls d) (sent d) (signals d) (seen d).
Definition spawn (p : phase) (d : dispatcher) : dispatcher :=
  MkDispatcher (handled d) (entries d) (configSignal d) (worker d) (slots d) (done d) (goroutines d ++ [p]) (loop d)
    (calls d) (sent d) (signals d) (seen d).
Definition log_call (id : bytes) (c : command) (d : dispatcher) : dispatcher :=
  MkDispatcher (handled d) (entries d) (configSignal d) (worker d) (slots d) (done d) (goroutines d) (loop d)
    (calls d ++ [(id, c)]) (sent d) (signals d) (seen d).
Definition log_sent (r : SessionsRequest) (d : dispatcher) : dispatcher :=
  MkDispatcher (handled d) (entries d) (configSignal d) (worker d) (slots d) (done d) (goroutines d) (loop d)
    (calls d) (sent d ++ [r]) (signals d) (seen d).

(** The context's cause is the first one given. *)
Definition cancelCause (c : cause) (d : dispatcher) : dispatcher :=
  MkDispatcher (handled d) (entries d) (configSignal d) (worker d) (slots d)
    (match done d with Some c0 => Some c0 | None => Some c end) (goroutines d) (loop d) (calls d) (sent d) (signals d) (seen d).

(** [signalConfig], counted. *)
Definition signalConfig (d : dispatcher) : dispatcher :=
  MkDispatcher (handled d) (entries d) true (worker d) (slots d) (done d) (goroutines d) (loop d)
    (calls d) (sent d) (S (signals d)) (seen d).

(** The new entry of an id, and its result. *)
Definition new_entry (id : bytes) (d : dispatcher) : dispatcher :=
  MkDispatcher (<[id := length (entries d)]> (handled d)) (entries d ++ [None]) (configSignal d) (worker d) (slots d) (done d)
    (goroutines d) (loop d) (calls d) (sent d) (signals d) (seen d).
Definition close_entry (e : nat) (r : option SessionsRequest) (d : dispatcher) : dispatcher :=
  MkDispatcher (handled d) (<[e := Some r]> (entries d)) (configSignal d) (worker d) (slots d) (done d)
    (goroutines d) (loop d) (calls d) (sent d) (signals d) (seen d).

(** The goroutine goes on with a result: it sends it, if there is one. *)
Definition deliver (r : option SessionsRequest) : phase := match r with Some f => Sending f | None => Gone end.

(** * Events *)

(** [execute] up to the host call, by the owner of the entry [e]. *)
Definition execute (t e : nat) (cmd : SessionsResponse) (d : dispatcher) : dispatcher :=
  let id := GetRequestId cmd in
  match GetCommand cmd with
  | Provision _ _ => set_phase t (Acquiring e cmd) d
  | c => if calls_host c then set_phase t (Hosting e cmd) (log_call id c d)
         else set_phase t (Finishing e (execute_plain id c)) d
  end.

(** [handle]: join the entry of the id, or create it and execute. *)
Definition handle (t : nat) (cmd : SessionsResponse) (d : dispatcher) : dispatcher :=
  match GetCommand cmd with
  | SecretsVersion _ => set_phase t (Refreshing cmd) d
  | ConfigVersion => set_phase t Gone (signalConfig d)
  | _ =>
      match handled d !! GetRequestId cmd with
      | Some e => set_phase t (Joining e) d
      | None => execute t (length (entries d)) cmd (new_entry (GetRequestId cmd) d)
      end
  end.

(** The way a [select] goes when both of its cases are ready. *)
Inductive choice := First | Context.

Definition is_done (d : dispatcher) : bool := bool_decide (is_Some (done d)).

(** [ctx.Err()] of a done context: only a deadline of the parent is not a cancellation. *)
Definition ctxErr (d : dispatcher) : goError :=
  plainError (match done d with Some DeadlineExceeded => "context deadline exceeded" | _ => "context canceled" end).

(** One step of goroutine [t]; [a] answers the host, [ok] the send. *)
Definition goroutine_step (t : nat) (ch : choice) (a : hostAnswer) (ok : bool) (d : dispatcher) : option dispatcher :=
  match goroutines d !! t with
  | Some (Handling cmd) => Some (handle t cmd d)
  | Some (Refreshing _) => Some (set_phase t Gone d)
  | Some (Joining e) =>
      match ch, entries d !! e with
      | First, Some (Some r) => Some (set_phase t (deliver r) d)
      | Context, _ => if is_done d then Some (set_phase t Gone d) else None
      | _, _ => None
      end
  | Some (Acquiring e cmd) =>
      match ch with
      | First =>
          if slots d <? provisionConcurrency then
            Some (set_phase t (Hosting e cmd) (log_call (GetRequestId cmd) (GetCommand cmd) (set_slots (S (slots d)) d)))
          else None
      | Context =>
          if is_done d then Some (set_phase t (Finishing e (Some (errorResult (GetRequestId cmd) (ctxErr d)))) d)
          else None
      end
  | Some (Hosting e cmd) =>
      let r := execute_reply (GetRequestId cmd) (GetCommand cmd) a in
      Some (set_phase t (match GetCommand cmd with Provision _ _ => Releasing e r | _ => Finishing e r end) d)
  | Some (Releasing e r) => Some (set_phase t (Finishing e r) (set_slots (slots d - 1) d))
  | Some (Finishing e r) => Some (set_phase t (deliver r) (close_entry e r d))
  | Some (Sending r) =>
      if ok then Some (set_phase t Gone (log_sent r d)) else Some (set_phase t Gone (cancelCause SendFailed d))
  | Some Gone | None => None
  end.

(** [runConfigWorker]: take a signal and pass, end a pass, or leave. *)
Definition worker_step (ch : choice) (d : dispatcher) : option dispatcher :=
  let set b w s := MkDispatcher (handled d) (entries d) b w (slots d) (done d) (goroutines d) (loop d) (calls d) (sent d)
    (signals d) s in
  match worker d, ch with
  | Selecting, First => if configSignal d then Some (set false Passing (signals d)) else None
  | Selecting, Context => if is_done d then Some (set (configSignal d) Exited (seen d)) else None
  | Passing, _ => Some (set (configSignal d) Selecting (seen d))
  | Exited, _ => None
  end.

(** What [Receive] returns. *)
Inductive received := Got (cmd : SessionsResponse) | EOF | ReceiveErr.

Definition exit_outcome (d : dispatcher) (eof : bool) : outcome :=
  match done d with
  | Some c => if bool_decide (c = Canceled) then ReturnNil else ReturnCause c
  | None => if eof then ReturnNil else ReturnErr
  end.

(** [runSessions]: the bootstrap frame, the loop, and the deferred joins. *)
Definition loop_step (opened : bool) (m : received) (d : dispatcher) : option dispatcher :=
  match loop d with
  | Opening => if opened then Some (set_loop Receiving d) else Some (set_loop (Unwinding ReturnErr) (cancelCause Canceled d))
  | Receiving =>
      match m with
      | Got cmd =>
          Some (match GetCommand cmd with ConfigVersion => signalConfig d | _ => spawn (Handling cmd) d end)
      | EOF => Some (set_loop (Unwinding (exit_outcome d true)) (cancelCause Canceled d))
      | ReceiveErr => Some (set_loop (Unwinding (exit_outcome d false)) (cancelCause Canceled d))
      end
  | Unwinding o =>
      if forallb (λ p, match p with Gone => true | _ => false end) (goroutines d) then
        match worker d with Exited => Some (set_loop (Returned o) d) | _ => None end
      else None
  | Returned _ => None
  end.

Inductive event :=
| Goroutine (t : nat) (ch : choice) (a : hostAnswer) (ok : bool)
| Worker (ch : choice)
| Loop (opened : bool) (m : received)
| ParentDone (c : cause).

Definition step (ev : event) (d : dispatcher) : option dispatcher :=
  match ev with
  | Goroutine t ch a ok => goroutine_step t ch a ok d
  | Worker ch => worker_step ch d
  | Loop opened m => loop_step opened m d
  | ParentDone c => Some (cancelCause c d)
  end.

(** A history; the events that are not possible are skipped. *)
Definition play (evs : list event) : dispatcher := foldl (λ d ev, default d (step ev d)) newDispatcher evs.

(** * Error frames *)

(** The text of an error frame is valid UTF-8 of at most 4096 bytes, and computing it
    never panics: a valid text within the bound is kept, a longer text keeps all but the
    room of the marker and at most three bytes of a cut rune, an invalid one is repaired
    first. *)
Theorem truncateMessage_exact msg :
  ∃ out, truncateMessage msg = Some out ∧ valid out ∧ length out ≤ maxRunnerErrorMessageBytes
  ∧ (valid msg → length msg ≤ maxRunnerErrorMessageBytes → out = msg)
  ∧ (let fixed := ToValidUTF8 msg replacementRune in
     out = fixed ∨ (maxRunnerErrorMessageBytes < length fixed ∧ ∃ n,
       out = take n fixed ++ truncatedMarker ∧ n + length truncatedMarker ≤ maxRunnerErrorMessageBytes < n + length truncatedMarker + 4)).
Proof.
  unfold truncateMessage. cbv zeta. set (fixed := ToValidUTF8 msg replacementRune).
  assert (valid fixed) as HV by (apply ToValidUTF8_valid, valid_bool; reflexivity).
  assert (length truncatedMarker = 15) as HM by reflexivity.
  assert (valid truncatedMarker) as HVM by (apply valid_bool; reflexivity).
  assert (valid msg → fixed = msg) as Hid by apply ToValidUTF8_id.
  destruct (length fixed <=? maxRunnerErrorMessageBytes) eqn:E.
  - apply Nat.leb_le in E. exists fixed. auto 6.
  - apply Nat.leb_gt in E. assert (maxRunnerErrorMessageBytes = 4096) as HB by reflexivity.
    destruct (back_to_start_spec fixed (maxRunnerErrorMessageBytes - length truncatedMarker) HV) as (j & -> & Hj & Hv & _); [lia|].
    exists (take j fixed ++ truncatedMarker). split; [done|]. split; [by apply valid_app|].
    rewrite length_app, length_take_le by lia. split; [lia|]. split; [intros Hm Hl; rewrite (Hid Hm) in E; lia|].
    right. split; [done|]. exists j. split; [done|lia].
Qed.

Lemma truncateMessage_exact_witness :
  valid (lit "boom") ∧ truncateMessage (lit "boom") = Some (lit "boom").
Proof.
  assert (valid (lit "boom")) as HV by (apply valid_bool; reflexivity).
  split; [done|]. destruct (truncateMessage_exact (lit "boom")) as (out & -> & _ & _ & Hid & _).
  f_equal. apply Hid; [done|]. vm_compute. lia.
Defined.

(** * Invariants *)

Definition owner (p : phase) : option nat :=
  match p with Acquiring e _ | Hosting e _ | Releasing e _ | Finishing e _ => Some e | _ => None end.

(** The goroutine holds a slot of the provision semaphore. *)
Definition holds (p : phase) : bool :=
  match p with Hosting _ cmd => match GetCommand cmd with Provision _ _ => true | _ => false end | Releasing _ _ => true | _ => false end.

Definition recorded (d : dispatcher) (r : SessionsRequest) : Prop :=
  ∃ e, handled d !! RequestId r = Some e ∧ entries d !! e = Some (Some (Some r)).

(** What a goroutine's phase says of the shared state. *)
Definition fits (d : dispatcher) (p : phase) : Prop :=
  match p with
  | Acquiring e cmd => handled d !! GetRequestId cmd = Some e ∧ GetRequestId cmd ∉ (calls d).*1 ∧ holds (Hosting e cmd) = true
  | Hosting e cmd => handled d !! GetRequestId cmd = Some e
  | Releasing e r | Finishing e r => ∀ f, r = Some f → handled d !! RequestId f = Some e
  | Sending r => recorded d r
  | _ => True
  end.

Record inv (d : dispatcher) : Prop := {
  inv_handled : ∀ id e, handled d !! id = Some e → e < length (entries d);
  inv_inj : ∀ id id' e, handled d !! id = Some e → handled d !! id' = Some e → id = id';
  inv_closed : ∀ e r, entries d !! e = Some (Some (Some r)) → handled d !! RequestId r = Some e;
  inv_calls : ∀ id, id ∈ (calls d).*1 → is_Some (handled d !! id);
  inv_once : NoDup (calls d).*1;
  inv_sent : ∀ r, r ∈ sent d → recorded d r;
  inv_fits : ∀ t p, goroutines d !! t = Some p → fits d p;
  inv_open : ∀ t p e, goroutines d !! t = Some p → owner p = Some e → entries d !! e = Some None;
  inv_owner : ∀ t t' p p' e, goroutines d !! t = Some p → goroutines d !! t' = Some p' → owner p = Some e → owner p' = Some e → t = t';
  inv_slots : slots d = length (filter (λ p, holds p = true) (goroutines d));
  inv_cap : slots d ≤ provisionConcurrency;
  inv_seen : seen d ≤ signals d;
  inv_signal : configSignal d = bool_decide (seen d < signals d);
  inv_worker : worker d = Exited → is_Some (done d);
  inv_loop : match loop d with Unwinding _ | Returned _ => is_Some (done d) | _ => True end;
}.

Lemma execute_reply_id id c a f : execute_reply id c a = Some f → RequestId f = id.
Proof. destruct c, a; simpl; try case_match; by intros [= <-]. Qed.

Lemma execute_plain_id id c f : execute_plain id c = Some f → RequestId f = id.
Proof. destruct c; simpl; by intros [= <-]. Qed.

Definition count_holds (l : list phase) : nat := length (filter (λ p, holds p = true) l).

Lemma count_holds_insert l t p q :
  l !! t = Some p → count_holds (<[t := q]> l) + (if holds p then 1 else 0) = count_holds l + (if holds q then 1 else 0).
Proof.
  intros Ht. rewrite <- (take_drop_middle l t p Ht) at 2. rewrite (insert_take_drop _ _ _ (lookup_lt_Some _ _ _ Ht)).
  unfold count_holds. rewrite !filter_app, !filter_cons, !length_app.
  destruct (holds p) eqn:Ep, (holds q) eqn:Eq; repeat (case_decide; try congruence); simpl; lia.
Qed.

(** The part of the invariant that does not speak of goroutines. *)
Record shared_inv (d : dispatcher) : Prop := {
  sh_handled : ∀ id e, handled d !! id = Some e → e < length (entries d);
  sh_inj : ∀ id id' e, handled d !! id = Some e → handled d !! id' = Some e → id = id';
  sh_closed : ∀ e r, entries d !! e = Some (Some (Some r)) → handled d !! RequestId r = Some e;
  sh_calls : ∀ id, id ∈ (calls d).*1 → is_Some (handled d !! id);
  sh_once : NoDup (calls d).*1;
  sh_sent : ∀ r, r ∈ sent d → recorded d r;
  sh_cap : slots d ≤ provisionConcurrency;
  sh_seen : seen d ≤ signals d;
  sh_signal : configSignal d = bool_decide (seen d < signals d);
  sh_worker : worker d = Exited → is_Some (done d);
  sh_loop : match loop d with Unwinding _ | Returned _ => is_Some (done d) | _ => True end;
}.

Lemma inv_shared d : inv d → shared_inv d.
Proof. intros []. by constructor. Qed.

(** One goroutine goes from [p] to [q] while the shared state changes. *)
Lemma disp_act d d' t p q :
  inv d → goroutines d !! t = Some p → goroutines d' = <[t := q]> (goroutines d) → shared_inv d' →
  (∀ u p', u ≠ t → goroutines d !! u = Some p' → fits d' p' ∧ ∀ e, owner p' = Some e → entries d' !! e = Some None) →
  fits d' q →
  (∀ e, owner q = Some e → entries d' !! e = Some None ∧ (owner p = Some e ∨ ∀ u p', goroutines d !! u = Some p' → owner p' ≠ Some e)) →
  slots d' + (if holds p then 1 else 0) = slots d + (if holds q then 1 else 0) → inv d'.
Proof.
  intros HI Ht Hg [] Hothers Hq Ho Hs. pose proof (lookup_lt_Some _ _ _ Ht) as Hlt.
  assert (∀ u p', goroutines d' !! u = Some p' → (u = t ∧ p' = q) ∨ (u ≠ t ∧ goroutines d !! u = Some p')) as Hcase.
  { intros u p'. rewrite Hg. destruct (decide (u = t)) as [->|Hne].
    - rewrite list_lookup_insert_eq by done. intros [= <-]. by left.
    - rewrite list_lookup_insert_ne by done. by right. }
  constructor; try done.
  - intros u p' [[-> ->]|[Hu Hp]]%Hcase; [done|by eapply Hothers].
  - intros u p' e [[-> ->]|[Hu Hp]]%Hcase He; [by apply Ho|by eapply Hothers].
  - intros u u' p1 p2 e [[-> ->]|[Hu Hp]]%Hcase [[-> ->]|[Hu' Hp']]%Hcase H1 H2; [done| | |by eapply (inv_owner _ HI)].
    + destruct (Ho e H1) as [_ [H|H]]; [by eapply (inv_owner _ HI); [exact Ht|exact Hp'|..]|by destruct (H _ _ Hp')].
    + destruct (Ho e H2) as [_ [H|H]]; [by eapply (inv_owner _ HI); [exact Hp|exact Ht|..]|by destruct (H _ _ Hp)].
  - rewrite Hg. pose proof (count_holds_insert _ _ _ q Ht) as Hc. unfold count_holds in Hc. rewrite (inv_slots _ HI) in Hs. lia.
Qed.

(** The same when the shared state, the slots apart, stays. *)
Lemma disp_move d t p q n :
  inv d → goroutines d !! t = Some p → fits d q → (∀ e, owner q = Some e → owner p = Some e) →
  n + (if holds p then 1 else 0) = slots d + (if holds q then 1 else 0) → n ≤ provisionConcurrency →
  inv (set_phase t q (set_slots n d)).
Proof.
  intros HI Ht Hq Ho Hs Hn. eapply (disp_act d _ t p q); [done..| | | | |done].
  - destruct (inv_shared d HI). by constructor.
  - intros u p' Hu Hp. split; [by eapply (inv_fits _ HI)|]. intros e He. by eapply (inv_open _ HI).
  - exact Hq.
  - intros e He. split; [eapply (inv_open _ HI); [exact Ht|by apply Ho]|left; by apply Ho].
Qed.

Lemma set_slots_same d : set_slots (slots d) d = d.
Proof. by destruct d. Qed.

Lemma inv_phase d t p q :
  inv d → goroutines d !! t = Some p → fits d q → (∀ e, owner q = Some e → owner p = Some e) → holds p = holds q →
  inv (set_phase t q d).
Proof.
  intros HI Ht Hq Ho Hs. rewrite <- (set_slots_same d). eapply disp_move; [done..| |by apply (inv_cap _ HI)]. by rewrite Hs.
Qed.

Lemma lookup_new_entry d id id' e :
  handled d !! id = None → handled d !! id' = Some e → handled (new_entry id d) !! id' = Some e.
Proof. intros Hn He. simpl. rewrite lookup_insert_ne; [done|]. congruence. Qed.

Lemma recorded_new_entry d id r : handled d !! id = None → recorded d r → recorded (new_entry id d) r.
Proof.
  intros Hn (e & H1 & H2). exists e. split; [by apply lookup_new_entry|]. simpl. by apply lookup_app_l_Some.
Qed.

Lemma fits_new_entry d id p : handled d !! id = None → fits d p → fits (new_entry id d) p.
Proof.
  intros Hn. destruct p; simpl; try done.
  - intros [H1 H2]. split; [by apply lookup_new_entry|done].
  - by apply lookup_new_entry.
  - intros H f Hf. apply lookup_new_entry; auto.
  - intros H f Hf. apply lookup_new_entry; auto.
  - by apply recorded_new_entry.
Qed.

Lemma shared_new_entry d id : shared_inv d → handled d !! id = None → shared_inv (new_entry id d).
Proof.
  intros [] Hn. constructor; try done.
  - simpl. intros id' e. rewrite length_app. simpl. destruct (decide (id = id')) as [<-|Hne].
    + rewrite lookup_insert_eq. intros [= <-]. lia.
    + rewrite lookup_insert_ne by done. intros H%sh_handled0. lia.
  - simpl. assert (∀ i, id ≠ i → handled d !! i = Some (length (entries d)) → False) as Hlt.
    { intros i _ Hi%sh_handled0. lia. }
    intros i j e. destruct (decide (id = i)) as [<-|Hi], (decide (id = j)) as [<-|Hj];
      rewrite ?lookup_insert_eq, ?lookup_insert_ne by done; try done.
    + intros [= <-] H. by destruct (Hlt j).
    + intros H [= <-]. by destruct (Hlt i).
    + by apply sh_inj0.
  - simpl. intros e r [H|[_ H]]%lookup_app_Some.
    + apply sh_closed0 in H. rewrite lookup_insert_ne; [done|]. congruence.
    + by apply list_lookup_singleton_Some in H as [_ ?].
  - simpl. intros i [e Hi]%sh_calls0. exists e. rewrite lookup_insert_ne; [done|]. congruence.
  - intros r Hr. apply recorded_new_entry; [done|by apply sh_sent0].
Qed.

Lemma shared_log_call d id c : shared_inv d → is_Some (handled d !! id) → id ∉ (calls d).*1 → shared_inv (log_call id c d).
Proof.
  intros [] Hn Hc. constructor; try done; simpl; rewrite fmap_app; simpl.
  - intros i [H|H]%elem_of_app; [by apply sh_calls0|]. by apply list_elem_of_singleton in H as ->.
  - apply NoDup_app. split; [done|]. split; [|apply NoDup_singleton]. intros x Hx Hy. apply list_elem_of_singleton in Hy. congruence.
Qed.

Lemma fits_log_call d id c p : (∀ e cmd, p = Acquiring e cmd → GetRequestId cmd ≠ id) → fits d p → fits (log_call id c d) p.
Proof.
  intros Hne. destruct p; simpl; try done. intros (H1 & H2 & H3). split; [done|]. split; [|done]. rewrite fmap_app. simpl.
  intros [H|H]%elem_of_app; [done|]. apply list_elem_of_singleton in H. by eapply Hne.
Qed.

Lemma inv_execute d t cmd :
  inv d → goroutines d !! t = Some (Handling cmd) → handled d !! GetRequestId cmd = None →
  inv (execute t (length (entries d)) cmd (new_entry (GetRequestId cmd) d)).
Proof.
  intros HI Ht Hn. set (id := GetRequestId cmd) in *. set (d1 := new_entry id d). set (e := length (entries d)).
  assert (shared_inv d1) as HS by (apply shared_new_entry; [by apply inv_shared|done]).
  assert (handled d1 !! id = Some e) as Hid by apply lookup_insert_eq.
  assert (id ∉ (calls d).*1) as Hnc by (intros [? Hc]%(inv_calls _ HI); congruence).
  assert (entries d1 !! e = Some None) as He by by apply list_lookup_middle.
  assert (∀ u p' e', goroutines d !! u = Some p' → owner p' = Some e' → entries d1 !! e' = Some None) as Hopen.
  { intros u p' e' Hu Ho. simpl. apply lookup_app_l_Some. by eapply (inv_open _ HI). }
  assert (∀ u p', goroutines d !! u = Some p' → owner p' ≠ Some e) as Hfresh.
  { intros u p' Hu Ho. apply (inv_open _ HI u p' e Hu), lookup_lt_Some in Ho. subst e. lia. }
  assert (∀ q, fits d1 q → holds q = false → owner q = Some e → inv (set_phase t q d1)) as Hplain.
  { intros q Hq Hh Hqo. eapply (disp_act d _ t (Handling cmd) q HI Ht); try done.
    - destruct HS. by constructor.
    - intros u p' _ Hu. split; [|intros e2' He2'; by apply (Hopen u p')].
      assert (fits d1 p') as Hf by (apply fits_new_entry; [done|by eapply (inv_fits _ HI)]). by destruct p'.
    - intros e' E. rewrite Hqo in E. injection E as <-. split; [done|]. by right.
    - rewrite Hh. simpl. lia. }
  assert (∀ c, c = GetCommand cmd → holds (Hosting e cmd) = false → inv (set_phase t (Hosting e cmd) (log_call id c d1))) as Hhost.
  { intros c Hc Hh. eapply (disp_act d _ t (Handling cmd) (Hosting e cmd) HI Ht); try done.
    - destruct (shared_log_call d1 id c HS); [by eexists|done|]. by constructor.
    - intros u p' _ Hu. split; [|intros e2' He2'; by apply (Hopen u p')].
      assert (fits (log_call id c d1) p') as Hf; [|by destruct p'].
      apply fits_log_call; [|apply fits_new_entry; [done|by eapply (inv_fits _ HI)]].
      intros e2 cmd2 -> E. destruct (inv_fits _ HI u _ Hu) as [H _]. congruence.
    - intros e' [= <-]. split; [done|]. by right.
    - rewrite Hh. simpl. lia. }
  unfold execute. fold id. destruct (GetCommand cmd) eqn:Ec; simpl; try (by apply Hhost; [done|simpl; rewrite Ec]);
    apply Hplain; simpl; try done; first [by intros f [= <-] | by rewrite Ec].
Qed.

Lemma inv_spawn d p : inv d → fits d p → owner p = None → holds p = false → inv (spawn p d).
Proof.
  intros HI Hf Ho Hh.
  assert (∀ u p', (goroutines d ++ [p]) !! u = Some p' → goroutines d !! u = Some p' ∨ p' = p) as Hc.
  { intros u p' [H|[_ H]]%lookup_app_Some; [by left|]. apply list_lookup_singleton_Some in H as [_ <-]. by right. }
  destruct HI. constructor; try done.
  - intros u p' [H| ->]%Hc; [|by destruct p]. apply inv_fits0 in H. by destruct p'.
  - intros u p' e [H| ->]%Hc; [|congruence]. by apply (inv_open0 u).
  - simpl. intros u u' p1 p2 e H1 H2 Ho1 Ho2. destruct (Hc _ _ H1) as [G1| ->]; [|congruence]. destruct (Hc _ _ H2) as [G2| ->]; [|congruence].
    by eapply inv_owner0.
  - simpl. rewrite filter_app, filter_cons, decide_False by congruence. simpl. by rewrite app_nil_r.
Qed.

Lemma fits_calm d d' p : handled d' = handled d → entries d' = entries d → calls d' = calls d → fits d p → fits d' p.
Proof. intros E1 E2 E3. destruct p; simpl; unfold recorded; rewrite ?E1, ?E2, ?E3; done. Qed.

(** Changes of the config signal, the worker, the context and the loop. *)
Lemma inv_calm d d' :
  inv d → handled d' = handled d → entries d' = entries d → calls d' = calls d → goroutines d' = goroutines d → slots d' = slots d →
  sent d' = sent d → seen d' ≤ signals d' → configSignal d' = bool_decide (seen d' < signals d') →
  (worker d' = Exited → is_Some (done d')) → match loop d' with Unwinding _ | Returned _ => is_Some (done d') | _ => True end →
  inv d'.
Proof.
  intros HI E1 E2 E3 E4 E5 E6 H1 H2 H3 H4. pose proof (fits_calm d d') as HF. destruct HI.
  constructor; rewrite ?E1, ?E2, ?E3, ?E4, ?E5, ?E6; try done; unfold recorded; rewrite ?E1, ?E2; try done.
  intros t p Hp. apply HF; auto. by eapply inv_fits0.
Qed.

Lemma inv_handle d t cmd : inv d → goroutines d !! t = Some (Handling cmd) → inv (handle t cmd d).
Proof.
  intros HI Ht.
  assert (∀ e, inv (set_phase t (Joining e) d)) as Hjoin by (intros e; by eapply inv_phase).
  assert (inv (set_phase t (Refreshing cmd) d)) as Href by by eapply inv_phase.
  assert (inv (signalConfig d)) as Hsig.
  { pose proof (inv_seen _ HI). apply (inv_calm d); try done; simpl; [lia| |apply (inv_worker _ HI)|apply (inv_loop _ HI)].
    rewrite bool_decide_true by lia. done. }
  assert (inv (set_phase t Gone (signalConfig d))) as Hcfg by by eapply inv_phase.
  unfold handle. destruct (handled d !! GetRequestId cmd) eqn:E; [by destruct (GetCommand cmd)|].
  pose proof (inv_execute d t cmd HI Ht E). by destruct (GetCommand cmd).
Qed.

(** The owner sets the result and closes the entry. *)
Lemma inv_finish d t e r :
  inv d → goroutines d !! t = Some (Finishing e r) → inv (set_phase t (deliver r) (close_entry e r d)).
Proof.
  intros HI Ht. pose proof (inv_fits _ HI t _ Ht) as Hf. simpl in Hf.
  pose proof (inv_open _ HI t _ e Ht eq_refl) as Ho. pose proof (lookup_lt_Some _ _ _ Ho) as Hlt.
  assert (∀ f, recorded d f → recorded (close_entry e r d) f) as Hrec.
  { intros f (e' & H1 & H2). exists e'. split; [done|]. simpl. rewrite list_lookup_insert_ne; [done|]. congruence. }
  eapply (disp_act d _ t (Finishing e r) (deliver r) HI Ht); try done.
  - destruct (inv_shared d HI). constructor; try done.
    + simpl. intros id' e'. rewrite length_insert. apply sh_handled0.
    + simpl. intros e' f. destruct (decide (e = e')) as [<-|Hne].
      * rewrite list_lookup_insert_eq by done. intros [= ->]. by apply Hf.
      * rewrite list_lookup_insert_ne by done. apply sh_closed0.
    + intros f Hfs. apply Hrec. by apply sh_sent0.
  - intros u p' Hu Hp. split.
    + pose proof (inv_fits _ HI u p' Hp) as Hfp. destruct p'; simpl in *; try done. by apply Hrec.
    + intros e' He'. simpl. rewrite list_lookup_insert_ne; [by eapply (inv_open _ HI)|].
      intros <-. apply Hu. by eapply (inv_owner _ HI).
  - destruct r as [f|]; [|done]. simpl. exists e. split; [by apply Hf|]. simpl. by rewrite list_lookup_insert_eq.
  - by destruct r.
  - by destruct r.
Qed.

Lemma inv_goroutine d t ch a ok d' : inv d → goroutine_step t ch a ok d = Some d' → inv d'.
Proof.
  intros HI. unfold goroutine_step. destruct (goroutines d !! t) as [p|] eqn:Ht; [|done].
  pose proof (inv_fits _ HI t p Ht) as Hf. destruct p as [cmd|cmd|e|e cmd|e cmd|e r|e r|r|]; simpl in Hf.
  - intros [= <-]. by apply inv_handle.
  - intros [= <-]. by eapply inv_phase.
  - destruct ch.
    + destruct (entries d !! e) as [[r|]|] eqn:Ee; try done. intros [= <-]. eapply inv_phase; try done; [|by destruct r..].
      destruct r as [f|]; [|done]. simpl. exists e. split; [by apply (inv_closed _ HI)|done].
    + destruct (is_done d); [|done]. intros [= <-]. by eapply inv_phase.
  - destruct Hf as (Hf1 & Hf2 & Hf3). destruct ch.
    + destruct (slots d <? provisionConcurrency) eqn:Es; [|done]. apply Nat.ltb_lt in Es. intros [= <-].
      eapply (disp_act d _ t (Acquiring e cmd) (Hosting e cmd) HI Ht); try done.
      * destruct (shared_log_call d (GetRequestId cmd) (GetCommand cmd) (inv_shared d HI)); [by eexists|done|].
        by constructor.
      * intros u p' Hu Hp. split; [|intros e3 He3; by apply (inv_open _ HI u p')].
        assert (fits (log_call (GetRequestId cmd) (GetCommand cmd) d) p') as Hfp; [|by destruct p'].
        apply fits_log_call; [|by eapply (inv_fits _ HI)]. intros e2 cmd2 -> E. destruct (inv_fits _ HI u _ Hp) as [H2 _].
        apply Hu. eapply (inv_owner _ HI); [exact Hp|exact Ht|done|]. simpl. congruence.
      * intros e' [= <-]. split; [by eapply (inv_open _ HI)|by left].
      * simpl in Hf3 |- *. rewrite Hf3. lia.
    + destruct (is_done d); [|done]. intros [= <-]. eapply inv_phase; [done|exact Ht| |done|done]. intros f [= <-]. exact Hf1.
  - intros [= <-]. assert (∀ f, execute_reply (GetRequestId cmd) (GetCommand cmd) a = Some f → handled d !! RequestId f = Some e) as Hr.
    { intros f E. by rewrite (execute_reply_id _ _ _ _ E). }
    destruct (GetCommand cmd) eqn:Ec; (eapply inv_phase; [done|exact Ht|exact Hr|done|simpl; by rewrite Ec]).
  - intros [= <-].
    assert (1 ≤ slots d) as Hs1.
    { rewrite (inv_slots _ HI). pose proof (count_holds_insert _ _ _ Gone Ht) as Hc. unfold count_holds in Hc. simpl in Hc. lia. }
    eapply disp_move; [done|exact Ht|exact Hf|done| |]; simpl; [lia|]. pose proof (inv_cap _ HI). lia.
  - intros [= <-]. by apply inv_finish.
  - destruct ok; intros [= <-].
    + eapply (disp_act d _ t (Sending r) Gone HI Ht); try done.
      * destruct (inv_shared d HI). constructor; try done. simpl. intros f [H|H]%elem_of_app; [by apply sh_sent0|].
        apply list_elem_of_singleton in H as ->. exact Hf.
      * intros u p' Hu Hp. split; [|intros e3 He3; by apply (inv_open _ HI u p')]. pose proof (inv_fits _ HI u p' Hp) as Hfp. by destruct p'.
    + eapply (inv_phase (cancelCause SendFailed d)); try done. apply (inv_calm d); try done; simpl.
      * apply (inv_seen _ HI).
      * apply (inv_signal _ HI).
      * intros _. by destruct (done d).
      * destruct (loop d); try done; by destruct (done d).
  - done.
Qed.

Lemma disp_step ev d d' : inv d → step ev d = Some d' → inv d'.
Proof.
  intros HI. pose proof (inv_seen _ HI) as H1. pose proof (inv_signal _ HI) as H2. pose proof (inv_worker _ HI) as H3.
  pose proof (inv_loop _ HI) as H4.
  assert (∀ c o, inv (set_loop (Unwinding o) (cancelCause c d))) as Hunw.
  { intros c o. apply (inv_calm d); try done; simpl; intros; by destruct (done d). }
  destruct ev as [t ch a ok|ch|opened m|c]; simpl.
  - by apply inv_goroutine.
  - unfold worker_step. destruct (worker d) eqn:Ew, ch; try done.
    + destruct (configSignal d); [|done]. intros [= <-]. apply (inv_calm d); try done; simpl.
      by rewrite bool_decide_false by lia.
    + unfold is_done. destruct (bool_decide (is_Some (done d))) eqn:Ed; [|done]. apply bool_decide_eq_true in Ed. intros [= <-].
      by apply (inv_calm d).
    + intros [= <-]. by apply (inv_calm d).
    + intros [= <-]. by apply (inv_calm d).
  - unfold loop_step. destruct (loop d) eqn:El.
    + destruct opened; intros [= <-]; [by apply (inv_calm d)|apply Hunw].
    + destruct m as [cmd| |]; intros [= <-]; [|apply Hunw..].
      destruct (GetCommand cmd); try (by apply inv_spawn). apply (inv_calm d); try done; simpl; [lia|by rewrite bool_decide_true by lia|by rewrite El].
    + destruct (forallb _ _); [|done]. destruct (worker d) eqn:Ew; try done. intros [= <-]. apply (inv_calm d); try done; simpl; auto.
    + done.
  - intros [= <-]. apply (inv_calm d); try done; simpl; [intros; by destruct (done d)|].
    destruct (loop d); try done; by destruct (done d).
Qed.

Lemma play_inv evs : inv (play evs).
Proof.
  unfold play. assert (inv newDispatcher) as H0.
  { constructor; simpl; try done; try (by intros ? ? ?%lookup_empty_Some); try lia.
    - by intros ? ?%not_elem_of_nil.
    - apply NoDup_nil_2.
    - by intros ? ?%not_elem_of_nil. }
  revert H0. generalize newDispatcher. induction evs as [|ev evs IH]; intros d HI; [done|]. simpl. apply IH.
  destruct (step ev d) eqn:E; [by eapply disp_step|done].
Qed.

(** C25. Over every history of commands, answers, sends, signals and cancellations: the
    host is called at most once per request id; every frame sent, or about to be, is the
    one recorded for its id, so two frames of an id are equal; at most eight provisions
    are in the host at a time, the semaphore counting exactly those that hold a slot; and
    a config signal is pending exactly when no pass began after it. *)
Theorem dispatch_once evs :
  let d := play evs in
  NoDup (calls d).*1
  ∧ (∀ r, r ∈ sent d ∨ Sending r ∈ goroutines d → recorded d r)
  ∧ (∀ r r', r ∈ sent d → r' ∈ sent d → RequestId r = RequestId r' → r = r')
  ∧ slots d = count_holds (goroutines d) ∧ slots d ≤ provisionConcurrency
  ∧ (configSignal d = true ↔ seen d < signals d).
Proof.
  cbv zeta. pose proof (play_inv evs) as HI. set (d := play evs) in *. split; [apply (inv_once _ HI)|].
  split.
  { intros r [Hr|Hr]; [by apply (inv_sent _ HI)|]. apply list_elem_of_lookup in Hr as [t Ht]. by apply (inv_fits _ HI t _ Ht). }
  split.
  { intros r r' (e & H1 & H2)%(inv_sent _ HI) (e' & H1' & H2')%(inv_sent _ HI) E. rewrite E in H1. congruence. }
  split; [apply (inv_slots _ HI)|]. split; [apply (inv_cap _ HI)|]. rewrite (inv_signal _ HI). by rewrite bool_decide_eq_true.
Qed.

(** * Shutdown *)

Definition weight (p : phase) : nat :=
  match p with
  | Handling _ => 9
  | Acquiring _ _ => 5
  | Hosting _ _ => 4
  | Releasing _ _ => 3
  | Finishing _ _ | Joining _ => 2
  | Refreshing _ | Sending _ => 1
  | Gone => 0
  end.

Definition worker_weight (d : dispatcher) : nat :=
  (match worker d with Selecting => 1 | Passing => 2 | Exited => 0 end)
  + (match worker d with Exited => 0 | _ => if configSignal d then 2 else 0 end).

Definition loop_weight (l : loopPhase) : nat := match l with Unwinding _ => 1 | _ => 0 end.

(** What is left to do once the loop unwinds. *)
Definition work (d : dispatcher) : nat := sum_list (weight <$> goroutines d) + worker_weight d + loop_weight (loop d).

(** The dispatcher's own events, which the parent's cancellation is not. *)
Definition own (ev : event) : Prop := ∀ c, ev ≠ ParentDone c.
Definition moves (d d' : dispatcher) : Prop := ∃ ev, own ev ∧ step ev d = Some d'.

Lemma sum_insert l t p q :
  l !! t = Some p → sum_list (weight <$> <[t := q]> l) + weight p = sum_list (weight <$> l) + weight q.
Proof.
  intros Ht. rewrite <- (take_drop_middle l t p Ht) at 2. rewrite (insert_take_drop _ _ _ (lookup_lt_Some _ _ _ Ht)).
  rewrite !fmap_app, !fmap_cons, !sum_list_with_app. simpl. lia.
Qed.

Lemma work_phase d d' t p q :
  goroutines d !! t = Some p → goroutines d' = <[t := q]> (goroutines d) → loop d' = loop d →
  worker_weight d' + weight q < worker_weight d + weight p → work d' < work d.
Proof. intros Ht Hg Hl Hw. unfold work. rewrite Hg, Hl. pose proof (sum_insert _ _ _ q Ht). lia. Qed.

Lemma deliver_weight r : weight (deliver r) ≤ 1.
Proof. destruct r; simpl; lia. Qed.

Lemma goroutine_work t ch a ok d d' : goroutine_step t ch a ok d = Some d' → work d' < work d ∧ loop d' = loop d.
Proof.
  unfold goroutine_step. destruct (goroutines d !! t) as [p|] eqn:Ht; [|done].
  assert (∀ q d1, goroutines d1 = goroutines d → loop d1 = loop d → worker_weight d1 = worker_weight d → weight q < weight p →
    work (set_phase t q d1) < work d ∧ loop (set_phase t q d1) = loop d) as Hq.
  { intros q d1 H1 H2 H3 H4. split; [|done]. eapply work_phase; [exact Ht|simpl; by rewrite H1|done|].
    unfold worker_weight in *. simpl in *. lia. }
  destruct p as [cmd|cmd|e|e cmd|e cmd|e r|e r|r|].
  - intros [= <-]. unfold handle, execute.
    destruct (GetCommand cmd) eqn:Ec; simpl; try (destruct (handled d !! GetRequestId cmd); apply Hq; (done || (simpl; lia)));
      try (apply Hq; (done || (simpl; lia))).
    split; [|done]. eapply work_phase; [exact Ht|done|done|]. unfold worker_weight. simpl. destruct (worker d), (configSignal d); lia.
  - intros [= <-]. apply Hq; (done || (simpl; lia)).
  - destruct ch; [destruct (entries d !! e) as [[r|]|]; try done; intros [= <-]|destruct (is_done d); [|done]; intros [= <-]];
      apply Hq; try done; simpl; [pose proof (deliver_weight r)|]; lia.
  - destruct ch; [destruct (slots d <? provisionConcurrency)|destruct (is_done d)]; try done; intros [= <-]; apply Hq; (done || (simpl; lia)).
  - intros [= <-]. apply Hq; try done. destruct (GetCommand cmd); simpl; lia.
  - intros [= <-]. apply Hq; (done || (simpl; lia)).
  - intros [= <-]. apply Hq; try done. simpl. pose proof (deliver_weight r). lia.
  - destruct ok; intros [= <-]; apply Hq; (done || (simpl; lia)).
  - done.
Qed.

(** Once the loop unwinds, every own event leaves less to do. *)
Lemma unwinding_work d d' o :
  loop d = Unwinding o → moves d d' → work d' < work d ∧ (loop d' = Unwinding o ∨ loop d' = Returned o).
Proof.
  intros Hl (ev & Hown & Hs). destruct ev as [t ch a ok|ch|opened m|c]; simpl in Hs.
  - apply goroutine_work in Hs as [H1 H2]. split; [done|]. left. congruence.
  - revert Hs. unfold worker_step, work, worker_weight.
    destruct (worker d), ch; try done; [destruct (configSignal d)|destruct (is_done d)|..]; try done; intros [= <-]; simpl;
      (split; [destruct (configSignal d); lia|by left]).
  - unfold loop_step in Hs. rewrite Hl in Hs. destruct (forallb _ _); [|done]. destruct (worker d) eqn:Ew; try done.
    injection Hs as <-. unfold work, worker_weight. simpl. rewrite Hl, Ew. simpl. split; [lia|by right].
  - by destruct (Hown c).
Qed.

Lemma not_all_gone l :
  forallb (λ p, match p with Gone => true | _ => false end) l = false → ∃ t p, l !! t = Some p ∧ p ≠ Gone.
Proof.
  induction l as [|p l IH]; [done|]. simpl. destruct p; try (intros _; by exists 0; eexists).
  intros (t & p & H)%IH. by exists (S t), p.
Qed.

(** And there is one until it has returned: whoever waits is let go by the context. *)
Lemma unwinding_moves d o : inv d → loop d = Unwinding o → ∃ d', moves d d'.
Proof.
  intros HI Hl. pose proof (inv_loop _ HI) as Hd. rewrite Hl in Hd.
  assert (is_done d = true) as Hdone by (unfold is_done; by apply bool_decide_eq_true).
  destruct (forallb (λ p, match p with Gone => true | _ => false end) (goroutines d)) eqn:Ef.
  - destruct (worker d) eqn:Ew.
    + eexists. exists (Worker Context). split; [done|]. simpl. unfold worker_step. by rewrite Ew, Hdone.
    + eexists. exists (Worker Context). split; [done|]. simpl. unfold worker_step. by rewrite Ew.
    + eexists. exists (Loop true EOF). split; [done|]. simpl. unfold loop_step. by rewrite Hl, Ef, Ew.
  - destruct (not_all_gone _ Ef) as (t & p & Ht & Hp).
    destruct (goroutine_step t Context (HostOk []) true d) as [d'|] eqn:E;
      [exists d', (Goroutine t Context (HostOk []) true); by split|].
    exfalso. revert E. unfold goroutine_step. rewrite Ht, Hdone. by destruct p.
Qed.

(** The loop has returned and nothing it started is left. *)
Definition quiet (o : outcome) (d : dispatcher) : Prop :=
  loop d = Returned o ∧ Forall (λ p, p = Gone) (goroutines d) ∧ worker d = Exited.

Lemma quiet_stuck o d d' : quiet o d → ¬ moves d d'.
Proof.
  intros (HL & HG & HW) (ev & Hown & Hs). destruct ev as [t ch a ok|ch|opened m|c]; simpl in Hs.
  - unfold goroutine_step in Hs. destruct (goroutines d !! t) as [p|] eqn:Ht; [|done].
    rewrite Forall_forall in HG. rewrite (HG p) in Hs; [done|]. by eapply list_elem_of_lookup_2.
  - unfold worker_step in Hs. by rewrite HW in Hs.
  - unfold loop_step in Hs. by rewrite HL in Hs.
  - by destruct (Hown c).
Qed.

(** The last event of an unwinding loop leaves it quiet. *)
Lemma unwinding_quiet d d' o : loop d = Unwinding o → moves d d' → loop d' = Unwinding o ∨ quiet o d'.
Proof.
  intros HL Hm. destruct (unwinding_work d d' o HL Hm) as [_ [?|Hr]]; [by left|]. right. split; [done|].
  destruct Hm as (ev & Hown & Hs). destruct ev as [t ch a ok|ch|opened m|c]; simpl in Hs.
  - apply goroutine_work in Hs as [_ Hs]. congruence.
  - revert Hs. unfold worker_step. destruct (worker d), ch; try done;
      [destruct (configSignal d)|destruct (is_done d)|..]; try done; intros [= <-]; simpl in Hr; congruence.
  - unfold loop_step in Hs. rewrite HL in Hs. destruct (forallb _ _) eqn:Ef; [|done]. destruct (worker d) eqn:Ew; try done.
    injection Hs as <-. simpl. split; [|done]. apply Forall_forall. intros p Hp. rewrite forallb_forall in Ef.
    specialize (Ef p ltac:(by apply list_elem_of_In)). by destruct p.
  - by destruct (Hown c).
Qed.

(** C40. Shutdown ends: once the loop unwinds, no sequence of the dispatcher's own events is
    longer than the work left, and where none is possible any more the loop has returned
    the outcome it was unwinding with, its goroutines are gone and its config worker has
    exited.  Nothing waits for good, provided that the host and the stream return. *)
Theorem shutdown_terminates evs o :
  loop (play evs) = Unwinding o →
  (∀ n d', nsteps moves n (play evs) d' → n ≤ work (play evs))
  ∧ (∀ d', rtc moves (play evs) d' → (∀ d2, ¬ moves d' d2) → quiet o d').
Proof.
  intros Hl. pose proof (play_inv evs) as HI. revert HI Hl. generalize (play evs). intros d HI Hl. split.
  - intros n d' Hn. clear HI. induction Hn as [d|n d d1 d2 H1 Hn IH]; [lia|].
    destruct (unwinding_work d d1 o Hl H1) as [Hw _]. destruct (unwinding_quiet d d1 o Hl H1) as [HL|HQ]; [specialize (IH HL); lia|].
    destruct Hn as [|n d1 d3 d2 H3 _]; [lia|]. by destruct (quiet_stuck o d1 d3).
  - intros d' Hr Hstuck. assert (loop d = Unwinding o ∨ quiet o d) as HL by by left. clear Hl.
    induction Hr as [d|d d1 d2 H1 _ IH].
    + destruct HL as [HL|HL]; [|done]. by destruct (unwinding_moves d o HI HL) as [d2 ?%Hstuck].
    + destruct HL as [HL|HQ]; [|by destruct (quiet_stuck o d d1)]. apply IH; [|done|by eapply unwinding_quiet].
      destruct H1 as (ev & _ & Hs). by eapply disp_step.
Qed.

(** * A run *)

Definition cmd_of (id : bytes) (c : command) : SessionsResponse := MkCommand id c.

(** Two pushes of one id, a ninth provision, a config signal, and the end of the stream. *)
Definition sample : list event :=
  let id := lit "r1" in
  [Loop true EOF; Loop true (Got (cmd_of id (Stop (lit "s")))); Loop true (Got (cmd_of id (Stop (lit "s"))));
   Loop true (Got (cmd_of [] ConfigVersion)); Goroutine 0 First (HostOk []) true; Goroutine 1 First (HostOk []) true;
   Worker First; Goroutine 0 First (HostErr (MkError [errSessionUnknown] (lit "session unknown to runner"))) true;
   Goroutine 0 First (HostOk []) true; Goroutine 1 First (HostOk []) true; Goroutine 1 First (HostOk []) true; Loop true EOF].

Lemma sample_runs :
  sent (play sample) = [MkResult (lit "r1") (RError NOT_FOUND (lit "session unknown to runner"))]
  ∧ calls (play sample) = [(lit "r1", Stop (lit "s"))] ∧ loop (play sample) = Unwinding ReturnNil.
Proof. vm_compute. auto. Qed.

Lemma shutdown_terminates_witness :
  loop (play sample) = Unwinding ReturnNil
  ∧ (∀ d', rtc moves (play sample) d' → (∀ d2, ¬ moves d' d2) → quiet ReturnNil d').
Proof.
  assert (loop (play sample) = Unwinding ReturnNil) as Hl by (vm_compute; reflexivity).
  split; [done|]. apply (shutdown_terminates sample ReturnNil Hl).
Defined.

End RunnerDispatch.
