(* ===== verification/ChannelTree.v ===== *)
(** Who participates in a channel (the [ChannelParticipant] query of
    [src/go/internal/store/queries/channels.sql], its [participating] copies in
    [messages.sql] and [topics.sql], and [src/go/internal/store/authz.go]): a member row,
    or, for a channel that follows the agent tree, an agent of the anchor's subtree or the
    anchor's owner.

    A table with a primary key is a finite map.  The recursive queries walk parent rows
    and stop at a row seen before, so a cycle of parents ends the walk. *)
From stdpp Require Import base gmap strings list sets.
From Stdlib Require Import ZArith Lia.
From S2P Require Import Prelude.

Module ChannelTree.

Open Scope nat_scope.

Record agentRow := MkAgentRow { owner_user_id : string; parent_agent_id : option string }.

Record channelRow := MkChannelRow {
  c_name : string; post_policy : Z; owner_account_id : option string; c_parent : option string; membership_mode : Z;
}.

Definition membershipTree : Z := 1%Z.

Record directory := MkDirectory {
  accounts : gset string; agents : gmap string agentRow; channels : gmap string channelRow; channel_members : gset (string * string);
}.

Inductive storeError :=
| ErrInvalidArgument | ErrNotFound | ErrPermissionDenied | ErrConflict | ErrFailedPrecondition | ErrInternal.

(** [WITH RECURSIVE chain]: the actor's agent row, then each row's parent, once each. *)
Fixpoint chain_go (fuel : nat) (d : directory) (seen : list string) (id : string) : list string :=
  match fuel with
  | O => seen
  | S fuel =>
      match agents d !! id with
      | None => seen
      | Some a =>
          if bool_decide (id ∈ seen) then seen
          else match parent_agent_id a with None => id :: seen | Some p => chain_go fuel d (id :: seen) p end
      end
  end.

Definition chain (d : directory) (actor : string) : list string := chain_go (S (size (agents d))) d [] actor.

Definition is_tree (d : directory) (channel : string) : bool :=
  match channels d !! channel with Some c => bool_decide (membership_mode c = membershipTree) | None => false end.

Definition ChannelParticipant (d : directory) (channel actor : string) : bool :=
  let chain := if is_tree d channel then chain d actor else [] in
  bool_decide ((channel, actor) ∈ channel_members d)
  || is_tree d channel
     && match channels d !! channel with
        | Some c =>
            match c_parent c with
            | Some p =>
                bool_decide (p ∈ chain)
                || match agents d !! p with Some aa => bool_decide (actor = owner_user_id aa) | None => false end
            | None => false
            end
        | None => false
        end.

(** [participating]: the channels of one actor. *)
Definition owned_agents (d : directory) (actor : string) : gset string :=
  dom (filter (λ r : string * agentRow, owner_user_id r.2 = actor) (agents d)).

Definition follows (d : directory) (actor : string) (c : channelRow) : bool :=
  bool_decide (membership_mode c = membershipTree)
  && match c_parent c with Some p => bool_decide (p ∈ chain d actor) || bool_decide (p ∈ owned_agents d actor) | None => false end.

Definition participating (d : directory) (actor : string) : gset string :=
  set_map fst (filter (λ m : string * string, m.2 = actor) (channel_members d))
  ∪ dom (filter (λ r : string * channelRow, follows d actor r.2 = true) (channels d)).

Definition isChannelMember (d : directory) (actor channel : string) : bool := ChannelParticipant d channel actor.

Definition requireChannelMember (d : directory) (actor channel : string) : result storeError unit :=
  if isChannelMember d actor channel then Ok tt else Err ErrNotFound.

(** * What participation means *)

Definition parent_of (d : directory) (a p : string) : Prop :=
  ∃ r, agents d !! a = Some r ∧ parent_agent_id r = Some p ∧ is_Some (agents d !! p).

Inductive Participant (d : directory) (channel actor : string) : Prop :=
| part_member : (channel, actor) ∈ channel_members d → Participant d channel actor
| part_subtree c anchor : channels d !! channel = Some c → membership_mode c = membershipTree → c_parent c = Some anchor →
    is_Some (agents d !! actor) → rtc (parent_of d) actor anchor → Participant d channel actor
| part_owner c anchor r : channels d !! channel = Some c → membership_mode c = membershipTree → c_parent c = Some anchor →
    agents d !! anchor = Some r → owner_user_id r = actor → Participant d channel actor.

(** * Facts *)

Definition closed_but (d : directory) (seen : list string) (id : string) : Prop :=
  ∀ a p, a ∈ seen → parent_of d a p → p ∈ seen ∨ p = id.

Lemma seen_bound (d : directory) seen : NoDup seen → (∀ a, a ∈ seen → is_Some (agents d !! a)) → length seen ≤ size (agents d).
Proof.
  intros Hn Hs. rewrite <- size_dom, <- (size_list_to_set (C := gset string) seen Hn).
  apply subseteq_size. intros a Ha. apply elem_of_dom, Hs. set_solver.
Qed.

(** The walk ends by itself: its rows are distinct agents, and closed under parents. *)
Lemma chain_go_spec fuel d seen id :
  NoDup seen → (∀ a, a ∈ seen → is_Some (agents d !! a)) → closed_but d seen id → size (agents d) < fuel + length seen →
  let l := chain_go fuel d seen id in
  (∀ a, a ∈ seen → a ∈ l) ∧ (is_Some (agents d !! id) → id ∈ l) ∧ (∀ a p, a ∈ l → parent_of d a p → p ∈ l)
  ∧ (∀ a, a ∈ l → is_Some (agents d !! a)) ∧ (∀ P : string → Prop, (∀ a p, P a → parent_of d a p → P p) → (∀ a, a ∈ seen → P a) →
     (is_Some (agents d !! id) → P id) → ∀ a, a ∈ l → P a).
Proof.
  revert seen id. induction fuel as [|fuel IH]; intros seen id Hn Hs Hc Hf; cbn zeta.
  { pose proof (seen_bound d seen Hn Hs). simpl in Hf. lia. }
  cbn [chain_go]. destruct (agents d !! id) as [r|] eqn:Ha.
  2:{ split; [done|]. split; [by intros [? ?]|]. split; [|split; [done|auto]].
      intros a p Hin Hp. destruct (Hc a p Hin Hp) as [?| ->]; [done|]. destruct Hp as (_ & _ & _ & [? ?]). congruence. }
  case_bool_decide as Hin.
  { split; [done|]. split; [done|]. split; [|split; [done|auto]].
    intros a p Ha' Hp. by destruct (Hc a p Ha' Hp) as [?| ->]. }
  assert (∀ a, a ∈ id :: seen → is_Some (agents d !! a)) as Hs' by (intros a [-> |]%elem_of_cons; eauto).
  destruct (parent_agent_id r) as [p|] eqn:Hp.
  - destruct (IH (id :: seen) p) as (H1 & H2 & H3 & H4 & H5).
    + by constructor.
    + done.
    + intros a p' [-> |Ha']%elem_of_cons Hpa.
      * destruct Hpa as (r' & E & E' & _). right. congruence.
      * left. apply elem_of_cons. destruct (Hc a p' Ha' Hpa) as [?| ->]; auto.
    + simpl. lia.
    + split; [set_solver|]. split; [set_solver|]. split; [done|]. split; [done|]. intros P Hst Hseen Hid. apply H5; [done| |].
      * intros a [-> |]%elem_of_cons; auto.
      * intros Hp'. apply (Hst id); [auto|]. by exists r.
  - split; [set_solver|]. split; [set_solver|]. split; [|split; [done|]].
    + intros a p' Ha' Hpa. apply elem_of_cons in Ha' as [-> |Ha']; [destruct Hpa as (? & ? & ? & _); congruence|].
      apply elem_of_cons. destruct (Hc a p' Ha' Hpa) as [?| ->]; auto.
    + intros P _ Hseen Hid a [-> |]%elem_of_cons; eauto.
Qed.

(** The chain of an actor: its ancestors, itself included, if it is an agent. *)
Lemma chain_spec d actor a : a ∈ chain d actor ↔ is_Some (agents d !! actor) ∧ rtc (parent_of d) actor a.
Proof.
  destruct (chain_go_spec (S (size (agents d))) d [] actor) as (_ & H2 & H3 & _ & H5).
  { constructor. } { set_solver. } { intros x p Hx. by apply elem_of_nil in Hx. } { simpl. lia. }
  change (chain_go _ _ _ _) with (chain d actor) in *. split.
  - apply (H5 (λ a, is_Some (agents d !! actor) ∧ rtc (parent_of d) actor a)).
    + intros x p [? Hx] Hp. split; [done|]. by eapply rtc_r.
    + set_solver.
    + done.
  - intros [Hs Hr]. pose proof (H2 Hs) as Hin. clear H2 H5 Hs. set (l := chain d actor) in *. clearbody l. induction Hr as [|x y z Hxy _ IH]; [done|]. apply IH. by eapply H3.
Qed.

Lemma is_tree_spec d channel : is_tree d channel = true ↔ ∃ c, channels d !! channel = Some c ∧ membership_mode c = membershipTree.
Proof.
  unfold is_tree. destruct (channels d !! channel) as [c|]; [|naive_solver]. rewrite bool_decide_eq_true. naive_solver.
Qed.

Lemma owned_spec d actor p : p ∈ owned_agents d actor ↔ ∃ r, agents d !! p = Some r ∧ owner_user_id r = actor.
Proof.
  unfold owned_agents. rewrite elem_of_dom. unfold is_Some. setoid_rewrite map_lookup_filter_Some. naive_solver.
Qed.

Lemma participating_spec d channel actor : channel ∈ participating d actor ↔ Participant d channel actor.
Proof.
  unfold participating. rewrite elem_of_union, elem_of_map, elem_of_dom. unfold is_Some. setoid_rewrite map_lookup_filter_Some.
  setoid_rewrite elem_of_filter. split.
  - intros [([c x] & -> & Hm & Hin)|(c & Hc & Hf)]; simpl in *.
    + subst x. by apply part_member.
    + apply andb_true_iff in Hf as [Hmode%bool_decide_eq_true Hp]. destruct (c_parent c) as [p|] eqn:E; [|done].
      apply orb_true_iff in Hp as [[? ?]%bool_decide_eq_true%chain_spec|(r & ? & ?)%bool_decide_eq_true%owned_spec].
      * by eapply part_subtree.
      * by eapply part_owner.
  - intros [Hin|c p Hc Hmode Hp Hs Hr|c p r Hc Hmode Hp Ha Ho].
    + left. by exists (channel, actor).
    + right. exists c. split; [done|]. unfold follows. simpl. rewrite Hp, Hmode, (bool_decide_true (p ∈ _)); [done|]. by apply chain_spec.
    + right. exists c. split; [done|]. unfold follows. simpl. rewrite Hp, Hmode, (bool_decide_true (p ∈ owned_agents _ _)), orb_true_r; [done|].
      apply owned_spec. by exists r.
Qed.

Lemma ChannelParticipant_spec d channel actor : ChannelParticipant d channel actor = true ↔ Participant d channel actor.
Proof.
  unfold ChannelParticipant. rewrite orb_true_iff, bool_decide_eq_true, andb_true_iff. split.
  - intros [?|[Ht H]]; [by apply part_member|]. rewrite Ht in H. apply is_tree_spec in Ht as (c & Hc & Hm). rewrite Hc in H.
    destruct (c_parent c) as [p|] eqn:Hp; [|done]. apply orb_true_iff in H as [H%bool_decide_eq_true|H].
    + apply chain_spec in H as [? ?]. by eapply part_subtree.
    + destruct (agents d !! p) as [r|] eqn:Ha; [|done]. apply bool_decide_eq_true in H. by eapply part_owner.
  - intros [Hin|c p Hc Hmode Hp Hs Hr|c p r Hc Hmode Hp Ha Ho]; [by left|right..].
    all: assert (is_tree d channel = true) as Ht by (apply is_tree_spec; eauto).
    all: split; [done|]; rewrite Ht, Hc, Hp; apply orb_true_iff.
    + left. apply bool_decide_eq_true. by apply chain_spec.
    + right. rewrite Ha. by apply bool_decide_eq_true.
Qed.

(** * Claims *)

(** C36. The walk of the agent tree ends whatever the parent rows say, cycles included, and
    the three forms of participation agree: the membership query, the copy of it that the
    message and topic queries join with, and a member row, an ancestor of the actor or
    the actor itself as the anchor of a tree channel, or the ownership of its anchor. *)
Theorem participation_agrees d channel actor :
  (channel ∈ participating d actor ↔ Participant d channel actor)
  ∧ (isChannelMember d actor channel = true ↔ Participant d channel actor)
  ∧ (requireChannelMember d actor channel = Ok tt ∨ requireChannelMember d actor channel = Err ErrNotFound ∧ ¬ Participant d channel actor)
  ∧ (∀ a, a ∈ chain d actor ↔ is_Some (agents d !! actor) ∧ rtc (parent_of d) actor a).
Proof.
  split; [apply participating_spec|]. split; [apply ChannelParticipant_spec|]. split; [|apply chain_spec].
  unfold requireChannelMember, isChannelMember. destruct (ChannelParticipant d channel actor) eqn:E; [by left|right].
  split; [done|]. rewrite <- ChannelParticipant_spec, E. done.
Qed.

End ChannelTree.
