(* ===== verification/Blocks.v ===== *)
(** Message blocks and asks ([src/go/internal/store/blocks.go], the answer half of
    [messages.go], the types of [types.go]): the stored shape of a message's blocks, the
    checks on both ways, the searchable text, and the recording of an answer.

    A pointer is an option, a nil slice the empty list.  [encoding/json] writes and reads
    the stored records back as they are, on strings of valid UTF-8 (protobuf admits no
    others), so a stored value is a list of them.  [newID] gives ids by a counter. *)
From stdpp Require Import base gmap strings list sets.
From Stdlib Require Import ZArith Lia.
From S2P Require Import Prelude ChannelTree.

Module Blocks.
Import ChannelTree.

Open Scope nat_scope.

Record AskOption := MkOption { o_ID : string; Label : string; Description : string; Preview : string }.

Record AskQuestion := MkQuestion {
  QuestionID : string; Question : string; Header : string; Options : list AskOption; AllowMultiple : bool;
  Recommended : option Z; ChosenOptionIDs : list string; CustomText : string; TimedOut : bool;
}.

Record ForgeCoord := MkCoord { Provider : Z; Host : string; Repo : string; Number : Z }.

Record Ask := MkAsk {
  AskID : string; Ref : string; RefCoord : option ForgeCoord; Questions : list AskQuestion; Answered : bool;
}.

Record AskAnswerBlock := MkAnswerBlock { ab_Ask : Ask; AskerAccountID : string }.

Record MessageBlock := MkBlock { Text : option string; b_Ask : option Ask; b_AskAnswer : option AskAnswerBlock }.

(** The stored shapes; those of a question and of an option have their domain fields. *)
Record storedAsk := MkStoredAsk { sa_AskID : string; sa_Ref : string; sa_Questions : list AskQuestion; sa_Answered : bool }.
Record storedAskAnswer := MkStoredAnswer { saa_Ask : storedAsk; saa_Asker : string }.
Record storedBlock := MkStored { Kind : string; sb_Text : option string; sb_Ask : option storedAsk; sb_AskAnswer : option storedAskAnswer }.

Definition blockKindText : string := "text".
Definition blockKindAsk : string := "ask".
Definition blockKindAskAnswer : string := "ask_answer".

Definition toStoredAsk (a : Ask) : storedAsk := MkStoredAsk (AskID a) (Ref a) (Questions a) (Answered a).
Definition fromStoredAsk (s : storedAsk) : Ask := MkAsk (sa_AskID s) (sa_Ref s) None (sa_Questions s) (sa_Answered s).
Definition toStoredAskAnswer (b : AskAnswerBlock) : storedAskAnswer := MkStoredAnswer (toStoredAsk (ab_Ask b)) (AskerAccountID b).

(** ** Checks *)

Fixpoint askQuestions_go (seen : gset string) (qs : list AskQuestion) : bool :=
  match qs with
  | [] => true
  | q :: qs =>
      if bool_decide (QuestionID q = "") then false
      else if bool_decide (QuestionID q ∈ seen) then false
      else askQuestions_go ({[QuestionID q]} ∪ seen) qs
  end.

Definition askQuestionsWellFormed (a : Ask) : bool :=
  match Questions a with [] => false | qs => askQuestions_go ∅ qs end.

Definition recommended_ok (q : AskQuestion) : bool :=
  match Recommended q with
  | None => true
  | Some r => negb (bool_decide (r < 0)%Z || bool_decide (Z.of_nat (length (Options q)) ≤ r)%Z)
  end.

Definition validateAskQuestions (a : Ask) : result storeError unit :=
  if negb (askQuestionsWellFormed a) then Err ErrInvalidArgument
  else if forallb recommended_ok (Questions a) then Ok tt else Err ErrInvalidArgument.

Definition validateAskAnswer (b : AskAnswerBlock) : result storeError unit :=
  if bool_decide (AskID (ab_Ask b) = "") then Err ErrInvalidArgument
  else if negb (Answered (ab_Ask b)) then Err ErrInvalidArgument
  else if negb (askQuestionsWellFormed (ab_Ask b)) then Err ErrInvalidArgument
  else if bool_decide (AskerAccountID b = "") then Err ErrInvalidArgument
  else Ok tt.

(** ** Storing and reading *)

Definition marshalBlock (b : MessageBlock) : result storeError storedBlock :=
  match b with
  | MkBlock (Some t) None None => Ok (MkStored blockKindText (Some t) None None)
  | MkBlock None (Some a) None =>
      _ <-? validateAskQuestions a; Ok (MkStored blockKindAsk None (Some (toStoredAsk a)) None)
  | MkBlock None None (Some aa) =>
      _ <-? validateAskAnswer aa; Ok (MkStored blockKindAskAnswer None None (Some (toStoredAskAnswer aa)))
  | _ => Err ErrInvalidArgument
  end.

Fixpoint marshalBlocks (blocks : list MessageBlock) : result storeError (list storedBlock) :=
  match blocks with
  | [] => Ok []
  | b :: blocks => s <-? marshalBlock b; rest <-? marshalBlocks blocks; Ok (s :: rest)
  end.

Definition unmarshalBlock (sb : storedBlock) : result storeError MessageBlock :=
  if bool_decide (Kind sb = blockKindText) then
    match sb_Text sb with None => Err ErrInternal | Some t => Ok (MkBlock (Some t) None None) end
  else if bool_decide (Kind sb = blockKindAsk) then
    match sb_Ask sb with
    | None => Err ErrInternal
    | Some s => if askQuestionsWellFormed (fromStoredAsk s) then Ok (MkBlock None (Some (fromStoredAsk s)) None) else Err ErrInternal
    end
  else if bool_decide (Kind sb = blockKindAskAnswer) then
    match sb_AskAnswer sb with
    | None => Err ErrInternal
    | Some s =>
        let ask := fromStoredAsk (saa_Ask s) in
        if bool_decide (sa_AskID (saa_Ask s) = "") then Err ErrInternal
        else if negb (sa_Answered (saa_Ask s)) then Err ErrInternal
        else if negb (askQuestionsWellFormed ask) then Err ErrInternal
        else if bool_decide (saa_Asker s = "") then Err ErrInternal
        else Ok (MkBlock None None (Some (MkAnswerBlock ask (saa_Asker s))))
    end
  else Err ErrInternal.

Fixpoint unmarshalBlocks (stored : list storedBlock) : result storeError (list MessageBlock) :=
  match stored with
  | [] => Ok []
  | s :: stored => b <-? unmarshalBlock s; rest <-? unmarshalBlocks stored; Ok (b :: rest)
  end.

(** ** Text and ids *)

Definition block_text (b : MessageBlock) : list string :=
  match Text b, b_Ask b, b_AskAnswer b with
  | Some t, _, _ => [t]
  | None, Some a, _ => Question <$> Questions a
  | None, None, Some aa =>
      concat ((λ q, Question q :: if bool_decide (CustomText q = "") then [] else [CustomText q]) <$> Questions (ab_Ask aa))
  | None, None, None => []
  end.

Definition newline : string := String (Ascii.ascii_of_nat 10) "".

Definition textContent (blocks : list MessageBlock) : string := String.concat newline (concat (block_text <$> blocks)).

Definition set_AskID (id : string) (a : Ask) : Ask := MkAsk id (Ref a) (RefCoord a) (Questions a) (Answered a).

Fixpoint mintAskIDs (newID : nat → string) (n : nat) (blocks : list MessageBlock) : list MessageBlock * nat :=
  match blocks with
  | [] => ([], n)
  | b :: blocks =>
      match b with
      | MkBlock None (Some a) aa =>
          if bool_decide (AskID a = "") then
            let '(rest, n') := mintAskIDs newID (S n) blocks in (MkBlock None (Some (set_AskID (newID n) a)) aa :: rest, n')
          else let '(rest, n') := mintAskIDs newID n blocks in (b :: rest, n')
      | _ => let '(rest, n') := mintAskIDs newID n blocks in (b :: rest, n')
      end
  end.

(** [blocks @> [{"kind":"ask","ask":{"ask_id":id}}]]. *)
Definition askIDContainmentFilter (id : string) (stored : list storedBlock) : bool :=
  existsb (λ s, bool_decide (Kind s = blockKindAsk) && match sb_Ask s with Some a => bool_decide (sa_AskID a = id) | None => false end) stored.

(** ** Answers *)

Record AskAnswer := MkAnswer { a_QuestionID : string; a_Chosen : list string; a_CustomText : string }.

Fixpoint chosen_ok (offered seen : gset string) (ids : list string) : bool :=
  match ids with
  | [] => true
  | id :: ids =>
      if negb (bool_decide (id ∈ offered)) then false
      else if bool_decide (id ∈ seen) then false
      else chosen_ok offered ({[id]} ∪ seen) ids
  end.

Definition validateQuestionAnswer (q : AskQuestion) (a : AskAnswer) : bool :=
  if bool_decide (1 < length (a_Chosen a)) && negb (AllowMultiple q) then false
  else if bool_decide (length (a_Chosen a) = 1) && negb (bool_decide (a_CustomText a = "")) && negb (AllowMultiple q) then false
  else chosen_ok (list_to_set (o_ID <$> Options q)) ∅ (a_Chosen a).

Definition byID (qs : list AskQuestion) : gmap string nat :=
  foldl (λ (m : gmap string nat) (iq : nat * AskQuestion), <[QuestionID iq.2 := iq.1]> m) ∅ (imap pair qs).

Fixpoint check_answers (qs : list AskQuestion) (answered : gset string) (answers : list AskAnswer) : result storeError (gset string) :=
  match answers with
  | [] => Ok answered
  | a :: answers =>
      match byID qs !! a_QuestionID a with
      | None => Err ErrInvalidArgument
      | Some i =>
          match qs !! i with
          | None => Panic
          | Some q =>
              if bool_decide (a_QuestionID a ∈ answered) then Err ErrInvalidArgument
              else if negb (validateQuestionAnswer q a) then Err ErrInvalidArgument
              else check_answers qs ({[a_QuestionID a]} ∪ answered) answers
          end
      end
  end.

Definition record_answer (a : AskAnswer) (q : AskQuestion) : AskQuestion :=
  MkQuestion (QuestionID q) (Question q) (Header q) (Options q) (AllowMultiple q) (Recommended q) (a_Chosen a) (a_CustomText a) (TimedOut q).

(** The second loop, over the pointers of the first. *)
Fixpoint record_answers (by_id : gmap string nat) (answers : list AskAnswer) (qs : list AskQuestion) : result storeError (list AskQuestion) :=
  match answers with
  | [] => Ok qs
  | a :: answers =>
      match by_id !! a_QuestionID a with
      | None => Err ErrInvalidArgument
      | Some i => record_answers by_id answers (alter (record_answer a) i qs)
      end
  end.

Definition answerAsk (ask : Ask) (answers : list AskAnswer) : result storeError Ask :=
  if Answered ask then Err ErrConflict
  else
    answered <-? check_answers (Questions ask) ∅ answers;
    if negb (bool_decide (size answered = length (Questions ask))) then Err ErrInvalidArgument
    else qs <-? record_answers (byID (Questions ask)) answers (Questions ask);
      Ok (MkAsk (AskID ask) (Ref ask) (RefCoord ask) qs true).

(** The first block that carries the ask. *)
Fixpoint applyAskAnswer (askID : string) (answers : list AskAnswer) (blocks : list MessageBlock) : result storeError (list MessageBlock) :=
  match blocks with
  | [] => Err ErrNotFound
  | b :: blocks =>
      match b_Ask b with
      | Some ask =>
          if bool_decide (AskID ask = askID) then
            ask' <-? answerAsk ask answers; Ok (MkBlock (Text b) (Some ask') (b_AskAnswer b) :: blocks)
          else rest <-? applyAskAnswer askID answers blocks; Ok (b :: rest)
      | None => rest <-? applyAskAnswer askID answers blocks; Ok (b :: rest)
      end
  end.

Fixpoint findAsk (askID : string) (blocks : list MessageBlock) : option Ask :=
  match blocks with
  | [] => None
  | b :: blocks =>
      match b_Ask b with
      | Some a => if bool_decide (AskID a = askID) then Some a else findAsk askID blocks
      | None => findAsk askID blocks
      end
  end.

(** * Facts *)

Definition question_ids (qs : list AskQuestion) : list string := QuestionID <$> qs.

(** A well-formed ask: questions, each with an id of its own. *)
Definition well_formed (a : Ask) : Prop := Questions a ≠ [] ∧ NoDup (question_ids (Questions a)) ∧ "" ∉ question_ids (Questions a).

Lemma askQuestions_go_spec seen qs :
  askQuestions_go seen qs = true ↔ NoDup (question_ids qs) ∧ "" ∉ question_ids qs ∧ ∀ x, x ∈ question_ids qs → x ∉ seen.
Proof.
  revert seen. induction qs as [|q qs IH]; intros seen; cbn [askQuestions_go question_ids fmap list_fmap].
  { split; [|done]. intros _. split; [constructor|]. split; [by intros H%elem_of_nil|]. intros x H. by apply elem_of_nil in H. }
  change (QuestionID <$> qs) with (question_ids qs) in *. rewrite NoDup_cons, not_elem_of_cons. setoid_rewrite elem_of_cons.
  case_bool_decide as H1; [split; [done|]; intros (_ & [? _] & _); congruence|].
  case_bool_decide as H2; [split; [done|]; intros (_ & _ & H); by destruct (H (QuestionID q)); auto|].
  rewrite IH. setoid_rewrite not_elem_of_union. setoid_rewrite not_elem_of_singleton. split.
  - intros (Hn & He & Hs). split; [split; [|done]|split; [done|]].
    + intros Hin. by destruct (Hs _ Hin).
    + intros x [-> |Hx]; [done|by apply Hs].
  - intros ([Hq Hn] & [_ He] & Hs). split; [done|]. split; [done|]. intros x Hx. split; [congruence|by apply Hs; right].
Qed.

Lemma askQuestionsWellFormed_spec a : askQuestionsWellFormed a = true ↔ well_formed a.
Proof.
  unfold askQuestionsWellFormed, well_formed. destruct (Questions a) as [|q qs]; [naive_solver|]. rewrite askQuestions_go_spec. set_solver.
Qed.

Definition answer_snapshot (b : AskAnswerBlock) : Prop :=
  AskID (ab_Ask b) ≠ "" ∧ Answered (ab_Ask b) = true ∧ well_formed (ab_Ask b) ∧ AskerAccountID b ≠ "".

(** Exactly one variant, well-formed. *)
Definition valid_block (b : MessageBlock) : Prop :=
  match b with
  | MkBlock (Some _) None None => True
  | MkBlock None (Some a) None => well_formed a
  | MkBlock None None (Some aa) => answer_snapshot aa
  | _ => False
  end.

(** What only the way in checks: recommended options exist. *)
Definition recommended_valid (b : MessageBlock) : Prop :=
  match b_Ask b with Some a => Forall (λ q, ∀ r, Recommended q = Some r → (0 ≤ r < Z.of_nat (length (Options q)))%Z) (Questions a) | None => True end.

(** What is not stored. *)
Definition drop_coord (a : Ask) : Ask := MkAsk (AskID a) (Ref a) None (Questions a) (Answered a).
Definition stored_form (b : MessageBlock) : MessageBlock :=
  MkBlock (Text b) (drop_coord <$> b_Ask b) ((λ aa, MkAnswerBlock (drop_coord (ab_Ask aa)) (AskerAccountID aa)) <$> b_AskAnswer b).

Lemma recommended_ok_spec q : recommended_ok q = true ↔ ∀ r, Recommended q = Some r → (0 ≤ r < Z.of_nat (length (Options q)))%Z.
Proof.
  unfold recommended_ok. destruct (Recommended q) as [r|]; [|naive_solver].
  rewrite negb_true_iff, orb_false_iff, !bool_decide_eq_false. split; [intros [? ?] ? [= <-]; lia|intros H; specialize (H r eq_refl); lia].
Qed.

Lemma validateAskQuestions_spec a :
  validateAskQuestions a = (if bool_decide (well_formed a ∧ forallb recommended_ok (Questions a) = true) then Ok tt else Err ErrInvalidArgument).
Proof.
  unfold validateAskQuestions. destruct (askQuestionsWellFormed a) eqn:E.
  - apply askQuestionsWellFormed_spec in E. simpl. destruct (forallb _ _); case_bool_decide; tauto || naive_solver.
  - simpl. case_bool_decide as H; [|done]. destruct H as [H%askQuestionsWellFormed_spec _]. congruence.
Qed.

Lemma validateAskAnswer_spec b :
  validateAskAnswer b = (if bool_decide (AskID (ab_Ask b) ≠ "" ∧ Answered (ab_Ask b) = true ∧ askQuestionsWellFormed (ab_Ask b) = true ∧ AskerAccountID b ≠ "")
    then Ok tt else Err ErrInvalidArgument).
Proof.
  unfold validateAskAnswer. destruct (Answered (ab_Ask b)), (askQuestionsWellFormed (ab_Ask b)); repeat case_bool_decide; cbn [negb]; tauto || naive_solver.
Qed.

Lemma marshalBlock_cases b :
  (valid_block b ∧ recommended_valid b ∧ ∃ s, marshalBlock b = Ok s ∧ unmarshalBlock s = Ok (stored_form b))
  ∨ (¬ (valid_block b ∧ recommended_valid b) ∧ marshalBlock b = Err ErrInvalidArgument).
Proof.
  destruct b as [[t|] [a|] [aa|]]; cbn [marshalBlock valid_block]; try (right; split; [by intros [? _]|done]).
  - left. split; [done|]. split; [done|]. by eexists.
  - assert (forallb recommended_ok (Questions a) = true ↔ recommended_valid (MkBlock None (Some a) None)) as Hr.
    { unfold recommended_valid. simpl. rewrite forallb_forall, Forall_forall. setoid_rewrite list_elem_of_In. setoid_rewrite <- recommended_ok_spec. done. }
    rewrite validateAskQuestions_spec. case_bool_decide as H; [left|right].
    + destruct H as [Hw H]. split; [done|]. split; [by apply Hr|]. eexists. split; [reflexivity|]. unfold unmarshalBlock. simpl.
      change (askQuestionsWellFormed (fromStoredAsk (toStoredAsk a))) with (askQuestionsWellFormed a).
      by rewrite (proj2 (askQuestionsWellFormed_spec a) Hw).
    + split; [|done]. rewrite <- Hr. done.
  - rewrite validateAskAnswer_spec. case_bool_decide as H; [left|right].
    + pose proof H as (H1 & H2 & H3 & H4). split; [split; [done|split; [done|split; [by apply askQuestionsWellFormed_spec|done]]]|].
      split; [done|]. eexists. split; [reflexivity|]. unfold unmarshalBlock. simpl. rewrite !bool_decide_false by done.
      change (askQuestionsWellFormed (fromStoredAsk (toStoredAsk (ab_Ask aa)))) with (askQuestionsWellFormed (ab_Ask aa)).
      unfold toStoredAsk, stored_form, drop_coord. simpl. rewrite H2, H3. done.
    + split; [|done]. intros [(H1 & H2 & H3%askQuestionsWellFormed_spec & H4) _]. apply H. done.
Qed.

Lemma unmarshalBlock_valid s b : unmarshalBlock s = Ok b → valid_block b ∧ stored_form b = b.
Proof.
  unfold unmarshalBlock. case_bool_decide; [destruct (sb_Text s); [|done]; by intros [= <-]|].
  case_bool_decide.
  { destruct (sb_Ask s) as [a|]; [|done]. destruct (askQuestionsWellFormed _) eqn:E; [|done]. intros [= <-].
    split; [by apply askQuestionsWellFormed_spec|done]. }
  case_bool_decide; [|done]. destruct (sb_AskAnswer s) as [a|]; [|done]. case_bool_decide; [done|].
  destruct (sa_Answered _) eqn:Ea; [|done]. destruct (askQuestionsWellFormed _) eqn:E; [|done]. cbn [negb]. case_bool_decide; [done|].
  intros [= <-]. split; [|done]. split; [done|]. split; [done|]. split; [by apply askQuestionsWellFormed_spec|done].
Qed.

Lemma unmarshalBlock_error s e : unmarshalBlock s = Err e → e = ErrInternal.
Proof. unfold unmarshalBlock. repeat case_match; naive_solver. Qed.

Lemma unmarshalBlocks_valid stored blocks :
  unmarshalBlocks stored = Ok blocks → Forall valid_block blocks ∧ stored_form <$> blocks = blocks ∧ length blocks = length stored.
Proof.
  revert blocks. induction stored as [|s stored IH]; intros blocks; cbn [unmarshalBlocks]; [by intros [= <-]|].
  intros (b & Hb & (rest & Hr & [= <-])%rbind_Ok)%rbind_Ok. apply unmarshalBlock_valid in Hb as [Hv Hf].
  destruct (IH rest Hr) as (? & Hff & ?). split; [by constructor|]. rewrite fmap_cons, Hf, Hff. simpl. auto.
Qed.

Lemma marshalBlocks_ok blocks :
  Forall valid_block blocks → Forall recommended_valid blocks →
  ∃ stored, marshalBlocks blocks = Ok stored ∧ unmarshalBlocks stored = Ok (stored_form <$> blocks).
Proof.
  intros Hv. induction Hv as [|b blocks Hb Hv IH]; intros Hr; [by exists []|]. apply Forall_cons in Hr as [Hrb Hr].
  destruct (IH Hr) as (st & Hs & Hu). destruct (marshalBlock_cases b) as [(_ & _ & s & H1 & H2)|[H _]]; [|tauto].
  exists (s :: st). cbn [marshalBlocks unmarshalBlocks fmap list_fmap]. rewrite H1, H2. simpl. rewrite Hs, Hu. done.
Qed.

Lemma marshalBlocks_inv blocks :
  (∃ stored, marshalBlocks blocks = Ok stored ∧ Forall valid_block blocks ∧ Forall recommended_valid blocks)
  ∨ (marshalBlocks blocks = Err ErrInvalidArgument ∧ ¬ (Forall valid_block blocks ∧ Forall recommended_valid blocks)).
Proof.
  induction blocks as [|b blocks IH]; [left; by exists []|]. cbn [marshalBlocks].
  destruct (marshalBlock_cases b) as [(Hv & Hr & s & Hs & _)|[Hn He]].
  - rewrite Hs. simpl. destruct IH as [(st & Hst & H1 & H2)|[He Hn]].
    + left. exists (s :: st). rewrite Hst. split; [done|]. by split; constructor.
    + right. rewrite He. split; [done|]. rewrite !Forall_cons. tauto.
  - right. rewrite He. split; [done|]. rewrite !Forall_cons. tauto.
Qed.

Lemma textContent_stored blocks : textContent (stored_form <$> blocks) = textContent blocks.
Proof.
  unfold textContent. f_equal. f_equal. induction blocks as [|b blocks IH]; [done|]. rewrite !fmap_cons. cbn [concat]. rewrite IH. f_equal.
  by destruct b as [[t|] [a|] [aa|]].
Qed.

(** ** Answers *)

Lemma byID_step (qs : list AskQuestion) q : byID (qs ++ [q]) = <[QuestionID q := length qs]> (byID qs).
Proof. unfold byID. rewrite imap_app, foldl_app. simpl. by rewrite Nat.add_0_r. Qed.

(** With distinct ids the index is exact. *)
Lemma byID_spec qs id i : NoDup (question_ids qs) → byID qs !! id = Some i ↔ ∃ q, qs !! i = Some q ∧ QuestionID q = id.
Proof.
  revert i. induction qs as [|q qs IH] using rev_ind; intros i Hn; [unfold byID; simpl; rewrite lookup_empty; naive_solver|].
  unfold question_ids in Hn. rewrite fmap_app in Hn. apply NoDup_app in Hn as (Hn & Hd & _). fold (question_ids qs) in *.
  rewrite byID_step. destruct (decide (QuestionID q = id)) as [<-|Hne].
  - rewrite lookup_insert_eq. split.
    + intros [= <-]. exists q. split; [by apply list_lookup_middle|done].
    + intros (q' & Hi & Hq). apply lookup_app_Some in Hi as [Hi|[Hge Hi]].
      * destruct (Hd (QuestionID q)); [|simpl; set_solver]. rewrite <- Hq. apply list_elem_of_fmap_2. by eapply list_elem_of_lookup_2.
      * apply list_lookup_singleton_Some in Hi as [? _]. f_equal. lia.
  - rewrite lookup_insert_ne by done. rewrite IH by done. split.
    + intros (q' & Hi & Hq). exists q'. split; [by apply lookup_app_l_Some|done].
    + intros (q' & Hi & Hq). apply lookup_app_Some in Hi as [Hi|[Hge Hi]]; [by exists q'|].
      apply list_lookup_singleton_Some in Hi as [_ <-]. congruence.
Qed.

Lemma byID_None qs id : NoDup (question_ids qs) → byID qs !! id = None ↔ id ∉ question_ids qs.
Proof.
  intros Hn. split.
  - intros Hb (q & -> & Hq)%list_elem_of_fmap. apply list_elem_of_lookup in Hq as [i Hi].
    assert (byID qs !! QuestionID q = Some i) as E by (apply byID_spec; eauto). congruence.
  - intros Hni. destruct (byID qs !! id) as [i|] eqn:E; [|done]. apply byID_spec in E as (q & Hi & <-); [|done].
    destruct Hni. apply list_elem_of_fmap_2. by eapply list_elem_of_lookup_2.
Qed.

(** One answer fits a question: the arity, and offered options, once each. *)
Definition fits (q : AskQuestion) (a : AskAnswer) : Prop :=
  QuestionID q = a_QuestionID a
  ∧ (AllowMultiple q = false → length (a_Chosen a) ≤ 1 ∧ (length (a_Chosen a) = 1 → a_CustomText a = ""))
  ∧ NoDup (a_Chosen a) ∧ ∀ id, id ∈ a_Chosen a → id ∈ o_ID <$> Options q.

Lemma chosen_ok_spec offered seen ids :
  chosen_ok offered seen ids = true ↔ NoDup ids ∧ ∀ id, id ∈ ids → id ∈ offered ∧ id ∉ seen.
Proof.
  revert seen. induction ids as [|x ids IH]; intros seen; cbn [chosen_ok].
  { split; [|done]. intros _. split; [constructor|]. intros id H. by apply elem_of_nil in H. }
  rewrite NoDup_cons. setoid_rewrite elem_of_cons. case_bool_decide as H1; cbn [negb].
  2:{ split; [done|]. intros [_ H]. destruct (H x); [by left|done]. }
  case_bool_decide as H2; [split; [done|]; intros [_ H]; destruct (H x); [by left|done]|].
  rewrite IH. setoid_rewrite not_elem_of_union. setoid_rewrite not_elem_of_singleton. split.
  - intros [Hn H]. split; [split; [|done]|].
    + intros Hin. by destruct (H x Hin) as [_ [? _]].
    + intros id [-> |Hin]; [done|]. destruct (H id Hin) as (? & _ & ?). done.
  - intros [[Hx Hn] H]. split; [done|]. intros id Hin. destruct (H id) as [? ?]; [by right|]. split; [done|]. split; [congruence|done].
Qed.

Lemma validateQuestionAnswer_spec q a : QuestionID q = a_QuestionID a → validateQuestionAnswer q a = true ↔ fits q a.
Proof.
  intros Hid. unfold validateQuestionAnswer, fits. destruct (AllowMultiple q) eqn:Em; cbn [negb]; rewrite ?andb_false_r, ?andb_true_r.
  - rewrite chosen_ok_spec. setoid_rewrite elem_of_list_to_set. set_solver.
  - case_bool_decide as H1; [split; [done|]; intros (_ & H & _); destruct (H eq_refl); lia|].
    case_bool_decide as H2; cbn [andb].
    + case_bool_decide as H3; cbn [negb].
      * rewrite chosen_ok_spec. setoid_rewrite elem_of_list_to_set. split; [intros [? H]; split; [done|]; split; [intros _; split; [lia|done]|]; set_solver|set_solver].
      * split; [done|]. intros (_ & H & _). destruct (H eq_refl) as [_ H4]. by destruct (H3 (H4 H2)).
    + rewrite chosen_ok_spec. setoid_rewrite elem_of_list_to_set. split; [intros [? H]; split; [done|]; split; [intros _; split; [lia|done]|]; set_solver|set_solver].
Qed.

Definition answer_ids (answers : list AskAnswer) : list string := a_QuestionID <$> answers.

Definition answered_by (qs : list AskQuestion) (a : AskAnswer) : Prop := ∃ q, q ∈ qs ∧ fits q a.

Lemma check_answers_cases qs answered answers :
  NoDup (question_ids qs) →
  let good := NoDup (answer_ids answers) ∧ (∀ x, x ∈ answer_ids answers → x ∉ answered) ∧ Forall (answered_by qs) answers in
  (good ∧ check_answers qs answered answers = Ok (list_to_set (answer_ids answers) ∪ answered))
  ∨ (¬ good ∧ check_answers qs answered answers = Err ErrInvalidArgument).
Proof.
  intros Hq. revert answered. induction answers as [|a answers IH]; intros answered; cbn zeta; cbn [check_answers].
  { left. split; [split; [constructor|split; [|constructor]]; intros x H; by apply elem_of_nil in H|]. f_equal. unfold answer_ids. set_solver. }
  unfold answer_ids. cbn [fmap list_fmap list_to_set]. change (a_QuestionID <$> answers) with (answer_ids answers).
  destruct (byID qs !! a_QuestionID a) as [i|] eqn:Eb.
  2:{ right. split; [|done]. intros (_ & _ & (q & Hin & Hf & _)%Forall_cons_1%proj1). apply byID_None in Eb; [|done]. apply Eb.
      rewrite <- Hf. by apply list_elem_of_fmap_2. }
  apply byID_spec in Eb as (q & Hi & Hid); [|done]. rewrite Hi.
  case_bool_decide as Ea; [right; split; [|done]; intros (_ & H & _); by destruct (H (a_QuestionID a)); [left|]|].
  pose proof (list_elem_of_lookup_2 _ _ _ Hi) as Hin.
  assert (answered_by qs a ↔ fits q a) as Hab.
  { split; [|by exists q]. intros (q' & Hin' & Hf). assert (q' = q) as ->; [|done].
    apply list_elem_of_lookup in Hin' as [j Hj]. assert (i = j) as <-; [|congruence].
    eapply NoDup_lookup; [exact Hq| |]; unfold question_ids; rewrite list_lookup_fmap; [rewrite Hi|rewrite Hj]; simpl; [done|].
    f_equal. destruct Hf as [-> _]. done. }
  destruct (validateQuestionAnswer q a) eqn:Ev; cbn [negb].
  2:{ right. split; [|done]. intros (_ & _ & H%Forall_cons_1%proj1). apply Hab, validateQuestionAnswer_spec in H; [congruence|done]. }
  apply validateQuestionAnswer_spec, Hab in Ev; [|done].
  destruct (IH ({[a_QuestionID a]} ∪ answered)) as [[(H1 & H2 & H3) ->]|[Hn ->]].
  - left. split; [|f_equal; set_solver]. split; [apply NoDup_cons; set_solver|]. split; [set_solver|]. by constructor.
  - right. split; [|done]. intros ([H1 H2]%NoDup_cons & H3 & [_ H4]%Forall_cons_1). apply Hn. split; [done|]. split; [|done]. set_solver.
Qed.

(** The question, with its answer if it has one. *)
Definition with_answer (answers : list AskAnswer) (q : AskQuestion) : AskQuestion :=
  match find (λ a, bool_decide (a_QuestionID a = QuestionID q)) answers with Some a => record_answer a q | None => q end.

Lemma find_none_ids answers q : QuestionID q ∉ answer_ids answers → find (λ a, bool_decide (a_QuestionID a = QuestionID q)) answers = None.
Proof.
  intros H. destruct (find _ answers) as [a|] eqn:E; [|done]. apply find_some in E as [Hin Hb]. apply bool_decide_eq_true in Hb.
  destruct H. rewrite <- Hb. apply list_elem_of_fmap_2. by apply list_elem_of_In.
Qed.

Lemma record_answers_spec ids answers qs :
  NoDup (question_ids qs) → question_ids qs = question_ids ids → NoDup (answer_ids answers) → Forall (λ x, x ∈ question_ids qs) (answer_ids answers) →
  record_answers (byID ids) answers qs = Ok (with_answer answers <$> qs).
Proof.
  revert qs. induction answers as [|a answers IH]; intros qs Hq Hids Ha Hin; cbn [record_answers].
  { f_equal. symmetry. apply list_fmap_id. }
  unfold answer_ids in Ha, Hin. cbn [fmap list_fmap] in Ha, Hin. change (a_QuestionID <$> answers) with (answer_ids answers) in *.
  apply NoDup_cons in Ha as [Hna Ha]. apply Forall_cons in Hin as [Hia Hin].
  destruct (byID ids !! a_QuestionID a) as [i|] eqn:Eb.
  2:{ apply byID_None in Eb; [|by rewrite <- Hids]. by rewrite Hids in Hia. }
  apply byID_spec in Eb as (q0 & Hi0 & Hid); [|by rewrite <- Hids].
  assert (question_ids (alter (record_answer a) i qs) = question_ids qs) as Hsame.
  { unfold question_ids. apply list_eq. intros j. rewrite !list_lookup_fmap. destruct (decide (i = j)) as [<-|Hne].
    - rewrite list_lookup_alter_eq. by destruct (qs !! i).
    - by rewrite list_lookup_alter_ne. }
  rewrite IH; rewrite ?Hsame; try done. f_equal. apply list_eq. intros j. rewrite !list_lookup_fmap.
  assert (question_ids qs !! i = Some (a_QuestionID a)) as Hqi.
  { rewrite Hids. unfold question_ids. rewrite list_lookup_fmap, Hi0. simpl. congruence. }
  destruct (decide (i = j)) as [<-|Hne].
  - rewrite list_lookup_alter_eq. unfold question_ids in Hqi. rewrite list_lookup_fmap in Hqi.
    destruct (qs !! i) as [q|] eqn:Ei; [|done]. simpl in *. injection Hqi as Hqi. unfold with_answer at 2. simpl.
    rewrite bool_decide_true by done. unfold with_answer. simpl. rewrite find_none_ids; [done|]. simpl. congruence.
  - rewrite list_lookup_alter_ne by done. destruct (qs !! j) as [q|] eqn:Ej; [|done]. simpl. f_equal.
    unfold with_answer. simpl. rewrite bool_decide_false; [done|]. intros E. apply Hne.
    eapply NoDup_lookup; [exact Hq|exact Hqi|]. unfold question_ids. rewrite list_lookup_fmap, Ej. simpl. congruence.
Qed.

(** Every question answered exactly once, each answer fitting. *)
Definition covers (ask : Ask) (answers : list AskAnswer) : Prop :=
  answer_ids answers ≡ₚ question_ids (Questions ask) ∧ Forall (answered_by (Questions ask)) answers.

Definition answered_ask (ask : Ask) (answers : list AskAnswer) : Ask :=
  MkAsk (AskID ask) (Ref ask) (RefCoord ask) (with_answer answers <$> Questions ask) true.

Lemma answered_ids qs answers : Forall (answered_by qs) answers → Forall (λ x, x ∈ question_ids qs) (answer_ids answers).
Proof.
  intros H. apply Forall_fmap. eapply Forall_impl; [exact H|]. intros a (q & Hin & Hf & _). simpl. rewrite <- Hf. by apply list_elem_of_fmap_2.
Qed.

Lemma answerAsk_spec ask answers :
  NoDup (question_ids (Questions ask)) →
  (Answered ask = true → answerAsk ask answers = Err ErrConflict)
  ∧ (Answered ask = false → covers ask answers → answerAsk ask answers = Ok (answered_ask ask answers))
  ∧ (Answered ask = false → ¬ covers ask answers → answerAsk ask answers = Err ErrInvalidArgument).
Proof.
  intros Hq. unfold answerAsk. split; [by intros ->|].
  destruct (check_answers_cases (Questions ask) ∅ answers Hq) as [[(H1 & _ & H3) E]|[Hn E]].
  - rewrite E. cbn [rbind]. rewrite union_empty_r_L, size_list_to_set by done.
    pose proof (answered_ids _ _ H3) as Hin. split; intros -> Hc.
    + destruct Hc as [Hp _]. pose proof (Permutation_length Hp) as Hl. unfold question_ids in Hl. rewrite length_fmap in Hl.
      rewrite bool_decide_true by done. cbn [negb]. by rewrite record_answers_spec.
    + rewrite bool_decide_false; [done|]. intros Hl. apply Hc. split; [|done].
      apply submseteq_length_Permutation; [|unfold question_ids; rewrite length_fmap; lia].
      apply NoDup_submseteq; [done|]. rewrite Forall_forall in Hin. done.
  - rewrite E. cbn [rbind]. split; [|by intros ->]. intros -> [Hp Hf]. destruct Hn. split; [by rewrite Hp|]. split; [|done].
    intros x _. apply not_elem_of_empty.
Qed.

Definition set_ask (ask : Ask) (b : MessageBlock) : MessageBlock := MkBlock (Text b) (Some ask) (b_AskAnswer b).

Definition carries (askID : string) (b : MessageBlock) : Prop := ∃ a, b_Ask b = Some a ∧ AskID a = askID.

(** The block of an ask in a message. *)
Definition ask_at (askID : string) (blocks pre : list MessageBlock) (b : MessageBlock) (ask : Ask) (post : list MessageBlock) : Prop :=
  blocks = pre ++ b :: post ∧ b_Ask b = Some ask ∧ AskID ask = askID ∧ Forall (λ b, ¬ carries askID b) pre.

Lemma ask_at_dec askID blocks :
  Forall (λ b, ¬ carries askID b) blocks ∨ ∃ pre b ask post, ask_at askID blocks pre b ask post.
Proof.
  induction blocks as [|b blocks IH]; [by left|]. destruct (b_Ask b) as [a|] eqn:Ea.
  - destruct (decide (AskID a = askID)) as [Hid|Hne]; [right; by exists [], b, a, blocks|].
    assert (¬ carries askID b) as Hnc by (intros (a' & E & ?); congruence).
    destruct IH as [?|(pre & b' & ask & post & -> & H)]; [left; by constructor|]. right. exists (b :: pre), b', ask, post. split; [done|].
    destruct H as (? & ? & ?). split; [done|]. split; [done|]. by constructor.
  - assert (¬ carries askID b) as Hnc by (intros (a' & E & ?); congruence).
    destruct IH as [?|(pre & b' & ask & post & -> & H)]; [left; by constructor|]. right. exists (b :: pre), b', ask, post. split; [done|].
    destruct H as (? & ? & ?). split; [done|]. split; [done|]. by constructor.
Qed.

Lemma skip_block {A} askID b (x : Ask → A) (y : A) :
  ¬ carries askID b → (match b_Ask b with Some a => if bool_decide (AskID a = askID) then x a else y | None => y end) = y.
Proof.
  intros H. destruct (b_Ask b) as [a|] eqn:E; [|done]. rewrite bool_decide_false; [done|]. intros Hid. apply H. by exists a.
Qed.

Lemma applyAskAnswer_at askID answers blocks pre b ask post :
  ask_at askID blocks pre b ask post →
  applyAskAnswer askID answers blocks = (ask' <-? answerAsk ask answers; Ok (pre ++ set_ask ask' b :: post)).
Proof.
  intros (-> & Hb & Hid & Hpre). induction Hpre as [|x pre Hx _ IH]; cbn [app applyAskAnswer].
  - rewrite Hb, bool_decide_true by done. done.
  - destruct (b_Ask x) as [a|] eqn:Ea.
    + rewrite bool_decide_false by (intros E; apply Hx; by exists a). rewrite IH. by destruct (answerAsk ask answers).
    + rewrite IH. by destruct (answerAsk ask answers).
Qed.

Lemma applyAskAnswer_none askID answers blocks : Forall (λ b, ¬ carries askID b) blocks → applyAskAnswer askID answers blocks = Err ErrNotFound.
Proof.
  induction 1 as [|b blocks Hb _ IH]; [done|]. cbn [applyAskAnswer]. rewrite IH. cbn [rbind]. by rewrite (skip_block askID b (λ a, rbind (answerAsk a answers) _)).
Qed.

Lemma findAsk_at askID blocks pre b ask post : ask_at askID blocks pre b ask post → findAsk askID blocks = Some ask.
Proof.
  intros (-> & Hb & Hid & Hpre). induction Hpre as [|x pre Hx _ IH]; cbn [app findAsk].
  - rewrite Hb, bool_decide_true by done. done.
  - by rewrite (skip_block askID x Some).
Qed.

(** * Claims *)

(** C38. Blocks are stored exactly when each sets one variant and its ask is well-formed
    (questions with distinct non-empty ids, recommended options in range; an answer
    snapshot answered, with an asker), and refused as an invalid argument otherwise;
    what was stored reads back as the blocks, derived coordinates apart, with the same
    searchable text; and nothing that reads back is malformed. *)
Theorem blocks_roundtrip blocks :
  (Forall valid_block blocks ∧ Forall recommended_valid blocks →
     ∃ stored, marshalBlocks blocks = Ok stored ∧ unmarshalBlocks stored = Ok (stored_form <$> blocks)
       ∧ textContent (stored_form <$> blocks) = textContent blocks)
  ∧ (¬ (Forall valid_block blocks ∧ Forall recommended_valid blocks) → marshalBlocks blocks = Err ErrInvalidArgument)
  ∧ (∀ stored, unmarshalBlocks stored = Ok blocks → Forall valid_block blocks ∧ stored_form <$> blocks = blocks).
Proof.
  split; [|split].
  - intros [Hv Hr]. destruct (marshalBlocks_ok blocks Hv Hr) as (st & ? & ?). exists st. split; [done|]. split; [done|apply textContent_stored].
  - intros Hn. destruct (marshalBlocks_inv blocks) as [(st & _ & ?)|[? _]]; [tauto|done].
  - intros stored Hu. apply unmarshalBlocks_valid in Hu. tauto.
Qed.

(** An answer goes to the first block with the ask's id, once: answered before, it is a
    conflict; otherwise it is recorded exactly when the answers name every question of the
    ask once and no other, and choose offered options, once each, at most one and without
    a text of its own on a single choice; then each question has its answer and nothing
    else of the message changes. *)
Theorem apply_answer_exact askID answers blocks :
  Forall valid_block blocks →
  (Forall (λ b, ¬ carries askID b) blocks ∧ applyAskAnswer askID answers blocks = Err ErrNotFound)
  ∨ ∃ pre b ask post, ask_at askID blocks pre b ask post ∧
      (Answered ask = true → applyAskAnswer askID answers blocks = Err ErrConflict)
      ∧ (Answered ask = false → covers ask answers →
           applyAskAnswer askID answers blocks = Ok (pre ++ set_ask (answered_ask ask answers) b :: post))
      ∧ (Answered ask = false → ¬ covers ask answers → applyAskAnswer askID answers blocks = Err ErrInvalidArgument).
Proof.
  intros Hv. destruct (ask_at_dec askID blocks) as [Hn|(pre & b & ask & post & Hat)]; [left; split; [done|by apply applyAskAnswer_none]|right].
  exists pre, b, ask, post. split; [done|]. rewrite (applyAskAnswer_at _ _ _ _ _ _ _ Hat).
  assert (NoDup (question_ids (Questions ask))) as Hq.
  { destruct Hat as (-> & Hb & _ & _). apply Forall_app in Hv as [_ [Hb' _]%Forall_cons]. destruct b as [[t|] [a|] [aa|]]; try done.
    simpl in Hb. injection Hb as ->. apply Hb'. }
  destruct (answerAsk_spec ask answers Hq) as (H1 & H2 & H3).
  split; [by intros ->%H1|]. split; [by intros Ha ->%H2|by intros Ha ->%H3].
Qed.

(** An ask of two questions, answered with a choice and a text. *)
Definition sample_question (id : string) (opts : list string) : AskQuestion :=
  MkQuestion id ("Which " ++ id) "" ((λ o, MkOption o o "" "") <$> opts) false None [] "" false.
Definition sample_ask : Ask := MkAsk "ask-1" "" None [sample_question "q1" ["a"; "b"]; sample_question "q2" []] false.
Definition sample_blocks : list MessageBlock := [MkBlock (Some "hello") None None; MkBlock None (Some sample_ask) None].

Lemma apply_answer_exact_witness :
  applyAskAnswer "ask-1" [MkAnswer "q2" [] "text"; MkAnswer "q1" ["b"] ""] sample_blocks
  = Ok [MkBlock (Some "hello") None None;
        MkBlock None (Some (answered_ask sample_ask [MkAnswer "q2" [] "text"; MkAnswer "q1" ["b"] ""])) None]
  ∧ ∃ pre b ask post, ask_at "ask-1" sample_blocks pre b ask post.
Proof.
  split; [vm_compute; reflexivity|].
  assert (Forall valid_block sample_blocks) as Hv.
  { repeat constructor; try done; simpl; set_solver. }
  destruct (apply_answer_exact "ask-1" [MkAnswer "q2" [] "text"] sample_blocks Hv) as [[_ H]|(pre & b & ask & post & H & _)]; [vm_compute in H; discriminate H|].
  by exists pre, b, ask, post.
Defined.

Lemma blocks_roundtrip_witness :
  ∃ stored, marshalBlocks sample_blocks = Ok stored ∧ unmarshalBlocks stored = Ok sample_blocks.
Proof.
  destruct (proj1 (blocks_roundtrip sample_blocks)) as (st & H1 & H2 & _).
  - split; repeat constructor; try done; simpl; set_solver.
  - by exists st.
Defined.

End Blocks.
