(* ===== verification/Messages.v ===== *)
(** The message store ([src/go/internal/store/messages.go], [topics.go] and their queries):
    appending under a topic that is named or created, the idempotency key, renaming and
    merging topics, paging, and the answer of an ask.

    A transaction is one function on the tables: an error leaves them as they were.
    Transactions that race are those that the row locks and unique indexes put in an
    order.  Tables are lists in insertion order; a message's sequence number comes from
    one counter.  [newID] gives fresh ids by a counter, [lower] is the database's, [pick]
    the order in which an unordered query returns its rows, and [mirror] and [bump] are
    the outcomes of the forge-mirror statements that run in the same transaction.  The
    author's handle and the full-text search are left out. *)
From stdpp Require Import base gmap strings list sets sorting.
From Stdlib Require Import ZArith Lia.
From S2P Require Import Prelude ChannelTree Blocks.

Module Messages.
Import ChannelTree Blocks.

Open Scope Z_scope.

Record Topic := MkTopic {
  t_ID : string; t_ChannelID : string; Name : string; CreatedByAccountID : string; CreatedAtUnixMS : Z; Archived : bool; LastSeq : Z;
}.

Record messageRow := MkRow {
  m_ID : string; m_TopicID : string; m_Author : string; m_At : Z; m_Seq : Z; m_Blocks : list storedBlock; m_Text : string;
  m_Request : string; m_Turn : Z;
}.

Record Message := MkMessage {
  ID : string; TopicID : string; AuthorAccountID : string; At : Z; MessageBlocks : list MessageBlock; TurnSequence : Z;
}.

Record TopicRef := MkTopicRef { r_ID : string; r_Name : string; Create : bool }.

Record store := MkStore { dir : directory; topics : list Topic; messages : list messageRow; next_seq : Z; next_id : nat }.

Definition ChannelPostPolicyOwnerOnly : Z := 1.
Definition defaultPageLimit : Z := 50.
Definition maxPageLimit : Z := 200.

Definition clampLimit (requested : Z) : Z :=
  if bool_decide (requested = 0) then defaultPageLimit
  else if bool_decide (requested > maxPageLimit) then maxPageLimit else requested.

Definition set_topics (l : list Topic) (st : store) : store := MkStore (dir st) l (messages st) (next_seq st) (next_id st).
Definition set_messages (l : list messageRow) (st : store) : store := MkStore (dir st) (topics st) l (next_seq st) (next_id st).
Definition set_next_id (n : nat) (st : store) : store := MkStore (dir st) (topics st) (messages st) (next_seq st) n.

(** ** Rows *)

Definition GetTopic (st : store) (id : string) : option Topic := find (λ t, bool_decide (t_ID t = id)) (topics st).

Definition map_topic (f : Topic → Topic) (id : string) (l : list Topic) : list Topic :=
  map (λ t, if bool_decide (t_ID t = id) then f t else t) l.

Definition set_LastSeq (n : Z) (t : Topic) : Topic := MkTopic (t_ID t) (t_ChannelID t) (Name t) (CreatedByAccountID t) (CreatedAtUnixMS t) (Archived t) n.
Definition set_Archived (b : bool) (t : Topic) : Topic := MkTopic (t_ID t) (t_ChannelID t) (Name t) (CreatedByAccountID t) (CreatedAtUnixMS t) b (LastSeq t).
Definition set_Name (n : string) (t : Topic) : Topic := MkTopic (t_ID t) (t_ChannelID t) n (CreatedByAccountID t) (CreatedAtUnixMS t) (Archived t) (LastSeq t).

(** [GREATEST(last_seq, n)]. *)
Definition UpdateTopicLastSeq (id : string) (n : Z) (st : store) : store :=
  set_topics (map_topic (λ t, set_LastSeq (Z.max (LastSeq t) n) t) id (topics st)) st.

(** [messageFromParts]. *)
Definition messageFromParts (r : messageRow) : result storeError Message :=
  blocks <-? unmarshalBlocks (m_Blocks r); Ok (MkMessage (m_ID r) (m_TopicID r) (m_Author r) (m_At r) blocks (m_Turn r)).

Fixpoint messagesFromRows (rows : list messageRow) : result storeError (list Message) :=
  match rows with
  | [] => Ok []
  | r :: rows => m <-? messageFromParts r; rest <-? messagesFromRows rows; Ok (m :: rest)
  end.

(** The channel of a message: its topic's. *)
Definition channel_of (st : store) (r : messageRow) : option string := t_ChannelID <$> GetTopic st (m_TopicID r).

Definition participates (st : store) (actor channel : string) : bool := bool_decide (channel ∈ participating (dir st) actor).

(** The row is in a channel where the actor participates. *)
Definition sees (st : store) (actor : string) (r : messageRow) : bool :=
  match channel_of st r with Some c => participates st actor c | None => false end.

Section ops.
Context (newID : nat → string) (lower : string → string) (pick : list messageRow → list messageRow).

(** ** Topics *)

Definition same_name (channel name : string) (t : Topic) : bool := bool_decide (t_ChannelID t = channel ∧ lower (Name t) = lower name).

(** [InsertTopicIgnore]: the rows inserted. *)
Definition InsertTopicIgnore (channel name author : string) (atMS : Z) (st : store) : result storeError (nat * store) :=
  let id := newID (next_id st) in
  let st := set_next_id (S (next_id st)) st in
  if existsb (same_name channel name) (topics st) then Ok (0%nat, st)
  else if existsb (λ t, bool_decide (t_ID t = id)) (topics st) then Err ErrInternal
  else if negb (bool_decide (is_Some (channels (dir st) !! channel)) && bool_decide (author ∈ accounts (dir st))) then Err ErrInvalidArgument
  else Ok (1%nat, set_topics (topics st ++ [MkTopic id channel name author atMS false 0]) st).

(** The id, whether it was created or revived, and the tables. *)
Definition resolveTopicForAppend (channel : string) (topic : TopicRef) (author : string) (atMS : Z) (st : store)
    : result storeError (string * bool * store) :=
  if negb (bool_decide (r_ID topic = "")) then
    match GetTopic st (r_ID topic) with
    | None => Err ErrInvalidArgument
    | Some t => if bool_decide (t_ChannelID t = channel) then Ok (r_ID topic, false, st) else Err ErrInvalidArgument
    end
  else
    created <-? (if Create topic then InsertTopicIgnore channel (r_Name topic) author atMS st else Ok (0%nat, st));
    let '(n, st) := created in
    match find (same_name channel (r_Name topic)) (topics st) with
    | None => Err ErrNotFound
    | Some t =>
        if Archived t then Ok (t_ID t, true, set_topics (map_topic (set_Archived false) (t_ID t) (topics st)) st)
        else Ok (t_ID t, bool_decide (0 < n)%nat, st)
    end.

Definition GetOrCreateTopic (channel name author : string) (atMS : Z) (st : store) : result storeError (string * option Topic * store) :=
  if bool_decide (channel = "") || bool_decide (name = "") then Err ErrInvalidArgument
  else
    r <-? resolveTopicForAppend channel (MkTopicRef "" name true) author atMS st;
    let '(id, changed, st) := r in
    if changed then match GetTopic st id with None => Err ErrInternal | Some t => Ok (id, Some t, st) end
    else Ok (id, None, st).

(** ** Messages *)

Inductive insertErr := errMessageInsertConflict | foreignKey | insertFailed (e : storeError).

Definition has_request (author request : string) (r : messageRow) : bool := bool_decide (m_Author r = author ∧ m_Request r = request).

Definition insertMessageTx (now : Z) (m : Message) (topicID request : string) (st : store) : result insertErr (Message * store) :=
  match marshalBlocks (MessageBlocks m) with
  | Err e => Err (insertFailed e)
  | Panic => Panic
  | Ok stored =>
      let id := newID (next_id st) in
      let row := MkRow id topicID (AuthorAccountID m) now (next_seq st) stored (textContent (MessageBlocks m)) request (i64 (TurnSequence m)) in
      if negb (bool_decide (request = "")) && existsb (has_request (AuthorAccountID m) request) (messages st) then Err errMessageInsertConflict
      else if existsb (λ r, bool_decide (m_ID r = id)) (messages st) || bool_decide (i64 (TurnSequence m) < 0) then Err (insertFailed ErrInternal)
      else if negb (bool_decide (AuthorAccountID m ∈ accounts (dir st)) && bool_decide (is_Some (GetTopic st topicID))) then Err foreignKey
      else
        let st := MkStore (dir st) (topics st) (messages st ++ [row]) (next_seq st + 1) (S (next_id st)) in
        Ok (MkMessage id topicID (AuthorAccountID m) now (MessageBlocks m) (TurnSequence m), UpdateTopicLastSeq topicID (m_Seq row) st)
  end.

(** [getMessageByRequestID], after the transaction was rolled back. *)
Definition getMessageByRequestID (author request : string) (st : store) : result storeError Message :=
  match filter (λ r, has_request author request r = true) (messages st) with
  | [] => Err ErrNotFound
  | r :: _ => messageFromParts r
  end.

Definition MessageRequestRecorded (author request : string) (st : store) : bool := existsb (has_request author request) (messages st).

Definition checkPostPolicy (author channel : string) (st : store) : result storeError unit :=
  match channels (dir st) !! channel with
  | None => Err ErrNotFound
  | Some c =>
      if bool_decide (post_policy c = ChannelPostPolicyOwnerOnly) && negb (bool_decide (author = default "" (owner_account_id c)))
      then Err ErrPermissionDenied else Ok tt
  end.

Definition AppendMessageTopic (now : Z) (mirror : Message → result storeError unit) (m : Message) (channel : string) (topic : TopicRef) (request : string)
    (st : store) : result storeError (Message * option Topic * bool * store) :=
  if bool_decide (channel = "") then Err ErrInvalidArgument
  else if bool_decide (TurnSequence m > MaxInt64) then Err ErrInvalidArgument
  else if bool_decide (MessageBlocks m = []) then Err ErrInvalidArgument
  else if bool_decide (bool_decide (r_ID topic = "") = bool_decide (r_Name topic = "")) then Err ErrInvalidArgument
  else
    let '(blocks, n) := mintAskIDs newID (next_id st) (MessageBlocks m) in
    let m := MkMessage (ID m) (TopicID m) (AuthorAccountID m) (At m) blocks (TurnSequence m) in
    let st0 := set_next_id n st in
    _ <-? requireChannelMember (dir st0) (AuthorAccountID m) channel;
    _ <-? checkPostPolicy (AuthorAccountID m) channel st0;
    r <-? resolveTopicForAppend channel topic (AuthorAccountID m) now st0;
    let '(topicID, changed, st1) := r in
    match insertMessageTx now m topicID request st1 with
    | Err errMessageInsertConflict => stored <-? getMessageByRequestID (AuthorAccountID m) request st0; Ok (stored, None, false, st0)
    | Err foreignKey => Err ErrInvalidArgument
    | Err (insertFailed e) => Err e
    | Panic => Panic
    | Ok (inserted, st2) =>
        _ <-? mirror inserted;
        if changed then match GetTopic st2 topicID with None => Err ErrInternal | Some t => Ok (inserted, Some t, true, st2) end
        else Ok (inserted, None, true, st2)
    end.

Definition asks_have_ids (blocks : list MessageBlock) : bool :=
  forallb (λ b, match b_Ask b with Some a => negb (bool_decide (AskID a = "")) | None => true end) blocks.

Definition set_blocks (stored : list storedBlock) (text : string) (r : messageRow) : messageRow :=
  MkRow (m_ID r) (m_TopicID r) (m_Author r) (m_At r) (m_Seq r) stored text (m_Request r) (m_Turn r).

Definition updateMessageBlocksExec (id : string) (blocks : list MessageBlock) (st : store) : result storeError store :=
  if bool_decide (blocks = []) then Err ErrInvalidArgument
  else if negb (asks_have_ids blocks) then Err ErrInvalidArgument
  else
    stored <-? marshalBlocks blocks;
    if existsb (λ r, bool_decide (m_ID r = id)) (messages st) then
      Ok (set_messages (map (λ r, if bool_decide (m_ID r = id) then set_blocks stored (textContent blocks) r else r) (messages st)) st)
    else Err ErrNotFound.

Definition UpdateMessageBlocksAsAuthor (actor id : string) (blocks : list MessageBlock) (st : store) : result storeError (Message * store) :=
  if bool_decide (id = "") then Err ErrInvalidArgument
  else if bool_decide (blocks = []) then Err ErrInvalidArgument
  else if negb (asks_have_ids blocks) then Err ErrInvalidArgument
  else
    stored <-? marshalBlocks blocks;
    let hit (r : messageRow) := bool_decide (m_ID r = id) && sees st actor r && bool_decide (m_Author r = actor) in
    match find hit (messages st) with
    | None => Err ErrNotFound
    | Some r =>
        m <-? messageFromParts (set_blocks stored (textContent blocks) r);
        Ok (m, set_messages (map (λ r, if hit r then set_blocks stored (textContent blocks) r else r) (messages st)) st)
    end.

(** The author's ask ids; a member row is asked for, where an update asks for participation. *)
Definition MessageAskIDs (actor id : string) (st : store) : result storeError (list string) :=
  if bool_decide (id = "") then Err ErrInvalidArgument
  else
    let hit (r : messageRow) := bool_decide (m_ID r = id) && bool_decide (m_Author r = actor)
      && match channel_of st r with Some c => bool_decide ((c, actor) ∈ channel_members (dir st)) | None => false end in
    match find hit (messages st) with
    | None => Err ErrNotFound
    | Some r => blocks <-? unmarshalBlocks (m_Blocks r); Ok (omap (λ b, AskID <$> b_Ask b) blocks)
    end.

Definition FindAskMessage (actor askID : string) (st : store) : list messageRow :=
  pick (filter (λ r, sees st actor r && askIDContainmentFilter askID (m_Blocks r) = true) (messages st)).

Definition AnswerAsk (now : Z) (bump : result storeError unit) (actor askID : string) (answers : list AskAnswer) (st : store)
    : result storeError (Message * Message * store) :=
  if bool_decide (askID = "") then Err ErrInvalidArgument
  else
    match FindAskMessage actor askID st with
    | [] => Err ErrNotFound
    | r :: _ =>
        msg <-? messageFromParts r;
        blocks <-? applyAskAnswer askID answers (MessageBlocks msg);
        st1 <-? updateMessageBlocksExec (ID msg) blocks st;
        match findAsk askID blocks with
        | None => Err ErrInternal
        | Some answered =>
            let answer := MkMessage "" "" actor 0 [MkBlock None None (Some (MkAnswerBlock answered (AuthorAccountID msg)))] 0 in
            match insertMessageTx now answer (TopicID msg) "" st1 with
            | Ok (inserted, st2) =>
                _ <-? bump;
                Ok (MkMessage (ID msg) (TopicID msg) (AuthorAccountID msg) (At msg) blocks (TurnSequence msg), inserted, st2)
            | Err (insertFailed e) => Err e
            | Err _ => Err ErrInternal
            | Panic => Panic
            end
        end
    end.

(** ** Renaming and merging *)

Definition MoveMessagesToTopic (target source : string) (l : list messageRow) : list messageRow :=
  map (λ r, if bool_decide (m_TopicID r = source) then
    MkRow (m_ID r) target (m_Author r) (m_At r) (m_Seq r) (m_Blocks r) (m_Text r) (m_Request r) (m_Turn r) else r) l.

Definition applyTopicRename (channel topicID newName : string) (st : store) : result storeError (string * store) :=
  match find (λ t, same_name channel newName t && negb (bool_decide (t_ID t = topicID))) (topics st) with
  | None => Ok (topicID, set_topics (map_topic (set_Name newName) topicID (topics st)) st)
  | Some target =>
      let st := set_messages (MoveMessagesToTopic (t_ID target) topicID (messages st)) st in
      let st := match GetTopic st topicID with Some src => UpdateTopicLastSeq (t_ID target) (LastSeq src) st | None => st end in
      Ok (t_ID target, set_topics (filter (λ t, t_ID t ≠ topicID) (topics st)) st)
  end.

Definition UpdateTopic (caller topicID : string) (name : option string) (archived : option bool) (st : store) : result storeError (Topic * store) :=
  if bool_decide (topicID = "") then Err ErrInvalidArgument
  else match GetTopic st topicID with
  | None => Err ErrNotFound
  | Some t =>
      if negb (participates st caller (t_ChannelID t)) then Err ErrNotFound
      else
        r <-? match name with Some n => applyTopicRename (t_ChannelID t) topicID n st | None => Ok (topicID, st) end;
        let '(surviving, st) := r in
        let st := match archived with Some b => set_topics (map_topic (set_Archived b) surviving (topics st)) st | None => st end in
        match GetTopic st surviving with None => Err ErrInternal | Some t => Ok (t, st) end
  end.

End ops.

(** ** Reads *)

Definition MessagesHeadSeq (st : store) : Z := foldr (λ r, Z.max (m_Seq r)) 0 (messages st).

Record ListMessagesQuery := MkQuery { q_Actor : string; q_Channel : string; q_Topic : string; q_Limit : Z; q_Before : string; q_Snapshot : Z }.

(** The rows of the channel that the query admits, newest first. *)
Definition listed (st : store) (q : ListMessagesQuery) (beforeSeq : Z) : list messageRow :=
  reverse (filter (λ r, bool_decide (channel_of st r = Some (q_Channel q)) && participates st (q_Actor q) (q_Channel q)
    && (bool_decide (beforeSeq = 0) || bool_decide (m_Seq r < beforeSeq))
    && (bool_decide (i64 (q_Snapshot q) = 0) || bool_decide (m_Seq r ≤ i64 (q_Snapshot q)))
    && (bool_decide (q_Topic q = "") || bool_decide (m_TopicID r = q_Topic q)) = true) (messages st)).

Definition GetPageCursorSeq (st : store) (actor id channel : string) : option Z :=
  m_Seq <$> find (λ r, bool_decide (m_ID r = id) && bool_decide (channel_of st r = Some channel) && participates st actor channel) (messages st).

Definition ListMessages (st : store) (q : ListMessagesQuery) : result storeError (list Message) :=
  if bool_decide (q_Channel q = "") then Err ErrInvalidArgument
  else
    before <-? (if bool_decide (q_Before q = "") then Ok 0
                else match GetPageCursorSeq st (q_Actor q) (q_Before q) (q_Channel q) with Some n => Ok n | None => Err ErrInvalidArgument end);
    messagesFromRows (take (Z.to_nat (clampLimit (q_Limit q))) (listed st q before)).

Record TopicStats := MkStats { MessageCount : Z; LastMessageAtUnixMS : Z }.

Definition topic_stats (st : store) (id : string) : TopicStats :=
  let rows := filter (λ r, m_TopicID r = id) (messages st) in
  MkStats (Z.of_nat (length rows)) (match last rows with Some r => m_At r | None => 0 end).

(** Newest activity first, then newest, then by id in the database's order. *)
Definition topic_le (collate : string → string → bool) (a b : Topic) : bool :=
  if negb (bool_decide (LastSeq a = LastSeq b)) then bool_decide (LastSeq b < LastSeq a)
  else if negb (bool_decide (CreatedAtUnixMS a = CreatedAtUnixMS b)) then bool_decide (CreatedAtUnixMS b < CreatedAtUnixMS a)
  else collate (t_ID a) (t_ID b).

Definition ListTopics (collate : string → string → bool) (caller channel : string) (includeArchived : bool) (st : store) : result storeError (list Topic) :=
  if bool_decide (channel = "") then Err ErrInvalidArgument
  else
    _ <-? requireChannelMember (dir st) caller channel;
    Ok (merge_sort (λ a b, Is_true (topic_le collate a b))
      (filter (λ t, t_ChannelID t = channel ∧ Is_true (includeArchived || negb (Archived t))) (topics st))).

Definition ListTopicsWithStats (collate : string → string → bool) (caller channel : string) (includeArchived : bool) (st : store)
    : result storeError (list (Topic * TopicStats)) :=
  l <-? ListTopics collate caller channel includeArchived st; Ok ((λ t, (t, topic_stats st (t_ID t))) <$> l).

End Messages.
