(* ===== verification/MessageFacts.v ===== *)
(** Theorems about the message store of [Messages]: the tables stay well-formed, an ask is
    answered once, a page walk covers a channel, and what an append does. *)
From stdpp Require Import base gmap strings list sets sorting.
From Stdlib Require Import ZArith Lia.
From S2P Require Import Prelude ChannelTree Blocks Messages.

Module MessageFacts.
Import ChannelTree Blocks Messages.

Open Scope Z_scope.

(** * Histories *)

Inductive op :=
| Append (now : Z) (mirror : result storeError unit) (m : Message) (channel : string) (topic : TopicRef) (request : string)
| AnswerOf (now : Z) (bump : result storeError unit) (actor askID : string) (answers : list AskAnswer)
| EditAsAuthor (actor id : string) (blocks : list MessageBlock)
| EditTopic (caller topicID : string) (name : option string) (archived : option bool)
| EnsureTopic (channel name author : string) (atMS : Z)
| Directory (d : directory).

Section history.
Context (newID : nat → string) (lower : string → string) (pick : list messageRow → list messageRow).

(** The tables after an operation; one that fails leaves them. *)
Definition run_op (st : store) (o : op) : store :=
  match o with
  | Append now mirror m channel topic request =>
      match AppendMessageTopic newID lower now (λ _, mirror) m channel topic request st with Ok (_, _, _, st') => st' | _ => st end
  | AnswerOf now bump actor askID answers =>
      match AnswerAsk newID pick now bump actor askID answers st with Ok (_, _, st') => st' | _ => st end
  | EditAsAuthor actor id blocks => match UpdateMessageBlocksAsAuthor actor id blocks st with Ok (_, st') => st' | _ => st end
  | EditTopic caller topicID name archived => match UpdateTopic lower caller topicID name archived st with Ok (_, st') => st' | _ => st end
  | EnsureTopic channel name author atMS => match GetOrCreateTopic newID lower channel name author atMS st with Ok (_, _, st') => st' | _ => st end
  | Directory d => MkStore d (topics st) (messages st) (next_seq st) (next_id st)
  end.

Definition empty_store (d : directory) : store := MkStore d [] [] 1 0.
Definition run (d : directory) (ops : list op) : store := foldl run_op (empty_store d) ops.

(** * Well-formed tables *)

(** The highest sequence number under a topic. *)
Definition max_seq (id : string) (l : list messageRow) : Z := foldr (λ r, Z.max (m_Seq r)) 0 (filter (λ r, m_TopicID r = id) l).

Definition request_keys (l : list messageRow) : list (string * string) := (λ r, (m_Author r, m_Request r)) <$> filter (λ r, m_Request r ≠ "") l.

Definition row_ok (r : messageRow) : Prop := 0 ≤ m_Turn r ∧ ∃ blocks, unmarshalBlocks (m_Blocks r) = Ok blocks ∧ textContent blocks = m_Text r.

Record store_ok (st : store) : Prop := {
  ok_seqs : StronglySorted Z.lt (m_Seq <$> messages st);
  ok_next : 1 ≤ next_seq st ∧ Forall (λ r, 1 ≤ m_Seq r < next_seq st) (messages st);
  ok_ids : NoDup (m_ID <$> messages st);
  ok_topic_ids : NoDup (t_ID <$> topics st);
  ok_names : NoDup ((λ t, (t_ChannelID t, lower (Name t))) <$> topics st);
  ok_refs : Forall (λ r, m_TopicID r ∈ t_ID <$> topics st) (messages st);
  ok_requests : NoDup (request_keys (messages st));
  ok_last : Forall (λ t, LastSeq t = max_seq (t_ID t) (messages st)) (topics st);
  ok_rows : Forall row_ok (messages st);
}.

Lemma GetTopic_Some st id t : GetTopic st id = Some t → t ∈ topics st ∧ t_ID t = id.
Proof. intros [Hin Hb]%find_some. apply bool_decide_eq_true in Hb. split; [by apply list_elem_of_In|done]. Qed.

Lemma GetTopic_is_Some st id : is_Some (GetTopic st id) ↔ id ∈ t_ID <$> topics st.
Proof.
  split.
  - intros [t [Hin <-]%GetTopic_Some]. by apply list_elem_of_fmap_2.
  - intros (t & -> & Hin)%list_elem_of_fmap. unfold GetTopic. destruct (find _ _) eqn:E; [by eexists|].
    apply list_elem_of_In in Hin. pose proof (find_none _ _ E _ Hin) as H. simpl in H. by rewrite bool_decide_true in H.
Qed.

(** A field that a map keeps. *)
Lemma fmap_map_topic {A} (g : Topic → A) f id l : (∀ t, g (f t) = g t) → g <$> map_topic f id l = g <$> l.
Proof. intros H. unfold map_topic. rewrite <- list_fmap_compose. apply list_fmap_ext. intros _ t _. simpl. by case_bool_decide. Qed.

Lemma map_topic_elem f id l t' : t' ∈ map_topic f id l → ∃ t, t ∈ l ∧ (t' = t ∧ t_ID t ≠ id ∨ t' = f t ∧ t_ID t = id).
Proof. unfold map_topic. intros (t & -> & Hin)%list_elem_of_fmap. exists t. case_bool_decide; auto. Qed.

(** Topics that keep identity and name, and whose activity marker is right. *)
Lemma store_ok_topics st l :
  store_ok st → t_ID <$> l = t_ID <$> topics st → NoDup ((λ t, (t_ChannelID t, lower (Name t))) <$> l) →
  Forall (λ t, LastSeq t = max_seq (t_ID t) (messages st)) l → store_ok (set_topics l st).
Proof. intros [] Hi Hn Hl. constructor; simpl; try done; by rewrite Hi. Qed.

Lemma store_ok_next_id st n : store_ok st → store_ok (set_next_id n st).
Proof. by intros []. Qed.

Lemma store_ok_archived st b id : store_ok st → store_ok (set_topics (map_topic (set_Archived b) id (topics st)) st).
Proof.
  intros H. apply store_ok_topics; [done|by apply fmap_map_topic|rewrite fmap_map_topic; [apply H|done]|].
  apply Forall_forall. intros t' (t & Hin & [[-> _]|[-> _]])%map_topic_elem; pose proof (ok_last st H) as HF; rewrite Forall_forall in HF; exact (HF t Hin).
Qed.

Lemma existsb_false {A} (f : A → bool) l x : existsb f l = false → x ∈ l → f x = false.
Proof.
  intros He Hin. destruct (f x) eqn:E; [|done]. rewrite <- He. symmetry. apply existsb_exists. exists x. split; [by apply list_elem_of_In|done].
Qed.

Lemma max_seq_none id l : Forall (λ r, m_TopicID r ≠ id) l → max_seq id l = 0.
Proof. intros H. unfold max_seq. by rewrite filter_none. Qed.

Lemma topic_unique st t t' : store_ok st → t ∈ topics st → t' ∈ topics st → t_ID t = t_ID t' → t = t'.
Proof.
  intros H [i Hi]%list_elem_of_lookup [j Hj]%list_elem_of_lookup E. assert (i = j) as ->; [|congruence].
  eapply NoDup_lookup; [apply (ok_topic_ids st H)| |]; rewrite list_lookup_fmap; [by rewrite Hi|rewrite Hj; simpl; congruence].
Qed.

Lemma GetTopic_map st f id t :
  (∀ t, t_ID (f t) = t_ID t) → GetTopic st id = Some t → ∀ id', id' = id → GetTopic (set_topics (map_topic f id' (topics st)) st) id = Some (f t).
Proof.
  intros Hf Hg id' ->. unfold GetTopic in *. simpl. induction (topics st) as [|x l IH]; [done|]. cbn [find map_topic map] in *.
  destruct (bool_decide (t_ID x = id)) eqn:E.
  - injection Hg as ->. rewrite Hf, E. done.
  - rewrite E. by apply IH.
Qed.

Lemma InsertTopicIgnore_ok channel name author atMS st n st' :
  store_ok st → InsertTopicIgnore newID lower channel name author atMS st = Ok (n, st') →
  store_ok st' ∧ messages st' = messages st ∧ dir st' = dir st ∧ (next_id st ≤ next_id st')%nat.
Proof.
  intros H. unfold InsertTopicIgnore. set (id := newID _). set (st1 := set_next_id _ st).
  destruct (existsb (same_name lower channel name) (topics st1)) eqn:En; [intros [= <- <-]; split; [by apply store_ok_next_id|simpl; auto with lia]|].
  destruct (existsb (λ t, bool_decide (t_ID t = id)) (topics st1)) eqn:Ei; [done|]. destruct (negb _); [done|]. intros [= <- <-]. split; [|simpl; auto with lia].
  assert (id ∉ t_ID <$> topics st) as Hid.
  { intros (t & E & Hin)%list_elem_of_fmap. pose proof (existsb_false _ _ t Ei Hin) as Hb. cbv beta in Hb. apply bool_decide_eq_false in Hb. congruence. }
  constructor; simpl; try apply H.
  - rewrite fmap_app. apply NoDup_app. split; [apply H|]. split; [|apply NoDup_singleton]. simpl. intros x Hx Hs. apply list_elem_of_singleton in Hs as ->. done.
  - rewrite fmap_app. apply NoDup_app. split; [apply H|]. split; [|apply NoDup_singleton]. simpl.
    intros x (t & -> & Hin)%list_elem_of_fmap Hs. apply list_elem_of_singleton in Hs. injection Hs as Ec Enm. pose proof (existsb_false _ _ t En Hin) as Hb.
    unfold same_name in Hb. apply bool_decide_eq_false in Hb. destruct Hb. done.
  - eapply Forall_impl; [apply (ok_refs st H)|]. intros r Hr. rewrite fmap_app. apply elem_of_app. by left.
  - apply Forall_app. split; [apply (ok_last st H)|]. constructor; [|done]. simpl. symmetry. apply max_seq_none.
    eapply Forall_impl; [apply (ok_refs st H)|]. intros r Hr E. apply Hid. by rewrite <- E.
Qed.

Lemma resolveTopicForAppend_ok channel topic author atMS st id changed st' :
  store_ok st → resolveTopicForAppend newID lower channel topic author atMS st = Ok (id, changed, st') →
  store_ok st' ∧ messages st' = messages st ∧ dir st' = dir st ∧ (next_id st ≤ next_id st')%nat
  ∧ ∃ t, GetTopic st' id = Some t ∧ t_ChannelID t = channel.
Proof.
  intros H. unfold resolveTopicForAppend. destruct (negb (bool_decide (r_ID topic = ""))).
  { destruct (GetTopic st (r_ID topic)) as [t|] eqn:Et; [|done]. case_bool_decide as Ec; [|done]. intros [= <- _ <-]. do 3 (split; [done|]). split; [lia|]. by exists t. }
  intros ([n st1] & Hc & Hr)%rbind_Ok.
  assert (store_ok st1 ∧ messages st1 = messages st ∧ dir st1 = dir st ∧ (next_id st ≤ next_id st1)%nat) as (H1 & E1 & E2 & E3).
  { destruct (Create topic); [by eapply InsertTopicIgnore_ok|]. injection Hc as <- <-. auto. }
  destruct (find _ (topics st1)) as [t|] eqn:Ef; [|done]. apply find_some in Ef as [Hin%list_elem_of_In Hb].
  apply bool_decide_eq_true in Hb as [Hch _].
  assert (∃ t', GetTopic st1 (t_ID t) = Some t' ∧ t_ChannelID t' = channel) as (t' & Ht' & Hch').
  { destruct (proj2 (GetTopic_is_Some st1 (t_ID t))) as [t' Ht']; [by apply list_elem_of_fmap_2|]. exists t'. split; [done|].
    apply GetTopic_Some in Ht' as [Hin' Hid]. by rewrite (topic_unique st1 t' t H1 Hin' Hin Hid). }
  destruct (Archived t).
  - injection Hr as <- _ <-. split; [by apply store_ok_archived|]. do 3 (split; [done|]).
    exists (set_Archived false t'). split; [|done]. apply GetTopic_map; done.
  - injection Hr as <- _ <-. do 4 (split; [done|]). by exists t'.
Qed.

Lemma GetOrCreateTopic_ok channel name author atMS st id changed st' :
  store_ok st → GetOrCreateTopic newID lower channel name author atMS st = Ok (id, changed, st') →
  store_ok st' ∧ messages st' = messages st ∧ (next_id st ≤ next_id st')%nat.
Proof.
  intros H. unfold GetOrCreateTopic. destruct (_ || _); [done|]. intros ([[i c] st1] & Hr & Hg)%rbind_Ok.
  apply resolveTopicForAppend_ok in Hr as (? & ? & _ & ? & _); [|done]. destruct c; [destruct (GetTopic st1 i); [|done]|]; by injection Hg as _ _ <-.
Qed.

(** ** Messages *)

Lemma max_seq_nonneg id l : 0 ≤ max_seq id l.
Proof. unfold max_seq. induction (filter _ l) as [|r rs IH]; simpl; lia. Qed.

Lemma max_seq_snoc id l r : max_seq id (l ++ [r]) = (if bool_decide (m_TopicID r = id) then Z.max (max_seq id l) (m_Seq r) else max_seq id l).
Proof.
  pose proof (max_seq_nonneg id l) as H. unfold max_seq in *. rewrite filter_app, foldr_app, filter_cons, filter_nil. case_bool_decide as E.
  - rewrite decide_True by done. simpl. clear H. induction (filter _ l) as [|x xs IH]; simpl; lia.
  - by rewrite decide_False.
Qed.

(** The rows are below the next sequence number, so a new one keeps the order. *)
Lemma seqs_snoc l n r : StronglySorted Z.lt (m_Seq <$> l) → Forall (λ r, 1 ≤ m_Seq r < n) l → m_Seq r = n → StronglySorted Z.lt (m_Seq <$> (l ++ [r])).
Proof.
  intros Hs Hf Hr. rewrite fmap_app. simpl. induction l as [|x l IH]; simpl in *; [repeat constructor|].
  apply StronglySorted_inv in Hs as [Hs Hx]. apply Forall_cons in Hf as [Hx' Hf]. constructor; [by apply IH|].
  apply Forall_app. split; [done|]. constructor; [lia|done].
Qed.

Lemma request_keys_app l l' : request_keys (l ++ l') = request_keys l ++ request_keys l'.
Proof. unfold request_keys. by rewrite filter_app, fmap_app. Qed.

Lemma request_keys_one r : request_keys [r] = if decide (m_Request r ≠ "") then [(m_Author r, m_Request r)] else [].
Proof. unfold request_keys. rewrite filter_cons, filter_nil. by case_decide. Qed.

Definition new_row (now : Z) (m : Message) (topicID request : string) (stored : list storedBlock) (st : store) : messageRow :=
  MkRow (newID (next_id st)) topicID (AuthorAccountID m) now (next_seq st) stored (textContent (MessageBlocks m)) request (i64 (TurnSequence m)).

Lemma insertMessageTx_Ok now m topicID request st m' st' :
  insertMessageTx newID now m topicID request st = Ok (m', st') →
  ∃ stored, let row := new_row now m topicID request stored st in
  marshalBlocks (MessageBlocks m) = Ok stored ∧ unmarshalBlocks stored = Ok (stored_form <$> MessageBlocks m)
  ∧ m' = MkMessage (m_ID row) topicID (AuthorAccountID m) now (MessageBlocks m) (TurnSequence m)
  ∧ messages st' = messages st ++ [row] ∧ dir st' = dir st ∧ next_seq st' = next_seq st + 1 ∧ next_id st' = S (next_id st)
  ∧ topics st' = map_topic (λ t, set_LastSeq (Z.max (LastSeq t) (next_seq st)) t) topicID (topics st)
  ∧ m_ID row ∉ m_ID <$> messages st ∧ 0 ≤ m_Turn row ∧ is_Some (GetTopic st topicID)
  ∧ (request ≠ "" → MessageRequestRecorded (AuthorAccountID m) request st = false).
Proof.
  unfold insertMessageTx. destruct (marshalBlocks_inv (MessageBlocks m)) as [(stored & E & Hv & Hr)|[E _]]; rewrite E; [|done].
  destruct (marshalBlocks_ok _ Hv Hr) as (stored' & E' & Hu). assert (stored' = stored) as -> by congruence.
  destruct (negb (bool_decide (request = "")) && _) eqn:Eq; [done|].
  destruct (existsb _ _ || _) eqn:Ei; [done|]. apply orb_false_iff in Ei as [Ei Et]. apply bool_decide_eq_false in Et.
  destruct (negb _) eqn:En in |- *; [done|]. apply negb_false_iff, andb_true_iff in En as [_ En]. apply bool_decide_eq_true in En.
  intros [= <- <-]. exists stored. cbv zeta. repeat (split; [done|]). split; [|split; [simpl; lia|split; [done|]]].
  - intros (r & Hid & Hin)%list_elem_of_fmap. pose proof (existsb_false _ _ r Ei Hin) as Hb. apply bool_decide_eq_false in Hb. by destruct Hb.
  - intros Hne. rewrite bool_decide_false in Eq by done. exact Eq.
Qed.

Lemma insertMessageTx_ok now m topicID request st m' st' :
  store_ok st → insertMessageTx newID now m topicID request st = Ok (m', st') → store_ok st'.
Proof.
  intros H (stored & E & Hu & _ & Em & Ed & En & _ & Et & Hid & Ht & Hs & Hq)%insertMessageTx_Ok. set (row := new_row _ _ _ _ _ _) in *.
  destruct (ok_next st H) as [Hn Hb]. apply GetTopic_is_Some in Hs.
  assert (t_ID <$> topics st' = t_ID <$> topics st) as Eti by (rewrite Et; by apply fmap_map_topic).
  constructor; rewrite ?Em, ?Eti; try apply H.
  - apply (seqs_snoc _ (next_seq st)); [apply H|done|done].
  - rewrite En. split; [lia|]. apply Forall_app. split; [|constructor; [simpl; lia|done]]. eapply Forall_impl; [exact Hb|]. simpl. lia.
  - rewrite fmap_app. apply NoDup_app. split; [apply H|]. split; [|apply NoDup_singleton]. intros x Hx Hx'. apply list_elem_of_singleton in Hx' as ->. done.
  - rewrite Et, fmap_map_topic; [apply H|done].
  - apply Forall_app. split; [apply (ok_refs st H)|by constructor].
  - rewrite request_keys_app. apply NoDup_app. split; [apply H|]. rewrite request_keys_one. case_decide as Er.
    + split; [|apply NoDup_singleton]. simpl. intros x (r & -> & [_ Hin]%list_elem_of_filter)%list_elem_of_fmap Hx. apply list_elem_of_singleton in Hx.
      pose proof (existsb_false _ _ r (Hq Er) Hin) as Hb'. apply bool_decide_eq_false in Hb'. injection Hx as Ea Eb. by destruct Hb'.
    + split; [|constructor]. intros x _ Hx. by apply elem_of_nil in Hx.
  - rewrite Et. apply Forall_forall. intros t' (t & Hin & Hc)%map_topic_elem. pose proof (ok_last st H) as HL. rewrite Forall_forall in HL. specialize (HL t Hin).
    rewrite max_seq_snoc. destruct Hc as [[-> Hne]|[-> Heq]]; simpl.
    + by rewrite bool_decide_false.
    + rewrite bool_decide_true by done. by rewrite HL.
  - apply Forall_app. split; [apply (ok_rows st H)|]. constructor; [|done]. split; [done|]. exists (stored_form <$> MessageBlocks m).
    split; [done|]. by rewrite textContent_stored.
Qed.

(** Rows whose blocks are rewritten. *)
Lemma store_ok_blocks st (f : messageRow → messageRow) :
  store_ok st → (∀ r, ∃ stored text, f r = set_blocks stored text r) → Forall (λ r, row_ok (f r)) (messages st) → store_ok (set_messages (f <$> messages st) st).
Proof.
  intros H Hf Hr.
  assert (∀ A (g : messageRow → A), (∀ r s t, g (set_blocks s t r) = g r) → g <$> (f <$> messages st) = g <$> messages st) as Hg.
  { intros A g Hg. rewrite <- list_fmap_compose. apply list_fmap_ext. intros _ r _. simpl. destruct (Hf r) as (s & t & ->). apply Hg. }
  assert (∀ id, max_seq id (f <$> messages st) = max_seq id (messages st)) as Hm.
  { intros id. unfold max_seq. clear Hr Hg H. induction (messages st) as [|r l IH]; [done|]. rewrite fmap_cons, !filter_cons.
    destruct (Hf r) as (s & t & ->). destruct (decide (m_TopicID r = id)) as [Hd|Hd].
    - rewrite !decide_True by done. cbn [foldr]. by rewrite IH.
    - rewrite !decide_False by done. apply IH. }
  assert (request_keys (f <$> messages st) = request_keys (messages st)) as Hk.
  { unfold request_keys. clear Hr Hg H Hm. induction (messages st) as [|r l IH]; [done|]. rewrite fmap_cons, !filter_cons.
    destruct (Hf r) as (s & t & ->). destruct (decide (m_Request r ≠ "")) as [Hd|Hd].
    - rewrite !decide_True by done. rewrite !fmap_cons. by rewrite IH.
    - rewrite !decide_False by done. apply IH. }
  constructor; simpl; rewrite ?Hg, ?Hk by done; try apply H.
  - split; [apply H|]. apply Forall_fmap. eapply Forall_impl; [apply (ok_next st H)|]. intros r Hx. cbn. destruct (Hf r) as (s & t & ->). exact Hx.
  - apply Forall_fmap. eapply Forall_impl; [apply (ok_refs st H)|]. intros r Hx. cbn. destruct (Hf r) as (s & t & ->). exact Hx.
  - eapply Forall_impl; [apply (ok_last st H)|]. intros t. simpl. by rewrite Hm.
  - by apply Forall_fmap.
Qed.

Lemma marshal_row_ok blocks stored r : marshalBlocks blocks = Ok stored → row_ok r → row_ok (set_blocks stored (textContent blocks) r).
Proof.
  intros E [Ht _]. destruct (marshalBlocks_inv blocks) as [(stored' & E' & Hv & Hr)|[E' _]]; [|congruence].
  destruct (marshalBlocks_ok _ Hv Hr) as (stored'' & E'' & Hu). assert (stored'' = stored) as -> by congruence.
  split; [done|]. exists (stored_form <$> blocks). split; [done|]. apply textContent_stored.
Qed.

Lemma set_blocks_self r : r = set_blocks (m_Blocks r) (m_Text r) r.
Proof. by destruct r. Qed.

(** An update of the rows that a condition picks. *)
Lemma store_ok_update st (hit : messageRow → bool) blocks stored :
  store_ok st → marshalBlocks blocks = Ok stored →
  store_ok (set_messages (map (λ r, if hit r then set_blocks stored (textContent blocks) r else r) (messages st)) st).
Proof.
  intros H E. apply (store_ok_blocks st (λ r, if hit r then set_blocks stored (textContent blocks) r else r)); [done| |].
  - intros r. destruct (hit r); [by eexists _, _|]. eexists _, _. apply set_blocks_self.
  - eapply Forall_impl; [apply (ok_rows st H)|]. intros r Hr. destruct (hit r); [by apply marshal_row_ok|done].
Qed.

Lemma updateMessageBlocksExec_Ok id blocks st st' :
  updateMessageBlocksExec id blocks st = Ok st' →
  ∃ stored, marshalBlocks blocks = Ok stored ∧ asks_have_ids blocks = true
  ∧ st' = set_messages (map (λ r, if bool_decide (m_ID r = id) then set_blocks stored (textContent blocks) r else r) (messages st)) st.
Proof.
  unfold updateMessageBlocksExec. case_bool_decide; [done|]. destruct (asks_have_ids blocks); [|done]. cbn [negb].
  intros (stored & E & Hu)%rbind_Ok. exists stored. destruct (existsb _ _); [|done]. by injection Hu as <-.
Qed.

Lemma UpdateMessageBlocksAsAuthor_ok actor id blocks st m st' :
  store_ok st → UpdateMessageBlocksAsAuthor actor id blocks st = Ok (m, st') → store_ok st'.
Proof.
  intros H. unfold UpdateMessageBlocksAsAuthor. case_bool_decide; [done|]. case_bool_decide; [done|]. destruct (asks_have_ids blocks); [|done]. cbn [negb].
  intros (stored & E & Hu)%rbind_Ok. destruct (find _ (messages st)); [|done]. apply rbind_Ok in Hu as (m' & _ & [= _ <-]). by apply store_ok_update.
Qed.

Lemma AnswerAsk_Ok now bump actor askID answers st msg answer st' :
  AnswerAsk newID pick now bump actor askID answers st = Ok (msg, answer, st') →
  ∃ r rest blocks0 blocks st1 answered,
    FindAskMessage pick actor askID st = r :: rest ∧ unmarshalBlocks (m_Blocks r) = Ok blocks0 ∧ applyAskAnswer askID answers blocks0 = Ok blocks
    ∧ updateMessageBlocksExec (m_ID r) blocks st = Ok st1 ∧ findAsk askID blocks = Some answered ∧ askID ≠ ""
    ∧ msg = MkMessage (m_ID r) (m_TopicID r) (m_Author r) (m_At r) blocks (m_Turn r)
    ∧ insertMessageTx newID now (MkMessage "" "" actor 0 [MkBlock None None (Some (MkAnswerBlock answered (m_Author r)))] 0) (m_TopicID r) "" st1 = Ok (answer, st').
Proof.
  unfold AnswerAsk. case_bool_decide; [done|]. destruct (FindAskMessage pick actor askID st) as [|r rest] eqn:Ef; [done|].
  intros (m & Hm & (blocks & Ha & (st1 & Hu & Hr)%rbind_Ok)%rbind_Ok)%rbind_Ok. apply rbind_Ok in Hm as (blocks0 & Hb & [= <-]). simpl in *.
  destruct (findAsk askID blocks) as [answered|] eqn:Eans; [|done].
  destruct (insertMessageTx _ _ _ _ _ _) as [[ins st2]|[| |e]|] eqn:Ei in Hr; try done.
  apply rbind_Ok in Hr as ([] & _ & [= <- <- <-]). exists r, rest, blocks0, blocks, st1, answered. done.
Qed.

Lemma AnswerAsk_ok now bump actor askID answers st msg answer st' :
  store_ok st → AnswerAsk newID pick now bump actor askID answers st = Ok (msg, answer, st') → store_ok st'.
Proof.
  intros H (r & rest & b0 & b & st1 & a & _ & _ & _ & (stored & E & _ & ->)%updateMessageBlocksExec_Ok & _ & _ & _ & Hi)%AnswerAsk_Ok.
  eapply insertMessageTx_ok; [|exact Hi]. by apply store_ok_update.
Qed.

Lemma AppendMessageTopic_ok now mirror m channel topic request st msg t ins st' :
  store_ok st → AppendMessageTopic newID lower now mirror m channel topic request st = Ok (msg, t, ins, st') → store_ok st'.
Proof.
  intros H. unfold AppendMessageTopic. do 4 (case_bool_decide; [done|]). destruct (mintAskIDs _ _ _) as [blocks n].
  set (m1 := MkMessage _ _ _ _ _ _). set (st0 := set_next_id n st). assert (store_ok st0) as Hok0 by by apply store_ok_next_id.
  intros ([] & _ & ([] & _ & ([[tid c] st1] & Hr & Hx)%rbind_Ok)%rbind_Ok)%rbind_Ok.
  apply resolveTopicForAppend_ok in Hr as (Hok1 & _); [|done].
  destruct (insertMessageTx _ _ _ _ _ _) as [[inserted st2]|[| |e]|] eqn:Ei in Hx; try done.
  - apply insertMessageTx_ok in Ei; [|done]. apply rbind_Ok in Hx as ([] & _ & Hx).
    destruct c; [destruct (GetTopic st2 tid); [|done]|]; by injection Hx as _ _ _ <-.
  - apply rbind_Ok in Hx as (s & _ & [= _ _ _ <-]). done.
Qed.

(** ** Renaming and merging *)

Lemma store_ok_rename st id name channel t :
  store_ok st → GetTopic st id = Some t → t_ChannelID t = channel →
  find (λ t, same_name lower channel name t && negb (bool_decide (t_ID t = id))) (topics st) = None →
  store_ok (set_topics (map_topic (set_Name name) id (topics st)) st).
Proof.
  intros H Ht Hc Hf. apply store_ok_topics; [done|by apply fmap_map_topic| |].
  - apply GetTopic_Some in Ht as [Hin Hid].
    assert (∀ x, x ∈ topics st → t_ID x ≠ id → (t_ChannelID x, lower (Name x)) ≠ (channel, lower name)) as Hno.
    { intros x Hx Hne [= E1 E2]. apply list_elem_of_In in Hx. pose proof (find_none _ _ Hf _ Hx) as Hb. cbv beta in Hb. unfold same_name in Hb.
      rewrite bool_decide_true, bool_decide_false in Hb; done. }
    pose proof (ok_names st H) as Hn. rewrite NoDup_alt in Hn. apply NoDup_alt. intros i j k. unfold map_topic. rewrite !list_lookup_fmap.
    intros Hi Hj. destruct (topics st !! i) as [x|] eqn:Ei; [|done]. destruct (topics st !! j) as [y|] eqn:Ej; [|done]. simpl in *.
    pose proof (list_elem_of_lookup_2 _ _ _ Ei) as Hx. pose proof (list_elem_of_lookup_2 _ _ _ Ej) as Hy.
    assert (∀ a b, topics st !! i = Some a → topics st !! j = Some b → t_ID a = id → t_ID b = id → i = j) as Hsame.
    { intros a b Ha Hb E1 E2. eapply (NoDup_lookup _ _ _ _ (ok_topic_ids st H)); rewrite list_lookup_fmap; [by rewrite Ha|rewrite Hb; simpl; congruence]. }
    assert (∀ a, a ∈ topics st → t_ID a = id → t_ChannelID a = channel) as Hch by (intros a Ha E; by rewrite (topic_unique st a t H Ha Hin) by congruence).
    injection Hi as <-. injection Hj as Hk1 Hk2.
    destruct (bool_decide (t_ID x = id)) eqn:B1, (bool_decide (t_ID y = id)) eqn:B2; simpl in Hk1, Hk2;
      rewrite ?bool_decide_eq_true, ?bool_decide_eq_false in *.
    + by eapply Hsame.
    + destruct (Hno y Hy B2). rewrite <- (Hch x Hx B1). congruence.
    + destruct (Hno x Hx B1). rewrite <- (Hch y Hy B2). congruence.
    + apply (Hn i j (t_ChannelID x, lower (Name x))); rewrite list_lookup_fmap; [by rewrite Ei|rewrite Ej; simpl; congruence].
  - apply Forall_forall. intros t' (x & Hx & [[-> _]|[-> _]])%map_topic_elem; pose proof (ok_last st H) as HF; rewrite Forall_forall in HF; exact (HF x Hx).
Qed.

Lemma max_seq_cons id r l : max_seq id (r :: l) = (if bool_decide (m_TopicID r = id) then Z.max (m_Seq r) (max_seq id l) else max_seq id l).
Proof. unfold max_seq. rewrite filter_cons. case_bool_decide; [by rewrite decide_True|by rewrite decide_False]. Qed.

Lemma move_cons target source r l :
  MoveMessagesToTopic target source (r :: l) = MoveMessagesToTopic target source [r] ++ MoveMessagesToTopic target source l.
Proof. done. Qed.

Lemma max_seq_move target source id l :
  target ≠ source → id ≠ source →
  max_seq id (MoveMessagesToTopic target source l) = (if bool_decide (id = target) then Z.max (max_seq target l) (max_seq source l) else max_seq id l).
Proof.
  intros Hts Hid. induction l as [|r l IH]; [by case_bool_decide|]. rewrite move_cons. cbn [MoveMessagesToTopic map app].
  rewrite !max_seq_cons, IH. destruct (decide (id = target)) as [->|Hne].
  - rewrite (bool_decide_true (target = target)) by done. destruct (decide (m_TopicID r = source)) as [E|E].
    + rewrite (bool_decide_true (m_TopicID r = source)) by done. simpl. rewrite bool_decide_true, bool_decide_false by congruence. lia.
    + rewrite (bool_decide_false (m_TopicID r = source)) by done. destruct (bool_decide (m_TopicID r = target)); lia.
  - rewrite (bool_decide_false (id = target)) by done. destruct (decide (m_TopicID r = source)) as [E|E].
    + rewrite (bool_decide_true (m_TopicID r = source)) by done. simpl. by rewrite !bool_decide_false by congruence.
    + by rewrite (bool_decide_false (m_TopicID r = source)).
Qed.

(** The rows of a merge keep all but their topic. *)
Lemma move_keeps {A} (g : messageRow → A) target source l :
  (∀ r, g (MkRow (m_ID r) target (m_Author r) (m_At r) (m_Seq r) (m_Blocks r) (m_Text r) (m_Request r) (m_Turn r)) = g r) →
  g <$> MoveMessagesToTopic target source l = g <$> l.
Proof. intros Hg. unfold MoveMessagesToTopic. rewrite <- list_fmap_compose. apply list_fmap_ext. intros _ r _. simpl. by case_bool_decide. Qed.

Lemma request_keys_move target source l : request_keys (MoveMessagesToTopic target source l) = request_keys l.
Proof.
  induction l as [|r l IH]; [done|]. rewrite move_cons, request_keys_app, IH. change (r :: l) with ([r] ++ l). rewrite request_keys_app. f_equal.
  cbn [MoveMessagesToTopic map]. rewrite !request_keys_one. by case_bool_decide.
Qed.

Lemma move_row target source l r' :
  r' ∈ MoveMessagesToTopic target source l →
  ∃ r, r ∈ l ∧ (r' = r ∧ m_TopicID r ≠ source
    ∨ r' = MkRow (m_ID r) target (m_Author r) (m_At r) (m_Seq r) (m_Blocks r) (m_Text r) (m_Request r) (m_Turn r)).
Proof. unfold MoveMessagesToTopic. intros (r & -> & Hin)%list_elem_of_fmap. exists r. split; [done|]. case_bool_decide; auto. Qed.

Lemma store_ok_merge st target source src :
  store_ok st → GetTopic st source = Some src → target ∈ topics st → t_ID target ≠ source →
  store_ok (set_topics
    (filter (λ t, t_ID t ≠ source) (map_topic (λ t, set_LastSeq (Z.max (LastSeq t) (LastSeq src)) t) (t_ID target) (topics st)))
    (set_messages (MoveMessagesToTopic (t_ID target) source (messages st)) st)).
Proof.
  intros H Hs Ht Hne. set (tid := t_ID target) in *. set (f := λ t, set_LastSeq _ t).
  assert (∀ A (g : Topic → A), (∀ t, g (f t) = g t) → NoDup (g <$> topics st) → NoDup (g <$> filter (λ t, t_ID t ≠ source) (map_topic f tid (topics st)))) as Hnd.
  { intros A g Hg Hn. eapply sublist_NoDup; [|apply fmap_sublist, sublist_filter]. by rewrite fmap_map_topic. }
  assert (∀ r, r ∈ messages st → m_TopicID r ∈ t_ID <$> topics st) as Href.
  { pose proof (ok_refs st H) as HF. by rewrite Forall_forall in HF. }
  constructor; simpl; rewrite ?move_keeps, ?request_keys_move by done; try apply H.
  - split; [apply H|]. apply Forall_forall. intros r' (r & Hin & [[-> _]| ->])%move_row; pose proof (proj2 (ok_next st H)) as HF; rewrite Forall_forall in HF; exact (HF r Hin).
  - by apply Hnd, H.
  - by apply Hnd, H.
  - apply Forall_forall. intros r' (r & Hin & Hc)%move_row.
    assert (∀ id, id ∈ t_ID <$> topics st → id ≠ source → id ∈ t_ID <$> filter (λ t, t_ID t ≠ source) (map_topic f tid (topics st))) as Hmem.
    { intros id Hx Hns. rewrite <- (fmap_map_topic t_ID f tid) in Hx by done. apply list_elem_of_fmap in Hx as (t & -> & Hx).
      apply list_elem_of_fmap_2, list_elem_of_filter. done. }
    destruct Hc as [[-> Hns]| ->]; [by apply Hmem; [apply Href|]|]. simpl. apply Hmem; [by apply list_elem_of_fmap_2|done].
  - apply Forall_forall. intros t' [Hns Hin]%list_elem_of_filter. apply map_topic_elem in Hin as (t & Hin & Hc).
    pose proof (ok_last st H) as HL. rewrite Forall_forall in HL. pose proof (HL t Hin) as El.
    apply GetTopic_Some in Hs as [Hsin Hsid]. pose proof (HL src Hsin) as Es. rewrite Hsid in Es.
    destruct Hc as [[-> Hnt]|[-> Heq]]; simpl in *; rewrite max_seq_move by done.
    + by rewrite bool_decide_false.
    + rewrite Heq, bool_decide_true by done. rewrite El, Es, Heq. done.
  - apply Forall_forall. intros r' (r & Hin & [[-> _]| ->])%move_row; pose proof (ok_rows st H) as HF; rewrite Forall_forall in HF; exact (HF r Hin).
Qed.

Lemma UpdateTopic_ok caller id name archived st t st' : store_ok st → UpdateTopic lower caller id name archived st = Ok (t, st') → store_ok st'.
Proof.
  intros H. unfold UpdateTopic. case_bool_decide; [done|]. destruct (GetTopic st id) as [t0|] eqn:Et; [|done]. destruct (participates _ _ _); [|done]. cbn [negb].
  intros ([surv st1] & Hr & Hx)%rbind_Ok. assert (store_ok st1) as H1.
  { destruct name as [n|]; [|by injection Hr as _ <-]. unfold applyTopicRename in Hr.
    destruct (find _ (topics st)) as [target|] eqn:Ef; injection Hr as _ <-; [|by eapply store_ok_rename].
    apply find_some in Ef as [Hin Hb]. apply list_elem_of_In in Hin. apply andb_true_iff in Hb as [_ Hb%negb_true_iff%bool_decide_eq_false].
    change (GetTopic (set_messages _ st) id) with (GetTopic st id). rewrite Et. by apply (store_ok_merge st target id t0). }
  set (st2 := match archived with Some b => _ | None => _ end) in Hx. assert (store_ok st2) as H2 by (subst st2; destruct archived; [by apply store_ok_archived|done]).
  clearbody st2. destruct (GetTopic st2 surv); [|done]. by injection Hx as _ <-.
Qed.

Lemma run_op_ok st o : store_ok st → store_ok (run_op st o).
Proof.
  intros H. destruct o as [now mirror m ch topic req|now bump actor askID answers|actor id blocks|caller id name ar|ch name author at_|d]; simpl.
  - destruct (AppendMessageTopic _ _ _ _ _ _ _ _ _) as [[[[msg t] ins] st']| |] eqn:E; [by eapply AppendMessageTopic_ok|done..].
  - destruct (AnswerAsk _ _ _ _ _ _ _ _) as [[[msg a] st']| |] eqn:E; [by eapply AnswerAsk_ok|done..].
  - destruct (UpdateMessageBlocksAsAuthor _ _ _ _) as [[m st']| |] eqn:E; [by eapply UpdateMessageBlocksAsAuthor_ok|done..].
  - destruct (UpdateTopic _ _ _ _ _ _) as [[t st']| |] eqn:E; [by eapply UpdateTopic_ok|done..].
  - destruct (GetOrCreateTopic _ _ _ _ _ _ _) as [[[id c] st']| |] eqn:E; [by eapply GetOrCreateTopic_ok|done..].
  - by destruct H.
Qed.

(** * Asks and their answers *)

Definition blocks_of (r : messageRow) : list MessageBlock := match unmarshalBlocks (m_Blocks r) with Ok b => b | _ => [] end.
Definition asks_of (r : messageRow) : list Ask := omap b_Ask (blocks_of r).
Definition answers_of (r : messageRow) : list (string * Z * AskAnswerBlock) :=
  (λ aa, (m_TopicID r, m_Seq r, aa)) <$> omap b_AskAnswer (blocks_of r).
Definition all_asks (l : list messageRow) : list Ask := l ≫= asks_of.
Definition all_answers (l : list messageRow) : list (string * Z * AskAnswerBlock) := l ≫= answers_of.

(** The answer messages of an ask that a row carries: none, or one with its snapshot. *)
Definition answered_as (l : list messageRow) (r : messageRow) (a : Ask) : Prop :=
  let found := filter (λ x, AskID (ab_Ask x.2) = AskID a) (all_answers l) in
  if Answered a then ∃ n, found = [(m_TopicID r, n, MkAnswerBlock a (m_Author r))] ∧ m_Seq r < n else found = [].

Record asks_ok (st : store) : Prop := {
  ak_nodup : NoDup (AskID <$> all_asks (messages st));
  ak_minted : Forall (λ a, ∃ k, (k < next_id st)%nat ∧ AskID a = newID k) (all_asks (messages st));
  ak_answers : ∀ r a, r ∈ messages st → a ∈ asks_of r → answered_as (messages st) r a;
  ak_orphan : ∀ x, x ∈ all_answers (messages st) → ∃ a, a ∈ all_asks (messages st) ∧ AskID a = AskID (ab_Ask x.2);
}.

(** What a client may post: text, and asks without an id or an answer. *)
Definition from_edge (b : MessageBlock) : Prop :=
  match b with
  | MkBlock (Some _) None None => True
  | MkBlock None (Some a) None => AskID a = "" ∧ Answered a = false
  | _ => False
  end.

Definition edge_op (o : op) : Prop :=
  match o with
  | Append _ _ m _ _ _ => Forall from_edge (MessageBlocks m)
  | EditAsAuthor _ _ _ => False
  | _ => True
  end.

Lemma mintAskIDs_edge n blocks blocks' n' :
  Forall from_edge blocks → mintAskIDs newID n blocks = (blocks', n') →
  (n ≤ n')%nat ∧ AskID <$> omap b_Ask blocks' = newID <$> seq n (n' - n) ∧ omap b_AskAnswer blocks' = []
  ∧ Forall (λ a, Answered a = false) (omap b_Ask blocks').
Proof.
  intros Hf. revert n blocks' n'. induction Hf as [|b blocks Hb _ IH]; intros n blocks' n'; cbn [mintAskIDs].
  { intros [= <- <-]. rewrite Nat.sub_diag. split; [lia|]. by split. }
  destruct b as [[t|] [a|] [aa|]]; try done.
  - destruct (mintAskIDs newID n blocks) as [rest n1] eqn:E. intros [= <- <-]. exact (IH _ _ _ E).
  - destruct Hb as [-> Ha]. rewrite bool_decide_true by done.
    destruct (mintAskIDs newID (S n) blocks) as [rest n1] eqn:E. intros [= <- <-]. destruct (IH _ _ _ E) as (H1 & H2 & H3 & H4).
    split; [lia|]. csimpl. rewrite H2. split; [|split; [done|by constructor]]. replace (n1 - n)%nat with (S (n1 - S n)) by lia. done.
Qed.

Lemma omap_stored_asks (blocks : list MessageBlock) : omap b_Ask (stored_form <$> blocks) = drop_coord <$> omap b_Ask blocks.
Proof. induction blocks as [|b blocks IH]; [done|]. destruct b as [[t|] [a|] [aa|]]; csimpl; by rewrite IH. Qed.

Lemma omap_stored_answers (blocks : list MessageBlock) :
  omap b_AskAnswer (stored_form <$> blocks) = (λ aa, MkAnswerBlock (drop_coord (ab_Ask aa)) (AskerAccountID aa)) <$> omap b_AskAnswer blocks.
Proof. induction blocks as [|b blocks IH]; [done|]. destruct b as [[t|] [a|] [aa|]]; csimpl; by rewrite IH. Qed.

Lemma asks_ok_grow st st' : messages st' = messages st → (next_id st ≤ next_id st')%nat → asks_ok st → asks_ok st'.
Proof.
  intros E Hn []. constructor; rewrite ?E; try done. eapply Forall_impl; [exact ak_minted0|]. intros a (k & ? & ?). exists k. split; [lia|done].
Qed.

Lemma all_answers_app l l' : all_answers (l ++ l') = all_answers l ++ all_answers l'.
Proof. apply bind_app. Qed.
Lemma all_asks_app l l' : all_asks (l ++ l') = all_asks l ++ all_asks l'.
Proof. apply bind_app. Qed.

Lemma in_all_asks l r a : r ∈ l → a ∈ asks_of r → a ∈ all_asks l.
Proof. intros. apply list_elem_of_bind. by exists r. Qed.

(** A message of new asks and no answers. *)
Lemma asks_ok_post `{!Inj (=) (=) newID} st st' row m k :
  asks_ok st → messages st' = messages st ++ [row] → (next_id st ≤ m)%nat → (m + k ≤ next_id st')%nat →
  AskID <$> asks_of row = newID <$> seq m k → answers_of row = [] → Forall (λ a, Answered a = false) (asks_of row) → asks_ok st'.
Proof.
  intros H E Hm Hk Ha Hans Hun.
  assert (all_asks (messages st') = all_asks (messages st) ++ asks_of row) as E1 by (rewrite E, all_asks_app; simpl; by rewrite app_nil_r).
  assert (all_answers (messages st') = all_answers (messages st)) as E2 by (rewrite E, all_answers_app; simpl; by rewrite Hans, !app_nil_r).
  assert (∀ a, a ∈ asks_of row → ∃ j, (m ≤ j < m + k)%nat ∧ AskID a = newID j) as Hnew.
  { intros a Hin. apply (list_elem_of_fmap_2 AskID) in Hin. rewrite Ha in Hin. apply list_elem_of_fmap in Hin as (j & -> & Hj%elem_of_seq). by exists j. }
  assert (∀ a b, a ∈ all_asks (messages st) → b ∈ asks_of row → AskID a ≠ AskID b) as Hdis.
  { intros a b Hin (j & Hj & Hb)%Hnew. pose proof (ak_minted st H) as HF. rewrite Forall_forall in HF. destruct (HF a Hin) as (i & Hi & Hai).
    rewrite Hai, Hb. intros ?%(inj newID). lia. }
  constructor.
  - rewrite E1, fmap_app. apply NoDup_app. split; [apply H|]. split.
    + intros x (a & -> & Hin)%list_elem_of_fmap (b & Eb & Hb)%list_elem_of_fmap. by apply (Hdis a b).
    + rewrite Ha. apply NoDup_fmap_2; [done|]. apply NoDup_seq.
  - rewrite E1. apply Forall_app. split.
    + eapply Forall_impl; [apply (ak_minted st H)|]. intros a (i & ? & ?). exists i. split; [lia|done].
    + apply Forall_forall. intros a (j & ? & ?)%Hnew. exists j. split; [lia|done].
  - intros r a Hr Hin. unfold answered_as. rewrite E2. rewrite E in Hr. apply elem_of_app in Hr as [Hr|Hr].
    + apply (ak_answers st H r a Hr Hin).
    + apply list_elem_of_singleton in Hr as ->. rewrite Forall_forall in Hun. rewrite (Hun a Hin). apply filter_none, Forall_forall.
      intros x Hx. destruct (ak_orphan st H x Hx) as (b & Hb & <-). by apply Hdis.
  - intros x. rewrite E2. intros Hx. destruct (ak_orphan st H x Hx) as (b & Hb & ?). exists b. rewrite E1. split; [|done]. apply elem_of_app. by left.
Qed.

Lemma answerAsk_Ok ask answers ask' :
  answerAsk ask answers = Ok ask' → Answered ask = false ∧ AskID ask' = AskID ask ∧ RefCoord ask' = RefCoord ask ∧ Answered ask' = true.
Proof.
  unfold answerAsk. destruct (Answered ask); [done|]. intros (x & _ & Hx)%rbind_Ok. destruct (negb _); [done|].
  apply rbind_Ok in Hx as (qs & _ & [= <-]). done.
Qed.

(** What an answer does to the asks of the row that it goes to. *)
Lemma apply_asks askID answers blocks0 blocks :
  applyAskAnswer askID answers blocks0 = Ok blocks →
  ∃ P ask ask' Q, omap b_Ask blocks0 = P ++ ask :: Q ∧ omap b_Ask blocks = P ++ ask' :: Q ∧ omap b_AskAnswer blocks = omap b_AskAnswer blocks0
  ∧ AskID ask = askID ∧ AskID ask' = askID ∧ Answered ask = false ∧ Answered ask' = true ∧ findAsk askID blocks = Some ask'.
Proof.
  destruct (ask_at_dec askID blocks0) as [Hn|(pre & b & ask & post & Hat)].
  { rewrite applyAskAnswer_none by done. done. }
  rewrite (applyAskAnswer_at _ _ _ _ _ _ _ Hat). intros (ask' & Ha & [= <-])%rbind_Ok. apply answerAsk_Ok in Ha as (H1 & H2 & _ & H4).
  destruct Hat as (-> & Hb & Hid & Hpre). exists (omap b_Ask pre), ask, ask', (omap b_Ask post). rewrite !omap_app. csimpl. rewrite Hb.
  do 6 (split; [done || congruence|]). split; [done|]. apply (findAsk_at askID _ pre (set_ask ask' b) ask' post).
  split; [done|]. split; [done|]. split; [congruence|done].
Qed.

(** The one row with an id is the one that is rewritten. *)
Lemma map_hit (l1 l2 : list messageRow) r (f : messageRow → messageRow) :
  NoDup (m_ID <$> (l1 ++ r :: l2)) → map (λ x, if bool_decide (m_ID x = m_ID r) then f x else x) (l1 ++ r :: l2) = l1 ++ f r :: l2.
Proof.
  rewrite fmap_app, fmap_cons. intros (_ & H1 & [H2 _]%NoDup_cons)%NoDup_app. rewrite map_app. cbn [map]. rewrite bool_decide_true by done.
  assert (∀ l, (∀ x, x ∈ l → m_ID x ≠ m_ID r) → map (λ x, if bool_decide (m_ID x = m_ID r) then f x else x) l = l) as Hid.
  { intros l Hl. rewrite <- (list_fmap_id l) at 2. apply list_fmap_ext. intros i x Hx. simpl. rewrite bool_decide_false; [done|].
    apply Hl. by eapply list_elem_of_lookup_2. }
  rewrite !Hid; [done|..].
  - intros x Hx E. apply H2. rewrite <- E. by apply list_elem_of_fmap_2.
  - intros x Hx E. apply (H1 (m_ID x)); [by apply list_elem_of_fmap_2|rewrite E; apply list_elem_of_here].
Qed.

(** An ask answered in its row, with its answer message after all rows. *)
Lemma asks_ok_answer st st' l1 r l2 r' row P ask ask' Q n :
  asks_ok st → messages st = l1 ++ r :: l2 → messages st' = (l1 ++ r' :: l2) ++ [row] → (next_id st ≤ next_id st')%nat →
  asks_of r = P ++ ask :: Q → asks_of r' = P ++ ask' :: Q → answers_of r' = answers_of r → AskID ask' = AskID ask → Answered ask = false →
  Answered ask' = true → m_TopicID r' = m_TopicID r → m_Author r' = m_Author r → m_Seq r' = m_Seq r → m_Seq r < n →
  asks_of row = [] → answers_of row = [(m_TopicID r, n, MkAnswerBlock ask' (m_Author r))] → asks_ok st'.
Proof.
  intros H E E' Hid Ar Ar' An Ei Au Aa Et Eau Es Hn Hra Hrn.
  set (x := (m_TopicID r, n, MkAnswerBlock ask' (m_Author r))) in *.
  assert (all_answers (messages st') = all_answers (messages st) ++ [x]) as EA.
  { rewrite E', E, !all_answers_app. simpl. by rewrite An, Hrn. }
  assert (all_asks (messages st) = (all_asks l1 ++ P) ++ ask :: Q ++ all_asks l2) as EO.
  { rewrite E, all_asks_app. simpl. rewrite Ar, <- !app_assoc. done. }
  assert (all_asks (messages st') = (all_asks l1 ++ P) ++ ask' :: Q ++ all_asks l2) as EN.
  { rewrite E', !all_asks_app. simpl. rewrite Ar', Hra, !app_nil_r, <- !app_assoc. done. }
  assert (AskID <$> all_asks (messages st') = AskID <$> all_asks (messages st)) as EI.
  { rewrite EO, EN, !fmap_app, !fmap_cons. by rewrite Ei. }
  pose proof (ak_nodup st H) as Hnd. rewrite EO, fmap_app, fmap_cons in Hnd. apply NoDup_app in Hnd as (_ & Hd1 & [Hd2 _]%NoDup_cons).
  assert (∀ a, a ∈ all_asks l1 ++ P ∨ a ∈ Q ++ all_asks l2 → AskID a ≠ AskID ask) as Hother.
  { intros a [Hin|Hin] Ea; apply (list_elem_of_fmap_2 AskID) in Hin; rewrite Ea in Hin; [|done]. apply (Hd1 _ Hin). apply list_elem_of_here. }
  assert (r ∈ messages st) as Hr by (rewrite E; apply elem_of_app; right; apply list_elem_of_here).
  constructor.
  - rewrite EI. apply H.
  - apply Forall_forall. intros a Ha. apply (list_elem_of_fmap_2 AskID) in Ha. rewrite EI in Ha. apply list_elem_of_fmap in Ha as (b & -> & Hb).
    pose proof (ak_minted st H) as HF. rewrite Forall_forall in HF. destruct (HF b Hb) as (k & ? & ?). exists k. split; [lia|done].
  - intros r0 a Hr0 Ha. unfold answered_as. rewrite EA, filter_app, filter_cons, filter_nil. simpl.
    assert (a = ask' ∧ r0 = r' ∨ (∃ r1, r1 ∈ messages st ∧ a ∈ asks_of r1 ∧ m_TopicID r0 = m_TopicID r1 ∧ m_Author r0 = m_Author r1 ∧ m_Seq r0 = m_Seq r1) ∧ AskID a ≠ AskID ask) as [[-> ->]|[(r1 & Hr1 & Ha1 & T1 & T2 & T3) Hne]].
    { rewrite E' in Hr0. apply elem_of_app in Hr0 as [Hr0|Hr0]; [|apply list_elem_of_singleton in Hr0 as ->; rewrite Hra in Ha; by apply elem_of_nil in Ha].
      apply elem_of_app in Hr0 as [Hr0|Hr0].
      - right. split; [exists r0; split; [rewrite E; apply elem_of_app; by left|done]|]. apply Hother. left. apply elem_of_app. left. by eapply in_all_asks.
      - apply elem_of_cons in Hr0 as [-> |Hr0].
        + rewrite Ar' in Ha. apply elem_of_app in Ha as [Ha|Ha]; [|apply elem_of_cons in Ha as [-> |Ha]; [by left|]]; right; (split; [exists r; split; [done|]; split; [rewrite Ar|done]|apply Hother]).
          * apply elem_of_app. by left.
          * left. apply elem_of_app. by right.
          * apply elem_of_app. right. by right.
          * right. apply elem_of_app. by left.
        + right. split; [exists r0; split; [rewrite E; apply elem_of_app; right; by right|done]|]. apply Hother. right. apply elem_of_app. right. by eapply in_all_asks. }
    + rewrite Aa. pose proof (ak_answers st H r ask Hr) as Hold. unfold answered_as in Hold. rewrite Au in Hold. rewrite Ei, Hold by (rewrite Ar; apply elem_of_app; right; apply list_elem_of_here).
      rewrite decide_True by done. exists n. rewrite Et, Eau, Es. done.
    + rewrite decide_False by congruence. rewrite app_nil_r, T1, T2, T3. apply (ak_answers st H r1 a Hr1 Ha1).
  - intros y. rewrite EA. intros [Hy|Hy]%elem_of_app.
    + destruct (ak_orphan st H y Hy) as (a & Ha & Ea). apply (list_elem_of_fmap_2 AskID) in Ha. rewrite <- EI in Ha.
      apply list_elem_of_fmap in Ha as (a' & E1 & Ha'). exists a'. split; [done|congruence].
    + apply list_elem_of_singleton in Hy as ->. exists ask'. rewrite EN. split; [|done]. apply elem_of_app. right. apply list_elem_of_here.
Qed.

Lemma filter_fmap_iff {A B} (f : A → B) (P : B → Prop) (Q : A → Prop) `{∀ x, Decision (P x), ∀ x, Decision (Q x)} (l : list A) :
  (∀ x, P (f x) ↔ Q x) → filter P (f <$> l) = f <$> filter Q l.
Proof.
  intros HPQ. induction l as [|x l IH]; [done|]. rewrite fmap_cons, !filter_cons. destruct (decide (Q x)) as [Hq|Hq].
  - rewrite decide_True by (by apply HPQ). by rewrite fmap_cons, IH.
  - rewrite decide_False by (by rewrite HPQ). done.
Qed.

(** Rows that move to another topic, all of one topic together. *)
Lemma asks_ok_move st l target source :
  asks_ok st → asks_ok (set_topics l (set_messages (MoveMessagesToTopic target source (messages st)) st)).
Proof.
  intros H. set (g := λ t, if bool_decide (t = source) then target else t).
  set (mv := λ r, if bool_decide (m_TopicID r = source) then MkRow (m_ID r) target (m_Author r) (m_At r) (m_Seq r) (m_Blocks r) (m_Text r) (m_Request r) (m_Turn r) else r).
  assert (∀ r, asks_of (mv r) = asks_of r ∧ m_TopicID (mv r) = g (m_TopicID r) ∧ m_Author (mv r) = m_Author r ∧ m_Seq (mv r) = m_Seq r
    ∧ answers_of (mv r) = (λ x, (g x.1.1, x.1.2, x.2)) <$> answers_of r) as Hmv.
  { intros r. unfold mv, g. case_bool_decide as Eb.
    - split; [done|]. split; [done|]. split; [done|]. split; [done|]. unfold answers_of. simpl. rewrite <- list_fmap_compose. apply list_fmap_ext.
      intros _ aa _. simpl. by rewrite bool_decide_true.
    - split; [done|]. split; [done|]. split; [done|]. split; [done|]. unfold answers_of. rewrite <- list_fmap_compose. apply list_fmap_ext.
      intros _ aa _. simpl. by rewrite bool_decide_false. }
  change (MoveMessagesToTopic target source (messages st)) with (mv <$> messages st).
  assert (∀ rows, all_asks (mv <$> rows) = all_asks rows) as HA.
  { induction rows as [|r rows IH]; [done|]. rewrite fmap_cons. unfold all_asks in *. csimpl. rewrite IH. by rewrite (proj1 (Hmv r)). }
  assert (∀ rows, all_answers (mv <$> rows) = (λ x, (g x.1.1, x.1.2, x.2)) <$> all_answers rows) as HN.
  { induction rows as [|r rows IH]; [done|]. rewrite fmap_cons. unfold all_answers in *. csimpl. rewrite IH, fmap_app. f_equal. apply Hmv. }
  constructor; simpl; rewrite ?HA; try apply H.
  - intros r' a (r & -> & Hr)%list_elem_of_fmap Ha. destruct (Hmv r) as (M1 & M2 & M3 & M4 & _). rewrite M1 in Ha.
    pose proof (ak_answers st H r a Hr Ha) as Ho. unfold answered_as in *. rewrite HN, M2, M3, M4.
    rewrite (filter_fmap_iff _ _ (λ x, AskID (ab_Ask x.2) = AskID a)) by done. destruct (Answered a); [|by rewrite Ho]. destruct Ho as (n & -> & Hn). exists n. done.
  - intros x. rewrite HN. intros (y & -> & Hy)%list_elem_of_fmap. simpl. by apply (ak_orphan st H).
Qed.

Lemma blocks_of_set stored text r blocks : unmarshalBlocks stored = Ok blocks → blocks_of (set_blocks stored text r) = blocks.
Proof. intros E. unfold blocks_of. simpl. by rewrite E. Qed.

Lemma drop_coord_omap (blocks : list MessageBlock) : stored_form <$> blocks = blocks → drop_coord <$> omap b_Ask blocks = omap b_Ask blocks.
Proof. intros E. rewrite <- omap_stored_asks. by rewrite E. Qed.

Lemma AnswerAsk_asks now bump actor askID answers st msg answer st' :
  (∀ l r, r ∈ pick l → r ∈ l) → store_ok st → asks_ok st → AnswerAsk newID pick now bump actor askID answers st = Ok (msg, answer, st') → asks_ok st'.
Proof.
  intros Hpick HS H (r & rest & b0 & b & st1 & a & Hf & Hb0 & Hap & (stored & Em & _ & ->)%updateMessageBlocksExec_Ok & Hfa & _ & _ & Hi)%AnswerAsk_Ok.
  assert (r ∈ messages st) as Hr.
  { assert (r ∈ FindAskMessage pick actor askID st) as Hin by (rewrite Hf; apply list_elem_of_here).
    unfold FindAskMessage in Hin. apply Hpick, list_elem_of_filter in Hin. apply Hin. }
  destruct (marshalBlocks_inv b) as [(stored' & E' & Hv & Hrec)|[E' _]]; [|congruence].
  destruct (marshalBlocks_ok _ Hv Hrec) as (stored'' & E'' & Hu). assert (stored'' = stored) as -> by congruence. clear E' E'' stored'.
  destruct (apply_asks _ _ _ _ Hap) as (P & ask & ask' & Q & A1 & A2 & A3 & I1 & I2 & U1 & U2 & F). rewrite F in Hfa. injection Hfa as <-.
  destruct (unmarshalBlocks_valid _ _ Hb0) as (_ & Hform & _).
  pose proof (drop_coord_omap _ Hform) as Hd. rewrite A1, fmap_app, fmap_cons in Hd.
  assert (drop_coord <$> P = P ∧ drop_coord <$> Q = Q) as [HP HQ].
  { apply app_inj_1 in Hd as [? Hd]; [|apply length_fmap]. split; [done|]. by injection Hd. }
  apply list_elem_of_split in Hr as (l1 & l2 & El).
  pose proof (ok_next st HS) as [_ HN]. rewrite Forall_forall in HN.
  assert (1 ≤ m_Seq r < next_seq st) as Hseq by (apply HN; rewrite El; apply elem_of_app; right; apply list_elem_of_here).
  apply insertMessageTx_Ok in Hi as (st2 & Em2 & Hu2 & _ & Emsgs & _ & _ & Enid & _). simpl in Hu2.
  set (row := new_row _ _ _ _ _ _) in Emsgs. simpl in Emsgs. rewrite El in Emsgs. rewrite (map_hit l1 l2 r) in Emsgs.
  2:{ rewrite <- El. apply HS. }
  apply (asks_ok_answer st st' l1 r l2 (set_blocks stored (textContent b) r) row P ask (drop_coord ask') Q (next_seq st) H El Emsgs); try done.
  - rewrite Enid. simpl. lia.
  - unfold asks_of, blocks_of. by rewrite Hb0.
  - unfold asks_of. rewrite (blocks_of_set _ _ _ _ Hu), omap_stored_asks, A2, fmap_app, fmap_cons, HP, HQ. done.
  - unfold answers_of. rewrite (blocks_of_set _ _ _ _ Hu), omap_stored_answers, A3. unfold blocks_of. rewrite Hb0.
    rewrite <- omap_stored_answers, Hform. done.
  - simpl. congruence.
  - lia.
  - unfold asks_of, blocks_of. simpl. by rewrite Hu2.
  - unfold answers_of, blocks_of. simpl. by rewrite Hu2.
Qed.

Lemma AppendMessageTopic_asks `{!Inj (=) (=) newID} now mirror m channel topic request st msg t ins st' :
  store_ok st → asks_ok st → Forall from_edge (MessageBlocks m) →
  AppendMessageTopic newID lower now mirror m channel topic request st = Ok (msg, t, ins, st') → asks_ok st'.
Proof.
  intros HS H Hedge. unfold AppendMessageTopic. do 4 (case_bool_decide; [done|]). destruct (mintAskIDs _ _ _) as [blocks n] eqn:Em.
  destruct (mintAskIDs_edge _ _ _ _ Hedge Em) as (Hn & Hids & Hans & Hun).
  set (m1 := MkMessage _ _ _ _ _ _). set (st0 := set_next_id n st). assert (store_ok st0) as Hok0 by by apply store_ok_next_id.
  intros ([] & _ & ([] & _ & ([[tid c] st1] & Hr & Hx)%rbind_Ok)%rbind_Ok)%rbind_Ok.
  apply resolveTopicForAppend_ok in Hr as (Hok1 & Em1 & _ & Hn1 & _); [|done]. simpl in Em1, Hn1.
  destruct (insertMessageTx _ _ _ _ _ _) as [[inserted st2]|[| |e]|] eqn:Ei in Hx; try done.
  - apply insertMessageTx_Ok in Ei as (stored & _ & Hu & _ & Emsgs & _ & _ & Enid & _). set (row := new_row _ _ _ _ _ _) in *. simpl in Hu.
    assert (asks_of row = drop_coord <$> omap b_Ask blocks) as Ea.
    { unfold asks_of, blocks_of. simpl. rewrite Hu. apply omap_stored_asks. }
    assert (asks_ok st2) as Hok2.
    { apply (asks_ok_post st st2 row (next_id st) (n - next_id st)); [exact H|by rewrite Emsgs, Em1|lia|lia| | |].
      - rewrite Ea, <- list_fmap_compose. exact Hids.
      - unfold answers_of, blocks_of. simpl. rewrite Hu, omap_stored_answers, Hans. done.
      - rewrite Ea. apply Forall_fmap. exact Hun. }
    apply rbind_Ok in Hx as ([] & _ & Hx). destruct c; [destruct (GetTopic st2 tid); [|done]|]; by injection Hx as _ _ _ <-.
  - apply rbind_Ok in Hx as (s & _ & [= _ _ _ <-]). by eapply asks_ok_grow; [..|exact H].
Qed.

Lemma UpdateTopic_asks caller id name archived st t st' : asks_ok st → UpdateTopic lower caller id name archived st = Ok (t, st') → asks_ok st'.
Proof.
  intros H. unfold UpdateTopic. case_bool_decide; [done|]. destruct (GetTopic st id) as [t0|] eqn:Et; [|done]. destruct (participates _ _ _); [|done]. cbn [negb].
  intros ([surv st1] & Hr & Hx)%rbind_Ok. assert (asks_ok st1) as Hok1.
  { destruct name as [n|]; [|by injection Hr as _ <-]. unfold applyTopicRename in Hr.
    destruct (find _ (topics st)) as [target|] eqn:Ef; injection Hr as _ <-; [|by eapply asks_ok_grow; [..|exact H]].
    destruct (GetTopic _ id); by apply asks_ok_move. }
  destruct archived; (destruct (GetTopic _ surv) in Hx; [|done]); injection Hx as _ <-; [by eapply asks_ok_grow; [..|exact Hok1]|done].
Qed.

Lemma run_op_asks `{!Inj (=) (=) newID} st o :
  (∀ l r, r ∈ pick l → r ∈ l) → store_ok st → asks_ok st → edge_op o → asks_ok (run_op st o).
Proof.
  intros Hpick HS H. destruct o as [now mirror m ch topic req|now bump actor askID answers|actor id blocks|caller id name ar|ch name author at_|d]; simpl.
  - intros He. destruct (AppendMessageTopic _ _ _ _ _ _ _ _ _) as [[[[msg t] ins] st']| |] eqn:E; [by eapply AppendMessageTopic_asks|done..].
  - intros _. destruct (AnswerAsk _ _ _ _ _ _ _ _) as [[[msg a] st']| |] eqn:E; [by eapply AnswerAsk_asks|done..].
  - done.
  - intros _. destruct (UpdateTopic _ _ _ _ _ _) as [[t st']| |] eqn:E; [by eapply UpdateTopic_asks|done..].
  - intros _. destruct (GetOrCreateTopic _ _ _ _ _ _ _) as [[[id c] st']| |] eqn:E; [|done..].
    apply GetOrCreateTopic_ok in E as (_ & ? & ?); [|done]. by eapply asks_ok_grow; [..|exact H].
  - intros _. by eapply asks_ok_grow; [..|exact H].
Qed.

Lemma empty_store_ok d : store_ok (empty_store d).
Proof. constructor; simpl; try constructor; done || constructor. Qed.

Lemma tables_ok ops st : store_ok st → store_ok (foldl run_op st ops).
Proof. revert st. induction ops as [|o ops IH]; intros st H; [done|]. by apply IH, run_op_ok. Qed.

Lemma run_asks `{!Inj (=) (=) newID} ops st :
  (∀ l r, r ∈ pick l → r ∈ l) → Forall edge_op ops → store_ok st → asks_ok st → asks_ok (foldl run_op st ops).
Proof.
  intros Hp He. revert st. induction He as [|o ops Ho _ IH]; intros st HS H; [done|]. apply IH; [by apply run_op_ok|by apply run_op_asks].
Qed.

(** ** Rows last *)

Definition same_row (r r' : messageRow) : Prop :=
  m_ID r = m_ID r' ∧ m_Author r = m_Author r' ∧ m_At r = m_At r' ∧ m_Seq r = m_Seq r' ∧ m_Request r = m_Request r' ∧ m_Turn r = m_Turn r'.

Definition keeps (st st' : store) : Prop :=
  (∀ r, r ∈ messages st → ∃ r', r' ∈ messages st' ∧ same_row r r')
  ∧ (∀ r', r' ∈ messages st' → (∃ r, r ∈ messages st ∧ same_row r r') ∨ ∃ k, m_ID r' = newID k).

Lemma keeps_trans st st' st'' : keeps st st' → keeps st' st'' → keeps st st''.
Proof.
  intros [H1 H2] [H3 H4]. split.
  - intros r Hr. destruct (H1 r Hr) as (r' & Hr' & Hs). destruct (H3 r' Hr') as (r'' & ? & Hs'). exists r''. split; [done|]. unfold same_row in *. intuition congruence.
  - intros r'' Hr. destruct (H4 r'' Hr) as [(r' & Hr' & Hs)|?]; [|by right]. destruct (H2 r' Hr') as [(r & ? & Hs')|(k & Hk)].
    + left. exists r. split; [done|]. unfold same_row in *. intuition congruence.
    + right. exists k. destruct Hs as [<- _]. done.
Qed.

Lemma keeps_fmap st st' f : messages st' = f <$> messages st → (∀ r, same_row r (f r)) → keeps st st'.
Proof.
  intros E Hf. split; rewrite E.
  - intros r Hr. exists (f r). split; [by apply list_elem_of_fmap_2|apply Hf].
  - intros r' (r & -> & Hr)%list_elem_of_fmap. left. by exists r.
Qed.

Lemma keeps_rows st st' : messages st' = messages st → keeps st st'.
Proof. intros E. apply (keeps_fmap st st' id); [by rewrite list_fmap_id|done]. Qed.

Lemma keeps_snoc st st' row k : messages st' = messages st ++ [row] → m_ID row = newID k → keeps st st'.
Proof.
  intros E Hk. split; rewrite E.
  - intros r Hr. exists r. split; [apply elem_of_app; by left|done].
  - intros r' [Hr|Hr]%elem_of_app; [left; by exists r'|]. apply list_elem_of_singleton in Hr as ->. right. by exists k.
Qed.

Lemma keeps_insert now m topicID request st m' st' : insertMessageTx newID now m topicID request st = Ok (m', st') → keeps st st'.
Proof. intros (stored & _ & _ & _ & E & _)%insertMessageTx_Ok. by eapply keeps_snoc. Qed.

Lemma keeps_update st (hit : messageRow → bool) stored text : keeps st (set_messages (map (λ r, if hit r then set_blocks stored text r else r) (messages st)) st).
Proof. apply (keeps_fmap _ _ (λ r, if hit r then set_blocks stored text r else r)); [done|]. intros r. by destruct (hit r). Qed.

Lemma run_op_keeps st o : store_ok st → keeps st (run_op st o).
Proof.
  intros HS. destruct o as [now mirror m ch topic req|now bump actor askID answers|actor id blocks|caller id name ar|ch name author at_|d]; cbn [run_op].
  - destruct (AppendMessageTopic _ _ _ _ _ _ _ _ _) as [[[[msg t] ins] st']| |] eqn:E; [|by apply keeps_rows..].
    unfold AppendMessageTopic in E. do 4 (case_bool_decide; [done|]). destruct (mintAskIDs _ _ _) as [blocks n].
    apply rbind_Ok in E as ([] & _ & ([] & _ & ([[tid c] st1] & Hr & Hx)%rbind_Ok)%rbind_Ok).
    apply resolveTopicForAppend_ok in Hr as (Hok1 & Em1 & _); [|by apply store_ok_next_id].
    destruct (insertMessageTx _ _ _ _ _ _) as [[inserted st2]|[| |e]|] eqn:Ei in Hx; try done.
    + apply keeps_insert in Ei. apply rbind_Ok in Hx as ([] & _ & Hx).
      assert (st' = st2) as -> by (destruct c; [destruct (GetTopic st2 tid); [|done]|]; by injection Hx as _ _ _ <-).
      eapply keeps_trans; [|exact Ei]. by apply keeps_rows.
    + apply rbind_Ok in Hx as (s & _ & [= _ _ _ <-]). by apply keeps_rows.
  - destruct (AnswerAsk _ _ _ _ _ _ _ _) as [[[msg a] st']| |] eqn:E; [|by apply keeps_rows..].
    apply AnswerAsk_Ok in E as (r & rest & b0 & b & st1 & an & _ & _ & _ & (stored & _ & _ & ->)%updateMessageBlocksExec_Ok & _ & _ & _ & Hi).
    eapply keeps_trans; [apply (keeps_update st (λ x, bool_decide (m_ID x = m_ID r)) stored (textContent b))|].
    eapply keeps_insert. exact Hi.
  - destruct (UpdateMessageBlocksAsAuthor _ _ _ _) as [[m st']| |] eqn:E; [|by apply keeps_rows..].
    unfold UpdateMessageBlocksAsAuthor in E. do 2 (case_bool_decide; [done|]). destruct (asks_have_ids blocks); [|done]. cbn [negb] in E.
    apply rbind_Ok in E as (stored & _ & Hu). destruct (find _ (messages st)); [|done]. apply rbind_Ok in Hu as (m' & _ & [= _ <-]). apply keeps_update.
  - destruct (UpdateTopic _ _ _ _ _ _) as [[t st']| |] eqn:E; [|by apply keeps_rows..].
    unfold UpdateTopic in E. case_bool_decide; [done|]. destruct (GetTopic st id) as [t0|] eqn:Et; [|done]. destruct (participates _ _ _); [|done]. cbn [negb] in E.
    apply rbind_Ok in E as ([surv st1] & Hr & Hx). assert (keeps st st1) as H1.
    { destruct name as [n|]; [|injection Hr as _ <-; by apply keeps_rows]. unfold applyTopicRename in Hr.
      destruct (find _ (topics st)) as [target|]; injection Hr as _ <-; [|by apply keeps_rows].
      apply (keeps_fmap _ _ (λ r, if bool_decide (m_TopicID r = id) then
        MkRow (m_ID r) (t_ID target) (m_Author r) (m_At r) (m_Seq r) (m_Blocks r) (m_Text r) (m_Request r) (m_Turn r) else r)).
      - by destruct (GetTopic _ id).
      - intros r. by case_bool_decide. }
    destruct ar; (destruct (GetTopic _ surv) in Hx; [|done]); injection Hx as _ <-; exact H1.
  - destruct (GetOrCreateTopic _ _ _ _ _ _ _) as [[[id c] st']| |] eqn:E; [|by apply keeps_rows..].
    apply GetOrCreateTopic_ok in E as (_ & ? & ?); [|done]. by apply keeps_rows.
  - by apply keeps_rows.
Qed.

Lemma run_keeps ops st : store_ok st → keeps st (foldl run_op st ops).
Proof.
  revert st. induction ops as [|o ops IH]; intros st HS; [by apply keeps_rows|]. simpl.
  eapply keeps_trans; [by apply run_op_keeps|]. by apply IH, run_op_ok.
Qed.

(** ** Pages *)

Definition msg_of (r : messageRow) : Message := MkMessage (m_ID r) (m_TopicID r) (m_Author r) (m_At r) (blocks_of r) (m_Turn r).

Lemma messagesFromRows_ok l : Forall row_ok l → messagesFromRows l = Ok (msg_of <$> l).
Proof.
  induction 1 as [|r l [_ (b & Hb & _)] _ IH]; [done|]. cbn [messagesFromRows].
  assert (messageFromParts r = Ok (msg_of r)) as -> by (unfold messageFromParts, msg_of, blocks_of; by rewrite Hb).
  cbn [rbind]. by rewrite IH.
Qed.

Lemma listed_rows st q before : Forall (λ r, r ∈ messages st) (listed st q before).
Proof. apply Forall_forall. intros r Hr. unfold listed in Hr. rewrite elem_of_reverse in Hr. apply list_elem_of_filter in Hr. apply Hr. Qed.

Lemma reverse_filter {A} (P : A → Prop) `{∀ x, Decision (P x)} (l : list A) : reverse (filter P l) = filter P (reverse l).
Proof.
  induction l as [|x l IH]; [done|]. rewrite reverse_cons, filter_app, !filter_cons, filter_nil. case_decide.
  - by rewrite reverse_cons, IH.
  - by rewrite app_nil_r, IH.
Qed.

Definition newest_first (l : list messageRow) : Prop := StronglySorted (λ a b, m_Seq b < m_Seq a) l.

Lemma listed_newest st q before : store_ok st → newest_first (listed st q before).
Proof.
  intros H. unfold listed. rewrite reverse_filter. apply sorted_filter.
  pose proof (ok_seqs st H) as Hs. unfold newest_first. induction (messages st) as [|r l IH]; [constructor|]. rewrite reverse_cons.
  rewrite fmap_cons in Hs. apply StronglySorted_inv in Hs as [Hs Hr]. specialize (IH Hs).
  assert (Forall (λ x, m_Seq r < m_Seq x) (reverse l)) as Hall.
  { apply Forall_forall. intros x Hx. rewrite elem_of_reverse in Hx. rewrite Forall_forall in Hr. apply Hr. by apply list_elem_of_fmap_2. }
  clear Hr Hs. induction IH as [|y m Hm IH Hy]; simpl; [repeat constructor|]. apply Forall_cons in Hall as [Hy' Hall]. constructor; [by apply IH|].
  apply Forall_app. split; [done|]. by constructor.
Qed.

(** A later cursor narrows the listing. *)
Lemma listed_narrow st q s s' :
  s' ≠ 0 → (s = 0 ∨ s' ≤ s) → listed st q s' = filter (λ r, m_Seq r < s') (listed st q s).
Proof.
  intros H0 Hs. unfold listed. rewrite <- reverse_filter. f_equal. rewrite list_filter_filter. apply list_filter_iff. intros r.
  rewrite !andb_true_iff, !orb_true_iff, !bool_decide_eq_true. destruct Hs as [->|Hs]; split; intros; intuition lia.
Qed.

(** Below the last row of a page: the rest. *)
Lemma filter_below l n r : newest_first l → last (take n l) = Some r → filter (λ x, m_Seq x < m_Seq r) l = drop n l.
Proof.
  intros Hl. revert n. induction Hl as [|x l Hl IH Hx]; intros n Hlast; [by rewrite take_nil in Hlast|].
  destruct n as [|n]; [done|]. cbn [take drop] in *. rewrite filter_cons. destruct (take n l) as [|y rest] eqn:Et.
  - injection Hlast as <-. rewrite decide_False by lia. rewrite filter_all; [|exact Hx].
    destruct n as [|n]; [done|]. destruct l; [done|discriminate Et].
  - assert (last (take n l) = Some r) as Hr by (rewrite Et; exact Hlast). rewrite decide_False; [by apply IH|].
    assert (r ∈ l) as Hin.
    { apply last_Some_elem_of, elem_of_take in Hr as (i & Hi & _). by eapply list_elem_of_lookup_2. } rewrite Forall_forall in Hx. specialize (Hx r Hin). simpl in Hx. lia.
Qed.

Definition after (q : ListMessagesQuery) (id : string) : ListMessagesQuery :=
  MkQuery (q_Actor q) (q_Channel q) (q_Topic q) (q_Limit q) id (q_Snapshot q).

(** A client that reads pages until one is empty. *)
Fixpoint page_walk (fuel : nat) (st : store) (q : ListMessagesQuery) : result storeError (list Message) :=
  match fuel with
  | O => Ok []
  | S fuel =>
      page <-? ListMessages st q;
      match last page with
      | None => Ok []
      | Some m => rest <-? page_walk fuel st (after q (ID m)); Ok (page ++ rest)
      end
  end.

Definition page_cursor (st : store) (q : ListMessagesQuery) : option Z :=
  if bool_decide (q_Before q = "") then Some 0 else GetPageCursorSeq st (q_Actor q) (q_Before q) (q_Channel q).

Lemma row_unique st r r' : store_ok st → r ∈ messages st → r' ∈ messages st → m_ID r = m_ID r' → r = r'.
Proof.
  intros H [i Hi]%list_elem_of_lookup [j Hj]%list_elem_of_lookup E. assert (i = j) as ->; [|congruence].
  eapply NoDup_lookup; [apply (ok_ids st H)| |]; rewrite list_lookup_fmap; [by rewrite Hi|rewrite Hj; simpl; congruence].
Qed.

Lemma clampLimit_pos n : 0 ≤ n → (1 ≤ Z.to_nat (clampLimit n) ≤ 200)%nat.
Proof. unfold clampLimit, defaultPageLimit, maxPageLimit. intros. case_bool_decide; [lia|]. case_bool_decide; lia. Qed.

Lemma listed_spec st q s r :
  r ∈ listed st q s ↔ r ∈ messages st ∧ channel_of st r = Some (q_Channel q) ∧ participates st (q_Actor q) (q_Channel q) = true
    ∧ (s = 0 ∨ m_Seq r < s) ∧ (i64 (q_Snapshot q) = 0 ∨ m_Seq r ≤ i64 (q_Snapshot q)) ∧ (q_Topic q = "" ∨ m_TopicID r = q_Topic q).
Proof. unfold listed. rewrite elem_of_reverse, list_elem_of_filter, !andb_true_iff, !orb_true_iff, !bool_decide_eq_true. tauto. Qed.

Lemma ListMessages_page st q s :
  store_ok st → q_Channel q ≠ "" → page_cursor st q = Some s →
  ListMessages st q = Ok (msg_of <$> take (Z.to_nat (clampLimit (q_Limit q))) (listed st q s)).
Proof.
  intros H Hc Hs. unfold ListMessages. rewrite bool_decide_false by done. unfold page_cursor in Hs.
  assert ((if bool_decide (q_Before q = "") then Ok 0
           else match GetPageCursorSeq st (q_Actor q) (q_Before q) (q_Channel q) with Some n => Ok n | None => Err ErrInvalidArgument end) = Ok (E := storeError) s) as ->.
  { destruct (bool_decide (q_Before q = "")); [by injection Hs as <-|by rewrite Hs]. }
  cbn [rbind]. apply messagesFromRows_ok, Forall_take. pose proof (ok_rows st H) as HR. rewrite Forall_forall in HR.
  eapply Forall_impl; [apply listed_rows|]. exact HR.
Qed.

Lemma page_walk_ok fuel st q s :
  store_ok st → Forall (λ r, m_ID r ≠ "") (messages st) → q_Channel q ≠ "" → 0 ≤ q_Limit q → page_cursor st q = Some s → s = 0 ∨ 1 ≤ s →
  (length (listed st q s) < fuel)%nat → page_walk fuel st q = Ok (msg_of <$> listed st q s).
Proof.
  intros H Hids Hc Hl. revert q s Hc Hl. induction fuel as [|fuel IH]; intros q s Hc Hl Hs Hs0 Hf; [lia|]. cbn [page_walk].
  rewrite (ListMessages_page st q s) by done. cbn [rbind]. set (n := Z.to_nat (clampLimit (q_Limit q))).
  pose proof (clampLimit_pos _ Hl) as Hn. fold n in Hn. rewrite fmap_last. destruct (last (take n (listed st q s))) as [r|] eqn:Er; cbn [fmap option_fmap option_map].
  2:{ apply last_None in Er. destruct (listed st q s) as [|x l] eqn:E; [done|]. destruct n; [lia|done]. }
  assert (r ∈ listed st q s) as Hin.
  { apply last_Some_elem_of, elem_of_take in Er as (i & Hi & _). by eapply list_elem_of_lookup_2. }
  apply listed_spec in Hin as (Hr & Hch & Hp & Hlt & _). pose proof (proj2 (ok_next st H)) as HN. rewrite Forall_forall in HN, Hids.
  pose proof (HN r Hr) as Hseq. pose proof (Hids r Hr) as Hid.
  assert (page_cursor st (after q (m_ID r)) = Some (m_Seq r)) as Hcur.
  { unfold page_cursor. simpl. rewrite bool_decide_false by done. unfold GetPageCursorSeq. destruct (find _ (messages st)) as [r'|] eqn:Ef.
    - apply find_some in Ef as [Hr' Hb]. apply list_elem_of_In in Hr'. rewrite !andb_true_iff, !bool_decide_eq_true in Hb.
      simpl. f_equal. by rewrite (row_unique st r' r H Hr' Hr) by tauto.
    - apply list_elem_of_In in Hr. pose proof (find_none _ _ Ef _ Hr) as Hb. cbv beta in Hb. by rewrite bool_decide_true, bool_decide_true, Hp in Hb. }
  assert (listed st (after q (m_ID r)) (m_Seq r) = drop n (listed st q s)) as Hdrop.
  { change (listed st (after q (m_ID r)) (m_Seq r)) with (listed st q (m_Seq r)).
    rewrite (listed_narrow st q s) by lia. apply filter_below; [by apply listed_newest|done]. }
  simpl. rewrite (IH (after q (m_ID r)) (m_Seq r)); [|done|done|done|lia|].
  - cbn [rbind]. rewrite Hdrop, <- fmap_app, take_drop. done.
  - rewrite Hdrop, length_drop. assert (0 < length (listed st q s))%nat; [|lia].
    destruct (listed st q s); [by rewrite take_nil in Er|simpl; lia].
Qed.

Lemma run_ids ops d : (∀ k, newID k ≠ "") → Forall (λ r, m_ID r ≠ "") (messages (run d ops)).
Proof.
  intros Hne. apply Forall_forall. intros r Hr. destruct (run_keeps ops (empty_store d) (empty_store_ok d)) as [_ HK].
  destruct (HK r Hr) as [(r0 & Hr0 & _)|(k & ->)]; [by apply elem_of_nil in Hr0|apply Hne].
Qed.

(** * Claims *)

(** C7. In every reachable state of the message tables the sequence numbers increase in
    insertion order below the next one, message and topic ids and the names of a
    channel's topics (folded) are unique, so is a request key of an author, each message
    has its topic and each topic the highest sequence number of its messages, and every
    stored block list reads back, with the text that the index has. *)
Theorem messages_well_formed d ops : store_ok (run d ops).
Proof. apply tables_ok, empty_store_ok. Qed.

(** C1. When clients only post text and unanswered asks, then however posts, answers,
    renames, merges and changes of membership follow each other: ask ids are unique, an
    unanswered ask has no answer message and an answered one exactly one, which carries
    the ask as it stands and its asker, in the ask's topic and after it, and no other
    answer message exists. *)
Theorem ask_answered_once d ops :
  Inj (=) (=) newID → (∀ l r, r ∈ pick l → r ∈ l) → Forall edge_op ops →
  let l := messages (run d ops) in
  NoDup (AskID <$> all_asks l) ∧ (∀ r a, r ∈ l → a ∈ asks_of r → answered_as l r a)
  ∧ (∀ x, x ∈ all_answers l → ∃ a, a ∈ all_asks l ∧ AskID a = AskID (ab_Ask x.2)).
Proof.
  intros Hinj Hp He. assert (asks_ok (run d ops)) as H.
  { apply run_asks; [done|done|apply empty_store_ok|]. constructor; simpl; [constructor|constructor|intros r a Hx|intros x Hx]; by apply elem_of_nil in Hx. }
  cbv zeta. split; [apply H|]. split; apply H.
Qed.

(** A client that reads a channel's pages until one is empty gets each message that the
    query admits exactly once, newest first: those of the channel (of the topic, up to
    the snapshot), if it participates there; no page has more than two hundred. *)
Theorem pages_partition d ops q fuel :
  (∀ k, newID k ≠ "") → q_Channel q ≠ "" → q_Before q = "" → 0 ≤ q_Limit q →
  let st := run d ops in
  (length (messages st) < fuel)%nat →
  page_walk fuel st q = Ok (msg_of <$> listed st q 0) ∧ newest_first (listed st q 0)
  ∧ (∀ r, r ∈ listed st q 0 ↔ r ∈ messages st ∧ channel_of st r = Some (q_Channel q) ∧ Participant (dir st) (q_Channel q) (q_Actor q)
       ∧ (i64 (q_Snapshot q) = 0 ∨ m_Seq r ≤ i64 (q_Snapshot q)) ∧ (q_Topic q = "" ∨ m_TopicID r = q_Topic q))
  ∧ (∀ id page, ListMessages st (after q id) = Ok page → (length page ≤ 200)%nat).
Proof.
  intros Hne Hc Hb Hl st Hf. assert (store_ok st) as H by apply tables_ok, empty_store_ok. split; [|split; [by apply listed_newest|split]].
  - apply page_walk_ok; try done; [by apply run_ids|unfold page_cursor; by rewrite bool_decide_true|by left|].
    eapply Nat.le_lt_trans; [|exact Hf]. unfold listed. rewrite length_reverse. apply length_filter.
  - intros r. rewrite listed_spec. unfold participates. rewrite bool_decide_eq_true, participating_spec. naive_solver.
  - intros id page Hp. unfold ListMessages in Hp. simpl in Hp. rewrite bool_decide_false in Hp by done.
    apply rbind_Ok in Hp as (s & Hs & Hp). rewrite messagesFromRows_ok in Hp.
    + injection Hp as <-. rewrite length_fmap, length_take. pose proof (clampLimit_pos _ Hl). lia.
    + apply Forall_take. pose proof (ok_rows st H) as HR. rewrite Forall_forall in HR. eapply Forall_impl; [apply listed_rows|]. exact HR.
Qed.

(** The author may post: it participates, and owns an owner-only channel. *)
Definition may_post (st : store) (author channel : string) : Prop :=
  Participant (dir st) channel author
  ∧ ∃ c, channels (dir st) !! channel = Some c ∧ (post_policy c = ChannelPostPolicyOwnerOnly → author = default "" (owner_account_id c)).

Lemma checkPostPolicy_Ok author channel st :
  checkPostPolicy author channel st = Ok tt →
  ∃ c, channels (dir st) !! channel = Some c ∧ (post_policy c = ChannelPostPolicyOwnerOnly → author = default "" (owner_account_id c)).
Proof.
  unfold checkPostPolicy. destruct (channels (dir st) !! channel) as [c|]; [|done]. destruct (_ && _) eqn:E; [done|]. intros _. exists c. split; [done|].
  intros Ho. rewrite bool_decide_true in E by done. apply negb_false_iff, bool_decide_eq_true in E. done.
Qed.

Lemma requireChannelMember_Ok d actor channel : requireChannelMember d actor channel = Ok tt → Participant d channel actor.
Proof.
  unfold requireChannelMember, isChannelMember. destruct (ChannelParticipant d channel actor) eqn:E; [|done]. by rewrite ChannelParticipant_spec in E.
Qed.

Lemma insert_conflict now m topicID request st :
  insertMessageTx newID now m topicID request st = Err errMessageInsertConflict → request ≠ "".
Proof.
  unfold insertMessageTx. destruct (marshalBlocks _); [|done..]. destruct (bool_decide (request = "")) eqn:E; [|by apply bool_decide_eq_false in E].
  cbn [negb andb]. destruct (_ || _); [done|]. by destruct (negb _).
Qed.

Lemma head_snoc l n row : Forall (λ r, 1 ≤ m_Seq r < n) l → m_Seq row = n → 1 ≤ n → foldr (λ r, Z.max (m_Seq r)) 0 (l ++ [row]) = n.
Proof.
  intros Hl Hr Hn. rewrite foldr_app. simpl. rewrite Hr. induction Hl as [|x l Hx _ IH]; simpl; lia.
Qed.

Lemma max_seq_lt id l n : Forall (λ r, 1 ≤ m_Seq r < n) l → 1 ≤ n → max_seq id l < n.
Proof.
  intros Hl Hn. induction Hl as [|x l Hx _ IH]; [cbn; lia|]. rewrite max_seq_cons. case_bool_decide; lia.
Qed.

Lemma getMessageByRequestID_Ok author request st msg :
  getMessageByRequestID author request st = Ok msg → ∃ r, r ∈ messages st ∧ m_Author r = author ∧ m_Request r = request ∧ msg = msg_of r.
Proof.
  unfold getMessageByRequestID. destruct (filter _ _) as [|r l] eqn:E; [done|].
  assert (r ∈ r :: l) as Hin by apply list_elem_of_here. rewrite <- E in Hin. apply list_elem_of_filter in Hin as [[? ?]%bool_decide_eq_true Hin].
  intros (b & Hb & [= <-])%rbind_Ok. exists r. split; [done|]. split; [done|]. split; [done|]. unfold msg_of, blocks_of. by rewrite Hb.
Qed.

(** The topic of an inserted message. *)
Lemma inserted_topic st1 st2 tid t row :
  store_ok st1 → GetTopic st1 tid = Some t → m_Seq row = next_seq st1 →
  topics st2 = map_topic (λ t, set_LastSeq (Z.max (LastSeq t) (next_seq st1)) t) tid (topics st1) →
  ∃ t', GetTopic st2 tid = Some t' ∧ LastSeq t' = m_Seq row ∧ t_ChannelID t' = t_ChannelID t.
Proof.
  intros H Ht Hs E. exists (set_LastSeq (Z.max (LastSeq t) (next_seq st1)) t). split; [|split; [|done]].
  - unfold GetTopic. rewrite E. by apply (GetTopic_map st1 (λ t, set_LastSeq (Z.max (LastSeq t) (next_seq st1)) t) tid).
  - simpl. apply GetTopic_Some in Ht as [Hin _]. pose proof (ok_last st1 H) as HL. rewrite Forall_forall in HL. rewrite (HL t Hin), Hs.
    destruct (ok_next st1 H) as [Hn Hb]. pose proof (max_seq_lt (t_ID t) (messages st1) (next_seq st1) Hb Hn). lia.
Qed.

(** C5. An append that succeeds was allowed (participation and post policy).  Either it adds
    one message as the newest of a topic of the channel, under a key that the author had
    not used, or its key was used and it returns the one message with it and adds
    nothing.  The row stays, under its id and key, whatever follows, so a retry never
    posts twice. *)
Theorem append_exact d ops now mirror m channel topic request msg changed inserted st' :
  let st := run d ops in
  AppendMessageTopic newID lower now mirror m channel topic request st = Ok (msg, changed, inserted, st') →
  may_post st (AuthorAccountID m) channel
  ∧ (if inserted then ∃ row, messages st' = messages st ++ [row] ∧ m_ID row = ID msg ∧ m_Author row = AuthorAccountID m ∧ m_Request row = request
       ∧ m_Seq row = next_seq st' - 1 ∧ MessagesHeadSeq st' = m_Seq row ∧ channel_of st' row = Some channel ∧ m_TopicID row = TopicID msg
       ∧ (∃ t, GetTopic st' (m_TopicID row) = Some t ∧ LastSeq t = m_Seq row ∧ (∀ t', changed = Some t' → t' = t))
       ∧ (request ≠ "" → ∀ r, r ∈ messages st → m_Author r = AuthorAccountID m → m_Request r ≠ request)
     else messages st' = messages st ∧ topics st' = topics st ∧ changed = None ∧ request ≠ ""
       ∧ ∃ r, r ∈ messages st ∧ m_Author r = AuthorAccountID m ∧ m_Request r = request ∧ msg = msg_of r)
  ∧ (∀ ops' r, r ∈ messages st' → ∃ r', r' ∈ messages (foldl run_op st' ops') ∧ same_row r r').
Proof.
  intros st Hrun. assert (store_ok st) as HS by apply tables_ok, empty_store_ok.
  assert (store_ok st') as HS' by (eapply AppendMessageTopic_ok; [exact HS|exact Hrun]).
  apply and_assoc. split; [|intros ops' r Hr; by apply (run_keeps ops' st' HS')].
  unfold AppendMessageTopic in Hrun. do 4 (case_bool_decide; [done|]). destruct (mintAskIDs _ _ _) as [blocks n].
  set (m1 := MkMessage _ _ _ _ _ _) in Hrun. set (st0 := set_next_id n st) in Hrun.
  apply rbind_Ok in Hrun as ([] & Hmem & ([] & Hpol & ([[tid c] st1] & Hr & Hx)%rbind_Ok)%rbind_Ok).
  split; [split; [by apply requireChannelMember_Ok|by apply checkPostPolicy_Ok in Hpol]|].
  apply resolveTopicForAppend_ok in Hr as (Hok1 & Em1 & _ & _ & t & Ht & Hch); [|by apply store_ok_next_id]. simpl in Em1.
  destruct (insertMessageTx _ _ _ _ _ _) as [[ins st2]|[| |e]|] eqn:Ei in Hx; try done.
  - apply insertMessageTx_Ok in Ei as (stored & _ & _ & Emsg & Emsgs & _ & Enext & _ & Etop & _ & _ & _ & Hq).
    set (row := new_row _ _ _ _ _ _) in *. apply rbind_Ok in Hx as ([] & _ & Hx).
    assert (msg = ins ∧ inserted = true ∧ st' = st2 ∧ ∀ t', changed = Some t' → GetTopic st2 tid = Some t') as (-> & -> & -> & Hchg).
    { destruct c; [destruct (GetTopic st2 tid) as [t'|]; [|done]|]; injection Hx as <- <- <- <-; naive_solver. }
    destruct (inserted_topic st1 st2 tid t row Hok1 Ht eq_refl Etop) as (t' & Ht' & Hls & Hch').
    destruct (ok_next st1 Hok1) as [Hn1 Hb1]. exists row. rewrite Emsgs, Em1. split; [done|]. subst ins. simpl. split; [done|]. split; [done|]. split; [done|].
    split; [rewrite Enext; lia|]. split; [unfold MessagesHeadSeq; rewrite Emsgs; by apply head_snoc|].
    split; [unfold channel_of; simpl; rewrite Ht'; simpl; congruence|]. split; [done|]. split.
    + exists t'. split; [done|]. split; [done|]. intros t'' E. apply Hchg in E. congruence.
    + intros Hne r Hr Ha Ereq. specialize (Hq Hne). rewrite <- Em1 in Hr. pose proof (existsb_false _ _ r Hq Hr) as Hb.
      apply bool_decide_eq_false in Hb. apply Hb. done.
  - apply rbind_Ok in Hx as (s & Hs & [= -> <- <- <-]). split; [done|]. split; [done|]. split; [done|]. split; [by eapply insert_conflict|].
    by apply getMessageByRequestID_Ok in Hs.
Qed.

End history.

(** A channel with one member: a post with an ask in a new topic, its answer, a post with a
    key and its retry, a second topic and the merge of the first into it. *)
Fixpoint unary (n : nat) : string := match n with O => "x" | S n => String (Ascii.ascii_of_nat 120) (unary n) end.

#[export] Instance unary_inj : Inj (=) (=) unary.
Proof. intros m. induction m as [|m IH]; intros [|n] E; try done; [by destruct n|by destruct m|]. injection E as E. f_equal. by apply IH. Qed.

Lemma unary_not_empty k : unary k ≠ "".
Proof. by destruct k. Qed.

Definition sample_dir : directory :=
  MkDirectory {["ann"]} ∅ {["chan" := MkChannelRow "general" 0 None None 0]} {[("chan", "ann")]}.

Definition post (blocks : list MessageBlock) : Message := MkMessage "" "" "ann" 0 blocks 0.
Definition text_block (t : string) : MessageBlock := MkBlock (Some t) None None.
Definition new_ask : Ask := MkAsk "" "" None [sample_question "q1" ["a"; "b"]] false.

Definition sample_ops : list op :=
  [Append 5 (Ok tt) (post [text_block "hello"; MkBlock None (Some new_ask) None]) "chan" (MkTopicRef "" "work" true) "";
   AnswerOf 6 (Ok tt) "ann" (unary 0) [MkAnswer "q1" ["b"] ""];
   Append 7 (Ok tt) (post [text_block "again"]) "chan" (MkTopicRef "" "other" true) "key";
   EditTopic "ann" (unary 1) (Some "other") None].

#[local] Notation sample_run := (run unary id id sample_dir sample_ops).

Lemma sample_edge : Forall edge_op sample_ops.
Proof. repeat constructor. Qed.

Lemma ask_answered_once_witness :
  (m_TopicID <$> messages sample_run) = [unary 4; unary 4; unary 4]
  ∧ (∃ r a, r ∈ messages sample_run ∧ a ∈ asks_of r ∧ Answered a = true ∧ answered_as (messages sample_run) r a).
Proof.
  split; [vm_compute; reflexivity|].
  destruct (ask_answered_once unary id id sample_dir sample_ops) as (_ & H & _); [apply _|done|apply sample_edge|].
  assert (∃ r a, messages sample_run !! 0%nat = Some r ∧ asks_of r = [a] ∧ Answered a = true) as (r & a & Hr & Ha & Hans).
  { eexists _, _. split; [vm_compute; reflexivity|]. split; vm_compute; reflexivity. }
  exists r, a. apply list_elem_of_lookup_2 in Hr. assert (a ∈ asks_of r) as Hin by (rewrite Ha; apply list_elem_of_here).
  split; [exact Hr|]. split; [exact Hin|]. split; [exact Hans|]. exact (H r a Hr Hin).
Defined.

#[local] Notation retry_result := (AppendMessageTopic unary id 9 (λ _, Ok tt) (post [text_block "again"]) "chan" (MkTopicRef "" "other" true) "key" sample_run).

Lemma append_exact_witness :
  ∃ msg st', retry_result = Ok (msg, None, false, st') ∧ messages st' = messages sample_run
  ∧ ∃ r, r ∈ messages sample_run ∧ m_Request r = "key" ∧ msg = msg_of r.
Proof.
  assert (∃ msg st', retry_result = Ok (msg, None, false, st')) as (msg & st' & E) by (eexists _, _; vm_compute; reflexivity).
  exists msg, st'. split; [exact E|].
  destruct (append_exact unary id id sample_dir sample_ops 9 (λ _, Ok tt) (post [text_block "again"]) "chan" (MkTopicRef "" "other" true) "key" msg None false st' E)
    as (_ & (H1 & _ & _ & _ & r & Hr & _ & Hk & Hm) & _).
  split; [exact H1|]. exists r. split; [exact Hr|]. split; [exact Hk|exact Hm].
Defined.

Lemma pages_partition_witness :
  page_walk 10 sample_run (MkQuery "ann" "chan" "" 2 "" 0) = Ok (msg_of <$> listed sample_run (MkQuery "ann" "chan" "" 2 "" 0) 0)
  ∧ length (listed sample_run (MkQuery "ann" "chan" "" 2 "" 0) 0) = 3%nat.
Proof.
  split; [|vm_compute; reflexivity].
  apply (pages_partition unary id id sample_dir sample_ops (MkQuery "ann" "chan" "" 2 "" 0) 10 unary_not_empty); [done|done|simpl; lia|].
  vm_compute. lia.
Defined.

(** * What modelling showed *)

(** A retry under a used key is refused when its topic has been merged away since. *)
Definition merged_ops : list op :=
  [Append 5 (Ok tt) (post [text_block "hello"]) "chan" (MkTopicRef "" "work" true) "";
   Append 6 (Ok tt) (post [text_block "there"]) "chan" (MkTopicRef "" "other" true) "";
   Append 7 (Ok tt) (post [text_block "again"]) "chan" (MkTopicRef (unary 0) "" false) "key";
   EditTopic "ann" (unary 0) (Some "other") None].

Lemma retry_after_merge_fails :
  let st := run unary id id sample_dir merged_ops in
  MessageRequestRecorded "ann" "key" st = true
  ∧ AppendMessageTopic unary id 9 (λ _, Ok tt) (post [text_block "again"]) "chan" (MkTopicRef (unary 0) "" false) "key" st = Err ErrInvalidArgument.
Proof. split; vm_compute; reflexivity. Qed.

(** An agent of a tree channel may edit its message, but not read its ask ids. *)
Definition tree_dir : directory :=
  MkDirectory {["bot"; "ann"]} {["bot" := MkAgentRow "ann" None]} {["chan" := MkChannelRow "team" 0 None (Some "bot") 1]} ∅.
Definition tree_ops : list op :=
  [Append 5 (Ok tt) (MkMessage "" "" "bot" 0 [text_block "hello"] 0) "chan" (MkTopicRef "" "work" true) ""].

Lemma ask_ids_need_a_row :
  let st := run unary id id tree_dir tree_ops in
  (∃ m st', UpdateMessageBlocksAsAuthor "bot" (unary 1) [text_block "edited"] st = Ok (m, st')) ∧ MessageAskIDs "bot" (unary 1) st = Err ErrNotFound.
Proof. split; [eexists _, _; vm_compute; reflexivity|vm_compute; reflexivity]. Qed.

End MessageFacts.
