(* ===== verification/MirrorRender.v ===== *)
(** The rendering of forge mirrors ([src/go/internal/mirror/render.go]): asks and message
    histories as comment bodies within a byte limit, the row marker by which a comment is
    found again, and the escape that keeps quoted markers from being taken for it. *)
From stdpp Require Import base gmap list strings.
From Stdlib Require Import Ascii ZArith Lia.
From S2P Require Import Prelude Text Utf8 ForgeOwner ForgeMarker Blocks Messages.

Module MirrorRender.
Import Utf8.

Open Scope Z_scope.

Notation LF := ForgeOwner.LF.

Record Link := MkLink { l_Channel : bytes; l_Topic : bytes; URL : bytes }.

Definition len (s : bytes) : Z := Z.of_nat (length s).

(** [strings.ReplaceAll] for an [old] that is not empty; the fuel bounds the bytes walked. *)
Fixpoint replace_go (old new : bytes) (fuel : nat) (s : bytes) : bytes :=
  match fuel with
  | O => s
  | S f =>
      match cut_prefix old s with
      | Some r => new ++ replace_go old new f r
      | None => match s with [] => [] | c :: s => c :: replace_go old new f s end
      end
  end.

Definition ReplaceString (old new s : bytes) : bytes := replace_go old new (S (length s)) s.

(** [strings.Join]. *)
Fixpoint Join (lines : list bytes) (sep : bytes) : bytes :=
  match lines with
  | [] => []
  | [l] => l
  | l :: lines => l ++ sep ++ Join lines sep
  end.

Definition nl : bytes := [LF].
Definition blank : bytes := [LF; LF].

Definition mirrorPrefix : bytes := lit "<!-- compass-mirror:".

Definition neutralize (text : bytes) : bytes := ReplaceString mirrorPrefix (lit "&lt;!-- compass-mirror:") text.

Definition marker (rowID : bytes) : bytes := mirrorPrefix ++ rowID ++ lit " -->".

Definition WithMarker (body rowID : bytes) : bytes := ForgeMarker.trim_newlines body ++ blank ++ marker rowID.

Definition HasMarker (body rowID : bytes) : bool := contains body (marker rowID).

(** The index [end] stays within the text: [limit < len(text)] where the loop starts. *)
Definition truncateUTF8 (text : bytes) (limit : Z) : bytes :=
  if bool_decide (limit ≤ 0) then []
  else if bool_decide (len text ≤ limit) then text
  else take (default 0%nat (back_to_start text (Z.to_nat limit))) text.

Definition header (link : Link) : bytes :=
  let label := lit "#" ++ neutralize (l_Channel link) ++ lit " › " ++ neutralize (l_Topic link) in
  if bool_decide (URL link = []) then label else lit "[" ++ label ++ lit "](" ++ URL link ++ lit ")".

(** ** Asks *)

Definition option_line (recommended : option Z) (index : nat) (o : Blocks.AskOption) : bytes :=
  lit "- " ++ neutralize (lit (Blocks.Label o))
  ++ (if bool_decide (recommended = Some (Z.of_nat index)) then lit " (recommended)" else []).

Definition question_lines (q : Blocks.AskQuestion) : list bytes :=
  (if bool_decide (Blocks.Header q = ""%string) then [] else [lit "### " ++ neutralize (lit (Blocks.Header q))])
  ++ neutralize (lit (Blocks.Question q)) :: imap (option_line (Blocks.Recommended q)) (Blocks.Options q).

Definition selected (q : Blocks.AskQuestion) : list bytes :=
  omap (λ chosenID : string,
    (λ o, neutralize (lit (Blocks.Label o))) <$> List.find (λ o, bool_decide (Blocks.o_ID o = chosenID)) (Blocks.Options q)) (Blocks.ChosenOptionIDs q)
  ++ (if bool_decide (Blocks.CustomText q = ""%string) then [] else [neutralize (lit (Blocks.CustomText q))]).

Definition answer_line (q : Blocks.AskQuestion) : option bytes :=
  match selected q with
  | [] => None
  | sel => Some (lit "- " ++ neutralize (lit (Blocks.Question q)) ++ lit ": " ++ Join sel (lit "; "))
  end.

Definition askLines (ask : Blocks.Ask) (answeredBy : bytes) : list bytes :=
  let lines := concat (question_lines <$> Blocks.Questions ask) in
  if negb (Blocks.Answered ask) then lines
  else
    let answers := omap answer_line (Blocks.Questions ask) in
    lines ++ (if forallb (λ q, bool_decide (selected q = [])) (Blocks.Questions ask) then [lit "Skipped."] else lit "Answers:" :: answers)
    ++ [lit "Answered by @" ++ neutralize answeredBy].

Definition RenderAsk (ask : Blocks.Ask) (answeredBy : bytes) (link : Link) : bytes := Join (header link :: askLines ask answeredBy) nl.

(** The walk back over the lines of the ask, newest first: the lines kept. *)
Fixpoint keep_back (limit used : Z) (backward : list bytes) : list bytes :=
  match backward with
  | [] => []
  | line :: rest =>
      let available := limit - used - 1 in
      if bool_decide (available ≤ 0) then []
      else if bool_decide (available < len line) then [truncateUTF8 line available]
      else line :: keep_back limit (used + (len line + 1)) rest
  end.

Definition renderAskWithinLimit (ask : Blocks.Ask) (answeredBy : bytes) (link : Link) (limit : Z) : bytes :=
  let head := header link in
  let body := askLines ask answeredBy in
  if bool_decide (limit ≤ 0) then Join (head :: body) nl
  else if bool_decide (limit ≤ len head) then truncateUTF8 head limit
  else Join (head :: reverse (keep_back limit (len head) (reverse body))) nl.

(** ** Messages *)

(** The date of a day since 1970-01-01, counted by the years that begin in March of an
    era of 400 years; [Time.Format] of "2006-01-02T15:04Z" on the UTC time. *)
Definition civil (days : Z) : Z * Z * Z :=
  let z := days + 719468 in
  let era := z / 146097 in
  let doe := z - era * 146097 in
  let yoe := (doe - doe / 1460 + doe / 36524 - doe / 146096) / 365 in
  let doy := doe - (365 * yoe + yoe / 4 - yoe / 100) in
  let mp := (5 * doy + 2) / 153 in
  let m := if bool_decide (mp < 10) then mp + 3 else mp - 9 in
  (yoe + era * 400 + (if bool_decide (m ≤ 2) then 1 else 0), m, doy - (153 * mp + 2) / 5 + 1).

Definition pad (width : nat) (n : Z) : bytes :=
  let ds := FormatUint (Z.to_N (Z.abs n)) in
  (if bool_decide (n < 0) then lit "-" else []) ++ replicate (width - length ds) "0"%char ++ ds.

Definition FormatMinute (unixMs : Z) : bytes :=
  let minutes := unixMs / 60000 in
  let '(y, m, d) := civil (minutes / 1440) in
  pad 4 y ++ lit "-" ++ pad 2 m ++ lit "-" ++ pad 2 d ++ lit "T" ++ pad 2 (minutes mod 1440 / 60) ++ lit ":" ++ pad 2 (minutes mod 60) ++ lit "Z".

Definition quoted (text : bytes) : list bytes := (λ line, lit "> " ++ line) <$> split LF text.

Definition block_lines (author : bytes) (b : Blocks.MessageBlock) : list bytes :=
  match Blocks.Text b, Blocks.b_Ask b, Blocks.b_AskAnswer b with
  | Some t, _, _ => quoted (neutralize (lit t))
  | None, Some ask, _ => quoted (Join (askLines ask []) nl)
  | None, None, Some aa => quoted (Join (askLines (Blocks.ab_Ask aa) author) nl)
  | None, None, None => []
  end.

Definition author_of (authors : gmap string string) (msg : Messages.Message) : bytes :=
  let author := default ""%string (authors !! Messages.AuthorAccountID msg) in
  lit (if bool_decide (author = ""%string) then Messages.AuthorAccountID msg else author).

Definition renderMessage (msg : Messages.Message) (authors : gmap string string) : bytes :=
  let author := author_of authors msg in
  Join ((lit "> @" ++ neutralize author ++ lit " · " ++ FormatMinute (Messages.At msg))
        :: concat (block_lines author <$> Messages.MessageBlocks msg)) nl.

Definition sum_len (lines : list bytes) : Z := foldr (λ l n, len l + n) 0 lines.

Definition renderedLength (lines : list bytes) : Z :=
  match lines with [] => 0 | _ => (Z.of_nat (length lines) - 1) * 2 + sum_len lines end.

Definition drop_line (dropped : nat) : bytes := lit "Dropped " ++ FormatUint (N.of_nat dropped) ++ lit " older messages.".

(** One pass of the loop over [kept]; the state is [suffixLength] and [best]. *)
Definition keep_step (prefix messageBodies : list bytes) (limit : Z) (st : Z * option (list bytes)) (kept : nat) : Z * option (list bytes) :=
  let '(suffixLength, best) := st in
  let message := default [] (messageBodies !! (length messageBodies - kept)%nat) in
  let suffixLength := suffixLength + len message + (if (1 <? kept)%nat then 2 else 0) in
  let dropped := (length messageBodies - kept)%nat in
  let dropLength := if (0 <? dropped)%nat then len (drop_line dropped) + 2 else 0 in
  (suffixLength,
   if bool_decide (renderedLength prefix + dropLength + suffixLength ≤ limit)
   then Some (prefix ++ (if (0 <? dropped)%nat then [drop_line dropped] else []) ++ drop (length messageBodies - kept) messageBodies)
   else best).

(** Where not even the newest message fits whole. *)
Definition render_newest (prefix messageBodies : list bytes) (limit : Z) : bytes :=
  let dropped := (length messageBodies - 1)%nat in
  let used := renderedLength prefix in
  let with_drop := (0 <? dropped)%nat && bool_decide (used + 2 + len (drop_line dropped) < limit) in
  let lines := if with_drop then prefix ++ [drop_line dropped] else prefix in
  let used := if with_drop then used + (len (drop_line dropped) + 2) else used in
  let available := limit - used - (if (0 <? length lines)%nat then 2 else 0) in
  Join (if bool_decide (used < limit) && bool_decide (0 < available)
        then lines ++ [truncateUTF8 (default [] (messageBodies !! (length messageBodies - 1)%nat)) available] else lines) blank.

Definition render_prefix (link : Link) (note : bytes) : list bytes :=
  header link :: (if bool_decide (note = []) then [] else [neutralize note]).

(** Where the prefix alone is too long. *)
Definition short_prefix (prefix : list bytes) (limit : Z) : list bytes :=
  match prefix with
  | [h; n] => if bool_decide (len h + 2 < limit) then [h; truncateUTF8 n (limit - len h - 2)] else [truncateUTF8 h limit]
  | _ => [truncateUTF8 (default [] (head prefix)) limit]
  end.

Definition Render (msgs : list Messages.Message) (authors : gmap string string) (link : Link) (note : bytes) (limit : Z) : bytes :=
  let prefix := render_prefix link note in
  let messageBodies := (λ msg, renderMessage msg authors) <$> msgs in
  if bool_decide (limit ≤ 0) then Join (prefix ++ messageBodies) blank
  else if bool_decide (limit < renderedLength prefix) then
    let prefix := short_prefix prefix limit in
    if bool_decide (limit < renderedLength prefix) then truncateUTF8 (default [] (head prefix)) limit else Join prefix blank
  else if bool_decide (msgs = []) then Join prefix blank
  else
    match snd (foldl (keep_step prefix messageBodies limit) (0, None) (seq 1 (length messageBodies))) with
    | Some best => Join best blank
    | None => render_newest prefix messageBodies limit
    end.

(** The body budget of [renderBody]: the limit left for the text once the row marker is
    reserved, and whether the limit has room for the marker. *)
Definition text_limit (providerLimit : Z) (rowID : bytes) : option Z :=
  let markerLength := len (WithMarker [] rowID) in
  if bool_decide (0 < providerLimit) then
    if bool_decide (providerLimit < markerLength) then None else Some (providerLimit - markerLength)
  else Some providerLimit.

(** * Facts *)

Lemma len_app a b : len (a ++ b) = len a + len b.
Proof. unfold len. rewrite length_app. lia. Qed.

Lemma len_nonneg a : 0 ≤ len a.
Proof. unfold len. lia. Qed.

Lemma back_to_start_le s i e : back_to_start s i = Some e → (e ≤ i)%nat.
Proof.
  revert e. induction i as [|i IH]; intros e; cbn [back_to_start]; [by intros [= <-]|].
  destruct (s !! S i) as [c|]; [|done]. destruct (RuneStart c); [intros [= <-]; lia|]. intros H%IH. lia.
Qed.

Lemma truncateUTF8_take text limit : ∃ n, truncateUTF8 text limit = take n text.
Proof.
  unfold truncateUTF8. case_bool_decide; [by exists 0%nat|]. case_bool_decide; [|by eexists].
  exists (length text). by rewrite firstn_all.
Qed.

Lemma truncateUTF8_le text limit : 0 < limit → len (truncateUTF8 text limit) ≤ limit.
Proof.
  intros Hl. unfold truncateUTF8. rewrite bool_decide_false by lia. case_bool_decide; [done|].
  unfold len in *. rewrite length_take. destruct (back_to_start text (Z.to_nat limit)) as [e|] eqn:E; simpl; [|lia].
  apply back_to_start_le in E. lia.
Qed.

Lemma truncateUTF8_id text limit : 0 < limit → len text ≤ limit → truncateUTF8 text limit = text.
Proof. intros. unfold truncateUTF8. by rewrite bool_decide_false, bool_decide_true by lia. Qed.

Lemma truncateUTF8_valid text limit : valid text → valid (truncateUTF8 text limit).
Proof.
  intros HV. unfold truncateUTF8. case_bool_decide; [constructor|]. case_bool_decide; [done|].
  destruct (back_to_start_spec text (Z.to_nat limit)) as (j & -> & _ & Hj & _); [done|unfold len in *; lia|done].
Qed.

Lemma sum_len_app a b : sum_len (a ++ b) = sum_len a + sum_len b.
Proof. induction a as [|l a IH]; simpl; [done|]. rewrite IH. lia. Qed.

Lemma sum_len_nonneg a : 0 ≤ sum_len a.
Proof. induction a as [|l a IH]; simpl; [done|]. pose proof (len_nonneg l). lia. Qed.

Lemma len_Join lines sep : lines ≠ [] → len (Join lines sep) = sum_len lines + (Z.of_nat (length lines) - 1) * len sep.
Proof.
  intros Hne. induction lines as [|l [|l' lines] IH]; [done|simpl; lia|]. specialize (IH ltac:(done)).
  change (Join (l :: l' :: lines) sep) with (l ++ sep ++ Join (l' :: lines) sep). rewrite !len_app, IH.
  change (sum_len (l :: l' :: lines)) with (len l + sum_len (l' :: lines)). cbn [length]. lia.
Qed.

Lemma len_rendered lines : len (Join lines blank) = renderedLength lines.
Proof. destruct lines as [|l lines]; [done|]. rewrite len_Join by done. unfold renderedLength. change (len blank) with 2. lia. Qed.

Lemma rendered_app a b :
  a ≠ [] → renderedLength (a ++ b) = renderedLength a + sum_len b + 2 * Z.of_nat (length b).
Proof.
  intros Ha. destruct a as [|l a]; [done|]. unfold renderedLength. cbn [app]. 
  change (l :: a ++ b) with ((l :: a) ++ b). rewrite sum_len_app, length_app. lia.
Qed.

Lemma sum_len_cons l ls : sum_len (l :: ls) = len l + sum_len ls.
Proof. done. Qed.

Ltac sums := rewrite ?firstn_cons, ?take_0, ?sum_len_cons, ?sum_len_app; cbn [length]; change (sum_len []) with 0.

(** ** Asks *)

Lemma keep_back_spec limit used ls :
  used ≤ limit →
  used + sum_len (keep_back limit used ls) + Z.of_nat (length (keep_back limit used ls)) ≤ limit
  ∧ ∃ n cut, keep_back limit used ls = take n ls ++ cut
      ∧ (cut = [] ∨ ∃ line, ls !! n = Some line ∧ cut = [truncateUTF8 line (limit - used - sum_len (take n ls) - Z.of_nat n - 1)])
      ∧ ((length ls ≤ n)%nat ∧ cut = [] ∨ limit ≤ used + sum_len (take (S n) ls) + Z.of_nat (S n) ∧ (n < length ls)%nat).
Proof.
  revert used. induction ls as [|line ls IH]; intros used Hu; cbn [keep_back].
  { split; [simpl; lia|]. exists 0%nat, []. split; [done|]. split; [by left|left; split; simpl; lia || done]. }
  pose proof (len_nonneg line) as Hl. case_bool_decide as Ea.
  - split; [simpl; lia|]. exists 0%nat, []. split; [done|]. split; [by left|]. right. sums. lia.
  - case_bool_decide as Eb.
    + pose proof (truncateUTF8_le line (limit - used - 1) ltac:(lia)) as Ht. split; [sums; lia|].
      exists 0%nat, [truncateUTF8 line (limit - used - 1)]. split; [done|]. split.
      { right. exists line. split; [done|]. do 2 f_equal. sums. lia. }
      right. sums. lia.
    + destruct (IH (used + (len line + 1))) as (Hs & n & cut & Hk & Hc & Hm); [lia|]. rewrite Hk in *.
      split; [rewrite sum_len_cons; cbn [length]; lia|]. exists (S n), cut. split; [done|]. split.
      * destruct Hc as [->|(l' & Hn & ->)]; [by left|]. right. exists l'. split; [done|]. do 2 f_equal. sums. lia.
      * destruct Hm as [[Hm ->]|[Hm Hn]]; [left; split; [simpl; lia|done]|]. right. rewrite firstn_cons, sum_len_cons. cbn [length]. lia.
Qed.

(** The ask within a limit: never longer; all of it where that is shorter; else the header
    and the end of the ask, of which no more whole lines would leave the limit unreached
    (an empty line that would just fill it is left out). *)
Lemma renderAskWithinLimit_exact ask answeredBy link limit :
  0 < limit →
  let whole := RenderAsk ask answeredBy link in
  let body := askLines ask answeredBy in
  let out := renderAskWithinLimit ask answeredBy link limit in
  len out ≤ limit
  ∧ (len whole < limit → out = whole)
  ∧ (len (header link) < limit → limit < len whole → ∃ k line cut,
       out = Join (header link :: cut ++ drop (S k) body) nl
       ∧ body !! k = Some line ∧ (cut = [] ∨ ∃ n, cut = [truncateUTF8 line n])
       ∧ limit ≤ len (Join (header link :: drop k body) nl)).
Proof.
  intros H0 whole body out. subst out. unfold renderAskWithinLimit. rewrite bool_decide_false by lia. fold body.
  assert (∀ ls, len (Join (header link :: ls) nl) = len (header link) + sum_len ls + Z.of_nat (length ls)) as HJ.
  { intros ls. rewrite len_Join by done. cbn [sum_len foldr length]. change (len nl) with 1. rewrite Nat2Z.inj_succ. fold (sum_len ls). lia. }
  assert (∀ ls, sum_len (reverse ls) = sum_len ls) as HR.
  { intros ls. induction ls as [|l ls IH]; [done|]. rewrite reverse_cons, sum_len_app, IH. simpl. lia. }
  assert (len whole = len (header link) + sum_len body + Z.of_nat (length body)) as HW by apply HJ.
  case_bool_decide as Eh.
  - split; [by apply truncateUTF8_le|]. split; [|lia]. intros Hw. pose proof (sum_len_nonneg body).
    assert (body = []) as Hb by (destruct body; [done|simpl length in HW; lia]).
    subst whole. unfold RenderAsk. fold body. rewrite Hb. apply truncateUTF8_id; [done|lia].
  - destruct (keep_back_spec limit (len (header link)) (reverse body)) as (Hs & n & cut & Hk & Hc & Hm); [lia|]. rewrite Hk in *.
    split; [rewrite HJ, HR, length_reverse; lia|].
    rewrite length_reverse in Hm. split.
    + intros Hw. destruct Hm as [[Hm ->]|[Hm Hn]].
      * rewrite app_nil_r, firstn_all2, reverse_involutive by (rewrite length_reverse; lia). done.
      * assert (sum_len (take (S n) (reverse body)) ≤ sum_len body) as Ht.
        { rewrite <- (HR body). rewrite <- (firstn_skipn (S n) (reverse body)) at 2. rewrite sum_len_app. pose proof (sum_len_nonneg (drop (S n) (reverse body))). lia. }
        lia.
    + intros _ Hw. destruct Hm as [[Hm ->]|[Hm Hn]].
      { rewrite app_nil_r, firstn_all2 in Hs by (rewrite length_reverse; lia). rewrite HR, length_reverse in Hs. lia. }
      exists (length body - S n)%nat. destruct (lookup_lt_is_Some_2 body (length body - S n)) as [line Hline]; [lia|].
      exists line, (reverse cut). replace (S (length body - S n)) with (length body - n)%nat by lia.
      rewrite reverse_app, take_reverse, reverse_involutive. split; [done|]. split; [done|]. split.
      * destruct Hc as [->|(l' & Hl & ->)]; [by left|]. right. rewrite reverse_lookup in Hl by lia. rewrite Hline in Hl. injection Hl as ->. by eexists.
      * rewrite HJ. rewrite take_reverse, HR in Hm. rewrite length_drop. lia.
Qed.

(** ** Messages *)

Section render.
Context (prefix bodies : list bytes) (limit : Z).

(** The rendering that shows the [kept] newest messages. *)
Definition shown (kept : nat) : list bytes :=
  let dropped := (length bodies - kept)%nat in
  prefix ++ (if (0 <? dropped)%nat then [drop_line dropped] else []) ++ drop dropped bodies.

Lemma keep_loop k :
  prefix ≠ [] → (k ≤ length bodies)%nat →
  foldl (keep_step prefix bodies limit) (0, None) (seq 1 k)
  = (sum_len (drop (length bodies - k) bodies) + 2 * (Z.of_nat k - 1) * (if (0 <? k)%nat then 1 else 0),
     shown <$> List.find (λ kept, bool_decide (renderedLength (shown kept) ≤ limit + 2)) (reverse (seq 1 k))).
Proof.
  intros Hp. induction k as [|k IH]; intros Hk.
  { rewrite Nat.sub_0_r, drop_all. done. }
  rewrite seq_S, foldl_app, IH by lia. cbn [foldl]. unfold keep_step at 1. rewrite Nat.add_1_l.
  destruct (lookup_lt_is_Some_2 bodies (length bodies - S k)) as [m Hm]; [lia|]. rewrite Hm. cbn [default].
  assert (drop (length bodies - S k) bodies = m :: drop (length bodies - k) bodies) as Hd.
  { rewrite (drop_S _ _ _ Hm). do 2 f_equal. lia. }
  assert (sum_len (drop (length bodies - k) bodies) + 2 * (Z.of_nat k - 1) * (if (0 <? k)%nat then 1 else 0) + len m + (if (1 <? S k)%nat then 2 else 0)
          = sum_len (drop (length bodies - S k) bodies) + 2 * (Z.of_nat (S k) - 1)) as Hsum.
  { rewrite Hd. cbn [sum_len foldr]. fold (sum_len (drop (length bodies - k) bodies)). destruct k as [|k]; cbn [Nat.ltb Nat.leb]; lia. }
  cbv beta iota zeta. change (id m) with m. rewrite Hsum. f_equal; [cbn [Nat.ltb Nat.leb]; lia|].
  rewrite reverse_snoc. cbn [List.find].
  assert (renderedLength (shown (S k)) = 2 + renderedLength prefix + (if (0 <? length bodies - S k)%nat then len (drop_line (length bodies - S k)) + 2 else 0)
          + (sum_len (drop (length bodies - S k) bodies) + 2 * (Z.of_nat (S k) - 1))) as HL.
  { unfold shown. rewrite rendered_app by done. rewrite sum_len_app, length_app, length_drop.
    destruct (0 <? length bodies - S k)%nat; cbn [sum_len foldr length]; lia. }
  rewrite HL. fold (shown (S k)).
  case_bool_decide; case_bool_decide; try lia; [|done]. cbn [fmap option_fmap option_map]. unfold shown. done.
Qed.

Lemma find_last (P : nat → bool) k kept :
  (1 ≤ kept ≤ k)%nat → P kept = true → ∃ n, List.find P (reverse (seq 1 k)) = Some n ∧ (kept ≤ n ≤ k)%nat ∧ P n = true.
Proof.
  intros Hk HP. induction k as [|k IH]; [lia|]. rewrite seq_S, reverse_snoc. cbn [List.find]. rewrite Nat.add_1_l.
  destruct (P (S k)) eqn:E; [exists (S k); split; [done|]; split; [lia|done]|].
  destruct IH as (n & -> & Hn & Hp); [|exists n; split; [done|]; split; [lia|done]].
  destruct (decide (kept = S k)) as [->|]; [congruence|lia].
Qed.

Lemma render_newest_le :
  prefix ≠ [] → renderedLength prefix ≤ limit → len (render_newest prefix bodies limit) ≤ limit.
Proof.
  intros Hp Hl. unfold render_newest. set (d := drop_line _).
  destruct ((0 <? length bodies - 1)%nat && bool_decide (renderedLength prefix + 2 + len d < limit)) eqn:E.
  - apply andb_true_iff in E as [_ E%bool_decide_eq_true].
    replace (0 <? length (prefix ++ [d]))%nat with true by (rewrite length_app; cbn [length]; by rewrite Nat.add_1_r).
    destruct (bool_decide (_ < limit)) eqn:E1; cbn [andb].
    + destruct (bool_decide (0 < _)) eqn:E2; cbn [andb]; rewrite len_rendered.
      * apply bool_decide_eq_true in E1, E2. rewrite <- app_assoc, rendered_app by done. cbn [app sum_len foldr length].
        pose proof (truncateUTF8_le (default [] (bodies !! (length bodies - 1)%nat)) _ E2). lia.
      * rewrite rendered_app by done. simpl. lia.
    + rewrite len_rendered, rendered_app by done. simpl. lia.
  - replace (0 <? length prefix)%nat with true by (destruct prefix; done).
    clear E. destruct (bool_decide (_ < limit)) eqn:E1; cbn [andb]; [|rewrite len_rendered; lia].
    destruct (bool_decide (0 < _)) eqn:E2; cbn [andb]; rewrite len_rendered; [|lia].
    apply bool_decide_eq_true in E1, E2. rewrite rendered_app by done. cbn [sum_len foldr length].
    pose proof (truncateUTF8_le (default [] (bodies !! (length bodies - 1)%nat)) _ E2). lia.
Qed.
End render.

Lemma short_prefix_le link note limit :
  0 < limit → let p := short_prefix (render_prefix link note) limit in
  len (if bool_decide (limit < renderedLength p) then truncateUTF8 (default [] (head p)) limit else Join p blank) ≤ limit.
Proof.
  intros H0 p. case_bool_decide; [by apply truncateUTF8_le|]. rewrite len_rendered. lia.
Qed.

(** A history of one message that the loop counts as 40 bytes and that has 42. *)
Definition example_msg : Messages.Message := Messages.MkMessage "m" "t" "ada" 0 [Blocks.MkBlock (Some "hi"%string) None None] 0.
Definition example_link : Link := MkLink (lit "c") (lit "t") [].

(** A history within a limit: at most two bytes more than the limit, for the loop over
    the messages does not count the blank line before the first of them (a history of 42
    bytes passes a limit of 40); the whole history
    where that is within two bytes of the limit or there is none; and of the renderings
    that show a number of the newest messages one that shows at least as many as any that
    fits.  An ask within a limit keeps to it, whole where it is shorter, else its header and
    as many of its last lines as leave the limit unreached, with a part of one more. *)
Theorem render_keeps_newest msgs authors link note limit ask answeredBy :
  0 < limit →
  let prefix := render_prefix link note in
  let bodies := (λ msg, renderMessage msg authors) <$> msgs in
  let out := Render msgs authors link note limit in
  let cut := renderAskWithinLimit ask answeredBy link limit in
  len out ≤ limit + 2
  ∧ len (Render [example_msg] ∅ example_link [] 40) = 42
  ∧ Render msgs authors link note 0 = Join (prefix ++ bodies) blank
  ∧ (renderedLength prefix ≤ limit → len (Join (prefix ++ bodies) blank) ≤ limit + 2 → out = Join (prefix ++ bodies) blank)
  ∧ (∀ kept, renderedLength prefix ≤ limit → (1 ≤ kept ≤ length bodies)%nat → renderedLength (shown prefix bodies kept) ≤ limit →
       ∃ n, (kept ≤ n ≤ length bodies)%nat ∧ out = Join (shown prefix bodies n) blank)
  ∧ len cut ≤ limit
  ∧ (len (RenderAsk ask answeredBy link) < limit → cut = RenderAsk ask answeredBy link)
  ∧ (len (header link) < limit → limit < len (RenderAsk ask answeredBy link) → ∃ k line rest,
       cut = Join (header link :: rest ++ drop (S k) (askLines ask answeredBy)) nl
       ∧ askLines ask answeredBy !! k = Some line ∧ (rest = [] ∨ ∃ n, rest = [truncateUTF8 line n])
       ∧ limit ≤ len (Join (header link :: drop k (askLines ask answeredBy)) nl)).
Proof.
  intros H0 prefix bodies out cut.
  assert (prefix ≠ []) as Hp by done.
  assert (∀ kept, renderedLength prefix ≤ limit → (1 ≤ kept ≤ length bodies)%nat → renderedLength (shown prefix bodies kept) ≤ limit + 2 →
            ∃ n, (kept ≤ n ≤ length bodies)%nat ∧ out = Join (shown prefix bodies n) blank) as Hkept.
  { intros kept Hpre Hk Hs. subst out. unfold Render. fold prefix bodies.
    rewrite !bool_decide_false by (try lia; intros ->; simpl in Hk; lia).
    rewrite keep_loop by done. cbn [snd].
    destruct (find_last (λ n, bool_decide (renderedLength (shown prefix bodies n) ≤ limit + 2)) (length bodies) kept) as (n & -> & Hn & _);
      [done|by apply bool_decide_eq_true|]. by exists n. }
  destruct (renderAskWithinLimit_exact ask answeredBy link limit H0) as (Ha & Hb & Hc).
  split.
  { subst out. unfold Render. fold prefix bodies. rewrite bool_decide_false by lia.
    case_bool_decide; [pose proof (short_prefix_le link note limit H0) as Hs; cbv zeta in Hs; fold prefix in Hs; lia|].
    case_bool_decide as Em; [rewrite len_rendered; lia|]. rewrite keep_loop by done. cbn [snd].
    destruct (List.find _ _) as [n|] eqn:Ef; cbn [fmap option_fmap option_map].
    - apply List.find_some in Ef as [_ Ef%bool_decide_eq_true]. by rewrite len_rendered.
    - pose proof (render_newest_le prefix bodies limit Hp ltac:(lia)). lia. }
  split; [by vm_compute|]. split; [done|]. split.
  { intros Hpre Hw. destruct bodies as [|b bs] eqn:Eb.
    - rewrite app_nil_r. subst out. unfold Render. fold prefix. rewrite !bool_decide_false by lia.
      rewrite bool_decide_true; [done|]. by eapply fmap_nil_inv.
    - rewrite <- Eb in *. rewrite len_rendered in Hw.
      assert (shown prefix bodies (length bodies) = prefix ++ bodies) as Hall by (unfold shown; by rewrite Nat.sub_diag).
      destruct (Hkept (length bodies)) as (n & Hn & ->); [done|rewrite Eb; simpl; lia|by rewrite Hall|].
      by replace n with (length bodies) by lia; rewrite Hall. }
  split; [intros kept Hpre Hk Hs; apply (Hkept kept); lia || done|]. done.
Qed.

Lemma render_keeps_newest_witness : len (Render [example_msg; example_msg] ∅ example_link [] 50) ≤ 52.
Proof. destruct (render_keeps_newest [example_msg; example_msg] ∅ example_link [] 50 (Blocks.MkAsk "a" "" None [] false) [] eq_refl) as [H _]. exact H. Defined.

End MirrorRender.
