(* ===== verification/MirrorMarks.v ===== *)
(** Which rows a rendered mirror names ([neutralize], [WithMarker] and [HasMarker] of
    [src/go/internal/mirror/render.go]): quoted text is escaped, so the comment of a row
    carries the marker of that row and of no other, until the owner strip is applied. *)
From stdpp Require Import base gmap list strings.
From Stdlib Require Import Ascii ZArith Lia.
From S2P Require Import Prelude Text Utf8 ForgeOwner ForgeMarker Blocks Messages MirrorRender.

Module MirrorMarks.
Import MirrorRender.

Open Scope nat_scope.
Open Scope bool_scope.

(** Row ids ([newID]) are hexadecimal; any text of lower-case letters, digits and dashes. *)
Definition id_char : ascii → bool := ForgeOwner.handle_byte.
Definition row_id (id : bytes) : Prop := id ≠ [] ∧ Forall (λ c, id_char c = true) id.

Definition marked_at (s : bytes) : bool :=
  match cut_prefix mirrorPrefix s with Some (c :: _) => id_char c | _ => false end.

(** A text that quotes a marker of some row, whole or in part. *)
Fixpoint quotes (s : bytes) : bool :=
  match s with [] => false | c :: s' => marked_at s || quotes s' end.

Definition quiet (s : bytes) : Prop := quotes s = false.

Definition nolt (s : bytes) : Prop := "<"%char ∉ s.

Ltac no_lt := unfold nolt; apply (bool_decide_unpack _); vm_compute; exact I.

Lemma marked_spec s : marked_at s = true ↔ ∃ c r, s = mirrorPrefix ++ c :: r ∧ id_char c = true.
Proof.
  unfold marked_at. destruct (cut_prefix mirrorPrefix s) as [[|c r]|] eqn:E.
  - apply cut_prefix_Some in E as ->. split; [done|]. intros (c & r & H & _). by apply app_inv_head in H.
  - apply cut_prefix_Some in E as ->. split; [eauto|]. intros (c' & r' & H & Hc). apply app_inv_head in H. by injection H as -> ->.
  - split; [done|]. intros (c & r & -> & _). by rewrite cut_prefix_app in E.
Qed.

Lemma marked_lt c s : c ≠ "<"%char → marked_at (c :: s) = false.
Proof. intros Hc. apply not_true_is_false. intros (d & r & H & _)%marked_spec. change mirrorPrefix with ("<"%char :: tail mirrorPrefix) in H. injection H as -> _. done. Qed.

Lemma quiet_cons c s : c ≠ "<"%char → quiet s → quiet (c :: s).
Proof. unfold quiet. intros Hc Hs. cbn [quotes]. by rewrite marked_lt. Qed.

Lemma quiet_nolt_app l s : nolt l → quiet s → quiet (l ++ s).
Proof.
  unfold nolt. induction l as [|c l IH]; [done|]. intros [Hc Hl]%not_elem_of_cons Hs. cbn [app]. apply quiet_cons; [done|auto].
Qed.

Lemma quiet_nolt l : nolt l → quiet l.
Proof. intros. rewrite <- (app_nil_r l). by apply quiet_nolt_app. Qed.

Lemma quiet_tail a b : quiet (a ++ b) → quiet b.
Proof. unfold quiet. induction a as [|c a IH]; [done|]. cbn [app quotes]. by intros [_ H]%orb_false_iff; apply IH. Qed.

Lemma quiet_marked s : quiet s → marked_at s = false.
Proof. unfold quiet. destruct s; [done|]. cbn [quotes]. by intros [H _]%orb_false_iff. Qed.

Lemma quiet_take n s : quiet s → quiet (take n s).
Proof.
  unfold quiet. revert n. induction s as [|c s IH]; intros [|n] Hs; [done..|]. cbn [take quotes] in *.
  apply orb_false_iff in Hs as [Hm Hs]. rewrite IH, orb_false_r by done. apply not_true_is_false. intros (d & r & H & Hd)%marked_spec.
  apply not_true_iff_false in Hm. apply Hm, marked_spec. exists d, (r ++ drop n s). split; [|done].
  rewrite <- (firstn_skipn n s) at 1. rewrite app_comm_cons, H, <- app_assoc. done.
Qed.

(** ** Separators *)

Definition sep_ok (sep : bytes) : Prop := forallb (λ c, negb (id_char c)) sep = true ∧ nolt sep ∧ contains mirrorPrefix sep = false.

Lemma contains_mid a b c : contains (a ++ b ++ c) b = true.
Proof. apply ForgeMarker.contains_app. Qed.

Lemma marked_sep w sep y : w ≠ [] → marked_at w = false → sep_ok sep → marked_at (w ++ sep ++ y) = false.
Proof.
  intros Hw Hm (Hid & _ & Hc). apply not_true_is_false. intros (c & r & H & Hcc)%marked_spec.
  assert (mirrorPrefix ++ c :: r = (mirrorPrefix ++ [c]) ++ r) as Hr by (by rewrite <- app_assoc). rewrite Hr in H. clear Hr.
  apply app_eq_app in H as (l & [[-> Hl]|[Hp Hl]]).
  - apply not_true_iff_false in Hm. apply Hm, marked_spec. exists c, l. split; [by rewrite <- app_assoc|done].
  - destruct (decide (l = [])) as [->|Hne].
    { rewrite app_nil_r in Hp. subst w. apply not_true_iff_false in Hm. apply Hm, marked_spec. by exists c, []. }
    destruct (exists_last Hne) as (l0 & d & ->). rewrite app_assoc in Hp. apply app_inj_2 in Hp as [Hp [= <-]]; [|done].
    apply app_eq_app in Hl as (t & [[Hs _]|[Hs _]]).
    + rewrite forallb_forall in Hid. specialize (Hid c). rewrite Hs in Hid. rewrite Hcc in Hid. by discriminate Hid; apply in_or_app; left; apply in_or_app; right; left.
    + destruct (decide (t = [])) as [->|Ht].
      { rewrite app_nil_r in Hs. rewrite forallb_forall in Hid. specialize (Hid c). rewrite <- Hs, Hcc in Hid.
        by discriminate Hid; apply in_or_app; right; left. }
      destruct (exists_last Ht) as (t0 & e & ->). rewrite app_assoc in Hs. apply app_inj_2 in Hs as [Hs _]; [|done].
      rewrite Hp, Hs, contains_mid in Hc. done.
Qed.

Lemma quiet_sep x sep y : sep_ok sep → quiet x → quiet y → quiet (x ++ sep ++ y).
Proof.
  intros Hsep Hx Hy. assert (quiet (sep ++ y)) as Hs by (apply quiet_nolt_app; [apply Hsep|done]).
  unfold quiet in *. induction x as [|c x IH]; [done|]. cbn [app quotes]. pose proof (quiet_marked _ Hx) as Hm.
  cbn [quotes] in Hx. apply orb_false_iff in Hx as [_ Hx]. rewrite IH, orb_false_r by done.
  by apply (marked_sep (c :: x)).
Qed.

(** ** The escape *)

Lemma replace_prefix old new fuel c q s :
  head new = Some c → c ∉ q → has_prefix q (replace_go old new fuel s) = true → has_prefix q s = true.
Proof.
  intros Hc. revert s fuel. induction q as [|a q IH]; intros s fuel Hq H; [by destruct s|].
  apply not_elem_of_cons in Hq as [Hca Hq]. destruct fuel as [|f]; cbn [replace_go] in H; [done|].
  destruct (cut_prefix old s) as [r|].
  - destruct new as [|n new]; [done|]. injection Hc as ->. apply has_prefix_spec in H as (t & [= Ht _]). done.
  - destruct s as [|b s]; [by destruct f|]. apply has_prefix_spec in H as (t & [= -> Ht]).
    apply has_prefix_spec. destruct (proj1 (has_prefix_spec q s)) as [u ->]; [|by exists u].
    apply (IH s f Hq), has_prefix_spec. eauto.
Qed.

Lemma quiet_replace fuel s : length s < fuel → quiet (replace_go mirrorPrefix (lit "&lt;!-- compass-mirror:") fuel s).
Proof.
  revert s. induction fuel as [|f IH]; intros s Hf; [lia|]. cbn [replace_go].
  destruct (cut_prefix mirrorPrefix s) as [r|] eqn:E.
  - apply cut_prefix_Some in E as ->. rewrite length_app in Hf. apply quiet_nolt_app; [no_lt|].
    apply IH. change (length mirrorPrefix) with 20 in Hf. lia.
  - destruct s as [|c s]; [done|]. simpl in Hf. specialize (IH s ltac:(lia)). unfold quiet in *. cbn [quotes]. rewrite IH, orb_false_r.
    apply not_true_is_false. intros (d & r & H & Hd)%marked_spec.
    change mirrorPrefix with ("<"%char :: tail mirrorPrefix) in H. injection H as -> H.
    assert (has_prefix (tail mirrorPrefix) s = true) as Hp.
    { apply (replace_prefix mirrorPrefix (lit "&lt;!-- compass-mirror:") f "&"%char); [done|no_lt|].
      apply has_prefix_spec. exists (d :: r); exact H. }
    apply has_prefix_spec in Hp as [t ->].
    assert (cut_prefix mirrorPrefix ("<"%char :: tail mirrorPrefix ++ t) = Some t) as Hc by (apply cut_prefix_Some; done).
    by rewrite Hc in E.
Qed.

Lemma quiet_neutralize t : quiet (neutralize t).
Proof. unfold neutralize, ReplaceString. apply quiet_replace. lia. Qed.

(** ** Lines *)

Lemma lf_ok : sep_ok [MirrorRender.LF].
Proof. split; [done|]. split; [no_lt|done]. Qed.

Lemma blank_ok : sep_ok blank.
Proof. split; [done|]. split; [no_lt|done]. Qed.

Lemma quiet_Join sep lines : sep_ok sep → Forall quiet lines → quiet (Join lines sep).
Proof.
  intros Hs. induction 1 as [|l lines Hl Hls IH]; [done|]. destruct lines as [|l' lines]; [done|].
  change (Join (l :: l' :: lines) sep) with (l ++ sep ++ Join (l' :: lines) sep). by apply quiet_sep.
Qed.

Lemma quiet_split t : quiet t → Forall quiet (split MirrorRender.LF t).
Proof.
  intros Ht. rewrite <- (join_split MirrorRender.LF t) in Ht. revert Ht. generalize (split MirrorRender.LF t) as ls.
  intros ls. induction ls as [|l ls IH]; [constructor|]. destruct ls as [|l' ls]; [by constructor|].
  rewrite join_cons by done. intros H. constructor.
  - apply (quiet_take (length l)) in H. by rewrite take_app_length in H.
  - apply IH. apply quiet_tail in H. exact (quiet_tail [MirrorRender.LF] _ H).
Qed.

Lemma quiet_quoted t : quiet t → Forall quiet (quoted t).
Proof.
  intros H. unfold quoted. apply Forall_fmap. eapply Forall_impl; [by apply quiet_split|]. intros l Hl. apply quiet_nolt_app; [no_lt|done].
Qed.

Lemma quiet_truncate t n : quiet t → quiet (truncateUTF8 t n).
Proof. intros H. destruct (truncateUTF8_take t n) as [k ->]. by apply quiet_take. Qed.

Lemma nolt_app a b : nolt a → nolt b → nolt (a ++ b).
Proof. unfold nolt. intros Ha Hb [H|H]%elem_of_app; auto. Qed.

Lemma nolt_uint n : nolt (FormatUint n).
Proof.
  unfold nolt. intros H. destruct (FormatUint_spec n) as (_ & Hd & _). rewrite forallb_forall in Hd.
  apply list_elem_of_In in H. by specialize (Hd _ H).
Qed.

Lemma nolt_pad w n : nolt (pad w n).
Proof.
  unfold pad. apply nolt_app; [case_bool_decide; no_lt|]. apply nolt_app; [|apply nolt_uint].
  unfold nolt. intros [H _]%elem_of_replicate. done.
Qed.

Lemma nolt_minute t : nolt (FormatMinute t).
Proof.
  unfold FormatMinute. destruct (civil _) as [[y m] d]. repeat (apply nolt_app; [apply nolt_pad || no_lt|]). no_lt.
Qed.

(** ** Bodies *)

Lemma quiet_header link : nolt (URL link) → quiet (header link).
Proof.
  intros Hu. unfold header. set (label := lit "#" ++ _).
  assert (quiet label) as Hl.
  { subst label. apply quiet_nolt_app; [no_lt|]. apply quiet_sep; [split; [done|split; [no_lt|done]]|apply quiet_neutralize..]. }
  case_bool_decide; [done|]. apply quiet_nolt_app; [no_lt|]. apply quiet_sep; [split; [done|split; [no_lt|done]]|done|].
  apply quiet_nolt, nolt_app; [done|no_lt].
Qed.

Lemma quiet_question q : Forall quiet (question_lines q).
Proof.
  unfold question_lines. apply Forall_app. split.
  - case_bool_decide; [constructor|]. constructor; [|constructor]. apply quiet_nolt_app; [no_lt|apply quiet_neutralize].
  - constructor; [apply quiet_neutralize|]. apply Forall_lookup. intros i x. rewrite list_lookup_imap. intros (o & _ & ->)%fmap_Some.
    unfold option_line. apply quiet_nolt_app; [no_lt|]. case_bool_decide; [|rewrite app_nil_r; apply quiet_neutralize].
    apply (quiet_sep _ (lit " (")); [split; [done|split; [no_lt|done]]|apply quiet_neutralize|apply quiet_nolt; no_lt].
Qed.

Lemma quiet_selected q : Forall quiet (selected q).
Proof.
  unfold selected. apply Forall_app. split.
  - apply Forall_forall. intros x (c & _ & (o & _ & ->)%fmap_Some)%list_elem_of_omap. apply quiet_neutralize.
  - case_bool_decide; [constructor|]. constructor; [apply quiet_neutralize|constructor].
Qed.

Lemma quiet_askLines ask by_ : Forall quiet (askLines ask by_).
Proof.
  assert (Forall quiet (concat (question_lines <$> Blocks.Questions ask))) as Hq.
  { apply Forall_concat, Forall_fmap, Forall_true. intros q. apply quiet_question. }
  unfold askLines. destruct (negb _); [done|]. apply Forall_app. split; [done|]. apply Forall_app. split.
  - destruct (forallb _ _); [constructor; [apply quiet_nolt; no_lt|constructor]|]. constructor; [apply quiet_nolt; no_lt|].
    apply Forall_forall. intros x (q & _ & Hx)%list_elem_of_omap. unfold answer_line in Hx.
    pose proof (quiet_selected q) as Hsel. destruct (selected q) as [|s sel]; [done|].
    apply (inj Some) in Hx as <-. apply quiet_nolt_app; [no_lt|]. apply quiet_sep; [split; [done|split; [no_lt|done]]|apply quiet_neutralize|].
    apply quiet_Join; [split; [done|split; [no_lt|done]]|done].
  - constructor; [|constructor]. apply quiet_nolt_app; [no_lt|apply quiet_neutralize].
Qed.

Lemma quiet_RenderAsk ask by_ link : nolt (URL link) → quiet (RenderAsk ask by_ link).
Proof. intros Hu. apply quiet_Join; [apply lf_ok|]. constructor; [by apply quiet_header|apply quiet_askLines]. Qed.

Lemma quiet_keep_back limit used ls : Forall quiet ls → Forall quiet (keep_back limit used ls).
Proof.
  intros H. revert used. induction H as [|l ls Hl Hls IH]; intros used; cbn [keep_back]; [constructor|].
  case_bool_decide; [constructor|]. case_bool_decide; [constructor; [by apply quiet_truncate|constructor]|]. constructor; auto.
Qed.

Lemma quiet_renderAsk ask by_ link limit : nolt (URL link) → quiet (renderAskWithinLimit ask by_ link limit).
Proof.
  intros Hu. unfold renderAskWithinLimit. case_bool_decide; [by apply quiet_RenderAsk|].
  case_bool_decide; [by apply quiet_truncate, quiet_header|]. apply quiet_Join; [apply lf_ok|]. constructor; [by apply quiet_header|].
  apply Forall_reverse, quiet_keep_back, Forall_reverse, quiet_askLines.
Qed.

Lemma quiet_message msg authors : quiet (renderMessage msg authors).
Proof.
  apply quiet_Join; [apply lf_ok|]. constructor.
  - apply quiet_nolt_app; [no_lt|]. apply quiet_sep; [split; [done|split; [no_lt|done]]|apply quiet_neutralize|apply quiet_nolt, nolt_minute].
  - apply Forall_concat, Forall_fmap, Forall_true. intros b. cbn [compose]. unfold block_lines.
    destruct (Blocks.Text b); [apply quiet_quoted, quiet_neutralize|].
    destruct (Blocks.b_Ask b); [apply quiet_quoted, quiet_Join; [apply lf_ok|apply quiet_askLines]|].
    destruct (Blocks.b_AskAnswer b); [apply quiet_quoted, quiet_Join; [apply lf_ok|apply quiet_askLines]|constructor].
Qed.

Lemma quiet_prefix link note : nolt (URL link) → Forall quiet (render_prefix link note).
Proof.
  intros Hu. unfold render_prefix. constructor; [by apply quiet_header|]. case_bool_decide; [constructor|].
  constructor; [apply quiet_neutralize|constructor].
Qed.

Lemma quiet_head (ls : list bytes) : Forall quiet ls → quiet (default [] (head ls)).
Proof. by destruct 1. Qed.

Lemma quiet_lookup (ls : list bytes) i : Forall quiet ls → quiet (default [] (ls !! i)).
Proof. intros H. destruct (ls !! i) eqn:E; [|done]. by eapply Forall_lookup_1. Qed.

Lemma quiet_short_prefix prefix limit : Forall quiet prefix → Forall quiet (short_prefix prefix limit).
Proof.
  intros H. unfold short_prefix. pose proof (quiet_head _ H) as Hh.
  destruct prefix as [|h [|n [|]]]; repeat (constructor; [by apply quiet_truncate|]); try by constructor.
  inversion H as [|? ? Hh' Hn]; subst. inversion Hn; subst. case_bool_decide; repeat constructor; [done|by apply quiet_truncate..].
Qed.

Lemma quiet_drop_line n : quiet (drop_line n).
Proof. apply quiet_nolt. unfold drop_line. apply nolt_app; [no_lt|]. apply nolt_app; [apply nolt_uint|no_lt]. Qed.

Lemma quiet_shown prefix bodies kept : Forall quiet prefix → Forall quiet bodies → Forall quiet (shown prefix bodies kept).
Proof.
  intros Hp Hb. unfold shown. apply Forall_app. split; [done|]. apply Forall_app. split; [|by apply Forall_drop].
  destruct (0 <? _); [constructor; [apply quiet_drop_line|constructor]|constructor].
Qed.

Lemma quiet_newest prefix bodies limit : Forall quiet prefix → Forall quiet bodies → quiet (render_newest prefix bodies limit).
Proof.
  intros Hp Hb. unfold render_newest. apply quiet_Join; [apply blank_ok|].
  assert (∀ b : bool, Forall quiet (if b then prefix ++ [drop_line (length bodies - 1)] else prefix)) as Hd.
  { intros [|]; [|done]. apply Forall_app. split; [done|]. constructor; [apply quiet_drop_line|constructor]. }
  destruct (bool_decide _ && bool_decide _); [|apply Hd]. apply Forall_app. split; [apply Hd|].
  constructor; [apply quiet_truncate; by apply quiet_lookup|constructor].
Qed.

Lemma quiet_Render msgs authors link note limit : nolt (URL link) → quiet (Render msgs authors link note limit).
Proof.
  intros Hu. unfold Render. set (prefix := render_prefix link note).
  set (bodies := (λ msg, renderMessage msg authors) <$> msgs).
  assert (Forall quiet prefix) as Hp by by apply quiet_prefix.
  assert (Forall quiet bodies) as Hb by (apply Forall_fmap, Forall_true; intros msg; exact (quiet_message msg authors)).
  case_bool_decide; [apply quiet_Join; [apply blank_ok|by apply Forall_app]|].
  case_bool_decide.
  { case_bool_decide; [by apply quiet_truncate, quiet_head, quiet_short_prefix|].
    apply quiet_Join; [apply blank_ok|by apply quiet_short_prefix]. }
  case_bool_decide; [apply quiet_Join; [apply blank_ok|done]|].
  rewrite keep_loop by done. cbn [snd]. destruct (List.find _ _); cbn [fmap option_fmap option_map].
  - apply quiet_Join; [apply blank_ok|by apply quiet_shown].
  - by apply quiet_newest.
Qed.

(** ** Markers *)

Lemma marker_marked id s : row_id id → has_prefix (marker id) s = true → marked_at s = true.
Proof.
  intros [Hne Hid] [r ->]%has_prefix_spec. destruct id as [|c id]; [done|]. apply marked_spec.
  exists c, ((id ++ lit " -->") ++ r). split; [by unfold marker; rewrite <- app_assoc|]. by inversion Hid.
Qed.

Lemma quiet_contains s id : row_id id → quiet s → contains s (marker id) = false.
Proof.
  intros Hid. induction s as [|c s IH]; intros Hs; [done|].
  cbn [contains]. rewrite IH by exact (quiet_tail [c] _ Hs). rewrite orb_false_r.
  apply not_true_is_false. intros H%(marker_marked _ _ Hid). by rewrite (quiet_marked _ Hs) in H.
Qed.

Lemma contains_nolt_app l s id : nolt l → contains (l ++ s) (marker id) = contains s (marker id).
Proof.
  unfold nolt. induction l as [|c l IH]; [done|]. intros [Hc Hl]%not_elem_of_cons. cbn [app contains]. rewrite IH by done.
  destruct (has_prefix _ _) eqn:E; [|done]. apply has_prefix_spec in E as [r E]. unfold marker in E. change mirrorPrefix with ("<"%char :: tail mirrorPrefix) in E.
  exfalso. apply Hc. by injection E as ->.
Qed.

Lemma contains_sep x s id :
  row_id id → quiet x → contains (x ++ blank ++ s) (marker id) = contains s (marker id).
Proof.
  intros Hid Hx. induction x as [|c x IH]; [apply (contains_nolt_app blank); no_lt|]. cbn [app contains].
  rewrite IH by exact (quiet_tail [c] _ Hx). destruct (has_prefix _ _) eqn:E; [|done].
  apply (marker_marked _ _ Hid) in E. rewrite app_comm_cons, marked_sep in E; [done|done|by apply quiet_marked|apply blank_ok].
Qed.

Lemma row_id_nolt id : row_id id → nolt id.
Proof. intros [_ H] Hin. by apply (proj1 (Forall_forall _ _) H) in Hin. Qed.

Lemma marker_only id id' : row_id id → row_id id' → contains (marker id) (marker id') = true → id' = id.
Proof.
  intros Hid Hid' H. unfold marker at 1 in H. change mirrorPrefix with ("<"%char :: tail mirrorPrefix) in H. cbn [app contains] in H.
  assert (nolt (tail mirrorPrefix ++ id ++ lit " -->")) as Hn.
  { apply nolt_app; [no_lt|]. apply nolt_app; [by apply row_id_nolt|no_lt]. }
  rewrite <- (app_nil_r (tail mirrorPrefix ++ id ++ lit " -->")) in H at 2. rewrite contains_nolt_app in H by done.
  change (contains [] (marker id')) with false in H. rewrite orb_false_r in H.
  apply has_prefix_spec in H as [r H]. unfold marker in H. rewrite <- !app_assoc in H.
  change ("<"%char :: tail mirrorPrefix ++ ?x) with (mirrorPrefix ++ x) in H. apply app_inv_head in H.
  change (lit " -->") with (" "%char :: lit "-->") in H. cbn [app] in H.
  assert (∀ x, row_id x → " "%char ∉ x) as Hsp.
  { intros x [_ Hx] Hin. by apply (proj1 (Forall_forall _ _) Hx) in Hin. }
  symmetry in H. apply sep_inj in H as [H _]; [done|by apply Hsp..].
Qed.

Lemma quiet_trim s : quiet s → quiet (ForgeMarker.trim_newlines s).
Proof.
  intros Hs. unfold ForgeMarker.trim_newlines. rewrite <- (reverse_involutive s) in Hs at 1.
  set (n := prefix_len _ _). rewrite <- (firstn_skipn n (reverse s)), reverse_app in Hs.
  apply (quiet_take (length (reverse (drop n (reverse s))))) in Hs. by rewrite take_app_length in Hs.
Qed.

Lemma quiet_marks body id id' :
  row_id id → row_id id' → quiet body → HasMarker (WithMarker body id) id' = true ↔ id' = id.
Proof.
  intros Hid Hid' Hb. unfold HasMarker, WithMarker. rewrite contains_sep by (done || by apply quiet_trim). split.
  - by apply marker_only.
  - intros ->. rewrite <- (app_nil_r (marker id)) at 1. apply (contains_mid [] (marker id) []).
Qed.

(** A message text from which the owner strip puts the marker of row [7] together. *)
Definition spliced : bytes := lit "<!-- compass-mir<!-- compass:owner -->ror:7 -->".

(** C35. A mirror names its own row alone: whatever the messages, the names, the note and
    the ask say, the comment rendered for a row carries that row's marker and the marker of
    no other row, so recovery finds only the row's own comments.  The owner strip, which
    the poster applies to the rendered body, can undo this. *)
Theorem mirror_names_own_row id id' msgs authors link note limit ask answeredBy cut :
  row_id id → row_id id' → "<"%char ∉ URL link →
  (HasMarker (WithMarker (Render msgs authors link note limit) id) id' = true ↔ id' = id)
  ∧ (HasMarker (WithMarker (truncateUTF8 (Render msgs authors link note limit) cut) id) id' = true ↔ id' = id)
  ∧ (HasMarker (WithMarker (renderAskWithinLimit ask answeredBy link limit) id) id' = true ↔ id' = id)
  ∧ HasMarker (neutralize spliced) (lit "7") = false
  ∧ HasMarker (fst (ForgeOwner.StripOwner (neutralize spliced))) (lit "7") = true.
Proof.
  intros Hid Hid' Hu. split; [by apply quiet_marks, quiet_Render|].
  split; [by apply quiet_marks, quiet_truncate, quiet_Render|]. split; [by apply quiet_marks, quiet_renderAsk|].
  by vm_compute.
Qed.

Lemma mirror_names_own_row_witness :
  HasMarker (WithMarker (Render [example_msg] ∅ example_link (lit "<!-- compass-mirror:8 -->") 0) (lit "7")) (lit "8") = false.
Proof.
  destruct (HasMarker _ _) eqn:E; [|reflexivity].
  apply (mirror_names_own_row (lit "7") (lit "8") [example_msg] ∅ example_link (lit "<!-- compass-mirror:8 -->") 0
    (Blocks.MkAsk "a" "" None [] false) [] 0) in E.
  - discriminate E.
  - split; [discriminate|]. repeat constructor.
  - split; [discriminate|]. repeat constructor.
  - intros Hin. apply elem_of_nil in Hin. destruct Hin.
Defined.

End MirrorMarks.
