(* ===== verification/ForgeMirrors.v ===== *)
(** The forge mirror outbox ([src/go/internal/store/forge_mirrors.go] and its queries):
    settings, rows, the claim of a row under a request key, leases and delivery marks.

    Rows are in insertion order, the order of [created_at]; the unique indexes and checks of
    the schema decide what a statement does.  An empty text stands for NULL where the store
    writes one for it ([nullableString]); a value of [source_payload] is its JSON text.
    A transaction is one step; [now] is its time in microseconds, [id] the next [newID],
    [uuid] the [gen_random_uuid] of a row.  A call runs under one tenant. *)
From stdpp Require Import base gmap list strings.
From Stdlib Require Import Ascii Lia ZArith.
From S2P Require Import Prelude Text ForgeIntents.

Module ForgeMirrors.
Import ForgeIntents.

Open Scope Z_scope.

(** ** Settings *)

Inductive ForgeMirrorMode := ForgeMirrorOff | ForgeMirrorManual | ForgeMirrorAuto.

#[export] Instance ForgeMirrorMode_eq_dec : EqDecision ForgeMirrorMode.
Proof. solve_decision. Defined.

Definition mode_num (m : ForgeMirrorMode) : Z := match m with ForgeMirrorOff => 0 | ForgeMirrorManual => 1 | ForgeMirrorAuto => 2 end.

Record ForgeMirrorRow := MkMirror {
  ID : bytes; Source : Z; AskID : bytes; SourceKey : bytes; Actor : bytes; Agent : bytes; ClientRequestID : bytes;
  TargetRef : bytes; BodyRev : Z; PostedRev : Z; State : Z; Attempts : Z; CommentID : Z; CommentKey : bytes;
  CommentURL : bytes; LastError : bytes; LastErrorCode : bytes; FirstAttemptAt : option Z; LastAttemptAt : option Z;
  ClientCommentID : bytes; RecheckAt : option Z; LeaseUntil : option Z; LeaseToken : bytes; SessionID : bytes;
  SourcePayload : option bytes;
}.

Record ForgeMirrorMark := MkMark {
  mk_PostedRev : Z; mk_State : Z; mk_CommentID : Z; mk_CommentKey : bytes; mk_URL : bytes; Err_ : bytes; ErrCode : bytes;
  Recheck : bool; ClearRecheck : bool;
}.

(** The errors of the outbox: a bad argument, no row, a lost lease, any other. *)
Inductive mirrorErr := ErrInvalidArgument | ErrNotFound | ErrLeaseLost | ErrStore.

Notation coord := (Z * bytes * bytes)%type.

Record db := MkDb {
  mirrors : list ForgeMirrorRow; requests : gmap (bytes * bytes) bytes; settings : gmap coord ForgeMirrorMode;
  accounts : gset bytes; agents : gset bytes;
}.

Definition set_mirrors (l : list ForgeMirrorRow) (s : db) : db := MkDb l (requests s) (settings s) (accounts s) (agents s).
Definition set_requests (m : gmap (bytes * bytes) bytes) (s : db) : db := MkDb (mirrors s) m (settings s) (accounts s) (agents s).
Definition set_settings (m : gmap coord ForgeMirrorMode) (s : db) : db := MkDb (mirrors s) (requests s) m (accounts s) (agents s).

Definition normalized (provider : Z) (host repo : bytes) : coord := (provider, host, normalizedRepo provider repo).

Definition MirrorMode (provider : Z) (host repo : bytes) (s : db) : result mirrorErr ForgeMirrorMode :=
  let '(p, h, r) := normalized provider host repo in
  if negb (validCoordinate p h r) then Err ErrInvalidArgument else Ok (default ForgeMirrorOff (settings s !! (p, h, r))).

(** [updated_by] references a user account. *)
Definition SetForgeMirrorSetting (users : gset bytes) (actor : bytes) (provider : Z) (host repo : bytes) (mode : Z) (s : db) : result mirrorErr db :=
  let '(p, h, r) := normalized provider host repo in
  if negb (validCoordinate p h r) then Err ErrInvalidArgument
  else if bool_decide (mode < 0 ∨ 2 < mode) then Err ErrInvalidArgument
  else if bool_decide (mode = 0) then Ok (set_settings (delete (p, h, r) (settings s)) s)
  else if bool_decide (actor = []) then Err ErrInvalidArgument
  else if negb (bool_decide (1 ≤ p ≤ 4) && bool_decide (actor ∈ users)) then Err ErrStore
  else Ok (set_settings (<[(p, h, r) := if bool_decide (mode = 1) then ForgeMirrorManual else ForgeMirrorAuto]> (settings s)) s).

(** ** Rows *)

Definition keyed (m : ForgeMirrorRow) : bool := negb (bool_decide (Agent m = [])) && negb (bool_decide (ClientRequestID m = [])).
Definition key_of (m : ForgeMirrorRow) : bytes * bytes := (Agent m, ClientRequestID m).

Definition same_ask (m r : ForgeMirrorRow) : bool := negb (bool_decide (AskID m = [])) && bool_decide (AskID r = AskID m).
Definition same_request (m r : ForgeMirrorRow) : bool := keyed m && bool_decide (key_of r = key_of m).
Definition same_source (m r : ForgeMirrorRow) : bool :=
  negb (bool_decide (SourceKey m = [])) && bool_decide (SourceKey r = SourceKey m ∧ TargetRef r = TargetRef m).

(** A row that keeps another from being inserted, by the primary key or a unique index. *)
Definition row_conflicts (m r : ForgeMirrorRow) : bool :=
  bool_decide (ID r = ID m) || same_ask m r || same_request m r || same_source m r.

Definition references (m : ForgeMirrorRow) (s : db) : bool :=
  bool_decide (Actor m ∈ accounts s) && (bool_decide (Agent m = []) || bool_decide (Agent m ∈ agents s)).

Definition find_row (id : bytes) (s : db) : option ForgeMirrorRow := find (λ r, bool_decide (ID r = id)) (mirrors s).

(** The row the insert writes: the columns it names, the defaults of the others. *)
Definition new_mirror (id uuid : bytes) (m : ForgeMirrorRow) : ForgeMirrorRow :=
  MkMirror id (Source m) (AskID m) (SourceKey m) (Actor m) (Agent m) (ClientRequestID m) (TargetRef m) (BodyRev m) 0 (State m) 0 0 [] [] [] []
    None None uuid None None [] (SessionID m) (SourcePayload m).

(** [UPDATE forge_mirrors SET ... WHERE ...]: the rows changed, and how many. *)
Definition update_rows (p : ForgeMirrorRow → bool) (f : ForgeMirrorRow → ForgeMirrorRow) (s : db) : db :=
  set_mirrors (map (λ r, if p r then f r else r) (mirrors s)) s.

(** ** Claims *)

Inductive ClaimResolution := ClaimInserted | ClaimRemirrored | ClaimReserved | ClaimConflict.

Definition valid_claim (m : ForgeMirrorRow) : bool :=
  bool_decide (Source m = 1 ∨ Source m = 2) && negb (bool_decide (Actor m = [])) && negb (bool_decide (TargetRef m = []))
  && negb (bool_decide (BodyRev m < 1)) && negb (bool_decide (State m < 1 ∨ 3 < State m))
  && negb (bool_decide (Source m = 1 ∧ (AskID m = [] ∨ Agent m = []))) && negb (bool_decide (Source m = 2 ∧ SourceKey m = [])).

Definition ForgeMirrorByRequest (key : bytes * bytes) (s : db) : option ForgeMirrorRow :=
  requests s !! key ≫= λ id, find_row id s.

(** [RecordForgeMirrorRequest]: [None] where the key is reserved already. *)
Definition RecordForgeMirrorRequest (key : bytes * bytes) (id : bytes) (s : db) : option db :=
  match requests s !! key with Some _ => None | None => Some (set_requests (<[key := id]> (requests s)) s) end.

(** [insertForgeMirror], one transaction. *)
Definition insertForgeMirror (id uuid : bytes) (m : ForgeMirrorRow) (s : db) : result mirrorErr (option ForgeMirrorRow * db) :=
  let row := new_mirror id uuid m in
  if existsb (row_conflicts row) (mirrors s) then Ok (None, s)
  else if negb (references row s) then Err ErrStore
  else
    let s1 := set_mirrors (mirrors s ++ [row]) s in
    if keyed m then
      if negb (bool_decide (Agent m ∈ agents s)) then Err ErrStore
      else match RecordForgeMirrorRequest (key_of m) id s1 with
      | Some s2 => Ok (Some row, s2)
      | None => Ok (None, s)
      end
    else Ok (Some row, s1).

(** [ForgeMirrorByConflictKeys]: the row under the first of the keys of the claim that has
    one, and which key that is (2 request, 1 ask, 3 source). *)
Definition ForgeMirrorByConflictKeys (m : ForgeMirrorRow) (s : db) : option (ForgeMirrorRow * Z) :=
  match find (same_request m) (mirrors s) with
  | Some r => Some (r, 2)
  | None =>
      match find (same_ask m) (mirrors s) with
      | Some r => Some (r, 1)
      | None => (λ r, (r, 3)) <$> find (same_source m) (mirrors s)
      end
  end.

Definition bump (m r : ForgeMirrorRow) : ForgeMirrorRow :=
  MkMirror (ID r) (Source r) (AskID r) (SourceKey r) (Actor r) (Agent r) (ClientRequestID r) (TargetRef r)
    (Z.min (BodyRev r + 1) 32767) (PostedRev r) 1 (Attempts r) (CommentID r) (CommentKey r) (CommentURL r) (LastError r) (LastErrorCode r)
    (FirstAttemptAt r) (LastAttemptAt r) (ClientCommentID r) (RecheckAt r) (LeaseUntil r) (LeaseToken r)
    (if bool_decide (SessionID m = []) then SessionID r else SessionID m)
    (match SourcePayload m with Some p => Some p | None => SourcePayload r end).

Definition BumpForgeMirrorSourceRevision (m : ForgeMirrorRow) (id : bytes) (s : db) : db :=
  update_rows (λ r, bool_decide (ID r = id)) (bump m) s.

(** [remirrorSource], one transaction: the row the key resolves to and whether this call
    bumped the row. *)
Definition remirrorSource (id : bytes) (m : ForgeMirrorRow) (s : db) : result mirrorErr (bytes * bool * db) :=
  if keyed m then
    if negb (bool_decide (Agent m ∈ agents s)) then Err ErrStore
    else match RecordForgeMirrorRequest (key_of m) id s with
    | Some s' => Ok (id, true, BumpForgeMirrorSourceRevision m id s')
    | None =>
        match ForgeMirrorByRequest (key_of m) s with Some r => Ok (ID r, false, s) | None => Err ErrStore end
    end
  else Ok (id, true, BumpForgeMirrorSourceRevision m id s).

Notation claim_result := (result mirrorErr (ForgeMirrorRow * ClaimResolution)).

(** Where a claim stands between its transactions. *)
Inductive claim_phase :=
| Inserting
| Reserving                        (* the lookup by request key after no insert *)
| Conflicting                      (* the lookup by conflict keys *)
| Remirroring (id : bytes)
| Reading (id : bytes)             (* the row of a key that was reserved *)
| Reloading
| Checking (r : ForgeMirrorRow)    (* the lookup by request key of a conflict *)
| Claimed (res : claim_result).

Definition resolve_conflict (m : ForgeMirrorRow) (c : option (ForgeMirrorRow * Z)) : claim_phase :=
  match c with
  | None => Claimed (Err ErrStore)
  | Some (r, kind) =>
      if bool_decide (kind = 2) then Claimed (Ok (r, ClaimReserved))
      else if bool_decide (kind = 3 ∧ Source m = 2 ∧ Actor r = Actor m ∧ Agent r = Agent m) then Remirroring (ID r)
      else if keyed m then Checking r else Claimed (Ok (r, ClaimConflict))
  end.

(** One transaction of [ClaimForgeMirrorResolved]. *)
Definition claim_step (id uuid : bytes) (m : ForgeMirrorRow) (p : claim_phase) (s : db) : claim_phase * db :=
  match p with
  | Inserting =>
      if negb (valid_claim m) then (Claimed (Err ErrInvalidArgument), s)
      else match insertForgeMirror id uuid m s with
      | Ok (Some row, s') => (Claimed (Ok (row, ClaimInserted)), s')
      | Ok (None, _) => (if keyed m then Reserving else Conflicting, s)
      | Err e => (Claimed (Err e), s)
      | Panic => (Claimed Panic, s)
      end
  | Reserving =>
      (match ForgeMirrorByRequest (key_of m) s with Some r => Claimed (Ok (r, ClaimReserved)) | None => Conflicting end, s)
  | Conflicting => (resolve_conflict m (ForgeMirrorByConflictKeys m s), s)
  | Remirroring rid =>
      match remirrorSource rid m s with
      | Ok (_, true, s') => (Reloading, s')
      | Ok (reserved, false, _) => (Reading reserved, s)
      | Err e => (Claimed (Err e), s)
      | Panic => (Claimed Panic, s)
      end
  | Reading rid => (match find_row rid s with Some r => Claimed (Ok (r, ClaimReserved)) | None => Claimed (Err ErrNotFound) end, s)
  | Reloading => (match ForgeMirrorByConflictKeys m s with Some (r, _) => Claimed (Ok (r, ClaimRemirrored)) | None => Claimed (Err ErrStore) end, s)
  | Checking r => (match ForgeMirrorByRequest (key_of m) s with Some r' => Claimed (Ok (r', ClaimReserved)) | None => Claimed (Ok (r, ClaimConflict)) end, s)
  | Claimed res => (Claimed res, s)
  end.

(** [ClaimForgeMirrorResolved] with no other call between: no path has more than six
    transactions. *)
Fixpoint claim_run (fuel : nat) (id uuid : bytes) (m : ForgeMirrorRow) (p : claim_phase) (s : db) : claim_phase * db :=
  match fuel with
  | O => (p, s)
  | S f => let '(p, s) := claim_step id uuid m p s in claim_run f id uuid m p s
  end.

Definition ClaimForgeMirrorResolved (id uuid : bytes) (m : ForgeMirrorRow) (s : db) : claim_phase * db := claim_run 6 id uuid m Inserting s.

(** [ClaimForgeMirror]: whether this call inserted the row. *)
Definition created (res : claim_result) : bool := match res with Ok (_, ClaimInserted) => true | _ => false end.

(** ** Asks *)

Definition InsertAskForgeMirror (id uuid askID actor target session : bytes) (s : db) : result mirrorErr db :=
  let row := new_mirror id uuid (MkMirror id 1 askID [] actor actor [] target 1 0 1 0 0 [] [] [] [] None None uuid None None [] session None) in
  if bool_decide (target = []) || existsb (row_conflicts row) (mirrors s) || negb (references row s) then Err ErrStore
  else Ok (set_mirrors (mirrors s ++ [row]) s).

(** An ask block of a posted message with its forge coordinate. *)
Record mirror_ask := MkAsk { a_ask : bytes; a_ref : bytes; a_coord : option coord }.

(** The loop of [insertAskMirrors] over the asks of the message; [ids] gives the ids of
    the rows in turn. *)
Fixpoint insert_asks (ids : list (bytes * bytes)) (author session : bytes) (asks : list mirror_ask) (s : db) : result mirrorErr db :=
  match asks with
  | [] => Ok s
  | a :: asks =>
      match a_coord a with
      | None => insert_asks ids author session asks s
      | Some (provider, host, repo) =>
          match MirrorMode provider host repo s with
          | Ok ForgeMirrorAuto =>
              match ids with
              | (id, uuid) :: ids =>
                  s <-? InsertAskForgeMirror id uuid (a_ask a) author (a_ref a) session s; insert_asks ids author session asks s
              | [] => Err ErrStore
              end
          | _ => insert_asks ids author session asks s
          end
      end
  end.

Definition insertAskMirrors (ids : list (bytes * bytes)) (author session : bytes) (asks : list mirror_ask) (s : db) : result mirrorErr db :=
  if negb (existsb (λ a, bool_decide (is_Some (a_coord a))) asks) then Ok s
  else if negb (bool_decide (author ∈ agents s)) then Ok s
  else insert_asks ids author session asks s.

(** [BumpAskForgeMirror]. *)
Definition bump_ask (r : ForgeMirrorRow) : ForgeMirrorRow :=
  MkMirror (ID r) (Source r) (AskID r) (SourceKey r) (Actor r) (Agent r) (ClientRequestID r) (TargetRef r) 2 (PostedRev r) 1 (Attempts r)
    (CommentID r) (CommentKey r) (CommentURL r) (LastError r) (LastErrorCode r) (FirstAttemptAt r) (LastAttemptAt r) (ClientCommentID r)
    (RecheckAt r) (LeaseUntil r) (LeaseToken r) (SessionID r) (SourcePayload r).

Definition bumpAskMirror (askID : bytes) (s : db) : db := update_rows (λ r, bool_decide (AskID r = askID)) bump_ask s.

(** ** Leases *)

(** Not done, or due for a recheck. *)
Definition open_row (now : Z) (r : ForgeMirrorRow) : bool :=
  bool_decide (State r ≠ 2) || match RecheckAt r with Some at_ => bool_decide (at_ ≤ now) | None => false end.

(** [WHERE lease_token = $ AND lease_until > now()]. *)
Definition holds_lease (now : Z) (token : bytes) (r : ForgeMirrorRow) : bool :=
  bool_decide (LeaseToken r = token) && match LeaseUntil r with Some t => bool_decide (now < t) | None => false end.

Definition set_lease (until : option Z) (token : bytes) (r : ForgeMirrorRow) : ForgeMirrorRow :=
  MkMirror (ID r) (Source r) (AskID r) (SourceKey r) (Actor r) (Agent r) (ClientRequestID r) (TargetRef r) (BodyRev r) (PostedRev r) (State r)
    (Attempts r) (CommentID r) (CommentKey r) (CommentURL r) (LastError r) (LastErrorCode r) (FirstAttemptAt r) (LastAttemptAt r)
    (ClientCommentID r) (RecheckAt r) until token (SessionID r) (SourcePayload r).

Definition leasable (now : Z) (id : bytes) (r : ForgeMirrorRow) : bool :=
  bool_decide (ID r = id) && open_row now r && match LeaseUntil r with None => true | Some t => bool_decide (t < now) end.

Definition LeaseForgeMirror (now : Z) (id token : bytes) (ttl : Z) (s : db) : result mirrorErr (option ForgeMirrorRow * db) :=
  if bool_decide (id = [] ∨ token = [] ∨ ttl ≤ 0) then Err ErrInvalidArgument
  else
    let f := set_lease (Some (now + ttl)) token in
    Ok (f <$> find (leasable now id) (mirrors s), update_rows (leasable now id) f s).

Definition held (now : Z) (id token : bytes) (r : ForgeMirrorRow) : bool := bool_decide (ID r = id) && holds_lease now token r.

Definition RenewForgeMirror (now : Z) (id token : bytes) (ttl : Z) (s : db) : result mirrorErr (bool * db) :=
  if bool_decide (id = [] ∨ token = [] ∨ ttl ≤ 0) then Err ErrInvalidArgument
  else Ok (existsb (held now id token) (mirrors s), update_rows (held now id token) (λ r, set_lease (Some (now + ttl)) (LeaseToken r) r) s).

Definition begin_attempt (now : Z) (r : ForgeMirrorRow) : ForgeMirrorRow :=
  MkMirror (ID r) (Source r) (AskID r) (SourceKey r) (Actor r) (Agent r) (ClientRequestID r) (TargetRef r) (BodyRev r) (PostedRev r) (State r)
    (Attempts r + 1) (CommentID r) (CommentKey r) (CommentURL r) (LastError r) (LastErrorCode r)
    (Some (default now (FirstAttemptAt r))) (Some now) (ClientCommentID r) (RecheckAt r) (LeaseUntil r) (LeaseToken r) (SessionID r) (SourcePayload r).

Definition BeginForgeMirrorAttempt (now : Z) (id token : bytes) (s : db) : result mirrorErr (option ForgeMirrorRow * db) :=
  if bool_decide (id = [] ∨ token = []) then Err ErrInvalidArgument
  else Ok (begin_attempt now <$> find (held now id token) (mirrors s), update_rows (held now id token) (begin_attempt now) s).

Definition recheckDelay : Z := 10 * 60 * 1000000.

Definition apply_mark (now : Z) (k : ForgeMirrorMark) (r : ForgeMirrorRow) : ForgeMirrorRow :=
  MkMirror (ID r) (Source r) (AskID r) (SourceKey r) (Actor r) (Agent r) (ClientRequestID r) (TargetRef r) (BodyRev r) (mk_PostedRev k)
    (if bool_decide (mk_State k = 2 ∧ mk_PostedRev k < BodyRev r) then 1 else mk_State k) (Attempts r)
    (if bool_decide (mk_CommentID k = 0) then CommentID r else mk_CommentID k)
    (if bool_decide (mk_CommentKey k = []) then CommentKey r else mk_CommentKey k)
    (if bool_decide (mk_URL k = []) then CommentURL r else mk_URL k) (Err_ k) (ErrCode k) (FirstAttemptAt r) (LastAttemptAt r) (ClientCommentID r)
    (if Recheck k then Some (now + recheckDelay) else if ClearRecheck k then None else RecheckAt r)
    None [] (SessionID r) (SourcePayload r).

Definition MarkForgeMirror (now : Z) (id token : bytes) (k : ForgeMirrorMark) (s : db) : result mirrorErr db :=
  if bool_decide (id = [] ∨ token = [] ∨ mk_State k < 1 ∨ 3 < mk_State k) then Err ErrInvalidArgument
  else if bool_decide (MaxInt64 < mk_CommentID k) then Err ErrInvalidArgument
  else if existsb (held now id token) (mirrors s) then Ok (update_rows (held now id token) (apply_mark now k) s) else Err ErrLeaseLost.

(** ** Reads *)

Definition OpenForgeMirrors (now : Z) (agent : bytes) (s : db) : result mirrorErr (list ForgeMirrorRow) :=
  if bool_decide (agent = []) then Err ErrInvalidArgument
  else Ok (filter (λ r, bool_decide (Agent r = agent) && open_row now r = true) (mirrors s)).

Definition AskForgeMirrors (askIDs : list bytes) (s : db) : list ForgeMirrorRow :=
  filter (λ r, bool_decide (AskID r ∈ askIDs) = true) (mirrors s).

Definition ForgeMirrorByID (id : bytes) (s : db) : result mirrorErr ForgeMirrorRow :=
  if bool_decide (id = []) then Err ErrInvalidArgument
  else match find_row id s with Some r => Ok r | None => Err ErrNotFound end.

End ForgeMirrors.
