(* ===== verification/ForgeMirrorFacts.v ===== *)
(** The forge mirror outbox under every interleaving of claims, asks, leases and marks. *)
From stdpp Require Import base gmap list strings.
From Stdlib Require Import Ascii Lia ZArith.
From S2P Require Import Prelude Text ForgeIntents ForgeMirrors.

Module ForgeMirrorFacts.
Import ForgeMirrors.

Open Scope Z_scope.

(** * Histories *)

Record claim := MkClaim { c_mirror : ForgeMirrorRow; c_phase : claim_phase }.

(** The database with the claims in flight and done, and the next id. *)
Record world := MkWorld { w_db : db; w_claims : list claim; w_next : nat }.

Inductive event :=
| EClaim (m : ForgeMirrorRow)                  (* a call of [ClaimForgeMirrorResolved] *)
| EStep (t : nat)                              (* a transaction of the claim [t] *)
| EAsks (author session : bytes) (asks : list mirror_ask)
| EBumpAsk (askID : bytes)
| ELease (now : Z) (id token : bytes) (ttl : Z)
| ERenew (now : Z) (id token : bytes) (ttl : Z)
| EBegin (now : Z) (id token : bytes)
| EMark (now : Z) (id token : bytes) (k : ForgeMirrorMark)
| EAccounts (accounts agents : gset bytes)     (* accounts and agents added *)
| ESettings (m : gmap (Z * bytes * bytes) ForgeMirrorMode).

Section world.
Context (newID uuid : nat → bytes).

Definition with_db (s : db) (w : world) : world := MkWorld s (w_claims w) (w_next w).

Definition on_ok {A} (r : result mirrorErr A) (f : A → db) (w : world) : world :=
  match r with Ok a => with_db (f a) w | _ => w end.

Definition ask_ids (n : nat) (asks : list mirror_ask) : list (bytes * bytes) := (λ i, (newID (n + i), uuid (n + i))) <$> seq 0 (length asks).

Definition step (e : event) (w : world) : world :=
  match e with
  | EClaim m => MkWorld (w_db w) (w_claims w ++ [MkClaim m Inserting]) (w_next w)
  | EStep t =>
      match w_claims w !! t with
      | Some c =>
          let '(p, s) := claim_step (newID (w_next w)) (uuid (w_next w)) (c_mirror c) (c_phase c) (w_db w) in
          MkWorld s (<[t := MkClaim (c_mirror c) p]> (w_claims w)) (S (w_next w))
      | None => w
      end
  | EAsks author session asks =>
      on_ok (insertAskMirrors (ask_ids (w_next w) asks) author session asks (w_db w)) (λ s, s)
        (MkWorld (w_db w) (w_claims w) (w_next w + length asks))
  | EBumpAsk askID => with_db (bumpAskMirror askID (w_db w)) w
  | ELease now id token ttl => on_ok (LeaseForgeMirror now id token ttl (w_db w)) snd w
  | ERenew now id token ttl => on_ok (RenewForgeMirror now id token ttl (w_db w)) snd w
  | EBegin now id token => on_ok (BeginForgeMirrorAttempt now id token (w_db w)) snd w
  | EMark now id token k => on_ok (MarkForgeMirror now id token k (w_db w)) (λ s, s) w
  | EAccounts acc ag => with_db (MkDb (mirrors (w_db w)) (requests (w_db w)) (settings (w_db w)) (accounts (w_db w) ∪ acc) (agents (w_db w) ∪ ag)) w
  | ESettings m => with_db (set_settings m (w_db w)) w
  end.

Definition empty_db : db := MkDb [] ∅ ∅ ∅ ∅.
Definition start : world := MkWorld empty_db [] 0.
Definition history (es : list event) (w : world) : world := foldl (λ w e, step e w) w es.

(** * What never changes of a row *)

Definition static (r : ForgeMirrorRow) : bytes * Z * bytes * bytes * bytes * bytes * bytes * bytes :=
  (ID r, Source r, AskID r, SourceKey r, Actor r, Agent r, ClientRequestID r, TargetRef r).

Definition statics (s : db) := static <$> mirrors s.

Lemma static_ID r r' : static r = static r' → ID r = ID r'.
Proof. unfold static. congruence. Qed.

Lemma static_key r r' : static r = static r' → key_of r = key_of r' ∧ keyed r = keyed r'.
Proof.
  unfold static, key_of, keyed. intros E. assert (Agent r = Agent r') as -> by congruence.
  by assert (ClientRequestID r = ClientRequestID r') as -> by congruence.
Qed.

Lemma static_source m r r' : static r = static r' → same_source m r = same_source m r'.
Proof.
  unfold static, same_source. intros E. assert (SourceKey r = SourceKey r') as -> by congruence.
  by assert (TargetRef r = TargetRef r') as -> by congruence.
Qed.

Lemma update_statics p f s : (∀ r, static (f r) = static r) → statics (update_rows p f s) = statics s.
Proof.
  intros Hf. unfold statics, update_rows. cbn [mirrors set_mirrors].
  induction (mirrors s) as [|r l IH]; [done|]. cbn [map fmap list_fmap]. rewrite IH. f_equal. by destruct (p r).
Qed.

(** A step of the database: rows are added at the end and keep what is fixed of them, and
    a reserved request key keeps its row. *)
Definition grows (s s' : db) : Prop :=
  (∃ l, statics s' = statics s ++ l) ∧ (∀ k id, requests s !! k = Some id → requests s' !! k = Some id).

Lemma grows_refl s : grows s s.
Proof. split; [by exists []; rewrite app_nil_r|done]. Qed.

Lemma grows_trans a b c : grows a b → grows b c → grows a c.
Proof. intros [[l Hl] Hr] [[l' Hl'] Hr']. split; [exists (l ++ l'); by rewrite Hl', Hl, app_assoc|auto]. Qed.

Lemma grows_update p f s : (∀ r, static (f r) = static r) → grows s (update_rows p f s).
Proof. intros Hf. split; [exists []; by rewrite update_statics, app_nil_r|done]. Qed.

Lemma grows_insert row s : grows s (set_mirrors (mirrors s ++ [row]) s).
Proof. split; [|done]. exists [static row]. unfold statics. cbn [mirrors set_mirrors]. by rewrite fmap_app. Qed.

Lemma static_in r s s' : grows s s' → r ∈ mirrors s → ∃ r', r' ∈ mirrors s' ∧ static r' = static r.
Proof.
  intros [[l Hl] _] Hr. assert (static r ∈ statics s') as H by (rewrite Hl; apply elem_of_app; left; by apply list_elem_of_fmap_2).
  apply list_elem_of_fmap in H as (r' & H & Hin). eauto.
Qed.

(** ** The invariant of the tables *)

Record tables (n : nat) (s : db) : Prop := {
  t_ids : ∀ i j r r', mirrors s !! i = Some r → mirrors s !! j = Some r' → ID r = ID r' → i = j;
  t_fresh : ∀ r, r ∈ mirrors s → ∃ k, (k < n)%nat ∧ ID r = newID k;
  t_source : ∀ i j r r', mirrors s !! i = Some r → mirrors s !! j = Some r' → same_source r r' = true → i = j;
  t_keyed : ∀ r, r ∈ mirrors s → keyed r = true → requests s !! key_of r = Some (ID r);
  t_request : ∀ k id, requests s !! k = Some id → ∃ r, r ∈ mirrors s ∧ ID r = id;
}.

Lemma find_some {A} (p : A → bool) l x : List.find p l = Some x → x ∈ l ∧ p x = true.
Proof. intros [H ?]%List.find_some. by apply list_elem_of_In in H. Qed.

Lemma find_row_spec n s id r : tables n s → find_row id s = Some r ↔ r ∈ mirrors s ∧ ID r = id.
Proof.
  intros HT. unfold find_row. split.
  - by intros [H1 H2%bool_decide_eq_true]%find_some.
  - intros [Hr Hid]. destruct (List.find _ _) as [r'|] eqn:E.
    + apply find_some in E as [Hr' E%bool_decide_eq_true]. apply list_elem_of_lookup in Hr as [i Hi], Hr' as [j Hj].
      assert (i = j) as -> by (eapply (t_ids n s); eauto; congruence). congruence.
    + apply list_elem_of_In in Hr. pose proof (List.find_none _ _ E _ Hr) as H. by apply bool_decide_eq_false in H.
Qed.

(** An update of rows keeps the tables. *)
Lemma tables_statics n s s' :
  statics s' = statics s → requests s' = requests s → tables n s → tables n s'.
Proof.
  intros Hs Hr HT.
  assert (∀ i r, mirrors s' !! i = Some r → ∃ r', mirrors s !! i = Some r' ∧ static r = static r') as Hl.
  { intros i r Hi. assert (statics s' !! i = Some (static r)) as H by (unfold statics; by rewrite list_lookup_fmap, Hi).
    rewrite Hs in H. unfold statics in H. rewrite list_lookup_fmap in H. apply fmap_Some in H as (r' & H & ?). eauto. }
  assert (∀ r, r ∈ mirrors s' → ∃ r', r' ∈ mirrors s ∧ static r = static r') as Hin.
  { intros r [i Hi]%list_elem_of_lookup. apply Hl in Hi as (r' & Hi & ?). exists r'. split; [by eapply list_elem_of_lookup_2|done]. }
  split.
  - intros i j r r' Hi Hj Hid. apply Hl in Hi as (a & Hi & Ha), Hj as (b & Hj & Hb).
    eapply (t_ids n s HT); [done..|]. by rewrite <- (static_ID _ _ Ha), <- (static_ID _ _ Hb).
  - intros r (r' & Hr' & E)%Hin. rewrite (static_ID _ _ E). by apply (t_fresh n s HT).
  - intros i j r r' Hi Hj Hid. apply Hl in Hi as (a & Hi & Ha), Hj as (b & Hj & Hb).
    eapply (t_source n s HT); [done..|]. rewrite <- (static_source _ _ _ Hb). unfold static in Ha.
    assert (SourceKey r = SourceKey a) as Hk by congruence. assert (TargetRef r = TargetRef a) as Ht by congruence.
    unfold same_source in *. by rewrite <- Hk, <- Ht.
  - intros r (r' & Hr' & E)%Hin Hk. destruct (static_key _ _ E) as [-> Hk']. rewrite Hr, (static_ID _ _ E).
    apply (t_keyed n s HT); [done|]. by rewrite <- Hk'.
  - intros k id Hk. rewrite Hr in Hk. apply (t_request n s HT) in Hk as (r & Hr' & <-).
    assert (static r ∈ statics s') as H by (rewrite Hs; by apply list_elem_of_fmap_2).
    apply list_elem_of_fmap in H as (r' & E & Hr''). exists r'. split; [done|]. symmetry. by apply static_ID.
Qed.

Lemma tables_le n n' s : (n ≤ n')%nat → tables n s → tables n' s.
Proof.
  intros Hn [H1 H2 H3 H4 H5]. split; try done. intros r (k & Hk & E)%H2. exists k. split; [lia|done].
Qed.

Definition add_row (row : ForgeMirrorRow) (s : db) : db :=
  set_requests (if keyed row then <[key_of row := ID row]> (requests s) else requests s) (set_mirrors (mirrors s ++ [row]) s).

Lemma same_source_sym m r : same_source m r = true → same_source r m = true.
Proof.
  unfold same_source. intros [H1 [H2 H3]%bool_decide_eq_true]%andb_true_iff. rewrite H2, H3.
  apply andb_true_iff. split; [done|by apply bool_decide_eq_true].
Qed.

Lemma snoc_lookup {A} (l : list A) x i y : (l ++ [x]) !! i = Some y → l !! i = Some y ∨ i = length l ∧ y = x.
Proof. intros [?|[? H]]%lookup_app_Some; [by left|]. right. apply list_lookup_singleton_Some in H as [? <-]. split; [lia|done]. Qed.

(** A row inserted with the reservation of its key. *)
Lemma tables_add (Hinj : ∀ i j, newID i = newID j → i = j) n n' k row s :
  tables n s → (n ≤ k < n')%nat → ID row = newID k → existsb (row_conflicts row) (mirrors s) = false →
  (keyed row = true → requests s !! key_of row = None) → tables n' (add_row row s).
Proof.
  intros HT Hk Hid Hc Hkey.
  assert (∀ r, r ∈ mirrors s → row_conflicts row r = false) as Hnc.
  { intros r Hr. destruct (row_conflicts row r) eqn:E; [|done]. apply list_elem_of_In in Hr.
    assert (existsb (row_conflicts row) (mirrors s) = true) as H by (apply existsb_exists; eauto). congruence. }
  assert (∀ r, r ∈ mirrors s → ID r ≠ ID row ∧ same_source row r = false) as Hd.
  { intros r Hr%Hnc. unfold row_conflicts in Hr. apply orb_false_iff in Hr as [Hr Hs]. apply orb_false_iff in Hr as [Hr _].
    apply orb_false_iff in Hr as [Hr _]. by apply bool_decide_eq_false in Hr. }
  split.
  - intros i j r r' Hi Hj E. apply snoc_lookup in Hi as [Hi|[-> ->]]; apply snoc_lookup in Hj as [Hj|[-> ->]]; [by eapply (t_ids n s)| | |done].
    + apply list_elem_of_lookup_2, Hd in Hi as [? _]. done.
    + apply list_elem_of_lookup_2, Hd in Hj as [? _]. congruence.
  - intros r Hr. apply elem_of_app in Hr as [Hr|Hr]; [|apply list_elem_of_singleton in Hr as ->; exists k; split; [lia|done]].
    apply (t_fresh n s HT) in Hr as (k' & ? & ?). exists k'. split; [lia|done].
  - intros i j r r' Hi Hj E. apply snoc_lookup in Hi as [Hi|[-> ->]]; apply snoc_lookup in Hj as [Hj|[-> ->]]; [by eapply (t_source n s)| | |done].
    + apply list_elem_of_lookup_2, Hd in Hi as [_ ?]. apply same_source_sym in E. congruence.
    + apply list_elem_of_lookup_2, Hd in Hj as [_ ?]. congruence.
  - intros r Hr Hkr. apply elem_of_app in Hr as [Hr|Hr]; [|apply list_elem_of_singleton in Hr as ->]; cbn [requests add_row set_requests].
    + pose proof (t_keyed n s HT r Hr Hkr) as H. destruct (keyed row) eqn:Ek; [|done].
      rewrite lookup_insert_ne; [done|]. intros E. rewrite <- E, Hkey in H by done. done.
    + rewrite Hkr. apply lookup_insert_eq.
  - intros k' id H. cbn [requests add_row set_requests] in H. cbn [mirrors set_mirrors add_row set_requests].
    destruct (keyed row).
    + apply lookup_insert_Some in H as [[_ <-]|[_ H]]; [exists row; split; [apply elem_of_app; right; by left|done]|].
      apply (t_request n s HT) in H as (r & ? & ?). exists r. split; [apply elem_of_app; by left|done].
    + apply (t_request n s HT) in H as (r & ? & ?). exists r. split; [apply elem_of_app; by left|done].
Qed.

(** * Claims *)

Definition won (c : claim) : bool :=
  keyed (c_mirror c) &&
  match c_phase c with Reloading | Claimed (Ok (_, ClaimInserted)) | Claimed (Ok (_, ClaimRemirrored)) => true | _ => false end.

Definition reserved_for (m : ForgeMirrorRow) (id : bytes) (s : db) : Prop := keyed m = true → requests s !! key_of m = Some id.

(** The row of a conflict: one there is, under the ask or the source of the claim. *)
Definition conflicts_with (m r : ForgeMirrorRow) (s : db) : Prop :=
  (∃ r', r' ∈ mirrors s ∧ static r' = static r) ∧ (same_ask m r = true ∨ same_source m r = true).

Lemma conflicts_with_grows m r s s' : grows s s' → conflicts_with m r s → conflicts_with m r s'.
Proof.
  intros Hg [(q & Hq & E) H]. split; [|done]. destruct (static_in _ _ _ Hg Hq) as (q' & ? & E'). exists q'. split; [done|congruence].
Qed.

Definition claim_ok (s : db) (c : claim) : Prop :=
  let m := c_mirror c in
  match c_phase c with
  | Reserving => keyed m = true
  | Checking r => keyed m = true ∧ conflicts_with m r s
  | Remirroring id => ∃ r, r ∈ mirrors s ∧ ID r = id ∧ same_source m r = true
  | Reading id => keyed m = true ∧ requests s !! key_of m = Some id
  | Reloading => ∃ r, r ∈ mirrors s ∧ same_source m r = true ∧ reserved_for m (ID r) s
  | Claimed (Ok (r, ClaimInserted)) => reserved_for m (ID r) s
  | Claimed (Ok (r, ClaimRemirrored)) => (keyed m = true → is_Some (requests s !! key_of m)) ∧ (AskID m = [] → reserved_for m (ID r) s)
  | Claimed (Ok (r, ClaimReserved)) => keyed m = true ∧ requests s !! key_of m = Some (ID r)
  | Claimed (Ok (r, ClaimConflict)) => conflicts_with m r s
  | _ => True
  end.

Lemma claim_ok_grows s s' c : grows s s' → claim_ok s c → claim_ok s' c.
Proof.
  intros Hg. pose proof (proj2 Hg) as Hr. unfold claim_ok, reserved_for. destruct (c_phase c) as [| | |id|id| |r|[[r x] | | ]]; try done; try (destruct x; try done).
  - intros (r & Hin & Hid & Hs). destruct (static_in _ _ _ Hg Hin) as (r' & ? & E). exists r'.
    split; [done|]. rewrite (static_ID _ _ E), (static_source _ _ _ E). done.
  - intros [? ?]. eauto.
  - intros (r & Hin & Hs & Hq). destruct (static_in _ _ _ Hg Hin) as (r' & ? & E). exists r'.
    split; [done|]. rewrite (static_ID _ _ E), (static_source _ _ _ E). eauto.
  - intros [? ?]. split; [done|]. by eapply conflicts_with_grows.
  - eauto.
  - intros [H1 H2]. split; [|eauto]. intros [id Hid]%H1. eauto.
  - intros [? ?]. eauto.
  - by apply conflicts_with_grows.
Qed.

Lemma won_reserved s c : claim_ok s c → won c = true → is_Some (requests s !! key_of (c_mirror c)).
Proof.
  unfold won, claim_ok, reserved_for. destruct (keyed (c_mirror c)); [|done]. cbn [andb].
  destruct (c_phase c) as [| | |id|id| |r|[[r x] | | ]]; try done; try (destruct x; try done); [intros (r & _ & _ & H) _|intros H _|intros [H _] _]; rewrite ?H by done; eauto.
Qed.

(** The lookup by conflict keys of a claim whose key is reserved for the row of its source. *)
Lemma conflict_row n s m r :
  tables n s → r ∈ mirrors s → same_source m r = true → reserved_for m (ID r) s → AskID m = [] →
  ∃ r' k, ForgeMirrorByConflictKeys m s = Some (r', k) ∧ ID r' = ID r.
Proof.
  intros HT Hr Hs Hq Ha. unfold ForgeMirrorByConflictKeys.
  destruct (List.find (same_request m) _) as [q|] eqn:Eq.
  { apply find_some in Eq as [Hin [Hk E%bool_decide_eq_true]%andb_true_iff]. exists q, 2. split; [done|].
    assert (keyed q = true) as Hkq by (unfold keyed, key_of in *; by injection E as -> ->).
    pose proof (t_keyed n s HT q Hin Hkq) as H. rewrite E, Hq in H by done. congruence. }
  destruct (List.find (same_ask m) _) as [q|] eqn:Ea.
  { apply find_some in Ea as [_ H]. unfold same_ask in H. by rewrite Ha in H. }
  destruct (List.find (same_source m) _) as [q|] eqn:Es.
  - exists q, 3. split; [done|]. apply find_some in Es as [Hin Es].
    apply list_elem_of_lookup in Hin as [i Hi], Hr as [j Hj].
    assert (i = j) as ->; [|congruence]. eapply (t_source n s HT); [done..|].
    unfold same_source in *. apply andb_true_iff in Es as [Hne [E1 E2]%bool_decide_eq_true], Hs as [_ [E3 E4]%bool_decide_eq_true].
    rewrite E1, E2, E3, E4. apply andb_true_iff. split; [done|by apply bool_decide_eq_true].
  - apply list_elem_of_In in Hr. by rewrite (List.find_none _ _ Es _ Hr) in Hs.
Qed.

Lemma grows_requests k id s : requests s !! k = None → grows s (set_requests (<[k := id]> (requests s)) s).
Proof.
  intros Hk. split; [exists []; by rewrite app_nil_r|]. intros k' id' H. cbn [requests set_requests].
  rewrite lookup_insert_ne; [done|]. intros ->. congruence.
Qed.

Lemma grows_add row s : (keyed row = true → requests s !! key_of row = None) → grows s (add_row row s).
Proof.
  intros Hk. split; [exists [static row]; unfold statics; cbn [mirrors set_mirrors add_row set_requests]; by rewrite fmap_app|].
  intros k id H. cbn [requests add_row set_requests]. destruct (keyed row); [|done]. rewrite lookup_insert_ne; [done|].
  intros <-. rewrite Hk in H by done. done.
Qed.

Lemma insert_spec id uuid' m s r s' :
  insertForgeMirror id uuid' m s = Ok (Some r, s') →
  r = new_mirror id uuid' m ∧ existsb (row_conflicts r) (mirrors s) = false ∧ (keyed m = true → requests s !! key_of m = None) ∧ s' = add_row r s.
Proof.
  unfold insertForgeMirror. destruct (existsb _ _) eqn:Ec; [done|]. destruct (negb _); [done|].
  assert (keyed (new_mirror id uuid' m) = keyed m) as Hk by done.
  destruct (keyed m) eqn:Ek.
  - destruct (negb _); [done|]. unfold RecordForgeMirrorRequest. cbn [requests set_mirrors].
    destruct (requests s !! key_of m) eqn:Er; [done|]. intros [= <- <-]. do 3 (split; [done|]). unfold add_row. by rewrite Hk.
  - intros [= <- <-]. do 2 (split; [done|]). split; [done|]. unfold add_row. rewrite Hk. by destruct s.
Qed.

Lemma bump_static m r : static (bump m r) = static r.
Proof. done. Qed.

Lemma remirror_spec n id m s x b s' :
  tables n s → remirrorSource id m s = Ok (x, b, s') →
  if b then x = id ∧ (keyed m = true → requests s !! key_of m = None) ∧ statics s' = statics s
            ∧ requests s' = (if keyed m then <[key_of m := id]> (requests s) else requests s)
  else keyed m = true ∧ requests s !! key_of m = Some x ∧ s' = s.
Proof.
  intros HT. unfold remirrorSource. destruct (keyed m) eqn:Ek.
  - destruct (negb _); [done|]. unfold RecordForgeMirrorRequest, ForgeMirrorByRequest. destruct (requests s !! key_of m) as [i|] eqn:Er; cbn [mbind option_bind].
    + destruct (find_row i s) as [r|] eqn:Ef; [|done]. intros [= <- <- <-]. split; [done|].
      apply (find_row_spec n s _ _ HT) in Ef as [_ ->]. done.
    + intros [= <- <- <-]. split; [done|]. split; [done|]. split; [|done]. unfold BumpForgeMirrorSourceRevision. by rewrite update_statics.
  - intros [= <- <- <-]. split; [done|]. split; [done|]. split; [|done]. unfold BumpForgeMirrorSourceRevision. by rewrite update_statics.
Qed.

(** A request that comes to be recorded for a row there is. *)
Lemma tables_request n s s' k id :
  tables n s → statics s' = statics s → requests s' = <[k := id]> (requests s) → requests s !! k = None →
  (∃ r, r ∈ mirrors s ∧ ID r = id) → tables n s'.
Proof.
  intros HT Hs Hr Hk (r & Hin & Hid).
  apply (tables_statics n (set_requests (<[k := id]> (requests s)) s)); [done..|].
  split; try by destruct HT.
  - intros q Hq Hkq. pose proof (t_keyed n s HT q Hq Hkq) as H. cbn [requests set_requests]. rewrite lookup_insert_ne; [done|]. intros ->. congruence.
  - intros k' id' H. cbn [requests set_requests] in H. apply lookup_insert_Some in H as [[_ <-]|[_ H]]; [eauto|]. by apply (t_request n s HT k' id').
Qed.

Definition claim_after (n : nat) (m : ForgeMirrorRow) (p p' : claim_phase) (s s' : db) : Prop :=
  tables (S n) s' ∧ grows s s' ∧ claim_ok s' (MkClaim m p')
  ∧ (won (MkClaim m p') = true → won (MkClaim m p) = true ∨ requests s !! key_of m = None)
  ∧ (keyed m = true → is_Some (requests s !! key_of m) → s' = s).

Lemma claim_after_same n m p p' s :
  tables n s → claim_ok s (MkClaim m p') → (won (MkClaim m p') = true → won (MkClaim m p) = true) → claim_after n m p p' s s.
Proof. intros HT Hc Hw. split; [by apply (tables_le n); [lia|]|]. split; [apply grows_refl|]. split; [done|]. split; [auto|done]. Qed.

Lemma won_not m p : (match p with Reloading | Claimed (Ok (_, ClaimInserted)) | Claimed (Ok (_, ClaimRemirrored)) => false | _ => true end) = true →
  won (MkClaim m p) = true → False.
Proof. unfold won. cbn [c_mirror c_phase]. destruct (keyed m), p as [| | |id|id| |r|[[r x] | | ]]; try done; by destruct x. Qed.

Lemma insert_step (Hinj : ∀ i j, newID i = newID j → i = j) n m p s s' r :
  tables n s → insertForgeMirror (newID n) (uuid n) m s = Ok (Some r, s') →
  claim_after n m p (Claimed (Ok (r, ClaimInserted))) s s'.
Proof.
  intros HT (Er & Hc & Hk & ->)%insert_spec. assert (keyed r = keyed m ∧ key_of r = key_of m ∧ ID r = newID n) as (Ek & Eq & Ei) by by subst r.
  assert (keyed r = true → requests s !! key_of r = None) as Hkr by (by rewrite Ek, Eq).
  split; [eapply (tables_add Hinj n _ n); eauto; lia|]. split; [by apply grows_add|]. split.
  { cbn. intros Hm. cbn [requests add_row set_requests]. rewrite Ek, Hm, Eq. apply lookup_insert_eq. }
  split; [|intros Hm [? H]; rewrite Hk in H by done; done]. unfold won. cbn [c_mirror c_phase]. rewrite andb_true_r. auto.
Qed.

Lemma remirror_step n m p s s' id x :
  tables n s → (∃ r, r ∈ mirrors s ∧ ID r = id ∧ same_source m r = true) → remirrorSource id m s = Ok (x, true, s') →
  claim_after n m p Reloading s s'.
Proof.
  intros HT (r & Hr & Hid & Hs) H. apply (remirror_spec n) in H as (-> & Hk & Est & Erq); [|done].
  assert (grows s s') as Hg.
  { destruct (keyed m) eqn:Ek; [|split; [exists []; by rewrite app_nil_r|by rewrite Erq]].
    eapply grows_trans; [apply (grows_requests (key_of m) id), Hk; done|]. split; [exists []; by rewrite app_nil_r, Est|]. by rewrite Erq. }
  split.
  { destruct (keyed m) eqn:Ek; [|apply (tables_le n); [lia|]; by apply (tables_statics n s)].
    apply (tables_le n); [lia|]. eapply tables_request; [done..|by apply Hk|eauto]. }
  split; [done|]. split.
  { destruct (static_in _ _ _ Hg Hr) as (r' & Hr' & E). exists r'. split; [done|]. cbn [c_mirror].
    rewrite <- (static_source m _ _ (eq_sym E)) || rewrite (static_source m _ _ E). split; [done|]. intros Hm. rewrite Erq, Hm, (static_ID _ _ E), Hid. apply lookup_insert_eq. }
  split; [|intros Hm [? H]; rewrite Hk in H by done; done]. unfold won. cbn [c_mirror c_phase]. rewrite andb_true_r. auto.
Qed.

(** A phase that claims nothing. *)
Ltac same := apply claim_after_same; [done|try done|try (intros Hw; exfalso; by apply won_not in Hw)].

Lemma claim_step_after (Hinj : ∀ i j, newID i = newID j → i = j) n m p s p' s' :
  tables n s → claim_ok s (MkClaim m p) → claim_step (newID n) (uuid n) m p s = (p', s') → claim_after n m p p' s s'.
Proof.
  intros HT Hc. destruct p as [| | |id|id| |r|res]; cbn [claim_step].
  - destruct (negb (valid_claim m)); [intros [= <- <-]; same|].
    destruct (insertForgeMirror _ _ m s) as [[[r|] s1]|e| ] eqn:E; intros [= <- <-]; [by apply insert_step|destruct (keyed m) eqn:Ek; same|same|same].
  - intros [= <- <-]. unfold ForgeMirrorByRequest. destruct (requests s !! key_of m) as [i|] eqn:Er; cbn [mbind option_bind]; [|same].
    destruct (find_row i s) as [r|] eqn:Ef; same. apply (find_row_spec n s _ _ HT) in Ef as [_ <-]. done.
  - intros [= <- <-]. unfold ForgeMirrorByConflictKeys. destruct (List.find (same_request m) _) as [q|] eqn:Eq; cbn [resolve_conflict].
    { apply find_some in Eq as [Hin [Hk E%bool_decide_eq_true]%andb_true_iff].
      assert (keyed q = true) as Hkq by (unfold keyed, key_of in *; by injection E as -> ->).
      same. split; [done|]. cbn [c_mirror]. rewrite <- E. by apply (t_keyed n s HT). }
    destruct (List.find (same_ask m) _) as [q|] eqn:Ea; cbn [resolve_conflict].
    { apply find_some in Ea as [? ?]. assert (conflicts_with m q s) by (split; [by exists q|by left]). by destruct (keyed m) eqn:Ek; same. }
    destruct (List.find (same_source m) _) as [q|] eqn:Es; cbn [fmap option_fmap option_map resolve_conflict]; [|same].
    apply find_some in Es as [? ?]. assert (conflicts_with m q s) by (split; [by exists q|by right]).
    rewrite bool_decide_false by done. case_bool_decide; [same; by exists q|]. by destruct (keyed m) eqn:Ek; same.
  - destruct (remirrorSource id m s) as [[[x b] s1]|e| ] eqn:E; [|intros [= <- <-]; same..].
    destruct b; intros [= <- <-]; [exact (remirror_step n m _ s s1 id x HT Hc E)|]. apply (remirror_spec n) in E as (? & ? & _); [|done]. same.
  - intros [= <- <-]. destruct (find_row id s) as [r|] eqn:E; same. apply (find_row_spec n s _ _ HT) in E as [_ <-]. done.
  - intros [= <- <-]. destruct Hc as (r & Hr & Hs & Hq). destruct (ForgeMirrorByConflictKeys m s) as [[q k]|] eqn:E.
    + apply claim_after_same; [done| |done]. cbn [c_mirror] in *. split; [intros Hk; cbn [c_mirror]; rewrite (Hq Hk); eauto|]. intros Ha.
      destruct (conflict_row n s m r HT Hr Hs Hq Ha) as (q' & k' & E' & Hid). rewrite E in E'. injection E' as <- <-. by rewrite Hid.
    + same.
  - destruct Hc as [Hk Hcw]. intros [= <- <-]. unfold ForgeMirrorByRequest. destruct (requests s !! key_of m) as [i|] eqn:Er; cbn [mbind option_bind]; [|same].
    destruct (find_row i s) as [q|] eqn:Ef; same. apply (find_row_spec n s _ _ HT) in Ef as [_ <-]. done.
  - intros [= <- <-]. by apply claim_after_same.
Qed.

(** * Every event *)

(** An event that is no step of a claim. *)
Definition kept (n n' : nat) (s s' : db) : Prop := tables n' s' ∧ grows s s' ∧ (n ≤ n')%nat.

Lemma mirror_kept_update p f n s : tables n s → (∀ r, static (f r) = static r) → kept n n s (update_rows p f s).
Proof.
  intros HT Hf. split; [|split; [by apply grows_update|lia]]. apply (tables_statics n s); [by apply update_statics|done|done].
Qed.

Lemma mirror_kept_trans n n' n'' a b c : kept n n' a b → kept n' n'' b c → kept n n'' a c.
Proof. intros (H1 & H2 & H3) (H4 & H5 & H6). split; [done|]. split; [by eapply grows_trans|lia]. Qed.

Lemma kept_ask (Hinj : ∀ i j, newID i = newID j → i = j) n k n' u a author ref session s s' :
  tables n s → (n ≤ k < n')%nat → InsertAskForgeMirror (newID k) u a author ref session s = Ok s' → kept n n' s s'.
Proof.
  intros HT Hk. unfold InsertAskForgeMirror. set (row := new_mirror _ _ _).
  destruct (existsb (row_conflicts row) (mirrors s)) eqn:Ec; [by rewrite orb_true_r|].
  destruct (_ || _ || _); [done|]. intros [= <-].
  assert (keyed row = false) as Hkr by (unfold keyed, row; cbn; apply andb_false_r).
  assert (set_mirrors (mirrors s ++ [row]) s = add_row row s) as Ha by (unfold add_row; rewrite Hkr; by destruct s).
  rewrite Ha. split; [|split; [apply grows_add; by rewrite Hkr|lia]]. eapply (tables_add Hinj n n' k); try done. by rewrite Hkr.
Qed.

Lemma kept_asks (Hinj : ∀ i j, newID i = newID j → i = j) author session asks : ∀ n j s s',
  tables (n + j) s →
  insert_asks ((λ i, (newID (n + i), uuid (n + i))) <$> seq j (length asks)) author session asks s = Ok s' →
  kept (n + j) (n + j + length asks) s s'.
Proof.
  cut (∀ n j l s s', tables (n + j) s → (length asks ≤ l)%nat →
    insert_asks ((λ i, (newID (n + i), uuid (n + i))) <$> seq j l) author session asks s = Ok s' → kept (n + j) (n + j + l) s s').
  { intros H n j s s' HT HE. by eapply H. }
  induction asks as [|a asks IH]; intros n j l s s' HT Hl; cbn [insert_asks].
  { intros [= <-]. split; [by apply (tables_le (n + j)); [lia|]|]. split; [apply grows_refl|lia]. }
  cbn [length] in Hl. destruct l as [|l]; [lia|].
  assert (insert_asks ((λ i, (newID (n + i), uuid (n + i))) <$> seq j (S l)) author session asks s = Ok s' → kept (n + j) (n + j + S l) s s') as Hskip
    by (apply IH; [done|lia]).
  destruct (a_coord a) as [[[provider host] repo]|]; [|exact Hskip].
  destruct (MirrorMode provider host repo s) as [[]| | ]; [exact Hskip..| |exact Hskip|exact Hskip].
  cbn [seq fmap list_fmap]. intros (s1 & E1 & E2)%rbind_Ok.
  assert (kept (n + j) (n + S j) s s1) as H1 by (eapply (kept_ask Hinj _ (n + j)); [done|lia|done]).
  assert (kept (n + S j) (n + S j + l) s1 s') as H2 by (apply IH; [apply H1|lia|done]).
  replace (n + j + S l)%nat with (n + S j + l)%nat by lia. by eapply mirror_kept_trans.
Qed.

Record inv (w : world) : Prop := {
  i_tables : tables (w_next w) (w_db w);
  i_claims : Forall (claim_ok (w_db w)) (w_claims w);
  i_once : ∀ i j c d, w_claims w !! i = Some c → w_claims w !! j = Some d → won c = true → won d = true →
    key_of (c_mirror c) = key_of (c_mirror d) → i = j;
}.

Lemma inv_kept w s' n' : inv w → kept (w_next w) n' (w_db w) s' → inv (MkWorld s' (w_claims w) n').
Proof.
  intros [HT HC HO] (H1 & H2 & H3). split; [done| |done]. eapply Forall_impl; [done|]. intros c. by apply claim_ok_grows.
Qed.

Lemma mirror_inv_claim (Hinj : ∀ i j, newID i = newID j → i = j) t w : inv w → inv (step (EStep t) w) ∧ grows (w_db w) (w_db (step (EStep t) w)).
Proof.
  intros [HT HC HO]. cbn [step]. destruct (w_claims w !! t) as [[m p]|] eqn:Et; [|split; [done|apply grows_refl]].
  destruct (claim_step _ _ _ _ _) as [p' s'] eqn:E. cbn [c_mirror c_phase] in *.
  destruct (claim_step_after Hinj _ _ _ _ _ _ HT (Forall_lookup_1 _ _ _ _ HC Et) E) as (H1 & H2 & H3 & H4 & _).
  split; [|done]. split; [done| |].
  - apply Forall_insert; [|done]. eapply Forall_impl; [done|]. intros c. by apply claim_ok_grows.
  - assert (∀ i c, w_claims w !! i = Some c → i ≠ t → won c = true → won (MkClaim m p') = true → key_of (c_mirror c) = key_of m → False) as Hx.
    { intros i c Hi Hne Hwc Hwm Hk. destruct (H4 Hwm) as [Hw|Hnone].
      - apply Hne. by eapply (HO i t c (MkClaim m p)).
      - pose proof (won_reserved _ _ (Forall_lookup_1 _ _ _ _ HC Hi) Hwc) as [x Hs]. rewrite Hk in Hs. congruence. }
    intros i j c d Hi Hj Hwc Hwd Hk. cbn [w_claims] in *.
    apply list_lookup_insert_Some in Hi as [(-> & <- & _)|[Hne Hi]]; apply list_lookup_insert_Some in Hj as [(Ej & Ed & _)|[Hnej Hj]].
    + done.
    + exfalso. by eapply (Hx j d).
    + subst j d. exfalso. by eapply (Hx i c).
    + by eapply HO.
Qed.

Lemma inv_on_ok {A} (r : result mirrorErr A) f w n' :
  inv w → (w_next w ≤ n')%nat → (∀ a, r = Ok a → kept (w_next w) n' (w_db w) (f a)) →
  let w' := on_ok r f (MkWorld (w_db w) (w_claims w) n') in inv w' ∧ grows (w_db w) (w_db w').
Proof.
  intros HI Hn Hf. destruct r as [a|e| ]; cbn [on_ok with_db w_claims w_next w_db].
  2,3: split; [apply inv_kept; [done|]; split; [by eapply tables_le, (i_tables w)|split; [apply grows_refl|done]]|apply grows_refl].
  specialize (Hf a eq_refl). split; [exact (inv_kept w (f a) n' HI Hf)|apply Hf].
Qed.

Lemma mirror_inv_step (Hinj : ∀ i j, newID i = newID j → i = j) e w : inv w → inv (step e w) ∧ grows (w_db w) (w_db (step e w)).
Proof.
  intros HI. destruct e; try by apply mirror_inv_claim.
  - split; [|apply grows_refl]. destruct HI as [HT HC HO]. split; [done|apply Forall_app; by repeat constructor|].
    intros i j c d Hi Hj Hc Hd. cbn [w_claims step] in *. apply snoc_lookup in Hi as [Hi|[-> ->]], Hj as [Hj|[-> ->]]; [by eapply HO| | |done];
      exfalso; [by apply (won_not m Inserting) in Hd|by apply (won_not m Inserting) in Hc].
  - cbn [step]. apply inv_on_ok; [done|lia|]. intros s' E. unfold insertAskMirrors in E.
    assert (kept (w_next w) (w_next w + length asks) (w_db w) (w_db w)) as Hsame
      by (split; [eapply tables_le, (i_tables w HI); lia|split; [apply grows_refl|lia]]).
    destruct (negb _); [by injection E as <-|]. destruct (negb _); [by injection E as <-|].
    pose proof (kept_asks Hinj author session asks (w_next w) 0 (w_db w) s') as H. rewrite Nat.add_0_r in H. apply H; [apply HI|done].
  - assert (kept (w_next w) (w_next w) (w_db w) (bumpAskMirror askID (w_db w))) as H by (by apply mirror_kept_update; [apply HI|]).
    split; [by apply inv_kept|apply H].
  - cbn [step]. destruct w as [s cs n]. apply (inv_on_ok _ _ (MkWorld s cs n)); [done|done|]. intros [o s'] E. unfold LeaseForgeMirror in E.
    destruct (bool_decide _); [done|]. injection E as _ <-. by apply mirror_kept_update; [apply HI|].
  - cbn [step]. destruct w as [s cs n]. apply (inv_on_ok _ _ (MkWorld s cs n)); [done|done|]. intros [o s'] E. unfold RenewForgeMirror in E.
    destruct (bool_decide _); [done|]. injection E as _ <-. by apply mirror_kept_update; [apply HI|].
  - cbn [step]. destruct w as [s cs n]. apply (inv_on_ok _ _ (MkWorld s cs n)); [done|done|]. intros [o s'] E. unfold BeginForgeMirrorAttempt in E.
    destruct (bool_decide _); [done|]. injection E as _ <-. by apply mirror_kept_update; [apply HI|].
  - cbn [step]. destruct w as [s cs n]. apply (inv_on_ok _ _ (MkWorld s cs n)); [done|done|]. intros s' E. unfold MarkForgeMirror in E.
    destruct (bool_decide _); [done|]. destruct (bool_decide _); [done|]. destruct (existsb _ _); [|done]. injection E as <-. by apply mirror_kept_update; [apply HI|].
  - assert (kept (w_next w) (w_next w) (w_db w) (w_db (step (EAccounts accounts0 agents0) w))) as H.
    { split; [|split; [split; [exists []; by rewrite app_nil_r|done]|lia]]. by apply (tables_statics _ (w_db w)); [..|apply HI]. }
    split; [by apply inv_kept|apply H].
  - assert (kept (w_next w) (w_next w) (w_db w) (w_db (step (ESettings m) w))) as H.
    { split; [|split; [split; [exists []; by rewrite app_nil_r|done]|lia]]. by apply (tables_statics _ (w_db w)); [..|apply HI]. }
    split; [by apply inv_kept|apply H].
Qed.

Lemma inv_start : inv start.
Proof. split; [|constructor|done]. split; try done; intros r; [intros H|intros H _]; by apply elem_of_nil in H. Qed.

Lemma inv_history (Hinj : ∀ i j, newID i = newID j → i = j) es w : inv w → inv (history es w) ∧ grows (w_db w) (w_db (history es w)).
Proof.
  revert w. induction es as [|e es IH]; intros w HI; [split; [done|apply grows_refl]|].
  destruct (mirror_inv_step Hinj e w HI) as [H1 H2]. destruct (IH _ H1) as [H3 H4]. split; [done|]. by eapply grows_trans.
Qed.

(** ** Claims end *)

Definition phase_rank (p : claim_phase) : nat :=
  match p with Inserting => 5 | Reserving => 4 | Conflicting => 3 | Remirroring _ => 2 | Reading _ | Reloading | Checking _ => 1 | Claimed _ => 0 end.

Lemma claim_step_rank id u m p s : (phase_rank (claim_step id u m p s).1 ≤ pred (phase_rank p))%nat.
Proof.
  destruct p; cbn [claim_step phase_rank pred]; try done; try (repeat case_match; simplify_eq/=; lia).
  cbn [fst]. unfold resolve_conflict. repeat case_match; simpl; lia.
Qed.

Lemma claim_run_rank f id u m p s : (phase_rank (claim_run f id u m p s).1 ≤ phase_rank p - f)%nat.
Proof.
  revert p s. induction f as [|f IH]; intros p s; cbn [claim_run]; [simpl; lia|].
  pose proof (claim_step_rank id u m p s) as H. destruct (claim_step id u m p s) as [p' s']. cbn [fst] in H. specialize (IH p' s'). lia.
Qed.

Definition outcome (c : claim) : option (ForgeMirrorRow * ClaimResolution) := match c_phase c with Claimed (Ok x) => Some x | _ => None end.

(** ** Answers under a reserved key *)

Lemma reserved_row n s k id : tables n s → requests s !! k = Some id → ∃ r, ForgeMirrorByRequest k s = Some r ∧ ID r = id.
Proof.
  intros HT Hk. destruct (t_request n s HT k id Hk) as (r & Hr & Hid). exists r. split; [|done].
  unfold ForgeMirrorByRequest. rewrite Hk. by apply (find_row_spec n s id r HT).
Qed.

(** A conflict is answered only under a key that nothing has reserved. *)
Lemma conflict_unreserved n id u m p s r s' :
  tables n s → keyed m = true → (∀ x, p ≠ Claimed (Ok x)) →
  claim_step id u m p s = (Claimed (Ok (r, ClaimConflict)), s') → requests s !! key_of m = None.
Proof.
  intros HT Hk Hp. destruct p as [| | |rid|rid| |q|res]; cbn [claim_step].
  - intros E. repeat case_match; simplify_eq/=.
  - intros E. repeat case_match; simplify_eq/=.
  - intros [= E _]. unfold resolve_conflict in E. rewrite Hk in E. repeat case_match; simplify_eq/=.
  - intros E. repeat case_match; simplify_eq/=.
  - intros E. repeat case_match; simplify_eq/=.
  - intros E. repeat case_match; simplify_eq/=.
  - destruct (requests s !! key_of m) as [i|] eqn:Er; [|done].
    destruct (reserved_row n s _ i HT Er) as (r' & -> & _). done.
  - intros [= -> _]. by destruct (Hp (r, ClaimConflict)).
Qed.

(** The first transaction of a claim whose key is reserved inserts nothing. *)
Lemma reserved_insert id u m s k :
  valid_claim m = true → references m s = true → keyed m = true → requests s !! key_of m = Some k →
  claim_step id u m Inserting s = (Reserving, s).
Proof.
  intros Hv Hr Hk Hq. cbn [claim_step]. rewrite Hv. cbn [negb]. unfold insertForgeMirror.
  destruct (existsb _ _); [by rewrite Hk|]. change (references (new_mirror id u m) s) with (references m s). rewrite Hr, Hk. cbn [negb].
  assert (Agent m ∈ agents s) as Ha.
  { unfold references, keyed in *. apply andb_true_iff in Hr as [_ Hr], Hk as [Hk _].
    apply orb_true_iff in Hr as [Hr|Hr]; [by rewrite Hr in Hk|by apply bool_decide_eq_true in Hr]. }
  rewrite bool_decide_eq_true_2 by done. cbn [negb]. unfold RecordForgeMirrorRequest. cbn [requests set_mirrors]. by rewrite Hq.
Qed.

(** An event that is no transaction of claim [t] leaves it where it is. *)
Lemma other_step e w t : e ≠ EStep t → (t < length (w_claims w))%nat → w_claims (step e w) !! t = w_claims w !! t.
Proof.
  intros He Ht. destruct e; cbn [step]; try done; try (unfold on_ok; case_match; done); [by apply lookup_app_l|].
  destruct (w_claims w !! t0) as [c|]; [|done]. destruct (claim_step _ _ _ _ _) as [p s']. cbn [w_claims].
  apply list_lookup_insert_ne. congruence.
Qed.

Definition waits_for (m : ForgeMirrorRow) (id : bytes) (p : claim_phase) : Prop :=
  p = Reserving ∨ ∃ r, p = Claimed (Ok (r, ClaimReserved)) ∧ ID r = id.

Definition answered (m : ForgeMirrorRow) (id : bytes) (p : claim_phase) : Prop :=
  ∃ r, p = Claimed (Ok (r, ClaimReserved)) ∧ ID r = id.

Lemma waiting_step n k u m id p s :
  tables n s → requests s !! key_of m = Some id → waits_for m id p → answered m id (claim_step k u m p s).1.
Proof.
  intros HT Hq [->|(r & -> & Hid)]; cbn [claim_step fst]; [|by exists r].
  destruct (reserved_row n s _ id HT Hq) as (r & -> & Hid). by exists r.
Qed.

Lemma waiting_claim_step w t m id p :
  inv w → requests (w_db w) !! key_of m = Some id → w_claims w !! t = Some (MkClaim m p) → waits_for m id p →
  ∃ p', w_claims (step (EStep t) w) !! t = Some (MkClaim m p') ∧ answered m id p'.
Proof.
  intros HI Hq Ht Hp. cbn [step]. rewrite Ht. cbn [c_mirror c_phase].
  pose proof (waiting_step _ (newID (w_next w)) (uuid (w_next w)) m id p (w_db w) (i_tables w HI) Hq Hp) as H.
  destruct (claim_step _ _ _ _ _) as [p' s']. exists p'. split; [|done]. cbn [w_claims].
  apply list_lookup_insert_eq. by eapply lookup_lt_Some.
Qed.

Lemma waiting_history (Hinj : ∀ i j, newID i = newID j → i = j) es t m id : ∀ w p,
  inv w → requests (w_db w) !! key_of m = Some id → w_claims w !! t = Some (MkClaim m p) → waits_for m id p →
  ∃ p', w_claims (history es w) !! t = Some (MkClaim m p') ∧ waits_for m id p'.
Proof.
  induction es as [|e es IH]; intros w p HI Hq Ht Hp; [by exists p|]. cbn [history foldl].
  destruct (mirror_inv_step Hinj e w HI) as [HI' Hg]. apply Hg in Hq as Hq'.
  assert (e = EStep t ∨ e ≠ EStep t) as [->|He] by (destruct e; try (right; done); destruct (decide (t0 = t)) as [->|]; [by left|right; congruence]).
  - destruct (waiting_claim_step w t m id p HI Hq Ht Hp) as (p' & Ht' & Hp'). eapply IH; [done..|]. by right.
  - eapply IH; [done|done| |exact Hp]. by rewrite other_step by (try done; by eapply lookup_lt_Some).
Qed.

(** C20. A request key is used once: of the claims that race under a key of an agent, in any
    interleaving of their transactions with each other and with asks, leases and marks, at
    most one inserts or re-mirrors a row; every claim of the key that inserts or finds a
    reservation is answered with the one row the key is reserved for, then and ever after,
    and so is one that re-mirrors, unless it also names an ask; a claim of a reserved key
    changes nothing, and when its accounts are there it finds the reserved row with its
    second transaction, whatever happens between the two.  A claim is answered by a
    conflict only at a transaction that finds its key reserved for no row, and with a row
    of its ask or its source.  What identifies a row never changes, and a claim ends after
    at most five transactions. *)
Theorem mirror_key_once (Hinj : ∀ i j, newID i = newID j → i = j) es es' :
  let w := history es start in let w' := history es' w in
  (∀ i j c d r q x y, w_claims w !! i = Some c → w_claims w !! j = Some d →
     keyed (c_mirror c) = true → key_of (c_mirror d) = key_of (c_mirror c) →
     outcome c = Some (r, x) → outcome d = Some (q, y) →
     x = ClaimInserted ∨ x = ClaimRemirrored → y = ClaimInserted ∨ y = ClaimRemirrored → i = j)
  ∧ (∀ i c r x, w_claims w !! i = Some c → keyed (c_mirror c) = true → outcome c = Some (r, x) →
       x = ClaimInserted ∨ x = ClaimReserved ∨ x = ClaimRemirrored ∧ AskID (c_mirror c) = [] →
       requests (w_db w') !! key_of (c_mirror c) = Some (ID r))
  ∧ (∀ t c, w_claims w !! t = Some c → keyed (c_mirror c) = true → is_Some (requests (w_db w) !! key_of (c_mirror c)) →
       w_db (step (EStep t) w) = w_db w)
  ∧ (∀ t m id, w_claims w !! t = Some (MkClaim m Inserting) → valid_claim m = true → references m (w_db w) = true →
       keyed m = true → requests (w_db w) !! key_of m = Some id →
       ∃ r, ID r = id
         ∧ w_claims (step (EStep t) (history es' (step (EStep t) w))) !! t = Some (MkClaim m (Claimed (Ok (r, ClaimReserved)))))
  ∧ (∀ t c c' r, w_claims w !! t = Some c → w_claims (step (EStep t) w) !! t = Some c' → keyed (c_mirror c) = true →
       outcome c = None → outcome c' = Some (r, ClaimConflict) →
       requests (w_db w) !! key_of (c_mirror c) = None ∧ conflicts_with (c_mirror c) r (w_db (step (EStep t) w)))
  ∧ (∀ k r, mirrors (w_db w) !! k = Some r → ∃ r', mirrors (w_db w') !! k = Some r' ∧ static r' = static r)
  ∧ (∀ n id u m p s, (5 ≤ n)%nat → ∃ res, (claim_run n id u m p s).1 = Claimed res).
Proof.
  intros w w'. destruct (inv_history Hinj es start inv_start) as [HI _]. fold w in HI.
  destruct (inv_history Hinj es' w HI) as [_ Hg]. fold w' in Hg.
  assert (∀ c r x, keyed (c_mirror c) = true → outcome c = Some (r, x) → x = ClaimInserted ∨ x = ClaimRemirrored → won c = true) as Hwon.
  { intros [m p] r x Hk Ho Hx. unfold won, outcome in *. cbn [c_mirror c_phase] in *. rewrite Hk. destruct p as [| | | | | | |[[q y]| | ]]; try done.
    injection Ho as -> ->. by destruct Hx as [->| ->]. }
  split; [|split; [|split; [|split; [|split; [|split]]]]].
  - intros i j c d r q x y Hi Hj Hk He Ho Ho' Hx Hy. eapply (i_once w HI); eauto.
    apply (Hwon d q y); [|done..]. unfold keyed, key_of in *. by injection He as -> ->.
  - intros i c r x Hi Hk Ho Hx. apply Hg. pose proof (Forall_lookup_1 _ _ _ _ (i_claims w HI) Hi) as Hc.
    unfold claim_ok, outcome in *. destruct (c_phase c) as [| | | | | | |[[q y]| | ]]; try done. injection Ho as -> ->.
    destruct Hx as [->|[->|[-> Ha]]]; [by apply Hc|apply Hc|by apply Hc].
  - intros t [m p] Ht Hk Hr. cbn [step]. rewrite Ht. cbn [c_mirror c_phase] in *. destruct (claim_step _ _ _ _ _) as [p' s'] eqn:E.
    by destruct (claim_step_after Hinj _ _ _ _ _ _ (i_tables w HI) (Forall_lookup_1 _ _ _ _ (i_claims w HI) Ht) E) as (_ & _ & _ & _ & ->).
  - intros t m id Ht Hv Hr Hk Hq.
    destruct (mirror_inv_step Hinj (EStep t) w HI) as [HI1 Hg1]. apply Hg1 in Hq as Hq1.
    assert (w_claims (step (EStep t) w) !! t = Some (MkClaim m Reserving)) as Ht1.
    { cbn [step]. rewrite Ht. cbn [c_mirror c_phase]. rewrite (reserved_insert _ _ _ _ id) by done. cbn [w_claims].
      apply list_lookup_insert_eq. by eapply lookup_lt_Some. }
    destruct (inv_history Hinj es' _ HI1) as [HI2 Hg2]. apply Hg2 in Hq1 as Hq2.
    destruct (waiting_history Hinj es' t m id _ _ HI1 Hq1 Ht1) as (p & Ht2 & Hp); [by left|].
    destruct (waiting_claim_step _ t m id p HI2 Hq2 Ht2 Hp) as (p' & Ht3 & r & -> & Hid). by exists r.
  - intros t c c' r Ht Ht' Hk Ho Ho'. destruct (mirror_inv_step Hinj (EStep t) w HI) as [HI1 _].
    pose proof (Forall_lookup_1 _ _ _ _ (i_claims _ HI1) Ht') as Hc'.
    cbn [step] in Ht', Hc' |- *. rewrite Ht in Ht', Hc' |- *. destruct c as [m p]. cbn [c_mirror c_phase] in *.
    destruct (claim_step _ _ m p _) as [p' s'] eqn:E. cbn [w_claims w_db] in *.
    rewrite list_lookup_insert_eq in Ht' by (by eapply lookup_lt_Some). injection Ht' as <-.
    assert (p' = Claimed (Ok (r, ClaimConflict))) as ->.
    { unfold outcome in Ho'. cbn [c_phase] in Ho'. destruct p' as [| | | | | | |[[q x]| | ]]; try done. by injection Ho' as -> ->. }
    split; [|exact Hc']. eapply conflict_unreserved; [apply HI|done| |exact E]. intros x ->. unfold outcome in Ho. done.
  - intros k r Hr. destruct Hg as [[l Hl] _].
    assert (statics (w_db w') !! k = Some (static r)) as H.
    { rewrite Hl. apply lookup_app_l_Some. unfold statics. by rewrite list_lookup_fmap, Hr. }
    unfold statics in H. rewrite list_lookup_fmap in H. apply fmap_Some in H as (r' & ? & ?). eauto.
  - intros n id u m p s Hn. pose proof (claim_run_rank n id u m p s) as H.
    destruct (claim_run n id u m p s) as [q s']. cbn [fst] in *. assert (phase_rank p ≤ 5)%nat by (destruct p; simpl; lia).
    destruct q; simpl in H; try lia. eauto.
Qed.

End world.

(** Two racing claims of one key: the first inserts, the second finds the reservation. *)
Definition demo_id (n : nat) : bytes := replicate (S n) "a"%char.
Definition demo_claim : ForgeMirrorRow :=
  MkMirror [] 2 [] (lit "topic") (lit "bot") (lit "bot") (lit "k1") (lit "acme/app#7") 1 0 1 0 0 [] [] [] [] None None [] None None [] (lit "s1") None.
Definition demo_events : list event :=
  [EAccounts {[lit "bot"]} {[lit "bot"]}; EClaim demo_claim; EClaim demo_claim; EStep 1; EStep 0; EStep 0].

Lemma demo_id_inj i j : demo_id i = demo_id j → i = j.
Proof. intros H. apply (f_equal length) in H. unfold demo_id in H. rewrite !length_replicate in H. lia. Qed.

Lemma mirror_key_once_witness :
  (λ c, snd <$> outcome c) <$> w_claims (history demo_id demo_id demo_events start) = [Some ClaimReserved; Some ClaimInserted]
  ∧ requests (w_db (history demo_id demo_id [] (history demo_id demo_id demo_events start))) !! (lit "bot", lit "k1") = Some (demo_id 0).
Proof.
  split; [vm_compute; reflexivity|].
  pose proof (mirror_key_once demo_id demo_id demo_id_inj demo_events []) as (_ & H & _).
  refine (H 1%nat (MkClaim demo_claim (Claimed (Ok (new_mirror (demo_id 0) (demo_id 0) demo_claim, ClaimInserted)))) _ ClaimInserted _ eq_refl eq_refl _).
  - vm_compute. reflexivity.
  - by left.
Defined.

End ForgeMirrorFacts.
