(* ===== verification/MirrorLeases.v ===== *)
(** The leases of the forge mirror outbox and what a done row means, over every history. *)
From stdpp Require Import base gmap list strings.
From Stdlib Require Import Ascii Lia ZArith.
From S2P Require Import Prelude Text ForgeIntents ForgeMirrors ForgeMirrorFacts.

Module MirrorLeases.
Import ForgeMirrors ForgeMirrorFacts.

Open Scope Z_scope.

Section leases.
Context (newID uuid : nat → bytes) (Hinj : ∀ i j, newID i = newID j → i = j).

Notation step := (step newID uuid).
Notation history := (history newID uuid).
Notation inv := (inv newID).

(** The row [id] is leased to [token], until [T] at least. *)
Definition leased (id token : bytes) (T : Z) (s : db) : Prop :=
  ∃ r u, r ∈ mirrors s ∧ ID r = id ∧ LeaseToken r = token ∧ LeaseUntil r = Some u ∧ T ≤ u.

(** An event that does not end that lease: no new lease is asked for after [T], and its
    holder neither marks the row nor cuts the lease short. *)
Definition during (id token : bytes) (T : Z) (e : event) : Prop :=
  match e with
  | ELease now _ _ _ => now ≤ T
  | EMark _ id' token' _ => id' = id → token' ≠ token
  | ERenew now id' token' ttl => id' = id → token' = token → T ≤ now + ttl
  | _ => True
  end.

Lemma in_update (p : ForgeMirrorRow → bool) (f : ForgeMirrorRow → ForgeMirrorRow) s r : r ∈ mirrors s → (if p r then f r else r) ∈ mirrors (update_rows p f s).
Proof. intros Hr. unfold update_rows. cbn [mirrors set_mirrors]. apply list_elem_of_In, in_map_iff. exists r. split; [done|by apply list_elem_of_In]. Qed.

Lemma leased_update id token T p f s :
  leased id token T s →
  (∀ r u, r ∈ mirrors s → ID r = id → LeaseToken r = token → LeaseUntil r = Some u → T ≤ u → p r = true →
     ID (f r) = id ∧ LeaseToken (f r) = token ∧ ∃ u', LeaseUntil (f r) = Some u' ∧ T ≤ u') →
  leased id token T (update_rows p f s).
Proof.
  intros (r & u & Hr & Hid & Ht & Hu & HT) Hf. pose proof (in_update p f s r Hr) as Hin. destruct (p r) eqn:Ep.
  - destruct (Hf r u) as (H1 & H2 & u' & H3 & H4); [done..|]. by exists (f r), u'.
  - by exists r, u.
Qed.

Lemma leased_append id token T l s : leased id token T s → leased id token T (set_mirrors (mirrors s ++ l) s).
Proof. intros (r & u & Hr & H). exists r, u. split; [apply elem_of_app; by left|done]. Qed.

Lemma leased_bump id token T m i s : leased id token T s → leased id token T (BumpForgeMirrorSourceRevision m i s).
Proof. intros H. apply leased_update; [done|]. intros r u _ ? ? ? ? _. split; [done|]. split; [done|]. eauto. Qed.

Lemma leased_claim id token T a u m p s : leased id token T s → leased id token T (claim_step a u m p s).2.
Proof.
  intros H. destruct p; cbn [claim_step snd]; try done.
  - destruct (negb _); [done|]. destruct (insertForgeMirror a u m s) as [[[r|] s']|e| ] eqn:E; try done.
    apply insert_spec in E as (_ & _ & _ & ->). cbn [snd]. by apply (leased_append id token T [r]) in H.
  - unfold remirrorSource. destruct (keyed m); [|by apply leased_bump]. destruct (negb _); [done|].
    unfold RecordForgeMirrorRequest. destruct (requests s !! key_of m); [by destruct (ForgeMirrorByRequest _ _)|].
    cbn [snd]. by apply leased_bump.
Qed.

Lemma leased_asks id token T ids author session asks s s' :
  leased id token T s → insert_asks ids author session asks s = Ok s' → leased id token T s'.
Proof.
  revert ids s. induction asks as [|a asks IH]; intros ids s H; cbn [insert_asks]; [by intros [= <-]|].
  destruct (a_coord a) as [[[provider host] repo]|]; [|by apply IH].
  destruct (MirrorMode _ _ _ _) as [[]| | ]; try by apply IH. destruct ids as [|[i u] ids]; [done|].
  intros (s1 & E1 & E2)%rbind_Ok. apply (IH ids s1); [|done]. unfold InsertAskForgeMirror in E1.
  destruct (_ || _ || _); [done|]. injection E1 as <-. by apply leased_append.
Qed.

Lemma leased_step id token T e w : leased id token T (w_db w) → during id token T e → leased id token T (w_db (step e w)).
Proof.
  intros H He. destruct e; cbn [ForgeMirrorFacts.step during] in *; try done.
  - destruct (w_claims w !! t) as [c|]; [|done].
    pose proof (leased_claim id token T (newID (w_next w)) (uuid (w_next w)) (c_mirror c) (c_phase c) _ H) as H'.
    by destruct (claim_step _ _ _ _ _) as [p s].
  - destruct (insertAskMirrors _ _ _ _ _) as [s'|e| ] eqn:E; try done. cbn [on_ok with_db w_db]. unfold insertAskMirrors in E.
    destruct (negb _); [by injection E as <-|]. destruct (negb _); [by injection E as <-|]. by eapply leased_asks.
  - apply leased_update; [done|]. intros r u _ ? ? ? ? _. split; [done|]. split; [done|]. eauto.
  - unfold LeaseForgeMirror. destruct (bool_decide _); [done|]. cbn [on_ok with_db w_db snd]. apply leased_update; [done|].
    intros r u _ _ _ Hu HT Hl. unfold leasable in Hl. rewrite Hu in Hl. apply andb_true_iff in Hl as [_ Hl%bool_decide_eq_true]. lia.
  - unfold RenewForgeMirror. destruct (bool_decide _); [done|]. cbn [on_ok with_db w_db snd]. apply leased_update; [done|].
    intros r u _ Hid Ht Hu HT Hl. unfold held, holds_lease in Hl. apply andb_true_iff in Hl as [E1%bool_decide_eq_true Hl].
    apply andb_true_iff in Hl as [E2%bool_decide_eq_true _]. split; [done|]. split; [done|]. eexists. split; [done|]. apply He; congruence.
  - unfold BeginForgeMirrorAttempt. destruct (bool_decide _); [done|]. cbn [on_ok with_db w_db snd]. apply leased_update; [done|].
    intros r u _ ? ? ? ? _. split; [done|]. split; [done|]. eauto.
  - unfold MarkForgeMirror. destruct (bool_decide _); [done|]. destruct (bool_decide _); [done|]. destruct (existsb _ _); [|done].
    cbn [on_ok with_db w_db]. apply leased_update; [done|]. intros r u _ Hid Ht Hu HT Hl. exfalso.
    unfold held, holds_lease in Hl. apply andb_true_iff in Hl as [E1%bool_decide_eq_true Hl]. apply andb_true_iff in Hl as [E2%bool_decide_eq_true _].
    apply He; congruence.
Qed.

Lemma leased_history id token T es w : leased id token T (w_db w) → Forall (during id token T) es → leased id token T (w_db (history es w)).
Proof. revert w. induction es as [|e es IH]; intros w H Hes; [done|]. inversion Hes; subst. apply IH; [by apply leased_step|done]. Qed.

(** Which calls find the row. *)
Lemma leased_only n id token T s p :
  tables newID n s → leased id token T s → (∀ r u, ID r = id → LeaseToken r = token → LeaseUntil r = Some u → T ≤ u → p r = false) →
  (∀ r, p r = true → ID r = id) → List.find p (mirrors s) = None.
Proof.
  intros HTb (r & u & Hr & Hid & Ht & Hu & HT) Hp Hpi. destruct (List.find p (mirrors s)) as [q|] eqn:E; [|done].
  apply find_some in E as [Hq Eq]. pose proof (Hpi q Eq) as Hqi. apply list_elem_of_lookup in Hr as [i Hi], Hq as [j Hj].
  assert (i = j) as -> by (eapply (t_ids _ n s HTb); eauto; congruence). rewrite Hi in Hj. injection Hj as <-. by rewrite (Hp r u) in Eq.
Qed.

Lemma find_existsb {A} (p : A → bool) l : List.find p l = None → existsb p l = false.
Proof. induction l as [|x l IH]; [done|]. cbn. by destruct (p x). Qed.

Lemma update_none p f s : List.find p (mirrors s) = None → update_rows p f s = s.
Proof.
  intros H. unfold update_rows. destruct s as [l q st ac ag]. cbn [mirrors] in *. unfold set_mirrors. cbn. f_equal.
  induction l as [|r l IH]; [done|]. cbn in *. destruct (p r) eqn:E; [done|]. by rewrite IH.
Qed.

(** ** Done rows *)

Definition no_done_claim (e : event) : Prop := match e with EClaim m => State m ≠ 2 | _ => True end.

Definition done_posted (r : ForgeMirrorRow) : Prop := State r = 2 → BodyRev r ≤ PostedRev r.

Lemma done_update p f s : Forall done_posted (mirrors s) → (∀ r, done_posted r → done_posted (f r)) → Forall done_posted (mirrors (update_rows p f s)).
Proof.
  intros H Hf. unfold update_rows. cbn [mirrors set_mirrors]. apply Forall_fmap. eapply Forall_impl; [done|]. intros r Hr. cbn. destruct (p r); auto.
Qed.

Lemma done_claim a u m p s : State m ≠ 2 → Forall done_posted (mirrors s) → Forall done_posted (mirrors (claim_step a u m p s).2).
Proof.
  intros Hm H. destruct p; cbn [claim_step snd]; try done.
  - destruct (negb _); [done|]. destruct (insertForgeMirror a u m s) as [[[r|] s']|e| ] eqn:E; try done.
    apply insert_spec in E as (-> & _ & _ & ->). cbn [snd mirrors add_row set_requests set_mirrors]. apply Forall_app. split; [done|].
    constructor; [|constructor]. intros Hs. by cbn in Hs.
  - unfold remirrorSource. destruct (keyed m); [|by apply done_update; [|intros r _ Hs; by cbn in Hs]]. destruct (negb _); [done|].
    unfold RecordForgeMirrorRequest. destruct (requests s !! key_of m); [by destruct (ForgeMirrorByRequest _ _)|].
    cbn [snd]. apply (done_update _ _ (set_requests _ s)); [done|]. intros r _ Hs. by cbn in Hs.
Qed.

Lemma done_asks ids author session asks s s' :
  Forall done_posted (mirrors s) → insert_asks ids author session asks s = Ok s' → Forall done_posted (mirrors s').
Proof.
  revert ids s. induction asks as [|a asks IH]; intros ids s H; cbn [insert_asks]; [by intros [= <-]|].
  destruct (a_coord a) as [[[provider host] repo]|]; [|by apply IH].
  destruct (MirrorMode _ _ _ _) as [[]| | ]; try by apply IH. destruct ids as [|[i u] ids]; [done|].
  intros (s1 & E1 & E2)%rbind_Ok. apply (IH ids s1); [|done]. unfold InsertAskForgeMirror in E1.
  destruct (_ || _ || _); [done|]. injection E1 as <-. cbn [mirrors set_mirrors]. apply Forall_app. split; [done|].
  constructor; [|constructor]. intros Hs. by cbn in Hs.
Qed.

Definition done_inv (w : world) : Prop := Forall done_posted (mirrors (w_db w)) ∧ Forall (λ c, State (c_mirror c) ≠ 2) (w_claims w).

Lemma done_step e w : done_inv w → no_done_claim e → done_inv (step e w).
Proof.
  intros [H Hc] He. destruct e; cbn [ForgeMirrorFacts.step no_done_claim] in *; try done.
  - split; [done|]. apply Forall_app. by repeat constructor.
  - destruct (w_claims w !! t) as [c|] eqn:Et; [|done]. pose proof (Forall_lookup_1 _ _ _ _ Hc Et) as Hm. cbn beta in Hm.
    pose proof (done_claim (newID (w_next w)) (uuid (w_next w)) (c_mirror c) (c_phase c) _ Hm H) as H'.
    destruct (claim_step _ _ _ _ _) as [p s]. split; [done|]. by apply Forall_insert.
  - destruct (insertAskMirrors _ _ _ _ _) as [s'|e| ] eqn:E; [|done..]. split; [|done]. unfold insertAskMirrors in E. cbn [on_ok with_db w_db].
    destruct (negb _); [by injection E as <-|]. destruct (negb _); [by injection E as <-|]. by eapply done_asks.
  - split; [|done]. apply done_update; [done|]. intros r _ Hs. by cbn in Hs.
  - unfold LeaseForgeMirror. destruct (bool_decide _); [done|]. split; [|done]. apply done_update; [done|]. done.
  - unfold RenewForgeMirror. destruct (bool_decide _); [done|]. split; [|done]. apply done_update; [done|]. done.
  - unfold BeginForgeMirrorAttempt. destruct (bool_decide _); [done|]. split; [|done]. apply done_update; [done|]. done.
  - unfold MarkForgeMirror. destruct (bool_decide _); [done|]. destruct (bool_decide _); [done|]. destruct (existsb _ _); [|done].
    split; [|done]. apply done_update; [done|]. intros r _ Hs. cbn in *. case_bool_decide as Eb; [done|]. 
    apply Decidable.not_and in Eb as [Eb|Eb]; [done|lia|]. unfold Decidable.decidable. destruct (decide (mk_State k = 2)); auto.
Qed.

Lemma done_history es w : done_inv w → Forall no_done_claim es → done_inv (history es w).
Proof. revert w. induction es as [|e es IH]; intros w H Hes; [done|]. inversion Hes; subst. apply IH; [by apply done_step|done]. Qed.

(** C34. A lease excludes: while a row is leased to a token, whatever else happens, no other
    lease of it is given, no other token begins an attempt or marks it, and the holder's
    mark goes through; a mark ends the lease.  A row is done only where the revision it
    was marked with is its newest. *)
Theorem mirror_lease_exclusive es es' id token T :
  Forall no_done_claim (es ++ es') → id ≠ [] → token ≠ [] →
  let w := history es start in let w' := history es' w in
  leased id token T (w_db w) → Forall (during id token T) es' →
  (∀ now other ttl, now ≤ T → other ≠ [] → 0 < ttl → LeaseForgeMirror now id other ttl (w_db w') = Ok (None, w_db w'))
  ∧ (∀ now other, other ≠ [] → other ≠ token → BeginForgeMirrorAttempt now id other (w_db w') = Ok (None, w_db w'))
  ∧ (∀ now other k, other ≠ [] → other ≠ token → 1 ≤ mk_State k ≤ 3 → mk_CommentID k ≤ MaxInt64 →
       MarkForgeMirror now id other k (w_db w') = Err ErrLeaseLost)
  ∧ (∀ now k, now < T → 1 ≤ mk_State k ≤ 3 → mk_CommentID k ≤ MaxInt64 →
       ∃ s r, MarkForgeMirror now id token k (w_db w') = Ok s ∧ r ∈ mirrors s ∧ ID r = id ∧ LeaseUntil r = None
         ∧ PostedRev r = mk_PostedRev k ∧ LastError r = Err_ k)
  ∧ (∀ r, r ∈ mirrors (w_db w') → State r = 2 → BodyRev r ≤ PostedRev r).
Proof.
  intros Hnd Hid Htok w w' HL Hd. apply Forall_app in Hnd as [Hn1 Hn2].
  destruct (inv_history newID uuid Hinj es start (inv_start newID)) as [HI0 _]. fold w in HI0.
  destruct (inv_history newID uuid Hinj es' w HI0) as [HI _]. fold w' in HI.
  pose proof (leased_history id token T es' w HL Hd) as HL'. fold w' in HL'.
  pose proof (done_history es' w (done_history es start (conj (Forall_nil_2 _) (Forall_nil_2 _)) Hn1) Hn2) as [HD _]. fold w' in HD.
  assert (∀ now other, other ≠ token → List.find (held now id other) (mirrors (w_db w')) = None) as Hheld.
  { intros now other Ho. eapply leased_only; [apply HI|done| |].
    - intros r u _ Ht _ _. unfold held, holds_lease. rewrite Ht, (bool_decide_false (token = other)) by done. by rewrite andb_false_r.
    - by intros r [H%bool_decide_eq_true _]%andb_true_iff. }
  split; [|split; [|split; [|split]]].
  - intros now other ttl Hnow Ho Httl. unfold LeaseForgeMirror. rewrite bool_decide_false by naive_solver lia.
    assert (List.find (leasable now id) (mirrors (w_db w')) = None) as Hf.
    { eapply leased_only; [apply HI|done| |].
      - intros r u _ _ Hu HT. unfold leasable. rewrite Hu, (bool_decide_false (u < now)) by lia. by rewrite andb_false_r.
      - intros r [H _]%andb_true_iff. by apply andb_true_iff in H as [H%bool_decide_eq_true _]. }
    by rewrite Hf, update_none.
  - intros now other Ho Hne. unfold BeginForgeMirrorAttempt. rewrite bool_decide_false by naive_solver. by rewrite (Hheld now other Hne), update_none by auto.
  - intros now other k Ho Hne Hs Hc. unfold MarkForgeMirror. rewrite !bool_decide_false by naive_solver lia. by rewrite (find_existsb _ _ (Hheld now other Hne)).
  - intros now k Hnow Hs Hc. destruct HL' as (r & u & Hr & Hi & Ht & Hu & HT). unfold MarkForgeMirror. rewrite !bool_decide_false by naive_solver lia.
    assert (held now id token r = true) as Hh by (unfold held, holds_lease; rewrite Hu, !bool_decide_true by (done || lia); done).
    assert (existsb (held now id token) (mirrors (w_db w')) = true) as -> by (apply existsb_exists; exists r; split; [by apply list_elem_of_In|done]).
    eexists _, (apply_mark now k r). split; [done|]. pose proof (in_update (held now id token) (apply_mark now k) (w_db w') r Hr) as Hin. by rewrite Hh in Hin.
  - intros r Hr. by apply (proj1 (Forall_forall _ _) HD r Hr).
Qed.

End leases.

Lemma mirror_lease_exclusive_witness :
  let w := history demo_id demo_id (demo_events ++ [ELease 5 (demo_id 0) (lit "t1") 10]) start in
  LeaseForgeMirror 9 (demo_id 0) (lit "t2") 10 (w_db (history demo_id demo_id [EBegin 6 (demo_id 0) (lit "t1")] w))
  = Ok (None, w_db (history demo_id demo_id [EBegin 6 (demo_id 0) (lit "t1")] w)).
Proof.
  intros w. apply (mirror_lease_exclusive demo_id demo_id demo_id_inj (demo_events ++ [ELease 5 (demo_id 0) (lit "t1") 10])
    [EBegin 6 (demo_id 0) (lit "t1")] (demo_id 0) (lit "t1") 15).
  - repeat constructor; discriminate.
  - discriminate.
  - discriminate.
  - eexists _, 15. split; [vm_compute; left|]. split; [reflexivity|]. split; [reflexivity|]. split; [reflexivity|lia].
  - repeat constructor.
  - lia.
  - discriminate.
  - lia.
Defined.

End MirrorLeases.
