(* ===== verification/MirrorDrive.v ===== *)
(** The delivery of forge mirrors ([src/go/internal/mirror/drive.go]): the program that
    renders, posts, recovers and rechecks the comment of a leased row.

    A program is a tree of calls whose answers come from outside: the store under the lease,
    the poster, the clock, and the flag by which the renewal of the lease says that it was
    lost or the work cancelled.  [Ret Panic] is a run-time panic. *)
From stdpp Require Import base gmap list strings sorting.
From Stdlib Require Import Ascii Lia ZArith.
From S2P Require Import Prelude Text Refs Blocks MirrorRender ForgeIntents ForgeMirrors.

Module MirrorDrive.
Import MirrorRender ForgeMirrors.

Open Scope Z_scope.

(** An error: its text, the code it names, whether it is a refusal or a body too large. *)
Record error := MkErr { e_text : bytes; e_code : option bytes; refused : bool; too_large : bool }.

Definition plain (text : bytes) : error := MkErr text None false false.
(** [fmt.Errorf] with [%w]. *)
Definition wrap (prefix : bytes) (e : error) : error := MkErr (prefix ++ lit ": " ++ e_text e) (e_code e) (refused e) (too_large e).
Definition join_text (a b : bytes) : bytes := a ++ nl ++ b.
(** [errors.Join]; a nil error is left out. *)
Definition errors_Join (a : error) (b : option error) : error :=
  match b with
  | None => a
  | Some b => MkErr (join_text (e_text a) (e_text b)) (match e_code a with Some c => Some c | None => e_code b end) (refused a || refused b) (too_large a || too_large b)
  end.
Definition ErrRefused : error := MkErr (lit "mirror: post refused") None true false.
Definition context_Canceled : error := plain (lit "context canceled").

Definition FailureCode (e : error) : bytes :=
  match e_code e with Some c => c | None => if too_large e then lit "invalid_argument" else lit "internal" end.

Record Comment := MkComment { cm_ID : Z; Key : bytes; cm_URL : bytes; Body : bytes }.

(** What [AskForForgeMirror] and the link function answer: the ask of the message if it has
    one, who answered it, and the link. *)
Record ask_answer := MkAskAnswer { aa_ask : option Blocks.Ask; aa_answeredBy : bytes; aa_link : Link }.

Definition second : Z := 1000000.
Definition leaseTTL : Z := 120 * second.
Definition commentWait : Z := 120 * second.
Definition pendingState : Z := 1.
Definition doneState : Z := 2.
Definition failedState : Z := 3.
Definition maxAttempts : nat := 3.
Definition retryBackoff : list Z := [second; 4 * second; 16 * second].

Inductive call : Type → Type :=
| LostOrCanceled : call bool
| Now : call Z
| Sleep (d : Z) : call (option error)
| Canceled : call (option error)                                   (* [ctx.Err()] *)
| NewToken : call (result error bytes)
| Lease (token : bytes) : call (result error (option ForgeMirrorRow))
| ReadRow : call (result error ForgeMirrorRow)
| BeginAttempt (token : bytes) : call (result error (option ForgeMirrorRow))
| Mark (token : bytes) (k : ForgeMirrorMark) : call (option error)
| AskFor (actor askID : bytes) : call (result error ask_answer)
| BodyFn (limit : Z) : call (result error bytes)
| PostMirror (actor session : bytes) (need : ForgeMirrorMode) (commentKey clientID body : bytes) : call (result error Comment)
| ListMirrorComments (actor : bytes) (since : option Z) : call (result error (list Comment))
| DeleteMirrorComment (actor key : bytes) : call (option error).

Inductive prog (A : Type) : Type :=
| Ret (a : A)
| Vis (X : Type) (c : call X) (k : X → prog A).
Arguments Ret {A} a.
Arguments Vis {A X} c k.

Fixpoint bind {A B} (p : prog A) (f : A → prog B) : prog B :=
  match p with Ret a => f a | Vis c k => Vis c (λ x, bind (k x) f) end.

Notation "x <-- p ; q" := (bind p (λ x, q)) (at level 100, p at next level, q at level 200, right associativity).

Definition do_ {X} (c : call X) : prog X := Vis c Ret.

(** ** Marks *)

Definition delivered (id : Z) (key url : bytes) (recheck : bool) (renderedRev : Z) : ForgeMirrorMark :=
  MkMark renderedRev doneState id key url [] [] recheck false.

Definition failed (row : ForgeMirrorRow) (cause : error) : ForgeMirrorMark :=
  MkMark (PostedRev row) failedState 0 [] [] (e_text cause) (FailureCode cause) false false.

Definition markDelivered (token : bytes) (id : Z) (key url : bytes) (recheck : bool) (renderedRev : Z) : prog (option error) :=
  r <-- do_ (Mark token (delivered id key url recheck renderedRev)); Ret (wrap (lit "mirror: mark delivered") <$> r).

Definition markFailed (row : ForgeMirrorRow) (token : bytes) (cause : error) : prog (option error) :=
  r <-- do_ (Mark token (failed row cause)); Ret (wrap (lit "mirror: mark failed") <$> r).

(** ** Comments *)

(** [less] of [oldestComments].  Where it is a strict total order on the comments, as with
    distinct forge ids, every sort gives this order. *)
Definition older (a b : Comment) : bool :=
  if negb (bool_decide (cm_ID a = 0)) && negb (bool_decide (cm_ID b = 0)) then bool_decide (cm_ID a < cm_ID b)
  else bytes_leb (Key a) (Key b) && negb (bytes_leb (Key b) (Key a)).

Definition not_newer (a b : Comment) : Prop := older b a = false.

#[export] Instance not_newer_dec a b : Decision (not_newer a b).
Proof. unfold not_newer. apply _. Defined.

Definition oldestComments (comments : list Comment) : list Comment := merge_sort not_newer comments.

Definition marked_of (row : ForgeMirrorRow) (comments : list Comment) : list Comment :=
  filter (λ c, HasMarker (Body c) (ID row) = true) comments.

Definition since_of (row : ForgeMirrorRow) : option Z := (λ t, t - 60 * second) <$> FirstAttemptAt row.

(** The deletion of the newer comments: [inl None] where the lease was lost. *)
Fixpoint delete_newer (row : ForgeMirrorRow) (dups : list Comment) : prog (option (option error)) :=
  match dups with
  | [] => Ret None
  | c :: dups =>
      lost <-- do_ LostOrCanceled;
      if (lost : bool) then Ret (Some None)
      else
        e <-- do_ (DeleteMirrorComment (Actor row) (Key c));
        match e with
        | Some e => Ret (Some (Some (wrap (lit "mirror: delete duplicate comment") e)))
        | None => delete_newer row dups
        end
  end.

Definition recoverComment (row : ForgeMirrorRow) : prog (result error (option Comment)) :=
  let lastAttempt := match LastAttemptAt row with Some t => Some t | None => FirstAttemptAt row end in
  slept <-- match lastAttempt with
            | Some t => now <-- do_ Now; if bool_decide (0 < t + commentWait - now) then do_ (Sleep (t + commentWait - now)) else Ret None
            | None => Ret None
            end;
  match (slept : option error) with
  | Some e => Ret (Err e)
  | None =>
      lost <-- do_ LostOrCanceled;
      if (lost : bool) then Ret (Err context_Canceled)
      else
        comments <-- do_ (ListMirrorComments (Actor row) (since_of row));
        match comments with
        | Err e => Ret (Err (wrap (lit "mirror: list comments for recovery") e))
        | Panic => Ret Panic
        | Ok comments =>
            match oldestComments (marked_of row comments) with
            | [] => Ret (Ok None)
            | oldest :: dups =>
                stop <-- delete_newer row dups;
                match stop with
                | Some (Some e) => Ret (Err e)
                | Some None => Ret (Err context_Canceled)
                | None => Ret (Ok (Some oldest))
                end
            end
        end
  end.

(** [marked[1:]] panics on the empty slice. *)
Definition recheckComments (row : ForgeMirrorRow) (token : bytes) : prog (result error unit) :=
  match Refs.Parse (TargetRef row) with
  | None =>
      r <-- markFailed row token (plain (lit "mirror: parse target ref")); Ret (match r with Some e => Err e | None => Ok tt end)
  | Some _ =>
      lost <-- do_ LostOrCanceled;
      if (lost : bool) then Ret (Ok tt)
      else
        comments <-- do_ (ListMirrorComments (Actor row) (since_of row));
        match comments with
        | Err e => Ret (Err (wrap (lit "mirror: list comments for recheck") e))
        | Panic => Ret Panic
        | Ok comments =>
            match oldestComments (marked_of row comments) with
            | [] => Ret Panic
            | oldest :: dups =>
                stop <-- delete_newer row dups;
                match stop with
                | Some (Some e) => Ret (Err e)
                | Some None => Ret (Ok tt)
                | None =>
                    let moved := negb (bool_decide (Key oldest = CommentKey row)) in
                    r <-- do_ (Mark token (MkMark (if moved then 0 else PostedRev row) (if moved then pendingState else doneState)
                             (cm_ID oldest) (Key oldest) (cm_URL oldest) [] [] false true));
                    Ret (match r with Some e => Err (wrap (lit "mirror: clear recheck state") e) | None => Ok tt end)
                end
            end
        end
  end.

(** ** Bodies *)

Definition renderBody (bodyLimit : Z) (hasBodyFn : bool) (row : ForgeMirrorRow) : prog (result error bytes) :=
  match text_limit bodyLimit (ID row) with
  | None => Ret (Err (plain (lit "mirror: provider body limit cannot fit row marker")))
  | Some limit =>
      if bool_decide (Source row = 2) then
        if negb hasBodyFn then Ret (Err (plain (lit "mirror: source-2 body supplier is required")))
        else
          body <-- do_ (BodyFn limit);
          Ret (match body with
               | Err e => Err (wrap (lit "mirror: render source-2 row") e)
               | Panic => Panic
               | Ok body => Ok (WithMarker (if bool_decide (0 < bodyLimit) then truncateUTF8 body limit else body) (ID row))
               end)
      else if negb (bool_decide (Source row = 1)) then Ret (Err (plain (lit "mirror: unsupported source")))
      else
        a <-- do_ (AskFor (Actor row) (AskID row));
        Ret (match a with
             | Err e => Err e
             | Panic => Panic
             | Ok a =>
                 match aa_ask a with
                 | None => Err (plain (lit "mirror: ask row contains no ask block"))
                 | Some ask => Ok (WithMarker (renderAskWithinLimit ask (aa_answeredBy a) (aa_link a) limit) (ID row))
                 end
             end)
  end.

(** ** Delivery *)

Record deliveryState := MkDelivery { d_row : ForgeMirrorRow; isGitHub : bool; uncertain : bool; lastErr : option error }.

Definition set_uncertain (b : bool) (st : deliveryState) : deliveryState := MkDelivery (d_row st) (isGitHub st) b (lastErr st).

(** [recoverPriorComment]: the adopted comment, if one was. *)
Definition recoverPriorComment (row : ForgeMirrorRow) (isGitHub : bool) : prog (result error (option Comment)) :=
  if negb (bool_decide (CommentKey row = [])) || negb isGitHub || bool_decide (FirstAttemptAt row = None) then Ret (Ok None)
  else recoverComment row.

(** The result: whether to retry, the error, and the state; [Panic] where a call panicked. *)
Notation attempt_result := (bool * option error * deliveryState)%type.

(** The post of an attempt. *)
Definition post (token : bytes) (need : ForgeMirrorMode) (body commentKey : bytes) (renderedRev : Z) (st : deliveryState) : prog (result error attempt_result) :=
  lost <-- do_ LostOrCanceled;
  if (lost : bool) then Ret (Ok (false, None, st))
  else
    let row := d_row st in
    r <-- do_ (PostMirror (Actor row) (SessionID row) need commentKey (ClientCommentID row) body);
    match r with
    | Panic => Ret Panic
    | Ok comment =>
        e <-- markDelivered token (cm_ID comment) (Key comment) (cm_URL comment) (uncertain st) renderedRev; Ret (Ok (false, e, st))
    | Err e =>
        if refused e then
          m <-- markFailed row token e; Ret (Ok (false, Some (errors_Join ErrRefused m), st))
        else Ret (Ok (true, Some e, if isGitHub st then set_uncertain true st else st))
    end.

Definition deliverAttempt (token : bytes) (need : ForgeMirrorMode) (body : bytes) (renderedRev : Z) (st : deliveryState) : prog (result error attempt_result) :=
  prior <-- recoverPriorComment (d_row st) (isGitHub st);
  match prior with
  | Panic => Ret Panic
  | Err e => Ret (Ok (true, Some e, st))
  | Ok adopted =>
      let commentKey := match adopted with Some c => Key c | None => CommentKey (d_row st) end in
      let st := match adopted with Some _ => set_uncertain true st | None => st end in
      if bool_decide (commentKey = []) then
        let priorAttempt := bool_decide (FirstAttemptAt (d_row st) ≠ None) in
        r <-- do_ (BeginAttempt token);
        match r with
        | Panic => Ret Panic
        | Err e => Ret (Ok (true, Some e, st))
        | Ok None => Ret (Ok (false, None, st))
        | Ok (Some updated) =>
            post token need body commentKey renderedRev (MkDelivery updated (isGitHub st) (uncertain st || isGitHub st && priorAttempt) (lastErr st))
        end
      else post token need body commentKey renderedRev st
  end.

(** The attempts left, by the waits between them. *)
Fixpoint attempts (waits : list Z) (token : bytes) (need : ForgeMirrorMode) (body : bytes) (renderedRev : Z) (st : deliveryState) : prog (result error unit) :=
  lost <-- do_ LostOrCanceled;
  if (lost : bool) then Ret (Ok tt)
  else
    r <-- deliverAttempt token need body renderedRev st;
    match r with
    | Panic => Ret Panic
    | Err e => Ret (Err e)
    | Ok (retry, e, st) =>
        let st := match e with Some _ => MkDelivery (d_row st) (isGitHub st) (uncertain st) e | None => st end in
        if negb retry then Ret (match e with Some e => Err e | None => Ok tt end)
        else
          match waits with
          | wait :: waits =>
              s <-- do_ (Sleep wait);
              match (s : option error) with Some e => Ret (Err e) | None => attempts waits token need body renderedRev st end
          | [] =>
              match lastErr st with
              | Some e => m <-- markFailed (d_row st) token e; Ret (match m with Some e => Err e | None => Ok tt end)
              | None => Ret (Ok tt)
              end
          end
    end.

Definition deliverRow (row : ForgeMirrorRow) (token : bytes) (github : bool) (need : ForgeMirrorMode) (body : bytes) (renderedRev : Z) : prog (result error unit) :=
  if negb (bool_decide (CommentKey row = [])) && bool_decide (PostedRev row = BodyRev row) then
    e <-- markDelivered token (CommentID row) (CommentKey row) (CommentURL row) false renderedRev;
    Ret (match e with Some e => Err e | None => Ok tt end)
  else
    attempts (take (maxAttempts - 1) retryBackoff) token need body renderedRev
      (MkDelivery row github (github && bool_decide (CommentKey row = []) && bool_decide (FirstAttemptAt row ≠ None)) None).

(** [limit] is [BodyLimit] of the poster. *)
Definition processLeasedRow (limit : Refs.Ref → Z) (hasBodyFn : bool) (row : ForgeMirrorRow) (token : bytes) : prog (result error unit) :=
  if bool_decide (State row = doneState) then
    match RecheckAt row with
    | Some _ => r <-- recheckComments row token; Ret (match r with Err e => Err (wrap (lit "mirror: recheck row") e) | r => r end)
    | None => Ret (Ok tt)
    end
  else
    match Refs.Parse (TargetRef row) with
    | None =>
        let cause := plain (lit "mirror: parse target ref") in
        m <-- markFailed row token cause; Ret (Err (errors_Join cause (wrap (lit "mirror: mark invalid target failed") <$> m)))
    | Some ref =>
        body <-- renderBody (limit ref) hasBodyFn row;
        match body with
        | Panic => Ret Panic
        | Err e => m <-- markFailed row token e; Ret (Err (errors_Join e (wrap (lit "mirror: mark render failure") <$> m)))
        | Ok body =>
            let need := if bool_decide (Agent row = []) then ForgeMirrorManual else ForgeMirrorAuto in
            let github := match Refs.kind ref with Refs.KindForge => true | Refs.KindTracker => false end in
            r <-- deliverRow row token github need body (BodyRev row);
            Ret (match r with Err e => Err (wrap (lit "mirror: deliver row") e) | r => r end)
        end
    end.

(** [DriveOne], with fuel for its loop: [None] where it ran out. *)
Fixpoint DriveOne (fuel : nat) (limit : Refs.Ref → Z) (hasBodyFn : bool) : prog (option (result error ForgeMirrorRow * option error)) :=
  match fuel with
  | O => Ret None
  | S fuel =>
      c <-- do_ Canceled;
      match (c : option error) with
      | Some e => Ret (Some (Err e, Some e))
      | None =>
          token <-- do_ NewToken;
          match token with
          | Panic => Ret (Some (Panic, None))
          | Err e => Ret (Some (Err e, Some (wrap (lit "mirror: create lease token") e)))
          | Ok token =>
              l <-- do_ (Lease token);
              match l with
              | Panic => Ret (Some (Panic, None))
              | Err e => Ret (Some (Err e, Some (wrap (lit "mirror: lease row") e)))
              | Ok None => r <-- do_ ReadRow; Ret (Some (r, match r with Err e => Some e | _ => None end))
              | Ok (Some row) =>
                  p <-- processLeasedRow limit hasBodyFn row token;
                  match p with
                  | Panic => Ret (Some (Panic, None))
                  | _ =>
                      let processErr := match p with Err e => Some e | _ => None end in
                      f <-- do_ ReadRow;
                      match f with
                      | Panic => Ret (Some (Panic, None))
                      | Err e => Ret (Some (Err e, Some (match processErr with Some p => errors_Join p (Some e) | None => e end)))
                      | Ok final =>
                          let repointed := bool_decide (State final = pendingState ∧ CommentKey final ≠ CommentKey row) in
                          let stale := bool_decide (BodyRev final ≤ BodyRev row) in
                          let refusedNow := match processErr with Some e => refused e | None => false end && stale in
                          if refusedNow || stale && negb repointed then Ret (Some (Ok final, processErr))
                          else DriveOne fuel limit hasBodyFn
                      end
                  end
              end
          end
      end
  end.

End MirrorDrive.
