(* ===== verification/MirrorDriveFacts.v ===== *)
(** What the delivery of a forge mirror does, whatever the forge, the store and the clock
    answer: a protocol of its calls, the recheck, and the size of a body. *)
From stdpp Require Import base gmap list strings sorting.
From Stdlib Require Import Ascii Lia ZArith.
From S2P Require Import Prelude Text Refs Blocks ForgeMarker MirrorRender MirrorMarks ForgeIntents ForgeMirrors ForgeMirrorFacts MirrorDrive.

Module MirrorDriveFacts.
Import MirrorRender ForgeMirrors MirrorDrive.

Open Scope Z_scope.

Inductive event : Type :=
| Ev (X : Type) (c : call X) (x : X).
Arguments Ev {X} c x.

Section facts.
Context (row : ForgeMirrorRow) (token : bytes).

(** What the answers satisfy: an attempt begun under the lease answers the leased row with
    an attempt recorded, a comment of the forge has a key, and no call panics. *)
Definition valid {X} (c : call X) : X → Prop :=
  match c in call X return X → Prop with
  | BeginAttempt _ => λ r, match r with
      | Ok (Some r) => ForgeMirrorFacts.static r = ForgeMirrorFacts.static row ∧ CommentKey r = CommentKey row
                       ∧ PostedRev r = PostedRev row ∧ FirstAttemptAt r ≠ None
      | Panic => False | _ => True end
  | ListMirrorComments _ _ => λ r, match r with Ok cs => Forall (λ c, Key c ≠ []) cs | Panic => False | _ => True end
  | PostMirror _ _ _ _ _ _ => λ r, r ≠ Panic
  | AskFor _ _ => λ r, r ≠ Panic
  | BodyFn _ => λ r, r ≠ Panic
  | _ => λ _, True
  end.

(** [runs p tr a]: [p] can make the calls of [tr], get its answers and return [a]. *)
Fixpoint runs {A} (p : prog A) (tr : list event) (a : A) : Prop :=
  match p with
  | Ret b => tr = [] ∧ a = b
  | @Vis _ X c k => ∃ (x : X) tr', tr = Ev c x :: tr' ∧ valid c x ∧ runs (k x) tr' a
  end.

(** ** The protocol of a delivery *)

Section delivery.
Context (github : bool) (need : ForgeMirrorMode) (body : bytes) (rev : Z).

(** After a post that went through the row must be marked delivered with its comment, after
    a refusal it must be marked failed; [Closed]: it has been marked. *)
Inductive phase := Open | Posted (c : Comment) | Stopped (e : error) | Closed.

(** The posts made, whether one may have made a comment, whether an attempt is recorded for
    the next, and the comments with the row's marker that the last listing since gave. *)
Record monitor := MkMonitor { posts : nat; tried : bool; begun : bool; scan : option (list Comment); at_phase : phase }.

Definition set_phase (p : phase) (m : monitor) : monitor := MkMonitor (posts m) (tried m) (begun m) (scan m) p.

(** Whether the outcome of an earlier create is unknown when a post is made. *)
Definition doubtful (earlier : nat) : bool :=
  github && (bool_decide (CommentKey row = []) && bool_decide (FirstAttemptAt row ≠ None) || (0 <? earlier)%nat).

Definition is_open (m : monitor) : Prop := at_phase m = Open.

(** The calls that are allowed. *)
Definition may (m : monitor) {X} (c : call X) : Prop :=
  match c with
  | PostMirror actor session nd key clientID b =>
      is_open m ∧ (posts m < maxAttempts)%nat ∧ b = body ∧ nd = need ∧ actor = Actor row
      ∧ (if bool_decide (key = [])
         then begun m = true ∧ (github = true → tried m = true → scan m = Some [])
         else key = CommentKey row ∨ ∃ cs oldest, scan m = Some cs ∧ head (oldestComments cs) = Some oldest ∧ Key oldest = key)
  | DeleteMirrorComment actor key =>
      is_open m ∧ ∃ cs c, scan m = Some cs ∧ c ∈ tail (oldestComments cs) ∧ Key c = key
  | Mark tok k =>
      tok = token ∧
      match at_phase m with
      | Posted c => k = delivered (cm_ID c) (Key c) (cm_URL c) (doubtful (pred (posts m))) rev
      | Stopped e => k = failed row e
      | Open => ∃ e, k = failed row e
      | Closed => False
      end
  | LostOrCanceled | Now | Sleep _ | BeginAttempt _ | ListMirrorComments _ _ => is_open m
  | _ => False
  end.

Definition next (m : monitor) {X} (c : call X) : X → monitor :=
  match c in call X return X → monitor with
  | PostMirror _ _ _ key _ _ => λ r,
      MkMonitor (S (posts m)) (tried m || bool_decide (key = [])) (if bool_decide (key = []) then false else begun m) None
        (match r with Ok c => Posted c | Err e => if refused e then Stopped e else Open | Panic => Closed end)
  | BeginAttempt _ => λ r, match r with Ok (Some _) => MkMonitor (posts m) (tried m) true (scan m) (at_phase m) | _ => m end
  | ListMirrorComments _ _ => λ r,
      MkMonitor (posts m) (tried m) (begun m) (match r with Ok cs => Some (marked_of row cs) | _ => None end) (at_phase m)
  | Mark _ _ => λ _, set_phase Closed m
  | _ => λ _, m
  end.

(** A trace the protocol accepts, and where it leads. *)
Fixpoint follows (m : monitor) (tr : list event) (m' : monitor) : Prop :=
  match tr with
  | [] => m' = m
  | @Ev X c x :: tr => may m c ∧ follows (next m c x) tr m'
  end.

(** A program that keeps to the protocol under every valid answer, with a postcondition. *)
Fixpoint safe {A} (p : prog A) (m : monitor) (Q : A → monitor → Prop) : Prop :=
  match p with
  | Ret a => Q a m
  | @Vis _ X c k => may m c ∧ ∀ x, valid c x → safe (k x) (next m c x) Q
  end.

Lemma safe_follows {A} (p : prog A) m Q tr a : safe p m Q → runs p tr a → ∃ m', follows m tr m' ∧ Q a m'.
Proof.
  revert m tr. induction p as [b|X c k IH]; intros m tr; cbn [safe runs].
  - intros HQ [-> ->]. by exists m.
  - intros [Hm Hk] (x & tr' & -> & Hv & Hr). destruct (IH x _ _ (Hk x Hv) Hr) as (m' & Hf & HQ). by exists m'.
Qed.

Lemma safe_mono {A} (p : prog A) m (Q Q' : A → monitor → Prop) : (∀ a m, Q a m → Q' a m) → safe p m Q → safe p m Q'.
Proof. intros HQ. revert m. induction p as [a|X c k IH]; intros m; cbn [safe]; [apply HQ|]. intros [Hm Hk]. split; [done|]. intros x Hx. by apply IH, Hk. Qed.

Lemma safe_bind {A B} (p : prog A) (f : A → prog B) m Q : safe p m (λ a m', safe (f a) m' Q) → safe (bind p f) m Q.
Proof. revert m. induction p as [a|X c k IH]; intros m; cbn [safe bind]; [done|]. intros [Hm Hk]. split; [done|]. intros x Hx. by apply IH, Hk. Qed.

(** *** Attempts *)

(** The state of the delivery beside the monitor, before a post and at the start of an
    attempt. *)
Record ready (st : deliveryState) (m : monitor) : Prop := {
  l_github : isGitHub st = github;
  l_static : ForgeMirrorFacts.static (d_row st) = ForgeMirrorFacts.static row;
  l_key : CommentKey (d_row st) = CommentKey row;
  l_posted : PostedRev (d_row st) = PostedRev row;
  l_uncertain : uncertain st = doubtful (posts m);
  l_tried : tried m = true → FirstAttemptAt (d_row st) ≠ None;
  l_open : is_open m;
}.

Definition linked (st : deliveryState) (m : monitor) : Prop :=
  ready st m ∧ (FirstAttemptAt (d_row st) ≠ None → FirstAttemptAt row ≠ None ∨ (0 < posts m)%nat).

Lemma static_eqs r : ForgeMirrorFacts.static r = ForgeMirrorFacts.static row → ID r = ID row ∧ Actor r = Actor row.
Proof. unfold ForgeMirrorFacts.static. split; congruence. Qed.

Lemma marked_static r cs : ForgeMirrorFacts.static r = ForgeMirrorFacts.static row → marked_of r cs = marked_of row cs.
Proof. intros H. unfold marked_of. by destruct (static_eqs r H) as [-> _]. Qed.

Lemma safe_delete r cs : ∀ dups m Q,
  is_open m → scan m = Some cs → (∀ c, c ∈ dups → c ∈ tail (oldestComments cs)) → (∀ x, Q x m) → safe (delete_newer r dups) m Q.
Proof.
  induction dups as [|c dups IH]; intros m Q Ho Hs Hin HQ; cbn [delete_newer]; [apply HQ|].
  cbn [bind do_ safe]. split; [done|]. intros [|] _; [apply HQ|]. cbn [bind do_ safe]. split.
  { split; [done|]. exists cs, c. split; [done|]. split; [apply Hin; by left|done]. }
  intros [e|] _; [apply HQ|]. apply IH; [done..| |done]. intros c' H. apply Hin. by right.
Qed.

Definition with_scan (s : option (list Comment)) (m : monitor) : monitor := MkMonitor (posts m) (tried m) (begun m) s (at_phase m).

Lemma with_scan_id m : with_scan (scan m) m = m.
Proof. by destruct m. Qed.

(** The recovery: it adopts the oldest marked comment, or has seen that there is none. *)
Definition recovered (m : monitor) (r : result error (option Comment)) (m' : monitor) : Prop :=
  ∃ s, m' = with_scan s m ∧
  match r with
  | Ok (Some c) => ∃ cs, s = Some cs ∧ head (oldestComments cs) = Some c ∧ Key c ≠ []
  | Ok None => s = Some []
  | Err _ => True
  | Panic => False
  end.

Lemma oldest_in cs c : head (oldestComments cs) = Some c → c ∈ cs.
Proof.
  intros H. rewrite <- (merge_sort_Permutation not_newer cs). unfold oldestComments in H. destruct (merge_sort _ _); [done|].
  injection H as ->. by left.
Qed.

Lemma oldest_nil cs : oldestComments cs = [] → cs = [].
Proof. intros H. apply Permutation_nil_r. rewrite <- H. symmetry. apply merge_sort_Permutation. Qed.

Lemma safe_recover r m :
  is_open m → ForgeMirrorFacts.static r = ForgeMirrorFacts.static row → safe (recoverComment r) m (recovered m).
Proof.
  intros Ho Hst. unfold recoverComment. apply safe_bind.
  assert (∀ slept : option error, safe match slept with
    | Some e => Ret (Err e)
    | None => lost <-- do_ LostOrCanceled;
        if (lost : bool) then Ret (Err context_Canceled)
        else comments <-- do_ (ListMirrorComments (Actor r) (since_of r));
          match comments with
          | Err e => Ret (Err (wrap (lit "mirror: list comments for recovery") e))
          | Panic => Ret Panic
          | Ok comments =>
              match oldestComments (marked_of r comments) with
              | [] => Ret (Ok None)
              | oldest :: dups =>
                  stop <-- delete_newer r dups;
                  match stop with Some (Some e) => Ret (Err e) | Some None => Ret (Err context_Canceled) | None => Ret (Ok (Some oldest)) end
              end
          end
    end m (recovered m)) as Hrest.
  { assert (∀ e, recovered m (Err e) m) as Herr by (intros e; exists (scan m); by rewrite with_scan_id).
    intros [e|]; [apply Herr|]. cbn [bind do_ safe]. split; [done|]. intros [|] _; [apply Herr|].
    cbn [bind do_ safe]. split; [done|]. intros [cs|e| ] Hv; cbn [next]; [|by exists None|done].
    rewrite (marked_static r cs Hst). destruct (oldestComments (marked_of row cs)) as [|c dups] eqn:Eo.
    { apply oldest_nil in Eo. rewrite Eo. by exists (Some []). }
    apply safe_bind. eapply safe_delete; [done|done| |].
    - intros c' Hc'. by rewrite Eo.
    - intros [[e|]|]; eexists; (split; [done|]); [done..|]. exists (marked_of row cs). split; [done|]. rewrite Eo. split; [done|].
      assert (c ∈ marked_of row cs) as Hc by (apply oldest_in; by rewrite Eo). apply list_elem_of_filter in Hc as [_ Hc].
      by apply (proj1 (Forall_forall _ _) Hv). }
  destruct (match LastAttemptAt r with Some t => Some t | None => FirstAttemptAt r end) as [t|]; [|apply Hrest].
  cbn [bind do_ safe]. split; [done|]. intros now _. cbn [next]. case_bool_decide; [|apply Hrest].
  cbn [bind do_ safe]. split; [done|]. intros s _. apply Hrest.
Qed.

Definition ended (m : monitor) : Prop := is_open m ∨ at_phase m = Closed.

Definition attempted (n : nat) (r : result error (bool * option error * deliveryState)) (m' : monitor) : Prop :=
  match r with
  | Ok (false, _, _) => ended m'
  | Ok (true, e, st') => e ≠ None ∧ linked st' m' ∧ (posts m' ≤ S n)%nat
  | _ => False
  end.

(** The post is allowed for the key. *)
Definition allowed (key : bytes) (m : monitor) : Prop :=
  if bool_decide (key = []) then begun m = true ∧ (github = true → tried m = true → scan m = Some [])
  else key = CommentKey row ∨ ∃ cs oldest, scan m = Some cs ∧ head (oldestComments cs) = Some oldest ∧ Key oldest = key.

Lemma doubtful_S n : doubtful (S n) = github.
Proof. unfold doubtful. cbn [Nat.ltb Nat.leb]. by rewrite orb_true_r, andb_true_r. Qed.

Lemma safe_post key st m :
  ready st m → (posts m < maxAttempts)%nat → allowed key m → (key = [] → FirstAttemptAt (d_row st) ≠ None) →
  safe (post token need body key rev st) m (attempted (posts m)).
Proof.
  intros HL Hn Hk Hf. unfold post. cbn [bind do_ safe]. split; [apply (l_open _ _ HL)|]. intros [|] _; cbn [next].
  { left. apply (l_open _ _ HL). }
  cbn [bind do_ safe]. split.
  { split; [apply (l_open _ _ HL)|]. split; [done|]. do 2 (split; [done|]). split; [|exact Hk]. apply (static_eqs _ (l_static _ _ HL)). }
  intros [c|e| ] Hv; cbn [next]; [| |done].
  - unfold markDelivered. cbn [bind do_ safe may posts at_phase pred]. split; [by rewrite (l_uncertain _ _ HL)|]. intros x _. by right.
  - destruct (refused e) eqn:Er.
    + unfold markFailed. cbn [bind do_ safe may posts at_phase]. split; [split; [done|]; unfold failed; by rewrite (l_posted _ _ HL)|]. intros x _. by right.
    + cbn [safe attempted]. split; [done|]. split; [|done]. destruct HL as [H1 H2 H3 H4 H5 H6 H8].
      split; [|intros _; right; cbn; lia].
      assert (isGitHub (if isGitHub st then set_uncertain true st else st) = github ∧ d_row (if isGitHub st then set_uncertain true st else st) = d_row st
        ∧ uncertain (if isGitHub st then set_uncertain true st else st) = github) as (E1 & E2 & E3).
      { destruct (isGitHub st) eqn:Eg; cbn [set_uncertain isGitHub d_row uncertain]; (split; [congruence|]); (split; [done|]); [congruence|].
        rewrite H5. unfold doubtful. by rewrite <- H1. }
      split; rewrite ?E1, ?E2; cbn [posts tried at_phase]; try done.
      * by rewrite E3, doubtful_S.
      * intros [Ht|Ht%bool_decide_eq_true]%orb_true_iff; auto.
Qed.

Lemma doubtful_first st m : linked st m → CommentKey row = [] → github = true → FirstAttemptAt (d_row st) ≠ None → doubtful (posts m) = true.
Proof.
  intros [HL Hfirst] Hk Hg Hf. unfold doubtful. rewrite Hg. cbn [andb]. apply orb_true_iff.
  destruct (Hfirst Hf) as [H|H]; [left; by rewrite !bool_decide_true|right; by apply Nat.ltb_lt].
Qed.

(** The create of an attempt, after what its recovery has found. *)
Lemma safe_begin st m s :
  linked st m → (posts m < maxAttempts)%nat → CommentKey row = [] → (github = true → tried m = true → s = Some []) →
  safe (r <-- do_ (BeginAttempt token);
      match r with
      | Panic => Ret Panic
      | Err e => Ret (Ok (true, Some e, st))
      | Ok None => Ret (Ok (false, None, st))
      | Ok (Some updated) => post token need body [] rev
          (MkDelivery updated (isGitHub st) (uncertain st || isGitHub st && bool_decide (FirstAttemptAt (d_row st) ≠ None)) (lastErr st))
      end) (with_scan s m) (attempted (posts m)).
Proof.
  intros HL Hn Hkey Hs. pose proof HL as [[H1 H2 H3 H4 H5 H6 H7] Hfirst]. cbn [bind do_ safe]. split; [done|].
  intros [[u|]|e| ] Hv; cbn [next]; [|by left| |done].
  - destruct Hv as (Hst & Huk & Hup & Huf). apply (safe_post [] _ (MkMonitor (posts m) (tried m) true s (at_phase m))); [|done|split; [done|auto]|done].
    split; cbn [d_row isGitHub uncertain posts tried at_phase]; try done. rewrite H5, H1.
    destruct (doubtful (posts m)) eqn:Ed; [done|]. cbn [orb]. destruct github eqn:Eg; [|done]. cbn [andb].
    apply bool_decide_eq_false. intros Hne. pose proof (doubtful_first st m HL Hkey Eg Hne). congruence.
  - cbn [safe attempted]. split; [done|]. split; [|simpl; lia]. split; [by split|done].
Qed.

Lemma safe_attempt st m :
  linked st m → (posts m < maxAttempts)%nat → safe (deliverAttempt token need body rev st) m (attempted (posts m)).
Proof.
  intros HL Hn. pose proof HL as [[H1 H2 H3 H4 H5 H6 H7] Hfirst]. unfold deliverAttempt. apply safe_bind.
  unfold recoverPriorComment. rewrite H1, H3.
  destruct (decide (CommentKey row = [])) as [Hkey|Hkey].
  - rewrite (bool_decide_true (CommentKey row = [])) by done. cbn [negb orb].
    destruct (negb github || bool_decide (FirstAttemptAt (d_row st) = None)) eqn:Eskip.
    + cbn [safe]. rewrite Hkey. rewrite bool_decide_true by done. pose proof (safe_begin st m (scan m) HL Hn Hkey) as Hb. rewrite with_scan_id in Hb. apply Hb.
      intros Hg Ht. rewrite Hg in Eskip. cbn [negb orb] in Eskip. apply bool_decide_eq_true in Eskip. by apply H6 in Ht.
    + apply orb_false_iff in Eskip as [Eg%negb_false_iff Ef%bool_decide_eq_false].
      eapply safe_mono; [|by apply safe_recover]. intros r m' (s & -> & Hr). destruct r as [[c|]|e| ]; [| | |done].
      * destruct Hr as (cs & -> & Hh & Hck). rewrite bool_decide_false by done. apply (safe_post (Key c) _ (with_scan (Some cs) m)); [|done| |done].
        -- split; cbn [set_uncertain d_row isGitHub uncertain posts tried at_phase with_scan]; try done. symmetry. by apply (doubtful_first st m).
        -- unfold allowed. rewrite bool_decide_false by done. right. by exists cs, c.
      * subst s. rewrite Hkey, bool_decide_true by done. by apply safe_begin.
      * cbn [safe attempted]. split; [done|]. split; [|simpl; lia]. split; [by split|done].
  - rewrite (bool_decide_false (CommentKey row = [])) by done. cbn [negb orb safe]. rewrite bool_decide_false by done.
    apply safe_post; [apply HL|done| |done]. unfold allowed. rewrite bool_decide_false by done. by left.
Qed.

Lemma safe_attempts waits : ∀ st m,
  linked st m → (posts m + length waits < maxAttempts)%nat →
  safe (attempts waits token need body rev st) m (λ r m', r ≠ Panic ∧ ended m').
Proof.
  assert (∀ m r, ended m → r ≠ @Panic error unit → r ≠ Panic ∧ ended m) as Hend by done.
  induction waits as [|w waits IH]; intros st m HL Hn; cbn [attempts bind do_ safe].
  all: split; [apply (l_open _ _ (proj1 HL))|]; intros [|] _; [split; [done|left; apply (l_open _ _ (proj1 HL))]|].
  all: apply safe_bind; eapply safe_mono; [|apply safe_attempt; [done|cbn [next length] in *; lia]].
  all: intros [[[[] e] st']|e| ] m'; cbn [attempted negb]; try done.
  all: try (intros Hm; by destruct e).
  - intros (He & HL' & Hp). destruct e as [e|]; [|done]. cbn [lastErr d_row]. unfold markFailed. cbn [bind do_ safe may].
    pose proof (l_open _ _ (proj1 HL')) as Ho. unfold is_open in Ho. rewrite Ho. split.
    { split; [done|]. exists e. unfold failed. by rewrite (l_posted _ _ (proj1 HL')). }
    intros [x|] _; (split; [done|by right]).
  - intros (He & HL' & Hp). cbn [bind do_ safe]. split; [apply (l_open _ _ (proj1 HL'))|]. intros [x|] _.
    { split; [done|]. left. apply (l_open _ _ (proj1 HL')). }
    apply IH; [|cbn [length next] in *; lia]. destruct e as [e|]; [|done]. destruct HL' as [[] ?]. split; [by split|done].
Qed.

Definition start_monitor : monitor := MkMonitor 0 (bool_decide (FirstAttemptAt row ≠ None)) false None Open.

(** Once a post has gone through, one mark is left. *)
Lemma follows_app tr1 : ∀ tr2 m m', follows m (tr1 ++ tr2) m' → ∃ m1, follows m tr1 m1 ∧ follows m1 tr2 m'.
Proof.
  induction tr1 as [|[X c x] tr1 IH]; intros tr2 m m' H; [by exists m|]. cbn [app follows] in H. destruct H as [Hm (m1 & ? & ?)%IH].
  exists m1. by repeat split.
Qed.

Lemma follows_closed m tr m' : at_phase m = Closed → follows m tr m' → tr = [].
Proof.
  intros Hc. destruct tr as [|[X c x] tr]; [done|]. intros [Hm _]. exfalso. destruct c; cbn [may] in Hm; unfold is_open in Hm;
    rewrite ?Hc in Hm; try done; by destruct Hm.
Qed.

Lemma follows_posted m c tr m' :
  at_phase m = Posted c → follows m tr m' → ended m' →
  ∃ x, tr = [Ev (Mark token (delivered (cm_ID c) (Key c) (cm_URL c) (doubtful (pred (posts m))) rev)) x].
Proof.
  intros Hc. destruct tr as [|[X d x] tr]; [intros -> [H|H]; unfold is_open in *; congruence|]. intros [Hm Hf] He.
  destruct d; cbn [may] in Hm; unfold is_open in Hm; rewrite ?Hc in Hm; try done; try by destruct Hm.
  destruct Hm as [-> ->]. exists x. f_equal. by refine (follows_closed _ _ _ _ Hf).
Qed.

Definition is_post (e : event) : bool := match e with Ev (PostMirror _ _ _ _ _ _) _ => true | _ => false end.

Lemma follows_posts tr : ∀ m m', follows m tr m' → (posts m ≤ maxAttempts)%nat →
  posts m' = (posts m + length (filter (λ e, is_post e = true) tr))%nat ∧ (posts m' ≤ maxAttempts)%nat.
Proof.
  induction tr as [|[X c x] tr IH]; intros m m'; cbn [follows]; [intros -> ?; simpl; lia|].
  intros [Hm Hf] Hle. specialize (IH _ _ Hf). rewrite filter_cons.
  destruct (is_post (Ev c x)) eqn:Ep; [rewrite decide_True by done|rewrite decide_False by done].
  - destruct c; try done. destruct Hm as (_ & Hlt & _). cbn [next posts length] in *. lia.
  - assert (posts (next m c x) = posts m) as E by (destruct c; try done; by destruct x as [[]| | ]). lia.
Qed.

(** C21. The protocol of a delivery, whatever the forge, the store and the clock answer: at
    most three posts, of the rendered body; a comment is created only under an attempt
    recorded for it and, on GitHub once an earlier create may have made one, only after a
    listing with no marked comment; an edit goes to the row's comment or to the oldest of
    the marked ones, and only the newer of these are deleted; once a post has gone through
    the one call left is the mark with its comment, which asks for a recheck exactly where
    the outcome of an earlier create is in doubt; a refusal is marked and not tried again;
    and the delivery neither panics nor makes a call after its mark.  A row whose revision
    is posted is marked and nothing is posted. *)
Theorem drive_follows_protocol tr a :
  runs (deliverRow row token github need body rev) tr a →
  (CommentKey row ≠ [] ∧ PostedRev row = BodyRev row →
     ∃ x, tr = [Ev (Mark token (delivered (CommentID row) (CommentKey row) (CommentURL row) false rev)) x])
  ∧ (¬ (CommentKey row ≠ [] ∧ PostedRev row = BodyRev row) →
     (∃ m, follows start_monitor tr m ∧ ended m) ∧ a ≠ Panic
     ∧ (length (filter (λ e, is_post e = true) tr) ≤ maxAttempts)%nat
     ∧ ∀ tr1 tr2 actor session key client c, tr = tr1 ++ Ev (PostMirror actor session need key client body) (Ok c) :: tr2 →
         ∃ doubt x, tr2 = [Ev (Mark token (delivered (cm_ID c) (Key c) (cm_URL c) doubt rev)) x]
           ∧ doubt = doubtful (length (filter (λ e, is_post e = true) tr1))).
Proof.
  intros Hr. unfold deliverRow in Hr. split.
  - intros [Hk Hp]. rewrite (bool_decide_false (CommentKey row = [])), (bool_decide_true (PostedRev row = BodyRev row)) in Hr by done.
    destruct Hr as (x & tr' & -> & _ & Hr). exists x. f_equal. by destruct x; destruct Hr as [-> _].
  - intros Hno. assert (negb (bool_decide (CommentKey row = [])) && bool_decide (PostedRev row = BodyRev row) = false) as Hb.
    { apply andb_false_iff. rewrite negb_false_iff, bool_decide_eq_true, bool_decide_eq_false. destruct (decide (CommentKey row = [])); [by left|].
      destruct (decide (PostedRev row = BodyRev row)); [|by right]. by destruct Hno. }
    rewrite Hb in Hr. set (st := MkDelivery _ _ _ _) in Hr.
    assert (linked st start_monitor) as HL.
    { split; [|by left]. split; try done; cbn.
      - unfold doubtful. cbn. by rewrite orb_false_r, andb_assoc.
      - by intros H%bool_decide_eq_true. }
    pose proof (safe_attempts (take (maxAttempts - 1) retryBackoff) st start_monitor HL ltac:(cbn; unfold maxAttempts; lia)) as Hs.
    destruct (safe_follows _ _ _ _ _ Hs Hr) as (m & Hf & Ha & He). split; [by exists m|]. split; [done|].
    destruct (follows_posts tr _ _ Hf ltac:(simpl; lia)) as [Hc Hle]. assert (posts start_monitor = 0%nat) as E0 by done.
    split; [lia|].
    intros tr1 tr2 actor session key client c ->. apply follows_app in Hf as (m1 & Hf1 & Hf2). destruct Hf2 as [_ Hf2].
    destruct (follows_posted (next m1 (PostMirror actor session need key client body) (Ok c)) c _ _ eq_refl Hf2 He) as [x ->]. eexists _, x. split; [done|].
    destruct (follows_posts tr1 _ _ Hf1 ltac:(simpl; lia)) as [Hc1 _]. f_equal. cbn [next posts pred]. lia.
Qed.

End delivery.
(** ** The recheck *)

(** The run under fixed answers. *)
Fixpoint interp (h : ∀ X, call X → X) {A} (p : prog A) : list event * A :=
  match p with
  | Ret a => ([], a)
  | @Vis _ X c k => let '(tr, a) := interp h (k (h X c)) in (Ev c (h X c) :: tr, a)
  end.

(** The lease is kept, the forge lists [cs], and what is asked of it succeeds. *)
Definition calm (cs : list Comment) (made : Comment) : ∀ X, call X → X := λ X c,
  match c in call X return X with
  | LostOrCanceled => false
  | Now => 0
  | Sleep _ => None
  | Canceled => None
  | NewToken => Ok token
  | Lease _ => Ok (Some row)
  | ReadRow => Ok row
  | BeginAttempt _ => Ok (Some (begin_attempt 0 row))
  | Mark _ _ => None
  | AskFor _ _ => Err (plain [])
  | BodyFn _ => Ok []
  | PostMirror _ _ _ _ _ _ => Ok made
  | ListMirrorComments _ _ => Ok cs
  | DeleteMirrorComment _ _ => None
  end.

Lemma interp_runs {A} (p : prog A) h : (∀ X (c : call X), valid c (h X c)) → runs p (interp h p).1 (interp h p).2.
Proof.
  intros Hh. induction p as [a|X c k IH]; [done|]. cbn [interp runs]. specialize (IH (h X c)). destruct (interp h (k (h X c))) as [tr a].
  exists (h X c), tr. split; [done|]. split; [apply Hh|done].
Qed.

Lemma calm_valid cs made : Forall (λ c, Key c ≠ []) cs → ∀ X (c : call X), valid c (calm cs made X c).
Proof. intros Hcs X []; done. Qed.

Lemma interp_bind {A B} h (p : prog A) (f : A → prog B) :
  interp h (bind p f) = (let '(t1, a) := interp h p in let '(t2, b) := interp h (f a) in (t1 ++ t2, b)).
Proof.
  induction p as [a|X c k IH]; cbn [bind interp]; [by destruct (interp h (f a))|]. rewrite IH.
  destruct (interp h (k (h X c))) as [t1 a]. by destruct (interp h (f a)) as [t2 b].
Qed.

Definition deleted (e : event) : option bytes := match e with Ev (DeleteMirrorComment _ key) _ => Some key | _ => None end.
Definition marks (e : event) : option ForgeMirrorMark := match e with Ev (Mark _ k) _ => Some k | _ => None end.

Lemma interp_delete cs made dups :
  let '(tr, x) := interp (calm cs made) (delete_newer row dups) in x = None ∧ omap deleted tr = Key <$> dups ∧ omap marks tr = [].
Proof.
  induction dups as [|c dups IH]; [done|]. cbn [delete_newer do_ bind interp calm]. destruct (interp _ (delete_newer row dups)) as [tr x].
  destruct IH as (-> & IH & IH'). split; [done|]. by csimpl; rewrite IH, IH'.
Qed.

Lemma oldest_least cs oldest dups :
  Forall (λ c, cm_ID c ≠ 0) cs → oldestComments cs = oldest :: dups → ∀ c, c ∈ dups → cm_ID oldest ≤ cm_ID c.
Proof.
  intros Hne Ho. assert (Total not_newer) as Ht.
  { intros a b. unfold not_newer, older. destruct (negb _ && negb _) eqn:E.
    - rewrite andb_comm in E. rewrite E. rewrite !bool_decide_eq_false. lia.
    - rewrite andb_comm in E. rewrite E. rewrite !andb_false_iff, !negb_false_iff. pose proof (bytes_leb_total (Key a) (Key b)). tauto. }
  pose proof (Sorted_merge_sort not_newer cs) as Hs. fold (oldestComments cs) in Hs. rewrite Ho in Hs.
  assert (Forall (λ c, cm_ID c ≠ 0) (oldest :: dups)) as Hne' by (rewrite <- Ho; unfold oldestComments; by rewrite merge_sort_Permutation).
  assert (Sorted (λ a b, cm_ID a ≤ cm_ID b) (oldest :: dups)) as Hs'.
  { clear Ho. induction Hs as [|c l Hl IH Hh]; [constructor|]. inversion Hne'; subst. constructor; [auto|].
    destruct Hh as [|d l Hd]; [constructor|]. constructor. inversion H2; subst. unfold not_newer, older in Hd.
    rewrite !bool_decide_false in Hd by done. apply bool_decide_eq_false in Hd. lia. }
  apply Sorted_StronglySorted in Hs'; [|intros a b c; lia]. inversion Hs'; subst. by apply Forall_forall.
Qed.

(** A recheck leaves one comment: with the lease kept, of the comments that carry the
    row's marker it keeps the one with the least forge id, deletes every other once, and
    marks the row with it; where that is not the comment the row had, the row is pending
    again with nothing posted, so that its body is edited in.  With no such comment left on
    the forge it panics before any mark. *)
Theorem recheck_exact cs made :
  Refs.Parse (TargetRef row) ≠ None → Forall (λ c, cm_ID c ≠ 0 ∧ Key c ≠ []) cs →
  let '(tr, a) := interp (calm cs made) (recheckComments row token) in
  (marked_of row cs = [] → a = Panic ∧ omap deleted tr = [] ∧ omap marks tr = [])
  ∧ (marked_of row cs ≠ [] → ∃ oldest dups k,
       marked_of row cs ≡ₚ oldest :: dups ∧ (∀ c, c ∈ dups → cm_ID oldest ≤ cm_ID c)
       ∧ a = Ok tt ∧ omap deleted tr = Key <$> dups ∧ omap marks tr = [k]
       ∧ ∀ now, let r := apply_mark now k row in
           CommentKey r = Key oldest ∧ CommentID r = cm_ID oldest ∧ RecheckAt r = None
           ∧ (Key oldest = CommentKey row → PostedRev r = PostedRev row ∧ (BodyRev row ≤ PostedRev row → State r = doneState))
           ∧ (Key oldest ≠ CommentKey row → PostedRev r = 0 ∧ State r = pendingState)).
Proof.
  intros Hp Hcs. unfold recheckComments. destruct (Refs.Parse (TargetRef row)) as [ref|]; [|done].
  cbn [do_ bind interp calm]. destruct (oldestComments (marked_of row cs)) as [|oldest dups] eqn:Eo.
  - apply oldest_nil in Eo as Em. cbn [interp]. split; [done|]. by rewrite Em.
  - rewrite interp_bind. pose proof (interp_delete cs made dups) as Hd. destruct (interp _ (delete_newer row dups)) as [tr x].
    destruct Hd as (-> & Hd & Hm). cbn [do_ bind interp calm]. split.
    { intros Em. rewrite Em in Eo. done. }
    intros _. assert (marked_of row cs ≡ₚ oldest :: dups) as HP by (rewrite <- Eo; unfold oldestComments; by rewrite merge_sort_Permutation).
    assert (Forall (λ c, cm_ID c ≠ 0 ∧ Key c ≠ []) (marked_of row cs)) as HF.
    { apply Forall_forall. intros c [_ Hc]%list_elem_of_filter. by apply (proj1 (Forall_forall _ _) Hcs). }
    exists oldest, dups. eexists. split; [done|]. split.
    { apply (oldest_least (marked_of row cs)); [|done]. eapply Forall_impl; [exact HF|]. by intros ? []. }
    split; [done|]. csimpl. rewrite !omap_app, Hd, Hm. csimpl. rewrite app_nil_r. split; [done|]. split; [done|].
    rewrite HP in HF. inversion HF as [|? ? [Hid Hkey] _]; subst. intros now. cbn [apply_mark CommentKey CommentID RecheckAt PostedRev State
      mk_CommentKey mk_CommentID mk_PostedRev mk_State Recheck ClearRecheck]. rewrite !bool_decide_false by done.
    split; [done|]. split; [done|]. split; [done|]. split.
    + intros E. rewrite (bool_decide_true (Key oldest = CommentKey row)) by done. cbn [negb]. split; [done|]. intros Hb.
      rewrite bool_decide_false by lia. done.
    + intros E. rewrite (bool_decide_false (Key oldest = CommentKey row)) by done. cbn [negb]. split; [done|].
      by rewrite bool_decide_false by (unfold pendingState; lia).
Qed.

(** ** Bodies *)

Lemma len_WithMarker body id : len (WithMarker body id) ≤ len body + len (WithMarker [] id).
Proof.
  unfold WithMarker. rewrite !len_app. assert (len (ForgeMarker.trim_newlines body) ≤ len body) as H.
  { unfold len. pose proof (ForgeMarker.length_trim body). lia. }
  change (len (ForgeMarker.trim_newlines [])) with 0. lia.
Qed.

(** C39. A rendered body carries the row's marker and keeps to the provider's limit, unless
    an ask is rendered where the marker alone fills it: the budget that is left, zero, is
    then taken for no limit. *)
Theorem mirror_body_fits limit hasBodyFn tr b :
  runs (renderBody limit hasBodyFn row) tr (Ok b) →
  HasMarker b (ID row) = true
  ∧ (0 < limit → Source row = 2 ∨ len (WithMarker [] (ID row)) ≠ limit → len b ≤ limit)
  ∧ (Source row = 1 → limit = len (WithMarker [] (ID row)) → ∃ ask by_ link,
       b = WithMarker (RenderAsk ask by_ link) (ID row)).
Proof.
  assert (∀ b, HasMarker (WithMarker b (ID row)) (ID row) = true) as Hm.
  { intros b'. unfold HasMarker, WithMarker. rewrite app_assoc. rewrite <- (app_nil_r (marker (ID row))) at 1. apply ForgeMarker.contains_app. }
  unfold renderBody, text_limit. pose proof (len_nonneg (WithMarker [] (ID row))) as Hn.
  assert (0 < len (WithMarker [] (ID row))) as Hn1 by (unfold WithMarker; rewrite !len_app; change (len blank) with 2; pose proof (len_nonneg (ForgeMarker.trim_newlines [])); pose proof (len_nonneg (marker (ID row))); lia).
  case_bool_decide as Hl; [case_bool_decide as Hmk; [by intros [_ ?]|]|].
  all: case_bool_decide as Hs2; [destruct hasBodyFn; cbn [negb]; [|by intros [_ ?]]; intros (x & tr' & -> & Hv & Hr); destruct Hr as [-> Hr]; destruct x as [x|e| ]; [|done|done]; injection Hr as ->
    |case_bool_decide as Hs1; cbn [negb]; [|by intros [_ ?]]; intros (x & tr' & -> & Hv & Hr); destruct Hr as [-> Hr]; destruct x as [x|e| ]; [|done|done];
     destruct (aa_ask x) as [ask|]; [|done]; injection Hr as ->].
  all: split; [apply Hm|]; split; [|try (intros; lia)]; try (intros; lia).
  - intros _ _. pose proof (len_WithMarker (truncateUTF8 x (limit - len (WithMarker [] (ID row)))) (ID row)) as H.
    destruct (decide (limit = len (WithMarker [] (ID row)))) as [E|E].
    + rewrite E, Z.sub_diag in *. change (truncateUTF8 x 0) with (@nil ascii) in *. lia.
    + pose proof (truncateUTF8_le x (limit - len (WithMarker [] (ID row)))). lia.
  - intros _ [?|Hne]; [done|].
    destruct (renderAskWithinLimit_exact ask (aa_answeredBy x) (aa_link x) (limit - len (WithMarker [] (ID row)))) as [H _]; [lia|].
    pose proof (len_WithMarker (renderAskWithinLimit ask (aa_answeredBy x) (aa_link x) (limit - len (WithMarker [] (ID row)))) (ID row)). lia.
  - intros _ E. exists ask, (aa_answeredBy x), (aa_link x). by rewrite E, Z.sub_diag.
Qed.

End facts.

(** A pending row for a pull request, and the comments of two creates of it. *)
Definition demo_row : ForgeMirrorRow :=
  MkMirror (lit "r1") 2 [] (lit "topic") (lit "bot") (lit "bot") [] (lit "acme/app#7") 1 0 1 0 0 [] [] [] [] None None [] None None [] (lit "s1") None.
Definition demo_comment (n : Z) (key : bytes) : Comment := MkComment n key [] (WithMarker (lit "hi") (lit "r1")).

Notation demo_deliver := (interp (calm demo_row (lit "t") [] (demo_comment 9 (lit "k9")))
  (deliverRow demo_row (lit "t") true ForgeMirrorAuto (lit "hi") 1)).

Lemma drive_follows_protocol_witness :
  omap marks demo_deliver.1 = [delivered 9 (lit "k9") [] false 1] ∧ (length (filter (λ e, is_post e = true) demo_deliver.1) ≤ 3)%nat.
Proof.
  split; [vm_compute; reflexivity|].
  destruct (drive_follows_protocol demo_row (lit "t") true ForgeMirrorAuto (lit "hi") 1 demo_deliver.1 demo_deliver.2
    (interp_runs demo_row _ _ (calm_valid demo_row (lit "t") [] _ (Forall_nil_2 _)))) as [_ H].
  destruct (H (λ E, match E with conj E _ => E eq_refl end)) as (_ & _ & H3 & _). exact H3.
Defined.

Notation demo_found := [demo_comment 9 (lit "k9"); MkComment 1 (lit "k1") [] (lit "other"); demo_comment 5 (lit "k5")].

Lemma recheck_exact_witness :
  ∃ oldest dups, marked_of demo_row demo_found ≡ₚ oldest :: dups
  ∧ omap deleted (interp (calm demo_row (lit "t") demo_found (demo_comment 9 (lit "k9"))) (recheckComments demo_row (lit "t"))).1 = Key <$> dups.
Proof.
  pose proof (recheck_exact demo_row (lit "t") demo_found (demo_comment 9 (lit "k9"))) as H.
  destruct (interp _ _) as [tr a]. destruct H as [_ H].
  - vm_compute. discriminate.
  - repeat constructor; discriminate.
  - destruct H as (oldest & dups & k & HP & _ & _ & Hd & _); [vm_compute; discriminate|]. exists oldest, dups. split; [exact HP|exact Hd].
Defined.

Lemma mirror_body_fits_witness :
  HasMarker (WithMarker (lit "hi") (lit "r1")) (lit "r1") = true.
Proof.
  destruct (mirror_body_fits demo_row 0 true [Ev (BodyFn 0) (Ok (lit "hi"))] (WithMarker (lit "hi") (lit "r1"))) as [H _]; [|exact H].
  exists (Ok (lit "hi")), []. split; [reflexivity|]. split; [discriminate|]. split; reflexivity.
Defined.

End MirrorDriveFacts.
