(* ===== verification/DeliveryTables.v ===== *)
(** The tables of channels, members and delivery cursors
    ([src/go/internal/store/migrations/0001_init.sql]), the participation of agents that
    the delivery queries start from, and who may reach whom.

    A table with a primary key is a finite map; messages and topics are those of
    [Messages].  [homes] is [agent_accounts.home_channel_id] where it is set, [members] and
    [subscriptions] hold the subscribed flag, [owed] the channel of an owed mention. *)
From stdpp Require Import base gmap strings list sets.
From Stdlib Require Import ZArith Lia.
From S2P Require Import Prelude ChannelTree Blocks Messages.

Module DeliveryTables.
Import ChannelTree Messages.

Open Scope Z_scope.

Record chanRow := MkChan { row : channelRow; group_id : option string; kind : Z; mandatory_subscription : bool }.

Record cursorRow := MkCursor { acked_seq : Z; above_seqs : list Z }.

Record groupRow := MkGroup { g_name : string; g_parent : option string; g_owner : string; g_visibility : Z; g_namespace : string }.

Record tables := MkTables {
  accts : gset string; agentRows : gmap string agentRow; homes : gmap string string; systems : gset string; peers : gset (string * string);
  groups : gmap string groupRow; chans : gmap string chanRow; members : gmap (string * string) bool; subscriptions : gmap (string * string) bool;
  topicRows : list Topic; messageRows : list messageRow;
  cursors : gmap (string * string) cursorRow; owed : gmap (string * string) string; routed : gset string;
}.

Definition ChannelKindChannel : Z := 0.
Definition ChannelKindDM : Z := 1.
Definition ChannelMembershipModeExplicit : Z := 0.
Definition ChannelMembershipModeTree : Z := membershipTree.
Definition VisibilityOwner : Z := 0.
Definition VisibilityShared : Z := 1.

Definition set_accounts (a : gset string) (r : gmap string agentRow) (h : gmap string string) (T : tables) : tables :=
  MkTables a r h (systems T) (peers T) (groups T) (chans T) (members T) (subscriptions T) (topicRows T) (messageRows T) (cursors T) (owed T) (routed T).
Definition set_groups (g : gmap string groupRow) (T : tables) : tables :=
  MkTables (accts T) (agentRows T) (homes T) (systems T) (peers T) g (chans T) (members T) (subscriptions T) (topicRows T) (messageRows T) (cursors T) (owed T) (routed T).
Definition set_chans (c : gmap string chanRow) (T : tables) : tables :=
  MkTables (accts T) (agentRows T) (homes T) (systems T) (peers T) (groups T) c (members T) (subscriptions T) (topicRows T) (messageRows T) (cursors T) (owed T) (routed T).
Definition set_members (m : gmap (string * string) bool) (T : tables) : tables :=
  MkTables (accts T) (agentRows T) (homes T) (systems T) (peers T) (groups T) (chans T) m (subscriptions T) (topicRows T) (messageRows T) (cursors T) (owed T) (routed T).
Definition set_subscriptions (s : gmap (string * string) bool) (T : tables) : tables :=
  MkTables (accts T) (agentRows T) (homes T) (systems T) (peers T) (groups T) (chans T) (members T) s (topicRows T) (messageRows T) (cursors T) (owed T) (routed T).
Definition set_messages (l : list messageRow) (T : tables) : tables :=
  MkTables (accts T) (agentRows T) (homes T) (systems T) (peers T) (groups T) (chans T) (members T) (subscriptions T) (topicRows T) l (cursors T) (owed T) (routed T).
Definition set_cursors (c : gmap (string * string) cursorRow) (T : tables) : tables :=
  MkTables (accts T) (agentRows T) (homes T) (systems T) (peers T) (groups T) (chans T) (members T) (subscriptions T) (topicRows T) (messageRows T) c (owed T) (routed T).
Definition set_owed (o : gmap (string * string) string) (T : tables) : tables :=
  MkTables (accts T) (agentRows T) (homes T) (systems T) (peers T) (groups T) (chans T) (members T) (subscriptions T) (topicRows T) (messageRows T) (cursors T) o (routed T).
Definition set_routed (r : gset string) (T : tables) : tables :=
  MkTables (accts T) (agentRows T) (homes T) (systems T) (peers T) (groups T) (chans T) (members T) (subscriptions T) (topicRows T) (messageRows T) (cursors T) (owed T) r.

(** The directory that the participation queries of [ChannelTree] read. *)
Definition directory_of (T : tables) : directory := MkDirectory (accts T) (agentRows T) (row <$> chans T) (dom (members T)).

Definition is_agent (T : tables) (a : string) : bool := bool_decide (is_Some (agentRows T !! a)).

Definition mode_of (T : tables) (ch : string) : option Z := (λ c, membership_mode (row c)) <$> chans T !! ch.

(** ** Messages of a channel *)

Definition topic_channel (T : tables) (topic : string) : option string :=
  t_ChannelID <$> find (λ t, bool_decide (t_ID t = topic)) (topicRows T).

Definition row_channel (T : tables) (r : messageRow) : option string := topic_channel T (m_TopicID r).

Definition channel_rows (T : tables) (ch : string) : list messageRow := filter (λ r, row_channel T r = Some ch) (messageRows T).

(** [COALESCE(MAX(seq), 0)] over a channel. *)
Definition channel_head (T : tables) (ch : string) : Z := foldr (λ r, Z.max (m_Seq r)) 0 (channel_rows T ch).

(** ** Reach *)

Definition ResolveOwner (T : tables) (a : string) : string :=
  match agentRows T !! a with Some r => owner_user_id r | None => a end.

(** The marked reach predicate: the author may reach the agent. *)
Definition reaches (T : tables) (author agent : string) : bool :=
  match agentRows T !! agent with
  | None => false
  | Some aa =>
      bool_decide (owner_user_id aa = ResolveOwner T author)
      || bool_decide (author ∈ systems T)
      || bool_decide ((ResolveOwner T author, owner_user_id aa) ∈ peers T ∧ (owner_user_id aa, ResolveOwner T author) ∈ peers T)
  end.

(** ** Participation of agents *)

(** [participants] of [UndeliveredMessages] and [SweepChannels]: the member rows of explicit
    channels and the tree channels whose anchor is on the agent's chain. *)
Definition stored_rows (T : tables) (agent : string) : list (string * bool) :=
  (λ r : string * string * bool, (r.1.1, r.2)) <$>
    filter (λ r, r.1.2 = agent ∧ mode_of T r.1.1 = Some ChannelMembershipModeExplicit) (map_to_list (members T)).

Definition tree_rows (T : tables) (agent : string) (chain : list string) (cs : list (string * chanRow)) : list (string * bool) :=
  (λ r : string * chanRow, (r.1, default false (subscriptions T !! (r.1, agent)))) <$>
    filter (λ r : string * chanRow, agent ∈ chain ∧ membership_mode (row r.2) = ChannelMembershipModeTree
                                    ∧ from_option (λ p, bool_decide (p ∈ chain)) false (c_parent (row r.2)) = true) cs.

Definition participants (T : tables) (agent : string) : list (string * bool) :=
  stored_rows T agent ++ tree_rows T agent (chain (directory_of T) agent) (map_to_list (chans T)).

(** The disjunct: subscribed, home or mandatory. *)
Definition is_target (T : tables) (agent ch : string) (subscribed : bool) : bool :=
  subscribed || bool_decide (homes T !! agent = Some ch)
  || match chans T !! ch with Some c => mandatory_subscription c | None => false end.

Definition swept (T : tables) (agent : string) (r : string * bool) : bool := is_agent T agent && is_target T agent r.1 r.2.

Definition SweepChannels (T : tables) (agent : string) : gset string :=
  list_to_set (fst <$> filter (λ r, swept T agent r = true) (participants T agent)).

(** [InSweepSet] walks the chain for a tree channel only, and looks at its own channel. *)
Definition InSweepSet (T : tables) (agent ch : string) : bool :=
  let chain := if bool_decide (mode_of T ch = Some ChannelMembershipModeTree) then chain (directory_of T) agent else [] in
  existsb (λ r, bool_decide (r.1 = ch) && swept T agent r)
    (stored_rows T agent ++ tree_rows T agent chain (filter (λ r, r.1 = ch) (map_to_list (chans T)))).

(** [subtree]: the anchor and, level by level, the agents whose parent was reached; a row
    seen before is not walked again. *)
Definition children (T : tables) (work : gset string) : gset string :=
  dom (filter (λ r : string * agentRow, from_option (λ p, bool_decide (p ∈ work)) false (parent_agent_id r.2) = true) (agentRows T)).

Fixpoint subtree_go (fuel : nat) (T : tables) (seen work : gset string) : gset string :=
  match fuel with
  | O => seen
  | S fuel => let new := children T work ∖ seen in if bool_decide (new = ∅) then seen else subtree_go fuel T (seen ∪ new) new
  end.

Definition subtree (T : tables) (anchor : string) : gset string :=
  subtree_go (S (size (agentRows T))) T {[anchor]} {[anchor]}.

(** [participants] of the channel-keyed queries. *)
Definition channel_participants (T : tables) (ch : string) : list (string * bool) :=
  match chans T !! ch with
  | None => []
  | Some c =>
      if bool_decide (membership_mode (row c) = ChannelMembershipModeExplicit) then
        (λ r : string * string * bool, (r.1.2, r.2)) <$> filter (λ r, r.1.1 = ch) (map_to_list (members T))
      else if bool_decide (membership_mode (row c) = ChannelMembershipModeTree) then
        match c_parent (row c) with
        | Some p => (λ a, (a, default false (subscriptions T !! (ch, a)))) <$> elements (subtree T p)
        | None => []
        end
      else []
  end.

(** [SubscribedAgents], as a set: the agents a post of [author] is delivered to. *)
Definition SubscribedAgents (T : tables) (ch author : string) : gset string :=
  list_to_set (omap (λ r : string * bool,
    if is_agent T r.1 && is_target T r.1 ch r.2 && bool_decide (r.1 ≠ author) && reaches T author r.1 then Some r.1 else None)
    (channel_participants T ch)).

(** [ChannelAgentMembers], as a set. *)
Definition ChannelAgentMembers (T : tables) (ch author : string) : gset string :=
  list_to_set (omap (λ r : string * bool,
    if is_agent T r.1 && bool_decide (r.1 ≠ author) && reaches T author r.1 then Some r.1 else None)
    (channel_participants T ch)).

Definition IsAgentAccount (T : tables) (a : string) : bool := is_agent T a.

Definition MessageByID (T : tables) (id : string) : result storeError Message :=
  match find (λ r, bool_decide (m_ID r = id)) (messageRows T) with Some r => messageFromParts r | None => Err ErrNotFound end.

Definition MessageChannel (T : tables) (id : string) : result storeError string :=
  match find (λ r, bool_decide (m_ID r = id)) (messageRows T) with
  | Some r => match row_channel T r with Some ch => Ok ch | None => Err ErrNotFound end
  | None => Err ErrNotFound
  end.

Definition TopicChannel (T : tables) (topic : string) : result storeError string :=
  match topic_channel T topic with Some ch => Ok ch | None => Err ErrNotFound end.

End DeliveryTables.
