(* ===== verification/DeliveryTablesFacts.v ===== *)
(** Theorems about participation in delivery: the queries that start from an agent and the
    queries that start from a channel find the same targets. *)
From stdpp Require Import base gmap strings list sets.
From Stdlib Require Import ZArith Lia.
From S2P Require Import Prelude ChannelTree Blocks Messages DeliveryTables.

Module DeliveryTablesFacts.
Import ChannelTree Messages DeliveryTables.

Open Scope Z_scope.

(** The foreign keys of [channels.parent_agent_id] and [agent_accounts.parent_agent_id]. *)
Record keys_ok (T : tables) : Prop := {
  key_anchor ch c p : chans T !! ch = Some c → c_parent (row c) = Some p → is_Some (agentRows T !! p);
  key_parent a r p : agentRows T !! a = Some r → parent_agent_id r = Some p → is_Some (agentRows T !! p);
}.

(** An agent that takes part in a channel, with the flag of its row. *)
Inductive takes_part (T : tables) (agent ch : string) (s : bool) : Prop :=
| part_stored c : chans T !! ch = Some c → membership_mode (row c) = ChannelMembershipModeExplicit →
    members T !! (ch, agent) = Some s → takes_part T agent ch s
| part_tree c p : chans T !! ch = Some c → membership_mode (row c) = ChannelMembershipModeTree → c_parent (row c) = Some p →
    is_Some (agentRows T !! agent) → rtc (parent_of (directory_of T)) agent p →
    s = default false (subscriptions T !! (ch, agent)) → takes_part T agent ch s.

Lemma mode_of_Some T ch m : mode_of T ch = Some m ↔ ∃ c, chans T !! ch = Some c ∧ membership_mode (row c) = m.
Proof. unfold mode_of. destruct (chans T !! ch); naive_solver. Qed.

Lemma modes_differ : ChannelMembershipModeExplicit ≠ ChannelMembershipModeTree.
Proof. done. Qed.

(** ** The walk down *)

Lemma elem_of_children T work a : a ∈ children T work ↔ ∃ r p, agentRows T !! a = Some r ∧ parent_agent_id r = Some p ∧ p ∈ work.
Proof.
  unfold children. rewrite elem_of_dom. unfold is_Some. setoid_rewrite map_lookup_filter_Some. simpl. split.
  - intros (r & Ha & Hp). destruct (parent_agent_id r) as [p|] eqn:E; simpl in Hp; [|done]. apply bool_decide_eq_true in Hp. eauto.
  - intros (r & p & Ha & Hp & Hin). exists r. split; [done|]. rewrite Hp. simpl. by apply bool_decide_eq_true.
Qed.

Definition below (T : tables) (p a : string) : Prop := ∃ r, agentRows T !! a = Some r ∧ parent_agent_id r = Some p.

(** The walk ends before its fuel: what it adds are distinct agents. *)
Lemma subtree_go_spec fuel T seen work :
  work ⊆ seen → (∀ p a, p ∈ seen → below T p a → a ∈ seen ∨ p ∈ work) → (size (dom (agentRows T) ∖ seen) < fuel)%nat →
  let l := subtree_go fuel T seen work in
  seen ⊆ l ∧ (∀ p a, p ∈ l → below T p a → a ∈ l) ∧ (∀ a, a ∈ l → a ∈ seen ∨ ∃ p, p ∈ work ∧ rtc (below T) p a).
Proof.
  revert seen work. induction fuel as [|fuel IH]; intros seen work Hw Hc Hf; [lia|]. cbn [subtree_go]. cbn zeta.
  case_bool_decide as Hn.
  - split; [done|]. split; [|auto]. intros p a Hp Hb. destruct (Hc p a Hp Hb) as [?|Hpw]; [done|].
    destruct (decide (a ∈ seen)) as [|Hs]; [done|]. exfalso. eapply (not_elem_of_empty (C := gset string) a). rewrite <- Hn.
    apply elem_of_difference. split; [|done]. apply elem_of_children. destruct Hb as (r & ? & ?). eauto.
  - set (new := children T work ∖ seen) in *.
    destruct (IH (seen ∪ new) new) as (H1 & H2 & H3).
    + set_solver.
    + intros p a [Hp|Hp]%elem_of_union Hb; [|by right]. destruct (Hc p a Hp Hb) as [?|Hpw]; [left; set_solver|].
      left. destruct (decide (a ∈ seen)); [set_solver|]. apply elem_of_union_r, elem_of_difference. split; [|done].
      apply elem_of_children. destruct Hb as (r & ? & ?). eauto.
    + apply set_choose_L in Hn as [x Hx]. eapply Nat.lt_le_trans; [|apply Nat.lt_succ_r, Hf].
      apply subset_size. split; [set_solver|]. intros Hs.
      assert (x ∈ dom (agentRows T) ∖ (seen ∪ new)) as Hbad.
      { apply Hs. apply elem_of_difference in Hx as [Hx ?]. apply elem_of_difference. split; [|done].
        apply elem_of_children in Hx as (r & ? & ? & _). apply elem_of_dom. eauto. }
      set_solver.
    + split; [set_solver|]. split; [done|]. intros a Ha. destruct (H3 a Ha) as [[?|Hnew]%elem_of_union|(p & Hp & Hr)]; [by left|right..].
      * apply elem_of_difference in Hnew as [(r & p & ? & ? & ?)%elem_of_children _]. exists p. split; [done|]. apply rtc_once. by exists r.
      * apply elem_of_difference in Hp as [(r & q & ? & ? & ?)%elem_of_children _]. exists q. split; [done|]. eapply rtc_l; [by exists r|done].
Qed.

Lemma subtree_spec T anchor a : a ∈ subtree T anchor ↔ rtc (below T) anchor a.
Proof.
  destruct (subtree_go_spec (S (size (agentRows T))) T {[anchor]} {[anchor]}) as (H1 & H2 & H3).
  { done. } { intros p x Hp _. by right. }
  { apply Nat.lt_succ_r. rewrite <- size_dom. apply subseteq_size. set_solver. }
  change (subtree_go _ _ _ _) with (subtree T anchor) in *. split.
  - intros Ha. destruct (H3 a Ha) as [->%elem_of_singleton|(p & ->%elem_of_singleton & ?)]; [done|done].
  - assert (anchor ∈ subtree T anchor) as Hin by set_solver. clear H1 H3. intros Hr.
    set (l := subtree T anchor) in *. clearbody l. induction Hr as [|x y z Hxy _ IH]; [done|]. by eapply IH, H2.
Qed.

(** Down from the anchor is up from the agent. *)
Lemma below_parent T p a : keys_ok T → below T p a ↔ parent_of (directory_of T) a p.
Proof.
  intros HK. unfold below, parent_of. simpl. split.
  - intros (r & Ha & Hp). exists r. split; [done|]. split; [done|]. by eapply key_parent.
  - intros (r & Ha & Hp & _). eauto.
Qed.

Lemma down_up T p a : keys_ok T → rtc (below T) p a ↔ rtc (parent_of (directory_of T)) a p.
Proof.
  intros HK. split.
  - induction 1 as [|x y z Hxy _ IH]; [done|]. eapply rtc_r; [done|]. by apply below_parent.
  - induction 1 as [|x y z Hxy _ IH]; [done|]. eapply rtc_r; [done|]. by apply below_parent.
Qed.

(** ** The rows *)

Lemma elem_of_stored T agent ch s : (ch, s) ∈ stored_rows T agent ↔
  members T !! (ch, agent) = Some s ∧ mode_of T ch = Some ChannelMembershipModeExplicit.
Proof.
  unfold stored_rows. rewrite list_elem_of_fmap. split.
  - intros ([[c a] b] & Heq & [[Ha Hm] Hin]%list_elem_of_filter). simpl in *. simplify_eq. by apply elem_of_map_to_list in Hin.
  - intros [Hm Hmode]. exists ((ch, agent), s). split; [done|]. apply list_elem_of_filter. simpl. split; [done|]. by apply elem_of_map_to_list.
Qed.

Lemma elem_of_tree T agent ch s cs : (ch, s) ∈ tree_rows T agent (chain (directory_of T) agent) cs ↔
  ∃ c p, (ch, c) ∈ cs ∧ membership_mode (row c) = ChannelMembershipModeTree ∧ c_parent (row c) = Some p
    ∧ is_Some (agentRows T !! agent) ∧ rtc (parent_of (directory_of T)) agent p ∧ s = default false (subscriptions T !! (ch, agent)).
Proof.
  unfold tree_rows. rewrite list_elem_of_fmap. split.
  - intros ([x c] & Heq & [(Ha & Hm & Hp) Hin]%list_elem_of_filter). simpl in *. simplify_eq.
    destruct (c_parent (row c)) as [p|] eqn:E; simpl in Hp; [|done]. apply bool_decide_eq_true, chain_spec in Hp as [? ?].
    exists c, p. done.
  - intros (c & p & Hin & Hm & Hp & Ha & Hr & ->). exists (ch, c). split; [done|]. apply list_elem_of_filter. simpl. split; [|done].
    split; [by apply chain_spec|]. split; [done|]. rewrite Hp. simpl. apply bool_decide_eq_true. by apply chain_spec.
Qed.

Lemma elem_of_participants T agent ch s : (ch, s) ∈ participants T agent ↔ takes_part T agent ch s.
Proof.
  unfold participants. rewrite elem_of_app, elem_of_stored, elem_of_tree, mode_of_Some. split.
  - intros [(Hm & c & ? & ?)|(c & p & Hc%elem_of_map_to_list & ? & ? & ? & ? & ?)]; [by eapply part_stored|by eapply part_tree].
  - intros [c Hc Hm Hs|c p Hc Hm Hp Ha Hr Hs]; [left; eauto|right]. exists c, p. rewrite elem_of_map_to_list. done.
Qed.

Lemma elem_of_channel_participants T agent ch s : keys_ok T → is_Some (agentRows T !! agent) →
  (agent, s) ∈ channel_participants T ch ↔ takes_part T agent ch s.
Proof.
  intros HK Ha. unfold channel_participants. destruct (chans T !! ch) as [c|] eqn:Hc.
  2:{ split; [by intros ?%elem_of_nil|]. intros [c ? ? ?|c p ? ? ? ? ? ?]; congruence. }
  case_bool_decide as Hm.
  { rewrite list_elem_of_fmap. split.
    - intros ([[x a] b] & Heq & [Hx Hin]%list_elem_of_filter). simpl in *. simplify_eq. apply elem_of_map_to_list in Hin. by eapply part_stored.
    - intros [c' Hc' _ Hs|c' p Hc' Hm' Hp _ Hr ->]; simplify_eq.
      + exists ((ch, agent), s). split; [done|]. apply list_elem_of_filter. split; [done|]. by apply elem_of_map_to_list.
      + rewrite Hm in Hm'. by apply modes_differ in Hm'. }
  case_bool_decide as Ht.
  2:{ split; [by intros ?%elem_of_nil|]. intros [c' Hc' ? ?|c' p Hc' ? ? ? ? ?]; simplify_eq. }
  destruct (c_parent (row c)) as [p|] eqn:Hp.
  2:{ split; [by intros ?%elem_of_nil|]. intros [c' Hc' ? ?|c' p Hc' ? ? ? ? ?]; simplify_eq. }
  rewrite list_elem_of_fmap. setoid_rewrite elem_of_elements. setoid_rewrite subtree_spec. split.
  - intros (a & Heq & Hr). simplify_eq. eapply part_tree; try done. by apply down_up.
  - intros [c' Hc' Hm' Hs|c' p' Hc' _ Hp' _ Hr ->]; simplify_eq.
    exists agent. split; [done|]. by apply down_up.
Qed.

(** A target of a channel. *)
Definition target (T : tables) (agent ch : string) : Prop :=
  is_Some (agentRows T !! agent) ∧ ∃ s, takes_part T agent ch s ∧ is_target T agent ch s = true.

Lemma swept_spec T agent r : swept T agent r = true ↔ is_Some (agentRows T !! agent) ∧ is_target T agent r.1 r.2 = true.
Proof. unfold swept, is_agent. by rewrite andb_true_iff, bool_decide_eq_true. Qed.

Lemma SweepChannels_target T agent ch : ch ∈ SweepChannels T agent ↔ target T agent ch.
Proof.
  unfold SweepChannels, target. rewrite elem_of_list_to_set, list_elem_of_fmap. split.
  - intros ([x s] & -> & [[Ha Ht]%swept_spec Hin%elem_of_participants]%list_elem_of_filter). simpl in *. split; [done|]. by exists s.
  - intros (Ha & s & Hp & Ht). exists (ch, s). split; [done|]. apply list_elem_of_filter. split; [by apply swept_spec|by apply elem_of_participants].
Qed.

Lemma InSweepSet_target T agent ch : InSweepSet T agent ch = true ↔ target T agent ch.
Proof.
  unfold InSweepSet, target. rewrite existsb_exists. split.
  - intros ([x s] & Hin%list_elem_of_In & [Hx [Ha Ht]%swept_spec]%andb_true_iff). apply bool_decide_eq_true in Hx. simpl in *. subst x.
    split; [done|]. exists s. split; [|done]. apply elem_of_participants. unfold participants. apply elem_of_app in Hin as [Hin|Hin]; [by apply elem_of_app; left|].
    case_bool_decide as Hm.
    + apply elem_of_app; right. apply elem_of_tree in Hin as (c & p & [_ Hc]%list_elem_of_filter & ?). apply elem_of_tree. by exists c, p.
    + apply list_elem_of_fmap in Hin as (? & _ & [(Hbad & _) _]%list_elem_of_filter). by apply elem_of_nil in Hbad.
  - intros (Ha & s & Hp & Ht). exists (ch, s). split; [|by rewrite bool_decide_true, (proj2 (swept_spec _ _ _)) by done].
    apply list_elem_of_In, elem_of_app. destruct Hp as [c Hc Hm Hs|c p Hc Hm Hpar _ Hr Hs].
    + left. apply elem_of_stored. split; [done|]. apply mode_of_Some. eauto.
    + right. rewrite bool_decide_true by (apply mode_of_Some; eauto). apply elem_of_tree. exists c, p.
      split; [|done]. apply list_elem_of_filter. split; [done|]. by apply elem_of_map_to_list.
Qed.

Lemma SubscribedAgents_target T ch author agent : keys_ok T →
  agent ∈ SubscribedAgents T ch author ↔ target T agent ch ∧ agent ≠ author ∧ reaches T author agent = true.
Proof.
  intros HK. unfold SubscribedAgents, target, is_agent. rewrite elem_of_list_to_set, list_elem_of_omap. split.
  - intros ([a s] & Hin & H). simpl in H. repeat case_bool_decide; simpl in H; try done; [|by destruct (is_target _ _ _ _)].
    destruct (is_target T a ch s) eqn:Ht, (reaches T author a) eqn:Hr; simpl in H; simplify_eq.
    split; [|done]. split; [done|]. exists s. split; [|done]. by apply elem_of_channel_participants.
  - intros ((Ha & s & Hp & Ht) & Hne & Hr). exists (agent, s). split; [by apply elem_of_channel_participants|]. simpl.
    by rewrite !bool_decide_true, Ht, Hr.
Qed.

(** * Claims *)

(** The delivery queries agree.  Whether they walk from an agent up its ancestors or from
    a channel down its subtree, whatever cycles the parent rows have, the membership test of
    the sweep, the listing of an agent's swept channels and the fan-out of a post find the
    same targets: an agent that takes part in the channel and is subscribed to it, has it as
    its home, or must take it; the fan-out leaves out the author and whom it may not reach. *)
Theorem sweep_forms_agree T agent ch author (HK : keys_ok T) :
  (InSweepSet T agent ch = true ↔ ch ∈ SweepChannels T agent)
  ∧ (ch ∈ SweepChannels T agent ↔ target T agent ch)
  ∧ (agent ∈ SubscribedAgents T ch author ↔ InSweepSet T agent ch = true ∧ agent ≠ author ∧ reaches T author agent = true).
Proof.
  rewrite InSweepSet_target, SweepChannels_target, SubscribedAgents_target by done. done.
Qed.

(** A tree channel over two agents whose parent rows form a cycle. *)
Definition ex_tree : tables :=
  MkTables {["a"; "b"; "u"]} {["a" := MkAgentRow "u" (Some "b"); "b" := MkAgentRow "u" (Some "a")]} ∅ ∅ ∅ ∅
    {["c" := MkChan (MkChannelRow "c" 0 None (Some "a") 1) None 0 false]} ∅ {[("c", "b") := true]} [] [] ∅ ∅ ∅.

Lemma sweep_forms_agree_witness : keys_ok ex_tree ∧ "b" ∈ SubscribedAgents ex_tree "c" "u".
Proof.
  assert (keys_ok ex_tree) as HK.
  { split.
    - intros ch c p Hc Hp. unfold ex_tree in Hc. cbn [chans] in Hc. apply lookup_singleton_Some in Hc as [_ <-]. simpl in Hp. injection Hp as <-. vm_compute. eauto.
    - intros a r p Ha Hp. unfold ex_tree in Ha. cbn [agentRows] in Ha. apply lookup_insert_Some in Ha as [[_ <-]|[_ [_ <-]%lookup_singleton_Some]]; simpl in Hp; injection Hp as <-; vm_compute; eauto. }
  split; [done|]. apply (proj2 (proj2 (sweep_forms_agree ex_tree "b" "c" "u" HK))). split; [by vm_compute|]. split; [done|by vm_compute].
Defined.

End DeliveryTablesFacts.
