(* ===== verification/DeliveryCursors.v ===== *)
(** Delivery cursors and owed mentions ([src/go/internal/store/delivery_cursors.go] and its
    queries): what an agent has acknowledged on a channel, and what it is still owed.

    A transaction is one function on the tables; the queries of a transaction that only
    fail when the database does have no error here.  [above_seqs] is read by membership
    only, so that the order in which Go's map is written to it does not matter. *)
From stdpp Require Import base gmap strings list sets sorting.
From Stdlib Require Import ZArith Lia.
From S2P Require Import Prelude ChannelTree Blocks Messages DeliveryTables.

Module DeliveryCursors.
Import ChannelTree Messages DeliveryTables.

Open Scope Z_scope.

(** ** Seeding *)

(** Seeds an agent at the channel's head; an existing cursor is kept. *)
Definition SeedDeliveryCursor (agent ch : string) (T : tables) : result storeError tables :=
  if negb (is_agent T agent) then Ok T
  else if bool_decide (is_Some (cursors T !! (agent, ch))) then Ok T
  else if negb (bool_decide (is_Some (chans T !! ch))) then Err ErrInternal
  else Ok (set_cursors (<[(agent, ch) := MkCursor (channel_head T ch) []]> (cursors T)) T).

Definition agent_members (T : tables) (ch : string) : gset string :=
  set_map snd (filter (λ m : string * string, m.1 = ch ∧ is_agent T m.2 = true) (dom (members T))).

Definition seedChannelDeliveryCursors (ch : string) (T : tables) : tables :=
  set_cursors (cursors T ∪ set_to_map (λ a, ((a, ch), MkCursor (channel_head T ch) [])) (agent_members T ch)) T.

(** ** Owed mentions *)

Definition RecordOwedMention (agent ch messageID : string) (T : tables) : result storeError tables :=
  if negb (bool_decide (agent ∈ accts T)) then Ok T
  else if bool_decide (is_Some (owed T !! (agent, messageID))) then Ok T
  else if negb (is_agent T agent && existsb (λ r, bool_decide (m_ID r = messageID)) (messageRows T) && bool_decide (is_Some (chans T !! ch)))
  then Err ErrInternal
  else Ok (set_owed (<[(agent, messageID) := ch]> (owed T)) T).

(** The delete, and whether a row was deleted. *)
Definition clearOwedMention (agent messageID : string) (T : tables) : bool * tables :=
  (bool_decide (is_Some (owed T !! (agent, messageID))), set_owed (delete (agent, messageID) (owed T)) T).

Definition ClearOwedMention (agent messageID : string) (T : tables) : tables := (clearOwedMention agent messageID T).2.

Definition CountOwedMentions (T : tables) : Z := Z.of_nat (size (owed T)).

Definition OwedMentionAccounts (T : tables) : gset string := set_map fst (dom (owed T)).

Definition seq_le (a b : string * messageRow) : Prop := m_Seq a.2 ≤ m_Seq b.2.

#[export] Instance seq_le_dec a b : Decision (seq_le a b).
Proof. unfold seq_le. apply _. Defined.

(** The rows of a read, ascending, as messages by channel. *)
Fixpoint by_channel (rows : list (string * messageRow)) (out : gmap string (list Message)) : result storeError (gmap string (list Message)) :=
  match rows with
  | [] => Ok out
  | (ch, r) :: rows => m <-? messageFromParts r; by_channel rows (<[ch := default [] (out !! ch) ++ [m]]> out)
  end.

Definition owed_rows (T : tables) (agent : string) : list (string * messageRow) :=
  omap (λ r, match row_channel T r with
             | Some ch => if bool_decide (is_Some (owed T !! (agent, m_ID r))) && reaches T (m_Author r) agent then Some (ch, r) else None
             | None => None
             end) (messageRows T).

Definition OwedMentions (T : tables) (agent : string) : result storeError (gmap string (list Message)) :=
  by_channel (merge_sort seq_le (owed_rows T agent)) ∅.

(** ** The recovery scan *)

Definition MarkMentionsRouted (messageID : string) (T : tables) : tables :=
  if existsb (λ r, bool_decide (m_ID r = messageID)) (messageRows T) then set_routed ({[messageID]} ∪ routed T) T else T.

Record MessageWithChannel := MkWithChannel { mw_Message : Message; mw_Channel : string; mw_Seq : Z }.

Fixpoint with_channels (rows : list (string * messageRow)) : result storeError (list MessageWithChannel) :=
  match rows with
  | [] => Ok []
  | (ch, r) :: rows => m <-? messageFromParts r; rest <-? with_channels rows; Ok (MkWithChannel m ch (m_Seq r) :: rest)
  end.

Definition UnroutedMentionMessages (afterSeq : Z) (limit : nat) (T : tables) : result storeError (list MessageWithChannel) :=
  let rows := omap (λ r, match row_channel T r with
                         | Some ch => if bool_decide (m_ID r ∉ routed T) && bool_decide (afterSeq < m_Seq r) then Some (ch, r) else None
                         | None => None
                         end) (messageRows T) in
  with_channels (take limit (merge_sort seq_le rows)).

(** ** Acknowledgments *)

(** Messages above the cursor that the agent wrote, or whose author cannot reach it. *)
Definition skippable (T : tables) (agent : string) (r : messageRow) : bool :=
  bool_decide (m_Author r = agent) || negb (reaches T (m_Author r) agent).

Definition SkippableSeqsAbove (T : tables) (ch : string) (seq : Z) (agent : string) : list Z :=
  if is_agent T agent then m_Seq <$> filter (λ r, seq < m_Seq r ∧ skippable T agent r = true) (channel_rows T ch) else [].

(** The loop that advances over a contiguous prefix. *)
Fixpoint drain (fuel : nat) (ackedSeq : Z) (above skip : gset Z) : Z * gset Z :=
  match fuel with
  | O => (ackedSeq, above)
  | S fuel =>
      let next := ackedSeq + 1 in
      if bool_decide (next ∈ above) || bool_decide (next ∈ skip) then drain fuel next (above ∖ {[next]}) skip else (ackedSeq, above)
  end.

Definition advance (T : tables) (agent ch : string) (seq : Z) (c : cursorRow) : cursorRow :=
  let above := {[seq]} ∪ list_to_set (above_seqs c) : gset Z in
  let skip := list_to_set (SkippableSeqsAbove T ch (acked_seq c) agent) : gset Z in
  let '(acked, above) := drain (S (size above + size skip)) (acked_seq c) above skip in
  MkCursor acked (filter (λ s, acked < s) (elements above)).

Definition ResolveAckMessage (T : tables) (messageID ch : string) : option Z :=
  m_Seq <$> find (λ r, bool_decide (m_ID r = messageID) && bool_decide (row_channel T r = Some ch)) (messageRows T).

Definition AckDelivery (agent ch messageID : string) (T : tables) : tables :=
  match ResolveAckMessage T messageID ch with
  | None => T
  | Some seq =>
      let '(cleared, T1) := clearOwedMention agent messageID T in
      let commitIfCleared := if cleared then T1 else T in
      match cursors T1 !! (agent, ch) with
      | None => commitIfCleared
      | Some c =>
          if bool_decide (seq ≤ acked_seq c) then commitIfCleared
          else set_cursors (<[(agent, ch) := advance T1 agent ch seq c]> (cursors T1)) T1
      end
  end.

(** ** The sweep *)

Definition owed_after (T : tables) (agent ch : string) : Z :=
  match cursors T !! (agent, ch) with Some c => acked_seq c | None => channel_head T ch end.

Definition retained (T : tables) (agent ch : string) : list Z :=
  match cursors T !! (agent, ch) with Some c => above_seqs c | None => [] end.

Definition undelivered (T : tables) (agent ch : string) (r : messageRow) : bool :=
  bool_decide (m_Author r ≠ agent) && reaches T (m_Author r) agent
  && bool_decide (owed_after T agent ch < m_Seq r) && bool_decide (m_Seq r ∉ retained T agent ch).

Definition undelivered_rows (T : tables) (agent : string) : list (string * messageRow) :=
  mbind (λ p : string * bool, if swept T agent p then pair p.1 <$> filter (λ r, undelivered T agent p.1 r = true) (channel_rows T p.1) else [])
    (participants T agent).

Definition UndeliveredMessages (T : tables) (agent : string) : result storeError (gmap string (list Message)) :=
  by_channel (merge_sort seq_le (undelivered_rows T agent)) ∅.

End DeliveryCursors.
