(* ===== verification/DeliveryCursorFacts.v ===== *)
(** Theorems about delivery cursors: an acknowledgment removes exactly its message from what
    the agent is owed, and over any history nothing else does. *)
From stdpp Require Import base gmap strings list sets sorting.
From Stdlib Require Import ZArith Lia.
From S2P Require Import Prelude ChannelTree Blocks Messages DeliveryTables DeliveryTablesFacts DeliveryCursors.

Module DeliveryCursorFacts.
Import ChannelTree Messages DeliveryTables DeliveryTablesFacts DeliveryCursors.

Open Scope Z_scope.

(** ** The advance *)

(** The loop stops by itself, at the end of a run of numbers that are acknowledged or skipped. *)
Lemma drain_exact fuel (acked : Z) (above skip : gset Z) :
  (size (filter (λ s, acked < s)%Z (above ∪ skip)) < fuel)%nat →
  let '(acked', above') := drain fuel acked above skip in
  acked ≤ acked' ∧ (∀ s, acked < s ≤ acked' → s ∈ above ∪ skip) ∧ acked' + 1 ∉ above ∪ skip
  ∧ (∀ s, s ∈ above' ↔ s ∈ above ∧ ¬ acked < s ≤ acked').
Proof.
  revert acked above. induction fuel as [|fuel IH]; intros acked above Hf; [lia|]. cbn [drain].
  destruct (bool_decide (acked + 1 ∈ above) || bool_decide (acked + 1 ∈ skip)) eqn:E.
  - assert (acked + 1 ∈ above ∪ skip) as Hin
      by (apply orb_true_iff in E as [E|E]; apply bool_decide_eq_true in E; set_solver).
    specialize (IH (acked + 1) (above ∖ {[acked + 1]})).
    assert (size (filter (λ s, acked + 1 < s)%Z (above ∖ {[(acked + 1)%Z]} ∪ skip)) < fuel)%nat as Hsz.
    { eapply Nat.lt_le_trans; [|apply Nat.lt_succ_r, Hf]. apply subset_size. split.
      - intros s. rewrite !elem_of_filter. intros [? ?]. split; [lia|set_solver].
      - intros Hs. assert (acked + 1 ∈ filter (λ s, acked < s) (above ∪ skip)) as Hm by (apply elem_of_filter; split; [lia|done]).
        apply Hs in Hm. apply elem_of_filter in Hm as [? _]. lia. }
    destruct (drain fuel (acked + 1) _ skip) as [acked' above'] eqn:Ed. specialize (IH Hsz) as (H1 & H2 & H3 & H4).
    split; [lia|]. split; [|split].
    + intros s Hs. destruct (decide (s = acked + 1)) as [->|Hne]; [done|]. specialize (H2 s ltac:(lia)). set_solver.
    + intros [Hb|Hb]%elem_of_union; apply H3; [|set_solver]. apply elem_of_union_l, elem_of_difference. split; [done|]. rewrite elem_of_singleton. lia.
    + intros s. rewrite H4, elem_of_difference, elem_of_singleton. split; [intros [[? ?] ?]; split; [done|]; lia|].
      intros [? ?]. split; [split; [done|]|]; lia.
  - apply orb_false_iff in E as [E1 E2]. apply bool_decide_eq_false in E1, E2.
    split; [lia|]. split; [intros; lia|]. split; [set_solver|]. intros s. split; [intros ?; split; [done|lia]|by intros [? _]].
Qed.

Lemma elem_of_skippable T ch seq agent s : is_agent T agent = true →
  s ∈ SkippableSeqsAbove T ch seq agent ↔ ∃ r, r ∈ channel_rows T ch ∧ m_Seq r = s ∧ seq < s ∧ skippable T agent r = true.
Proof.
  intros Ha. unfold SkippableSeqsAbove. rewrite Ha, list_elem_of_fmap. split.
  - intros (r & -> & [[? ?] ?]%list_elem_of_filter). eauto.
  - intros (r & ? & <- & ? & ?). exists r. split; [done|]. by apply list_elem_of_filter.
Qed.

(** What is settled by a cursor. *)
Definition behind (c : cursorRow) (s : Z) : Prop := s ≤ acked_seq c ∨ s ∈ above_seqs c.

(** The cursor after an acknowledgment has settled what it had before, the acknowledged
    message, and messages that need no acknowledgment. *)
Lemma advance_spec T agent ch seq c : acked_seq c < seq →
  let c' := advance T agent ch seq c in
  acked_seq c ≤ acked_seq c'
  ∧ (∀ s, behind c s → behind c' s) ∧ behind c' seq
  ∧ (∀ s, behind c' s → behind c s ∨ s = seq ∨ s ∈ SkippableSeqsAbove T ch (acked_seq c) agent)
  ∧ acked_seq c' + 1 ∉ above_seqs c'.
Proof.
  intros Hseq. unfold advance. set (above := {[seq]} ∪ list_to_set (above_seqs c) : gset Z).
  set (skip := list_to_set (SkippableSeqsAbove T ch (acked_seq c) agent) : gset Z).
  pose proof (drain_exact (S (size above + size skip)) (acked_seq c) above skip) as H.
  destruct (drain _ _ above skip) as [acked above'] eqn:Ed. cbn zeta.
  destruct H as (H1 & H2 & H3 & H4).
  { eapply Nat.le_lt_trans; [apply (subseteq_size _ (above ∪ skip)); set_solver|].
    rewrite size_union_alt. pose proof (subseteq_size (skip ∖ above) skip ltac:(set_solver)). lia. }
  unfold behind. simpl.
  assert (∀ s, s ∈ filter (λ s, acked < s) (elements above') ↔ acked < s ∧ s ∈ above) as Hab.
  { intros s. rewrite list_elem_of_filter, elem_of_elements, H4. split; [naive_solver|]. intros [? ?]. split; [done|]. split; [done|lia]. }
  split; [done|]. repeat setoid_rewrite Hab. split; [|split; [|split]].
  - intros s [?|Hs]; [left; lia|]. destruct (Z.le_gt_cases s acked); [by left|right]. split; [lia|]. set_solver.
  - destruct (Z.le_gt_cases seq acked); [by left|right]. split; [lia|]. set_solver.
  - intros s [Hs|[_ Hs]].
    + destruct (Z.le_gt_cases s (acked_seq c)); [by left; left|]. specialize (H2 s ltac:(lia)). set_solver.
    + set_solver.
  - intros [_ Hb]. apply H3. set_solver.
Qed.

(** ** Rows that count *)

(** A stored message, by what delivery reads of it. *)
Definition msg (T : tables) (id : string) (seq : Z) (author ch : string) : Prop :=
  ∃ r, r ∈ messageRows T ∧ m_ID r = id ∧ m_Seq r = seq ∧ m_Author r = author ∧ row_channel T r = Some ch.

Record rows_ok (T : tables) : Prop := {
  rows_ids : NoDup (m_ID <$> messageRows T);
  rows_seqs : NoDup (m_Seq <$> messageRows T);
}.

Lemma fmap_inj_NoDup {A B} (f : A → B) (l : list A) x y : NoDup (f <$> l) → x ∈ l → y ∈ l → f x = f y → x = y.
Proof.
  intros Hn [i Hi]%list_elem_of_lookup [j Hj]%list_elem_of_lookup Hf.
  assert (i = j) as ->; [|congruence]. eapply (NoDup_lookup (f <$> l)); [done|by rewrite list_lookup_fmap, Hi|by rewrite list_lookup_fmap, Hj; simpl; congruence].
Qed.

Lemma msg_seq_inj T id id' seq author author' ch ch' : rows_ok T →
  msg T id seq author ch → msg T id' seq author' ch' → id = id' ∧ author = author' ∧ ch = ch'.
Proof.
  intros HR (r & Hr & <- & Hs & <- & Hc) (r' & Hr' & <- & Hs' & <- & Hc').
  assert (r = r') as -> by (eapply (fmap_inj_NoDup m_Seq); [apply HR|..]; congruence). split; [done|]. split; [done|]. congruence.
Qed.

Lemma msg_id_inj T id seq seq' author author' ch ch' : rows_ok T →
  msg T id seq author ch → msg T id seq' author' ch' → seq = seq' ∧ author = author' ∧ ch = ch'.
Proof.
  intros HR (r & Hr & <- & <- & <- & Hc) (r' & Hr' & Hi & <- & <- & Hc').
  assert (r = r') as -> by (eapply (fmap_inj_NoDup m_ID); [apply HR|..]; congruence). split; [done|]. split; [done|]. congruence.
Qed.

Lemma ResolveAckMessage_spec T id ch seq : rows_ok T → ResolveAckMessage T id ch = Some seq ↔ ∃ author, msg T id seq author ch.
Proof.
  intros HR. unfold ResolveAckMessage. split.
  - destruct (find _ _) as [r|] eqn:E; simpl; intros ?; simplify_eq. apply find_some in E as [Hin Hb].
    apply andb_true_iff in Hb as [H1 H2]. apply bool_decide_eq_true in H1, H2. exists (m_Author r), r. by rewrite list_elem_of_In.
  - intros (author & r & Hr & <- & <- & <- & Hc). destruct (find _ _) as [r'|] eqn:E; simpl.
    + apply find_some in E as [Hin Hb]. apply andb_true_iff in Hb as [H1 _]. apply bool_decide_eq_true in H1.
      apply list_elem_of_In in Hin. f_equal. f_equal. by eapply (fmap_inj_NoDup m_ID); [apply HR|..].
    + apply list_elem_of_In in Hr. pose proof (find_none _ _ E _ Hr) as Hb. simpl in Hb. by rewrite !bool_decide_true in Hb.
Qed.

Lemma elem_of_channel_rows T ch r : r ∈ channel_rows T ch ↔ row_channel T r = Some ch ∧ r ∈ messageRows T.
Proof. unfold channel_rows. by rewrite list_elem_of_filter. Qed.

(** ** What an acknowledgment does *)

(** The tables that a cursor update leaves alone. *)
Definition same_world (T T' : tables) : Prop :=
  messageRows T' = messageRows T ∧ topicRows T' = topicRows T ∧ agentRows T' = agentRows T ∧ systems T' = systems T ∧ peers T' = peers T
  ∧ chans T' = chans T ∧ members T' = members T ∧ subscriptions T' = subscriptions T ∧ homes T' = homes T ∧ accts T' = accts T.

Lemma ack_same_world agent ch id T : same_world T (AckDelivery agent ch id T).
Proof.
  unfold AckDelivery. destruct (ResolveAckMessage T id ch); [|done]. simpl.
  destruct (cursors T !! (agent, ch)); repeat case_bool_decide; done.
Qed.

Lemma ack_other_cursor agent ch id T a x : (a, x) ≠ (agent, ch) → cursors (AckDelivery agent ch id T) !! (a, x) = cursors T !! (a, x).
Proof.
  intros Hne. unfold AckDelivery. destruct (ResolveAckMessage T id ch); [|done]. simpl.
  destruct (cursors T !! (agent, ch)); repeat case_bool_decide; simpl; try done; by rewrite lookup_insert_ne.
Qed.

Lemma ack_owed agent ch id T k : ResolveAckMessage T id ch ≠ None →
  owed (AckDelivery agent ch id T) !! k = if bool_decide (k = (agent, id)) then None else owed T !! k.
Proof.
  intros Hr. unfold AckDelivery. destruct (ResolveAckMessage T id ch) as [seq|]; [|done]. cbn [clearOwedMention]. cbn zeta.
  assert (delete (agent, id) (owed T) !! k = if bool_decide (k = (agent, id)) then None else owed T !! k) as Hd.
  { case_bool_decide; [subst; by rewrite lookup_delete_eq|by rewrite lookup_delete_ne]. }
  assert (bool_decide (is_Some (owed T !! (agent, id))) = false → owed T !! k = delete (agent, id) (owed T) !! k) as Hno.
  { intros Hf%bool_decide_eq_false. rewrite delete_id; [done|]. by apply eq_None_not_Some. }
  rewrite <- Hd. cbn [cursors set_owed].
  destruct (cursors T !! (agent, ch)) as [c|]; [destruct (bool_decide (seq ≤ acked_seq c))|];
    destruct (bool_decide (is_Some (owed T !! (agent, id)))) eqn:E; cbn [owed set_owed set_cursors]; auto.
Qed.

(** The cursor of the pair, if it had one, has settled the message and nothing that counts. *)
Lemma ack_cursor agent ch id T seq author c :
  rows_ok T → msg T id seq author ch → cursors T !! (agent, ch) = Some c →
  ∃ c', cursors (AckDelivery agent ch id T) !! (agent, ch) = Some c' ∧ acked_seq c ≤ acked_seq c'
    ∧ (∀ s, behind c s → behind c' s) ∧ behind c' seq
    ∧ (∀ s, behind c' s → behind c s ∨ s = seq ∨ s ∈ SkippableSeqsAbove T ch (acked_seq c) agent).
Proof.
  intros HR Hm Hc. unfold AckDelivery. rewrite (proj2 (ResolveAckMessage_spec T id ch seq HR)) by eauto.
  cbn [clearOwedMention]. cbn zeta. cbn [cursors set_owed]. rewrite Hc. case_bool_decide as Hle.
  - exists c. assert (behind c seq) by (by left). destruct (bool_decide _); simpl; (split; [done|]); (split; [lia|]); auto.
  - set (T1 := set_owed _ T). exists (advance T1 agent ch seq c). cbn [cursors set_cursors]. rewrite lookup_insert_eq.
    split; [done|]. destruct (advance_spec T1 agent ch seq c ltac:(lia)) as (? & ? & ? & Hb & _). auto.
Qed.

(** ** What the sweep finds *)

Lemma undelivered_rows_spec T agent ch r : (ch, r) ∈ undelivered_rows T agent ↔
  target T agent ch ∧ row_channel T r = Some ch ∧ r ∈ messageRows T ∧ undelivered T agent ch r = true.
Proof.
  unfold undelivered_rows, target. rewrite list_elem_of_bind. split.
  - intros ([x s] & Hin & Hp). destruct (swept T agent (x, s)) eqn:Hs; [|by apply elem_of_nil in Hin].
    apply swept_spec in Hs as [Ha Ht]. simpl in *. apply list_elem_of_fmap in Hin as (r' & Heq & [Hu Hr]%list_elem_of_filter). simplify_eq.
    apply elem_of_channel_rows in Hr as [? ?]. apply elem_of_participants in Hp. eauto 10.
  - intros ((Ha & s & Hp & Ht) & Hc & Hr & Hu). exists (ch, s). split; [|by apply elem_of_participants].
    rewrite (proj2 (swept_spec T agent (ch, s))) by done. simpl. apply list_elem_of_fmap. exists r. split; [done|].
    apply list_elem_of_filter. split; [done|]. by apply elem_of_channel_rows.
Qed.

Lemma undelivered_spec T agent ch r : undelivered T agent ch r = true ↔
  skippable T agent r = false ∧ owed_after T agent ch < m_Seq r ∧ m_Seq r ∉ retained T agent ch.
Proof.
  unfold undelivered, skippable. rewrite !andb_true_iff, orb_false_iff, negb_false_iff, !bool_decide_eq_true, bool_decide_eq_false. tauto.
Qed.

Lemma head_ge T ch r : r ∈ channel_rows T ch → m_Seq r ≤ channel_head T ch.
Proof. unfold channel_head. induction (channel_rows T ch) as [|x l IH]; [by intros ?%elem_of_nil|]. intros [->|?]%elem_of_cons; simpl; [lia|]. specialize (IH ltac:(done)). lia. Qed.

(** Without a cursor nothing of the channel is owed; with one, what it has not settled. *)
Lemma pending_spec T agent ch r : r ∈ channel_rows T ch →
  owed_after T agent ch < m_Seq r ∧ m_Seq r ∉ retained T agent ch ↔ ∃ c, cursors T !! (agent, ch) = Some c ∧ ¬ behind c (m_Seq r).
Proof.
  intros Hr. unfold owed_after, retained, behind. destruct (cursors T !! (agent, ch)) as [c|].
  - split; [intros [? ?]; exists c; split; [done|]; intros [?|?]; [lia|done]|]. intros (c' & [= <-] & Hn). split; [|tauto].
    destruct (Z.le_gt_cases (m_Seq r) (acked_seq c)); [tauto|lia].
  - split; [intros [? _]; pose proof (head_ge T ch r Hr); lia|]. by intros (c & ? & _).
Qed.

Lemma same_world_reads T T' agent ch r : same_world T T' →
  (target T' agent ch ↔ target T agent ch) ∧ row_channel T' r = row_channel T r ∧ skippable T' agent r = skippable T agent r.
Proof.
  intros (H1 & H2 & H3 & H4 & H5 & H6 & H7 & H8 & H9 & H10).
  assert (directory_of T' = directory_of T) as Hd by (unfold directory_of; by rewrite H3, H6, H7, H10).
  split; [|split].
  - unfold target. rewrite H3. apply and_iff_compat_l. apply exist_proper. intros s. unfold is_target. rewrite H6, H9. apply and_iff_compat_r.
    split; (intros [c Hc Hm Hs|c p Hc Hm Hp Ha Hr Hs]; [eapply (part_stored _ _ _ _ c)|eapply (part_tree _ _ _ _ c p)]); congruence.
  - unfold row_channel, topic_channel. by rewrite H2.
  - unfold skippable, reaches, ResolveOwner. by rewrite H3, H4, H5.
Qed.

Lemma undelivered_at T agent ch r : row_channel T r = Some ch → r ∈ messageRows T →
  undelivered T agent ch r = true ↔ skippable T agent r = false ∧ ∃ c, cursors T !! (agent, ch) = Some c ∧ ¬ behind c (m_Seq r).
Proof. intros Hc Hr. rewrite undelivered_spec, pending_spec by (by apply elem_of_channel_rows). done. Qed.

Lemma skippable_row T ch seq agent r : rows_ok T → r ∈ messageRows T →
  m_Seq r ∈ SkippableSeqsAbove T ch seq agent → skippable T agent r = true.
Proof.
  intros HR Hr. unfold SkippableSeqsAbove. destruct (is_agent T agent); [|by intros ?%elem_of_nil].
  intros (r' & Hs & [[_ ?] [_ Hr']%elem_of_channel_rows]%list_elem_of_filter)%list_elem_of_fmap.
  by rewrite (fmap_inj_NoDup m_Seq (messageRows T) r r') by (by auto; apply HR).
Qed.

(** The sweep of the pair after its acknowledgment. *)
Lemma ack_pending agent ch id T r : rows_ok T → row_channel T r = Some ch → r ∈ messageRows T → skippable T agent r = false →
  (∃ c, cursors (AckDelivery agent ch id T) !! (agent, ch) = Some c ∧ ¬ behind c (m_Seq r))
  ↔ (∃ c, cursors T !! (agent, ch) = Some c ∧ ¬ behind c (m_Seq r)) ∧ m_ID r ≠ id.
Proof.
  intros HR Hch Hr Hs. destruct (ResolveAckMessage T id ch) as [seq|] eqn:Ha.
  2:{ assert (AckDelivery agent ch id T = T) as -> by (unfold AckDelivery; by rewrite Ha). split; [|by intros [? _]]. intros H. split; [done|].
      intros <-. assert (ResolveAckMessage T (m_ID r) ch = Some (m_Seq r)) by (apply ResolveAckMessage_spec; [done|]; exists (m_Author r), r; auto). congruence. }
  apply ResolveAckMessage_spec in Ha as [author Hm]; [|done].
  destruct (cursors T !! (agent, ch)) as [c|] eqn:Hc.
  - destruct (ack_cursor agent ch id T seq author c HR Hm Hc) as (c' & -> & _ & Hb & Hseq & Hold). split.
    + intros (? & [= <-] & Hn). split; [exists c; split; [done|]; intros Hbc; by apply Hn, Hb|]. intros <-. apply Hn.
      destruct (msg_id_inj T (m_ID r) seq (m_Seq r) author (m_Author r) ch ch HR Hm) as [-> _]; [by exists r|done].
    + intros [(? & [= <-] & Hn) Hne]. exists c'. split; [done|]. intros [Hbc|[Heq|Hsk]]%Hold; [done| |].
      * destruct (msg_seq_inj T id (m_ID r) seq author (m_Author r) ch ch HR Hm) as [? _]; [by exists r|congruence].
      * apply (skippable_row T ch _ agent r HR Hr) in Hsk. congruence.
  - assert (cursors (AckDelivery agent ch id T) !! (agent, ch) = None) as ->; [|split; [|intros [? _]]; naive_solver].
    unfold AckDelivery. destruct (ResolveAckMessage T id ch); [|done]. cbn [clearOwedMention]. cbn zeta. cbn [cursors set_owed]. rewrite Hc.
    by destruct (bool_decide _).
Qed.

Lemma elem_of_owed_rows T agent ch r : (ch, r) ∈ owed_rows T agent ↔
  r ∈ messageRows T ∧ row_channel T r = Some ch ∧ is_Some (owed T !! (agent, m_ID r)) ∧ reaches T (m_Author r) agent = true.
Proof.
  unfold owed_rows. rewrite list_elem_of_omap. split.
  - intros (r' & Hr & H). destruct (row_channel T r') as [x|] eqn:Hx; [|done].
    case_bool_decide; [|done]. destruct (reaches _ _ _) eqn:?; simpl in H; by simplify_eq.
  - intros (Hr & Hc & Ho & Hre). exists r. split; [done|]. by rewrite Hc, Hre, bool_decide_true.
Qed.

(** * Histories *)

Inductive label := Acked (agent ch id : string) | Seeded (agent ch : string) | SeededAll (ch : string) | Committed | Other.

(** What may happen between two sweeps.  A message commits under a number that is not taken,
    which need not be the highest, as transactions commit out of order; any other operation
    (among them those that create accounts, channels and memberships, and that peer agents
    or end it) keeps the cursors and, of each message, the number, author and channel.  No
    operation deletes a message or a cursor. *)
Inductive step (T : tables) : label → tables → Prop :=
| step_ack agent ch id : step T (Acked agent ch id) (AckDelivery agent ch id T)
| step_seed agent ch T' : SeedDeliveryCursor agent ch T = Ok T' → step T (Seeded agent ch) T'
| step_seed_all ch : step T (SeededAll ch) (seedChannelDeliveryCursors ch T)
| step_commit r : m_ID r ∉ m_ID <$> messageRows T → m_Seq r ∉ m_Seq <$> messageRows T → step T Committed (set_messages (messageRows T ++ [r]) T)
| step_other T' : cursors T' = cursors T → rows_ok T' → (∀ id seq author ch, msg T' id seq author ch ↔ msg T id seq author ch) →
    step T Other T'.

(** A history, with the tables that each step found. *)
Inductive steps (T : tables) : list (tables * label) → tables → Prop :=
| steps_nil : steps T [] T
| steps_snoc ls T1 l T2 : steps T ls T1 → step T1 l T2 → steps T (ls ++ [(T1, l)]) T2.

Lemma same_world_msg T T' id seq author ch : same_world T T' → msg T' id seq author ch ↔ msg T id seq author ch.
Proof. intros (H1 & H2 & _). unfold msg, row_channel, topic_channel. by rewrite H1, H2. Qed.

Lemma seed_spec agent ch T T' : SeedDeliveryCursor agent ch T = Ok T' → same_world T T' ∧ ∀ k, cursors T' !! k = cursors T !! k
  ∨ k = (agent, ch) ∧ cursors T !! k = None ∧ cursors T' !! k = Some (MkCursor (channel_head T ch) []).
Proof.
  unfold SeedDeliveryCursor. repeat case_bool_decide; destruct (is_agent T agent); simpl; intros ?; simplify_eq; try (split; [done|]; auto; fail).
  split; [done|]. intros k. simpl. destruct (decide (k = (agent, ch))) as [->|]; [right|left; by rewrite lookup_insert_ne].
  rewrite lookup_insert_eq. split; [done|]. split; [|done]. by apply eq_None_not_Some.
Qed.

Lemma seed_all_spec ch T : same_world T (seedChannelDeliveryCursors ch T) ∧ ∀ k, cursors (seedChannelDeliveryCursors ch T) !! k = cursors T !! k
  ∨ (∃ a, k = (a, ch)) ∧ cursors T !! k = None ∧ cursors (seedChannelDeliveryCursors ch T) !! k = Some (MkCursor (channel_head T ch) []).
Proof.
  split; [done|]. intros k. unfold seedChannelDeliveryCursors. cbn [cursors set_cursors]. destruct (cursors T !! k) as [c|] eqn:E.
  { left. by erewrite lookup_union_Some_l. }
  rewrite lookup_union_r by done. match goal with |- ?m !! k = None ∨ _ => destruct (m !! k) as [c|] eqn:Em end; [right|by left].
  apply lookup_set_to_map in Em; [|by intros ? ? _ _ [= ->]]. destruct Em as (a & _ & [= <- <-]). split; [eauto|]. done.
Qed.

Lemma step_keeps_rows T l T' : rows_ok T → step T l T' →
  rows_ok T' ∧ (∀ id seq author ch, msg T id seq author ch → msg T' id seq author ch).
Proof.
  intros HR. assert (∀ T', same_world T T' → rows_ok T' ∧ (∀ id seq author ch, msg T id seq author ch → msg T' id seq author ch)) as Hsw.
  { intros T0 HW. split; [|intros; by rewrite (same_world_msg T)].
    destruct HW as (H1 & _). destruct HR. by split; rewrite H1. }
  intros [agent ch id|agent ch T0 H%seed_spec|ch|r Hi Hs|T0 Hc HR' Hm].
  - apply Hsw, ack_same_world.
  - apply Hsw, H.
  - apply Hsw, seed_all_spec.
  - split.
    + destruct HR. split; cbn [messageRows set_messages]; rewrite fmap_app; apply NoDup_app; (split; [done|]); (split; [|apply NoDup_singleton]);
        intros x Hx ->%list_elem_of_singleton; done.
    + intros id seq author ch (r' & Hr' & H). exists r'. split; [apply elem_of_app; by left|done].
  - split; [done|]. intros; by apply Hm.
Qed.

Lemma skippable_msg T ch q a s : s ∈ SkippableSeqsAbove T ch q a → ∃ id author, msg T id s author ch ∧ (author = a ∨ reaches T author a = false).
Proof.
  unfold SkippableSeqsAbove. destruct (is_agent T a); [|by intros ?%elem_of_nil].
  intros (r & -> & [[_ Hs] [? ?]%elem_of_channel_rows]%list_elem_of_filter)%list_elem_of_fmap.
  exists (m_ID r), (m_Author r). split; [by exists r|]. unfold skippable in Hs. apply orb_true_iff in Hs as [?%bool_decide_eq_true|?%negb_true_iff]; auto.
Qed.

(** Why the cursor of a pair settles a message of the channel: the agent acknowledged it, or
    acknowledged another while this one was its own or of an author out of its reach. *)
Definition reason (T : tables) (l : label) (a ch id : string) (seq : Z) (author : string) : Prop :=
  ∃ i, l = Acked a ch i ∧ (i = id ∨ author = a ∨ msg T id seq author ch ∧ reaches T author a = false).

(** One step: a cursor that exists stays, and settles more only for a reason. *)
Lemma step_cursor T l T' a ch c : rows_ok T → step T l T' → cursors T !! (a, ch) = Some c →
  ∃ c', cursors T' !! (a, ch) = Some c' ∧ (∀ s, behind c s → behind c' s)
    ∧ ∀ s, behind c' s → behind c s ∨ ∃ id author, msg T id s author ch ∧ reason T l a ch id s author.
Proof.
  intros HR [agent x id|agent x T0 H%seed_spec|x|r Hi Hs|T0 Hcs HR' Hm] Hc.
  2: destruct H as [_ H]; destruct (H (a, ch)) as [E|(_ & E & _)]; [|congruence].
  3: destruct (seed_all_spec x T) as [_ H]; destruct (H (a, ch)) as [E|(_ & E & _)]; [|congruence].
  2-3: exists c; rewrite E; auto.
  2: exists c; auto.
  2: exists c; rewrite Hcs; auto.
  destruct (decide ((a, ch) = (agent, x))) as [[= -> ->]|Hne]; [|rewrite ack_other_cursor by done; exists c; auto].
  destruct (ResolveAckMessage T id x) as [seq|] eqn:E.
  - pose proof E as [author Hm]%ResolveAckMessage_spec; [|done].
    destruct (ack_cursor agent x id T seq author c HR Hm Hc) as (c' & Hc' & _ & Hb & _ & Hold). exists c'. split; [done|]. split; [done|].
    intros s [?|[->|(i & b & ? & Hw)%skippable_msg]]%Hold; [by left|right; exists id, author|right; exists i, b]; (split; [done|]);
      exists id; (split; [done|]); [by left|]. destruct Hw; auto.
  - unfold AckDelivery. rewrite E. exists c; auto.
Qed.

Lemma steps_rows T ls T' : rows_ok T → steps T ls T' →
  rows_ok T' ∧ (∀ id seq author ch, msg T id seq author ch → msg T' id seq author ch).
Proof.
  intros HR. induction 1 as [|ls T1 l T2 _ [H1 H2] Hs]; [done|]. destruct (step_keeps_rows _ _ _ H1 Hs) as [H4 H5].
  split; [done|]. auto.
Qed.

(** What a cursor has settled at the end, it had at the start, or there is a reason. *)
Lemma steps_cursor T ls T' a ch c : rows_ok T → steps T ls T' → cursors T !! (a, ch) = Some c →
  ∃ c', cursors T' !! (a, ch) = Some c' ∧
    ∀ s, behind c' s → behind c s ∨ ∃ id author T0 l, msg T' id s author ch ∧ (T0, l) ∈ ls ∧ reason T0 l a ch id s author.
Proof.
  intros HR Hst Hc. induction Hst as [|ls T1 l T2 Hst (c1 & Hc1 & H1) Hs]; [exists c; auto|].
  destruct (steps_rows _ _ _ HR Hst) as (HR1 & _). destruct (step_cursor _ _ _ _ _ _ HR1 Hs Hc1) as (c2 & Hc2 & _ & H2).
  destruct (step_keeps_rows _ _ _ HR1 Hs) as (_ & Hm). exists c2. split; [done|].
  intros s [[?|(id & b & T0 & l0 & ? & Hin & Hw)]%H1|(id & b & ? & Hw)]%H2; [by left|right..].
  - exists id, b, T0, l0. split; [auto|]. split; [|done]. apply elem_of_app. by left.
  - exists id, b, T1, l. split; [auto|]. split; [|done]. apply elem_of_app. right. by left.
Qed.

(** A message that was acknowledged, or that lies behind where the agent came in, stays settled. *)
Definition settled (T : tables) (a ch : string) (seq : Z) : Prop := match cursors T !! (a, ch) with Some c => behind c seq | None => True end.

Lemma step_settled T l T' a ch id seq author : rows_ok T → step T l T' → msg T id seq author ch → settled T a ch seq → settled T' a ch seq.
Proof.
  intros HR Hs Hm. unfold settled. destruct (cursors T !! (a, ch)) as [c|] eqn:Hc.
  { intros Hb. destruct (step_cursor _ _ _ _ _ _ HR Hs Hc) as (c' & -> & H & _). auto. }
  intros _. destruct (cursors T' !! (a, ch)) as [c'|] eqn:Hc'; [|done].
  assert (seq ≤ channel_head T ch) as Hle by (destruct Hm as (r & ? & _ & <- & _ & ?); by apply head_ge, elem_of_channel_rows).
  destruct Hs as [agent x i|agent x T0 H%seed_spec|x|r Hi Hq|T0 Hcs HR' _].
  - destruct (decide ((a, ch) = (agent, x))) as [[= -> ->]|Hne]; [|rewrite ack_other_cursor in Hc' by done; congruence].
    exfalso. revert Hc'. unfold AckDelivery. destruct (ResolveAckMessage T i x); [|congruence]. cbn [clearOwedMention]. cbn zeta. cbn [cursors set_owed].
    rewrite Hc. destruct (bool_decide _); simpl; congruence.
  - destruct H as [_ H]. destruct (H (a, ch)) as [E|([= -> ->] & _ & E)]; [congruence|]. rewrite E in Hc'. simplify_eq. by left.
  - destruct (seed_all_spec x T) as [_ H]. destruct (H (a, ch)) as [E|((? & [= -> ->]) & _ & E)]; [congruence|]. rewrite E in Hc'. simplify_eq. by left.
  - simpl in Hc'. congruence.
  - congruence.
Qed.

Lemma steps_settled T ls T' a ch id seq author : rows_ok T → steps T ls T' → msg T id seq author ch → settled T a ch seq →
  msg T' id seq author ch ∧ settled T' a ch seq.
Proof.
  intros HR Hst Hm Hset. induction Hst as [|ls T1 l T2 Hst [Hm1 Hset1] Hs]; [done|].
  destruct (steps_rows _ _ _ HR Hst) as (HR1 & _). destruct (step_keeps_rows _ _ _ HR1 Hs) as (_ & H). split; [auto|]. by eapply step_settled.
Qed.

(** An agent "a" of the user "u", a member of the channel "c" with one message of "u". *)
Definition ex_m1 : messageRow := MkRow "m1" "t" "u" 0 1 [] "" "" 0.
Definition ex_m2 : messageRow := MkRow "m2" "t" "u" 0 2 [] "" "" 0.

Definition ex_tables (rows : list messageRow) : tables :=
  MkTables {["a"; "u"]} {["a" := MkAgentRow "u" None]} ∅ ∅ ∅ ∅ {["c" := MkChan (MkChannelRow "c" 0 None None 0) None 0 false]}
    {[("c", "a") := true]} ∅ [MkTopic "t" "c" "t" "u" 0 false 0] rows {[("a", "c") := MkCursor 0 []]} ∅ ∅.

Lemma ex_rows_ok rows : NoDup (m_ID <$> rows) → NoDup (m_Seq <$> rows) → rows_ok (ex_tables rows).
Proof. by split. Qed.

(** * Claims *)

(** An acknowledgment takes exactly the message it names from what the agent is owed on
    that channel, from the sweep of the cursor and from the owed mentions: advancing over a
    run of numbers loses no other message, and no other agent or channel is touched.  An id
    that names no message of the channel changes nothing. *)
Theorem ack_is_exact agent ch id T (HR : rows_ok T) a x r :
  ((x, r) ∈ undelivered_rows (AckDelivery agent ch id T) a ↔ (x, r) ∈ undelivered_rows T a ∧ ¬ (a = agent ∧ x = ch ∧ m_ID r = id))
  ∧ ((x, r) ∈ owed_rows (AckDelivery agent ch id T) a ↔ (x, r) ∈ owed_rows T a ∧ ¬ (a = agent ∧ x = ch ∧ m_ID r = id))
  ∧ (ResolveAckMessage T id ch = None → AckDelivery agent ch id T = T).
Proof.
  pose proof (ack_same_world agent ch id T) as HW. destruct (same_world_reads _ _ a x r HW) as (Ht & Hc & Hs).
  destruct HW as (Hm & _ & Har & Hsy & Hp & _). split; [|split].
  - rewrite !undelivered_rows_spec, Ht, Hc, Hm. split.
    + intros (Htg & Hx & Hr & Hu). rewrite undelivered_at in Hu by (by rewrite ?Hc, ?Hm). rewrite Hs in Hu. destruct Hu as [Hsk Hu].
      rewrite undelivered_at by done. destruct (decide ((a, x) = (agent, ch))) as [[= -> ->]|Hne].
      * apply ack_pending in Hu as [? ?]; [|done..]. split; [done|]. by intros (_ & _ & ?).
      * rewrite ack_other_cursor in Hu by done. split; [done|]. intros (-> & -> & _). done.
    + intros [(Htg & Hx & Hr & Hu) Hn]. rewrite undelivered_at in Hu by done. destruct Hu as [Hsk Hu].
      split; [done|]. split; [done|]. split; [done|]. rewrite undelivered_at by (by rewrite ?Hc, ?Hm). rewrite Hs. split; [done|].
      destruct (decide ((a, x) = (agent, ch))) as [[= -> ->]|Hne]; [|by rewrite ack_other_cursor]. apply ack_pending; [done..|]. naive_solver.
  - rewrite !elem_of_owed_rows, Hm, Hc. assert (∀ b, reaches (AckDelivery agent ch id T) b a = reaches T b a) as ->
      by (intros b; unfold reaches, ResolveOwner; by rewrite Har, Hsy, Hp).
    destruct (ResolveAckMessage T id ch) as [seq|] eqn:E.
    + rewrite ack_owed by congruence. apply ResolveAckMessage_spec in E as [author (r0 & Hr0 & Hi & _ & _ & Hch)]; [|done].
      case_bool_decide as Hk; [|split; [|naive_solver]; intros (? & ? & ? & ?); split; [done|]; intros (-> & _ & <-); done].
      injection Hk as -> Hid. split; [naive_solver eauto using is_Some_None|]. intros [(Hr & Hx & _) Hn]. exfalso. apply Hn. split; [done|].
      assert (r = r0) as -> by (apply (fmap_inj_NoDup m_ID (messageRows T)); [apply HR|done|done|congruence]). split; [congruence|done].
    + unfold AckDelivery. rewrite E. split; [|naive_solver]. intros (Hr & Hx & Ho & Hre). split; [done|]. intros (_ & -> & <-).
      assert (ResolveAckMessage T (m_ID r) ch = Some (m_Seq r)) by (apply ResolveAckMessage_spec; [done|]; exists (m_Author r), r; auto). congruence.
  - intros E. unfold AckDelivery. by rewrite E.
Qed.

Lemma ack_is_exact_witness :
  ("c", ex_m1) ∈ undelivered_rows (AckDelivery "a" "c" "m2" (ex_tables [ex_m1; ex_m2])) "a"
  ∧ ("c", ex_m2) ∉ undelivered_rows (AckDelivery "a" "c" "m2" (ex_tables [ex_m1; ex_m2])) "a".
Proof.
  assert (rows_ok (ex_tables [ex_m1; ex_m2])) as HR by (apply ex_rows_ok; apply (bool_decide_unpack _); by vm_compute).
  split.
  - apply (proj1 (ack_is_exact "a" "c" "m2" _ HR "a" "c" ex_m1)). split; [|by intros (_ & _ & ?)]. apply list_elem_of_In. vm_compute. auto.
  - intros H%(proj1 (ack_is_exact "a" "c" "m2" _ HR "a" "c" ex_m2)). by destruct H as [_ []].
Defined.

(** C3. No message is lost and none is delivered twice.  The history may post messages, in
    whatever order their transactions commit, acknowledge, seed cursors, and create accounts,
    channels and memberships, peer agents and end it, and the like.  From any point at which
    an agent has a cursor, a message beyond the cursor that the agent has not acknowledged is
    in the next sweep, if its author may send the agent now and could at each acknowledgment
    of the agent on the channel that found the message stored, and if the channel still
    delivers to the agent.  (An acknowledgment passes over the messages that cannot reach the
    agent at that time.)  A message that was acknowledged while it was stored is in no later
    sweep. *)
Theorem nothing_lost_or_repeated T ls T' (HR : rows_ok T) (Hst : steps T ls T') a ch id seq author (Hm : msg T' id seq author ch) :
  (∀ c, cursors T !! (a, ch) = Some c → ¬ behind c seq → author ≠ a → reaches T' author a = true → target T' a ch →
     (∀ T0 i, (T0, Acked a ch i) ∈ ls → i ≠ id ∧ (msg T0 id seq author ch → reaches T0 author a = true)) →
     ∃ r, m_ID r = id ∧ (ch, r) ∈ undelivered_rows T' a)
  ∧ (∀ ls1 T1 ls2, steps T ls1 T1 → msg T1 id seq author ch → steps (AckDelivery a ch id T1) ls2 T' →
     ∀ r, m_ID r = id → (ch, r) ∉ undelivered_rows T' a).
Proof.
  destruct (steps_rows _ _ _ HR Hst) as (HR' & _). split.
  - intros c Hc Hnb Hne Hreach Htg Hacks. destruct (steps_cursor _ _ _ _ _ _ HR Hst Hc) as (c' & Hc' & Hb).
    pose proof Hm as (r & Hr & Hi & Hs & Ha & Hch). exists r. split; [done|]. apply undelivered_rows_spec. split; [done|]. split; [done|]. split; [done|].
    apply undelivered_at; [done..|]. split; [unfold skippable; by rewrite Ha, Hreach, bool_decide_false|]. exists c'. split; [done|]. rewrite Hs.
    intros [?|(id' & b & T0 & l & Hm' & Hin & i & -> & Hw)]%Hb; [done|]. destruct (msg_seq_inj _ _ _ _ _ _ _ _ HR' Hm Hm') as (<- & <- & _).
    destruct (Hacks _ _ Hin) as [Hn Hre]. destruct Hw as [?|[?|[Hm0 Hf]]]; [done..|]. rewrite Hre in Hf; done.
  - intros ls1 T1 ls2 Hst1 Hm1 Hst2 r Hi. destruct (steps_rows _ _ _ HR Hst1) as (HR1 & _).
    set (T2 := AckDelivery a ch id T1) in *. assert (step T1 (Acked a ch id) T2) as Hs by constructor.
    destruct (step_keeps_rows _ _ _ HR1 Hs) as (HR2 & Hm2). specialize (Hm2 _ _ _ _ Hm1).
    assert (settled T2 a ch seq) as Hset.
    { unfold settled. destruct (cursors T1 !! (a, ch)) as [c|] eqn:Hc.
      - destruct (ack_cursor a ch id T1 seq author c HR1 Hm1 Hc) as (c' & Hc' & _ & _ & Hq & _). subst T2. by rewrite Hc'.
      - subst T2. unfold AckDelivery. destruct (ResolveAckMessage T1 id ch); [|by rewrite Hc]. cbn [clearOwedMention]. cbn zeta. cbn [cursors set_owed]. rewrite Hc.
        destruct (bool_decide _); simpl; by rewrite Hc. }
    destruct (steps_settled _ _ _ _ _ _ _ _ HR2 Hst2 Hm2 Hset) as [Hm' Hset'].
    rewrite undelivered_rows_spec. intros (_ & Hch & Hr & Hu). apply undelivered_at in Hu as (_ & c & Hc & Hn); [|done..].
    unfold settled in Hset'. rewrite Hc in Hset'. destruct (msg_id_inj T' id seq (m_Seq r) author (m_Author r) ch ch HR' Hm') as [-> _]; [by exists r|done].
Qed.

(** The second message is acknowledged before the first commits. *)
Lemma nothing_lost_or_repeated_witness :
  ∃ r, m_ID r = "m1" ∧ ("c", r) ∈ undelivered_rows (set_messages [ex_m2; ex_m1] (AckDelivery "a" "c" "m2" (ex_tables [ex_m2]))) "a".
Proof.
  assert (rows_ok (ex_tables [ex_m2])) as HR by (apply ex_rows_ok; apply (bool_decide_unpack _); by vm_compute).
  set (T1 := AckDelivery "a" "c" "m2" (ex_tables [ex_m2])).
  refine (proj1 (nothing_lost_or_repeated (ex_tables [ex_m2]) [(ex_tables [ex_m2], Acked "a" "c" "m2"); (T1, Committed)] _ HR _ "a" "c" "m1" 1 "u" _) (MkCursor 0 []) _ _ _ _ _ _).
  - apply (steps_snoc _ [(ex_tables [ex_m2], Acked "a" "c" "m2")] T1).
    + apply (steps_snoc _ [] (ex_tables [ex_m2])); constructor.
    + change [ex_m2; ex_m1] with (messageRows T1 ++ [ex_m1]).
      apply step_commit; apply (bool_decide_unpack _); by vm_compute.
  - exists ex_m1. split; [|done]. apply list_elem_of_In. vm_compute. auto.
  - done.
  - intros [H|H]; [done|by apply elem_of_nil in H].
  - done.
  - by vm_compute.
  - apply SweepChannels_target. apply (bool_decide_unpack _). by vm_compute.
  - intros T0 i [[= -> ->]|[[= _ E]|[]%elem_of_nil]%elem_of_cons]%elem_of_cons. split; [done|]. intros _. by vm_compute.
Defined.

End DeliveryCursorFacts.
