(* ===== verification/ChannelOps.v ===== *)
(** Channels and their members ([src/go/internal/store/channels.go], [authz.go] and their
    queries): groups, creation, the agent a channel hangs under, the policy, and the changes
    of membership and subscription.

    A transaction is one function on the tables, and an error leaves them ([tx]); the read
    of the channel after the commit is part of the operation.  A fresh id is an argument.
    [pick] is the order in which the query for the owners of agents returns its rows. *)
From stdpp Require Import base gmap strings list sets.
From Stdlib Require Import ZArith Lia Ascii.
From S2P Require Import Prelude ChannelTree Blocks Messages DeliveryTables DeliveryCursors.

Module ChannelOps.
Import ChannelTree DeliveryTables DeliveryCursors.

Open Scope Z_scope.

Record ChannelPolicy := MkPolicy { PostPolicy : Z; OwnerAccountID : string; MandatorySubscription : bool }.

Record Channel := MkChannel {
  ch_ID : string; ch_Name : string; GroupID : string; ch_Kind : Z; ParentAgentID : string; MembershipMode : Z; Policy : ChannelPolicy;
  MemberAccountIDs : gset string; SubscriberAccountIDs : gset string;
}.

Record NewChannel := MkNewChannel {
  n_Name : string; n_GroupID : string; n_Kind : Z; n_ParentAgentID : string; n_Mode : Z; n_Members : list string; n_Policy : ChannelPolicy;
}.

Record NewChannelGroup := MkNewGroup { ng_Name : string; ng_ParentGroupID : string; ng_Visibility : Z }.

Record MemberUpdate := MkUpdate { u_AccountID : string; Remove : bool; Subscribed : bool; Unsubscribe : bool }.

Definition ChannelPostPolicyOpen : Z := 0.
Definition ChannelPostPolicyOwnerOnly : Z := 1.

Definition dmGroupName : string := "__dm__".
Definition coordinationGroupName : string := "__coordination__".
Definition linearRoutingGroupName : string := "__linear__".

Definition isReservedGroupName (name : string) : bool :=
  bool_decide (name = dmGroupName) || bool_decide (name = coordinationGroupName) || bool_decide (name = linearRoutingGroupName).

(** [NULLIF(s, '')]. *)
Definition nullif (s : string) : option string := if bool_decide (s = "") then None else Some s.

Definition op (A : Type) : Type := tables → result storeError A * tables.

Definition tx {A} (f : tables → result storeError (A * tables)) : op A :=
  λ T, match f T with Ok (a, T') => (Ok a, T') | Err e => (Err e, T) | Panic => (Panic, T) end.

(** ** Reading a channel *)

(** [ChannelMembersByChannelIDs], of one channel. *)
Definition loadChannelMembers (T : tables) (id : string) : gmap string bool :=
  match chans T !! id with
  | None => ∅
  | Some c =>
      if bool_decide (membership_mode (row c) = ChannelMembershipModeExplicit) then
        list_to_map ((λ r : string * string * bool, (r.1.2, r.2)) <$> filter (λ r, r.1.1 = id) (map_to_list (members T)))
      else
        match c_parent (row c) with
        | Some p =>
            set_to_map (λ a, (a, default false (subscriptions T !! (id, a))))
              (subtree T p ∪ match agentRows T !! p with Some aa => {[owner_user_id aa]} | None => ∅ end)
        | None => ∅
        end
  end.

Definition channelFromRow (id : string) (c : chanRow) (ms : gmap string bool) : Channel :=
  MkChannel id (c_name (row c)) (default "" (group_id c)) (kind c) (default "" (c_parent (row c))) (membership_mode (row c))
    (MkPolicy (post_policy (row c)) (default "" (owner_account_id (row c))) (mandatory_subscription c))
    (dom ms) (dom (filter (λ r : string * bool, r.2 = true) ms)).

Definition getChannel (id : string) (T : tables) : result storeError Channel :=
  match chans T !! id with Some c => Ok (channelFromRow id c (loadChannelMembers T id)) | None => Err ErrNotFound end.

(** A transaction that names a channel, and the read after it. *)
Definition tx_channel {A} (f : tables → result storeError (A * tables)) (id : A → string) : op (Channel * A) :=
  λ T, match tx f T with
       | (Ok a, T') => (match getChannel (id a) T' with Ok c => Ok (c, a) | Err e => Err e | Panic => Panic end, T')
       | (Err e, T') => (Err e, T')
       | (Panic, T') => (Panic, T')
       end.

(** ** Gates *)

Definition isChannelMember (T : tables) (actor ch : string) : bool := ChannelParticipant (directory_of T) ch actor.

Definition requireChannelMember (T : tables) (actor ch : string) : result storeError unit :=
  if isChannelMember T actor ch then Ok tt else Err ErrNotFound.

Definition requireGroupCreateAuthz (T : tables) (actor group : string) : result storeError unit :=
  match groups T !! group with
  | Some g =>
      if bool_decide (g_owner g = actor) || bool_decide (g_visibility g = VisibilityShared)
         || match agentRows T !! actor with Some aa => bool_decide (g_owner g = owner_user_id aa) | None => false end
         || bool_decide (g_namespace g = ResolveOwner T actor)
      then Ok tt else Err ErrNotFound
  | None => Err ErrNotFound
  end.

Definition requireAgentAttachAuthz (T : tables) (actor agent : string) : result storeError unit :=
  match agentRows T !! agent with
  | Some target =>
      if bool_decide (owner_user_id target = actor)
         || match agentRows T !! actor with Some aa => bool_decide (owner_user_id target = owner_user_id aa) | None => false end
      then Ok tt else Err ErrNotFound
  | None => Err ErrNotFound
  end.

Definition isReservedGroupTx (T : tables) (group : string) : bool :=
  match groups T !! group with
  | Some g =>
      bool_decide (g_parent g = None) && (bool_decide (g_name g = dmGroupName) || bool_decide (g_name g = linearRoutingGroupName))
      && bool_decide (g_visibility g = VisibilityOwner)
  | None => false
  end.

(** ** Groups *)

Definition has_slash (name : string) : bool := existsb (Ascii.eqb "/"%char) (String.list_ascii_of_string name).
Definition starts_tilde (name : string) : bool := match name with String "~"%char _ => true | _ => false end.

(** [channel_groups_owner_parent_name_key]: system groups are exempt. *)
Definition group_key (g : groupRow) : option (string * string * string) :=
  if bool_decide (g_parent g = None) && isReservedGroupName (g_name g) then None
  else Some (if bool_decide (g_parent g = None) then g_namespace g else "", default "" (g_parent g), g_name g).

Definition InsertChannelGroup (id name : string) (parent : option string) (owner : string) (visibility : Z) (T : tables)
    : result storeError (string * tables) :=
  let g := MkGroup name parent owner visibility (ResolveOwner T owner) in
  if bool_decide (is_Some (groups T !! id)) then Err ErrInternal
  else if bool_decide (is_Some (group_key g)) && existsb (λ r : string * groupRow, bool_decide (group_key r.2 = group_key g)) (map_to_list (groups T))
  then Err ErrConflict
  else if negb (bool_decide (visibility = VisibilityOwner ∨ visibility = VisibilityShared))
          || match parent with Some p => negb (bool_decide (is_Some (groups T !! p))) | None => false end then Err ErrInternal
  else Ok (id, set_groups (<[id := g]> (groups T)) T).

Definition CreateChannelGroup (id owner : string) (g : NewChannelGroup) : op string :=
  tx (λ T,
    if bool_decide (ng_Name g = "") then Err ErrInvalidArgument
    else if has_slash (ng_Name g) then Err ErrInvalidArgument
    else if starts_tilde (ng_Name g) then Err ErrInvalidArgument
    else if bool_decide (ng_ParentGroupID g = "") && isReservedGroupName (ng_Name g) then Err ErrInvalidArgument
    else
      _ <-? (if bool_decide (ng_ParentGroupID g = "") then Ok tt
             else
               _ <-? requireGroupCreateAuthz T owner (ng_ParentGroupID g);
               if isReservedGroupTx T (ng_ParentGroupID g) then Err ErrNotFound
               else match groups T !! ng_ParentGroupID g with
                    | None => Err ErrInternal
                    | Some p => if bool_decide (ng_Visibility g = g_visibility p) then Ok tt else Err ErrInvalidArgument
                    end);
      InsertChannelGroup id (ng_Name g) (nullif (ng_ParentGroupID g)) owner (ng_Visibility g) T).

Section ops.
Context (pick : list string → list string).

(** ** Members *)

Definition AgentOwnersByIDs (T : tables) (ids : list string) : list string :=
  pick (omap (λ a, owner_user_id <$> agentRows T !! a) ids).

(** [add]: not empty, and the first of its kind. *)
Definition add_once (ordered : list string) (id : string) : list string :=
  if bool_decide (id ≠ "") && bool_decide (id ∉ ordered) then ordered ++ [id] else ordered.

Definition expandOwnerMembership (T : tables) (actor : string) (requested : list string) : list string :=
  let ordered := foldl add_once [] (actor :: requested) in
  foldl add_once ordered (AgentOwnersByIDs T ordered).

(** [EnsureChannelMember]: a missing row is inserted, unsubscribed. *)
Definition EnsureChannelMember (ch account : string) (T : tables) : result storeError tables :=
  if bool_decide (is_Some (members T !! (ch, account))) then Ok T
  else if negb (bool_decide (account ∈ accts T) && bool_decide (is_Some (chans T !! ch))) then Err ErrInvalidArgument
  else Ok (set_members (<[(ch, account) := false]> (members T)) T).

Definition UpsertChannelMember (ch account : string) (subscribed : bool) (T : tables) : result storeError tables :=
  if negb (bool_decide (account ∈ accts T) && bool_decide (is_Some (chans T !! ch))) then Err ErrInvalidArgument
  else Ok (set_members (<[(ch, account) := subscribed]> (members T)) T).

Fixpoint ensure_members (ch : string) (l : list string) (T : tables) : result storeError tables :=
  match l with
  | [] => Ok T
  | m :: l => T <-? EnsureChannelMember ch m T; ensure_members ch l T
  end.

(** ** Creation *)

Definition validateNewChannel (c : NewChannel) : result storeError unit :=
  let policy := n_Policy c in
  if bool_decide (n_Name c = "") then Err ErrInvalidArgument
  else if negb (bool_decide (n_Mode c = ChannelMembershipModeExplicit)) && negb (bool_decide (n_Mode c = ChannelMembershipModeTree)) then Err ErrInvalidArgument
  else if negb (bool_decide (n_GroupID c = "")) && negb (bool_decide (n_ParentAgentID c = "")) then Err ErrInvalidArgument
  else if negb (bool_decide (n_ParentAgentID c = "")) && negb (bool_decide (n_Kind c = ChannelKindChannel)) then Err ErrInvalidArgument
  else if bool_decide (n_Mode c = ChannelMembershipModeTree) && bool_decide (n_ParentAgentID c = "") then Err ErrInvalidArgument
  else if bool_decide (n_Mode c = ChannelMembershipModeTree) && MandatorySubscription policy then Err ErrInvalidArgument
  else if bool_decide (n_Mode c = ChannelMembershipModeTree) && bool_decide (PostPolicy policy = ChannelPostPolicyOwnerOnly) then Err ErrInvalidArgument
  else if bool_decide (PostPolicy policy = ChannelPostPolicyOwnerOnly) && bool_decide (OwnerAccountID policy = "") then Err ErrInvalidArgument
  else if bool_decide (PostPolicy policy = ChannelPostPolicyOpen) && negb (bool_decide (OwnerAccountID policy = "")) then Err ErrInvalidArgument
  else Ok tt.

(** The unique indexes on names: in a group, and under an agent. *)
Definition name_taken (T : tables) (id name : string) (group parent : option string) : bool :=
  existsb (λ r : string * chanRow,
    bool_decide (r.1 ≠ id) && bool_decide (c_name (row r.2) = name)
    && (bool_decide (is_Some group) && bool_decide (group_id r.2 = group) || bool_decide (is_Some parent) && bool_decide (c_parent (row r.2) = parent)))
    (map_to_list (chans T)).

Definition legal_row (c : chanRow) : bool :=
  bool_decide (kind c = ChannelKindChannel ∨ kind c = ChannelKindDM ∨ kind c = 2)
  && bool_decide (post_policy (row c) = ChannelPostPolicyOpen ∨ post_policy (row c) = ChannelPostPolicyOwnerOnly)
  && bool_decide (membership_mode (row c) = ChannelMembershipModeExplicit ∨ membership_mode (row c) = ChannelMembershipModeTree)
  && (bool_decide (group_id c = None) || bool_decide (c_parent (row c) = None))
  && (bool_decide (membership_mode (row c) = ChannelMembershipModeExplicit) || bool_decide (is_Some (c_parent (row c)))).

(** [InsertChannel]: checks, indexes, then foreign keys. *)
Definition InsertChannel (id : string) (c : chanRow) (T : tables) : result storeError tables :=
  if negb (legal_row c) || bool_decide (is_Some (chans T !! id)) then Err ErrInternal
  else if name_taken T id (c_name (row c)) (group_id c) (c_parent (row c)) then Err ErrConflict
  else if match c_parent (row c) with Some p => negb (is_agent T p) | None => false end then Err ErrNotFound
  else if match owner_account_id (row c) with Some o => bool_decide (o ∉ accts T) | None => false end then Err ErrInvalidArgument
  else if match group_id c with Some g => negb (bool_decide (is_Some (groups T !! g))) | None => false end then Err ErrInvalidArgument
  else Ok (set_chans (<[id := c]> (chans T)) T).

Definition writeExplicitMembers (id : string) (policy : ChannelPolicy) (ms : list string) (T : tables) : result storeError tables :=
  if negb (bool_decide (OwnerAccountID policy = "")) && bool_decide (OwnerAccountID policy ∉ ms) then Err ErrInvalidArgument
  else
    T <-? ensure_members id ms T;
    if MandatorySubscription policy then Ok (seedChannelDeliveryCursors id T) else Ok T.

Definition CreateChannel (id actor : string) (c : NewChannel) : op (Channel * unit) :=
  tx_channel (λ T,
    _ <-? validateNewChannel c;
    _ <-? (if bool_decide (n_GroupID c = "") then Ok tt else requireGroupCreateAuthz T actor (n_GroupID c));
    _ <-? (if bool_decide (n_ParentAgentID c = "") then Ok tt else requireAgentAttachAuthz T actor (n_ParentAgentID c));
    if negb (bool_decide (n_GroupID c = "")) && isReservedGroupTx T (n_GroupID c) then Err ErrNotFound
    else
      let policy := n_Policy c in
      let r := MkChan (MkChannelRow (n_Name c) (PostPolicy policy) (nullif (OwnerAccountID policy)) (nullif (n_ParentAgentID c)) (n_Mode c))
                 (nullif (n_GroupID c)) (n_Kind c) (MandatorySubscription policy) in
      T <-? InsertChannel id r T;
      let ms := expandOwnerMembership T actor (n_Members c) in
      T <-? (if bool_decide (n_Mode c = ChannelMembershipModeExplicit) then writeExplicitMembers id policy ms T else Ok T);
      Ok (tt, T)) (λ _, id).

(** ** The agent a channel hangs under *)

Definition set_parent (p : option string) (c : chanRow) : chanRow :=
  MkChan (MkChannelRow (c_name (row c)) (post_policy (row c)) (owner_account_id (row c)) p (membership_mode (row c))) (group_id c) (kind c) (mandatory_subscription c).

Definition is_home (T : tables) (ch : string) : bool :=
  existsb (λ r : string * string, bool_decide (r.2 = ch) && is_agent T r.1) (map_to_list (homes T)).

(** The channel and the parent that was replaced. *)
Definition ReparentChannel (actor ch newParent : string) : op (Channel * string) :=
  tx_channel (λ T,
    if bool_decide (actor = "") then Err ErrInvalidArgument
    else if bool_decide (ch = "") then Err ErrInvalidArgument
    else
      _ <-? requireChannelMember T actor ch;
      match chans T !! ch with
      | None => Err ErrNotFound
      | Some c =>
          _ <-? (if bool_decide (newParent = "") then Ok tt
                 else match agentRows T !! newParent with
                      | None => Err ErrNotFound
                      | Some d => if bool_decide (ResolveOwner T actor = owner_user_id d) then Ok tt else Err ErrNotFound
                      end);
          if bool_decide (is_Some (group_id c)) then Err ErrInvalidArgument
          else if negb (bool_decide (kind c = ChannelKindChannel)) then Err ErrInvalidArgument
          else if is_home T ch then Err ErrInvalidArgument
          else if bool_decide (membership_mode (row c) = ChannelMembershipModeTree) && bool_decide (newParent = "") then Err ErrInvalidArgument
          else if name_taken T ch (c_name (row c)) None (nullif newParent) then Err ErrConflict
          else Ok (default "" (c_parent (row c)), set_chans (<[ch := set_parent (nullif newParent) c]> (chans T)) T)
      end) (λ _, ch).

(** ** Policy *)

Definition set_policy (p : ChannelPolicy) (c : chanRow) : chanRow :=
  MkChan (MkChannelRow (c_name (row c)) (PostPolicy p) (nullif (OwnerAccountID p)) (c_parent (row c)) (membership_mode (row c)))
    (group_id c) (kind c) (MandatorySubscription p).

Definition is_row (T : tables) (ch account : string) : bool := bool_decide (is_Some (members T !! (ch, account))).

Definition SetChannelPolicy (actor ch : string) (p : ChannelPolicy) : op (Channel * unit) :=
  tx_channel (λ T,
    _ <-? requireChannelMember T actor ch;
    match chans T !! ch with
    | None => Err ErrNotFound
    | Some c =>
        let wasMandatory := mandatory_subscription c in
        let currentOwner := default "" (owner_account_id (row c)) in
        let tree := bool_decide (membership_mode (row c) = ChannelMembershipModeTree) in
        if tree && negb (Bool.eqb (MandatorySubscription p) wasMandatory) then Err ErrInvalidArgument
        else if tree && bool_decide (PostPolicy p = ChannelPostPolicyOwnerOnly) then Err ErrInvalidArgument
        else if negb (bool_decide (currentOwner = "")) && negb (bool_decide (actor = currentOwner)) then Err ErrNotFound
        else if bool_decide (PostPolicy p = ChannelPostPolicyOwnerOnly) && bool_decide (OwnerAccountID p = "") then Err ErrInvalidArgument
        else if bool_decide (PostPolicy p = ChannelPostPolicyOpen) && negb (bool_decide (OwnerAccountID p = "")) then Err ErrInvalidArgument
        else if negb (bool_decide (OwnerAccountID p = "")) && negb (is_row T ch (OwnerAccountID p)) then Err ErrInvalidArgument
        else if negb (legal_row (set_policy p c)) then Err ErrInternal
        else
          let T := set_chans (<[ch := set_policy p c]> (chans T)) T in
          Ok (tt, if MandatorySubscription p && negb wasMandatory then seedChannelDeliveryCursors ch T else T)
    end) (λ _, ch).

(** ** Membership *)

(** [OwnerHasPresentAgent]. *)
Definition OwnerHasPresentAgent (T : tables) (owner ch : string) : bool :=
  existsb (λ r : string * agentRow, bool_decide (owner_user_id r.2 = owner) && is_row T ch r.1 && bool_decide (r.1 ≠ owner)) (map_to_list (agentRows T)).

Definition CountAgentMembers (T : tables) (ch : string) : nat := size (agent_members T ch).

(** The removal, and whether a row was deleted. *)
Definition removeMember (ch account : string) (T : tables) : result storeError (bool * tables) :=
  if OwnerHasPresentAgent T account ch then Err ErrInvalidArgument
  else Ok (is_row T ch account, set_members (delete (ch, account) (members T)) T).

Definition addOrUpdateMember (ch : string) (u : MemberUpdate) (mandatory : bool) (T : tables) : result storeError tables :=
  match expandOwnerMembership T (u_AccountID u) [] with
  | [] => Ok T
  | m :: owners =>
      T <-? UpsertChannelMember ch m (Subscribed u) T;
      T <-? (if Subscribed u || mandatory then SeedDeliveryCursor m ch T else Ok T);
      ensure_members ch owners T
  end.

Definition hasGenuineAdd (T : tables) (ch : string) (updates : list MemberUpdate) : bool :=
  existsb (λ u, negb (Remove u || Unsubscribe u || bool_decide (u_AccountID u = "")) && negb (is_row T ch (u_AccountID u))) updates.

(** [ConvertDMChannel] and [SubscribeConvertedDMParties]. *)
Definition convert (name : string) (c : chanRow) : chanRow :=
  MkChan (MkChannelRow name (post_policy (row c)) (owner_account_id (row c)) (c_parent (row c)) (membership_mode (row c))) None ChannelKindChannel false.

Definition SubscribeConvertedDMParties (ch : string) (T : tables) : tables :=
  set_members (map_imap (λ k s, Some (if bool_decide (k.1 = ch) && is_agent T k.2 then true else s)) (members T)) T.

(** The kind after the conversion, and whether there was one. *)
Definition maybeConvertDM (ch : string) (c : chanRow) (updates : list MemberUpdate) (convertName : string) (T : tables)
    : result storeError (Z * bool * tables) :=
  if negb (bool_decide (kind c = ChannelKindDM)) then Ok (kind c, false, T)
  else if negb (hasGenuineAdd T ch updates) then Ok (kind c, false, T)
  else if bool_decide (convertName = "") then Err ErrInvalidArgument
  else Ok (ChannelKindChannel, true, SubscribeConvertedDMParties ch (set_chans (<[ch := convert convertName c]> (chans T)) T)).

Definition requireDMTwoParties (T : tables) (ch : string) (kind : Z) : result storeError unit :=
  if negb (bool_decide (kind = ChannelKindDM)) then Ok tt
  else if bool_decide (CountAgentMembers T ch < 2)%nat then Err ErrInvalidArgument else Ok tt.

Fixpoint apply_updates (ch : string) (kind : Z) (mandatory : bool) (updates : list MemberUpdate) (removed : list string) (T : tables)
    : result storeError (list string * tables) :=
  match updates with
  | [] => Ok (removed, T)
  | u :: updates =>
      if bool_decide (u_AccountID u = "") then Err ErrInvalidArgument
      else if Remove u then
        r <-? removeMember ch (u_AccountID u) T;
        let '(deleted, T) := r in
        _ <-? requireDMTwoParties T ch kind;
        apply_updates ch kind mandatory updates (if deleted : bool then removed ++ [u_AccountID u] else removed) T
      else
        T <-? addOrUpdateMember ch u mandatory T;
        apply_updates ch kind mandatory updates removed T
  end.

Definition UpsertChannelSubscription (ch account : string) (subscribed : bool) (T : tables) : result storeError tables :=
  if negb (bool_decide (account ∈ accts T) && bool_decide (is_Some (chans T !! ch))) then Err ErrInternal
  else Ok (set_subscriptions (<[(ch, account) := subscribed]> (subscriptions T)) T).

Fixpoint tree_checks (updates : list MemberUpdate) : result storeError unit :=
  match updates with
  | [] => Ok tt
  | u :: updates =>
      if bool_decide (u_AccountID u = "") then Err ErrInvalidArgument
      else if Remove u || negb (Subscribed u) && negb (Unsubscribe u) then Err ErrInvalidArgument
      else tree_checks updates
  end.

Fixpoint tree_writes (ch : string) (updates : list MemberUpdate) (T : tables) : result storeError tables :=
  match updates with
  | [] => Ok T
  | u :: updates =>
      if negb (isChannelMember T (u_AccountID u) ch) then Err ErrNotFound
      else
        T <-? UpsertChannelSubscription ch (u_AccountID u) (Subscribed u) T;
        T <-? (if Subscribed u then SeedDeliveryCursor (u_AccountID u) ch T else Ok T);
        tree_writes ch updates T
  end.

Definition updateTreeSubscriptions (ch : string) (updates : list MemberUpdate) (T : tables) : result storeError tables :=
  _ <-? tree_checks updates; tree_writes ch updates T.

(** The channel and the accounts that a removal deleted. *)
Definition UpdateChannelMembers (actor ch : string) (updates : list MemberUpdate) (convertName : string) : op (Channel * list string) :=
  tx_channel (λ T,
    _ <-? requireChannelMember T actor ch;
    match chans T !! ch with
    | None => Err ErrInternal
    | Some c =>
        if bool_decide (membership_mode (row c) = ChannelMembershipModeTree) then
          T <-? updateTreeSubscriptions ch updates T; Ok ([], T)
        else if existsb Unsubscribe updates && mandatory_subscription c then Err ErrInvalidArgument
        else
          r <-? maybeConvertDM ch c updates convertName T;
          let '(kind, converted, T) := r in
          apply_updates ch kind (if converted : bool then false else mandatory_subscription c) updates [] T
    end) (λ _, ch).

End ops.

End ChannelOps.
