(* ===== verification/ChannelSystem.v ===== *)
(** The channels the server keeps by itself: peer DMs ([src/go/internal/store/dm.go],
    [src/go/internal/comms/dm.go]), the coordination channel of a manager
    ([store/coordination.go], [comms/coordination.go]), the routing channel of the Linear
    bridge ([store/linear_routing.go]), and the agents with their home channels and parent
    edges ([store/accounts.go]).

    The advisory locks order the transactions of an owner, so that the get-or-create loops
    meet no other writer.  Handles are an argument ([handle_of]); the account of a user, an
    agent and a system is one of each kind.  The checks of a new agent's handle and persona
    and the copy of its forge scopes are left out. *)
From stdpp Require Import base gmap strings list sets pretty.
From Stdlib Require Import ZArith Lia Ascii.
From S2P Require Import Prelude ChannelTree Blocks Messages DeliveryTables DeliveryCursors ChannelOps.

Module ChannelSystem.
Import ChannelTree DeliveryTables DeliveryCursors ChannelOps.

Open Scope Z_scope.

(** ** The groups and names the server owns *)

(** The owner's top-level group of a reserved name, at owner visibility only. *)
Definition find_group (T : tables) (owner name : string) : option string :=
  fst <$> find (λ r : string * groupRow,
    bool_decide (g_owner r.2 = owner) && bool_decide (g_name r.2 = name) && bool_decide (g_parent r.2 = None)
    && bool_decide (g_visibility r.2 = VisibilityOwner)) (map_to_list (groups T)).

Definition EnsureGroupTx (id owner name : string) (T : tables) : result storeError (string * tables) :=
  if bool_decide (owner = "") then Err ErrInvalidArgument
  else match find_group T owner name with
       | Some g => Ok (g, T)
       | None => match InsertChannelGroup id name None owner VisibilityOwner T with Ok r => Ok r | _ => Err ErrInternal end
       end.

Definition EnsureOwnerDMGroupTx (id owner : string) : tables → result storeError (string * tables) := EnsureGroupTx id owner dmGroupName.
Definition EnsureOwnerCoordinationGroupTx (id owner : string) : tables → result storeError (string * tables) := EnsureGroupTx id owner coordinationGroupName.
Definition ensureLinearRoutingGroupTx (id admin : string) : tables → result storeError (string * tables) := EnsureGroupTx id admin linearRoutingGroupName.

(** The channel of a (group, name) key. *)
Definition channel_by_name (T : tables) (group name : string) : option (string * chanRow) :=
  find (λ r : string * chanRow, bool_decide (group_id r.2 = Some group) && bool_decide (c_name (row r.2) = name)) (map_to_list (chans T)).

Definition insert_channel (id : string) (c : chanRow) (T : tables) : result storeError tables :=
  match InsertChannel id c T with Ok T => Ok T | _ => Err ErrInternal end.

(** ** Peer DMs *)

Definition DMChannelName (h1 h2 : string) : string :=
  let '(lo, hi) := if String.ltb h2 h1 then (h2, h1) else (h1, h2) in
  "dm:" +:+ lo +:+ ":" +:+ hi.

Definition set_mandatory (b : bool) (c : chanRow) : chanRow := MkChan (row c) (group_id c) (kind c) b.

Section system.
Context (pick : list string → list string) (handle_of : string → option string).

Definition verifyReconcileDMTx (ch : string) (c : chanRow) (wanted : list string) (T : tables) : result storeError tables :=
  if negb (bool_decide (kind c = ChannelKindDM)) then Err ErrNotFound
  else
    let T := set_chans (<[ch := set_mandatory true c]> (chans T)) T in
    T <-? ensure_members ch wanted (seedChannelDeliveryCursors ch T);
    Ok (seedChannelDeliveryCursors ch T).

(** The channel, and whether it was created. *)
Definition UpsertDMChannelTx (id group name : string) (parties : list string) (T : tables) : result storeError (string * bool * tables) :=
  if bool_decide (group = "") then Err ErrInvalidArgument
  else if bool_decide (name = "") then Err ErrInvalidArgument
  else match parties with
       | a :: (_ :: _) as rest =>
           let ms := expandOwnerMembership pick T a rest in
           match channel_by_name T group name with
           | Some (ch, c) => T <-? verifyReconcileDMTx ch c ms T; Ok (ch, false, T)
           | None =>
               T <-? insert_channel id (MkChan (MkChannelRow name ChannelPostPolicyOpen None None ChannelMembershipModeExplicit) (Some group) ChannelKindDM true) T;
               T <-? ensure_members id ms T;
               Ok (id, true, seedChannelDeliveryCursors id T)
           end
       | _ => Err ErrInvalidArgument
       end.

Definition peered (T : tables) (a b : string) : bool := bool_decide ((a, b) ∈ peers T) && bool_decide ((b, a) ∈ peers T).

(** [openDMTx]: one owner's agents by their handles, two owners' only while peered. *)
Definition openDMTx (gid cid owner callerOwner peerOwner name : string) (caller peer : string) : op (string * bool) :=
  tx (λ T,
    name <-? (if bool_decide (callerOwner = peerOwner) then
                match handle_of caller, handle_of peer with Some a, Some b => Ok (DMChannelName a b) | _, _ => Err ErrNotFound end
              else Ok name);
    if negb (bool_decide (callerOwner = peerOwner)) && negb (peered T callerOwner peerOwner) then Err ErrNotFound
    else
      r <-? EnsureOwnerDMGroupTx gid owner T;
      let '(g, T) := r in
      r <-? UpsertDMChannelTx cid g name [caller; peer] T;
      let '(ch, created, T) := r in
      Ok ((ch, created), T)).

(** ** Coordination channels *)

Definition coordinationChannelSuffix : string := "-coordination".

Definition coordinationChannelName (base : string) (suffix : nat) : string :=
  if bool_decide (suffix ≤ 1)%nat then base else base +:+ "-" +:+ pretty suffix.

(** The search for a free name or a channel of the manager's own. *)
Fixpoint upsert_coordination (fuel : nat) (id group base manager : string) (policy : ChannelPolicy) (suffix : nat) (T : tables)
    : option (result storeError (string * tables)) :=
  match fuel with
  | O => None
  | S fuel =>
      let name := coordinationChannelName base suffix in
      match channel_by_name T group name with
      | Some (ch, c) =>
          if bool_decide (default "" (owner_account_id (row c)) = manager) then Some (Ok (ch, T))
          else upsert_coordination fuel id group base manager policy (S suffix) T
      | None =>
          Some (T <-? insert_channel id (MkChan (MkChannelRow name (PostPolicy policy) (nullif (OwnerAccountID policy)) None ChannelMembershipModeExplicit)
                                           (Some group) ChannelKindChannel (MandatorySubscription policy)) T;
                Ok (id, T))
      end
  end.

Definition UpsertCoordinationChannelTx (id group base manager : string) (policy : ChannelPolicy) (T : tables) : result storeError (string * tables) :=
  if bool_decide (group = "") then Err ErrInvalidArgument
  else if bool_decide (base = "") then Err ErrInvalidArgument
  else default (Err ErrInternal) (upsert_coordination (S (size (chans T))) id group base manager policy 1 T).

Definition ChannelMemberIDs (T : tables) (ch : string) : gset string :=
  set_map snd (filter (λ m : string * string, m.1 = ch) (dom (members T))).

(** Each wanted account without a row gets one, and a cursor. *)
Fixpoint add_wanted (ch : string) (current : gset string) (want : list string) (T : tables) : result storeError tables :=
  match want with
  | [] => Ok T
  | m :: want =>
      if bool_decide (m ∈ current) then add_wanted ch current want T
      else
        T <-? EnsureChannelMember ch m T;
        T <-? SeedDeliveryCursor m ch T;
        add_wanted ch current want T
  end.

(** The accounts that were removed. *)
Definition SetCoordinationMembersTx (ch : string) (want : list string) (T : tables) : result storeError (gset string * tables) :=
  let current := ChannelMemberIDs T ch in
  T <-? add_wanted ch current want T;
  let removed := current ∖ list_to_set want in
  Ok (removed, set_members (filter (λ r : string * string * bool, ¬ (r.1.1 = ch ∧ r.1.2 ∈ removed)) (members T)) T).

Definition CoordinationReports (T : tables) (manager : string) : list string := manager :: elements (children T {[manager]}).

(** [reconcileCoordinationTx], the hook of every write of a parent edge. *)
Definition reconcileCoordinationTx (gid cid manager : string) (T : tables) : result storeError (string * gset string * tables) :=
  match agentRows T !! manager, handle_of manager with
  | Some r, Some handle =>
      g <-? EnsureOwnerCoordinationGroupTx gid (owner_user_id r) T;
      let '(group, T) := g in
      c <-? UpsertCoordinationChannelTx cid group (handle +:+ coordinationChannelSuffix) manager
              (MkPolicy ChannelPostPolicyOwnerOnly manager true) T;
      let '(ch, T) := c in
      m <-? SetCoordinationMembersTx ch (CoordinationReports T manager) T;
      let '(removed, T) := m in
      Ok (ch, removed, T)
  | _, _ => Err ErrNotFound
  end.

Definition EnsureCoordinationChannel (gid cid manager : string) : op string :=
  tx (λ T, r <-? reconcileCoordinationTx gid cid manager T; let '(ch, _, T) := r in Ok (ch, T)).

(** ** The routing channel *)

Definition LinearRoutingChannelName : string := "routing".

Definition getOrInsertLinearRoutingChannelTx (id group : string) (T : tables) : result storeError (string * tables) :=
  match channel_by_name T group LinearRoutingChannelName with
  | Some (ch, c) => if bool_decide (kind c = ChannelKindChannel) then Ok (ch, T) else Err ErrNotFound
  | None =>
      T <-? insert_channel id (MkChan (MkChannelRow LinearRoutingChannelName ChannelPostPolicyOpen None None ChannelMembershipModeExplicit)
                                 (Some group) ChannelKindChannel true) T;
      Ok (id, T)
  end.

(** [ReassertLinearRoutingShape]. *)
Definition reassert_shape (c : chanRow) : chanRow :=
  MkChan (MkChannelRow (c_name (row c)) ChannelPostPolicyOpen None (c_parent (row c)) (membership_mode (row c))) (group_id c) (kind c) true.

Definition reconcileLinearRoutingChannelTx (ch : string) (ms : list string) (T : tables) : result storeError tables :=
  let T := match chans T !! ch with Some c => set_chans (<[ch := reassert_shape c]> (chans T)) T | None => T end in
  T <-? ensure_members ch ms T;
  Ok (seedChannelDeliveryCursors ch T).

Definition EnsureLinearRoutingChannel (gid cid admin supervisor bridge : string) : op string :=
  tx (λ T,
    if bool_decide (admin = "") || bool_decide (supervisor = "") || bool_decide (bridge = "") then Err ErrInvalidArgument
    else
      g <-? ensureLinearRoutingGroupTx gid admin T;
      let '(group, T) := g in
      c <-? getOrInsertLinearRoutingChannelTx cid group T;
      let '(ch, T) := c in
      T <-? reconcileLinearRoutingChannelTx ch (expandOwnerMembership pick T supervisor [bridge]) T;
      Ok (ch, T)).

Definition LinearRoutingChannel (admin : string) (T : tables) : result storeError string :=
  if bool_decide (admin = "") then Err ErrInvalidArgument
  else match find_group T admin linearRoutingGroupName with
       | None => Err ErrNotFound
       | Some group =>
           match channel_by_name T group LinearRoutingChannelName with
           | None => Err ErrNotFound
           | Some (ch, c) => if bool_decide (kind c = ChannelKindChannel) then Ok ch else Err ErrNotFound
           end
       end.

(** ** Agents *)

Definition is_user (T : tables) (a : string) : bool := bool_decide (a ∈ accts T) && negb (is_agent T a) && bool_decide (a ∉ systems T).

Definition CreateUser (id : string) : op string :=
  tx (λ T, if bool_decide (id ∈ accts T) then Err ErrInternal else Ok (id, set_accounts ({[id]} ∪ accts T) (agentRows T) (homes T) T)).

(** The new agent, with its home channel; [gid] and [hookid] are the ids the hook may use. *)
Definition CreateAgent (id channel gid hookid owner name parent : string) : op string :=
  tx (λ T,
    if bool_decide (owner = "") then Err ErrInvalidArgument
    else if bool_decide (id ∈ accts T) then Err ErrInternal
    else if negb (bool_decide (parent = "")) && negb (is_agent T parent) && negb (bool_decide (parent = id)) then Err ErrNotFound
    else if negb (is_user T owner) then Err ErrInvalidArgument
    else
      let T := set_accounts ({[id]} ∪ accts T) (<[id := MkAgentRow owner (nullif parent)]> (agentRows T)) (<[id := channel]> (homes T)) T in
      T <-? (if bool_decide (parent = "") then Ok T
             else r <-? reconcileCoordinationTx gid hookid parent T; Ok r.2);
      T <-? insert_channel channel (MkChan (MkChannelRow name ChannelPostPolicyOpen None None ChannelMembershipModeExplicit) None ChannelKindChannel false) T;
      let T := set_members (<[(channel, id) := true]> (<[(channel, owner) := false]> (members T))) T in
      T <-? SeedDeliveryCursor id channel T;
      Ok (id, T)).

(** The walk of [validateNewParent] up from the proposed parent. *)
Fixpoint walk_up (fuel : nat) (T : tables) (agent cur : string) (visited : list string) : option (result storeError unit) :=
  match fuel with
  | O => None
  | S fuel =>
      if bool_decide (cur = "") then Some (Ok tt)
      else if bool_decide (cur = agent) then Some (Err ErrFailedPrecondition)
      else if bool_decide (cur ∈ visited) then Some (Ok tt)
      else match agentRows T !! cur with
           | None => Some (Ok tt)
           | Some r => match parent_agent_id r with None => Some (Ok tt) | Some next => walk_up fuel T agent next (cur :: visited) end
           end
  end.

Definition validateNewParent (agent newParent owner : string) (T : tables) : result storeError unit :=
  if bool_decide (newParent = "") then Ok tt
  else match agentRows T !! newParent with
       | None => Err ErrNotFound
       | Some r =>
           if negb (bool_decide (owner_user_id r = owner)) then Err ErrPermissionDenied
           else default (Err ErrInternal) (walk_up (S (S (size (agentRows T)))) T agent newParent [])
       end.

Definition set_edge (p : option string) (r : agentRow) : agentRow := MkAgentRow (owner_user_id r) p.

Definition ReparentAgent (gid1 cid1 gid2 cid2 caller agent newParent : string) : op unit :=
  tx (λ T,
    if bool_decide (caller = "") then Err ErrInvalidArgument
    else if bool_decide (agent = "") then Err ErrInvalidArgument
    else match agentRows T !! agent with
         | None => Err ErrPermissionDenied
         | Some r =>
             if negb (bool_decide (ResolveOwner T caller = owner_user_id r)) then Err ErrPermissionDenied
             else
               _ <-? validateNewParent agent newParent (owner_user_id r) T;
               let oldParent := parent_agent_id r in
               let T := set_accounts (accts T) (<[agent := set_edge (nullif newParent) r]> (agentRows T)) (homes T) T in
               T <-? (if bool_decide (newParent = "") then Ok T else r <-? reconcileCoordinationTx gid1 cid1 newParent T; Ok r.2);
               T <-? (match oldParent with
                      | Some old => if bool_decide (old = "") || bool_decide (old = newParent) then Ok T
                                    else r <-? reconcileCoordinationTx gid2 cid2 old T; Ok r.2
                      | None => Ok T
                      end);
               Ok (tt, T)
         end).

End system.

End ChannelSystem.
