(* ===== verification/ChannelFacts.v ===== *)
(** Invariants of the channel tables over every operation of [ChannelOps] and
    [ChannelSystem]: foreign keys, coherent policies, and a delivery cursor for every agent
    that a channel delivers to. *)
From stdpp Require Import base gmap strings list sets.
From Stdlib Require Import ZArith Lia.
From S2P Require Import Prelude ChannelTree Blocks Messages DeliveryTables DeliveryTablesFacts DeliveryCursors DeliveryCursorFacts ChannelOps ChannelSystem.

Module ChannelFacts.
Import ChannelTree DeliveryTables DeliveryTablesFacts DeliveryCursors DeliveryCursorFacts ChannelOps ChannelSystem.

Open Scope Z_scope.

(** * The invariant *)

Definition agent (T : tables) (a : string) : Prop := is_Some (agentRows T !! a).
Definition has_row (T : tables) (ch a : string) : Prop := is_Some (members T !! (ch, a)).
Definition has_cursor (T : tables) (a ch : string) : Prop := is_Some (cursors T !! (a, ch)).
Definition mandatory_of (T : tables) (ch : string) : bool := match chans T !! ch with Some c => mandatory_subscription c | None => false end.

(** The channels that an operation has spoiled, of which the invariant promises less: a DM
    that [CreateChannel] made, a DM whose mandatory flag was cleared, a channel that
    [EnsureChannelMember] alone gave an agent. *)
Class Spoiled := spoiled : string → Prop.

Section invariant.
Context {X : Spoiled}.

(** A row of [channels] that the operations can have written. *)
Record coherent (ch : string) (c : chanRow) : Prop := {
  co_policy : post_policy (row c) = ChannelPostPolicyOpen ∧ owner_account_id (row c) = None
              ∨ post_policy (row c) = ChannelPostPolicyOwnerOnly ∧ ∃ o, owner_account_id (row c) = Some o ∧ o ≠ "";
  co_mode : membership_mode (row c) = ChannelMembershipModeExplicit ∨ membership_mode (row c) = ChannelMembershipModeTree;
  co_tree : membership_mode (row c) = ChannelMembershipModeTree →
            mandatory_subscription c = false ∧ post_policy (row c) = ChannelPostPolicyOpen ∧ is_Some (c_parent (row c)) ∧ kind c = ChannelKindChannel;
  co_dm : ¬ spoiled ch → kind c = ChannelKindDM → mandatory_subscription c = true;
  co_xor : group_id c = None ∨ c_parent (row c) = None;
}.

(** The parent edges. *)
Definition edge (R : gmap string agentRow) (a p : string) : Prop := ∃ r, R !! a = Some r ∧ parent_agent_id r = Some p.

Record core (T : tables) : Prop := {
  core_members ch a : has_row T ch a → a ∈ accts T ∧ is_Some (chans T !! ch);
  core_subs ch a : is_Some (subscriptions T !! (ch, a)) → a ∈ accts T ∧ is_Some (chans T !! ch);
  core_agents a r : agentRows T !! a = Some r → a ≠ "" ∧ a ∈ accts T ∧ owner_user_id r ∈ accts T ∧ ¬ agent T (owner_user_id r) ∧ ∀ p, parent_agent_id r = Some p → agent T p;
  core_rows ch c : chans T !! ch = Some c → coherent ch c ∧ ∀ p, c_parent (row c) = Some p → agent T p;
  core_tree a : ¬ tc (edge (agentRows T)) a a;
}.

(** Every target has a cursor, but for the homes of [exh], the mandatory channels of [exm] and
    what is subscribed to in the spoiled ones. *)
Record seeded (exh : string → string → Prop) (exm : string → Prop) (T : tables) : Prop := {
  sd_sub a ch : agent T a → members T !! (ch, a) = Some true → ¬ spoiled ch → has_cursor T a ch;
  sd_over a ch : agent T a → subscriptions T !! (ch, a) = Some true → has_cursor T a ch;
  sd_home a ch : agent T a → homes T !! a = Some ch → ¬ exh a ch → has_cursor T a ch;
  sd_mand a ch : agent T a → has_row T ch a → mandatory_of T ch = true → ¬ exm ch → has_cursor T a ch;
}.

Definition none2 : string → string → Prop := λ _ _, False.

Definition inv (T : tables) : Prop := core T ∧ seeded none2 spoiled T.

(** * Frames *)

(** Only member rows and cursors change, and no cursor goes. *)
Record frame (T T' : tables) : Prop := {
  fr_accts : accts T' = accts T; fr_agents : agentRows T' = agentRows T; fr_homes : homes T' = homes T; fr_systems : systems T' = systems T;
  fr_chans : chans T' = chans T; fr_subs : subscriptions T' = subscriptions T;
  fr_cursors a ch : has_cursor T a ch → has_cursor T' a ch;
}.

Lemma frame_refl T : frame T T.
Proof. by split. Qed.

Lemma frame_trans T1 T2 T3 : frame T1 T2 → frame T2 T3 → frame T1 T3.
Proof. intros [] []. split; try congruence. auto. Qed.

Lemma frame_agent T T' a : frame T T' → agent T' a ↔ agent T a.
Proof. intros HF. unfold agent. by rewrite (fr_agents _ _ HF). Qed.

Lemma frame_mandatory T T' ch : frame T T' → mandatory_of T' ch = mandatory_of T ch.
Proof. intros HF. unfold mandatory_of. by rewrite (fr_chans _ _ HF). Qed.

Lemma frame_core T T' : frame T T' → core T → (∀ ch a, has_row T' ch a → has_row T ch a ∨ a ∈ accts T ∧ is_Some (chans T !! ch)) → core T'.
Proof.
  intros HF [H1 H2 H3 H4 H5] Hr. destruct HF as [E1 E2 E3 E4 E5 E6 E7]. split.
  - intros ch a H. rewrite E1, E5. destruct (Hr ch a H) as [?|?]; auto.
  - intros ch a H. rewrite E1, E5. rewrite E6 in H. auto.
  - intros a r H. rewrite E2 in H. rewrite E1. unfold agent. rewrite E2. exact (H3 a r H).
  - intros ch c H. rewrite E5 in H. unfold agent. rewrite E2. exact (H4 ch c H).
  - intros a. rewrite E2. apply H5.
Qed.

(** Seeding carries over when each new or newly subscribed row is accounted for. *)
Lemma frame_seeded exh exm exm' T T' : frame T T' → seeded exh exm T →
  (∀ a ch, agent T a → members T' !! (ch, a) = Some true → members T !! (ch, a) = Some true ∨ has_cursor T' a ch) →
  (∀ a ch, agent T a → has_row T' ch a → mandatory_of T ch = true → ¬ exm' ch → (has_row T ch a ∧ ¬ exm ch) ∨ has_cursor T' a ch) →
  seeded exh exm' T'.
Proof.
  intros HF [H1 H2 H3 H4] Hs Hm. pose proof (fr_cursors _ _ HF) as Hc.
  split; intros a ch; rewrite (frame_agent _ _ _ HF), ?(frame_mandatory _ _ _ HF), ?(fr_subs _ _ HF), ?(fr_homes _ _ HF).
  - intros Ha Hx Hn. destruct (Hs a ch Ha Hx); auto.
  - auto.
  - auto.
  - intros Ha Hr Hmand Hn. destruct (Hm a ch Ha Hr Hmand Hn) as [[? ?]|?]; auto.
Qed.

(** ** Primitive writes *)

Lemma ensure_member_spec ch x T T' : EnsureChannelMember ch x T = Ok T' →
  frame T T' ∧ (has_row T ch x ∧ T' = T ∨ ¬ has_row T ch x ∧ x ∈ accts T ∧ is_Some (chans T !! ch) ∧ members T' = <[(ch, x) := false]> (members T)).
Proof.
  unfold EnsureChannelMember. repeat case_bool_decide; simpl; intros ?; simplify_eq; (split; [by split|]).
  - by left.
  - right. auto.
Qed.

Lemma ensure_members_spec ch l T T' : ensure_members ch l T = Ok T' →
  frame T T' ∧ (∀ x, x ∈ l → has_row T' ch x)
  ∧ (∀ k, members T' !! k = members T !! k ∨ members T !! k = None ∧ members T' !! k = Some false ∧ k.1 = ch ∧ k.2 ∈ l ∧ k.2 ∈ accts T ∧ is_Some (chans T !! ch)).
Proof.
  revert T. induction l as [|x l IH]; intros T; simpl.
  { intros [= ->]. split; [apply frame_refl|]. split; [by intros ? ?%elem_of_nil|auto]. }
  destruct (EnsureChannelMember ch x T) as [T1| |] eqn:E1; simpl; try done. intros E2.
  pose proof E1 as [F1 H1]%ensure_member_spec. destruct (IH _ E2) as (F2 & Hr2 & H2).
  assert (has_row T1 ch x) as Hx by (destruct H1 as [[? ->]|(_ & _ & _ & E)]; [done|unfold has_row; by rewrite E, lookup_insert_eq]).
  split; [by eapply frame_trans|]. split.
  - intros y [->|Hy]%elem_of_cons; [|auto]. unfold has_row in *. destruct (H2 (ch, x)) as [->|(? & -> & _)]; eauto.
  - intros k. destruct (H2 k) as [->|(Hn & Hs & ? & ? & ? & ?)].
    + destruct H1 as [[? ->]|(Hn & Ha & Hc & E)]; [by left|]. rewrite E. destruct (decide (k = (ch, x))) as [->|]; [right|left; by rewrite lookup_insert_ne].
      rewrite lookup_insert_eq. split; [by apply eq_None_not_Some|]. split; [done|]. split; [done|]. split; [by left|done].
    + right. rewrite <- (fr_accts _ _ F1), <- (fr_chans _ _ F1). split; [|split; [done|]; split; [done|]; split; [by right|done]].
      destruct H1 as [[? ->]|(_ & _ & _ & E)]; [done|]. rewrite E in Hn. by apply lookup_insert_None in Hn as [? _].
Qed.

(** Rows that are only added, unsubscribed, to one channel. *)
Lemma ensure_members_inv exh exm ch l T T' : ensure_members ch l T = Ok T' → core T → seeded exh exm T →
  core T' ∧ frame T T' ∧ (∀ x, x ∈ l → has_row T' ch x) ∧ seeded exh (λ x, exm x ∨ x = ch) T'
  ∧ ((∀ x, x ∈ l → ¬ agent T x) ∨ mandatory_of T ch = false → seeded exh exm T').
Proof.
  intros (HF & Hr & Hk)%ensure_members_spec HC HS. split; [|split; [done|split; [done|split]]].
  - apply (frame_core _ _ HF HC). intros x a Ha. unfold has_row in *. destruct (Hk (x, a)) as [E|(_ & _ & ? & _ & ? & ?)]; [left; by rewrite <- E|right; naive_solver].
  - apply (frame_seeded _ exm _ _ _ HF HS); intros a x _; unfold has_row; destruct (Hk (x, a)) as [E|(Hn & -> & Hch & _)].
    + rewrite E. auto.
    + done.
    + rewrite E. intros. left. split; [done|]. tauto.
    + simpl in Hch. intros _ _ Hno. tauto.
  - intros Hor. apply (frame_seeded _ exm _ _ _ HF HS); intros a x Ha; unfold has_row; destruct (Hk (x, a)) as [E|(Hn & -> & Hch & Hin & _)].
    + rewrite E. auto.
    + done.
    + rewrite E. auto.
    + simpl in *. subst x. intros _ Hm _. destruct Hor as [Hno|Hf]; [by apply Hno in Hin|congruence].
Qed.

Lemma seed_frame a ch T T' : SeedDeliveryCursor a ch T = Ok T' → frame T T' ∧ members T' = members T ∧ (agent T a → has_cursor T' a ch).
Proof.
  intros H. pose proof H as [(?&?&?&?&?&?&?&?&?&?) Hk]%seed_spec. unfold SeedDeliveryCursor in H. split; [|split; [done|]].
  - assert (systems T' = systems T) as ? by (repeat case_bool_decide; destruct (is_agent T a); simpl in H; by simplify_eq).
    split; try done. intros b x Hc. unfold has_cursor in *. destruct (Hk (b, x)) as [->|(_ & E & _)]; [done|]. rewrite E in Hc. by destruct Hc.
  - unfold agent, is_agent, has_cursor in *. intros Ha. rewrite (bool_decide_true _ Ha) in H. simpl in H. repeat case_bool_decide; simpl in H; simplify_eq; [done|].
    simpl. rewrite lookup_insert_eq. eauto.
Qed.

Lemma elem_of_agent_members T ch a : a ∈ agent_members T ch ↔ has_row T ch a ∧ agent T a.
Proof.
  unfold agent_members, has_row, agent, is_agent. rewrite elem_of_map. split.
  - intros ([x b] & -> & [[Hx Hb] Hin]%elem_of_filter). simpl in *. subst x. split; [by apply elem_of_dom|by apply bool_decide_eq_true in Hb].
  - intros [Hr Ha]. exists (ch, a). split; [done|]. apply elem_of_filter. simpl. rewrite bool_decide_true by done. split; [done|]. by apply elem_of_dom.
Qed.

Lemma seed_all_frame ch T : frame T (seedChannelDeliveryCursors ch T) ∧ (∀ a, agent T a → has_row T ch a → has_cursor (seedChannelDeliveryCursors ch T) a ch).
Proof.
  split.
  - split; try done. intros a x [c Hc]. unfold has_cursor, seedChannelDeliveryCursors. cbn [cursors set_cursors]. exists c. by apply lookup_union_Some_l.
  - intros a Ha Hr. unfold has_cursor, seedChannelDeliveryCursors. cbn [cursors set_cursors]. apply lookup_union_is_Some. right.
    eexists. apply lookup_set_to_map; [by intros ? ? _ _ [= ->]|]. exists a. split; [|done]. by apply elem_of_agent_members.
Qed.

(** Seeding a channel settles it. *)
Lemma seed_all_inv exh (exm exm' : string → Prop) ch T : core T → seeded exh exm T → (∀ x, exm x → exm' x ∨ x = ch) →
  core (seedChannelDeliveryCursors ch T) ∧ seeded exh exm' (seedChannelDeliveryCursors ch T).
Proof.
  intros HC HS He. destruct (seed_all_frame ch T) as [HF Hc]. split; [apply (frame_core _ _ HF HC); auto|].
  apply (frame_seeded _ exm _ _ _ HF HS); [auto|]. intros a x Ha Hr Hm Hn. destruct (decide (x = ch)) as [->|Hne]; [right; auto|left].
  split; [done|]. intros Hx. destruct (He x Hx); auto.
Qed.

Lemma seed_inv exh exm a ch T T' : SeedDeliveryCursor a ch T = Ok T' → core T → seeded exh exm T → core T' ∧ seeded exh exm T'.
Proof.
  intros (HF & Hm & _)%seed_frame HC HS. split; [apply (frame_core _ _ HF HC)|apply (frame_seeded _ exm _ _ _ HF HS)]; unfold has_row; rewrite Hm; auto.
Qed.

(** * Members *)

Section ops.
Context (pick : list string → list string) (pick_perm : ∀ l, pick l ≡ₚ l).

Lemma elem_of_add_once ordered l x : x ∈ foldl add_once ordered l ↔ x ∈ ordered ∨ x ∈ l ∧ x ≠ "".
Proof.
  revert ordered. induction l as [|y l IH]; intros ordered; simpl; [set_solver|]. rewrite IH. unfold add_once.
  destruct (decide (y = "")) as [->|Hy]; [rewrite bool_decide_false by auto; set_solver|].
  rewrite bool_decide_true by done. destruct (decide (y ∈ ordered)) as [Hin|Hin]; simpl.
  - rewrite bool_decide_false by auto. set_solver.
  - rewrite bool_decide_true by done. set_solver.
Qed.

Lemma add_once_prefix ordered l : ∃ rest, foldl add_once ordered l = ordered ++ rest ∧ ∀ x, x ∈ rest → x ∈ l.
Proof.
  revert ordered. induction l as [|y l IH]; intros ordered; simpl; [exists []; rewrite app_nil_r; set_solver|].
  destruct (IH (add_once ordered y)) as (rest & -> & Hr). unfold add_once. destruct (_ && _).
  - exists (y :: rest). rewrite <- app_assoc. set_solver.
  - exists rest. set_solver.
Qed.

Lemma elem_of_owners T ids o : o ∈ AgentOwnersByIDs pick T ids ↔ ∃ a r, a ∈ ids ∧ agentRows T !! a = Some r ∧ owner_user_id r = o.
Proof.
  unfold AgentOwnersByIDs. rewrite pick_perm, list_elem_of_omap. split.
  - intros (a & Ha & H). destruct (agentRows T !! a) as [r|] eqn:E; simpl in H; simplify_eq. eauto.
  - intros (a & r & Ha & E & <-). exists a. by rewrite E.
Qed.

(** The owners of the agents among them come along. *)
Lemma elem_of_expand T actor l x : x ∈ expandOwnerMembership pick T actor l ↔
  x ≠ "" ∧ (x ∈ actor :: l ∨ ∃ a r, a ∈ actor :: l ∧ a ≠ "" ∧ agentRows T !! a = Some r ∧ owner_user_id r = x).
Proof.
  unfold expandOwnerMembership. rewrite elem_of_add_once, elem_of_add_once, elem_of_owners. setoid_rewrite elem_of_add_once. set_solver.
Qed.

Lemma expand_one T a : a ≠ "" → ∃ owners, expandOwnerMembership pick T a [] = a :: owners ∧ ∀ x, x ∈ owners → ∃ r, agentRows T !! a = Some r ∧ owner_user_id r = x.
Proof.
  intros Ha. unfold expandOwnerMembership. simpl. assert (add_once [] a = [a]) as -> by (unfold add_once; by rewrite !bool_decide_true by set_solver).
  destruct (add_once_prefix [a] (AgentOwnersByIDs pick T [a])) as (rest & -> & Hr). exists rest. split; [done|].
  intros x (b & r & ->%list_elem_of_singleton & ? & ?)%Hr%elem_of_owners. eauto.
Qed.

Lemma add_inv exh exm ch u mandatory T T' : addOrUpdateMember pick ch u mandatory T = Ok T' → u_AccountID u ≠ "" → mandatory_of T ch = mandatory →
  core T → seeded exh exm T → core T' ∧ frame T T' ∧ seeded exh exm T'.
Proof.
  intros H Hu Hmand HC HS. unfold addOrUpdateMember in H. destruct (expand_one T _ Hu) as (owners & Hex & Hown). rewrite Hex in H.
  unfold UpsertChannelMember in H. destruct (negb _) eqn:Eup; [done|]. apply negb_false_iff, andb_true_iff in Eup as [Hin Hch].
  apply bool_decide_eq_true in Hin, Hch. cbn [rbind] in H. set (T1 := set_members _ T) in *. set (m := u_AccountID u) in *.
  destruct (if Subscribed u || mandatory then SeedDeliveryCursor m ch T1 else Ok T1) as [T2| |] eqn:E2; simpl in H; try done.
  assert (frame T T2 ∧ members T2 = <[(ch, m) := Subscribed u]> (members T) ∧ (Subscribed u || mandatory = true → agent T m → has_cursor T2 m ch)) as (HF & Hm & Hc).
  { destruct (Subscribed u || mandatory).
    - apply seed_frame in E2 as (HF & Hm & Hc). split; [eapply frame_trans; [|exact HF]; by split|]. split; [by rewrite Hm|auto].
    - simplify_eq. split; [by split|done]. }
  assert (core T2) as HC2.
  { apply (frame_core _ _ HF HC). intros x a. unfold has_row. rewrite Hm. destruct (decide ((x, a) = (ch, m))) as [[= -> ->]|]; [auto|rewrite lookup_insert_ne; auto]. }
  assert (seeded exh exm T2) as HS2.
  { apply (frame_seeded _ exm _ _ _ HF HS); intros a x Ha; unfold has_row; rewrite Hm; (destruct (decide ((x, a) = (ch, m))) as [[= -> ->]|]; [rewrite lookup_insert_eq|rewrite lookup_insert_ne by done; auto]).
    - intros [= Hs]. right. apply Hc; [by rewrite Hs|done].
    - intros _ Hma _. right. apply Hc; [|done]. rewrite <- Hmand, Hma. apply orb_true_r. }
  destruct (ensure_members_inv _ _ _ _ _ _ H HC2 HS2) as (HC' & HF' & _ & _ & HS'). split; [done|]. split; [by eapply frame_trans|].
  apply HS'. left. intros x (r & Hr & <-)%Hown. rewrite (frame_agent _ _ _ HF). by apply (core_agents _ HC) in Hr as (_ & _ & _ & ? & _).
Qed.

Lemma remove_inv exh exm ch a T b T' : removeMember ch a T = Ok (b, T') → core T → seeded exh exm T → core T' ∧ frame T T' ∧ seeded exh exm T'.
Proof.
  unfold removeMember. destruct (OwnerHasPresentAgent T a ch); [done|]. intros [= <- <-] HC HS.
  assert (∀ x y s, delete (ch, a) (members T) !! (x, y) = Some s → members T !! (x, y) = Some s) as Hd by (intros x y s [_ ?]%lookup_delete_Some; done).
  assert (frame T (set_members (delete (ch, a) (members T)) T)) as HF by done. split; [|split; [done|]].
  - apply (frame_core _ _ HF HC). intros x y [s Hs]. left. exists s. by apply Hd.
  - apply (frame_seeded _ exm _ _ _ HF HS).
    + intros y x _ Hs. left. by apply Hd.
    + intros y x _ [s Hs] _ ?. left. split; [|done]. exists s. by apply Hd.
Qed.

Lemma updates_inv exh exm ch kind mandatory us removed T l T' : apply_updates pick ch kind mandatory us removed T = Ok (l, T') → mandatory_of T ch = mandatory →
  core T → seeded exh exm T → core T' ∧ frame T T' ∧ seeded exh exm T'.
Proof.
  revert removed T. induction us as [|u us IH]; intros removed T; simpl; [intros [= _ ->]; auto using frame_refl|].
  destruct (bool_decide (u_AccountID u = "")) eqn:Eu; [done|]. apply bool_decide_eq_false in Eu. destruct (Remove u).
  - destruct (removeMember ch (u_AccountID u) T) as [[b T1]| |] eqn:E1; simpl; try done.
    destruct (requireDMTwoParties T1 ch kind); simpl; try done. intros H Hm HC HS.
    destruct (remove_inv _ _ _ _ _ _ _ E1 HC HS) as (HC1 & HF1 & HS1).
    destruct (IH _ _ H) as (? & ? & ?); [by rewrite (frame_mandatory _ _ _ HF1)|done..|]. eauto using frame_trans.
  - destruct (addOrUpdateMember pick ch u mandatory T) as [T1| |] eqn:E1; simpl; try done. intros H Hm HC HS.
    destruct (add_inv _ _ _ _ _ _ _ E1 Eu Hm HC HS) as (HC1 & HF1 & HS1).
    destruct (IH _ _ H) as (? & ? & ?); [by rewrite (frame_mandatory _ _ _ HF1)|done..|]. eauto using frame_trans.
Qed.

(** ** Writes to a row of [channels] *)

Lemma chan_core ch c T : core T → coherent ch c → (∀ p, c_parent (row c) = Some p → agent T p) → core (set_chans (<[ch := c]> (chans T)) T).
Proof.
  intros [H1 H2 H3 H4 H5] Hc Hp. assert (∀ x, is_Some (chans T !! x) → is_Some (<[ch := c]> (chans T) !! x)) as Hs.
  { intros x Hx. destruct (decide (ch = x)) as [->|]; [rewrite lookup_insert_eq; eauto|by rewrite lookup_insert_ne]. }
  split; cbn [members subscriptions agentRows accts chans set_chans].
  - intros x a [? ?]%H1. auto.
  - intros x a [? ?]%H2. auto.
  - exact H3.
  - intros x d [[<- <-]|[_ Hd]]%lookup_insert_Some; [auto|exact (H4 x d Hd)].
  - exact H5.
Qed.

(** A change keeps the targets of the other channels; of its own it asks that the members
    that become targets have cursors. *)
Lemma chan_seeded exh exm exm' ch c T : seeded exh exm T → (∀ x, exm x → exm' x) →
  (mandatory_subscription c = true → mandatory_of T ch = true ∨ exm' ch ∨ ∀ a, agent T a → ¬ has_row T ch a) →
  seeded exh exm' (set_chans (<[ch := c]> (chans T)) T).
Proof.
  intros [H1 H2 H3 H4] He Hc. split; try done. intros a x Ha Hr Hm Hn. unfold mandatory_of in Hm. cbn [chans set_chans] in Hm.
  destruct (decide (ch = x)) as [->|]; [rewrite lookup_insert_eq in Hm|rewrite lookup_insert_ne in Hm by done; apply (H4 a x); auto].
  destruct (Hc Hm) as [?|[?|Hno]]; [apply (H4 a x); auto|done|]. exfalso. by eapply Hno.
Qed.

Lemma mandatory_set ch c T : mandatory_of (set_chans (<[ch := c]> (chans T)) T) ch = mandatory_subscription c.
Proof. unfold mandatory_of. cbn [chans set_chans]. by rewrite lookup_insert_eq. Qed.

(** A new channel has no rows yet. *)
Lemma insert_channel_inv exh exm id c T T' : InsertChannel id c T = Ok T' → coherent id c → core T → seeded exh exm T →
  core T' ∧ seeded exh exm T' ∧ T' = set_chans (<[id := c]> (chans T)) T ∧ chans T !! id = None.
Proof.
  unfold InsertChannel. destruct (negb (legal_row c) || _) eqn:E1; [done|]. apply orb_false_iff in E1 as [_ Hid%bool_decide_eq_false].
  destruct (name_taken _ _ _ _ _); [done|]. destruct (match c_parent (row c) with Some p => negb (is_agent T p) | None => false end) eqn:Ep; [done|].
  destruct (match owner_account_id (row c) with Some _ => _ | None => _ end); [done|]. destruct (match group_id c with Some _ => _ | None => _ end); [done|].
  intros [= <-] Hc HC HS. split; [|split; [|split; [done|by apply eq_None_not_Some]]].
  - apply chan_core; [done..|]. intros p Hp. rewrite Hp in Ep. apply negb_false_iff in Ep. by apply bool_decide_eq_true in Ep.
  - apply (chan_seeded _ exm); [done|auto|]. intros _. right. right. intros a _ Hr. by apply (core_members _ HC) in Hr as [_ ?].
Qed.

(** * The operations *)

Lemma tx_inv {A} (f : tables → result storeError (A * tables)) (P : tables → Prop) T : P T → (∀ a T', f T = Ok (a, T') → P T') → P (tx f T).2.
Proof. intros HT Hf. unfold tx. destruct (f T) as [[a T']| |] eqn:E; simpl; eauto. Qed.

Lemma tx_channel_inv {A} (f : tables → result storeError (A * tables)) id (P : tables → Prop) T :
  P T → (∀ a T', f T = Ok (a, T') → P T') → P (tx_channel f id T).2.
Proof.
  intros HT Hf. pose proof (tx_inv f P T HT Hf) as H. unfold tx_channel. destruct (tx f T) as [[a| |] T']; done.
Qed.

Lemma nullif_Some x o : nullif x = Some o ↔ x = o ∧ o ≠ "".
Proof. unfold nullif. case_bool_decide; naive_solver. Qed.

Lemma legal_xor c : legal_row c = true → group_id c = None ∨ c_parent (row c) = None.
Proof. unfold legal_row. rewrite !andb_true_iff, orb_true_iff, !bool_decide_eq_true. tauto. Qed.

Lemma legal_policy c : legal_row c = true → post_policy (row c) = ChannelPostPolicyOpen ∨ post_policy (row c) = ChannelPostPolicyOwnerOnly.
Proof. unfold legal_row. rewrite !andb_true_iff, !bool_decide_eq_true. tauto. Qed.

Lemma validate_spec c : validateNewChannel c = Ok tt →
  (n_Mode c = ChannelMembershipModeExplicit ∨ n_Mode c = ChannelMembershipModeTree)
  ∧ (n_ParentAgentID c ≠ "" → n_Kind c = ChannelKindChannel)
  ∧ (n_Mode c = ChannelMembershipModeTree → n_ParentAgentID c ≠ "" ∧ MandatorySubscription (n_Policy c) = false ∧ PostPolicy (n_Policy c) ≠ ChannelPostPolicyOwnerOnly)
  ∧ (PostPolicy (n_Policy c) = ChannelPostPolicyOwnerOnly → OwnerAccountID (n_Policy c) ≠ "")
  ∧ (PostPolicy (n_Policy c) = ChannelPostPolicyOpen → OwnerAccountID (n_Policy c) = "").
Proof.
  unfold validateNewChannel. destruct (MandatorySubscription (n_Policy c)); repeat case_bool_decide; simpl; try done; intros _; tauto.
Qed.

(** What [CreateChannel] writes. *)
Lemma create_coherent id c : validateNewChannel c = Ok tt → (n_Kind c = ChannelKindDM → spoiled id) →
  let r := MkChan (MkChannelRow (n_Name c) (PostPolicy (n_Policy c)) (nullif (OwnerAccountID (n_Policy c))) (nullif (n_ParentAgentID c)) (n_Mode c))
             (nullif (n_GroupID c)) (n_Kind c) (MandatorySubscription (n_Policy c)) in
  legal_row r = true → coherent id r.
Proof.
  intros (Hm & Hk & Ht & Ho & Hop)%validate_spec Hdm r Hleg. pose proof (legal_xor _ Hleg) as Hx. apply legal_policy in Hleg as Hl. simpl in Hl, Hx. split; simpl; [|done| |by intros Hn ?%Hdm|done].
  - destruct Hl as [Hp|Hp]; [left|right]; (split; [done|]).
    + unfold nullif. by rewrite bool_decide_true by auto.
    + exists (OwnerAccountID (n_Policy c)). rewrite nullif_Some. auto.
  - intros Htr. destruct (Ht Htr) as (Hp & -> & Hno). split; [done|]. split; [by destruct Hl|]. split; [|auto].
    exists (n_ParentAgentID c). by apply nullif_Some.
Qed.

Lemma write_members_inv id p ms T T' : writeExplicitMembers id p ms T = Ok T' → mandatory_of T id = MandatorySubscription p → inv T → inv T'.
Proof.
  unfold writeExplicitMembers. destruct (_ && _); [done|]. destruct (ensure_members id ms T) as [T1| |] eqn:E; simpl; try done.
  intros H Hm [HC HS]. destruct (ensure_members_inv _ _ _ _ _ _ E HC HS) as (HC1 & _ & _ & HS1 & HS0).
  destruct (MandatorySubscription p); simplify_eq; [|split; auto].
  apply (seed_all_inv _ (λ x, spoiled x ∨ x = id) spoiled); auto.
Qed.

Lemma create_inv id actor c T : (n_Kind c = ChannelKindDM → spoiled id) → inv T → inv (CreateChannel pick id actor c T).2.
Proof.
  intros Hk HI. unfold CreateChannel. apply (tx_channel_inv _ _ inv); [done|]. intros [] T'. destruct (validateNewChannel c) as [[]| |] eqn:Ev; simpl; try done.
  destruct (if bool_decide (n_GroupID c = "") then _ else _) as [[]| |]; simpl; try done.
  destruct (if bool_decide (n_ParentAgentID c = "") then _ else _) as [[]| |]; simpl; try done. destruct (negb _ && _); [done|].
  set (r := MkChan _ _ _ _). destruct (InsertChannel id r T) as [T1| |] eqn:Ei; simpl; try done.
  assert (legal_row r = true) as Hl by (unfold InsertChannel in Ei; destruct (legal_row r); [done|by simpl in Ei]).
  pose proof HI as [HC HS]. destruct (insert_channel_inv _ _ _ _ _ _ Ei (create_coherent id c Ev Hk Hl) HC HS) as (HC1 & HS1 & HT1 & _).
  destruct (if bool_decide (n_Mode c = _) then _ else _) as [T2| |] eqn:Ew; simpl; try done. intros [= <-].
  case_bool_decide; [|simplify_eq; by split]. eapply write_members_inv; [done| |by split]. rewrite HT1. apply mandatory_set.
Qed.

Lemma reparent_channel_inv actor ch p T : inv T → inv (ReparentChannel actor ch p T).2.
Proof.
  intros HI. unfold ReparentChannel. apply (tx_channel_inv _ _ inv); [done|]. intros a T'.
  destruct (bool_decide (actor = "")); [done|]. destruct (bool_decide (ch = "")); [done|].
  destruct (requireChannelMember T actor ch) as [[]| |]; simpl; try done. destruct (chans T !! ch) as [c|] eqn:Hc; [|done].
  destruct (if bool_decide (p = "") then _ else _) as [[]| |] eqn:Ed; simpl; try done.
  destruct (bool_decide (is_Some (group_id c))) eqn:Hg; [done|]. destruct (bool_decide (kind c = ChannelKindChannel)) eqn:Hk; [|done]. simpl.
  destruct (is_home T ch); [done|].
  destruct (bool_decide (membership_mode (row c) = ChannelMembershipModeTree) && bool_decide (p = "")) eqn:Ht; [done|].
  destruct (name_taken _ _ _ _ _); [done|]. intros [= _ <-]. apply bool_decide_eq_true in Hk.
  destruct HI as [HC HS]. destruct (core_rows _ HC _ _ Hc) as [[H1 H2 H3 H4 H5] Hp]. split.
  - apply chan_core; [done|split; simpl; try done|]; simpl.
    + intros Htr. rewrite bool_decide_true in Ht by done. apply bool_decide_eq_false in Ht. destruct (H3 Htr) as (? & ? & _).
      split; [done|]. split; [done|]. split; [exists p; by apply nullif_Some|done].
    + left. apply bool_decide_eq_false in Hg. by apply eq_None_not_Some.
    + intros q [<- Hq]%nullif_Some. rewrite bool_decide_false in Ed by done. revert Ed.
      destruct (agentRows T !! p) as [d|] eqn:Hd; [by exists d|done].
  - apply (chan_seeded _ spoiled); [done|done|]. simpl. intros Hm. left. unfold mandatory_of. by rewrite Hc.
Qed.

(** A policy that keeps a DM mandatory. *)
Definition keeps_dm (ch : string) (p : ChannelPolicy) (T : tables) : Prop :=
  ∀ c, chans T !! ch = Some c → kind c = ChannelKindDM → MandatorySubscription p = true.

Lemma policy_inv actor ch p T : keeps_dm ch p T ∨ spoiled ch → inv T → inv (SetChannelPolicy actor ch p T).2.
Proof.
  intros Hdm HI. unfold SetChannelPolicy. apply (tx_channel_inv _ _ inv); [done|]. intros [] T'. destruct (requireChannelMember T actor ch) as [[]| |]; simpl; try done.
  destruct (chans T !! ch) as [c|] eqn:Hc; [|done]. assert (¬ spoiled ch → kind c = ChannelKindDM → MandatorySubscription p = true) as Hdm' by (destruct Hdm as [Hdm|?]; [intros _; by apply Hdm|done]).
  destruct HI as [HC HS]. destruct (core_rows _ HC _ _ Hc) as [[H1 H2 H3 H4 H5] Hp].
  destruct (bool_decide (membership_mode (row c) = ChannelMembershipModeTree) && negb (eqb (MandatorySubscription p) (mandatory_subscription c))) eqn:E1; [done|].
  destruct (bool_decide (membership_mode (row c) = ChannelMembershipModeTree) && bool_decide (PostPolicy p = ChannelPostPolicyOwnerOnly)) eqn:E2; [done|].
  destruct (negb (bool_decide (default "" (owner_account_id (row c)) = "")) && _); [done|].
  destruct (bool_decide (PostPolicy p = ChannelPostPolicyOwnerOnly) && bool_decide (OwnerAccountID p = "")) eqn:E3; [done|].
  destruct (bool_decide (PostPolicy p = ChannelPostPolicyOpen) && negb (bool_decide (OwnerAccountID p = ""))) eqn:E4; [done|].
  destruct (negb (bool_decide (OwnerAccountID p = "")) && negb (is_row T ch (OwnerAccountID p))); [done|].
  destruct (legal_row (set_policy p c)) eqn:El; [|done]. simpl. apply legal_policy in El. simpl in El. intros [= <-].
  set (T1 := set_chans _ T). assert (core T1) as HC1.
  { apply chan_core; [done|split; simpl|done].
    - destruct El as [Ho|Ho]; [left|right]; (split; [done|]).
      + rewrite (bool_decide_true _ Ho) in E4. unfold nullif. by destruct (bool_decide (OwnerAccountID p = "")).
      + rewrite (bool_decide_true _ Ho) in E3. apply bool_decide_eq_false in E3. exists (OwnerAccountID p). rewrite nullif_Some. auto.
    - done.
    - intros Ht. rewrite (bool_decide_true _ Ht) in E1, E2. destruct (H3 Ht) as (Hm & _ & ? & ?). rewrite Hm in E1.
      split; [by destruct (MandatorySubscription p)|]. split; [|done]. destruct El as [?|Ho]; [done|]. by rewrite (bool_decide_true _ Ho) in E2.
    - done.
    - done. }
  destruct (MandatorySubscription p && negb (mandatory_subscription c)) eqn:Em.
  - apply (seed_all_inv _ (λ x, spoiled x ∨ x = ch) spoiled); [done| |by auto]. apply (chan_seeded _ spoiled); [done|by left|auto].
  - split; [done|]. apply (chan_seeded _ spoiled); [done|done|]. simpl. intros Hm. left. unfold mandatory_of. rewrite Hc, Hm in *. by destruct (mandatory_subscription c).
Qed.

(** The parties of a DM had their cursors before they were subscribed. *)
Lemma convert_inv ch c name T : chans T !! ch = Some c → kind c = ChannelKindDM → inv T →
  inv (SubscribeConvertedDMParties ch (set_chans (<[ch := convert name c]> (chans T)) T)).
Proof.
  intros Hc Hk [HC [H1 H2 H3 H4]]. destruct (core_rows _ HC _ _ Hc) as [[P1 P2 P3 P4 P5] Hp].
  assert (Hm : ∀ x a s, members (SubscribeConvertedDMParties ch (set_chans (<[ch := convert name c]> (chans T)) T)) !! (x, a) = Some s →
    has_row T x a ∧ (members T !! (x, a) = Some s ∨ x = ch ∧ agent T a)).
  { intros x a s. unfold SubscribeConvertedDMParties. cbn [members set_members]. rewrite map_lookup_imap. cbn [members set_chans].
    unfold has_row, is_agent, agent. cbn [agentRows set_chans fst snd]. destruct (members T !! (x, a)) as [s0|]; [|done]. simpl.
    destruct (bool_decide (x = ch) && bool_decide (is_Some (agentRows T !! a))) eqn:E; intros [= <-]; (split; [eauto|]); [right|auto].
    apply andb_true_iff in E as [?%bool_decide_eq_true ?%bool_decide_eq_true]. auto. }
  split.
  - assert (core (set_chans (<[ch := convert name c]> (chans T)) T)) as HC1.
    { apply chan_core; [done| |done]. split; simpl; [done|done| |done|auto]. intros Ht. destruct (P3 Ht) as (_ & _ & _ & Hk'). by rewrite Hk in Hk'. }
    eapply frame_core; [|exact HC1|]; [done|]. intros x a [s [Hr _]%Hm]. by left.
  - split; try done.
    + intros a x Ha [Hr [Hs|[-> _]]]%Hm Hn; [by apply H1|]. apply (H4 a ch Ha Hr); [|done]. unfold mandatory_of. rewrite Hc. auto.
    + intros a x Ha [s [Hr _]%Hm] Hmand Hn. apply (H4 a x Ha Hr); [|done]. unfold mandatory_of in *. cbn [chans set_chans set_members SubscribeConvertedDMParties] in Hmand.
      destruct (decide (ch = x)) as [->|]; [by rewrite lookup_insert_eq in Hmand|by rewrite lookup_insert_ne in Hmand].
Qed.

Lemma tree_writes_inv ch us T T' : tree_writes ch us T = Ok T' → inv T → inv T'.
Proof.
  revert T. induction us as [|u us IH]; intros T; simpl; [by intros [= ->]|]. destruct (negb (isChannelMember _ _ _)); [done|].
  destruct (UpsertChannelSubscription ch (u_AccountID u) (Subscribed u) T) as [T1| |] eqn:E1; simpl; try done.
  destruct (if Subscribed u then _ else _) as [T2| |] eqn:E2; simpl; try done. intros H HI. apply (IH _ H). clear IH H.
  unfold UpsertChannelSubscription in E1. destruct (negb _) eqn:Eup; [done|]. apply negb_false_iff, andb_true_iff in Eup as [Hin Hch].
  apply bool_decide_eq_true in Hin, Hch. injection E1 as <-. destruct HI as [[C1 C2 C3 C4 C5] [H1 H2 H3 H4]]. set (T1 := set_subscriptions _ T) in *.
  assert (core T1) as HC1.
  { split; [exact C1| |exact C3|exact C4|exact C5]. subst T1. cbn [subscriptions accts chans set_subscriptions]. intros x a.
    destruct (decide ((ch, u_AccountID u) = (x, a))) as [[= <- <-]|]; [auto|rewrite lookup_insert_ne by done; apply C2]. }
  assert (∀ T2, frame T1 T2 → members T2 = members T1 → (Subscribed u = true → agent T (u_AccountID u) → has_cursor T2 (u_AccountID u) ch) → inv T2) as Hk.
  { intros T0 HF Hm Hs. split; [apply (frame_core _ _ HF HC1); intros x a; unfold has_row; rewrite Hm; auto|].
    split; intros a x; rewrite (frame_agent _ _ _ HF), ?(frame_mandatory _ _ _ HF), ?Hm, ?(fr_homes _ _ HF), ?(fr_subs _ _ HF); unfold has_row; rewrite ?Hm.
    - intros. by apply HF, H1.
    - intros Ha Hx. subst T1. cbn [subscriptions set_subscriptions] in Hx. apply lookup_insert_Some in Hx as [[[= <- <-] ?]|[_ ?]]; [auto|by apply HF, H2].
    - intros. by apply HF, H3.
    - intros. by apply HF, H4. }
  destruct (Subscribed u) eqn:Es; [|simplify_eq; apply Hk; [apply frame_refl|done|done]].
  apply seed_frame in E2 as (HF & Hm & Hc). apply Hk; auto.
Qed.

Lemma update_inv actor ch us name T : inv T → inv (UpdateChannelMembers pick actor ch us name T).2.
Proof.
  intros HI. unfold UpdateChannelMembers. apply (tx_channel_inv _ _ inv); [done|]. intros l T'.
  destruct (requireChannelMember T actor ch) as [[]| |]; simpl; try done. destruct (chans T !! ch) as [c|] eqn:Hc; [|done].
  destruct (bool_decide (membership_mode (row c) = ChannelMembershipModeTree)).
  { unfold updateTreeSubscriptions. destruct (tree_checks us); simpl; try done. destruct (tree_writes ch us T) as [T1| |] eqn:E; simpl; try done.
    intros [= _ <-]. by eapply tree_writes_inv. }
  destruct (existsb Unsubscribe us && mandatory_subscription c); [done|].
  destruct (maybeConvertDM ch c us name T) as [[[k conv] T1]| |] eqn:Ec; simpl; try done. intros H.
  assert (inv T1 ∧ mandatory_of T1 ch = if conv then false else mandatory_subscription c) as [[HC1 HS1] Hm].
  { unfold maybeConvertDM in Ec. destruct (bool_decide (kind c = ChannelKindDM)) eqn:Ek; simpl in Ec; [|simplify_eq; split; [done|]; unfold mandatory_of; by rewrite Hc].
    apply bool_decide_eq_true in Ek. destruct (hasGenuineAdd T ch us); simpl in Ec; [|simplify_eq; split; [done|]; unfold mandatory_of; by rewrite Hc].
    destruct (bool_decide (name = "")); [done|]. injection Ec as _ <- <-. split; [by apply convert_inv|].
    unfold mandatory_of. cbn [chans set_chans set_members SubscribeConvertedDMParties]. by rewrite lookup_insert_eq. }
  destruct (updates_inv _ _ _ _ _ _ _ _ _ _ H Hm HC1 HS1) as (? & _ & ?). by split.
Qed.

(** ** The channels of the server *)

Lemma frame_same exh exm T T' : frame T T' → members T' = members T → core T → seeded exh exm T → core T' ∧ seeded exh exm T'.
Proof.
  intros HF Hm HC HS. split; [apply (frame_core _ _ HF HC)|apply (frame_seeded _ exm _ _ _ HF HS)]; unfold has_row; rewrite Hm; auto.
Qed.

Lemma ensure_group_frame id owner name T g T' : EnsureGroupTx id owner name T = Ok (g, T') → frame T T' ∧ members T' = members T.
Proof.
  unfold EnsureGroupTx. destruct (bool_decide (owner = "")); [done|]. destruct (find_group T owner name); [by intros [= _ <-]|].
  unfold InsertChannelGroup. destruct (bool_decide (is_Some (groups T !! id))); [done|]. destruct (_ && _); [done|]. destruct (_ || _); [done|]. by intros [= _ <-].
Qed.

Lemma insert_sys_inv exh id c T T' : insert_channel id c T = Ok T' → coherent id c → core T → seeded exh spoiled T →
  core T' ∧ seeded exh spoiled T' ∧ T' = set_chans (<[id := c]> (chans T)) T ∧ chans T !! id = None.
Proof. unfold insert_channel. destruct (InsertChannel id c T) eqn:E; try done. intros [= <-]. by apply insert_channel_inv. Qed.

Lemma channel_by_name_spec T group name ch c : channel_by_name T group name = Some (ch, c) →
  chans T !! ch = Some c ∧ group_id c = Some group ∧ c_name (row c) = name.
Proof.
  unfold channel_by_name. intros [Hin Hb]%find_some. apply list_elem_of_In, elem_of_map_to_list in Hin. simpl in Hb.
  apply andb_true_iff in Hb as [?%bool_decide_eq_true ?%bool_decide_eq_true]. done.
Qed.

(** A channel that is mandatory and gets members and their cursors. *)
Lemma ensure_seed_inv exh ch l T T' : ensure_members ch l T = Ok T' → core T → seeded exh spoiled T →
  core (seedChannelDeliveryCursors ch T') ∧ seeded exh spoiled (seedChannelDeliveryCursors ch T').
Proof.
  intros H HC HS. destruct (ensure_members_inv _ _ _ _ _ _ H HC HS) as (HC1 & _ & _ & HS1 & _). apply (seed_all_inv _ (λ x, spoiled x ∨ x = ch) spoiled); auto.
Qed.

Lemma dm_inv gid cid owner co po name handle_of caller peer T : inv T → inv (openDMTx pick handle_of gid cid owner co po name caller peer T).2.
Proof.
  intros HI. unfold openDMTx. apply (tx_inv _ inv); [done|]. intros a T'. destruct (if bool_decide (co = po) then _ else _) as [nm| |]; simpl; try done.
  destruct (_ && _); [done|]. unfold EnsureOwnerDMGroupTx. destruct (EnsureGroupTx gid owner dmGroupName T) as [[g T1]| |] eqn:Eg; simpl; try done.
  apply ensure_group_frame in Eg as [HF Hm]. destruct HI as [HC HS]. destruct (frame_same _ _ _ _ HF Hm HC HS) as [HC1 HS1]. clear HF Hm HC HS.
  unfold UpsertDMChannelTx. destruct (bool_decide (g = "")); [done|]. destruct (bool_decide (nm = "")); [done|].
  destruct (channel_by_name T1 g nm) as [[ch c]|] eqn:Ec.
  - apply channel_by_name_spec in Ec as (Hc & _). unfold verifyReconcileDMTx. destruct (bool_decide (kind c = ChannelKindDM)) eqn:Ek; [|done].
    apply bool_decide_eq_true in Ek. simpl. destruct (core_rows _ HC1 _ _ Hc) as [[P1 P2 P3 P4 P5] Hp]. set (T2 := set_chans _ T1).
    assert (core T2 ∧ seeded none2 (λ x, spoiled x ∨ x = ch) T2) as [HC2 HS2].
    { split; [apply chan_core; [done|split; simpl; try done|done]|apply (chan_seeded _ spoiled); [done|by left|auto]].
      intros Ht. destruct (P3 Ht) as (_ & _ & _ & Hk'). by rewrite Ek in Hk'. }
    destruct (ensure_members ch _ (seedChannelDeliveryCursors ch T2)) as [T3| |] eqn:E3; simpl; try done. intros [= _ <-].
    destruct (seed_all_inv _ _ spoiled ch T2 HC2 HS2) as [HC3 HS3]; [auto|]. eapply ensure_seed_inv; eauto.
  - destruct (insert_channel cid _ T1) as [T2| |] eqn:E2; simpl; try done.
    destruct (insert_sys_inv none2 _ _ _ _ E2) as (HC2 & HS2 & _); [split; simpl; auto; done|done..|].
    destruct (ensure_members cid _ T2) as [T3| |] eqn:E3; simpl; try done. intros [= _ <-]. eapply ensure_seed_inv; eauto.
Qed.

Lemma add_wanted_inv exh ch current want T T' : add_wanted ch current want T = Ok T' → core T → seeded exh spoiled T → core T' ∧ frame T T' ∧ seeded exh spoiled T'.
Proof.
  revert T. induction want as [|m want IH]; intros T; simpl; [intros [= ->]; auto using frame_refl|]. destruct (bool_decide (m ∈ current)); [by apply IH|].
  destruct (EnsureChannelMember ch m T) as [T1| |] eqn:E1; simpl; try done. destruct (SeedDeliveryCursor m ch T1) as [T2| |] eqn:E2; simpl; try done.
  intros H HC HS. apply ensure_member_spec in E1 as [F1 H1]. apply seed_frame in E2 as (F2 & Hm2 & Hc2). pose proof (frame_trans _ _ _ F1 F2) as F12.
  assert (core T2) as HC2.
  { apply (frame_core _ _ F12 HC). intros x a. unfold has_row. rewrite Hm2. destruct H1 as [[_ ->]|(_ & Hi & Hc & ->)]; [auto|].
    destruct (decide ((ch, m) = (x, a))) as [[= <- <-]|]; [auto|rewrite lookup_insert_ne by done; auto]. }
  assert (seeded exh spoiled T2) as HS2.
  { apply (frame_seeded _ spoiled _ _ _ F12 HS); intros a x Ha; unfold has_row; rewrite Hm2; (destruct H1 as [[_ ->]|(_ & _ & _ & ->)]; [by auto|]);
      (destruct (decide ((ch, m) = (x, a))) as [[= <- <-]|]; [rewrite lookup_insert_eq|rewrite lookup_insert_ne by done; by auto]); [done|].
    intros _ _ _. right. apply Hc2. by apply (frame_agent _ _ _ F1). }
  destruct (IH _ H HC2 HS2) as (? & ? & ?). eauto using frame_trans.
Qed.

(** The accounts that the hook leaves as they are. *)
Definition same_accounts (T T' : tables) : Prop :=
  accts T' = accts T ∧ agentRows T' = agentRows T ∧ homes T' = homes T ∧ systems T' = systems T ∧ subscriptions T' = subscriptions T.

Lemma frame_accounts T T' : frame T T' → same_accounts T T'.
Proof. by intros []. Qed.

Lemma accounts_trans T1 T2 T3 : same_accounts T1 T2 → same_accounts T2 T3 → same_accounts T1 T3.
Proof. unfold same_accounts. intuition congruence. Qed.

Lemma upsert_coordination_inv fuel exh id group base manager p suffix T r :
  upsert_coordination fuel id group base manager p suffix T = Some r → PostPolicy p = ChannelPostPolicyOwnerOnly → OwnerAccountID p ≠ "" →
  core T → seeded exh spoiled T → ∀ ch T', r = Ok (ch, T') → core T' ∧ seeded exh spoiled T' ∧ same_accounts T T'.
Proof.
  revert suffix. induction fuel as [|fuel IH]; intros suffix; simpl; [done|]. destruct (channel_by_name T group _) as [[x c]|].
  - case_bool_decide; [|by apply IH]. intros [= <-] _ _ HC HS ch T' [= _ <-]. done.
  - intros [= <-] Hp Ho HC HS ch T'. destruct (insert_channel id _ T) as [T1| |] eqn:E; simpl; try done. intros [= _ <-].
    destruct (insert_sys_inv exh _ _ _ _ E) as (HC1 & HS1 & -> & _); [|done..|done].
    split; simpl; [|by left|done|done|auto]. right. split; [done|]. exists (OwnerAccountID p). rewrite nullif_Some. auto.
Qed.

Lemma set_coordination_inv exh ch want T removed T' : SetCoordinationMembersTx ch want T = Ok (removed, T') → core T → seeded exh spoiled T →
  core T' ∧ seeded exh spoiled T' ∧ same_accounts T T'.
Proof.
  unfold SetCoordinationMembersTx. destruct (add_wanted ch _ want T) as [T1| |] eqn:E; simpl; try done. intros [= _ <-] HC HS.
  destruct (add_wanted_inv _ _ _ _ _ _ E HC HS) as (HC1 & HF1 & HS1). set (T2 := set_members _ T1).
  assert (∀ k s, members T2 !! k = Some s → members T1 !! k = Some s) as Hd by (intros k s [? _]%map_lookup_filter_Some; done).
  assert (frame T1 T2) as HF2 by done. split; [|split; [|by apply frame_accounts, (frame_trans _ T1)]].
  - apply (frame_core _ _ HF2 HC1). intros x y [s Hs]. left. exists s. by apply Hd.
  - apply (frame_seeded _ spoiled _ _ _ HF2 HS1); [intros y x _ Hs; left; by apply Hd|]. intros y x _ [s Hs] _ ?. left. split; [|done]. exists s. by apply Hd.
Qed.

(** The hook keeps the tables coherent and every member seeded. *)
Lemma hook_inv exh gid cid handle_of manager T r : reconcileCoordinationTx handle_of gid cid manager T = Ok r → core T → seeded exh spoiled T →
  core r.2 ∧ seeded exh spoiled r.2 ∧ same_accounts T r.2.
Proof.
  unfold reconcileCoordinationTx. destruct (agentRows T !! manager) as [a|] eqn:Ha; [|done]. destruct (handle_of manager) as [h|]; [|done].
  unfold EnsureOwnerCoordinationGroupTx. destruct (EnsureGroupTx gid (owner_user_id a) _ T) as [[g T1]| |] eqn:Eg; simpl; try done. intros H HC HS.
  assert (manager ≠ "") as Hne by (by apply (core_agents _ HC) in Ha as (? & _)).
  apply ensure_group_frame in Eg as [HF Hm]. destruct (frame_same _ _ _ _ HF Hm HC HS) as [HC1 HS1].
  destruct (UpsertCoordinationChannelTx cid g _ manager _ T1) as [[ch T2]| |] eqn:Eu; simpl in H; try done.
  unfold UpsertCoordinationChannelTx in Eu. destruct (bool_decide (g = "")); [done|]. destruct (bool_decide (_ = "")); [done|].
  destruct (upsert_coordination _ cid g _ manager _ 1 T1) as [r'|] eqn:E; [|done]. simpl in Eu.
  destruct (upsert_coordination_inv _ _ _ _ _ _ _ _ _ _ E eq_refl Hne HC1 HS1 _ _ Eu) as (HC2 & HS2 & HA2).
  destruct (SetCoordinationMembersTx ch _ T2) as [[removed T3]| |] eqn:Es; simpl in H; try done. injection H as <-. simpl.
  destruct (set_coordination_inv _ _ _ _ _ _ Es HC2 HS2) as (? & ? & ?). split; [done|]. split; [done|].
  eapply accounts_trans; [by apply frame_accounts|]. by eapply accounts_trans.
Qed.

Lemma coordination_inv gid cid handle_of manager T : inv T → inv (EnsureCoordinationChannel handle_of gid cid manager T).2.
Proof.
  intros HI. apply (tx_inv _ inv); [done|]. intros a T'. destruct (reconcileCoordinationTx handle_of gid cid manager T) as [[[ch rm] T1]| |] eqn:E; simpl; try done.
  intros [= _ <-]. destruct HI as [HC HS]. by destruct (hook_inv _ _ _ _ _ _ _ E HC HS) as (? & ? & _).
Qed.

Lemma routing_inv gid cid admin supervisor bridge T : inv T → inv (EnsureLinearRoutingChannel pick gid cid admin supervisor bridge T).2.
Proof.
  intros HI. apply (tx_inv _ inv); [done|]. intros a T'. destruct (_ || _); [done|]. unfold ensureLinearRoutingGroupTx.
  destruct (EnsureGroupTx gid admin _ T) as [[g T1]| |] eqn:Eg; simpl; try done. apply ensure_group_frame in Eg as [HF Hm].
  destruct HI as [HC HS]. destruct (frame_same _ _ _ _ HF Hm HC HS) as [HC1 HS1]. clear HF Hm HC HS.
  destruct (getOrInsertLinearRoutingChannelTx cid g T1) as [[ch T2]| |] eqn:Ec; simpl; try done.
  assert (core T2 ∧ seeded none2 spoiled T2 ∧ ∃ c, chans T2 !! ch = Some c ∧ kind c = ChannelKindChannel ∧ is_Some (group_id c)) as (HC2 & HS2 & c & Hc & Hk & Hg).
  { unfold getOrInsertLinearRoutingChannelTx in Ec. destruct (channel_by_name T1 g _) as [[x c]|] eqn:En.
    - case_bool_decide; [|done]. injection Ec as <- <-. apply channel_by_name_spec in En as (? & ? & _). eauto 10.
    - destruct (insert_channel cid _ T1) as [T3| |] eqn:E3; simpl in Ec; try done. injection Ec as <- <-.
      destruct (insert_sys_inv none2 _ _ _ _ E3) as (? & ? & -> & _); [split; simpl; auto; done|done..|]. split; [done|]. split; [done|].
      cbn [chans set_chans]. rewrite lookup_insert_eq. eexists. split; [done|]. simpl. eauto. }
  unfold reconcileLinearRoutingChannelTx. rewrite Hc. set (T3 := set_chans _ T2). destruct (core_rows _ HC2 _ _ Hc) as [[P1 P2 P3 P4 P5] Hp].
  assert (core T3 ∧ seeded none2 (λ x, spoiled x ∨ x = ch) T3) as [HC3 HS3].
  { split; [apply chan_core; [done|split; simpl; auto|done]|apply (chan_seeded _ spoiled); [done|by left|auto]].
    intros Ht. destruct (P3 Ht) as (_ & _ & [q Hq] & _). destruct Hg as [y Hy]. destruct P5; congruence. }
  destruct (ensure_members ch _ T3) as [T4| |] eqn:E4; simpl; try done. intros [= _ <-].
  destruct (ensure_members_inv _ _ _ _ _ _ E4 HC3 HS3) as (HC4 & _ & _ & HS4 & _).
  apply (seed_all_inv _ (λ x, (spoiled x ∨ x = ch) ∨ x = ch) spoiled); [done|done|]. intros x [[?| ->]| ->]; [by left|by right..].
Qed.

End ops.

End invariant.

End ChannelFacts.
