(* ===== verification/ChannelHistory.v ===== *)
(** Histories of the channel tables: the agents, a step for each operation, and the invariant
    that the delivery sweep relies on. *)
From stdpp Require Import base gmap strings list sets pretty.
From Stdlib Require Import ZArith Lia.
From S2P Require Import Prelude ChannelTree Blocks Messages DeliveryTables DeliveryTablesFacts DeliveryCursors DeliveryCursorFacts ChannelOps ChannelSystem ChannelFacts.

Module ChannelHistory.
Import ChannelTree Messages DeliveryTables DeliveryTablesFacts DeliveryCursors DeliveryCursorFacts ChannelOps ChannelSystem ChannelFacts.

Open Scope Z_scope.

(** * Writes of one row *)

Definition no_tables : tables := MkTables ∅ ∅ ∅ ∅ ∅ ∅ ∅ ∅ ∅ [] [] ∅ ∅ ∅.

(** [EnsureSystemAccount] and [EnsureLinearBridgeAccount], on the first boot. *)
Definition insert_system (id : string) (T : tables) : tables :=
  MkTables ({[id]} ∪ accts T) (agentRows T) (homes T) ({[id]} ∪ systems T) (peers T) (groups T) (chans T) (members T) (subscriptions T) (topicRows T) (messageRows T) (cursors T) (owed T) (routed T).

(** [RenameDMChannel], [RenameAgentHomeChannel] and [RenameCoordinationChannel]. *)
Definition set_name (name : string) (c : chanRow) : chanRow :=
  MkChan (MkChannelRow name (post_policy (row c)) (owner_account_id (row c)) (c_parent (row c)) (membership_mode (row c))) (group_id c) (kind c) (mandatory_subscription c).

Definition rename_channel (ch name : string) (T : tables) : tables :=
  match chans T !! ch with Some c => set_chans (<[ch := set_name name c]> (chans T)) T | None => T end.

(** Messages and topics, and the pairs of users that may reach each other. *)
Definition set_posts (ts : list Topic) (ms : list messageRow) (T : tables) : tables :=
  MkTables (accts T) (agentRows T) (homes T) (systems T) (peers T) (groups T) (chans T) (members T) (subscriptions T) ts ms (cursors T) (owed T) (routed T).

Definition set_peers (ps : gset (string * string)) (T : tables) : tables :=
  MkTables (accts T) (agentRows T) (homes T) (systems T) ps (groups T) (chans T) (members T) (subscriptions T) (topicRows T) (messageRows T) (cursors T) (owed T) (routed T).

(** * Agents *)

Section agents.
Context {X : Spoiled} (pick : list string → list string) (pick_perm : ∀ l, pick l ≡ₚ l) (handle_of : string → option string).

Lemma is_agent_spec T a : is_agent T a = true ↔ agent T a.
Proof. unfold is_agent, agent. by rewrite bool_decide_eq_true. Qed.

Lemma create_user_inv id T : inv T → inv (CreateUser id T).2.
Proof.
  intros [[C1 C2 C3 C4 C5] [S1 S2 S3 S4]]. unfold CreateUser. apply (tx_inv _ inv); [by split|]. intros a T'. case_bool_decide; [done|]. intros [= _ <-].
  split; [|by split]. split; cbn [accts agentRows chans subscriptions members set_accounts]; [..|exact C4|exact C5].
  - intros ch b H'. destruct (C1 ch b H'). set_solver.
  - intros ch b H'. destruct (C2 ch b H'). set_solver.
  - intros b r H'. destruct (C3 b r H') as (? & ? & ? & ? & ?). split; [done|]. split; [set_solver|]. split; [set_solver|done].
Qed.

(** ** The tree of agents *)

Lemma tc_first {A} (R : A → A → Prop) x y : tc R x y → ∃ z, R x z ∧ rtc R z y.
Proof. destruct 1 as [x y H|x y z H H']; [exists y; auto using rtc_refl|exists y; split; [done|by apply tc_rtc]]. Qed.

Lemma edge_fun R a p q : edge R a p → edge R a q → p = q.
Proof. intros (? & ? & ?) (? & ? & ?). congruence. Qed.

(** A new agent that no row names is on no cycle. *)
Lemma new_leaf (R : gmap string agentRow) id r : R !! id = None → (∀ p, parent_agent_id r = Some p → p ≠ id) → (∀ b p, edge R b p → p ≠ id) →
  (∀ a, ¬ tc (edge R) a a) → ∀ a, ¬ tc (edge (<[id := r]> R)) a a.
Proof.
  intros Hn Hr Hl Hac. assert (∀ b p, edge (<[id := r]> R) b p → p ≠ id) as Hno.
  { intros b p (d & [[<- <-]|[_ Hb]]%lookup_insert_Some & Hp); [auto|]. apply (Hl b). by exists d. }
  assert (∀ x y, tc (edge (<[id := r]> R)) x y → y ≠ id) as Hend by (induction 1; eauto).
  assert (∀ x y, tc (edge (<[id := r]> R)) x y → x ≠ id → tc (edge R) x y) as Hold.
  { induction 1 as [x y H|x y z H _ IH]; intros Hx; pose proof (Hno _ _ H) as Hy; destruct H as (d & Hd & Hp); rewrite lookup_insert_ne in Hd by done;
      (assert (edge R x y) by (by exists d)); [by apply tc_once|by eapply tc_l; [|apply IH]]. }
  intros a Ht. eapply Hac, Hold; [exact Ht|by eapply Hend].
Qed.

(** An edge to an agent from which the moved one is not reached. *)
Lemma moved_edge (R : gmap string agentRow) a r p : R !! a = Some r → (∀ b, ¬ tc (edge R) b b) → (∀ q, p = Some q → ¬ rtc (edge R) q a) →
  ∀ b, ¬ tc (edge (<[a := set_edge p r]> R)) b b.
Proof.
  intros Ha Hac Hq. set (R' := <[a := _]> R).
  assert (∀ x y, edge R' x y → edge R x y ∨ x = a ∧ ¬ rtc (edge R) y a) as Hold.
  { intros x y (d & [[<- <-]|[_ ?]]%lookup_insert_Some & Hp); [right; auto|left; by exists d]. }
  assert (∀ x y, tc (edge R) x y → ¬ rtc (edge R) x a → ¬ rtc (edge R) y a) as Hcl.
  { intros x y H Hx Hy. apply Hx. etrans; [by apply tc_rtc|done]. }
  assert (∀ x y, tc (edge R') x y → tc (edge R) x y ∨ rtc (edge R) x a ∧ ¬ rtc (edge R) y a) as Hw.
  { induction 1 as [x y [H|[-> H]]%Hold|x y z [H|[-> H]]%Hold _ [IH|[IH1 IH2]]].
    - left. by apply tc_once.
    - right. done.
    - left. by eapply tc_l.
    - right. split; [by eapply rtc_l|done].
    - right. split; [done|by eapply Hcl].
    - done. }
  intros b [H|[? ?]]%Hw; [by eapply Hac|done].
Qed.

(** The walk meets every agent above the proposed parent. *)
Lemma walk_up_sound T a fuel cur visited : ¬ agent T "" → a ≠ "" → a ∉ visited → (∀ v p, v ∈ visited → edge (agentRows T) v p → p ∈ visited ∨ p = cur) →
  walk_up fuel T a cur visited = Some (Ok tt) → ¬ rtc (edge (agentRows T)) cur a.
Proof.
  intros He Ha. revert cur visited. induction fuel as [|fuel IH]; intros cur visited Hav Hcl; simpl; [done|].
  assert ((∀ p, ¬ edge (agentRows T) cur p) → cur ≠ a → ¬ rtc (edge (agentRows T)) cur a) as Hstop by (intros Hn Hc Hr; inversion Hr; subst; naive_solver).
  case_bool_decide as H1; [subst; intros _; apply Hstop; [|done]; intros p (r & Hr & _); by apply He; eexists|]. case_bool_decide as H2; [done|].
  case_bool_decide as H3.
  { intros _ Hr. assert (∀ x y, rtc (edge (agentRows T)) x y → x ∈ visited → y ∈ visited) as Hin; [|by apply Hav, (Hin _ _ Hr)].
    induction 1 as [|x y z H _ IHr]; [done|]. intros Hx. destruct (Hcl _ _ Hx H) as [?| ->]; auto. }
  destruct (agentRows T !! cur) as [r|] eqn:Er; [|intros _; apply Hstop; [|done]; intros p (r & Hr & _); congruence].
  destruct (parent_agent_id r) as [next|] eqn:En; [|intros _; apply Hstop; [|done]; intros p (r' & Hr & ?); congruence].
  assert (edge (agentRows T) cur next) as Hed by (by exists r). intros Hw. apply IH in Hw.
  - intros Hr. inversion Hr as [|? y ? Hy Hya]; subst; [done|]. by rewrite <- (edge_fun _ _ _ _ Hed Hy) in Hya.
  - set_solver.
  - intros v p [->|Hv]%elem_of_cons Hp; [right; by eapply edge_fun|]. destruct (Hcl v p Hv Hp) as [?| ->]; left; set_solver.
Qed.

Lemma walk_up_complete T a fuel cur visited e : walk_up fuel T a cur visited = Some (Err e) → rtc (edge (agentRows T)) cur a.
Proof.
  revert cur visited. induction fuel as [|fuel IH]; intros cur visited; simpl; [done|]. case_bool_decide; [done|]. case_bool_decide; [by subst|].
  case_bool_decide; [done|]. destruct (agentRows T !! cur) as [r|] eqn:Er; [|done]. destruct (parent_agent_id r) eqn:En; [|done].
  intros H'%IH. eapply rtc_l; [|done]. by exists r.
Qed.

Lemma walk_up_no_panic T a fuel cur visited : walk_up fuel T a cur visited ≠ Some Panic.
Proof. revert cur visited. induction fuel; intros cur visited; simpl; [done|]. repeat case_match; done. Qed.

(** Each agent is met once. *)
Lemma walk_up_ends T a fuel cur visited : NoDup visited → (∀ v, v ∈ visited → agent T v) → (size (agentRows T) < fuel + length visited)%nat →
  walk_up fuel T a cur visited ≠ None.
Proof.
  revert cur visited. induction fuel as [|fuel IH]; intros cur visited Hnd Hin Hlen; simpl.
  - assert (length visited ≤ size (agentRows T))%nat; [|lia]. rewrite <- size_dom, <- (size_list_to_set (C := gset string)) by done.
    apply subseteq_size. intros v Hv%elem_of_list_to_set. by apply elem_of_dom, Hin.
  - repeat case_bool_decide; try done. destruct (agentRows T !! cur) as [r|] eqn:Er; [|done]. destruct (parent_agent_id r); [|done].
    apply IH; [by constructor| |simpl; lia]. intros v [->|?]%elem_of_cons; [by exists r|auto].
Qed.

(** A hook that runs when a condition holds. *)
Lemma hook_if_inv exh (b : bool) gid cid m T T' :
  (if b then Ok T else r <-? reconcileCoordinationTx handle_of gid cid m T; Ok r.2) = Ok T' → core T → seeded exh spoiled T →
  core T' ∧ seeded exh spoiled T' ∧ same_accounts T T'.
Proof.
  destruct b; [by intros [= <-]|]. destruct (reconcileCoordinationTx handle_of gid cid m T) as [r| |] eqn:E; simpl; try done.
  intros [= <-]. by apply hook_inv with (1 := E).
Qed.

(** The account, its parent edge and its home are written first. *)
Lemma new_agent_inv id home owner parent T : inv T → id ≠ "" → id ∉ accts T → is_user T owner = true →
  (∀ p, parent = Some p → agent T p) →
  let T' := set_accounts ({[id]} ∪ accts T) (<[id := MkAgentRow owner parent]> (agentRows T)) (<[id := home]> (homes T)) T in
  core T' ∧ seeded (λ a ch, a = id ∧ ch = home) spoiled T'.
Proof.
  intros [[C1 C2 C3 C4 C5] [S1 S2 S3 S4]] Hne Hid Hu Hp T'. unfold is_user in Hu. rewrite !andb_true_iff, negb_true_iff, !bool_decide_eq_true in Hu.
  destruct Hu as [[Ho Hag] _]. assert (¬ agent T owner) as Hna by (rewrite <- is_agent_spec; congruence).
  assert (∀ b, agent T b → b ≠ id) as Hold by (intros b [r (_ & ? & _)%C3] ->; done).
  assert (∀ b, agent T' b ↔ b = id ∨ agent T b) as Hnew.
  { intros b. unfold agent, T'. cbn [agentRows set_accounts]. destruct (decide (id = b)) as [->|]; [rewrite lookup_insert_eq|rewrite lookup_insert_ne by done]; naive_solver. }
  split; split; cbn [accts agentRows chans subscriptions members homes set_accounts T'].
  - intros ch b H. destruct (C1 ch b H). set_solver.
  - intros ch b H. destruct (C2 ch b H). set_solver.
  - intros b r [[<- <-]|[? Hb]]%lookup_insert_Some; simpl; rewrite Hnew; setoid_rewrite Hnew.
    + split; [done|]. split; [set_solver|]. split; [set_solver|]. split; [intros [->|?]; done|]. intros p Hpp. auto.
    + destruct (C3 b r Hb) as (? & ? & Hor & Hno & Hpp). split; [done|]. split; [set_solver|]. split; [set_solver|].
      split; [|auto]. intros [Heq|?]; [|done]. by rewrite Heq in Hor.
  - intros ch c H. destruct (C4 ch c H) as [? Hpp]. split; [done|]. intros p Hc. rewrite Hnew. auto.
  - assert (∀ b, agent T b → b ∈ accts T) as Hin by (intros b [r (_ & ? & _)%C3]; done).
    apply new_leaf; [|intros p Hpp ->; by apply Hid, Hin, Hp| |exact C5].
    + destruct (agentRows T !! id) eqn:E; [|done]. by destruct Hid; apply Hin; eexists.
    + intros b p (r & Hb & Hpp) ->. destruct (C3 b r Hb) as (_ & _ & _ & _ & Hf). by apply Hid, Hin, Hf.
  - intros b ch [->|Hb]%Hnew Hm; [|by apply S1]. exfalso. apply Hid. by apply (C1 ch id); eexists.
  - intros b ch [->|Hb]%Hnew Hm; [|by apply S2]. exfalso. apply Hid. by apply (C2 ch id); eexists.
  - intros b ch [->|Hb]%Hnew Hm Hn; [rewrite lookup_insert_eq in Hm; destruct Hn; naive_solver|].
    rewrite lookup_insert_ne in Hm by (by intros <-; eapply Hold). apply (S3 b ch Hb Hm). auto.
  - intros b ch [->|Hb]%Hnew Hm; [|by apply S4]. exfalso. apply Hid. by apply (C1 ch id).
Qed.

Lemma create_agent_inv id home gid hookid owner name parent T : id ≠ "" → parent ≠ id → inv T →
  inv (CreateAgent handle_of id home gid hookid owner name parent T).2.
Proof.
  intros Hne Hself HI. apply (tx_inv _ inv); [done|]. intros a T'. destruct (bool_decide (owner = "")); [done|]. destruct (bool_decide (id ∈ accts T)) eqn:Hid; [done|].
  apply bool_decide_eq_false in Hid. destruct (negb (bool_decide (parent = "")) && negb (is_agent T parent) && negb (bool_decide (parent = id))) eqn:Hp; [done|].
  destruct (is_user T owner) eqn:Hu; [|done]. simpl negb. cbv iota.
  destruct (new_agent_inv id home owner (nullif parent) T HI Hne Hid Hu) as [HC1 HS1].
  { intros p [<- Hpe]%nullif_Some. rewrite bool_decide_false in Hp by done. simpl in Hp. apply is_agent_spec.
    rewrite (bool_decide_false (parent = id)) in Hp by done. by destruct (is_agent T parent). }
  cbv zeta. set (T1 := set_accounts _ _ _ T) in *. destruct (if bool_decide (parent = "") then Ok (E:=storeError) T1 else _) as [T2| |] eqn:Eh; simpl; try done.
  destruct (hook_if_inv _ _ _ _ _ _ _ Eh HC1 HS1) as (HC2 & HS2 & HA). destruct (insert_channel home _ T2) as [T3| |] eqn:Ei; simpl; try done.
  destruct (insert_sys_inv (λ a ch, a = id ∧ ch = home) _ _ _ _ Ei) as (HC3 & HS3 & HT3 & Hfresh); [split; simpl; auto; done|done..|].
  set (T4 := set_members _ T3). destruct (SeedDeliveryCursor id home T4) as [T5| |] eqn:Es; simpl; try done. intros [= _ <-].
  apply seed_frame in Es as (HF & Hm & Hc). assert (frame T3 T4) as HF34 by done. pose proof (frame_trans _ _ _ HF34 HF) as HF35.
  assert (agentRows T3 = agentRows T1) as Ear by (rewrite HT3; by destruct HA as (_ & ? & _)).
  assert (accts T3 = accts T1) as Eac by (rewrite HT3; by destruct HA as (? & _)).
  assert (agent T3 id) as Hag by (unfold agent; rewrite Ear; cbn [T1 agentRows set_accounts]; rewrite lookup_insert_eq; eauto).
  pose proof HC3 as [C1 C2 C3 C4 _]. assert (¬ agent T3 owner ∧ owner ∈ accts T3 ∧ id ∈ accts T3) as (Hno & Hoa & Hia).
  { destruct (C3 id (MkAgentRow owner (nullif parent))) as (_ & ? & ? & ? & _); [|done]. rewrite Ear. cbn [T1 agentRows set_accounts]. by rewrite lookup_insert_eq. }
  assert (is_Some (chans T3 !! home)) as Hch by (rewrite HT3; cbn [chans set_chans]; rewrite lookup_insert_eq; eauto).
  assert (has_cursor T5 id home) as Hcur by (apply Hc; by rewrite (frame_agent _ _ _ HF34)).
  assert (∀ k s, members T5 !! k = Some s → k = (home, id) ∨ k = (home, owner) ∧ s = false ∨ members T3 !! k = Some s) as Hmem.
  { intros k s. rewrite Hm. cbn [T4 members set_members]. intros [[<- _]|[_ [[<- <-]|[_ ?]]%lookup_insert_Some]]%lookup_insert_Some; auto. }
  split.
  - apply (frame_core _ _ HF35 HC3). intros ch b [s [[= -> ->]|[[[= -> ->] _]|?]]%Hmem]; [by right..|left; by eexists].
  - assert (seeded (λ a ch, a = id ∧ ch = home) spoiled T5) as [S1 S2 S3 S4].
    { apply (frame_seeded _ spoiled _ _ _ HF35 HS3).
      - intros b ch Hb [[= -> ->]|[[[= -> ->] _]|?]]%Hmem; [by right|done|by left].
      - intros b ch Hb [s [[= -> ->]|[[[= -> ->] _]|?]]%Hmem]; [by right|done|]. intros _ ?. left. split; [by eexists|done]. }
    split; [done|done| |done]. intros b ch Hb Hh _. destruct (decide (b = id ∧ ch = home)) as [[-> ->]|?]; [done|by apply S3].
Qed.

Lemma reparent_agent_inv gid1 cid1 gid2 cid2 caller a p T : inv T → inv (ReparentAgent handle_of gid1 cid1 gid2 cid2 caller a p T).2.
Proof.
  intros HI. apply (tx_inv _ inv); [done|]. intros x T'. destruct (bool_decide (caller = "")); [done|]. destruct (bool_decide (a = "")); [done|].
  destruct (agentRows T !! a) as [r|] eqn:Ha; [|done]. destruct (negb _); [done|]. destruct (validateNewParent a p (owner_user_id r) T) as [[]| |] eqn:Ev; simpl; try done.
  cbv zeta. set (T1 := set_accounts _ _ _ T). assert (∀ b, agent T1 b ↔ agent T b) as Hag.
  { intros b. unfold agent, T1. cbn [agentRows set_accounts]. destruct (decide (a = b)) as [<-|]; [rewrite lookup_insert_eq, Ha|rewrite lookup_insert_ne by done]; [|done].
    split; intros _; eauto. }
  assert (core T1 ∧ seeded none2 spoiled T1) as [HC1 HS1].
  { destruct HI as [[C1 C2 C3 C4 C5] [S1 S2 S3 S4]]. split; split; try done.
    - intros b q. cbn [T1 agentRows set_accounts]. intros Hb. rewrite Hag; setoid_rewrite Hag. apply lookup_insert_Some in Hb as [[<- <-]|[_ Hb]]; [|exact (C3 b q Hb)].
      destruct (C3 a r Ha) as (? & ? & ? & ? & _). do 4 (split; [done|]). simpl. intros q [<- Hq]%nullif_Some.
      unfold validateNewParent in Ev. rewrite bool_decide_false in Ev by done. destruct (agentRows T !! p) as [d|] eqn:Hd; [by exists d|done].
    - intros ch c Hc. destruct (C4 ch c Hc) as [? Hpp]. split; [done|]. intros q Hq. rewrite Hag. auto.
    - apply moved_edge; [done|exact C5|]. intros q [<- Hq]%nullif_Some. unfold validateNewParent in Ev. rewrite bool_decide_false in Ev by done.
      destruct (agentRows T !! p); [|done]. destruct (negb _); [done|]. destruct (walk_up _ T a p []) as [o|] eqn:Ew; [|done]. simpl in Ev. subst o.
      apply (walk_up_sound T a) in Ew; [done| |by apply (C3 a r)|set_solver|set_solver].
      intros [d (? & _)%C3]. done.
    - intros b ch Hb%Hag. exact (S1 b ch Hb).
    - intros b ch Hb%Hag. exact (S2 b ch Hb).
    - intros b ch Hb%Hag. exact (S3 b ch Hb).
    - intros b ch Hb%Hag. exact (S4 b ch Hb). }
  destruct (if bool_decide (p = "") then Ok (E:=storeError) T1 else _) as [T2| |] eqn:E1; simpl; try done. destruct (hook_if_inv _ _ _ _ _ _ _ E1 HC1 HS1) as (HC2 & HS2 & _).
  destruct (match parent_agent_id r with Some _ => _ | None => _ end : result storeError tables) as [T3| |] eqn:E2; simpl; try done. intros [= _ <-].
  destruct (parent_agent_id r) as [old|]; [|by simplify_eq]. destruct (hook_if_inv _ _ _ _ _ _ _ E2 HC2 HS2) as (? & ? & _). by split.
Qed.

(** ** The search for a name *)

Lemma coordination_name_inj base i j : (1 ≤ i)%nat → (1 ≤ j)%nat → coordinationChannelName base i = coordinationChannelName base j → i = j.
Proof.
  assert (∀ s, base ≠ base +:+ ("-" +:+ s)) as Hne.
  { intros s. induction base as [|c base IH]; [done|]. intros [= H]. by apply IH. }
  unfold coordinationChannelName. intros Hi Hj. repeat case_bool_decide; intros H'.
  - lia.
  - by apply Hne in H'.
  - by apply eq_sym, Hne in H'.
  - by apply (inj (String.append base)), (inj (String.append "-")), (inj pretty) in H'.
Qed.

(** A name that is taken by another costs a channel. *)
Lemma coordination_search_taken fuel id group base manager p suffix T : (1 ≤ suffix)%nat →
  upsert_coordination fuel id group base manager p suffix T = None →
  ∃ l : list (string * chanRow), length l = fuel ∧ NoDup l.*1 ∧ ∀ ch c, (ch, c) ∈ l → chans T !! ch = Some c ∧ ∃ j, (suffix ≤ j)%nat ∧ c_name (row c) = coordinationChannelName base j.
Proof.
  revert suffix. induction fuel as [|fuel IH]; intros suffix Hs; simpl.
  { intros _. exists []. split; [done|]. split; [constructor|]. by intros ? ? ?%elem_of_nil. }
  destruct (channel_by_name T group _) as [[x c]|] eqn:Hx; [|done]. case_bool_decide; [done|]. intros (l & <- & Hnd & Hl)%IH; [|lia].
  apply channel_by_name_spec in Hx as (Hc & _ & Hn).
  exists ((x, c) :: l). split; [done|]. split.
  - simpl. constructor; [|done]. intros ([y d] & -> & Hin)%list_elem_of_fmap. simpl in *. destruct (Hl _ _ Hin) as (Hd & j & Hj & Hnj).
      assert (c = d) as -> by congruence. rewrite Hn in Hnj. apply coordination_name_inj in Hnj; lia.
  - intros y d [[= -> ->]|Hin]%elem_of_cons; [split; [done|]; exists suffix; auto|]. destruct (Hl _ _ Hin) as (? & j & ? & ?). split; [done|]. exists j. split; [lia|done].
Qed.

Lemma coordination_search_ends id group base manager p T : upsert_coordination (S (size (chans T))) id group base manager p 1 T ≠ None.
Proof.
  intros (l & Hlen & Hnd & Hl)%coordination_search_taken; [|done]. assert (length l.*1 ≤ size (chans T))%nat; [|rewrite length_fmap in *; lia].
  rewrite <- size_dom, <- (size_list_to_set (C := gset string)) by done. apply subseteq_size. intros x Hx%elem_of_list_to_set.
  apply list_elem_of_fmap in Hx as ([y c] & -> & Hin). apply elem_of_dom. simpl. destruct (Hl _ _ Hin) as [-> _]. eauto.
Qed.

(** ** Writes of one row *)

Lemma frame_inv T T' : frame T T' → members T' = members T → inv T → inv T'.
Proof. intros HF Hm [HC HS]. by apply (frame_same _ _ _ _ HF Hm). Qed.

Lemma system_inv id T : inv T → inv (insert_system id T).
Proof.
  intros [[C1 C2 C3 C4 C5] [S1 S2 S3 S4]]. split; split; try done; cbn [accts chans members subscriptions agentRows insert_system].
  - intros ch b H. destruct (C1 ch b H). set_solver.
  - intros ch b H. destruct (C2 ch b H). set_solver.
  - intros b r H. destruct (C3 b r H) as (? & ? & ? & ? & ?). split; [done|]. split; [set_solver|]. split; [set_solver|done].
Qed.

Lemma rename_inv ch name T : inv T → inv (rename_channel ch name T).
Proof.
  intros HI. unfold rename_channel. destruct (chans T !! ch) as [c|] eqn:Hc; [|done]. destruct HI as [HC HS].
  destruct (core_rows _ HC _ _ Hc) as [[P1 P2 P3 P4 P5] Hp]. split.
  - apply chan_core; [done|by split|done].
  - apply (chan_seeded _ spoiled); [done|done|]. simpl. intros Hm. left. unfold mandatory_of. by rewrite Hc.
Qed.

Lemma sender_inv ch a T T' : EnsureChannelMember ch a T = Ok T' → is_agent T a = false ∨ spoiled ch → inv T → inv T'.
Proof.
  intros H Ha [HC HS]. assert (ensure_members ch [a] T = Ok T') as H' by (simpl; by rewrite H).
  destruct (ensure_members_inv _ _ _ _ _ _ H' HC HS) as (? & HF & _ & [H1 H2 H3 H4] & Hs). split; [done|]. destruct Ha as [Ha|Ha].
  - apply Hs. left. intros x ->%list_elem_of_singleton. rewrite <- is_agent_spec. congruence.
  - split; try done. intros b x Hb Hr Hm Hn. apply (H4 b x Hb Hr Hm). intros [?| ->]; done.
Qed.

Lemma group_inv id owner g T : inv T → inv (CreateChannelGroup id owner g T).2.
Proof.
  intros HI. apply (tx_inv _ inv); [done|]. intros a T'. repeat (match goal with |- (if ?b then _ else _) = _ → _ => destruct b; [done|] end).
  destruct (if bool_decide (ng_ParentGroupID g = "") then _ else _) as [[]| |]; simpl; try done. unfold InsertChannelGroup.
  destruct (bool_decide (is_Some (groups T !! id))); [done|]. destruct (_ && _); [done|]. destruct (_ || _); [done|]. intros [= _ <-]. by apply (frame_inv T).
Qed.

Lemma ack_inv agent ch id T : inv T → inv (AckDelivery agent ch id T).
Proof.
  apply frame_inv.
  - split; try (unfold AckDelivery; destruct (ResolveAckMessage T id ch); [|done]; simpl; destruct (cursors T !! _); repeat case_match; done).
    intros a x Hc. unfold has_cursor. destruct (decide ((a, x) = (agent, ch))) as [[= -> ->]|Hne]; [|by rewrite ack_other_cursor].
    destruct Hc as [c Hc]. unfold AckDelivery. destruct (ResolveAckMessage T id ch); [|by eexists]. cbn [clearOwedMention cursors set_owed]. cbv zeta. cbn [cursors set_owed].
    rewrite Hc. repeat case_match; cbn [cursors set_owed set_cursors]; rewrite ?lookup_insert_eq; eauto.
  - unfold AckDelivery. destruct (ResolveAckMessage T id ch); [|done]; simpl; destruct (cursors T !! _); repeat case_match; done.
Qed.

(** * Histories *)

(** One transaction.  The channels of three of them count as spoiled: a DM that
    [CreateChannel] makes, a DM whose mandatory flag [SetChannelPolicy] clears, and a channel
    that [EnsureChannelMember] alone gives an agent.  With every channel spoiled the steps
    are all the transactions.  Identifiers are fresh and not empty. *)
Inductive cstep (T : tables) : tables → Prop :=
| c_user id : cstep T (CreateUser id T).2
| c_system id : id ∉ accts T → cstep T (insert_system id T)
| c_agent id home gid hookid owner name parent : id ≠ "" → parent ≠ id → cstep T (CreateAgent handle_of id home gid hookid owner name parent T).2
| c_reparent_agent gid1 cid1 gid2 cid2 caller a p : cstep T (ReparentAgent handle_of gid1 cid1 gid2 cid2 caller a p T).2
| c_rename ch name : cstep T (rename_channel ch name T)
| c_sender ch a T' : EnsureChannelMember ch a T = Ok T' → is_agent T a = false ∨ spoiled ch → cstep T T'
| c_group id owner g : cstep T (CreateChannelGroup id owner g T).2
| c_create id actor c : (n_Kind c = ChannelKindDM → spoiled id) → cstep T (CreateChannel pick id actor c T).2
| c_reparent actor ch p : cstep T (ReparentChannel actor ch p T).2
| c_policy actor ch p : keeps_dm ch p T ∨ spoiled ch → cstep T (SetChannelPolicy actor ch p T).2
| c_update actor ch us name : cstep T (UpdateChannelMembers pick actor ch us name T).2
| c_dm gid cid owner co po name caller peer : cstep T (openDMTx pick handle_of gid cid owner co po name caller peer T).2
| c_coordination gid cid manager : cstep T (EnsureCoordinationChannel handle_of gid cid manager T).2
| c_routing gid cid admin supervisor bridge : cstep T (EnsureLinearRoutingChannel pick gid cid admin supervisor bridge T).2
| c_ack agent ch id : cstep T (AckDelivery agent ch id T)
| c_owed agent ch id T' : RecordOwedMention agent ch id T = Ok T' → cstep T T'
| c_clear agent id : cstep T (ClearOwedMention agent id T)
| c_routed id : cstep T (MarkMentionsRouted id T)
| c_post ts ms : cstep T (set_posts ts ms T)
| c_peer ps : cstep T (set_peers ps T).

Lemma cstep_inv T T' : cstep T T' → inv T → inv T'.
Proof.
  destruct 1.
  - apply create_user_inv.
  - apply system_inv.
  - by apply create_agent_inv.
  - apply reparent_agent_inv.
  - apply rename_inv.
  - by apply (sender_inv ch a).
  - apply group_inv.
  - by apply create_inv.
  - apply reparent_channel_inv.
  - by apply policy_inv.
  - by apply update_inv.
  - by apply dm_inv.
  - by apply coordination_inv.
  - by apply routing_inv.
  - apply ack_inv.
  - revert H. unfold RecordOwedMention. repeat case_match; intros; simplify_eq; try done; by apply (frame_inv T).
  - apply (frame_inv T); [split; try done; by intros b x Hc|done].
  - apply (frame_inv T); unfold MarkMentionsRouted; case_match; by try split.
  - apply (frame_inv T); [split; try done; by intros b x Hc|done].
  - apply (frame_inv T); [split; try done; by intros b x Hc|done].
Qed.

Lemma no_tables_inv : inv no_tables.
Proof.
  assert (∀ k : string * string, (∅ : gmap (string * string) bool) !! k = None) as He by apply lookup_empty.
  split; split; unfold has_row, agent; cbn [members subscriptions agentRows chans no_tables].
  - intros ch a [? H]. by rewrite He in H.
  - intros ch a [? H]. by rewrite He in H.
  - intros a r H. by rewrite lookup_empty in H.
  - intros ch c H. by rewrite lookup_empty in H.
  - intros a (p & (r & H & _) & _)%tc_first. by rewrite lookup_empty in H.
  - intros a ch [? H]. by rewrite lookup_empty in H.
  - intros a ch [? H]. by rewrite lookup_empty in H.
  - intros a ch [? H]. by rewrite lookup_empty in H.
  - intros a ch [? H]. by rewrite lookup_empty in H.
Qed.

Lemma history_inv T : rtc cstep no_tables T → inv T.
Proof.
  intros H. assert (∀ T0 T, rtc cstep T0 T → inv T0 → inv T) as Hr by (induction 1; eauto using cstep_inv).
  exact (Hr _ _ H no_tables_inv).
Qed.

End agents.

(** What the delivery queries call a target has a cursor. *)
Lemma target_cursor {X : Spoiled} T a ch : inv T → target T a ch → ¬ spoiled ch → has_cursor T a ch.
Proof.
  intros [HC [S1 S2 S3 S4]] (Ha & s & Hp & Ht) Hn. unfold is_target in Ht. rewrite !orb_true_iff, bool_decide_eq_true in Ht.
  destruct Hp as [c Hc Hm Hr|c p Hc Hm Hpar _ _ ->]; destruct Ht as [[Hs|Hh]|Hmand]; try (by apply S3; [|done|intros []]).
  - subst s. by apply S1.
  - apply S4; [done|by eexists|done|done].
  - apply S2; [done|]. destruct (subscriptions T !! (ch, a)) as [[]|]; done.
  - rewrite Hc in Hmand. destruct (core_rows _ HC _ _ Hc) as [[_ _ Htree _ _] _]. destruct (Htree Hm). congruence.
Qed.

Lemma inv_keys {X : Spoiled} T : inv T → keys_ok T.
Proof.
  intros [HC _]. split.
  - intros ch c p Hc Hp. by apply (core_rows _ HC _ _ Hc).
  - intros a r p Ha Hp. by apply (core_agents _ HC _ _ Ha).
Qed.

(** Identity, as the parameters of the examples. *)
Definition ex_pick : list string → list string := λ l, l.
Definition ex_handle : string → option string := Some.

(** A user with one agent, and two agents of another user. *)
Definition ex_agent (id owner : string) (T : tables) : tables := (CreateAgent ex_handle id ("home-" +:+ id) "" "" owner id "" T).2.
Definition ex_users : tables := (CreateUser "v" (CreateUser "u" no_tables).2).2.
Definition ex_agents : tables := ex_agent "c" "v" (ex_agent "b" "v" (ex_agent "a" "u" ex_users)).

Lemma ex_agents_reached {X : Spoiled} : rtc (cstep ex_pick ex_handle) no_tables ex_agents.
Proof.
  assert (∀ id T, cstep ex_pick ex_handle T (CreateUser id T).2) as Hu by (intros; apply c_user).
  assert (∀ id owner T, id ≠ "" → cstep ex_pick ex_handle T (ex_agent id owner T)) as Ha by (intros; apply c_agent; congruence).
  unfold ex_agents, ex_users. do 3 (eapply rtc_r; [|by apply Ha]). eapply rtc_r; [|apply Hu]. by eapply rtc_r; [|apply Hu].
Qed.

(** A DM that a client creates, and the addition that converts it. *)
Definition ex_dm : NewChannel := MkNewChannel "d" "" ChannelKindDM "" ChannelMembershipModeExplicit ["b"] (MkPolicy ChannelPostPolicyOpen "" false).
Definition ex_converted : tables :=
  (UpdateChannelMembers ex_pick "a" "d" [MkUpdate "c" false false false] "three" (CreateChannel ex_pick "d" "a" ex_dm ex_agents).2).2.

(** The two parties become targets without a cursor. *)
Lemma created_dm_unseeded : SweepChannels ex_converted "b" = {["d"; "home-b"]} ∧ cursors ex_converted !! ("b", "d") = None.
Proof. split; [apply (bool_decide_unpack _)|]; by vm_compute. Qed.

(** * Claims *)

(** The converted DM is reached, its channel spoiled. *)
Lemma ex_converted_reached : rtc (cstep (X := λ ch, ch = "d") ex_pick ex_handle) no_tables ex_converted.
Proof. eapply rtc_r; [|apply c_update]. eapply rtc_r; [apply ex_agents_reached|]. by apply c_create. Qed.

(** C4. After any transactions on accounts, channels, members, policies and posts, every
    channel the sweep delivers to an agent, and every agent a post is pushed to, has a
    delivery cursor, but for the channels that the history spoils: those created as a DM by
    [CreateChannel], DMs whose mandatory flag [SetChannelPolicy] clears, and those that
    [EnsureChannelMember] alone gives an agent.  Spoiled channels may be there ([X] is any
    set that has them); what is done to them leaves no other channel without a cursor. *)
Theorem targets_are_seeded {X : Spoiled} pick handle_of (Hpick : ∀ l, pick l ≡ₚ l) T (HT : rtc (cstep pick handle_of) no_tables T) a ch
    (Hch : ¬ spoiled ch) :
  (ch ∈ SweepChannels T a → is_Some (cursors T !! (a, ch)))
  ∧ (∀ author, a ∈ SubscribedAgents T ch author → is_Some (cursors T !! (a, ch))).
Proof.
  pose proof (history_inv _ Hpick _ _ HT) as HI. rewrite SweepChannels_target. setoid_rewrite (SubscribedAgents_target _ _ _ _ (inv_keys _ HI)).
  split; [by intros; apply target_cursor|]. intros author (? & _). by apply target_cursor.
Qed.

(** Beside the converted DM, the parties have the cursors of their homes. *)
Lemma targets_are_seeded_witness : "home-b" ∈ SweepChannels ex_converted "b" ∧ is_Some (cursors ex_converted !! ("b", "home-b")).
Proof.
  assert ("home-b" ∈ SweepChannels ex_converted "b") as H by (apply (bool_decide_unpack _); by vm_compute).
  split; [done|]. by apply (targets_are_seeded (X := λ ch, ch = "d") ex_pick ex_handle (λ l, reflexivity l) ex_converted ex_converted_reached "b" "home-b").
Defined.

(** C37. Whatever transactions ran (with [X] every channel, the steps are all of them), the parent edges of the agents form no cycle, and the
    walk that guards a new edge ends within the agents there are.  The guard accepts a parent
    exactly when it is an agent of the same owner that the moved agent is not above. *)
Theorem agent_tree_acyclic {X : Spoiled} pick handle_of (Hpick : ∀ l, pick l ≡ₚ l) T (HT : rtc (cstep pick handle_of) no_tables T) a r p
    (Ha : agentRows T !! a = Some r) :
  (∀ b, ¬ tc (edge (agentRows T)) b b)
  ∧ walk_up (S (S (size (agentRows T)))) T a p [] ≠ None
  ∧ (validateNewParent a p (owner_user_id r) T = Ok tt ↔
      p = "" ∨ ∃ q, agentRows T !! p = Some q ∧ owner_user_id q = owner_user_id r ∧ ¬ rtc (edge (agentRows T)) p a).
Proof.
  pose proof (history_inv _ Hpick _ _ HT) as [HC _]. split; [apply (core_tree _ HC)|].
  assert (∀ p, walk_up (S (S (size (agentRows T)))) T a p [] ≠ None) as Hend.
  { intros q. apply walk_up_ends; [constructor|by intros ? ?%elem_of_nil|simpl; lia]. }
  split; [done|]. destruct (core_agents _ HC _ _ Ha) as (Hne & _). assert (¬ agent T "") as He by (intros [d (? & _)%(core_agents _ HC)]; done).
  unfold validateNewParent. case_bool_decide as Hp; [naive_solver|]. destruct (agentRows T !! p) as [q|] eqn:Hq; [|naive_solver].
  specialize (Hend p). case_bool_decide as Ho; cbn [negb]; [|naive_solver]. set (fuel := S (S _)) in *. clearbody fuel.
  destruct (walk_up fuel T a p []) as [[[]| |]|] eqn:Ew; [| | |done]; simpl.
  - split; [|done]. intros _. right. exists q. split; [done|]. split; [done|]. eapply walk_up_sound; [done..| | |done]; set_solver.
  - split; [done|]. intros [?|(q' & _ & _ & Hn)]; [done|]. destruct Hn. by eapply walk_up_complete.
  - by apply walk_up_no_panic in Ew.
Qed.

Lemma agent_tree_acyclic_witness : validateNewParent "b" "c" "v" ex_agents = Ok tt ∧ ¬ tc (edge (agentRows ex_agents)) "b" "b".
Proof.
  assert (∃ r, agentRows ex_agents !! "b" = Some r ∧ owner_user_id r = "v") as (r & Hr & Ho) by (eexists; split; [by vm_compute|done]).
  destruct (agent_tree_acyclic (X := λ _, True) ex_pick ex_handle (λ l, reflexivity l) ex_agents ex_agents_reached "b" r "c" Hr) as (Hac & _ & _).
  split; [by vm_compute|apply Hac].
Defined.

End ChannelHistory.
