(* ===== verification/LinearEvents.v ===== *)
(** What reaches the Linear agent ([src/go/internal/linearagent/webhook.go], [routing.go],
    [data_event.go], [src/go/server/linear_webhook.go]): issue identifiers, the signature and
    freshness of a delivery, issue and comment changes as forge events, and the webhook
    handler.

    JSON decoding, HMAC-SHA256 and the UUID check are arguments.  Times are nanoseconds since
    the epoch; the clock's reading is an argument.  Of a session event the fields are kept
    that the dispatcher reads. *)
From stdpp Require Import base list strings gmap.
From Stdlib Require Import Ascii ZArith Lia.
From S2P Require Import Prelude Text ForgeOwner ForgeDetect.

Module LinearEvents.
Import ForgeOwner ForgeDetect.

Open Scope Z_scope.

(** * Identifiers *)

Definition dash : ascii := "-"%char.

(** [strings.LastIndex(s, "-")], [None] for -1. *)
Fixpoint LastIndex (s : bytes) : option nat :=
  match s with
  | [] => None
  | c :: s => match LastIndex s with Some i => Some (S i) | None => if bool_decide (c = dash) then Some O else None end
  end.

Definition parseIssueIdentifier (identifier : bytes) : option (bytes * N) :=
  match LastIndex identifier with
  | None => None
  | Some i =>
      if bool_decide (i = 0)%nat || bool_decide (i = length identifier - 1)%nat then None
      else match ParseUint (drop (S i) identifier) with
           | Some n => if bool_decide (n = 0%N) then None else Some (take i identifier, n)
           | None => None
           end
  end.

(** * Session events *)

Record Issue := MkIssue { issue_ID : bytes; Identifier : bytes }.
Record AgentSession := MkAgentSession { session_ID : bytes; session_Issue : Issue }.

Record SessionEvent := MkSessionEvent {
  Action : bytes; session : AgentSession; PromptContext : bytes; activity_Body : bytes; DeliveryID : bytes;
}.

Definition with_delivery (id : bytes) (ev : SessionEvent) : SessionEvent :=
  MkSessionEvent (Action ev) (session ev) (PromptContext ev) (activity_Body ev) id.

(** * Signatures *)

Definition hex_val (c : ascii) : option N :=
  if is_digit c then Some (digit_val c)
  else if ((97 <=? code c) && (code c <=? 102))%nat then Some (N_of_ascii c - 87)%N
  else if ((65 <=? code c) && (code c <=? 70))%nat then Some (N_of_ascii c - 55)%N
  else None.

(** [hex.DecodeString], without the partial result of an error. *)
Fixpoint DecodeString (s : bytes) : option bytes :=
  match s with
  | [] => Some []
  | a :: b :: s =>
      match hex_val a, hex_val b, DecodeString s with
      | Some x, Some y, Some r => Some (ascii_of_N (16 * x + y) :: r)
      | _, _, _ => None
      end
  | [_] => None
  end.

(** * Freshness *)

(** [time.Time.Sub] saturates. *)
Definition Sub (t u : Z) : Z :=
  if bool_decide (MinInt64 ≤ t - u ≤ MaxInt64) then t - u else if bool_decide (t < u) then MinInt64 else MaxInt64.

Definition UnixMilli (ms : Z) : Z := ms * 10 ^ 6.

Definition CheckTimestamp (webhookTimestamp now skew : Z) : bool :=
  let delta := Sub now (UnixMilli webhookTimestamp) in
  let delta := if bool_decide (delta < 0) then i64 (- delta) else delta in
  bool_decide (delta ≤ skew).

(** * Data changes *)

Record dataIssue := MkDataIssue { di_Number : Z; di_Identifier : bytes; di_URL : bytes; di_Team : bytes; di_ProjectID : bytes; di_Project : bytes }.

Record dataEvent := MkDataEvent {
  de_Type : bytes; de_Action : bytes; Number : Z; URL : bytes; Team : bytes; StateType : bytes; ProjectID : bytes; Project : bytes;
  de_ID : bytes; de_Body : bytes; DisplayName : bytes; de_Issue : option dataIssue; UpdatedFrom : bytes;
}.

Definition LinearHost : bytes := lit "linear.app".

Definition linearClosedStateTypes : list bytes := [lit "completed"; lit "canceled"; lit "duplicate"].

Definition MapLinearState (stateType : bytes) : bytes :=
  if bool_decide (stateType ∈ linearClosedStateTypes) then lit "closed" else lit "open".

Definition linearProjectID (projectID project : bytes) : bytes := if bool_decide (projectID = []) then project else projectID.

(** [decode_from] reads [stateId] of an [updatedFrom] object. *)
Definition linearStateChanged (decode_from : bytes → option (option bytes)) (updatedFrom : bytes) : bool :=
  if bool_decide (updatedFrom = []) then false
  else match decode_from updatedFrom with Some (Some _) => true | _ => false end.

Definition linearCommentRef (d : dataEvent) (issueURL : bytes) : CommentRef :=
  let '(clean, author) := StripOwner (de_Body d) in
  MkRef issueURL (de_ID d) clean (DisplayName d) ((λ a, (AgentHandle a, OwnerHandle a)) <$> author).

Definition linear_event (repo : bytes) (number : Z) (project url : bytes) (change : ForgeNotificationKind) (comment : option CommentRef) (state : bytes) : ForgeEvent :=
  MkEvent Linear LinearHost repo KindIssue number project url change comment None [] state.

Definition parseLinearIssue (decode_from : bytes → option (option bytes)) (de : dataEvent) : option ForgeEvent :=
  let base := linear_event (Team de) (Number de) (linearProjectID (ProjectID de) (Project de)) (URL de) in
  if bool_decide (de_Action de = lit "create") then Some (base NotifyOpened None [])
  else if bool_decide (de_Action de = lit "update") then
    Some (if linearStateChanged decode_from (UpdatedFrom de) then base NotifyState None (MapLinearState (StateType de)) else base NotifyUpdate None [])
  else None.

Definition parseLinearComment (de : dataEvent) : option ForgeEvent :=
  match de_Issue de with
  | Some iss =>
      if negb (bool_decide (de_Action de = lit "create")) then None
      else
        let id := parseIssueIdentifier (di_Identifier iss) in
        let team := match id with Some (t, _) => if bool_decide (di_Team iss = []) then t else di_Team iss | None => di_Team iss end in
        let number := match id with Some (_, n) => if bool_decide (di_Number iss = 0) then Z.of_N n else di_Number iss | None => di_Number iss end in
        if bool_decide (team = []) || bool_decide (number = 0) then None
        else Some (linear_event team number (linearProjectID (di_ProjectID iss) (di_Project iss)) (di_URL iss) NotifyComment
                     (Some (linearCommentRef de (di_URL iss))) [])
  | None => None
  end.

(** The event of a body, [None] for one that is ignored. *)
Definition ParseLinearDataEvent (decode_from : bytes → option (option bytes)) (de : dataEvent) : option ForgeEvent :=
  if bool_decide (de_Type de = lit "Issue") then parseLinearIssue decode_from de
  else if bool_decide (de_Type de = lit "Comment") then parseLinearComment de
  else None.

(** * The webhook *)

(** [body] is [None] when reading it fails. *)
Record request := MkRequest { Method : bytes; r_Body : option bytes; Signature : bytes; Delivery : bytes }.

Definition maxBody : Z := 1048576.
Definition linearWebhookSkew : Z := 60 * 10 ^ 9.

(** What one request does: the status, the session queue after it and the event handed to
    the data sink. *)
Record served := MkServed { status : Z; queue : option (list SessionEvent); data : option ForgeEvent }.

Section webhook.
Context (hmac_sha256 : bytes → bytes → bytes) (decode_envelope : bytes → option (bytes * Z))
        (decode_session : bytes → option SessionEvent) (decode_data : bytes → option dataEvent)
        (decode_from : bytes → option (option bytes)) (uuid_valid : bytes → bool).

Definition VerifySignature (secret rawBody headerHex : bytes) : bool :=
  match DecodeString headerHex with
  | Some want => bool_decide (want = hmac_sha256 secret rawBody)
  | None => false
  end.

(** [Dispatcher.Enqueue]; [None] is [ErrQueueFull]. *)
Definition Enqueue (capacity : nat) (ev : SessionEvent) (q : list SessionEvent) : option (list SessionEvent) :=
  if bool_decide (length q < capacity)%nat then Some (q ++ [ev]) else None.

(** A queue of [None] is a responder that is not configured. *)
Definition serveSession (capacity : nat) (r : request) (body : bytes) (q : option (list SessionEvent)) : served :=
  match decode_session body with
  | None => MkServed 200 q None
  | Some ev =>
      let ev := if uuid_valid (Delivery r) then with_delivery (Delivery r) ev else ev in
      match q with
      | None => MkServed 200 None None
      | Some l => match Enqueue capacity ev l with Some l => MkServed 200 (Some l) None | None => MkServed 500 q None end
      end
  end.

(** [sink]: a data sink is configured. *)
Definition serveData (sink : bool) (body : bytes) (q : option (list SessionEvent)) : served :=
  match decode_data body with
  | None => MkServed 200 q None
  | Some de => MkServed 200 q (if sink then ParseLinearDataEvent decode_from de else None)
  end.

Definition ServeHTTP (capacity : nat) (sink : bool) (secret : option bytes) (now : Z) (r : request) (q : option (list SessionEvent)) : served :=
  if negb (bool_decide (Method r = lit "POST")) then MkServed 405 q None
  else match r_Body r with
       | None => MkServed 400 q None
       | Some body =>
           if bool_decide (maxBody < Z.of_nat (length body)) then MkServed 413 q None
           else match secret with
                | None => MkServed 503 q None
                | Some secret =>
                    if negb (VerifySignature secret body (Signature r)) then MkServed 400 q None
                    else match decode_envelope body with
                         | None => MkServed 200 q None
                         | Some (type, ts) =>
                             if negb (CheckTimestamp ts now linearWebhookSkew) then MkServed 200 q None
                             else if bool_decide (type = lit "AgentSessionEvent") then serveSession capacity r body q
                             else if bool_decide (type = lit "Issue") || bool_decide (type = lit "Comment") then serveData sink body q
                             else MkServed 200 q None
                         end
                end
       end.

End webhook.

End LinearEvents.
