(* ===== verification/LinearEventsFacts.v ===== *)
(** What of the Linear webhook is exact: identifiers, freshness, and what a delivery must
    pass before anything is handed on. *)
From stdpp Require Import base list strings gmap.
From Stdlib Require Import Ascii ZArith Lia.
From S2P Require Import Prelude Text ForgeOwner ForgeDetect LinearEvents.

Module LinearEventsFacts.
Import ForgeOwner ForgeDetect LinearEvents.

Open Scope Z_scope.

(** * Identifiers *)

Lemma LastIndex_None s : LastIndex s = None ↔ dash ∉ s.
Proof.
  induction s as [|c s IH]; simpl; [split; [by intros _ ?%elem_of_nil|done]|]. rewrite not_elem_of_cons, <- IH.
  destruct (LastIndex s); [naive_solver|]. case_bool_decide; naive_solver.
Qed.

Lemma LastIndex_Some s i : LastIndex s = Some i ↔ ∃ a b, s = a ++ dash :: b ∧ length a = i ∧ dash ∉ b.
Proof.
  revert i. induction s as [|c s IH]; intros i; simpl; [split; [done|by intros ([] & ? & ? & _)]|].
  destruct (LastIndex s) as [j|] eqn:E.
  - split.
    + intros [= <-]. destruct (proj1 (IH j) eq_refl) as (a & b & -> & <- & ?). by exists (c :: a), b.
    + intros ([|d a] & b & [= -> ->] & <- & Hb).
      * apply LastIndex_None in Hb. congruence.
      * f_equal. simpl. f_equal. cut (Some j = Some (length a)); [by intros [= ->]|]. apply IH. by exists a, b.
  - apply LastIndex_None in E. case_bool_decide as Hc.
    + split; [intros [= <-]; subst; by exists [], s|]. intros ([|d a] & b & [= ? ->] & <- & Hb); [done|]. set_solver.
    + split; [done|]. intros ([|d a] & b & [= ? ->] & <- & Hb); [done|]. set_solver.
Qed.

Lemma digits_no_dash d n : ParseUint d = Some n → dash ∉ d.
Proof.
  unfold ParseUint. destruct d as [|c d]; [done|]. destruct (forallb is_digit (c :: d)) eqn:E; [|done]. intros _ Hin.
  rewrite forallb_forall in E. apply list_elem_of_In, E in Hin. done.
Qed.

Lemma cut_parts (a b : bytes) : drop (S (length a)) (a ++ dash :: b) = b.
Proof. rewrite drop_app_ge by lia. by replace (S (length a) - length a)%nat with 1%nat by lia. Qed.

(** * Claims *)

(** An issue identifier is read as the team before its last dash and the number after
    it, exactly when the team is not empty and the number is a non-zero 64-bit decimal; every
    team and number printed so is read back. *)
Theorem identifier_roundtrip s t n :
  (parseIssueIdentifier s = Some (t, n) ↔ ∃ d, s = t ++ dash :: d ∧ t ≠ [] ∧ ParseUint d = Some n ∧ n ≠ 0%N)
  ∧ (t ≠ [] → n ≠ 0%N → (n < 2 ^ 64)%N → parseIssueIdentifier (t ++ dash :: FormatUint n) = Some (t, n)).
Proof.
  assert (∀ t d n, t ≠ [] → ParseUint d = Some n → n ≠ 0%N → parseIssueIdentifier (t ++ dash :: d) = Some (t, n)) as Hp.
  { clear. intros t d n Ht Hd Hn. unfold parseIssueIdentifier. assert (d ≠ []) by (by intros ->).
    rewrite (proj2 (LastIndex_Some (t ++ dash :: d) (length t))) by (exists t, d; eauto using digits_no_dash).
    rewrite cut_parts, take_app_length, Hd, !bool_decide_false; [done|done|rewrite length_app; simpl; destruct d; simpl; [done|lia]|destruct t; simpl; [done|lia]]. }
  split; [split|].
  - unfold parseIssueIdentifier. destruct (LastIndex s) as [i|] eqn:E; [|done]. apply LastIndex_Some in E as (a & b & -> & <- & Hb).
    destruct (_ || _) eqn:Eb; [done|]. apply orb_false_iff in Eb as [Ha%bool_decide_eq_false _].
    rewrite cut_parts, take_app_length. destruct (ParseUint b) as [m|] eqn:Em; [|done]. case_bool_decide; [done|]. intros [= <- <-].
    exists b. split; [done|]. split; [by intros ->|done].
  - intros (d & -> & ? & ? & ?). by apply Hp.
  - intros. apply Hp; [done| |done]. by apply ParseUint_FormatUint.
Qed.

Lemma identifier_roundtrip_witness : parseIssueIdentifier (lit "RIG-API-2717") = Some (lit "RIG-API", 2717%N).
Proof. apply (proj2 (identifier_roundtrip [] (lit "RIG-API") 2717)); [done|done|by vm_compute]. Defined.

(** The freshness check of a delivery takes every timestamp within the skew of now, early
    or late, and no other, but for those more than 2^63 nanoseconds ahead: the difference
    saturates, its negation is negative, and the check takes it. *)
Theorem timestamp_exact ms now skew (Hs : 0 ≤ skew < MaxInt64) :
  CheckTimestamp ms now skew = true ↔ Z.abs (now - UnixMilli ms) ≤ skew ∨ 2 ^ 63 ≤ UnixMilli ms - now.
Proof.
  unfold CheckTimestamp, Sub, MinInt64, MaxInt64 in *. set (d := now - UnixMilli ms). replace (UnixMilli ms - now) with (- d) by lia.
  rewrite bool_decide_eq_true. assert (∀ z, 0 < z < 2 ^ 63 → i64 z = z) as Hi by (intros z ?; apply i64_small; unfold in_i64, MinInt64, MaxInt64; lia).
  assert (i64 (- - 2 ^ 63) = - 2 ^ 63) as Hm by done. repeat case_bool_decide; try lia.
  - destruct (decide (d = - 2 ^ 63)) as [E|]; [rewrite E, Hm; lia|rewrite Hi by lia; lia].
Qed.

Lemma timestamp_exact_witness : CheckTimestamp 10000000000000 (1700000000 * 10 ^ 9) linearWebhookSkew = false ∧ CheckTimestamp 100000000000000 (1700000000 * 10 ^ 9) linearWebhookSkew = true.
Proof.
  split.
  - apply not_true_iff_false. rewrite (timestamp_exact 10000000000000 (1700000000 * 10 ^ 9) linearWebhookSkew) by done. by vm_compute; intros [].
  - apply (timestamp_exact 100000000000000 (1700000000 * 10 ^ 9) linearWebhookSkew); [done|]. right. done.
Defined.





End LinearEventsFacts.
