(* ===== verification/Programs.v ===== *)
(** Routines as programs over the calls they make.  [C X] is a call that answers with an [X];
    [runs p tr a] says that [p] can make the calls of [tr], get its answers and return [a].
    What holds of every trace holds whatever the environment answers and does between two
    calls.  A call that fails or panics answers with a [result]. *)
From stdpp Require Import base list.
From S2P Require Import Prelude.

Module Programs.

Section programs.
Context {C : Type → Type}.

Inductive prog (A : Type) : Type :=
| Ret (a : A)
| Vis (X : Type) (c : C X) (k : X → prog A).
Arguments Ret {A} a.
Arguments Vis {A} X c k.

Fixpoint bind {A B} (p : prog A) (f : A → prog B) : prog B :=
  match p with Ret a => f a | Vis X c k => Vis X c (λ x, bind (k x) f) end.

Definition call {X} (c : C X) : prog X := Vis X c Ret.

(** An error or a panic ends the routine. *)
Definition try {E A B} (p : prog (result E A)) (f : A → prog (result E B)) : prog (result E B) :=
  bind p (λ r, match r with Ok a => f a | Err e => Ret (Err e) | Panic => Ret Panic end).

Inductive event : Type := Ev (X : Type) (c : C X) (x : X).

Fixpoint runs {A} (p : prog A) (tr : list event) (a : A) : Prop :=
  match p with
  | Ret b => tr = [] ∧ a = b
  | Vis X c k => ∃ (x : X) tr', tr = Ev X c x :: tr' ∧ runs (k x) tr' a
  end.

Lemma runs_call {X} (c : C X) tr x : runs (call c) tr x ↔ tr = [Ev X c x].
Proof. simpl. split; [by intros (y & tr' & -> & -> & ->)|intros ->; by exists x, []]. Qed.

Lemma prog_bind {A B} (p : prog A) (f : A → prog B) tr b :
  runs (bind p f) tr b ↔ ∃ tr1 tr2 a, tr = tr1 ++ tr2 ∧ runs p tr1 a ∧ runs (f a) tr2 b.
Proof.
  revert tr. induction p as [a|X c k IH]; intros tr; simpl.
  - split; [intros H; by exists [], tr, a|by intros (? & ? & ? & -> & [-> ->] & ?)].
  - split.
    + intros (x & tr' & -> & (tr1 & tr2 & a & -> & H1 & H2)%IH). exists (Ev X c x :: tr1), tr2, a. split; [done|]. split; [by exists x, tr1|done].
    + intros (tr1 & tr2 & a & -> & (x & tr' & -> & H1) & H2). exists x, (tr' ++ tr2). split; [done|]. apply IH. by exists tr', tr2, a.
Qed.

Lemma runs_try {E A B} (p : prog (result E A)) (f : A → prog (result E B)) tr b :
  runs (try p f) tr b ↔
    (∃ tr1 tr2 a, tr = tr1 ++ tr2 ∧ runs p tr1 (Ok a) ∧ runs (f a) tr2 b)
    ∨ (∃ e, runs p tr (Err e) ∧ b = Err e) ∨ runs p tr Panic ∧ b = Panic.
Proof.
  unfold try. rewrite prog_bind. split.
  - intros (tr1 & tr2 & [a|e|] & -> & H1 & H2); [left; by exists tr1, tr2, a|right; left|right; right]; destruct H2 as [-> ->]; rewrite app_nil_r; eauto.
  - intros [(tr1 & tr2 & a & -> & H1 & H2)|[(e & H & ->)|[H ->]]]; [by exists tr1, tr2, (Ok a)|exists tr, [], (Err e)|exists tr, [], Panic]; by rewrite app_nil_r.
Qed.

(** Every call that a program can make satisfies [P]. *)
Fixpoint calls {A} (P : ∀ X, C X → Prop) (p : prog A) : Prop :=
  match p with Ret _ => True | Vis X c k => P X c ∧ ∀ x, calls P (k x) end.

Definition made (P : ∀ X, C X → Prop) (e : event) : Prop := match e with Ev X c _ => P X c end.

Lemma prog_made {A} P (p : prog A) tr a : calls P p → runs p tr a → Forall (made P) tr.
Proof.
  revert tr. induction p as [b|X c k IH]; intros tr; simpl; [by intros _ [-> _]|].
  intros [Hc Hk] (x & tr' & -> & H). constructor; [done|]. by eapply IH.
Qed.

Lemma prog_calls {A B} P (p : prog A) (f : A → prog B) : calls P p → (∀ a, calls P (f a)) → calls P (bind p f).
Proof. intros Hp Hf. induction p as [a|X c k IH]; simpl in *; [apply Hf|]. destruct Hp as [? Hk]. split; [done|auto]. Qed.

Lemma calls_try {E A B} P (p : prog (result E A)) (f : A → prog (result E B)) : calls P p → (∀ a, calls P (f a)) → calls P (try p f).
Proof. intros Hp Hf. apply prog_calls; [done|]. intros [a|e|]; simpl; auto. Qed.

Lemma calls_call {X} P (c : C X) : P X c → calls P (call c).
Proof. done. Qed.

End programs.

Arguments prog C A : clear implicits.
Arguments Ret {C A} a.
Arguments Vis {C A} X c k.
Arguments event C : clear implicits.

End Programs.
