(* ===== verification/LinearAgent.v ===== *)
(** The Linear session responder ([src/go/internal/linearagent/dispatcher.go], [routing.go],
    [src/go/server/linear_responder.go], [src/go/internal/store/linear_sessions.go]): who
    answers a session, the chain of an event, and the reply that ends a session's wait.

    A routine is a program over its calls ([Programs]); every call may fail or panic.  The
    map of awaited replies is behind a mutex, so arming it is a call and a post on the comms
    bus is an operation of its own.  [handle] is one turn of [Run], which takes the events of
    the queue one after the other. *)
From stdpp Require Import base gmap list strings.
From Stdlib Require Import Ascii ZArith Lia.
From S2P Require Import Prelude Text Programs LinearEvents.

Module LinearAgent.
Import Programs LinearEvents.

Open Scope Z_scope.

(** * Data *)

(** The errors the code tells apart; the routing errors wrap their cause. *)
Inductive agentErr := ErrNotFound | ErrInvalidArgument | errRoutingSupervisor (e : agentErr) | errNotRootAgent | errRoutingChannel (e : agentErr) | ErrInternal | ErrOther.

#[export] Instance agentErr_eq_dec : EqDecision agentErr.
Proof. solve_decision. Defined.

Record AgentAccount := MkAgent { OwnerUserID : string; ParentAgentID : string; HomeChannelID : string }.
Record Account := MkAccount { account_ID : string; Agent : option AgentAccount }.

Record LinearAgentSessionRow := MkRow {
  LinearSessionID : bytes; ManagerAccountID : string; ChannelID : string; TopicID : string; LinearIssueID : bytes; LinearIssueIdentifier : bytes;
}.

Record awaitedReply := MkReply { sessionID : bytes; manager : string }.

(** [ActivityContent]: the type, and the cause of an error. *)
Inductive ActivityContent := Thought | Response | ErrorActivity (cause : agentErr).

Inductive call_ : Type → Type :=
| AuthoredArtifactByCoordinate (host repo : bytes) (number : N) : call_ (result agentErr string)
| GetAccount (id : string) : call_ (result agentErr Account)
| PlacementForAgent (id : string) : call_ (result agentErr unit)
| AgentByHandle (owner handle : string) : call_ (result agentErr Account)
| LinearRoutingChannel (admin : string) : call_ (result agentErr string)
| EnsureChannelMember (channel account : string) : call_ (result agentErr unit)
| GetOrCreateTopic (channel : string) (name : bytes) (author : string) : call_ (result agentErr string)
| UpsertLinearAgentSession (row : LinearAgentSessionRow) : call_ (result agentErr bool)
| LinearAgentSession (session : bytes) : call_ (result agentErr LinearAgentSessionRow)
| MessageRequestRecorded (author : string) (key : bytes) : call_ (result agentErr bool)
| CreateActivity (session : bytes) (content : ActivityContent) : call_ (result agentErr unit)
| UpdateSession (session url : bytes) : call_ (result agentErr unit)
| PostAsAccount (account channel topic : string) (body key : bytes) : call_ (result agentErr unit)
| Arm (topic : string) (reply : awaitedReply) : call_ unit.

Notation program := (prog call_).

Notation "x <~ p ; k" := (try p (λ x, k)) (at level 100, p at next level, k at level 200, right associativity) : go_scope.

(** * The association of a session *)

Definition insert_session (row : LinearAgentSessionRow) (T : gmap bytes LinearAgentSessionRow) : result agentErr (bool * gmap bytes LinearAgentSessionRow) :=
  if bool_decide (LinearSessionID row = []) then Err ErrInvalidArgument
  else if bool_decide (is_Some (T !! LinearSessionID row)) then Ok (false, T)
  else Ok (true, <[LinearSessionID row := row]> T).

Definition read_session (id : bytes) (T : gmap bytes LinearAgentSessionRow) : result agentErr LinearAgentSessionRow :=
  if bool_decide (id = []) then Err ErrInvalidArgument else match T !! id with Some row => Ok row | None => Err ErrNotFound end.

Section agent.
Context (adminID bridge : string) (sessionLinkFor : bytes → bytes) (forgeHost : bytes).

(** * Routing *)

Definition rootSupervisorHandle : string := "supervisor".

Definition isAdminRootSupervisor (acct : Account) : bool :=
  match Agent acct with Some a => bool_decide (OwnerUserID a = adminID) && bool_decide (ParentAgentID a = "") | None => false end.

(** The walk up from an author; [None] when the fuel runs out. *)
Fixpoint walk (fuel : nat) (current : string) (visited : list string) : program (option (result agentErr (string * string))) :=
  match fuel with
  | O => Ret None
  | S fuel =>
      if bool_decide (current = "") || bool_decide (current ∈ visited) then Ret (Some (Err ErrNotFound))
      else
        bind (call (GetAccount current)) (λ r,
          match r with
          | Ok acct =>
              match Agent acct with
              | None => Ret (Some (Err ErrNotFound))
              | Some a =>
                  bind (call (PlacementForAgent current)) (λ r,
                    match r with
                    | Ok _ => Ret (Some (if bool_decide (HomeChannelID a = "") then Err ErrNotFound else Ok (account_ID acct, HomeChannelID a)))
                    | Err e => if bool_decide (e = ErrNotFound) then walk fuel (ParentAgentID a) (current :: visited) else Ret (Some (Err e))
                    | Panic => Ret (Some Panic)
                    end)
              end
          | Err e => Ret (Some (Err e))
          | Panic => Ret (Some Panic)
          end)
  end.

Definition OwningManager (fuel : nat) (agent : string) : program (option (result agentErr (string * string))) := walk fuel agent [].

Definition RoutingTarget : program (result agentErr (string * string)) :=
  bind (call (AgentByHandle adminID rootSupervisorHandle)) (λ r,
    match r with
    | Ok supervisor =>
        if negb (isAdminRootSupervisor supervisor) then Ret (Err errNotRootAgent)
        else bind (call (LinearRoutingChannel adminID)) (λ r,
               match r with
               | Ok channel => Ret (Ok (account_ID supervisor, channel))
               | Err e => Ret (Err (errRoutingChannel e))
               | Panic => Ret Panic
               end)
    | Err e => Ret (Err (errRoutingSupervisor e))
    | Panic => Ret Panic
    end).

(** [ResolveResponder]. *)
Definition resolve (fuel : nat) (ev : SessionEvent) : program (result agentErr (string * string)) :=
  match parseIssueIdentifier (Identifier (session_Issue (session ev))) with
  | None => RoutingTarget
  | Some (team, number) =>
      bind (call (AuthoredArtifactByCoordinate forgeHost team number)) (λ r,
        match r with
        | Ok author =>
            bind (OwningManager fuel author) (λ r,
              match r with
              | Some (Err ErrNotFound) => RoutingTarget
              | Some r => Ret r
              | None => Ret (Err ErrOther)
              end)
        | Err e => if bool_decide (e = ErrNotFound) then RoutingTarget else Ret (Err e)
        | Panic => Ret Panic
        end)
  end.

(** * One event *)

Definition clientRequestIDPrefix : bytes := lit "linear-delivery:".
Definition clientRequestID (ev : SessionEvent) : bytes := if bool_decide (DeliveryID ev = []) then [] else clientRequestIDPrefix ++ DeliveryID ev.

Definition topicName (ev : SessionEvent) : bytes :=
  let id := Identifier (session_Issue (session ev)) in if bool_decide (id = []) then session_ID (session ev) else id.

Definition post (channel topic : string) (body key : bytes) : program (result agentErr unit) := call (PostAsAccount bridge channel topic body key).

Definition armReply (topic : string) (reply : awaitedReply) : program (result agentErr unit) := bind (call (Arm topic reply)) (λ _, Ret (Ok tt)).

Definition session_row (ev : SessionEvent) (manager channel topic : string) : LinearAgentSessionRow :=
  MkRow (session_ID (session ev)) manager channel topic (issue_ID (session_Issue (session ev))) (Identifier (session_Issue (session ev))).

Definition handleCreated (fuel : nat) (ev : SessionEvent) (key : bytes) : program (result agentErr unit) :=
  r <~ resolve fuel ev;
  let '(manager, homeChannel) := r in
  _ <~ call (EnsureChannelMember homeChannel bridge);
  topicID <~ call (GetOrCreateTopic homeChannel (topicName ev) bridge);
  _ <~ call (UpsertLinearAgentSession (session_row ev manager homeChannel topicID));
  _ <~ call (CreateActivity (session_ID (session ev)) Thought);
  _ <~ call (UpdateSession (session_ID (session ev)) (sessionLinkFor (session_ID (session ev))));
  _ <~ armReply topicID (MkReply (session_ID (session ev)) manager);
  post homeChannel topicID (PromptContext ev) key.

Definition handlePrompted (fuel : nat) (ev : SessionEvent) (key : bytes) : program (result agentErr unit) :=
  bind (call (LinearAgentSession (session_ID (session ev)))) (λ r,
    match r with
    | Ok row =>
        _ <~ armReply (TopicID row) (MkReply (session_ID (session ev)) (ManagerAccountID row));
        post (ChannelID row) (TopicID row) (activity_Body ev) key
    | Err e =>
        if bool_decide (e = ErrNotFound) then
          r <~ resolve fuel ev;
          let '(manager, homeChannel) := r in
          _ <~ call (EnsureChannelMember homeChannel bridge);
          topicID <~ call (GetOrCreateTopic homeChannel (topicName ev) bridge);
          _ <~ call (UpsertLinearAgentSession (session_row ev manager homeChannel topicID));
          _ <~ armReply topicID (MkReply (session_ID (session ev)) manager);
          post homeChannel topicID (activity_Body ev) key
        else Ret (Err e)
    | Panic => Ret Panic
    end).

Definition process (fuel : nat) (ev : SessionEvent) : program (result agentErr unit) :=
  if negb (bool_decide (Action ev = lit "created")) && negb (bool_decide (Action ev = lit "prompted")) then Ret (Ok tt)
  else
    let key := clientRequestID ev in
    done <~ (if bool_decide (key = []) then Ret (Ok false) else call (MessageRequestRecorded bridge key));
    if (done : bool) then Ret (Ok tt)
    else if bool_decide (Action ev = lit "created") then handleCreated fuel ev key else handlePrompted fuel ev key.

(** Only a panic of the call itself gets out. *)
Definition emitError (ev : SessionEvent) (cause : agentErr) : program (result agentErr unit) :=
  bind (call (CreateActivity (session_ID (session ev)) (ErrorActivity cause))) (λ r, Ret (match r with Panic => Panic | _ => Ok tt end)).

(** The recovery runs once, over whatever the event and its error report panicked at. *)
Definition handle (fuel : nat) (ev : SessionEvent) : program (result agentErr unit) :=
  bind (process fuel ev) (λ r,
    match r with
    | Ok _ => Ret (Ok tt)
    | Err e => bind (emitError ev e) (λ r, match r with Panic => emitError ev ErrInternal | r => Ret r end)
    | Panic => emitError ev ErrInternal
    end).

End agent.

(** * Replies *)

Inductive reply_op := Armed (topic : string) (reply : awaitedReply) | Posted (topic author : string).

(** The session whose wait a post ends. *)
Definition OnCommsEvent (topic author : string) (awaiting : gmap string awaitedReply) : option bytes * gmap string awaitedReply :=
  match awaiting !! topic with
  | Some want => if bool_decide (manager want = author) then (Some (sessionID want), delete topic awaiting) else (None, awaiting)
  | None => (None, awaiting)
  end.

Definition reply_step (awaiting : gmap string awaitedReply) (o : reply_op) : option bytes * gmap string awaitedReply :=
  match o with
  | Armed topic reply => (None, <[topic := reply]> awaiting)
  | Posted topic author => OnCommsEvent topic author awaiting
  end.

(** What each operation emits. *)
Fixpoint replies (awaiting : gmap string awaitedReply) (ops : list reply_op) : list (option bytes) :=
  match ops with [] => [] | o :: ops => let '(r, awaiting) := reply_step awaiting o in r :: replies awaiting ops end.

End LinearAgent.
