(* ===== verification/LinearAgentFacts.v ===== *)
(** What becomes of a Linear session event, and which reply ends a session's wait. *)
From stdpp Require Import base gmap list strings.
From Stdlib Require Import Ascii ZArith Lia.
From S2P Require Import Prelude Text Programs LinearEvents LinearAgent.

Module LinearAgentFacts.
Import Programs LinearEvents LinearAgent.

Notation trace := (list (event call_)).

(** * Posts of a trace *)

Definition not_post (X : Type) (c : call_ X) : Prop := match c with PostAsAccount _ _ _ _ _ => False | _ => True end.

Definition no_post (tr : trace) : Prop := Forall (made not_post) tr.

(** A post that was stored. *)
Definition stored (e : event call_) : bool :=
  match e with Ev _ c x => match c in call_ X return X → bool with PostAsAccount _ _ _ _ _ => λ x, match x with Ok _ => true | _ => false end | _ => λ _, false end x end.

Lemma no_post_stored tr : no_post tr → Forall (λ e, stored e = false) tr.
Proof. intros H. eapply Forall_impl; [exact H|]. intros [X c x] Hc. by destruct c. Qed.

Section agent.
Context (adminID bridge : string) (sessionLinkFor : bytes → bytes) (forgeHost : bytes).

Lemma walk_calls fuel current visited : calls not_post (walk fuel current visited).
Proof.
  revert current visited. induction fuel as [|fuel IH]; intros current visited; simpl; [done|]. destruct (_ || _); [done|]. simpl. split; [done|].
  intros [acct|e|]; simpl; [|done..]. destruct (Agent acct) as [a|]; simpl; [|done]. split; [done|]. intros [[]|e|]; simpl; [done| |done].
  case_bool_decide; [apply IH|done].
Qed.

Lemma target_calls : calls not_post (RoutingTarget adminID).
Proof.
  simpl. split; [done|]. intros [s|e|]; simpl; [|done..]. destruct (isAdminRootSupervisor adminID s); simpl; [|done]. split; [done|]. by intros [c|e|].
Qed.

Lemma responder_calls fuel ev : calls not_post (resolve adminID forgeHost fuel ev).
Proof.
  unfold resolve. destruct (parseIssueIdentifier _) as [[team number]|]; [|apply target_calls]. cbn [bind call calls]. split; [done|].
  intros [author|e|]; [|case_bool_decide; [apply target_calls|done]|done]. apply prog_calls; [apply walk_calls|].
  intros [[a|[]|]|]; try done. apply target_calls.
Qed.

(** * The chain of an event *)

Definition sid (ev : SessionEvent) : bytes := session_ID (session ev).

(** The last two calls: the wait is armed and the text posted. *)
Definition posts (ev : SessionEvent) (body key : bytes) (r : result agentErr unit) (tr : trace) : Prop :=
  ∃ channel topic manager, tr = [Ev _ (Arm topic (MkReply (sid ev) manager)) tt; Ev _ (PostAsAccount bridge channel topic body key) r].

Lemma arm_post ev channel topic m body key tr r :
  runs (try (armReply topic (MkReply (sid ev) m)) (λ _, post bridge channel topic body key)) tr r → posts ev body key r tr.
Proof.
  cbn. intros ([] & tr1 & -> & x & tr2 & -> & -> & ->). by exists channel, topic, m.
Qed.

(** A call that is no post either ends the routine or is followed by the rest. *)
Lemma call_then {A B} (c : call_ (result agentErr A)) (f : A → program (result agentErr B)) tr r : not_post _ c → runs (try (call c) f) tr r →
  (∃ x, tr = [Ev _ c x] ∧ (∀ b, r ≠ Ok b) ∧ no_post tr) ∨ ∃ a tr', tr = Ev _ c (Ok a) :: tr' ∧ runs (f a) tr' r.
Proof.
  intros Hc [(tr1 & tr2 & a & -> & H & Hf)|[(e & H & ->)|[H ->]]]%runs_try; apply runs_call in H as ->.
  - right. by exists a, tr2.
  - left. exists (Err e). split; [done|]. split; [done|]. by repeat constructor.
  - left. exists Panic. split; [done|]. split; [done|]. by repeat constructor.
Qed.

(** Either the routine failed before its post, or the post was its last call. *)
Definition attempt (ev : SessionEvent) (body key : bytes) (before : trace → Prop) (tr : trace) (r : result agentErr unit) : Prop :=
  (no_post tr ∧ r ≠ Ok tt) ∨ ∃ tr0 tr1, tr = tr0 ++ tr1 ∧ no_post tr0 ∧ before tr0 ∧ posts ev body key r tr1.

Lemma attempt_cons ev body key (P Q : trace → Prop) e tr r : made not_post e → (∀ l, Q l → P (e :: l)) → attempt ev body key Q tr r → attempt ev body key P (e :: tr) r.
Proof.
  intros He HPQ [[H1 H2]|(tr0 & tr1 & -> & H1 & H2 & H3)]; [left; split; [by constructor|done]|right].
  exists (e :: tr0), tr1. split; [done|]. split; [by constructor|]. auto.
Qed.

Lemma attempt_app ev body key (P : trace → Prop) tr0 tr r : no_post tr0 → (∀ l, P l → P (tr0 ++ l)) → attempt ev body key P tr r → attempt ev body key P (tr0 ++ tr) r.
Proof.
  intros H0 HP [[H1 H2]|(tr1 & tr2 & -> & H1 & H2 & H3)]; [left; split; [by apply Forall_app|done]|right].
  exists (tr0 ++ tr1), tr2. split; [by rewrite app_assoc|]. split; [by apply Forall_app|]. auto.
Qed.

(** The thought and the link, taken by Linear, right before the wait is armed. *)
Definition acknowledged (ev : SessionEvent) (tr : trace) : Prop :=
  ∃ tr', tr = tr' ++ [Ev _ (CreateActivity (sid ev) Thought) (Ok tt); Ev _ (UpdateSession (sid ev) (sessionLinkFor (sid ev))) (Ok tt)].

Lemma acknowledged_app ev l tr : acknowledged ev tr → acknowledged ev (l ++ tr).
Proof. intros [tr' ->]. exists (l ++ tr'). by rewrite app_assoc. Qed.

Lemma attempt_posts ev body key (P : trace → Prop) tr r : posts ev body key r tr → P [] → attempt ev body key P tr r.
Proof. intros H HP. right. exists [], tr. split; [done|]. split; [constructor|done]. Qed.

(** One call of a chain. *)
Lemma attempt_call {A} ev body key (P Q : trace → Prop) (c : call_ (result agentErr A)) f tr r : runs (try (call c) f) tr r → not_post _ c →
  (∀ a l, Q l → P (Ev _ c (Ok a) :: l)) → (∀ a tr', runs (f a) tr' r → attempt ev body key Q tr' r) → attempt ev body key P tr r.
Proof.
  intros H Hc HPQ Hf. apply call_then in H as [(x & -> & Hr & Hn)|(a & tr' & -> & H)]; [by left|apply (attempt_cons _ _ _ P Q); [exact Hc|intros l; apply HPQ|by eapply Hf]|done].
Qed.

Lemma attempt_resolve ev body key fuel f tr r : runs (try (resolve adminID forgeHost fuel ev) f) tr r →
  (∀ P : trace → Prop, (∀ l tr0, P l → P (tr0 ++ l)) → (∀ a tr', runs (f a) tr' r → attempt ev body key P tr' r) → attempt ev body key P tr r).
Proof.
  intros [(tr1 & tr2 & a & -> & H & Hf)|[(e & H & ->)|[H ->]]]%runs_try P HP Hk.
  - apply attempt_app; [|intros l; apply HP|by eapply Hk]. eapply prog_made; [apply responder_calls|exact H].
  - left. split; [|done]. eapply prog_made; [apply responder_calls|exact H].
  - left. split; [|done]. eapply prog_made; [apply responder_calls|exact H].
Qed.

Lemma created_attempt fuel ev key tr r : runs (handleCreated adminID bridge sessionLinkFor forgeHost fuel ev key) tr r →
  attempt ev (PromptContext ev) key (acknowledged ev) tr r.
Proof.
  unfold handleCreated. intros H. apply (attempt_resolve _ _ _ _ _ _ _ H); [intros; by apply acknowledged_app|]. clear tr H. intros [manager ch] tr H.
  apply (attempt_call _ _ _ _ (acknowledged ev) _ _ _ _ H I); [intros ? l; apply (acknowledged_app _ [_])|]. clear tr H. intros _ tr H.
  apply (attempt_call _ _ _ _ (acknowledged ev) _ _ _ _ H I); [intros ? l; apply (acknowledged_app _ [_])|]. clear tr H. intros topic tr H.
  apply (attempt_call _ _ _ _ (acknowledged ev) _ _ _ _ H I); [intros ? l; apply (acknowledged_app _ [_])|]. clear tr H. intros _ tr H.
  apply (attempt_call _ _ _ _ (λ l, l = [Ev _ (UpdateSession (sid ev) (sessionLinkFor (sid ev))) (Ok tt)]) _ _ _ _ H I); [intros [] l ->; by exists []|]. clear tr H. intros _ tr H.
  apply (attempt_call _ _ _ _ (λ l, l = []) _ _ _ _ H I); [by intros [] l ->|]. clear tr H. intros _ tr H.
  apply attempt_posts; [|done]. by eapply arm_post.
Qed.

Lemma prompted_attempt fuel ev key tr r : runs (handlePrompted adminID bridge forgeHost fuel ev key) tr r →
  attempt ev (activity_Body ev) key (λ _, True) tr r.
Proof.
  unfold handlePrompted. cbn [bind call]. intros (x & tr' & -> & H). apply (attempt_cons _ _ _ _ (λ _, True)); [done|done|].
  destruct x as [row|e|]; [|case_bool_decide; [|destruct H as [-> ->]; left; by split; [constructor|]]|destruct H as [-> ->]; left; by split; [constructor|]].
  { apply attempt_posts; [|done]. by eapply arm_post. }
  apply (attempt_resolve _ _ _ _ _ _ _ H); [done|]. clear tr' H. intros [manager ch] tr H.
  apply (attempt_call _ _ _ _ (λ _, True) _ _ _ _ H I); [done|]. clear tr H. intros _ tr H.
  apply (attempt_call _ _ _ _ (λ _, True) _ _ _ _ H I); [done|]. clear tr H. intros topic tr H.
  apply (attempt_call _ _ _ _ (λ _, True) _ _ _ _ H I); [done|]. clear tr H. intros _ tr H.
  apply attempt_posts; [|done]. by eapply arm_post.
Qed.

(** The text of the post, and what stands before it. *)
Definition text (ev : SessionEvent) : bytes := if bool_decide (Action ev = lit "created") then PromptContext ev else activity_Body ev.
Definition before (ev : SessionEvent) (tr : trace) : Prop := Action ev = lit "created" → acknowledged ev tr.

Definition ignored (ev : SessionEvent) : Prop := Action ev ≠ lit "created" ∧ Action ev ≠ lit "prompted".

Definition replayed (ev : SessionEvent) (tr : trace) : Prop :=
  clientRequestID ev ≠ [] ∧ tr = [Ev _ (MessageRequestRecorded bridge (clientRequestID ev)) (Ok true)].

Lemma before_app ev l tr : before ev tr → before ev (l ++ tr).
Proof. intros H Ha. by apply acknowledged_app, H. Qed.

Lemma process_attempt fuel ev tr r : runs (process adminID bridge sessionLinkFor forgeHost fuel ev) tr r → ¬ ignored ev →
  replayed ev tr ∧ r = Ok tt ∨ attempt ev (text ev) (clientRequestID ev) (before ev) tr r.
Proof.
  unfold process, ignored. intros H Hi. destruct (negb _ && negb _) eqn:E.
  { apply andb_true_iff in E as [?%negb_true_iff%bool_decide_eq_false ?%negb_true_iff%bool_decide_eq_false]. by destruct Hi. }
  clear E Hi. set (key := clientRequestID ev) in *.
  assert (∀ tr, runs (if bool_decide (Action ev = lit "created") then handleCreated adminID bridge sessionLinkFor forgeHost fuel ev key
                      else handlePrompted adminID bridge forgeHost fuel ev key) tr r → attempt ev (text ev) key (before ev) tr r) as Hrest.
  { intros tr' H'. unfold text, before. case_bool_decide as Ha.
    - destruct (created_attempt _ _ _ _ _ H') as [?|(tr0 & tr1 & -> & ? & ? & ?)]; [by left|right; by exists tr0, tr1].
    - destruct (prompted_attempt _ _ _ _ _ H') as [?|(tr0 & tr1 & -> & ? & ? & ?)]; [by left|right; by exists tr0, tr1]. }
  destruct (bool_decide (key = [])) eqn:Hk; [right; exact (Hrest _ H)|]. apply bool_decide_eq_false in Hk.
  apply call_then in H as [(x & -> & Hr & Hn)|(dn & tr' & -> & H)]; [right; by left| |done].
  destruct dn; [destruct H as [-> ->]; by left|right]. apply (attempt_cons _ _ _ _ (before ev)); [done|intros l; apply (before_app _ [_])|exact (Hrest _ H)].
Qed.

(** The report of a failure, the last call of a trace. *)
Definition reported (ev : SessionEvent) (tr : trace) : Prop := ∃ tr0 e x, tr = tr0 ++ [Ev _ (CreateActivity (sid ev) (ErrorActivity e)) x].

Lemma emit_runs ev e tr r : runs (emitError ev e) tr r → ∃ x, tr = [Ev _ (CreateActivity (sid ev) (ErrorActivity e)) x].
Proof. cbn. intros (x & tr' & -> & -> & _). by exists x. Qed.

(** [handle] is the event's own routine, and a report when that fails. *)
Lemma handle_runs fuel ev tr r : runs (handle adminID bridge sessionLinkFor forgeHost fuel ev) tr r →
  ∃ tr1 tr2 r1, tr = tr1 ++ tr2 ∧ runs (process adminID bridge sessionLinkFor forgeHost fuel ev) tr1 r1
    ∧ (r1 = Ok tt ∧ tr2 = [] ∧ r = Ok tt ∨ r1 ≠ Ok tt ∧ no_post tr2 ∧ ∀ l, reported ev (l ++ tr2)).
Proof.
  unfold handle. rewrite prog_bind. intros (tr1 & tr2 & r1 & -> & H1 & H2). exists tr1, tr2, r1. split; [done|]. split; [done|].
  assert (∀ e x (tr0 : trace), no_post tr0 → no_post (tr0 ++ [Ev _ (CreateActivity (sid ev) (ErrorActivity e)) x])
            ∧ ∀ l, reported ev (l ++ tr0 ++ [Ev _ (CreateActivity (sid ev) (ErrorActivity e)) x])) as Hrep.
  { intros e x tr0 H0. split; [apply Forall_app; split; [done|by repeat constructor]|]. intros l. exists (l ++ tr0), e, x. by rewrite app_assoc. }
  destruct r1 as [[]|e|]; [left; by destruct H2 as [-> ->]|right; split; [done|]..].
  - apply prog_bind in H2 as (t1 & t2 & r2 & -> & [x ->]%emit_runs & H3). destruct r2 as [[]|e2|].
    + destruct H3 as [-> _]. rewrite app_nil_r. by apply (Hrep e x []); constructor.
    + destruct H3 as [-> _]. rewrite app_nil_r. by apply (Hrep e x []); constructor.
    + apply emit_runs in H3 as [y ->]. apply Hrep. by repeat constructor.
  - apply emit_runs in H2 as [y ->]. by apply (Hrep ErrInternal y []); constructor.
Qed.

(** * The walk *)

(** The accounts a trace was told. *)
Definition told (accounts : gmap string Account) (e : event call_) : Prop :=
  match e with
  | Ev _ c x => match c in call_ X return X → Prop with
                | GetAccount id => λ x, match x with Ok a => accounts !! id = Some a | _ => True end
                | _ => λ _, True end x
  end.

Lemma walk_ends fuel accounts current visited tr r : runs (walk fuel current visited) tr r → Forall (told accounts) tr →
  NoDup visited → (∀ v, v ∈ visited → is_Some (accounts !! v)) → (size accounts < fuel + length visited)%nat → r ≠ None.
Proof.
  revert current visited tr. induction fuel as [|fuel IH]; intros current visited tr; simpl.
  { intros [-> ->] _ Hnd Hin Hlen. assert (length visited ≤ size accounts)%nat; [|lia]. rewrite <- size_dom, <- (size_list_to_set (C := gset string)) by done.
    apply subseteq_size. intros v Hv%elem_of_list_to_set. by apply elem_of_dom, Hin. }
  destruct (_ || _) eqn:E; [by intros [-> ->]|]. apply orb_false_iff in E as [_ Hv%bool_decide_eq_false].
  simpl. intros (x & tr' & -> & H) [Hx Ht]%Forall_cons Hnd Hin Hlen. destruct x as [acct|e|]; [|by destruct H as [-> ->]..].
  destruct (Agent acct) as [a|]; [|by destruct H as [-> ->]]. simpl in H. destruct H as (y & tr2 & -> & H). apply Forall_cons in Ht as [_ Ht].
  destruct y as [[]|e|]; [by destruct H as [-> ->]| |by destruct H as [-> ->]]. case_bool_decide; [|by destruct H as [-> ->]].
  eapply IH; [exact H|done|by constructor| |simpl; lia]. intros v [->|?]%elem_of_cons; [simpl in Hx; eauto|auto].
Qed.

End agent.

(** * Replies *)

(** The last arming of a topic, with no post of its manager since. *)
Fixpoint armed (ops : list reply_op) (topic : string) : option awaitedReply :=
  match ops with
  | [] => None
  | Armed t r :: ops => if bool_decide (t = topic) then Some r else armed ops topic
  | Posted t a :: ops =>
      match armed ops topic with
      | Some r => if bool_decide (t = topic) && bool_decide (manager r = a) then None else Some r
      | None => None
      end
  end.

Fixpoint after_ops (awaiting : gmap string awaitedReply) (ops : list reply_op) : gmap string awaitedReply :=
  match ops with [] => awaiting | o :: ops => after_ops (reply_step awaiting o).2 ops end.

Lemma after_snoc awaiting ops o : after_ops awaiting (ops ++ [o]) = (reply_step (after_ops awaiting ops) o).2.
Proof. revert awaiting. induction ops as [|p ops IH]; intros awaiting; [done|]. apply IH. Qed.

Lemma after_armed ops topic : after_ops ∅ ops !! topic = armed (reverse ops) topic.
Proof.
  induction ops as [|o ops IH] using rev_ind; [done|]. rewrite after_snoc, reverse_snoc. destruct o as [t r|t a]; simpl.
  - case_bool_decide as Ht; [by rewrite Ht, lookup_insert_eq|by rewrite lookup_insert_ne].
  - unfold OnCommsEvent. rewrite <- IH. destruct (decide (t = topic)) as [->|Ht].
    + rewrite (bool_decide_true (topic = topic)) by done. simpl. destruct (after_ops ∅ ops !! topic) as [r|] eqn:E; simpl; [|done].
      case_bool_decide; simpl; [by rewrite lookup_delete_eq|done].
    + rewrite (bool_decide_false (t = topic)) by done. simpl. assert (∀ o : option awaitedReply, o = match o with Some r => Some r | None => None end) as Ho by (by intros []).
      rewrite <- Ho. destruct (after_ops ∅ ops !! t) as [r|]; simpl; [|done]. case_bool_decide; simpl; [by rewrite lookup_delete_ne|done].
Qed.

Lemma replies_app awaiting ops1 ops2 : replies awaiting (ops1 ++ ops2) = replies awaiting ops1 ++ replies (after_ops awaiting ops1) ops2.
Proof. revert awaiting. induction ops1 as [|o ops1 IH]; intros awaiting; [done|]. simpl. destruct (reply_step awaiting o) as [x m] eqn:E. by rewrite IH. Qed.

Lemma replies_length awaiting ops : length (replies awaiting ops) = length ops.
Proof. revert awaiting. induction ops as [|o ops IH]; intros awaiting; [done|]. simpl. destruct (reply_step awaiting o). simpl. by rewrite IH. Qed.

Lemma armed_spec ops topic r : armed (reverse ops) topic = Some r ↔
  ∃ j, ops !! j = Some (Armed topic r)
    ∧ ∀ k, (j < k)%nat → (∀ r', ops !! k ≠ Some (Armed topic r')) ∧ ops !! k ≠ Some (Posted topic (manager r)).
Proof.
  induction ops as [|o ops IH] using rev_ind; [split; [done|by intros (j & Hj & _)]|]. rewrite reverse_snoc.
  assert (∀ k o', (ops ++ [o]) !! k = Some o' ↔ ops !! k = Some o' ∨ k = length ops ∧ o = o') as Hl.
  { intros k o'. rewrite lookup_app_Some, list_lookup_singleton_Some. split; [intros [?|(? & ? & ?)]; [by left|right; split; [lia|done]]|].
    intros [?|[-> ?]]; [by left|right; split; [lia|split; [lia|done]]]. }
  assert (∀ k, is_Some (ops !! k) → (k < length ops)%nat) as Hlt by (intros k; apply lookup_lt_is_Some).
  assert ((∀ r', o ≠ Armed topic r') → o ≠ Posted topic (manager r) →
    (∃ j, (ops ++ [o]) !! j = Some (Armed topic r) ∧ ∀ k, (j < k)%nat → (∀ r', (ops ++ [o]) !! k ≠ Some (Armed topic r')) ∧ (ops ++ [o]) !! k ≠ Some (Posted topic (manager r)))
    ↔ armed (reverse ops) topic = Some r) as Hskip.
  { intros Ho1 Ho2. rewrite IH. split; intros (j & Hj & Hk); exists j.
    - apply Hl in Hj as [Hj|[_ Hj]]; [|by apply Ho1 in Hj]. split; [done|]. intros k Hjk. destruct (Hk k Hjk) as [H1 H2]. split; [intros r' H|intros H]; [apply (H1 r')|apply H2]; apply Hl; by left.
    - split; [apply Hl; by left|]. intros k Hjk. destruct (Hk k Hjk) as [H1 H2]. split; [intros r' [H|[_ H]]%Hl; [by apply (H1 r')|by apply Ho1 in H]|intros [H|[_ H]]%Hl; [by apply H2|by apply Ho2 in H]]. }
  destruct o as [t r1|t a]; simpl.
  - case_bool_decide as Ht; [subst t|rewrite Hskip; naive_solver]. split.
    + intros [= ->]. exists (length ops). split; [apply Hl; by right|]. intros k Hk. split; [intros r' H|intros H]; apply Hl in H as [H|[-> H]]; try lia; apply mk_is_Some, Hlt in H; lia.
    + intros (j & Hj & Hk). apply Hl in Hj as [Hj|[-> [= ->]]]; [|done]. apply mk_is_Some, Hlt in Hj. destruct (Hk (length ops) Hj) as [H _]. by destruct (H r1); apply Hl; right.
  - destruct (decide (t = topic ∧ manager r = a)) as [[-> <-]|Hno].
    + split.
      * destruct (armed (reverse ops) topic) as [r2|]; [|done]. rewrite (bool_decide_true (topic = topic)) by done. simpl. case_bool_decide; [done|]. intros [= ->]. done.
      * intros (j & Hj & Hk). apply Hl in Hj as [Hj|[_ ?]]; [|done]. apply mk_is_Some, Hlt in Hj. destruct (Hk (length ops) Hj) as [_ H]. by destruct H; apply Hl; right.
    + rewrite Hskip by naive_solver. destruct (armed (reverse ops) topic) as [r2|]; [|done]. destruct (bool_decide _ && bool_decide _) eqn:E; [|done].
      apply andb_true_iff in E as [?%bool_decide_eq_true ?%bool_decide_eq_true]. split; [done|]. intros [= ->]. by destruct Hno.
Qed.

(** Two sessions of one issue share its topic, and only the later is answered. *)
Lemma shared_topic_loses_reply t s1 s2 m : replies ∅ [Armed t (MkReply s1 m); Armed t (MkReply s2 m); Posted t m; Posted t m] = [None; None; Some s2; None].
Proof. simpl. unfold OnCommsEvent. rewrite lookup_insert_eq. simpl. rewrite bool_decide_true by done. simpl. by rewrite lookup_delete_eq. Qed.

(** * Claims *)

(** C17. A session event is settled, whatever its calls answer and wherever they panic.  An
    event of another action costs no call.  An event whose delivery is already stored costs
    the one call that finds that out.  Any other ends in the post of its text under its
    delivery's key, its only post, with the wait armed just before it and, for a new session,
    the thought and the link accepted by Linear before that; or it posts nothing and its
    failure is reported to Linear. *)
Theorem session_event_settled adminID bridge sessionLinkFor forgeHost fuel ev tr res
    (HR : runs (handle adminID bridge sessionLinkFor forgeHost fuel ev) tr res) :
  (ignored ev → tr = [])
  ∧ (¬ ignored ev → clientRequestID ev ≠ [] → ∃ x tr', tr = Ev _ (MessageRequestRecorded bridge (clientRequestID ev)) x :: tr' ∧ (x = Ok true → tr' = []))
  ∧ (¬ ignored ev → replayed bridge ev tr
     ∨ (∃ tr0 tr1, tr = tr0 ++ tr1 ∧ no_post tr0 ∧ before sessionLinkFor ev tr0 ∧ posts bridge ev (text ev) (clientRequestID ev) (Ok tt) tr1)
     ∨ reported ev tr ∧ Forall (λ e, stored e = false) tr).
Proof.
  apply handle_runs in HR as (tr1 & tr2 & r1 & -> & HP & Hr). split; [|split].
  - intros [H1 H2]. unfold process in HP. rewrite !bool_decide_false in HP by done. destruct HP as [-> ->]. by destruct Hr as [(_ & -> & _)|[? _]].
  - intros Hi Hk. unfold process in HP. destruct (negb _ && negb _) eqn:E.
    { apply andb_true_iff in E as [?%negb_true_iff%bool_decide_eq_false ?%negb_true_iff%bool_decide_eq_false]. by destruct Hi. }
    rewrite (bool_decide_false _ Hk) in HP. destruct HP as (x & tr' & -> & HP). exists x, (tr' ++ tr2). split; [done|]. intros ->. destruct HP as [-> ->].
    by destruct Hr as [(_ & -> & _)|[? _]].
  - intros Hi. destruct Hr as [(-> & -> & _)|(Hne & Hn & Hrep)].
    + rewrite app_nil_r. destruct (process_attempt _ _ _ _ _ _ _ _ HP Hi) as [[? _]|[[_ ?]|(tr0 & tr3 & -> & ? & ? & ?)]]; [by left|done|right; left; by exists tr0, tr3].
    + right. right. split; [apply Hrep|]. apply Forall_app. split; [|by apply no_post_stored].
      destruct (process_attempt _ _ _ _ _ _ _ _ HP Hi) as [[_ ?]|[[? _]|(tr0 & tr3 & -> & ? & _ & (ch & t & m & ->))]]; [done|by apply no_post_stored|].
      apply Forall_app. split; [by apply no_post_stored|]. repeat constructor. by destruct r1 as [[]| |].
Qed.

(** A prompt of a known session, answered at every call. *)
Lemma session_event_settled_witness :
  let row := MkRow (lit "s") "m" "c" "t" [] [] in
  let ev := MkSessionEvent (lit "prompted") (MkAgentSession (lit "s") (MkIssue [] [])) [] (lit "hi") (lit "d") in
  let tr := [Ev _ (MessageRequestRecorded "linear" (lit "linear-delivery:d")) (Ok false); Ev _ (LinearAgentSession (lit "s")) (Ok row);
             Ev _ (Arm "t" (MkReply (lit "s") "m")) tt; Ev _ (PostAsAccount "linear" "c" "t" (lit "hi") (lit "linear-delivery:d")) (Ok tt)] in
  runs (handle "admin" "linear" (λ s, s) [] 1 ev) tr (Ok tt)
  ∧ (replayed "linear" ev tr
     ∨ (∃ tr0 tr1, tr = tr0 ++ tr1 ∧ no_post tr0 ∧ before (λ s, s) ev tr0 ∧ posts "linear" ev (text ev) (clientRequestID ev) (Ok tt) tr1)
     ∨ reported ev tr ∧ Forall (λ e, stored e = false) tr).
Proof.
  intros row ev tr. assert (runs (handle "admin" "linear" (λ s, s) [] 1 ev) tr (Ok tt)) as H.
  { simpl. repeat first [eexists _, _; split; [reflexivity|]|split; reflexivity]. }
  split; [exact H|]. apply (session_event_settled "admin" "linear" (λ s, s) [] 1 ev tr (Ok tt) H). by intros [_ ?].
Defined.

(** A post ends exactly the wait that it answers: a response goes out for a session when
    its prompt armed the topic last, for the author of the post, and that author has not
    posted there since; so no prompt gets two responses and no post of another ends a wait. *)
Theorem reply_ends_wait ops i s :
  replies ∅ ops !! i = Some (Some s) ↔
  ∃ topic author j, ops !! i = Some (Posted topic author) ∧ (j < i)%nat ∧ ops !! j = Some (Armed topic (MkReply s author))
    ∧ ∀ k, (j < k < i)%nat → (∀ r, ops !! k ≠ Some (Armed topic r)) ∧ ops !! k ≠ Some (Posted topic author).
Proof.
  assert (∀ o, ops !! i = Some o → replies ∅ ops !! i = Some (reply_step (after_ops ∅ (take i ops)) o).1) as Hi.
  { intros o Ho. pose proof (lookup_lt_Some _ _ _ Ho) as Hlt. rewrite <- (take_drop_middle _ _ _ Ho) at 1.
    rewrite replies_app, lookup_app_r by (rewrite replies_length, length_take; lia). rewrite replies_length, length_take, Nat.min_l, Nat.sub_diag by lia.
    cbn [replies]. by destruct (reply_step _ o). }
  assert (∀ topic r, after_ops ∅ (take i ops) !! topic = Some r ↔ ∃ j, (j < i)%nat ∧ ops !! j = Some (Armed topic r)
    ∧ ∀ k, (j < k < i)%nat → (∀ r', ops !! k ≠ Some (Armed topic r')) ∧ ops !! k ≠ Some (Posted topic (manager r))) as Ha.
  { intros topic r. rewrite after_armed, armed_spec. setoid_rewrite lookup_take_Some. split.
    - intros (j & [Hj ?] & Hk). exists j. split; [done|]. split; [done|]. intros k [Hjk Hki]. destruct (Hk k Hjk) as [H1 H2].
      split; [intros r' H'; by apply (H1 r')|intros H'; by apply H2].
    - intros (j & ? & Hj & Hk). exists j. split; [done|]. intros k Hjk. split; [intros r' [H' ?]|intros [H' ?]]; destruct (Hk k) as [H1 H2]; [lia|by apply (H1 r')|lia|done]. }
  split.
  - intros H. destruct (ops !! i) as [o|] eqn:Ho.
    2:{ apply lookup_lt_Some in H. rewrite replies_length in H. apply lookup_ge_None in Ho. lia. }
    rewrite (Hi o eq_refl) in H. injection H as H. destruct o as [t r|t a]; [done|]. simpl in H. unfold OnCommsEvent in H.
    destruct (after_ops ∅ (take i ops) !! t) as [[s' m]|] eqn:E; [|done]. simpl in H. case_bool_decide; [|done]. subst. injection H as ->.
    apply Ha in E as (j & ? & ? & ?). by exists t, a, j.
  - intros (t & a & j & Ho & Hj & Hja & Hk). rewrite (Hi _ Ho). simpl. unfold OnCommsEvent. rewrite (proj2 (Ha t (MkReply s a))) by (by exists j). simpl. by rewrite bool_decide_true.
Qed.

End LinearAgentFacts.
