(* ===== verification/BoardArm.v ===== *)
(** The board's webhook arm ([src/go/internal/ingest/board_webhook.go]): a bounded queue of
    forge events, one hydration for each artifact of a drain, and the pull requests that a
    spent budget leaves for a retry.

    The queue is shared with the ingress, everything else belongs to the drain goroutine.  A
    drain takes what is queued and what arrives while it takes; what arrives after that finds the
    queue empty, so the pass is one step.  The hydration seams are calls ([Programs]).  [pick] orders the keys of a Go
    map.  Of an issue only that it was read matters; repository names are ASCII. *)
From stdpp Require Import base gmap list strings.
From Stdlib Require Import Ascii ZArith Lia.
From S2P Require Import Prelude Text Programs ForgeDetect.

Module BoardArm.
Import Programs ForgeDetect.

Open Scope Z_scope.

(** * Data *)

#[export] Instance ForgeArtifactKind_countable : Countable ForgeArtifactKind.
Proof.
  apply (inj_countable' (λ k, match k with KindUnspecified => 0%nat | KindIssue => 1%nat | KindPullRequest => 2%nat end)
           (λ n, match n with O => KindUnspecified | 1%nat => KindIssue | _ => KindPullRequest end)). by intros [].
Defined.

Record boardCoord := MkCoord { c_repo : bytes; c_kind : ForgeArtifactKind; c_number : Z; c_headSHA : bytes }.

#[export] Instance boardCoord_eq_dec : EqDecision boardCoord.
Proof. solve_decision. Defined.
#[export] Instance boardCoord_countable : Countable boardCoord.
Proof.
  apply (inj_countable' (λ c, (c_repo c, c_kind c, c_number c, c_headSHA c)) (λ x : bytes * ForgeArtifactKind * Z * bytes, MkCoord x.1.1.1 x.1.1.2 x.1.2 x.2)).
  by intros [].
Defined.

Record queuedEvent := MkQueued { ev : ForgeEvent; traceparent : bytes }.

(** A budget error may carry the reset hint. *)
Inductive armErr := ErrNoPullRequestForSHA | ErrBudgetExhausted (retryAfter : option Z) | ErrOther.

Inductive call_ : Type → Type :=
| IsEnabledRepo (repo : bytes) : call_ (armErr + bool)
| PullNumberForSHA (repo sha : bytes) : call_ (armErr + Z)
| Hydrate (repo : bytes) (number : Z) : call_ (armErr + unit)
| GetIssueConditional (repo : bytes) (number : Z) : call_ (armErr + bool)
| IngestIssues (repo : bytes) (number : Z) : call_ (armErr + unit)
| Cancelled : call_ bool.

Notation program := (prog call_).

Definition maxHeldTraceparents : nat := 32.
Definition defaultBoardRetryWait : Z := 60 * 10 ^ 9.
Definition defaultBoardQueueSize : Z := 1024.

(** What the drain goroutine keeps, with the drop counter. *)
Record arm := MkArm { pending : gmap boardCoord (list bytes); dropped : Z }.

Section arm.
Context (pulls numbers : bool) (maxPending : nat) (pick : list boardCoord → list boardCoord).

(** * The ingress *)

Definition boardRelevant (e : ForgeEvent) : bool :=
  match ev_Kind e with
  | KindIssue => match ev_Change e with NotifyOpened | NotifyState | NotifyUpdate => true | _ => false end
  | KindPullRequest =>
      pulls && (if bool_decide (ev_Number e = 0) then negb (bool_decide (ev_HeadSHA e = [])) && numbers else true)
  | KindUnspecified => false
  end.

(** The queue has room for [maxPending] events, the size both are made with. *)
Definition Enqueue (q : queuedEvent) (queue : list queuedEvent) (a : arm) : list queuedEvent * arm :=
  if negb (boardRelevant (ev q)) then (queue, a)
  else if bool_decide (length queue < maxPending)%nat then (queue ++ [q], a)
  else (queue, MkArm (pending a) (dropped a + 1)).

(** * One pass *)

Definition normalizeBoardRepo (raw : bytes) : bytes := ToLower (TrimSpace raw).

Definition coord_of (e : ForgeEvent) : boardCoord :=
  MkCoord (normalizeBoardRepo (ev_Repo e)) (ev_Kind e) (ev_Number e) (if bool_decide (ev_Number e = 0) then ev_HeadSHA e else []).

Record batch := MkBatch { order : list boardCoord; seen : gset boardCoord; carried : gmap boardCoord (list bytes) }.

Definition add (s : arm * batch) (q : queuedEvent) : arm * batch :=
  let '(a, b) := s in
  let c := coord_of (ev q) in
  match pending a !! c with
  | Some tps =>
      if negb (bool_decide (traceparent q = [])) && bool_decide (length tps < maxHeldTraceparents)%nat
      then (MkArm (<[c := tps ++ [traceparent q]]> (pending a)) (dropped a), b) else (a, b)
  | None =>
      let b := if bool_decide (c ∈ seen b) then b else MkBatch (order b ++ [c]) ({[c]} ∪ seen b) (carried b) in
      (a, if bool_decide (traceparent q = []) then b
          else MkBatch (order b) (seen b) (<[c := default [] (carried b !! c) ++ [traceparent q]]> (carried b)))
  end.

Definition hydrateAndSink (c : boardCoord) : program (option armErr) :=
  bind (call (IsEnabledRepo (c_repo c))) (λ r,
    match r with
    | inl e => Ret (Some e)
    | inr false => Ret None
    | inr true =>
        if bool_decide (c_kind c = KindPullRequest)
        then bind (call (Hydrate (c_repo c) (c_number c))) (λ r, Ret (match r with inl e => Some e | inr _ => None end))
        else bind (call (GetIssueConditional (c_repo c) (c_number c))) (λ r,
               match r with
               | inl e => Ret (Some e)
               | inr notModified =>
                   if (notModified : bool) then Ret None
                   else bind (call (IngestIssues (c_repo c) (c_number c))) (λ r, Ret (match r with inl e => Some e | inr _ => None end))
               end)
    end).

(** The error, and the keys seen after it. *)
Definition resolveAndSink (c : boardCoord) (seen : gset boardCoord) : program (option armErr * gset boardCoord) :=
  if bool_decide (c_headSHA c = []) then bind (hydrateAndSink c) (λ e, Ret (e, seen))
  else
    bind (call (IsEnabledRepo (c_repo c))) (λ r,
      match r with
      | inl e => Ret (Some e, seen)
      | inr false => Ret (None, seen)
      | inr true =>
          bind (call (PullNumberForSHA (c_repo c) (c_headSHA c))) (λ r,
            match r with
            | inl ErrNoPullRequestForSHA => Ret (None, seen)
            | inl e => Ret (Some e, seen)
            | inr n =>
                let c' := MkCoord (c_repo c) (c_kind c) n [] in
                if bool_decide (c' ∈ seen) then Ret (None, seen) else bind (hydrateAndSink c') (λ e, Ret (e, {[c']} ∪ seen))
            end)
      end).

(** Pull requests only; a key too many is dropped and counted. *)
Definition hold1 (carried : gmap boardCoord (list bytes)) (a : arm) (c : boardCoord) : arm :=
  if negb (bool_decide (c_kind c = KindPullRequest)) then a
  else if bool_decide (pending a !! c = None) && bool_decide (maxPending ≤ size (pending a))%nat then MkArm (pending a) (dropped a + 1)
  else MkArm (<[c := take maxHeldTraceparents (default [] (carried !! c))]> (pending a)) (dropped a).

Definition hold (rest : list boardCoord) (carried : gmap boardCoord (list bytes)) (a : arm) : arm := foldl (hold1 carried) a rest.

(** The wait of a pause, [None] when the pass was not paused. *)
Fixpoint process (order : list boardCoord) (seen : gset boardCoord) (carried : gmap boardCoord (list bytes)) (a : arm) : program (arm * option Z) :=
  match order with
  | [] => Ret (a, None)
  | c :: rest =>
      bind (resolveAndSink c seen) (λ r,
        match r with
        | (Some (ErrBudgetExhausted wait), _) => Ret (hold (c :: rest) carried a, Some (default 0 wait))
        | (_, seen) => bind (call Cancelled) (λ cancelled, if (cancelled : bool) then Ret (a, None) else process rest seen carried a)
        end)
  end.

Definition drainBatch (events : list queuedEvent) (a : arm) : program (arm * option Z) :=
  let '(a, b) := foldl add (a, MkBatch [] ∅ ∅) events in process (order b) (seen b) (carried b) a.

Definition takePending (a : arm) : batch * arm :=
  (MkBatch (pick (map_to_list (pending a)).*1) (dom (pending a)) (pending a), MkArm ∅ (dropped a)).

Definition retryPending (a : arm) : program (arm * option Z) :=
  let '(b, a) := takePending a in process (order b) (seen b) (carried b) a.

(** * The loop *)

(** The wait of the armed timer. *)
Record state := MkState { queue : list queuedEvent; retry : option Z; held : arm }.

Definition retryTimer (wait : Z) (a : arm) : option Z :=
  if bool_decide (pending a = ∅) then None else Some (if bool_decide (wait ≤ 0) then defaultBoardRetryWait else wait).

Definition start : state := MkState [] None (MkArm ∅ 0).

(** An event from the ingress, a drain of the queue and of the [more] that arrives meanwhile,
    and a fired timer, each with the calls it made. *)
Inductive step (s : state) : list (event call_) → state → Prop :=
| step_enqueue q : step s [] (MkState (Enqueue q (queue s) (held s)).1 (retry s) (Enqueue q (queue s) (held s)).2)
| step_drain more tr a paused : queue s ≠ [] → Forall (λ q, boardRelevant (ev q) = true) more →
    runs (drainBatch (queue s ++ more) (held s)) tr (a, paused) →
    step s tr (MkState [] (match paused, retry s with Some wait, None => retryTimer wait a | _, r => r end) a)
| step_retry tr a paused w : retry s = Some w → runs (retryPending (held s)) tr (a, paused) →
    step s tr (MkState (queue s) (match paused with Some wait => retryTimer wait a | None => None end) a).

Inductive reachable : state → Prop :=
| reach_start : reachable start
| reach_step s tr s' : reachable s → step s tr s' → reachable s'.

End arm.

End BoardArm.
