(* ===== verification/BoardArmFacts.v ===== *)
(** The board's webhook arm: what is held has a timer, and no change of a pull request gets
    lost on the way. *)
From stdpp Require Import base gmap list strings.
From Stdlib Require Import Ascii ZArith Lia.
From S2P Require Import Prelude Text Programs ForgeDetect BoardArm.

Module BoardArmFacts.
Import Programs ForgeDetect BoardArm.

Open Scope Z_scope.

Notation trace := (list (event call_)).

Section arm.
Context (maxPending : nat).

(** * Held keys *)

(** Held keys are pull requests, no more than the bound, each with few traces. *)
Record held_ok (a : arm) : Prop := {
  ok_kind c tps : pending a !! c = Some tps → c_kind c = KindPullRequest ∧ (length tps ≤ maxHeldTraceparents)%nat;
  ok_size : (size (pending a) ≤ maxPending)%nat;
}.

Lemma hold1_ok carried a c : held_ok a → held_ok (hold1 maxPending carried a c) ∧ dropped a ≤ dropped (hold1 maxPending carried a c).
Proof.
  intros [H1 H2]. unfold hold1. case_bool_decide as Hk; simpl; [|split; [done|lia]]. destruct (_ && _) eqn:E; [simpl; split; [done|lia]|].
  simpl. split; [|lia]. split; simpl.
  - intros d tps [[<- <-]|[_ Hd]]%lookup_insert_Some; [split; [done|rewrite length_take; lia]|by apply H1].
  - apply andb_false_iff in E as [E%bool_decide_eq_false|E%bool_decide_eq_false].
    + rewrite map_size_insert. destruct (pending a !! c); [done|by destruct E].
    + rewrite map_size_insert. destruct (pending a !! c); simpl; [done|lia].
Qed.

Lemma hold_ok carried rest a : held_ok a → held_ok (hold maxPending rest carried a) ∧ dropped a ≤ dropped (hold maxPending rest carried a).
Proof.
  revert a. induction rest as [|c rest IH]; intros a Ha; simpl; [split; [done|lia]|]. destruct (hold1_ok carried a c Ha) as [H1 H2].
  destruct (IH _ H1). split; [done|lia].
Qed.

(** A key that is held stays held, a pull request of the rest is held or counted. *)
Lemma hold1_keeps carried a c d : is_Some (pending a !! d) → is_Some (pending (hold1 maxPending carried a c) !! d).
Proof.
  intros H. unfold hold1. repeat case_match; simpl; [done..|]. destruct (decide (c = d)) as [->|]; [rewrite lookup_insert_eq; eauto|by rewrite lookup_insert_ne].
Qed.

Lemma hold_keeps carried rest a d : is_Some (pending a !! d) → is_Some (pending (hold maxPending rest carried a) !! d).
Proof. revert a. induction rest as [|c rest IH]; intros a H; simpl; [done|]. by apply IH, hold1_keeps. Qed.

(** The pull requests of the rest that are not held are counted, each for itself. *)
Lemma hold_lost carried rest a : ∃ lost,
  dropped (hold maxPending rest carried a) = dropped a + Z.of_nat (length lost)
  ∧ ∀ c, c ∈ rest → c_kind c = KindPullRequest → is_Some (pending (hold maxPending rest carried a) !! c) ∨ c ∈ lost.
Proof.
  revert a. induction rest as [|d rest IH]; intros a; simpl; [exists []; simpl; split; [lia|by intros ? ?%elem_of_nil]|].
  destruct (IH (hold1 maxPending carried a d)) as (lost & Hl & Hin).
  assert (dropped (hold1 maxPending carried a d) = dropped a ∧ (c_kind d = KindPullRequest → is_Some (pending (hold1 maxPending carried a d) !! d))
    ∨ dropped (hold1 maxPending carried a d) = dropped a + 1) as [[Hd Hk]|Hd].
  { unfold hold1. case_bool_decide as Hk; simpl; [|by left]. destruct (_ && _); simpl; [by right|left]. split; [done|]. intros _. rewrite lookup_insert_eq. eauto. }
  - exists lost. split; [by rewrite Hl, Hd|]. intros c [->|Hc]%elem_of_cons Hpr; [left; by apply hold_keeps, Hk|by apply Hin].
  - exists (d :: lost). split; [simpl; lia|]. intros c [->|Hc]%elem_of_cons Hpr; [right; left|]. destruct (Hin c Hc Hpr); [by left|right; by right].
Qed.

(** * The pass *)

(** An event of a held key changes what is held of it, nothing else does. *)
Lemma add_dom s q : dom (pending (add s q).1) = dom (pending s.1) ∧ dropped (add s q).1 = dropped s.1.
Proof.
  destruct s as [a b]. unfold add. destruct (pending a !! coord_of (ev q)) as [tps|] eqn:E; [|done]. destruct (_ && _); [|done]. simpl.
  split; [|done]. rewrite dom_insert_L. apply elem_of_dom_2 in E. set_solver.
Qed.

Lemma add_doms events s : dom (pending (foldl add s events).1) = dom (pending s.1) ∧ dropped (foldl add s events).1 = dropped s.1.
Proof. revert s. induction events as [|q events IH]; intros s; simpl; [done|]. destruct (add_dom s q) as [<- <-]. apply IH. Qed.

Lemma add_ok s q : held_ok s.1 → held_ok (add s q).1.
Proof.
  destruct s as [a b]. intros [H1 H2]. unfold add. destruct (pending a !! coord_of (ev q)) as [tps|] eqn:E; [|done].
  destruct (_ && _) eqn:F; [|done]. apply andb_true_iff in F as [_ F%bool_decide_eq_true]. simpl in *. split; simpl.
  - intros d t [[<- <-]|[_ Hd]]%lookup_insert_Some; [|by apply H1]. split; [by eapply H1|rewrite length_app; simpl; lia].
  - by rewrite map_size_insert, E.
Qed.

Lemma adds_ok events s : held_ok s.1 → held_ok (foldl add s events).1.
Proof. revert s. induction events as [|q events IH]; intros s Hs; simpl; [done|]. by apply IH, add_ok. Qed.

Lemma dom_empty_iff (p p' : gmap boardCoord (list bytes)) : dom p = dom p' → p = ∅ → p' = ∅.
Proof. intros H ->. apply dom_empty_inv_L. by rewrite <- H, dom_empty_L. Qed.

(** A pass that is not paused holds nothing more, a paused one holds what it has left. *)
Lemma process_held order seen carried a tr a' paused : runs (process maxPending order seen carried a) tr (a', paused) →
  (paused = None ∧ a' = a) ∨ ∃ w pre rest, paused = Some w ∧ order = pre ++ rest ∧ a' = hold maxPending rest carried a.
Proof.
  revert seen tr. induction order as [|c rest IH]; intros seen tr; simpl; [intros [_ [= -> ->]]; by left|].
  intros (tr1 & tr2 & [e seen'] & -> & _ & H)%prog_bind.
  assert (runs (bind (call Cancelled) (λ cancelled : bool, if cancelled then Ret (a, None) else process maxPending rest seen' carried a)) tr2 (a', paused)
    ∨ ∃ w, paused = Some w ∧ a' = hold maxPending (c :: rest) carried a) as [Hc|(w & -> & ->)].
  { destruct e as [[| |]|]; try (by left). right. destruct H as [_ [= -> ->]]. eauto. }
  - apply prog_bind in Hc as (tr3 & tr4 & [] & -> & _ & Hc); [destruct Hc as [_ [= -> ->]]; by left|].
    apply IH in Hc as [?|(w & pre & rest' & -> & -> & ->)]; [by left|right]. by exists w, (c :: pre), rest'.
  - right. by exists w, [], (c :: rest).
Qed.

Lemma process_ok order seen carried a tr a' paused : held_ok a → runs (process maxPending order seen carried a) tr (a', paused) → held_ok a'.
Proof. intros Ha [[_ ->]|(? & ? & rest & _ & _ & ->)]%process_held; [done|]. by apply hold_ok. Qed.

Lemma retryTimer_some w a : pending a ≠ ∅ → retryTimer w a ≠ None.
Proof. intros H. unfold retryTimer. by rewrite bool_decide_false. Qed.

(** C16. Whatever sequence of events, drains and retries, and whatever the forge answers: what
    a spent budget has left waits under an armed timer, it is pull requests only, no more of
    them than the bound, and each with no more than thirty-two traces. *)
Theorem held_has_timer pulls numbers pick s : reachable pulls numbers maxPending pick s → held_ok (held s) ∧ (pending (held s) ≠ ∅ → retry s ≠ None).
Proof.
  induction 1 as [|s tr s' _ [Hok Ht] Hs]; [split; [split; simpl; [done|rewrite map_size_empty; lia]|done]|].
  destruct Hs as [q|more tr a paused _ _ H|tr a paused w Hr H]; simpl.
  - unfold Enqueue. destruct (negb _); [done|]. case_bool_decide; [done|]. destruct Hok. by split.
  - unfold drainBatch in H. pose proof (adds_ok (queue s ++ more) (held s, MkBatch [] ∅ ∅) Hok) as H1. destruct (add_doms (queue s ++ more) (held s, MkBatch [] ∅ ∅)) as [H2 _].
    destruct (foldl add _ _) as [a0 b]. simpl in *. split; [by eapply process_ok|]. intros Hp.
    destruct (process_held _ _ _ _ _ _ _ H) as [[-> ->]|(w & _ & _ & -> & _ & _)].
    + apply Ht. intros He. apply Hp. by eapply dom_empty_iff, He.
    + destruct (retry s); [done|by apply retryTimer_some].
  - unfold retryPending, takePending in H. assert (held_ok (MkArm ∅ (dropped (held s)))) as H0 by (split; simpl; [done|rewrite map_size_empty; lia]).
    split; [by eapply process_ok|]. intros Hp. destruct (process_held _ _ _ _ _ _ _ H) as [[-> ->]|(w' & _ & _ & -> & _ & _)]; [done|by apply retryTimer_some].
Qed.

(** * What becomes of a change *)

Definition spent {X} (r : armErr + X) : Prop := ∃ w, r = inl (ErrBudgetExhausted w).

(** The forge answered for the pull request, and not that the budget is spent: the repository
    is off or cannot be looked up, or the pull request was read or cannot be. *)
Inductive settled (tr : trace) (c : boardCoord) : Prop :=
| settled_off r : Ev _ (IsEnabledRepo (c_repo c)) r ∈ tr → r ≠ inr true → ¬ spent r → settled tr c
| settled_read r : Ev _ (Hydrate (c_repo c) (c_number c)) r ∈ tr → ¬ spent r → settled tr c.

(** The same for a key that has the head commit in place of the number, whose number may be
    that of another key of [keys]. *)
Inductive answered (tr : trace) (keys : gset boardCoord) (c : boardCoord) : Prop :=
| answered_settled : settled tr c → answered tr keys c
| answered_sha r : Ev _ (PullNumberForSHA (c_repo c) (c_headSHA c)) r ∈ tr → ¬ spent r →
    (∀ n, r = inr n → MkCoord (c_repo c) (c_kind c) n [] ∈ keys ∨ settled tr (MkCoord (c_repo c) (c_kind c) n [])) →
    answered tr keys c.

Lemma settled_mono tr tr' c : tr ⊆ tr' → settled tr c → settled tr' c.
Proof. intros H [r Hr ? ?|r Hr ?]; [eapply settled_off|eapply settled_read]; try done; by apply H. Qed.

Lemma answered_mono tr tr' keys c : tr ⊆ tr' → answered tr keys c → answered tr' keys c.
Proof.
  intros H [Hc|r Hr ? Hn]; [left; by eapply settled_mono|]. eapply answered_sha; [by apply H|done|].
  intros n En. destruct (Hn n En); [by left|right; by eapply settled_mono].
Qed.

Lemma hydrate_settles c tr e : c_kind c = KindPullRequest → runs (hydrateAndSink c) tr e → (∃ w, e = Some (ErrBudgetExhausted w)) ∨ settled tr c.
Proof.
  intros Hk. unfold hydrateAndSink. intros (tr1 & tr2 & r & -> & ->%runs_call & H)%prog_bind.
  assert (Hin : ∀ l, Ev _ (IsEnabledRepo (c_repo c)) r ∈ [Ev _ (IsEnabledRepo (c_repo c)) r] ++ l) by (intros; left).
  destruct r as [[|w|]|[]].
  - right. eapply settled_off; [apply Hin|done|by intros [??]].
  - left. destruct H as [_ ->]. eauto.
  - right. eapply settled_off; [apply Hin|done|by intros [??]].
  - rewrite bool_decide_true in H by done. apply prog_bind in H as (tr3 & tr4 & r & -> & ->%runs_call & [-> ->]).
    destruct r as [[|w|]|[]]; [right|left; eauto|right|right]; (eapply settled_read; [right; left|by intros [??]]).
  - right. eapply settled_off; [apply Hin|done|by intros [??]].
Qed.

(** What the pass has seen: the keys it began with, and settled ones. *)
Definition seen_ok (keys seen : gset boardCoord) (tr : trace) : Prop :=
  ∀ d, d ∈ seen → c_kind d = KindPullRequest → d ∈ keys ∨ settled tr d.

Lemma seen_ok_mono keys seen tr tr' : tr ⊆ tr' → seen_ok keys seen tr → seen_ok keys seen tr'.
Proof. intros H Hs d Hd Hk. destruct (Hs d Hd Hk); [by left|right; by eapply settled_mono]. Qed.

Lemma resolve_answers keys c seen tr0 tr e seen' : c_kind c = KindPullRequest → seen_ok keys seen tr0 →
  runs (resolveAndSink c seen) tr (e, seen') →
  (∃ w, e = Some (ErrBudgetExhausted w)) ∨ seen_ok keys seen' (tr0 ++ tr) ∧ answered (tr0 ++ tr) keys c.
Proof.
  intros Hk Hs. unfold resolveAndSink. assert (Hs' : ∀ l, seen_ok keys seen (tr0 ++ l)) by (intros l; eapply seen_ok_mono; [|done]; set_solver).
  case_bool_decide as Hsha.
  { intros (tr1 & tr2 & r & -> & H%(hydrate_settles _ _ _ Hk) & [-> [= -> ->]])%prog_bind. destruct H as [[w ->]|H]; [eauto|].
    right. split; [done|]. left. eapply settled_mono; [|done]. set_solver. }
  intros (tr1 & tr2 & r & -> & ->%runs_call & H)%prog_bind.
  assert (Hin : ∀ l, Ev _ (IsEnabledRepo (c_repo c)) r ∈ tr0 ++ [Ev _ (IsEnabledRepo (c_repo c)) r] ++ l) by (intros; set_solver).
  destruct r as [[|w|]|[]]; try (destruct H as [-> [= -> ->]]).
  1, 3, 5: right; split; [done|left; eapply settled_off; [apply Hin|done|by intros [??]]].
  { eauto. }
  apply prog_bind in H as (tr3 & tr4 & r & -> & ->%runs_call & H).
  assert (Hin2 : ∀ l, Ev _ (PullNumberForSHA (c_repo c) (c_headSHA c)) r ∈ tr0 ++ [Ev _ (IsEnabledRepo (c_repo c)) (inr true)] ++ [Ev _ (PullNumberForSHA (c_repo c) (c_headSHA c)) r] ++ l)
    by (intros; set_solver).
  destruct r as [[|w|]|n]; try (destruct H as [-> [= -> ->]]).
  1, 3: right; split; [done|eapply answered_sha; [apply Hin2|by intros [??]|done]].
  { eauto. }
  case_bool_decide as Hn.
  - destruct H as [-> [= -> ->]]. right. split; [done|]. eapply answered_sha; [apply Hin2|by intros [??]|]. intros ? [= <-].
    destruct (Hs _ Hn Hk); [by left|right; eapply settled_mono; [|done]; set_solver].
  - apply prog_bind in H as (tr5 & tr6 & r & -> & Hh & [-> [= -> ->]]). rewrite app_nil_r in *.
    apply (hydrate_settles (MkCoord (c_repo c) (c_kind c) n []) _ _ Hk) in Hh as [[w ->]|Hh]; [eauto|]. right.
    assert (settled (tr0 ++ [Ev _ (IsEnabledRepo (c_repo c)) (inr true)] ++ [Ev _ (PullNumberForSHA (c_repo c) (c_headSHA c)) (inr n)] ++ tr5) (MkCoord (c_repo c) (c_kind c) n []))
      by (eapply settled_mono; [|done]; set_solver).
    split.
    + intros d [->%elem_of_singleton|Hd]%elem_of_union Hkd; [by right|by apply Hs'].
    + eapply answered_sha; [apply Hin2|by intros [??]|]. intros ? [= <-]. by right.
Qed.

(** Another artifact adds none of these keys. *)
Lemma resolve_other keys c seen tr0 tr e seen' : c_kind c ≠ KindPullRequest → seen_ok keys seen tr0 →
  runs (resolveAndSink c seen) tr (e, seen') → seen_ok keys seen' (tr0 ++ tr).
Proof.
  intros Hk Hs H. apply (seen_ok_mono keys seen tr0 (tr0 ++ tr)) in Hs; [|set_solver]. revert H. unfold resolveAndSink.
  assert (Hadd : ∀ n, seen_ok keys ({[MkCoord (c_repo c) (c_kind c) n []]} ∪ seen) (tr0 ++ tr)).
  { intros n d [->%elem_of_singleton|Hd]%elem_of_union Hkd; [done|by apply Hs]. }
  generalize (tr0 ++ tr) Hs Hadd. clear Hs Hadd. intros l Hs Hadd.
  case_bool_decide; [by intros (? & ? & ? & _ & _ & [_ [= _ ->]])%prog_bind|]. intros (? & tr2 & r & _ & _ & Hr)%prog_bind.
  destruct r as [?|[]]; [by destruct Hr as [_ [= _ ->]]| |by destruct Hr as [_ [= _ ->]]].
  apply prog_bind in Hr as (? & tr3 & r & _ & _ & Hr). destruct r as [[]|n]; [by destruct Hr as [_ [= _ ->]]..|].
  case_bool_decide; [by destruct Hr as [_ [= _ ->]]|]. by apply prog_bind in Hr as (? & ? & ? & _ & _ & [_ [= _ ->]]).
Qed.

(** [lost] are the keys a pass gives up, one to each drop that it counts. *)
Definition counted (a a' : arm) (lost : list boardCoord) : Prop := dropped a' = dropped a + Z.of_nat (length lost).

Definition kept (a' : arm) (lost : list boardCoord) (c : boardCoord) : Prop := is_Some (pending a' !! c) ∨ c ∈ lost.

Lemma process_answers keys order seen carried a tr0 tr a' paused :
  seen_ok keys seen tr0 → runs (process maxPending order seen carried a) tr (a', paused) →
  ∃ lost, counted a a' lost ∧ ∀ c, c ∈ order → c_kind c = KindPullRequest → kept a' lost c ∨ Ev _ Cancelled true ∈ tr ∨ answered (tr0 ++ tr) keys c.
Proof.
  assert (counted a a []) as Hnone by (unfold counted; simpl; lia).
  revert seen tr0 tr. induction order as [|d rest IH]; intros seen tr0 tr Hs; simpl.
  { intros [_ [= -> ->]]. exists []. split; [done|by intros ? ?%elem_of_nil]. }
  intros (tr1 & tr2 & [e seen'] & -> & Hr & H)%prog_bind.
  assert ((∃ w, e = Some (ErrBudgetExhausted w)) ∨ ¬ ∃ w, e = Some (ErrBudgetExhausted w)) as [[w ->]|Hn] by (destruct e as [[]|]; eauto; right; by intros [??]).
  { destruct H as [_ [= -> _]]. destruct (hold_lost carried (d :: rest) a) as (lost & Hl & Hin). exists lost. split; [done|].
    intros c Hc Hk. left. by apply Hin. }
  assert (∃ cancelled tr3, tr2 = Ev _ Cancelled cancelled :: tr3 ∧
      if cancelled then a' = a else runs (process maxPending rest seen' carried a) tr3 (a', paused)) as ([|] & tr3 & -> & H').
  { destruct e as [[|w|]|]; [|by destruct Hn; eauto|..]; destruct H as ([|] & tr3 & -> & H); eexists _, tr3; (split; [done|]); try done; by destruct H as [_ [= -> _]]. }
  { subst a'. exists []. split; [done|]. intros c _ _. right. left. set_solver. }
  assert (seen_ok keys seen' (tr0 ++ tr1) ∧ (c_kind d = KindPullRequest → answered (tr0 ++ tr1) keys d)) as [Hs' Hd].
  { destruct (decide (c_kind d = KindPullRequest)) as [Hkd|Hkd].
    - destruct (resolve_answers keys d seen tr0 tr1 e seen' Hkd Hs Hr) as [?|[? ?]]; [done|by split].
    - split; [by eapply resolve_other|done]. }
  destruct (IH seen' (tr0 ++ tr1) tr3 Hs' H') as (lost & Hl & Hin). exists lost. split; [done|]. intros c [->|Hc]%elem_of_cons Hk.
  - right. right. eapply answered_mono; [|by apply Hd]. set_solver.
  - destruct (Hin c Hc Hk) as [?|[?|Ha]]; [by left|right; left; set_solver|right; right]. eapply answered_mono; [|exact Ha]. set_solver.
Qed.

(** The keys of a batch are those of its events. *)
Record batch_ok (coords : boardCoord → Prop) (b : batch) : Prop := {
  ok_order c : c ∈ seen b → c ∈ order b;
  ok_coords c : c ∈ seen b → coords c;
}.

Lemma add_order (P : boardCoord → Prop) s q : batch_ok P s.2 → P (coord_of (ev q)) →
  batch_ok P (add s q).2 ∧ order s.2 ⊆ order (add s q).2 ∧ (coord_of (ev q) ∈ order (add s q).2 ∨ coord_of (ev q) ∈ dom (pending s.1)).
Proof.
  destruct s as [a b]. simpl. intros [H1 H2] Hq. unfold add. destruct (pending a !! coord_of (ev q)) as [tps|] eqn:E.
  { apply elem_of_dom_2 in E. destruct (_ && _); simpl; (split; [by split|by auto]). }
  assert (Hb : ∀ b', order b' = order (if bool_decide (coord_of (ev q) ∈ seen b) then b else MkBatch (order b ++ [coord_of (ev q)]) ({[coord_of (ev q)]} ∪ seen b) (carried b)) →
    seen b' = seen (if bool_decide (coord_of (ev q) ∈ seen b) then b else MkBatch (order b ++ [coord_of (ev q)]) ({[coord_of (ev q)]} ∪ seen b) (carried b)) →
    batch_ok P b' ∧ order b ⊆ order b' ∧ (coord_of (ev q) ∈ order b' ∨ coord_of (ev q) ∈ dom (pending a))).
  { intros b' Ho Hs. case_bool_decide; simpl in *; (split; [split; rewrite ?Ho, ?Hs|rewrite Ho]); set_solver. }
  simpl. apply Hb; repeat case_bool_decide; done.
Qed.

Lemma add_orders (P : boardCoord → Prop) events s : batch_ok P s.2 → (∀ q, q ∈ events → P (coord_of (ev q))) →
  batch_ok P (foldl add s events).2 ∧ order s.2 ⊆ order (foldl add s events).2 ∧
  ∀ q, q ∈ events → coord_of (ev q) ∈ order (foldl add s events).2 ∨ coord_of (ev q) ∈ dom (pending s.1).
Proof.
  revert s. induction events as [|q events IH]; intros s Hb HP; simpl; [split; [done|split; [done|by intros ? ?%elem_of_nil]]|].
  destruct (add_order P s q Hb) as (H1 & H2 & H3); [set_solver|]. destruct (add_dom s q) as [Hdom _].
  destruct (IH _ H1) as (H4 & H5 & H6); [set_solver|]. split; [done|]. rewrite Hdom in H6. split; set_solver.
Qed.

(** C15. No change of a pull request gets lost in a pass.  Of every event of the batch its key
    is held for a retry or is one of the keys given up, of which there are exactly as many as
    the pass adds to the count of drops, or the pass was cancelled, or the forge answered for
    the key, other than that the budget is spent: for a key with a head commit, the commit
    has no pull request, or its pull request was answered for or is a key of the batch too. *)
Theorem no_change_lost events a tr a' paused : runs (drainBatch maxPending events a) tr (a', paused) →
  ∃ (keys : gset boardCoord) (lost : list boardCoord), (∀ c, c ∈ keys → ∃ q, q ∈ events ∧ c = coord_of (ev q)) ∧ counted a a' lost ∧
  ∀ q, q ∈ events → ev_Kind (ev q) = KindPullRequest →
    kept a' lost (coord_of (ev q)) ∨ Ev _ Cancelled true ∈ tr ∨ answered tr keys (coord_of (ev q)).
Proof.
  unfold drainBatch. destruct (add_doms events (a, MkBatch [] ∅ ∅)) as [Hdom Hd].
  destruct (add_orders (λ c, ∃ q, q ∈ events ∧ c = coord_of (ev q)) events (a, MkBatch [] ∅ ∅)) as ([_ Hk] & _ & Ho); [split; simpl; set_solver|eauto|].
  destruct (foldl add _ _) as [a0 b]. simpl in *. intros H.
  destruct (process_answers (seen b) (order b) (seen b) (carried b) a0 [] tr a' paused) as (lost & Hl & Hin); [intros d ? _; by left|done|].
  exists (seen b), lost. split; [done|]. unfold counted in *. rewrite <- Hd. split; [done|]. intros q Hq Hpr.
  destruct (Ho q Hq) as [Hb|Hb]; [by apply Hin|].
  left. left. rewrite <- Hdom in Hb. destruct (process_held _ _ _ _ _ _ _ H) as [[_ ->]|(? & ? & ? & _ & _ & ->)]; [by apply elem_of_dom|].
  apply hold_keeps. by apply elem_of_dom.
Qed.

(** A retry too holds, counts or answers every key it took. *)
Lemma retry_loses_none (pick : list boardCoord → list boardCoord) a tr a' paused : (∀ l, pick l ≡ₚ l) → held_ok a → runs (retryPending maxPending pick a) tr (a', paused) →
  ∃ lost, counted a a' lost ∧ ∀ c, c ∈ dom (pending a) → kept a' lost c ∨ Ev _ Cancelled true ∈ tr ∨ answered tr (dom (pending a)) c.
Proof.
  intros Hp Hok H.
  destruct (process_answers (dom (pending a)) (pick (map_to_list (pending a)).*1) (dom (pending a)) (pending a) (MkArm ∅ (dropped a)) [] tr a' paused)
    as (lost & Hl & Hin); [intros d ? _; by left|done|].
  exists lost. split; [done|]. intros c [tps Hc]%elem_of_dom. apply Hin; [|by eapply ok_kind].
  rewrite (Hp _). apply list_elem_of_fmap. exists (c, tps). split; [done|by apply elem_of_map_to_list].
Qed.

End arm.

(** * Concrete passes *)

Definition opened (n : Z) : queuedEvent :=
  MkQueued (MkEvent Github [] (lit "o/r") KindPullRequest n [] [] NotifyOpened None None [] []) (lit "t").

(** Two pull requests, the second of which finds the budget spent. *)
Definition spent_trace : trace :=
  [Ev _ (IsEnabledRepo (lit "o/r")) (inr true); Ev _ (Hydrate (lit "o/r") 1) (inr tt); Ev _ Cancelled false;
   Ev _ (IsEnabledRepo (lit "o/r")) (inr true); Ev _ (Hydrate (lit "o/r") 2) (inl (ErrBudgetExhausted None))].

Definition one_held : arm := MkArm {[MkCoord (lit "o/r") KindPullRequest 2 [] := [lit "t"]]} 0.

Lemma spent_run : runs (drainBatch 8 [opened 1; opened 2] (MkArm ∅ 0)) spent_trace (one_held, Some 0).
Proof. repeat (hnf; first [eexists _, _; split; [reflexivity|]|split; reflexivity]). Qed.

Lemma no_change_lost_witness :
  let events := [opened 1; opened 2] in
  runs (drainBatch 8 events (MkArm ∅ 0)) spent_trace (one_held, Some 0)
  ∧ ∃ (keys : gset boardCoord) (lost : list boardCoord), (∀ c, c ∈ keys → ∃ q, q ∈ events ∧ c = coord_of (ev q)) ∧ counted (MkArm ∅ 0) one_held lost ∧
    ∀ q, q ∈ events → ev_Kind (ev q) = KindPullRequest →
      kept one_held lost (coord_of (ev q)) ∨ Ev _ Cancelled true ∈ spent_trace ∨ answered spent_trace keys (coord_of (ev q)).
Proof.
  intros events. split; [exact spent_run|]. exact (no_change_lost 8 events (MkArm ∅ 0) spent_trace one_held (Some 0) spent_run).
Defined.

Lemma held_has_timer_witness :
  let s := MkState [] (Some defaultBoardRetryWait) one_held in
  reachable true true 8 (λ l, l) s ∧ held_ok 8 (held s) ∧ (pending (held s) ≠ ∅ → retry s ≠ None).
Proof.
  intros s. assert (reachable true true 8 (λ l, l) s) as H.
  { eapply reach_step; [eapply reach_step; [eapply reach_step; [apply reach_start|apply (step_enqueue _ _ _ _ _ (opened 1))]|apply (step_enqueue _ _ _ _ _ (opened 2))]|].
    apply (step_drain true true 8 (λ l, l) (MkState [opened 1; opened 2] None (MkArm ∅ 0)) [] spent_trace one_held (Some 0)); [done|done|exact spent_run]. }
  split; [exact H|]. exact (held_has_timer 8 true true (λ l, l) s H).
Defined.

End BoardArmFacts.
