(* ===== verification/Transcripts.v ===== *)
(** The two-tier transcript store ([src/go/internal/store/agent_transcripts.go],
    [transcript_flusher.go], [queries/agent_transcripts.sql],
    [src/go/internal/runnerhub/reconstruct.go], [src/go/server/session_end_archive.go]): the
    hot tail of a session in the database, its archive segments in an object store, the
    flushes between them, and the body a resumed session starts from.

    A statement, a transaction and an object-store call are one step each; it may fail, or
    take effect and lose its answer ([outcome]).  Flushes run as threads ([Threads]), any
    number of them at once.  A server that dies is a thread that takes no more steps.

    Sequence numbers are in range of a BIGINT: an append checks that. *)
From stdpp Require Import base gmap list sorting strings.
From Stdlib Require Import Ascii ZArith Lia.
From S2P Require Import Prelude Text Threads.

Module Transcripts.
Export Threads.

Open Scope Z_scope.

(** * Tables *)

Record entryRow := MkEntry { EntrySeq : Z; Checkpoint : bool; EntryJSON : bytes; IdempotencyKey : bytes }.

Inductive SegmentKind := SegmentKindSuperseded | SegmentKindSafetyValve | SegmentKindSessionEnd.

Record ArchiveSegmentRow := MkSegment { ObjectKey : bytes; MinEntrySeq : Z; MaxEntrySeq : Z; Kind : SegmentKind }.

#[export] Instance entryRow_eq_dec : EqDecision entryRow.
Proof. solve_decision. Defined.
#[export] Instance SegmentKind_eq_dec : EqDecision SegmentKind.
Proof. solve_decision. Defined.
#[export] Instance ArchiveSegmentRow_eq_dec : EqDecision ArchiveSegmentRow.
Proof. solve_decision. Defined.

(** A row of [agent_sessions] with the entries and segments that refer to it. *)
Record sessionRow := MkSession { AgentAccountID : string; base_entry_seq : Z; entries : list entryRow; segments : list ArchiveSegmentRow }.

Record store := MkStore { sessions : gmap bytes sessionRow; objects : gmap bytes bytes }.

Inductive storeErr := ErrInvalidArgument | ErrNotFound | ErrConflict | errFlushRaced | errNoObjectStore | ErrInternal.

Definition set_session (sid : bytes) (r : sessionRow) (s : store) : store := MkStore (<[sid := r]> (sessions s)) (objects s).

Definition rows (sid : bytes) (s : store) : list entryRow := match sessions s !! sid with Some r => entries r | None => [] end.
Definition manifest (sid : bytes) (s : store) : list ArchiveSegmentRow := match sessions s !! sid with Some r => segments r | None => [] end.

(** [COALESCE(MAX(entry_seq), 0)], of all rows and of the checkpoints. *)
Definition max_seq (l : list entryRow) : Z := foldr (λ e, Z.max (EntrySeq e)) 0 l.
Definition cp_seq (l : list entryRow) : Z := max_seq (filter (λ e, Checkpoint e = true) l).

(** [ORDER BY entry_seq], [ORDER BY min_entry_seq]. *)
Definition seq_le (a b : entryRow) : Prop := EntrySeq a ≤ EntrySeq b.
Definition min_le (a b : ArchiveSegmentRow) : Prop := MinEntrySeq a ≤ MinEntrySeq b.
#[export] Instance seq_le_dec a b : Decision (seq_le a b).
Proof. unfold seq_le. apply _. Defined.
#[export] Instance min_le_dec a b : Decision (min_le a b).
Proof. unfold min_le. apply _. Defined.

(** * Statements *)

(** A statement answers and leaves the store as it is after it. *)
Notation stmt X := (store → result storeErr X * store).

Definition read {X} (f : store → result storeErr X) : stmt X := λ s, (f s, s).

Definition RecordAgentSession (agents : gset string) (sid : bytes) (account : string) : stmt unit := λ s,
  if bool_decide (sid = []) || bool_decide (account = "") then (Err ErrInvalidArgument, s)
  else if bool_decide (is_Some (sessions s !! sid)) then (Err ErrConflict, s)
  else if bool_decide (account ∈ agents) then (Ok tt, set_session sid (MkSession account 0 [] []) s)
  else (Err ErrInvalidArgument, s).

Definition BindLifetime (sid : bytes) (account : string) : stmt Z := λ s,
  if bool_decide (sid = []) then (Err ErrInvalidArgument, s)
  else match sessions s !! sid with
       | Some r =>
           if bool_decide (AgentAccountID r = account)
           then (Ok (max_seq (entries r)), set_session sid (MkSession account (max_seq (entries r)) (entries r) (segments r)) s)
           else (Err ErrNotFound, s)
       | None => (Err ErrNotFound, s)
       end.

Definition sessionBase (sid : bytes) (s : store) : result storeErr Z :=
  match sessions s !! sid with Some r => Ok (base_entry_seq r) | None => Err ErrInvalidArgument end.

(** The key is unique over all sessions, the number in its session.  The answer is the
    number of rows inserted. *)
Definition InsertTranscriptEntry (sid : bytes) (e : entryRow) : stmt Z := λ s,
  if bool_decide (map_Exists (λ _ r, Exists (λ e', IdempotencyKey e' = IdempotencyKey e) (entries r)) (sessions s)) then (Ok 0, s)
  else match sessions s !! sid with
       | None => (Err ErrInvalidArgument, s)
       | Some r =>
           if bool_decide (Exists (λ e', EntrySeq e' = EntrySeq e) (entries r)) then (Err ErrConflict, s)
           else (Ok 1, set_session sid (MkSession (AgentAccountID r) (base_entry_seq r) (entries r ++ [e]) (segments r)) s)
       end.

(** The base is read from [s0], before the row is inserted. *)
Definition AppendTranscriptEntry (s0 : store) (sid : bytes) (lifetimeSeq : Z) (checkpoint : bool) (entryJSON key : bytes) : stmt Z := λ s,
  if bool_decide (sid = []) || bool_decide (key = []) || bool_decide (entryJSON = []) || bool_decide (lifetimeSeq = 0) then (Err ErrInvalidArgument, s)
  else match sessionBase sid s0 with
       | Ok base =>
           if bool_decide (MaxInt64 < lifetimeSeq) || bool_decide (MaxInt64 - lifetimeSeq < base) then (Err ErrInvalidArgument, s)
           else InsertTranscriptEntry sid (MkEntry (base + lifetimeSeq) checkpoint entryJSON key) s
       | Err e => (Err e, s)
       | Panic => (Panic, s)
       end.

Definition LatestCheckpointSeq (sid : bytes) (s : store) : result storeErr Z := Ok (cp_seq (rows sid s)).
Definition SessionMaxEntrySeq (sid : bytes) (s : store) : result storeErr Z := Ok (max_seq (rows sid s)).

(** The rows after the latest checkpoint, for the size cap. *)
Definition hot_tail (l : list entryRow) : list entryRow := filter (λ e, cp_seq l < EntrySeq e) l.
Definition octets (e : entryRow) : Z := Z.of_nat (length (EntryJSON e)).

Definition HotTailBytes (sid : bytes) (s : store) : result storeErr Z := Ok (foldr (λ e, Z.add (octets e)) 0 (hot_tail (rows sid s))).
Definition HotTailSizes (sid : bytes) (s : store) : result storeErr (list entryRow) := Ok (merge_sort seq_le (hot_tail (rows sid s))).

Definition in_range (lo hi : Z) (e : entryRow) : Prop := lo ≤ EntrySeq e ≤ hi.
#[export] Instance in_range_dec lo hi e : Decision (in_range lo hi e).
Proof. unfold in_range. apply _. Defined.

Definition CollectSegment (sid : bytes) (lo hi : Z) (s : store) : result storeErr (list entryRow) :=
  Ok (merge_sort seq_le (filter (in_range lo hi) (rows sid s))).

Definition PutSegment (key body : bytes) : stmt unit := λ s, (Ok tt, MkStore (sessions s) (<[key := body]> (objects s))).
Definition GetSegment (key : bytes) (s : store) : option bytes := objects s !! key.

Definition ReadArchiveSegment (configured : bool) (key : bytes) (s : store) : result storeErr bytes :=
  if bool_decide (key = []) then Err ErrInvalidArgument
  else if negb configured then Err ErrInternal
  else match GetSegment key s with Some body => Ok body | None => Err ErrInternal end.

(** A safety-valve segment below a checkpoint is superseded. *)
Definition remark (below : Z) (g : ArchiveSegmentRow) : ArchiveSegmentRow :=
  if bool_decide (Kind g = SegmentKindSafetyValve) && bool_decide (MaxEntrySeq g < below)
  then MkSegment (ObjectKey g) (MinEntrySeq g) (MaxEntrySeq g) SegmentKindSuperseded else g.

Definition RemarkSafetyValveSuperseded (sid : bytes) (below : Z) : stmt unit := λ s,
  match sessions s !! sid with
  | Some r => (Ok tt, set_session sid (MkSession (AgentAccountID r) (base_entry_seq r) (entries r) (remark below <$> segments r)) s)
  | None => (Ok tt, s)
  end.

Definition InsertArchiveSegment (g : ArchiveSegmentRow) (l : list ArchiveSegmentRow) : list ArchiveSegmentRow :=
  if bool_decide (Exists (λ g', ObjectKey g' = ObjectKey g) l) then l else l ++ [g].

(** The transaction of a flush: the manifest row, the prune of [n] rows when it prunes, and
    the re-marking below [below] when that is not zero. *)
Definition flush_tx (sid : bytes) (g : ArchiveSegmentRow) (prune : bool) (n : nat) (below : Z) : stmt unit := λ s,
  match sessions s !! sid with
  | None => (Err ErrInternal, s)
  | Some r =>
      let gone := filter (in_range (MinEntrySeq g) (MaxEntrySeq g)) (entries r) in
      if prune && negb (bool_decide (length gone = n)) then (Err errFlushRaced, s)
      else
        let kept := if prune then filter (λ e, ¬ in_range (MinEntrySeq g) (MaxEntrySeq g) e) (entries r) else entries r in
        let segs := InsertArchiveSegment g (segments r) in
        let segs := if bool_decide (0 < below) then remark below <$> segs else segs in
        (Ok tt, set_session sid (MkSession (AgentAccountID r) (base_entry_seq r) kept segs) s)
  end.

(** * Reads *)

Definition SessionTranscript (sid : bytes) (s : store) : list entryRow :=
  merge_sort seq_le (filter (λ e, cp_seq (rows sid s) ≤ EntrySeq e) (rows sid s)).

Definition SafetyValveSegments (sid : bytes) (s : store) : list ArchiveSegmentRow :=
  merge_sort min_le (filter (λ g, Kind g = SegmentKindSafetyValve ∧ cp_seq (rows sid s) < MinEntrySeq g) (manifest sid s)).

Definition SessionResumeSnapshot (sid : bytes) (s : store) : result storeErr (list entryRow * list ArchiveSegmentRow) :=
  if bool_decide (sid = []) then Err ErrInvalidArgument
  else match SessionTranscript sid s with [] => Err ErrNotFound | tail => Ok (tail, SafetyValveSegments sid s) end.

(** * The body of a resume *)

Definition nl : ascii := ascii_of_nat 10.

Record seqLine := MkLine { seq : Z; line : bytes }.

Definition line_le (a b : seqLine) : Prop := seq a ≤ seq b.
#[export] Instance line_le_dec a b : Decision (line_le a b).
Proof. unfold line_le. apply _. Defined.

(** [strings.TrimRight(s, "\n")]. *)
Fixpoint TrimRight (s : bytes) : bytes :=
  match s with
  | [] => []
  | c :: s => match TrimRight s with [] => if bool_decide (c = nl) then [] else [c] | t => c :: t end
  end.

Definition splitSegmentLines (body : bytes) : list bytes := match TrimRight body with [] => [] | trimmed => split nl trimmed end.

Definition line_of (e : entryRow) : seqLine := MkLine (EntrySeq e) (EntryJSON e).

(** The lines of a segment are numbered from its first entry on. *)
Definition segment_lines (g : ArchiveSegmentRow) (body : bytes) : list seqLine :=
  imap (λ i l, MkLine (MinEntrySeq g + Z.of_nat i) l) (splitSegmentLines body).

Inductive code := NotFound | Internal | Unavailable.

Definition reconstructReadError (e : storeErr) : code := match e with ErrNotFound => NotFound | _ => Internal end.

Fixpoint fetch (get : bytes → result storeErr bytes) (segs : list ArchiveSegmentRow) : result storeErr (list seqLine) :=
  match segs with
  | [] => Ok []
  | g :: segs =>
      rbind (get (ObjectKey g)) (λ body,
      rbind (fetch get segs) (λ ls, Ok (segment_lines g body ++ ls)))
  end.

(** [reader]: the hub has a transcript reader; [get] is what it answers for the segments of
    the snapshot. *)
Definition ReconstructSessionBody (reader : bool) (snapshot : result storeErr (list entryRow * list ArchiveSegmentRow)) (get : bytes → result storeErr bytes) : result code bytes :=
  if negb reader then Err Unavailable else
  match snapshot with
  | Ok (tail, segs) =>
      let '(head, later) := match tail with e :: tail' => if Checkpoint e then ([EntryJSON e], tail') else ([], tail) | [] => ([], []) end in
      match fetch get segs with
      | Ok fetched => Ok (join nl (head ++ (line <$> merge_sort line_le ((line_of <$> later) ++ fetched))))
      | Err e => Err (reconstructReadError e)
      | Panic => Panic
      end
  | Err e => Err (reconstructReadError e)
  | Panic => Panic
  end.

(** * Flushes *)

Definition segmentKey (sid : bytes) (minSeq maxSeq : Z) : bytes :=
  lit "sessions/" ++ sid ++ lit "/" ++ FormatUint (Z.to_N minSeq) ++ lit "-" ++ FormatUint (Z.to_N maxSeq) ++ lit ".jsonl".

Definition segment_body (l : list entryRow) : bytes := join nl (EntryJSON <$> l).

(** The eviction range of the safety valve: the oldest rows until the rest fits, never the
    newest and nothing from a checkpoint on; [upto] is 0 for no range. *)
Fixpoint cut (l : list entryRow) (capBytes remaining upto : Z) : Z :=
  match l with
  | e :: l' =>
      match l' with
      | [] => upto
      | _ => if bool_decide (remaining ≤ capBytes) || Checkpoint e then upto else cut l' capBytes (remaining - octets e) (EntrySeq e)
      end
  | [] => upto
  end.

Definition valveCut (l : list entryRow) (capBytes : Z) : Z * Z :=
  match l with
  | [] => (0, 0)
  | e :: _ =>
      let total := foldr (λ e, Z.add (octets e)) 0 l in
      if bool_decide (total ≤ capBytes) then (0, 0)
      else let upto := cut l capBytes total 0 in if bool_decide (upto = 0) then (0, 0) else (EntrySeq e, upto)
  end.

(** How a step of a thread comes out: an error may hide an effect. *)
Inductive outcome := Succeeds | Fails | Loses.

(** What is stored, and beside it for the theorems: every row ever inserted for a session,
    in the order of its sequence numbers, and the ranges of the segments that a resume has
    ever been able to read. *)
Record state := MkState { db : store; logs : bytes → list entryRow; valves : bytes → gset (Z * Z) }.

Definition range_of (g : ArchiveSegmentRow) : Z * Z := (MinEntrySeq g, MaxEntrySeq g).

Definition obs_log (L R' : list entryRow) : list entryRow := L ++ filter (λ e, max_seq L < EntrySeq e) R'.

Definition observe (x : state) (s : store) : state :=
  MkState s (λ sid, obs_log (logs x sid) (rows sid s))
    (λ sid, valves x sid ∪ list_to_set (range_of <$> SafetyValveSegments sid s)).

Notation program := (@prog state nat outcome (result storeErr unit)).

Definition run {X} (f : stmt X) (k : result storeErr X → program) : program :=
  Ask (λ o,
    match o with
    | Succeeds => Crit (λ x, observe x (f (db x)).2) (λ x, k (f (db x)).1)
    | Fails => k (Err ErrInternal)
    | Loses => Crit (λ x, observe x (f (db x)).2) (λ _, k (Err ErrInternal))
    end).

(** An error ends the routine through [ret]. *)
Definition try {X} (f : stmt X) (ret : result storeErr unit → program) (k : X → program) : program :=
  run f (λ r, match r with Ok x => k x | Err e => ret (Err e) | Panic => ret Panic end).

Section flushes.
Context (configured : bool) (capBytes : Z).

Definition defaultSafetyValveCapBytes : Z := 64 * 2 ^ 20.

Definition flushUpto (sid : bytes) (from upto : Z) (kind : SegmentKind) (prune : bool) (remarkBelow : Z) (ret : result storeErr unit → program) : program :=
  try (read (CollectSegment sid from upto)) ret (λ l,
    match l with
    | [] => if bool_decide (0 < remarkBelow) then run (RemarkSafetyValveSuperseded sid remarkBelow) ret else ret (Ok tt)
    | e :: _ =>
        let minSeq := EntrySeq e in
        let maxSeq := EntrySeq (default e (last l)) in
        if negb configured then ret (Err errNoObjectStore)
        else
          let key := segmentKey sid minSeq maxSeq in
          try (PutSegment key (segment_body l)) ret (λ _,
          run (flush_tx sid (MkSegment key minSeq maxSeq kind) prune (length l) remarkBelow) ret)
    end).

Definition FlushSuperseded (sid : bytes) (upto : Z) (kind : SegmentKind) (ret : result storeErr unit → program) : program :=
  if bool_decide (sid = []) then ret (Err ErrInvalidArgument)
  else flushUpto sid 0 upto kind (negb (bool_decide (kind = SegmentKindSessionEnd))) 0 ret.

Definition maybeSafetyValve (sid : bytes) (ret : result storeErr unit → program) : program :=
  try (read (HotTailBytes sid)) ret (λ tailBytes,
    if bool_decide (tailBytes ≤ capBytes) then ret (Ok tt)
    else try (read (HotTailSizes sid)) ret (λ sizes,
      let '(from, upto) := valveCut sizes capBytes in
      if bool_decide (upto = 0) then ret (Ok tt) else flushUpto sid from upto SegmentKindSafetyValve true 0 ret)).

Definition flushPass (sid : bytes) (ret : result storeErr unit → program) : program :=
  try (read (LatestCheckpointSeq sid)) ret (λ cp,
    if bool_decide (0 < cp)
    then flushUpto sid 0 (cp - 1) SegmentKindSuperseded true cp (λ r, match r with Ok _ => maybeSafetyValve sid ret | r => ret r end)
    else maybeSafetyValve sid ret).

(** Its failures are logged. *)
Definition archiveSessionEnd (sid : bytes) : program :=
  try (read (SessionMaxEntrySeq sid)) (λ _, Ret (Ok tt)) (λ maxSeq,
    if bool_decide (maxSeq = 0) then Ret (Ok tt) else FlushSuperseded sid maxSeq SegmentKindSessionEnd (λ _, Ret (Ok tt))).

(** * The system

    Sessions are recorded, lifetimes bound and entries appended by themselves, flushes are
    threads.  What is relied on of the agent: it stamps its entries in order and sends one
    after the other, so a row that goes in is above all that came before it, and an entry is
    one line, but for a checkpoint. *)
Inductive env (x : state) : state → Prop :=
| env_record agents sid account : env x (observe x (RecordAgentSession agents sid account (db x)).2)
| env_bind sid account : env x (observe x (BindLifetime sid account (db x)).2)
| env_append s0 sid lifetimeSeq checkpoint entryJSON key s :
    s = (AppendTranscriptEntry s0 sid lifetimeSeq checkpoint entryJSON key (db x)).2 → 0 ≤ lifetimeSeq →
    s = db x ∨ max_seq (logs x sid) < default 0 (base_entry_seq <$> sessions s0 !! sid) + lifetimeSeq ∧ (checkpoint = false → nl ∉ entryJSON) →
    env x (observe x s).

Inductive request : program → Prop :=
| request_pass sid : request (flushPass sid Ret)
| request_end sid : request (archiveSessionEnd sid).

Definition empty : state := MkState (MkStore ∅ ∅) (λ _, []) (λ _, ∅).

Definition reaches : @config state nat outcome (result storeErr unit) _ _ → Prop := reachable env request empty.

End flushes.

End Transcripts.
