(* ===== verification/TranscriptFacts.v ===== *)
(** What holds of the transcript store whatever flushes, appends and faults interleave: the
    tables of a session and its archive together keep every row from the latest checkpoint
    on, each once. *)
From stdpp Require Import base gmap list sorting strings.
From Stdlib Require Import Ascii ZArith Lia.
From S2P Require Import Prelude Text Threads Transcripts.

Module TranscriptFacts.
Import Transcripts.

Open Scope Z_scope.

(** * Rows in order *)

Definition seq_lt (a b : entryRow) : Prop := EntrySeq a < EntrySeq b.

Lemma max_seq_ge l e : e ∈ l → EntrySeq e ≤ max_seq l.
Proof. induction l as [|f l IH]; [by intros ?%elem_of_nil|]. simpl. intros [->|H%IH]%elem_of_cons; lia. Qed.

Lemma max_entry_nonneg l : 0 ≤ max_seq l.
Proof. induction l; simpl; lia. Qed.

Lemma max_seq_in l : max_seq l = 0 ∨ ∃ e, e ∈ l ∧ EntrySeq e = max_seq l.
Proof.
  induction l as [|f l IH]; [by left|]. simpl. pose proof (max_entry_nonneg l). destruct (Z.max_spec (EntrySeq f) (max_seq l)) as [[? ->]|[? ->]].
  - destruct IH as [?|(e & ? & ?)]; [lia|]. right. exists e. split; [by right|done].
  - right. exists f. split; [left|done].
Qed.

Lemma max_seq_lub l m : 0 ≤ m → (∀ e, e ∈ l → EntrySeq e ≤ m) → max_seq l ≤ m.
Proof. intros Hm H. destruct (max_seq_in l) as [->|(e & He & <-)]; auto. Qed.

Lemma max_seq_app l l' : max_seq (l ++ l') = Z.max (max_seq l) (max_seq l').
Proof. induction l as [|f l IH]; simpl; [pose proof (max_entry_nonneg l'); lia|lia]. Qed.

Lemma cp_le l : cp_seq l ≤ max_seq l.
Proof. apply max_seq_lub; [apply max_entry_nonneg|]. intros e [_ He]%list_elem_of_filter. by apply max_seq_ge. Qed.

Lemma cp_ge l e : e ∈ l → Checkpoint e = true → EntrySeq e ≤ cp_seq l.
Proof. intros He Hc. apply max_seq_ge, list_elem_of_filter. done. Qed.

Lemma cp_in l : cp_seq l = 0 ∨ ∃ e, e ∈ l ∧ Checkpoint e = true ∧ EntrySeq e = cp_seq l.
Proof. destruct (max_seq_in (filter (λ e, Checkpoint e = true) l)) as [?|(e & [? ?]%list_elem_of_filter & ?)]; [by left|right; eauto]. Qed.

Lemma cp_nonneg l : 0 ≤ cp_seq l.
Proof. apply max_entry_nonneg. Qed.

Lemma cp_app l l' : cp_seq (l ++ l') = Z.max (cp_seq l) (cp_seq l').
Proof. unfold cp_seq. by rewrite filter_app, max_seq_app. Qed.

(** Rows are determined by their numbers. *)
Lemma rows_seq_inj l a b : StronglySorted seq_lt l → a ∈ l → b ∈ l → EntrySeq a = EntrySeq b → a = b.
Proof.
  induction 1 as [|e l _ IH Hf]; [by intros ?%elem_of_nil|]. rewrite Forall_forall in Hf. unfold seq_lt in Hf.
  intros [->|Ha]%elem_of_cons [->|Hb]%elem_of_cons E; [done|apply Hf in Hb; lia|apply Hf in Ha; lia|by apply IH].
Qed.

Lemma sorted_NoDup l : StronglySorted seq_lt l → NoDup l.
Proof.
  induction 1 as [|e l _ IH Hf]; [constructor|]. constructor; [|done]. intros H. rewrite Forall_forall in Hf. apply Hf in H. unfold seq_lt in H. lia.
Qed.

Lemma rows_snoc l e : StronglySorted seq_lt l → max_seq l < EntrySeq e → StronglySorted seq_lt (l ++ [e]).
Proof.
  intros H He. apply StronglySorted_app_2; [|done|repeat constructor]. intros a b Ha ->%list_elem_of_singleton.
  apply max_seq_ge in Ha. unfold seq_lt. lia.
Qed.

#[export] Instance seq_le_trans : Transitive seq_le.
Proof. intros a b c. unfold seq_le. lia. Qed.
#[export] Instance seq_le_total : Total seq_le.
Proof. intros a b. unfold seq_le. lia. Qed.

Lemma merge_sorted l : StronglySorted seq_lt l → merge_sort seq_le l = l.
Proof. intros H. by apply (merge_sort_by EntrySeq). Qed.

Lemma last_max l e : StronglySorted seq_lt l → last l = Some e → (∀ f, f ∈ l → 0 < EntrySeq f) → EntrySeq e = max_seq l.
Proof.
  intros Hs (l' & ->)%last_Some Hp. rewrite max_seq_app. simpl. apply StronglySorted_app in Hs as (Hlt & _ & _).
  assert (0 < EntrySeq e) by (apply Hp; set_solver). assert (max_seq l' ≤ EntrySeq e); [|lia].
  apply max_seq_lub; [lia|]. intros f Hf. apply Z.lt_le_incl, (Hlt f e Hf). set_solver.
Qed.

Lemma sorted_lookup l i j a b : StronglySorted seq_lt l → l !! i = Some a → l !! j = Some b → (i < j)%nat → EntrySeq a < EntrySeq b.
Proof.
  intros Hs Ha Hb Hij. rewrite <- (take_drop (S i) l) in Hs. apply (StronglySorted_app_1_elem_of _ _ _ a b Hs).
  - apply list_elem_of_lookup. exists i. by rewrite lookup_take_lt by lia.
  - apply list_elem_of_lookup. exists (j - S i)%nat. rewrite lookup_drop. by replace (S i + (j - S i))%nat with j by lia.
Qed.

(** * Keys of segments *)

Lemma segmentKey_inj sid a b sid' a' b' : 0 ≤ a → 0 ≤ b → 0 ≤ a' → 0 ≤ b' → segmentKey sid a b = segmentKey sid' a' b' → sid = sid' ∧ a = a' ∧ b = b'.
Proof.
  intros ? ? ? ? H. unfold segmentKey in H. apply (app_inv_head (lit "sessions/")) in H.
  assert (Hd : ∀ n c, is_digit c = false → c ∉ FormatUint n).
  { intros n c Hc Hin. destruct (FormatUint_spec n) as (_ & Hf & _). rewrite forallb_forall in Hf. apply list_elem_of_In, Hf in Hin. congruence. }
  change (lit "/") with ["/"%char] in H. change (lit "-") with ["-"%char] in H. simpl in H.
  apply last_sep_inj in H as [-> H]; [| |].
  - split; [done|]. apply sep_inj in H as [Ha%FormatUint_inj Hb]; [|by apply Hd..]. apply app_inv_tail, FormatUint_inj in Hb. lia.
  - rewrite elem_of_app, elem_of_cons, elem_of_app. intros [H'|[?|[H'|H']]]; [by apply Hd in H'|done|by apply Hd in H'|]. by vm_compute in H'; set_solver.
  - rewrite elem_of_app, elem_of_cons, elem_of_app. intros [H'|[?|[H'|H']]]; [by apply Hd in H'|done|by apply Hd in H'|]. by vm_compute in H'; set_solver.
Qed.

(** * What always holds

    Of one session: [L] every row ever inserted, [R] the rows in the database, [G] the
    manifest, [V] the ranges ever readable on a resume, [O] the objects. *)

Notation objs := (gmap bytes bytes).

Definition readable (R : list entryRow) (g : ArchiveSegmentRow) : Prop := Kind g = SegmentKindSafetyValve ∧ cp_seq R < MinEntrySeq g.
#[export] Instance readable_dec R g : Decision (readable R g).
Proof. unfold readable. apply _. Defined.

Record session_ok (sid : bytes) (L R : list entryRow) (G : list ArchiveSegmentRow) (V : gset (Z * Z)) (O : objs) : Prop := {
  ok_log : StronglySorted seq_lt L;
  ok_pos e : e ∈ L → 0 < EntrySeq e;
  ok_line e : e ∈ L → EntryJSON e ≠ [] ∧ (Checkpoint e = false → nl ∉ EntryJSON e);
  ok_rows : StronglySorted seq_lt R;
  ok_sub e : e ∈ R → e ∈ L;
  ok_max : max_seq R = max_seq L;
  ok_cp : cp_seq R = cp_seq L;
  (* after the latest checkpoint the rows are the end of the log *)
  ok_suffix r e : r ∈ R → e ∈ L → cp_seq L < EntrySeq r → EntrySeq r ≤ EntrySeq e → e ∈ R;
  ok_cover e : e ∈ L → cp_seq L < EntrySeq e →
    e ∈ R ∨ ∃ g, g ∈ G ∧ cp_seq L < MinEntrySeq g ∧ in_range (MinEntrySeq g) (MaxEntrySeq g) e
               ∧ (Kind g = SegmentKindSafetyValve ∨ Kind g = SegmentKindSessionEnd);
  ok_segment g : g ∈ G → 0 < MinEntrySeq g ≤ MaxEntrySeq g ∧ MaxEntrySeq g ≤ max_seq L ∧ ObjectKey g = segmentKey sid (MinEntrySeq g) (MaxEntrySeq g);
  ok_keys : NoDup (ObjectKey <$> G);
  ok_gone g r : g ∈ G → Kind g ≠ SegmentKindSessionEnd → r ∈ R → EntrySeq r ≠ MinEntrySeq g;
  ok_below g r : g ∈ G → readable R g → r ∈ R → cp_seq L < EntrySeq r → MaxEntrySeq g < EntrySeq r;
  ok_apart g g' : g ∈ G → g' ∈ G → readable R g → readable R g' → g ≠ g' → MaxEntrySeq g < MinEntrySeq g' ∨ MaxEntrySeq g' < MinEntrySeq g;
  ok_readable g : g ∈ G → readable R g → range_of g ∈ V;
  ok_valve a b : (a, b) ∈ V → 0 < a ≤ b ∧ b ≤ max_seq L ∧ O !! segmentKey sid a b = Some (segment_body (filter (in_range a b) L)) ∧ ∀ r, r ∈ R → EntrySeq r ≠ a;
}.

(** What any number of steps does to a session: the log grows at its end, no row comes back,
    what a resume has been able to read stays as it is, and an object that is written either
    cannot belong to a readable segment or holds the rows of its range. *)
Record grows (sid : bytes) (L R : list entryRow) (V : gset (Z * Z)) (O : objs) (L' R' : list entryRow) (V' : gset (Z * Z)) (O' : objs) : Prop := {
  gr_log : ∃ new, L' = L ++ new ∧ ∀ e, e ∈ new → max_seq L < EntrySeq e;
  gr_rows r : r ∈ R' → r ∈ R ∨ max_seq L < EntrySeq r;
  gr_keep a b : (a, b) ∈ V → (a, b) ∈ V' ∧ O' !! segmentKey sid a b = O !! segmentKey sid a b;
  gr_valves a b : (a, b) ∈ V' → (a, b) ∈ V ∨ cp_seq L < a;
  gr_objects a b : 0 < a → 0 < b → O' !! segmentKey sid a b = O !! segmentKey sid a b ∨ a ≤ cp_seq L'
    ∨ b ≤ max_seq L' ∧ O' !! segmentKey sid a b = Some (segment_body (filter (in_range a b) L'));
}.

Definition W (x : state) : Prop := ∀ sid, session_ok sid (logs x sid) (rows sid (db x)) (manifest sid (db x)) (valves x sid) (objects (db x)).

Definition mono (x x' : state) : Prop :=
  ∀ sid, grows sid (logs x sid) (rows sid (db x)) (valves x sid) (objects (db x)) (logs x' sid) (rows sid (db x')) (valves x' sid) (objects (db x')).

Lemma range_grown a b L new : b ≤ max_seq L → (∀ e, e ∈ new → max_seq L < EntrySeq e) → filter (in_range a b) (L ++ new) = filter (in_range a b) L.
Proof.
  intros Hb Hnew. rewrite filter_app, (filter_none _ new), app_nil_r; [done|]. apply Forall_forall. intros e He [_ ?]. apply Hnew in He. lia.
Qed.

Lemma session_grows_refl sid L R V O : grows sid L R V O L R V O.
Proof. split; eauto. exists []. split; [by rewrite app_nil_r|by intros ? ?%elem_of_nil]. Qed.

Lemma session_grows_trans sid L R V O L1 R1 V1 O1 L2 R2 V2 O2 :
  grows sid L R V O L1 R1 V1 O1 → grows sid L1 R1 V1 O1 L2 R2 V2 O2 → grows sid L R V O L2 R2 V2 O2.
Proof.
  intros [(n1 & -> & Hn1) R1' K1 V1' O1'] [(n2 & -> & Hn2) R2' K2 V2' O2'].
  assert (max_seq L ≤ max_seq (L ++ n1)) by (rewrite max_seq_app; lia). assert (cp_seq L ≤ cp_seq (L ++ n1)) by (rewrite cp_app; lia). split.
  - exists (n1 ++ n2). rewrite app_assoc. split; [done|]. intros e [He|He]%elem_of_app; [by apply Hn1|apply Hn2 in He; lia].
  - intros r [?|?]%R2'; [by apply R1'|right; lia].
  - intros a b [Hv E1]%K1. destruct (K2 a b Hv) as [? E2]. split; [done|congruence].
  - intros a b [?|?]%V2'; [by apply V1'|right; lia].
  - intros a b Ha Hb. assert (cp_seq (L ++ n1) ≤ cp_seq ((L ++ n1) ++ n2)) by (rewrite (cp_app (L ++ n1)); lia).
    assert (max_seq (L ++ n1) ≤ max_seq ((L ++ n1) ++ n2)) by (rewrite (max_seq_app (L ++ n1)); lia).
    destruct (O2' a b Ha Hb) as [->|[?|?]]; [|by right; left|by right; right].
    destruct (O1' a b Ha Hb) as [->|[?|[? ->]]]; [by left|right; left; lia|right; right; split; [lia|]].
    by rewrite (range_grown _ _ (L ++ n1)) by done.
Qed.

Lemma transcript_mono_refl x : mono x x.
Proof. intros sid. apply session_grows_refl. Qed.

Lemma transcript_mono_trans x y z : mono x y → mono y z → mono x z.
Proof. intros H1 H2 sid. eapply session_grows_trans; [apply H1|apply H2]. Qed.

(** * Steps of one session *)

Lemma obs_log_sub L R' : (∀ r, r ∈ R' → r ∈ L) → obs_log L R' = L.
Proof.
  intros H. unfold obs_log. rewrite filter_none, app_nil_r; [done|]. apply Forall_forall. intros r Hr. apply H, max_seq_ge in Hr. lia.
Qed.

(** [V'] is [V] with the ranges that can be read now. *)
Definition obs_valves (V : gset (Z * Z)) (R' : list entryRow) (G' : list ArchiveSegmentRow) (V' : gset (Z * Z)) : Prop :=
  ∀ a b, (a, b) ∈ V' ↔ (a, b) ∈ V ∨ ∃ g, g ∈ G' ∧ readable R' g ∧ range_of g = (a, b).

Definition moves (sid : bytes) (L R : list entryRow) (V : gset (Z * Z)) (O : objs) (R' : list entryRow) (G' : list ArchiveSegmentRow) (V' : gset (Z * Z)) (O' : objs) : Prop :=
  session_ok sid (obs_log L R') R' G' V' O' ∧ grows sid L R V O (obs_log L R') R' V' O'.


(** Rows below the latest checkpoint may go, segments may come that no resume reads. *)
Lemma quiet_moves sid L R G V O R' G' V' :
  session_ok sid L R G V O → StronglySorted seq_lt R' → (∀ r, r ∈ R' → r ∈ R) → (∀ r, r ∈ R → cp_seq L ≤ EntrySeq r → r ∈ R') →
  NoDup (ObjectKey <$> G') → (∀ g, g ∈ G → cp_seq L < MinEntrySeq g → g ∈ G') →
  (∀ g, g ∈ G' → 0 < MinEntrySeq g ≤ MaxEntrySeq g ∧ MaxEntrySeq g ≤ max_seq L ∧ ObjectKey g = segmentKey sid (MinEntrySeq g) (MaxEntrySeq g)
     ∧ (g ∈ G ∨ Kind g = SegmentKindSessionEnd ∨ MaxEntrySeq g < cp_seq L)
     ∧ (Kind g ≠ SegmentKindSessionEnd → ∀ r, r ∈ R' → EntrySeq r ≠ MinEntrySeq g)) →
  obs_valves V R' G' V' → moves sid L R V O R' G' V' O.
Proof.
  intros HS HR' Hsub Hkeep Hkeys Hold Hnew HV. destruct HS. unfold moves.
  assert (∀ r, r ∈ R' → r ∈ L) as HL by auto. rewrite obs_log_sub by done.
  assert (max_seq R' = max_seq L) as HM.
  { rewrite <- ok_max0. apply Z.le_antisymm; [apply max_seq_lub; [apply max_entry_nonneg|]; intros; by apply max_seq_ge, Hsub|].
    destruct (max_seq_in R) as [->|(e & He & E)]; [apply max_entry_nonneg|]. rewrite <- E. apply max_seq_ge, Hkeep; [done|].
    rewrite E, ok_max0. apply cp_le. }
  assert (cp_seq R' = cp_seq L) as HC.
  { rewrite <- ok_cp0. apply Z.le_antisymm.
    - destruct (cp_in R') as [->|(e & He & Hc & <-)]; [apply cp_nonneg|]. apply cp_ge; auto.
    - destruct (cp_in R) as [->|(e & He & Hc & E)]; [apply cp_nonneg|]. rewrite <- E. apply cp_ge; [apply Hkeep; [done|]; lia|done]. }
  assert (∀ g, g ∈ G' → readable R' g → g ∈ G ∧ readable R g) as HG.
  { intros g Hg [Hk Hm]. rewrite HC in Hm. destruct (Hnew g Hg) as (? & _ & _ & [?|[?|?]] & _); [|congruence|lia]. split; [done|]. split; [done|]. by rewrite ok_cp0. }
  assert (∀ a b, (a, b) ∈ V' ↔ (a, b) ∈ V) as HV'.
  { intros a b. split; [intros [?|(g & Hg & Hr & E)]%HV; [done|]|intros; apply HV; by left]. destruct (HG g Hg Hr). rewrite <- E. auto. }
  split.
  - split; auto.
    + intros r e Hr He H1 H2. apply Hkeep; [apply (ok_suffix0 r); auto|lia].
    + intros e He Hc. destruct (ok_cover0 e He Hc) as [?|(g & Hg & ? & ? & ?)]; [left; apply Hkeep; [done|lia]|right; exists g; auto].
    + intros g Hg. destruct (Hnew g Hg) as (? & ? & ? & _). done.
    + intros g r Hg Hk Hr. destruct (Hnew g Hg) as (_ & _ & _ & _ & H). auto.
    + intros g r Hg Hr H1 H2. destruct (HG g Hg Hr). eauto.
    + intros g g' Hg Hg' Hr Hr'. destruct (HG g Hg Hr), (HG g' Hg' Hr'). auto.
    + intros g Hg Hr. destruct (HG g Hg Hr). unfold range_of. apply HV'. by apply (ok_readable0 g).
    + intros a b Hab%HV'. destruct (ok_valve0 a b Hab) as (? & ? & ? & ?). split_and!; try done; auto; lia.
  - split; [exists []; rewrite app_nil_r; split; [done|by intros ? ?%elem_of_nil]| | | |].
    + intros; left; auto.
    + intros a b ?. by rewrite HV'.
    + intros a b ?%HV'. by left.
    + intros; by left.
Qed.

Lemma same_moves sid L R G V O V' : session_ok sid L R G V O → obs_valves V R G V' → moves sid L R V O R G V' O.
Proof.
  intros HS. apply (quiet_moves sid L R G V O R G V' HS); [apply HS|done|done|apply HS|done|].
  intros g Hg. destruct (ok_segment _ _ _ _ _ _ HS g Hg) as (? & ? & ?). split; [done|]. split; [done|]. split; [done|]. split; [by left|]. intros. by eapply ok_gone.
Qed.

(** A new row, above all others. *)
Lemma insert_moves sid L R G V O e V' :
  session_ok sid L R G V O → max_seq L < EntrySeq e → EntryJSON e ≠ [] → (Checkpoint e = false → nl ∉ EntryJSON e) →
  obs_valves V (R ++ [e]) G V' → moves sid L R V O (R ++ [e]) G V' O.
Proof.
  intros HS He Hj Hl HV. destruct HS. unfold moves.
  assert (obs_log L (R ++ [e]) = L ++ [e]) as ->.
  { unfold obs_log. f_equal. rewrite filter_app, filter_none; [simpl; by rewrite filter_cons_True|].
    apply Forall_forall. intros r Hr. apply ok_sub0, max_seq_ge in Hr. lia. }
  pose proof (max_entry_nonneg L). pose proof (cp_le L). pose proof (cp_nonneg L).
  assert (cp_seq (R ++ [e]) = cp_seq (L ++ [e])) as HC by (rewrite !cp_app; lia).
  assert (cp_seq L ≤ cp_seq (L ++ [e])) as Hle by (rewrite cp_app; lia).
  assert (Checkpoint e = false → cp_seq (L ++ [e]) = cp_seq L) as Hno.
  { intros Hc. rewrite cp_app. unfold cp_seq at 2. rewrite filter_cons_False by congruence. simpl. lia. }
  assert (Checkpoint e = true → cp_seq (L ++ [e]) = EntrySeq e) as Hyes.
  { intros Hc. rewrite cp_app. unfold cp_seq at 2. rewrite filter_cons_True by done. simpl. lia. }
  assert (∀ r, r ∈ R → EntrySeq r ≤ max_seq L) as HRm by (intros r Hr; by apply max_seq_ge, ok_sub0).
  assert (∀ g, g ∈ G → readable (R ++ [e]) g → readable R g) as HG by (intros g _ [? ?]; split; [done|lia]).
  assert (∀ a b, (a, b) ∈ V' ↔ (a, b) ∈ V) as HV'.
  { intros a b. split; [intros [?|(g & Hg & Hr & E)]%HV; [done|]|intros; apply HV; by left]. rewrite <- E. auto. }
  split.
  - split; auto.
    + by apply rows_snoc.
    + intros f [Hf| ->%list_elem_of_singleton]%elem_of_app; [auto|lia].
    + intros f [Hf| ->%list_elem_of_singleton]%elem_of_app; auto.
    + apply rows_snoc; [done|lia].
    + intros f [Hf|Hf]%elem_of_app; apply elem_of_app; auto.
    + rewrite !max_seq_app. lia.
    + intros r f [Hr| ->%list_elem_of_singleton]%elem_of_app [Hf| ->%list_elem_of_singleton]%elem_of_app Hc Hrf; apply elem_of_app; [|by right; left| |by right; left].
      * left. apply (ok_suffix0 r); [done|done|lia|done].
      * apply max_seq_ge in Hf. lia.
    + intros f [Hf| ->%list_elem_of_singleton]%elem_of_app Hc; [|left; apply elem_of_app; by right; left].
      destruct (Checkpoint e) eqn:Ec; [rewrite Hyes in Hc by done; apply max_seq_ge in Hf; lia|]. rewrite Hno in * by done.
      destruct (ok_cover0 f Hf Hc) as [?|?]; [left; apply elem_of_app; by left|by right].
    + intros g Hg. destruct (ok_segment0 g Hg) as (? & ? & ?). rewrite max_seq_app. split_and!; [lia..|done].
    + intros g r Hg Hk [Hr| ->%list_elem_of_singleton]%elem_of_app; [by eapply ok_gone0|]. destruct (ok_segment0 g Hg). lia.
    + intros g r Hg Hr [Hin| ->%list_elem_of_singleton]%elem_of_app Hc; [apply (ok_below0 g r); [done|by apply HG|done|lia]|].
      destruct (ok_segment0 g Hg). lia.
    + intros g Hg Hr. apply HV'. apply ok_readable0; auto.
    + intros a b Hab%HV'. destruct (ok_valve0 a b Hab) as (? & ? & ? & Hn). rewrite max_seq_app. split; [done|]. split; [lia|]. split.
      * rewrite range_grown; [done|done|]. by intros f ->%list_elem_of_singleton.
      * intros r [Hr| ->%list_elem_of_singleton]%elem_of_app; [auto|lia].
  - split.
    + exists [e]. split; [done|]. by intros f ->%list_elem_of_singleton.
    + intros r [?| ->%list_elem_of_singleton]%elem_of_app; [by left|by right].
    + intros a b ?. by rewrite HV'.
    + intros a b ?%HV'. by left.
    + intros; by left.
Qed.

(** An object is written whose rows are right if its range can be read. *)
Lemma put_moves sid L R G V O V' s0 a0 b0 body :
  session_ok sid L R G V O → 0 < a0 → 0 < b0 →
  (sid = s0 → (a0, b0) ∈ V → body = segment_body (filter (in_range a0 b0) L)) →
  (sid = s0 → a0 ≤ cp_seq L ∨ b0 ≤ max_seq L ∧ body = segment_body (filter (in_range a0 b0) L)) →
  obs_valves V R G V' → moves sid L R V O R G V' (<[segmentKey s0 a0 b0 := body]> O).
Proof.
  intros HS Ha Hb HV1 HV2 HV. destruct (same_moves sid L R G V O V' HS HV) as [H1 H2]. rewrite obs_log_sub in H1, H2 by apply HS.
  unfold moves. rewrite obs_log_sub by apply HS.
  assert (∀ a b, 0 < a → 0 < b → (sid = s0 ∧ a = a0 ∧ b = b0) ∨ <[segmentKey s0 a0 b0 := body]> O !! segmentKey sid a b = O !! segmentKey sid a b) as Hk.
  { intros a b ? ?. destruct (decide (segmentKey s0 a0 b0 = segmentKey sid a b)) as [E|E]; [left|right; by rewrite lookup_insert_ne].
    apply segmentKey_inj in E as (-> & -> & ->); [done|lia..]. }
  assert (∀ a b, (a, b) ∈ V' ↔ (a, b) ∈ V) as HV'.
  { intros a b. split; [intros [?|(g & Hg & Hr & E)]%HV; [done|]|intros; apply HV; by left]. rewrite <- E. by eapply ok_readable. }
  assert (∀ a b, (a, b) ∈ V → <[segmentKey s0 a0 b0 := body]> O !! segmentKey sid a b = O !! segmentKey sid a b) as Hv.
  { intros a b Hab. destruct (ok_valve _ _ _ _ _ _ HS a b Hab) as (? & ? & E & _). destruct (Hk a b) as [(-> & -> & ->)|?]; [lia..| |done].
    by rewrite lookup_insert_eq, HV1, E. }
  split.
  - destruct H1. split; auto. intros a b Hab%HV'. destruct (ok_valve _ _ _ _ _ _ HS a b Hab) as (? & ? & ? & ?). by rewrite Hv.
  - destruct H2. split; auto.
    + intros a b Hab. split; [by apply HV'|by apply Hv].
    + intros a b ? ?. destruct (Hk a b) as [(E & -> & ->)|?]; [done..| |by left]. destruct (HV2 E) as [?|[? ->]]; [by right; left|].
      right; right. subst s0. by rewrite lookup_insert_eq.
Qed.

Lemma insert_segment g G : InsertArchiveSegment g G = G ∧ (∃ g', g' ∈ G ∧ ObjectKey g' = ObjectKey g)
  ∨ InsertArchiveSegment g G = G ++ [g] ∧ ObjectKey g ∉ ObjectKey <$> G.
Proof.
  unfold InsertArchiveSegment. case_bool_decide as H; [left; split; [done|by apply Exists_exists in H]|right; split; [done|]].
  intros (g' & E & Hin)%list_elem_of_fmap. apply H, Exists_exists. by exists g'.
Qed.

Lemma insert_keys g G : NoDup (ObjectKey <$> G) → NoDup (ObjectKey <$> InsertArchiveSegment g G).
Proof.
  intros H. destruct (insert_segment g G) as [[-> _]|[-> Hn]]; [done|]. rewrite fmap_app. apply NoDup_app. split; [done|]. split; [|apply NoDup_singleton].
  intros k Hk ->%list_elem_of_singleton. done.
Qed.

Lemma insert_in g g' G : g' ∈ InsertArchiveSegment g G → g' ∈ G ∨ g' = g.
Proof. destruct (insert_segment g G) as [[-> _]|[-> _]]; [by left|]. rewrite elem_of_app, list_elem_of_singleton. tauto. Qed.

Lemma insert_old g g' G : g' ∈ G → g' ∈ InsertArchiveSegment g G.
Proof. destruct (insert_segment g G) as [[-> _]|[-> _]]; [done|]. rewrite elem_of_app. by left. Qed.

(** The safety valve archives the first rows after the latest checkpoint. *)
Lemma valve_moves sid L R G V O V' a b r :
  session_ok sid L R G V O → 0 < a ≤ b → b < max_seq L → cp_seq L < a → r ∈ R → EntrySeq r = a →
  (∀ f, f ∈ R → cp_seq L < EntrySeq f → a ≤ EntrySeq f) → O !! segmentKey sid a b = Some (segment_body (filter (in_range a b) L)) →
  let R' := filter (λ e, ¬ in_range a b e) R in
  let G' := InsertArchiveSegment (MkSegment (segmentKey sid a b) a b SegmentKindSafetyValve) G in
  obs_valves V R' G' V' → moves sid L R V O R' G' V' O.
Proof.
  intros HS Hab Hb Hcp Hr Er Hmin HO R' G' HV. pose proof HS as []. unfold moves.
  assert (∀ f, f ∈ R' ↔ f ∈ R ∧ ¬ in_range a b f) as HR' by (intros f; unfold R'; rewrite list_elem_of_filter; tauto).
  rewrite obs_log_sub by (intros f [? _]%HR'; auto).
  assert (max_seq R' = max_seq L) as HM.
  { apply Z.le_antisymm; [rewrite <- ok_max0; apply max_seq_lub; [apply max_entry_nonneg|]; intros f [? _]%HR'; by apply max_seq_ge|].
    destruct (max_seq_in R) as [E|(f & Hf & E)]; rewrite <- ok_max0; [lia|]. rewrite <- E. apply max_seq_ge, HR'. split; [done|]. unfold in_range. lia. }
  assert (cp_seq R' = cp_seq L) as HC.
  { rewrite <- ok_cp0. apply Z.le_antisymm.
    - destruct (cp_in R') as [->|(e & [He _]%HR' & Hc & <-)]; [apply cp_nonneg|]. by apply cp_ge.
    - destruct (cp_in R) as [->|(e & He & Hc & E)]; [apply cp_nonneg|]. rewrite <- E. apply cp_ge; [|done]. apply HR'. split; [done|]. unfold in_range. lia. }
  assert (∀ g, readable R' g ↔ readable R g) as Hrd by (intros g; unfold readable; by rewrite HC, ok_cp0).
  set (g0 := MkSegment (segmentKey sid a b) a b SegmentKindSafetyValve) in *.
  assert (Hnew : ∀ g, g ∈ G' → g ∈ G ∨ g = g0) by (intros g Hg; by apply insert_in).
  assert (Hcov : ∃ g, g ∈ G' ∧ MinEntrySeq g = a ∧ MaxEntrySeq g = b ∧ (Kind g = SegmentKindSafetyValve ∨ Kind g = SegmentKindSessionEnd)).
  { destruct (insert_segment g0 G) as [[E (g & Hg & Ek)]|[E _]]; unfold G'; rewrite E; [|exists g0; split; [apply elem_of_app; by right; left|by auto]].
    exists g. split; [done|]. destruct (ok_segment0 g Hg) as (? & ? & Ek'). rewrite Ek' in Ek. apply segmentKey_inj in Ek as (_ & E1 & E2); [|simpl; lia..].
    simpl in E1, E2. split; [done|]. split; [done|]. right. destruct (decide (Kind g = SegmentKindSessionEnd)); [done|].
    destruct (ok_gone0 g r Hg); [done|done|congruence]. }
  assert (Hlow : ∀ g, g ∈ G → readable R g → MaxEntrySeq g < a) by (intros g Hg Hrg; rewrite <- Er; apply (ok_below0 g r); [done|done|done|lia]).
  split.
  - split; auto.
    + by apply sorted_filter.
    + intros e [? _]%HR'. auto.
    + intros f e [Hf Hnf]%HR' He H1 H2. apply HR'. split; [by apply (ok_suffix0 f)|]. specialize (Hmin f Hf H1). unfold in_range in *. lia.
    + intros e He Hc. destruct (ok_cover0 e He Hc) as [?|(g & Hg & ? & ? & ?)]; [|right; exists g; split; [by apply insert_old|done]].
      destruct (decide (in_range a b e)); [|left; by apply HR']. destruct Hcov as (g & Hg & E1 & E2 & ?). right. exists g. rewrite E1, E2. done.
    + intros g [Hg| ->]%Hnew; [auto|]. simpl. split_and!; [lia..|done].
    + by apply insert_keys.
    + intros g f [Hg| ->]%Hnew Hk [Hf Hnf]%HR'; [eauto|]. simpl. unfold in_range in Hnf. lia.
    + intros g f [Hg| ->]%Hnew Hrg%Hrd [Hf Hnf]%HR' H1; [eauto|]. simpl. specialize (Hmin f Hf H1). unfold in_range in Hnf. lia.
    + intros g g' [Hg| ->]%Hnew [Hg'| ->]%Hnew Hrg%Hrd Hrg'%Hrd Hne; [auto|left; by apply Hlow|right; by apply Hlow|done].
    + intros g Hg Hrg. apply HV. right. by exists g.
    + intros a' b' [Hab'|(g & [Hg| ->]%Hnew & Hrg%Hrd & E)]%HV.
      * destruct (ok_valve0 a' b' Hab') as (? & ? & ? & Hn). split_and!; [lia..|done|]. intros f [? _]%HR'. auto.
      * destruct (ok_valve0 a' b') as (? & ? & ? & Hn); [rewrite <- E; auto|]. split_and!; [lia..|done|]. intros f [? _]%HR'. auto.
      * injection E as <- <-. split_and!; [lia..|done|]. intros f [_ Hnf]%HR'. unfold in_range in Hnf. lia.
  - split; [exists []; rewrite app_nil_r; split; [done|by intros ? ?%elem_of_nil]| | | |].
    + intros f [? _]%HR'. by left.
    + intros a' b' ?. split; [apply HV; by left|done].
    + intros a' b' [?|(g & [Hg| ->]%Hnew & Hrg%Hrd & E)]%HV; [by left|left; rewrite <- E; auto|right; injection E as <- <-; done].
    + intros; by left.
Qed.

(** * Steps of the store *)

Notation allowed x s' := (W (observe x s') ∧ mono x (observe x s')).

Lemma observe_valves x s' sid : obs_valves (valves x sid) (rows sid s') (manifest sid s') (valves (observe x s') sid).
Proof.
  intros a b. simpl. rewrite elem_of_union, elem_of_list_to_set, list_elem_of_fmap. unfold SafetyValveSegments.
  setoid_rewrite merge_sort_Permutation. setoid_rewrite list_elem_of_filter. unfold readable. naive_solver.
Qed.

Lemma allowed_moves x s' :
  (∀ sid, moves sid (logs x sid) (rows sid (db x)) (valves x sid) (objects (db x)) (rows sid s') (manifest sid s') (valves (observe x s') sid) (objects s')) →
  allowed x s'.
Proof. intros H. split; intros sid; apply H. Qed.

Lemma allowed_same x : W x → allowed x (db x).
Proof. intros HW. apply allowed_moves. intros sid. apply (same_moves _ _ _ _ _ _ _ (HW sid)), observe_valves. Qed.

(** A change of one session's tables. *)
Lemma allowed_session x sid r' :
  W x →
  (∀ V', obs_valves (valves x sid) (entries r') (segments r') V' →
     moves sid (logs x sid) (rows sid (db x)) (valves x sid) (objects (db x)) (entries r') (segments r') V' (objects (db x))) →
  allowed x (set_session sid r' (db x)).
Proof.
  intros HW H. apply allowed_moves. intros sid'. pose proof (observe_valves x (set_session sid r' (db x)) sid') as HV.
  destruct (decide (sid = sid')) as [<-|Hne].
  - assert (rows sid (set_session sid r' (db x)) = entries r') as E1 by (unfold rows; simpl; by rewrite lookup_insert_eq).
    assert (manifest sid (set_session sid r' (db x)) = segments r') as E2 by (unfold manifest; simpl; by rewrite lookup_insert_eq).
    rewrite E1, E2 in *. by apply H.
  - assert (rows sid' (set_session sid r' (db x)) = rows sid' (db x)) as E1 by (unfold rows; simpl; by rewrite lookup_insert_ne).
    assert (manifest sid' (set_session sid r' (db x)) = manifest sid' (db x)) as E2 by (unfold manifest; simpl; by rewrite lookup_insert_ne).
    rewrite E1, E2 in *. by apply (same_moves _ _ _ _ _ _ _ (HW sid')).
Qed.

Lemma remark_same below g : MinEntrySeq (remark below g) = MinEntrySeq g ∧ MaxEntrySeq (remark below g) = MaxEntrySeq g ∧ ObjectKey (remark below g) = ObjectKey g.
Proof. unfold remark. by destruct (_ && _). Qed.

Lemma remark_kind below g : remark below g = g ∨ Kind g = SegmentKindSafetyValve ∧ Kind (remark below g) = SegmentKindSuperseded ∧ MaxEntrySeq g < below.
Proof. unfold remark. destruct (_ && _) eqn:E; [right|by left]. apply andb_true_iff in E as [?%bool_decide_eq_true ?%bool_decide_eq_true]. done. Qed.

Lemma remark_keys below (G : list ArchiveSegmentRow) : ObjectKey <$> (remark below <$> G) = ObjectKey <$> G.
Proof. rewrite <- list_fmap_compose. apply list_fmap_ext. intros i g _. apply remark_same. Qed.

Definition remarked (below : Z) (G : list ArchiveSegmentRow) : list ArchiveSegmentRow := if bool_decide (0 < below) then remark below <$> G else G.

Lemma remarked_in below G g : g ∈ remarked below G → ∃ g', g' ∈ G ∧ (g = g' ∨ g = remark below g').
Proof. unfold remarked. case_bool_decide; [intros (g' & -> & ?)%list_elem_of_fmap; eauto|eauto]. Qed.

Lemma remarked_old below G g : g ∈ G → below ≤ MaxEntrySeq g → g ∈ remarked below G.
Proof.
  intros Hg Hb. unfold remarked. case_bool_decide; [|done]. apply list_elem_of_fmap. exists g. split; [|done].
  destruct (remark_kind below g) as [?|(_ & _ & ?)]; [done|lia].
Qed.

(** A transaction that no resume can see: rows and a segment below the latest checkpoint, or
    the segment of a session's end. *)
Lemma tx_quiet x sid g prune n below :
  W x → 0 < MinEntrySeq g ≤ MaxEntrySeq g → MaxEntrySeq g ≤ max_seq (logs x sid) → ObjectKey g = segmentKey sid (MinEntrySeq g) (MaxEntrySeq g) →
  below ≤ cp_seq (logs x sid) →
  (prune = true ∧ MaxEntrySeq g < cp_seq (logs x sid) ∨ prune = false ∧ Kind g = SegmentKindSessionEnd) →
  allowed x (flush_tx sid g prune n below (db x)).2.
Proof.
  intros HW Hg Hmax Hkey Hbelow Hp. unfold flush_tx. destruct (sessions (db x) !! sid) as [r|] eqn:E; [|by apply allowed_same].
  destruct (prune && _); [by apply allowed_same|]. simpl. apply allowed_session; [done|]. simpl. fold (remarked below (InsertArchiveSegment g (segments r))).
  pose proof (HW sid) as HS. assert (rows sid (db x) = entries r) as Er by (unfold rows; by rewrite E).
  assert (manifest sid (db x) = segments r) as Eg by (unfold manifest; by rewrite E). rewrite Er, Eg in *. intros V' HV.
  assert (Hkept : ∀ f, f ∈ (if prune then filter (λ e, ¬ in_range (MinEntrySeq g) (MaxEntrySeq g) e) (entries r) else entries r) →
    f ∈ entries r ∧ (prune = true → ¬ in_range (MinEntrySeq g) (MaxEntrySeq g) f)).
  { destruct prune; [intros f [? ?]%list_elem_of_filter; done|done]. }
  apply (quiet_moves sid _ _ _ _ _ _ _ _ HS); [| | | | | |done].
  - destruct prune; [by apply sorted_filter, HS|apply HS].
  - intros f Hf. by apply Hkept.
  - intros f Hf Hc. destruct Hp as [[-> ?]|[-> _]]; [|done]. apply list_elem_of_filter. split; [|done]. unfold in_range. lia.
  - unfold remarked. case_bool_decide; rewrite ?remark_keys; apply insert_keys, HS.
  - intros f Hf Hc. apply remarked_old; [by apply insert_old|]. destruct (ok_segment _ _ _ _ _ _ HS f Hf). lia.
  - intros f (f' & Hf' & Hff)%remarked_in.
    assert (MinEntrySeq f = MinEntrySeq f' ∧ MaxEntrySeq f = MaxEntrySeq f' ∧ ObjectKey f = ObjectKey f') as (E1 & E2 & E3) by (destruct Hff as [->| ->]; [done|apply remark_same]).
    assert (f = f' ∨ Kind f' = SegmentKindSafetyValve ∧ MaxEntrySeq f < cp_seq (logs x sid)) as Hk.
    { destruct Hff as [->| ->]; [by left|]. destruct (remark_kind below f') as [->|(? & _ & ?)]; [by left|right]. split; [done|lia]. }
    rewrite E1, E2, E3. apply insert_in in Hf' as [Hf'| ->].
    + destruct (ok_segment _ _ _ _ _ _ HS f' Hf') as (? & ? & ?). split; [done|]. split; [done|]. split; [done|].
      split; [destruct Hk as [->|[_ ?]]; [by left|right; right; lia]|]. intros Hne q Hq%Hkept. apply (ok_gone _ _ _ _ _ _ HS f' q Hf'); [|by apply Hq].
      destruct Hk as [->|[-> _]]; done.
    + split; [done|]. split; [done|]. split; [done|]. destruct Hp as [[-> ?]|[-> Hse]].
      * split; [right; right; lia|]. intros _ q [_ Hq]%Hkept Eq. apply Hq; [done|]. unfold in_range. lia.
      * destruct Hk as [->|[? _]]; [|congruence]. split; [by right; left|]. done.
Qed.

(** The transaction of the safety valve, for a range that is still readable. *)
Lemma tx_valve x sid a b n r :
  W x → 0 < a ≤ b → b < max_seq (logs x sid) → cp_seq (logs x sid) < a →
  (length (filter (in_range a b) (rows sid (db x))) = n → r ∈ rows sid (db x) ∧ EntrySeq r = a) →
  (∀ f, f ∈ rows sid (db x) → cp_seq (logs x sid) < EntrySeq f → a ≤ EntrySeq f) →
  objects (db x) !! segmentKey sid a b = Some (segment_body (filter (in_range a b) (logs x sid))) →
  allowed x (flush_tx sid (MkSegment (segmentKey sid a b) a b SegmentKindSafetyValve) true n 0 (db x)).2.
Proof.
  intros HW Hab Hb Hcp Hn Hmin HO. unfold flush_tx. destruct (sessions (db x) !! sid) as [q|] eqn:E; [|by apply allowed_same].
  assert (rows sid (db x) = entries q) as Er by (unfold rows; by rewrite E). assert (manifest sid (db x) = segments q) as Eg by (unfold manifest; by rewrite E).
  rewrite Er in Hn, Hmin. cbn [MinEntrySeq MaxEntrySeq andb]. case_bool_decide as Hlen; [|by apply allowed_same]. destruct (Hn Hlen) as [Hr Ea]. simpl.
  apply allowed_session; [done|]. simpl. intros V' HV. pose proof (HW sid) as HS. rewrite Er, Eg in *.
  by apply (valve_moves sid _ _ _ _ _ _ a b r HS).
Qed.

(** * Flushes *)

#[local] Notation OK := (@ok state nat outcome (result storeErr unit) W mono (λ _, mono) (λ _ _, True) None).

(** A routine that may go on from anywhere. *)
Notation quiet ret := (∀ r x, OK (ret r) x).


Lemma run_steps {X} (f : stmt X) k x :
  (∀ x1, mono x x1 → W x1 → allowed x1 (f (db x1)).2 ∧ OK (k (f (db x1)).1) (observe x1 (f (db x1)).2)) → (∀ x1, OK (k (Err ErrInternal)) x1) → OK (run f k) x.
Proof.
  intros H Hk [| |]; simpl; [|apply Hk|].
  - intros x1 Hm HW. destruct (H x1 Hm HW) as [[? ?] ?]. unfold guar. auto.
  - intros x1 Hm HW. destruct (H x1 Hm HW) as [[? ?] _]. unfold guar. auto.
Qed.

Lemma run_quiet {X} (f : stmt X) ret x : (∀ x1, mono x x1 → W x1 → allowed x1 (f (db x1)).2) → quiet ret → OK (run f ret) x.
Proof. intros H Hk. apply run_steps; [|auto]. auto. Qed.

Lemma try_read {X} (f : store → result storeErr X) ret k x :
  quiet ret → (∀ x1 r, mono x x1 → W x1 → f (db x1) = Ok r → OK (k r) (observe x1 (db x1))) → OK (try (read f) ret k) x.
Proof.
  intros Hr Hk. apply run_steps; [|auto]. intros x1 Hm HW. split; [by apply allowed_same|]. simpl. destruct (f (db x1)) eqn:E; auto.
Qed.

(** Nothing has changed for the eye after a read. *)
Lemma logs_same x sid : W x → logs (observe x (db x)) sid = logs x sid.
Proof. intros HW. apply obs_log_sub, (HW sid). Qed.

(** What a flush knows of its range: it is below the latest checkpoint, or it is the start of
    the rows after it, or the flush prunes nothing. *)
Inductive may_flush (x : state) (sid : bytes) (from upto : Z) : SegmentKind → bool → Z → Prop :=
| flush_below kind below : below ≤ cp_seq (logs x sid) → upto < cp_seq (logs x sid) → may_flush x sid from upto kind true below
| flush_first : cp_seq (logs x sid) < from ≤ upto → upto < max_seq (logs x sid) →
    (∀ f, f ∈ rows sid (db x) → cp_seq (logs x sid) < EntrySeq f → from ≤ EntrySeq f) → may_flush x sid from upto SegmentKindSafetyValve true 0
| flush_end : may_flush x sid from upto SegmentKindSessionEnd false 0.

Lemma mono_bounds x y sid : mono x y → cp_seq (logs x sid) ≤ cp_seq (logs y sid) ∧ max_seq (logs x sid) ≤ max_seq (logs y sid).
Proof. intros Hm. destruct (Hm sid) as [(new & -> & _) _ _ _ _]. rewrite cp_app, max_seq_app. lia. Qed.

Lemma may_flush_mono x y sid from upto kind prune below : mono x y → may_flush x sid from upto kind prune below → may_flush y sid from upto kind prune below.
Proof.
  intros Hm H. destruct (mono_bounds x y sid Hm) as [Hc Hx]. destruct (Hm sid) as [(new & E & Hnew) Hrows _ _ _].
  destruct H as [kind below ? ?|Hf Hu Hmin|]; [apply flush_below; lia| |apply flush_end].
  destruct (decide (cp_seq (logs y sid) < from)) as [Hlt|Hge].
  - apply flush_first; [lia|lia|]. intros f [Hin|Hin]%Hrows Hc'; [apply Hmin; [done|lia]|lia].
  - pose proof (max_entry_nonneg (logs x sid)). pose proof (cp_nonneg (logs x sid)). apply flush_below; [lia|].
    destruct (cp_in (logs y sid)) as [?|(e & He & Hce & Ee)]; [lia|].
    rewrite E in He. apply elem_of_app in He as [He|He]; [pose proof (cp_ge _ _ He Hce); lia|apply Hnew in He; lia].
Qed.

Lemma may_flush_below x sid from upto kind prune below : may_flush x sid from upto kind prune below → below ≤ cp_seq (logs x sid).
Proof. intros [? ? ? ?|? ? ?|]; [done|apply cp_nonneg..]. Qed.

(** The rows of a range, with their first and last number. *)
Record collected (x : state) (sid : bytes) (from upto : Z) (l : list entryRow) (a b : Z) : Prop := {
  col_range : 0 < a ≤ b ∧ from ≤ a ∧ b ≤ upto ∧ b ≤ max_seq (logs x sid);
  col_rows : l = filter (in_range a b) (rows sid (db x));
  col_first : ∃ r, r ∈ l ∧ EntrySeq r = a;
  col_least f : f ∈ rows sid (db x) → from ≤ EntrySeq f → a ≤ EntrySeq f;
  col_log : cp_seq (logs x sid) < a → l = filter (in_range a b) (logs x sid);
}.

#[export] Instance seq_lt_trans : Transitive seq_lt.
Proof. intros a b c. unfold seq_lt. lia. Qed.
#[export] Instance seq_lt_anti : AntiSymm (=) seq_lt.
Proof. intros a b. unfold seq_lt. lia. Qed.

Lemma sorted_ext l k : StronglySorted seq_lt l → StronglySorted seq_lt k → (∀ e, e ∈ l ↔ e ∈ k) → l = k.
Proof.
  intros Hl Hk He. apply (sorted_perm_unique seq_lt); [by apply StronglySorted_Sorted..|]. apply NoDup_Permutation; [by apply sorted_NoDup..|done].
Qed.

Lemma last_default {A} (e : A) l : last (e :: l) = Some (default e (last (e :: l))).
Proof. destruct (last (e :: l)) eqn:E; [done|by apply last_None in E]. Qed.

Lemma collected_here x sid from upto e l' : W x → filter (in_range from upto) (rows sid (db x)) = e :: l' →
  collected x sid from upto (e :: l') (EntrySeq e) (EntrySeq (default e (last (e :: l')))).
Proof.
  intros HW El. pose proof (HW sid) as HS. set (l := e :: l') in *. set (z := default e (last l)).
  assert (StronglySorted seq_lt l) as Hs by (rewrite <- El; apply sorted_filter, HS).
  assert (∀ f, f ∈ l ↔ f ∈ rows sid (db x) ∧ in_range from upto f) as Hl by (intros f; rewrite <- El, list_elem_of_filter; tauto).
  assert (∀ f, f ∈ l → f ∈ logs x sid) as HL by (intros f [? _]%Hl; by eapply ok_sub).
  assert (last l = Some z) as Hz by apply last_default.
  clearbody z. pose proof (last_Some_elem_of l z Hz) as Hzl. assert (e ∈ l) as Hel by (unfold l; left).
  assert (∀ f, f ∈ l → EntrySeq e ≤ EntrySeq f ≤ EntrySeq z) as Hb.
  { intros f Hf. split.
    - inversion Hs as [|? ? _ Hall]; subst. rewrite Forall_forall in Hall. apply elem_of_cons in Hf as [->|Hf]; [done|]. apply Hall in Hf. unfold seq_lt in Hf. lia.
    - rewrite (last_max l z Hs Hz) by (intros; by eapply ok_pos, HL). by apply max_seq_ge. }
  assert (∀ f, f ∈ rows sid (db x) → in_range (EntrySeq e) (EntrySeq z) f → f ∈ l) as Hin.
  { intros f Hf [? ?]. apply Hl. split; [done|]. destruct (proj1 (Hl e) Hel) as [_ [? _]]. destruct (proj1 (Hl z) Hzl) as [_ [_ ?]]. split; lia. }
  split.
  - destruct (proj1 (Hl e) Hel) as [_ [? _]]. destruct (proj1 (Hl z) Hzl) as [_ [_ ?]]. destruct (Hb z Hzl).
    pose proof (ok_pos _ _ _ _ _ _ HS e (HL e Hel)). pose proof (max_seq_ge _ _ (HL z Hzl)). lia.
  - apply sorted_ext; [done|apply sorted_filter, HS|]. intros f. rewrite list_elem_of_filter. split; [intros Hf; split; [by apply Hb|by apply Hl]|intros [? ?]; by apply Hin].
  - by exists e.
  - intros f Hf Hfrom. destruct (decide (EntrySeq f ≤ upto)); [apply Hb, Hl; by split|]. destruct (proj1 (Hl z) Hzl) as [_ [_ ?]]. destruct (Hb z Hzl). lia.
  - intros Hc. apply sorted_ext; [done|apply sorted_filter, HS|]. intros f. rewrite list_elem_of_filter. split; [intros Hf; split; [by apply Hb|by apply HL]|].
    intros [Hr Hf]. apply Hin; [|done]. destruct Hr. eapply (ok_suffix _ _ _ _ _ _ HS e); [by apply Hl|done..].
Qed.

(** What a flush has collected stays good for an object of its range. *)
Lemma collected_body x y sid from upto l a b : W x → mono x y → W y → collected x sid from upto l a b →
  ((a, b) ∈ valves y sid → segment_body l = segment_body (filter (in_range a b) (logs y sid)))
  ∧ (a ≤ cp_seq (logs y sid) ∨ b ≤ max_seq (logs y sid) ∧ segment_body l = segment_body (filter (in_range a b) (logs y sid))).
Proof.
  intros HW Hm HWy [(Hab & _ & _ & Hb) El (r & Hr & Er) _ Hlog]. destruct (mono_bounds x y sid Hm).
  assert (cp_seq (logs x sid) < a → segment_body l = segment_body (filter (in_range a b) (logs y sid))) as Hgood.
  { intros Hc. rewrite (Hlog Hc). destruct (Hm sid) as [(new & -> & Hnew) _ _ _ _]. by rewrite range_grown. }
  split.
  - intros Hv. apply Hgood. destruct (Hm sid) as [_ _ _ Hval _]. destruct (Hval a b Hv) as [Hv'|?]; [|done].
    destruct (ok_valve _ _ _ _ _ _ (HW sid) a b Hv') as (_ & _ & _ & Hn). destruct (Hn r); [|done]. rewrite El in Hr. by apply list_elem_of_filter in Hr as [_ ?].
  - destruct (decide (cp_seq (logs x sid) < a)); [right; split; [lia|auto]|left; lia].
Qed.

Lemma allowed_put x y sid from upto l a b : W x → mono x y → W y → collected x sid from upto l a b →
  allowed y (PutSegment (segmentKey sid a b) (segment_body l) (db y)).2.
Proof.
  intros HW Hm HWy HC. destruct (collected_body x y sid from upto l a b HW Hm HWy HC) as [H1 H2]. destruct HC as [(Hab & _) _ _ _ _].
  apply allowed_moves. intros sid'. apply put_moves; [apply HWy|lia|lia|by intros ->|by intros ->|]. apply (observe_valves y (PutSegment _ _ (db y)).2 sid').
Qed.

(** Between the object and the transaction: the rows are still those of [x], the object is
    that of the rows, and the range may still be flushed. *)
Lemma allowed_tx x y z sid from upto kind prune below l a b :
  W x → mono x y → W y → collected x sid from upto l a b → objects (db y) !! segmentKey sid a b = Some (segment_body l) →
  mono y z → W z → may_flush z sid from upto kind prune below →
  allowed z (flush_tx sid (MkSegment (segmentKey sid a b) a b kind) prune (length l) below (db z)).2.
Proof.
  intros HW Hxy HWy HC HO Hyz HWz Hmay. pose proof (transcript_mono_trans _ _ _ Hxy Hyz) as Hxz. destruct (mono_bounds x z sid Hxz).
  pose proof (may_flush_below _ _ _ _ _ _ _ Hmay) as Hbelow. destruct HC as [(Hab & Hfa & Hbu & Hb) El (r & Hr & Er) Hleast Hlog].
  destruct Hmay as [kind below ? Hu|Hf Hu Hmin|].
  - apply tx_quiet; simpl; [done|done|lia|done|done|left; split; [done|lia]].
  - assert (cp_seq (logs x sid) < a) as Hca by lia.
    destruct (Hxz sid) as [(new & E & Hnew) Hrows _ _ _].
    assert (filter (in_range a b) (logs z sid) = l) as HL by (rewrite E, range_grown by done; by rewrite Hlog).
    apply (tx_valve z sid a b (length l) r); [done|done|lia|lia|..].
    + intros Hlen. split; [|done].
      assert (∀ f, f ∈ filter (in_range a b) (rows sid (db z)) → f ∈ l) as Hsub.
      { intros f [[? ?] Hf']%list_elem_of_filter. rewrite <- HL. apply list_elem_of_filter. split; [done|]. by eapply ok_sub. }
      assert (filter (in_range a b) (rows sid (db z)) ≡ₚ l) as Hp.
      { apply submseteq_length_Permutation; [|lia]. apply NoDup_submseteq; [apply NoDup_filter, sorted_NoDup, (HWz sid)|done]. }
      rewrite <- Hp in Hr. by apply list_elem_of_filter in Hr as [_ ?].
    + intros f Hf' Hc. specialize (Hmin f Hf' Hc). apply Hrows in Hf' as [Hf'|?]; [by apply Hleast|lia].
    + rewrite HL. destruct (Hyz sid) as [_ _ _ _ Hobj]. destruct (Hobj a b) as [->|[?|[_ ->]]]; [lia|lia|done|lia|by rewrite HL].
  - apply tx_quiet; simpl; [done|done|lia|done|done|by right].
Qed.

Lemma allowed_remark x sid below : W x → below ≤ cp_seq (logs x sid) → allowed x (RemarkSafetyValveSuperseded sid below (db x)).2.
Proof.
  intros HW Hb. unfold RemarkSafetyValveSuperseded. destruct (sessions (db x) !! sid) as [r|] eqn:E; [|by apply allowed_same]. simpl.
  apply allowed_session; [done|]. simpl. pose proof (HW sid) as HS. assert (rows sid (db x) = entries r) as Er by (unfold rows; by rewrite E).
  assert (manifest sid (db x) = segments r) as Eg by (unfold manifest; by rewrite E). rewrite Er, Eg in *. intros V' HV.
  apply (quiet_moves sid _ _ _ _ _ _ _ _ HS); [apply HS|done|done|rewrite remark_keys; apply HS| | |done].
  - intros g Hg Hc. apply list_elem_of_fmap. exists g. split; [|done]. destruct (ok_segment _ _ _ _ _ _ HS g Hg). destruct (remark_kind below g) as [?|(_ & _ & ?)]; [done|lia].
  - intros g (g' & -> & Hg')%list_elem_of_fmap. destruct (remark_same below g') as (-> & -> & ->). destruct (ok_segment _ _ _ _ _ _ HS g' Hg') as (? & ? & ?).
    split_and!; [lia..|done| |].
    + destruct (remark_kind below g') as [->|(_ & _ & ?)]; [by left|right; right; lia].
    + intros Hk q Hq. apply (ok_gone _ _ _ _ _ _ HS g' q Hg'); [|done]. destruct (remark_kind below g') as [E'|(E' & _)]; [by rewrite E' in Hk|congruence].
Qed.

(** * Threads *)

Section threads.
Context (configured : bool) (capBytes : Z).

Lemma flushUpto_ok x sid from upto kind prune below ret : may_flush x sid from upto kind prune below → quiet ret →
  OK (flushUpto configured sid from upto kind prune below ret) x.
Proof.
  intros Hmay Hret. apply try_read; [done|]. intros x1 l Hm HW [= <-]. destruct (allowed_same x1 HW) as [HWy Hmy].
  set (y := observe x1 (db x1)) in *. assert (may_flush y sid from upto kind prune below) as Hy by (eapply may_flush_mono, Hmay; by eapply transcript_mono_trans).
  rewrite merge_sorted by (apply sorted_filter, (HW sid)). clearbody y. clear x Hm Hmay.
  destruct (filter (in_range from upto) (rows sid (db x1))) as [|e l'] eqn:El.
  - case_bool_decide; [|done]. apply run_quiet; [|done]. intros x2 Hm2 HW2. apply allowed_remark; [done|].
    eapply may_flush_below, may_flush_mono; [exact Hm2|done].
  - destruct configured; cbn [negb]; [|apply Hret]. pose proof (collected_here x1 sid from upto e l' HW El) as HC.
    unfold try. apply run_steps; [|intros; apply Hret]. intros x2 Hm2 HW2.
    assert (mono x1 x2) as H12 by (by eapply transcript_mono_trans). destruct (allowed_put x1 x2 sid from upto _ _ _ HW H12 HW2 HC) as [HW3 Hm3].
    split; [done|]. apply run_quiet; [|done]. intros x4 Hm4 HW4.
    eapply (allowed_tx x1 (observe x2 _) x4); [done|by eapply transcript_mono_trans|exact HW3|exact HC|simpl; by rewrite lookup_insert_eq|exact Hm4|done|].
    eapply may_flush_mono, Hy. eapply transcript_mono_trans; [exact Hm2|]. by eapply transcript_mono_trans.
Qed.

Lemma FlushSuperseded_ok x sid upto ret : quiet ret → OK (FlushSuperseded configured sid upto SegmentKindSessionEnd ret) x.
Proof. intros Hret. unfold FlushSuperseded. case_bool_decide; [apply Hret|]. apply flushUpto_ok; [apply flush_end|done]. Qed.

Lemma archiveSessionEnd_ok x sid : OK (archiveSessionEnd configured sid) x.
Proof. apply try_read; [done|]. intros x1 m _ _ _. case_bool_decide; [done|]. by apply FlushSuperseded_ok. Qed.

(** The rows that the valve takes, of the rows after the checkpoint in order. *)
Lemma cut_spec l r0 u0 : ∃ k, cut l capBytes r0 u0 = match k with O => u0 | S k' => default 0 (EntrySeq <$> l !! k') end ∧ (k = 0 ∨ k < length l)%nat.
Proof.
  revert r0 u0. induction l as [|e l IH]; intros r0 u0; [exists O; split; [done|by left]|]. simpl. destruct l as [|f l]; [exists O; split; [done|by left]|].
  destruct (_ || _); [exists O; split; [done|by left]|]. destruct (IH (r0 - octets e) (EntrySeq e)) as ([|k] & -> & Hk).
  - exists 1%nat. split; [done|right; simpl; lia].
  - exists (S (S k)). split; [done|right; simpl in *; lia].
Qed.

Lemma valveCut_range l from upto : StronglySorted seq_lt l → (∀ e, e ∈ l → 0 < EntrySeq e) → valveCut l capBytes = (from, upto) → upto ≠ 0 →
  (∃ e, head l = Some e ∧ EntrySeq e = from) ∧ from ≤ upto ∧ upto < max_seq l.
Proof.
  intros Hs Hp. unfold valveCut. destruct l as [|e l]; [by intros [= <- <-]|]. cbv zeta. case_bool_decide; [by intros [= <- <-]|].
  destruct (cut_spec (e :: l) (foldr (λ e, Z.add (octets e)) 0 (e :: l)) 0) as (k & E & Hk). revert E.
  generalize (cut (e :: l) capBytes (foldr (λ e, Z.add (octets e)) 0 (e :: l)) 0). intros u E. case_bool_decide; [by intros [= <- <-]|].
  intros [= <- <-] _. split; [by exists e|]. destruct k as [|k]; [done|]. destruct Hk as [?|Hk]; [done|]. rewrite E. assert (is_Some ((e :: l) !! S k)) as [g Hg] by (by apply lookup_lt_is_Some).
  assert (is_Some ((e :: l) !! k)) as [f Hf] by (apply lookup_lt_is_Some; lia). rewrite Hf. simpl.
  assert (∀ i j a b, (e :: l) !! i = Some a → (e :: l) !! j = Some b → (i < j)%nat → EntrySeq a < EntrySeq b) as Hlt.
  { intros i j a b Ha Hb Hij. by eapply sorted_lookup. }
  split; [destruct k as [|k]; [injection Hf as ->; done|apply Z.lt_le_incl, (Hlt 0%nat (S k)); [done|done|lia]]|].
  eapply Z.lt_le_trans; [apply (Hlt k (S k) f g Hf Hg); lia|]. apply (max_seq_ge (e :: l)). by eapply list_elem_of_lookup_2.
Qed.

Lemma maybeSafetyValve_ok x sid ret : quiet ret → OK (maybeSafetyValve configured capBytes sid ret) x.
Proof.
  intros Hret. apply try_read; [done|]. intros x1 n _ _ _. case_bool_decide; [apply Hret|].
  apply try_read; [done|]. intros x2 l Hm HW [= <-]. pose proof (HW sid) as HS. unfold hot_tail.
  rewrite merge_sorted by (apply sorted_filter, HS). set (l := filter _ (rows sid (db x2))).
  destruct (valveCut l capBytes) as [from upto] eqn:E. case_bool_decide as Hu; [apply Hret|].
  assert (∀ f, f ∈ l ↔ f ∈ rows sid (db x2) ∧ cp_seq (logs x2 sid) < EntrySeq f) as Hl.
  { intros f. unfold l. rewrite list_elem_of_filter, (ok_cp _ _ _ _ _ _ HS). tauto. }
  assert (StronglySorted seq_lt l) as Hs by apply sorted_filter, HS.
  destruct (valveCut_range l from upto Hs) as ((e & He & Ee) & Hfu & Hmax); [|done|done|].
  { intros f [Hf _]%Hl. eapply ok_pos, ok_sub; done. }
  apply flushUpto_ok; [|done]. destruct (allowed_same x2 HW) as [_ Hm2]. eapply may_flush_mono; [exact Hm2|].
  destruct l as [|e' l']; [done|]. injection He as ->. apply flush_first.
  - destruct (proj1 (Hl e)); [left|]. lia.
  - eapply Z.lt_le_trans; [exact Hmax|]. apply max_seq_lub; [apply max_entry_nonneg|]. intros f [Hf _]%Hl. eapply max_seq_ge, ok_sub; done.
  - intros f Hf Hc. assert (f ∈ e :: l') as [->|Hin]%elem_of_cons by (by apply Hl); [lia|]. inversion Hs as [|? ? _ Hall]; subst.
    rewrite Forall_forall in Hall. apply Hall in Hin. unfold seq_lt in Hin. lia.
Qed.

Lemma flushPass_ok x sid ret : quiet ret → OK (flushPass configured capBytes sid ret) x.
Proof.
  intros Hret. apply try_read; [done|]. intros x1 cp Hm HW [= <-]. case_bool_decide; [|by apply maybeSafetyValve_ok].
  apply flushUpto_ok; [|intros [[]| |] ?; [by apply maybeSafetyValve_ok|apply Hret..]].
  destruct (allowed_same x1 HW) as [_ Hm1]. eapply may_flush_mono; [exact Hm1|]. rewrite (ok_cp _ _ _ _ _ _ (HW sid)). apply flush_below; lia.
Qed.

End threads.

(** * Reachable states *)

Lemma rows_session x sid r : sessions (db x) !! sid = Some r → rows sid (db x) = entries r ∧ manifest sid (db x) = segments r.
Proof. unfold rows, manifest. by intros ->. Qed.

(** Only the session's own columns change. *)
Lemma allowed_header x sid r r' : W x → sessions (db x) !! sid = Some r → entries r' = entries r → segments r' = segments r → allowed x (set_session sid r' (db x)).
Proof.
  intros HW E E1 E2. destruct (rows_session x sid r E) as [Er Eg]. apply allowed_session; [done|]. rewrite E1, E2, <- Er, <- Eg. intros V' HV.
  by apply (same_moves _ _ _ _ _ _ _ (HW sid)).
Qed.

Lemma allowed_record x agents sid account : W x → allowed x (RecordAgentSession agents sid account (db x)).2.
Proof.
  intros HW. unfold RecordAgentSession. destruct (_ || _); [by apply allowed_same|]. case_bool_decide as Hs; [by apply allowed_same|].
  case_bool_decide; [|by apply allowed_same]. simpl. apply allowed_session; [done|]. simpl. intros V' HV. pose proof (HW sid) as HS.
  assert (sessions (db x) !! sid = None) as E by (by apply eq_None_not_Some). unfold rows, manifest in *. rewrite E in *. by apply (same_moves _ _ _ _ _ _ _ HS).
Qed.

Lemma allowed_bind x sid account : W x → allowed x (BindLifetime sid account (db x)).2.
Proof.
  intros HW. unfold BindLifetime. case_bool_decide; [by apply allowed_same|]. destruct (sessions (db x) !! sid) as [r|] eqn:E; [|by apply allowed_same].
  case_bool_decide; [|by apply allowed_same]. by eapply allowed_header.
Qed.

Lemma allowed_insert x sid e : W x → EntryJSON e ≠ [] →
  (InsertTranscriptEntry sid e (db x)).2 = db x ∨ max_seq (logs x sid) < EntrySeq e ∧ (Checkpoint e = false → nl ∉ EntryJSON e) →
  allowed x (InsertTranscriptEntry sid e (db x)).2.
Proof.
  intros HW Hj [->|[Hs Hl]]; [by apply allowed_same|]. unfold InsertTranscriptEntry. case_bool_decide; [by apply allowed_same|].
  destruct (sessions (db x) !! sid) as [r|] eqn:E; [|by apply allowed_same]. case_bool_decide; [by apply allowed_same|]. simpl.
  destruct (rows_session x sid r E) as [Er Eg]. apply allowed_session; [done|]. simpl. intros V' HV. pose proof (HW sid) as HS. rewrite Er, Eg in *.
  by apply (insert_moves _ _ _ _ _ _ _ _ HS).
Qed.

Lemma allowed_append x s0 sid lifetimeSeq checkpoint entryJSON key s : W x →
  s = (AppendTranscriptEntry s0 sid lifetimeSeq checkpoint entryJSON key (db x)).2 →
  s = db x ∨ max_seq (logs x sid) < default 0 (base_entry_seq <$> sessions s0 !! sid) + lifetimeSeq ∧ (checkpoint = false → nl ∉ entryJSON) → allowed x s.
Proof.
  intros HW -> Ho. revert Ho. unfold AppendTranscriptEntry. destruct (_ || _) eqn:E; [intros _; by apply allowed_same|].
  unfold sessionBase. destruct (sessions s0 !! sid) as [r|]; [|intros _; by apply allowed_same]. destruct (_ || bool_decide (MaxInt64 - _ < _)); [intros _; by apply allowed_same|].
  intros Ho. apply allowed_insert; [done| |done]. apply orb_false_iff in E as [[_ E%bool_decide_eq_false]%orb_false_iff _]. done.
Qed.

Lemma env_guar x x' : W x → env x x' → guar W mono (λ _ : nat, mono) None x x'.
Proof.
  intros HW H. assert (W x' ∧ mono x x') as [? ?]; [|by split_and!]. destruct H as [agents sid account|sid account|s0 sid lifetimeSeq checkpoint entryJSON key s Es _ Ho].
  - by apply allowed_record.
  - by apply allowed_bind.
  - by eapply allowed_append.
Qed.

Lemma empty_ok : W empty.
Proof.
  intros sid. assert (rows sid (db empty) = []) as -> by (unfold rows; simpl; by rewrite lookup_empty).
  assert (manifest sid (db empty) = []) as -> by (unfold manifest; simpl; by rewrite lookup_empty).
  split; simpl; try done; try constructor; try (by intros; set_solver).
Qed.

Section reachable.
Context (configured : bool) (capBytes : Z).

Lemma request_ok p x : request configured capBytes p → OK p x.
Proof. intros [sid|sid]; [by apply flushPass_ok|apply archiveSessionEnd_ok]. Qed.

Notation HINV := (@inv state nat outcome (result storeErr unit) _ _ W mono (λ _, mono) (λ _ _, True)).

Lemma reaches_inv c : reaches configured capBytes c → HINV c.
Proof. intros H. eapply reachable_ok; [..|exact H]; eauto using transcript_mono_refl, transcript_mono_trans, env_guar, request_ok, empty_ok. Qed.

Lemma reaches_W c : reaches configured capBytes c → W (shared c).
Proof. intros H. eapply inv_W, reaches_inv, H. Qed.

Lemma reaches_mono c c' : reaches configured capBytes c → rtc (step env (request configured capBytes)) c c' → W (shared c') ∧ mono (shared c) (shared c').
Proof.
  intros H Hr. assert (HINV c' ∧ mono (shared c) (shared c')) as [? ?]; [|split; [by eapply inv_W|done]].
  eapply steps_mono; [..|exact Hr]; eauto using transcript_mono_refl, transcript_mono_trans, env_guar, request_ok, reaches_inv.
Qed.

End reachable.

End TranscriptFacts.
