(* ===== verification/TranscriptResume.v ===== *)
(** The body of a resume is the log of the session from its latest checkpoint on; a lifetime
    is bound above everything the session has ever stored. *)
From stdpp Require Import base gmap list sorting strings.
From Stdlib Require Import Ascii ZArith Lia.
From S2P Require Import Prelude Text Threads Transcripts TranscriptFacts.

Module TranscriptResume.
Import Transcripts TranscriptFacts.

Open Scope Z_scope.

(** What a resumed session should start from. *)
Definition resume_log (L : list entryRow) : list entryRow := filter (λ e, cp_seq L ≤ EntrySeq e) L.

(** The answer it should get. *)
Definition resume_answer (L : list entryRow) : result code bytes :=
  match resume_log L with [] => Err NotFound | l => Ok (segment_body l) end.

(** * Lines *)

Lemma TrimRight_id s c : c ≠ nl → TrimRight (s ++ [c]) = s ++ [c].
Proof.
  intros Hc. induction s as [|d s IH]; simpl; [by rewrite bool_decide_false|]. rewrite IH. by destruct s.
Qed.

Lemma join_last ls l : join nl (ls ++ [l]) = match ls with [] => l | _ => join nl ls ++ nl :: l end.
Proof.
  induction ls as [|k ls IH]; [done|]. change ((k :: ls) ++ [l]) with (k :: (ls ++ [l])). rewrite join_cons by (by destruct ls). rewrite IH.
  destruct ls as [|k' ls]; [done|]. rewrite (join_cons nl k (k' :: ls)) by done. by rewrite <- app_assoc.
Qed.

Lemma segment_split ls : (∀ l, l ∈ ls → l ≠ [] ∧ nl ∉ l) → splitSegmentLines (join nl ls) = ls.
Proof.
  intros H. destruct ls as [|l ls] using rev_ind; [done|]. clear IHls. destruct (H l) as [Hne Hnl]; [set_solver|].
  unfold splitSegmentLines. assert (∃ s c, c ≠ nl ∧ join nl (ls ++ [l]) = s ++ [c]) as (s & c & Hc & E).
  { destruct l as [|c l] using rev_ind; [done|]. clear IHl. assert (c ≠ nl) by (intros ->; apply Hnl; set_solver). rewrite join_last.
    destruct ls as [|k ls]; [by exists l, c|]. exists (join nl (k :: ls) ++ nl :: l), c. split; [done|]. by rewrite <- app_assoc. }
  rewrite E, TrimRight_id by done. destruct (s ++ [c]) eqn:Es; [by destruct s|]. rewrite <- E. apply split_join; [by destruct ls|]. apply Forall_forall. intros; by apply H.
Qed.

(** Numbering the lines of a segment from its first number keeps their order and stays
    within the segment. *)
Definition numbered (a : Z) (l : list entryRow) : list seqLine := imap (λ i e, MkLine (a + Z.of_nat i) (EntryJSON e)) l.

Definition line_lt (a b : seqLine) : Prop := seq a < seq b.

Lemma numbered_line a l : line <$> numbered a l = EntryJSON <$> l.
Proof. unfold numbered. rewrite fmap_imap. revert a. induction l as [|e l IH]; intros a; [done|]. simpl. f_equal. apply (IH a). Qed.

Lemma numbered_bounds a l b x : StronglySorted seq_lt l → (∀ e, e ∈ l → in_range a b e) → x ∈ numbered a l → a ≤ seq x ≤ b.
Proof.
  intros Hs Hr (i & e & -> & He)%elem_of_lookup_imap. simpl. split; [lia|]. revert a i Hr He. induction Hs as [|f l _ IH Hf]; intros a i Hr He; [done|].
  destruct i as [|i]; [injection He as ->; destruct (Hr e); [left|]; lia|]. simpl in He.
  assert (a + Z.of_nat (S i) = (a + 1) + Z.of_nat i) as -> by lia. apply IH; [|done]. intros g Hg. rewrite Forall_forall in Hf. specialize (Hf g Hg). unfold seq_lt in Hf.
  destruct (Hr f); [left|]. destruct (Hr g); [by right|]. split; lia.
Qed.

Lemma numbered_sorted a l : StronglySorted line_lt (numbered a l).
Proof.
  unfold numbered. revert a. induction l as [|e l IH]; intros a; [constructor|]. simpl. constructor.
  - erewrite imap_ext; [apply (IH (a + 1))|]. intros i f _. simpl. f_equal. lia.
  - apply Forall_forall. intros x (i & f & -> & _)%elem_of_lookup_imap. unfold line_lt. simpl. lia.
Qed.

(** * Rows after a checkpoint *)

(** The rows of a resume: the checkpoint, if there is one, and all rows after it. *)
Lemma from_checkpoint l : StronglySorted seq_lt l → (∀ e, e ∈ l → 0 < EntrySeq e) →
  (∃ e, e ∈ l ∧ Checkpoint e = true ∧ EntrySeq e = cp_seq l ∧ filter (λ e, cp_seq l ≤ EntrySeq e) l = e :: filter (λ e, cp_seq l < EntrySeq e) l)
  ∨ cp_seq l = 0 ∧ filter (λ e, cp_seq l ≤ EntrySeq e) l = filter (λ e, cp_seq l < EntrySeq e) l.
Proof.
  intros Hs Hp. destruct (cp_in l) as [E|(e & He & Hc & E)]; [right|left].
  - split; [done|]. apply sorted_ext; [by apply sorted_filter..|]. intros f. rewrite !list_elem_of_filter, E.
    split; intros [? ?]; (split; [|done]); [by apply Hp|lia].
  - exists e. split_and!; [done..|]. apply sorted_ext; [by apply sorted_filter| |].
    + constructor; [by apply sorted_filter|]. apply Forall_forall. intros f [? _]%list_elem_of_filter. unfold seq_lt. lia.
    + intros f. rewrite elem_of_cons, !list_elem_of_filter. split; [|intros [->|[? ?]]; split; [lia|done|lia|done]].
      intros [Hf Hin]. destruct (decide (cp_seq l < EntrySeq f)); [by right|left]. apply (rows_seq_inj l f e); [done..|lia].
Qed.

Lemma after_checkpoint l e : e ∈ l → cp_seq l < EntrySeq e → Checkpoint e = false.
Proof. intros He Hc. destruct (Checkpoint e) eqn:E; [|done]. pose proof (cp_ge l e He E). lia. Qed.

(** * The segments of a resume *)

Definition range_before (g g' : ArchiveSegmentRow) : Prop := MaxEntrySeq g < MinEntrySeq g'.

Lemma elem_of_concat {A B} (f : A → list B) gs b : b ∈ concat (f <$> gs) ↔ ∃ g, g ∈ gs ∧ b ∈ f g.
Proof.
  induction gs as [|g gs IH]; [split; [by intros ?%elem_of_nil|by intros (? & ?%elem_of_nil & _)]|]. simpl. rewrite elem_of_app, IH.
  split; [intros [?|(h & ? & ?)]; [exists g; split; [left|done]|exists h; split; [by right|done]]|].
  intros (h & [->|?]%elem_of_cons & ?); [by left|right; eauto].
Qed.

Lemma concat_sorted {A B} (R : relation B) (f : A → list B) (P : A → A → Prop) gs :
  StronglySorted P gs → (∀ g, g ∈ gs → StronglySorted R (f g)) → (∀ g g' a b, P g g' → g ∈ gs → g' ∈ gs → a ∈ f g → b ∈ f g' → R a b) →
  StronglySorted R (concat (f <$> gs)).
Proof.
  induction 1 as [|g gs _ IH Hg]; intros Hf HP; [constructor|]. simpl. rewrite Forall_forall in Hg. apply StronglySorted_app_2.
  - intros a b Ha (k & Hk & Hb)%elem_of_concat. apply (HP g k); [by apply Hg|left|by right|done..].
  - apply Hf. left.
  - apply IH; [intros; apply Hf; by right|]. intros h h' a b ? ? ?. apply HP; [done|by right..].
Qed.

Section segments.
Context (sid : bytes) (L R : list entryRow) (G : list ArchiveSegmentRow) (V : gset (Z * Z)) (O : gmap bytes bytes).
Context (HS : session_ok sid L R G V O).

Definition read_segments : list ArchiveSegmentRow := merge_sort min_le (filter (readable R) G).
Definition segment_rows (g : ArchiveSegmentRow) : list entryRow := filter (in_range (MinEntrySeq g) (MaxEntrySeq g)) L.

Lemma read_in g : g ∈ read_segments ↔ g ∈ G ∧ readable R g.
Proof. unfold read_segments. rewrite merge_sort_Permutation, list_elem_of_filter. tauto. Qed.

(** The segments are read in the order of their ranges, which do not meet. *)
Lemma read_sorted : StronglySorted range_before read_segments.
Proof using HS.
  assert (Transitive min_le) by (intros a b c; unfold min_le; lia). assert (Total min_le) by (intros a b; unfold min_le; lia).
  assert (NoDup read_segments) as Hn.
  { unfold read_segments. rewrite merge_sort_Permutation. apply NoDup_filter. eapply NoDup_fmap_1, ok_keys, HS. }
  assert (∀ g, g ∈ read_segments → g ∈ G ∧ readable R g) as Hin by (intros; by apply read_in).
  pose proof (StronglySorted_merge_sort min_le (filter (readable R) G)) as Hs. fold read_segments in Hs.
  induction Hs as [|g gs _ IH Hg]; [constructor|]. apply NoDup_cons in Hn as [Hgn Hn]. constructor; [apply IH; [done|]; intros; apply Hin; by right|].
  rewrite Forall_forall in *. intros k Hk. destruct (Hin g) as [HgG Hgr]; [left|]. destruct (Hin k) as [HkG Hkr]; [by right|].
  specialize (Hg k Hk). unfold min_le in Hg. destruct (ok_segment _ _ _ _ _ _ HS g HgG), (ok_segment _ _ _ _ _ _ HS k HkG).
  destruct (ok_apart _ _ _ _ _ _ HS g k) as [?|?]; [done..|by intros ->|done|lia].
Qed.

Lemma segment_lines_rows g : g ∈ read_segments → segment_lines g (segment_body (segment_rows g)) = numbered (MinEntrySeq g) (segment_rows g).
Proof using HS.
  intros [Hg [_ Hc]]%read_in. unfold segment_lines, segment_body, numbered. rewrite segment_split, imap_fmap; [done|].
  intros l (e & -> & [[? ?] He]%list_elem_of_filter)%list_elem_of_fmap. destruct (ok_line _ _ _ _ _ _ HS e He) as [? Hnl]. split; [done|].
  apply Hnl, (after_checkpoint L); [done|]. rewrite (ok_cp _ _ _ _ _ _ HS) in Hc. lia.
Qed.

(** The fetch of the segments is all of their lines, or the error of a read. *)
Lemma fetch_segments get : (∀ a b, (a, b) ∈ V → (∃ e, get (segmentKey sid a b) = Err e) ∨ Ok <$> O !! segmentKey sid a b = Some (get (segmentKey sid a b))) →
  fetch get read_segments = Ok (concat ((λ g, numbered (MinEntrySeq g) (segment_rows g)) <$> read_segments))
  ∨ ∃ key e, get key = Err e ∧ fetch get read_segments = Err e.
Proof using HS.
  intros Hget. assert (∀ g, g ∈ read_segments → g ∈ read_segments) as Hin by done. revert Hin. generalize read_segments at 1 3 4 5.
  intros gs. induction gs as [|g gs IH]; intros Hin; [by left|]. rewrite fmap_cons. cbn [fetch concat]. assert (g ∈ read_segments) as Hg by (apply Hin; left). pose proof Hg as [HG Hr]%read_in.
  destruct (ok_segment _ _ _ _ _ _ HS g HG) as (_ & _ & ->). pose proof (ok_readable _ _ _ _ _ _ HS g HG Hr) as HV.
  destruct (Hget _ _ HV) as [[e He]|He]; [right; exists (segmentKey sid (MinEntrySeq g) (MaxEntrySeq g)), e; by rewrite He|].
  destruct (ok_valve _ _ _ _ _ _ HS _ _ HV) as (_ & _ & EO & _). rewrite EO in He. injection He as <-. simpl.
  destruct IH as [->|(key & e & He & ->)]; [intros; apply Hin; by right| |right; by exists key, e]. left. simpl. by rewrite segment_lines_rows.
Qed.

(** The rows after the checkpoint are those of the segments and then those of the table. *)
Notation later l := (filter (λ e, cp_seq l < EntrySeq e) l).

Lemma segment_rows_in g e : g ∈ read_segments → e ∈ segment_rows g → e ∈ L ∧ in_range (MinEntrySeq g) (MaxEntrySeq g) e ∧ cp_seq L < EntrySeq e.
Proof using HS.
  intros [_ [_ Hc]]%read_in [[? ?] He]%list_elem_of_filter. rewrite (ok_cp _ _ _ _ _ _ HS) in Hc. split_and!; [done..|lia].
Qed.

Lemma segment_rows_below g r : g ∈ read_segments → r ∈ later R → MaxEntrySeq g < EntrySeq r.
Proof using HS.
  intros [HG Hr]%read_in [Hc Hin]%list_elem_of_filter. apply (ok_below _ _ _ _ _ _ HS g r); [done..|]. by rewrite <- (ok_cp _ _ _ _ _ _ HS).
Qed.

Lemma rows_split : (∀ g, g ∈ G → Kind g = SegmentKindSessionEnd → MinEntrySeq g ≤ cp_seq L) → concat (segment_rows <$> read_segments) ++ later R = later L.
Proof using HS.
  intros Hend. apply sorted_ext; [| |].
  - apply StronglySorted_app_2; [|apply (concat_sorted _ _ range_before); [apply read_sorted| |]|].
    + intros a r (g & Hg & Ha)%elem_of_concat Hr. destruct (segment_rows_in g a Hg Ha) as (_ & [_ ?] & _).
      pose proof (segment_rows_below g r Hg Hr). unfold seq_lt. lia.
    + intros g _. apply sorted_filter, HS.
    + intros g g' a b Hlt Hg Hg' Ha Hb. destruct (segment_rows_in g a Hg Ha) as (_ & [_ ?] & _), (segment_rows_in g' b Hg' Hb) as (_ & [? _] & _).
      unfold seq_lt, range_before in *. lia.
    + apply sorted_filter, HS.
  - apply sorted_filter, HS.
  - intros e. rewrite elem_of_app, !list_elem_of_filter, elem_of_concat, (ok_cp _ _ _ _ _ _ HS). split.
    + intros [(g & Hg & He)|[? He]]; [by destruct (segment_rows_in g e Hg He) as (? & _ & ?)|]. split; [done|]. by eapply ok_sub.
    + intros [Hc He]. destruct (ok_cover _ _ _ _ _ _ HS e He Hc) as [?|(g & Hg & Hm & Hr & [Hk|Hk])]; [by right| |specialize (Hend g Hg Hk); lia].
      left. exists g. split; [|by apply list_elem_of_filter]. apply read_in. split; [done|]. split; [done|]. by rewrite (ok_cp _ _ _ _ _ _ HS).
Qed.

(** Merged by their numbers, the numbered lines of the segments come before the rows. *)
Lemma merged_lines : merge_sort line_le ((line_of <$> later R) ++ concat ((λ g, numbered (MinEntrySeq g) (segment_rows g)) <$> read_segments))
  = concat ((λ g, numbered (MinEntrySeq g) (segment_rows g)) <$> read_segments) ++ (line_of <$> later R).
Proof using HS.
  apply (merge_sort_by seq); [done| |by rewrite Permutation_app_comm].
  assert (∀ g x, x ∈ numbered (MinEntrySeq g) (segment_rows g) → MinEntrySeq g ≤ seq x ≤ MaxEntrySeq g) as Hb.
  { intros g x. apply numbered_bounds; [apply sorted_filter, HS|]. by intros e [? _]%list_elem_of_filter. }
  apply StronglySorted_app_2; [|apply (concat_sorted _ _ range_before); [apply read_sorted| |]|].
  - intros a b (g & Hg & Ha%Hb)%elem_of_concat (r & -> & Hr)%list_elem_of_fmap. pose proof (segment_rows_below g r Hg Hr). simpl. lia.
  - intros g _. apply numbered_sorted.
  - intros g g' a b Hlt _ _ Ha%Hb Hc%Hb. unfold range_before in Hlt. lia.
  - assert (StronglySorted seq_lt (later R)) as Hs by apply sorted_filter, HS. clear Hb. induction Hs as [|e l _ IH Hf]; [constructor|]. simpl.
    constructor; [done|]. rewrite Forall_forall in Hf. apply Forall_forall. intros x (f & -> & Hx%Hf)%list_elem_of_fmap. exact Hx.
Qed.

Lemma concat_lines {A} (f : A → list entryRow) (m : A → Z) gs : line <$> concat ((λ g, numbered (m g) (f g)) <$> gs) = EntryJSON <$> concat (f <$> gs).
Proof. induction gs as [|g gs IH]; [done|]. rewrite !fmap_cons. cbn [concat]. by rewrite !fmap_app, numbered_line, IH. Qed.

Lemma resume_lines : (∀ g, g ∈ G → Kind g = SegmentKindSessionEnd → MinEntrySeq g ≤ cp_seq L) →
  line <$> merge_sort line_le ((line_of <$> later R) ++ concat ((λ g, numbered (MinEntrySeq g) (segment_rows g)) <$> read_segments)) = EntryJSON <$> later L.
Proof using HS.
  intros Hend. rewrite merged_lines, fmap_app, concat_lines, <- rows_split by done. rewrite fmap_app. f_equal. by rewrite <- list_fmap_compose.
Qed.

End segments.

(** The first row of a resume is the checkpoint, if there is one. *)
Definition split_head (tail : list entryRow) : list bytes * list entryRow :=
  match tail with e :: tail' => if Checkpoint e then ([EntryJSON e], tail') else ([], tail) | [] => ([], []) end.

Lemma split_head_log sid L R G V O : session_ok sid L R G V O → ∃ hd,
  split_head (filter (λ e, cp_seq R ≤ EntrySeq e) R) = (hd, filter (λ e, cp_seq R < EntrySeq e) R)
  ∧ EntryJSON <$> resume_log L = hd ++ (EntryJSON <$> filter (λ e, cp_seq L < EntrySeq e) L).
Proof.
  intros HS. unfold resume_log. destruct (from_checkpoint R) as [(e & He & Hc & Es & ->)|[E0 ->]]; [apply HS|intros; by eapply ok_pos, ok_sub| |].
  - exists [EntryJSON e]. simpl. rewrite Hc. split; [done|]. pose proof (ok_cp _ _ _ _ _ _ HS) as E. pose proof (ok_sub _ _ _ _ _ _ HS e He) as HeL.
    pose proof (ok_pos _ _ _ _ _ _ HS e HeL).
    destruct (from_checkpoint L) as [(f & Hf & _ & Fs & ->)|[? _]]; [apply HS|apply HS| |lia].
    assert (f = e) as -> by (apply (rows_seq_inj L); [apply HS|done..|lia]). done.
  - exists []. split.
    + destruct (filter _ R) as [|e l] eqn:E; [done|]. simpl. rewrite (after_checkpoint R e); [done| |].
      * apply (list_elem_of_filter (λ e, cp_seq R < EntrySeq e)). rewrite E. left.
      * apply (list_elem_of_filter (λ e, cp_seq R < EntrySeq e) R). rewrite E. left.
    + destruct (from_checkpoint L) as [(f & Hf & _ & Fs & _)|[_ ->]]; [apply HS|apply HS| |done].
      pose proof (ok_pos _ _ _ _ _ _ HS f Hf). pose proof (ok_cp _ _ _ _ _ _ HS). lia.
Qed.

Lemma resume_none sid L R G V O : session_ok sid L R G V O → filter (λ e, cp_seq R ≤ EntrySeq e) R = [] ↔ resume_log L = [].
Proof.
  intros HS. assert (∀ l, (∀ e, e ∈ l → 0 < EntrySeq e) → filter (λ e, cp_seq l ≤ EntrySeq e) l = [] ↔ max_seq l = 0) as H.
  { intros l Hp. split.
    - intros E. destruct (max_seq_in l) as [?|(e & He & Em)]; [done|]. assert (e ∈ filter (λ e, cp_seq l ≤ EntrySeq e) l) as Hin; [|rewrite E in Hin; by apply elem_of_nil in Hin].
      apply list_elem_of_filter. split; [|done]. rewrite Em. apply cp_le.
    - intros E. destruct l as [|e l]; [done|]. pose proof (max_seq_ge (e :: l) e). specialize (Hp e). assert (e ∈ e :: l) by left. intuition lia. }
  unfold resume_log. rewrite (H R), (H L), (ok_max _ _ _ _ _ _ HS); [done|apply HS|]. intros; by eapply ok_pos, ok_sub.
Qed.

Lemma resume_body sid L R G V O get : session_ok sid L R G V O →
  (∀ g, g ∈ G → Kind g = SegmentKindSessionEnd → MinEntrySeq g ≤ cp_seq L) →
  (∀ a b, (a, b) ∈ V → (∃ e, get (segmentKey sid a b) = Err e) ∨ Ok <$> O !! segmentKey sid a b = Some (get (segmentKey sid a b))) → resume_log L ≠ [] →
  let body := ReconstructSessionBody true (Ok (filter (λ e, cp_seq R ≤ EntrySeq e) R, read_segments R G)) get in
  body = Ok (segment_body (resume_log L)) ∨ ∃ key e, get key = Err e ∧ body = Err (reconstructReadError e).
Proof.
  intros HS Hend Hget Hne. destruct (split_head_log _ _ _ _ _ _ HS) as (hd & Eh & El). unfold ReconstructSessionBody. cbn [negb].
  change (match filter _ R with e :: tail' => _ | [] => _ end) with (split_head (filter (λ e, cp_seq R ≤ EntrySeq e) R)). rewrite Eh.
  destruct (fetch_segments sid L R G V O HS get Hget) as [->|(key & e & He & ->)]; [left|right; by exists key, e].
  by rewrite (resume_lines sid L R G V O HS Hend), <- El.
Qed.

Section theorems.
Context (configured : bool) (capBytes : Z).

Notation reaches := (reaches configured capBytes).
Notation steps := (rtc (step env (request configured capBytes))).

(** C2. What a resumed session starts from is its log from the latest checkpoint on: every
    row ever stored, in order and once, however much of it flushes have moved to the archive
    and however they met, failed, died or lost their answers; the segments may be fetched
    one by one and at any later time.  A fetch that fails is an error and never a shorter
    body; a session with no rows is not found.  Two conditions: the session has no session_end
    segment that starts after its latest checkpoint (it was not archived at an end before it
    had one; [session_end_hides_valve] is a run without this), and an agent stamps its
    entries in order and sends one after the other, each but a checkpoint one line
    ([env_append]). *)
Theorem resume_is_log c sid get :
  reaches c → sid ≠ [] →
  (∀ g, g ∈ manifest sid (db (shared c)) → Kind g = SegmentKindSessionEnd → MinEntrySeq g ≤ cp_seq (rows sid (db (shared c)))) →
  (∀ key, (∃ e, get key = Err e) ∨ ∃ c', steps c c' ∧ get key = ReadArchiveSegment true key (db (shared c'))) →
  let body := ReconstructSessionBody true (SessionResumeSnapshot sid (db (shared c))) get in
  body = resume_answer (logs (shared c) sid) ∨ ∃ key e, get key = Err e ∧ body = Err (reconstructReadError e).
Proof.
  intros Hc Hsid Hend Hget. set (x := shared c) in *. pose proof (reaches_W _ _ c Hc sid) as HS. fold x in HS.
  assert (SessionTranscript sid (db x) = filter (λ e, cp_seq (rows sid (db x)) ≤ EntrySeq e) (rows sid (db x))) as ET by apply merge_sorted, sorted_filter, HS.
  unfold SessionResumeSnapshot, resume_answer. cbv zeta. rewrite bool_decide_false, ET by done. pose proof (resume_none _ _ _ _ _ _ HS) as Hn.
  destruct (resume_log (logs x sid)) as [|f l] eqn:El; [left; rewrite (proj2 Hn); done|]. rewrite <- El.
  replace (match filter _ (rows sid (db x)) with [] => Err ErrNotFound | _ => _ end)
    with (@Ok storeErr (list entryRow * list ArchiveSegmentRow) (filter (λ e, cp_seq (rows sid (db x)) ≤ EntrySeq e) (rows sid (db x)), SafetyValveSegments sid (db x)))
    by (destruct (filter _ (rows sid (db x))); [by specialize (proj1 Hn eq_refl)|done]).
  apply (resume_body sid _ _ _ (valves x sid) (objects (db x)) get HS); [|intros a b Hab|by rewrite El].
  - rewrite <- (ok_cp _ _ _ _ _ _ HS). exact Hend.
  - destruct (Hget (segmentKey sid a b)) as [?|(c' & Hc' & ->)]; [by left|]. destruct (reaches_mono _ _ c c' Hc Hc') as [_ Hm]. destruct (gr_keep _ _ _ _ _ _ _ _ _ (Hm sid) a b Hab) as [_ EO].
    right. fold x in EO. unfold ReadArchiveSegment, GetSegment. rewrite EO, bool_decide_false by done. destruct (ok_valve _ _ _ _ _ _ HS a b Hab) as (_ & _ & -> & _). done.
Qed.

(** C6. A lifetime is bound above everything its session has ever stored, the rows that are
    only in the archive included: whatever it appends comes after all of it. *)
Theorem bind_above_all c sid account base s :
  reaches c → BindLifetime sid account (db (shared c)) = (Ok base, s) →
  sessionBase sid s = Ok base ∧ base = max_seq (logs (shared c) sid) ∧ (∀ e, e ∈ logs (shared c) sid → EntrySeq e ≤ base) ∧ rows sid s = rows sid (db (shared c)).
Proof.
  intros Hc. pose proof (reaches_W _ _ c Hc sid) as HS. unfold BindLifetime. case_bool_decide; [done|].
  destruct (sessions (db (shared c)) !! sid) as [r|] eqn:E; [|done]. case_bool_decide; [|done]. intros [= <- <-].
  pose proof (ok_max _ _ _ _ _ _ HS) as Em. unfold rows in *. rewrite E in *. unfold sessionBase. simpl. rewrite lookup_insert_eq. simpl.
  split_and!; [done|done| |done]. intros e He. rewrite Em. by apply max_seq_ge.
Qed.

End theorems.

(** * Runs *)

(** A schedule of a session: what the outside does, or nothing if it may not. *)
Definition records (sid : bytes) : state → state := λ x, observe x (RecordAgentSession {["a"%string]} sid "a" (db x)).2.
Definition binds (sid : bytes) : state → state := λ x, observe x (BindLifetime sid "a" (db x)).2.
Definition appends (sid : bytes) (n : Z) (checkpoint : bool) (entryJSON : bytes) : state → state := λ x,
  if bool_decide (0 ≤ n ∧ max_seq (logs x sid) < default 0 (base_entry_seq <$> sessions (db x) !! sid) + n ∧ nl ∉ entryJSON)
  then observe x (AppendTranscriptEntry (db x) sid n checkpoint entryJSON entryJSON (db x)).2
  else binds [] x.

Lemma appends_env sid n checkpoint entryJSON x : env x (appends sid n checkpoint entryJSON x).
Proof.
  unfold appends. case_bool_decide as H; [|apply env_bind]. destruct H as (? & ? & ?).
  apply (env_append x (db x) sid n checkpoint entryJSON entryJSON); [done|done|by right].
Qed.

Notation acts t os := ((λ o, Act t o 0%nat) <$> os).

(** The cap is three bytes: of a checkpoint and two rows, the first row goes to the archive. *)
Definition valve_run : list (@move state nat outcome (result storeErr unit)) :=
  [World (records (lit "s")); World (appends (lit "s") 1 true (lit "c")); World (appends (lit "s") 2 false (lit "ab"));
   World (appends (lit "s") 3 false (lit "de")); Call 0%nat (flushPass true 3 (lit "s") Ret)] ++ acts 0%nat (replicate 30 Succeeds).

Definition valve_end : @config state nat outcome (result storeErr unit) _ _ := play_all valve_run empty.

Ltac runs := apply play_all_reachable;
  repeat (apply List.Forall_cons; [first [done|intros ?; apply env_record|intros ?; apply env_bind|intros ?; apply appends_env|apply request_pass|apply request_end]|]);
  apply List.Forall_nil.

Lemma valve_reached : reaches true 3 valve_end.
Proof. runs. Qed.

Lemma valve_no_end g : g ∈ manifest (lit "s") (db (shared valve_end)) → Kind g = SegmentKindSessionEnd → MinEntrySeq g ≤ cp_seq (rows (lit "s") (db (shared valve_end))).
Proof.
  assert (manifest (lit "s") (db (shared valve_end)) = [MkSegment (segmentKey (lit "s") 2 2) 2 2 SegmentKindSafetyValve]) as -> by by vm_compute.
  intros ->%list_elem_of_singleton Hk. exfalso. discriminate Hk.
Qed.

Lemma resume_is_log_witness :
  (EntrySeq <$> rows (lit "s") (db (shared valve_end))) = [1; 3]
  ∧ let get key := ReadArchiveSegment true key (db (shared valve_end)) in
    let body := ReconstructSessionBody true (SessionResumeSnapshot (lit "s") (db (shared valve_end))) get in
    body = resume_answer (logs (shared valve_end) (lit "s")) ∨ ∃ key e, get key = Err e ∧ body = Err (reconstructReadError e).
Proof.
  split; [by vm_compute|]. apply (resume_is_log true 3 valve_end); [apply valve_reached|done|apply valve_no_end|].
  intros key. right. by exists valve_end.
Defined.

Lemma bind_above_all_witness : ∃ s, BindLifetime (lit "s") "a" (db (shared valve_end)) = (Ok 3, s) ∧ 3 = max_seq (logs (shared valve_end) (lit "s")).
Proof.
  exists (BindLifetime (lit "s") "a" (db (shared valve_end))).2. assert (BindLifetime (lit "s") "a" (db (shared valve_end)) = (Ok 3, (BindLifetime (lit "s") "a" (db (shared valve_end))).2)) as E by by vm_compute.
  split; [exact E|]. eapply (bind_above_all true 3 valve_end); [apply valve_reached|exact E].
Defined.

(** A session that is archived at an end before it ever had a checkpoint: the valve may
    later take just the rows that its segment holds.  The object is then the same one, the
    manifest keeps the row of the end, which no resume reads, and the rows are pruned: the
    resumed session has lost them. *)
Definition end_run : list (@move state nat outcome (result storeErr unit)) :=
  [World (records (lit "s")); World (appends (lit "s") 1 false (lit "ab")); World (appends (lit "s") 2 false (lit "cd"));
   Call 0%nat (archiveSessionEnd true (lit "s"))] ++ acts 0%nat (replicate 30 Succeeds)
  ++ [World (binds (lit "s")); World (appends (lit "s") 1 false (lit "ef")); Call 1%nat (flushPass true 3 (lit "s") Ret)] ++ acts 1%nat (replicate 30 Succeeds).

Lemma session_end_hides_valve : ∃ c,
  reaches true 3 c ∧ threads c !! 0%nat = Some (Ret (Ok tt)) ∧ threads c !! 1%nat = Some (Ret (Ok tt))
  ∧ (EntryJSON <$> resume_log (logs (shared c) (lit "s"))) = [lit "ab"; lit "cd"; lit "ef"]
  ∧ ReconstructSessionBody true (SessionResumeSnapshot (lit "s") (db (shared c))) (λ key, ReadArchiveSegment true key (db (shared c))) = Ok (lit "ef").
Proof. exists (play_all end_run empty). split; [runs|]. split_and!; by vm_compute. Qed.

End TranscriptResume.
