(* ===== verification/TranscriptFlusher.v ===== *)
(** The worker that runs transcript flushes off the commit path
    ([src/go/internal/store/transcript_flusher.go]): slots, the wake channel, the loop and
    the goroutine of each slot, as operations on its state, a critical section or a channel
    operation each.

    A slot is an object, for [FlushTranscript] waits on one that may have left the map.  What
    a pass does is [Transcripts.flushPass]; here it is its start and its result. *)
From stdpp Require Import base gmap list relations strings.
From Stdlib Require Import Lia.
From S2P Require Import Prelude Text Transcripts.

Module TranscriptFlusher.
Export Transcripts.

Open Scope nat_scope.

Section flusher.
(** The error of a cancelled context. *)
Context {E : Type} (Canceled : E).

(** A slot waits for the loop ([running] is false), its goroutine for the semaphore, then
    runs a pass, then has its result; at the end the slot is out of the map. *)
Inductive slotPhase := Owed | Acquiring | Flushing | Finished (e : option E) | Gone.

(** [seen]: how many requests for the session were made before its last pass began. *)
Record flushSlot := MkSlot { session : bytes; phase : slotPhase; again : bool; err : option E; idle : bool; seen : nat }.

Definition running (sl : flushSlot) : bool := match phase sl with Owed => false | _ => true end.

(** Its goroutine has not returned: what the wait group counts. *)
Definition live (sl : flushSlot) : bool := match phase sl with Owed | Gone => false | _ => true end.

Inductive flushLoop := Waiting | Woken | Joining | Stopped.

(** [sending] callers are about to wake the loop.  [requested] counts the requests of each
    session and [tickets] holds, for each request, its session, its slot and its number. *)
Record transcriptFlusher := MkFlusher {
  pool : list flushSlot; slots : gmap bytes nat; wake : bool; sem : nat; loop : flushLoop; stop : bool; sending : nat;
  requested : gmap bytes nat; tickets : list (bytes * nat * nat);
}.

Definition maxConcurrentFlushes : nat := 4.

Definition newTranscriptFlusher : transcriptFlusher := MkFlusher [] ∅ false 0 Waiting false 0 ∅ [].

Definition set_phase (p : slotPhase) (sl : flushSlot) : flushSlot := MkSlot (session sl) p (again sl) (err sl) (idle sl) (seen sl).
Definition set_pool (l : list flushSlot) (s : transcriptFlusher) : transcriptFlusher :=
  MkFlusher l (slots s) (wake s) (sem s) (loop s) (stop s) (sending s) (requested s) (tickets s).
Definition set_worker (w : bool) (p : flushLoop) (s : transcriptFlusher) : transcriptFlusher :=
  MkFlusher (pool s) (slots s) w (sem s) p (stop s) (sending s) (requested s) (tickets s).

(** The locked part of [requestFlush], with the slot it returns; the wake comes after. *)
Definition requestFlush (sid : bytes) (s : transcriptFlusher) : nat * transcriptFlusher :=
  let n := S (default 0 (requested s !! sid)) in
  let '(i, l, m) :=
    match slots s !! sid with
    | None => (length (pool s), pool s ++ [MkSlot sid Owed false None false 0], <[sid := length (pool s)]> (slots s))
    | Some i => (i, alter (λ sl, if running sl then MkSlot (session sl) (phase sl) true (err sl) (idle sl) (seen sl) else sl) i (pool s), slots s)
    end in
  (i, MkFlusher l m (wake s) (sem s) (loop s) (stop s) (S (sending s)) (<[sid := n]> (requested s)) ((sid, i, n) :: tickets s)).

(** The wake: dropped when one is pending. *)
Definition sendWake (s : transcriptFlusher) : transcriptFlusher :=
  MkFlusher (pool s) (slots s) true (sem s) (loop s) (stop s) (pred (sending s)) (requested s) (tickets s).

(** The locked part of the loop: every slot of the map that is not running is started. *)
Definition sweepSlots (s : transcriptFlusher) : transcriptFlusher :=
  set_worker (wake s) Waiting (set_pool (imap (λ i sl, if bool_decide (slots s !! session sl = Some i) && negb (running sl) then set_phase Acquiring sl else sl) (pool s)) s).

(** A pass begins with the semaphore taken, or not at all when the flusher is stopped. *)
Definition acquire (i : nat) (sl : flushSlot) (s : transcriptFlusher) : transcriptFlusher :=
  MkFlusher (<[i := MkSlot (session sl) Flushing (again sl) (err sl) (idle sl) (default 0 (requested s !! session sl))]> (pool s))
    (slots s) (wake s) (S (sem s)) (loop s) (stop s) (sending s) (requested s) (tickets s).
Definition finishPass (i : nat) (sl : flushSlot) (e : option E) (s : transcriptFlusher) : transcriptFlusher :=
  MkFlusher (<[i := set_phase (Finished e) sl]> (pool s)) (slots s) (wake s) (pred (sem s)) (loop s) (stop s) (sending s) (requested s) (tickets s).

(** The locked part of [runSlot]. *)
Definition settleSlot (i : nat) (sl : flushSlot) (e : option E) (s : transcriptFlusher) : transcriptFlusher :=
  if again sl && negb (stop s)
  then set_pool (<[i := MkSlot (session sl) Acquiring false e (idle sl) (seen sl)]> (pool s)) s
  else MkFlusher (<[i := MkSlot (session sl) Gone (again sl) e true (seen sl)]> (pool s)) (delete (session sl) (slots s))
         (wake s) (sem s) (loop s) (stop s) (sending s) (requested s) (tickets s).

Definition closeStop (s : transcriptFlusher) : transcriptFlusher :=
  MkFlusher (pool s) (slots s) (wake s) (sem s) (loop s) true (sending s) (requested s) (tickets s).

(** What [FlushTranscript] may return once it has got slot [i]; nothing while it waits. *)
Inductive flushAnswer := Answered (e : option E) | errFlusherStopped.

Definition FlushTranscript (i : nat) (s : transcriptFlusher) : list flushAnswer :=
  match pool s !! i with
  | Some sl => (if idle sl then [Answered (err sl)] else []) ++ (match loop s with Stopped => [errFlusherStopped] | _ => [] end)
  | None => []
  end.

(** * The system *)

(** The steps of the callers, of the loop and of the slots' goroutines. *)
Inductive worker (s : transcriptFlusher) : transcriptFlusher → Prop :=
| work_send : 0 < sending s → worker s (sendWake s)
| work_receive : loop s = Waiting → wake s = true → worker s (set_worker false Woken s)
| work_sweep : loop s = Woken → worker s (sweepSlots s)
| work_done : loop s = Waiting → stop s = true → worker s (set_worker (wake s) Joining s)
| work_join : loop s = Joining → Forall (λ sl, live sl = false) (pool s) → worker s (set_worker (wake s) Stopped s)
| work_acquire i sl : pool s !! i = Some sl → phase sl = Acquiring → sem s < maxConcurrentFlushes → worker s (acquire i sl s)
| work_cancel i sl : pool s !! i = Some sl → phase sl = Acquiring → stop s = true →
    worker s (set_pool (<[i := set_phase (Finished (Some Canceled)) sl]> (pool s)) s)
| work_finish i sl e : pool s !! i = Some sl → phase sl = Flushing → worker s (finishPass i sl e s)
| work_settle i sl e : pool s !! i = Some sl → phase sl = Finished e → worker s (settleSlot i sl e s).

Inductive step (s : transcriptFlusher) : transcriptFlusher → Prop :=
| step_request sid : step s (requestFlush sid s).2
| step_close : step s (closeStop s)
| step_worker s' : worker s s' → step s s'.

Definition reachable (s : transcriptFlusher) : Prop := rtc step newTranscriptFlusher s.

(** * The steps of the worker end *)

Lemma sum_with_insert {A} (f : A → nat) l i x y : l !! i = Some x → sum_list_with f (<[i := y]> l) + f x = sum_list_with f l + f y.
Proof. intros H. rewrite <- (take_drop_middle l i x H) at 2. rewrite insert_take_drop by (by eapply lookup_lt_Some). rewrite !sum_list_with_app. simpl. lia. Qed.

Lemma sum_alter {A} (f : A → nat) (g : A → A) l i : (∀ x, f (g x) = f x) → sum_list_with f (alter g i l) = sum_list_with f l.
Proof. intros H. revert i. induction l as [|x l IH]; intros [|i]; simpl; [done..|by rewrite H|]. f_equal. apply IH. Qed.

Lemma sum_imap_le {A} (f : A → nat) (g : nat → A → A) l : (∀ i x, f (g i x) ≤ f x) → sum_list_with f (imap g l) ≤ sum_list_with f l.
Proof. revert g. induction l as [|x l IH]; intros g H; simpl; [done|]. pose proof (H 0 x). specialize (IH (g ∘ S)). assert (sum_list_with f (imap (g ∘ S) l) ≤ sum_list_with f l) by (apply IH; intros; apply H). lia. Qed.

Definition weight (sl : flushSlot) : nat :=
  match phase sl with Owed => 9 | Acquiring => 4 | Flushing => 3 | Finished _ => 2 | Gone => 0 end + (if again sl then 5 else 0).

Definition measure (s : transcriptFlusher) : nat :=
  3 * sending s + (if wake s then 2 else 0) + match loop s with Waiting => 2 | Woken => 3 | Joining => 1 | Stopped => 0 end + sum_list_with weight (pool s).

(** A slot changes its place: its weight and that of its new state. *)
Ltac weighed :=
  match goal with Hi : pool ?s !! ?i = Some ?sl, Hp : phase ?sl = _ |- context [<[?i := ?y]> (pool ?s)] =>
    pose proof (sum_with_insert weight (pool s) i sl y Hi) as Hsum; unfold weight in Hsum at 2 4; rewrite Hp in Hsum; simpl in Hsum
  end; try match goal with Ha : again _ = true |- _ => rewrite Ha in * end; lia.

Lemma worker_measure s s' : worker s s' → measure s' < measure s.
Proof.
  unfold measure. intros [Hs|Hl Hw|Hl|Hl Hs|Hl _|i sl Hi Hp Hm|i sl Hi Hp Hs|i sl e Hi Hp|i sl e Hi Hp]; simpl.
  - destruct (wake s); lia.
  - rewrite Hl, Hw. lia.
  - rewrite Hl. assert (∀ g, (∀ i x, weight (g i x) ≤ weight x) → sum_list_with weight (imap g (pool s)) ≤ sum_list_with weight (pool s)) as H by (intros; by apply sum_imap_le).
    eapply Nat.le_lt_trans; [apply Nat.add_le_mono_l, H|lia]. intros i x. destruct (_ && _) eqn:Eb; [|done]. apply andb_true_iff in Eb as [_ Eb]. unfold running in Eb. unfold weight. simpl. destruct (phase x), (again x); simpl in *; try done; lia.
  - rewrite Hl. lia.
  - rewrite Hl. lia.
  - weighed.
  - weighed.
  - weighed.
  - unfold settleSlot. destruct (again sl && negb (stop s)) eqn:Eb; simpl.
    + apply andb_true_iff in Eb as [Eb _]. weighed.
    + weighed.
Qed.

Lemma worker_ends s : sn worker s.
Proof. revert s. apply (wf_projected lt measure); [|apply lt_wf]. intros x y. apply worker_measure. Qed.

(** * What always holds *)

Definition flying (sl : flushSlot) : nat := match phase sl with Flushing => 1 | _ => 0 end.

Definition asked (s : transcriptFlusher) (sl : flushSlot) : nat := default 0 (requested s !! session sl).

Record slot_ok (s : transcriptFlusher) (i : nat) (sl : flushSlot) : Prop := {
  so_gone : phase sl = Gone → idle sl = true;
  so_there : phase sl ≠ Gone → idle sl = false ∧ slots s !! session sl = Some i;
  so_owed : phase sl = Owed → 0 < sending s ∨ wake s = true ∨ loop s = Woken ∨ stop s = true;
  so_seen : (phase sl = Flushing ∨ ∃ e, phase sl = Finished e) → again sl = true ∨ stop s = true ∨ asked s sl = seen sl;
  so_stopped : loop s = Stopped → live sl = false;
}.

Record flusher_ok (s : transcriptFlusher) : Prop := {
  fo_slots sid i : slots s !! sid = Some i → ∃ sl, pool s !! i = Some sl ∧ session sl = sid ∧ phase sl ≠ Gone;
  fo_pool i sl : pool s !! i = Some sl → slot_ok s i sl;
  fo_tickets sid i n : (sid, i, n) ∈ tickets s → ∃ sl, pool s !! i = Some sl ∧ session sl = sid ∧ n ≤ asked s sl ∧ (phase sl = Gone → stop s = true ∨ n ≤ seen sl);
  fo_sem : sem s = sum_list_with flying (pool s) ∧ sem s ≤ maxConcurrentFlushes;
  fo_loop : loop s = Joining ∨ loop s = Stopped → stop s = true;
}.

Lemma start_ok : flusher_ok newTranscriptFlusher.
Proof.
  split; simpl; [by intros ? ? ?%lookup_empty_Some|intros ? ? H; by rewrite lookup_nil in H| |split; [done|unfold maxConcurrentFlushes; lia]|by intros [?|?]].
  by intros ? ? ? ?%elem_of_nil.
Qed.

(** Only the wake, the loop, the callers or the stop change. *)
Lemma signal_ok s w p c st :
  flusher_ok s → let s' := MkFlusher (pool s) (slots s) w (sem s) p st c (requested s) (tickets s) in
  (∀ i sl, pool s !! i = Some sl → phase sl = Owed → 0 < c ∨ w = true ∨ p = Woken ∨ st = true) → (stop s = true → st = true) →
  (p = Joining ∨ p = Stopped → st = true) → (p = Stopped → Forall (λ sl, live sl = false) (pool s)) → flusher_ok s'.
Proof.
  intros [Hs Hp Ht Hm Hl] s' Ho Hst Hj Hlive. split; simpl; [done| | |done|done].
  - intros i sl Hi. destruct (Hp i sl Hi). split; simpl; [done|done|by intros; eapply Ho|unfold asked; simpl; naive_solver|].
    intros ->. specialize (Hlive eq_refl). rewrite Forall_lookup in Hlive. by eapply Hlive.
  - intros sid i n Hin. destruct (Ht sid i n Hin) as (sl & ? & ? & ? & Hg). exists sl. split_and!; [done..|]. intros Hgone. destruct (Hg Hgone); auto.
Qed.

(** One slot goes on, in the map before and after. *)
Lemma slot_moves s i sl sl' k :
  flusher_ok s → pool s !! i = Some sl → phase sl ≠ Gone → let s' := MkFlusher (<[i := sl']> (pool s)) (slots s) (wake s) k (loop s) (stop s) (sending s) (requested s) (tickets s) in
  session sl' = session sl → idle sl' = idle sl → phase sl' ≠ Gone → phase sl' ≠ Owed →
  ((phase sl' = Flushing ∨ ∃ e, phase sl' = Finished e) → again sl' = true ∨ stop s = true ∨ asked s sl' = seen sl') →
  live sl = true → k + flying sl = sem s + flying sl' → k ≤ maxConcurrentFlushes → flusher_ok s'.
Proof.
  intros [Hs Hp Ht [Hm Hm'] Hl] Hi Hng s' E1 E2 Hg Ho Hseen Hlive Hk Hk'. pose proof (Hp i sl Hi) as [Hi1 Hi2 Hi3 Hi4 Hi5].
  assert (∀ j x, <[i := sl']> (pool s) !! j = Some x → j = i ∧ x = sl' ∨ j ≠ i ∧ pool s !! j = Some x) as Hj by (by intros ? ? [(-> & -> & _)|]%list_lookup_insert_Some; [left|right; naive_solver]).
  assert (<[i := sl']> (pool s) !! i = Some sl') as Hii by (apply list_lookup_insert_eq; by eapply lookup_lt_Some).
  split; simpl; [| | | |done].
  - intros sid j Hj'. destruct (Hs sid j Hj') as (x & Hx & <- & Hx'). destruct (decide (j = i)) as [->|?]; [|rewrite list_lookup_insert_ne by done; eauto].
    exists sl'. rewrite Hi in Hx. by injection Hx as <-.
  - intros j x [[-> ->]|[? Hx]]%Hj.
    + destruct (Hi2 Hng). split; simpl; [done| |done|done|]; [by rewrite E1, E2|]. intros Hst. specialize (Hi5 Hst). congruence.
    + destruct (Hp j x Hx). by split.
  - intros sid j n Hin. destruct (Ht sid j n Hin) as (x & Hx & Es & Hn & Hgx). unfold asked in *. simpl. destruct (decide (j = i)) as [->|?]; [|exists x; by rewrite list_lookup_insert_ne].
    exists sl'. rewrite Hi in Hx. injection Hx as <-. rewrite E1. done.
  - split; [|done]. pose proof (sum_with_insert flying (pool s) i sl sl' Hi). lia.
Qed.

(** A slot leaves the map: every request of its own has been seen to. *)
Lemma slot_leaves s i sl e :
  flusher_ok s → pool s !! i = Some sl → phase sl = Finished e → again sl && negb (stop s) = false → flusher_ok (settleSlot i sl e s).
Proof.
  intros [Hs Hp Ht [Hm Hm'] Hl] Hi He Ha. unfold settleSlot. rewrite Ha. pose proof (Hp i sl Hi) as [Hi1 Hi2 Hi3 Hi4 Hi5]. destruct Hi2 as [Hidle Hin]; [congruence|].
  set (sl' := MkSlot (session sl) Gone (again sl) e true (seen sl)).
  assert (∀ j x, <[i := sl']> (pool s) !! j = Some x → j = i ∧ x = sl' ∨ j ≠ i ∧ pool s !! j = Some x) as Hj by (by intros ? ? [(-> & -> & _)|]%list_lookup_insert_Some; [left|right; naive_solver]).
  assert (<[i := sl']> (pool s) !! i = Some sl') as Hii by (apply list_lookup_insert_eq; by eapply lookup_lt_Some).
  assert (stop s = true ∨ asked s sl = seen sl) as Hall.
  { destruct Hi4 as [E1|[?|?]]; [eauto| |auto..]. rewrite E1 in Ha. left. by destruct (stop s). }
  split; simpl; [| | | |done].
  - intros sid j [Hne Hj']%lookup_delete_Some. destruct (Hs sid j Hj') as (x & Hx & <- & Hx'). exists x. rewrite list_lookup_insert_ne; [done|]. congruence.
  - intros j x [[-> ->]|[Hne Hx]]%Hj; [split; simpl; [done|done|done|by intros [|[? ?]]|done]|]. destruct (Hp j x Hx) as [? H2 ? ? ?]. split; simpl; [done| |done|done|done].
    intros Hg. destruct (H2 Hg) as [? Hmap]. split; [done|]. rewrite lookup_delete_ne; [done|]. intros E1. rewrite <- E1 in Hmap. congruence.
  - intros sid j n Hn. destruct (Ht sid j n Hn) as (x & Hx & Es & Hn' & Hgx). destruct (decide (j = i)) as [->|?]; [|exists x; by rewrite list_lookup_insert_ne].
    exists sl'. rewrite Hi in Hx. injection Hx as <-. unfold asked in *. simpl. split_and!; [done..|]. intros _. destruct Hall as [?|Hall]; [by left|right]. by rewrite <- Hall.
  - split; [|done]. pose proof (sum_with_insert flying (pool s) i sl sl' Hi) as H. unfold flying in H at 2 4. rewrite He in H. simpl in H. lia.
Qed.

Lemma sweep_ok s : flusher_ok s → loop s = Woken → flusher_ok (sweepSlots s).
Proof.
  intros [Hs Hp Ht [Hm Hm'] Hl] Hw. unfold sweepSlots. set (g := λ i sl, if bool_decide (slots s !! session sl = Some i) && negb (running sl) then set_phase Acquiring sl else sl).
  assert (∀ i x, imap g (pool s) !! i = Some x → ∃ sl, pool s !! i = Some sl ∧ x = g i sl) as Hj.
  { intros i x. rewrite list_lookup_imap. intros (sl & ? & ->)%fmap_Some. eauto. }
  assert (∀ i sl, pool s !! i = Some sl → session (g i sl) = session sl ∧ (phase (g i sl) = phase sl ∧ g i sl = sl ∧ phase sl ≠ Owed ∨ phase sl = Owed ∧ g i sl = set_phase Acquiring sl)) as Hg.
  { intros i sl Hi. destruct (Hp i sl Hi) as [_ H2 _ _ _]. unfold g, running. destruct (phase sl) eqn:Eb; simpl; rewrite ?andb_false_r; try (split; [done|left; done]).
    destruct H2 as [_ ->]; [done|]. rewrite bool_decide_true by done. split; [done|by right]. }
  split; simpl.
  - intros sid i Hi. destruct (Hs sid i Hi) as (sl & Hsl & <- & Hg'). exists (g i sl). rewrite list_lookup_imap, Hsl. destruct (Hg i sl Hsl) as (E1 & [(E2 & _ & _)|(_ & E2)]); (split; [done|]); [by rewrite E1, E2|by rewrite E2].
  - intros i x (sl & Hi & ->)%Hj. destruct (Hp i sl Hi) as [H1 H2 H3 H4 H5]. destruct (Hg i sl Hi) as (E1 & [(_ & -> & Hno)|(Ho & ->)]).
    + split; simpl; [done|done|done|done|done].
    + split; simpl; [done| |done|by intros [|[? ?]]|done]. intros _. apply H2. by rewrite Ho.
  - intros sid i n Hin. destruct (Ht sid i n Hin) as (sl & Hi & Es & Hn & Hgone). exists (g i sl). rewrite list_lookup_imap, Hi. destruct (Hg i sl Hi) as (E1 & [(_ & E3 & _)|(_ & E3)]); simpl; rewrite E3; split_and!; done.
  - split; [|done]. rewrite Hm. symmetry. clear - Hg. revert Hg. generalize (pool s) as l. generalize g. intros g' l. revert g'. induction l as [|x l IH]; intros g' Hg; [done|]. simpl. f_equal.
    + destruct (Hg 0 x eq_refl) as (_ & [(_ & -> & _)|(Ho & ->)]); [done|]. unfold flying. by rewrite Ho.
    + apply (IH (g' ∘ S)). intros i sl Hi. apply (Hg (S i) sl Hi).
  - by intros [?|?].
Qed.

(** A request: a new slot, or an old one that is asked again if it is running. *)
Lemma asked_mono s sid n : default 0 (requested s !! sid) ≤ n → ∀ x, asked s x ≤ default 0 (<[sid := n]> (requested s) !! session x).
Proof.
  intros Hn x. unfold asked. destruct (decide (session x = sid)) as [->|?]; [by rewrite lookup_insert_eq|by rewrite lookup_insert_ne].
Qed.

Lemma request_new s sid : flusher_ok s → slots s !! sid = None → flusher_ok (requestFlush sid s).2.
Proof.
  intros [Hs Hp Ht [Hm Hm'] Hl] E0. unfold requestFlush. rewrite E0. set (n := S (default 0 (requested s !! sid))). set (new := MkSlot sid Owed false None false 0).
  assert (∀ i x, (pool s ++ [new]) !! i = Some x → pool s !! i = Some x ∧ i ≠ length (pool s) ∨ i = length (pool s) ∧ x = new) as Hj.
  { intros i x [H|[H1 H2]]%lookup_app_Some; [left; split; [done|]; apply lookup_lt_Some in H; lia|]. right. apply list_lookup_singleton_Some in H2 as [? <-]. split; [lia|done]. }
  assert (∀ i x, pool s !! i = Some x → (pool s ++ [new]) !! i = Some x) as Hold by (intros; by apply lookup_app_l_Some).
  assert ((pool s ++ [new]) !! length (pool s) = Some new) as Hnew by (by rewrite lookup_app_r, Nat.sub_diag).
  pose proof (asked_mono s sid n ltac:(unfold n; lia)) as Ha.
  split; simpl.
  - intros sid' i [[<- <-]|[Hne Hi]]%lookup_insert_Some; [by exists new|]. destruct (Hs sid' i Hi) as (x & ? & ? & ?). exists x. auto.
  - intros i x [[Hi Hne]|[-> ->]]%Hj.
    + destruct (Hp i x Hi) as [H1 H2 H3 H4 H5]. split; simpl; [done| |intros; left; lia| |done].
      * intros Hg. destruct (H2 Hg) as [? Hmap]. split; [done|]. rewrite lookup_insert_ne; [done|]. congruence.
      * intros Hph. destruct (H4 Hph) as [?|[?|Heq]]; [auto..|]. right. right. rewrite <- Heq. unfold asked. simpl. rewrite lookup_insert_ne; [done|].
        intros E1. destruct H2 as [_ Hmap]; [destruct Hph as [->|[? ->]]; done|]. rewrite <- E1 in Hmap. congruence.
    + split; simpl; [done|intros _; by rewrite lookup_insert_eq|intros; left; lia|by intros [?|[? ?]]|done].
  - intros sid' i k [[= -> -> ->]|Hin]%elem_of_cons.
    + exists new. split_and!; [done..| |done]. unfold asked. simpl. by rewrite lookup_insert_eq.
    + destruct (Ht sid' i k Hin) as (x & Hx & Es & Hk & Hg). exists x. split_and!; [auto|done| |done]. etrans; [exact Hk|]. apply Ha.
  - split; [|done]. rewrite sum_list_with_app. simpl. lia.
  - done.
Qed.

Lemma request_again s sid i : flusher_ok s → slots s !! sid = Some i → flusher_ok (requestFlush sid s).2.
Proof.
  intros [Hs Hp Ht [Hm Hm'] Hl] E0. unfold requestFlush. rewrite E0. set (n := S (default 0 (requested s !! sid))).
  set (f := λ sl, if running sl then MkSlot (session sl) (phase sl) true (err sl) (idle sl) (seen sl) else sl).
  assert (∀ x, session (f x) = session x ∧ phase (f x) = phase x ∧ idle (f x) = idle x ∧ seen (f x) = seen x) as Hf by (intros x; unfold f; by destruct (running x)).
  assert (∀ j x, alter f i (pool s) !! j = Some x → j = i ∧ (∃ y, pool s !! i = Some y ∧ x = f y) ∨ j ≠ i ∧ pool s !! j = Some x) as Hj.
  { intros j x. destruct (decide (j = i)) as [->|?]; [|rewrite list_lookup_alter_ne by done; auto]. rewrite list_lookup_alter_eq. intros (y & ? & ->)%fmap_Some. eauto. }
  assert (∀ j y, pool s !! j = Some y → ∃ x, alter f i (pool s) !! j = Some x ∧ session x = session y ∧ phase x = phase y ∧ seen x = seen y) as Hold.
  { intros j y Hy. destruct (decide (j = i)) as [->|?]; [|exists y; by rewrite list_lookup_alter_ne]. exists (f y). rewrite list_lookup_alter_eq, Hy. destruct (Hf y) as (? & ? & ? & ?). done. }
  pose proof (asked_mono s sid n ltac:(unfold n; lia)) as Ha.
  split; simpl.
  - intros sid' j Hi. destruct (Hs sid' j Hi) as (y & Hy & <- & ?). destruct (Hold j y Hy) as (x & ? & ? & E1 & ?). exists x. by rewrite E1.
  - intros j x [[-> (y & Hy & ->)]|[Hne Hx]]%Hj.
    + destruct (Hp i y Hy) as [H1 H2 H3 H4 H5]. destruct (Hf y) as (E1 & E2 & E3 & E4). split; simpl; rewrite ?E1, ?E2, ?E3; [done|done|intros; left; lia| |].
      * intros Hph. left. unfold f, running. destruct Hph as [->|[? ->]]; done.
      * intros Hst. unfold live. rewrite E2. by apply H5.
    + destruct (Hp j x Hx) as [H1 H2 H3 H4 H5]. split; simpl; [done|done|intros; left; lia| |done].
      intros Hph. destruct (H4 Hph) as [?|[?|Heq]]; [auto..|]. right. right. rewrite <- Heq. unfold asked. simpl. rewrite lookup_insert_ne; [done|].
      intros E1. destruct H2 as [_ Hmap]; [destruct Hph as [->|[? ->]]; done|]. rewrite <- E1 in Hmap. congruence.
  - intros sid' j k [[= -> -> ->]|Hin]%elem_of_cons.
    + destruct (Hs sid i E0) as (y & Hy & E1 & Hg). destruct (Hold i y Hy) as (x & Hx & E2 & E3 & _). exists x. split_and!; [done|congruence| |congruence].
      unfold asked. simpl. by rewrite E2, E1, lookup_insert_eq.
    + destruct (Ht sid' j k Hin) as (y & Hy & Es & Hk & Hg). destruct (Hold j y Hy) as (x & Hx & E2 & E3 & E4). exists x. rewrite E3, E4. split_and!; [done|congruence| |done].
      etrans; [exact Hk|]. unfold asked at 2. simpl. rewrite E2. apply Ha.
  - split; [|done]. rewrite sum_alter; [done|]. intros x. unfold flying. by destruct (Hf x) as (_ & -> & _).
  - done.
Qed.

Lemma flusher_worker_ok s s' : flusher_ok s → worker s s' → flusher_ok s'.
Proof.
  intros HS [Hs|Hl Hw|Hl|Hl Hst|Hl Hall|i sl Hi Hp Hm|i sl Hi Hp Hst|i sl e Hi Hp|i sl e Hi Hp]; pose proof HS as [_ HP _ [Hn Hn'] HL].
  - apply (signal_ok s true (loop s) (pred (sending s)) (stop s)); [done|auto|done|done|]. intros Hsp. apply Forall_lookup. intros j x Hx. by apply (HP j x Hx).
  - apply (signal_ok s false Woken (sending s) (stop s)); [done|auto|done|by intros [?|?]|done].
  - by apply sweep_ok.
  - apply (signal_ok s (wake s) Joining (sending s) (stop s)); [done|auto|done|done|done].
  - apply (signal_ok s (wake s) Stopped (sending s) (stop s)); [done|intros; right; right; right; auto|done|auto|done].
  - apply (slot_moves s i sl); simpl; [done|done|by rewrite Hp|done|done|done|done|intros _; by right; right|unfold live; by rewrite Hp| |unfold maxConcurrentFlushes in *; lia].
    unfold flying. rewrite Hp. simpl. lia.
  - apply (slot_moves s i sl _ (sem s)); simpl; [done|done|by rewrite Hp|done|done|done|done|auto|unfold live; by rewrite Hp| |done]. unfold flying. rewrite Hp. simpl. lia.
  - apply (slot_moves s i sl _ (pred (sem s))); simpl; [done|done|by rewrite Hp|done|done|done|done| |unfold live; by rewrite Hp| |unfold maxConcurrentFlushes in *; lia].
    + intros _. destruct (HP i sl Hi) as [_ _ _ H4 _]. apply H4. by left.
    + pose proof (sum_with_insert flying (pool s) i sl (set_phase (Finished e) sl) Hi) as H. unfold flying at 2 4 in H. unfold flying. rewrite Hp in *. simpl in *. lia.
  - destruct (again sl && negb (stop s)) eqn:Ha; [|by apply slot_leaves]. unfold settleSlot. rewrite Ha.
    apply (slot_moves s i sl _ (sem s)); simpl; [done|done|by rewrite Hp|done|done|done|done|by intros [|[? ?]]|unfold live; by rewrite Hp| |done]. unfold flying. rewrite Hp. simpl. lia.
Qed.

Lemma flusher_step_ok s s' : flusher_ok s → step s s' → flusher_ok s'.
Proof.
  intros HS [sid| |s2 Hw]; [|apply (signal_ok s (wake s) (loop s) (sending s) true); [done|auto|done|done|]|by eapply flusher_worker_ok].
  - destruct (slots s !! sid) as [i|] eqn:E0; [by eapply request_again|by apply request_new].
  - intros Hsp. apply Forall_lookup. intros j x Hx. by apply (fo_pool s HS j x Hx).
Qed.

Lemma reachable_flusher s : reachable s → flusher_ok s.
Proof.
  unfold reachable. intros H. pose proof start_ok as H0. revert H0. induction H as [|x y z Hxy _ IH]; [done|]. intros Hx. apply IH. by eapply flusher_step_ok.
Qed.

(** * Nothing that is asked for is forgotten *)

Lemma worker_keeps s s' : rtc worker s s' → tickets s' = tickets s ∧ stop s' = stop s.
Proof.
  induction 1 as [|x y z Hxy _ IH]; [done|]. destruct IH as [-> ->]. destruct Hxy; try done. unfold settleSlot. by destruct (_ && _).
Qed.

Lemma flight_exists l : 0 < sum_list_with flying l → ∃ i sl, l !! i = Some sl ∧ phase sl = Flushing.
Proof.
  induction l as [|x l IH]; simpl; [lia|]. intros H. destruct (phase x) eqn:Ep; try (destruct IH as (i & sl & ? & ?); [unfold flying in H at 1; rewrite Ep in H; lia|by exists (S i), sl]).
  by exists 0, x.
Qed.

(** Where nothing can move and the flusher is not stopped, every slot has left the map. *)
Lemma worker_stuck s : flusher_ok s → stop s = false → (∀ s', ¬ worker s s') → loop s = Waiting ∧ ∀ i sl, pool s !! i = Some sl → phase sl = Gone.
Proof.
  intros [_ Hp _ [Hm Hm'] Hl] Hst Hn. assert (loop s = Waiting) as HW.
  { destruct (loop s) eqn:El; [done|exfalso; eapply Hn; by apply work_sweep|..]; rewrite Hl in Hst; auto; done. }
  split; [done|]. assert (sending s = 0) as Hs by (destruct (sending s) eqn:Es; [done|exfalso; eapply Hn, work_send; lia]).
  assert (wake s = false) as Hw by (destruct (wake s) eqn:Ew; [exfalso; eapply Hn; by apply work_receive|done]).
  assert (∀ j x, pool s !! j = Some x → phase x ≠ Flushing) as HF by (intros j x Hj Hx; eapply Hn; by apply (work_finish s j x None)).
  intros i sl Hi. destruct (phase sl) eqn:Ep; [..|done]; exfalso.
  - destruct (so_owed _ _ _ (Hp i sl Hi) Ep) as [?|[?|[?|?]]]; [lia|congruence..].
  - eapply Hn. apply (work_acquire s i sl); [done..|]. destruct (decide (sem s = 0)) as [->|]; [unfold maxConcurrentFlushes; lia|].
    destruct (flight_exists (pool s)) as (j & x & Hj & Hx); [lia|]. by destruct (HF j x Hj).
  - by eapply HF.
  - eapply Hn. by apply (work_settle s i sl e).
Qed.

(** C12. No flush that is asked for is forgotten: the worker comes to rest whatever it does,
    and where it rests, unless the store was closed, every request has had a pass that began
    after it, the slots are gone and [FlushTranscript] returns the result of that pass. *)
Theorem trigger_flushed s :
  reachable s →
  sn worker s ∧ ∀ s', rtc worker s s' → stop s = false → (∀ s'', ¬ worker s' s'') →
    slots s' = ∅ ∧ ∀ sid i n, (sid, i, n) ∈ tickets s →
      ∃ sl, pool s' !! i = Some sl ∧ session sl = sid ∧ n ≤ seen sl ∧ FlushTranscript i s' = [Answered (err sl)].
Proof.
  intros Hr. split; [apply worker_ends|]. intros s' Hs Hst Hn. destruct (worker_keeps s s' Hs) as [Et Es]. rewrite Hst in Es.
  assert (flusher_ok s') as HO.
  { apply reachable_flusher. unfold reachable in *. etrans; [exact Hr|]. eapply rtc_subrel; [|exact Hs]. by constructor. }
  destruct (worker_stuck s' HO Es Hn) as [Hl Hg]. destruct HO as [H1 H2 H3 _ _]. split.
  - apply map_empty. intros sid. destruct (slots s' !! sid) as [i|] eqn:Ei; [|done]. destruct (H1 sid i Ei) as (sl & Hi & _ & Hne). by apply Hg in Hi.
  - intros sid i n Hin. rewrite <- Et in Hin. destruct (H3 sid i n Hin) as (sl & Hi & Esl & _ & Hgone). exists sl. pose proof (Hg i sl Hi) as Hp.
    split_and!; [done..| |]; [by destruct (Hgone Hp); [congruence|]|]. unfold FlushTranscript. by rewrite Hi, Hl, (so_gone _ _ _ (H2 i sl Hi) Hp).
Qed.

(** A caller that is answered while the store is open has the result of a pass that began
    after its request. *)
Lemma flush_barrier s sid i n e :
  reachable s → (sid, i, n) ∈ tickets s → stop s = false → Answered e ∈ FlushTranscript i s →
  ∃ sl, pool s !! i = Some sl ∧ session sl = sid ∧ err sl = e ∧ n ≤ seen sl.
Proof.
  intros [_ H2 H3 _ Hl]%reachable_flusher Hin Hst Ha. destruct (H3 sid i n Hin) as (sl & Hi & Es & _ & Hg). exists sl. unfold FlushTranscript in Ha. rewrite Hi in Ha.
  assert (loop s ≠ Stopped) as Hnl by (intros E0; rewrite Hl in Hst; auto; done).
  assert (idle sl = true ∧ err sl = e) as [Hid He].
  { apply elem_of_app in Ha as [Ha|Ha]; [|by destruct (loop s); try apply elem_of_nil in Ha]. destruct (idle sl); [|by apply elem_of_nil in Ha].
    apply list_elem_of_singleton in Ha. by injection Ha. }
  split_and!; [done..|]. destruct (phase sl) eqn:Ep; try (destruct (so_there _ _ _ (H2 i sl Hi)) as [Hx _]; [by rewrite Ep|congruence]). destruct Hg; [done|congruence|done].
Qed.

(** One pass per session, four at a time, and none once the worker has stopped. *)
Lemma passes_exclude s : reachable s →
  (∀ i j x y, pool s !! i = Some x → pool s !! j = Some y → live x = true → live y = true → session x = session y → i = j)
  ∧ sum_list_with flying (pool s) ≤ maxConcurrentFlushes
  ∧ (loop s = Stopped → ∀ i x, pool s !! i = Some x → live x = false).
Proof.
  intros [_ H2 _ [Hm Hm'] _]%reachable_flusher. split_and!; [|lia|intros Hs i x Hx; by apply (so_stopped _ _ _ (H2 i x Hx))].
  intros i j x y Hx Hy Lx Ly E0. assert (∀ z, live z = true → phase z ≠ Gone) as Hlive by (intros z; unfold live; by destruct (phase z)).
  destruct (so_there _ _ _ (H2 i x Hx)) as [_ H3]; [by apply Hlive|]. destruct (so_there _ _ _ (H2 j y Hy)) as [_ H4]; [by apply Hlive|]. rewrite E0 in H3. congruence.
Qed.

End flusher.

(** * A run: one request, its pass fails, the slot goes *)

Definition asked_once : @transcriptFlusher unit := (requestFlush (lit "s") newTranscriptFlusher).2.

Definition last_pass (s : @transcriptFlusher unit) (f : nat → flushSlot → transcriptFlusher → transcriptFlusher) : transcriptFlusher :=
  match pool s !! 0 with Some sl => f 0 sl s | None => s end.

Definition flushed_once : @transcriptFlusher unit :=
  last_pass (last_pass (last_pass (sweepSlots (set_worker false Woken (sendWake asked_once))) acquire) (λ i sl, finishPass i sl (Some tt))) (λ i sl, settleSlot i sl (Some tt)).

Lemma pass_step s f sl : pool s !! 0 = Some sl → worker tt s (f 0 sl s) → worker tt s (last_pass s f).
Proof. unfold last_pass. by intros ->. Qed.

Lemma flushed_once_run : rtc (worker tt) asked_once flushed_once.
Proof.
  unfold flushed_once. eapply rtc_r; [eapply rtc_r; [eapply rtc_r; [eapply rtc_r; [eapply rtc_r; [apply rtc_once|]|]|]|]|].
  - apply work_send, Nat.lt_0_succ.
  - by apply work_receive.
  - by apply work_sweep.
  - eapply (pass_step _ acquire); [vm_compute; reflexivity|]. apply work_acquire; [by vm_compute..|apply Nat.lt_0_succ].
  - eapply (pass_step _ (λ i sl, finishPass i sl (Some tt))); [vm_compute; reflexivity|]. cbv beta. by apply work_finish; vm_compute.
  - eapply pass_step; [vm_compute; reflexivity|]. cbv beta. by apply work_settle; vm_compute.
Qed.

Lemma flushed_once_rests s : ¬ worker tt flushed_once s.
Proof.
  assert (∀ i sl, pool flushed_once !! i = Some sl → phase sl = Gone) as Hg by (by intros [|i] sl [= <-]).
  intros [Hs|Hl Hw|Hl|Hl Hst|Hl Hall|i sl Hi Hp Hm|i sl Hi Hp Hst|i sl e Hi Hp|i sl e Hi Hp]; try (apply Hg in Hi; congruence); try done. by apply Nat.lt_irrefl in Hs.
Qed.

Lemma trigger_flushed_witness : ∃ sl, pool flushed_once !! 0 = Some sl ∧ session sl = lit "s" ∧ 1 ≤ seen sl ∧ FlushTranscript 0 flushed_once = [Answered (err sl)].
Proof.
  apply (trigger_flushed tt asked_once); [apply rtc_once, step_request|apply flushed_once_run|done|apply flushed_once_rests|left].
Defined.

End TranscriptFlusher.
